(* ===== verification/_CoqProject ===== *)
-Q . S2P
Prelude.v
Bits.v
Instr.v
Decode.v
Compressed.v
APInt.v
KExpr.v
KBuilder.v
KBuilderSound.v
KType.v
KCreate.v
KCreateShape.v
KCreateSound.v
KVisitor.v
KConstraints.v
Concolic.v
ConcMem.v
PathTrace.v
ExecContext.v
Csr.v
Iss.v
Mmu.v
MmuSpec.v
Bus.v
MemIf.v
MemSpec.v
Platform.v
IssTrap.v
IssExec.v
IssSound.v
IssSpec.v
IssCsr.v
MemSound.v
MemTables.v
RegMap.v
TlmMap.v
Plic.v
PlicSpec.v
Fu540.v
Fu540Spec.v
GdbPacket.v
GdbServer.v
GdbSpec.v
GdbIss.v
Syscall.v
Clint.v
ClintSpec.v
Uart.v
UartSpec.v
Slip.v
Bencode.v
SymContext.v
SymFormat.v
Sps.v
SymUart.v
ElfLoader.v
Coverage.v
Explore.v
SymDevices.v
KReads.v
RangeBounds.v
KRange.v
KSolver.v
KEval.v
KCompare.v
MapOfSets.v
KCaching.v
KNegation.v
KValidating.v
FastCex.v
KCexCaching.v
KIndependent.v
Z3Api.v
Z3Builder.v
Z3Sound.v
Z3Solver.v
SolverChain.v
