(* ===== verification/Prelude.v ===== *)
(** * The symbolic virtual prototype: a RISC-V simulator that executes concolically

    The program simulates an RV32 hart (vp/src/core) whose registers and memory hold
    concolic values: a concrete constant together with, where the value depends on the
    symbolic input, the expression it is an instance of (vp/src/symex/clover, on KLEE's
    expression library).  Branch conditions are recorded in a tree; after each run the
    tree is searched for a branch to negate, a solver gives an input for the other
    direction, and the program runs again on it.

    ** Files

    - [Prelude]: machine integers ([wrap], [swrap]), the state-and-exception monad of the
      C++ member functions ([sm]: what was written before an exception stays written), its
      logic ([triple], [keeps], [yields], with the hint databases of the same names), the
      [switch] notation, shared lemmas.
    - [Bits], [Instr], [Decode], [Compressed] (core/common/instr.h, instr.cpp): the field
      and immediate accessors, the table of masks and encodings, [decode_normal], the
      recognition and the expansion of compressed instructions.
    - [APInt], [KExpr], [KBuilder], [KBuilderSound] (symex/clover/klee: Expr.h, Expr.cpp,
      ExprBuilder.h, ExprBuilder.cpp): expressions with their value under an assignment of
      the symbolic arrays, and the three expression builders chained by the solver.
    - [KType], [KCreate], [KCreateShape], [KCreateSound] (klee/lib/Expr/Expr.cpp): the type
      of an expression, what an assignment says of it, and the [create] functions, which
      sort and fold sums and comparisons and rebuild an expression from new operands.
    - [KVisitor] (ExprVisitor.cpp), [KConstraints] (Constraints.cpp): the visitor with its
      cache, and the constraint manager on top of it: simplification under a constraint
      set, and the insertion of a constraint with the rewriting it causes.
    - [Concolic] (clover: intval.cpp, bitvector.cpp, concolic.cpp, solver.cpp), [ConcMem]
      (memory.cpp), [PathTrace] (node.cpp, trace.cpp, solver.cpp), [ExecContext]
      (context.cpp): concolic values and memory, the execution tree and the search for a
      new path, the values of the symbolic variables of this and the next run.
    - [Csr] (core/rv32/csr.h): the control and status registers, their fields and masks.
    - [Iss], [IssTrap], [IssExec] (core/rv32/iss.h, iss.cpp; core/common: trap.h, irq_if.h,
      core_defs.h): the hart.  [Iss] has its state, the register file and the access to
      CSRs, [IssTrap] traps and interrupts, [IssExec] one case of [execute] per opcode of
      the source's switch, [exec_step], [run_step] and the loop [run].
    - [IssSound], [IssSpec], [IssCsr]: the theorems on the hart.  [Platform]: a platform of
      plain memory, the environment the witnesses run programs on.
    - [Mmu] (core/common/mmu.h), [Bus] (platform/common/bus.h, core/common/bus_lock_if.h,
      symex/symbolic_memory.cpp, symbolic_extension.h), [MemIf] (core/rv32/mem.h): address
      translation, transactions, address decoding, the bus lock and the memory behind it,
      composed to the environment the hart runs in.  [MmuSpec], [MemSpec], [MemSound],
      [MemTables]: their theorems.
    - [RegMap] (util/memory_map.h), [TlmMap] (util/tlm_map.h): register maps of the
      peripherals.  [Plic], [PlicSpec] (platform/common/fe310_plic.h), [Clint], [ClintSpec]
      (core/common/clint.h), [Uart], [UartSpec] (platform/common/abstract_uart.cpp), [Slip]
      (platform/common/slip.cpp), [Fu540], [Fu540Spec] (platform/common/fu540_plic.cpp): the
      peripherals, as steps of their callbacks and threads.
    - [Bencode] (symex/bencode.hpp), [SymContext] (symbolic_context.cpp), [SymFormat]
      (symbolic_format.cpp), [Sps] (symbolic_protocol_states.cpp), [SymUart]
      (platform/hifive/symbolic_uart.cpp), [SymDevices] (platform/symex/symex_sensor.cpp,
      symex/symbolic_ctrl.cpp): what feeds the software symbolic input: the assumptions and
      packet sequences of the exploration, the messages a server of protocol states
      describes and their bytes, and the devices by which the software reads them.
    - [ElfLoader] (core/common/elf_loader.h), [Coverage] (core/rv32/coverage.cpp,
      textaddrparser.cpp), [Explore] (symex/symbolic_explore.cpp): the image loaded, the
      branches covered, and the loops that run the simulation until no path is left.
    - [GdbPacket] (gdb-mc/libgdb/util.c, response.c), [GdbServer] (gdb_server.cpp, handler.cpp,
      debug_memory.cpp), [GdbSpec], [GdbIss] (gdb_runner.cpp): the debugger's stub: packets,
      commands, and the simulator as its target.  [Syscall] (core/rv32/syscall.cpp): the
      emulation of system calls, for a core by its registers.
    - [KReads] (ExprUtil.cpp), [KSolver] (Solver.h, SolverImpl.h, Solver.cpp), [KEval]
      (ExprEvaluator.cpp, Assignment.h), [KCompare] (Expr.cpp, Updates.cpp), [MapOfSets]
      (MapOfSets.h), [KCaching] (IncompleteSolver.cpp, CachingSolver.cpp), [KCexCaching]
      (CexCachingSolver.cpp), [KIndependent] (IndependentSolver.cpp), [SolverChain]
      (clover/solver.cpp): the solvers between clover and the core solver, one file each,
      what they promise each other, and the chain clover composes of them.
    - [RangeBounds], [KRange] (ExprRangeEvaluator.h, FastCexSolver.cpp), [FastCex]
      (FastCexSolver.cpp): the least and greatest values of bit operations between bounds,
      ranges of the values of expressions, and the incomplete solver that propagates them.
    - [Z3Api], [Z3Builder] (Z3Builder.cpp), [Z3Sound], [Z3Solver] (Z3Solver.cpp): the functions
      of Z3 that KLEE uses, the terms built of expressions and what they mean, and the core
      solver at the end of the chain.  [KNegation]: what the negation of a query says of it.
    - [KValidating] (ValidatingSolver.cpp, AssignmentValidatingSolver.cpp): the solvers that
      check another's answers.

    ** Interfaces

    Components meet in classes that state what one promises the other.
    - [APInt.APInt]/[APIntLaws]: LLVM's fixed-width integers, which are not part of the
      repository; the laws are modular arithmetic.  [APInt_Z] is an instance.
    - [GdbServer.DebugTarget], [Syscall.HostOS], [Syscall.SyscallCore]: what the stub and the
      system calls use of harts, bus, socket and host.
    - [KBuilder.ExprBuilder]/[BuilderLaws]: what a builder promises, namely that the
      expression built evaluates to the operator applied to the operands' values.
      [KBuilderSound] proves it of the chain; [Concolic] and everything above use only the
      interface.
    - [PathTrace.KleeSolver]/[KleeSolverLaws]: KLEE's constraint manager and solver chain.
      The laws: simplification and insertion keep the meaning of the constraints, a model
      satisfies the query.  [PathTrace.klee_solver] discharges them with the constraint
      manager of [KConstraints]; of the solver chain alone it is assumed that the model it
      returns satisfies the query.
    - [Iss.Env]/[EnvLaws]/[LockLaws]/[RecordLaws]: what the hart calls: instruction and data
      memory, bus lock, clock, system calls, coverage, symbolic context.  The laws: the calls
      keep the environment's invariant, and what memory returns is a concolic view of a word;
      the lock is given back, and the coverage of a branch recorded, without an exception.
      [Platform.ram_env] is an instance; [MemIf.mem_env] is the one of the real system.
    - [Mmu.MmuHost]: what address translation calls (page table accesses, clock);
      [MmuSpec.PageTables]: that these accesses read and write one table.  [MemTables] shows
      it of the memory behind the bus.
    - [MemIf.Platform]/[MemSound.PlatformLaws]: the sockets of the bus and the devices
      behind them, system calls and the other environment of the memory interface.  The
      laws ask a device for no more than to answer with concolic views.
    - [TlmMap.Registers]: the handlers of a device behind its register map.
      [Clint.KernelEvent], [Slip.TunDevice]: SystemC's timed events and the host's tunnel,
      as far as the source uses them.
    - [SymFormat.QueryParser], [Sps.SpsServer], [Explore.Simulation], [Coverage.InstrMem],
      [SymDevices.SymbolicIss]: the parser of constraints, the server, one simulated run, the
      memory of the program text, and the core, as the exploration and its devices see them.
    - [KSolver.SolverImpl]/[impl_ok]: a solver implementation and its promise: a truth, a
      validity, a value or initial values that are right for the query, or a failure, in every
      state its invariant allows; [KCaching.IncompleteSolver]/[incomplete_ok] for one that may
      not know.  Each solver of the chain is shown to keep the promise, given that the solver
      behind it does, FastCexSolver to keep that of an incomplete one, and the core solver to
      keep it by the laws of Z3.  The condition [KSolver.core_ok] on expressions says where the
      terms of the core solver have the meaning KLEE gives them.  [KSolver.AssertPolicy] says whether a failed assertion is allowed:
      the solvers of the chain fail none of their own, FastCexSolver may.
    - [Z3Api.Z3Api]/[Z3Laws]: the C interface of Z3: sorts, the SMT-LIB meaning of terms, the
      answers of a solver and the values of a model.  [Z3Api.Z3_terms] is an instance.
    - [KCompare.Ordered], [KCompare.ExprIdentity]: a total order, which the caches rely on, and
      the addresses of arrays, which the order of expressions uses.

    ** Theorems

    - Decoder ([Decode], [Compressed]): [decode_normal] answers exactly by the encoding
      table; encodings do not overlap; an expanded compressed instruction decodes to the
      opcode announced ([C.ADDIW] of RV64 apart), with the immediates of the compressed form.
    - Expressions ([KBuilderSound]): the rewriting of the builders terminates, keeps the
      value, and reaches the canonical form.
    - Constraints ([KCreateSound], [KConstraints]): what the [create] functions build and
      what simplification returns is well typed and has the value of what was given; a
      constraint set means after an insertion what it and the constraint meant together,
      and an insertion that ends in an assertion was of a constraint the set refutes.
    - Concolic values ([Concolic], [ConcMem], [ExecContext]): the concrete and the symbolic
      part stay views of one value ([cval]); the memory refines bytes; prepared values are
      handed out once.
    - Path search ([PathTrace]): it terminates, is complete, keeps the shape of the tree,
      and an assignment returned leads to code not explored.
    - Hart: along every run registers and recorded constraints agree with the input
      ([IssSound]); each instruction does what an integer specification says, on every
      concolic operand, and a branch on symbolic operands leaves its condition, which holds of
      exactly the inputs that take it, in the constraints and in the tree ([IssSpec]); CSR access, masks and privilege checks ([IssCsr]);
      delegation, entry, return, selection and priority of interrupts ([IssTrap]).
    - Address translation ([MmuSpec]): the walk computes the Sv32 translation with its
      faults; the look-aside buffer never answers other than a walk would; how wide its
      results are.
    - Memory interface: loads and stores reach the bytes the bus decodes ([MemSpec]), or
      those the page tables give, whose leaf entry is marked accessed and dirty ([MemTables]); errors of the bus become access faults or
      end the simulation; a reservation is lost or kept as the lock says; the whole system
      of hart, translation, bus and memory keeps concrete and symbolic part views of one
      value ([MemSound]).
    - Peripherals: the interrupt controller hands out the pending enabled interrupt of the
      highest priority and delivers what is triggered ([PlicSpec]); timer interrupts follow
      the comparators within a microsecond ([ClintSpec]); the queues of the UART are bounded,
      and the bytes the program writes are those sent, the ones that arrive those it reads, under
      every interleaving ([UartSpec]); SLIP framing round trips; the
      controller of the FU540 chooses, claims and signals as its code, not its manual, says
      ([Fu540Spec]).
    - Debugger and system calls: packets round trip and are answered by exactly one
      ([GdbPacket], [GdbSpec]); what reading and writing under the debugger does, half of a
      write lost; a breakpoint stops the hart before anything is executed ([GdbIss]); what each
      system call does to heap, memory and register, and which end the simulation ([Syscall]).
    - Symbolic input: bencode round trips ([Bencode]); assumptions are recorded and enforced
      ([SymContext]); a message is delivered byte by byte as its fields describe ([SymFormat],
      [Sps]), through the UART as well ([SymUart]); readings of the sensor are within bounds
      ([SymDevices]).
    - Exploration: the loader puts the segments where the headers say ([ElfLoader]); coverage
      only grows ([Coverage]); the exploration ends ([Explore]).
    - Solvers: evaluation under an assignment is the value ([KEval]); the map from sets finds
      subsets and supersets ([MapOfSets]); the order on expressions is total ([KCompare]); through
      all solvers of the chain an assignment satisfies the query, a truth is right, and no
      assertion fails but the incomplete solver's ([SolverChain]), on what the caches
      ([KCaching], [KCexCaching]) and the factors ([KIndependent]) keep and share.
    - Ranges: the scans for the bounds of bit operations are exact ([RangeBounds]); a range
      evaluated holds the value ([KRange], where concatenations are of bytes);
      what the incomplete solver finds out of ranges is right, and its examples are the middles
      of the ranges ([FastCex]).
    - Core solver: every expression is built, without a failed assertion, as a term with its value
      ([Z3Sound]); the core solver keeps the contract of a solver, if the names it gives arrays
      are not ambiguous, which the code does not ensure ([Z3Solver]).  Of right answers no check
      of the validating solvers fails, and what they let through is right ([KValidating]).

    ** Conventions, bounds and fuel

    Machine integers are [Z] with the wrap-around written out.  An exception is a value
    [exn] of the monad: a [SimulationTrap], a C++ runtime error, or a failed assertion.
    Pointers to shared, immutable concolic values are the values themselves.  Time is
    counted in nanoseconds, without a bound.  [rand()] is a stream of outcomes the theorems
    quantify over.  These recursions run on fuel: the sums of the constant folding builder and
    of the [create] functions, and [ExtractExpr::create] (proved enough for the size of the
    operands); the visitor and the insertion of a constraint (likewise, from the sizes of
    the expressions); [findNewPath] (any fuel above the number of branches
    not yet negated is proved enough), [IssExec.run], the loop of a simulation that need
    not end: its theorems hold for every prefix of a run; and the wait for the bus lock
    ([MemIf]), whose bound is how long the platform lets the other hart hold it.  The decoder of
    bencode runs on the length of its input, the sweep of a section on its size, the loops of the
    exploration on the bound of branches and partial paths ([Explore.exploration_ends]), the
    traversal and the evaluation of an expression on its size, the loops over factors and
    required constraints on their number, and the writes of a packet on its length; all are
    proved enough.  A run under the debugger is of so many steps ([GdbIss]).

    ** Not modelled

    The other peripherals (the real-time CLINT, terminals, GPIO, SPI) are host I/O, real
    time or stubs.  Z3 itself is an interface with laws; KLEE's logging solvers write files;
    the parsers of constraints and the server of protocol states are interfaces; reports,
    environment variables and signals of the exploration are left out.
    SystemC's scheduler, the sockets and the threads of the GDB stub and the grammar of its
    commands (a submodule parses it), printing and tracing are outside of the development; the
    operating system under the system calls is an interface.  Of the instruction
    set, the operations compiled out in the source (floating point, [SRET], [URET],
    [SFENCE.VMA]) have no effect to model beyond the error they end with. *)

From Stdlib Require Export ZArith Lia Bool.
From stdpp Require Export base numbers option list gmap strings.

#[global] Open Scope Z_scope.

(** * Machine integers

    The C++ code computes with [uint8_t], [uint32_t], [uint64_t], [int32_t]
    and bit-fields.  A machine integer is the mathematical integer it denotes;
    a conversion to a [w]-bit type is written out. *)

(** Conversion to an unsigned [w]-bit type. *)
Definition wrap (w z : Z) : Z := z mod 2 ^ w.

(** Conversion to a signed (two's complement) [w]-bit type. *)
Definition swrap (w z : Z) : Z := (z + 2 ^ (w - 1)) mod 2 ^ w - 2 ^ (w - 1).

Abbreviation u8 := (wrap 8).
Abbreviation u32 := (wrap 32).
Abbreviation u64 := (wrap 64).
Abbreviation s32 := (swrap 32).

(** * Fallible, stateful computations

    A C++ member function that mutates its object and may throw is a function
    from the state to a result and the state reached: what was written before
    the exception stays written. *)

Inductive result (E A : Type) : Type :=
| Ok (a : A)
| Err (e : E).
Arguments Ok {E A} a.
Arguments Err {E A} e.

#[export] Instance result_eq_dec (E A : Type) `{!EqDecision E, !EqDecision A} :
  EqDecision (result E A).
Proof. solve_decision. Defined.

Definition SM (S E A : Type) : Type := S -> result E A * S.

Definition sm_ret {S E A} (a : A) : SM S E A := fun s => (Ok a, s).
Definition sm_bind {S E A B} (m : SM S E A) (k : A -> SM S E B) : SM S E B :=
  fun s => match m s with
           | (Ok a, s') => k a s'
           | (Err e, s') => (Err e, s')
           end.
Definition sm_throw {S E A} (e : E) : SM S E A := fun s => (Err e, s).
Definition sm_gets {S E A} (f : S -> A) : SM S E A := fun s => (Ok (f s), s).
Definition sm_modify {S E} (f : S -> S) : SM S E unit := fun s => (Ok tt, f s).
(** [try { m } catch (e) { h(e) }] *)
Definition sm_catch {S E A} (m : SM S E A) (h : E -> SM S E A) : SM S E A :=
  fun s => match m s with
           | (Ok a, s') => (Ok a, s')
           | (Err e, s') => h e s'
           end.
Definition sm_when {S E} (b : bool) (m : SM S E unit) : SM S E unit :=
  if b then m else sm_ret tt.

Declare Scope sm_scope.
Delimit Scope sm_scope with sm.
Notation "x <-- m ;; k" := (sm_bind m (fun x => k))
  (at level 100, m at next level, right associativity) : sm_scope.
Notation "m ;;; k" := (sm_bind m (fun _ => k))
  (at level 100, right associativity) : sm_scope.

(** Hoare triples: [Q] is what holds when [m] returns, [R] when it throws. *)
Section hoare.
Context {S E : Type}.

Definition triple {A} (P : S -> Prop) (m : SM S E A)
  (Q : A -> S -> Prop) (R : E -> S -> Prop) : Prop :=
  forall s, P s -> match m s with
                   | (Ok a, s') => Q a s'
                   | (Err e, s') => R e s'
                   end.

Lemma triple_ret {A} (a : A) P (Q : A -> S -> Prop) R :
  (forall s, P s -> Q a s) -> triple P (sm_ret a) Q R.
Proof. intros H s Hs. by apply H. Qed.

Lemma triple_throw {A} (e : E) P (Q : A -> S -> Prop) R :
  (forall s, P s -> R e s) -> triple P (sm_throw e) Q R.
Proof. intros H s Hs. by apply H. Qed.

Lemma triple_gets {A} (f : S -> A) P (Q : A -> S -> Prop) R :
  (forall s, P s -> Q (f s) s) -> triple P (sm_gets f) Q R.
Proof. intros H s Hs. by apply H. Qed.

Lemma triple_modify (f : S -> S) P (Q : unit -> S -> Prop) R :
  (forall s, P s -> Q tt (f s)) -> triple P (sm_modify f) Q R.
Proof. intros H s Hs. by apply H. Qed.

Lemma triple_bind {A B} (m : SM S E A) (k : A -> SM S E B) P P' Q R :
  triple P m P' R -> (forall a, triple (P' a) (k a) Q R) ->
  triple P (sm_bind m k) Q R.
Proof.
  intros Hm Hk s Hs. unfold sm_bind. specialize (Hm s Hs).
  destruct (m s) as [[a|e] s']; [by apply Hk|done].
Qed.

Lemma triple_catch {A} (m : SM S E A) (h : E -> SM S E A) P Q R R' :
  triple P m Q R' -> (forall e, triple (R' e) (h e) Q R) ->
  triple P (sm_catch m h) Q R.
Proof.
  intros Hm Hh s Hs. unfold sm_catch. specialize (Hm s Hs).
  destruct (m s) as [[a|e] s']; [done|by apply Hh].
Qed.

Lemma triple_conseq {A} (m : SM S E A) (P P' : S -> Prop)
  (Q Q' : A -> S -> Prop) (R R' : E -> S -> Prop) :
  triple P' m Q' R' -> (forall s, P s -> P' s) ->
  (forall a s, Q' a s -> Q a s) -> (forall e s, R' e s -> R e s) ->
  triple P m Q R.
Proof.
  intros Hm HP HQ HR s Hs. specialize (Hm s (HP s Hs)).
  destruct (m s) as [[a|e] s']; auto.
Qed.

(** [m] keeps the state predicate [I] whether it returns or throws. *)
Definition keeps {A} (I : S -> Prop) (m : SM S E A) : Prop :=
  triple I m (fun _ => I) (fun _ => I).

Lemma keeps_ret {A} I (a : A) : keeps I (sm_ret a).
Proof. by apply triple_ret. Qed.
Lemma keeps_throw {A} I e : keeps I (sm_throw (A:=A) e).
Proof. by apply triple_throw. Qed.
Lemma keeps_gets {A} I (f : S -> A) : keeps I (sm_gets f).
Proof. by apply triple_gets. Qed.
Lemma keeps_modify I f : (forall s, I s -> I (f s)) -> keeps I (sm_modify f).
Proof. intros H. by apply triple_modify. Qed.
Lemma keeps_bind {A B} I (m : SM S E A) (k : A -> SM S E B) :
  keeps I m -> (forall a, keeps I (k a)) -> keeps I (sm_bind m k).
Proof. intros Hm Hk. by eapply triple_bind. Qed.
Lemma keeps_catch {A} I (m : SM S E A) h :
  keeps I m -> (forall e, keeps I (h e)) -> keeps I (sm_catch m h).
Proof. intros Hm Hh. by eapply triple_catch. Qed.
Lemma keeps_when I b m : keeps I m -> keeps I (sm_when b m).
Proof. destruct b; [done|]. intros _. apply keeps_ret. Qed.

(** The same, with a fact about the value returned. *)
Definition yields {A} (I : S -> Prop) (m : SM S E A) (P : A -> Prop) : Prop :=
  triple I m (fun a s => I s /\ P a) (fun _ => I).

Lemma yields_ret {A} I (a : A) (P : A -> Prop) : P a -> yields I (sm_ret a) P.
Proof. intros H s Hs. by split. Qed.
Lemma yields_gets {A} I (f : S -> A) (P : A -> Prop) :
  (forall s, I s -> P (f s)) -> yields I (sm_gets f) P.
Proof. intros H s Hs. split; auto. Qed.
Lemma yields_throw {A} I e (P : A -> Prop) : yields I (sm_throw e) P.
Proof. by intros s Hs. Qed.
Lemma yields_bind {A B} I (m : SM S E A) (k : A -> SM S E B) P Q :
  yields I m P -> (forall a, P a -> yields I (k a) Q) -> yields I (sm_bind m k) Q.
Proof.
  intros Hm Hk. eapply triple_bind; [exact Hm|]. intros a s [Hs Ha]. by apply Hk.
Qed.
Lemma yields_keeps {A} I (m : SM S E A) P : yields I m P -> keeps I m.
Proof. intros H. eapply triple_conseq; [exact H|done| |done]. by intros ? ? []. Qed.
Lemma keeps_yields {A} I (m : SM S E A) : keeps I m -> yields I m (fun _ => True).
Proof. intros H. eapply triple_conseq; [exact H|done|done|done]. Qed.
Lemma keeps_bind_yields {A B} I (m : SM S E A) (k : A -> SM S E B) P :
  yields I m P -> (forall a, P a -> keeps I (k a)) -> keeps I (sm_bind m k).
Proof.
  intros Hm Hk. eapply triple_bind; [exact Hm|]. intros a s [Hs Ha]. by apply Hk.
Qed.
End hoare.

(** Running a sequence whose first computation is known. *)
Lemma sm_bind_ok {S E A B} (m : SM S E A) (k : A -> SM S E B) s a s' :
  m s = (Ok a, s') -> sm_bind m k s = k a s'.
Proof. intros Hm. unfold sm_bind. by rewrite Hm. Qed.
Lemma sm_bind_err {S E A B} (m : SM S E A) (k : A -> SM S E B) s e s' :
  m s = (Err e, s') -> sm_bind m k s = (Err e, s').
Proof. intros Hm. unfold sm_bind. by rewrite Hm. Qed.

Create HintDb keeps discriminated.
Create HintDb yields discriminated.
#[export] Hint Resolve keeps_ret keeps_throw keeps_gets keeps_when : keeps.

(** Walks down a computation proving that it keeps an invariant; the
    component's own lemmas are taken from the [keeps] database. *)
Ltac keeps_step :=
  lazymatch goal with
  | |- keeps _ (sm_bind _ _) =>
      first [ eapply keeps_bind_yields; [solve [eauto with yields]|intros ? ?]
            | apply keeps_bind; [|intros ?] ]
  | |- keeps _ (sm_catch _ _) => apply keeps_catch; [|intros ?]
  | |- keeps _ (sm_when _ _) => apply keeps_when
  | |- keeps _ (sm_modify _) =>
      first [solve [eauto with keeps] | apply keeps_modify; intros ? ?]
  | |- keeps _ (match ?x with _ => _ end) => destruct x
  | |- keeps _ _ => solve [eauto with keeps]
  end.
Ltac keeps_solve := repeat keeps_step.

(** * Generic lemmas on machine integers *)

Lemma wrap_range w z : 0 <= w -> 0 <= wrap w z < 2 ^ w.
Proof. intros Hw. apply Z.mod_pos_bound. apply Z.pow_pos_nonneg; lia. Qed.

Lemma wrap_small w z : 0 <= z < 2 ^ w -> wrap w z = z.
Proof. apply Z.mod_small. Qed.

Lemma wrap_wrap w z : wrap w (wrap w z) = wrap w z.
Proof. unfold wrap. apply Zmod_mod. Qed.

Lemma swrap_range w z : 0 < w -> - 2 ^ (w - 1) <= swrap w z < 2 ^ (w - 1).
Proof.
  intros Hw. unfold swrap.
  assert (2 ^ w = 2 * 2 ^ (w - 1)) as H by (rewrite <- Z.pow_succ_r by lia; f_equal; lia).
  pose proof (Z.mod_pos_bound (z + 2 ^ (w - 1)) (2 ^ w)) as Hb.
  assert (0 < 2 ^ (w - 1)) by (apply Z.pow_pos_nonneg; lia). lia.
Qed.

Lemma swrap_small w z : 0 < w -> - 2 ^ (w - 1) <= z < 2 ^ (w - 1) -> swrap w z = z.
Proof.
  intros Hw Hz. unfold swrap.
  assert (2 ^ w = 2 * 2 ^ (w - 1)) as H by (rewrite <- Z.pow_succ_r by lia; f_equal; lia).
  rewrite Z.mod_small by lia. lia.
Qed.

Lemma wrap_swrap w z : 0 < w -> wrap w (swrap w z) = wrap w z.
Proof.
  intros Hw. unfold wrap, swrap.
  assert (0 < 2 ^ w) by (apply Z.pow_pos_nonneg; lia).
  rewrite Zminus_mod_idemp_l. f_equal. lia.
Qed.

Lemma swrap_wrap w z : 0 < w -> swrap w (wrap w z) = swrap w z.
Proof.
  intros Hw. unfold wrap, swrap.
  assert (0 < 2 ^ w) by (apply Z.pow_pos_nonneg; lia).
  by rewrite Zplus_mod_idemp_l.
Qed.

(** The signed reading of an unsigned value in range. *)
Lemma swrap_unsigned w z : 0 < w -> 0 <= z < 2 ^ w ->
  swrap w z = if z <? 2 ^ (w - 1) then z else z - 2 ^ w.
Proof.
  intros Hw Hz.
  assert (2 ^ w = 2 * 2 ^ (w - 1)) as H by (rewrite <- Z.pow_succ_r by lia; f_equal; lia).
  destruct (Z.ltb_spec z (2 ^ (w - 1))).
  - apply swrap_small; lia.
  - unfold swrap. replace (z + 2 ^ (w - 1)) with (z - 2 ^ (w - 1) + 1 * 2 ^ w) by lia.
    rewrite Z_mod_plus_full, Z.mod_small; lia.
Qed.

Lemma wrap_land w z : 0 <= w -> wrap w z = Z.land z (Z.ones w).
Proof. intros. symmetry. by apply Z.land_ones. Qed.

Create HintDb machine discriminated.
#[export] Hint Resolve wrap_range swrap_range : machine.
