(* ===== verification/Bits.v ===== *)
(** Bit slices: the macros of [instr.h] and the algebra of masked words that
    the decoder and encoder proofs use. *)
From S2P Require Import Prelude.

(** [BIT_RANGE(instr, upper, lower)]: the mask is an [int] expression, so for
    [upper = 31] it is the negative [int] with the same 32 bits. *)
Definition range_mask (upper lower : Z) : Z :=
  s32 (Z.shiftl (Z.shiftl 1 (upper - lower + 1) - 1) lower).
Definition BIT_RANGE (instr upper lower : Z) : Z := Z.land instr (range_mask upper lower).
Definition BIT_SLICE (instr upper lower : Z) : Z :=
  Z.shiftr (BIT_RANGE instr upper lower) lower.
Definition BIT_SINGLE (instr pos : Z) : Z := Z.land instr (s32 (Z.shiftl 1 pos)).
Definition BIT_SINGLE_P1 (instr pos : Z) : Z := Z.shiftr (BIT_SINGLE instr pos) pos.
Definition BIT_SINGLE_PN (instr pos new_pos : Z) : Z :=
  Z.shiftl (Z.shiftr (BIT_SINGLE instr pos) pos) new_pos.
(** The same on a word converted to [uint32_t]: the mask converts to unsigned. *)
Definition BIT_RANGE_U (instr upper lower : Z) : Z :=
  Z.land (u32 instr) (u32 (range_mask upper lower)).
(** [(BIT_SINGLE_P1(instr, pos) << 31) >> (31 - new_pos)] on a signed word: the shift
    left reaches the sign bit and the shift right copies it. *)
Definition EXTRACT_SIGN_BIT (instr pos new_pos : Z) : Z :=
  Z.shiftr (s32 (Z.shiftl (BIT_SINGLE_P1 instr pos) 31)) (31 - new_pos).

(** A C [switch] whose cases all leave it: the first matching label is taken. *)
Fixpoint switch {A} (v : Z) (cases : list (Z * A)) (dflt : A) : A :=
  match cases with
  | [] => dflt
  | (c, r) :: cases' => if v =? c then r else switch v cases' dflt
  end.

Lemma switch_cases {A} v (cases : list (Z * A)) dflt :
  (exists c, In (c, switch v cases dflt) cases /\ v = c) \/ switch v cases dflt = dflt.
Proof.
  induction cases as [|[c r] cases IH]; simpl; [by right|].
  destruct (Z.eqb_spec v c) as [->|]; [left; eauto|].
  destruct IH as [(c' & ? & ?)|?]; [left; eauto|by right].
Qed.

(** * Masked words *)

Lemma land_sub x m e s : Z.land x m = e -> Z.land m s = s -> Z.land x s = Z.land e s.
Proof. intros <- <-. by rewrite !Z.land_assoc, <- (Z.land_assoc x m m), Z.land_diag. Qed.

Lemma u32_land x m : 0 <= m < 2 ^ 32 -> Z.land (u32 x) m = Z.land x m.
Proof.
  intros Hm. rewrite wrap_land by lia. rewrite <- Z.land_assoc, (Z.land_comm (Z.ones 32)).
  rewrite Z.land_ones by lia. by rewrite Z.mod_small.
Qed.


(** * Bits of wrapped integers *)

Lemma wrap_spec w z i : 0 <= w -> 0 <= i -> Z.testbit (wrap w z) i = (i <? w) && Z.testbit z i.
Proof.
  intros Hw Hi. unfold wrap. destruct (Z.ltb_spec i w).
  - by rewrite Z.mod_pow2_bits_low.
  - by rewrite Z.mod_pow2_bits_high by lia.
Qed.

Lemma testbit_sign w z i :
  0 < w -> - 2 ^ (w - 1) <= z < 2 ^ (w - 1) -> w - 1 <= i -> Z.testbit z i = (z <? 0).
Proof.
  intros Hw Hz Hi. assert (2 ^ (w - 1) <= 2 ^ i) by (apply Z.pow_le_mono_r; lia).
  rewrite Z.testbit_eqb by lia. destruct (Z.ltb_spec z 0).
  - assert (z / 2 ^ i = -1) as -> by (symmetry; apply Z.div_unique with (r := z + 2 ^ i); lia). done.
  - rewrite Z.div_small by lia. done.
Qed.

Lemma swrap_spec w z i :
  0 < w -> 0 <= i -> Z.testbit (swrap w z) i = Z.testbit z (Z.min i (w - 1)).
Proof.
  intros Hw Hi.
  assert (forall j, 0 <= j < w -> Z.testbit (swrap w z) j = Z.testbit z j) as Hlow.
  { intros j Hj. rewrite <- (Z.mod_pow2_bits_low (swrap w z) w) by lia.
    fold (wrap w (swrap w z)). rewrite wrap_swrap by done.
    unfold wrap. by rewrite Z.mod_pow2_bits_low by lia. }
  destruct (Z_lt_le_dec i w).
  - rewrite Hlow by lia. f_equal. lia.
  - rewrite Z.min_r by lia. rewrite <- Hlow by lia.
    pose proof (swrap_range w z Hw) as Hr.
    by rewrite !(testbit_sign w) by (done || lia).
Qed.

(** Two words agree as [w]-bit integers when their low [w] bits agree. *)
Lemma swrap_bits_eq w a b :
  0 < w -> (forall i, 0 <= i < w -> Z.testbit a i = Z.testbit b i) -> swrap w a = swrap w b.
Proof.
  intros Hw H. apply Z.bits_inj'. intros i Hi. rewrite !swrap_spec by done. apply H. lia.
Qed.

Lemma bits_enum n (P : Z -> Prop) : Forall P (seqZ 0 n) -> forall i, 0 <= i < n -> P i.
Proof. intros H i Hi. rewrite Forall_forall in H. apply H, elem_of_seqZ. lia. Qed.

(** Decide the equality of two words built from constants and masked, shifted and
    wrapped variables, one bit after the other. *)
Ltac ground_Z t :=
  lazymatch t with
  | Z0 => idtac | Zpos ?p => ground_pos p | Zneg ?p => ground_pos p
  end
with ground_pos p :=
  lazymatch p with xH => idtac | xO ?q => ground_pos q | xI ?q => ground_pos q end.

Ltac bit_step :=
  match goal with
  | |- context [Z.testbit ?a (Zneg ?k)] => rewrite (Z.testbit_neg_r a (Zneg k)) by lia
  | |- context [Z.testbit (Z.lor _ _) _] => rewrite Z.lor_spec
  | |- context [Z.testbit (Z.land _ _) _] => rewrite Z.land_spec
  | |- context [Z.testbit (Z.shiftl _ _) _] => rewrite Z.shiftl_spec by lia
  | |- context [Z.testbit (Z.shiftr _ _) _] => rewrite Z.shiftr_spec by lia
  | |- context [Z.testbit (swrap _ _) _] => rewrite swrap_spec by lia
  | |- context [Z.testbit (wrap _ _) _] => rewrite wrap_spec by lia
  end.
Ltac bit_index :=
  repeat match goal with
  | |- context [Z.testbit ?a ?k] =>
      tryif ground_Z k then fail else
      (let k' := eval vm_compute in k in ground_Z k'; progress change k with k')
  end.
Ltac bit_ground :=
  repeat match goal with
  | |- context [Z.testbit ?a ?k] =>
      ground_Z a; ground_Z k;
      let v := eval vm_compute in (Z.testbit a k) in change (Z.testbit a k) with v
  | |- context [Z.ltb ?a ?k] =>
      ground_Z a; ground_Z k;
      let v := eval vm_compute in (Z.ltb a k) in change (Z.ltb a k) with v
  | |- context [Z.testbit ?a (Zneg ?k)] => rewrite (Z.testbit_neg_r a (Zneg k)) by lia
  end.
Ltac bit_solve :=
  repeat (bit_index; bit_step); bit_index; bit_ground;
  rewrite ?andb_false_r, ?andb_true_r, ?andb_false_l, ?andb_true_l, ?orb_false_r, ?orb_false_l;
  try done.
Ltac bits_by_enum :=
  apply bits_enum;
  match goal with |- Forall _ ?l => let l' := eval vm_compute in l in change l with l' end;
  repeat (apply Forall_cons; split); [..|by apply Forall_nil].

(** A property of every case and of the default is a property of the switch. *)
Lemma switch_prop {A} (P : A -> Prop) v (cases : list (Z * A)) dflt :
  Forall (fun c => P c.2) cases -> P dflt -> P (switch v cases dflt).
Proof.
  intros Hc Hd. destruct (switch_cases v cases dflt) as [(c & Hin & _)| -> ]; [|done].
  rewrite List.Forall_forall in Hc. by apply Hc in Hin.
Qed.
Lemma if_prop {A} (P : A -> Prop) (b : bool) x y : P x -> P y -> P (if b then x else y).
Proof. by destruct b. Qed.

(** Goes through the cases of nested switches. *)
Ltac switch_walk :=
  repeat lazymatch goal with
  | |- _ (switch _ _ _) => apply switch_prop
  | |- _ (if _ then _ else _) => apply if_prop
  | |- Forall _ [] => apply Forall_nil; exact I
  | |- Forall _ (_ :: _) => apply Forall_cons; split; cbn [snd]
  end.
