(* ===== verification/Instr.v ===== *)
(** The instruction word: opcode constants, the [Opcode::Mapping] enumeration, the
    field and immediate accessors of [struct Instruction] ([core/common/instr.h])
    and the mask/encoding tables of [core/common/instr.cpp]. *)
From S2P Require Import Prelude Bits.

(** [enum Architecture] of [core_defs.h]. *)
Inductive Architecture := RV32 | RV64 | RV128.
#[export] Instance Architecture_eq_dec : EqDecision Architecture.
Proof. solve_decision. Defined.
Definition is_rv32 (arch : Architecture) : bool := match arch with RV32 => true | _ => false end.

(** * [enum Parts]: the opcode and function fields the decoder switches on *)

Definition OP_LUI : Z := 0x37.
Definition OP_AUIPC : Z := 0x17.
Definition OP_JAL : Z := 0x6f.
Definition OP_JALR : Z := 0x67.
Definition F3_JALR : Z := 0x0.
Definition OP_LB : Z := 0x3.
Definition F3_LB : Z := 0x0.
Definition F3_LH : Z := 0x1.
Definition F3_LW : Z := 0x2.
Definition F3_LBU : Z := 0x4.
Definition F3_LHU : Z := 0x5.
Definition F3_LWU : Z := 0x6.
Definition F3_LD : Z := 0x3.
Definition OP_SB : Z := 0x23.
Definition F3_SB : Z := 0x0.
Definition F3_SH : Z := 0x1.
Definition F3_SW : Z := 0x2.
Definition F3_SD : Z := 0x3.
Definition OP_BEQ : Z := 0x63.
Definition F3_BEQ : Z := 0x0.
Definition F3_BNE : Z := 0x1.
Definition F3_BLT : Z := 0x4.
Definition F3_BGE : Z := 0x5.
Definition F3_BLTU : Z := 0x6.
Definition F3_BGEU : Z := 0x7.
Definition OP_ADDI : Z := 0x13.
Definition F3_ADDI : Z := 0x0.
Definition F3_SLTI : Z := 0x2.
Definition F3_SLTIU : Z := 0x3.
Definition F3_XORI : Z := 0x4.
Definition F3_ORI : Z := 0x6.
Definition F3_ANDI : Z := 0x7.
Definition F3_SLLI : Z := 0x1.
Definition F3_SRLI : Z := 0x5.
Definition F7_SRLI : Z := 0x0.
Definition F7_SRAI : Z := 0x20.
Definition F6_SRLI : Z := 0x0.
Definition F6_SRAI : Z := 0x10.
Definition OP_ADD : Z := 0x33.
Definition F3_ADD : Z := 0x0.
Definition F7_ADD : Z := 0x0.
Definition F3_SUB : Z := 0x0.
Definition F7_SUB : Z := 0x20.
Definition F3_SLL : Z := 0x1.
Definition F3_SLT : Z := 0x2.
Definition F3_SLTU : Z := 0x3.
Definition F3_XOR : Z := 0x4.
Definition F3_SRL : Z := 0x5.
Definition F3_SRA : Z := 0x5.
Definition F3_OR : Z := 0x6.
Definition F3_AND : Z := 0x7.
Definition F3_MUL : Z := 0x0.
Definition F7_MUL : Z := 0x1.
Definition F3_MULH : Z := 0x1.
Definition F3_MULHSU : Z := 0x2.
Definition F3_MULHU : Z := 0x3.
Definition F3_DIV : Z := 0x4.
Definition F3_DIVU : Z := 0x5.
Definition F3_REM : Z := 0x6.
Definition F3_REMU : Z := 0x7.
Definition OP_FENCE : Z := 0xf.
Definition F3_FENCE : Z := 0x0.
Definition F3_FENCE_I : Z := 0x1.
Definition OP_ECALL : Z := 0x73.
Definition F3_SYS : Z := 0x0.
Definition F12_ECALL : Z := 0x0.
Definition F12_EBREAK : Z := 0x1.
Definition F12_URET : Z := 0x2.
Definition F12_SRET : Z := 0x102.
Definition F12_MRET : Z := 0x302.
Definition F12_WFI : Z := 0x105.
Definition F7_SFENCE_VMA : Z := 0x9.
Definition F3_CSRRW : Z := 0x1.
Definition F3_CSRRS : Z := 0x2.
Definition F3_CSRRC : Z := 0x3.
Definition F3_CSRRWI : Z := 0x5.
Definition F3_CSRRSI : Z := 0x6.
Definition F3_CSRRCI : Z := 0x7.
Definition OP_AMO : Z := 0x2f.
Definition F5_LR_W : Z := 0x2.
Definition F5_SC_W : Z := 0x3.
Definition F5_AMOSWAP_W : Z := 0x1.
Definition F5_AMOADD_W : Z := 0x0.
Definition F5_AMOXOR_W : Z := 0x4.
Definition F5_AMOAND_W : Z := 0xc.
Definition F5_AMOOR_W : Z := 0x8.
Definition F5_AMOMIN_W : Z := 0x10.
Definition F5_AMOMAX_W : Z := 0x14.
Definition F5_AMOMINU_W : Z := 0x18.
Definition F5_AMOMAXU_W : Z := 0x1c.
Definition F3_AMO_W : Z := 0x2.
Definition F3_AMO_D : Z := 0x3.
Definition OP_ADDIW : Z := 0x1b.
Definition F3_ADDIW : Z := 0x0.
Definition F3_SLLIW : Z := 0x1.
Definition F3_SRLIW : Z := 0x5.
Definition F7_SRLIW : Z := 0x0.
Definition F7_SRAIW : Z := 0x20.
Definition OP_ADDW : Z := 0x3b.
Definition F3_ADDW : Z := 0x0.
Definition F7_ADDW : Z := 0x0.
Definition F3_SUBW : Z := 0x0.
Definition F7_SUBW : Z := 0x20.
Definition F3_SLLW : Z := 0x1.
Definition F3_SRLW : Z := 0x5.
Definition F7_SRLW : Z := 0x0.
Definition F3_SRAW : Z := 0x5.
Definition F7_SRAW : Z := 0x20.
Definition F7_MULW : Z := 0x1.
Definition F3_MULW : Z := 0x0.
Definition F3_DIVW : Z := 0x4.
Definition F3_DIVUW : Z := 0x5.
Definition F3_REMW : Z := 0x6.
Definition F3_REMUW : Z := 0x7.
Definition OP_FMADD_S : Z := 0x43.
Definition F2_FMADD_S : Z := 0x0.
Definition F2_FMADD_D : Z := 0x1.
Definition OP_FADD_S : Z := 0x53.
Definition F7_FADD_S : Z := 0x0.
Definition F7_FADD_D : Z := 0x1.
Definition F7_FSUB_S : Z := 0x4.
Definition F7_FSUB_D : Z := 0x5.
Definition F7_FCVT_D_S : Z := 0x21.
Definition F7_FMUL_S : Z := 0x8.
Definition F7_FMUL_D : Z := 0x9.
Definition F7_FDIV_S : Z := 0xc.
Definition F7_FDIV_D : Z := 0xd.
Definition F7_FLE_S : Z := 0x50.
Definition F3_FLE_S : Z := 0x0.
Definition F3_FLT_S : Z := 0x1.
Definition F3_FEQ_S : Z := 0x2.
Definition F7_FSGNJ_D : Z := 0x11.
Definition F3_FSGNJ_D : Z := 0x0.
Definition F3_FSGNJN_D : Z := 0x1.
Definition F3_FSGNJX_D : Z := 0x2.
Definition F7_FMIN_S : Z := 0x14.
Definition F3_FMIN_S : Z := 0x0.
Definition F3_FMAX_S : Z := 0x1.
Definition F7_FMIN_D : Z := 0x15.
Definition F3_FMIN_D : Z := 0x0.
Definition F3_FMAX_D : Z := 0x1.
Definition F7_FCVT_S_D : Z := 0x20.
Definition F7_FSGNJ_S : Z := 0x10.
Definition F3_FSGNJ_S : Z := 0x0.
Definition F3_FSGNJN_S : Z := 0x1.
Definition F3_FSGNJX_S : Z := 0x2.
Definition F7_FLE_D : Z := 0x51.
Definition F3_FLE_D : Z := 0x0.
Definition F3_FLT_D : Z := 0x1.
Definition F3_FEQ_D : Z := 0x2.
Definition F7_FCVT_S_W : Z := 0x68.
Definition RS2_FCVT_S_W : Z := 0x0.
Definition RS2_FCVT_S_WU : Z := 0x1.
Definition RS2_FCVT_S_L : Z := 0x2.
Definition RS2_FCVT_S_LU : Z := 0x3.
Definition F7_FCVT_D_W : Z := 0x69.
Definition RS2_FCVT_D_W : Z := 0x0.
Definition RS2_FCVT_D_WU : Z := 0x1.
Definition RS2_FCVT_D_L : Z := 0x2.
Definition RS2_FCVT_D_LU : Z := 0x3.
Definition F7_FCVT_W_D : Z := 0x61.
Definition RS2_FCVT_W_D : Z := 0x0.
Definition RS2_FCVT_WU_D : Z := 0x1.
Definition RS2_FCVT_L_D : Z := 0x2.
Definition RS2_FCVT_LU_D : Z := 0x3.
Definition F7_FSQRT_S : Z := 0x2c.
Definition F7_FSQRT_D : Z := 0x2d.
Definition F7_FCVT_W_S : Z := 0x60.
Definition RS2_FCVT_W_S : Z := 0x0.
Definition RS2_FCVT_WU_S : Z := 0x1.
Definition RS2_FCVT_L_S : Z := 0x2.
Definition RS2_FCVT_LU_S : Z := 0x3.
Definition F7_FMV_X_W : Z := 0x70.
Definition F3_FMV_X_W : Z := 0x0.
Definition F3_FCLASS_S : Z := 0x1.
Definition F7_FMV_X_D : Z := 0x71.
Definition F3_FMV_X_D : Z := 0x0.
Definition F3_FCLASS_D : Z := 0x1.
Definition F7_FMV_W_X : Z := 0x78.
Definition F7_FMV_D_X : Z := 0x79.
Definition OP_FLW : Z := 0x7.
Definition F3_FLW : Z := 0x2.
Definition F3_FLD : Z := 0x3.
Definition OP_FSW : Z := 0x27.
Definition F3_FSW : Z := 0x2.
Definition F3_FSD : Z := 0x3.
Definition OP_FMSUB_S : Z := 0x47.
Definition F2_FMSUB_S : Z := 0x0.
Definition F2_FMSUB_D : Z := 0x1.
Definition OP_FNMSUB_S : Z := 0x4b.
Definition F2_FNMSUB_S : Z := 0x0.
Definition F2_FNMSUB_D : Z := 0x1.
Definition OP_FNMADD_S : Z := 0x4f.
Definition F2_FNMADD_S : Z := 0x0.
Definition F2_FNMADD_D : Z := 0x1.
Definition OP_CUST1 : Z := 0x2b.
Definition OP_CUST0 : Z := 0xb.

(** * [enum Mapping] *)
Module Opcode.
Inductive Mapping :=
| UNDEF | LUI | AUIPC | JAL | JALR | BEQ | BNE | BLT | BGE | BLTU | BGEU | LB | LH | LW
   | LBU | LHU | SB | SH | SW | ADDI | SLTI | SLTIU | XORI | ORI | ANDI | SLLI | SRLI
   | SRAI | ADD | SUB | SLL | SLT | SLTU | XOR | SRL | SRA | OR | AND | FENCE | ECALL
   | EBREAK | FENCE_I | CSRRW | CSRRS | CSRRC | CSRRWI | CSRRSI | CSRRCI | MUL | MULH
   | MULHSU | MULHU | DIV | DIVU | REM | REMU | LR_W | SC_W | AMOSWAP_W | AMOADD_W
   | AMOXOR_W | AMOAND_W | AMOOR_W | AMOMIN_W | AMOMAX_W | AMOMINU_W | AMOMAXU_W | LWU
   | LD | SD | ADDIW | SLLIW | SRLIW | SRAIW | ADDW | SUBW | SLLW | SRLW | SRAW | MULW
   | DIVW | DIVUW | REMW | REMUW | LR_D | SC_D | AMOSWAP_D | AMOADD_D | AMOXOR_D
   | AMOAND_D | AMOOR_D | AMOMIN_D | AMOMAX_D | AMOMINU_D | AMOMAXU_D | FLW | FSW
   | FMADD_S | FMSUB_S | FNMADD_S | FNMSUB_S | FADD_S | FSUB_S | FMUL_S | FDIV_S | FSQRT_S
   | FSGNJ_S | FSGNJN_S | FSGNJX_S | FMIN_S | FMAX_S | FCVT_W_S | FCVT_WU_S | FMV_X_W
   | FEQ_S | FLT_S | FLE_S | FCLASS_S | FCVT_S_W | FCVT_S_WU | FMV_W_X | FCVT_L_S
   | FCVT_LU_S | FCVT_S_L | FCVT_S_LU | FLD | FSD | FMADD_D | FMSUB_D | FNMSUB_D
   | FNMADD_D | FADD_D | FSUB_D | FMUL_D | FDIV_D | FSQRT_D | FSGNJ_D | FSGNJN_D
   | FSGNJX_D | FMIN_D | FMAX_D | FCVT_S_D | FCVT_D_S | FEQ_D | FLT_D | FLE_D | FCLASS_D
   | FCVT_W_D | FCVT_WU_D | FCVT_D_W | FCVT_D_WU | FCVT_L_D | FCVT_LU_D | FMV_X_D
   | FCVT_D_L | FCVT_D_LU | FMV_D_X | URET | SRET | MRET | WFI | SFENCE_VMA.

(** The enumerators in order, and the value the compiler gives each. *)
Definition all_mappings : list Mapping := [
  UNDEF; LUI; AUIPC; JAL; JALR; BEQ; BNE; BLT; BGE; BLTU; BGEU; LB; LH; LW; LBU; LHU; SB; 
  SH; SW; ADDI; SLTI; SLTIU; XORI; ORI; ANDI; SLLI; SRLI; SRAI; ADD; SUB; SLL; SLT; SLTU; 
  XOR; SRL; SRA; OR; AND; FENCE; ECALL; EBREAK; FENCE_I; CSRRW; CSRRS; CSRRC; CSRRWI; 
  CSRRSI; CSRRCI; MUL; MULH; MULHSU; MULHU; DIV; DIVU; REM; REMU; LR_W; SC_W; AMOSWAP_W; 
  AMOADD_W; AMOXOR_W; AMOAND_W; AMOOR_W; AMOMIN_W; AMOMAX_W; AMOMINU_W; AMOMAXU_W; LWU; 
  LD; SD; ADDIW; SLLIW; SRLIW; SRAIW; ADDW; SUBW; SLLW; SRLW; SRAW; MULW; DIVW; DIVUW; 
  REMW; REMUW; LR_D; SC_D; AMOSWAP_D; AMOADD_D; AMOXOR_D; AMOAND_D; AMOOR_D; AMOMIN_D; 
  AMOMAX_D; AMOMINU_D; AMOMAXU_D; FLW; FSW; FMADD_S; FMSUB_S; FNMADD_S; FNMSUB_S; FADD_S; 
  FSUB_S; FMUL_S; FDIV_S; FSQRT_S; FSGNJ_S; FSGNJN_S; FSGNJX_S; FMIN_S; FMAX_S; FCVT_W_S; 
  FCVT_WU_S; FMV_X_W; FEQ_S; FLT_S; FLE_S; FCLASS_S; FCVT_S_W; FCVT_S_WU; FMV_W_X; 
  FCVT_L_S; FCVT_LU_S; FCVT_S_L; FCVT_S_LU; FLD; FSD; FMADD_D; FMSUB_D; FNMSUB_D; 
  FNMADD_D; FADD_D; FSUB_D; FMUL_D; FDIV_D; FSQRT_D; FSGNJ_D; FSGNJN_D; FSGNJX_D; FMIN_D; 
  FMAX_D; FCVT_S_D; FCVT_D_S; FEQ_D; FLT_D; FLE_D; FCLASS_D; FCVT_W_D; FCVT_WU_D; 
  FCVT_D_W; FCVT_D_WU; FCVT_L_D; FCVT_LU_D; FMV_X_D; FCVT_D_L; FCVT_D_LU; FMV_D_X; URET; 
  SRET; MRET; WFI; SFENCE_VMA].
Definition mapping_num (op : Mapping) : nat :=
  match op with
  | UNDEF => 0 | LUI => 1 | AUIPC => 2 | JAL => 3 | JALR => 4 | BEQ => 5 | BNE => 6 |
    BLT => 7 | BGE => 8 | BLTU => 9 | BGEU => 10 | LB => 11 | LH => 12 | LW => 13 |
    LBU => 14 | LHU => 15 | SB => 16 | SH => 17 | SW => 18 | ADDI => 19 | SLTI => 20 |
    SLTIU => 21 | XORI => 22 | ORI => 23 | ANDI => 24 | SLLI => 25 | SRLI => 26 |
    SRAI => 27 | ADD => 28 | SUB => 29 | SLL => 30 | SLT => 31 | SLTU => 32 | XOR => 33 |
    SRL => 34 | SRA => 35 | OR => 36 | AND => 37 | FENCE => 38 | ECALL => 39 |
    EBREAK => 40 | FENCE_I => 41 | CSRRW => 42 | CSRRS => 43 | CSRRC => 44 |
    CSRRWI => 45 | CSRRSI => 46 | CSRRCI => 47 | MUL => 48 | MULH => 49 | MULHSU => 50 |
    MULHU => 51 | DIV => 52 | DIVU => 53 | REM => 54 | REMU => 55 | LR_W => 56 |
    SC_W => 57 | AMOSWAP_W => 58 | AMOADD_W => 59 | AMOXOR_W => 60 | AMOAND_W => 61 |
    AMOOR_W => 62 | AMOMIN_W => 63 | AMOMAX_W => 64 | AMOMINU_W => 65 | AMOMAXU_W => 66 |
    LWU => 67 | LD => 68 | SD => 69 | ADDIW => 70 | SLLIW => 71 | SRLIW => 72 |
    SRAIW => 73 | ADDW => 74 | SUBW => 75 | SLLW => 76 | SRLW => 77 | SRAW => 78 |
    MULW => 79 | DIVW => 80 | DIVUW => 81 | REMW => 82 | REMUW => 83 | LR_D => 84 |
    SC_D => 85 | AMOSWAP_D => 86 | AMOADD_D => 87 | AMOXOR_D => 88 | AMOAND_D => 89 |
    AMOOR_D => 90 | AMOMIN_D => 91 | AMOMAX_D => 92 | AMOMINU_D => 93 | AMOMAXU_D => 94 |
    FLW => 95 | FSW => 96 | FMADD_S => 97 | FMSUB_S => 98 | FNMADD_S => 99 |
    FNMSUB_S => 100 | FADD_S => 101 | FSUB_S => 102 | FMUL_S => 103 | FDIV_S => 104 |
    FSQRT_S => 105 | FSGNJ_S => 106 | FSGNJN_S => 107 | FSGNJX_S => 108 | FMIN_S => 109 |
    FMAX_S => 110 | FCVT_W_S => 111 | FCVT_WU_S => 112 | FMV_X_W => 113 | FEQ_S => 114 |
    FLT_S => 115 | FLE_S => 116 | FCLASS_S => 117 | FCVT_S_W => 118 | FCVT_S_WU => 119 |
    FMV_W_X => 120 | FCVT_L_S => 121 | FCVT_LU_S => 122 | FCVT_S_L => 123 |
    FCVT_S_LU => 124 | FLD => 125 | FSD => 126 | FMADD_D => 127 | FMSUB_D => 128 |
    FNMSUB_D => 129 | FNMADD_D => 130 | FADD_D => 131 | FSUB_D => 132 | FMUL_D => 133 |
    FDIV_D => 134 | FSQRT_D => 135 | FSGNJ_D => 136 | FSGNJN_D => 137 | FSGNJX_D => 138 |
    FMIN_D => 139 | FMAX_D => 140 | FCVT_S_D => 141 | FCVT_D_S => 142 | FEQ_D => 143 |
    FLT_D => 144 | FLE_D => 145 | FCLASS_D => 146 | FCVT_W_D => 147 | FCVT_WU_D => 148 |
    FCVT_D_W => 149 | FCVT_D_WU => 150 | FCVT_L_D => 151 | FCVT_LU_D => 152 |
    FMV_X_D => 153 | FCVT_D_L => 154 | FCVT_D_LU => 155 | FMV_D_X => 156 | URET => 157 |
    SRET => 158 | MRET => 159 | WFI => 160 | SFENCE_VMA => 161
  end%nat.
Lemma all_mappings_num op : all_mappings !! mapping_num op = Some op.
Proof. by destruct op. Qed.

#[export] Instance Mapping_eq_dec : EqDecision Mapping.
Proof.
  intros a b. destruct (decide (mapping_num a = mapping_num b)) as [E|E].
  - left. apply (inj Some). by rewrite <- !all_mappings_num, E.
  - right. by intros ->.
Defined.

(** [enum class Type]: the instruction format, used by the trace output. *)
Inductive Type_ := UNKNOWN | Type_R | Type_I | Type_S | Type_B | Type_U | Type_J | Type_R4.

Definition getType (mapping : Mapping) : Type_ :=
  match mapping with
  | SLLI | SRLI | SRAI | ADD | SUB | SLL | SLT | SLTU | XOR | SRL | SRA | OR | AND | MUL
    | MULH | MULHSU | MULHU | DIV | DIVU | REM | REMU | ADDW | SUBW | SLLW | SRLW | SRAW
    | MULW | DIVW | DIVUW | REMW | REMUW | LR_W | SC_W | AMOSWAP_W | AMOADD_W | AMOXOR_W
    | AMOAND_W | AMOOR_W | AMOMIN_W | AMOMAX_W | AMOMINU_W | AMOMAXU_W | LR_D | SC_D
    | AMOSWAP_D | AMOADD_D | AMOXOR_D | AMOAND_D | AMOOR_D | AMOMIN_D | AMOMAX_D
    | AMOMINU_D | AMOMAXU_D | FADD_S | FSUB_S | FMUL_S | FDIV_S | FSQRT_S | FSGNJ_S
    | FSGNJN_S | FSGNJX_S | FMIN_S | FMAX_S | FCVT_W_S | FCVT_WU_S | FMV_X_W | FEQ_S
    | FLT_S | FLE_S | FCLASS_S | FCVT_S_W | FCVT_S_WU | FMV_W_X | FCVT_L_S | FCVT_LU_S
    | FCVT_S_L | FCVT_S_LU | FADD_D | FSUB_D | FMUL_D | FDIV_D | FSQRT_D | FSGNJ_D
    | FSGNJN_D | FSGNJX_D | FMIN_D | FMAX_D | FCVT_S_D | FCVT_D_S | FEQ_D | FLT_D | FLE_D
    | FCLASS_D | FCVT_W_D | FCVT_WU_D | FCVT_D_W | FCVT_D_WU | FCVT_L_D | FCVT_LU_D
    | FMV_X_D | FCVT_D_L | FCVT_D_LU | FMV_D_X => Type_R
  | JALR | LB | LH | LW | LD | LBU | LHU | LWU | ADDI | SLTI | SLTIU | XORI | ORI | ANDI
    | ADDIW | SLLIW | SRLIW | SRAIW | FLW | FLD => Type_I
  | SB | SH | SW | SD | FSW | FSD => Type_S
  | BEQ | BNE | BLT | BGE | BLTU | BGEU => Type_B
  | LUI | AUIPC => Type_U
  | JAL => Type_J
  | FMADD_S | FMSUB_S | FNMSUB_S | FNMADD_S | FMADD_D | FMSUB_D | FNMSUB_D | FNMADD_D => Type_R4
  | _ => UNKNOWN
  end.
End Opcode.
Export Opcode.

(** * Masks and encodings: for each instruction, the fixed bits and their value *)

(** RV32I, Zifencei, Zicsr, RV32M, RV32A and the privileged instructions. *)
Definition mask_rv32 (op : Mapping) : option (Z * Z) :=
  match op with
  | LUI => Some (0x0000007f, 0x00000037)
  | AUIPC => Some (0x0000007f, 0x00000017)
  | JAL => Some (0x0000007f, 0x0000006f)
  | JALR => Some (0x0000707f, 0x00000067)
  | BEQ => Some (0x0000707f, 0x00000063)
  | BNE => Some (0x0000707f, 0x00001063)
  | BLT => Some (0x0000707f, 0x00004063)
  | BGE => Some (0x0000707f, 0x00005063)
  | BLTU => Some (0x0000707f, 0x00006063)
  | BGEU => Some (0x0000707f, 0x00007063)
  | LB => Some (0x0000707f, 0x00000003)
  | LH => Some (0x0000707f, 0x00001003)
  | LW => Some (0x0000707f, 0x00002003)
  | LBU => Some (0x0000707f, 0x00004003)
  | LHU => Some (0x0000707f, 0x00005003)
  | SB => Some (0x0000707f, 0x00000023)
  | SH => Some (0x0000707f, 0x00001023)
  | SW => Some (0x0000707f, 0x00002023)
  | ADDI => Some (0x0000707f, 0x00000013)
  | SLTI => Some (0x0000707f, 0x00002013)
  | SLTIU => Some (0x0000707f, 0x00003013)
  | XORI => Some (0x0000707f, 0x00004013)
  | ORI => Some (0x0000707f, 0x00006013)
  | ANDI => Some (0x0000707f, 0x00007013)
  | SLLI => Some (0xfc00707f, 0x00001013)
  | SRLI => Some (0xfc00707f, 0x00005013)
  | SRAI => Some (0xfc00707f, 0x40005013)
  | ADD => Some (0xfe00707f, 0x00000033)
  | SUB => Some (0xfe00707f, 0x40000033)
  | SLL => Some (0xfe00707f, 0x00001033)
  | SLT => Some (0xfe00707f, 0x00002033)
  | SLTU => Some (0xfe00707f, 0x00003033)
  | XOR => Some (0xfe00707f, 0x00004033)
  | SRL => Some (0xfe00707f, 0x00005033)
  | SRA => Some (0xfe00707f, 0x40005033)
  | OR => Some (0xfe00707f, 0x00006033)
  | AND => Some (0xfe00707f, 0x00007033)
  | FENCE => Some (0x0000707f, 0x0000000f)
  | FENCE_I => Some (0x0000707f, 0x0000100f)
  | ECALL => Some (0xffffffff, 0x00000073)
  | EBREAK => Some (0xffffffff, 0x00100073)
  | CSRRW => Some (0x0000707f, 0x00001073)
  | CSRRS => Some (0x0000707f, 0x00002073)
  | CSRRC => Some (0x0000707f, 0x00003073)
  | CSRRWI => Some (0x0000707f, 0x00005073)
  | CSRRSI => Some (0x0000707f, 0x00006073)
  | CSRRCI => Some (0x0000707f, 0x00007073)
  | MUL => Some (0xfe00707f, 0x02000033)
  | MULH => Some (0xfe00707f, 0x02001033)
  | MULHSU => Some (0xfe00707f, 0x02002033)
  | MULHU => Some (0xfe00707f, 0x02003033)
  | DIV => Some (0xfe00707f, 0x02004033)
  | DIVU => Some (0xfe00707f, 0x02005033)
  | REM => Some (0xfe00707f, 0x02006033)
  | REMU => Some (0xfe00707f, 0x02007033)
  | LR_W => Some (0xf9f0707f, 0x1000202f)
  | SC_W => Some (0xf800707f, 0x1800202f)
  | AMOSWAP_W => Some (0xf800707f, 0x0800202f)
  | AMOADD_W => Some (0xf800707f, 0x0000202f)
  | AMOXOR_W => Some (0xf800707f, 0x2000202f)
  | AMOAND_W => Some (0xf800707f, 0x6000202f)
  | AMOOR_W => Some (0xf800707f, 0x4000202f)
  | AMOMIN_W => Some (0xf800707f, 0x8000202f)
  | AMOMAX_W => Some (0xf800707f, 0xa000202f)
  | AMOMINU_W => Some (0xf800707f, 0xc000202f)
  | AMOMAXU_W => Some (0xf800707f, 0xe000202f)
  | URET => Some (0xffffffff, 0x00200073)
  | SRET => Some (0xffffffff, 0x10200073)
  | MRET => Some (0xffffffff, 0x30200073)
  | WFI => Some (0xffffffff, 0x10500073)
  | SFENCE_VMA => Some (0xfe007fff, 0x12000073)
  | _ => None
  end.

(** The RV64IMA instructions. *)
Definition mask_rv64 (op : Mapping) : option (Z * Z) :=
  match op with
  | LWU => Some (0x0000707f, 0x00006003)
  | LD => Some (0x0000707f, 0x00003003)
  | SD => Some (0x0000707f, 0x00003023)
  | ADDIW => Some (0x0000707f, 0x0000001b)
  | SLLIW => Some (0xfe00707f, 0x0000101b)
  | SRLIW => Some (0xfe00707f, 0x0000501b)
  | SRAIW => Some (0xfe00707f, 0x4000501b)
  | ADDW => Some (0xfe00707f, 0x0000003b)
  | SUBW => Some (0xfe00707f, 0x4000003b)
  | SLLW => Some (0xfe00707f, 0x0000103b)
  | SRLW => Some (0xfe00707f, 0x0000503b)
  | SRAW => Some (0xfe00707f, 0x4000503b)
  | MULW => Some (0xfe00707f, 0x0200003b)
  | DIVW => Some (0xfe00707f, 0x0200403b)
  | DIVUW => Some (0xfe00707f, 0x0200503b)
  | REMW => Some (0xfe00707f, 0x0200603b)
  | REMUW => Some (0xfe00707f, 0x0200703b)
  | LR_D => Some (0xf9f0707f, 0x1000302f)
  | SC_D => Some (0xf800707f, 0x1800302f)
  | AMOSWAP_D => Some (0xf800707f, 0x0800302f)
  | AMOADD_D => Some (0xf800707f, 0x0000302f)
  | AMOXOR_D => Some (0xf800707f, 0x2000302f)
  | AMOAND_D => Some (0xf800707f, 0x6000302f)
  | AMOOR_D => Some (0xf800707f, 0x4000302f)
  | AMOMIN_D => Some (0xf800707f, 0x8000302f)
  | AMOMAX_D => Some (0xf800707f, 0xa000302f)
  | AMOMINU_D => Some (0xf800707f, 0xc000302f)
  | AMOMAXU_D => Some (0xf800707f, 0xe000302f)
  | _ => None
  end.

(** The RV32/64 F and D instructions. *)
Definition mask_fd (op : Mapping) : option (Z * Z) :=
  match op with
  | FLW => Some (0x0000707f, 0x00002007)
  | FSW => Some (0x0000707f, 0x00002027)
  | FMADD_S => Some (0x0600007f, 0x00000043)
  | FMSUB_S => Some (0x0600007f, 0x00000047)
  | FNMADD_S => Some (0x0600007f, 0x0000004f)
  | FNMSUB_S => Some (0x0600007f, 0x0000004b)
  | FADD_S => Some (0xfe00007f, 0x00000053)
  | FSUB_S => Some (0xfe00007f, 0x08000053)
  | FMUL_S => Some (0xfe00007f, 0x10000053)
  | FDIV_S => Some (0xfe00007f, 0x18000053)
  | FSQRT_S => Some (0xfff0007f, 0x58000053)
  | FSGNJ_S => Some (0xfe00707f, 0x20000053)
  | FSGNJN_S => Some (0xfe00707f, 0x20001053)
  | FSGNJX_S => Some (0xfe00707f, 0x20002053)
  | FMIN_S => Some (0xfe00707f, 0x28000053)
  | FMAX_S => Some (0xfe00707f, 0x28001053)
  | FCVT_W_S => Some (0xfff0007f, 0xc0000053)
  | FCVT_WU_S => Some (0xfff0007f, 0xc0100053)
  | FMV_X_W => Some (0xfff0707f, 0xe0000053)
  | FEQ_S => Some (0xfe00707f, 0xa0002053)
  | FLT_S => Some (0xfe00707f, 0xa0001053)
  | FLE_S => Some (0xfe00707f, 0xa0000053)
  | FCLASS_S => Some (0xfff0707f, 0xe0001053)
  | FCVT_S_W => Some (0xfff0007f, 0xd0000053)
  | FCVT_S_WU => Some (0xfff0007f, 0xd0100053)
  | FMV_W_X => Some (0xfff0707f, 0xf0000053)
  | FCVT_L_S => Some (0xfff0007f, 0xc0200053)
  | FCVT_LU_S => Some (0xfff0007f, 0xc0300053)
  | FCVT_S_L => Some (0xfff0007f, 0xd0200053)
  | FCVT_S_LU => Some (0xfff0007f, 0xd0300053)
  | FLD => Some (0x0000707f, 0x00003007)
  | FSD => Some (0x0000707f, 0x00003027)
  | FMADD_D => Some (0x0600007f, 0x02000043)
  | FMSUB_D => Some (0x0600007f, 0x02000047)
  | FNMSUB_D => Some (0x0600007f, 0x0200004b)
  | FNMADD_D => Some (0x0600007f, 0x0200004f)
  | FADD_D => Some (0xfe00007f, 0x02000053)
  | FSUB_D => Some (0xfe00007f, 0x0a000053)
  | FMUL_D => Some (0xfe00007f, 0x12000053)
  | FDIV_D => Some (0xfe00007f, 0x1a000053)
  | FSQRT_D => Some (0xfff0007f, 0x5a000053)
  | FSGNJ_D => Some (0xfe00707f, 0x22000053)
  | FSGNJN_D => Some (0xfe00707f, 0x22001053)
  | FSGNJX_D => Some (0xfe00707f, 0x22002053)
  | FMIN_D => Some (0xfe00707f, 0x2a000053)
  | FMAX_D => Some (0xfe00707f, 0x2a001053)
  | FCVT_S_D => Some (0xfff0007f, 0x40100053)
  | FCVT_D_S => Some (0xfff0007f, 0x42000053)
  | FEQ_D => Some (0xfe00707f, 0xa2002053)
  | FLT_D => Some (0xfe00707f, 0xa2001053)
  | FLE_D => Some (0xfe00707f, 0xa2000053)
  | FCLASS_D => Some (0xfff0707f, 0xe2001053)
  | FCVT_W_D => Some (0xfff0007f, 0xc2000053)
  | FCVT_WU_D => Some (0xfff0007f, 0xc2100053)
  | FCVT_D_W => Some (0xfff0007f, 0xd2000053)
  | FCVT_D_WU => Some (0xfff0007f, 0xd2100053)
  | FCVT_L_D => Some (0xfff0007f, 0xc2200053)
  | FCVT_LU_D => Some (0xfff0007f, 0xc2300053)
  | FMV_X_D => Some (0xfff0707f, 0xe2000053)
  | FCVT_D_L => Some (0xfff0007f, 0xd2200053)
  | FCVT_D_LU => Some (0xfff0007f, 0xd2300053)
  | FMV_D_X => Some (0xfff0707f, 0xf2000053)
  | _ => None
  end.

(** On RV32 a shift amount has five bits, so the immediate shifts fix one more bit. *)
Definition mask_shift32 (op : Mapping) : option (Z * Z) :=
  match op with
  | SLLI => Some (0xfe00707f, 0x00001013)
  | SRLI => Some (0xfe00707f, 0x00005013)
  | SRAI => Some (0xfe00707f, 0x40005013)
  | _ => None
  end.

(** The table: fixed bits and their value, for an architecture. *)
Definition mask_encoding (arch : Architecture) (op : Mapping) : option (Z * Z) :=
  match (if is_rv32 arch then mask_shift32 op else None) with
  | Some me => Some me
  | None =>
      match mask_rv32 op with
      | Some me => Some me
      | None => match mask_rv64 op with Some me => Some me | None => mask_fd op end
      end
  end.

(** * [struct Instruction]

    The word is kept as the private member [int32_t instr]: a signed value. *)
Record Instruction := mkInstruction { instr : Z }.

(** [Instruction(uint32_t instr)]: the conversion to [int32_t]. *)
Definition Instr (w : Z) : Instruction := mkInstruction (s32 w).
Definition data (i : Instruction) : Z := u32 (instr i).

Definition quadrant (i : Instruction) : Z := u32 (Z.land (instr i) 0x3).
Definition is_compressed (i : Instruction) : bool := quadrant i <? 3.
Definition c_format (i : Instruction) : Z := u32 (Z.land (instr i) 0xffff).
Definition c_opcode (i : Instruction) : Z := u32 (BIT_SLICE (instr i) 15 13).
Definition c_b12 (i : Instruction) : Z := u32 (BIT_SINGLE_P1 (instr i) 12).
Definition c_rd_small (i : Instruction) : Z := u32 (Z.lor (BIT_SLICE (instr i) 9 7) 8).
Definition c_rs2_small (i : Instruction) : Z := u32 (Z.lor (BIT_SLICE (instr i) 4 2) 8).
Definition c_rs2 (i : Instruction) : Z := u32 (BIT_SLICE (instr i) 6 2).
Definition c_imm (i : Instruction) : Z :=
  u32 (Z.lor (BIT_SLICE (instr i) 6 2) (EXTRACT_SIGN_BIT (instr i) 12 5)).
Definition c_uimm (i : Instruction) : Z :=
  u32 (Z.lor (BIT_SLICE (instr i) 6 2) (Z.shiftl (BIT_SINGLE_P1 (instr i) 12) 5)).
Definition c_f2_high (i : Instruction) : Z := u32 (BIT_SLICE (instr i) 11 10).
Definition c_f2_low (i : Instruction) : Z := u32 (BIT_SLICE (instr i) 6 5).

Definition csr (i : Instruction) : Z := Z.shiftr (BIT_RANGE_U (instr i) 31 20) 20.
Definition zimm (i : Instruction) : Z := u32 (Z.shiftr (BIT_RANGE (instr i) 19 15) 15).
Definition shamt (i : Instruction) : Z := u32 (Z.shiftr (BIT_RANGE (instr i) 25 20) 20).
Definition funct2 (i : Instruction) : Z := Z.shiftr (BIT_RANGE (instr i) 26 25) 25.
Definition funct3 (i : Instruction) : Z := Z.shiftr (BIT_RANGE (instr i) 14 12) 12.
Definition funct12 (i : Instruction) : Z := Z.shiftr (BIT_RANGE_U (instr i) 31 20) 20.
Definition funct7 (i : Instruction) : Z := Z.shiftr (BIT_RANGE_U (instr i) 31 25) 25.
Definition funct6 (i : Instruction) : Z := Z.shiftr (BIT_RANGE_U (instr i) 31 26) 26.
Definition funct5 (i : Instruction) : Z := Z.shiftr (BIT_RANGE_U (instr i) 31 27) 27.
Definition frm (i : Instruction) : Z := u32 (BIT_SLICE (instr i) 14 12).
Definition opcode (i : Instruction) : Z := BIT_RANGE (instr i) 6 0.

Definition J_imm (i : Instruction) : Z :=
  s32 (Z.lor (Z.lor (Z.lor (Z.shiftr (BIT_SINGLE (instr i) 31) 11) (BIT_RANGE (instr i) 19 12))
                    (Z.shiftr (BIT_SINGLE (instr i) 20) 9))
             (Z.shiftr (BIT_RANGE (instr i) 30 21) 20)).
Definition I_imm (i : Instruction) : Z := s32 (Z.shiftr (BIT_RANGE (instr i) 31 20) 20).
Definition S_imm (i : Instruction) : Z :=
  s32 (Z.lor (Z.shiftr (BIT_RANGE (instr i) 31 25) 20) (Z.shiftr (BIT_RANGE (instr i) 11 7) 7)).
Definition B_imm (i : Instruction) : Z :=
  s32 (Z.lor (Z.lor (Z.lor (Z.shiftr (BIT_SINGLE (instr i) 31) 19)
                           (Z.shiftl (BIT_SINGLE (instr i) 7) 4))
                    (Z.shiftr (BIT_RANGE (instr i) 30 25) 20))
             (Z.shiftr (BIT_RANGE (instr i) 11 8) 7)).
Definition U_imm (i : Instruction) : Z := s32 (BIT_RANGE (instr i) 31 12).

Definition rs1 (i : Instruction) : Z := u32 (Z.shiftr (BIT_RANGE (instr i) 19 15) 15).
Definition rs2 (i : Instruction) : Z := u32 (Z.shiftr (BIT_RANGE (instr i) 24 20) 20).
Definition rs3 (i : Instruction) : Z := Z.shiftr (BIT_RANGE_U (instr i) 31 27) 27.
Definition rd (i : Instruction) : Z := u32 (Z.shiftr (BIT_RANGE (instr i) 11 7) 7).
(** [c_rd()] is [rd()]. *)
Definition c_rd (i : Instruction) : Z := rd i.
