(* ===== verification/Decode.v ===== *)
(** The decoder of uncompressed instructions, [Instruction::decode_normal]
    ([core/common/instr.cpp]), and its equivalence with the encoding table. *)
From S2P Require Import Prelude Bits Instr.

(** [MATCH_AND_RETURN_INSTR]: the switch has selected [result] by its function
    fields; all its fixed bits are compared before it is returned. *)
Definition match_instr (arch : Architecture) (i : Instruction) (result : Mapping) : Mapping :=
  match mask_encoding arch result with
  | Some (mask, encoding) =>
      if Z.land (data i) mask =? encoding then result else UNDEF
  | None => UNDEF
  end.

(** [case OP_BEQ] *)
Definition decode_branch (arch : Architecture) (i : Instruction) : Mapping :=
  (switch (funct3 i) [
    (F3_BEQ, match_instr arch i BEQ);
    (F3_BNE, match_instr arch i BNE);
    (F3_BLT, match_instr arch i BLT);
    (F3_BGE, match_instr arch i BGE);
    (F3_BLTU, match_instr arch i BLTU);
    (F3_BGEU, match_instr arch i BGEU)
  ] UNDEF).

(** [case OP_LB] *)
Definition decode_load (arch : Architecture) (i : Instruction) : Mapping :=
  (switch (funct3 i) [
    (F3_LB, match_instr arch i LB);
    (F3_LH, match_instr arch i LH);
    (F3_LW, match_instr arch i LW);
    (F3_LBU, match_instr arch i LBU);
    (F3_LHU, match_instr arch i LHU);
    (F3_LWU, match_instr arch i LWU);
    (F3_LD, match_instr arch i LD)
  ] UNDEF).

(** [case OP_SB] *)
Definition decode_store (arch : Architecture) (i : Instruction) : Mapping :=
  (switch (funct3 i) [
    (F3_SB, match_instr arch i SB);
    (F3_SH, match_instr arch i SH);
    (F3_SW, match_instr arch i SW);
    (F3_SD, match_instr arch i SD)
  ] UNDEF).

(** [case OP_ADDI] *)
Definition decode_op_imm (arch : Architecture) (i : Instruction) : Mapping :=
  (switch (funct3 i) [
    (F3_ADDI, match_instr arch i ADDI);
    (F3_SLTI, match_instr arch i SLTI);
    (F3_SLTIU, match_instr arch i SLTIU);
    (F3_XORI, match_instr arch i XORI);
    (F3_ORI, match_instr arch i ORI);
    (F3_ANDI, match_instr arch i ANDI);
    (F3_SLLI, match_instr arch i SLLI);
    (F3_SRLI, (switch (funct6 i) [
        (F6_SRLI, match_instr arch i SRLI);
        (F6_SRAI, match_instr arch i SRAI)
      ] UNDEF))
  ] UNDEF).

(** [case OP_ADDIW] *)
Definition decode_op_imm_w (arch : Architecture) (i : Instruction) : Mapping :=
  (switch (funct3 i) [
    (F3_ADDIW, match_instr arch i ADDIW);
    (F3_SLLIW, match_instr arch i SLLIW);
    (F3_SRLIW, (switch (funct7 i) [
        (F7_SRLIW, match_instr arch i SRLIW);
        (F7_SRAIW, match_instr arch i SRAIW)
      ] UNDEF))
  ] UNDEF).

(** [case OP_ADD] *)
Definition decode_op (arch : Architecture) (i : Instruction) : Mapping :=
  (switch (funct7 i) [
    (F7_ADD, (switch (funct3 i) [
        (F3_ADD, match_instr arch i ADD);
        (F3_SLL, match_instr arch i SLL);
        (F3_SLT, match_instr arch i SLT);
        (F3_SLTU, match_instr arch i SLTU);
        (F3_XOR, match_instr arch i XOR);
        (F3_SRL, match_instr arch i SRL);
        (F3_OR, match_instr arch i OR);
        (F3_AND, match_instr arch i AND)
      ] UNDEF));
    (F7_SUB, (switch (funct3 i) [
        (F3_SUB, match_instr arch i SUB);
        (F3_SRA, match_instr arch i SRA)
      ] UNDEF));
    (F7_MUL, (switch (funct3 i) [
        (F3_MUL, match_instr arch i MUL);
        (F3_MULH, match_instr arch i MULH);
        (F3_MULHSU, match_instr arch i MULHSU);
        (F3_MULHU, match_instr arch i MULHU);
        (F3_DIV, match_instr arch i DIV);
        (F3_DIVU, match_instr arch i DIVU);
        (F3_REM, match_instr arch i REM);
        (F3_REMU, match_instr arch i REMU)
      ] UNDEF))
  ] UNDEF).

(** [case OP_ADDW] *)
Definition decode_op_w (arch : Architecture) (i : Instruction) : Mapping :=
  (switch (funct7 i) [
    (F7_ADDW, (switch (funct3 i) [
        (F3_ADDW, match_instr arch i ADDW);
        (F3_SLLW, match_instr arch i SLLW);
        (F3_SRLW, match_instr arch i SRLW)
      ] UNDEF));
    (F7_SUBW, (switch (funct3 i) [
        (F3_SUBW, match_instr arch i SUBW);
        (F3_SRAW, match_instr arch i SRAW)
      ] UNDEF));
    (F7_MULW, (switch (funct3 i) [
        (F3_MULW, match_instr arch i MULW);
        (F3_DIVW, match_instr arch i DIVW);
        (F3_DIVUW, match_instr arch i DIVUW);
        (F3_REMW, match_instr arch i REMW);
        (F3_REMUW, match_instr arch i REMUW)
      ] UNDEF))
  ] UNDEF).

(** [case OP_FENCE] *)
Definition decode_fence (arch : Architecture) (i : Instruction) : Mapping :=
  (switch (funct3 i) [
    (F3_FENCE, match_instr arch i FENCE);
    (F3_FENCE_I, match_instr arch i FENCE_I)
  ] UNDEF).

(** [case OP_ECALL] *)
Definition decode_system (arch : Architecture) (i : Instruction) : Mapping :=
  (switch (funct3 i) [
    (F3_SYS, (switch (funct12 i) [
        (F12_ECALL, match_instr arch i ECALL);
        (F12_EBREAK, match_instr arch i EBREAK);
        (F12_URET, match_instr arch i URET);
        (F12_SRET, match_instr arch i SRET);
        (F12_MRET, match_instr arch i MRET);
        (F12_WFI, match_instr arch i WFI)
      ] (match_instr arch i SFENCE_VMA)));
    (F3_CSRRW, match_instr arch i CSRRW);
    (F3_CSRRS, match_instr arch i CSRRS);
    (F3_CSRRC, match_instr arch i CSRRC);
    (F3_CSRRWI, match_instr arch i CSRRWI);
    (F3_CSRRSI, match_instr arch i CSRRSI);
    (F3_CSRRCI, match_instr arch i CSRRCI)
  ] UNDEF).

(** [case OP_AMO] *)
Definition decode_amo (arch : Architecture) (i : Instruction) : Mapping :=
  (switch (funct5 i) [
    (F5_LR_W, (if funct3 i =? F3_AMO_D then match_instr arch i LR_D else match_instr arch i LR_W));
    (F5_SC_W, (if funct3 i =? F3_AMO_D then match_instr arch i SC_D else match_instr arch i SC_W));
    (F5_AMOSWAP_W, (if funct3 i =? F3_AMO_D then match_instr arch i AMOSWAP_D else match_instr arch i AMOSWAP_W));
    (F5_AMOADD_W, (if funct3 i =? F3_AMO_D then match_instr arch i AMOADD_D else match_instr arch i AMOADD_W));
    (F5_AMOXOR_W, (if funct3 i =? F3_AMO_D then match_instr arch i AMOXOR_D else match_instr arch i AMOXOR_W));
    (F5_AMOAND_W, (if funct3 i =? F3_AMO_D then match_instr arch i AMOAND_D else match_instr arch i AMOAND_W));
    (F5_AMOOR_W, (if funct3 i =? F3_AMO_D then match_instr arch i AMOOR_D else match_instr arch i AMOOR_W));
    (F5_AMOMIN_W, (if funct3 i =? F3_AMO_D then match_instr arch i AMOMIN_D else match_instr arch i AMOMIN_W));
    (F5_AMOMAX_W, (if funct3 i =? F3_AMO_D then match_instr arch i AMOMAX_D else match_instr arch i AMOMAX_W));
    (F5_AMOMINU_W, (if funct3 i =? F3_AMO_D then match_instr arch i AMOMINU_D else match_instr arch i AMOMINU_W));
    (F5_AMOMAXU_W, (if funct3 i =? F3_AMO_D then match_instr arch i AMOMAXU_D else match_instr arch i AMOMAXU_W))
  ] UNDEF).

(** [case OP_FADD_S] *)
Definition decode_fp (arch : Architecture) (i : Instruction) : Mapping :=
  (switch (funct7 i) [
    (F7_FADD_S, match_instr arch i FADD_S);
    (F7_FADD_D, match_instr arch i FADD_D);
    (F7_FSUB_S, match_instr arch i FSUB_S);
    (F7_FSUB_D, match_instr arch i FSUB_D);
    (F7_FCVT_D_S, match_instr arch i FCVT_D_S);
    (F7_FMUL_S, match_instr arch i FMUL_S);
    (F7_FMUL_D, match_instr arch i FMUL_D);
    (F7_FDIV_S, match_instr arch i FDIV_S);
    (F7_FDIV_D, match_instr arch i FDIV_D);
    (F7_FLE_S, (switch (funct3 i) [
        (F3_FLE_S, match_instr arch i FLE_S);
        (F3_FLT_S, match_instr arch i FLT_S);
        (F3_FEQ_S, match_instr arch i FEQ_S)
      ] UNDEF));
    (F7_FSGNJ_D, (switch (funct3 i) [
        (F3_FSGNJ_D, match_instr arch i FSGNJ_D);
        (F3_FSGNJN_D, match_instr arch i FSGNJN_D);
        (F3_FSGNJX_D, match_instr arch i FSGNJX_D)
      ] UNDEF));
    (F7_FMIN_S, (switch (funct3 i) [
        (F3_FMIN_S, match_instr arch i FMIN_S);
        (F3_FMAX_S, match_instr arch i FMAX_S)
      ] UNDEF));
    (F7_FMIN_D, (switch (funct3 i) [
        (F3_FMIN_D, match_instr arch i FMIN_D);
        (F3_FMAX_D, match_instr arch i FMAX_D)
      ] UNDEF));
    (F7_FCVT_S_D, match_instr arch i FCVT_S_D);
    (F7_FSGNJ_S, (switch (funct3 i) [
        (F3_FSGNJ_S, match_instr arch i FSGNJ_S);
        (F3_FSGNJN_S, match_instr arch i FSGNJN_S);
        (F3_FSGNJX_S, match_instr arch i FSGNJX_S)
      ] UNDEF));
    (F7_FLE_D, (switch (funct3 i) [
        (F3_FLE_D, match_instr arch i FLE_D);
        (F3_FLT_D, match_instr arch i FLT_D);
        (F3_FEQ_D, match_instr arch i FEQ_D)
      ] UNDEF));
    (F7_FCVT_S_W, (switch (rs2 i) [
        (RS2_FCVT_S_W, match_instr arch i FCVT_S_W);
        (RS2_FCVT_S_WU, match_instr arch i FCVT_S_WU);
        (RS2_FCVT_S_L, match_instr arch i FCVT_S_L);
        (RS2_FCVT_S_LU, match_instr arch i FCVT_S_LU)
      ] UNDEF));
    (F7_FCVT_D_W, (switch (rs2 i) [
        (RS2_FCVT_D_W, match_instr arch i FCVT_D_W);
        (RS2_FCVT_D_WU, match_instr arch i FCVT_D_WU);
        (RS2_FCVT_D_L, match_instr arch i FCVT_D_L);
        (RS2_FCVT_D_LU, match_instr arch i FCVT_D_LU)
      ] UNDEF));
    (F7_FCVT_W_D, (switch (rs2 i) [
        (RS2_FCVT_W_D, match_instr arch i FCVT_W_D);
        (RS2_FCVT_WU_D, match_instr arch i FCVT_WU_D);
        (RS2_FCVT_L_D, match_instr arch i FCVT_L_D);
        (RS2_FCVT_LU_D, match_instr arch i FCVT_LU_D)
      ] UNDEF));
    (F7_FSQRT_S, match_instr arch i FSQRT_S);
    (F7_FSQRT_D, match_instr arch i FSQRT_D);
    (F7_FCVT_W_S, (switch (rs2 i) [
        (RS2_FCVT_W_S, match_instr arch i FCVT_W_S);
        (RS2_FCVT_WU_S, match_instr arch i FCVT_WU_S);
        (RS2_FCVT_L_S, match_instr arch i FCVT_L_S);
        (RS2_FCVT_LU_S, match_instr arch i FCVT_LU_S)
      ] UNDEF));
    (F7_FMV_X_W, (switch (funct3 i) [
        (F3_FMV_X_W, match_instr arch i FMV_X_W);
        (F3_FCLASS_S, match_instr arch i FCLASS_S)
      ] UNDEF));
    (F7_FMV_X_D, (switch (funct3 i) [
        (F3_FMV_X_D, match_instr arch i FMV_X_D);
        (F3_FCLASS_D, match_instr arch i FCLASS_D)
      ] UNDEF));
    (F7_FMV_W_X, match_instr arch i FMV_W_X);
    (F7_FMV_D_X, match_instr arch i FMV_D_X)
  ] UNDEF).

(** [Instruction::decode_normal] *)
Definition decode_normal (arch : Architecture) (i : Instruction) : Mapping :=
  switch (opcode i) [
    (OP_LUI, match_instr arch i LUI);
    (OP_AUIPC, match_instr arch i AUIPC);
    (OP_JAL, match_instr arch i JAL);
    (OP_JALR, match_instr arch i JALR);
    (OP_BEQ, decode_branch arch i);
    (OP_LB, decode_load arch i);
    (OP_SB, decode_store arch i);
    (OP_ADDI, decode_op_imm arch i);
    (OP_ADDIW, decode_op_imm_w arch i);
    (OP_ADD, decode_op arch i);
    (OP_ADDW, decode_op_w arch i);
    (OP_FENCE, decode_fence arch i);
    (OP_ECALL, decode_system arch i);
    (OP_AMO, decode_amo arch i);
    (OP_FMADD_S, (switch (funct2 i) [
        (F2_FMADD_S, match_instr arch i FMADD_S);
        (F2_FMADD_D, match_instr arch i FMADD_D)
      ] UNDEF));
    (OP_FADD_S, decode_fp arch i);
    (OP_FLW, (switch (funct3 i) [
        (F3_FLW, match_instr arch i FLW);
        (F3_FLD, match_instr arch i FLD)
      ] UNDEF));
    (OP_FSW, (switch (funct3 i) [
        (F3_FSW, match_instr arch i FSW);
        (F3_FSD, match_instr arch i FSD)
      ] UNDEF));
    (OP_FMSUB_S, (switch (funct2 i) [
        (F2_FMSUB_S, match_instr arch i FMSUB_S);
        (F2_FMSUB_D, match_instr arch i FMSUB_D)
      ] UNDEF));
    (OP_FNMSUB_S, (switch (funct2 i) [
        (F2_FNMSUB_S, match_instr arch i FNMSUB_S);
        (F2_FNMSUB_D, match_instr arch i FNMSUB_D)
      ] UNDEF));
    (OP_FNMADD_S, (switch (funct2 i) [
        (F2_FNMADD_S, match_instr arch i FNMADD_S);
        (F2_FNMADD_D, match_instr arch i FNMADD_D)
      ] UNDEF))
  ] UNDEF.

(** * Specification: the word carries the fixed bits of [op] *)
Definition encodes (arch : Architecture) (i : Instruction) (op : Mapping) : Prop :=
  exists mask encoding, mask_encoding arch op = Some (mask, encoding) /\
    Z.land (data i) mask = encoding.

#[export] Instance encodes_dec arch i op : Decision (encodes arch i op).
Proof.
  destruct (mask_encoding arch op) as [[m e]|] eqn:Hm.
  - destruct (decide (Z.land (data i) m = e)) as [He|He].
    + left. by exists m, e.
    + right. intros (m' & e' & ? & ?). congruence.
  - right. intros (m' & e' & ? & ?). congruence.
Defined.

(** ** Every answer of the decoder is justified by the table *)
Section sound.
Context (arch : Architecture) (i : Instruction).

Definition justified (op : Mapping) : Prop := op = UNDEF \/ encodes arch i op.

Lemma justified_undef : justified UNDEF.
Proof. by left. Qed.

Lemma justified_match op : justified (match_instr arch i op).
Proof.
  unfold match_instr. destruct (mask_encoding arch op) as [[m e]|] eqn:Hm; [|by left].
  destruct (Z.eqb_spec (Z.land (data i) m) e); [right; by exists m, e|by left].
Qed.

Lemma justified_switch v cases dflt :
  Forall (fun c => justified c.2) cases -> justified dflt ->
  justified (switch v cases dflt).
Proof.
  apply switch_prop.
Qed.

Lemma justified_if (b : bool) x y :
  justified x -> justified y -> justified (if b then x else y).
Proof. by destruct b. Qed.
End sound.

Ltac justify :=
  repeat first
    [ apply justified_undef | apply justified_match | apply justified_if
    | apply justified_switch | apply Forall_nil; exact I | apply Forall_cons; split; cbn [snd] ].

Lemma decode_normal_justified arch i : justified arch i (decode_normal arch i).
Proof.
  unfold decode_normal, decode_branch, decode_load, decode_store, decode_op_imm,
    decode_op_imm_w, decode_op, decode_op_w, decode_fence, decode_system, decode_amo, decode_fp.
  justify.
Qed.

(** ** The function fields as slices of the unsigned word *)
Lemma range_data i u l :
  0 <= range_mask u l < 2 ^ 32 -> BIT_RANGE (instr i) u l = Z.land (data i) (range_mask u l).
Proof. intros H. unfold BIT_RANGE, data. by rewrite u32_land. Qed.

Lemma opcode_data i : opcode i = Z.land (data i) 0x7f.
Proof. unfold opcode. rewrite range_data by (vm_compute; intuition congruence). done. Qed.
Lemma funct2_data i : funct2 i = Z.shiftr (Z.land (data i) 0x06000000) 25.
Proof. unfold funct2. rewrite range_data by (vm_compute; intuition congruence). done. Qed.
Lemma funct3_data i : funct3 i = Z.shiftr (Z.land (data i) 0x7000) 12.
Proof. unfold funct3. rewrite range_data by (vm_compute; intuition congruence). done. Qed.
Lemma funct12_data i : funct12 i = Z.shiftr (Z.land (data i) 0xfff00000) 20.
Proof. done. Qed.
Lemma funct7_data i : funct7 i = Z.shiftr (Z.land (data i) 0xfe000000) 25.
Proof. done. Qed.
Lemma funct6_data i : funct6 i = Z.shiftr (Z.land (data i) 0xfc000000) 26.
Proof. done. Qed.
Lemma funct5_data i : funct5 i = Z.shiftr (Z.land (data i) 0xf8000000) 27.
Proof. done. Qed.
Lemma rs2_data i : rs2 i = u32 (Z.shiftr (Z.land (data i) 0x01f00000) 20).
Proof. unfold rs2. rewrite range_data by (vm_compute; intuition congruence). done. Qed.

(** With the fixed bits known, every field inside the mask is known. *)
Ltac field_known lem i :=
  try match goal with
  | H : Z.land (data i) ?m = ?e |- _ =>
      let E := fresh "F" in
      pose proof (lem i) as E;
      rewrite (land_sub (data i) m e _ H) in E by reflexivity;
      lazymatch type of E with
      | _ = ?r => let r' := eval vm_compute in r in change r with r' in E
      end
  end.

(** The table entry used, with the architecture resolved. *)
Definition base_mask (op : Mapping) : option (Z * Z) :=
  match mask_rv32 op with
  | Some me => Some me
  | None => match mask_rv64 op with Some me => Some me | None => mask_fd op end
  end.

Lemma mask_encoding_inv arch op me :
  mask_encoding arch op = Some me -> mask_shift32 op = Some me \/ base_mask op = Some me.
Proof.
  unfold mask_encoding, base_mask. destruct (is_rv32 arch); [|tauto].
  destruct (mask_shift32 op); tauto.
Qed.

Lemma match_instr_encodes arch i op : encodes arch i op -> match_instr arch i op = op.
Proof.
  intros (m & e & Hm & He). unfold match_instr. rewrite Hm.
  by destruct (Z.eqb_spec (Z.land (data i) m) e).
Qed.

(** [SFENCE_VMA] is the default of the [funct12] switch: no other [funct12] label
    has its [funct7]. *)
Lemma funct12_sfence i :
  Z.land (data i) 0xfe007fff = 0x12000073 -> Z.land (funct12 i) 0xfe0 = 0x120.
Proof.
  intros H. rewrite funct12_data. change 0xfe0 with (Z.shiftr 0xfe000000 20) at 1.
  rewrite <- Z.shiftr_land, <- Z.land_assoc.
  change (Z.land 0xfff00000 0xfe000000) with 0xfe000000.
  by rewrite (land_sub (data i) _ _ _ H).
Qed.

Lemma decode_system_sfence arch i :
  Z.land (data i) 0xfe007fff = 0x12000073 ->
  decode_system arch i = match_instr arch i SFENCE_VMA.
Proof.
  intros H. pose proof (funct12_sfence i H) as H12.
  assert (funct3 i = F3_SYS) as F3.
  { rewrite funct3_data. rewrite (land_sub (data i) _ _ _ H); reflexivity. }
  assert (forall c, Z.land c 0xfe0 <> 0x120 -> (funct12 i =? c) = false) as Hne.
  { intros c Hc. apply Z.eqb_neq. intros E. apply Hc. by rewrite <- E. }
  unfold decode_system. rewrite F3. cbn [switch]. change (F3_SYS =? F3_SYS) with true.
  cbv iota. rewrite !Hne by discriminate. done.
Qed.

Ltac decode_case i :=
  field_known opcode_data i; field_known funct2_data i; field_known funct3_data i;
  field_known funct12_data i; field_known funct7_data i; field_known funct6_data i;
  field_known funct5_data i; field_known rs2_data i;
  unfold decode_normal, decode_branch, decode_load, decode_store, decode_op_imm,
    decode_op_imm_w, decode_op, decode_op_w, decode_fence, decode_amo, decode_fp;
  try (rewrite decode_system_sfence by assumption);
  unfold decode_system;
  repeat match goal with F : ?f i = _ |- context [?f i] => rewrite F end;
  lazy -[match_instr opcode funct2 funct3 funct5 funct6 funct7 funct12 rs2];
  try (apply match_instr_encodes; eexists _, _; split; eassumption).

Lemma decode_normal_complete arch i op :
  encodes arch i op -> decode_normal arch i = op.
Proof.
  intros (m & e & Hm & H). pose proof (mask_encoding_inv _ _ _ Hm) as Hc.
  destruct op; cbn in Hc; destruct Hc as [Hc|Hc]; try discriminate Hc;
    injection Hc as <- <-.
  all: decode_case i.
Qed.

(** C6 The decoder and the encoding table agree: for a defined instruction [op],
    [decode_normal] answers [op] exactly when the word carries the fixed bits the
    table gives [op] on that architecture, whatever the other bits are. *)
Theorem decode_normal_iff_table arch i op :
  op <> UNDEF -> decode_normal arch i = op <-> encodes arch i op.
Proof.
  intros Hop. split; [|apply decode_normal_complete].
  intros <-. by destruct (decode_normal_justified arch i).
Qed.

Lemma decode_normal_iff_table_witness :
  decode_normal RV32 (Instr 0x00c58533) = ADD <-> encodes RV32 (Instr 0x00c58533) ADD.
Proof. apply (decode_normal_iff_table RV32 (Instr 0x00c58533) ADD). discriminate. Defined.

(** No word has two encodings: the fixed bits of two different instructions of
    one architecture never hold of the same word. *)
Theorem encodings_disjoint arch i op1 op2 :
  encodes arch i op1 -> encodes arch i op2 -> op1 = op2.
Proof.
  intros H1 H2. by rewrite <- (decode_normal_complete _ _ _ H1), (decode_normal_complete _ _ _ H2).
Qed.

Lemma encodings_disjoint_witness : ADD = decode_normal RV32 (Instr 0x00c58533).
Proof.
  apply (encodings_disjoint RV32 (Instr 0x00c58533)).
  - exists 0xfe00707f, 0x00000033. split; reflexivity.
  - exists 0xfe00707f, 0x00000033. split; reflexivity.
Defined.
