(* ===== verification/Compressed.v ===== *)
(** Compressed instructions ([core/common/instr.cpp]): recognising the 16-bit form,
    the immediates it scatters over the word, the [InstructionFactory] that
    assembles the 32-bit instruction it stands for, and the expansion. *)
From S2P Require Import Prelude Bits Instr Decode.

(** [enum Compressed::Opcode]. *)
Inductive COpcode :=
| C_Illegal | C_Reserved | C_ADDI4SPN | C_FLD | C_LQ | C_LW | C_FLW | C_LD
| C_FSD | C_SQ | C_SW | C_FSW | C_SD
| C_NOP | C_ADDI | C_JAL | C_ADDIW | C_LI | C_ADDI16SP | C_LUI | C_SRLI | C_SRAI | C_ANDI
| C_SUB | C_XOR | C_OR | C_AND | C_SUBW | C_ADDW | C_J | C_BEQZ | C_BNEZ
| C_SLLI | C_FLDSP | C_LQSP | C_LWSP | C_FLWSP | C_LDSP | C_JR | C_MV | C_EBREAK
| C_JALR | C_ADD | C_FSDSP | C_SQSP | C_SWSP | C_FSWSP | C_SDSP.
#[export] Instance COpcode_eq_dec : EqDecision COpcode.
Proof. solve_decision. Defined.

(** * Immediates *)

Definition C_ADDI4SPN_NZUIMM (n : Z) : Z :=
  Z.lor (Z.lor (Z.lor (Z.shiftl (BIT_SLICE n 12 11) 4) (Z.shiftl (BIT_SLICE n 10 7) 6))
               (Z.shiftl (BIT_SINGLE_P1 n 6) 2)) (Z.shiftl (BIT_SINGLE_P1 n 5) 3).
Definition C_LW_UIMM (n : Z) : Z :=
  Z.lor (Z.lor (Z.shiftl (BIT_SLICE n 12 10) 3) (Z.shiftl (BIT_SINGLE_P1 n 6) 2))
        (Z.shiftl (BIT_SINGLE_P1 n 5) 6).
Definition C_LD_UIMM (n : Z) : Z :=
  Z.lor (Z.shiftl (BIT_SLICE n 12 10) 3) (Z.shiftl (BIT_SLICE n 6 5) 6).
Definition C_SW_UIMM (n : Z) : Z := C_LW_UIMM n.
Definition C_SD_UIMM (n : Z) : Z := C_LD_UIMM n.
(** The parameter of the next four is an [int32_t]. *)
Definition C_JAL_IMM (n : Z) : Z :=
  s32 (Z.lor (Z.lor (Z.lor (Z.lor (Z.lor (Z.lor (Z.lor
    (EXTRACT_SIGN_BIT n 12 11) (BIT_SINGLE_PN n 11 4)) (Z.shiftl (BIT_SLICE n 10 9) 8))
    (BIT_SINGLE_PN n 8 10)) (BIT_SINGLE_PN n 7 6)) (BIT_SINGLE_PN n 6 7))
    (Z.shiftl (BIT_SLICE n 5 3) 1)) (BIT_SINGLE_PN n 2 5)).
Definition C_ADDI16SP_NZIMM (n : Z) : Z :=
  s32 (Z.lor (Z.lor (Z.lor (Z.lor
    (EXTRACT_SIGN_BIT n 12 9) (BIT_SINGLE_PN n 6 4)) (BIT_SINGLE_PN n 5 6))
    (Z.shiftl (BIT_SLICE n 4 3) 7)) (BIT_SINGLE_PN n 2 5)).
Definition C_LUI_NZIMM (n : Z) : Z :=
  s32 (Z.lor (EXTRACT_SIGN_BIT n 12 17) (Z.shiftl (BIT_SLICE n 6 2) 12)).
Definition C_J_IMM (n : Z) : Z := C_JAL_IMM n.
Definition C_BRANCH_IMM (n : Z) : Z :=
  s32 (Z.lor (Z.lor (Z.lor (Z.lor
    (EXTRACT_SIGN_BIT n 12 8) (Z.shiftl (BIT_SLICE n 11 10) 3)) (Z.shiftl (BIT_SLICE n 6 5) 6))
    (Z.shiftl (BIT_SLICE n 4 3) 1)) (BIT_SINGLE_PN n 2 5)).
Definition C_LWSP_UIMM (n : Z) : Z :=
  Z.lor (Z.lor (BIT_SINGLE_PN n 12 5) (Z.shiftl (BIT_SLICE n 6 4) 2)) (Z.shiftl (BIT_SLICE n 3 2) 6).
Definition C_SWSP_UIMM (n : Z) : Z :=
  Z.lor (Z.shiftl (BIT_SLICE n 12 9) 2) (Z.shiftl (BIT_SLICE n 8 7) 6).
Definition C_LDSP_UIMM (n : Z) : Z :=
  Z.lor (Z.lor (BIT_SINGLE_PN n 12 5) (Z.shiftl (BIT_SLICE n 6 5) 3)) (Z.shiftl (BIT_SLICE n 4 2) 6).
Definition C_SDSP_UIMM (n : Z) : Z :=
  Z.lor (Z.shiftl (BIT_SLICE n 12 10) 3) (Z.shiftl (BIT_SLICE n 9 7) 6).

(** * [struct InstructionFactory]

    [T(w)] converts the assembled [unsigned] word to the [int32_t] member.  The five
    shapes are written once; each function of the factory names its constants. *)
Definition T (w : Z) : Instruction := Instr (u32 w).

Definition f_rd (rd : Z) : Z := Z.shiftl (Z.land rd 0x1f) 7.
Definition f_rs1 (rs1 : Z) : Z := Z.shiftl (Z.land rs1 0x1f) 15.
Definition f_rs2 (rs2 : Z) : Z := Z.shiftl (Z.land rs2 0x1f) 20.

Definition r_word (rd rs1 rs2 op f3 f7 : Z) : Z :=
  Z.lor (Z.lor (Z.lor (Z.lor (Z.lor (f_rd rd) (f_rs1 rs1)) (f_rs2 rs2)) op)
        (Z.shiftl f3 12)) (Z.shiftl f7 25).
Definition i_word (rd rs1 I_imm op f3 : Z) : Z :=
  Z.lor (Z.lor (Z.lor (Z.lor (Z.shiftl (Z.land I_imm 4095) 20) (f_rd rd)) (f_rs1 rs1)) op)
        (Z.shiftl f3 12).
Definition sh_word (rd rs1 shamt op f3 f7 : Z) : Z :=
  Z.lor (Z.lor (Z.lor (Z.lor (Z.lor (f_rd rd) (f_rs1 rs1)) (Z.shiftl (Z.land shamt 63) 20)) op)
        (Z.shiftl f3 12)) (Z.shiftl f7 25).
Definition s_word (rs1 rs2 S_imm op f3 : Z) : Z :=
  Z.lor (Z.lor (Z.lor (Z.lor
    (Z.lor (Z.shiftl (Z.land S_imm 0x1f) 7) (Z.shiftl (Z.land S_imm (Z.shiftl 0x7f 5)) 20))
    (f_rs1 rs1)) (f_rs2 rs2)) op) (Z.shiftl f3 12).
Definition b_word (rs1 rs2 B_imm f3 : Z) : Z :=
  Z.lor (Z.lor (Z.lor (Z.lor
    (Z.lor (Z.lor (Z.shiftl (Z.land B_imm 0x1e) 7)
                  (Z.shiftr (Z.land B_imm (Z.shiftl 1 11)) 4))
           (Z.lor (Z.shiftl (Z.land B_imm (Z.shiftl 0x3f 5)) 20)
                  (Z.shiftl (Z.land B_imm (Z.shiftl 1 12)) 19)))
    (f_rs1 rs1)) (f_rs2 rs2)) 99) (Z.shiftl f3 12).

Module InstructionFactory.
Definition ADD (rd rs1 rs2 : Z) : Instruction := T (r_word rd rs1 rs2 51 0 0).
Definition AND (rd rs1 rs2 : Z) : Instruction := T (r_word rd rs1 rs2 51 7 0).
Definition OR (rd rs1 rs2 : Z) : Instruction := T (r_word rd rs1 rs2 51 6 0).
Definition XOR (rd rs1 rs2 : Z) : Instruction := T (r_word rd rs1 rs2 51 4 0).
Definition SUB (rd rs1 rs2 : Z) : Instruction := T (r_word rd rs1 rs2 51 0 32).
Definition LW (rd rs1 I_imm : Z) : Instruction := T (i_word rd rs1 I_imm 3 2).
Definition LD (rd rs1 I_imm : Z) : Instruction := T (i_word rd rs1 I_imm 3 3).
Definition FLW (rd rs1 I_imm : Z) : Instruction := T (i_word rd rs1 I_imm 7 2).
Definition FLD (rd rs1 I_imm : Z) : Instruction := T (i_word rd rs1 I_imm 7 3).
Definition SW (rs1 rs2 S_imm : Z) : Instruction := T (s_word rs1 rs2 S_imm 35 2).
Definition SD (rs1 rs2 S_imm : Z) : Instruction := T (s_word rs1 rs2 S_imm 35 3).
Definition FSW (rs1 rs2 S_imm : Z) : Instruction := T (s_word rs1 rs2 S_imm 39 2).
Definition FSD (rs1 rs2 S_imm : Z) : Instruction := T (s_word rs1 rs2 S_imm 39 3).
Definition LUI (rd U_imm : Z) : Instruction :=
  T (Z.lor (Z.lor (Z.land U_imm (s32 (Z.shiftl 1048575 12))) (f_rd rd)) 55).
Definition ADDI (rd rs1 I_imm : Z) : Instruction := T (i_word rd rs1 I_imm 19 0).
Definition ANDI (rd rs1 I_imm : Z) : Instruction := T (i_word rd rs1 I_imm 19 7).
Definition SRLI (rd rs1 shamt : Z) : Instruction := T (sh_word rd rs1 shamt 19 5 0).
Definition SRAI (rd rs1 shamt : Z) : Instruction := T (sh_word rd rs1 shamt 19 5 32).
Definition SLLI (rd rs1 shamt : Z) : Instruction := T (sh_word rd rs1 shamt 19 1 0).
Definition JAL (rd J_imm : Z) : Instruction :=
  T (Z.lor (Z.lor 111 (f_rd rd))
       (Z.lor (Z.lor (Z.lor (Z.land J_imm (Z.shiftl 0xff 12))
                            (Z.shiftl (Z.land J_imm (Z.shiftl 1 11)) 9))
                     (Z.shiftl (Z.land J_imm 0x7fe) 20))
              (Z.shiftl (Z.land J_imm (Z.shiftl 1 20)) 11))).
Definition JALR (rd rs1 I_imm : Z) : Instruction := T (i_word rd rs1 I_imm 103 0).
Definition BEQ (rs1 rs2 B_imm : Z) : Instruction := T (b_word rs1 rs2 B_imm 0).
Definition BNE (rs1 rs2 B_imm : Z) : Instruction := T (b_word rs1 rs2 B_imm 1).
Definition EBREAK : Instruction := T 1048691.
Definition ADDIW (rd rs1 I_imm : Z) : Instruction := T (i_word rd rs1 I_imm 0x1b 0).
Definition ADDW (rd rs1 rs2 : Z) : Instruction := T (r_word rd rs1 rs2 0x3b 0 0).
Definition SUBW (rd rs1 rs2 : Z) : Instruction := T (r_word rd rs1 rs2 0x3b 0 32).
End InstructionFactory.

(** * Recognising the compressed form *)

(** [None]: "compressed instruction expected, but uncompressed found" is thrown. *)
Definition decode_quadrant0 (i : Instruction) (arch : Architecture) : COpcode :=
  switch (c_opcode i) [
    (0, if c_format i =? 0 then C_Illegal else C_ADDI4SPN);
    (1, C_FLD);
    (2, C_LW);
    (3, if is_rv32 arch then C_FLW else C_LD);
    (4, C_Reserved);
    (5, C_FSD);
    (6, C_SW);
    (7, if is_rv32 arch then C_FSW else C_SD)
  ] C_Illegal.

Definition decode_quadrant1 (i : Instruction) (arch : Architecture) : COpcode :=
  switch (c_opcode i) [
    (0, if c_format i =? 1 then C_NOP else C_ADDI);
    (1, if is_rv32 arch then C_JAL else C_ADDIW);
    (2, C_LI);
    (3, if c_rd i =? 2 then C_ADDI16SP else C_LUI);
    (4, switch (c_f2_high i) [
          (0, C_SRLI);
          (1, C_SRAI);
          (2, C_ANDI);
          (3, if negb (c_b12 i =? 0) then
                switch (c_f2_low i) [ (0, C_SUBW); (1, C_ADDW) ] C_Reserved
              else
                switch (c_f2_low i)
                  [ (0, C_SUB); (1, C_XOR); (2, C_OR); (3, C_AND) ] C_Illegal)
        ] C_Illegal);
    (5, C_J);
    (6, C_BEQZ);
    (7, C_BNEZ)
  ] C_Illegal.

Definition decode_quadrant2 (i : Instruction) (arch : Architecture) : COpcode :=
  switch (c_opcode i) [
    (0, C_SLLI);
    (1, C_FLDSP);
    (2, C_LWSP);
    (3, if is_rv32 arch then C_FLWSP else C_LDSP);
    (4, if negb (c_b12 i =? 0) then
          if negb (c_rd i =? 0) then
            if negb (c_rs2 i =? 0) then C_ADD else C_JALR
          else C_EBREAK
        else if negb (c_rs2 i =? 0) then C_MV else C_JR);
    (5, C_FSDSP);
    (6, C_SWSP);
    (7, if is_rv32 arch then C_FSWSP else C_SDSP)
  ] C_Illegal.

Definition decode_compressed (i : Instruction) (arch : Architecture) : option COpcode :=
  switch (quadrant i) [
    (0, Some (decode_quadrant0 i arch));
    (1, Some (decode_quadrant1 i arch));
    (2, Some (decode_quadrant2 i arch));
    (3, None)
  ] (Some C_Illegal).

(** * Expansion

    [expand_compressed] overwrites its [Instruction &instr] argument; the pair is the
    returned mapping and the word left in it.  An unsigned immediate passed to an
    [int] parameter is converted. *)
Module IF := InstructionFactory.

Definition expand_arith (i : Instruction) (op : COpcode) (arch : Architecture) :
    Mapping * Instruction :=
  match op with
  | C_NOP => (ADD, IF.ADD 0 0 0)
  | C_ADD => (ADD, IF.ADD (c_rd i) (c_rd i) (c_rs2 i))
  | C_MV => (ADD, IF.ADD (c_rd i) 0 (c_rs2 i))
  | C_AND => (AND, IF.AND (c_rd_small i) (c_rd_small i) (c_rs2_small i))
  | C_OR => (OR, IF.OR (c_rd_small i) (c_rd_small i) (c_rs2_small i))
  | C_XOR => (XOR, IF.XOR (c_rd_small i) (c_rd_small i) (c_rs2_small i))
  | C_SUB => (SUB, IF.SUB (c_rd_small i) (c_rd_small i) (c_rs2_small i))
  | C_ADDW => (ADDW, IF.ADDW (c_rd_small i) (c_rd_small i) (c_rs2_small i))
  | C_SUBW => (SUBW, IF.SUBW (c_rd_small i) (c_rd_small i) (c_rs2_small i))
  | C_ADDI4SPN =>
      let n := C_ADDI4SPN_NZUIMM (data i) in
      if n =? 0 then (UNDEF, i) else (ADDI, IF.ADDI (c_rs2_small i) 2 (s32 n))
  | C_ADDI => (ADDI, IF.ADDI (c_rd i) (c_rd i) (s32 (c_imm i)))
  | C_ADDIW =>
      if c_rd i =? 0 then (UNDEF, i)
      else (ADDIW, IF.ADDI (c_rd i) (c_rd i) (s32 (c_imm i)))
  | C_LI => (ADDI, IF.ADDI (c_rd i) 0 (s32 (c_imm i)))
  | C_ADDI16SP =>
      let n := C_ADDI16SP_NZIMM (s32 (data i)) in
      if n =? 0 then (UNDEF, i) else (ADDI, IF.ADDI 2 2 n)
  | C_LUI =>
      let n := C_LUI_NZIMM (s32 (data i)) in
      if n =? 0 then (UNDEF, i) else (LUI, IF.LUI (c_rd i) n)
  | C_SLLI =>
      let n := c_uimm i in
      if is_rv32 arch && (31 <? n) then (UNDEF, i)
      else (SLLI, IF.SLLI (c_rd i) (c_rd i) n)
  | C_SRLI =>
      let n := c_uimm i in
      if is_rv32 arch && (31 <? n) then (UNDEF, i)
      else (SRLI, IF.SRLI (c_rd_small i) (c_rd_small i) n)
  | C_SRAI =>
      let n := c_uimm i in
      if is_rv32 arch && (31 <? n) then (UNDEF, i)
      else (SRAI, IF.SRAI (c_rd_small i) (c_rd_small i) n)
  | C_ANDI => (ANDI, IF.ANDI (c_rd_small i) (c_rd_small i) (s32 (c_imm i)))
  | _ => (UNDEF, i)
  end.

Definition expand_memory (i : Instruction) (op : COpcode) : Mapping * Instruction :=
  match op with
  | C_LW => (LW, IF.LW (c_rs2_small i) (c_rd_small i) (s32 (C_LW_UIMM (data i))))
  | C_LD => (LD, IF.LD (c_rs2_small i) (c_rd_small i) (s32 (C_LD_UIMM (data i))))
  | C_FLW => (FLW, IF.FLW (c_rs2_small i) (c_rd_small i) (s32 (C_LW_UIMM (data i))))
  | C_FLD => (FLD, IF.FLD (c_rs2_small i) (c_rd_small i) (s32 (C_LD_UIMM (data i))))
  | C_SW => (SW, IF.SW (c_rd_small i) (c_rs2_small i) (s32 (C_SW_UIMM (data i))))
  | C_SD => (SD, IF.SD (c_rd_small i) (c_rs2_small i) (s32 (C_SD_UIMM (data i))))
  | C_FSW => (FSW, IF.FSW (c_rd_small i) (c_rs2_small i) (s32 (C_SW_UIMM (data i))))
  | C_FSD => (FSD, IF.FSD (c_rd_small i) (c_rs2_small i) (s32 (C_SD_UIMM (data i))))
  | C_LWSP =>
      if c_rd i =? 0 then (UNDEF, i) else (LW, IF.LW (c_rd i) 2 (s32 (C_LWSP_UIMM (data i))))
  | C_LDSP =>
      if c_rd i =? 0 then (UNDEF, i) else (LD, IF.LD (c_rd i) 2 (s32 (C_LDSP_UIMM (data i))))
  | C_FLWSP => (FLW, IF.FLW (c_rd i) 2 (s32 (C_LWSP_UIMM (data i))))
  | C_FLDSP => (FLD, IF.FLD (c_rd i) 2 (s32 (C_LDSP_UIMM (data i))))
  | C_SWSP => (SW, IF.SW 2 (c_rs2 i) (s32 (C_SWSP_UIMM (data i))))
  | C_SDSP => (SD, IF.SD 2 (c_rs2 i) (s32 (C_SDSP_UIMM (data i))))
  | C_FSWSP => (FSW, IF.FSW 2 (c_rs2 i) (s32 (C_SWSP_UIMM (data i))))
  | C_FSDSP => (FSD, IF.FSD 2 (c_rs2 i) (s32 (C_SDSP_UIMM (data i))))
  | _ => (UNDEF, i)
  end.

Definition expand_compressed (i : Instruction) (op : COpcode) (arch : Architecture) :
    Mapping * Instruction :=
  match op with
  | C_Illegal => (UNDEF, i)
  | C_LQ | C_LQSP | C_SQ | C_SQSP => (UNDEF, i)
  | C_Reserved => (UNDEF, i)
  | C_LW | C_LD | C_FLW | C_FLD | C_SW | C_SD | C_FSW | C_FSD
  | C_LWSP | C_LDSP | C_FLWSP | C_FLDSP | C_SWSP | C_SDSP | C_FSWSP | C_FSDSP =>
      expand_memory i op
  | C_JAL => (JAL, IF.JAL 1 (C_JAL_IMM (s32 (data i))))
  | C_J => (JAL, IF.JAL 0 (C_J_IMM (s32 (data i))))
  | C_BEQZ => (BEQ, IF.BEQ (c_rd_small i) 0 (C_BRANCH_IMM (s32 (data i))))
  | C_BNEZ => (BNE, IF.BNE (c_rd_small i) 0 (C_BRANCH_IMM (s32 (data i))))
  | C_EBREAK => (EBREAK, IF.EBREAK)
  | C_JR => if c_rd i =? 0 then (UNDEF, i) else (JALR, IF.JALR 0 (c_rd i) 0)
  | C_JALR => (JALR, IF.JALR 1 (c_rd i) 0)
  | _ => expand_arith i op arch
  end.

(** [Instruction::decode_and_expand_compressed]: [None] when it throws. *)
Definition decode_and_expand_compressed (i : Instruction) (arch : Architecture) :
    option (Mapping * Instruction) :=
  match decode_compressed i arch with
  | Some c_op => Some (expand_compressed i c_op arch)
  | None => None
  end.

(** * The expansion and the decoder agree *)

Lemma data_T w : data (T w) = u32 w.
Proof. unfold data, T, Instr. cbn [instr]. by rewrite wrap_swrap, wrap_wrap by lia. Qed.

Lemma land_T w m : 0 <= m < 2 ^ 32 -> Z.land (data (T w)) m = Z.land w m.
Proof. intros Hm. rewrite data_T. by apply u32_land. Qed.

Lemma encodes_T arch op w mask encoding :
  mask_encoding arch op = Some (mask, encoding) -> 0 <= mask < 2 ^ 32 ->
  Z.land w mask = encoding -> encodes arch (T w) op.
Proof. intros Hm Hr He. exists mask, encoding. by rewrite land_T. Qed.

(** A masked field under a second mask. *)
Lemma land_shiftl_piece x c n m :
  0 <= n -> Z.land (Z.shiftl (Z.land x c) n) m = Z.shiftl (Z.land x (Z.land c (Z.shiftr m n))) n.
Proof.
  intros Hn. apply Z.bits_inj'. intros k Hk.
  rewrite Z.land_spec, !Z.shiftl_spec, !Z.land_spec by lia.
  destruct (Z_lt_le_dec k n).
  - by rewrite !(Z.testbit_neg_r _ (k - n)) by lia.
  - rewrite Z.shiftr_spec by lia. rewrite andb_assoc. do 2 f_equal. lia.
Qed.
Lemma land_shiftr_piece x c n m :
  0 <= n -> Z.land (Z.shiftr (Z.land x c) n) m = Z.shiftr (Z.land x (Z.land c (Z.shiftl m n))) n.
Proof.
  intros Hn. apply Z.bits_inj'. intros k Hk.
  rewrite Z.land_spec, !Z.shiftr_spec, !Z.land_spec, Z.shiftl_spec by lia.
  rewrite andb_assoc. do 2 f_equal. lia.
Qed.

(** Computes [Z.land word mask] for a word put together from masked fields and
    constants; what remains of a field is its part under the mask. *)
Ltac mask_ground :=
  repeat match goal with
  | |- context [Z.land ?x (Z.land ?c ?d)] =>
      ground_Z c; let v := eval vm_compute in (Z.land c d) in ground_Z v;
      change (Z.land c d) with v
  end.
Ltac mask_algebra :=
  rewrite ?Z.land_lor_distr_l;
  rewrite ?land_shiftl_piece, ?land_shiftr_piece, <- ?Z.land_assoc by lia;
  mask_ground; rewrite ?Z.land_0_r, ?Z.shiftl_0_l, ?Z.shiftr_0_l, ?Z.lor_0_l, ?Z.lor_0_r.

Ltac factory_encodes :=
  match goal with arch : Architecture |- _ => destruct arch end;
  (eapply encodes_T;
   [ reflexivity | vm_compute; intuition congruence
   | unfold r_word, i_word, sh_word, s_word, b_word, f_rd, f_rs1, f_rs2; mask_algebra; reflexivity ]).

Section factory.
Context (arch : Architecture) (rd rs1 rs2 imm : Z).

Lemma encodes_ADD : encodes arch (IF.ADD rd rs1 rs2) ADD.
Proof. factory_encodes. Qed.
Lemma encodes_AND : encodes arch (IF.AND rd rs1 rs2) AND.
Proof. factory_encodes. Qed.
Lemma encodes_OR : encodes arch (IF.OR rd rs1 rs2) OR.
Proof. factory_encodes. Qed.
Lemma encodes_XOR : encodes arch (IF.XOR rd rs1 rs2) XOR.
Proof. factory_encodes. Qed.
Lemma encodes_SUB : encodes arch (IF.SUB rd rs1 rs2) SUB.
Proof. factory_encodes. Qed.
Lemma encodes_ADDW : encodes arch (IF.ADDW rd rs1 rs2) ADDW.
Proof. factory_encodes. Qed.
Lemma encodes_SUBW : encodes arch (IF.SUBW rd rs1 rs2) SUBW.
Proof. factory_encodes. Qed.
Lemma encodes_LW : encodes arch (IF.LW rd rs1 imm) LW.
Proof. factory_encodes. Qed.
Lemma encodes_LD : encodes arch (IF.LD rd rs1 imm) LD.
Proof. factory_encodes. Qed.
Lemma encodes_FLW : encodes arch (IF.FLW rd rs1 imm) FLW.
Proof. factory_encodes. Qed.
Lemma encodes_FLD : encodes arch (IF.FLD rd rs1 imm) FLD.
Proof. factory_encodes. Qed.
Lemma encodes_SW : encodes arch (IF.SW rs1 rs2 imm) SW.
Proof. factory_encodes. Qed.
Lemma encodes_SD : encodes arch (IF.SD rs1 rs2 imm) SD.
Proof. factory_encodes. Qed.
Lemma encodes_FSW : encodes arch (IF.FSW rs1 rs2 imm) FSW.
Proof. factory_encodes. Qed.
Lemma encodes_FSD : encodes arch (IF.FSD rs1 rs2 imm) FSD.
Proof. factory_encodes. Qed.
Lemma encodes_LUI : encodes arch (IF.LUI rd imm) LUI.
Proof. factory_encodes. Qed.
Lemma encodes_ADDI : encodes arch (IF.ADDI rd rs1 imm) ADDI.
Proof. factory_encodes. Qed.
Lemma encodes_ANDI : encodes arch (IF.ANDI rd rs1 imm) ANDI.
Proof. factory_encodes. Qed.
Lemma encodes_JAL : encodes arch (IF.JAL rd imm) JAL.
Proof. factory_encodes. Qed.
Lemma encodes_JALR : encodes arch (IF.JALR rd rs1 imm) JALR.
Proof. factory_encodes. Qed.
Lemma encodes_BEQ : encodes arch (IF.BEQ rs1 rs2 imm) BEQ.
Proof. factory_encodes. Qed.
Lemma encodes_BNE : encodes arch (IF.BNE rs1 rs2 imm) BNE.
Proof. factory_encodes. Qed.
Lemma encodes_EBREAK : encodes arch IF.EBREAK EBREAK.
Proof. factory_encodes. Qed.
End factory.

Lemma land_low_bit n k : 0 <= n < 2 ^ k -> 0 <= k -> Z.land n (Z.shiftl 1 k) = 0.
Proof.
  intros Hn Hk. apply Z.bits_inj'. intros j Hj. rewrite Z.land_spec, Z.bits_0.
  destruct (Z.eq_dec j k) as [->|].
  - rewrite Z.testbit_eqb by lia. rewrite Z.div_small by lia. done.
  - rewrite Z.shiftl_spec by lia. destruct (Z_lt_le_dec j k).
    + rewrite (Z.testbit_neg_r 1) by lia. apply andb_false_r.
    + rewrite (Z.bits_above_log2 1) by (cbn; lia). apply andb_false_r.
Qed.

(** The shift amount has five bits on RV32 and six on RV64. *)
Section factory_shift.
Context (arch : Architecture) (rd rs1 n : Z) (Hn : 0 <= n) (Hrv32 : is_rv32 arch = true -> n < 32).

Lemma shamt_high : is_rv32 arch = true -> Z.land n 32 = 0.
Proof using Hn Hrv32. intros Ha. apply (land_low_bit n 5); [|lia]. by split; [|apply Hrv32]. Qed.

Ltac shift_encodes :=
  pose proof shamt_high as Hhigh;
  match goal with arch : Architecture |- _ => destruct arch end;
  (eapply encodes_T;
   [ reflexivity | vm_compute; intuition congruence
   | unfold sh_word, f_rd, f_rs1; mask_algebra;
     try (change (Z.land 63 _) with 32; rewrite (Hhigh eq_refl)); reflexivity ]).

Lemma encodes_SLLI : encodes arch (IF.SLLI rd rs1 n) SLLI.
Proof using Hn Hrv32. shift_encodes. Qed.
Lemma encodes_SRLI : encodes arch (IF.SRLI rd rs1 n) SRLI.
Proof using Hn Hrv32. shift_encodes. Qed.
Lemma encodes_SRAI : encodes arch (IF.SRAI rd rs1 n) SRAI.
Proof using Hn Hrv32. shift_encodes. Qed.
End factory_shift.

Create HintDb factory discriminated.
#[export] Hint Constants Opaque : factory.
#[export] Hint Variables Opaque : factory.
#[export] Hint Resolve encodes_ADD encodes_AND encodes_OR encodes_XOR encodes_SUB
  encodes_ADDW encodes_SUBW encodes_LW encodes_LD encodes_FLW encodes_FLD encodes_SW
  encodes_SD encodes_FSW encodes_FSD encodes_LUI encodes_ADDI encodes_ANDI encodes_JAL
  encodes_JALR encodes_BEQ encodes_BNE encodes_EBREAK encodes_SLLI encodes_SRLI encodes_SRAI
  : factory.

(** On RV32 the 16-bit forms of RV64 are never recognised. *)
Definition rv64_form (c : COpcode) : bool :=
  match c with C_ADDIW | C_LD | C_SD | C_LDSP | C_SDSP => true | _ => false end.
Definition rv32_form (c : COpcode) : Prop := rv64_form c = false.

Lemma decode_quadrants_rv32 i :
  rv32_form (decode_quadrant0 i RV32) /\ rv32_form (decode_quadrant1 i RV32) /\
  rv32_form (decode_quadrant2 i RV32).
Proof.
  unfold decode_quadrant0, decode_quadrant1, decode_quadrant2. cbn [is_rv32].
  split_and!; apply (switch_prop rv32_form); switch_walk; reflexivity.
Qed.

Lemma decode_compressed_rv32 i c : decode_compressed i RV32 = Some c -> rv32_form c.
Proof.
  destruct (decode_quadrants_rv32 i) as (H0 & H1 & H2). unfold decode_compressed. cbn [switch].
  repeat (destruct (_ =? _); [by intros [= <- ]|]). by intros [= <- ].
Qed.

(** Unfold the expansion before the arithmetic it scrutinises. *)
#[local] Strategy expand [expand_compressed expand_arith expand_memory].

Ltac expand_in He :=
  cbv beta iota zeta delta [expand_compressed expand_arith expand_memory] in He.

Lemma expand_compressed_encodes arch i c op i' :
  expand_compressed i c arch = (op, i') -> op <> UNDEF ->
  encodes arch i' (match c with C_ADDIW => ADDI | _ => op end).
Proof.
  intros He Hop.
  assert (0 <= c_uimm i) as Hu by (apply wrap_range; lia).
  destruct c; expand_in He;
    try (destruct (is_rv32 arch && (31 <? c_uimm i)) eqn:Hs);
    try (destruct (_ =? _));
    injection He as <- <-; try congruence; cbv iota; auto with factory.
  all: first [apply encodes_SRLI|apply encodes_SRAI|apply encodes_SLLI]; [done|].
  all: intros Ha; rewrite Ha in Hs; by apply Z.ltb_ge in Hs; lia.
Qed.

(** C27 Expanding a compressed instruction yields a word that the decoder of
    uncompressed instructions maps to the very opcode the expansion announced, on both
    architectures: the executed opcode and the operand fields it reads come from one
    instruction.  The exception is [C.ADDIW], which RV32 has not and which announces [ADDIW] and leaves
    the word of an [ADDI] (the fields are the same).  Expansions to the undefined opcode
    leave the compressed instruction as it is, and are not claimed to decode. *)
Theorem expand_decodes_alike arch i op i' :
  decode_and_expand_compressed i arch = Some (op, i') -> op <> UNDEF ->
  if bool_decide (decode_compressed i arch = Some C_ADDIW)
  then is_rv32 arch = false /\ op = ADDIW /\ decode_normal arch i' = ADDI
  else decode_normal arch i' = op.
Proof.
  unfold decode_and_expand_compressed.
  destruct (decode_compressed i arch) as [c|] eqn:Hc; [|done]. intros [= He] Hop.
  assert (arch = RV32 -> rv32_form c) as Hf by (intros ->; by apply decode_compressed_rv32 in Hc).
  pose proof (decode_normal_complete _ _ _ (expand_compressed_encodes arch i c op i' He Hop)) as Hd.
  destruct (decide (c = C_ADDIW)) as [->|Hne].
  - rewrite bool_decide_eq_true_2 by done. assert (is_rv32 arch = false) as Ha by (destruct arch; [by specialize (Hf eq_refl)|done..]).
    split; [done|]. split; [|done]. expand_in He. destruct (_ =? _); congruence.
  - rewrite bool_decide_eq_false_2 by congruence. by destruct c.
Qed.

(** [c.addi s0, -1] on RV32; [c.addiw s0, 1] on RV64. *)
Lemma expand_decodes_alike_witness :
  decode_normal RV32 (IF.ADDI 8 8 (-1)) = ADDI /\
  decode_and_expand_compressed (Instr 0x2405) RV64 = Some (ADDIW, IF.ADDI 8 8 1) /\
  decode_normal RV64 (IF.ADDI 8 8 1) = ADDI.
Proof.
  split; [exact (expand_decodes_alike RV32 (Instr 0x147d) ADDI _ ltac:(vm_compute; reflexivity) ltac:(discriminate))|].
  assert (decode_and_expand_compressed (Instr 0x2405) RV64 = Some (ADDIW, IF.ADDI 8 8 1)) as He
    by (vm_compute; reflexivity).
  split; [exact He|].
  exact (proj2 (proj2 (expand_decodes_alike RV64 (Instr 0x2405) ADDIW _ He ltac:(discriminate)))).
Defined.

(** * What the executor reads back from an assembled word *)

Ltac read_back :=
  unfold I_imm, S_imm, B_imm, J_imm, U_imm, rd, rs1, rs2, BIT_SLICE, BIT_SINGLE_PN,
    BIT_SINGLE_P1, BIT_RANGE, BIT_SINGLE, range_mask;
  cbn [instr T Instr IF.ADDI IF.LW IF.JALR IF.SW IF.BEQ IF.BNE IF.JAL IF.LUI IF.ADD];
  unfold i_word, s_word, b_word, r_word, f_rd, f_rs1, f_rs2.

(** A value of [w <= 32] signed bits, as an [int32_t]. *)
Lemma swrap_widen w x : 0 < w <= 32 -> swrap w x = s32 (swrap w x).
Proof.
  intros Hw. symmetry. apply swrap_small; [lia|].
  pose proof (swrap_range w x). assert (2 ^ (w - 1) <= 2 ^ 31) by (apply Z.pow_le_mono_r; lia). lia.
Qed.

Ltac read_signed w :=
  rewrite (swrap_widen w) by lia; apply swrap_bits_eq; [lia|]; bits_by_enum; bit_solve.

Section read_back.
Context (d s1 s2 imm : Z).

Lemma I_imm_ADDI : I_imm (IF.ADDI d s1 imm) = swrap 12 imm.
Proof. read_back. read_signed 12. Qed.
Lemma I_imm_LW : I_imm (IF.LW d s1 imm) = swrap 12 imm.
Proof. read_back. read_signed 12. Qed.
Lemma I_imm_JALR : I_imm (IF.JALR d s1 imm) = swrap 12 imm.
Proof. read_back. read_signed 12. Qed.
Lemma S_imm_SW : S_imm (IF.SW s1 s2 imm) = swrap 12 imm.
Proof. read_back. read_signed 12. Qed.
Lemma B_imm_BEQ : B_imm (IF.BEQ s1 s2 imm) = swrap 13 (Z.land imm (-2)).
Proof. read_back. read_signed 13. Qed.
Lemma B_imm_BNE : B_imm (IF.BNE s1 s2 imm) = swrap 13 (Z.land imm (-2)).
Proof. read_back. read_signed 13. Qed.
Lemma J_imm_JAL : J_imm (IF.JAL d imm) = swrap 21 (Z.land imm (-2)).
Proof. read_back. read_signed 21. Qed.
Lemma U_imm_LUI : U_imm (IF.LUI d imm) = swrap 32 (Z.land imm (-4096)).
Proof. read_back. apply swrap_bits_eq; [lia|]; bits_by_enum; bit_solve. Qed.
End read_back.

(** ** The immediates of the 16-bit forms fit the 32-bit instruction *)
Section compressed_targets.
Context (n : Z).

Ltac fits w :=
  unfold C_J_IMM, C_JAL_IMM, C_BRANCH_IMM, C_ADDI16SP_NZIMM, C_LUI_NZIMM,
    EXTRACT_SIGN_BIT; read_back;
  rewrite (swrap_widen w) by lia; apply swrap_bits_eq; [lia|]; bits_by_enum; bit_solve.

Lemma C_JAL_IMM_fits : swrap 21 (Z.land (C_JAL_IMM n) (-2)) = C_JAL_IMM n.
Proof. fits 21. Qed.
Lemma C_BRANCH_IMM_fits : swrap 13 (Z.land (C_BRANCH_IMM n) (-2)) = C_BRANCH_IMM n.
Proof. fits 13. Qed.
Lemma C_ADDI16SP_NZIMM_fits : swrap 12 (C_ADDI16SP_NZIMM n) = C_ADDI16SP_NZIMM n.
Proof. fits 12. Qed.
Lemma C_LUI_NZIMM_fits : swrap 32 (Z.land (C_LUI_NZIMM n) (-4096)) = C_LUI_NZIMM n.
Proof. fits 32. Qed.
End compressed_targets.

(** The branch, jump, stack-adjust and upper immediates survive the expansion: what
    the executor extracts from the 32-bit word is the immediate the 16-bit form
    encodes, for every halfword [n] and every register operand. *)
Theorem expanded_immediates_exact d s1 s2 n :
  J_imm (IF.JAL d (C_JAL_IMM n)) = C_JAL_IMM n /\
  B_imm (IF.BEQ s1 s2 (C_BRANCH_IMM n)) = C_BRANCH_IMM n /\
  B_imm (IF.BNE s1 s2 (C_BRANCH_IMM n)) = C_BRANCH_IMM n /\
  I_imm (IF.ADDI d s1 (C_ADDI16SP_NZIMM n)) = C_ADDI16SP_NZIMM n /\
  U_imm (IF.LUI d (C_LUI_NZIMM n)) = C_LUI_NZIMM n.
Proof.
  by rewrite J_imm_JAL, B_imm_BEQ, B_imm_BNE, I_imm_ADDI, U_imm_LUI, C_JAL_IMM_fits,
    C_BRANCH_IMM_fits, C_ADDI16SP_NZIMM_fits, C_LUI_NZIMM_fits.
Qed.

(** The factory is a right inverse of the accessors: an immediate in the range of its
    format (even for branches and jumps) is read back unchanged. *)
Theorem factory_immediate_roundtrip d s1 s2 imm :
  (- 2 ^ 11 <= imm < 2 ^ 11 ->
     I_imm (IF.ADDI d s1 imm) = imm /\ I_imm (IF.LW d s1 imm) = imm /\
     I_imm (IF.JALR d s1 imm) = imm /\ S_imm (IF.SW s1 s2 imm) = imm) /\
  (- 2 ^ 12 <= imm < 2 ^ 12 -> Z.land imm (-2) = imm -> B_imm (IF.BEQ s1 s2 imm) = imm) /\
  (- 2 ^ 20 <= imm < 2 ^ 20 -> Z.land imm (-2) = imm -> J_imm (IF.JAL d imm) = imm).
Proof.
  rewrite I_imm_ADDI, I_imm_LW, I_imm_JALR, S_imm_SW, B_imm_BEQ, J_imm_JAL. split_and!.
  - intros H. rewrite (swrap_small 12) by lia. done.
  - intros H ->. by rewrite (swrap_small 13) by lia.
  - intros H ->. by rewrite (swrap_small 21) by lia.
Qed.

Lemma factory_immediate_roundtrip_witness :
  J_imm (IF.JAL 1 (-2048)) = -2048 /\ S_imm (IF.SW 2 8 (-4)) = -4.
Proof.
  split.
  - refine (proj2 (proj2 (factory_immediate_roundtrip 1 0 0 (-2048))) _ _); [lia|reflexivity].
  - refine (proj2 (proj2 (proj2 (proj1 (factory_immediate_roundtrip 0 2 8 (-4)) _)))). lia.
Defined.
