(* ===== verification/APInt.v ===== *)
(** LLVM's [APInt], the fixed-width integer inside a KLEE constant, is not part of the
    repository: its operations are an interface, and what the code relies on (the
    documented modular arithmetic, for operands of one width and a non-zero divisor)
    are the laws of that interface.  [APInt_Z] is an implementation. *)
From S2P Require Import Prelude.

(** What the code observes of an [APInt]: [getBitWidth()] and [getZExtValue()]. *)
Record apint := AP { ap_width : Z; ap_val : Z }.
#[export] Instance apint_eq_dec : EqDecision apint.
Proof. solve_decision. Defined.

Definition ap_wf (a : apint) : bool := (0 <? ap_width a) && (0 <=? ap_val a) && (ap_val a <? 2 ^ ap_width a).

(** The binary operators, named as in [Expr::Kind]. *)
Module Kind.
Inductive arith :=
| Add | Sub | Mul | UDiv | SDiv | URem | SRem | And | Or | Xor | Shl | LShr | AShr.
Inductive cmp := Eq | Ne | Ult | Ule | Ugt | Uge | Slt | Sle | Sgt | Sge.
#[global] Instance arith_eq_dec : EqDecision arith.
Proof. solve_decision. Defined.
#[global] Instance cmp_eq_dec : EqDecision cmp.
Proof. solve_decision. Defined.

Definition is_div (k : arith) : bool :=
  match k with UDiv | SDiv | URem | SRem => true | _ => false end.
End Kind.

Class APInt := {
  ap_arith : Kind.arith -> apint -> apint -> apint;
  ap_cmp : Kind.cmp -> apint -> apint -> bool;
  ap_neg : apint -> apint;
  ap_not : apint -> apint;
  ap_zext : apint -> Z -> apint;
  ap_zextOrTrunc : apint -> Z -> apint;
  ap_sextOrTrunc : apint -> Z -> apint;
  ap_shl_n : apint -> Z -> apint;    (* operator<<=(unsigned) *)
  ap_ashr_n : apint -> Z -> apint;   (* ashr(unsigned) *)
}.

(** * The documented meaning *)

Definition arith_spec (w : Z) (k : Kind.arith) (a b : Z) : Z :=
  match k with
  | Kind.Add => wrap w (a + b)
  | Kind.Sub => wrap w (a - b)
  | Kind.Mul => wrap w (a * b)
  | Kind.UDiv => a / b
  | Kind.URem => a mod b
  | Kind.SDiv => wrap w (Z.quot (swrap w a) (swrap w b))
  | Kind.SRem => wrap w (Z.rem (swrap w a) (swrap w b))
  | Kind.And => Z.land a b
  | Kind.Or => Z.lor a b
  | Kind.Xor => Z.lxor a b
  | Kind.Shl => wrap w (Z.shiftl a b)
  | Kind.LShr => Z.shiftr a b
  | Kind.AShr => wrap w (Z.shiftr (swrap w a) b)
  end.

Definition cmp_spec (w : Z) (k : Kind.cmp) (a b : Z) : bool :=
  match k with
  | Kind.Eq => a =? b
  | Kind.Ne => negb (a =? b)
  | Kind.Ult => a <? b
  | Kind.Ule => a <=? b
  | Kind.Ugt => b <? a
  | Kind.Uge => b <=? a
  | Kind.Slt => swrap w a <? swrap w b
  | Kind.Sle => swrap w a <=? swrap w b
  | Kind.Sgt => swrap w b <? swrap w a
  | Kind.Sge => swrap w b <=? swrap w a
  end.

(** Operands the operators accept: one width, no zero divisor. *)
Definition arith_ok (k : Kind.arith) (a b : apint) : bool :=
  (ap_width a =? ap_width b) && negb (Kind.is_div k && (ap_val b =? 0)).

Class APIntLaws `{APO : APInt} : Prop := {
  ap_arith_law k a b : ap_wf a -> ap_wf b -> arith_ok k a b ->
    ap_arith k a b = AP (ap_width a) (arith_spec (ap_width a) k (ap_val a) (ap_val b));
  (** Also where the result is not specified, it is an integer of the operands' width. *)
  ap_arith_type_law k a b : ap_wf a -> ap_wf b -> ap_width a = ap_width b ->
    ap_wf (ap_arith k a b) /\ ap_width (ap_arith k a b) = ap_width a;
  ap_cmp_law k a b : ap_wf a -> ap_wf b -> ap_width a = ap_width b ->
    ap_cmp k a b = cmp_spec (ap_width a) k (ap_val a) (ap_val b);
  ap_neg_law a : ap_wf a -> ap_neg a = AP (ap_width a) (wrap (ap_width a) (- ap_val a));
  ap_not_law a : ap_wf a -> ap_not a = AP (ap_width a) (wrap (ap_width a) (Z.lnot (ap_val a)));
  ap_zext_law a W : ap_wf a -> ap_width a < W -> ap_zext a W = AP W (ap_val a);
  ap_zextOrTrunc_law a W : ap_wf a -> 0 < W ->
    ap_zextOrTrunc a W = AP W (wrap W (ap_val a));
  ap_sextOrTrunc_law a W : ap_wf a -> 0 < W ->
    ap_sextOrTrunc a W = AP W (wrap W (swrap (ap_width a) (ap_val a)));
  ap_shl_n_law a n : ap_wf a -> 0 <= n <= ap_width a ->
    ap_shl_n a n = AP (ap_width a) (wrap (ap_width a) (Z.shiftl (ap_val a) n));
  ap_ashr_n_law a n : ap_wf a -> 0 <= n <= ap_width a ->
    ap_ashr_n a n =
      AP (ap_width a) (wrap (ap_width a) (Z.shiftr (swrap (ap_width a) (ap_val a)) n));
}.

(** * An implementation of the interface *)

#[export] Instance APInt_Z : APInt := {|
  ap_arith k a b := AP (ap_width a) (arith_spec (ap_width a) k (ap_val a) (ap_val b));
  ap_cmp k a b := cmp_spec (ap_width a) k (ap_val a) (ap_val b);
  ap_neg a := AP (ap_width a) (wrap (ap_width a) (- ap_val a));
  ap_not a := AP (ap_width a) (wrap (ap_width a) (Z.lnot (ap_val a)));
  ap_zext a W := AP W (ap_val a);
  ap_zextOrTrunc a W := AP W (wrap W (ap_val a));
  ap_sextOrTrunc a W := AP W (wrap W (swrap (ap_width a) (ap_val a)));
  ap_shl_n a n := AP (ap_width a) (wrap (ap_width a) (Z.shiftl (ap_val a) n));
  ap_ashr_n a n :=
    AP (ap_width a) (wrap (ap_width a) (Z.shiftr (swrap (ap_width a) (ap_val a)) n));
|}.

(** * Consequences of the laws *)

Lemma ap_wf_iff a :
  ap_wf a <-> 0 < ap_width a /\ 0 <= ap_val a < 2 ^ ap_width a.
Proof.
  unfold ap_wf. rewrite !Is_true_true, !andb_true_iff, !Z.ltb_lt, Z.leb_le. tauto.
Qed.

Lemma ap_wf_wrap w z : 0 < w -> ap_wf (AP w (wrap w z)).
Proof. intros Hw. apply ap_wf_iff. cbn. split; [done|]. apply wrap_range. lia. Qed.

Lemma bit_op_range w z :
  0 < w -> 0 <= z -> (forall i, w <= i -> Z.testbit z i = false) -> 0 <= z < 2 ^ w.
Proof.
  intros Hw Hz Hb. split; [done|]. destruct (Z.eq_dec z 0) as [->|].
  { apply Z.pow_pos_nonneg; lia. }
  apply Z.log2_lt_pow2; [lia|]. destruct (Z_lt_le_dec (Z.log2 z) w); [done|].
  pose proof (Z.bit_log2 z ltac:(lia)). by rewrite Hb in H by lia.
Qed.

Lemma testbit_high w z i : 0 <= z < 2 ^ w -> w <= i -> Z.testbit z i = false.
Proof.
  intros Hz Hi. destruct (Z_lt_le_dec w 0).
  { rewrite (Z.pow_neg_r 2 w) in Hz by lia. lia. }
  rewrite Z.testbit_eqb by lia. rewrite Z.div_small; [done|].
  split; [lia|]. eapply Z.lt_le_trans; [apply Hz|]. apply Z.pow_le_mono_r; lia.
Qed.

(** The specified result of an accepted operation fits the width. *)
Lemma arith_spec_range k a b :
  ap_wf a -> ap_wf b -> arith_ok k a b ->
  0 <= arith_spec (ap_width a) k (ap_val a) (ap_val b) < 2 ^ ap_width a.
Proof.
  rewrite !ap_wf_iff. unfold arith_ok.
  rewrite Is_true_true, andb_true_iff, Z.eqb_eq, negb_true_iff, andb_false_iff, Z.eqb_neq.
  destruct a as [w a], b as [w' b]; cbn. intros [Hw Ha] [_ Hb] [<- Hdiv].
  destruct k; cbn in *; try (apply wrap_range; lia).
  - assert (b <> 0) by (by destruct Hdiv). split; [apply Z.div_pos; lia|].
    apply Z.div_lt_upper_bound; [lia|]. nia.
  - assert (b <> 0) by (by destruct Hdiv). pose proof (Z.mod_pos_bound a b). lia.
  - apply bit_op_range; [done|apply Z.land_nonneg; lia|].
    intros i Hi. by rewrite Z.land_spec, (testbit_high w a).
  - apply bit_op_range; [done|apply Z.lor_nonneg; lia|].
    intros i Hi. by rewrite Z.lor_spec, (testbit_high w a), (testbit_high w b).
  - apply bit_op_range; [done|apply Z.lxor_nonneg; lia|].
    intros i Hi. by rewrite Z.lxor_spec, (testbit_high w a), (testbit_high w b).
  - rewrite Z.shiftr_div_pow2 by lia. assert (0 < 2 ^ b) by (apply Z.pow_pos_nonneg; lia).
    split; [apply Z.div_pos; lia|]. apply Z.div_lt_upper_bound; [lia|]. nia.
Qed.

(** The implementation also gives a result in range for a zero divisor. *)
Lemma arith_spec_type k a b : ap_wf a -> ap_wf b -> ap_width a = ap_width b ->
  ap_wf (AP (ap_width a) (arith_spec (ap_width a) k (ap_val a) (ap_val b))).
Proof.
  intros Ha Hb Hw. apply ap_wf_iff. pose proof Ha as [Hpos Hr]%ap_wf_iff. split; [done|].
  cbn [ap_width ap_val]. destruct (arith_ok k a b) eqn:Hok;
    [apply (arith_spec_range k a b Ha Hb); by rewrite Hok|].
  unfold arith_ok in Hok. rewrite Hw, Z.eqb_refl in Hok. apply negb_false_iff in Hok.
  apply andb_true_iff in Hok as [Hd Hz%Z.eqb_eq]. rewrite Hz.
  destruct k; try done; cbn; try (apply wrap_range; lia); by rewrite ?Z.div_0_r, ?Z.mod_0_r; lia.
Qed.

#[export] Instance APInt_Z_laws : APIntLaws (APO := APInt_Z).
Proof. split; try reflexivity. intros. split; [by apply arith_spec_type|done]. Qed.

Section wf.
Context `{Laws : APIntLaws}.

Lemma ap_arith_wf k a b : ap_wf a -> ap_wf b -> arith_ok k a b -> ap_wf (ap_arith k a b).
Proof.
  intros Ha Hb Hok. rewrite ap_arith_law by done. apply ap_wf_iff. cbn.
  split; [apply ap_wf_iff in Ha; tauto|]. by apply arith_spec_range.
Qed.
Lemma ap_arith_width k a b :
  ap_wf a -> ap_wf b -> arith_ok k a b -> ap_width (ap_arith k a b) = ap_width a.
Proof. intros. by rewrite ap_arith_law. Qed.
End wf.
