(* ===== verification/KExpr.v ===== *)
(** KLEE expressions (klee/Expr/Expr.h, Expr.cpp): the term language a
    [clover::BitVector] wraps, the constant folding operations of [ConstantExpr] and the
    read of a symbolic variable, with the value an expression has under an assignment of
    bytes to the symbolic arrays. *)
From S2P Require Import Prelude Bits APInt.

(** [klee::Array]: clover only creates symbolic arrays of bytes, whose update lists stay
    empty, so the root array is what a [ReadExpr] carries. *)
Record Array := mkArray { arr_name : string; arr_size : Z }.
#[export] Instance array_eq_dec : EqDecision Array.
Proof. solve_decision. Defined.

Definition Bool : Z := 1.
Definition Int8 : Z := 8.
Definition Int32 : Z := 32.

Inductive expr :=
| EConstant (value : apint)
| ERead (root : Array) (index : expr)
| ESelect (cond trueExpr falseExpr : expr)
| EConcat (left right : expr)
| EExtract (e : expr) (offset width : Z)
| EZExt (src : expr) (width : Z)
| ESExt (src : expr) (width : Z)
| ENot (e : expr)
| EArith (k : Kind.arith) (left right : expr)
| ECmp (k : Kind.cmp) (left right : expr).
#[export] Instance expr_eq_dec : EqDecision expr.
Proof. solve_decision. Defined.

(** [Expr::getWidth]; an array's range is [Int8]. *)
Fixpoint getWidth (e : expr) : Z :=
  match e with
  | EConstant v => ap_width v
  | ERead _ _ => Int8
  | ESelect _ t _ => getWidth t
  | EConcat l r => getWidth l + getWidth r
  | EExtract _ _ w | EZExt _ w | ESExt _ w => w
  | ENot e => getWidth e
  | EArith _ l _ => getWidth l
  | ECmp _ _ _ => Bool
  end.

Definition as_constant (e : expr) : option apint :=
  match e with EConstant v => Some v | _ => None end.

(** * Constants *)

(** [getZExtValue(bits)]: [None] is the failed assertion. *)
Definition getZExtValue (v : apint) (bits : Z) : option Z :=
  if ap_width v <=? bits then Some (ap_val v) else None.
Definition isZero (v : apint) : bool := ap_val v =? 0.
Definition isOne (v : apint) : bool := ap_val v =? 1.
Definition isTrue (v : apint) : bool := (ap_width v =? Bool) && negb (ap_val v =? 0).
Definition isFalse (v : apint) : bool := (ap_width v =? Bool) && (ap_val v =? 0).
Definition isAllOnes (v : apint) : bool := ap_val v =? Z.ones (ap_width v).

(** [ConstantExpr::alloc(uint64_t, Width)]. *)
Definition CE_alloc (v w : Z) : apint := AP w (wrap w v).
(** [ConstantExpr::create(uint64_t, Width)] with its assertion. *)
Definition CE_create (v w : Z) : option apint :=
  if v =? wrap w v then Some (CE_alloc v w) else None.

Section constants.
Context `{APInt}.

Definition CE_Concat (l r : apint) : apint :=
  let W := ap_width l + ap_width r in
  ap_arith Kind.Or (ap_shl_n (ap_zext l W) (ap_width r)) (ap_zext r W).
Definition CE_Extract (v : apint) (Offset W : Z) : apint :=
  ap_zextOrTrunc (ap_ashr_n v Offset) W.
Definition CE_ZExt (v : apint) (W : Z) : apint := ap_zextOrTrunc v W.
Definition CE_SExt (v : apint) (W : Z) : apint := ap_sextOrTrunc v W.
Definition CE_arith (k : Kind.arith) (l r : apint) : apint := ap_arith k l r.
Definition CE_Neg (v : apint) : apint := ap_neg v.
Definition CE_Not (v : apint) : apint := ap_not v.
Definition CE_cmp (k : Kind.cmp) (l r : apint) : apint :=
  CE_alloc (Z.b2z (ap_cmp k l r)) Bool.
End constants.

(** [Expr::createTempRead] at the two widths clover uses (the other widths are not
    reached from the constructor of [BitVector] that takes an array). *)
Definition read_byte (a : Array) (i : Z) : expr := ERead a (EConstant (CE_alloc i Int32)).
Definition createTempRead (a : Array) (w : Z) : option expr :=
  if w =? Int8 then Some (read_byte a 0)
  else if w =? Int32 then
    Some (EConcat (read_byte a 3)
            (EConcat (read_byte a 2) (EConcat (read_byte a 1) (read_byte a 0))))
  else None.

(** * The value of an expression

    [None] on operands no KLEE operation accepts: different widths, a zero divisor, an
    extension to a smaller width, an extract or a read out of range. *)

Definition assignment := string -> Z -> Z.

Definition concat_spec (l r : apint) : apint :=
  AP (ap_width l + ap_width r) (Z.lor (Z.shiftl (ap_val l) (ap_width r)) (ap_val r)).
Definition extract_spec (v : apint) (off w : Z) : apint :=
  AP w (wrap w (Z.shiftr (ap_val v) off)).
Definition sext_spec (v : apint) (w : Z) : apint :=
  AP w (wrap w (swrap (ap_width v) (ap_val v))).
Definition not_spec (v : apint) : apint :=
  AP (ap_width v) (wrap (ap_width v) (Z.lnot (ap_val v))).
Definition bool_ap (b : bool) : apint := AP Bool (Z.b2z b).
Definition extract_ok (v : apint) (off w : Z) : bool :=
  (0 <? w) && (0 <=? off) && (off + w <=? ap_width v).

Definition ev_concat (l r : option apint) : option apint :=
  l ← l; r ← r; Some (concat_spec l r).
Definition ev_extract (off w : Z) (v : option apint) : option apint :=
  v ← v; if extract_ok v off w then Some (extract_spec v off w) else None.
Definition ev_zext (w : Z) (v : option apint) : option apint :=
  v ← v; if ap_width v <=? w then Some (AP w (ap_val v)) else None.
Definition ev_sext (w : Z) (v : option apint) : option apint :=
  v ← v; if ap_width v <=? w then Some (sext_spec v w) else None.
Definition ev_not (v : option apint) : option apint := v ← v; Some (not_spec v).
Definition ev_arith (k : Kind.arith) (l r : option apint) : option apint :=
  l ← l; r ← r;
  if arith_ok k l r
  then Some (AP (ap_width l) (arith_spec (ap_width l) k (ap_val l) (ap_val r))) else None.
Definition ev_cmp (k : Kind.cmp) (l r : option apint) : option apint :=
  l ← l; r ← r;
  if ap_width l =? ap_width r
  then Some (bool_ap (cmp_spec (ap_width l) k (ap_val l) (ap_val r))) else None.
Definition ev_select (c t f : option apint) : option apint :=
  c ← c; t ← t; f ← f;
  if (ap_width c =? Bool) && (ap_width t =? ap_width f)
  then Some (if ap_val c =? 0 then f else t) else None.
Definition ev_read (σ : assignment) (a : Array) (i : option apint) : option apint :=
  i ← i;
  if ap_val i <? arr_size a then Some (AP Int8 (wrap 8 (σ (arr_name a) (ap_val i)))) else None.

Fixpoint eval (σ : assignment) (e : expr) : option apint :=
  match e with
  | EConstant v => if ap_wf v then Some v else None
  | ERead a i => ev_read σ a (eval σ i)
  | ESelect c t f => ev_select (eval σ c) (eval σ t) (eval σ f)
  | EConcat l r => ev_concat (eval σ l) (eval σ r)
  | EExtract e off w => ev_extract off w (eval σ e)
  | EZExt e w => ev_zext w (eval σ e)
  | ESExt e w => ev_sext w (eval σ e)
  | ENot e => ev_not (eval σ e)
  | EArith k l r => ev_arith k (eval σ l) (eval σ r)
  | ECmp k l r => ev_cmp k (eval σ l) (eval σ r)
  end.

(** * Properties of values *)

Lemma wf_width v : ap_wf v -> 0 < ap_width v.
Proof. rewrite ap_wf_iff. tauto. Qed.

Lemma wf_range v : ap_wf v -> 0 <= ap_val v < 2 ^ ap_width v.
Proof. rewrite ap_wf_iff. tauto. Qed.

Lemma concat_spec_wf l r : ap_wf l -> ap_wf r -> ap_wf (concat_spec l r).
Proof.
  rewrite !ap_wf_iff. cbn. intros [Hw Hl] [Hw' Hr]. split; [lia|].
  apply bit_op_range; [lia|rewrite Z.lor_nonneg, Z.shiftl_nonneg; lia|].
  intros i Hi. rewrite Z.lor_spec, Z.shiftl_spec by lia.
  by rewrite (testbit_high (ap_width l)), (testbit_high (ap_width r)) by lia.
Qed.

Lemma bool_ap_wf b : ap_wf (bool_ap b).
Proof. by destruct b. Qed.

Ltac ev_inv :=
  repeat match goal with
  | H : mbind _ ?m = Some _ |- _ =>
      let E := fresh "Hev" in destruct m eqn:E; cbn in H; [|discriminate H]
  | H : (if ?b then Some _ else None) = Some _ |- _ =>
      let E := fresh "Hok" in destruct b eqn:E; [|discriminate H]
  | H : Some _ = Some _ |- _ => injection H as H; try subst
  end.

(** An expression's value is a well-formed bit vector of the expression's width. *)
Lemma eval_wf_width σ e v : eval σ e = Some v -> ap_wf v /\ ap_width v = getWidth e.
Proof.
  revert v. induction e; intros v' Hv; cbn [eval] in Hv;
    unfold ev_read, ev_select, ev_concat, ev_extract, ev_zext, ev_sext, ev_not, ev_arith,
      ev_cmp in Hv; ev_inv; cbn [getWidth].
  - split; [by rewrite Is_true_true|done].
  - split; [|done]. by apply ap_wf_wrap.
  - destruct (IHe2 _ eq_refl), (IHe3 _ eq_refl).
    apply andb_true_iff in Hok as [_ Hok]. apply Z.eqb_eq in Hok.
    destruct (_ =? 0); split; congruence.
  - destruct (IHe1 _ eq_refl), (IHe2 _ eq_refl). split; [by apply concat_spec_wf|].
    cbn. congruence.
  - split; [|done]. unfold extract_ok in Hok. apply ap_wf_wrap. lia.
  - destruct (IHe _ eq_refl) as [Hwf _]. split; [|done].
    rewrite ap_wf_iff in *. cbn. split; [lia|]. split; [lia|].
    eapply Z.lt_le_trans; [apply Hwf|]. apply Z.pow_le_mono_r; lia.
  - destruct (IHe _ eq_refl) as [Hwf%wf_width _]. split; [|done]. apply ap_wf_wrap. lia.
  - destruct (IHe _ eq_refl) as [Hwf%wf_width <-]. split; [|done]. by apply ap_wf_wrap.
  - destruct (IHe1 _ eq_refl) as [Hw1 <-], (IHe2 _ eq_refl) as [Hw2 _]. split; [|done].
    apply ap_wf_iff. cbn. split; [by apply wf_width|].
    apply arith_spec_range; [done..|by rewrite Is_true_true].
  - split; [|done]. apply bool_ap_wf.
Qed.

Lemma eval_wf σ e v : eval σ e = Some v -> ap_wf v.
Proof. intros H. by eapply eval_wf_width. Qed.
Lemma eval_width σ e v : eval σ e = Some v -> ap_width v = getWidth e.
Proof. intros H. by eapply eval_wf_width. Qed.

(** A constant's value does not depend on the assignment. *)
Lemma eval_constant σ v : ap_wf v -> eval σ (EConstant v) = Some v.
Proof. intros Hv. cbn. rewrite Is_true_true in Hv. by rewrite Hv. Qed.

Lemma eval_constant_inv σ v v' : eval σ (EConstant v) = Some v' -> v' = v /\ ap_wf v.
Proof. cbn. destruct (ap_wf v); [|done]. by intros [= ->]. Qed.

Create HintDb kexpr discriminated.
#[export] Hint Resolve eval_wf eval_width wf_width wf_range bool_ap_wf concat_spec_wf
  ap_wf_wrap eval_constant : kexpr.

(** * Constant folding computes the value *)

Lemma extract_ok_spec v off w :
  extract_ok v off w <-> 0 < w /\ 0 <= off /\ off + w <= ap_width v.
Proof. unfold extract_ok. rewrite Is_true_true, !andb_true_iff. lia. Qed.

Section constant_laws.
Context `{Laws : APIntLaws}.

Lemma CE_ZExt_spec v w : ap_wf v -> ap_width v <= w -> CE_ZExt v w = AP w (ap_val v).
Proof.
  intros Hv Hw. pose proof (wf_width v Hv). unfold CE_ZExt.
  rewrite ap_zextOrTrunc_law by (done || lia). rewrite wrap_small; [done|].
  pose proof (wf_range v Hv). split; [lia|].
  eapply Z.lt_le_trans; [apply H0|]. apply Z.pow_le_mono_r; lia.
Qed.

Lemma CE_SExt_spec v w : ap_wf v -> ap_width v <= w -> CE_SExt v w = sext_spec v w.
Proof.
  intros Hv Hw. pose proof (wf_width v Hv). unfold CE_SExt.
  by rewrite ap_sextOrTrunc_law by (done || lia).
Qed.

Lemma CE_Concat_spec l r : ap_wf l -> ap_wf r -> CE_Concat l r = concat_spec l r.
Proof.
  intros Hl Hr. pose proof (wf_width l Hl). pose proof (wf_width r Hr).
  pose proof (wf_range l Hl) as Hlr. pose proof (concat_spec_wf l r Hl Hr) as Hc.
  assert (ap_wf (AP (ap_width l + ap_width r) (ap_val l))) as Hlz.
  { apply ap_wf_iff. cbn. split; [lia|]. split; [lia|].
    eapply Z.lt_le_trans; [apply Hlr|]. apply Z.pow_le_mono_r; lia. }
  assert (ap_wf (AP (ap_width l + ap_width r) (ap_val r))) as Hrz.
  { apply ap_wf_iff. cbn. pose proof (wf_range r Hr). split; [lia|]. split; [lia|].
    eapply Z.lt_le_trans; [apply H1|]. apply Z.pow_le_mono_r; lia. }
  unfold CE_Concat. rewrite !ap_zext_law by (done || lia).
  rewrite ap_shl_n_law by (done || cbn; lia). cbn [ap_width ap_val].
  rewrite (wrap_small _ (Z.shiftl _ _)).
  - rewrite ap_arith_law; [done| |done|].
    + apply ap_wf_iff. cbn. split; [lia|]. rewrite Z.shiftl_mul_pow2, Z.pow_add_r by lia.
      split; [nia|]. apply Z.mul_lt_mono_pos_r; [apply Z.pow_pos_nonneg; lia|lia].
    + unfold arith_ok. cbn. by rewrite Z.eqb_refl.
  - rewrite Z.shiftl_mul_pow2, Z.pow_add_r by lia.
    split; [nia|]. apply Z.mul_lt_mono_pos_r; [apply Z.pow_pos_nonneg; lia|lia].
Qed.

Lemma CE_Extract_spec v off w :
  ap_wf v -> extract_ok v off w -> CE_Extract v off w = extract_spec v off w.
Proof.
  intros Hv (Hw & Hoff & Hle)%extract_ok_spec. pose proof (wf_width v Hv).
  unfold CE_Extract, extract_spec. rewrite ap_ashr_n_law by (done || lia).
  rewrite ap_zextOrTrunc_law by (done || by apply ap_wf_wrap). f_equal. cbn [ap_val].
  apply Z.bits_inj'. intros i Hi. rewrite !wrap_spec by lia.
  destruct (Z.ltb_spec i w); [|done].
  rewrite !Z.shiftr_spec, swrap_spec by lia.
  destruct (Z.ltb_spec i (ap_width v)); [|lia]. cbn. f_equal. lia.
Qed.

Lemma CE_arith_spec k l r : ap_wf l -> ap_wf r -> arith_ok k l r ->
  CE_arith k l r = AP (ap_width l) (arith_spec (ap_width l) k (ap_val l) (ap_val r)).
Proof. apply ap_arith_law. Qed.

Lemma CE_cmp_spec k l r : ap_wf l -> ap_wf r -> ap_width l = ap_width r ->
  CE_cmp k l r = bool_ap (cmp_spec (ap_width l) k (ap_val l) (ap_val r)).
Proof.
  intros. unfold CE_cmp, CE_alloc, bool_ap. rewrite ap_cmp_law by done.
  by destruct cmp_spec.
Qed.

Lemma CE_Not_spec v : ap_wf v -> CE_Not v = not_spec v.
Proof. apply ap_not_law. Qed.

Lemma CE_Neg_spec v : ap_wf v -> CE_Neg v = AP (ap_width v) (wrap (ap_width v) (- ap_val v)).
Proof. apply ap_neg_law. Qed.
End constant_laws.

(** A symbolic byte or word is read least significant byte first. *)
Lemma read_byte_eval σ a i : 0 <= i < arr_size a -> i < 2 ^ 32 ->
  eval σ (read_byte a i) = Some (AP Int8 (wrap 8 (σ (arr_name a) i))).
Proof.
  intros Hi H32. unfold read_byte, CE_alloc, Int32.
  rewrite wrap_small by lia. cbn -[Z.pow]. unfold ap_wf. cbn -[Z.pow].
  destruct (Z.leb_spec 0 i); [|lia]. destruct (Z.ltb_spec i (2 ^ 32)); [|lia]. cbn.
  destruct (Z.ltb_spec i (arr_size a)); [done|lia].
Qed.
