(* ===== verification/KBuilder.v ===== *)
(** The expression builder of clover: [klee::ExprBuilder] as an interface with the laws
    its clients rely on, and the chain the solver creates (lib/Expr/ExprBuilder.cpp), a
    [SimplifyingExprBuilder] over a [ConstantFoldingExprBuilder] over the
    [DefaultExprBuilder]. *)
From S2P Require Import Prelude Bits APInt KExpr.

(** * The interface *)

Class ExprBuilder := {
  bArith : Kind.arith -> expr -> expr -> expr;
  bCmp : Kind.cmp -> expr -> expr -> expr;
  bNot : expr -> expr;
  bSelect : expr -> expr -> expr -> expr;
  bConcat : expr -> expr -> expr;
  bExtract : expr -> Z -> Z -> expr;
  bZExt : expr -> Z -> expr;
  bSExt : expr -> Z -> expr;
}.

Definition is_const (e : expr) : bool :=
  match e with EConstant _ => true | _ => false end.

(** Every operation keeps the value, and folds constant operands to a constant. *)
Class BuilderLaws `{ExprBuilder} : Prop := {
  bArith_sound σ k l r v :
    ev_arith k (eval σ l) (eval σ r) = Some v -> eval σ (bArith k l r) = Some v;
  bCmp_sound σ k l r v :
    ev_cmp k (eval σ l) (eval σ r) = Some v -> eval σ (bCmp k l r) = Some v;
  bNot_sound σ e v : ev_not (eval σ e) = Some v -> eval σ (bNot e) = Some v;
  bSelect_sound σ c t f v :
    ev_select (eval σ c) (eval σ t) (eval σ f) = Some v -> eval σ (bSelect c t f) = Some v;
  bConcat_sound σ l r v :
    ev_concat (eval σ l) (eval σ r) = Some v -> eval σ (bConcat l r) = Some v;
  bExtract_sound σ e off w v :
    ev_extract off w (eval σ e) = Some v -> eval σ (bExtract e off w) = Some v;
  bZExt_sound σ e w v : ev_zext w (eval σ e) = Some v -> eval σ (bZExt e w) = Some v;
  bSExt_sound σ e w v : ev_sext w (eval σ e) = Some v -> eval σ (bSExt e w) = Some v;
  bArith_const k l r : is_const l -> is_const r -> is_const (bArith k l r);
  bCmp_const k l r : is_const l -> is_const r -> is_const (bCmp k l r);
  bNot_const e : is_const e -> is_const (bNot e);
  bSelect_const c t f :
    is_const c -> is_const t -> is_const f -> is_const (bSelect c t f);
  bConcat_const l r : is_const l -> is_const r -> is_const (bConcat l r);
  bExtract_const e off w : is_const e -> is_const (bExtract e off w);
  bZExt_const e w : is_const e -> is_const (bZExt e w);
  bSExt_const e w : is_const e -> is_const (bSExt e w);
}.

(** * DefaultExprBuilder: one node per call *)

#[export] Instance DefaultExprBuilder : ExprBuilder := {|
  bArith := EArith; bCmp := ECmp; bNot := ENot; bSelect := ESelect; bConcat := EConcat;
  bExtract := EExtract; bZExt := EZExt; bSExt := ESExt;
|}.
#[export] Remove Hints DefaultExprBuilder : typeclass_instances.

(** * ConstantSpecializedExprBuilder: the dispatch on constant arguments *)

Definition specialize1 {T} (c : apint -> T) (n : expr -> T) (e : expr) : T :=
  match e with EConstant v => c v | _ => n e end.

Definition specialize2 {T} (cc : apint -> apint -> T) (cn : apint -> expr -> T)
    (nc : expr -> apint -> T) (nn : expr -> expr -> T) (LHS RHS : expr) : T :=
  match LHS, RHS with
  | EConstant l, EConstant r => cc l r
  | EConstant l, _ => cn l RHS
  | _, EConstant r => nc LHS r
  | _, _ => nn LHS RHS
  end.

Section chain.
Context `{APInt}.

(** ** ConstantFoldingBuilder, over the default builder *)

Section addsub.
(** [Builder->Add] and [Builder->Sub], the calls back into the outer builder. *)
Variables BAdd BSub : expr -> expr -> option expr.

Definition CF_Add_cn (LHS : apint) (RHS : expr) : option expr :=
  if isZero LHS then Some RHS else
  match RHS with
  | EArith Kind.Add (EConstant CE) BEr => BAdd (EConstant (CE_arith Kind.Add LHS CE)) BEr
  | EArith Kind.Add BEl (EConstant CE) => BAdd (EConstant (CE_arith Kind.Add LHS CE)) BEl
  | EArith Kind.Sub (EConstant CE) BEr => BSub (EConstant (CE_arith Kind.Add LHS CE)) BEr
  | EArith Kind.Sub BEl (EConstant CE) => BAdd (EConstant (CE_arith Kind.Sub LHS CE)) BEl
  | _ => Some (EArith Kind.Add (EConstant LHS) RHS)
  end.

(** The second switch of [Add], on the kind of the right operand. *)
Definition CF_Add_nn_right (LHS RHS : expr) : option expr :=
  match RHS with
  | EArith Kind.Add (EConstant CE) BEr => e ← BAdd LHS BEr; BAdd (EConstant CE) e
  | EArith Kind.Add BEl (EConstant CE) => e ← BAdd LHS BEl; BAdd (EConstant CE) e
  | EArith Kind.Sub (EConstant CE) BEr => e ← BSub LHS BEr; BAdd (EConstant CE) e
  | EArith Kind.Sub BEl (EConstant CE) =>
      e ← BAdd LHS BEl; BAdd (EConstant (CE_Neg CE)) e
  | _ => Some (EArith Kind.Add LHS RHS)
  end.

Definition CF_Add_nn (LHS RHS : expr) : option expr :=
  match LHS with
  | EArith Kind.Add BEl BEr => e ← BAdd BEr RHS; BAdd BEl e
  | EArith Kind.Sub BEl BEr => e ← BSub RHS BEr; BAdd BEl e
  | _ => CF_Add_nn_right LHS RHS
  end.

Definition CF_Sub_cn (LHS : apint) (RHS : expr) : option expr :=
  match RHS with
  | EArith Kind.Add (EConstant CE) BEr => BSub (EConstant (CE_arith Kind.Sub LHS CE)) BEr
  | EArith Kind.Add BEl (EConstant CE) => BSub (EConstant (CE_arith Kind.Sub LHS CE)) BEl
  | EArith Kind.Sub (EConstant CE) BEr => BAdd (EConstant (CE_arith Kind.Sub LHS CE)) BEr
  | EArith Kind.Sub BEl (EConstant CE) => BSub (EConstant (CE_arith Kind.Add LHS CE)) BEl
  | _ => Some (EArith Kind.Sub (EConstant LHS) RHS)
  end.

(** The second switch of [Sub], on the kind of the right operand. *)
Definition CF_Sub_nn_right (LHS RHS : expr) : option expr :=
  match RHS with
  | EArith Kind.Add (EConstant CE) BEr =>
      e ← BSub LHS BEr; BAdd (EConstant (CE_Neg CE)) e
  | EArith Kind.Add BEl (EConstant CE) =>
      e ← BSub LHS BEl; BAdd (EConstant (CE_Neg CE)) e
  | EArith Kind.Sub (EConstant CE) BEr =>
      e ← BAdd LHS BEr; BAdd (EConstant (CE_Neg CE)) e
  | EArith Kind.Sub BEl (EConstant CE) => e ← BSub LHS BEl; BAdd (EConstant CE) e
  | _ => Some (EArith Kind.Sub LHS RHS)
  end.

Definition CF_Sub_nn (LHS RHS : expr) : option expr :=
  match LHS with
  | EArith Kind.Add BEl BEr => e ← BSub BEr RHS; BAdd BEl e
  | EArith Kind.Sub BEl BEr => e ← BAdd BEr RHS; BSub BEl e
  | _ => CF_Sub_nn_right LHS RHS
  end.
End addsub.

(** [ConstantFoldingExprBuilder::Add] ([sub = false]) and [::Sub]: the recursion runs on
    fuel; [None] is running out of it. *)
Fixpoint CF_addsub (fuel : nat) (sub : bool) (LHS RHS : expr) : option expr :=
  match fuel with
  | O => None
  | S fuel =>
      let BAdd := CF_addsub fuel false in
      let BSub := CF_addsub fuel true in
      if sub then
        specialize2 (fun l r => Some (EConstant (CE_arith Kind.Sub l r)))
          (CF_Sub_cn BAdd BSub)
          (fun L r => CF_Add_cn BAdd BSub (CE_Neg r) L)
          (CF_Sub_nn BAdd BSub) LHS RHS
      else
        specialize2 (fun l r => Some (EConstant (CE_arith Kind.Add l r)))
          (CF_Add_cn BAdd BSub)
          (fun L r => CF_Add_cn BAdd BSub r L)
          (CF_Add_nn BAdd BSub) LHS RHS
  end.

(** Constants weigh nothing, a sum or difference one more than its operands. *)
Fixpoint weight (e : expr) : nat :=
  match e with
  | EConstant _ => 0
  | EArith (Kind.Add | Kind.Sub) l r => S (weight l + weight r)
  | _ => 1
  end.
Definition addsub_fuel (l r : expr) : nat :=
  let t := S (weight l + weight r) in (t * t + S (weight l))%nat.

Definition addsub_kind (sub : bool) : Kind.arith := if sub then Kind.Sub else Kind.Add.

(** The default is not reached: [CF_addsub_terminates]. *)
Definition CF_AddSub (sub : bool) (l r : expr) : expr :=
  default (EArith (addsub_kind sub) l r) (CF_addsub (addsub_fuel l r) sub l r).

(** [Mul], [And], [Or] and [Xor] of a constant and a non-constant. *)
Definition CF_bit_cn (k : Kind.arith) (LHS : apint) (RHS : expr) : expr :=
  match k with
  | Kind.Mul =>
      if isZero LHS then EConstant LHS else if isOne LHS then RHS
      else EArith k (EConstant LHS) RHS
  | Kind.And =>
      if isZero LHS then EConstant LHS else if isAllOnes LHS then RHS
      else EArith k (EConstant LHS) RHS
  | Kind.Or =>
      if isZero LHS then RHS else if isAllOnes LHS then EConstant LHS
      else EArith k (EConstant LHS) RHS
  | Kind.Xor => if isZero LHS then RHS else EArith k (EConstant LHS) RHS
  | _ => EArith k (EConstant LHS) RHS
  end.

(** The operators whose constant operand is moved to the left. *)
Definition CF_bit_nc (k : Kind.arith) (LHS : expr) (RHS : apint) : expr :=
  match k with
  | Kind.Mul | Kind.And | Kind.Or | Kind.Xor => CF_bit_cn k RHS LHS
  | _ => EArith k LHS (EConstant RHS)
  end.

Definition fold_arith (k : Kind.arith) (l r : apint) : expr := EConstant (CE_arith k l r).

Definition CF_Arith (k : Kind.arith) (LHS RHS : expr) : expr :=
  match k with
  | Kind.Add => CF_AddSub false LHS RHS
  | Kind.Sub => CF_AddSub true LHS RHS
  | _ => specialize2 (fold_arith k) (CF_bit_cn k) (CF_bit_nc k) (EArith k) LHS RHS
  end.

Definition CF_Not (LHS : expr) : expr :=
  match LHS with
  | ENot e => e
  | EConstant v => EConstant (CE_Not v)
  | _ => ENot LHS
  end.

(** [Eq] of a constant and a non-constant, with the negation and the equality of the
    base builder. *)
Definition Eq_cn (base_not : expr -> expr) (base_eq : expr -> expr -> expr)
    (LHS : apint) (RHS : expr) : expr :=
  if ap_width LHS =? Bool then if isTrue LHS then RHS else base_not RHS
  else base_eq (EConstant LHS) RHS.

Definition fold_cmp (k : Kind.cmp) (l r : apint) : expr := EConstant (CE_cmp k l r).

Definition CF_Cmp (k : Kind.cmp) (LHS RHS : expr) : expr :=
  match k with
  | Kind.Eq =>
      specialize2 (fold_cmp k) (Eq_cn ENot (ECmp Kind.Eq))
        (fun L r => Eq_cn ENot (ECmp Kind.Eq) r L) (ECmp Kind.Eq) LHS RHS
  | _ =>
      specialize2 (fold_cmp k) (fun l R => ECmp k (EConstant l) R)
        (fun L r => ECmp k L (EConstant r)) (ECmp k) LHS RHS
  end.

(** Operations both specialized builders treat alike: fold constants, or ask the base. *)
Definition S_Select (base : expr -> expr -> expr -> expr) (Cond LHS RHS : expr) : expr :=
  specialize1 (fun c => if isTrue c then LHS else RHS) (fun c => base c LHS RHS) Cond.
Definition S_Concat (base : expr -> expr -> expr) (LHS RHS : expr) : expr :=
  specialize2 (fun l r => EConstant (CE_Concat l r)) (fun l R => base (EConstant l) R)
    (fun L r => base L (EConstant r)) base LHS RHS.
Definition S_Extract (base : expr -> Z -> Z -> expr) (LHS : expr) (Offset W : Z) : expr :=
  specialize1 (fun v => EConstant (CE_Extract v Offset W)) (fun e => base e Offset W) LHS.
Definition S_ZExt (base : expr -> Z -> expr) (LHS : expr) (W : Z) : expr :=
  specialize1 (fun v => EConstant (CE_ZExt v W)) (fun e => base e W) LHS.
Definition S_SExt (base : expr -> Z -> expr) (LHS : expr) (W : Z) : expr :=
  specialize1 (fun v => EConstant (CE_SExt v W)) (fun e => base e W) LHS.

Definition ConstantFoldingExprBuilder : ExprBuilder := {|
  bArith := CF_Arith; bCmp := CF_Cmp; bNot := CF_Not;
  bSelect := S_Select ESelect; bConcat := S_Concat EConcat;
  bExtract := S_Extract EExtract; bZExt := S_ZExt EZExt; bSExt := S_SExt ESExt;
|}.

(** ** SimplifyingBuilder, over the constant folding builder *)

Section simplifying.
Context (Base : ExprBuilder).

Definition S_Arith (k : Kind.arith) (LHS RHS : expr) : expr :=
  specialize2 (fold_arith k) (fun l R => bArith k (EConstant l) R)
    (fun L r => bArith k L (EConstant r)) (bArith k) LHS RHS.

(** !(a or b) ==> !a and !b *)
Fixpoint S_Not (LHS : expr) : expr :=
  match LHS with
  | ENot e => e
  | EConstant v => EConstant (CE_Not v)
  | EArith Kind.Or BEl BEr => S_Arith Kind.And (S_Not BEl) (S_Not BEr)
  | _ => bNot LHS
  end.

Definition S_Eq (LHS RHS : expr) : expr :=
  specialize2 (fold_cmp Kind.Eq) (Eq_cn bNot (bCmp Kind.Eq))
    (fun L r => Eq_cn bNot (bCmp Kind.Eq) r L)
    (fun L R => if decide (L = R) then EConstant (CE_alloc 1 Bool)
                else bCmp Kind.Eq L R) LHS RHS.

(** A comparison the simplifying builder inherits. *)
Definition S_CmpBase (k : Kind.cmp) (LHS RHS : expr) : expr :=
  specialize2 (fold_cmp k) (fun l R => bCmp k (EConstant l) R)
    (fun L r => bCmp k L (EConstant r)) (bCmp k) LHS RHS.

Definition S_CmpVia (k : Kind.cmp) (f : expr -> expr -> expr) (LHS RHS : expr) : expr :=
  specialize2 (fold_cmp k) (fun l R => f (EConstant l) R)
    (fun L r => f L (EConstant r)) f LHS RHS.

Definition S_Cmp (k : Kind.cmp) : expr -> expr -> expr :=
  match k with
  | Kind.Eq => S_Eq
  | Kind.Ne => S_CmpVia k (fun L R => S_Not (S_Eq L R))
  | Kind.Ugt => S_CmpVia k (fun L R => S_CmpBase Kind.Ult R L)
  | Kind.Uge => S_CmpVia k (fun L R => S_CmpBase Kind.Ule R L)
  | Kind.Sgt => S_CmpVia k (fun L R => S_CmpBase Kind.Slt R L)
  | Kind.Sge => S_CmpVia k (fun L R => S_CmpBase Kind.Sle R L)
  | _ => S_CmpBase k
  end.
End simplifying.

Definition SimplifyingExprBuilder (Base : ExprBuilder) : ExprBuilder := {|
  bArith := S_Arith Base; bCmp := S_Cmp Base; bNot := S_Not Base;
  bSelect := S_Select (@bSelect Base); bConcat := S_Concat (@bConcat Base);
  bExtract := S_Extract (@bExtract Base); bZExt := S_ZExt (@bZExt Base);
  bSExt := S_SExt (@bSExt Base);
|}.

(** The chain of [Solver::Solver]. *)
Definition solver_builder : ExprBuilder := SimplifyingExprBuilder ConstantFoldingExprBuilder.
End chain.
