(* ===== verification/KBuilderSound.v ===== *)
(** The builder chain is correct: the constant folding of sums terminates, every operation
    keeps the value of the expression it builds, and the chain implements the
    [ExprBuilder] interface and keeps expressions canonical. *)
From S2P Require Import Prelude Bits APInt KExpr KBuilder.

(** * Case analysis of the rules, shared by termination and soundness *)

Lemma specialize2_cases {T} (P : T -> Prop) cc cn nc nn L R :
  (forall l r, L = EConstant l -> R = EConstant r -> P (cc l r)) ->
  (forall l, L = EConstant l -> is_const R = false -> P (cn l R)) ->
  (forall r, is_const L = false -> R = EConstant r -> P (nc L r)) ->
  (is_const L = false -> is_const R = false -> P (nn L R)) ->
  P (specialize2 cc cn nc nn L R).
Proof.
  intros Hcc Hcn Hnc Hnn.
  destruct L; [destruct R; [by apply Hcc|by apply Hcn..]|..];
    (destruct R; [by apply Hnc|by apply Hnn..]).
Qed.

Section cases.
Context `{APInt} (BAdd BSub : expr -> expr -> option expr) (P : option expr -> Prop).

Lemma CF_Add_cn_cases c R :
  (isZero c = true -> P (Some R)) ->
  (forall d r, R = EArith Kind.Add (EConstant d) r ->
     P (BAdd (EConstant (CE_arith Kind.Add c d)) r)) ->
  (forall l d, R = EArith Kind.Add l (EConstant d) ->
     P (BAdd (EConstant (CE_arith Kind.Add c d)) l)) ->
  (forall d r, R = EArith Kind.Sub (EConstant d) r ->
     P (BSub (EConstant (CE_arith Kind.Add c d)) r)) ->
  (forall l d, R = EArith Kind.Sub l (EConstant d) ->
     P (BAdd (EConstant (CE_arith Kind.Sub c d)) l)) ->
  P (Some (EArith Kind.Add (EConstant c) R)) ->
  P (CF_Add_cn BAdd BSub c R).
Proof. intros. unfold CF_Add_cn. repeat case_match; subst; auto. Qed.

Lemma CF_Sub_cn_cases c R :
  (forall d r, R = EArith Kind.Add (EConstant d) r ->
     P (BSub (EConstant (CE_arith Kind.Sub c d)) r)) ->
  (forall l d, R = EArith Kind.Add l (EConstant d) ->
     P (BSub (EConstant (CE_arith Kind.Sub c d)) l)) ->
  (forall d r, R = EArith Kind.Sub (EConstant d) r ->
     P (BAdd (EConstant (CE_arith Kind.Sub c d)) r)) ->
  (forall l d, R = EArith Kind.Sub l (EConstant d) ->
     P (BSub (EConstant (CE_arith Kind.Add c d)) l)) ->
  P (Some (EArith Kind.Sub (EConstant c) R)) ->
  P (CF_Sub_cn BAdd BSub c R).
Proof. intros. unfold CF_Sub_cn. repeat case_match; subst; auto. Qed.

Lemma CF_Add_nn_cases L R :
  (forall l r, L = EArith Kind.Add l r -> P (e ← BAdd r R; BAdd l e)) ->
  (forall l r, L = EArith Kind.Sub l r -> P (e ← BSub R r; BAdd l e)) ->
  (forall d r, R = EArith Kind.Add (EConstant d) r ->
     P (e ← BAdd L r; BAdd (EConstant d) e)) ->
  (forall l d, R = EArith Kind.Add l (EConstant d) ->
     P (e ← BAdd L l; BAdd (EConstant d) e)) ->
  (forall d r, R = EArith Kind.Sub (EConstant d) r ->
     P (e ← BSub L r; BAdd (EConstant d) e)) ->
  (forall l d, R = EArith Kind.Sub l (EConstant d) ->
     P (e ← BAdd L l; BAdd (EConstant (CE_Neg d)) e)) ->
  P (Some (EArith Kind.Add L R)) ->
  P (CF_Add_nn BAdd BSub L R).
Proof.
  intros. unfold CF_Add_nn.
  assert (P (CF_Add_nn_right BAdd BSub L R)) as Hother.
  { unfold CF_Add_nn_right. repeat case_match; subst; auto. }
  destruct L as [| | | | | | | |k ? ?|]; try exact Hother.
  destruct k; try exact Hother; auto.
Qed.

Lemma CF_Sub_nn_cases L R :
  (forall l r, L = EArith Kind.Add l r -> P (e ← BSub r R; BAdd l e)) ->
  (forall l r, L = EArith Kind.Sub l r -> P (e ← BAdd r R; BSub l e)) ->
  (forall d r, R = EArith Kind.Add (EConstant d) r ->
     P (e ← BSub L r; BAdd (EConstant (CE_Neg d)) e)) ->
  (forall l d, R = EArith Kind.Add l (EConstant d) ->
     P (e ← BSub L l; BAdd (EConstant (CE_Neg d)) e)) ->
  (forall d r, R = EArith Kind.Sub (EConstant d) r ->
     P (e ← BAdd L r; BAdd (EConstant (CE_Neg d)) e)) ->
  (forall l d, R = EArith Kind.Sub l (EConstant d) ->
     P (e ← BSub L l; BAdd (EConstant d) e)) ->
  P (Some (EArith Kind.Sub L R)) ->
  P (CF_Sub_nn BAdd BSub L R).
Proof.
  intros. unfold CF_Sub_nn.
  assert (P (CF_Sub_nn_right BAdd BSub L R)) as Hother.
  { unfold CF_Sub_nn_right. repeat case_match; subst; auto. }
  destruct L as [| | | | | | | |k ? ?|]; try exact Hother.
  destruct k; try exact Hother; auto.
Qed.
End cases.

(** * Termination of the constant folding recursion *)

Section termination.
Context `{APInt}.

(** The call returns, with a result not heavier than the node it replaces. *)
Definition returns (o : option expr) (w : nat) : Prop :=
  exists e, o = Some e /\ (weight e <= w)%nat.

Lemma returns_some e w : (weight e <= w)%nat -> returns (Some e) w.
Proof. by exists e. Qed.

Lemma returns_bind o (k : expr -> option expr) w w' :
  returns o w' -> (forall e, (weight e <= w')%nat -> returns (k e) w) ->
  returns (e ← o; k e) w.
Proof. intros (e & -> & He) Hk. by apply Hk. Qed.

Lemma weight_pos e : is_const e = false -> (0 < weight e)%nat.
Proof. destruct e as [| | | | | | | |[]|]; cbn; intros; (done || lia). Qed.

(** Calls that lower the total weight, or keep it and lower the left one, need less
    fuel. *)
Lemma addsub_fuel_lt l r l' r' :
  (weight l' + weight r' < weight l + weight r \/
   weight l' + weight r' <= weight l + weight r /\ weight l' < weight l)%nat ->
  (addsub_fuel l' r' < addsub_fuel l r)%nat.
Proof. unfold addsub_fuel. intros [|[]]; nia. Qed.

Definition smaller (n : nat) (f : expr -> expr -> option expr) : Prop :=
  forall l r w, (addsub_fuel l r < n)%nat -> (S (weight l + weight r) <= w)%nat ->
    returns (f l r) w.

Ltac returns_tac :=
  intros; subst;
  repeat match goal with H : is_const _ = false |- _ => apply weight_pos in H end;
  cbn [weight] in *;
  first
    [ apply returns_some; cbn [weight]; lia
    | match goal with
      | Hs : smaller _ ?f |- returns (?f _ _) _ =>
          apply Hs; [apply addsub_fuel_lt; cbn [weight]; lia | cbn [weight]; lia]
      | Hs : smaller _ ?f |- returns (mbind _ (?f ?l ?r)) _ =>
          apply returns_bind with (w' := S (weight l + weight r));
          [apply Hs; [apply addsub_fuel_lt; cbn [weight]; lia | cbn [weight]; lia]
          |intros ? ?; returns_tac]
      end ].

Lemma CF_Add_cn_returns BAdd BSub c L R T :
  smaller (addsub_fuel L R) BAdd -> smaller (addsub_fuel L R) BSub ->
  (weight T <= weight L + weight R)%nat -> is_const T = false ->
  returns (CF_Add_cn BAdd BSub c T) (S (weight L + weight R)).
Proof. intros HA HS HT Hc. apply CF_Add_cn_cases; returns_tac. Qed.

Lemma CF_Sub_cn_returns BAdd BSub c R :
  smaller (addsub_fuel (EConstant c) R) BAdd ->
  smaller (addsub_fuel (EConstant c) R) BSub ->
  returns (CF_Sub_cn BAdd BSub c R) (S (weight R)).
Proof. intros HA HS. apply CF_Sub_cn_cases; returns_tac. Qed.

Lemma CF_Add_nn_returns BAdd BSub L R :
  smaller (addsub_fuel L R) BAdd -> smaller (addsub_fuel L R) BSub ->
  is_const L = false -> returns (CF_Add_nn BAdd BSub L R) (S (weight L + weight R)).
Proof. intros HA HS HL. apply CF_Add_nn_cases; returns_tac. Qed.

Lemma CF_Sub_nn_returns BAdd BSub L R :
  smaller (addsub_fuel L R) BAdd -> smaller (addsub_fuel L R) BSub ->
  is_const L = false -> returns (CF_Sub_nn BAdd BSub L R) (S (weight L + weight R)).
Proof. intros HA HS HL. apply CF_Sub_nn_cases; returns_tac. Qed.

Lemma CF_addsub_returns n : forall sub L R,
  (addsub_fuel L R <= n)%nat ->
  returns (CF_addsub n sub L R) (S (weight L + weight R)).
Proof.
  induction n as [|n IH]; intros sub L R Hn; [unfold addsub_fuel in Hn; lia|].
  assert (forall b, smaller (addsub_fuel L R) (CF_addsub n b)) as Hs.
  { intros b l r w Hlt Hw. destruct (IH b l r ltac:(lia)) as (e & He & Hwe).
    exists e. split; [done|lia]. }
  cbn [CF_addsub]. destruct sub; apply specialize2_cases; intros; subst.
  - apply returns_some. cbn. lia.
  - by apply CF_Sub_cn_returns.
  - eapply CF_Add_cn_returns; try apply Hs; [cbn; lia|done].
  - by apply CF_Sub_nn_returns.
  - apply returns_some. cbn. lia.
  - eapply CF_Add_cn_returns; try apply Hs; [cbn; lia|done].
  - eapply CF_Add_cn_returns; try apply Hs; [cbn; lia|done].
  - by apply CF_Add_nn_returns.
Qed.
End termination.

(** * Soundness of the constant folding of sums

    Values of width [w] are compared modulo [2 ^ w]. *)

Definition eqm (w x y : Z) : Prop := wrap w x = wrap w y.
#[export] Instance eqm_equiv w : Equivalence (eqm w).
Proof. split; unfold eqm; repeat intro; congruence. Qed.
#[export] Instance eqm_add w : Proper (eqm w ==> eqm w ==> eqm w) Z.add.
Proof.
  intros x x' Hx y y' Hy. unfold eqm, wrap in *.
  by rewrite Zplus_mod, Hx, Hy, <- Zplus_mod.
Qed.
#[export] Instance eqm_sub w : Proper (eqm w ==> eqm w ==> eqm w) Z.sub.
Proof.
  intros x x' Hx y y' Hy. unfold eqm, wrap in *.
  by rewrite Zminus_mod, Hx, Hy, <- Zminus_mod.
Qed.
#[export] Instance eqm_opp w : Proper (eqm w ==> eqm w) Z.opp.
Proof. intros x x' Hx. rewrite <- !Z.sub_0_l. by rewrite Hx. Qed.

Lemma eqm_wrap w x : eqm w (wrap w x) x.
Proof. apply wrap_wrap. Qed.

Ltac eqm_solve :=
  repeat match goal with H : eqm ?w ?y _ |- _ => rewrite H; clear H end;
  unfold eqm; f_equal; lia.

(** [e] has the value [z], modulo [2 ^ w]. *)
Definition vals (σ : assignment) (e : expr) (w z : Z) : Prop :=
  0 < w /\ eval σ e = Some (AP w (wrap w z)).

Section vals.
Context (σ : assignment).

Lemma vals_of_eval e v : eval σ e = Some v -> vals σ e (ap_width v) (ap_val v).
Proof.
  intros He. pose proof (eval_wf _ _ _ He) as Hwf. split; [by apply wf_width|].
  rewrite He, wrap_small by (by apply wf_range). by destruct v.
Qed.

Lemma vals_eqm e w z z' : vals σ e w z -> eqm w z z' -> vals σ e w z'.
Proof. intros [Hw He] Hz. split; [done|]. by rewrite <- Hz. Qed.

Lemma arith_ok_same k a b w : Kind.is_div k = false -> arith_ok k (AP w a) (AP w b).
Proof. intros Hk. unfold arith_ok. cbn. by rewrite Z.eqb_refl, Hk. Qed.

Definition den (k : bool) (x y : Z) : Z := if k then x - y else x + y.

Lemma vals_node sub l r w x y :
  vals σ l w x -> vals σ r w y -> vals σ (EArith (addsub_kind sub) l r) w (den sub x y).
Proof.
  intros [Hw Hl] [_ Hr]. split; [done|]. cbn [eval]. rewrite Hl, Hr. unfold ev_arith. cbn.
  pose proof (arith_ok_same (addsub_kind sub) (wrap w x) (wrap w y) w) as Hok.
  rewrite Is_true_true in Hok. rewrite Hok by (by destruct sub).
  do 2 f_equal. destruct sub; cbn; change (eqm w (den true (wrap w x) (wrap w y)) (x - y))
    || change (eqm w (den false (wrap w x) (wrap w y)) (x + y)); unfold den;
    by rewrite !eqm_wrap.
Qed.

Lemma vals_node_inv sub l r w z :
  vals σ (EArith (addsub_kind sub) l r) w z ->
  exists x y, vals σ l w x /\ vals σ r w y /\ eqm w z (den sub x y).
Proof.
  intros [Hw He]. cbn [eval] in He. unfold ev_arith in He. ev_inv. rename H into He.
  exists (ap_val a), (ap_val a0).
  unfold arith_ok in Hok. apply andb_true_iff in Hok as [Hok%Z.eqb_eq _].
  split; [by apply vals_of_eval|]. split; [rewrite Hok; by apply vals_of_eval|].
  unfold eqm. rewrite <- He. destruct sub; cbn; by rewrite wrap_wrap || reflexivity.
Qed.

Context `{Laws : APIntLaws}.

Lemma vals_constant v w x :
  vals σ (EConstant v) w x -> ap_wf v /\ v = AP w (wrap w x) /\ 0 < w.
Proof. intros [Hw He]. by apply eval_constant_inv in He as [<- ?]. Qed.

Lemma vals_alloc w z : 0 < w -> vals σ (EConstant (AP w (wrap w z))) w z.
Proof. intros Hw. split; [done|]. apply eval_constant. by apply ap_wf_wrap. Qed.

Lemma vals_fold sub a b w x y :
  vals σ (EConstant a) w x -> vals σ (EConstant b) w y ->
  vals σ (EConstant (CE_arith (addsub_kind sub) a b)) w (den sub x y).
Proof.
  intros Ha Hb. pose proof (vals_node sub _ _ _ _ _ Ha Hb) as [_ Hn].
  apply vals_constant in Ha as (Ha & -> & Hw), Hb as (Hb & -> & _).
  rewrite CE_arith_spec by (done || apply arith_ok_same; by destruct sub).
  cbn [ap_width ap_val].
  assert (arith_spec w (addsub_kind sub) (wrap w x) (wrap w y) = wrap w (den sub x y)) as ->;
    [|by apply vals_alloc].
  destruct sub; cbn; [change (eqm w (wrap w x - wrap w y) (x - y))
    |change (eqm w (wrap w x + wrap w y) (x + y))]; by rewrite !eqm_wrap.
Qed.

Lemma vals_neg a w x :
  vals σ (EConstant a) w x -> vals σ (EConstant (CE_Neg a)) w (- x).
Proof.
  intros (Ha & -> & Hw)%vals_constant. rewrite CE_Neg_spec by done. cbn.
  eapply vals_eqm; [by apply vals_alloc|]. by rewrite eqm_wrap.
Qed.

Lemma vals_zero a w x : vals σ (EConstant a) w x -> isZero a = true -> eqm w x 0.
Proof.
  intros (Ha & -> & Hw)%vals_constant Hz%Z.eqb_eq. cbn in Hz. unfold eqm.
  rewrite Hz. unfold wrap. by rewrite Zmod_0_l.
Qed.

(** ** The rules of [Add] and [Sub] *)

Definition rule_sound (sub : bool) (f : expr -> expr -> option expr) : Prop :=
  forall l r e w x y, f l r = Some e -> vals σ l w x -> vals σ r w y ->
    vals σ e w (den sub x y).

(** The constants of a rule, as values. *)
Ltac vals_tac :=
  match goal with
  | H : vals _ ?e ?w ?x |- vals _ ?e ?w _ => exact H
  | |- vals _ (EConstant (CE_arith Kind.Add _ _)) _ _ => eapply (vals_fold false); vals_tac
  | |- vals _ (EConstant (CE_arith Kind.Sub _ _)) _ _ => eapply (vals_fold true); vals_tac
  | |- vals _ (EConstant (CE_Neg _)) _ _ => eapply vals_neg; vals_tac
  | |- vals _ (EArith Kind.Add _ _) _ _ => eapply (vals_node false); vals_tac
  | |- vals _ (EArith Kind.Sub _ _) _ _ => eapply (vals_node true); vals_tac
  | Hs : rule_sound _ ?f, H : ?f _ _ = Some ?e |- vals _ ?e _ _ =>
      eapply Hs; [exact H|vals_tac|vals_tac]
  end.

Ltac rule_tac :=
  intros; subst; cbn [mbind option_bind] in *; simplify_option_eq;
  repeat match goal with
  | H : vals _ (EArith Kind.Add _ _) _ _ |- _ =>
      apply (vals_node_inv false) in H as (? & ? & ? & ? & ?)
  | H : vals _ (EArith Kind.Sub _ _) _ _ |- _ =>
      apply (vals_node_inv true) in H as (? & ? & ? & ? & ?)
  | Hz : isZero ?c = true, H : vals _ (EConstant ?c) _ _ |- _ =>
      pose proof (vals_zero _ _ _ H Hz); clear Hz
  end;
  (eapply vals_eqm; [vals_tac|unfold den in *; eqm_solve]).

Section rules.
Context (BAdd BSub : expr -> expr -> option expr).
Hypothesis HAdd : rule_sound false BAdd.
Hypothesis HSub : rule_sound true BSub.

Lemma CF_Add_cn_sound c R e w x y :
  CF_Add_cn BAdd BSub c R = Some e -> vals σ (EConstant c) w x -> vals σ R w y ->
  vals σ e w (x + y).
Proof.
  revert e. apply CF_Add_cn_cases; rule_tac.
Qed.

Lemma CF_Sub_cn_sound c R e w x y :
  CF_Sub_cn BAdd BSub c R = Some e -> vals σ (EConstant c) w x -> vals σ R w y ->
  vals σ e w (x - y).
Proof. revert e. apply CF_Sub_cn_cases; rule_tac. Qed.

Lemma CF_Add_nn_sound : rule_sound false (CF_Add_nn BAdd BSub).
Proof. intros L R e w x y. revert e. apply CF_Add_nn_cases; rule_tac. Qed.

Lemma CF_Sub_nn_sound : rule_sound true (CF_Sub_nn BAdd BSub).
Proof. intros L R e w x y. revert e. apply CF_Sub_nn_cases; rule_tac. Qed.
End rules.

Lemma CF_addsub_sound n sub : rule_sound sub (CF_addsub n sub).
Proof.
  revert sub. induction n as [|n IH]; intros sub l r e w x y; [done|].
  cbn [CF_addsub]. pose proof (IH false) as HA. pose proof (IH true) as HS.
  destruct sub; revert e; apply specialize2_cases; intros; subst.
  - rule_tac.
  - by eapply CF_Sub_cn_sound.
  - cbn. replace (x - y) with (- y + x) by lia.
    eapply CF_Add_cn_sound; [exact HA|exact HS|done|by apply vals_neg|done].
  - by eapply CF_Sub_nn_sound.
  - rule_tac.
  - by eapply CF_Add_cn_sound.
  - cbn. rewrite Z.add_comm. by eapply CF_Add_cn_sound.
  - by eapply CF_Add_nn_sound.
Qed.
End vals.

(** * Soundness of the other operations *)

Lemma lnot_involutive_wrap v : ap_wf v -> not_spec (not_spec v) = v.
Proof.
  intros Hv. pose proof (wf_width v Hv). pose proof (wf_range v Hv) as Hr.
  destruct v as [w z]; cbn in *. unfold not_spec; cbn. f_equal.
  apply Z.bits_inj'. intros i Hi. rewrite wrap_spec, Z.lnot_spec, wrap_spec by lia.
  destruct (Z.ltb_spec i w); cbn.
  - by rewrite Z.lnot_spec, negb_involutive by lia.
  - symmetry. by apply (testbit_high w).
Qed.

Lemma wf_not v : ap_wf v -> ap_wf (not_spec v).
Proof. intros Hv. apply ap_wf_wrap. by apply wf_width. Qed.

Lemma de_morgan w a b :
  0 < w -> Z.land (wrap w (Z.lnot a)) (wrap w (Z.lnot b)) = wrap w (Z.lnot (Z.lor a b)).
Proof.
  intros Hw. apply Z.bits_inj'. intros i Hi.
  rewrite Z.land_spec, !wrap_spec, !Z.lnot_spec, Z.lor_spec by lia.
  destruct (i <? w); cbn; [|done]. by rewrite negb_orb.
Qed.

Lemma ev_not_inv o v : ev_not o = Some v -> exists u, o = Some u /\ v = not_spec u.
Proof. unfold ev_not. destruct o as [u|]; [|done]. cbn. intros [= <-]. eauto. Qed.

Lemma ev_arith_inv k lo ro v : ev_arith k lo ro = Some v ->
  exists a b, lo = Some a /\ ro = Some b /\ arith_ok k a b /\
    v = AP (ap_width a) (arith_spec (ap_width a) k (ap_val a) (ap_val b)).
Proof.
  unfold ev_arith. destruct lo as [a|], ro as [b|]; try done. cbn.
  destruct arith_ok eqn:Hok; [|done]. intros [= <-]. exists a, b. by rewrite Hok.
Qed.

Lemma ev_cmp_inv k lo ro v : ev_cmp k lo ro = Some v ->
  exists a b, lo = Some a /\ ro = Some b /\ ap_width a = ap_width b /\
    v = bool_ap (cmp_spec (ap_width a) k (ap_val a) (ap_val b)).
Proof.
  unfold ev_cmp. destruct lo as [a|], ro as [b|]; try done. cbn.
  destruct (Z.eqb_spec (ap_width a) (ap_width b)); [|done]. intros [= <-]. by exists a, b.
Qed.

Lemma ev_concat_inv lo ro v : ev_concat lo ro = Some v ->
  exists a b, lo = Some a /\ ro = Some b /\ v = concat_spec a b.
Proof. unfold ev_concat. destruct lo, ro; try done. intros [= <-]. eauto. Qed.

Lemma ev_extract_inv off w o v : ev_extract off w o = Some v ->
  exists a, o = Some a /\ extract_ok a off w /\ v = extract_spec a off w.
Proof.
  unfold ev_extract. destruct o as [a|]; [|done]. cbn.
  destruct extract_ok eqn:Hok; [|done]. intros [= <-]. exists a. by rewrite Hok.
Qed.

Lemma ev_zext_inv w o v : ev_zext w o = Some v ->
  exists a, o = Some a /\ ap_width a <= w /\ v = AP w (ap_val a).
Proof.
  unfold ev_zext. destruct o as [a|]; [|done]. cbn.
  destruct (Z.leb_spec (ap_width a) w); [|done]. intros [= <-]. eauto.
Qed.

Lemma ev_sext_inv w o v : ev_sext w o = Some v ->
  exists a, o = Some a /\ ap_width a <= w /\ v = sext_spec a w.
Proof.
  unfold ev_sext. destruct o as [a|]; [|done]. cbn.
  destruct (Z.leb_spec (ap_width a) w); [|done]. intros [= <-]. eauto.
Qed.

Lemma ev_select_inv co to fo v : ev_select co to fo = Some v ->
  exists c t f, co = Some c /\ to = Some t /\ fo = Some f /\ ap_width c = Bool /\
    ap_width t = ap_width f /\ v = if ap_val c =? 0 then f else t.
Proof.
  unfold ev_select. destruct co as [c|], to as [t|], fo as [f|]; try done. cbn.
  destruct (Z.eqb_spec (ap_width c) Bool), (Z.eqb_spec (ap_width t) (ap_width f)); try done.
  intros [= <-]. by exists c, t, f.
Qed.

Lemma ev_arith_intro k a b : arith_ok k a b ->
  ev_arith k (Some a) (Some b) =
    Some (AP (ap_width a) (arith_spec (ap_width a) k (ap_val a) (ap_val b))).
Proof. rewrite Is_true_true. intros Hok. unfold ev_arith. cbn. by rewrite Hok. Qed.

Lemma ev_cmp_intro k a b : ap_width a = ap_width b ->
  ev_cmp k (Some a) (Some b) =
    Some (bool_ap (cmp_spec (ap_width a) k (ap_val a) (ap_val b))).
Proof. intros Hw. unfold ev_cmp. cbn. by rewrite Hw, Z.eqb_refl. Qed.

(** A one-bit value is a boolean. *)
Lemma bool_value v : ap_wf v -> ap_width v = Bool -> v = bool_ap (negb (ap_val v =? 0)).
Proof.
  intros [_ Hr]%ap_wf_iff Hw. destruct v as [w z]; cbn in *. subst w. change (2 ^ Bool) with 2 in Hr.
  assert (z = 0 \/ z = 1) as [-> | ->] by lia; done.
Qed.

(** Swapping the operands of the comparisons the simplifying builder removes. *)
Lemma ev_cmp_swap k k' lo ro :
  (k, k') ∈ [(Kind.Ugt, Kind.Ult); (Kind.Uge, Kind.Ule); (Kind.Sgt, Kind.Slt);
             (Kind.Sge, Kind.Sle)] ->
  ev_cmp k lo ro = ev_cmp k' ro lo.
Proof.
  intros Hk. unfold ev_cmp. destruct lo as [a|], ro as [b|]; try done. cbn.
  rewrite (Z.eqb_sym (ap_width b)).
  destruct (Z.eqb_spec (ap_width a) (ap_width b)) as [Hw|]; [|done].
  rewrite !elem_of_cons in Hk. rewrite <- Hw.
  destruct Hk as [[= -> ->]|[[= -> ->]|[[= -> ->]|[[= -> ->]|Hk]]]]; try done.
  by apply not_elem_of_nil in Hk.
Qed.

Lemma ev_cmp_ne lo ro v :
  ev_cmp Kind.Ne lo ro = Some v ->
  exists u, ev_cmp Kind.Eq lo ro = Some u /\ ev_not (Some u) = Some v.
Proof.
  intros (a & b & -> & -> & Hw & ->)%ev_cmp_inv.
  rewrite ev_cmp_intro by done. eexists; split; [done|]. cbn. f_equal.
  by destruct (ap_val a =? ap_val b).
Qed.

(** [true == X ==> X] and [false == X ==> !X], for one-bit operands. *)
Lemma ev_eq_bool a b :
  ap_wf a -> ap_wf b -> ap_width a = Bool -> ap_width b = Bool ->
  bool_ap (cmp_spec Bool Kind.Eq (ap_val a) (ap_val b)) = if isTrue a then b else not_spec b.
Proof.
  intros Ha Hb Hwa Hwb. rewrite (bool_value a), (bool_value b) by done.
  by destruct (ap_val a =? 0), (ap_val b =? 0).
Qed.

(** Bitwise identities with a constant operand. *)
Lemma lor_ones_range w x : 0 <= x < 2 ^ w -> 0 < w -> Z.lor (Z.ones w) x = Z.ones w.
Proof.
  intros Hx Hw. apply Z.bits_inj'. intros i Hi. rewrite Z.lor_spec, Z.testbit_ones by lia.
  rewrite (proj2 (Z.leb_le 0 i)) by done.
  destruct (Z.ltb_spec i w) as [|Hwi]; cbn; [done|]. by apply (testbit_high w).
Qed.
Lemma land_ones_range w x : 0 <= x < 2 ^ w -> 0 < w -> Z.land (Z.ones w) x = x.
Proof. intros Hx Hw. rewrite Z.land_comm, Z.land_ones by lia. by apply Z.mod_small. Qed.

Definition commutes (k : Kind.arith) : Prop :=
  k ∈ [Kind.Mul; Kind.And; Kind.Or; Kind.Xor].

Lemma arith_spec_comm k w a b : commutes k -> arith_spec w k a b = arith_spec w k b a.
Proof.
  unfold commutes. rewrite !elem_of_cons. intros [-> |[-> |[-> |[-> |Hk]]]]; cbn.
  - by rewrite Z.mul_comm.
  - apply Z.land_comm.
  - apply Z.lor_comm.
  - apply Z.lxor_comm.
  - by apply not_elem_of_nil in Hk.
Qed.

Lemma ev_arith_comm k lo ro : commutes k -> ev_arith k lo ro = ev_arith k ro lo.
Proof.
  intros Hk. unfold ev_arith. destruct lo as [a|], ro as [b|]; try done. cbn.
  assert (Kind.is_div k = false) as Hd.
  { unfold commutes in Hk. rewrite !elem_of_cons in Hk.
    destruct Hk as [-> |[-> |[-> |[-> |Hk]]]]; try done. by apply not_elem_of_nil in Hk. }
  unfold arith_ok. rewrite Hd, (Z.eqb_sym (ap_width b)).
  destruct (Z.eqb_spec (ap_width a) (ap_width b)) as [Hw|]; [|done]. cbn.
  by rewrite (arith_spec_comm k), Hw.
Qed.

Section folding.
Context `{Laws : APIntLaws} (σ : assignment).

Lemma fold_arith_sound k l r v :
  ev_arith k (eval σ (EConstant l)) (eval σ (EConstant r)) = Some v ->
  eval σ (fold_arith k l r) = Some v.
Proof.
  intros (a & b & [-> Ha]%eval_constant_inv & [-> Hb]%eval_constant_inv & Hok & ->)%ev_arith_inv.
  unfold fold_arith. rewrite CE_arith_spec by done. apply eval_constant, ap_wf_iff. cbn.
  split; [by apply wf_width|]. by apply arith_spec_range.
Qed.

Lemma fold_cmp_sound k l r v :
  ev_cmp k (eval σ (EConstant l)) (eval σ (EConstant r)) = Some v ->
  eval σ (fold_cmp k l r) = Some v.
Proof.
  intros (a & b & [-> Ha]%eval_constant_inv & [-> Hb]%eval_constant_inv & Hw & ->)%ev_cmp_inv.
  unfold fold_cmp. rewrite CE_cmp_spec by done. apply eval_constant, bool_ap_wf.
Qed.

Lemma CF_AddSub_sound sub l r v :
  ev_arith (addsub_kind sub) (eval σ l) (eval σ r) = Some v ->
  eval σ (CF_AddSub sub l r) = Some v.
Proof.
  intros Hv. assert (eval σ (EArith (addsub_kind sub) l r) = Some v) as Hn by done.
  pose proof (vals_of_eval σ _ _ Hn) as (x & y & Hx & Hy & Hxy)%vals_node_inv.
  unfold CF_AddSub.
  destruct (CF_addsub_returns _ sub l r (le_n _)) as (e & He & _). rewrite He. cbn.
  destruct (CF_addsub_sound σ _ sub l r e _ x y He Hx Hy) as [_ ->].
  rewrite <- Hxy, wrap_small by (by apply wf_range, (eval_wf σ _ _ Hn)).
  by destruct v.
Qed.

Lemma CF_bit_cn_sound k c R v :
  ev_arith k (eval σ (EConstant c)) (eval σ R) = Some v ->
  eval σ (CF_bit_cn k c R) = Some v.
Proof.
  intros Hv. assert (eval σ (EArith k (EConstant c) R) = Some v) as Hn by done.
  apply ev_arith_inv in Hv as (a & b & [-> Hc]%eval_constant_inv & Hb & Hok & ->).
  pose proof (eval_wf _ _ _ Hb) as Hwb. pose proof (wf_range _ Hwb) as Hrb.
  unfold arith_ok in Hok. rewrite Is_true_true, andb_true_iff in Hok.
  destruct Hok as [Hw%Z.eqb_eq _]. pose proof (wf_width _ Hc).
  rewrite <- Hw in Hrb.
  assert (eval σ R = Some (AP (ap_width c) (ap_val b))) as HR
    by (rewrite Hb, Hw; by destruct b).
  assert (eval σ (EConstant c) = Some (AP (ap_width c) (ap_val c))) as HC
    by (rewrite eval_constant by done; by destruct c).
  destruct k; cbn [CF_bit_cn]; try exact Hn; unfold isZero, isOne, isAllOnes.
  - destruct (Z.eqb_spec (ap_val c) 0) as [Hz|].
    { rewrite HC, Hz. cbn. by rewrite wrap_small by lia. }
    destruct (Z.eqb_spec (ap_val c) 1) as [Ho|]; [|exact Hn].
    rewrite HR, Ho. cbn [arith_spec]. by rewrite Z.mul_1_l, wrap_small.
  - destruct (Z.eqb_spec (ap_val c) 0) as [Hz|]; [by rewrite HC, Hz|].
    destruct (Z.eqb_spec (ap_val c) (Z.ones (ap_width c))) as [Ho|]; [|exact Hn].
    rewrite HR, Ho. cbn [arith_spec]. by rewrite land_ones_range.
  - destruct (Z.eqb_spec (ap_val c) 0) as [Hz|]; [by rewrite HR, Hz|].
    destruct (Z.eqb_spec (ap_val c) (Z.ones (ap_width c))) as [Ho|]; [|exact Hn].
    rewrite HC, Ho. cbn [arith_spec]. by rewrite lor_ones_range.
  - destruct (Z.eqb_spec (ap_val c) 0) as [Hz|]; [by rewrite HR, Hz|exact Hn].
Qed.

Lemma CF_bit_nc_sound k L c v :
  ev_arith k (eval σ L) (eval σ (EConstant c)) = Some v ->
  eval σ (CF_bit_nc k L c) = Some v.
Proof.
  intros Hv. destruct k; cbn [CF_bit_nc]; try exact Hv;
    apply CF_bit_cn_sound; rewrite <- Hv; apply ev_arith_comm; unfold commutes; set_solver.
Qed.

Lemma CF_Arith_sound k l r v :
  ev_arith k (eval σ l) (eval σ r) = Some v -> eval σ (CF_Arith k l r) = Some v.
Proof.
  intros Hv.
  assert (eval σ (specialize2 (fold_arith k) (CF_bit_cn k) (CF_bit_nc k) (EArith k) l r)
          = Some v) as Hs.
  { revert Hv. apply specialize2_cases; intros; subst;
      [by apply fold_arith_sound|by apply CF_bit_cn_sound|by apply CF_bit_nc_sound|done]. }
  destruct k; try exact Hs; [by apply (CF_AddSub_sound false)|by apply (CF_AddSub_sound true)].
Qed.

Lemma fold_not_sound c v :
  ev_not (eval σ (EConstant c)) = Some v -> eval σ (EConstant (CE_Not c)) = Some v.
Proof.
  intros (u & [-> Hc]%eval_constant_inv & ->)%ev_not_inv.
  rewrite CE_Not_spec by done. by apply eval_constant, wf_not.
Qed.

Lemma double_not_sound e v : ev_not (eval σ (ENot e)) = Some v -> eval σ e = Some v.
Proof.
  intros (u & Hu & ->)%ev_not_inv. cbn [eval] in Hu. apply ev_not_inv in Hu as (x & Hx & ->).
  rewrite Hx. f_equal. symmetry. by eapply lnot_involutive_wrap, eval_wf.
Qed.

Lemma CF_Not_sound e v : ev_not (eval σ e) = Some v -> eval σ (CF_Not e) = Some v.
Proof.
  intros Hv. destruct e; try exact Hv; cbn [CF_Not];
    [by apply fold_not_sound|by apply double_not_sound].
Qed.

Lemma Eq_cn_sound bn be c R v :
  (forall u, ev_not (eval σ R) = Some u -> eval σ (bn R) = Some u) ->
  (forall u, ev_cmp Kind.Eq (eval σ (EConstant c)) (eval σ R) = Some u ->
     eval σ (be (EConstant c) R) = Some u) ->
  ev_cmp Kind.Eq (eval σ (EConstant c)) (eval σ R) = Some v ->
  eval σ (Eq_cn bn be c R) = Some v.
Proof.
  intros Hn He Hv. unfold Eq_cn. destruct (Z.eqb_spec (ap_width c) Bool) as [Hw|]; [|by apply He].
  apply ev_cmp_inv in Hv as (a & b & [-> Hc]%eval_constant_inv & Hb & Hwb & ->).
  rewrite Hw, ev_eq_bool by first [done|by eapply eval_wf|congruence].
  destruct (isTrue c); [done|]. apply Hn. by rewrite Hb.
Qed.

Lemma ev_eq_comm lo ro : ev_cmp Kind.Eq lo ro = ev_cmp Kind.Eq ro lo.
Proof.
  unfold ev_cmp. destruct lo as [a|], ro as [b|]; try done. cbn.
  by rewrite (Z.eqb_sym (ap_width b)), (Z.eqb_sym (ap_val b)).
Qed.

Lemma CF_Cmp_sound k l r v :
  ev_cmp k (eval σ l) (eval σ r) = Some v -> eval σ (CF_Cmp k l r) = Some v.
Proof.
  intros Hv. destruct k; cbn [CF_Cmp]; revert Hv; apply specialize2_cases; intros; subst;
    try (by apply fold_cmp_sound); try done; apply Eq_cn_sound;
    first [done|by rewrite ev_eq_comm].
Qed.

Lemma S_Select_sound base c t f v :
  (forall u, ev_select (eval σ c) (eval σ t) (eval σ f) = Some u ->
     eval σ (base c t f) = Some u) ->
  ev_select (eval σ c) (eval σ t) (eval σ f) = Some v ->
  eval σ (S_Select base c t f) = Some v.
Proof.
  intros Hb Hv. unfold S_Select. destruct c; cbn [specialize1]; try by apply Hb.
  apply ev_select_inv in Hv as
    (? & x & y & [-> Hc]%eval_constant_inv & Hx & Hy & Hw & _ & ->).
  unfold isTrue. rewrite Hw. cbn. by destruct (ap_val value =? 0).
Qed.

Lemma S_Concat_sound base l r v :
  (forall u, ev_concat (eval σ l) (eval σ r) = Some u -> eval σ (base l r) = Some u) ->
  ev_concat (eval σ l) (eval σ r) = Some v -> eval σ (S_Concat base l r) = Some v.
Proof.
  intros Hb Hv. unfold S_Concat. revert Hb Hv. apply specialize2_cases; intros; subst; auto.
  apply ev_concat_inv in Hv as
    (a & b & [-> Hl]%eval_constant_inv & [-> Hr]%eval_constant_inv & ->).
  rewrite CE_Concat_spec by done. by apply eval_constant, concat_spec_wf.
Qed.

Lemma S_Extract_sound base e off w v :
  (forall u, ev_extract off w (eval σ e) = Some u -> eval σ (base e off w) = Some u) ->
  ev_extract off w (eval σ e) = Some v -> eval σ (S_Extract base e off w) = Some v.
Proof.
  intros Hb Hv. destruct e; try by apply Hb. cbn [S_Extract specialize1].
  apply ev_extract_inv in Hv as (a & [-> Hc]%eval_constant_inv & Hok & ->).
  rewrite CE_Extract_spec by done.
  apply eval_constant, ap_wf_wrap. apply extract_ok_spec in Hok. lia.
Qed.

Lemma S_ZExt_sound base e w v :
  (forall u, ev_zext w (eval σ e) = Some u -> eval σ (base e w) = Some u) ->
  ev_zext w (eval σ e) = Some v -> eval σ (S_ZExt base e w) = Some v.
Proof.
  intros Hb Hv. destruct e; try by apply Hb. cbn [S_ZExt specialize1].
  assert (eval σ (EZExt (EConstant value) w) = Some v) as Hwf%eval_wf by done.
  apply ev_zext_inv in Hv as (a & [-> Hc]%eval_constant_inv & Hw & ->).
  rewrite CE_ZExt_spec by done. by apply eval_constant.
Qed.

Lemma S_SExt_sound base e w v :
  (forall u, ev_sext w (eval σ e) = Some u -> eval σ (base e w) = Some u) ->
  ev_sext w (eval σ e) = Some v -> eval σ (S_SExt base e w) = Some v.
Proof.
  intros Hb Hv. destruct e; try by apply Hb. cbn [S_SExt specialize1].
  assert (eval σ (ESExt (EConstant value) w) = Some v) as Hwf%eval_wf by done.
  apply ev_sext_inv in Hv as (a & [-> Hc]%eval_constant_inv & Hw & ->).
  rewrite CE_SExt_spec by done. by apply eval_constant.
Qed.
End folding.

(** * The builders implement the interface *)

Lemma is_const_iff e : is_const e <-> exists v, e = EConstant v.
Proof. split; [destruct e; try done; eauto|by intros [v ->]]. Qed.

Ltac const_inv :=
  repeat match goal with
  | H : Is_true (is_const _) |- _ => apply is_const_iff in H as [? ->]
  end.

#[export] Instance constant_folding_laws `{APIntLaws} :
  BuilderLaws (H := ConstantFoldingExprBuilder).
Proof.
  split; cbn [bArith bCmp bNot bSelect bConcat bExtract bZExt bSExt
              ConstantFoldingExprBuilder].
  - intros. by apply CF_Arith_sound.
  - intros. by apply CF_Cmp_sound.
  - intros. by apply CF_Not_sound.
  - intros. by apply S_Select_sound.
  - intros. by apply S_Concat_sound.
  - intros. by apply S_Extract_sound.
  - intros. by apply S_ZExt_sound.
  - intros. by apply S_SExt_sound.
  - intros. const_inv. by destruct k.
  - intros. const_inv. by destruct k.
  - intros. by const_inv.
  - intros. const_inv. unfold S_Select. cbn. by case_match.
  - intros. by const_inv.
  - intros. by const_inv.
  - intros. by const_inv.
  - intros. by const_inv.
Qed.

Section simplifying_laws.
Context `{Laws : APIntLaws} (Base : ExprBuilder) `{HB : !BuilderLaws (H := Base)}.
Implicit Types (σ : assignment) (v : apint).

Lemma S_Arith_sound σ k l r v :
  ev_arith k (eval σ l) (eval σ r) = Some v -> eval σ (S_Arith Base k l r) = Some v.
Proof.
  unfold S_Arith. apply specialize2_cases; intros; subst;
    [by apply fold_arith_sound|by apply bArith_sound..].
Qed.

Lemma ev_not_or a b v :
  ap_wf a -> ap_wf b ->
  ev_not (ev_arith Kind.Or (Some a) (Some b)) = Some v ->
  ev_arith Kind.And (ev_not (Some a)) (ev_not (Some b)) = Some v.
Proof.
  intros Ha Hb (u & (a' & b' & [= <-] & [= <-] & Hok & ->)%ev_arith_inv & ->)%ev_not_inv.
  cbn [ev_not mbind option_bind]. rewrite ev_arith_intro by exact Hok.
  unfold arith_ok in Hok. rewrite Is_true_true, andb_true_iff in Hok.
  destruct Hok as [Hw%Z.eqb_eq _]. unfold not_spec. cbn. do 2 f_equal.
  rewrite <- Hw. apply de_morgan. by apply wf_width.
Qed.

Lemma S_Not_sound σ e v : ev_not (eval σ e) = Some v -> eval σ (S_Not Base e) = Some v.
Proof.
  revert v. induction e as [c| | | | | | |e IH|k l IHl r IHr|]; intros v Hv;
    try by apply bNot_sound.
  - by apply fold_not_sound.
  - by apply double_not_sound.
  - destruct k; try (by apply bNot_sound). cbn [S_Not]. apply S_Arith_sound.
    cbn [eval] in Hv.
    pose proof Hv as (u & (a & b & Ha & Hb & _)%ev_arith_inv & _)%ev_not_inv.
    rewrite Ha, Hb in *. apply ev_not_or in Hv; [|by eapply eval_wf..].
    by rewrite (IHl _ eq_refl), (IHr _ eq_refl).
Qed.

Lemma S_Eq_sound σ l r v :
  ev_cmp Kind.Eq (eval σ l) (eval σ r) = Some v -> eval σ (S_Eq Base l r) = Some v.
Proof.
  unfold S_Eq. apply specialize2_cases; intros; subst.
  - by apply fold_cmp_sound.
  - by apply Eq_cn_sound; [intros; apply bNot_sound|intros; apply bCmp_sound|].
  - apply Eq_cn_sound; [intros; by apply bNot_sound|intros; by apply bCmp_sound|].
    by rewrite ev_eq_comm.
  - destruct (decide (l = r)) as [->|]; [|by apply bCmp_sound].
    apply ev_cmp_inv in H1 as (a & b & Ha & Hb & _ & ->).
    rewrite Ha in Hb. injection Hb as <-. cbn [cmp_spec]. rewrite Z.eqb_refl.
    by apply eval_constant.
Qed.

Lemma S_CmpBase_sound σ k l r v :
  ev_cmp k (eval σ l) (eval σ r) = Some v -> eval σ (S_CmpBase Base k l r) = Some v.
Proof.
  unfold S_CmpBase. apply specialize2_cases; intros; subst;
    [by apply fold_cmp_sound|by apply bCmp_sound..].
Qed.

Lemma S_CmpVia_sound σ k f l r v :
  (ev_cmp k (eval σ l) (eval σ r) = Some v -> eval σ (f l r) = Some v) ->
  ev_cmp k (eval σ l) (eval σ r) = Some v -> eval σ (S_CmpVia k f l r) = Some v.
Proof.
  unfold S_CmpVia. apply specialize2_cases; intros; subst; auto.
  by apply fold_cmp_sound.
Qed.

Lemma S_Cmp_sound σ k l r v :
  ev_cmp k (eval σ l) (eval σ r) = Some v -> eval σ (S_Cmp Base k l r) = Some v.
Proof.
  intros Hv. destruct k; cbn [S_Cmp];
    try (by apply S_CmpBase_sound); try (by apply S_Eq_sound);
    apply S_CmpVia_sound; try done; clear Hv; intros Hv.
  { apply ev_cmp_ne in Hv as (u & Hu & Hv). apply S_Not_sound.
    by rewrite (S_Eq_sound _ _ _ _ Hu). }
  all: apply S_CmpBase_sound; rewrite <- Hv; symmetry; apply ev_cmp_swap; set_solver.
Qed.

#[export] Instance simplifying_laws : BuilderLaws (H := SimplifyingExprBuilder Base).
Proof.
  split; cbn [bArith bCmp bNot bSelect bConcat bExtract bZExt bSExt
              SimplifyingExprBuilder].
  - intros. by apply S_Arith_sound.
  - intros. by apply S_Cmp_sound.
  - intros. by apply S_Not_sound.
  - intros. by apply S_Select_sound; [intros; apply bSelect_sound|].
  - intros. by apply S_Concat_sound; [intros; apply bConcat_sound|].
  - intros. by apply S_Extract_sound; [intros; apply bExtract_sound|].
  - intros. by apply S_ZExt_sound; [intros; apply bZExt_sound|].
  - intros. by apply S_SExt_sound; [intros; apply bSExt_sound|].
  - intros. by const_inv.
  - intros. const_inv. by destruct k.
  - intros. by const_inv.
  - intros. const_inv. unfold S_Select. cbn. by case_match.
  - intros. by const_inv.
  - intros. by const_inv.
  - intros. by const_inv.
  - intros. by const_inv.
Qed.
End simplifying_laws.

#[export] Instance solver_builder_laws `{APIntLaws} : BuilderLaws (H := solver_builder).
Proof. unfold solver_builder. apply _. Qed.

(** * Canonical form

    The documentation of [Expr] rules out [Ne], [Ugt], [Uge], [Sgt] and [Sge], and puts the
    constant operand of a sum, a difference, a commutative operator or an equality on the
    left. *)

Definition const_left (k : Kind.arith) : bool :=
  match k with
  | Kind.Add | Kind.Sub | Kind.Mul | Kind.And | Kind.Or | Kind.Xor => true
  | _ => false
  end.
Definition canonical_cmp (k : Kind.cmp) : bool :=
  match k with
  | Kind.Ne | Kind.Ugt | Kind.Uge | Kind.Sgt | Kind.Sge => false
  | _ => true
  end.

Fixpoint canonical (e : expr) : Prop :=
  match e with
  | EConstant _ => True
  | ERead _ e | EExtract e _ _ | EZExt e _ | ESExt e _ | ENot e => canonical e
  | ESelect c t f => canonical c /\ canonical t /\ canonical f
  | EConcat l r => canonical l /\ canonical r
  | EArith k l r => (const_left k = true -> is_const r = false) /\ canonical l /\ canonical r
  | ECmp k l r =>
      canonical_cmp k = true /\ (k = Kind.Eq -> is_const r = false) /\
      canonical l /\ canonical r
  end.

Section canonical.
Context `{APInt}.

Definition rule_canonical (f : expr -> expr -> option expr) : Prop :=
  forall l r e, canonical l -> canonical r -> f l r = Some e -> canonical e.

Ltac canonical_tac :=
  intros; subst; cbn [canonical mbind option_bind] in *; simplify_option_eq;
  repeat match goal with H : _ /\ _ |- _ => destruct H end;
  cbn [canonical];
  first
    [ done
    | by repeat split
    | match goal with
      | Hs : rule_canonical ?f, Hf : ?f _ _ = Some ?e |- canonical ?e =>
          apply (Hs _ _ _) in Hf; [done|done|]; canonical_tac
      end
    | match goal with
      | Hs : rule_canonical ?f, Hf : ?f ?l ?r = Some ?e |- canonical ?e =>
          refine (Hs _ _ _ _ _ Hf); canonical_tac
      end ].

Lemma CF_addsub_canonical n sub : rule_canonical (CF_addsub n sub).
Proof.
  revert sub. induction n as [|n IH]; intros sub l r e Hl Hr; [done|].
  pose proof (IH false) as HA. pose proof (IH true) as HS. clear IH. cbn [CF_addsub].
  destruct sub; revert e; apply specialize2_cases; intros; subst;
    try (injection H1 as <-); try done; revert H2 || revert H1;
    match goal with
    | |- CF_Add_cn _ _ _ _ = _ -> _ => apply CF_Add_cn_cases
    | |- CF_Sub_cn _ _ _ _ = _ -> _ => apply CF_Sub_cn_cases
    | |- CF_Add_nn _ _ _ _ = _ -> _ => apply CF_Add_nn_cases
    | |- CF_Sub_nn _ _ _ _ = _ -> _ => apply CF_Sub_nn_cases
    | _ => idtac
    end; canonical_tac.
Qed.

Lemma CF_AddSub_canonical sub l r :
  canonical l -> canonical r -> canonical (CF_AddSub sub l r).
Proof.
  intros Hl Hr. unfold CF_AddSub.
  destruct (CF_addsub_returns _ sub l r (le_n _)) as (e & He & _). rewrite He.
  exact (CF_addsub_canonical _ _ _ _ _ Hl Hr He).
Qed.

Lemma CF_Arith_canonical k l r : canonical l -> canonical r -> canonical (CF_Arith k l r).
Proof.
  intros Hl Hr.
  assert (canonical
    (specialize2 (fold_arith k) (CF_bit_cn k) (CF_bit_nc k) (EArith k) l r) \/
    k = Kind.Add \/ k = Kind.Sub) as Hs.
  { apply specialize2_cases; intros; subst; [by left|..];
      destruct k; cbn [CF_bit_cn CF_bit_nc]; auto; left; cbn [canonical];
      repeat case_match; by repeat split. }
  destruct k; try (by destruct Hs as [?|[]]); by apply CF_AddSub_canonical.
Qed.

Lemma CF_Not_canonical e : canonical e -> canonical (CF_Not e).
Proof. by destruct e. Qed.

Lemma Eq_cn_canonical bn be c r :
  canonical r -> canonical (bn r) -> canonical (be (EConstant c) r) ->
  canonical (Eq_cn bn be c r).
Proof. intros. unfold Eq_cn. by repeat case_match. Qed.

Lemma CF_Cmp_canonical k l r :
  canonical_cmp k = true -> canonical l -> canonical r -> canonical (CF_Cmp k l r).
Proof.
  intros Hk Hl Hr. destruct k; try done; cbn [CF_Cmp]; apply specialize2_cases;
    intros; subst; try done; try (apply Eq_cn_canonical); cbn [canonical]; by repeat split.
Qed.

Abbreviation CFB := ConstantFoldingExprBuilder.

Lemma S_Arith_canonical k l r : canonical l -> canonical r -> canonical (S_Arith CFB k l r).
Proof.
  intros Hl Hr. unfold S_Arith. apply specialize2_cases; intros; subst; [done|..];
    by apply CF_Arith_canonical.
Qed.

Lemma S_Not_canonical e : canonical e -> canonical (S_Not CFB e).
Proof.
  induction e as [| | | | | | | |k ? ? ? ?|]; intros He; try done.
  destruct k; try done. cbn [S_Not]. destruct He as (_ & ? & ?).
  apply S_Arith_canonical; auto.
Qed.

Lemma S_Eq_canonical l r : canonical l -> canonical r -> canonical (S_Eq CFB l r).
Proof.
  intros Hl Hr. unfold S_Eq. apply specialize2_cases; intros; subst; [done|..].
  - apply Eq_cn_canonical; [done|by apply CF_Not_canonical|by apply CF_Cmp_canonical].
  - apply Eq_cn_canonical; [done|by apply CF_Not_canonical|by apply CF_Cmp_canonical].
  - case_match; [done|]. by apply CF_Cmp_canonical.
Qed.

Lemma S_CmpBase_canonical k l r :
  canonical_cmp k = true -> canonical l -> canonical r -> canonical (S_CmpBase CFB k l r).
Proof.
  intros Hk Hl Hr. unfold S_CmpBase. apply specialize2_cases; intros; subst; [done|..];
    by apply CF_Cmp_canonical.
Qed.

Lemma S_Cmp_canonical k l r : canonical l -> canonical r -> canonical (S_Cmp CFB k l r).
Proof.
  intros Hl Hr. destruct k; cbn [S_Cmp]; try (by apply S_CmpBase_canonical);
    try (by apply S_Eq_canonical);
    unfold S_CmpVia; apply specialize2_cases; intros; subst; try done;
    by first [apply S_CmpBase_canonical|apply S_Not_canonical, S_Eq_canonical].
Qed.
End canonical.

(** * The properties of the chain *)

Section monotone.
Context `{APInt} (A A' B B' : expr -> expr -> option expr).
Hypothesis HA : forall l r e, A l r = Some e -> A' l r = Some e.
Hypothesis HB : forall l r e, B l r = Some e -> B' l r = Some e.

Lemma bind_mono l r (k k' : expr -> option expr) e :
  (forall x, k x = Some e -> k' x = Some e) ->
  (A l r ≫= k = Some e -> A' l r ≫= k' = Some e) /\
  (B l r ≫= k = Some e -> B' l r ≫= k' = Some e).
Proof.
  intros Hk. split.
  - destruct (A l r) eqn:E; [|done]. rewrite (HA _ _ _ E). apply Hk.
  - destruct (B l r) eqn:E; [|done]. rewrite (HB _ _ _ E). apply Hk.
Qed.

Ltac mono_tac :=
  repeat case_match; subst; try (by auto); apply bind_mono; auto.

Lemma CF_Add_cn_mono c r e : CF_Add_cn A B c r = Some e -> CF_Add_cn A' B' c r = Some e.
Proof. unfold CF_Add_cn. mono_tac. Qed.
Lemma CF_Sub_cn_mono c r e : CF_Sub_cn A B c r = Some e -> CF_Sub_cn A' B' c r = Some e.
Proof. unfold CF_Sub_cn. mono_tac. Qed.
Lemma CF_Add_nn_mono l r e : CF_Add_nn A B l r = Some e -> CF_Add_nn A' B' l r = Some e.
Proof. unfold CF_Add_nn, CF_Add_nn_right. mono_tac. Qed.
Lemma CF_Sub_nn_mono l r e : CF_Sub_nn A B l r = Some e -> CF_Sub_nn A' B' l r = Some e.
Proof. unfold CF_Sub_nn, CF_Sub_nn_right. mono_tac. Qed.
End monotone.

Lemma specialize2_mono cc cn nc nn cn' nc' nn' l r (e : expr) :
  (forall l r, cn l r = Some e -> cn' l r = Some e) ->
  (forall l r, nc l r = Some e -> nc' l r = Some e) ->
  (forall l r, nn l r = Some e -> nn' l r = Some e) ->
  specialize2 cc cn nc nn l r = Some e -> specialize2 cc cn' nc' nn' l r = Some e.
Proof. intros. by destruct l, r; cbn [specialize2] in *; auto. Qed.

(** More fuel does not change the result. *)
Lemma CF_addsub_mono `{APInt} n m : (n <= m)%nat -> forall sub l r e,
  CF_addsub n sub l r = Some e -> CF_addsub m sub l r = Some e.
Proof.
  revert m. induction n as [|n IH]; intros [|m] Hle sub l r e; try done; [lia|].
  pose proof (IH m ltac:(lia)) as Hm. cbn [CF_addsub].
  destruct sub; apply specialize2_mono; intros ? ?;
    [apply CF_Sub_cn_mono|apply CF_Add_cn_mono|apply CF_Sub_nn_mono
    |apply CF_Add_cn_mono|apply CF_Add_cn_mono|apply CF_Add_nn_mono]; auto.
Qed.

(** The mutually recursive rewriting of sums and differences in the constant folding
    builder terminates: with the fuel [addsub_fuel] (quadratic in the weight of the
    operands) or any larger one it returns, always the expression [CF_AddSub], whose weight
    is at most that of the node built from the two operands. *)
Theorem CF_addsub_terminates `{APInt} n sub l r :
  (addsub_fuel l r <= n)%nat ->
  CF_addsub n sub l r = Some (CF_AddSub sub l r) /\
  (weight (CF_AddSub sub l r) <= S (weight l + weight r))%nat.
Proof.
  intros Hn. unfold CF_AddSub.
  destruct (CF_addsub_returns _ sub l r (le_n _)) as (e & He & Hw). rewrite He.
  split; [by eapply CF_addsub_mono|done].
Qed.

Definition sample_array : Array := mkArray "x" 4.
Definition sample_word : expr := default (EConstant (AP 8 0)) (createTempRead sample_array Int32).
Definition sample_const (z : Z) : expr := EConstant (CE_alloc z Int32).

(** (x - 3) - (5 - x), which takes several rules. *)
Lemma CF_addsub_terminates_witness :
  let l := EArith Kind.Sub sample_word (sample_const 3) in
  let r := EArith Kind.Sub (sample_const 5) sample_word in
  CF_addsub 100 true l r = Some (CF_AddSub true l r).
Proof.
  intros l r. apply (CF_addsub_terminates 100 true l r).
  apply Nat.leb_le. vm_compute. reflexivity.
Defined.

(** C4 Every operation of the solver's builder chain (simplifying over constant folding
    over default) builds an expression that has, under every assignment, the value of the
    plain operator applied to the operands' values: all rewriting rules (reassociation of
    sums, neutral and absorbing constants, double negation, De Morgan, boolean equality,
    removed comparisons) are identities of fixed-width arithmetic. *)
Theorem solver_builder_sound `{APIntLaws} σ l r :
  (forall k v, ev_arith k (eval σ l) (eval σ r) = Some v ->
     eval σ (bArith (ExprBuilder := solver_builder) k l r) = Some v) /\
  (forall k v, ev_cmp k (eval σ l) (eval σ r) = Some v ->
     eval σ (bCmp (ExprBuilder := solver_builder) k l r) = Some v) /\
  (forall v, ev_not (eval σ l) = Some v ->
     eval σ (bNot (ExprBuilder := solver_builder) l) = Some v) /\
  (forall c v, ev_select (eval σ c) (eval σ l) (eval σ r) = Some v ->
     eval σ (bSelect (ExprBuilder := solver_builder) c l r) = Some v) /\
  (forall v, ev_concat (eval σ l) (eval σ r) = Some v ->
     eval σ (bConcat (ExprBuilder := solver_builder) l r) = Some v) /\
  (forall off w v, ev_extract off w (eval σ l) = Some v ->
     eval σ (bExtract (ExprBuilder := solver_builder) l off w) = Some v) /\
  (forall w v, ev_zext w (eval σ l) = Some v ->
     eval σ (bZExt (ExprBuilder := solver_builder) l w) = Some v) /\
  (forall w v, ev_sext w (eval σ l) = Some v ->
     eval σ (bSExt (ExprBuilder := solver_builder) l w) = Some v).
Proof.
  repeat split; intros; [by apply bArith_sound|by apply bCmp_sound|by apply bNot_sound
    |by apply bSelect_sound|by apply bConcat_sound|by apply bExtract_sound
    |by apply bZExt_sound|by apply bSExt_sound].
Qed.

(** x = 0xfffffffe: (x + 3) - (5 - x) is 0xfffffffa, and the built expression agrees. *)
Lemma solver_builder_sound_witness :
  let σ : assignment := fun _ i => if i =? 0 then 0xfe else 0xff in
  let l := EArith Kind.Add sample_word (sample_const 3) in
  let r := EArith Kind.Sub (sample_const 5) sample_word in
  eval σ (bArith (ExprBuilder := solver_builder) Kind.Sub l r) = Some (AP 32 0xfffffffa).
Proof.
  intros σ l r. refine (proj1 (solver_builder_sound σ l r) Kind.Sub _ _).
  vm_compute. reflexivity.
Defined.

(** The chain keeps expressions in the canonical form the documentation of [Expr]
    asks for: no [Ne], [Ugt], [Uge], [Sgt] or [Sge] node, and the constant operand of a
    sum, difference, commutative operator or equality on the left. *)
Theorem solver_builder_canonical `{APInt} k c s l r off w :
  canonical s -> canonical l -> canonical r ->
  canonical (bArith (ExprBuilder := solver_builder) k l r) /\
  canonical (bCmp (ExprBuilder := solver_builder) c l r) /\
  canonical (bNot (ExprBuilder := solver_builder) l) /\
  canonical (bSelect (ExprBuilder := solver_builder) s l r) /\
  canonical (bConcat (ExprBuilder := solver_builder) l r) /\
  canonical (bExtract (ExprBuilder := solver_builder) l off w) /\
  canonical (bZExt (ExprBuilder := solver_builder) l w) /\
  canonical (bSExt (ExprBuilder := solver_builder) l w).
Proof.
  intros Hs Hl Hr. split; [by apply S_Arith_canonical|].
  split; [by apply S_Cmp_canonical|]. split; [by apply S_Not_canonical|].
  split; [destruct s; cbn; by try case_match|].
  split; [by destruct l, r|]. by destruct l.
Qed.

Lemma solver_builder_canonical_witness :
  canonical (bCmp (ExprBuilder := solver_builder) Kind.Sge sample_word (sample_const 7)).
Proof.
  refine (proj1 (proj2 (solver_builder_canonical Kind.Add Kind.Sge (sample_const 1)
           sample_word (sample_const 7) 0 8 _ _ _))); vm_compute; tauto.
Defined.
