(* ===== verification/KType.v ===== *)
(** The type of an expression, which is its width where its operands fit, and what it
    means that a boolean expression holds or fails under an assignment. *)
From S2P Require Import Prelude Bits APInt KExpr.

(** * Types *)

Definition ty_equal (l r : option Z) : option Z :=
  l ← l; r ← r; if l =? r then Some l else None.
Definition ty_concat (l r : option Z) : option Z := l ← l; r ← r; Some (l + r).
Definition ty_extract (off w : Z) (e : option Z) : option Z :=
  e ← e; if (0 <? w) && (0 <=? off) && (off + w <=? e) then Some w else None.
Definition ty_ext (w : Z) (e : option Z) : option Z := e ← e; if e <=? w then Some w else None.
Definition ty_cmp (l r : option Z) : option Z := _ ← ty_equal l r; Some Bool.
Definition ty_select (c t f : option Z) : option Z :=
  c ← c; if c =? Bool then ty_equal t f else None.
Definition ty_read (i : option Z) : option Z := _ ← i; Some Int8.

Fixpoint type_of (e : expr) : option Z :=
  match e with
  | EConstant v => if ap_wf v then Some (ap_width v) else None
  | ERead _ i => ty_read (type_of i)
  | ESelect c t f => ty_select (type_of c) (type_of t) (type_of f)
  | EConcat l r => ty_concat (type_of l) (type_of r)
  | EExtract e off w => ty_extract off w (type_of e)
  | EZExt e w | ESExt e w => ty_ext w (type_of e)
  | ENot e => type_of e
  | EArith _ l r => ty_equal (type_of l) (type_of r)
  | ECmp _ l r => ty_cmp (type_of l) (type_of r)
  end.

(** Inversion of the typing rules. *)
Lemma ty_equal_inv l r w : ty_equal l r = Some w -> l = Some w /\ r = Some w.
Proof.
  unfold ty_equal. destruct l as [a|], r as [b|]; try done. cbn.
  destruct (Z.eqb_spec a b) as [->|]; [|done]. by intros [= ->].
Qed.
Lemma ty_equal_same w : ty_equal (Some w) (Some w) = Some w.
Proof. unfold ty_equal. cbn. by rewrite Z.eqb_refl. Qed.
Lemma ty_cmp_inv l r w : ty_cmp l r = Some w -> w = Bool /\ exists u, l = Some u /\ r = Some u.
Proof.
  unfold ty_cmp. destruct (ty_equal l r) as [u|] eqn:E; [|done]. intros [= <-].
  apply ty_equal_inv in E. eauto.
Qed.
Lemma ty_cmp_same w : ty_cmp (Some w) (Some w) = Some Bool.
Proof. unfold ty_cmp. by rewrite ty_equal_same. Qed.
Lemma ty_concat_inv l r w : ty_concat l r = Some w ->
  exists a b, l = Some a /\ r = Some b /\ w = a + b.
Proof. unfold ty_concat. destruct l as [a|], r as [b|]; try done. cbn. intros [= <-]. eauto. Qed.
Lemma ty_extract_inv off w e u : ty_extract off w e = Some u ->
  u = w /\ exists a, e = Some a /\ 0 < w /\ 0 <= off /\ off + w <= a.
Proof.
  unfold ty_extract. destruct e as [a|]; [|done]. cbn.
  destruct ((0 <? w) && (0 <=? off) && (off + w <=? a)) eqn:E; [|done]. intros [= <-].
  split; [done|]. exists a. split; [done|]. lia.
Qed.
Lemma ty_extract_intro off w a : 0 < w -> 0 <= off -> off + w <= a ->
  ty_extract off w (Some a) = Some w.
Proof.
  intros. unfold ty_extract. cbn. by rewrite (proj2 (Z.ltb_lt 0 w)), (proj2 (Z.leb_le 0 off)),
    (proj2 (Z.leb_le (off + w) a)) by done.
Qed.
Lemma ty_ext_inv w e u : ty_ext w e = Some u -> u = w /\ exists a, e = Some a /\ a <= w.
Proof.
  unfold ty_ext. destruct e as [a|]; [|done]. cbn. destruct (Z.leb_spec a w); [|done].
  intros [= <-]. eauto.
Qed.
Lemma ty_ext_intro w a : a <= w -> ty_ext w (Some a) = Some w.
Proof. intros. unfold ty_ext. cbn. by rewrite (proj2 (Z.leb_le a w)). Qed.
Lemma ty_select_inv c t f w : ty_select c t f = Some w ->
  c = Some Bool /\ t = Some w /\ f = Some w.
Proof.
  unfold ty_select. destruct c as [a|]; [|done]. cbn. destruct (Z.eqb_spec a Bool) as [->|]; [|done].
  by intros []%ty_equal_inv.
Qed.
Lemma ty_select_intro w : ty_select (Some Bool) (Some w) (Some w) = Some w.
Proof. unfold ty_select. cbn. apply ty_equal_same. Qed.
Lemma ty_read_inv i w : ty_read i = Some w -> w = Int8 /\ exists u, i = Some u.
Proof. unfold ty_read. destruct i as [u|]; [|done]. intros [= <-]. eauto. Qed.
Lemma type_constant v w : type_of (EConstant v) = Some w <-> ap_wf v /\ ap_width v = w.
Proof. cbn. destruct (ap_wf v); cbn; [|by split; [|intros []]]. split; [by intros [= ->]|by intros [_ ->]]. Qed.

Ltac ty_inv :=
  repeat match goal with
  | H : ty_equal _ _ = Some _ |- _ => apply ty_equal_inv in H as [? ?]
  | H : ty_cmp _ _ = Some _ |- _ => apply ty_cmp_inv in H as (? & ? & ? & ?)
  | H : ty_concat _ _ = Some _ |- _ => apply ty_concat_inv in H as (? & ? & ? & ? & ?)
  | H : ty_extract _ _ _ = Some _ |- _ => apply ty_extract_inv in H as (? & ? & ? & ? & ? & ?)
  | H : ty_ext _ _ = Some _ |- _ => apply ty_ext_inv in H as (? & ? & ? & ?)
  | H : ty_select _ _ _ = Some _ |- _ => apply ty_select_inv in H as (? & ? & ?)
  | H : ty_read _ = Some _ |- _ => apply ty_read_inv in H as (? & ? & ?)
  | H : type_of (EConstant _) = Some _ |- _ => apply type_constant in H as [? ?]
  end.

(** A type is the width, which is positive. *)
Lemma type_width e w : type_of e = Some w -> getWidth e = w /\ 0 < w.
Proof.
  revert w. induction e; intros u Hu; cbn [type_of] in Hu; cbn [getWidth].
  1: change (type_of (EConstant value) = Some u) in Hu.
  all: ty_inv; subst;
    repeat match goal with IH : forall w, ?o = Some w -> _, H : ?o = Some _ |- _ =>
      destruct (IH _ H) as [? ?]; clear IH end; try (split; done || congruence || lia).
  split; [done|]. by apply wf_width.
Qed.

(** What has a value has a type. *)
Lemma eval_type σ e v : eval σ e = Some v -> type_of e = Some (ap_width v).
Proof.
  revert v. induction e; intros v' Hv; cbn [eval] in Hv;
    unfold ev_read, ev_select, ev_concat, ev_extract, ev_zext, ev_sext, ev_not, ev_arith,
      ev_cmp in Hv; ev_inv; cbn [type_of]; try by rewrite ?Hok.
  all: repeat match goal with IH : forall w, Some ?a = Some w -> _ |- _ =>
      rewrite (IH _ eq_refl); clear IH end.
  all: unfold arith_ok, extract_ok in *;
    repeat match goal with H : _ && _ = true |- _ => apply andb_true_iff in H as [? ?] end;
    repeat match goal with H : (_ =? _) = true |- _ => apply Z.eqb_eq in H end.
  - done.
  - rewrite H, H0. rewrite ty_select_intro. destruct (_ =? 0); congruence.
  - done.
  - cbn. apply ty_extract_intro; lia.
  - cbn. apply ty_ext_intro. lia.
  - cbn. apply ty_ext_intro. lia.
  - done.
  - rewrite <- H. by rewrite ty_equal_same.
  - rewrite Hok. by rewrite ty_cmp_same.
Qed.

(** The typing rules, for [auto]. *)
Section rules.
Implicit Types (e l r : expr) (w : Z).
Lemma type_read a i w : type_of i = Some w -> type_of (ERead a i) = Some Int8.
Proof. intros Hi. cbn. by rewrite Hi. Qed.
Lemma type_select c t f w : type_of c = Some Bool -> type_of t = Some w -> type_of f = Some w ->
  type_of (ESelect c t f) = Some w.
Proof. intros Hc Ht Hf. cbn. rewrite Hc, Ht, Hf. apply ty_select_intro. Qed.
Lemma type_concat l r a b : type_of l = Some a -> type_of r = Some b ->
  type_of (EConcat l r) = Some (a + b).
Proof. intros Hl Hr. cbn. by rewrite Hl, Hr. Qed.
Lemma type_extract e off w a : type_of e = Some a -> 0 < w -> 0 <= off -> off + w <= a ->
  type_of (EExtract e off w) = Some w.
Proof. intros He. cbn. rewrite He. apply ty_extract_intro. Qed.
Lemma type_zext e w a : type_of e = Some a -> a <= w -> type_of (EZExt e w) = Some w.
Proof. intros He. cbn. rewrite He. apply ty_ext_intro. Qed.
Lemma type_sext e w a : type_of e = Some a -> a <= w -> type_of (ESExt e w) = Some w.
Proof. intros He. cbn. rewrite He. apply ty_ext_intro. Qed.
Lemma type_not e w : type_of e = Some w -> type_of (ENot e) = Some w.
Proof. done. Qed.
Lemma type_arith k l r w : type_of l = Some w -> type_of r = Some w ->
  type_of (EArith k l r) = Some w.
Proof. intros Hl Hr. cbn. rewrite Hl, Hr. apply ty_equal_same. Qed.
Lemma type_cmp k l r w : type_of l = Some w -> type_of r = Some w ->
  type_of (ECmp k l r) = Some Bool.
Proof. intros Hl Hr. cbn. rewrite Hl, Hr. apply ty_cmp_same. Qed.
Lemma type_of_constant v : ap_wf v -> type_of (EConstant v) = Some (ap_width v).
Proof. intros. by apply type_constant. Qed.
Lemma type_alloc z w : 0 < w -> type_of (EConstant (CE_alloc z w)) = Some w.
Proof. intros. apply type_constant. split; [by apply ap_wf_wrap|done]. Qed.
End rules.

Create HintDb ktype discriminated.
#[export] Hint Resolve type_read type_select type_concat type_extract type_zext type_sext
  type_not type_arith type_cmp type_alloc : ktype.

(** Inversion of a typing, one node at a time. *)
Section inversion.
Implicit Types (e l r : expr) (w : Z).
Lemma type_read_inv a i w : type_of (ERead a i) = Some w -> w = Int8 /\ exists u, type_of i = Some u.
Proof. apply ty_read_inv. Qed.
Lemma type_select_inv c t f w : type_of (ESelect c t f) = Some w ->
  type_of c = Some Bool /\ type_of t = Some w /\ type_of f = Some w.
Proof. apply ty_select_inv. Qed.
Lemma type_concat_inv l r w : type_of (EConcat l r) = Some w ->
  exists a b, type_of l = Some a /\ type_of r = Some b /\ w = a + b.
Proof. apply ty_concat_inv. Qed.
Lemma type_extract_inv e off w u : type_of (EExtract e off w) = Some u ->
  u = w /\ exists a, type_of e = Some a /\ 0 < w /\ 0 <= off /\ off + w <= a.
Proof. apply ty_extract_inv. Qed.
Lemma type_zext_inv e w u : type_of (EZExt e w) = Some u ->
  u = w /\ exists a, type_of e = Some a /\ a <= w.
Proof. apply ty_ext_inv. Qed.
Lemma type_sext_inv e w u : type_of (ESExt e w) = Some u ->
  u = w /\ exists a, type_of e = Some a /\ a <= w.
Proof. apply ty_ext_inv. Qed.
Lemma type_arith_inv k l r w : type_of (EArith k l r) = Some w ->
  type_of l = Some w /\ type_of r = Some w.
Proof. apply ty_equal_inv. Qed.
Lemma type_cmp_inv k l r w : type_of (ECmp k l r) = Some w ->
  w = Bool /\ exists u, type_of l = Some u /\ type_of r = Some u.
Proof. apply ty_cmp_inv. Qed.
End inversion.

(** * Truth under an assignment *)

Definition evals (σ : assignment) (e : expr) (b : bool) : Prop := eval σ e = Some (bool_ap b).
Definition holds (σ : assignment) (e : expr) : Prop := evals σ e true.
Definition refuted (σ : assignment) (e : expr) : Prop := evals σ e false.
Definition boolean (σ : assignment) (e : expr) : Prop := exists b, evals σ e b.
Definition well_typed (e : expr) : Prop := type_of e = Some Bool.

Lemma evals_functional σ e b b' : evals σ e b -> evals σ e b' -> b = b'.
Proof. unfold evals. intros -> [= H']. by destruct b, b'. Qed.

Lemma boolean_well_typed σ e : boolean σ e -> well_typed e.
Proof. intros [b Hb]. by apply eval_type in Hb. Qed.

(** [klee::ConstraintSet] *)
Definition ConstraintSet : Type := list expr.
