(* ===== verification/KCreate.v ===== *)
(** The [create] functions of KLEE's expressions (klee/lib/Expr/Expr.cpp): every node is
    built by a function of its class that folds constants and applies local rewriting
    rules.  They are a second expression builder, used when an expression is rebuilt with
    other operands.  An assertion of these functions (operands of different widths) is a
    precondition. *)
From S2P Require Import Prelude Bits APInt KExpr KBuilder.

(** The macros [BCREATE] and [CMPCREATE]: constants are folded, everything else goes to
    one static function. *)
Definition unless_constant (fold : apint -> apint -> expr) (create : expr -> expr -> expr)
    (l r : expr) : expr :=
  match l, r with EConstant cl, EConstant cr => fold cl cr | _, _ => create l r end.

Section create.
Context `{APInt}.

(** * Conjunction and disjunction *)

Definition AndExpr_createPartial (l : expr) (cr : apint) : expr :=
  if isAllOnes cr then l else if isZero cr then EConstant cr
  else EArith Kind.And l (EConstant cr).
Definition AndExpr_createPartialR (cl : apint) (r : expr) : expr := AndExpr_createPartial r cl.
Definition AndExpr_create : expr -> expr -> expr :=
  specialize2 (fold_arith Kind.And) AndExpr_createPartialR AndExpr_createPartial
    (EArith Kind.And).

Definition OrExpr_createPartial (l : expr) (cr : apint) : expr :=
  if isAllOnes cr then EConstant cr else if isZero cr then l
  else EArith Kind.Or l (EConstant cr).
Definition OrExpr_createPartialR (cl : apint) (r : expr) : expr := OrExpr_createPartial r cl.
Definition OrExpr_create : expr -> expr -> expr :=
  specialize2 (fold_arith Kind.Or) OrExpr_createPartialR OrExpr_createPartial
    (EArith Kind.Or).

(** * Equality *)

(** The static [EqExpr_create]; [TryConstArrayOpt] calls nothing else on a symbolic
    array. *)
Definition EqExpr_alloc (l r : expr) : expr :=
  if decide (l = r) then EConstant (CE_alloc 1 Bool) else ECmp Kind.Eq l r.

(** [EqExpr::create] of an expression and a constant, with the rules for a constant and
    a non-constant. *)
Definition eq_constant (partialR : apint -> expr -> expr) (e : expr) (c : apint) : expr :=
  match e with EConstant l => fold_cmp Kind.Eq l c | _ => partialR c e end.

(** [0 == (0 == A)] is [A]: whether a constant is the false of the inner equality. *)
Definition is_false_bool (CE : apint) : bool := (ap_width CE =? Bool) && isFalse CE.

Fixpoint EqExpr_createPartialR (cl : apint) (r : expr) {struct r} : expr :=
  let width := ap_width cl in
  let other := EqExpr_alloc (EConstant cl) r in
  if width =? Bool then
    if isTrue cl then r else
    match r with
    | ECmp Kind.Eq (EConstant CE) e => if is_false_bool CE then e else other
    | EArith Kind.Or e1 e2 =>
        AndExpr_create
          (eq_constant EqExpr_createPartialR e1 (CE_alloc 0 (getWidth e1)))
          (eq_constant EqExpr_createPartialR e2 (CE_alloc 0 (getWidth e2)))
    | _ => other
    end
  else
    match r with
    | ESExt src _ =>
        let trunc := CE_ZExt cl (getWidth src) in
        if decide (cl = CE_SExt trunc width) then eq_constant EqExpr_createPartialR src trunc
        else EConstant (CE_alloc 0 Bool)
    | EZExt src _ =>
        let trunc := CE_ZExt cl (getWidth src) in
        if decide (cl = CE_ZExt trunc width) then eq_constant EqExpr_createPartialR src trunc
        else EConstant (CE_alloc 0 Bool)
    | EArith Kind.Add (EConstant c) e => EqExpr_createPartialR (CE_arith Kind.Sub cl c) e
    | EArith Kind.Sub (EConstant c) e => EqExpr_createPartialR (CE_arith Kind.Sub c cl) e
    | _ => other
    end.
Definition EqExpr_createPartial (l : expr) (cr : apint) : expr := EqExpr_createPartialR cr l.

Definition EqExpr_create : expr -> expr -> expr :=
  specialize2 (fold_cmp Kind.Eq) EqExpr_createPartialR EqExpr_createPartial EqExpr_alloc.

(** [Expr::createIsZero] *)
Definition Expr_createIsZero (e : expr) : expr :=
  EqExpr_create e (EConstant (CE_alloc 0 (getWidth e))).

(** * Exclusive or *)

Definition XorExpr_createPartialR (cl : apint) (r : expr) : expr :=
  if isZero cl then r
  else if ap_width cl =? Bool then EqExpr_createPartial r (CE_alloc 0 Bool)
  else EArith Kind.Xor (EConstant cl) r.
Definition XorExpr_createPartial (l : expr) (cr : apint) : expr := XorExpr_createPartialR cr l.
Definition XorExpr_create : expr -> expr -> expr :=
  specialize2 (fold_arith Kind.Xor) XorExpr_createPartialR XorExpr_createPartial
    (EArith Kind.Xor).

(** * Sums and differences *)

(** [AddExpr_createPartialR] ([sub = false]) and [SubExpr_createPartialR]; the constants
    of two levels are merged and [create] is called on the rest, which is folded when it
    is a constant, too. *)
Fixpoint addsub_createPartialR (sub : bool) (cl : apint) (r : expr) {struct r} : expr :=
  let create sub c e :=
    match e with
    | EConstant v => fold_arith (addsub_kind sub) c v
    | _ => addsub_createPartialR sub c e
    end in
  if ap_width cl =? Bool then XorExpr_createPartialR cl r
  else if negb sub && isZero cl then r
  else
    match r with
    | EArith Kind.Add (EConstant c) kid => create sub (CE_arith (addsub_kind sub) cl c) kid
    | EArith Kind.Sub (EConstant c) kid =>
        create (negb sub) (CE_arith (addsub_kind sub) cl c) kid
    | _ => EArith (addsub_kind sub) (EConstant cl) r
    end.

(** [AddExpr::create] and [SubExpr::create] of a constant and an expression, of an
    expression and a constant: [l - c] is [-c + l]. *)
Definition addsub_cn (sub : bool) (c : apint) (e : expr) : expr :=
  match e with
  | EConstant v => fold_arith (addsub_kind sub) c v
  | _ => addsub_createPartialR sub c e
  end.
Definition addsub_createPartial (sub : bool) (l : expr) (cr : apint) : expr :=
  if sub then addsub_createPartialR false (CE_arith Kind.Sub (CE_alloc 0 (ap_width cr)) cr) l
  else addsub_createPartialR false cr l.
Definition addsub_nc (sub : bool) (e : expr) (c : apint) : expr :=
  match e with
  | EConstant v => fold_arith (addsub_kind sub) v c
  | _ => addsub_createPartial sub e c
  end.

(** The static [AddExpr_create] and [SubExpr_create], on two non-constants, with the calls
    of [create] they make on non-constants. *)
Definition AddExpr_create_nn (Add Sub : expr -> expr -> option expr) (l r : expr) :
    option expr :=
  if getWidth l =? Bool then Some (XorExpr_create l r) else
  match l with
  | EArith Kind.Add (EConstant k) a => e ← Add a r; Some (addsub_cn false k e)
  | EArith Kind.Sub (EConstant k) a => e ← Sub r a; Some (addsub_cn false k e)
  | _ =>
      match r with
      | EArith Kind.Add (EConstant k) b => e ← Add l b; Some (addsub_cn false k e)
      | EArith Kind.Sub (EConstant k) b => e ← Sub l b; Some (addsub_cn false k e)
      | _ => Some (EArith Kind.Add l r)
      end
  end.
Definition SubExpr_create_nn (Add Sub : expr -> expr -> option expr) (l r : expr) :
    option expr :=
  if getWidth l =? Bool then Some (XorExpr_create l r) else
  if decide (l = r) then Some (EConstant (CE_alloc 0 (getWidth l))) else
  match l with
  | EArith Kind.Add (EConstant k) a => e ← Sub a r; Some (addsub_cn false k e)
  | EArith Kind.Sub (EConstant k) a => e ← Add a r; Some (addsub_cn true k e)
  | _ =>
      match r with
      | EArith Kind.Add (EConstant k) b => e ← Sub l b; Some (addsub_nc true e k)
      | EArith Kind.Sub (EConstant k) b => e ← Add l b; Some (addsub_nc true e k)
      | _ => Some (EArith Kind.Sub l r)
      end
  end.

(** [AddExpr::create] and [SubExpr::create]; the recursion runs on fuel; the default of
    [addsub_create] is not reached, [addsub_create_from_returns]. *)
Fixpoint addsub_create_from (fuel : nat) (sub : bool) (l r : expr) : option expr :=
  match fuel with
  | O => None
  | S fuel =>
      let Add := addsub_create_from fuel false in
      let Sub := addsub_create_from fuel true in
      specialize2 (fun l r => Some (fold_arith (addsub_kind sub) l r))
        (fun l r => Some (addsub_createPartialR sub l r))
        (fun l r => Some (addsub_createPartial sub l r))
        ((if sub then SubExpr_create_nn else AddExpr_create_nn) Add Sub) l r
  end.
Definition addsub_create_fuel (l r : expr) : nat := S (weight l + weight r).
Definition addsub_create (sub : bool) (l r : expr) : expr :=
  default (EArith (addsub_kind sub) l r)
    (addsub_create_from (addsub_create_fuel l r) sub l r).

(** * The other arithmetic *)

Definition MulExpr_createPartialR (cl : apint) (r : expr) : expr :=
  if ap_width cl =? Bool then AndExpr_createPartialR cl r
  else if isOne cl then r else if isZero cl then EConstant cl
  else EArith Kind.Mul (EConstant cl) r.
Definition MulExpr_createPartial (l : expr) (cr : apint) : expr := MulExpr_createPartialR cr l.
Definition MulExpr_create : expr -> expr -> expr :=
  specialize2 (fold_arith Kind.Mul) MulExpr_createPartialR MulExpr_createPartial
    (fun l r => EArith (if getWidth l =? Bool then Kind.And else Kind.Mul) l r).

(** The operators without partial rules, on operands that are not both constant. *)
Definition bool_arith (k : Kind.arith) (l r : expr) : expr :=
  match k with
  | Kind.UDiv | Kind.SDiv => l
  | Kind.URem | Kind.SRem => EConstant (CE_alloc 0 Bool)
  | Kind.Shl | Kind.LShr => AndExpr_create l (Expr_createIsZero r)
  | Kind.AShr => l
  | _ => EArith k l r
  end.
Definition BCREATE (k : Kind.arith) (l r : expr) : expr :=
  unless_constant (fold_arith k)
    (fun l r => if getWidth l =? Bool then bool_arith k l r else EArith k l r) l r.

Definition arith_create (k : Kind.arith) : expr -> expr -> expr :=
  match k with
  | Kind.Add => addsub_create false
  | Kind.Sub => addsub_create true
  | Kind.Mul => MulExpr_create
  | Kind.And => AndExpr_create
  | Kind.Or => OrExpr_create
  | Kind.Xor => XorExpr_create
  | _ => BCREATE k
  end.

(** * Comparisons *)

Definition bool_cmp (k : Kind.cmp) (l r : expr) : expr :=
  match k with
  | Kind.Ult => AndExpr_create (Expr_createIsZero l) r
  | Kind.Ule => OrExpr_create (Expr_createIsZero l) r
  | Kind.Slt => AndExpr_create l (Expr_createIsZero r)
  | Kind.Sle => OrExpr_create l (Expr_createIsZero r)
  | _ => ECmp k l r
  end.
Definition CMPCREATE (k : Kind.cmp) (l r : expr) : expr :=
  unless_constant (fold_cmp k)
    (fun l r => if getWidth l =? Bool then bool_cmp k l r else ECmp k l r) l r.

Definition cmp_create (k : Kind.cmp) (l r : expr) : expr :=
  match k with
  | Kind.Eq => EqExpr_create l r
  | Kind.Ne => EqExpr_create (EConstant (CE_alloc 0 Bool)) (EqExpr_create l r)
  | Kind.Ugt => CMPCREATE Kind.Ult r l
  | Kind.Uge => CMPCREATE Kind.Ule r l
  | Kind.Sgt => CMPCREATE Kind.Slt r l
  | Kind.Sge => CMPCREATE Kind.Sle r l
  | _ => CMPCREATE k l r
  end.

(** * Structure *)

Definition SelectExpr_create (c t f : expr) : expr :=
  match c with
  | EConstant CE => if isTrue CE then t else f
  | _ =>
      if decide (t = f) then t
      else if getWidth t =? Bool then
        match t, f with
        | EConstant CE, _ =>
            if isTrue CE then OrExpr_create c f else AndExpr_create (Expr_createIsZero c) f
        | _, EConstant CE =>
            if isTrue CE then OrExpr_create (Expr_createIsZero c) t else AndExpr_create c t
        | _, _ => ESelect c t f
        end
      else ESelect c t f
  end.

(** [ConcatExpr::create], with the [ExtractExpr::create] it calls to merge contiguous
    extracts. *)
Definition ConcatExpr_create_with (extract : expr -> Z -> Z -> option expr) (l r : expr) :
    option expr :=
  match l, r with
  | EConstant lCE, EConstant rCE => Some (EConstant (CE_Concat lCE rCE))
  | EExtract el lo _, EExtract er ro rw =>
      if decide (el = er /\ ro + rw = lo) then extract el ro (getWidth l + getWidth r)
      else Some (EConcat l r)
  | _, _ => Some (EConcat l r)
  end.

Fixpoint ExtractExpr_create_from (fuel : nat) (e : expr) (off w : Z) : option expr :=
  match fuel with
  | O => None
  | S fuel =>
      let create := ExtractExpr_create_from fuel in
      if w =? getWidth e then Some e else
      match e with
      | EConstant CE => Some (EConstant (CE_Extract CE off w))
      | EConcat l r =>
          if getWidth r <=? off then create l (off - getWidth r) w
          else if off + w <=? getWidth r then create r off w
          else
            l' ← create l 0 (w - getWidth r + off);
            r' ← create r off (getWidth r - off);
            ConcatExpr_create_with create l' r'
      | _ => Some (EExtract e off w)
      end
  end.

(** The size of an expression, which bounds the recursion
    ([ExtractExpr_create_from_returns]). *)
Fixpoint expr_size (e : expr) : nat :=
  match e with
  | EConstant _ => 1
  | ERead _ i => S (expr_size i)
  | ESelect c t f => S (expr_size c + expr_size t + expr_size f)
  | EConcat l r | EArith _ l r | ECmp _ l r => S (expr_size l + expr_size r)
  | EExtract e _ _ | EZExt e _ | ESExt e _ | ENot e => S (expr_size e)
  end.

Definition ExtractExpr_create (e : expr) (off w : Z) : expr :=
  default (EExtract e off w) (ExtractExpr_create_from (expr_size e) e off w).
Definition ConcatExpr_create (l r : expr) : expr :=
  default (EConcat l r)
    (ConcatExpr_create_with (fun e off w => Some (ExtractExpr_create e off w)) l r).

Definition NotExpr_create (e : expr) : expr :=
  match e with EConstant CE => EConstant (CE_Not CE) | _ => ENot e end.
Definition ZExtExpr_create (e : expr) (w : Z) : expr :=
  if w =? getWidth e then e else if w <? getWidth e then ExtractExpr_create e 0 w
  else match e with EConstant CE => EConstant (CE_ZExt CE w) | _ => EZExt e w end.
Definition SExtExpr_create (e : expr) (w : Z) : expr :=
  if w =? getWidth e then e else if w <? getWidth e then ExtractExpr_create e 0 w
  else match e with EConstant CE => EConstant (CE_SExt CE w) | _ => ESExt e w end.

(** [ReadExpr::create] with an empty update list on a symbolic array only allocates. *)
Definition ReadExpr_create (root : Array) (index : expr) : expr := ERead root index.

Definition CreateBuilder : ExprBuilder := {|
  bArith := arith_create; bCmp := cmp_create; bNot := NotExpr_create;
  bSelect := SelectExpr_create; bConcat := ConcatExpr_create;
  bExtract := ExtractExpr_create; bZExt := ZExtExpr_create; bSExt := SExtExpr_create;
|}.

(** * Rebuilding a node with other operands *)

(** [getKid] of every index below [getNumKids]. *)
Definition getKids (e : expr) : list expr :=
  match e with
  | EConstant _ => []
  | ERead _ i => [i]
  | ESelect c t f => [c; t; f]
  | EConcat l r | EArith _ l r | ECmp _ l r => [l; r]
  | EExtract e _ _ | EZExt e _ | ESExt e _ | ENot e => [e]
  end.

(** [rebuild] of each class: [create] with the node's attributes. *)
Definition rebuild (e : expr) (kids : list expr) : expr :=
  match e, kids with
  | ERead a _, [i] => ReadExpr_create a i
  | ESelect _ _ _, [c; t; f] => SelectExpr_create c t f
  | EConcat _ _, [l; r] => ConcatExpr_create l r
  | EExtract _ off w, [e] => ExtractExpr_create e off w
  | EZExt _ w, [e] => ZExtExpr_create e w
  | ESExt _ w, [e] => SExtExpr_create e w
  | ENot _, [e] => NotExpr_create e
  | EArith k _ _, [l; r] => arith_create k l r
  | ECmp k _ _, [l; r] => cmp_create k l r
  | _, _ => e
  end.
End create.
