(* ===== verification/KCreateShape.v ===== *)
(** The [create] functions build well-typed expressions that are not bulkier than their
    operands, whatever rules apply: what the termination of their clients rests on. *)
From S2P Require Import Prelude Bits APInt KExpr KBuilder KBuilderSound KType KCreate.

(** The non-constant part of an expression: constants weigh nothing, everything else at
    least one. *)
Fixpoint bulk (e : expr) : nat :=
  match e with
  | EConstant _ => 0
  | ERead _ i => S (bulk i)
  | ESelect c t f => Nat.max 1 (bulk c + bulk t + bulk f)
  | EConcat l r | EArith _ l r | ECmp _ l r => Nat.max 1 (bulk l + bulk r)
  | EExtract e _ _ | EZExt e _ | ESExt e _ | ENot e => Nat.max 1 (bulk e)
  end.

Lemma bulk_pos e : is_const e = false -> (1 <= bulk e)%nat.
Proof. destruct e; cbn; intros; (done || lia). Qed.

(** Well-typed at [w], with a bulk of at most [n]. *)
Definition shaped (w : Z) (n : nat) (e : expr) : Prop :=
  type_of e = Some w /\ (bulk e <= n)%nat.

Lemma shaped_le w n n' e : shaped w n e -> (n <= n')%nat -> shaped w n' e.
Proof. intros [? ?] ?. split; [done|lia]. Qed.
Lemma shaped_self w e : type_of e = Some w -> shaped w (bulk e) e.
Proof. by split. Qed.
Lemma shaped_constant w n v : type_of (EConstant v) = Some w -> shaped w n (EConstant v).
Proof. intros. split; [done|cbn; lia]. Qed.
Lemma shaped_alloc z w n : 0 < w -> shaped w n (EConstant (CE_alloc z w)).
Proof. intros. by apply shaped_constant, type_alloc. Qed.

Ltac bind_inv :=
  repeat match goal with
  | H : mbind _ ?m = Some _ |- _ =>
      let E := fresh "Hbind" in destruct m eqn:E; cbn [mbind option_bind] in H; [|discriminate H]
  | H : Some _ = Some _ |- _ => injection H as <-
  end.

Ltac bulk_facts :=
  repeat match goal with H : is_const _ = false |- _ => apply bulk_pos in H end.
Ltac shape :=
  bulk_facts; split; [eauto with ktype|cbn [bulk] in *; lia].

(** The [create] functions without partial rules. *)
Lemma unless_constant_cases (P : expr -> Prop) fold create l r :
  (forall a b, l = EConstant a -> r = EConstant b -> P (fold a b)) ->
  (is_const l = false \/ is_const r = false -> P (create l r)) ->
  P (unless_constant fold create l r).
Proof. intros Hcc Hnn. destruct l; [destruct r; [by apply Hcc|by apply Hnn; right..]|by apply Hnn; left..]. Qed.

Section shape.
Context `{Laws : APIntLaws}.

(** * Constants *)

Lemma fold_arith_type k a b w :
  type_of (EConstant a) = Some w -> type_of (EConstant b) = Some w ->
  type_of (fold_arith k a b) = Some w.
Proof.
  intros [Ha <-]%type_constant [Hb Hw]%type_constant. apply type_constant.
  by apply ap_arith_type_law.
Qed.
Lemma fold_cmp_type k a b : type_of (fold_cmp k a b) = Some Bool.
Proof. by apply type_alloc. Qed.
Lemma CE_ZExt_type v a w : type_of (EConstant v) = Some a -> 0 < w ->
  type_of (EConstant (CE_ZExt v w)) = Some w.
Proof.
  intros [Hv _]%type_constant Hw. apply type_constant. unfold CE_ZExt.
  rewrite ap_zextOrTrunc_law by done. split; [by apply ap_wf_wrap|done].
Qed.
Lemma CE_SExt_type v a w : type_of (EConstant v) = Some a -> 0 < w ->
  type_of (EConstant (CE_SExt v w)) = Some w.
Proof.
  intros [Hv _]%type_constant Hw. apply type_constant. unfold CE_SExt.
  rewrite ap_sextOrTrunc_law by done. split; [by apply ap_wf_wrap|done].
Qed.
Lemma CE_Not_type v w : type_of (EConstant v) = Some w -> type_of (EConstant (CE_Not v)) = Some w.
Proof.
  intros [Hv <-]%type_constant. apply type_constant. unfold CE_Not.
  rewrite ap_not_law by done. split; [by apply ap_wf_wrap, wf_width|done].
Qed.
Lemma CE_Concat_type l r a b : type_of (EConstant l) = Some a -> type_of (EConstant r) = Some b ->
  type_of (EConstant (CE_Concat l r)) = Some (a + b).
Proof.
  intros [Hl <-]%type_constant [Hr <-]%type_constant. apply type_constant.
  rewrite CE_Concat_spec by done. split; [by apply concat_spec_wf|done].
Qed.
Lemma CE_Extract_type v a off w : type_of (EConstant v) = Some a ->
  0 < w -> 0 <= off -> off + w <= a -> type_of (EConstant (CE_Extract v off w)) = Some w.
Proof.
  intros [Hv <-]%type_constant ???. apply type_constant.
  rewrite CE_Extract_spec by first [done|by apply extract_ok_spec].
  split; [by apply ap_wf_wrap|done].
Qed.

(** * Conjunction, disjunction, equality, exclusive or *)

Lemma fold_arith_shape k a b w n :
  type_of (EConstant a) = Some w -> type_of (EConstant b) = Some w ->
  shaped w n (fold_arith k a b).
Proof. intros. by apply shaped_constant, fold_arith_type. Qed.
Lemma fold_cmp_shape k a b n : shaped Bool n (fold_cmp k a b).
Proof. apply shaped_constant, fold_cmp_type. Qed.

Lemma AndPartial_shape l c w :
  type_of l = Some w -> type_of (EConstant c) = Some w -> is_const l = false ->
  shaped w (bulk l) (AndExpr_createPartial l c).
Proof. intros. unfold AndExpr_createPartial. repeat case_match; shape. Qed.
Lemma OrPartial_shape l c w :
  type_of l = Some w -> type_of (EConstant c) = Some w -> is_const l = false ->
  shaped w (bulk l) (OrExpr_createPartial l c).
Proof. intros. unfold OrExpr_createPartial. repeat case_match; shape. Qed.

Ltac binary := apply specialize2_cases; intros; subst.

Lemma And_shape l r w : type_of l = Some w -> type_of r = Some w ->
  shaped w (bulk l + bulk r) (AndExpr_create l r).
Proof.
  intros. unfold AndExpr_create. binary; [by apply fold_arith_shape| | |shape];
    (eapply shaped_le; [by apply AndPartial_shape|cbn; lia]).
Qed.
Lemma Or_shape l r w : type_of l = Some w -> type_of r = Some w ->
  shaped w (bulk l + bulk r) (OrExpr_create l r).
Proof.
  intros. unfold OrExpr_create. binary; [by apply fold_arith_shape| | |shape];
    (eapply shaped_le; [by apply OrPartial_shape|cbn; lia]).
Qed.

Lemma EqExpr_alloc_shape l r w : type_of l = Some w -> type_of r = Some w ->
  shaped Bool (Nat.max 1 (bulk l + bulk r)) (EqExpr_alloc l r).
Proof.
  intros. unfold EqExpr_alloc. destruct (decide _); [by apply shaped_alloc|shape].
Qed.

Lemma eq_constant_shape f e c :
  shaped Bool (Nat.max 1 (bulk e)) (f c e) -> shaped Bool (bulk e) (eq_constant f e c).
Proof.
  intros Hf. destruct e; try (by apply fold_cmp_shape);
    (eapply shaped_le; [exact Hf|]; cbn; lia).
Qed.

Lemma EqPartialR_shape r : forall cl w, type_of (EConstant cl) = Some w -> type_of r = Some w ->
  shaped Bool (Nat.max 1 (bulk r)) (EqExpr_createPartialR cl r).
Proof.
  induction r; intros cl w Hcl Hr; cbn [EqExpr_createPartialR];
    match goal with |- shaped _ (Nat.max 1 (bulk ?r)) _ =>
      assert (shaped Bool (Nat.max 1 (bulk r)) (EqExpr_alloc (EConstant cl) r)) as Hother
        by (eapply EqExpr_alloc_shape; eassumption);
      assert (ap_width cl = Bool -> shaped Bool (Nat.max 1 (bulk r)) r) as Hself
    end; try (intros Hb; apply type_constant in Hcl as [? ?]; split; [congruence|lia]);
    (destruct (Z.eqb_spec (ap_width cl) Bool) as [Hw|Hw]; [destruct (isTrue cl); [by apply Hself|]|]);
    try exact Hother.
  - apply type_zext_inv in Hr as (-> & a & Ha & Hle). destruct (type_width _ _ Ha) as [Hwa Hpos].
    destruct (decide _); [|by apply shaped_alloc]. eapply shaped_le.
    + apply eq_constant_shape. eapply IHr; [|exact Ha]. rewrite Hwa. by eapply CE_ZExt_type.
    + cbn. lia.
  - apply type_sext_inv in Hr as (-> & a & Ha & Hle). destruct (type_width _ _ Ha) as [Hwa Hpos].
    destruct (decide _); [|by apply shaped_alloc]. eapply shaped_le.
    + apply eq_constant_shape. eapply IHr; [|exact Ha]. rewrite Hwa. by eapply CE_ZExt_type.
    + cbn. lia.
  - destruct k; try exact Hother. apply type_arith_inv in Hr as [Hl Hr].
    destruct (type_width _ _ Hl) as [Hwl Hpos], (type_width _ _ Hr) as [Hwr _].
    apply type_constant in Hcl as [_ Hcl]. rewrite Hcl in Hw. subst w.
    rewrite Hw in Hl, Hr, Hpos. rewrite Hwl, Hwr, Hw.
    pose proof (fun z => type_alloc z Bool Hpos) as Hc.
    destruct (eq_constant_shape _ _ _ (IHr1 _ _ (Hc 0) Hl)) as [H1 B1].
    destruct (eq_constant_shape _ _ _ (IHr2 _ _ (Hc 0) Hr)) as [H2 B2].
    eapply shaped_le; [by apply And_shape|cbn; lia].
  - destruct k; try exact Hother.
    + destruct r1; try exact Hother. apply type_arith_inv in Hr as [Hl Hr].
      eapply shaped_le; [eapply IHr2; [by apply fold_arith_type|exact Hr]|cbn; lia].
    + destruct r1; try exact Hother. apply type_arith_inv in Hr as [Hl Hr].
      eapply shaped_le; [eapply IHr2; [by apply fold_arith_type|exact Hr]|cbn; lia].
  - destruct k; try exact Hother. destruct r1; try exact Hother.
    destruct (is_false_bool value) eqn:Hf; [|exact Hother].
    unfold is_false_bool in Hf. apply andb_true_iff in Hf as [Hwv%Z.eqb_eq _].
    apply type_cmp_inv in Hr as (-> & u & [_ Hu]%type_constant & Hr).
    split; [congruence|cbn; lia].
Qed.

Lemma Eq_shape l r w : type_of l = Some w -> type_of r = Some w ->
  shaped Bool (bulk l + bulk r) (EqExpr_create l r).
Proof.
  intros. unfold EqExpr_create. binary; bulk_facts.
  - apply fold_cmp_shape.
  - eapply shaped_le; [by eapply EqPartialR_shape|cbn; lia].
  - eapply shaped_le; [by eapply EqPartialR_shape|cbn; lia].
  - eapply shaped_le; [by eapply EqExpr_alloc_shape|lia].
Qed.

Lemma isZero_shape e w : type_of e = Some w -> shaped Bool (bulk e) (Expr_createIsZero e).
Proof.
  intros He. destruct (type_width _ _ He) as [Hw Hpos]. unfold Expr_createIsZero.
  eapply shaped_le; [eapply Eq_shape; [exact He|]|cbn; lia].
  rewrite Hw. by apply type_alloc.
Qed.

Lemma XorPartialR_shape cl r w : type_of (EConstant cl) = Some w -> type_of r = Some w ->
  shaped w (Nat.max 1 (bulk r)) (XorExpr_createPartialR cl r).
Proof.
  intros Hcl Hr. unfold XorExpr_createPartialR. destruct (isZero cl); [shape|].
  destruct (Z.eqb_spec (ap_width cl) Bool) as [Hw|]; [|shape].
  pose proof Hcl as [_ Hc]%type_constant. rewrite <- Hc, Hw in *.
  eapply EqPartialR_shape; [by apply type_alloc|exact Hr].
Qed.

Lemma Xor_shape l r w : type_of l = Some w -> type_of r = Some w ->
  shaped w (bulk l + bulk r) (XorExpr_create l r).
Proof.
  intros. unfold XorExpr_create. binary; [by apply fold_arith_shape| | |shape]; bulk_facts;
    (eapply shaped_le; [by apply XorPartialR_shape|cbn; lia]).
Qed.

(** * Sums and differences *)

Lemma addsub_PartialR_shape r : forall sub cl w,
  type_of (EConstant cl) = Some w -> type_of r = Some w ->
  shaped w (Nat.max 1 (bulk r)) (addsub_createPartialR sub cl r).
Proof.
  induction r; intros sub cl w Hcl Hr; cbn [addsub_createPartialR];
    (destruct (_ =? Bool); [by apply XorPartialR_shape|]);
    (destruct (negb sub && isZero cl); [shape|]); try shape.
  destruct k; try shape; (destruct r1; try shape);
    apply type_arith_inv in Hr as [Hl Hr];
    (eapply shaped_le with (n := bulk r2); [|cbn; lia]);
    (destruct r2;
      [by apply fold_arith_shape; [apply fold_arith_type|]|
       eapply shaped_le; [apply IHr2; [by apply fold_arith_type|exact Hr]|cbn; lia]..]).
Qed.

Lemma addsub_cn_shape sub c e w : type_of (EConstant c) = Some w -> type_of e = Some w ->
  shaped w (bulk e) (addsub_cn sub c e).
Proof.
  intros Hc He. destruct e; [by apply fold_arith_shape|..];
    (eapply shaped_le; [by apply addsub_PartialR_shape|cbn; lia]).
Qed.
Lemma addsub_Partial_shape sub e c w : type_of (EConstant c) = Some w -> type_of e = Some w ->
  shaped w (Nat.max 1 (bulk e)) (addsub_createPartial sub e c).
Proof.
  intros Hc He. unfold addsub_createPartial.
  destruct sub; apply addsub_PartialR_shape; try done.
  destruct (type_width _ _ Hc) as [Hw Hpos]. apply fold_arith_type; [|done].
  pose proof Hc as [_ ->]%type_constant. by apply type_alloc.
Qed.
Lemma addsub_nc_shape sub e c w : type_of (EConstant c) = Some w -> type_of e = Some w ->
  shaped w (bulk e) (addsub_nc sub e c).
Proof.
  intros Hc He. destruct e; [by apply fold_arith_shape|..];
    (eapply shaped_le; [by apply addsub_Partial_shape|cbn; lia]).
Qed.

(** The calls of the static functions on non-constants, by cases. *)
Lemma AddExpr_create_nn_cases Add Sub l r (P : option expr -> Prop) :
  (getWidth l = Bool -> P (Some (XorExpr_create l r))) ->
  (forall k a, l = EArith Kind.Add (EConstant k) a -> P (e ← Add a r; Some (addsub_cn false k e))) ->
  (forall k a, l = EArith Kind.Sub (EConstant k) a -> P (e ← Sub r a; Some (addsub_cn false k e))) ->
  (forall k b, r = EArith Kind.Add (EConstant k) b -> P (e ← Add l b; Some (addsub_cn false k e))) ->
  (forall k b, r = EArith Kind.Sub (EConstant k) b -> P (e ← Sub l b; Some (addsub_cn false k e))) ->
  P (Some (EArith Kind.Add l r)) ->
  P (AddExpr_create_nn Add Sub l r).
Proof.
  intros. unfold AddExpr_create_nn. destruct (Z.eqb_spec (getWidth l) Bool); [by auto|].
  repeat case_match; subst; auto.
Qed.
Lemma SubExpr_create_nn_cases Add Sub l r (P : option expr -> Prop) :
  (getWidth l = Bool -> P (Some (XorExpr_create l r))) ->
  (l = r -> P (Some (EConstant (CE_alloc 0 (getWidth l))))) ->
  (forall k a, l = EArith Kind.Add (EConstant k) a -> P (e ← Sub a r; Some (addsub_cn false k e))) ->
  (forall k a, l = EArith Kind.Sub (EConstant k) a -> P (e ← Add a r; Some (addsub_cn true k e))) ->
  (forall k b, r = EArith Kind.Add (EConstant k) b -> P (e ← Sub l b; Some (addsub_nc true e k))) ->
  (forall k b, r = EArith Kind.Sub (EConstant k) b -> P (e ← Add l b; Some (addsub_nc true e k))) ->
  P (Some (EArith Kind.Sub l r)) ->
  P (SubExpr_create_nn Add Sub l r).
Proof.
  intros. unfold SubExpr_create_nn. destruct (Z.eqb_spec (getWidth l) Bool); [by auto|].
  destruct (decide (l = r)); [by auto|]. repeat case_match; subst; auto.
Qed.

(** What the calls of [create] on parts of the operands give. *)
Definition smaller_shapes (f : expr -> expr -> option expr) : Prop :=
  forall l r e w, f l r = Some e -> type_of l = Some w -> type_of r = Some w ->
    shaped w (bulk l + bulk r) e.

Ltac nn_shape :=
  intros; subst; bind_inv; bulk_facts;
  repeat match goal with
  | H : type_of (EArith _ (EConstant _) _) = Some _ |- _ => apply type_arith_inv in H as [? ?]
  | _ : type_of _ = Some ?w, Hs : smaller_shapes ?f, H : ?f _ _ = Some _ |- _ =>
      destruct (Hs _ _ _ w H) as [? ?]; [assumption..|]; clear H
  end;
  first
    [ by apply shaped_alloc
    | by (split; [eauto with ktype|cbn in *; lia])
    | eapply shaped_le; [by apply addsub_cn_shape|cbn in *; lia]
    | eapply shaped_le; [by apply addsub_nc_shape|cbn in *; lia]
    | by apply Xor_shape ].

Lemma AddExpr_create_nn_shape Add Sub : smaller_shapes Add -> smaller_shapes Sub ->
  forall l r e w, is_const l = false -> is_const r = false ->
    AddExpr_create_nn Add Sub l r = Some e ->
    type_of l = Some w -> type_of r = Some w -> shaped w (bulk l + bulk r) e.
Proof.
  intros HA HS l r e w Hl Hr. apply AddExpr_create_nn_cases; nn_shape.
Qed.

Lemma SubExpr_create_nn_shape Add Sub : smaller_shapes Add -> smaller_shapes Sub ->
  forall l r e w, is_const l = false -> is_const r = false ->
    SubExpr_create_nn Add Sub l r = Some e ->
    type_of l = Some w -> type_of r = Some w -> shaped w (bulk l + bulk r) e.
Proof.
  intros HA HS l r e w Hl Hr Hs Hlw. destruct (type_width _ _ Hlw) as [Hw Hpos].
  revert Hs. rewrite <- Hw in *. apply SubExpr_create_nn_cases; nn_shape.
Qed.

Lemma addsub_create_from_shape n sub : smaller_shapes (addsub_create_from n sub).
Proof.
  revert sub. induction n as [|n IH]; intros sub l r e w He Hl Hr; [done|].
  cbn [addsub_create_from] in He. revert He. apply specialize2_cases.
  - intros ? ? -> -> [= <-]. by apply fold_arith_shape.
  - intros ? -> Hc [= <-]. bulk_facts.
    eapply shaped_le; [by apply addsub_PartialR_shape|cbn; lia].
  - intros ? Hc -> [= <-]. bulk_facts.
    eapply shaped_le; [by apply addsub_Partial_shape|cbn; lia].
  - intros Hcl Hcr He. destruct sub.
    + eapply SubExpr_create_nn_shape in He; eauto.
    + eapply AddExpr_create_nn_shape in He; eauto.
Qed.

(** The recursion returns: every call on parts has less weight. *)
Lemma addsub_create_from_returns n : forall sub l r,
  (addsub_create_fuel l r <= n)%nat -> exists e, addsub_create_from n sub l r = Some e.
Proof.
  induction n as [|n IH]; intros sub l r Hn; [unfold addsub_create_fuel in Hn; lia|].
  cbn [addsub_create_from]. apply specialize2_cases; intros; subst; eauto.
  assert (forall sub l' r', (weight l' + weight r' < weight l + weight r)%nat ->
    exists e, addsub_create_from n sub l' r' = Some e) as Hs.
  { intros. apply IH. unfold addsub_create_fuel in *. lia. }
  destruct sub; [apply SubExpr_create_nn_cases|apply AddExpr_create_nn_cases];
    intros; subst; eauto;
    match goal with |- exists e, mbind _ (addsub_create_from n ?b ?l ?r) = Some e =>
      destruct (Hs b l r) as [? ->]; [cbn; lia|by eexists] end.
Qed.

Lemma addsub_create_shape sub l r w : type_of l = Some w -> type_of r = Some w ->
  shaped w (bulk l + bulk r) (addsub_create sub l r).
Proof.
  intros Hl Hr. unfold addsub_create.
  destruct (addsub_create_from_returns _ sub l r (le_n _)) as [e He].
  rewrite He. by eapply addsub_create_from_shape.
Qed.

(** * The other operators *)

Lemma Mul_shape l r w : type_of l = Some w -> type_of r = Some w ->
  shaped w (bulk l + bulk r) (MulExpr_create l r).
Proof.
  intros Hl Hr. unfold MulExpr_create. binary; [by apply fold_arith_shape| | |shape];
    unfold MulExpr_createPartial, MulExpr_createPartialR, AndExpr_createPartialR;
    (destruct (_ =? Bool); [eapply shaped_le; [by apply AndPartial_shape|cbn; lia]|]);
    repeat case_match; shape.
Qed.

Lemma bool_arith_shape k l r : type_of l = Some Bool -> type_of r = Some Bool ->
  is_const l = false \/ is_const r = false ->
  shaped Bool (bulk l + bulk r) (bool_arith k l r).
Proof.
  intros Hl Hr Hc. destruct (isZero_shape _ _ Hr) as [Hz Bz].
  destruct k; cbn [bool_arith]; try (by apply shaped_alloc);
    try (split; [done|lia]);
    try (eapply shaped_le; [by apply And_shape|lia]); destruct Hc; shape.
Qed.

Lemma BCREATE_shape k l r w : type_of l = Some w -> type_of r = Some w ->
  shaped w (bulk l + bulk r) (BCREATE k l r).
Proof.
  intros Hl Hr. destruct (type_width _ _ Hl) as [Hw _]. unfold BCREATE.
  apply unless_constant_cases; [intros; subst; by apply fold_arith_shape|intros Hc].
  destruct (Z.eqb_spec (getWidth l) Bool) as [Hb|]; [|by destruct Hc; shape].
  rewrite <- Hw, Hb in *. by apply bool_arith_shape.
Qed.

Lemma arith_create_shape k l r w : type_of l = Some w -> type_of r = Some w ->
  shaped w (bulk l + bulk r) (arith_create k l r).
Proof.
  intros. destruct k; cbn [arith_create];
    auto using addsub_create_shape, Mul_shape, And_shape, Or_shape, Xor_shape, BCREATE_shape.
Qed.

Lemma bool_cmp_shape k l r : type_of l = Some Bool -> type_of r = Some Bool ->
  is_const l = false \/ is_const r = false ->
  shaped Bool (bulk l + bulk r) (bool_cmp k l r).
Proof.
  intros Hl Hr Hc. destruct (isZero_shape _ _ Hl) as [Hzl Bl], (isZero_shape _ _ Hr) as [Hzr Br].
  destruct k; cbn [bool_cmp];
    try (eapply shaped_le; [by first [apply And_shape|apply Or_shape]|lia]); destruct Hc; shape.
Qed.

Lemma CMPCREATE_shape k l r w : type_of l = Some w -> type_of r = Some w ->
  shaped Bool (bulk l + bulk r) (CMPCREATE k l r).
Proof.
  intros Hl Hr. destruct (type_width _ _ Hl) as [Hw _]. unfold CMPCREATE.
  apply unless_constant_cases; [intros; subst; by apply fold_cmp_shape|intros Hc].
  destruct (Z.eqb_spec (getWidth l) Bool) as [Hb|]; [|by destruct Hc; shape].
  rewrite <- Hw, Hb in *. by apply bool_cmp_shape.
Qed.

Lemma cmp_create_shape k l r w : type_of l = Some w -> type_of r = Some w ->
  shaped Bool (bulk l + bulk r) (cmp_create k l r).
Proof.
  intros Hl Hr. destruct k; cbn [cmp_create];
    try (by eapply CMPCREATE_shape); try (by eapply Eq_shape);
    try (rewrite Nat.add_comm; by eapply CMPCREATE_shape).
  destruct (Eq_shape _ _ _ Hl Hr) as [He Be].
  eapply shaped_le; [eapply Eq_shape; [by apply type_alloc|exact He]|cbn; lia].
Qed.

Lemma Not_shape e w : type_of e = Some w -> shaped w (bulk e) (NotExpr_create e).
Proof.
  intros He. destruct (is_const e) eqn:Hc; destruct e; try done; cbn [NotExpr_create];
    try (by apply shaped_constant, CE_Not_type); shape.
Qed.

Lemma SelectExpr_create_cases c t f (P : expr -> Prop) :
  (forall CE, c = EConstant CE -> P (if isTrue CE then t else f)) ->
  (t = f -> P t) ->
  (forall CE, getWidth t = Bool -> t = EConstant CE ->
     P (if isTrue CE then OrExpr_create c f else AndExpr_create (Expr_createIsZero c) f)) ->
  (forall CE, getWidth t = Bool -> f = EConstant CE ->
     P (if isTrue CE then OrExpr_create (Expr_createIsZero c) t else AndExpr_create c t)) ->
  (is_const c = false -> P (ESelect c t f)) ->
  P (SelectExpr_create c t f).
Proof.
  intros Hc Hsame Ht Hf Hother. destruct (is_const c) eqn:Hcc.
  { destruct c; try done. by apply Hc. }
  assert (P (if decide (t = f) then t else if getWidth t =? Bool then
      match t, f with
      | EConstant CE, _ =>
          if isTrue CE then OrExpr_create c f else AndExpr_create (Expr_createIsZero c) f
      | _, EConstant CE =>
          if isTrue CE then OrExpr_create (Expr_createIsZero c) t else AndExpr_create c t
      | _, _ => ESelect c t f
      end else ESelect c t f)); [|by destruct c].
  destruct (decide (t = f)); [by auto|].
  destruct (Z.eqb_spec (getWidth t) Bool); [|by auto].
  destruct t; try (by apply Ht); destruct f; first [by apply Hf|by apply Hother].
Qed.

Lemma Select_shape c t f w :
  type_of c = Some Bool -> type_of t = Some w -> type_of f = Some w ->
  shaped w (bulk c + bulk t + bulk f) (SelectExpr_create c t f).
Proof.
  intros Hc Ht Hf. destruct (isZero_shape _ _ Hc) as [Hz Bz].
  destruct (type_width _ _ Ht) as [Hw _]. apply SelectExpr_create_cases; intros; subst.
  - case_match; shape.
  - shape.
  - rewrite H in *. case_match;
      (eapply shaped_le; [by first [apply Or_shape|apply And_shape]|cbn; lia]).
  - rewrite H in *. case_match;
      (eapply shaped_le; [by first [apply Or_shape|apply And_shape]|cbn; lia]).
  - shape.
Qed.

(** * Extraction and concatenation *)

Definition extract_shapes (f : expr -> Z -> Z -> option expr) : Prop :=
  forall e off w r a, f e off w = Some r -> type_of e = Some a ->
    0 < w -> 0 <= off -> off + w <= a -> shaped w (bulk e) r.

Lemma ConcatExpr_create_with_cases f l r (P : option expr -> Prop) :
  (forall a b, l = EConstant a -> r = EConstant b -> P (Some (EConstant (CE_Concat a b)))) ->
  (forall e lo lw ro rw, l = EExtract e lo lw -> r = EExtract e ro rw -> ro + rw = lo ->
     P (f e ro (lw + rw))) ->
  (is_const l = false \/ is_const r = false -> P (Some (EConcat l r))) ->
  P (ConcatExpr_create_with f l r).
Proof.
  intros Hc Hm Ho. destruct l; try (by apply Ho; left).
  - destruct r; try (by apply Ho; right). by apply Hc.
  - destruct r; try (by apply Ho; left). cbn [ConcatExpr_create_with getWidth].
    destruct (decide _) as [[-> ?]|]; [by eapply Hm|by apply Ho; left].
Qed.

Lemma ConcatExpr_create_with_shape f l r e a b : extract_shapes f ->
  ConcatExpr_create_with f l r = Some e -> type_of l = Some a -> type_of r = Some b ->
  shaped (a + b) (bulk l + bulk r) e.
Proof.
  intros Hf. apply ConcatExpr_create_with_cases; intros; subst; bind_inv.
  - by apply shaped_constant, CE_Concat_type.
  - repeat match goal with H : type_of _ = Some _ |- _ =>
      apply type_extract_inv in H as (-> & ? & ? & ? & ? & ?) end.
    match goal with H : type_of ?e = Some ?x, H' : type_of ?e = Some ?y |- _ =>
      rewrite H in H'; injection H' as <- end.
    eapply shaped_le; [eapply Hf; [eassumption|eassumption|lia..]|cbn; lia].
  - match goal with H : _ \/ _ |- _ => destruct H end; shape.
Qed.

Lemma ExtractExpr_create_from_shape n : extract_shapes (ExtractExpr_create_from n).
Proof.
  induction n as [|n IH]; intros e off w r a Hr He Hw Hoff Hle; [done|].
  cbn [ExtractExpr_create_from] in Hr. destruct (type_width _ _ He) as [Hwe _].
  destruct (Z.eqb_spec w (getWidth e)) as [->|]; [injection Hr as <-; rewrite Hwe; shape|].
  destruct e; try (injection Hr as <-; shape).
  { by eapply CE_Extract_type. }
  apply type_concat_inv in He as (x & y & Hx & Hy & ->).
  destruct (type_width _ _ Hx) as [Hwx _], (type_width _ _ Hy) as [Hwy _]. rewrite Hwy in Hr.
  destruct (Z.leb_spec y off).
  { eapply shaped_le; [eapply IH; [exact Hr|exact Hx|lia..]|cbn; lia]. }
  destruct (Z.leb_spec (off + w) y).
  { eapply shaped_le; [eapply IH; [exact Hr|exact Hy|lia..]|cbn; lia]. }
  bind_inv. destruct (IH _ _ _ _ _ Hbind Hx) as [Hl Bl]; [lia..|].
  destruct (IH _ _ _ _ _ Hbind0 Hy) as [Hr' Br]; [lia..|].
  replace w with ((w - y + off) + (y - off)) by lia.
  eapply shaped_le; [by eapply ConcatExpr_create_with_shape|cbn; lia].
Qed.

(** The operand of an extract, for the size of what is merged. *)
Definition inner_size (e : expr) : nat :=
  match e with EExtract e _ _ => expr_size e | _ => 0 end.

Lemma ConcatExpr_create_with_returns f l r n :
  (forall e off w, (expr_size e <= n)%nat ->
     exists x, f e off w = Some x /\ (inner_size x <= expr_size e)%nat) ->
  (inner_size l <= n)%nat ->
  exists x, ConcatExpr_create_with f l r = Some x /\ (inner_size x <= inner_size l)%nat.
Proof.
  intros Hf. apply ConcatExpr_create_with_cases; intros; subst; cbn [inner_size] in *;
    try (eexists; split; [done|cbn; lia]).
  edestruct Hf as (x & Hx & ?); [eassumption|]. exists x. split; [exact Hx|lia].
Qed.

Lemma ExtractExpr_create_from_returns n : forall e off w, (expr_size e <= n)%nat ->
  exists x, ExtractExpr_create_from n e off w = Some x /\ (inner_size x <= expr_size e)%nat.
Proof.
  induction n as [|n IH]; intros e off w Hn; [destruct e; cbn in Hn; lia|].
  cbn [ExtractExpr_create_from].
  destruct (_ =? _); [eexists; split; [done|]; destruct e; cbn; lia|].
  destruct e; try (eexists; split; [done|]; cbn; lia). cbn [expr_size] in *.
  destruct (_ <=? _); [edestruct IH as (x & -> & ?); [|by exists x; split; [|lia]]; lia|].
  destruct (_ <=? _); [edestruct IH as (x & -> & ?); [|by exists x; split; [|lia]]; lia|].
  edestruct (IH e1) as (x & -> & ?); [lia|]. edestruct (IH e2) as (y & -> & ?); [lia|].
  cbn [mbind option_bind].
  edestruct (ConcatExpr_create_with_returns (ExtractExpr_create_from n) x y n) as (z & -> & ?);
    [by intros; apply IH|lia|]. exists z. split; [done|]. lia.
Qed.

Lemma Extract_shape e off w a : type_of e = Some a -> 0 < w -> 0 <= off -> off + w <= a ->
  shaped w (bulk e) (ExtractExpr_create e off w).
Proof.
  intros. unfold ExtractExpr_create.
  destruct (ExtractExpr_create_from_returns _ e off w (le_n _)) as (x & Hx & _). rewrite Hx.
  by eapply ExtractExpr_create_from_shape.
Qed.

Lemma Concat_shape l r a b : type_of l = Some a -> type_of r = Some b ->
  shaped (a + b) (bulk l + bulk r) (ConcatExpr_create l r).
Proof.
  intros Hl Hr. unfold ConcatExpr_create.
  set (f := fun e off w => Some (ExtractExpr_create e off w)).
  assert (extract_shapes f) as Hf.
  { intros e off w x y [= <-] ????. by eapply Extract_shape. }
  destruct (ConcatExpr_create_with f l r) eqn:E.
  - by eapply ConcatExpr_create_with_shape in E.
  - exfalso. revert E. by apply ConcatExpr_create_with_cases.
Qed.

Lemma ZExt_shape e w a : type_of e = Some a -> a <= w -> shaped w (bulk e) (ZExtExpr_create e w).
Proof.
  intros He Ha. destruct (type_width _ _ He) as [Hw Hpos]. unfold ZExtExpr_create. rewrite Hw.
  destruct (Z.eqb_spec w a) as [->|]; [shape|]. destruct (Z.ltb_spec w a); [lia|].
  destruct (is_const e) eqn:Hc; destruct e; try done; try shape.
  eapply CE_ZExt_type; [exact He|lia].
Qed.

Lemma SExt_shape e w a : type_of e = Some a -> a <= w -> shaped w (bulk e) (SExtExpr_create e w).
Proof.
  intros He Ha. destruct (type_width _ _ He) as [Hw Hpos]. unfold SExtExpr_create. rewrite Hw.
  destruct (Z.eqb_spec w a) as [->|]; [shape|]. destruct (Z.ltb_spec w a); [lia|].
  destruct (is_const e) eqn:Hc; destruct e; try done; try shape.
  eapply CE_SExt_type; [exact He|lia].
Qed.

(** * Rebuilding *)

Definition same_type (e e' : expr) : Prop := type_of e' = type_of e.
Definition total_bulk (es : list expr) : nat := sum_list (bulk <$> es).

Lemma shaped_lt w n m e : shaped w n e -> (n < m)%nat -> type_of e = Some w /\ (bulk e < m)%nat.
Proof. intros [? ?] ?. split; [done|lia]. Qed.

Ltac kid_types :=
  repeat match goal with
  | H : type_of ?x = type_of ?y, H' : type_of ?y = Some _ |- _ => rewrite H' in H
  end.

(** Rebuilding a node with operands of the same types keeps its type, and lighter operands
    make a lighter node. *)
Lemma rebuild_shape e kids w : type_of e = Some w -> is_const e = false ->
  Forall2 same_type (getKids e) kids ->
  (total_bulk kids < total_bulk (getKids e))%nat ->
  type_of (rebuild e kids) = Some w /\ (bulk (rebuild e kids) < bulk e)%nat.
Proof.
  intros He Hc Hk Hlt. unfold same_type in Hk.
  destruct e; try done; cbn [getKids] in *;
    repeat match goal with
    | H : Forall2 _ (_ :: _) _ |- _ => apply Forall2_cons_inv_l in H as (? & ? & ? & ? & ->)
    | H : Forall2 _ [] _ |- _ => apply Forall2_nil_inv_l in H as ->
    end;
    unfold total_bulk in Hlt; cbn in Hlt; cbn [rebuild bulk].
  - apply type_read_inv in He as (-> & u & Hu). kid_types.
    split; [by eapply type_read|unfold ReadExpr_create; cbn; lia].
  - apply type_select_inv in He as (? & ? & ?). kid_types.
    eapply shaped_lt; [by eapply Select_shape|lia].
  - apply type_concat_inv in He as (? & ? & ? & ? & ->). kid_types.
    eapply shaped_lt; [by eapply Concat_shape|lia].
  - apply type_extract_inv in He as (-> & ? & ? & ? & ? & ?). kid_types.
    eapply shaped_lt; [by eapply Extract_shape|lia].
  - apply type_zext_inv in He as (-> & ? & ? & ?). kid_types.
    eapply shaped_lt; [by eapply ZExt_shape|lia].
  - apply type_sext_inv in He as (-> & ? & ? & ?). kid_types.
    eapply shaped_lt; [by eapply SExt_shape|lia].
  - cbn [type_of] in He. kid_types. eapply shaped_lt; [by eapply Not_shape|lia].
  - apply type_arith_inv in He as [? ?]. kid_types.
    eapply shaped_lt; [by eapply arith_create_shape|lia].
  - apply type_cmp_inv in He as (-> & ? & ? & ?). kid_types.
    eapply shaped_lt; [by eapply cmp_create_shape|lia].
Qed.
End shape.
