(* ===== verification/KCreateSound.v ===== *)
(** The [create] functions keep the value of the node they build: they implement the
    interface of the expression builders, and rebuilding a node keeps its value. *)
From S2P Require Import Prelude Bits APInt KExpr KBuilder KBuilderSound KType KCreate KCreateShape.

(** * Facts of arithmetic *)

(** Comparing the extension of a value with a constant is comparing the value with the
    truncated constant, if that extends to the constant. *)
Lemma ext_rule (ext : apint -> apint) w a cl :
  ap_wf a -> ap_wf cl -> ap_width cl = w ->
  (forall x, ap_wf x -> ap_width x = ap_width a ->
     ap_width (ext x) = w /\ wrap (ap_width a) (ap_val (ext x)) = ap_val x) ->
  let trunc := AP (ap_width a) (wrap (ap_width a) (ap_val cl)) in
  (ap_val cl =? ap_val (ext a)) = if decide (cl = ext trunc) then ap_val a =? ap_val trunc else false.
Proof.
  intros Ha Hcl Hw Hext trunc. destruct (Hext a Ha eq_refl) as [Hwa Hta].
  assert (ap_val cl = ap_val (ext a) -> trunc = a) as Htrunc.
  { intros Hv. unfold trunc. rewrite Hv, Hta. by destruct a. }
  destruct (decide (cl = ext trunc)) as [Hd|Hd].
  - destruct (Z.eqb_spec (ap_val cl) (ap_val (ext a))) as [Hv|Hv].
    + rewrite Htrunc by done. by rewrite Z.eqb_refl.
    + symmetry. apply Z.eqb_neq. intros Ht. apply Hv. rewrite Hd at 1. do 2 f_equal.
      unfold trunc in *. cbn in Ht. rewrite <- Ht. by destruct a.
  - apply Z.eqb_neq. intros Hv. apply Hd. rewrite (Htrunc Hv). destruct cl, (ext a).
    cbn in *. congruence.
Qed.

Lemma add_eq_rule w x c y : 0 <= x < 2 ^ w -> 0 <= y < 2 ^ w ->
  (x =? wrap w (c + y)) = (wrap w (x - c) =? y).
Proof.
  intros Hx Hy. apply eq_true_iff_eq. rewrite !Z.eqb_eq. split.
  - intros ->. rewrite <- (wrap_small w y) at 2 by done. change (eqm w (wrap w (c + y) - c) y).
    rewrite eqm_wrap. unfold eqm. f_equal. lia.
  - intros <-. rewrite <- (wrap_small w x) at 1 by done. change (eqm w x (c + wrap w (x - c))).
    rewrite eqm_wrap. unfold eqm. f_equal. lia.
Qed.
Lemma sub_eq_rule w x c y : 0 <= x < 2 ^ w -> 0 <= y < 2 ^ w ->
  (x =? wrap w (c - y)) = (wrap w (c - x) =? y).
Proof.
  intros Hx Hy. apply eq_true_iff_eq. rewrite !Z.eqb_eq. split.
  - intros ->. rewrite <- (wrap_small w y) at 2 by done. change (eqm w (c - wrap w (c - y)) y).
    rewrite eqm_wrap. unfold eqm. f_equal. lia.
  - intros <-. rewrite <- (wrap_small w x) at 1 by done. change (eqm w x (c - wrap w (c - x))).
    rewrite eqm_wrap. unfold eqm. f_equal. lia.
Qed.

Lemma ones_nonzero w : 0 < w -> Z.ones w <> 0.
Proof. intros. rewrite Z.ones_equiv. pose proof (Z.pow_gt_1 2 w). lia. Qed.

(** ** Bits of concatenations and extracts *)

Lemma concat_bit l r i : ap_wf l -> ap_wf r -> 0 <= i ->
  Z.testbit (ap_val (concat_spec l r)) i =
    if i <? ap_width r then Z.testbit (ap_val r) i else Z.testbit (ap_val l) (i - ap_width r).
Proof.
  intros Hl Hr Hi. cbn [concat_spec ap_val]. pose proof (wf_width _ Hr).
  rewrite Z.lor_spec, Z.shiftl_spec by lia. destruct (Z.ltb_spec i (ap_width r)).
  - by rewrite (Z.testbit_neg_r (ap_val l)) by lia.
  - rewrite (testbit_high (ap_width r) (ap_val r)) by (done || by apply wf_range).
    by rewrite orb_false_r.
Qed.
Lemma extract_bit v off w i : 0 <= w -> 0 <= off -> 0 <= i ->
  Z.testbit (ap_val (extract_spec v off w)) i = (i <? w) && Z.testbit (ap_val v) (i + off).
Proof. intros. cbn [extract_spec ap_val]. by rewrite wrap_spec, Z.shiftr_spec by lia. Qed.
Lemma apint_bits v v' : ap_width v = ap_width v' ->
  (forall i, 0 <= i -> Z.testbit (ap_val v) i = Z.testbit (ap_val v') i) -> v = v'.
Proof. destruct v, v'. cbn. intros -> H. f_equal. by apply Z.bits_inj'. Qed.

Lemma extract_merge v lo lw ro rw : 0 < lw -> 0 < rw -> 0 <= ro -> ro + rw = lo ->
  concat_spec (extract_spec v lo lw) (extract_spec v ro rw) = extract_spec v ro (lw + rw).
Proof.
  intros ??? <-. apply apint_bits; [done|]. intros i Hi.
  rewrite concat_bit by first [lia|by apply ap_wf_wrap].
  change (ap_width (extract_spec v ro rw)) with rw. destruct (Z.ltb_spec i rw).
  - rewrite !extract_bit by lia.
    by rewrite (proj2 (Z.ltb_lt i (lw + rw))), (proj2 (Z.ltb_lt i rw)) by lia.
  - rewrite !extract_bit by lia.
    replace (i - rw + (ro + rw)) with (i + ro) by lia. f_equal.
    apply eq_true_iff_eq. rewrite !Z.ltb_lt. lia.
Qed.
Lemma extract_concat_left l r off w : ap_wf l -> ap_wf r -> 0 < w -> ap_width r <= off ->
  extract_spec (concat_spec l r) off w = extract_spec l (off - ap_width r) w.
Proof.
  intros Hl Hr ??. pose proof (wf_width _ Hr). apply apint_bits; [done|]. intros i Hi.
  rewrite !extract_bit, concat_bit by (done || lia).
  rewrite (proj2 (Z.ltb_ge (i + off) _)) by lia. do 2 f_equal. lia.
Qed.
Lemma extract_concat_right l r off w : ap_wf l -> ap_wf r -> 0 < w -> 0 <= off ->
  off + w <= ap_width r -> extract_spec (concat_spec l r) off w = extract_spec r off w.
Proof.
  intros Hl Hr ???. apply apint_bits; [done|]. intros i Hi.
  rewrite !extract_bit, concat_bit by (done || lia).
  destruct (Z.ltb_spec i w); [|done]. by rewrite (proj2 (Z.ltb_lt (i + off) _)) by lia.
Qed.
Lemma extract_concat_both l r off w : ap_wf l -> ap_wf r -> 0 <= off ->
  off < ap_width r < off + w ->
  extract_spec (concat_spec l r) off w =
    concat_spec (extract_spec l 0 (w - ap_width r + off)) (extract_spec r off (ap_width r - off)).
Proof.
  intros Hl Hr ??. apply apint_bits; [cbn; lia|]. intros i Hi.
  rewrite extract_bit, !concat_bit by first [done|lia|apply ap_wf_wrap; lia].
  change (ap_width (extract_spec r off ?n)) with n. destruct (Z.ltb_spec i (ap_width r - off)).
  - rewrite extract_bit by lia. rewrite (proj2 (Z.ltb_lt i w)), (proj2 (Z.ltb_lt (i + off) _)),
      (proj2 (Z.ltb_lt i (ap_width r - off))) by lia. done.
  - rewrite extract_bit by lia. rewrite (proj2 (Z.ltb_ge (i + off) _)) by lia. f_equal.
    + apply eq_true_iff_eq. rewrite !Z.ltb_lt. lia.
    + f_equal. lia.
Qed.
Lemma extract_whole v : ap_wf v -> extract_spec v 0 (ap_width v) = v.
Proof.
  intros Hv. pose proof (wf_width _ Hv). apply apint_bits; [done|]. intros i Hi.
  rewrite extract_bit by lia. rewrite Z.add_0_r. destruct (Z.ltb_spec i (ap_width v)); [done|].
  symmetry. apply (testbit_high (ap_width v)); [by apply wf_range|done].
Qed.

(** * The value of a node, from the values of its operands *)

Section inversion.
Context (σ : assignment).
Lemma eval_arith_inv k l r v : eval σ (EArith k l r) = Some v ->
  exists a b, eval σ l = Some a /\ eval σ r = Some b /\ ap_width a = ap_width b /\
    v = AP (ap_width a) (arith_spec (ap_width a) k (ap_val a) (ap_val b)).
Proof.
  intros (a & b & Ha & Hb & Hok & Hv)%ev_arith_inv. exists a, b.
  unfold arith_ok in Hok. rewrite Is_true_true, andb_true_iff, Z.eqb_eq in Hok. tauto.
Qed.
Lemma eval_cmp_inv k l r v : eval σ (ECmp k l r) = Some v ->
  exists a b, eval σ l = Some a /\ eval σ r = Some b /\ ap_width a = ap_width b /\
    v = bool_ap (cmp_spec (ap_width a) k (ap_val a) (ap_val b)).
Proof. apply ev_cmp_inv. Qed.
Lemma eval_concat_inv l r v : eval σ (EConcat l r) = Some v ->
  exists a b, eval σ l = Some a /\ eval σ r = Some b /\ v = concat_spec a b.
Proof. apply ev_concat_inv. Qed.
Lemma eval_extract_inv e off w v : eval σ (EExtract e off w) = Some v ->
  exists a, eval σ e = Some a /\ extract_ok a off w /\ v = extract_spec a off w.
Proof. apply ev_extract_inv. Qed.
Lemma eval_zext_inv e w v : eval σ (EZExt e w) = Some v ->
  exists a, eval σ e = Some a /\ ap_width a <= w /\ v = AP w (ap_val a).
Proof. apply ev_zext_inv. Qed.
Lemma eval_sext_inv e w v : eval σ (ESExt e w) = Some v ->
  exists a, eval σ e = Some a /\ ap_width a <= w /\ v = sext_spec a w.
Proof. apply ev_sext_inv. Qed.
Lemma eval_get_width e v : eval σ e = Some v -> getWidth e = ap_width v.
Proof. intros H. symmetry. by eapply eval_width. Qed.
End inversion.

Section sound.
Context `{Laws : APIntLaws} (σ : assignment).

(** * Conjunction and disjunction *)

Lemma all_ones_not_zero c v : eval σ (EConstant c) = Some v -> isAllOnes c = true ->
  isZero c = false.
Proof.
  intros [_ Hc%wf_width]%eval_constant_inv Ho%Z.eqb_eq. apply Z.eqb_neq. rewrite Ho.
  by apply ones_nonzero.
Qed.

Lemma AndPartial_sound l c v :
  ev_arith Kind.And (eval σ l) (eval σ (EConstant c)) = Some v ->
  eval σ (AndExpr_createPartial l c) = Some v.
Proof.
  rewrite ev_arith_comm by (unfold commutes; set_solver). intros Hv.
  pose proof (CF_bit_cn_sound σ _ c l v Hv) as Hs. cbn [CF_bit_cn] in Hs.
  pose proof Hv as (a & _ & Ha & _)%ev_arith_inv. pose proof (all_ones_not_zero _ _ Ha).
  unfold AndExpr_createPartial. destruct (isAllOnes c), (isZero c); try done; [by intuition|].
  cbn [eval]. by rewrite ev_arith_comm by (unfold commutes; set_solver).
Qed.

Lemma OrPartial_sound l c v :
  ev_arith Kind.Or (eval σ l) (eval σ (EConstant c)) = Some v ->
  eval σ (OrExpr_createPartial l c) = Some v.
Proof.
  rewrite ev_arith_comm by (unfold commutes; set_solver). intros Hv.
  pose proof (CF_bit_cn_sound σ _ c l v Hv) as Hs. cbn [CF_bit_cn] in Hs.
  pose proof Hv as (a & _ & Ha & _)%ev_arith_inv. pose proof (all_ones_not_zero _ _ Ha).
  unfold OrExpr_createPartial. destruct (isAllOnes c), (isZero c); try done; [by intuition|].
  cbn [eval]. by rewrite ev_arith_comm by (unfold commutes; set_solver).
Qed.

Lemma And_sound l r v : ev_arith Kind.And (eval σ l) (eval σ r) = Some v ->
  eval σ (AndExpr_create l r) = Some v.
Proof.
  unfold AndExpr_create. apply specialize2_cases; intros; subst;
    [by apply fold_arith_sound| |by apply AndPartial_sound|done].
  apply AndPartial_sound. by rewrite ev_arith_comm by (unfold commutes; set_solver).
Qed.
Lemma Or_sound l r v : ev_arith Kind.Or (eval σ l) (eval σ r) = Some v ->
  eval σ (OrExpr_create l r) = Some v.
Proof.
  unfold OrExpr_create. apply specialize2_cases; intros; subst;
    [by apply fold_arith_sound| |by apply OrPartial_sound|done].
  apply OrPartial_sound. by rewrite ev_arith_comm by (unfold commutes; set_solver).
Qed.

(** * Equality *)

Lemma EqExpr_alloc_sound l r v : ev_cmp Kind.Eq (eval σ l) (eval σ r) = Some v ->
  eval σ (EqExpr_alloc l r) = Some v.
Proof.
  unfold EqExpr_alloc. destruct (decide (l = r)) as [->|]; [|done].
  intros (a & b & Ha & Hb & _ & ->)%ev_cmp_inv. rewrite Ha in Hb. injection Hb as <-.
  cbn [cmp_spec]. by rewrite Z.eqb_refl.
Qed.

Lemma eq_constant_sound f e c v :
  (forall v, ev_cmp Kind.Eq (eval σ (EConstant c)) (eval σ e) = Some v -> eval σ (f c e) = Some v) ->
  ev_cmp Kind.Eq (eval σ (EConstant c)) (eval σ e) = Some v ->
  eval σ (eq_constant f e c) = Some v.
Proof.
  intros Hf Hv. destruct e; try (by apply Hf). apply fold_cmp_sound. by rewrite ev_eq_comm.
Qed.

(** Comparing a boolean with zero negates it. *)
Lemma eq_zero_bool b : ap_wf b -> ap_width b = Bool ->
  ev_cmp Kind.Eq (eval σ (EConstant (CE_alloc 0 Bool))) (Some b) = Some (not_spec b).
Proof. intros Hb Hw. rewrite (bool_value b) by done. by destruct (ap_val b =? 0). Qed.

Lemma eval_false : eval σ (EConstant (CE_alloc 0 Bool)) = Some (bool_ap false).
Proof. done. Qed.

(** The rules for extensions. *)
Lemma ext_rule_sound (node : expr -> Z -> expr) (ext : apint -> Z -> apint)
    (CE : apint -> Z -> apint) partialR cl src w v :
  (forall a, eval σ src = Some a -> forall b, eval σ (node src w) = Some b ->
     ap_width a <= w /\ b = ext a w) ->
  (forall x, ap_wf x -> ap_width x <= w -> CE x w = ext x w /\ ap_width (ext x w) = w /\
     wrap (ap_width x) (ap_val (ext x w)) = ap_val x) ->
  (exists a, eval σ src = Some a) ->
  (forall c v, ev_cmp Kind.Eq (eval σ (EConstant c)) (eval σ src) = Some v ->
     eval σ (partialR c src) = Some v) ->
  ev_cmp Kind.Eq (eval σ (EConstant cl)) (eval σ (node src w)) = Some v ->
  let trunc := CE_ZExt cl (getWidth src) in
  eval σ (if decide (cl = CE trunc (ap_width cl)) then eq_constant partialR src trunc
          else EConstant (CE_alloc 0 Bool)) = Some v.
Proof.
  intros Hnode Hext [a Ha] Hp (c & b & [-> Hcl]%eval_constant_inv & Hb & Hw & ->)%ev_cmp_inv trunc.
  destruct (Hnode a Ha b Hb) as [Hle ->]. pose proof (eval_wf _ _ _ Ha) as Hwf.
  destruct (Hext a Hwf Hle) as (_ & Hwe & _). rewrite Hwe in Hw.
  assert (trunc = AP (ap_width a) (wrap (ap_width a) (ap_val cl))) as Ht.
  { unfold trunc, CE_ZExt. rewrite (eval_get_width _ _ _ Ha).
    by apply ap_zextOrTrunc_law; [|apply wf_width]. }
  assert (ap_wf trunc) as Htwf by (rewrite Ht; by apply ap_wf_wrap, wf_width).
  rewrite Hw. destruct (Hext trunc Htwf) as (-> & _); [by rewrite Ht|].
  cbn [cmp_spec]. rewrite (ext_rule (fun x => ext x w) w a cl);
    [|done..|intros x Hx Hxw; rewrite <- Hxw; apply Hext; [done|lia]].
  rewrite <- Ht. destruct (decide (cl = ext trunc w)); [|done].
  apply eq_constant_sound; [apply Hp|]. rewrite Ha, eval_constant by done.
  rewrite ev_cmp_intro by (by rewrite Ht). cbn [cmp_spec]. by rewrite Z.eqb_sym.
Qed.

Lemma sext_trunc a w : ap_wf a -> ap_width a <= w ->
  wrap (ap_width a) (ap_val (sext_spec a w)) = ap_val a.
Proof.
  intros Ha Hle. pose proof (wf_width a Ha). pose proof (wf_range a Ha) as Hr.
  apply Z.bits_inj'. intros i Hi. cbn [sext_spec ap_val]. rewrite !wrap_spec by lia.
  destruct (Z.ltb_spec i (ap_width a)).
  - rewrite (proj2 (Z.ltb_lt i w)) by lia. cbn. rewrite swrap_spec by lia.
    by rewrite Z.min_l by lia.
  - symmetry. by apply (testbit_high (ap_width a)).
Qed.

Lemma EqPartialR_sound r : forall cl v,
  ev_cmp Kind.Eq (eval σ (EConstant cl)) (eval σ r) = Some v ->
  eval σ (EqExpr_createPartialR cl r) = Some v.
Proof.
  induction r; intros cl v Hv; cbn [EqExpr_createPartialR];
    pose proof (EqExpr_alloc_sound (EConstant cl) _ _ Hv) as Hother;
    pose proof Hv as (c & b & [-> Hcl]%eval_constant_inv & Hb & Hw & Hvb)%ev_cmp_inv;
    pose proof (eval_wf _ _ _ Hb) as Hwb;
    (destruct (Z.eqb_spec (ap_width cl) Bool) as [Hbool|Hbool];
     [rewrite Hbool in Hw; rewrite Hbool, ev_eq_bool in Hvb by done;
      destruct (isTrue cl); [by rewrite Hvb|]|]); try exact Hother.
  - pose proof Hb as (a & Ha & _ & _)%eval_zext_inv.
    refine (ext_rule_sound EZExt (fun a w => AP w (ap_val a)) CE_ZExt _ cl r width v _ _ _ IHr Hv).
    + intros x Hx y (x' & Hx' & ? & ->)%eval_zext_inv.
      rewrite Hx in Hx'. by injection Hx' as <-.
    + intros x Hx Hle. rewrite CE_ZExt_spec by done. cbn. rewrite wrap_small by (by apply wf_range).
      done.
    + by exists a.
  - pose proof Hb as (a & Ha & _ & _)%eval_sext_inv.
    refine (ext_rule_sound ESExt sext_spec CE_SExt _ cl r width v _ _ _ IHr Hv).
    + intros x Hx y (x' & Hx' & ? & ->)%eval_sext_inv.
      rewrite Hx in Hx'. by injection Hx' as <-.
    + intros x Hx Hle. rewrite CE_SExt_spec by done. by rewrite sext_trunc.
    + by exists a.
  - destruct k; try exact Hother.
    pose proof Hb as (x & y & Hx & Hy & Hok & _)%eval_arith_inv.
    pose proof (eval_wf _ _ _ Hx) as Hxwf. pose proof (eval_wf _ _ _ Hy) as Hywf.
    assert (ap_width x = Bool) as Hxw.
    { apply eval_width in Hb. cbn [getWidth] in Hb. rewrite (eval_get_width _ _ _ Hx) in Hb.
      congruence. }
    rewrite Hxw in Hok. symmetry in Hok.
    apply And_sound. rewrite (eval_get_width _ _ _ Hx), (eval_get_width _ _ _ Hy), Hxw, Hok.
    rewrite (eq_constant_sound _ r1 _ (not_spec x)), (eq_constant_sound _ r2 _ (not_spec y));
      [|intros; by apply IHr2|rewrite Hy; by apply eq_zero_bool
       |intros; by apply IHr1|rewrite Hx; by apply eq_zero_bool].
    subst v. apply (ev_not_or x y); [done..|]. cbn [eval] in Hb. rewrite <- Hx, <- Hy, Hb. done.
  - destruct k; try exact Hother; (destruct r1 as [c| | | | | | | | |]; try exact Hother);
      apply IHr2; subst v;
      pose proof Hb as (c' & y & [-> Hc]%eval_constant_inv & Hy & Hok & ->)%eval_arith_inv;
      rename Hok into Hcw; cbn [ap_width ap_val] in Hw;
      pose proof (wf_range _ Hcl); pose proof (wf_range _ (eval_wf _ _ _ Hy)) as Hyr;
      rewrite <- Hcw, <- Hw in Hyr;
      (rewrite CE_arith_spec by (done || by (unfold arith_ok; rewrite ?Hw, Z.eqb_refl)));
      rewrite Hy, eval_constant by (cbn; apply ap_wf_wrap, wf_width; done);
      (rewrite ev_cmp_intro by (cbn; congruence)); cbn [ap_width ap_val cmp_spec arith_spec];
      rewrite <- ?Hw; by rewrite add_eq_rule || by rewrite sub_eq_rule.
  - destruct k; try exact Hother. destruct r1 as [c| | | | | | | | |]; try exact Hother.
    destruct (is_false_bool c) eqn:Hf; [|exact Hother].
    unfold is_false_bool, isFalse in Hf. rewrite !andb_true_iff in Hf.
    destruct Hf as [Hcw%Z.eqb_eq [_ Hcv%Z.eqb_eq]].
    assert (c = CE_alloc 0 Bool) as -> by (destruct c; cbn in *; by subst).
    pose proof Hb as (c' & y & [-> _]%eval_constant_inv & Hy & Hyw & ->)%eval_cmp_inv.
    cbn in Hyw. symmetry in Hyw. rewrite Hy, (bool_value y) by first [done|by eapply eval_wf].
    subst v. rewrite (bool_value y) by first [done|by eapply eval_wf].
    by destruct (ap_val y =? 0).
Qed.

Lemma Eq_sound l r v : ev_cmp Kind.Eq (eval σ l) (eval σ r) = Some v ->
  eval σ (EqExpr_create l r) = Some v.
Proof.
  unfold EqExpr_create. apply specialize2_cases; intros; subst;
    [by apply fold_cmp_sound|by apply EqPartialR_sound| |by apply EqExpr_alloc_sound].
  apply EqPartialR_sound. by rewrite ev_eq_comm.
Qed.

Lemma isZero_sound e v : eval σ e = Some v ->
  eval σ (Expr_createIsZero e) = Some (bool_ap (ap_val v =? 0)).
Proof.
  intros He. pose proof (eval_wf _ _ _ He) as Hwf%wf_width. unfold Expr_createIsZero.
  rewrite (eval_get_width _ _ _ He). apply Eq_sound. rewrite He, eval_constant by by apply ap_wf_wrap.
  rewrite ev_cmp_intro by done. cbn. by rewrite wrap_small by (pose proof (Z.pow_pos_nonneg 2 (ap_width v)); lia).
Qed.

(** * Exclusive or, sums and differences *)

Lemma XorPartialR_sound cl r v :
  ev_arith Kind.Xor (eval σ (EConstant cl)) (eval σ r) = Some v ->
  eval σ (XorExpr_createPartialR cl r) = Some v.
Proof.
  intros Hv. pose proof (CF_bit_cn_sound σ _ _ _ _ Hv) as Hs. cbn [CF_bit_cn] in Hs.
  unfold XorExpr_createPartialR. destruct (isZero cl) eqn:Hz; [done|].
  destruct (Z.eqb_spec (ap_width cl) Bool) as [Hw|]; [|done].
  apply EqPartialR_sound.
  change (ev_arith Kind.Xor (eval σ (EConstant cl)) (eval σ r))
    with (eval σ (EArith Kind.Xor (EConstant cl) r)) in Hv.
  apply eval_arith_inv in Hv as (a & b & [-> Ha]%eval_constant_inv & Hb & Hab & ->).
  rewrite Hb, eq_zero_bool by first [by eapply eval_wf|congruence].
  rewrite Hw in Hab. pose proof (eval_wf _ _ _ Hb) as Hwb.
  unfold isZero in Hz. rewrite (bool_value cl), (bool_value b) by done.
  destruct (ap_val cl =? 0); [done|]. by destruct (ap_val b =? 0).
Qed.
Lemma Xor_sound l r v : ev_arith Kind.Xor (eval σ l) (eval σ r) = Some v ->
  eval σ (XorExpr_create l r) = Some v.
Proof.
  unfold XorExpr_create. apply specialize2_cases; intros; subst;
    [by apply fold_arith_sound|by apply XorPartialR_sound| |done].
  apply XorPartialR_sound. by rewrite ev_arith_comm by (unfold commutes; set_solver).
Qed.

(** One-bit sums and differences are exclusive ors. *)
Lemma den_one_bit sub x y : wrap 1 (den sub x y) = Z.lxor (wrap 1 x) (wrap 1 y).
Proof.
  assert (wrap 1 (den sub x y) = wrap 1 (den sub (wrap 1 x) (wrap 1 y))) as ->.
  { unfold den. destruct sub.
    - change (eqm 1 (x - y) (wrap 1 x - wrap 1 y)). by rewrite !eqm_wrap.
    - change (eqm 1 (x + y) (wrap 1 x + wrap 1 y)). by rewrite !eqm_wrap. }
  pose proof (wrap_range 1 x ltac:(lia)) as Hx. pose proof (wrap_range 1 y ltac:(lia)) as Hy.
  change (2 ^ 1) with 2 in *. generalize dependent (wrap 1 x). generalize dependent (wrap 1 y).
  intros b Hb a Ha. assert ((a = 0 \/ a = 1) /\ (b = 0 \/ b = 1)) as [[-> | ->] [-> | ->]] by lia;
    by destruct sub.
Qed.

Lemma vals_xor l r sub x y : vals σ l Bool x -> vals σ r Bool y ->
  exists v, ev_arith Kind.Xor (eval σ l) (eval σ r) = Some v /\
    v = AP Bool (wrap Bool (den sub x y)).
Proof.
  intros [_ ->] [_ ->]. rewrite ev_arith_intro by done. eexists. split; [done|]. cbn [ap_width ap_val].
  f_equal. symmetry. apply den_one_bit.
Qed.

Lemma addsub_PartialR_sound r : forall sub cl w x y,
  vals σ (EConstant cl) w x -> vals σ r w y ->
  vals σ (addsub_createPartialR sub cl r) w (den sub x y).
Proof.
  induction r; intros sub cl w x y Hcl Hr; cbn [addsub_createPartialR];
    pose proof (vals_constant _ _ _ _ Hcl) as (Hwf & Hc & Hpos);
    pose proof (vals_node σ sub _ _ _ _ _ Hcl Hr) as Hother;
    (destruct (Z.eqb_spec (ap_width cl) Bool) as [Hw|];
     [rewrite Hc in Hw; cbn in Hw; subst w; split; [done|];
      destruct (vals_xor _ _ sub _ _ Hcl Hr) as (v & Hv & ->); by apply XorPartialR_sound|]);
    (destruct (negb sub && isZero cl) eqn:Hz;
     [apply andb_true_iff in Hz as [Hs Hz]; destruct sub; [done|];
      pose proof (vals_zero _ _ _ _ Hcl Hz) as Hx; eapply vals_eqm; [exact Hr|];
      unfold den; by rewrite Hx|]); try exact Hother.
  assert (forall s c z z', vals σ (EConstant c) w z -> vals σ r2 w z' ->
    vals σ (match r2 with EConstant v => fold_arith (addsub_kind s) c v
            | _ => addsub_createPartialR s c r2 end) w (den s z z')) as Hcreate.
  { intros s c z z' Hz' Hz2. destruct r2; [by apply vals_fold|by apply IHr2..]. }
  destruct k; try exact Hother; (destruct r1 as [c| | | | | | | | |]; try exact Hother).
  - apply (vals_node_inv _ false) in Hr as (a & b & Ha & Hb & Hab).
    eapply vals_eqm; [apply Hcreate; [by apply vals_fold|exact Hb]|].
    unfold den in *. destruct sub; rewrite Hab; unfold eqm; f_equal; lia.
  - apply (vals_node_inv _ true) in Hr as (a & b & Ha & Hb & Hab).
    eapply vals_eqm; [apply Hcreate; [by apply vals_fold|exact Hb]|].
    unfold den in *. destruct sub; cbn [negb]; rewrite Hab; unfold eqm; f_equal; lia.
Qed.

Lemma addsub_cn_sound sub c e w x y : vals σ (EConstant c) w x -> vals σ e w y ->
  vals σ (addsub_cn sub c e) w (den sub x y).
Proof.
  intros Hc He. destruct e; [by apply vals_fold|by apply addsub_PartialR_sound..].
Qed.
Lemma addsub_Partial_sound sub e c w x y : vals σ e w x -> vals σ (EConstant c) w y ->
  vals σ (addsub_createPartial sub e c) w (den sub x y).
Proof.
  intros He Hc. pose proof (vals_constant _ _ _ _ Hc) as (Hwf & Hcv & Hpos).
  unfold addsub_createPartial. destruct sub.
  - assert (vals σ (EConstant (CE_alloc 0 (ap_width c))) w 0) as H0.
    { rewrite Hcv. by apply vals_alloc. }
    eapply vals_eqm; [eapply addsub_PartialR_sound; [exact (vals_fold σ true _ _ _ _ _ H0 Hc)|exact He]|].
    unfold den, eqm. f_equal. lia.
  - eapply vals_eqm; [by eapply addsub_PartialR_sound|]. unfold den, eqm. f_equal. lia.
Qed.
Lemma addsub_nc_sound sub e c w x y : vals σ e w x -> vals σ (EConstant c) w y ->
  vals σ (addsub_nc sub e c) w (den sub x y).
Proof.
  intros He Hc. destruct e; [by apply vals_fold|by apply addsub_Partial_sound..].
Qed.

Lemma vals_same e w x y : vals σ e w x -> vals σ e w y -> eqm w x y.
Proof. intros [_ Hx] [_ Hy]. rewrite Hx in Hy. by injection Hy. Qed.

Ltac nn_sound :=
  intros; subst; bind_inv;
  repeat match goal with
  | H : vals _ (EArith Kind.Add (EConstant _) _) _ _ |- _ =>
      apply (vals_node_inv _ false) in H as (? & ? & ? & ? & ?)
  | H : vals _ (EArith Kind.Sub (EConstant _) _) _ _ |- _ =>
      apply (vals_node_inv _ true) in H as (? & ? & ? & ? & ?)
  | Hs : rule_sound _ _ ?f, H : ?f ?l ?r = Some _, Hl : vals _ ?l _ _, Hr : vals _ ?r _ _ |- _ =>
      pose proof (Hs _ _ _ _ _ _ H Hl Hr); clear H
  end;
  eapply vals_eqm;
    [first [by eapply addsub_cn_sound|by eapply addsub_nc_sound
          |by eapply (vals_node _ false)|by eapply (vals_node _ true)]
    |unfold den in *; eqm_solve].

Lemma xor_vals l r sub w x y : getWidth l = Bool -> vals σ l w x -> vals σ r w y ->
  vals σ (XorExpr_create l r) w (den sub x y).
Proof.
  intros Hw Hl Hr. pose proof Hl as [Hpos Hle]. rewrite (eval_get_width _ _ _ Hle) in Hw. cbn in Hw.
  subst w. split; [done|]. destruct (vals_xor _ _ sub _ _ Hl Hr) as (v & Hv & ->).
  by apply Xor_sound.
Qed.

Lemma AddExpr_create_nn_sound Add Sub : rule_sound σ false Add -> rule_sound σ true Sub ->
  rule_sound σ false (AddExpr_create_nn Add Sub).
Proof.
  intros HA HS l r e w x y. revert e.
  apply (AddExpr_create_nn_cases _ _ _ _ (fun o => forall e, o = Some e -> vals σ l w x ->
    vals σ r w y -> vals σ e w (den false x y))); [|nn_sound..].
  intros Hw e [= <-] Hl Hr. by apply xor_vals.
Qed.

Lemma SubExpr_create_nn_sound Add Sub : rule_sound σ false Add -> rule_sound σ true Sub ->
  rule_sound σ true (SubExpr_create_nn Add Sub).
Proof.
  intros HA HS l r e w x y. revert e.
  apply (SubExpr_create_nn_cases _ _ _ _ (fun o => forall e, o = Some e -> vals σ l w x ->
    vals σ r w y -> vals σ e w (den true x y))); [| |nn_sound..].
  - intros Hw e [= <-] Hl Hr. by apply xor_vals.
  - intros -> e [= <-] Hl Hr. pose proof Hl as [Hpos Hle].
    rewrite (eval_get_width _ _ _ Hle). eapply vals_eqm; [by apply vals_alloc|].
    unfold den. rewrite (vals_same _ _ _ _ Hl Hr). unfold eqm. f_equal. lia.
Qed.

Lemma addsub_create_from_sound n sub : rule_sound σ sub (addsub_create_from n sub).
Proof.
  revert sub. induction n as [|n IH]; intros sub l r e w x y; [done|].
  cbn [addsub_create_from]. revert e. apply specialize2_cases.
  - intros ? ? -> -> e [= <-]. by apply vals_fold.
  - intros ? -> _ e [= <-]. by apply addsub_PartialR_sound.
  - intros ? _ -> e [= <-]. by apply addsub_Partial_sound.
  - intros _ _ e. destruct sub; [by apply SubExpr_create_nn_sound|by apply AddExpr_create_nn_sound].
Qed.

Lemma addsub_create_sound sub l r v :
  ev_arith (addsub_kind sub) (eval σ l) (eval σ r) = Some v ->
  eval σ (addsub_create sub l r) = Some v.
Proof.
  intros Hv. assert (eval σ (EArith (addsub_kind sub) l r) = Some v) as Hn by done.
  pose proof (vals_of_eval σ _ _ Hn) as (x & y & Hx & Hy & Hxy)%vals_node_inv.
  unfold addsub_create. destruct (addsub_create_from_returns _ sub l r (le_n _)) as [e He].
  rewrite He. cbn. destruct (addsub_create_from_sound _ sub l r e _ x y He Hx Hy) as [_ ->].
  rewrite <- Hxy, wrap_small by (by apply wf_range, (eval_wf σ _ _ Hn)).
  by destruct v.
Qed.

(** * The other operators *)

(** A one-bit operand as a boolean. *)
Lemma bool_operands l r a b : getWidth l = Bool -> eval σ l = Some a -> eval σ r = Some b ->
  ap_width a = ap_width b -> exists p q, a = bool_ap p /\ b = bool_ap q.
Proof.
  intros Hw Ha Hb Hab. rewrite (eval_get_width _ _ _ Ha) in Hw.
  exists (negb (ap_val a =? 0)), (negb (ap_val b =? 0)).
  split; apply bool_value; first [by eapply eval_wf|congruence].
Qed.

Lemma arith_ok_width k a b : arith_ok k a b -> ap_width a = ap_width b.
Proof. unfold arith_ok. rewrite Is_true_true, andb_true_iff, Z.eqb_eq. by intros [? _]. Qed.

Lemma bool_arith_sound k l r v : getWidth l = Bool ->
  k ∈ [Kind.UDiv; Kind.SDiv; Kind.URem; Kind.SRem; Kind.Shl; Kind.LShr; Kind.AShr] ->
  ev_arith k (eval σ l) (eval σ r) = Some v -> eval σ (bool_arith k l r) = Some v.
Proof.
  intros Hw Hk (a & b & Ha & Hb & Hok & ->)%ev_arith_inv.
  destruct (bool_operands _ _ _ _ Hw Ha Hb (arith_ok_width _ _ _ Hok)) as (p & q & -> & ->).
  assert (ev_arith Kind.And (Some (bool_ap p)) (eval σ (Expr_createIsZero r)) =
    Some (bool_ap (p && negb q))) as Hand.
  { rewrite (isZero_sound _ _ Hb). by destruct p, q. }
  rewrite !elem_of_cons in Hk.
  destruct Hk as [->|[->|[->|[->|[->|[->|[->|[]%not_elem_of_nil]]]]]]]; cbn [bool_arith];
    try (apply And_sound; rewrite Ha, Hand); try rewrite Ha;
    destruct p, q; first [done|by destruct Hok].
Qed.

Lemma BCREATE_sound k l r v :
  k ∈ [Kind.UDiv; Kind.SDiv; Kind.URem; Kind.SRem; Kind.Shl; Kind.LShr; Kind.AShr] ->
  ev_arith k (eval σ l) (eval σ r) = Some v -> eval σ (BCREATE k l r) = Some v.
Proof.
  intros Hk Hv. unfold BCREATE. apply unless_constant_cases; intros; subst.
  - by apply fold_arith_sound.
  - destruct (Z.eqb_spec (getWidth l) Bool); [by apply bool_arith_sound|done].
Qed.

Lemma ev_mul_bool l r v : getWidth l = Bool ->
  ev_arith Kind.Mul (eval σ l) (eval σ r) = Some v -> ev_arith Kind.And (eval σ l) (eval σ r) = Some v.
Proof.
  intros Hw (a & b & Ha & Hb & Hok & ->)%ev_arith_inv.
  destruct (bool_operands _ _ _ _ Hw Ha Hb (arith_ok_width _ _ _ Hok)) as (p & q & -> & ->).
  rewrite Ha, Hb. by destruct p, q.
Qed.

Lemma MulPartialR_sound cl r v :
  ev_arith Kind.Mul (eval σ (EConstant cl)) (eval σ r) = Some v ->
  eval σ (MulExpr_createPartialR cl r) = Some v.
Proof.
  intros Hv. pose proof (CF_bit_cn_sound σ _ _ _ _ Hv) as Hs. cbn [CF_bit_cn] in Hs.
  unfold MulExpr_createPartialR, AndExpr_createPartialR.
  destruct (Z.eqb_spec (ap_width cl) Bool) as [Hw|].
  - apply AndPartial_sound. rewrite ev_arith_comm by (unfold commutes; set_solver).
    by apply ev_mul_bool.
  - unfold isOne, isZero in *. destruct (Z.eqb_spec (ap_val cl) 1) as [H1|]; [|done].
    destruct (Z.eqb_spec (ap_val cl) 0); [lia|done].
Qed.
Lemma Mul_sound l r v : ev_arith Kind.Mul (eval σ l) (eval σ r) = Some v ->
  eval σ (MulExpr_create l r) = Some v.
Proof.
  unfold MulExpr_create. apply specialize2_cases; intros; subst.
  - by apply fold_arith_sound.
  - by apply MulPartialR_sound.
  - apply MulPartialR_sound. by rewrite ev_arith_comm by (unfold commutes; set_solver).
  - destruct (Z.eqb_spec (getWidth l) Bool); [by apply ev_mul_bool|done].
Qed.

Lemma arith_create_sound k l r v : ev_arith k (eval σ l) (eval σ r) = Some v ->
  eval σ (arith_create k l r) = Some v.
Proof.
  intros Hv. destruct k; cbn [arith_create];
    first [by apply (addsub_create_sound false)|by apply (addsub_create_sound true)
          |by apply Mul_sound|by apply And_sound|by apply Or_sound|by apply Xor_sound
          |apply BCREATE_sound; [set_solver|done]].
Qed.

Lemma bool_cmp_sound k l r v : getWidth l = Bool ->
  k ∈ [Kind.Ult; Kind.Ule; Kind.Slt; Kind.Sle] ->
  ev_cmp k (eval σ l) (eval σ r) = Some v -> eval σ (bool_cmp k l r) = Some v.
Proof.
  intros Hw Hk (a & b & Ha & Hb & Hab & ->)%ev_cmp_inv.
  destruct (bool_operands _ _ _ _ Hw Ha Hb Hab) as (p & q & -> & ->).
  pose proof (isZero_sound _ _ Ha) as Hzl. pose proof (isZero_sound _ _ Hb) as Hzr.
  rewrite !elem_of_cons in Hk.
  destruct Hk as [->|[->|[->|[->|[]%not_elem_of_nil]]]]; cbn [bool_cmp];
    first [apply And_sound|apply Or_sound]; rewrite ?Ha, ?Hb, ?Hzl, ?Hzr; by destruct p, q.
Qed.

Lemma CMPCREATE_sound k l r v : k ∈ [Kind.Ult; Kind.Ule; Kind.Slt; Kind.Sle] ->
  ev_cmp k (eval σ l) (eval σ r) = Some v -> eval σ (CMPCREATE k l r) = Some v.
Proof.
  intros Hk Hv. unfold CMPCREATE. apply unless_constant_cases; intros; subst.
  - by apply fold_cmp_sound.
  - destruct (Z.eqb_spec (getWidth l) Bool); [by apply bool_cmp_sound|done].
Qed.

Lemma cmp_create_sound k l r v : ev_cmp k (eval σ l) (eval σ r) = Some v ->
  eval σ (cmp_create k l r) = Some v.
Proof.
  intros Hv. destruct k; cbn [cmp_create];
    first [by apply Eq_sound|apply CMPCREATE_sound; [set_solver|done]|idtac].
  2-5: apply CMPCREATE_sound; [set_solver|];
    rewrite <- Hv; symmetry; apply ev_cmp_swap; set_solver.
  apply ev_cmp_ne in Hv as (u & Hu & Hv). apply Eq_sound.
  rewrite (Eq_sound _ _ _ Hu). apply ev_cmp_inv in Hu as (a & b & _ & _ & _ & ->).
  rewrite eq_zero_bool by first [done|apply bool_ap_wf]. exact Hv.
Qed.

Lemma Not_sound e v : ev_not (eval σ e) = Some v -> eval σ (NotExpr_create e) = Some v.
Proof. intros Hv. destruct e; try exact Hv. by apply fold_not_sound. Qed.

(** * Selection *)

Lemma bool_eval e v : eval σ e = Some v -> ap_width v = Bool -> exists b, v = bool_ap b.
Proof. intros He Hw. eexists. apply bool_value; [by eapply eval_wf|done]. Qed.

Lemma isTrue_bool b : isTrue (bool_ap b) = b.
Proof. by destruct b. Qed.

Lemma Select_sound c t f v :
  ev_select (eval σ c) (eval σ t) (eval σ f) = Some v ->
  eval σ (SelectExpr_create c t f) = Some v.
Proof.
  intros Hv. assert (eval σ (ESelect c t f) = Some v) as Hother by done.
  apply ev_select_inv in Hv as (cv & tv & fv & Hc & Ht & Hf & Hcw & Htf & ->).
  destruct (bool_eval _ _ Hc Hcw) as [p ->]. clear Hcw.
  revert Hother. apply SelectExpr_create_cases.
  - intros CE -> _. apply eval_constant_inv in Hc as [<- _]. rewrite isTrue_bool. by destruct p.
  - intros -> _. rewrite Ht in Hf. injection Hf as ->. rewrite Ht. by destruct p.
  - intros CE Hb -> _. pose proof (isZero_sound _ _ Hc) as Hz.
    rewrite (eval_get_width _ _ _ Ht) in Hb. rewrite Hb in Htf. symmetry in Htf.
    destruct (bool_eval _ _ Ht Hb) as [tb ->], (bool_eval _ _ Hf Htf) as [fb ->].
    apply eval_constant_inv in Ht as [<- _]. rewrite isTrue_bool.
    destruct tb; [apply Or_sound; rewrite Hc, Hf|apply And_sound; rewrite Hz, Hf];
      by destruct p, fb.
  - intros CE Hb -> _. pose proof (isZero_sound _ _ Hc) as Hz.
    rewrite (eval_get_width _ _ _ Ht) in Hb. rewrite Hb in Htf. symmetry in Htf.
    destruct (bool_eval _ _ Ht Hb) as [tb ->], (bool_eval _ _ Hf Htf) as [fb ->].
    apply eval_constant_inv in Hf as [<- _]. rewrite isTrue_bool.
    destruct fb; [apply Or_sound; rewrite Hz, Ht|apply And_sound; rewrite Hc, Ht];
      by destruct p, tb.
  - done.
Qed.

(** * Extraction and concatenation *)

Definition extract_sound (f : expr -> Z -> Z -> option expr) : Prop :=
  forall e off w r a, f e off w = Some r -> eval σ e = Some a -> extract_ok a off w ->
    eval σ r = Some (extract_spec a off w).

Lemma ConcatExpr_create_with_sound f l r e a b : extract_sound f ->
  ConcatExpr_create_with f l r = Some e -> eval σ l = Some a -> eval σ r = Some b ->
  eval σ e = Some (concat_spec a b).
Proof.
  intros Hf. apply ConcatExpr_create_with_cases; intros; subst; bind_inv.
  - repeat match goal with H : eval _ (EConstant _) = Some _ |- _ =>
      apply eval_constant_inv in H as [-> ?] end.
    rewrite CE_Concat_spec by done. by apply eval_constant, concat_spec_wf.
  - repeat match goal with H : eval _ (EExtract _ _ _) = Some _ |- _ =>
      apply eval_extract_inv in H as (? & ? & ?%extract_ok_spec & ->) end.
    match goal with H : eval _ ?e = Some ?x, H' : eval _ ?e = Some ?y |- _ =>
      rewrite H in H'; injection H' as <- end.
    rewrite extract_merge by lia. eapply Hf; [eassumption..|]. apply extract_ok_spec. lia.
  - cbn [eval]. by repeat match goal with H : eval σ _ = Some _ |- _ => rewrite H; clear H end.
Qed.

Lemma ExtractExpr_create_from_sound n : extract_sound (ExtractExpr_create_from n).
Proof.
  induction n as [|n IH]; intros e off w r a Hr He Hok; [done|].
  pose proof Hok as (Hw & Hoff & Hle)%extract_ok_spec. pose proof (eval_wf _ _ _ He) as Hwf.
  cbn [ExtractExpr_create_from] in Hr. rewrite (eval_get_width _ _ _ He) in Hr.
  destruct (Z.eqb_spec w (ap_width a)) as [->|].
  { injection Hr as <-. replace off with 0 by lia. by rewrite extract_whole. }
  assert (ev_extract off w (eval σ e) = Some (extract_spec a off w)) as Hv.
  { rewrite He. cbn. rewrite Is_true_true in Hok. by rewrite Hok. }
  destruct e; try (injection Hr as <-; exact Hv).
  { injection Hr as <-. by apply (S_Extract_sound σ EExtract (EConstant value)). }
  apply eval_concat_inv in He as (x & y & Hx & Hy & ->). cbn [concat_spec ap_width] in *.
  pose proof (eval_wf _ _ _ Hx) as Hxw. pose proof (eval_wf _ _ _ Hy) as Hyw.
  rewrite (eval_get_width _ _ _ Hy) in Hr.
  destruct (Z.leb_spec (ap_width y) off).
  { rewrite extract_concat_left by done. eapply IH; [exact Hr|exact Hx|].
    apply extract_ok_spec. lia. }
  destruct (Z.leb_spec (off + w) (ap_width y)).
  { rewrite extract_concat_right by done. eapply IH; [exact Hr|exact Hy|].
    apply extract_ok_spec. lia. }
  bind_inv. rewrite extract_concat_both by (done || lia).
  eapply ConcatExpr_create_with_sound; [exact IH|exact Hr| |].
  - eapply IH; [exact Hbind|exact Hx|]. apply extract_ok_spec. lia.
  - eapply IH; [exact Hbind0|exact Hy|]. apply extract_ok_spec. lia.
Qed.

Lemma Extract_sound e off w v : ev_extract off w (eval σ e) = Some v ->
  eval σ (ExtractExpr_create e off w) = Some v.
Proof.
  intros (a & Ha & Hok & ->)%ev_extract_inv. unfold ExtractExpr_create.
  destruct (ExtractExpr_create_from_returns _ e off w (le_n _)) as (x & Hx & _). rewrite Hx.
  by eapply ExtractExpr_create_from_sound.
Qed.

Lemma Concat_sound l r v : ev_concat (eval σ l) (eval σ r) = Some v ->
  eval σ (ConcatExpr_create l r) = Some v.
Proof.
  intros (a & b & Ha & Hb & ->)%ev_concat_inv. unfold ConcatExpr_create.
  set (f := fun e off w => Some (ExtractExpr_create e off w)).
  destruct (ConcatExpr_create_with f l r) eqn:E; cbn [default].
  - eapply ConcatExpr_create_with_sound; [|exact E|done..].
    intros e0 off w r0 a0 [= <-] He0 Hok. apply Extract_sound. rewrite He0. cbn.
    rewrite Is_true_true in Hok. by rewrite Hok.
  - cbn [eval]. by rewrite Ha, Hb.
Qed.

(** Extensions; on the operands they have a value on, nothing is truncated. *)
Lemma zext_same a : AP (ap_width a) (ap_val a) = a.
Proof. by destruct a. Qed.
Lemma sext_same a : ap_wf a -> sext_spec a (ap_width a) = a.
Proof.
  intros Ha. pose proof (wf_width _ Ha). pose proof (wf_range _ Ha). destruct a as [w z]. cbn in *.
  unfold sext_spec. cbn. f_equal. by rewrite wrap_swrap, wrap_small by lia.
Qed.

Lemma ZExt_sound e w v : ev_zext w (eval σ e) = Some v -> eval σ (ZExtExpr_create e w) = Some v.
Proof.
  intros Hv. pose proof Hv as (a & Ha & Hle & Hva)%ev_zext_inv. unfold ZExtExpr_create.
  rewrite (eval_get_width _ _ _ Ha).
  destruct (Z.eqb_spec w (ap_width a)) as [->|]; [by rewrite Ha, Hva, zext_same|].
  destruct (Z.ltb_spec w (ap_width a)); [lia|].
  by apply (S_ZExt_sound σ EZExt e w v).
Qed.
Lemma SExt_sound e w v : ev_sext w (eval σ e) = Some v -> eval σ (SExtExpr_create e w) = Some v.
Proof.
  intros Hv. pose proof Hv as (a & Ha & Hle & Hva)%ev_sext_inv. unfold SExtExpr_create.
  rewrite (eval_get_width _ _ _ Ha).
  destruct (Z.eqb_spec w (ap_width a)) as [->|];
    [by rewrite Ha, Hva, sext_same by (by eapply eval_wf)|].
  destruct (Z.ltb_spec w (ap_width a)); [lia|].
  by apply (S_SExt_sound σ ESExt e w v).
Qed.

(** * Rebuilding *)

(** [e'] has the value of [e] wherever [e] has one. *)
Definition same_value (e e' : expr) : Prop :=
  forall v, eval σ e = Some v -> eval σ e' = Some v.

Ltac kid_values :=
  by repeat match goal with H : eval σ _ = Some _ |- _ => rewrite H; clear H end.

Lemma rebuild_sound e kids : Forall2 same_value (getKids e) kids -> same_value e (rebuild e kids).
Proof.
  intros Hk v Hv. unfold same_value in Hk.
  destruct e; cbn [getKids] in Hk;
    repeat match goal with
    | H : Forall2 _ (_ :: _) _ |- _ => apply Forall2_cons_inv_l in H as (? & ? & ? & ? & ->)
    | H : Forall2 _ [] _ |- _ => apply Forall2_nil_inv_l in H as ->
    end; cbn [rebuild]; try exact Hv; cbn [eval] in Hv;
    repeat match goal with
    | H : forall v, eval σ ?e = Some v -> eval σ ?x = Some v |- _ =>
        let v := fresh "kid" in
        destruct (eval σ e) as [v|]; [|exfalso; repeat case_match; done];
        specialize (H v eq_refl)
    end.
  - unfold ReadExpr_create. cbn [eval]. kid_values.
  - apply Select_sound. kid_values.
  - apply Concat_sound. kid_values.
  - apply Extract_sound. kid_values.
  - apply ZExt_sound. kid_values.
  - apply SExt_sound. kid_values.
  - apply Not_sound. kid_values.
  - apply arith_create_sound. kid_values.
  - apply cmp_create_sound. kid_values.
Qed.
End sound.

(** The [create] functions implement the builder interface. *)
Lemma create_builder_laws `{APIntLaws} : BuilderLaws (H := CreateBuilder).
Proof.
  split; cbn [bArith bCmp bNot bSelect bConcat bExtract bZExt bSExt CreateBuilder].
  - intros. by apply arith_create_sound.
  - intros. by apply cmp_create_sound.
  - intros. by apply Not_sound.
  - intros. by apply Select_sound.
  - intros. by apply Concat_sound.
  - intros. by apply Extract_sound.
  - intros. by apply ZExt_sound.
  - intros. by apply SExt_sound.
  - intros. const_inv. destruct k; try done.
  - intros. const_inv. by destruct k.
  - intros. by const_inv.
  - intros. const_inv. cbn. by case_match.
  - intros. by const_inv.
  - intros. const_inv. unfold ExtractExpr_create. cbn. by destruct (_ =? _).
  - intros. const_inv. unfold ZExtExpr_create, ExtractExpr_create. cbn. by repeat case_match.
  - intros. const_inv. unfold SExtExpr_create, ExtractExpr_create. cbn. by repeat case_match.
Qed.

(** * The property *)

(** C36 The [create] functions are correct: as an expression builder they compute, on every
    operator, an expression with the operator's value on the values of the operands (and
    fold constants to a constant); rebuilding a node from operands that have the values of
    the old ones keeps its value; and their recursive rules for sums, extracts and
    concatenations always return. *)
Theorem create_functions_correct `{APIntLaws} :
  BuilderLaws (H := CreateBuilder) /\
  (forall σ e kids, Forall2 (same_value σ) (getKids e) kids -> same_value σ e (rebuild e kids)) /\
  (forall sub l r, exists e, addsub_create_from (addsub_create_fuel l r) sub l r = Some e) /\
  (forall e off w, exists x, ExtractExpr_create_from (expr_size e) e off w = Some x).
Proof.
  split; [apply create_builder_laws|]. split; [intros; by apply rebuild_sound|]. split.
  - intros. by apply addsub_create_from_returns.
  - intros. destruct (ExtractExpr_create_from_returns _ e off w (le_n _)) as (x & Hx & _). by exists x.
Qed.

(** [7 == zext(x + 1)] for a byte [x] becomes [6 == x]. *)
Lemma create_functions_correct_witness :
  let x := read_byte (mkArray "x" 1) 0 in
  let node := ECmp Kind.Eq (EConstant (AP 32 7))
    (EZExt (EArith Kind.Add (EConstant (AP 8 1)) x) 32) in
  rebuild node (getKids node) = ECmp Kind.Eq (EConstant (AP 8 6)) x /\
  same_value (fun _ _ => 6) node (rebuild node (getKids node)).
Proof.
  intros x node. split; [vm_compute; reflexivity|].
  apply (proj1 (proj2 create_functions_correct)).
  constructor; [|constructor; [|constructor]]; intros v Hv; exact Hv.
Defined.

