(* ===== verification/KVisitor.v ===== *)
(** KLEE's expression visitor (klee/lib/Expr/ExprVisitor.cpp): it visits the operands of an
    expression, rebuilds the expression when one of them changed, and keeps its results in
    a hash map; that it terminates, and that it keeps types and values when what it
    substitutes does. *)
From S2P Require Import Prelude Bits APInt KExpr KBuilder KType KCreate KCreateShape KCreateSound.

(** * The visitor *)

Inductive Action :=
| DoChildren
| SkipChildren
| ChangeTo (argument : expr).

(** A subclass of [ExprVisitor] by what it overrides; the visits per kind of expression
    are not overridden and answer [DoChildren]. *)
Record ExprVisitor := mkVisitor {
  recursive : bool;
  visitExpr : expr -> Action;
  visitExprPost : expr -> Action;
}.

(** [visited]: an [ExprHashMap], whose [insert] does not replace an entry. *)
Definition visited_ty : Type := list (expr * expr).
Fixpoint find (e : expr) (m : visited_ty) : option expr :=
  match m with
  | [] => None
  | (k, r) :: m => if decide (e = k) then Some r else find e m
  end.
Definition insert_pair (e r : expr) (m : visited_ty) : visited_ty :=
  match find e m with Some _ => m | None => (e, r) :: m end.

Section visit.
Context `{APInt} (V : ExprVisitor).

(** The loop over the kids. *)
Fixpoint visit_kids (visit : expr -> visited_ty -> option (expr * visited_ty))
    (es : list expr) (visited : visited_ty) : option (list expr * visited_ty) :=
  match es with
  | [] => Some ([], visited)
  | e :: es =>
      '(r, visited) ← visit e visited;
      '(rs, visited) ← visit_kids visit es visited;
      Some (r :: rs, visited)
  end.

Definition visit_post (e : expr) : expr :=
  if is_const e then e else
  match visitExprPost V e with ChangeTo d => d | _ => e end.

(** [visitActual] on a non-constant; [visit] is the call on the kids, [revisit] the one on
    the rebuilt expression. *)
Definition visitActual (visit revisit : expr -> visited_ty -> option (expr * visited_ty))
    (e : expr) (visited : visited_ty) : option (expr * visited_ty) :=
  match visitExpr V e with
  | SkipChildren => Some (e, visited)
  | ChangeTo d => Some (d, visited)
  | DoChildren =>
      '(kids, visited) ← visit_kids visit (getKids e) visited;
      '(e, visited) ←
        (if decide (kids = getKids e) then Some (e, visited)
         else let e := rebuild e kids in
              if recursive V then revisit e visited else Some (e, visited));
      Some (visit_post e, visited)
  end.

(** [visit].  The outer fuel counts the visits to rebuilt expressions, the inner one the
    descent to the operands; [visit_spec] shows that [visit_fuel] is enough. *)
Fixpoint visit_from (n : nat) : nat -> expr -> visited_ty -> option (expr * visited_ty) :=
  fix visit (m : nat) (e : expr) (visited : visited_ty) {struct m} :=
    match m with
    | O => None
    | S m =>
        if is_const e then Some (e, visited) else
        match find e visited with
        | Some r => Some (r, visited)
        | None =>
            '(r, visited) ← visitActual (visit m)
              (fun e visited =>
                 match n with O => None | S n => visit_from n (expr_size e) e visited end)
              e visited;
            Some (r, insert_pair e r visited)
        end
    end.
Definition visit (e : expr) (visited : visited_ty) : option (expr * visited_ty) :=
  visit_from (bulk e) (expr_size e) e visited.
End visit.

(** * What a visit does *)

Section spec.
Context `{Laws : APIntLaws} (V : ExprVisitor).
(** The assignments under which the visitor need not keep values. *)
Context (bad : assignment -> Prop).

(** [r] can replace [e]: it has the type and, where [e] has one, the value of [e], and it
    is [e] or less bulky. *)
Definition replaces (e r : expr) : Prop :=
  forall w, type_of e = Some w ->
    type_of r = Some w /\ (r = e \/ (bulk r < bulk e)%nat) /\
    forall σ v, eval σ e = Some v -> eval σ r = Some v \/ bad σ.

Definition changes_well (hook : expr -> Action) : Prop :=
  forall e d, hook e = ChangeTo d -> is_const e = false ->
    replaces e d /\ (bulk d < bulk e)%nat.
Hypothesis Hpre : changes_well (visitExpr V).
Hypothesis Hpost : changes_well (visitExprPost V).

Lemma replaces_refl e : replaces e e.
Proof. intros w Hw. split; [done|]. split; [by left|]. intros. by left. Qed.
Lemma replaces_trans e1 e2 e3 : replaces e1 e2 -> replaces e2 e3 -> replaces e1 e3.
Proof.
  intros H1 H2 w Hw. destruct (H1 w Hw) as (Hw2 & Hb2 & Hv2), (H2 w Hw2) as (Hw3 & Hb3 & Hv3).
  split; [done|]. split.
  - destruct Hb2 as [->|], Hb3 as [->|]; [by left|right; lia..].
  - intros σ v Hv. destruct (Hv2 σ v Hv) as [Hv'|]; [by apply Hv3|by right].
Qed.

(** An expression with a value has operands with values. *)
Lemma kids_have_values σ e v : eval σ e = Some v ->
  Forall (fun k => exists u, eval σ k = Some u) (getKids e).
Proof.
  intros Hv. destruct e; cbn [eval getKids] in *; rewrite ?Forall_cons, ?Forall_nil;
    repeat split;
    match goal with |- exists u, ?o = Some u => destruct o eqn:E; [by eexists|exfalso] end;
    unfold ev_read, ev_select, ev_concat, ev_arith, ev_cmp, mbind, option_bind in Hv;
    repeat case_match; discriminate.
Qed.

Lemma kids_typed e w : type_of e = Some w -> Forall (fun k => exists u, type_of k = Some u) (getKids e).
Proof.
  intros Hw. destruct e; cbn [getKids]; rewrite ?Forall_cons, ?Forall_nil; repeat split;
    first [apply type_read_inv in Hw|apply type_select_inv in Hw|apply type_concat_inv in Hw
          |apply type_extract_inv in Hw|apply type_zext_inv in Hw|apply type_sext_inv in Hw
          |apply type_arith_inv in Hw|apply type_cmp_inv in Hw|idtac];
    repeat match goal with
    | H : _ /\ _ |- _ => destruct H
    | H : exists _, _ |- _ => destruct H
    end; eauto.
Qed.

Lemma kids_same_value σ es rs : Forall2 replaces es rs ->
  Forall (fun k => exists u, type_of k = Some u) es ->
  Forall (fun k => exists u, eval σ k = Some u) es ->
  Forall2 (same_value σ) es rs \/ bad σ.
Proof.
  induction 1 as [|e r es rs Hr _ IH]; intros Ht He; [by left; constructor|].
  apply Forall_cons in Ht as [[w Hw] Ht], He as [[u Hu] He].
  destruct (IH Ht He) as [IH'|]; [|by right]. destruct (Hr w Hw) as (_ & _ & Hv).
  destruct (Hv σ u Hu) as [Hr'|]; [|by right]. left. constructor; [|done].
  intros v Hv'. congruence.
Qed.

Lemma kids_bulk es rs : Forall2 replaces es rs ->
  Forall (fun k => exists u, type_of k = Some u) es ->
  Forall2 same_type es rs /\ (total_bulk rs <= total_bulk es)%nat /\
  (rs <> es -> (total_bulk rs < total_bulk es)%nat).
Proof.
  induction 1 as [|e r es rs Hr _ IH]; intros Ht; [by split; [constructor|]|].
  apply Forall_cons in Ht as [[w Hw] Ht]. destruct (IH Ht) as (Hs & Hle & Hlt).
  destruct (Hr w Hw) as (Hrw & Hb & _).
  split; [constructor; [unfold same_type; congruence|done]|].
  unfold total_bulk in *. cbn. destruct Hb as [->|Hb].
  - split; [lia|]. intros Hne. assert (rs <> es) as Hne' by congruence. specialize (Hlt Hne'). lia.
  - split; [lia|]. intros _. lia.
Qed.

Lemma rebuild_replaces e kids : is_const e = false -> Forall2 replaces (getKids e) kids ->
  kids <> getKids e -> replaces e (rebuild e kids) /\
  (forall w, type_of e = Some w -> (bulk (rebuild e kids) < bulk e)%nat).
Proof.
  intros Hc Hk Hne.
  assert (forall w, type_of e = Some w ->
    type_of (rebuild e kids) = Some w /\ (bulk (rebuild e kids) < bulk e)%nat) as Hshape.
  { intros w Hw. destruct (kids_bulk _ _ Hk (kids_typed e w Hw)) as (Ht & _ & Hlt).
    apply rebuild_shape; auto. }
  split; [|intros w Hw; by apply (Hshape w)].
  intros w Hw. destruct (Hshape w Hw) as [Htw Hlt]. split; [done|]. split; [by right|].
  intros σ v Hv.
  destruct (kids_same_value σ _ _ Hk (kids_typed e w Hw) (kids_have_values σ e v Hv)) as [Hs|];
    [|by right].
  left. by apply (rebuild_sound σ e kids Hs).
Qed.

Lemma post_replaces e r : replaces e r -> replaces e (visit_post V r).
Proof.
  intros Hr. unfold visit_post. destruct (is_const r) eqn:Hc; [done|].
  destruct (visitExprPost V r) as [| |d] eqn:Hp; try done.
  eapply replaces_trans; [exact Hr|]. by apply (Hpost r d).
Qed.

Lemma find_replaces e r visited : Forall (fun p => replaces p.1 p.2) visited ->
  find e visited = Some r -> replaces e r.
Proof.
  induction 1 as [|[k r'] m Hk _ IH]; [done|]. cbn. destruct (decide (e = k)) as [->|]; [|done].
  by intros [= <-].
Qed.

Definition cache_ok (visited : visited_ty) : Prop := Forall (fun p => replaces p.1 p.2) visited.

(** A visit that returns a replacement and keeps the cache. *)
Definition visits (visit : expr -> visited_ty -> option (expr * visited_ty)) (e : expr) : Prop :=
  forall visited, cache_ok visited ->
    exists r visited', visit e visited = Some (r, visited') /\ replaces e r /\ cache_ok visited'.

Lemma visit_kids_spec visit es : Forall (visits visit) es -> forall visited, cache_ok visited ->
  exists rs visited', visit_kids visit es visited = Some (rs, visited') /\
    Forall2 replaces es rs /\ cache_ok visited'.
Proof.
  induction 1 as [|e es He _ IH]; intros visited Hc; cbn [visit_kids].
  { eexists [], visited. split; [done|]. split; [constructor|done]. }
  destruct (He visited Hc) as (r & visited1 & -> & Hr & Hc1). cbn.
  destruct (IH visited1 Hc1) as (rs & visited2 & -> & Hrs & Hc2). cbn.
  eexists _, _. split; [done|]. by split; [constructor|].
Qed.

Lemma visitActual_spec visit revisit e w :
  type_of e = Some w -> is_const e = false ->
  Forall (visits visit) (getKids e) ->
  (forall e', type_of e' = Some w -> (bulk e' < bulk e)%nat -> visits revisit e') ->
  visits (visitActual V visit revisit) e.
Proof.
  intros Hw Hc Hkids Hre visited Hcache. unfold visitActual.
  destruct (visitExpr V e) as [| |d] eqn:Hv.
  2: { eexists _, _. split; [done|]. by split; [apply replaces_refl|]. }
  2: { eexists _, _. split; [done|]. split; [by apply (Hpre e d)|done]. }
  destruct (visit_kids_spec _ _ Hkids visited Hcache) as (kids & visited1 & -> & Hk & Hc1).
  cbn [mbind option_bind]. destruct (decide (kids = getKids e)) as [|Hne].
  { cbn. eexists _, _. split; [done|]. split; [by apply post_replaces, replaces_refl|done]. }
  destruct (rebuild_replaces e kids Hc Hk Hne) as [Hr Hlt]. cbv zeta.
  destruct (recursive V).
  - destruct (Hr w Hw) as (Htw & _). destruct (Hre _ Htw (Hlt w Hw) visited1 Hc1)
      as (r & visited2 & -> & Hr2 & Hc2). cbn.
    eexists _, _. split; [done|]. split; [|done]. apply post_replaces.
    by eapply replaces_trans.
  - cbn. eexists _, _. split; [done|]. split; [by apply post_replaces|done].
Qed.

Lemma kid_size e k : k ∈ getKids e -> (expr_size k < expr_size e)%nat.
Proof.
  destruct e; cbn [getKids expr_size]; rewrite ?elem_of_cons, ?elem_of_nil; intuition (subst; lia).
Qed.
Lemma kid_bulk e k : k ∈ getKids e -> (bulk k <= bulk e)%nat.
Proof.
  destruct e; cbn [getKids bulk]; rewrite ?elem_of_cons, ?elem_of_nil; intuition (subst; lia).
Qed.

(** Every visit of a well-typed expression returns. *)
Lemma visit_from_spec n : forall m e w, type_of e = Some w ->
  (bulk e <= n)%nat -> (expr_size e <= m)%nat -> visits (visit_from V n m) e.
Proof.
  induction n as [n IHn] using lt_wf_ind. induction m as [|m IHm]; intros e w Hw Hn Hm visited Hcache.
  { destruct e; cbn in Hm; lia. }
  assert (visit_from V n (S m) e visited = if is_const e then Some (e, visited) else
    match find e visited with
    | Some r => Some (r, visited)
    | None =>
        '(r, visited) ← visitActual V (visit_from V n m)
          (fun e visited =>
             match n with O => None | S n => visit_from V n (expr_size e) e visited end)
          e visited;
        Some (r, insert_pair e r visited)
    end) as -> by (by destruct n).
  destruct (is_const e) eqn:Hc.
  { eexists _, _. split; [done|]. by split; [apply replaces_refl|]. }
  destruct (find e visited) as [r|] eqn:Hf.
  { eexists _, _. split; [done|]. split; [by eapply find_replaces|done]. }
  edestruct (visitActual_spec (visit_from V n m)
    (fun e visited => match n with O => None | S n => visit_from V n (expr_size e) e visited end)
    e w Hw Hc) as (r & visited' & -> & Hr & Hc'); [| |exact Hcache|].
  - apply Forall_forall. intros k Hk.
    pose proof (proj1 (Forall_forall _ _) (kids_typed e w Hw) k Hk) as [u Hu].
    pose proof (kid_size e k Hk). pose proof (kid_bulk e k Hk).
    apply (IHm k u Hu); lia.
  - intros e' Hw' Hlt. destruct n as [|n]; [lia|]. apply (IHn n ltac:(lia) _ _ w Hw'); lia.
  - cbn. eexists _, _. split; [done|]. split; [done|].
    unfold insert_pair. rewrite ?Hf. destruct (find e visited'); [done|by constructor].
Qed.

Lemma visit_spec e w visited : type_of e = Some w -> cache_ok visited ->
  exists r visited', visit V e visited = Some (r, visited') /\ replaces e r /\ cache_ok visited'.
Proof. intros Hw. by eapply visit_from_spec. Qed.
End spec.
