(* ===== verification/KConstraints.v ===== *)
(** KLEE's constraint manager (klee/lib/Expr/Constraints.cpp): simplification of an
    expression by the equalities of a set of constraints, and insertion of a constraint,
    which rewrites the others; that both return and keep the meaning of the set. *)
From S2P Require Import Prelude Bits APInt KExpr KBuilder KBuilderSound KType KCreate KCreateShape KCreateSound KVisitor.

(** * The operations *)

(** [ExprReplaceVisitor] and [ExprReplaceVisitor2] *)
Definition replace_src (src dst e : expr) : Action :=
  if decide (e = src) then ChangeTo dst else DoChildren.
Definition ExprReplaceVisitor (src dst : expr) : ExprVisitor :=
  mkVisitor false (replace_src src dst) (replace_src src dst).
Definition ExprReplaceVisitor2 (replacements : list (expr * expr)) : ExprVisitor :=
  mkVisitor true (fun _ => DoChildren)
    (fun e => match find e replacements with Some d => ChangeTo d | None => DoChildren end).

Definition expr_true : expr := EConstant (CE_alloc 1 Bool).

(** The pair a constraint contributes to the map [equalities]. *)
Definition equality_of (constraint : expr) : expr * expr :=
  match constraint with
  | ECmp Kind.Eq (EConstant c) rhs => (rhs, EConstant c)
  | _ => (constraint, expr_true)
  end.
(** [std::map::insert] keeps the first entry of a key. *)
Definition equalities (cs : ConstraintSet) : list (expr * expr) :=
  foldl (fun m c => let p := equality_of c in
                    match find p.1 m with Some _ => m | None => m ++ [p] end) [] cs.

Section manager.
Context `{APInt}.

Definition simplify (cs : ConstraintSet) (e : expr) : option expr :=
  if is_const e then Some e
  else fst <$> visit (ExprReplaceVisitor2 (equalities cs)) e [].
(** [ConstraintManager::simplifyExpr]; the default is not reached. *)
Definition simplifyExpr (cs : ConstraintSet) (e : expr) : expr := default e (simplify cs e).

(** [rewriteConstraints], over the old constraints that are left; one visitor, with one
    cache, goes over all of them.  The inner [None] is a failed assertion. *)
Fixpoint rewriteConstraints (visit : expr -> visited_ty -> option (expr * visited_ty))
    (addConstraintInternal : expr -> ConstraintSet -> option (option ConstraintSet))
    (old : ConstraintSet) (constraints : ConstraintSet) (visited : visited_ty) :
    option (option ConstraintSet) :=
  match old with
  | [] => Some (Some constraints)
  | ce :: old =>
      '(e, visited) ← visit ce visited;
      if decide (e = ce) then
        rewriteConstraints visit addConstraintInternal old (constraints ++ [ce]) visited
      else
        r ← addConstraintInternal e constraints;
        match r with
        | None => Some None
        | Some constraints =>
            rewriteConstraints visit addConstraintInternal old constraints visited
        end
  end.

(** [addConstraintInternal], with [RewriteEqualities] as by default.  The fuel counts the
    nested rewritings; adding the constant false fails an assertion. *)
Fixpoint addConstraintInternal (n : nat) : expr -> ConstraintSet -> option (option ConstraintSet) :=
  fix add (e : expr) (constraints : ConstraintSet) {struct e} :=
    match e with
    | EConstant v => Some (if isTrue v then Some constraints else None)
    | EArith Kind.And lhs rhs =>
        r ← add lhs constraints;
        match r with
        | None => Some None
        | Some constraints => add rhs constraints
        end
    | ECmp Kind.Eq (EConstant c) rhs =>
        match n with
        | O => None
        | S n =>
            r ← rewriteConstraints (visit (ExprReplaceVisitor rhs (EConstant c)))
                  (addConstraintInternal n) constraints [] [];
            Some (match r with None => None | Some constraints => Some (constraints ++ [e]) end)
        end
    | _ => Some (Some (constraints ++ [e]))
    end.

Definition constraints_fuel (cs : ConstraintSet) (e : expr) : nat := total_bulk cs + bulk e.

(** [ConstraintManager::addConstraint]; [None] is the failed assertion. *)
Definition addConstraint (cs : ConstraintSet) (e : expr) : option ConstraintSet :=
  let simplified := simplifyExpr cs e in
  match addConstraintInternal (constraints_fuel cs simplified) simplified cs with
  | Some r => r
  | None => None
  end.

(** [Expr::createIsZero] is in [KCreate]. *)
End manager.

(** * The visitors keep values *)

Lemma replaces_constant bad rhs c :
  well_typed (ECmp Kind.Eq (EConstant c) rhs) -> is_const rhs = false ->
  (forall σ, refuted σ (ECmp Kind.Eq (EConstant c) rhs) -> bad σ) ->
  replaces bad rhs (EConstant c) /\ (bulk (EConstant c) < bulk rhs)%nat.
Proof.
  intros Ht Hc Hbad. apply type_cmp_inv in Ht as (_ & u & Htc & Htr).
  pose proof (bulk_pos _ Hc) as Hb. split; [|cbn; lia].
  intros w Hw. assert (u = w) as -> by congruence. split; [done|]. split; [right; cbn; lia|].
  intros σ v Hv. pose proof Htc as [Hcw Hcu]%type_constant.
  pose proof (eval_type _ _ _ Hv) as Hvw. assert (ap_width v = w) as Hvw' by congruence.
  destruct (Z.eqb_spec (ap_val c) (ap_val v)) as [Heq|Hne].
  - left. rewrite eval_constant by done. f_equal. destruct c, v. cbn in *. congruence.
  - right. apply Hbad. unfold refuted, evals. cbn [eval].
    change (ev_cmp Kind.Eq (eval σ (EConstant c)) (eval σ rhs) = Some (bool_ap false)).
    rewrite Hv, eval_constant by done. unfold ev_cmp. cbn.
    rewrite (proj2 (Z.eqb_eq (ap_width c) (ap_width v))) by congruence.
    by rewrite (proj2 (Z.eqb_neq _ _) Hne).
Qed.

Lemma boolean_value σ e v : well_typed e -> eval σ e = Some v -> v = bool_ap true \/ refuted σ e.
Proof.
  intros Ht Hv. pose proof (eval_type _ _ _ Hv) as Hw. unfold well_typed in Ht.
  assert (v = bool_ap (negb (ap_val v =? 0))) as Hb.
  { pose proof (eval_wf _ _ _ Hv) as Hwf. rewrite Ht in Hw. injection Hw as Hw.
    apply ap_wf_iff in Hwf as [_ Hr]. destruct v as [w z]. cbn in *. subst w. change (2 ^ Bool) with 2 in Hr.
    assert (z = 0 \/ z = 1) as [-> | ->] by lia; done. }
  rewrite Hb in Hv |- *. destruct (negb _); [by left|by right].
Qed.

Section manager_spec.
Context `{Laws : APIntLaws}.

(** One equality: its own falsehood is the only reason for another value. *)
Lemma replace_visitor_changes rhs c hook :
  well_typed (ECmp Kind.Eq (EConstant c) rhs) ->
  hook = replace_src rhs (EConstant c) ->
  changes_well (fun σ => refuted σ (ECmp Kind.Eq (EConstant c) rhs)) hook.
Proof.
  intros Ht -> e d Hh Hc. unfold replace_src in Hh. destruct (decide (e = rhs)) as [->|]; [|done].
  injection Hh as <-. by apply replaces_constant.
Qed.

Lemma find_elem e r m : find e m = Some r -> (e, r) ∈ m.
Proof.
  induction m as [|[k x] m IH]; [done|]. cbn. destruct (decide (e = k)) as [->|].
  - intros [= ->]. by left.
  - intros Hf. right. auto.
Qed.

Lemma equalities_elem cs : forall p, p ∈ equalities cs -> exists c, c ∈ cs /\ p = equality_of c.
Proof.
  unfold equalities. induction cs as [|c cs IH] using rev_ind; [by intros p []%not_elem_of_nil|].
  intros p. rewrite foldl_app. cbn. case_match.
  - intros Hp. destruct (IH p Hp) as (c' & ? & ?). exists c'. rewrite elem_of_app. auto.
  - rewrite elem_of_app, list_elem_of_singleton. intros [Hp | ->].
    + destruct (IH p Hp) as (c' & ? & ?). exists c'. rewrite elem_of_app. auto.
    + exists c. rewrite elem_of_app, list_elem_of_singleton. auto.
Qed.

Definition refutes (cs : ConstraintSet) (σ : assignment) : Prop := Exists (refuted σ) cs.

Lemma equality_of_changes cs c e d : c ∈ cs -> well_typed c -> equality_of c = (e, d) ->
  is_const e = false -> replaces (refutes cs) e d /\ (bulk d < bulk e)%nat.
Proof.
  intros Hin Ht He Hc.
  assert (forall σ, refuted σ c -> refutes cs σ) as Hbad.
  { intros σ Hr. apply Exists_exists. by exists c. }
  assert (e = c -> d = expr_true -> replaces (refutes cs) e d /\ (bulk d < bulk e)%nat) as Hself.
  { intros -> ->. pose proof (bulk_pos _ Hc). split; [|cbn; lia].
    intros w Hw. unfold well_typed in Ht. assert (w = Bool) as -> by congruence.
    split; [done|]. split; [right; cbn; lia|]. intros σ v Hv.
    destruct (boolean_value σ c v Ht Hv) as [->|]; [by left|right; by apply Hbad]. }
  destruct c as [| | | | | | | | |k l r]; try (injection He as <- <-; by apply Hself).
  destruct k; try (injection He as <- <-; by apply Hself).
  destruct l; try (injection He as <- <-; by apply Hself).
  injection He as <- <-. by apply replaces_constant.
Qed.

Lemma simplify_changes cs : Forall well_typed cs ->
  changes_well (refutes cs) (visitExprPost (ExprReplaceVisitor2 (equalities cs))).
Proof.
  intros Ht e d Hh Hc. cbn in Hh. destruct (find e (equalities cs)) as [d'|] eqn:Hf; [|done].
  injection Hh as <-. apply find_elem, equalities_elem in Hf as (c & Hin & Hp).
  eapply equality_of_changes; [exact Hin| |by symmetry|done].
  by apply (proj1 (Forall_forall _ _) Ht).
Qed.

(** ** Simplification *)

Lemma simplify_spec cs e w : Forall well_typed cs -> type_of e = Some w ->
  exists r, simplify cs e = Some r /\ replaces (refutes cs) e r.
Proof.
  intros Ht Hw. unfold simplify. destruct (is_const e); [eexists; split; [done|apply replaces_refl]|].
  edestruct (visit_spec (ExprReplaceVisitor2 (equalities cs)) (refutes cs)) as (r & vs & -> & Hr & _);
    [done|by apply simplify_changes|exact Hw|constructor|].
  by exists r.
Qed.

Lemma simplifyExpr_spec cs e w : Forall well_typed cs -> type_of e = Some w ->
  replaces (refutes cs) e (simplifyExpr cs e).
Proof.
  intros Ht Hw. unfold simplifyExpr. by destruct (simplify_spec cs e w Ht Hw) as (r & -> & Hr).
Qed.

(** ** Insertion *)

(** What became of the constraints [L]: either constraints [o] that are not bulkier, hold
    where [L] does and are refuted where [L] is, or a failed assertion, where [L] cannot
    hold; [ok] and [bad] are what is known of a constraint set aside. *)
Definition outcome (ok bad : assignment -> Prop) (L : ConstraintSet) (o : option ConstraintSet) : Prop :=
  match o with
  | Some C =>
      Forall well_typed C /\ (total_bulk C <= total_bulk L)%nat /\
      forall σ, (ok σ -> Forall (holds σ) L -> Forall (holds σ) C) /\
                (refutes L σ -> refutes C σ \/ bad σ)
  | None => forall σ, ok σ -> ~ Forall (holds σ) L
  end.
#[local] Abbreviation always := (fun _ : assignment => True).
#[local] Abbreviation never := (fun _ : assignment => False).

Lemma outcome_step ok bad L L' o :
  (total_bulk L' <= total_bulk L)%nat ->
  (forall σ, ok σ -> Forall (holds σ) L -> Forall (holds σ) L') ->
  (forall σ, refutes L σ -> refutes L' σ \/ bad σ) ->
  outcome ok bad L' o -> outcome ok bad L o.
Proof.
  intros Hb Hh Hr. destruct o as [C|]; cbn.
  - intros (Ht & Hle & Hs). split; [done|]. split; [lia|]. intros σ. destruct (Hs σ) as [Hs1 Hs2].
    split; [auto|]. intros H'. destruct (Hr σ H') as [H''|]; [by apply Hs2|by right].
  - intros Hn σ Hok Hl. apply (Hn σ Hok). by apply Hh.
Qed.

Lemma outcome_done ok bad L L' :
  Forall well_typed L' -> (total_bulk L' <= total_bulk L)%nat ->
  (forall σ, ok σ -> Forall (holds σ) L -> Forall (holds σ) L') ->
  (forall σ, refutes L σ -> refutes L' σ \/ bad σ) ->
  outcome ok bad L (Some L').
Proof. intros Ht Hb Hh Hr. split; [done|]. split; [done|]. intros σ. split; auto. Qed.

(** The constraints of a set, added to others. *)
Lemma total_bulk_app C D : total_bulk (C ++ D) = (total_bulk C + total_bulk D)%nat.
Proof. unfold total_bulk. by rewrite fmap_app, sum_list_with_app || rewrite fmap_app, sum_list_app. Qed.
Lemma total_bulk_cons e C : total_bulk (e :: C) = (bulk e + total_bulk C)%nat.
Proof. done. Qed.
Lemma refutes_app C D σ : refutes (C ++ D) σ <-> refutes C σ \/ refutes D σ.
Proof. apply Exists_app. Qed.
Lemma refutes_cons e C σ : refutes (e :: C) σ <-> refuted σ e \/ refutes C σ.
Proof. apply Exists_cons. Qed.
Lemma refutes_nil σ : ~ refutes [] σ.
Proof. intros H%Exists_nil; done. Qed.

Definition inserts (add : expr -> ConstraintSet -> option (option ConstraintSet)) (N : nat) : Prop :=
  forall e C, well_typed e -> Forall well_typed C -> (total_bulk (e :: C) <= N)%nat ->
    exists o, add e C = Some o /\ outcome always never (e :: C) o.

Lemma not_both σ e : holds σ e -> ~ refuted σ e.
Proof. intros Hh Hr. by pose proof (evals_functional _ _ _ _ Hh Hr). Qed.

Lemma rewriteConstraints_spec rhs c add N : let q := ECmp Kind.Eq (EConstant c) rhs in
  well_typed q -> inserts add N ->
  forall old C vs, cache_ok (fun σ => refuted σ q) vs ->
    Forall well_typed C -> Forall well_typed old -> (total_bulk (C ++ old) <= N)%nat ->
    exists o, rewriteConstraints (visit (ExprReplaceVisitor rhs (EConstant c))) add old C vs = Some o /\
      outcome (fun σ => holds σ q) (fun σ => refuted σ q) (C ++ old) o.
Proof.
  intros q Hq Hadd. induction old as [|ce old IH]; intros C vs Hc HC Hold HN; cbn [rewriteConstraints].
  { eexists. split; [done|]. rewrite app_nil_r. apply outcome_done; auto. }
  apply Forall_cons in Hold as [Hce Hold].
  edestruct (visit_spec (ExprReplaceVisitor rhs (EConstant c)) (fun σ => refuted σ q))
    as (r & vs' & -> & Hr & Hc'); [by eapply replace_visitor_changes..|exact Hce|exact Hc|].
  cbn [mbind option_bind]. destruct (Hr _ Hce) as (Hrt & Hrb & Hrv).
  destruct (decide (r = ce)) as [->|Hne].
  { destruct (IH (C ++ [ce]) vs' Hc') as (o & -> & Ho); rewrite <- ?(assoc (++)) in *.
    - by apply Forall_app_2; [|constructor].
    - done.
    - done.
    - by exists o. }
  destruct Hrb as [|Hlt]; [done|].
  rewrite total_bulk_app, total_bulk_cons in HN.
  destruct (Hadd r C Hrt HC) as (o1 & -> & Ho1); [rewrite total_bulk_cons; lia|]. cbn [mbind option_bind].
  assert (forall σ, holds σ q -> holds σ ce -> holds σ r) as Hhold.
  { intros σ Hhq Hhce. destruct (Hrv σ _ Hhce) as [|Hb]; [done|]. by apply not_both in Hb. }
  destruct o1 as [C1|].
  - destruct Ho1 as (HC1 & Hb1 & Hs1). rewrite total_bulk_cons in Hb1.
    destruct (IH C1 vs' Hc' HC1 Hold) as (o & -> & Ho); [rewrite total_bulk_app; lia|].
    exists o. split; [done|]. eapply outcome_step; [| | |exact Ho].
    + rewrite !total_bulk_app, total_bulk_cons. lia.
    + intros σ Hhq. rewrite !Forall_app, Forall_cons. intros (HhC & Hhce & Hhrest).
      split; [|done]. apply Hs1; [done|]. constructor; [by apply Hhold|done].
    + intros σ. rewrite !refutes_app, refutes_cons. destruct (Hs1 σ) as [_ Hs].
      rewrite refutes_cons in Hs. intros [HrC|[Hrce|?]]; [tauto| |tauto].
      destruct (Hrv σ _ Hrce) as [?|?]; [|by right]. left. left. tauto.
  - eexists. split; [done|]. intros σ Hhq. rewrite Forall_app, Forall_cons.
    intros (HhC & Hhce & _). apply (Ho1 σ); [done|]. constructor; [by apply Hhold|done].
Qed.

(** Pushing a constraint at the end. *)
Lemma push_outcome e C : well_typed e -> Forall well_typed C ->
  outcome always never (e :: C) (Some (C ++ [e])).
Proof.
  intros He HC. apply outcome_done.
  - by apply Forall_app_2; [|constructor].
  - rewrite total_bulk_app, !total_bulk_cons. cbn. lia.
  - intros σ _ [Hh HhC]%Forall_cons. by apply Forall_app_2; [|constructor].
  - intros σ. rewrite refutes_app, !refutes_cons. tauto.
Qed.

(** A conjunction of booleans. *)
Lemma holds_and σ l r : well_typed l -> well_typed r ->
  holds σ (EArith Kind.And l r) -> holds σ l /\ holds σ r.
Proof.
  intros Hl Hr (a & b & Ha & Hb & Hab & Hv)%eval_arith_inv.
  destruct (boolean_value σ l a Hl Ha) as [->|Hla], (boolean_value σ r b Hr Hb) as [->|Hrb];
    try done; unfold refuted, evals in *; try rewrite Ha in Hla; try rewrite Hb in Hrb;
    simplify_eq.
Qed.
Lemma refuted_and σ l r : well_typed l -> well_typed r ->
  refuted σ (EArith Kind.And l r) -> refuted σ l \/ refuted σ r.
Proof.
  intros Hl Hr (a & b & Ha & Hb & Hab & Hv)%eval_arith_inv.
  destruct (boolean_value σ l a Hl Ha) as [->|]; [|by left].
  destruct (boolean_value σ r b Hr Hb) as [->|]; [done|by right].
Qed.

(** The body of [addConstraintInternal], for any amount of fuel. *)
Lemma addConstraintInternal_eq n e C : addConstraintInternal n e C =
  match e with
  | EConstant v => Some (if isTrue v then Some C else None)
  | EArith Kind.And lhs rhs =>
      r ← addConstraintInternal n lhs C;
      match r with None => Some None | Some C => addConstraintInternal n rhs C end
  | ECmp Kind.Eq (EConstant c) rhs =>
      match n with
      | O => None
      | S n =>
          r ← rewriteConstraints (visit (ExprReplaceVisitor rhs (EConstant c)))
                (addConstraintInternal n) C [] [];
          Some (match r with None => None | Some C => Some (C ++ [e]) end)
      end
  | _ => Some (Some (C ++ [e]))
  end.
Proof. destruct n, e as [| | | | | | | |k|k]; try done; by destruct k. Qed.

Lemma addConstraintInternal_spec n : inserts (addConstraintInternal n) n.
Proof.
  induction n as [n IHn] using lt_wf_ind.
  assert (forall e C, well_typed e -> Forall well_typed C -> 
    exists o, Some (Some (C ++ [e])) = Some o /\ outcome always never (e :: C) o) as Hpush.
  { intros e C He HC. eexists. split; [done|]. by apply push_outcome. }
  intros e. induction e as [v| | | | | | | |k l IHl r IHr|k l _ r _]; intros C He HC Hn;
    rewrite addConstraintInternal_eq; try (by apply Hpush).
  - eexists. split; [done|]. apply type_constant in He as [Hwf Hw].
    pose proof (eval_constant (fun _ _ => 0) v Hwf) as Hv.
    assert (v = bool_ap (isTrue v)) as Hb.
    { rewrite (bool_value v) at 1 by done. unfold isTrue. by rewrite Hw. }
    destruct (isTrue v); subst v.
    + apply outcome_done; [done|rewrite total_bulk_cons; lia| |].
      * by intros σ _ [_ ?]%Forall_cons.
      * intros σ. rewrite refutes_cons. intros [?|?]; [done|by left].
    + intros σ _ [Hh _]%Forall_cons. done.
  - destruct k; try (by apply Hpush).
    apply type_arith_inv in He as [Hl Hr]. rewrite total_bulk_cons in Hn. cbn [bulk] in Hn.
    destruct (IHl C Hl HC) as (o1 & -> & Ho1); [rewrite total_bulk_cons; lia|].
    cbn [mbind option_bind]. destruct o1 as [C1|].
    + destruct Ho1 as (HC1 & Hb1 & Hs1). rewrite total_bulk_cons in Hb1.
      destruct (IHr C1 Hr HC1) as (o & -> & Ho); [rewrite total_bulk_cons; lia|].
      exists o. split; [done|]. eapply outcome_step; [| | |exact Ho].
      * rewrite !total_bulk_cons. cbn [bulk]. lia.
      * intros σ _ [[Hhl Hhr]%holds_and HhC]%Forall_cons; [|done..].
        constructor; [done|]. apply Hs1; [done|by constructor].
      * intros σ. rewrite !refutes_cons. destruct (Hs1 σ) as [_ Hs]. rewrite refutes_cons in Hs.
        intros [Hrf|?]; [|tauto]. apply refuted_and in Hrf; [|done..]. tauto.
    + eexists. split; [done|]. intros σ _ [[Hhl Hhr]%holds_and HhC]%Forall_cons; [|done..].
      apply (Ho1 σ); [done|]. by constructor.
  - destruct k; try (by apply Hpush). destruct l as [c| | | | | | | | |]; try (by apply Hpush).
    rewrite total_bulk_cons in Hn. cbn [bulk] in Hn. destruct n as [|n]; [lia|].
    destruct (rewriteConstraints_spec r c (addConstraintInternal n) n He) with (old := C) (C := @nil expr)
      (vs := @nil (expr * expr)) as (o & -> & Ho); [by apply IHn; lia|by apply Forall_nil_2|by apply Forall_nil_2|done|cbn [app]; lia|].
    cbn. eexists. split; [done|]. cbn [app] in Ho. destruct o as [C'|].
    + destruct Ho as (HC' & Hb & Hs). apply outcome_done.
      * by apply Forall_app_2; [|constructor].
      * rewrite total_bulk_app, !total_bulk_cons. cbn. lia.
      * intros σ _ [Hh HhC]%Forall_cons. apply Forall_app_2; [by apply Hs|by constructor].
      * intros σ. rewrite refutes_app, !refutes_cons. destruct (Hs σ) as [_ Hs']. tauto.
    + intros σ _ [Hh HhC]%Forall_cons. by apply (Ho σ).
Qed.

(** ** The constraint manager *)

(** Adding a constraint gives constraints of the same meaning; it fails its assertion only
    if the constraints cannot hold together. *)
Lemma addConstraint_outcome cs e : Forall well_typed cs -> well_typed e ->
  outcome always never (e :: cs) (addConstraint cs e).
Proof.
  intros HC He. unfold addConstraint. cbv zeta.
  destruct (simplifyExpr_spec cs e Bool HC He Bool He) as (Hr & Hb & Hv).
  set (r := simplifyExpr cs e) in *.
  destruct (addConstraintInternal_spec (constraints_fuel cs r) r cs Hr HC) as (o & -> & Ho);
    [unfold constraints_fuel; rewrite total_bulk_cons; lia|].
  eapply outcome_step; [| | |exact Ho].
  - rewrite !total_bulk_cons. destruct Hb as [Hre|]; [rewrite Hre|]; lia.
  - intros σ _ [Hh HhC]%Forall_cons. constructor; [|done].
    destruct (Hv σ _ Hh) as [|[c [Hin Hrf]]%Exists_exists]; [done|].
    pose proof (proj1 (Forall_forall _ _) HhC c Hin) as Hhc. by apply not_both in Hhc.
  - intros σ. rewrite !refutes_cons. intros [Hrf|?]; [|tauto].
    destruct (Hv σ _ Hrf) as [?|?]; tauto.
Qed.
End manager_spec.

(** * The properties *)

(** Simplification returns and keeps meaning: by the equalities of a set of constraints
    an expression is rewritten, in finitely many steps, to an expression of the same type
    that is itself or has less that is not constant, and that has the same value under
    every assignment that meets the constraints. *)
Theorem simplifyExpr_sound `{APIntLaws} cs e w :
  Forall well_typed cs -> type_of e = Some w ->
  exists r, simplify cs e = Some r /\ simplifyExpr cs e = r /\
    type_of r = Some w /\ (r = e \/ (bulk r < bulk e)%nat) /\
    forall σ v, Forall (holds σ) cs -> eval σ e = Some v -> eval σ r = Some v.
Proof.
  intros Hcs Hw. destruct (simplify_spec cs e w Hcs Hw) as (r & Hr & Hrep).
  destruct (Hrep w Hw) as (Ht & Hb & Hv). exists r. split; [done|].
  split; [by unfold simplifyExpr; rewrite Hr|]. split; [done|]. split; [done|].
  intros σ v Hh He. destruct (Hv σ v He) as [|[c [Hin Hrf]]%Exists_exists]; [done|].
  pose proof (proj1 (Forall_forall _ _) Hh c Hin) as Hc. by apply not_both in Hc.
Qed.

(** C35 Adding a constraint keeps the meaning of the set: the insertion returns, with the
    nested rewriting of the other constraints bounded by what is not constant in them; for
    every assignment that gives the constraints boolean values, the resulting constraints
    hold exactly if the old ones and the new one do; and the assertion against adding a
    false constraint fails only if no assignment meets them all. *)
Theorem addConstraint_keeps_meaning `{APIntLaws} cs e :
  Forall well_typed cs -> well_typed e ->
  (exists o, addConstraintInternal (constraints_fuel cs (simplifyExpr cs e)) (simplifyExpr cs e) cs
     = Some o /\ addConstraint cs e = o) /\
  match addConstraint cs e with
  | Some cs' =>
      Forall well_typed cs' /\ (total_bulk cs' <= total_bulk (e :: cs))%nat /\
      forall σ, Forall (boolean σ) (e :: cs) ->
        Forall (holds σ) cs' <-> Forall (holds σ) (e :: cs)
  | None => forall σ, ~ Forall (holds σ) (e :: cs)
  end.
Proof.
  intros Hcs He. split.
  - destruct (simplifyExpr_spec cs e Bool Hcs He Bool He) as (Hr & _).
    destruct (addConstraintInternal_spec (constraints_fuel cs (simplifyExpr cs e)) _ cs Hr Hcs)
      as (o & Ho & _); [unfold constraints_fuel; rewrite total_bulk_cons; lia|].
    exists o. split; [done|]. unfold addConstraint. cbv zeta. by rewrite Ho.
  - pose proof (addConstraint_outcome cs e Hcs He) as Ho.
    destruct (addConstraint cs e) as [cs'|]; [|intros σ; by apply Ho].
    destruct Ho as (Ht & Hb & Hs). split; [done|]. split; [done|]. intros σ Hbool.
    destruct (Hs σ) as [Hh Hrf]. split; [|by apply Hh].
    intros Hcs'. apply Forall_forall. intros c Hin.
    destruct (proj1 (Forall_forall _ _) Hbool c Hin) as [[] Hb']; [done|].
    destruct Hrf as [Hr|[]]; [by apply Exists_exists; exists c|].
    apply Exists_exists in Hr as (c' & Hin' & Hc').
    by destruct (not_both _ _ (proj1 (Forall_forall _ _) Hcs' c' Hin')).
Qed.

(** ** Witnesses: a byte known to be seven, and a condition on it *)

Definition sample_read : expr := read_byte (mkArray "x" 1) 0.
Definition sample_equality : expr := ECmp Kind.Eq (EConstant (AP 8 7)) sample_read.
Definition sample_condition : expr :=
  ECmp Kind.Ult (EArith Kind.Add (EConstant (AP 8 1)) sample_read) (EConstant (AP 8 9)).

Lemma simplifyExpr_sound_witness :
  exists r, simplify [sample_equality] sample_condition = Some r /\
    simplifyExpr [sample_equality] sample_condition = r /\
    type_of r = Some Bool /\ (r = sample_condition \/ (bulk r < bulk sample_condition)%nat) /\
    forall σ v, Forall (holds σ) [sample_equality] -> eval σ sample_condition = Some v ->
      eval σ r = Some v.
Proof.
  apply (simplifyExpr_sound [sample_equality] sample_condition Bool); [|reflexivity].
  constructor; [reflexivity|constructor].
Defined.

(** The condition on the byte is rewritten when the byte becomes known. *)
Lemma addConstraint_keeps_meaning_witness :
  addConstraint [sample_condition] sample_equality = Some [sample_equality] /\
  forall σ, Forall (boolean σ) [sample_equality; sample_condition] ->
    Forall (holds σ) [sample_equality] <-> Forall (holds σ) [sample_equality; sample_condition].
Proof.
  assert (addConstraint [sample_condition] sample_equality = Some [sample_equality]) as Ha
    by (vm_compute; reflexivity).
  split; [exact Ha|].
  assert (Forall well_typed [sample_condition]) as Ht by (constructor; [reflexivity|constructor]).
  destruct (addConstraint_keeps_meaning [sample_condition] sample_equality Ht eq_refl) as [_ Hm].
  rewrite Ha in Hm. exact (proj2 (proj2 Hm)).
Defined.

