(* ===== verification/Concolic.v ===== *)
(** Concolic values (clover: intval.cpp, bitvector.cpp, concolic.cpp and the conversions of
    solver.cpp): a concrete constant with, where the value depends on the input, the
    symbolic expression it is an instance of.  Everything is proved against the
    [ExprBuilder] interface. *)
From S2P Require Import Prelude Bits APInt KExpr KBuilder KBuilderSound.

(** * Integer values *)

(** [std::variant<uint8_t, uint32_t>]. *)
Inductive IntValue := U8 (v : Z) | U32 (v : Z).
#[export] Instance IntValue_eq_dec : EqDecision IntValue.
Proof. solve_decision. Defined.

Definition intByteSize (v : IntValue) : Z := match v with U8 _ => 1 | U32 _ => 4 end.
Definition intToUint (v : IntValue) : Z := match v with U8 v | U32 v => v end.

(** The little-endian value of a byte sequence ([memcpy] on the host). *)
Fixpoint le_value (bytes : list Z) : Z :=
  match bytes with
  | [] => 0
  | b :: bytes => b + 256 * le_value bytes
  end.
(** [None] is the failed assertion. *)
Definition intFromVector (bytes : list Z) : option IntValue :=
  match bytes with
  | [_] => Some (U8 (le_value bytes))
  | [_; _; _; _] => Some (U32 (le_value bytes))
  | _ => None
  end.

(** Values of the C++ types. *)
Definition int_ok (v : IntValue) : bool :=
  (0 <=? intToUint v) && (intToUint v <? 2 ^ (8 * intByteSize v)).

(** * BitVector *)

Definition BitVector_int (value : IntValue) : option expr :=
  EConstant <$> CE_create (intToUint value) (intByteSize value * 8).
Definition BitVector_array (a : Array) : option expr := createTempRead a (arr_size a * 8).
(** [EqExpr::alloc] does not go through the builder. *)
Definition eqTrue (e : expr) : expr := ECmp Kind.Eq e (EConstant (CE_alloc 1 Bool)).
Definition eqFalse (e : expr) : expr := ECmp Kind.Eq e (EConstant (CE_alloc 0 Bool)).

(** * ConcolicValue *)

Record ConcolicValue := Concolic { concrete : expr; symbolic : option expr }.

(** [symbolic.value_or(concrete)]. *)
Definition sym_or_conc (c : ConcolicValue) : expr := default (concrete c) (symbolic c).

(** [ConcolicValue::getWidth]; [None] is the failed assertion. *)
Definition cv_getWidth (c : ConcolicValue) : option Z :=
  match symbolic c with
  | Some s =>
      if getWidth (concrete c) =? getWidth s then Some (getWidth (concrete c)) else None
  | None => Some (getWidth (concrete c))
  end.

Section operations.
Context `{ExprBuilder}.

(** BINARY_OPERATOR *)
Definition binary_operator (FN : expr -> expr -> expr) (this other : ConcolicValue) :
    ConcolicValue :=
  let bvv := FN (concrete this) (concrete other) in
  match symbolic this, symbolic other with
  | None, None => Concolic bvv None
  | _, _ => Concolic bvv (Some (FN (sym_or_conc this) (sym_or_conc other)))
  end.

Definition cv_arith (k : Kind.arith) := binary_operator (bArith k).
Definition cv_cmp (k : Kind.cmp) := binary_operator (bCmp k).
Definition cv_concat := binary_operator bConcat.

Definition unary_operator (FN : expr -> expr) (this : ConcolicValue) : ConcolicValue :=
  Concolic (FN (concrete this)) (FN <$> symbolic this).
Definition cv_bnot := unary_operator bNot.
Definition cv_extract (this : ConcolicValue) (offset width : Z) : ConcolicValue :=
  unary_operator (fun e => bExtract e offset width) this.
Definition cv_sext (this : ConcolicValue) (width : Z) : ConcolicValue :=
  unary_operator (fun e => bSExt e width) this.
Definition cv_zext (this : ConcolicValue) (width : Z) : ConcolicValue :=
  unary_operator (fun e => bZExt e width) this.

Definition cv_select (this texpr fexpr : ConcolicValue) : ConcolicValue :=
  Concolic (bSelect (concrete this) (concrete texpr) (concrete fexpr))
    ((fun s => bSelect s (sym_or_conc texpr) (sym_or_conc fexpr)) <$> symbolic this).

(** ** The solver as a factory *)

Definition BVC (name : option string) (value : IntValue) : option ConcolicValue :=
  c ← BitVector_int value;
  match name with
  | None => Some (Concolic c None)
  | Some name =>
      s ← BitVector_array (mkArray name (intByteSize value));
      Some (Concolic c (Some s))
  end.

(** [BVC(uint8_t *buf, size_t buflen, bool lsb)]: the buffer read is the list; the null
    pointer an empty buffer gives is [Some None]. *)
Fixpoint BVC_bytes_from (result : option ConcolicValue) (buf : list Z) (lsb : bool) :
    option (option ConcolicValue) :=
  match buf with
  | [] => Some result
  | b :: buf =>
      byte ← BVC None (U8 b);
      let result' := match result with
                     | None => byte
                     | Some r => if lsb then cv_concat r byte else cv_concat byte r
                     end in
      BVC_bytes_from (Some result') buf lsb
  end.
Definition BVC_bytes (buf : list Z) (lsb : bool) : option (option ConcolicValue) :=
  BVC_bytes_from None buf lsb.

(** [getValue<T>], for a [T] of so many bits. *)
Definition getValue (bits : Z) (bv : expr) : option Z :=
  v ← as_constant bv; getZExtValue v bits.

Definition BVCToBytes (value : ConcolicValue) (buflen : nat) : option (list Z) :=
  w ← cv_getWidth value;
  let n := Z.of_nat buflen in
  let value := if w <? n * 8 then cv_zext value (n * 8) else value in
  mapM (fun i => getValue 8 (concrete (cv_extract value (Z.of_nat i * 8) Int8))) (seq 0 buflen).
End operations.

(** * What a concolic value means

    Under the input [σ], [c] is a concolic view of the bit vector [v]: its concrete part is
    the constant [v] (the assertion of the constructor), and its symbolic part, if there is
    one, evaluates to [v]. *)
Definition cval (σ : assignment) (c : ConcolicValue) (v : apint) : Prop :=
  concrete c = EConstant v /\ ap_wf v /\
  (forall s, symbolic c = Some s -> eval σ s = Some v).

(** The input gives the variable [name] the value [v]. *)
Definition assigns (σ : assignment) (name : string) (v : IntValue) : Prop :=
  forall i, 0 <= i < intByteSize v -> wrap 8 (σ name i) = wrap 8 (Z.shiftr (intToUint v) (8 * i)).

Section concolic.
Context `{Laws : BuilderLaws} (σ : assignment).

Lemma cval_concrete c v : cval σ c v -> eval σ (concrete c) = Some v.
Proof. intros (-> & Hv & _). by apply eval_constant. Qed.

Lemma cval_sym_or_conc c v : cval σ c v -> eval σ (sym_or_conc c) = Some v.
Proof.
  intros Hc. unfold sym_or_conc. destruct (symbolic c) as [s|] eqn:Hs; cbn.
  - by apply Hc.
  - by apply cval_concrete.
Qed.

Lemma cval_wf c v : cval σ c v -> ap_wf v.
Proof. by intros (_ & ? & _). Qed.

Lemma cval_const c v : cval σ c v -> is_const (concrete c).
Proof. by intros (-> & _). Qed.

(** The assertion of [getWidth] holds. *)
Lemma cv_getWidth_spec c v : cval σ c v -> cv_getWidth c = Some (ap_width v).
Proof.
  intros Hc. pose proof (eval_width _ _ _ (cval_concrete _ _ Hc)) as Hw.
  unfold cv_getWidth. destruct (symbolic c) as [s|] eqn:Hs; [|congruence].
  destruct Hc as (_ & _ & Hs'). specialize (Hs' _ Hs).
  apply eval_width in Hs'. by rewrite <- Hs', <- Hw, Z.eqb_refl.
Qed.

(** A constant expression with the value [v] is the constant [v]. *)
Lemma const_value e v : is_const e -> eval σ e = Some v -> e = EConstant v /\ ap_wf v.
Proof. intros Hc. destruct e; try done. by intros [-> ?]%eval_constant_inv. Qed.

Lemma cval_intro e o v :
  is_const e -> eval σ e = Some v -> (forall s, o = Some s -> eval σ s = Some v) ->
  cval σ (Concolic e o) v.
Proof. intros Hc He Ho. by destruct (const_value e v Hc He) as [-> ?]. Qed.

Lemma binary_operator_cval FN a b x y v :
  (is_const (concrete a) -> is_const (concrete b) ->
     is_const (FN (concrete a) (concrete b))) ->
  (forall l r, eval σ l = Some x -> eval σ r = Some y -> eval σ (FN l r) = Some v) ->
  cval σ a x -> cval σ b y -> cval σ (binary_operator FN a b) v.
Proof.
  intros Hc Hs Ha Hb. unfold binary_operator.
  pose proof (Hc (cval_const _ _ Ha) (cval_const _ _ Hb)).
  pose proof (Hs _ _ (cval_concrete _ _ Ha) (cval_concrete _ _ Hb)).
  pose proof (Hs _ _ (cval_sym_or_conc _ _ Ha) (cval_sym_or_conc _ _ Hb)).
  destruct (symbolic a), (symbolic b); apply cval_intro; try done; by intros ? [= <-].
Qed.

Lemma unary_operator_cval FN a x v :
  (is_const (concrete a) -> is_const (FN (concrete a))) ->
  (forall e, eval σ e = Some x -> eval σ (FN e) = Some v) ->
  cval σ a x -> cval σ (unary_operator FN a) v.
Proof.
  intros Hc Hs Ha. unfold unary_operator. apply cval_intro.
  - by apply Hc, (cval_const _ _ Ha).
  - by apply Hs, cval_concrete.
  - intros s. destruct (symbolic a) as [e|] eqn:He; [|done]. intros [= <-].
    apply Hs. by apply Ha.
Qed.

Definition arith_val (k : Kind.arith) (x y : apint) : apint :=
  AP (ap_width x) (arith_spec (ap_width x) k (ap_val x) (ap_val y)).
Definition cmp_val (k : Kind.cmp) (x y : apint) : apint :=
  bool_ap (cmp_spec (ap_width x) k (ap_val x) (ap_val y)).

Lemma cv_arith_cval k a b x y :
  cval σ a x -> cval σ b y -> arith_ok k x y -> cval σ (cv_arith k a b) (arith_val k x y).
Proof.
  intros Ha Hb Hok. eapply binary_operator_cval; [apply bArith_const| |done|done].
  intros l r Hl Hr. apply bArith_sound. rewrite Hl, Hr. unfold ev_arith. cbn.
  rewrite Is_true_true in Hok. by rewrite Hok.
Qed.

Lemma cv_cmp_cval k a b x y :
  cval σ a x -> cval σ b y -> ap_width x = ap_width y ->
  cval σ (cv_cmp k a b) (cmp_val k x y).
Proof.
  intros Ha Hb Hw. eapply binary_operator_cval; [apply bCmp_const| |done|done].
  intros l r Hl Hr. apply bCmp_sound. rewrite Hl, Hr. unfold ev_cmp, cmp_val. cbn.
  by rewrite Hw, Z.eqb_refl.
Qed.

Lemma cv_concat_cval a b x y :
  cval σ a x -> cval σ b y -> cval σ (cv_concat a b) (concat_spec x y).
Proof.
  intros Ha Hb. eapply binary_operator_cval; [apply bConcat_const| |done|done].
  intros l r Hl Hr. apply bConcat_sound. by rewrite Hl, Hr.
Qed.

Lemma cv_bnot_cval a x : cval σ a x -> cval σ (cv_bnot a) (not_spec x).
Proof.
  intros Ha. eapply unary_operator_cval; [apply bNot_const| |done].
  intros e He. apply bNot_sound. by rewrite He.
Qed.

Lemma cv_extract_cval a x off w :
  cval σ a x -> extract_ok x off w -> cval σ (cv_extract a off w) (extract_spec x off w).
Proof.
  intros Ha Hok. eapply unary_operator_cval; [apply bExtract_const| |done].
  intros e He. apply bExtract_sound. rewrite He. cbn.
  rewrite Is_true_true in Hok. by rewrite Hok.
Qed.

Lemma cv_zext_cval a x w :
  cval σ a x -> ap_width x <= w -> cval σ (cv_zext a w) (AP w (ap_val x)).
Proof.
  intros Ha Hw. eapply unary_operator_cval; [apply bZExt_const| |done].
  intros e He. apply bZExt_sound. rewrite He. cbn.
  by rewrite (proj2 (Z.leb_le _ _) Hw).
Qed.

Lemma cv_sext_cval a x w :
  cval σ a x -> ap_width x <= w -> cval σ (cv_sext a w) (sext_spec x w).
Proof.
  intros Ha Hw. eapply unary_operator_cval; [apply bSExt_const| |done].
  intros e He. apply bSExt_sound. rewrite He. cbn.
  by rewrite (proj2 (Z.leb_le _ _) Hw).
Qed.

Lemma cv_select_cval c t f x y z :
  cval σ c x -> cval σ t y -> cval σ f z -> ap_width x = Bool -> ap_width y = ap_width z ->
  cval σ (cv_select c t f) (if ap_val x =? 0 then z else y).
Proof.
  intros Hc Ht Hf Hx Hw.
  assert (forall ec et ef, eval σ ec = Some x -> eval σ et = Some y -> eval σ ef = Some z ->
    eval σ (bSelect ec et ef) = Some (if ap_val x =? 0 then z else y)) as Hs.
  { intros ec et ef Hec Het Hef. apply bSelect_sound. rewrite Hec, Het, Hef.
    unfold ev_select. cbn. by rewrite Hx, Hw, !Z.eqb_refl. }
  apply cval_intro.
  - by apply bSelect_const; eapply cval_const.
  - by apply Hs; apply cval_concrete.
  - intros s. destruct (symbolic c) as [e|] eqn:He; [|done]. intros [= <-].
    apply Hs; [by apply Hc|by apply cval_sym_or_conc..].
Qed.

Lemma getValue_spec bits c v :
  cval σ c v -> ap_width v <= bits -> getValue bits (concrete c) = Some (ap_val v).
Proof.
  intros (-> & _) Hw. unfold getValue. cbn. unfold getZExtValue.
  by rewrite (proj2 (Z.leb_le _ _) Hw).
Qed.
End concolic.

(** * Bytes *)

Fixpoint le_bytes (n : nat) (v : Z) : list Z :=
  match n with
  | O => []
  | S n => wrap 8 v :: le_bytes n (Z.shiftr v 8)
  end.

Definition byte_ok (b : Z) : Prop := 0 <= b < 256.

Lemma le_value_bound bs : Forall byte_ok bs -> 0 <= le_value bs < 2 ^ (8 * Z.of_nat (length bs)).
Proof.
  induction 1 as [|b bs Hb _ IH]; [done|]. unfold byte_ok in Hb. cbn [le_value length].
  replace (8 * Z.of_nat (S (length bs))) with (8 + 8 * Z.of_nat (length bs)) by lia.
  rewrite Z.pow_add_r by lia. change (2 ^ 8) with 256. lia.
Qed.

Lemma le_value_app bs1 bs2 :
  le_value (bs1 ++ bs2) = le_value bs1 + 2 ^ (8 * Z.of_nat (length bs1)) * le_value bs2.
Proof.
  induction bs1 as [|b bs1 IH]; cbn [app le_value length].
  - rewrite Z.mul_0_r. change (2 ^ 0) with 1. lia.
  - replace (8 * Z.of_nat (S (length bs1))) with (8 + 8 * Z.of_nat (length bs1)) by lia.
    rewrite IH, Z.pow_add_r by lia. change (2 ^ 8) with 256. lia.
Qed.

Lemma le_bytes_value bs : Forall byte_ok bs -> le_bytes (length bs) (le_value bs) = bs.
Proof.
  induction 1 as [|b bs Hb _ IH]; [done|]. unfold byte_ok in Hb. cbn [le_value length le_bytes].
  assert (wrap 8 (b + 256 * le_value bs) = b) as ->.
  { unfold wrap. change (2 ^ 8) with 256. rewrite Z.mul_comm, Z_mod_plus_full. by apply Z.mod_small. }
  rewrite Z.shiftr_div_pow2 by lia. change (2 ^ 8) with 256.
  rewrite Z.mul_comm, Z.div_add, (Z.div_small b) by lia. by rewrite Z.add_0_l, IH.
Qed.

Lemma le_bytes_ok n v : Forall byte_ok (le_bytes n v).
Proof.
  revert v. induction n as [|n IH]; intros v; constructor; [|apply IH].
  apply (wrap_range 8). lia.
Qed.

Lemma length_le_bytes n v : length (le_bytes n v) = n.
Proof. revert v. induction n as [|n IH]; intros v; cbn; [done|]. by rewrite IH. Qed.

Lemma le_value_bytes n v : le_value (le_bytes n v) = wrap (8 * Z.of_nat n) v.
Proof.
  revert v. induction n as [|n IH]; intros v.
  - cbn. unfold wrap. by rewrite Z.mod_1_r.
  - cbn [le_bytes le_value]. rewrite IH. unfold wrap. rewrite Z.shiftr_div_pow2 by lia.
    replace (8 * Z.of_nat (S n)) with (8 + 8 * Z.of_nat n) by lia.
    rewrite Z.pow_add_r, Z.rem_mul_r by lia. lia.
Qed.

Lemma le_bytes_lookup n v : le_bytes n v = (fun i => wrap 8 (Z.shiftr v (Z.of_nat i * 8))) <$> seq 0 n.
Proof.
  revert v. induction n as [|n IH]; intros v; [done|]. cbn [le_bytes seq fmap list_fmap].
  rewrite Z.shiftr_0_r. f_equal. rewrite IH, <- fmap_S_seq, <- list_fmap_compose.
  apply list_fmap_ext. intros i j _. cbn. rewrite Z.shiftr_shiftr by lia. do 2 f_equal. lia.
Qed.

Lemma concat_val l r : ap_wf l -> ap_wf r ->
  concat_spec l r = AP (ap_width l + ap_width r) (ap_val r + 2 ^ ap_width r * ap_val l).
Proof.
  intros Hl Hr. unfold concat_spec. f_equal. pose proof (wf_width _ Hr).
  pose proof (wf_range _ Hr) as Hrr.
  assert (Z.land (Z.shiftl (ap_val l) (ap_width r)) (ap_val r) = 0) as Hland.
  { apply Z.bits_inj'. intros i Hi. rewrite Z.land_spec, Z.bits_0, Z.shiftl_spec by done.
    destruct (Z_lt_le_dec i (ap_width r)).
    - by rewrite Z.testbit_neg_r by lia.
    - by rewrite (testbit_high _ _ _ Hrr), andb_false_r by done. }
  rewrite <- Z.lxor_lor, <- Z.add_nocarry_lxor by done.
  rewrite Z.shiftl_mul_pow2 by lia. lia.
Qed.

Lemma concat_bytes n l r : ap_wf (AP 8 l) -> ap_wf (AP (8 * n) r) ->
  concat_spec (AP 8 l) (AP (8 * n) r) = AP (8 * (n + 1)) (r + 2 ^ (8 * n) * l).
Proof. intros Hl Hr. rewrite concat_val by done. cbn. f_equal. lia. Qed.

Lemma byte_wf b : byte_ok b -> ap_wf (AP 8 b).
Proof. intros Hb. by apply ap_wf_iff. Qed.

(** * The solver's conversions *)

Section conversions.
Context `{Laws : BuilderLaws} (σ : assignment).

Lemma int_ok_iff v : int_ok v <-> 0 <= intToUint v < 2 ^ (8 * intByteSize v).
Proof. unfold int_ok. rewrite Is_true_true, andb_true_iff. lia. Qed.

Lemma BitVector_int_spec v : int_ok v ->
  BitVector_int v = Some (EConstant (AP (8 * intByteSize v) (intToUint v))) /\
  ap_wf (AP (8 * intByteSize v) (intToUint v)).
Proof.
  intros Hv%int_ok_iff. unfold BitVector_int, CE_create, CE_alloc.
  rewrite Z.mul_comm, wrap_small by done. rewrite Z.eqb_refl. split; [done|].
  apply ap_wf_iff. cbn. split; [by destruct v|done].
Qed.

Lemma BVC_concrete v : int_ok v ->
  exists c, BVC None v = Some c /\ symbolic c = None /\
    cval σ c (AP (8 * intByteSize v) (intToUint v)).
Proof.
  intros [Hc Hwf]%BitVector_int_spec. unfold BVC. rewrite Hc. eexists. split; [done|].
  split; [done|]. by apply cval_intro; [|apply eval_constant|].
Qed.

Lemma read_byte_value name v i :
  assigns σ name v -> int_ok v -> 0 <= i < intByteSize v ->
  eval σ (read_byte (mkArray name (intByteSize v)) i) =
    Some (AP 8 (wrap 8 (Z.shiftr (intToUint v) (8 * i)))).
Proof.
  intros Ha Hv Hi. rewrite read_byte_eval; [|done|destruct v; cbn in *; lia].
  unfold Int8. do 2 f_equal. by apply Ha.
Qed.

Lemma BitVector_array_spec name v : assigns σ name v -> int_ok v ->
  exists s, BitVector_array (mkArray name (intByteSize v)) = Some s /\
    eval σ s = Some (AP (8 * intByteSize v) (intToUint v)).
Proof.
  intros Ha Hv. pose proof (proj1 (int_ok_iff v) Hv) as Hr.
  pose proof (read_byte_value name v) as Hb.
  destruct v as [v|v]; eexists; (split; [reflexivity|]).
  - rewrite (Hb 0) by (done || cbn; lia). cbn [intToUint intByteSize Z.mul] in *.
    by rewrite Z.shiftr_0_r, wrap_small.
  - cbn [eval]. cbn [intByteSize] in Hb |- *.
    rewrite (Hb 0), (Hb 1), (Hb 2), (Hb 3) by (done || lia).
    unfold ev_concat. cbn [mbind option_bind intToUint intByteSize] in *. f_equal.
    pose proof (fun i => ap_wf_wrap 8 (Z.shiftr v i) ltac:(lia)) as Hw.
    pose proof (le_value_bytes 4 v) as Hle. cbn [le_bytes le_value] in Hle.
    rewrite !Z.shiftr_shiftr, (wrap_small (8 * Z.of_nat 4)) in Hle by (done || lia).
    rewrite <- (Z.shiftr_0_r v) in Hle at 1.
    change (8 * 0) with 0. change (8 * 1) with 8. change (8 * 2) with (8 + 8).
    change (8 * 3) with (8 + 8 + 8).
    rewrite !concat_val by (repeat (apply concat_spec_wf || apply Hw)).
    cbn [ap_width ap_val]. change (2 ^ 8) with 256. f_equal.
    etransitivity; [|exact Hle]. lia.
Qed.

Lemma BVC_named name v : assigns σ name v -> int_ok v ->
  exists c, BVC (Some name) v = Some c /\
    cval σ c (AP (8 * intByteSize v) (intToUint v)).
Proof.
  intros Ha Hv. pose proof (BitVector_int_spec v Hv) as [Hc Hwf].
  destruct (BitVector_array_spec name v Ha Hv) as (s & Hs & He).
  unfold BVC. rewrite Hc. cbn [mbind option_bind]. rewrite Hs. eexists. split; [done|].
  apply cval_intro; [done|by apply eval_constant|by intros ? [= <-]].
Qed.

Lemma BVC_byte b : byte_ok b -> exists c, BVC None (U8 b) = Some c /\ cval σ c (AP 8 b).
Proof.
  intros Hb. destruct (BVC_concrete (U8 b)) as (c & ? & _ & ?); [by apply int_ok_iff|].
  by exists c.
Qed.

Lemma bytes_wf bs : bs <> [] -> Forall byte_ok bs ->
  ap_wf (AP (8 * Z.of_nat (length bs)) (le_value bs)).
Proof.
  intros Hne Hbs%le_value_bound. apply ap_wf_iff. cbn. split; [|done].
  destruct bs; [done|cbn; lia].
Qed.

(** What was collected so far is the value of the bytes [done]. *)
Lemma BVC_bytes_from_spec buf lsb : forall (prev : list Z) r,
  prev <> [] -> Forall byte_ok prev -> Forall byte_ok buf ->
  cval σ r (AP (8 * Z.of_nat (length prev)) (le_value prev)) ->
  exists c, BVC_bytes_from (Some r) buf lsb = Some (Some c) /\
    cval σ c (AP (8 * Z.of_nat (length prev + length buf))
               (le_value (if lsb then rev buf ++ prev else prev ++ buf))).
Proof.
  induction buf as [|b buf IH]; intros prev r Hne Hp Hb Hr.
  - exists r. split; [done|]. rewrite Nat.add_0_r. destruct lsb; [done|].
    by rewrite app_nil_r.
  - apply Forall_cons in Hb as [Hb Hbuf]. cbn [BVC_bytes_from].
    destruct (BVC_byte b Hb) as (byte & -> & Hbyte). cbn [mbind option_bind].
    pose proof (bytes_wf prev Hne Hp) as Hwp. pose proof (byte_wf b Hb) as Hwb.
    assert (Forall byte_ok (if lsb then b :: prev else prev ++ [b])) as Hp'
      by (destruct lsb; [by constructor|apply Forall_app_2; [done|by apply Forall_singleton]]).
    destruct (IH (if lsb then b :: prev else prev ++ [b])
                (if lsb then cv_concat r byte else cv_concat byte r))
      as (c & Hc & Hcv); [by destruct lsb, prev|done|done| |].
    + destruct lsb.
      * pose proof (cv_concat_cval σ _ _ _ _ Hr Hbyte) as H'.
        rewrite concat_val in H' by done. cbn [ap_width ap_val] in H'.
        cbn [length le_value]. change (2 ^ 8) with 256 in H'.
        by replace (8 * Z.of_nat (S (length prev))) with (8 * Z.of_nat (length prev) + 8) by lia.
      * pose proof (cv_concat_cval σ _ _ _ _ Hbyte Hr) as H'.
        rewrite concat_bytes in H' by done.
        rewrite length_app, le_value_app. cbn [length le_value].
        replace (Z.of_nat (length prev + 1)) with (Z.of_nat (length prev) + 1) by lia.
        by rewrite Z.mul_0_r, Z.add_0_r.
    + exists c. split; [by destruct lsb|]. cbn [length].
      destruct lsb; cbn [rev] in *; rewrite ?length_app in Hcv; cbn [length] in Hcv;
        rewrite <- ?app_assoc in *; cbn [app] in *.
      * by replace (length prev + S (length buf))%nat with (S (length prev) + length buf)%nat by lia.
      * by replace (length prev + S (length buf))%nat with (length prev + 1 + length buf)%nat by lia.
Qed.

Lemma BVC_bytes_spec buf lsb : buf <> [] -> Forall byte_ok buf ->
  exists c, BVC_bytes buf lsb = Some (Some c) /\
    cval σ c (AP (8 * Z.of_nat (length buf)) (le_value (if lsb then rev buf else buf))).
Proof.
  intros Hne Hb. destruct buf as [|b buf]; [done|].
  apply Forall_cons in Hb as [Hb Hbuf]. unfold BVC_bytes. cbn [BVC_bytes_from].
  destruct (BVC_byte b Hb) as (byte & -> & Hbyte). cbn [mbind option_bind].
  destruct (BVC_bytes_from_spec buf lsb [b] byte) as (c & Hc & Hcv); try done.
  { by apply Forall_singleton. }
  { cbn. by rewrite Z.add_0_r. }
  exists c. split; [done|]. by destruct lsb.
Qed.

(** [BVCToBytes] writes the value little-endian, whatever its width. *)
Lemma BVCToBytes_spec c v n : cval σ c v ->
  BVCToBytes c n = Some (le_bytes n (ap_val v)).
Proof.
  intros Hc. unfold BVCToBytes. rewrite (cv_getWidth_spec σ c v Hc).
  cbn [mbind option_bind]. rewrite le_bytes_lookup.
  set (c' := if ap_width v <? Z.of_nat n * 8 then _ else c).
  assert (exists w, Z.of_nat n * 8 <= w /\ cval σ c' (AP w (ap_val v))) as (w & Hw & Hc').
  { unfold c'. destruct (Z.ltb_spec (ap_width v) (Z.of_nat n * 8)) as [Hlt|Hge].
    - exists (Z.of_nat n * 8). split; [lia|]. apply cv_zext_cval; [done|lia].
    - exists (ap_width v). split; [lia|]. by destruct v. }
  apply mapM_Some. apply Forall2_fmap_r, Forall_Forall2_diag, Forall_forall.
  intros i [_ Hi]%elem_of_seq.
  assert (extract_ok (AP w (ap_val v)) (Z.of_nat i * 8) Int8) as Hok.
  { apply extract_ok_spec. cbn. unfold Int8. lia. }
  pose proof (cv_extract_cval σ _ _ _ _ Hc' Hok) as He.
  by rewrite (getValue_spec σ 8 _ _ He) by done.
Qed.
End conversions.

(** * The properties *)

Section properties.
Context `{Laws : BuilderLaws}.

(** C5 Concolic arithmetic is exact and stays synchronised: under any input for which
    the operands are views of [x] and [y], the result of each arithmetic or comparison
    operator, of [concat], [bnot], [extract], [zext], [sext] and [select] is a view of
    the bit vector the operator denotes; so the concrete part is always a constant (the
    assertion of the constructor), the symbolic part evaluates to it, and the assertion
    of [getWidth] holds. *)
Theorem concolic_operations_exact σ a b c x y z :
  cval σ a x -> cval σ b y -> cval σ c z ->
  (forall k, arith_ok k x y ->
     cval σ (cv_arith k a b) (arith_val k x y) /\
     cv_getWidth (cv_arith k a b) = Some (ap_width x)) /\
  (forall k, ap_width x = ap_width y ->
     cval σ (cv_cmp k a b) (cmp_val k x y) /\ cv_getWidth (cv_cmp k a b) = Some Bool) /\
  (cval σ (cv_concat a b) (concat_spec x y) /\
     cv_getWidth (cv_concat a b) = Some (ap_width x + ap_width y)) /\
  cval σ (cv_bnot a) (not_spec x) /\
  (forall off w, extract_ok x off w -> cval σ (cv_extract a off w) (extract_spec x off w)) /\
  (forall w, ap_width x <= w ->
     cval σ (cv_zext a w) (AP w (ap_val x)) /\ cval σ (cv_sext a w) (sext_spec x w)) /\
  (ap_width z = Bool -> ap_width x = ap_width y ->
     cval σ (cv_select c a b) (if ap_val z =? 0 then y else x)).
Proof.
  intros Ha Hb Hc. split; [|split; [|split; [|split; [|split; [|split]]]]].
  - intros k Hok. pose proof (cv_arith_cval σ k a b x y Ha Hb Hok) as H'. split; [done|].
    by apply cv_getWidth_spec in H'.
  - intros k Hw. pose proof (cv_cmp_cval σ k a b x y Ha Hb Hw) as H'. split; [done|].
    by apply cv_getWidth_spec in H'.
  - pose proof (cv_concat_cval σ a b x y Ha Hb) as H'. split; [done|].
    by apply cv_getWidth_spec in H'.
  - by apply cv_bnot_cval.
  - intros. by apply cv_extract_cval.
  - intros. by split; [apply cv_zext_cval|apply cv_sext_cval].
  - intros. by apply cv_select_cval.
Qed.

(** A byte buffer turned into a concolic value and back: read with [lsb = false] the
    bytes come back in the same order (the value is little-endian), with [lsb = true]
    they come back reversed (the value is big-endian). *)
Theorem buffer_roundtrip buf lsb :
  buf <> [] -> Forall byte_ok buf ->
  exists c, BVC_bytes buf lsb = Some (Some c) /\
    BVCToBytes c (length buf) = Some (if lsb then rev buf else buf).
Proof.
  intros Hne Hb. set (σ := (fun _ _ => 0) : assignment).
  destruct (BVC_bytes_spec σ buf lsb Hne Hb) as (c & Hc & Hv). exists c. split; [done|].
  rewrite (BVCToBytes_spec σ c _ _ Hv). cbn [ap_val]. f_equal.
  set (bs := if lsb then rev buf else buf).
  assert (length bs = length buf) as <- by (destruct lsb; [apply length_rev|done]).
  apply le_bytes_value. destruct lsb; [|done]. by apply Forall_rev.
Qed.
End properties.

(** ** Witnesses: the solver's builder, a symbolic word and constants *)

#[local] Instance witness_builder : ExprBuilder := solver_builder.

Definition sample_input : assignment := fun _ i => if i =? 0 then 0x04 else if i =? 1 then 0x03 else 0.
Definition sample_symbolic : ConcolicValue :=
  Concolic (EConstant (AP 32 0x0304)) (Some sample_word).
Definition sample_concrete (w z : Z) : ConcolicValue := Concolic (EConstant (AP w z)) None.

Lemma sample_symbolic_cval : cval sample_input sample_symbolic (AP 32 0x0304).
Proof.
  split; [reflexivity|split; [vm_compute; exact I|]]. intros s [= <-]. vm_compute. reflexivity.
Qed.
Lemma sample_concrete_cval w z :
  ap_wf (AP w z) -> cval sample_input (sample_concrete w z) (AP w z).
Proof. intros Hwf. by split. Qed.

Lemma concolic_operations_exact_witness :
  cval sample_input (cv_arith Kind.Mul sample_symbolic (sample_concrete 32 16)) (AP 32 0x3040).
Proof.
  refine (proj1 (proj1 (concolic_operations_exact (Laws := solver_builder_laws) sample_input
    sample_symbolic (sample_concrete 32 16) (sample_concrete 1 1) (AP 32 0x0304) (AP 32 16)
    (AP 1 1) sample_symbolic_cval _ _) Kind.Mul _)).
  - apply sample_concrete_cval. vm_compute. exact I.
  - apply sample_concrete_cval. vm_compute. exact I.
  - vm_compute. exact I.
Defined.

Lemma buffer_roundtrip_witness :
  exists c, BVC_bytes [0x12; 0x34] true = Some (Some c) /\ BVCToBytes c 2 = Some [0x34; 0x12].
Proof.
  refine (buffer_roundtrip (Laws := solver_builder_laws) [0x12; 0x34] true _ _);
    [discriminate|]. repeat constructor; discriminate.
Defined.
