(* ===== verification/ConcMem.v ===== *)
(** The concolic memory (clover/memory.cpp): a hash map from 32-bit addresses to concolic
    bytes.  It refines a memory of plain bytes, read and written little-endian. *)
From S2P Require Import Prelude Bits APInt KExpr KBuilder KBuilderSound Concolic.

(** [data]; keys are of type [Addr], 32-bit. *)
Record ConcolicMemory := mkMemory { mem_data : gmap Z ConcolicValue }.

Definition mem_empty : ConcolicMemory := mkMemory ∅.
(** [ConcolicMemory::reset] *)
Definition mem_reset (m : ConcolicMemory) : ConcolicMemory := mkMemory ∅.

Section memory.
Context `{ExprBuilder}.

(** The byte at an address; an uninitialised one reads as zero. *)
Definition load_byte (m : ConcolicMemory) (read_addr : Z) : option ConcolicValue :=
  match mem_data m !! read_addr with
  | Some byte => Some byte
  | None => BVC None (U8 0)
  end.

(** The loop of [load], from offset [off] on, for [n] more bytes.  The null pointer of an
    empty load is [Some None]. *)
Fixpoint load_from (m : ConcolicMemory) (addr off : Z) (n : nat)
    (result : option ConcolicValue) : option (option ConcolicValue) :=
  match n with
  | O => Some result
  | S n =>
      byte ← load_byte m (u32 (addr + off));
      let result' := match result with
                     | None => byte
                     | Some r => cv_concat byte r
                     end in
      load_from m addr (off + 1) n (Some result')
  end.
Definition load (m : ConcolicMemory) (addr : Z) (bytesize : nat) :
    option (option ConcolicValue) := load_from m addr 0 bytesize None.
Definition load_concolic (m : ConcolicMemory) (addr : ConcolicValue) (bytesize : nat) :
    option (option ConcolicValue) :=
  base_addr ← getValue 32 (concrete addr); load m base_addr bytesize.

(** The loop of [store]. *)
Fixpoint store_from (data : gmap Z ConcolicValue) (addr off : Z) (value : ConcolicValue)
    (n : nat) : gmap Z ConcolicValue :=
  match n with
  | O => data
  | S n =>
      store_from (<[u32 (addr + off) := cv_extract value (off * 8) Int8]> data)
        addr (off + 1) value n
  end.
Definition store (m : ConcolicMemory) (addr : Z) (value : ConcolicValue) (bytesize : nat) :
    option ConcolicMemory :=
  w ← cv_getWidth value;
  let n := Z.of_nat bytesize in
  let value := if w <? n * 8 then cv_zext value (n * 8) else value in
  Some (mkMemory (store_from (mem_data m) addr 0 value bytesize)).
Definition store_concolic (m : ConcolicMemory) (addr value : ConcolicValue)
    (bytesize : nat) : option ConcolicMemory :=
  base_addr ← getValue 32 (concrete addr); store m base_addr value bytesize.
End memory.

(** * The byte memory it implements *)

Definition bytemem := Z -> Z.
Definition upd (f : bytemem) (a b : Z) : bytemem := fun x => if x =? a then b else f x.
Fixpoint write_bytes (f : bytemem) (a : Z) (bs : list Z) : bytemem :=
  match bs with
  | [] => f
  | b :: bs => write_bytes (upd f (u32 a) b) (a + 1) bs
  end.
Fixpoint read_bytes (f : bytemem) (a : Z) (n : nat) : list Z :=
  match n with
  | O => []
  | S n => f (u32 a) :: read_bytes f (a + 1) n
  end.

(** The concolic memory is a view of the byte memory [f] under the input [σ]. *)
Definition mem_view (σ : assignment) (m : ConcolicMemory) (f : bytemem) : Prop :=
  (forall a, byte_ok (f a)) /\
  (forall a c, mem_data m !! a = Some c -> cval σ c (AP 8 (f a))) /\
  (forall a, mem_data m !! a = None -> f a = 0).

Lemma length_read_bytes f a n : length (read_bytes f a n) = n.
Proof. revert a. induction n as [|n IH]; intros a; cbn; [done|]. by rewrite IH. Qed.

Lemma read_bytes_app f a n k :
  read_bytes f a (n + k) = read_bytes f a n ++ read_bytes f (a + Z.of_nat n) k.
Proof.
  revert a. induction n as [|n IH]; intros a; cbn [Nat.add read_bytes app].
  - by rewrite Z.add_0_r.
  - rewrite IH. do 3 f_equal. lia.
Qed.

Lemma u32_injective a i j :
  0 <= i < 2 ^ 32 -> 0 <= j < 2 ^ 32 -> u32 (a + i) = u32 (a + j) -> i = j.
Proof.
  intros Hi Hj H. assert (eqm 32 i j) as Hij.
  { replace i with ((a + i) - a) by lia. rewrite (H : eqm 32 _ _).
    replace (a + j - a) with j by lia. done. }
  unfold eqm in Hij. by rewrite !wrap_small in Hij.
Qed.

(** What a write leaves at an address. *)
Lemma write_bytes_outside bs f a x :
  (forall i, 0 <= i < Z.of_nat (length bs) -> x <> u32 (a + i)) ->
  write_bytes f a bs x = f x.
Proof.
  revert f a. induction bs as [|b bs IH]; intros f a Hx; cbn [write_bytes]; [done|].
  rewrite IH.
  - unfold upd. destruct (Z.eqb_spec x (u32 a)) as [->|]; [|done].
    destruct (Hx 0); [cbn; lia|]. by rewrite Z.add_0_r.
  - intros i Hi. replace (a + 1 + i) with (a + (1 + i)) by lia. apply Hx. cbn. lia.
Qed.

Lemma read_write_bytes bs f a : Z.of_nat (length bs) <= 2 ^ 32 ->
  read_bytes (write_bytes f a bs) a (length bs) = bs.
Proof.
  revert f a. induction bs as [|b bs IH]; intros f a Hlen; [done|].
  cbn [length read_bytes write_bytes] in *. f_equal.
  - rewrite write_bytes_outside; [unfold upd; by rewrite Z.eqb_refl|].
    intros i Hi Heq. replace (a + 1 + i) with (a + (1 + i)) in Heq by lia.
    rewrite <- (Z.add_0_r a) in Heq at 1. apply u32_injective in Heq; lia.
  - apply IH. lia.
Qed.

Lemma read_bytes_ext f g a n :
  (forall i, 0 <= i < Z.of_nat n -> f (u32 (a + i)) = g (u32 (a + i))) ->
  read_bytes f a n = read_bytes g a n.
Proof.
  revert a. induction n as [|n IH]; intros a H; cbn [read_bytes]; [done|]. f_equal.
  - specialize (H 0). rewrite Z.add_0_r in H. apply H. lia.
  - apply IH. intros i Hi. replace (a + 1 + i) with (a + (1 + i)) by lia. apply H. lia.
Qed.

(** * Refinement *)

Section refinement.
Context `{Laws : BuilderLaws} (σ : assignment).

Lemma mem_view_empty : mem_view σ mem_empty (fun _ => 0).
Proof.
  split; [done|]. split; [|done]. intros a c Hc. cbn in Hc. by rewrite lookup_empty in Hc.
Qed.

Lemma read_bytes_ok m f a n : mem_view σ m f -> Forall byte_ok (read_bytes f a n).
Proof.
  intros (Hok & _). revert a. induction n as [|n IH]; intros a; constructor; auto.
Qed.

Lemma load_byte_spec m f a : mem_view σ m f ->
  exists c, load_byte m a = Some c /\ cval σ c (AP 8 (f a)).
Proof.
  intros (Hok & Hs & Hn). unfold load_byte. destruct (mem_data m !! a) as [c|] eqn:Hc.
  - exists c. split; [done|]. by apply Hs.
  - rewrite (Hn a Hc). destruct (BVC_byte σ 0) as (c & Hc' & Hv); [done|]. by exists c.
Qed.

Lemma load_from_spec m f a : mem_view σ m f -> forall n k r,
  cval σ r (AP (8 * Z.of_nat (S k)) (le_value (read_bytes f a (S k)))) ->
  exists c, load_from m a (Z.of_nat (S k)) n (Some r) = Some (Some c) /\
    cval σ c (AP (8 * Z.of_nat (S k + n)) (le_value (read_bytes f a (S k + n)))).
Proof.
  intros Hm. induction n as [|n IH]; intros k r Hr.
  - exists r. by rewrite Nat.add_0_r.
  - destruct (load_byte_spec m f (u32 (a + Z.of_nat (S k))) Hm) as (b & Hb & Hbv).
    cbn [load_from]. rewrite Hb. cbn [mbind option_bind].
    destruct (IH (S k) (cv_concat b r)) as (c & Hc & Hcv).
    + pose proof (cv_concat_cval σ _ _ _ _ Hbv Hr) as H'.
      rewrite concat_bytes in H' by (by eapply cval_wf).
      replace (Z.of_nat (S (S k))) with (Z.of_nat (S k) + 1) by lia.
      replace (S (S k)) with (S k + 1)%nat by lia.
      rewrite read_bytes_app, le_value_app, length_read_bytes.
      cbn [read_bytes le_value]. by rewrite Z.mul_0_r, Z.add_0_r.
    + exists c. replace (S k + S n)%nat with (S (S k) + n)%nat by lia. split; [|done].
      rewrite <- Hc. f_equal. lia.
Qed.

Lemma load_spec m f a n : mem_view σ m f -> (0 < n)%nat ->
  exists c, load m a n = Some (Some c) /\
    cval σ c (AP (8 * Z.of_nat n) (le_value (read_bytes f a n))).
Proof.
  intros Hm Hn. destruct n as [|n]; [lia|]. unfold load. cbn [load_from].
  destruct (load_byte_spec m f (u32 (a + 0)) Hm) as (b & Hb & Hbv). rewrite Hb.
  cbn [mbind option_bind].
  destruct (load_from_spec m f a Hm n 0 b) as (c & Hc & Hcv).
  { cbn [read_bytes le_value]. rewrite Z.add_0_r in Hbv. by rewrite Z.mul_0_r, Z.add_0_r. }
  by exists c.
Qed.

Lemma mem_view_insert m f a c b :
  mem_view σ m f -> cval σ c (AP 8 b) ->
  mem_view σ (mkMemory (<[a := c]> (mem_data m))) (upd f a b).
Proof.
  intros (Hok & Hs & Hn) Hc. unfold upd. split; [|split]; cbn [mem_data].
  - intros x. destruct (x =? a); [|apply Hok].
    apply cval_wf, ap_wf_iff in Hc. by destruct Hc.
  - intros x c' Hx. destruct (Z.eqb_spec x a) as [->|Hne].
    + rewrite lookup_insert_eq in Hx. by injection Hx as <-.
    + rewrite lookup_insert_ne in Hx by done. by apply Hs.
  - intros x Hx. destruct (Z.eqb_spec x a) as [->|Hne].
    + by rewrite lookup_insert_eq in Hx.
    + rewrite lookup_insert_ne in Hx by done. by apply Hn.
Qed.

Lemma store_from_spec value w x a n : cval σ value (AP w x) ->
  forall k m f, mem_view σ m f -> 8 * Z.of_nat (k + n) <= w ->
  mem_view σ (mkMemory (store_from (mem_data m) a (Z.of_nat k) value n))
    (write_bytes f (a + Z.of_nat k) (le_bytes n (Z.shiftr x (8 * Z.of_nat k)))).
Proof.
  intros Hv. induction n as [|n IH]; intros k m f Hm Hw; [by destruct m|].
  cbn [store_from le_bytes write_bytes].
  rewrite Z.shiftr_shiftr by lia.
  replace (8 * Z.of_nat k + 8) with (8 * Z.of_nat (S k)) by lia.
  replace (a + Z.of_nat k + 1) with (a + Z.of_nat (S k)) by lia.
  replace (Z.of_nat k + 1) with (Z.of_nat (S k)) by lia.
  apply (IH (S k) (mkMemory _)); [|lia]. apply mem_view_insert; [done|].
  pose proof (cv_extract_cval σ value (AP w x) (Z.of_nat k * 8) Int8 Hv) as He.
  replace (8 * Z.of_nat k) with (Z.of_nat k * 8) by lia. apply He. apply extract_ok_spec. cbn. unfold Int8. lia.
Qed.

Lemma store_spec m f a value x n : mem_view σ m f -> cval σ value x ->
  exists m', store m a value n = Some m' /\
    mem_view σ m' (write_bytes f a (le_bytes n (ap_val x))).
Proof.
  intros Hm Hv. unfold store. rewrite (cv_getWidth_spec σ value x Hv).
  cbn [mbind option_bind]. eexists. split; [done|].
  set (value' := if ap_width x <? Z.of_nat n * 8 then _ else value).
  assert (exists w, Z.of_nat n * 8 <= w /\ cval σ value' (AP w (ap_val x))) as (w & Hw & Hv').
  { unfold value'. destruct (Z.ltb_spec (ap_width x) (Z.of_nat n * 8)) as [Hlt|Hge].
    - exists (Z.of_nat n * 8). split; [lia|]. apply cv_zext_cval; [done|lia].
    - exists (ap_width x). split; [lia|]. by destruct x. }
  pose proof (store_from_spec value' w (ap_val x) a n Hv' 0 m f Hm ltac:(lia)) as H'.
  by rewrite Z.add_0_r, Z.mul_0_r, Z.shiftr_0_r in H'.
Qed.

End refinement.

(** * The properties *)

Section properties.
Context `{Laws : BuilderLaws}.

(** C9 The concolic memory refines a memory of bytes: the empty memory is all zeros; a
    load of [n] bytes returns a concolic view of the little-endian value of the bytes read,
    addresses wrapping at 32 bits; a store writes the low [n] bytes of the value (extended
    with zeros when it is narrower).  Neither fails an assertion. *)
Theorem memory_refines_bytes σ m f a n value x :
  mem_view σ m f -> cval σ value x -> (0 < n)%nat ->
  mem_view σ (mem_reset m) (fun _ => 0) /\
  (exists c, load m a n = Some (Some c) /\
     cval σ c (AP (8 * Z.of_nat n) (le_value (read_bytes f a n)))) /\
  (exists m', store m a value n = Some m' /\
     mem_view σ m' (write_bytes f a (le_bytes n (ap_val x)))).
Proof.
  intros Hm Hv Hn. split; [apply mem_view_empty|]. split; [by apply load_spec|].
  by apply store_spec.
Qed.

(** Load after store: reading back the [n] bytes just stored gives the stored value
    modulo [2 ^ (8 n)], for concrete and symbolic part alike, and a load from addresses
    the store does not touch gives what it gave before. *)
Theorem load_after_store σ m f a n value x :
  mem_view σ m f -> cval σ value x -> (0 < n)%nat -> Z.of_nat n <= 2 ^ 32 ->
  exists m', store m a value n = Some m' /\
    (exists c, load m' a n = Some (Some c) /\
       cval σ c (AP (8 * Z.of_nat n) (wrap (8 * Z.of_nat n) (ap_val x)))) /\
    (forall b k, (0 < k)%nat ->
       (forall i j, 0 <= i < Z.of_nat k -> 0 <= j < Z.of_nat n -> u32 (b + i) <> u32 (a + j)) ->
       exists c c', load m b k = Some (Some c) /\ load m' b k = Some (Some c') /\
         forall v, cval σ c v -> cval σ c' v).
Proof.
  intros Hm Hv Hn Hmax. destruct (store_spec σ m f a value x n Hm Hv) as (m' & Hs & Hm').
  exists m'. split; [done|]. split.
  - destruct (load_spec σ m' _ a n Hm' Hn) as (c & Hc & Hcv). exists c. split; [done|].
    rewrite <- (length_le_bytes n (ap_val x)) in Hcv at 3.
    rewrite read_write_bytes in Hcv by (by rewrite length_le_bytes).
    by rewrite le_value_bytes in Hcv.
  - intros b k Hk Hdisj.
    destruct (load_spec σ m f b k Hm Hk) as (c & Hc & Hcv).
    destruct (load_spec σ m' _ b k Hm' Hk) as (c' & Hc' & Hcv').
    exists c, c'. split; [done|]. split; [done|]. intros v Hcv2.
    assert (v = AP (8 * Z.of_nat k) (le_value (read_bytes f b k))) as ->.
    { destruct Hcv as (H1 & _), Hcv2 as (H2 & _). congruence. }
    rewrite (read_bytes_ext _ f) in Hcv'; [done|]. intros i Hi.
    apply write_bytes_outside. rewrite length_le_bytes. intros j Hj. by apply Hdisj.
Qed.
End properties.

(** ** Witnesses: a symbolic word stored at the top of the address space, across the wrap *)

#[local] Instance witness_builder : ExprBuilder := solver_builder.

Lemma memory_refines_bytes_witness :
  exists m', store mem_empty 0xfffffffe sample_symbolic 4 = Some m' /\
    mem_view sample_input m'
      (write_bytes (fun _ => 0) 0xfffffffe (le_bytes 4 0x0304)).
Proof.
  refine (proj2 (proj2 (memory_refines_bytes (Laws := solver_builder_laws) sample_input
    mem_empty (fun _ => 0) 0xfffffffe 4 sample_symbolic (AP 32 0x0304) _ sample_symbolic_cval _))).
  - apply mem_view_empty.
  - lia.
Defined.

Lemma load_after_store_witness :
  exists m', store mem_empty 0xfffffffe sample_symbolic 2 = Some m' /\
    exists c, load m' 0xfffffffe 2 = Some (Some c) /\ cval sample_input c (AP 16 0x0304).
Proof.
  destruct (load_after_store (Laws := solver_builder_laws) sample_input mem_empty (fun _ => 0)
    0xfffffffe 2 sample_symbolic (AP 32 0x0304)) as (m' & Hm & Hl & _);
    [apply mem_view_empty|apply sample_symbolic_cval|lia|lia|].
  exists m'. split; [exact Hm|exact Hl].
Defined.
