(* ===== verification/PathTrace.v ===== *)
(** Dynamic symbolic execution (clover: node.cpp, trace.cpp): the tree of branch conditions
    met so far, the choice of a branch to negate, and the search for an input that takes a
    path not explored yet.  KLEE's constraint manager, its construction of negations and
    its solver chain are an interface; [klee_solver] implements it with the constraint
    manager of [KConstraints] and any solver chain. *)
From S2P Require Import Prelude Bits APInt KExpr KType KCreate KCreateSound KVisitor KConstraints Concolic.

(** * The execution tree *)

Record Branch := mkBranch { bv : expr; wasNegated : bool; addr : Z; pktSeqLen : Z }.

(** A [Node *]: the null pointer, or a node; a null [value] makes it a placeholder. *)
Inductive node :=
| Null
| Node (value : option Branch) (true_branch false_branch : node).

(** [Trace::Node::Node] *)
Definition new_Node : node := Node None Null Null.

Definition is_null (n : node) : bool := match n with Null => true | _ => false end.
Definition isPlaceholder (n : node) : bool :=
  match n with Node (Some _) _ _ => false | _ => true end.

Definition PathElement : Type := Branch * bool.
Definition Path : Type := list PathElement.

(** The test of [randomUnnegated] on the node itself. *)
Definition negatable (k : Z) (value : Branch) (t f : node) : bool :=
  (k <=? pktSeqLen value) && negb (wasNegated value) && (is_null t || is_null f).

(** [randomUnnegated]: [rnd] gives the outcomes of [rand() % 2 == 0], [pos] counts the
    calls made.  The result is the path from this node on, [None] for [false]. *)
Fixpoint randomUnnegated (rnd : nat -> bool) (k : Z) (n : node) (pos : nat) :
    option Path * nat :=
  match n with
  | Node (Some value) t f =>
      let self pos :=
        if negatable k value t f then (Some [(value, negb (is_null t))], pos) else (None, pos) in
      if rnd pos then
        match randomUnnegated rnd k t (S pos) with
        | (Some p, pos) => (Some ((value, true) :: p), pos)
        | (None, pos) =>
            match randomUnnegated rnd k f pos with
            | (Some p, pos) => (Some ((value, false) :: p), pos)
            | (None, pos) => self pos
            end
        end
      else
        match randomUnnegated rnd k f (S pos) with
        | (Some p, pos) => (Some ((value, false) :: p), pos)
        | (None, pos) =>
            match randomUnnegated rnd k t pos with
            | (Some p, pos) => (Some ((value, true) :: p), pos)
            | (None, pos) => self pos
            end
        end
  | _ => (None, pos)
  end.

(** The children a pointer into the tree goes through, from the root. *)
Definition position : Type := list bool.

(** Applies [f] to the node at a position. *)
Fixpoint update_at (f : node -> node) (p : position) (n : node) : node :=
  match p, n with
  | [], _ => f n
  | true :: p, Node v t e => Node v (update_at f p t) e
  | false :: p, Node v t e => Node v t (update_at f p e)
  | _, Null => Null
  end.

Definition ensure_node (n : node) : node := match n with Null => new_Node | _ => n end.

(** The node after [addBranch]: a placeholder takes the branch, and the child the
    execution goes to exists. *)
Definition addBranch_node (branch : Branch) (condition : bool) (n : node) : node :=
  match n with
  | Null => Null
  | Node v t f =>
      let v := match v with None => Some branch | Some _ => v end in
      if condition then Node v (ensure_node t) f else Node v t (ensure_node f)
  end.

(** [branch->wasNegated = true] on the branch of a node. *)
Definition negate_node (n : node) : node :=
  match n with
  | Node (Some b) t f => Node (Some (mkBranch (bv b) true (addr b) (pktSeqLen b))) t f
  | _ => n
  end.

(** * The solver, as the trace uses it *)

Record Query := mkQuery { q_constraints : ConstraintSet; q_expr : expr }.
(** [klee::Assignment]: the bytes of each symbolic array. *)
Definition Assignment : Type := list (Array * list Z).

Class KleeSolver := {
  (** [ConstraintManager::addConstraint], [None] for its failed assertion, and
      [::simplifyExpr] *)
  addConstraint : ConstraintSet -> expr -> option ConstraintSet;
  simplifyExpr : ConstraintSet -> expr -> expr;
  (** [Expr::createIsZero] *)
  createIsZero : expr -> expr;
  (** [getInitialValues]: an assignment that satisfies the constraints and makes the
      expression of the query false. *)
  getInitialValues : Query -> option Assignment;
  (** [computeValidity] of the solver chain; [None] when it fails or does not know. *)
  computeValidity : Query -> option bool;
}.

Section trace.
Context `{KleeSolver}.

(** [Query::negateExpr] *)
Definition negateExpr (q : Query) : Query := mkQuery (q_constraints q) (createIsZero (q_expr q)).
(** [Solver::getAssignment] *)
Definition getAssignment (query : Query) : option Assignment :=
  let nq := negateExpr query in
  match as_constant (q_expr nq) with
  | Some ce => if isTrue ce then None else getInitialValues nq
  | None => getInitialValues nq
  end.

(** [klee::Solver::evaluate], which answers for constants itself, and clover's
    [Solver::eval]; [None] is a failed assertion or an exception. *)
Definition Solver_eval (query : Query) : option bool :=
  if getWidth (q_expr query) =? Bool then
    match as_constant (q_expr query) with
    | Some ce => Some (isTrue ce)
    | None => computeValidity query
    end
  else None.

Record Trace := mkTrace {
  cs : ConstraintSet;
  assume_cs : ConstraintSet;
  pathCondsRoot : node;
  pathCondsCurrent : option position;   (* the null pointer is [None] *)
}.

Definition Trace_new : Trace := mkTrace [] [] new_Node None.
Definition Trace_reset (s : Trace) : Trace := mkTrace [] (assume_cs s) (pathCondsRoot s) None.

Definition addBranch (s : Trace) (branch : Branch) (condition : bool) : Trace :=
  let pos := default [] (pathCondsCurrent s) in
  mkTrace (cs s) (assume_cs s)
    (update_at (addBranch_node branch condition) pos (pathCondsRoot s))
    (Some (pos ++ [condition])).

Definition branch_cond (e : expr) (condition : bool) : expr :=
  if condition then eqTrue e else eqFalse e.

(** [Trace::add]; [None] is the failed assertion of the constraint manager. *)
Definition Trace_add (s : Trace) (condition : bool) (e : expr) (pc k : Z) : option Trace :=
  cs ← addConstraint (cs s) (branch_cond e condition);
  let s := mkTrace cs (assume_cs s) (pathCondsRoot s) (pathCondsCurrent s) in
  Some (addBranch s (mkBranch e false pc k) condition).

Definition Trace_assume (s : Trace) (constraint : expr) : option Trace :=
  assume_cs ← addConstraint (assume_cs s) constraint;
  Some (mkTrace (cs s) assume_cs (pathCondsRoot s) (pathCondsCurrent s)).

Definition getQuery (s : Trace) (e : expr) : Query := mkQuery (cs s) (simplifyExpr (cs s) e).

(** The loop of [newQuery] over the path; [None] is a failed assertion, or its unreachable
    end (an empty path). *)
Fixpoint newQuery_from (cs : ConstraintSet) (path : Path) : option Query :=
  match path with
  | [] => None
  | [(branch, cond)] =>
      Some (negateExpr (mkQuery cs (simplifyExpr cs (branch_cond (bv branch) cond))))
  | (branch, cond) :: path =>
      cs ← addConstraint cs (branch_cond (bv branch) cond); newQuery_from cs path
  end.
Fixpoint addConstraints (cs : ConstraintSet) (es : list expr) : option ConstraintSet :=
  match es with
  | [] => Some cs
  | e :: es => cs ← addConstraint cs e; addConstraints cs es
  end.
Definition newQuery (s : Trace) (cs : ConstraintSet) (path : Path) : option Query :=
  cs ← addConstraints cs (assume_cs s); newQuery_from cs path.

(** Where the last branch of a path is. *)
Definition path_position (path : Path) : position := removelast (snd <$> path).

(** [newQuery] also records that the branch at the end of the path was negated. *)
Definition mark_negated (s : Trace) (path : Path) : Trace :=
  mkTrace (cs s) (assume_cs s)
    (update_at negate_node (path_position path) (pathCondsRoot s)) (pathCondsCurrent s).

(** How the search ends: with an assignment, with [nullopt] when all branches are
    exhausted, or in an assertion of the constraint manager. *)
Inductive search_result :=
| NewPath (assign : Assignment)
| Exhausted
| AssertionFailed.

(** [findNewPath]: the loop runs on fuel, [None] when it runs out. *)
Fixpoint findNewPath (fuel : nat) (rnd : nat -> bool) (pos : nat) (k : Z) (s : Trace) :
    option (search_result * Trace * nat) :=
  match fuel with
  | O => None
  | S fuel =>
      match randomUnnegated rnd k (pathCondsRoot s) pos with
      | (None, pos) => Some (Exhausted, s, pos)
      | (Some path, pos) =>
          match newQuery s [] path with
          | None => Some (AssertionFailed, s, pos)
          | Some query =>
              let s := mark_negated s path in
              match getAssignment query with
              | Some assign => Some (NewPath assign, s, pos)
              | None => findNewPath fuel rnd pos k s
              end
          end
      end
  end.

(** [fromAssume]: [withFalse] puts [false] as the expression. *)
Definition fromAssume (s : Trace) : option Assignment :=
  getAssignment (negateExpr (mkQuery (assume_cs s) (EConstant (CE_alloc 0 Bool)))).
End trace.

(** [getStore]; [None] is the failed assertion of [intFromVector]. *)
Abbreviation ConcreteStore := (gmap string IntValue).
Fixpoint getStore_from (store : ConcreteStore) (assign : Assignment) : option ConcreteStore :=
  match assign with
  | [] => Some store
  | (a, value) :: assign =>
      v ← intFromVector value;
      getStore_from (<[arr_name a := v]> store) assign
  end.
Definition getStore (assign : Assignment) : option ConcreteStore := getStore_from ∅ assign.

(** Number of branches not negated yet. *)
Fixpoint unnegated (n : node) : nat :=
  match n with
  | Null => 0
  | Node v t f =>
      (match v with Some b => if wasNegated b then 0 else 1 | None => 0 end)
      + unnegated t + unnegated f
  end.

(** * Trees and paths *)

Fixpoint wf_tree (n : node) : Prop :=
  match n with
  | Null => True
  | Node None t f => t = Null /\ f = Null
  | Node (Some _) t f => (t <> Null \/ f <> Null) /\ wf_tree t /\ wf_tree f
  end.

(** [leads n p m]: from [n], taking the branches of [p] in the directions it gives leads to
    the node [m]. *)
Inductive leads : node -> list (expr * bool) -> node -> Prop :=
| leads_here n : leads n [] n
| leads_true v t f p m : leads t p m -> leads (Node (Some v) t f) ((bv v, true) :: p) m
| leads_false v t f p m : leads f p m -> leads (Node (Some v) t f) ((bv v, false) :: p) m.

(** The same tree, with possibly more branches negated. *)
Inductive more_negated : node -> node -> Prop :=
| more_null : more_negated Null Null
| more_placeholder t f t' f' :
    more_negated t t' -> more_negated f f' -> more_negated (Node None t f) (Node None t' f')
| more_node b w t f t' f' :
    (wasNegated b = true -> w = true) -> more_negated t t' -> more_negated f f' ->
    more_negated (Node (Some b) t f)
      (Node (Some (mkBranch (bv b) w (addr b) (pktSeqLen b))) t' f').

Lemma more_negated_refl n : more_negated n n.
Proof.
  induction n as [|[[]|] t IHt f IHf]; [constructor| |by constructor].
  by apply (more_node (mkBranch _ _ _ _)).
Qed.

Lemma more_negated_trans n1 n2 n3 :
  more_negated n1 n2 -> more_negated n2 n3 -> more_negated n1 n3.
Proof.
  intros H. revert n3. induction H as [| |b w t f t' f' Hw Ht IHt Hf IHf]; intros n3 H3.
  - done.
  - inversion H3; subst. constructor; auto.
  - inversion H3 as [| |? w' ? ? t2 f2 Hw']; subst. cbn in *. constructor; auto.
Qed.

Lemma more_negated_mark p n : more_negated n (update_at negate_node p n).
Proof.
  revert n. induction p as [|[] p IH]; intros n.
  - destruct n as [|[b|] t f]; cbn; [constructor| |apply more_negated_refl].
    constructor; [done|apply more_negated_refl..].
  - destruct n as [|[[]|] t f]; cbn; [constructor|apply (more_node (mkBranch _ _ _ _))|constructor];
      done || apply more_negated_refl || apply IH.
  - destruct n as [|[[]|] t f]; cbn; [constructor|apply (more_node (mkBranch _ _ _ _))|constructor];
      done || apply more_negated_refl || apply IH.
Qed.

Lemma more_negated_null n n' : more_negated n n' -> n = Null <-> n' = Null.
Proof. by destruct 1. Qed.

Lemma more_negated_leads n n' p m' :
  more_negated n n' -> leads n' p m' -> exists m, leads n p m /\ more_negated m m'.
Proof.
  intros Hn Hl. revert n Hn.
  induction Hl as [n'|v t f p m Hl IH|v t f p m Hl IH]; intros n Hn.
  - exists n. split; [constructor|done].
  - inversion Hn as [| |b w t0 f0 ? ? Hw Ht Hf]; subst.
    destruct (IH t0 Ht) as (m0 & ? & ?). exists m0. split; [by apply (leads_true b)|done].
  - inversion Hn as [| |b w t0 f0 ? ? Hw Ht Hf]; subst.
    destruct (IH f0 Hf) as (m0 & ? & ?). exists m0. split; [by apply (leads_false b)|done].
Qed.

Lemma more_negated_wf n n' : more_negated n n' -> wf_tree n -> wf_tree n'.
Proof.
  induction 1 as [|t f t' f' Ht IHt Hf IHf|b w t f t' f' Hw Ht IHt Hf IHf]; cbn; [done| |].
  - intros [-> ->]. split; [by apply (more_negated_null _ _ Ht)|by apply (more_negated_null _ _ Hf)].
  - intros (Hne & ? & ?). split; [|by auto].
    destruct Hne as [Hne|Hne]; [left|right]; contradict Hne;
      [by apply (more_negated_null _ _ Ht)|by apply (more_negated_null _ _ Hf)].
Qed.

(** * Choosing a branch to negate *)

Definition conds (path : Path) : list (expr * bool) := (fun e => (bv e.1, e.2)) <$> path.

(** A path [randomUnnegated] may return: it leads to a branch not negated yet, first met
    with at least the packet sequence length asked for, one of whose directions is
    unexplored; the last element names the other direction. *)
Definition selects (k : Z) (n : node) (path : Path) : Prop :=
  exists p b t f,
    path = p ++ [(b, negb (is_null t))] /\ leads n (conds p) (Node (Some b) t f) /\
    k <= pktSeqLen b /\ wasNegated b = false /\ (t = Null \/ f = Null).

Lemma selects_cons k v t f (d : bool) p :
  selects k (if d then t else f) p -> selects k (Node (Some v) t f) ((v, d) :: p).
Proof.
  intros (q & b & t' & f' & -> & Hl & Hb). exists ((v, d) :: q), b, t', f'.
  split; [done|]. split; [|done]. destruct d; by constructor.
Qed.

Lemma negatable_spec k v t f : negatable k v t f = true <->
  k <= pktSeqLen v /\ wasNegated v = false /\ (t = Null \/ f = Null).
Proof.
  unfold negatable. rewrite !andb_true_iff, orb_true_iff, Z.leb_le, negb_true_iff.
  destruct t, f; cbn; intuition congruence.
Qed.

(** Some branch of the tree can be negated. *)
Fixpoint has_negatable (k : Z) (n : node) : bool :=
  match n with
  | Node (Some v) t f => has_negatable k t || has_negatable k f || negatable k v t f
  | _ => false
  end.

Lemma randomUnnegated_spec rnd k n : forall pos,
  match (randomUnnegated rnd k n pos).1 with
  | Some path => has_negatable k n = true /\ selects k n path
  | None => has_negatable k n = false
  end.
Proof.
  induction n as [|[v|] t IHt f IHf]; intros pos; [done| |done].
  cbn [randomUnnegated has_negatable].
  assert (forall pos',
    match (if negatable k v t f then (Some [(v, negb (is_null t))], pos') else (None, pos') :
             option Path * nat).1 with
    | Some path => negatable k v t f = true /\ selects k (Node (Some v) t f) path
    | None => negatable k v t f = false
    end) as Hself.
  { intros pos'. destruct (negatable k v t f) eqn:Hn; cbn; [|done]. split; [done|].
    exists [], v, t, f. split; [done|]. split; [constructor|by apply negatable_spec]. }
  destruct (rnd pos).
  - specialize (IHt (S pos)). destruct (randomUnnegated rnd k t (S pos)) as [[p|] pos1]; cbn in *.
    { destruct IHt as [-> Hp]. split; [done|]. by apply (selects_cons k v t f true). }
    specialize (IHf pos1). destruct (randomUnnegated rnd k f pos1) as [[p|] pos2]; cbn in *.
    { destruct IHf as [-> Hp]. split; [by rewrite orb_true_r|]. by apply (selects_cons k v t f false). }
    rewrite IHt, IHf. specialize (Hself pos2). by destruct (negatable k v t f).
  - specialize (IHf (S pos)). destruct (randomUnnegated rnd k f (S pos)) as [[p|] pos1]; cbn in *.
    { destruct IHf as [-> Hp]. split; [by rewrite orb_true_r|]. by apply (selects_cons k v t f false). }
    specialize (IHt pos1). destruct (randomUnnegated rnd k t pos1) as [[p|] pos2]; cbn in *.
    { destruct IHt as [-> Hp]. split; [done|]. by apply (selects_cons k v t f true). }
    rewrite IHt, IHf. specialize (Hself pos2). by destruct (negatable k v t f).
Qed.

(** Negating the chosen branch leaves one less. *)
Lemma unnegated_mark k n path : selects k n path ->
  S (unnegated (update_at negate_node (path_position path) n)) = unnegated n.
Proof.
  intros (p & b & t & f & -> & Hl & _ & Hb & _). unfold path_position.
  rewrite fmap_app. cbn [fmap list_fmap]. rewrite removelast_last.
  remember (Node (Some b) t f) as m eqn:Hm. remember (conds p) as q eqn:Hq. revert p Hq.
  induction Hl as [n|v t' f' p' m Hl IH|v t' f' p' m Hl IH]; intros p Hq.
  - destruct p; [|done]. subst n. cbn. by rewrite Hb.
  - destruct p as [|[c d] p]; [done|]. injection Hq as ? <- Hq.
    cbn [fmap list_fmap snd update_at unnegated]. specialize (IH Hm p Hq). lia.
  - destruct p as [|[c d] p]; [done|]. injection Hq as ? <- Hq.
    cbn [fmap list_fmap snd update_at unnegated]. specialize (IH Hm p Hq). lia.
Qed.

(** * What the solver promises *)

(** The input an assignment describes; bytes without a binding are zero. *)
Fixpoint input_of (assign : Assignment) : assignment :=
  match assign with
  | [] => fun _ _ => 0
  | (a, bytes) :: assign => fun name i =>
      if String.eqb name (arr_name a) then default 0 (bytes !! Z.to_nat i)
      else input_of assign name i
  end.

Class KleeSolverLaws `{KleeSolver} : Prop := {
  (** The constraints with a new one hold where all of them did, and one of them is refuted
      where one was; the assertion fails only if they cannot hold together. *)
  addConstraint_law cs e : Forall well_typed cs -> well_typed e ->
    match addConstraint cs e with
    | Some cs' =>
        Forall well_typed cs' /\
        forall σ, (Forall (holds σ) (e :: cs) -> Forall (holds σ) cs') /\
                  (Exists (refuted σ) (e :: cs) -> Exists (refuted σ) cs')
    | None => forall σ, ~ Forall (holds σ) (e :: cs)
    end;
  (** Simplification keeps the value where the constraints hold. *)
  simplifyExpr_law σ cs e b :
    Forall (holds σ) cs -> evals σ e b -> evals σ (simplifyExpr cs e) b;
  simplifyExpr_const_law cs v : simplifyExpr cs (EConstant v) = EConstant v;
  createIsZero_law σ e b : evals σ e b -> evals σ (createIsZero e) (negb b);
  getInitialValues_law q a :
    getInitialValues q = Some a ->
    Forall (holds (input_of a)) (q_constraints q) /\ evals (input_of a) (q_expr q) false;
}.

(** KLEE's constraint manager with a solver chain. *)
Definition klee_solver `{APInt} (initial : Query -> option Assignment)
    (validity : Query -> option bool) : KleeSolver := {|
  addConstraint := KConstraints.addConstraint;
  simplifyExpr := KConstraints.simplifyExpr;
  createIsZero := Expr_createIsZero;
  getInitialValues := initial;
  computeValidity := validity;
|}.

Lemma holds_well_typed σ cs : Forall (holds σ) cs -> Forall well_typed cs.
Proof. intros Hc. eapply Forall_impl; [exact Hc|]. intros e He. apply (boolean_well_typed σ). by exists true. Qed.

Lemma evals_isZero `{APIntLaws} σ e b : evals σ e b -> evals σ (Expr_createIsZero e) (negb b).
Proof. intros He. unfold evals. rewrite (isZero_sound σ e _ He). by destruct b. Qed.

Lemma klee_solver_laws `{APIntLaws} initial validity :
  (forall q a, initial q = Some a ->
     Forall (holds (input_of a)) (q_constraints q) /\ evals (input_of a) (q_expr q) false) ->
  KleeSolverLaws (H := klee_solver initial validity).
Proof.
  intros Hinit. split; cbn; [| | |apply evals_isZero|exact Hinit].
  - intros cs e Hcs He. pose proof (addConstraint_outcome cs e Hcs He) as Ho.
    destruct (KConstraints.addConstraint cs e) as [cs'|].
    + destruct Ho as (Ht & _ & Hs). split; [done|]. intros σ. destruct (Hs σ) as [Hh Hr].
      split; [auto|]. intros Hex. by destruct (Hr Hex).
    + intros σ. by apply Ho.
  - intros σ cs e b Hcs He. pose proof (eval_type _ _ _ He) as Ht.
    destruct (simplifyExpr_spec cs e _ (holds_well_typed _ _ Hcs) Ht _ Ht) as (_ & _ & Hv).
    destruct (Hv σ _ He) as [|[c [Hin Hrf]]%Exists_exists]; [done|].
    pose proof (proj1 (Forall_forall _ _) Hcs c Hin) as Hc. by apply not_both in Hc.
  - done.
Qed.

(** ** Trees of well-typed conditions *)

Fixpoint typed_tree (n : node) : Prop :=
  match n with
  | Null => True
  | Node v t f =>
      match v with Some b => well_typed (bv b) | None => True end /\ typed_tree t /\ typed_tree f
  end.

Lemma typed_leads n p m : leads n p m -> typed_tree n ->
  Forall (fun c => well_typed c.1) p /\ typed_tree m.
Proof.
  induction 1 as [n|v t f p m _ IH|v t f p m _ IH]; intros Ht.
  - split; [constructor|done].
  - destruct Ht as (Hv & Ht & Hf). destruct (IH Ht). split; [by constructor|done].
  - destruct Ht as (Hv & Ht & Hf). destruct (IH Hf). split; [by constructor|done].
Qed.

Lemma more_negated_typed n n' : more_negated n n' -> typed_tree n -> typed_tree n'.
Proof. induction 1; cbn; tauto. Qed.

Definition typed_path (path : Path) : Prop := Forall (fun e => well_typed (bv e.1)) path.

Lemma selects_typed k n path : typed_tree n -> selects k n path -> typed_path path.
Proof.
  intros Ht (p & b & t & f & -> & Hl & _).
  destruct (typed_leads _ _ _ Hl Ht) as [Hp (Hb & _)].
  apply Forall_app_2; [|by constructor]. unfold conds in Hp. rewrite Forall_fmap in Hp. exact Hp.
Qed.

Section search.
Context `{Laws : KleeSolverLaws}.

Lemma holds_cond σ e d b : evals σ e b -> evals σ (branch_cond e d) (eqb b d).
Proof. unfold evals. intros He. destruct d, b; cbn [branch_cond eqTrue eqFalse eval]; by rewrite He. Qed.

Lemma holds_cond_inv σ e d : boolean σ e -> evals σ (branch_cond e d) false -> evals σ e (negb d).
Proof.
  intros [b Hb] Hd. pose proof (evals_functional _ _ _ _ (holds_cond σ e d b Hb) Hd) as H'.
  by destruct b, d.
Qed.

Lemma cond_well_typed e d : well_typed e -> well_typed (branch_cond e d).
Proof. intros He. by destruct d; apply (type_cmp _ _ _ Bool). Qed.

Lemma not_refuted σ e : ~ refuted σ e -> boolean σ e -> holds σ e.
Proof. intros Hn [[] Hb]; done. Qed.

(** Whatever is refuted before an insertion is refuted after it. *)
Definition covers (cs : ConstraintSet) (l : list expr) : Prop :=
  Forall well_typed cs /\ forall σ, Exists (refuted σ) l -> Exists (refuted σ) cs.

Lemma covers_add cs l e cs' : covers cs l -> well_typed e -> addConstraint cs e = Some cs' ->
  covers cs' (l ++ [e]).
Proof.
  intros [Ht Hc] He Ha. pose proof (addConstraint_law cs e Ht He) as Hl. rewrite Ha in Hl.
  destruct Hl as [Ht' Hs]. split; [done|]. intros σ [Hl|Hr]%Exists_app; apply Hs.
  - right. by apply Hc.
  - apply Exists_cons in Hr as [Hr|[]%Exists_nil]. by left.
Qed.

Lemma covers_adds l' : forall cs l cs', covers cs l -> Forall well_typed l' ->
  addConstraints cs l' = Some cs' -> covers cs' (l ++ l').
Proof.
  induction l' as [|e l' IH]; intros cs l cs' Hc Ht Ha; cbn [addConstraints] in Ha.
  { injection Ha as <-. by rewrite app_nil_r. }
  apply Forall_cons in Ht as [He Ht].
  destruct (addConstraint cs e) as [cs1|] eqn:Ha1; [|done]. cbn in Ha.
  rewrite (cons_middle e), (assoc (++)). eapply IH; [|done|exact Ha].
  by eapply covers_add.
Qed.

Lemma covers_holds σ cs l : covers cs l -> Forall (holds σ) cs ->
  Forall (fun e => boolean σ e -> holds σ e) l.
Proof.
  intros [_ Hc] Hh. apply Forall_forall. intros e Hin Hb. apply not_refuted; [|done].
  intros Hr. destruct (proj1 (Exists_exists _ _) (Hc σ (proj2 (Exists_exists _ _) (ex_intro _ e (conj Hin Hr)))))
    as (c & Hcin & Hcr). pose proof (proj1 (Forall_forall _ _) Hh c Hcin) as Hch. by apply not_both in Hch.
Qed.

(** What an assignment found for a path gives: the conditions before the last branch hold,
    the last branch goes the other way, as far as they have a boolean value. *)
Definition path_conds (path : Path) : list expr := (fun e => branch_cond (bv e.1) e.2) <$> path.
Definition flips (σ : assignment) (path : Path) : Prop :=
  exists p b d, path = p ++ [(b, d)] /\
    Forall (fun e => boolean σ e -> holds σ e) (path_conds p) /\
    (boolean σ (bv b) -> evals σ (bv b) (negb d)).

Lemma getAssignment_sound q a e b :
  getAssignment q = Some a -> q = negateExpr (mkQuery (q_constraints q) e) ->
  Forall (holds (input_of a)) (q_constraints q) /\
  (evals (input_of a) e b -> b = false).
Proof.
  intros Ha Hq. unfold getAssignment in Ha.
  assert (getInitialValues (negateExpr q) = Some a) as Hi by (by repeat case_match).
  apply getInitialValues_law in Hi as [Hc He]. cbn in Hc, He. split; [done|].
  intros Hb. rewrite Hq in He. cbn in He.
  apply createIsZero_law in Hb. apply createIsZero_law in Hb. rewrite negb_involutive in Hb.
  by eapply evals_functional.
Qed.

Lemma newQuery_sound path : forall cs l q a,
  covers cs l -> typed_path path ->
  newQuery_from cs path = Some q -> getAssignment q = Some a ->
  Forall (fun e => boolean (input_of a) e -> holds (input_of a) e) l /\ flips (input_of a) path.
Proof.
  induction path as [|[b d] path IH]; intros cs l q a Hcov Ht Hq Ha; [done|].
  apply Forall_cons in Ht as [Hb Ht]. destruct path as [|e path].
  - injection Hq as <-. set (q := negateExpr _) in Ha.
    set (e := simplifyExpr cs (branch_cond (bv b) d)).
    assert (forall v, Forall (holds (input_of a)) cs /\
      (evals (input_of a) e v -> v = false)) as Hs
      by (intros v; by apply (getAssignment_sound q a e v)).
    destruct (Hs true) as [Hcs Hf]. split; [by eapply covers_holds|].
    exists [], b, d. split; [done|]. split; [constructor|].
    intros Hbool. apply holds_cond_inv; [done|]. destruct Hbool as [v Hv].
    pose proof (holds_cond _ _ d _ Hv) as Hc. destruct (eqb v d) eqn:E; [|done].
    exfalso. by specialize (Hf (simplifyExpr_law _ _ _ _ Hcs Hc)).
  - cbn [newQuery_from] in Hq. destruct (addConstraint cs _) as [cs1|] eqn:Ha1; [|done].
    cbn [mbind option_bind] in Hq.
    destruct (IH cs1 (l ++ [branch_cond (bv b) d]) q a) as [Hl (p & b' & d' & Hp & Hall & Hlast)];
      [by eapply covers_add, Ha1; [|apply cond_well_typed]|done|exact Hq|done|].
    apply Forall_app in Hl as [Hl Hbd]. split; [done|].
    exists ((b, d) :: p), b', d'. split; [by rewrite Hp|]. split; [|done].
    apply Forall_cons in Hbd as [Hbd _]. cbn. by constructor.
Qed.

(** The assertion of the constraint manager holds while the constraints are satisfiable. *)
Lemma addConstraint_asserts σ cs e : Forall well_typed cs -> Forall (holds σ) (e :: cs) ->
  exists cs', addConstraint cs e = Some cs' /\ Forall (holds σ) cs'.
Proof.
  intros Ht Hh. pose proof Hh as [He _]%Forall_cons.
  pose proof (addConstraint_law cs e Ht (boolean_well_typed σ e (ex_intro _ true He))) as Hl.
  destruct (addConstraint cs e) as [cs'|]; [|by destruct (Hl σ)].
  exists cs'. split; [done|]. by apply Hl.
Qed.

Lemma addConstraints_assert σ l : forall cs, Forall (holds σ) cs -> Forall (holds σ) l ->
  exists cs', addConstraints cs l = Some cs' /\ Forall (holds σ) cs'.
Proof.
  induction l as [|e l IH]; intros cs Hcs Hl; [by exists cs|].
  apply Forall_cons in Hl as [He Hl].
  destruct (addConstraint_asserts σ cs e) as (cs1 & Ha & Hcs1);
    [by eapply holds_well_typed|by constructor|].
  cbn [addConstraints]. rewrite Ha. by apply IH.
Qed.

Lemma newQuery_from_asserts σ p b d : forall cs, Forall (holds σ) cs ->
  Forall (holds σ) (path_conds p) -> exists q, newQuery_from cs (p ++ [(b, d)]) = Some q.
Proof.
  induction p as [|[b' d'] p IH]; intros cs Hcs Hp; [by eexists|].
  apply Forall_cons in Hp as [He Hp].
  destruct (addConstraint_asserts σ cs (branch_cond (bv b') d')) as (cs1 & Ha & Hcs1);
    [by eapply holds_well_typed|by constructor|].
  destruct (IH cs1 Hcs1 Hp) as (q & Hq). exists q. rewrite <- Hq.
  cbn [app newQuery_from]. destruct (p ++ [(b, d)]) eqn:E; [by destruct p|]. by rewrite Ha.
Qed.

(** ** The loop *)

(** One round of the loop. *)
Lemma findNewPath_step fuel rnd pos k s :
  (exists pos', has_negatable k (pathCondsRoot s) = false /\
     findNewPath (S fuel) rnd pos k s = Some (Exhausted, s, pos')) \/
  (exists path pos', selects k (pathCondsRoot s) path /\
     (newQuery s [] path = None /\
      findNewPath (S fuel) rnd pos k s = Some (AssertionFailed, s, pos') \/
      exists q, newQuery s [] path = Some q /\
       findNewPath (S fuel) rnd pos k s =
         match getAssignment q with
         | Some assign => Some (NewPath assign, mark_negated s path, pos')
         | None => findNewPath fuel rnd pos' k (mark_negated s path)
         end)).
Proof.
  cbn [findNewPath]. pose proof (randomUnnegated_spec rnd k (pathCondsRoot s) pos) as Hr.
  destruct (randomUnnegated rnd k (pathCondsRoot s) pos) as [[path|] pos']; cbn in Hr.
  - right. destruct Hr as [_ Hs]. exists path, pos'. split; [done|].
    destruct (newQuery s [] path) as [q|]; [right; by exists q|by left].
  - left. by exists pos'.
Qed.

Lemma findNewPath_returns fuel : forall rnd pos k s,
  (unnegated (pathCondsRoot s) < fuel)%nat ->
  exists r, findNewPath fuel rnd pos k s = Some r.
Proof.
  induction fuel as [|fuel IH]; intros rnd pos k s Hf; [lia|].
  destruct (findNewPath_step fuel rnd pos k s)
    as [(pos' & _ & ->)|(path & pos' & Hs & [(_ & ->)|(q & _ & ->)])]; [by eexists..|].
  destruct (getAssignment q); [by eexists|]. apply IH.
  pose proof (unnegated_mark k _ _ Hs). cbn. lia.
Qed.

(** The conditions of the tree are well-typed booleans. *)
Definition typed_trace (s : Trace) : Prop :=
  typed_tree (pathCondsRoot s) /\ Forall well_typed (assume_cs s).

(** Every path of the tree is the path of some input that meets the assumptions. *)
Definition feasible (s : Trace) : Prop :=
  forall p m, leads (pathCondsRoot s) p m ->
    exists σ, Forall (holds σ) (assume_cs s) /\
      Forall (holds σ) ((fun c => branch_cond c.1 c.2) <$> p).

Lemma feasible_mark s path : feasible s -> feasible (mark_negated s path).
Proof.
  intros Hs p m Hl. destruct (more_negated_leads _ _ _ _
    (more_negated_mark (path_position path) (pathCondsRoot s)) Hl) as (m' & Hl' & _).
  by apply (Hs p m').
Qed.

Lemma path_conds_conds p : path_conds p = (fun c => branch_cond c.1 c.2) <$> conds p.
Proof. unfold path_conds, conds. by rewrite <- list_fmap_compose. Qed.

(** On a feasible tree no assertion fails. *)
Lemma newQuery_asserts k s path : feasible s -> selects k (pathCondsRoot s) path ->
  exists q, newQuery s [] path = Some q.
Proof.
  intros Hf (p & b & t & f & -> & Hl & _). destruct (Hf _ _ Hl) as (σ & Has & Hp).
  destruct (addConstraints_assert σ (assume_cs s) []) as (cs' & Ha & Hcs); [constructor|done|].
  unfold newQuery. rewrite Ha. apply (newQuery_from_asserts σ); [done|].
  by rewrite path_conds_conds.
Qed.

(** Everything found is found for a path selected in the original tree. *)
Lemma findNewPath_result fuel : forall rnd pos k s r s' pos',
  typed_trace s ->
  findNewPath fuel rnd pos k s = Some (r, s', pos') ->
  more_negated (pathCondsRoot s) (pathCondsRoot s') /\
  assume_cs s' = assume_cs s /\
  match r with
  | Exhausted => has_negatable k (pathCondsRoot s') = false
  | AssertionFailed => ~ feasible s
  | NewPath a =>
      exists path n, more_negated (pathCondsRoot s) n /\ selects k n path /\
        Forall (fun e => boolean (input_of a) e -> holds (input_of a) e) (assume_cs s) /\
        flips (input_of a) path
  end.
Proof.
  induction fuel as [|fuel IH]; intros rnd pos k s r s' pos' Ht Hf; [done|].
  destruct (findNewPath_step fuel rnd pos k s)
    as [(pos1 & Hn & Heq)|(path & pos1 & Hs & [(Hq & Heq)|(q & Hq & Heq)])]; rewrite Heq in Hf.
  - injection Hf as <- <- <-. split; [apply more_negated_refl|done].
  - injection Hf as <- <- <-. split; [apply more_negated_refl|]. split; [done|].
    intros Hfe. destruct (newQuery_asserts k s path Hfe Hs) as (q & Hq'). congruence.
  - pose proof (more_negated_mark (path_position path) (pathCondsRoot s)) as Hm.
    destruct (getAssignment q) as [a|] eqn:Ha.
    + injection Hf as <- <- <-. split; [done|]. split; [done|].
      unfold newQuery in Hq. destruct (addConstraints [] (assume_cs s)) as [cs0|] eqn:Hcs0; [|done].
      cbn [mbind option_bind] in Hq.
      destruct (newQuery_sound path cs0 (assume_cs s) q a) as [Has Hfl];
        [|by eapply selects_typed; [apply Ht|exact Hs]|done|done|].
      { apply (covers_adds (assume_cs s) [] [] cs0); [|apply Ht|done].
        split; [constructor|]. by intros σ []%Exists_nil. }
      exists path, (pathCondsRoot s). split; [apply more_negated_refl|done].
    + assert (typed_trace (mark_negated s path)) as Ht'.
      { destruct Ht as [Ht1 Ht2]. split; [|done]. by eapply more_negated_typed, Ht1. }
      destruct (IH _ _ _ _ _ _ _ Ht' Hf) as (Hmore & Has & Hr).
      cbn in Hmore, Has.
      split; [by eapply more_negated_trans|]. split; [done|].
      destruct r as [a| |]; [|done|].
      * destruct Hr as (p' & n & Hn & Hrest).
        exists p', n. split; [by eapply more_negated_trans|done].
      * intros Hfe. apply Hr. by apply feasible_mark.
Qed.
End search.

(** * Growing the tree *)

(** The node a position points to. *)
Fixpoint node_at (p : position) (n : node) : node :=
  match p, n with
  | [], _ => n
  | true :: p, Node _ t _ => node_at p t
  | false :: p, Node _ _ f => node_at p f
  | _, Null => Null
  end.

Definition trace_ok (s : Trace) : Prop :=
  wf_tree (pathCondsRoot s) /\ node_at (default [] (pathCondsCurrent s)) (pathCondsRoot s) <> Null /\
  typed_trace s.

Lemma update_at_null p b c n : update_at (addBranch_node b c) p n = Null <-> n = Null.
Proof.
  split; [|intros ->; by destruct p as [|[]]].
  destruct n; [done|]. destruct p as [|[] p], c; done.
Qed.

Lemma addBranch_node_wf b c n : wf_tree n -> wf_tree (addBranch_node b c n).
Proof.
  assert (forall m, wf_tree m -> wf_tree (ensure_node m)) as He by (by intros []).
  assert (forall m, ensure_node m <> Null) as Hn by (by intros []).
  destruct n as [|[v|] t f]; cbn; [done| |].
  - intros (Hne & Ht & Hf). destruct c; cbn; split; auto.
  - intros [-> ->]. destruct c; cbn; auto.
Qed.

Lemma update_at_wf b c p n :
  wf_tree n -> node_at p n <> Null -> wf_tree (update_at (addBranch_node b c) p n).
Proof.
  revert n. induction p as [|d p IH]; intros n Hn Hat; [by apply addBranch_node_wf|].
  destruct n as [|[v|] t f]; cbn in Hn; [by destruct d| |].
  - destruct Hn as (Hne & Ht & Hf). destruct d; cbn in *; (split; [|split]); auto;
      destruct Hne as [Hne|Hne]; auto; [left|right]; by rewrite update_at_null.
  - destruct Hn as [-> ->]. by destruct d; destruct p as [|[]].
Qed.

Lemma node_at_update b c p n :
  node_at p n <> Null -> node_at (p ++ [c]) (update_at (addBranch_node b c) p n) <> Null.
Proof.
  revert n. induction p as [|d p IH]; intros n Hat.
  - destruct n as [|v t f]; [done|]. cbn. by destruct c; [destruct t|destruct f].
  - destruct n as [|v t f]; [by destruct d|]. destruct d; cbn in *; auto.
Qed.

Lemma addBranch_node_typed b c n : well_typed (bv b) -> typed_tree n ->
  typed_tree (addBranch_node b c n).
Proof.
  intros Hb. assert (forall m, typed_tree m -> typed_tree (ensure_node m)) as He by (by intros []).
  destruct n as [|[v|] t f]; cbn; [done|..]; intros (Hv & Ht & Hf); destruct c; cbn; auto.
Qed.

Lemma update_at_typed b c p n : well_typed (bv b) -> typed_tree n ->
  typed_tree (update_at (addBranch_node b c) p n).
Proof.
  intros Hb. revert n. induction p as [|d p IH]; intros n Hn; [by apply addBranch_node_typed|].
  destruct n as [|v t f]; [by destruct d|]. destruct Hn as (Hv & Ht & Hf).
  destruct d; cbn; auto.
Qed.

(** What [add] does to the tree. *)
Lemma Trace_add_tree `{KleeSolver} s c e pc k s' : Trace_add s c e pc k = Some s' ->
  pathCondsRoot s' = update_at (addBranch_node (mkBranch e false pc k) c)
    (default [] (pathCondsCurrent s)) (pathCondsRoot s) /\
  pathCondsCurrent s' = Some (default [] (pathCondsCurrent s) ++ [c]) /\
  assume_cs s' = assume_cs s /\ addConstraint (cs s) (branch_cond e c) = Some (cs s').
Proof.
  unfold Trace_add. destruct (addConstraint _ _) as [cs'|]; [|done]. cbn. by intros [= <-].
Qed.

Lemma Trace_add_ok `{KleeSolver} s c e pc k s' : trace_ok s -> well_typed e ->
  Trace_add s c e pc k = Some s' -> trace_ok s'.
Proof.
  intros (Hwf & Hat & Ht & Ha) He (Hr & Hc & Hs & _)%Trace_add_tree.
  unfold trace_ok, typed_trace. rewrite Hr, Hc, Hs.
  split; [by apply update_at_wf|]. split; [by apply node_at_update|].
  split; [by apply update_at_typed|done].
Qed.

(** The tree as a map from positions: the branch of the node there, if there is a node. *)
Definition value_at (p : position) (n : node) : option (option Branch) :=
  match node_at p n with Null => None | Node v _ _ => Some v end.

(** [t'] is the trace [t] after the execution, at the node [p], took the direction [c] of
    the branch [b]: the node holds the branch, unless it already held one; its child of
    that direction exists, and the execution is there; the other nodes are as before. *)
Definition branch_recorded (t : Trace) (b : Branch) (c : bool) (t' : Trace) : Prop :=
  let p := default [] (pathCondsCurrent t) in
  let before q := value_at q (pathCondsRoot t) in
  let after q := value_at q (pathCondsRoot t') in
  pathCondsCurrent t' = Some (p ++ [c]) /\ assume_cs t' = assume_cs t /\
  after p = Some (Some (default b (default None (before p)))) /\
  after (p ++ [c]) = Some (default None (before (p ++ [c]))) /\
  (forall q, q <> p -> q <> p ++ [c] -> after q = before q).

Lemma node_at_null p : node_at p Null = Null.
Proof. by destruct p as [|[] p]. Qed.
Lemma value_at_update b c p : forall n, node_at p n <> Null ->
  let n' := update_at (addBranch_node b c) p n in
  value_at p n' = Some (Some (default b (default None (value_at p n)))) /\
  value_at (p ++ [c]) n' = Some (default None (value_at (p ++ [c]) n)) /\
  (forall q, q <> p -> q <> p ++ [c] -> value_at q n' = value_at q n).
Proof.
  unfold value_at. induction p as [|d p IH]; intros [|v t f] Hn; try done.
  - cbn [update_at addBranch_node app]. destruct c; cbn; (split; [by destruct v|]);
      (split; [by destruct t, f|]); intros [|[] q] Hq Hq'; try done;
      destruct q as [|[] q]; try done; destruct t, f; cbn; by rewrite ?node_at_null.
  - by destruct d.
  - destruct d; cbn [update_at app node_at] in *; destruct (IH _ Hn) as (Hp & Hc & Ho);
      (split; [done|split; [done|]]); intros [|[] q] Hq Hq'; cbn [node_at]; try done;
      apply Ho; congruence.
Qed.

Lemma Trace_add_recorded `{KleeSolver} t c e pc k cs' : trace_ok t ->
  addConstraint (cs t) (branch_cond e c) = Some cs' ->
  exists t', Trace_add t c e pc k = Some t' /\ cs t' = cs' /\
    branch_recorded t (mkBranch e false pc k) c t'.
Proof.
  intros (_ & Hat & _) Ha. unfold Trace_add. rewrite Ha. cbn [mbind option_bind].
  eexists. split; [done|]. split; [done|]. split; [done|]. split; [done|].
  by apply value_at_update.
Qed.

Lemma Trace_reset_ok s : trace_ok s -> trace_ok (Trace_reset s).
Proof.
  intros (Hwf & Hat & Ht). split; [done|]. split; [|done].
  cbn. by destruct (pathCondsRoot s), (pathCondsCurrent s) as [[|[]]|].
Qed.

Lemma Trace_new_ok : trace_ok Trace_new.
Proof. by repeat split. Qed.

(** Number of nodes. *)
Fixpoint tree_size (n : node) : nat :=
  match n with Null => 0 | Node _ t f => S (tree_size t + tree_size f) end.

Lemma tree_size_ensure n : tree_size (ensure_node n) = (tree_size n + if is_null n then 1 else 0)%nat.
Proof. destruct n; cbn; lia. Qed.

Lemma update_at_size b c p n : node_at p n <> Null ->
  tree_size (update_at (addBranch_node b c) p n) =
    (tree_size n + if is_null (node_at (p ++ [c]) n) then 1 else 0)%nat.
Proof.
  revert n. induction p as [|d p IH]; intros n Hat.
  - destruct n as [|v t f]; [done|].
    destruct c; cbn [update_at addBranch_node tree_size app node_at]; rewrite tree_size_ensure;
      [destruct t|destruct f]; cbn [is_null node_at]; lia.
  - destruct n as [|v t f]; [by destruct d|].
    destruct d; cbn [update_at tree_size app node_at] in *; rewrite IH by done; lia.
Qed.

(** Running along a path of the tree again. *)
Fixpoint replay_from `{KleeSolver} (pc k : Z) (s : Trace) (l : list (expr * bool)) : option Trace :=
  match l with
  | [] => Some s
  | c :: l => s ← Trace_add s c.2 c.1 pc k; replay_from pc k s l
  end.
Definition replay `{KleeSolver} (pc k : Z) (s : Trace) (l : list (expr * bool)) : option Trace :=
  replay_from pc k (Trace_reset s) l.

Lemma replay_from_app `{KleeSolver} pc k l l' : forall s,
  replay_from pc k s (l ++ l') = s ← replay_from pc k s l; replay_from pc k s l'.
Proof.
  induction l as [|c l IH]; intros s; [done|]. cbn [app replay_from].
  destruct (Trace_add s c.2 c.1 pc k); [|done]. cbn. apply IH.
Qed.

Lemma update_at_same g q n : g (node_at q n) = node_at q n -> update_at g q n = n.
Proof.
  revert n. induction q as [|d q IH]; intros n Hg; [by destruct n|].
  destruct n as [|v t f]; [by destruct d|]. destruct d; cbn in *; by rewrite IH.
Qed.

Lemma node_at_app p q n : node_at (p ++ q) n = node_at q (node_at p n).
Proof.
  revert n. induction p as [|d p IH]; intros n; [by destruct n|].
  destruct n as [|v t f]; [|by destruct d; cbn; rewrite IH].
  destruct d; cbn; by destruct q as [|[]].
Qed.

Lemma leads_not_null n p m : leads n p m -> m <> Null -> n <> Null.
Proof. by destruct 1. Qed.

Lemma leads_node_at n p m : leads n p m -> node_at (p.*2) n = m.
Proof. induction 1 as [n| |]; [by destruct n|done|done]. Qed.

(** Along a path that is in the tree, nothing changes but the current position. *)
Lemma replay_along `{KleeSolver} pc k p : forall s m s',
  leads (node_at (default [] (pathCondsCurrent s)) (pathCondsRoot s)) p m -> m <> Null ->
  replay_from pc k s p = Some s' ->
  pathCondsRoot s' = pathCondsRoot s /\
  default [] (pathCondsCurrent s') = default [] (pathCondsCurrent s) ++ p.*2.
Proof.
  induction p as [|[e d] p IH]; intros s m s' Hl Hm Hr; cbn [replay_from] in Hr.
  { injection Hr as <-. by rewrite app_nil_r. }
  destruct (Trace_add s _ _ pc k) as [s1|] eqn:Ha; [|done]. cbn [mbind option_bind] in Hr.
  apply Trace_add_tree in Ha as (Hr1 & Hc1 & _). cbn [fst snd] in *.
  set (q := default [] (pathCondsCurrent s)) in *.
  assert (pathCondsRoot s1 = pathCondsRoot s /\
    leads (node_at (q ++ [d]) (pathCondsRoot s)) p m) as [Hroot Hl'].
  { assert (exists v t f, node_at q (pathCondsRoot s) = Node (Some v) t f /\
      leads (if d then t else f) p m) as (v & t & f & Hn & Hl')
      by (inversion Hl; subst; by repeat eexists).
    pose proof (leads_not_null _ _ _ Hl' Hm) as Hnn. split.
    - rewrite Hr1. apply update_at_same. rewrite Hn. by destruct d; cbn; [destruct t|destruct f].
    - rewrite node_at_app, Hn. destruct d; [by destruct t|by destruct f]. }
  destruct (IH s1 m s') as [Hr' Hc']; [by rewrite Hc1, Hroot|done|done|].
  rewrite Hr', Hc', Hroot, Hc1. split; [done|]. cbn. by rewrite <- app_assoc.
Qed.

(** * The properties *)

(** The choice of the branch to negate is complete whatever [rand] returns: it fails
    only when the tree has no branch that can be negated (not negated before, first met
    with a packet sequence length of at least [k], with an unexplored direction); a path it
    returns leads from the root to such a branch. *)
Theorem randomUnnegated_complete rnd k n pos :
  match (randomUnnegated rnd k n pos).1 with
  | Some path => has_negatable k n = true /\ selects k n path
  | None => has_negatable k n = false
  end.
Proof. apply randomUnnegated_spec. Qed.

(** C23 The search for a new path terminates: each round negates one more branch of the
    finite tree, so a loop bound above the number of branches not negated is enough; when
    it reports that all branches are exhausted, no branch of the tree it leaves can be
    negated; and it fails no assertion when every path of the tree is the path of some
    input that meets the assumptions. *)
Theorem findNewPath_terminates `{KleeSolverLaws} fuel rnd pos k s :
  typed_trace s -> (unnegated (pathCondsRoot s) < fuel)%nat ->
  exists r s' pos', findNewPath fuel rnd pos k s = Some (r, s', pos') /\
    (r = Exhausted -> has_negatable k (pathCondsRoot s') = false) /\
    (feasible s -> r <> AssertionFailed).
Proof.
  intros Ht Hf. destruct (findNewPath_returns fuel rnd pos k s Hf) as ([[r s'] pos'] & Hr).
  exists r, s', pos'. split; [done|]. apply findNewPath_result in Hr as (_ & _ & Hr); [|done].
  split; [by intros ->|]. intros Hfe ->. by apply Hr.
Qed.

(** C3 An assignment the search returns drives the program to unexplored code: it
    satisfies all assumptions and every condition on a path of the tree as it was, and
    takes the branch at its end in the direction that has no node yet (each as far as the
    condition has a boolean value under the new input). *)
Theorem findNewPath_takes_new_path `{KleeSolverLaws} fuel rnd pos k s a s' pos' :
  wf_tree (pathCondsRoot s) -> typed_trace s ->
  findNewPath fuel rnd pos k s = Some (NewPath a, s', pos') ->
  exists p b t f (d : bool),
    leads (pathCondsRoot s) p (Node (Some b) t f) /\
    k <= pktSeqLen b /\ wasNegated b = false /\
    (if d then t else f) <> Null /\ (if d then f else t) = Null /\
    Forall (fun e => boolean (input_of a) e -> holds (input_of a) e) (assume_cs s) /\
    Forall (fun c => boolean (input_of a) (branch_cond c.1 c.2) ->
              holds (input_of a) (branch_cond c.1 c.2)) p /\
    (boolean (input_of a) (bv b) -> evals (input_of a) (bv b) (negb d)).
Proof.
  intros Hwf Ht Hf.
  apply findNewPath_result in Hf as (_ & _ & path & n & Hn & Hs & Has & Hfl); [|done].
  destruct Hs as (p & b & t & f & -> & Hl & Hk & Hneg & Hnull).
  destruct (more_negated_leads _ _ _ _ Hn Hl) as (m & Hm & Hmore).
  inversion Hmore as [| |b0 w t0 f0 ? ? Hw Htn Hfn]; subst. cbn in Hk, Hneg.
  assert (forall n p m, leads n p m -> wf_tree n -> wf_tree m) as Hwfl
    by (induction 1; cbn; tauto).
  pose proof (Hwfl _ _ _ Hm Hwf) as (Hone & _).
  exists (conds p), b0, t0, f0, (negb (is_null t)). split; [done|]. split; [done|].
  split; [destruct (wasNegated b0); [by rewrite (Hw eq_refl) in Hneg|done]|].
  apply more_negated_null in Htn, Hfn.
  destruct Hfl as (p' & b' & d' & Heq & Hall & Hlast).
  apply app_inj_tail in Heq as [<- [= <- <-]]. cbn in Hlast.
  split; [destruct t; cbn; intuition congruence|].
  split; [destruct t; cbn; intuition congruence|].
  split; [done|]. split; [|done]. rewrite path_conds_conds in Hall. by apply Forall_fmap in Hall.
Qed.

(** The tree keeps its shape invariant (a placeholder has no children, a branch has
    one, the conditions are well-typed, the current pointer is valid) and only grows:
    adding a branch outcome makes the tree larger by exactly one node if that direction
    was unexplored, and otherwise leaves its size; running along a known path and leaving
    it at an unexplored direction adds one node. *)
Theorem tree_grows `{KleeSolver} s c e pc k :
  trace_ok s -> well_typed e ->
  trace_ok (Trace_reset s) /\
  (forall s', Trace_add s c e pc k = Some s' ->
     trace_ok s' /\
     tree_size (pathCondsRoot s') =
       (tree_size (pathCondsRoot s) +
        if is_null (node_at (default [] (pathCondsCurrent s) ++ [c]) (pathCondsRoot s))
        then 1 else 0)%nat) /\
  (forall p b t f s', leads (pathCondsRoot s) p (Node (Some b) t f) ->
     (if c then t else f) = Null -> replay pc k s (p ++ [(e, c)]) = Some s' ->
     tree_size (pathCondsRoot s') = S (tree_size (pathCondsRoot s))).
Proof.
  intros Hok He. split; [by apply Trace_reset_ok|]. split.
  - intros s' Ha. split; [by eapply Trace_add_ok|]. apply Trace_add_tree in Ha as (-> & _).
    by apply update_at_size, Hok.
  - intros p b t f s' Hl Hnull Hr. unfold replay in Hr. rewrite replay_from_app in Hr.
    destruct (replay_from pc k (Trace_reset s) p) as [s1|] eqn:Hp; [|done].
    cbn [mbind option_bind replay_from fst snd] in Hr.
    destruct (replay_along pc k p (Trace_reset s) (Node (Some b) t f) s1) as [Hr1 Hc1];
      [cbn; by destruct (pathCondsRoot s)|done|done|].
    destruct (Trace_add s1 c e pc k) as [s2|] eqn:Ha; [|done]. injection Hr as <-.
    apply Trace_add_tree in Ha as (-> & _). cbn in Hc1.
    pose proof (leads_node_at _ _ _ Hl) as Hat. rewrite Hc1, Hr1. cbn [pathCondsRoot Trace_reset].
    rewrite update_at_size by (by rewrite Hat). rewrite node_at_app, Hat. cbn [node_at].
    replace (is_null _) with true; [lia|]. by destruct c; rewrite Hnull.
Qed.

(** ** Witnesses: a solver that tries a list of inputs *)

Definition evals_b (σ : assignment) (e : expr) (b : bool) : bool :=
  match eval σ e with
  | Some v => (ap_width v =? Bool) && (ap_val v =? Z.b2z b)
  | None => false
  end.
Lemma evals_b_evals σ e b : evals_b σ e b = true -> evals σ e b.
Proof.
  unfold evals_b, evals. destruct (eval σ e) as [[w z]|]; [|done].
  cbn [ap_width ap_val]. intros [Hw%Z.eqb_eq Hz%Z.eqb_eq]%andb_true_iff. by subst.
Qed.
Definition satisfies (q : Query) (a : Assignment) : bool :=
  forallb (fun c => evals_b (input_of a) c true) (q_constraints q) &&
  evals_b (input_of a) (q_expr q) false.
Definition search_solver (candidates : list Assignment) : KleeSolver :=
  klee_solver (fun q => List.find (satisfies q) candidates) (fun _ => None).

Lemma search_solver_laws l : KleeSolverLaws (H := search_solver l).
Proof.
  apply klee_solver_laws. intros q a [_ Hs]%List.find_some. unfold satisfies in Hs.
  apply andb_true_iff in Hs as [Hc He%evals_b_evals]. split; [|done].
  rewrite List.forallb_forall in Hc. apply List.Forall_forall.
  intros c Hin. by apply Hc, evals_b_evals in Hin.
Qed.

(** One run of a program that tested [x == 7] for a symbolic byte, with outcome false. *)
Definition sample_byte : Array := mkArray "x" 1.
Definition sample_test : expr := ECmp Kind.Eq (EConstant (AP 8 7)) (read_byte sample_byte 0).
Definition sample_inputs : list Assignment := [[(sample_byte, [0])]; [(sample_byte, [7])]].
#[local] Instance witness_solver : KleeSolver := search_solver sample_inputs.
Definition sample_trace : Trace := default Trace_new (Trace_add Trace_new false sample_test 0x1000 0).

Lemma sample_trace_typed : typed_trace sample_trace.
Proof. split; [by repeat split|constructor]. Qed.

Lemma findNewPath_terminates_witness :
  exists r s' pos', findNewPath 2 (fun _ => true) 0 0 sample_trace = Some (r, s', pos') /\
    (r = Exhausted -> has_negatable 0 (pathCondsRoot s') = false) /\
    (feasible sample_trace -> r <> AssertionFailed).
Proof.
  apply (findNewPath_terminates (H0 := search_solver_laws sample_inputs) 2 (fun _ => true) 0%nat 0
    sample_trace sample_trace_typed).
  vm_compute. auto.
Defined.

(** The search finds [x = 7], which makes the test true. *)
Lemma findNewPath_takes_new_path_witness :
  exists p b t f (d : bool),
    leads (pathCondsRoot sample_trace) p (Node (Some b) t f) /\
    0 <= pktSeqLen b /\ wasNegated b = false /\
    (if d then t else f) <> Null /\ (if d then f else t) = Null /\
    Forall (fun e => boolean (input_of [(sample_byte, [7])]) e ->
              holds (input_of [(sample_byte, [7])]) e) (assume_cs sample_trace) /\
    Forall (fun c => boolean (input_of [(sample_byte, [7])]) (branch_cond c.1 c.2) ->
              holds (input_of [(sample_byte, [7])]) (branch_cond c.1 c.2)) p /\
    (boolean (input_of [(sample_byte, [7])]) (bv b) ->
     evals (input_of [(sample_byte, [7])]) (bv b) (negb d)).
Proof.
  refine (findNewPath_takes_new_path (H0 := search_solver_laws sample_inputs) 2 (fun _ => true)
    0%nat 0 sample_trace [(sample_byte, [7])]
    (mark_negated sample_trace [(mkBranch sample_test false 0x1000 0, false)]) 1%nat _
    sample_trace_typed _).
  - cbn. repeat split. right. discriminate.
  - vm_compute. reflexivity.
Defined.

Lemma tree_grows_witness :
  exists s', replay 0x1000 0 sample_trace [(sample_test, true)] = Some s' /\
    tree_size (pathCondsRoot s') = 3%nat.
Proof.
  eexists. split; [vm_compute; reflexivity|].
  refine (proj2 (proj2 (tree_grows sample_trace true sample_test 0x1000 0 _ _)) []
    (mkBranch sample_test false 0x1000 0) Null new_Node _ _ _ _).
  - refine (Trace_add_ok Trace_new false sample_test 0x1000 0 _ Trace_new_ok _ _); reflexivity.
  - reflexivity.
  - apply leads_here.
  - reflexivity.
  - vm_compute. reflexivity.
Defined.
