(* ===== verification/ExecContext.v ===== *)
(** The execution context (clover/context.cpp, clover.h): where the program's symbolic
    inputs come from.  A value prepared for the next run is handed out once; any other is
    random; both are recorded for the run. *)
From stdpp Require Import pretty.
From S2P Require Import Prelude Bits APInt KExpr KBuilder KBuilderSound Concolic PathTrace.

(** The template argument of [findRemoveOrRandom]. *)
Inductive IntType := uint8 | uint32.
Definition type_of (v : IntValue) : IntType := match v with U8 _ => uint8 | U32 _ => uint32 end.
(** [(T)rand()] *)
Definition int_cast (t : IntType) (z : Z) : IntValue :=
  match t with uint8 => U8 (u8 z) | uint32 => U32 (u32 z) end.
#[export] Instance IntType_eq_dec : EqDecision IntType.
Proof. solve_decision. Defined.

Record ExecutionContext := mkContext {
  next_run : ConcreteStore;
  last_run : ConcreteStore;
  rand_calls : nat;
}.

Definition clear (s : ExecutionContext) : ExecutionContext := mkContext ∅ ∅ (rand_calls s).
Definition getPrevStore (s : ExecutionContext) : ConcreteStore := last_run s.

(** [setupNewValues(ConcreteStore)]: the new values are put into [next_run]. *)
Definition setupNewValues (store : ConcreteStore) (s : ExecutionContext) : ExecutionContext :=
  mkContext (store ∪ next_run s) ∅ (rand_calls s).

(** [setupNewValues(unsigned, Trace &)]; [None] is a failed assertion or fuel, the boolean
    is the result. *)
Definition setupNewValues_trace `{KleeSolver} (fuel : nat) (rnd : nat -> bool) (pos : nat) (k : Z)
    (t : Trace) (s : ExecutionContext) : option (bool * ExecutionContext * Trace * nat) :=
  r ← findNewPath fuel rnd pos k t;
  match r with
  | (Exhausted, t, pos) => Some (false, s, t, pos)
  | (NewPath assign, t, pos) =>
      store ← getStore assign;
      Some (true, setupNewValues store s, t, pos)
  | (AssertionFailed, _, _) => None
  end.

Section context.
(** The results of [rand()]. *)
Context (rand : nat -> Z).

(** [None] is the failed assertion on the type of a stored value. *)
Definition findRemoveOrRandom (t : IntType) (name : string) (s : ExecutionContext) :
    option (IntValue * ExecutionContext) :=
  match next_run s !! name with
  | Some v =>
      if decide (type_of v = t) then
        Some (v, mkContext (delete name (next_run s)) (<[name := v]> (last_run s)) (rand_calls s))
      else None
  | None =>
      let v := int_cast t (rand (rand_calls s)) in
      Some (v, mkContext (next_run s) (<[name := v]> (last_run s)) (S (rand_calls s)))
  end.

Definition getSymbolicWord (name : string) (s : ExecutionContext) :
    option (ConcolicValue * ExecutionContext) :=
  '(v, s) ← findRemoveOrRandom uint32 name s; c ← BVC (Some name) v; Some (c, s).
Definition getSymbolicByte (name : string) (s : ExecutionContext) :
    option (ConcolicValue * ExecutionContext) :=
  '(v, s) ← findRemoveOrRandom uint8 name s; c ← BVC (Some name) v; Some (c, s).

Definition byte_name (name : string) (i : nat) : string :=
  name +:+ ":byte" +:+ pretty (N.of_nat i).

(** The loop of [getSymbolicBytes]; the null pointer of size zero is [Some (None, s)]. *)
Fixpoint getSymbolicBytes_from `{ExprBuilder} (name : string) (i n : nat)
    (result : option ConcolicValue) (s : ExecutionContext) :
    option (option ConcolicValue * ExecutionContext) :=
  match n with
  | O => Some (result, s)
  | S n =>
      '(symbyte, s) ← getSymbolicByte (byte_name name i) s;
      let result' := match result with
                     | None => symbyte
                     | Some r => cv_concat symbyte r
                     end in
      getSymbolicBytes_from name (S i) n (Some result') s
  end.
Definition getSymbolicBytes `{ExprBuilder} (name : string) (size : nat) (s : ExecutionContext) :
    option (option ConcolicValue * ExecutionContext) :=
  getSymbolicBytes_from name 0 size None s.

(** ** Lemmas *)

(** Values stored for the next run are in range. *)
Definition store_ok (st : ConcreteStore) : Prop := forall name v, st !! name = Some v -> int_ok v.

(** Every value prepared under [name] has the requested type. *)
Definition type_ok (s : ExecutionContext) (t : IntType) (name : string) : Prop :=
  forall v, next_run s !! name = Some v -> type_of v = t.

Lemma int_cast_ok t z : int_ok (int_cast t z) /\ type_of (int_cast t z) = t.
Proof.
  split; [|by destruct t]. apply int_ok_iff. destruct t; cbn; apply wrap_range; lia.
Qed.

Lemma findRemoveOrRandom_spec t name s :
  type_ok s t name -> store_ok (next_run s) ->
  exists v s', findRemoveOrRandom t name s = Some (v, s') /\
    v = default (int_cast t (rand (rand_calls s))) (next_run s !! name) /\
    int_ok v /\ type_of v = t /\
    next_run s' = delete name (next_run s) /\ last_run s' = <[name := v]> (last_run s).
Proof.
  intros Ht Hok. unfold findRemoveOrRandom.
  destruct (next_run s !! name) as [v|] eqn:Hv.
  - specialize (Ht v Hv). rewrite decide_True by done. do 2 eexists. split; [done|].
    cbn. split; [done|]. split; [by eapply Hok|done].
  - do 2 eexists. split; [done|]. cbn [next_run last_run]. split; [done|].
    destruct (int_cast_ok t (rand (rand_calls s))) as [? ?].
    split; [done|]. split; [done|]. split; [symmetry; by apply delete_id|done].
Qed.

Lemma store_ok_delete st name : store_ok st -> store_ok (delete name st).
Proof. intros Hok n v Hv. apply lookup_delete_Some in Hv as [_ Hv]. by eapply Hok. Qed.

Lemma int_width v t : type_of v = t -> 8 * intByteSize v = match t with uint8 => 8 | uint32 => 32 end.
Proof. by destruct v; intros <-. Qed.

(** The concolic value of a named variable is a view of its value under every input that
    gives the variable that value. *)
Lemma BVC_named_total name v : int_ok v ->
  exists c, BVC (Some name) v = Some c /\
    forall σ, assigns σ name v -> cval σ c (AP (8 * intByteSize v) (intToUint v)).
Proof.
  intros Hv. set (σ0 := (fun _ i => Z.shiftr (intToUint v) (8 * i)) : assignment).
  destruct (BVC_named σ0 name v) as (c & Hc & _); [done|done|]. exists c. split; [done|].
  intros σ Ha. destruct (BVC_named σ name v Ha Hv) as (c' & Hc' & Hcv). congruence.
Qed.

(** A request for a symbolic value of type [t]: the value handed out, what it becomes, and
    the context afterwards. *)
Definition handed_out (t : IntType) (name : string) (s : ExecutionContext) : IntValue :=
  default (int_cast t (rand (rand_calls s))) (next_run s !! name).

Definition granted (t : IntType) (name : string) (s : ExecutionContext)
    (r : option (ConcolicValue * ExecutionContext)) : Prop :=
  exists c s', r = Some (c, s') /\
    int_ok (handed_out t name s) /\ type_of (handed_out t name s) = t /\
    next_run s' = delete name (next_run s) /\
    last_run s' = <[name := handed_out t name s]> (last_run s) /\
    forall σ, assigns σ name (handed_out t name s) ->
      cval σ c (AP (8 * intByteSize (handed_out t name s)) (intToUint (handed_out t name s))).

Lemma getSymbolicByte_spec name s : type_ok s uint8 name -> store_ok (next_run s) ->
  granted uint8 name s (getSymbolicByte name s).
Proof.
  intros Ht Hok. destruct (findRemoveOrRandom_spec uint8 name s Ht Hok)
    as (v & s' & Hf & -> & Hvok & Hty & Hn & Hl).
  destruct (BVC_named_total name _ Hvok) as (c & Hc & Hcv).
  exists c, s'. unfold getSymbolicByte. rewrite Hf. cbn [mbind option_bind].
  by rewrite Hc.
Qed.

Lemma getSymbolicWord_spec name s : type_ok s uint32 name -> store_ok (next_run s) ->
  granted uint32 name s (getSymbolicWord name s).
Proof.
  intros Ht Hok. destruct (findRemoveOrRandom_spec uint32 name s Ht Hok)
    as (v & s' & Hf & -> & Hvok & Hty & Hn & Hl).
  destruct (BVC_named_total name _ Hvok) as (c & Hc & Hcv).
  exists c, s'. unfold getSymbolicWord. rewrite Hf. cbn [mbind option_bind].
  by rewrite Hc.
Qed.

(** ** Byte sequences *)

Lemma byte_name_inj name i j : byte_name name i = byte_name name j -> i = j.
Proof.
  unfold byte_name. intros H. do 2 apply (inj _) in H. apply (inj _) in H. lia.
Qed.

(** What the bytes collected so far amount to. *)
Definition collected (σ : assignment) (r : option ConcolicValue) (bytes : list Z) : Prop :=
  match r with
  | None => bytes = []
  | Some c =>
      bytes <> [] /\ cval σ c (AP (8 * Z.of_nat (length bytes)) (le_value bytes))
  end.

Lemma collected_step `{BuilderLaws} σ r bytes c b :
  collected σ r bytes -> cval σ c (AP 8 b) ->
  collected σ (Some (match r with None => c | Some r => cv_concat c r end)) (bytes ++ [b]).
Proof.
  intros Hr Hc. split; [by destruct bytes|]. rewrite length_app, le_value_app. cbn [length le_value].
  destruct r as [r|].
  - destruct Hr as [Hne Hr]. pose proof (cv_concat_cval σ _ _ _ _ Hc Hr) as H'.
    rewrite concat_bytes in H' by (by eapply cval_wf).
    by rewrite Nat2Z.inj_add, Z.mul_0_r, Z.add_0_r.
  - cbn in Hr. subst bytes. cbn. by rewrite Z.mul_0_r, Z.add_0_r, Z.mul_1_l || by rewrite Z.add_0_r.
Qed.

Lemma getSymbolicBytes_from_spec `{BuilderLaws} name n : forall i r s,
  (forall j, (i <= j)%nat -> type_ok s uint8 (byte_name name j)) -> store_ok (next_run s) ->
  exists r' s' bytes, getSymbolicBytes_from name i n r s = Some (r', s') /\
    length bytes = n /\ Forall byte_ok bytes /\ next_run s' ⊆ next_run s /\
    (forall m, (forall j, (j < n)%nat -> m <> byte_name name (i + j)) ->
       last_run s' !! m = last_run s !! m) /\
    (forall j b, bytes !! j = Some b -> last_run s' !! byte_name name (i + j) = Some (U8 b)) /\
    (forall σ prev, (forall j b, bytes !! j = Some b -> assigns σ (byte_name name (i + j)) (U8 b)) ->
       collected σ r prev -> collected σ r' (prev ++ bytes)).
Proof.
  induction n as [|n IH]; intros i r s Ht Hok.
  { exists r, s, []. split_and!; try done. intros σ prev _ Hr. by rewrite app_nil_r. }
  destruct (getSymbolicByte_spec (byte_name name i) s (Ht i (le_n _)) Hok)
    as (c & s1 & Hc & Hvok & Hty & Hn & Hl & Hcv).
  destruct (handed_out uint8 (byte_name name i) s) as [v|v] eqn:Hv; [|done].
  cbn [getSymbolicBytes_from]. rewrite Hc. cbn [mbind option_bind].
  destruct (IH (S i) (Some match r with None => c | Some r => cv_concat c r end) s1)
    as (r' & s' & bytes & Hf & Hlen & Hb & Hsub & Hother & Hrec & Hcol).
  { intros j Hj w Hw. rewrite Hn in Hw. apply lookup_delete_Some in Hw as [_ Hw].
    by apply (Ht j ltac:(lia)). }
  { rewrite Hn. by apply store_ok_delete. }
  exists r', s', (v :: bytes). split; [done|]. split; [cbn; lia|].
  split; [constructor; [by apply int_ok_iff in Hvok|done]|].
  split; [etrans; [exact Hsub|]; rewrite Hn; apply delete_subseteq|]. split; [|split].
  - intros m Hm. rewrite Hother, Hl.
    + apply lookup_insert_ne. rewrite <- (Nat.add_0_r i). symmetry. apply Hm. lia.
    + intros j Hj. replace (S i + j)%nat with (i + S j)%nat by lia. apply Hm. lia.
  - intros [|j] b Hj; cbn in Hj.
    + injection Hj as <-. rewrite Nat.add_0_r, Hother, Hl; [by rewrite lookup_insert_eq|].
      intros j _ Heq%byte_name_inj. lia.
    + replace (i + S j)%nat with (S i + j)%nat by lia. by apply Hrec.
  - intros σ prev Ha Hr. replace (prev ++ v :: bytes) with ((prev ++ [v]) ++ bytes)
      by (by rewrite <- app_assoc).
    apply Hcol.
    + intros j b Hj. replace (S i + j)%nat with (i + S j)%nat by lia. by apply Ha.
    + apply collected_step; [done|]. apply (Hcv σ). rewrite <- (Nat.add_0_r i). by apply Ha.
Qed.
End context.

(** The input a solver assignment describes is the one its store describes. *)
Lemma le_value_lookup bs i : Forall byte_ok bs -> (i < length bs)%nat ->
  wrap 8 (default 0 (bs !! i)) = wrap 8 (Z.shiftr (le_value bs) (8 * Z.of_nat i)).
Proof.
  intros Hbs Hi. rewrite <- (le_bytes_value bs Hbs) at 1. rewrite le_bytes_lookup.
  rewrite list_lookup_fmap, lookup_seq_lt by done. cbn.
  rewrite wrap_wrap. do 2 f_equal. lia.
Qed.

Lemma intFromVector_assigns σ name bs v :
  Forall byte_ok bs -> intFromVector bs = Some v ->
  (forall i, 0 <= i < intByteSize v -> σ name i = default 0 (bs !! Z.to_nat i)) ->
  assigns σ name v /\ int_ok v.
Proof.
  intros Hbs Hv Hσ.
  assert (intToUint v = le_value bs /\ intByteSize v = Z.of_nat (length bs)) as [Hval Hsz].
  { unfold intFromVector in Hv.
    destruct bs as [|? [|? [|? [|? [|]]]]]; try done; by injection Hv as <-. }
  split.
  - intros i Hi. rewrite Hσ, Hval by done. rewrite le_value_lookup by (done || lia).
    do 3 f_equal. lia.
  - apply int_ok_iff. rewrite Hval, Hsz. by apply le_value_bound.
Qed.

Definition names (assign : Assignment) : list string :=
  (fun b : Array * list Z => arr_name b.1) <$> assign.
(** Distinct names, bytes of a byte's range. *)
Definition assignment_ok (assign : Assignment) : Prop :=
  NoDup (names assign) /\ Forall (fun b : Array * list Z => Forall byte_ok b.2) assign.

Lemma getStore_from_spec assign : forall acc store,
  assignment_ok assign -> getStore_from acc assign = Some store ->
  forall name v, store !! name = Some v ->
    (name ∈ names assign /\ assigns (input_of assign) name v /\ int_ok v) \/
    acc !! name = Some v.
Proof.
  induction assign as [|[a bytes] assign IH]; intros acc store [Hnd Hb] Hs name v Hv.
  { injection Hs as <-. by right. }
  apply Forall_cons in Hb as [Hb Hbs]. apply NoDup_cons in Hnd as [Hnot Hnd].
  cbn [getStore_from] in Hs. destruct (intFromVector bytes) as [w|] eqn:Hw; [|done].
  cbn [mbind option_bind] in Hs. cbn in Hb, Hnot.
  assert (forall i, input_of ((a, bytes) :: assign) (arr_name a) i = default 0 (bytes !! Z.to_nat i))
    as Hhead by (intros i; cbn; by rewrite String.eqb_refl).
  destruct (IH _ _ (conj Hnd Hbs) Hs name v Hv) as [(Hin & Ha & Hok)|Hacc].
  - left. split; [by apply elem_of_cons; right|]. split; [|done].
    intros i Hi. cbn [input_of]. destruct (String.eqb_spec name (arr_name a)) as [->|Hne]; [done|].
    by apply Ha.
  - destruct (decide (name = arr_name a)) as [->|Hne].
    + rewrite lookup_insert_eq in Hacc. injection Hacc as ->. left.
      split; [by apply elem_of_cons; left|].
      by apply (intFromVector_assigns _ _ bytes).
    + rewrite lookup_insert_ne in Hacc by done. by right.
Qed.

Lemma getStore_spec assign store : assignment_ok assign -> getStore assign = Some store ->
  forall name v, store !! name = Some v -> assigns (input_of assign) name v /\ int_ok v.
Proof.
  intros Hok Hs name v Hv.
  destruct (getStore_from_spec assign ∅ store Hok Hs name v Hv) as [(_ & ? & ?)|He]; [done|].
  by rewrite lookup_empty in He.
Qed.

Lemma setup_lookup store s name v :
  store !! name = Some v -> next_run (setupNewValues store s) !! name = Some v.
Proof. intros Hv. cbn. by apply lookup_union_Some_l. Qed.

Lemma setup_ok store s : store_ok store -> store_ok (next_run s) ->
  store_ok (next_run (setupNewValues store s)).
Proof.
  intros H1 H2 n v Hv. cbn in Hv. apply lookup_union_Some_raw in Hv as [Hv|[_ Hv]].
  - by eapply H1.
  - by eapply H2.
Qed.

(** * The properties *)

(** C24 The values the solver chose reach the program: after [setupNewValues] with the
    store of an assignment, the request for a variable of the store gives its concolic
    value under exactly that assignment, once (it is removed from the prepared values), and
    records it for the run. *)
Theorem solver_values_reach_program rand assign store s name v :
  assignment_ok assign -> getStore assign = Some store -> store_ok (next_run s) ->
  store !! name = Some v ->
  exists c s',
    match type_of v with uint32 => getSymbolicWord rand name (setupNewValues store s)
                       | uint8 => getSymbolicByte rand name (setupNewValues store s) end
      = Some (c, s') /\
    cval (input_of assign) c (AP (8 * intByteSize v) (intToUint v)) /\
    next_run s' !! name = None /\ getPrevStore s' = {[name := v]}.
Proof.
  intros Hok Hs Hnext Hv. pose proof (getStore_spec assign store Hok Hs) as Hspec.
  assert (store_ok (next_run (setupNewValues store s))) as Hsok.
  { apply setup_ok; [|done]. intros n w Hw. by eapply Hspec. }
  pose proof (setup_lookup store s name v Hv) as Hl.
  assert (handed_out rand (type_of v) name (setupNewValues store s) = v) as Hh
    by (unfold handed_out; by rewrite Hl).
  assert (type_ok (setupNewValues store s) (type_of v) name) as Hty
    by (intros w Hw; congruence).
  assert (granted rand (type_of v) name (setupNewValues store s)
    (match type_of v with uint32 => getSymbolicWord rand name (setupNewValues store s)
                        | uint8 => getSymbolicByte rand name (setupNewValues store s) end))
    as (c & s' & Hc & _ & _ & Hn & Hlast & Hcv)
    by (destruct (type_of v); [by apply getSymbolicByte_spec|by apply getSymbolicWord_spec]).
  rewrite Hh in Hlast, Hcv. exists c, s'. split; [done|].
  split; [apply Hcv; by apply Hspec|]. split; [rewrite Hn; apply lookup_delete_eq|].
  unfold getPrevStore. rewrite Hlast. cbn. by rewrite insert_empty.
Qed.

(** A symbolic byte sequence is the little-endian concatenation of one symbolic byte
    per position, named after the sequence and the position: the bytes handed out are
    recorded for the run, and under every input that agrees with the recorded values the
    result is a concolic view of their value. *)
Theorem getSymbolicBytes_little_endian `{BuilderLaws} rand name n s :
  (0 < n)%nat ->
  (forall j, type_ok s uint8 (byte_name name j)) -> store_ok (next_run s) ->
  exists c s' bytes, getSymbolicBytes rand name n s = Some (Some c, s') /\
    length bytes = n /\
    (forall j b, bytes !! j = Some b -> getPrevStore s' !! byte_name name j = Some (U8 b)) /\
    forall σ, (forall m v, getPrevStore s' !! m = Some v -> assigns σ m v) ->
      cval σ c (AP (8 * Z.of_nat n) (le_value bytes)).
Proof.
  intros Hn Ht Hok.
  destruct (getSymbolicBytes_from_spec rand name n 0 None s (fun j _ => Ht j) Hok)
    as (r' & s' & bytes & Hf & Hlen & Hb & _ & _ & Hrec & Hcol).
  assert (forall σ, (forall m v, last_run s' !! m = Some v -> assigns σ m v) ->
    collected σ r' bytes) as Hall.
  { intros σ Ha. apply (Hcol σ []); [|done]. intros j b Hj. apply Ha. by apply Hrec. }
  destruct r' as [c|].
  - exists c, s', bytes. split; [done|]. split; [done|]. split; [by intros; apply Hrec|].
    intros σ Ha. destruct (Hall σ Ha) as [_ Hcv]. by rewrite Hlen in Hcv.
  - exfalso. set (σ := (fun m i => match last_run s' !! m with
      | Some v => Z.shiftr (intToUint v) (8 * i) | None => 0 end) : assignment).
    assert (bytes = []) as -> by (apply (Hall σ); intros m v Hm i _; unfold σ; by rewrite Hm).
    cbn in Hlen. lia.
Qed.

(** ** Witnesses *)

Lemma solver_values_reach_program_witness :
  exists c s', getSymbolicWord (fun _ => 0) "len" (setupNewValues {["len" := U32 0x0201]} (mkContext ∅ ∅ 0))
    = Some (c, s') /\
    cval (input_of [(mkArray "len" 4, [1; 2; 0; 0])]) c (AP 32 0x0201) /\
    next_run s' !! "len" = None /\ getPrevStore s' = {["len" := U32 0x0201]}.
Proof.
  apply (solver_values_reach_program (fun _ => 0) [(mkArray "len" 4, [1; 2; 0; 0])]
    {["len" := U32 0x0201]} (mkContext ∅ ∅ 0) "len" (U32 0x0201)).
  - split; [apply NoDup_singleton|]. repeat constructor; discriminate.
  - reflexivity.
  - intros n v Hv. cbn in Hv. by rewrite lookup_empty in Hv.
  - apply lookup_singleton_eq.
Defined.

Lemma getSymbolicBytes_little_endian_witness :
  exists c s' bytes,
    getSymbolicBytes (H := solver_builder) Z.of_nat "msg" 3 (mkContext ∅ ∅ 7) = Some (Some c, s') /\
    length bytes = 3%nat /\
    (forall j b, bytes !! j = Some b -> getPrevStore s' !! byte_name "msg" j = Some (U8 b)) /\
    forall σ, (forall m v, getPrevStore s' !! m = Some v -> assigns σ m v) ->
      cval σ c (AP 24 (le_value bytes)).
Proof.
  apply (getSymbolicBytes_little_endian (H0 := solver_builder_laws) Z.of_nat "msg" 3 (mkContext ∅ ∅ 7)).
  - lia.
  - intros j v Hv. cbn in Hv. by rewrite lookup_empty in Hv.
  - intros n v Hv. cbn in Hv. by rewrite lookup_empty in Hv.
Defined.
