(* ===== verification/Csr.v ===== *)
(** The control and status registers (core/rv32/csr.h): their addresses, masks and
    bit-fields, the table that holds them and the mapping from addresses to registers. *)
From S2P Require Import Prelude Bits.

(** * Addresses and masks (namespace [csr]) *)

Module CSR.
Definition MIE_MASK : Z := 0xbbb.
Definition SIE_MASK : Z := 0x333.
Definition UIE_MASK : Z := 0x111.
Definition MIP_WRITE_MASK : Z := 0x333.
Definition MIP_READ_MASK : Z := MIE_MASK.
Definition SIP_MASK : Z := 0x3.
Definition UIP_MASK : Z := 0x1.
Definition MEDELEG_MASK : Z := 0xbbff.
Definition MIDELEG_MASK : Z := MIE_MASK.
Definition MTVEC_MASK : Z := 0xfffffffd.
Definition MCOUNTEREN_MASK : Z := 0x7.
Definition MCOUNTINHIBIT_MASK : Z := 0x5.
Definition SEDELEG_MASK : Z := 0xb1ff.
Definition SIDELEG_MASK : Z := MIDELEG_MASK.
Definition MSTATUS_MASK : Z := 0x807ff9bb.
Definition SSTATUS_MASK : Z := 0x800de133.
Definition USTATUS_MASK : Z := 0x11.
Definition SATP_MASK : Z := 0x803fffff.
Definition SATP_MODE : Z := 0x80000000.
Definition FCSR_MASK : Z := 0xff.
Definition CYCLE_ADDR : Z := 0xc00.
Definition CYCLEH_ADDR : Z := 0xc80.
Definition TIME_ADDR : Z := 0xc01.
Definition TIMEH_ADDR : Z := 0xc81.
Definition INSTRET_ADDR : Z := 0xc02.
Definition INSTRETH_ADDR : Z := 0xc82.
Definition MCYCLE_ADDR : Z := 0xb00.
Definition MCYCLEH_ADDR : Z := 0xb80.
Definition MTIME_ADDR : Z := 0xb01.
Definition MTIMEH_ADDR : Z := 0xb81.
Definition MINSTRET_ADDR : Z := 0xb02.
Definition MINSTRETH_ADDR : Z := 0xb82.
Definition TSELECT_ADDR : Z := 0x7a0.
Definition TDATA1_ADDR : Z := 0x7a1.
Definition TDATA2_ADDR : Z := 0x7a2.
Definition TDATA3_ADDR : Z := 0x7a3.
Definition DCSR_ADDR : Z := 0x7b0.
Definition DPC_ADDR : Z := 0x7b1.
Definition DSCRATCH0_ADDR : Z := 0x7b2.
Definition DSCRATCH1_ADDR : Z := 0x7b3.
Definition MVENDORID_ADDR : Z := 0xf11.
Definition MARCHID_ADDR : Z := 0xf12.
Definition MIMPID_ADDR : Z := 0xf13.
Definition MHARTID_ADDR : Z := 0xf14.
Definition MSTATUS_ADDR : Z := 0x300.
Definition MISA_ADDR : Z := 0x301.
Definition MEDELEG_ADDR : Z := 0x302.
Definition MIDELEG_ADDR : Z := 0x303.
Definition MIE_ADDR : Z := 0x304.
Definition MTVEC_ADDR : Z := 0x305.
Definition MCOUNTEREN_ADDR : Z := 0x306.
Definition MCOUNTINHIBIT_ADDR : Z := 0x320.
Definition MSCRATCH_ADDR : Z := 0x340.
Definition MEPC_ADDR : Z := 0x341.
Definition MCAUSE_ADDR : Z := 0x342.
Definition MTVAL_ADDR : Z := 0x343.
Definition MIP_ADDR : Z := 0x344.
Definition PMPCFG0_ADDR : Z := 0x3a0.
Definition PMPCFG1_ADDR : Z := 0x3a1.
Definition PMPCFG2_ADDR : Z := 0x3a2.
Definition PMPCFG3_ADDR : Z := 0x3a3.
Definition PMPADDR0_ADDR : Z := 0x3b0.
Definition PMPADDR1_ADDR : Z := 0x3b1.
Definition PMPADDR2_ADDR : Z := 0x3b2.
Definition PMPADDR3_ADDR : Z := 0x3b3.
Definition PMPADDR4_ADDR : Z := 0x3b4.
Definition PMPADDR5_ADDR : Z := 0x3b5.
Definition PMPADDR6_ADDR : Z := 0x3b6.
Definition PMPADDR7_ADDR : Z := 0x3b7.
Definition PMPADDR8_ADDR : Z := 0x3b8.
Definition PMPADDR9_ADDR : Z := 0x3b9.
Definition PMPADDR10_ADDR : Z := 0x3ba.
Definition PMPADDR11_ADDR : Z := 0x3bb.
Definition PMPADDR12_ADDR : Z := 0x3bc.
Definition PMPADDR13_ADDR : Z := 0x3bd.
Definition PMPADDR14_ADDR : Z := 0x3be.
Definition PMPADDR15_ADDR : Z := 0x3bf.
Definition SSTATUS_ADDR : Z := 0x100.
Definition SEDELEG_ADDR : Z := 0x102.
Definition SIDELEG_ADDR : Z := 0x103.
Definition SIE_ADDR : Z := 0x104.
Definition STVEC_ADDR : Z := 0x105.
Definition SCOUNTEREN_ADDR : Z := 0x106.
Definition SSCRATCH_ADDR : Z := 0x140.
Definition SEPC_ADDR : Z := 0x141.
Definition SCAUSE_ADDR : Z := 0x142.
Definition STVAL_ADDR : Z := 0x143.
Definition SIP_ADDR : Z := 0x144.
Definition SATP_ADDR : Z := 0x180.
Definition USTATUS_ADDR : Z := 0x000.
Definition UIE_ADDR : Z := 0x004.
Definition UTVEC_ADDR : Z := 0x005.
Definition USCRATCH_ADDR : Z := 0x040.
Definition UEPC_ADDR : Z := 0x041.
Definition UCAUSE_ADDR : Z := 0x042.
Definition UTVAL_ADDR : Z := 0x043.
Definition UIP_ADDR : Z := 0x044.
Definition FFLAGS_ADDR : Z := 0x001.
Definition FRM_ADDR : Z := 0x002.
Definition FCSR_ADDR : Z := 0x003.
Definition HPMCOUNTER3_ADDR : Z := 0xc03.
Definition HPMCOUNTER4_ADDR : Z := 0xc04.
Definition HPMCOUNTER5_ADDR : Z := 0xc05.
Definition HPMCOUNTER6_ADDR : Z := 0xc06.
Definition HPMCOUNTER7_ADDR : Z := 0xc07.
Definition HPMCOUNTER8_ADDR : Z := 0xc08.
Definition HPMCOUNTER9_ADDR : Z := 0xc09.
Definition HPMCOUNTER10_ADDR : Z := 0xc0a.
Definition HPMCOUNTER11_ADDR : Z := 0xc0b.
Definition HPMCOUNTER12_ADDR : Z := 0xc0c.
Definition HPMCOUNTER13_ADDR : Z := 0xc0d.
Definition HPMCOUNTER14_ADDR : Z := 0xc0e.
Definition HPMCOUNTER15_ADDR : Z := 0xc0f.
Definition HPMCOUNTER16_ADDR : Z := 0xc10.
Definition HPMCOUNTER17_ADDR : Z := 0xc11.
Definition HPMCOUNTER18_ADDR : Z := 0xc12.
Definition HPMCOUNTER19_ADDR : Z := 0xc13.
Definition HPMCOUNTER20_ADDR : Z := 0xc14.
Definition HPMCOUNTER21_ADDR : Z := 0xc15.
Definition HPMCOUNTER22_ADDR : Z := 0xc16.
Definition HPMCOUNTER23_ADDR : Z := 0xc17.
Definition HPMCOUNTER24_ADDR : Z := 0xc18.
Definition HPMCOUNTER25_ADDR : Z := 0xc19.
Definition HPMCOUNTER26_ADDR : Z := 0xc1a.
Definition HPMCOUNTER27_ADDR : Z := 0xc1b.
Definition HPMCOUNTER28_ADDR : Z := 0xc1c.
Definition HPMCOUNTER29_ADDR : Z := 0xc1d.
Definition HPMCOUNTER30_ADDR : Z := 0xc1e.
Definition HPMCOUNTER31_ADDR : Z := 0xc1f.
Definition HPMCOUNTER3H_ADDR : Z := 0xc83.
Definition HPMCOUNTER4H_ADDR : Z := 0xc84.
Definition HPMCOUNTER5H_ADDR : Z := 0xc85.
Definition HPMCOUNTER6H_ADDR : Z := 0xc86.
Definition HPMCOUNTER7H_ADDR : Z := 0xc87.
Definition HPMCOUNTER8H_ADDR : Z := 0xc88.
Definition HPMCOUNTER9H_ADDR : Z := 0xc89.
Definition HPMCOUNTER10H_ADDR : Z := 0xc8a.
Definition HPMCOUNTER11H_ADDR : Z := 0xc8b.
Definition HPMCOUNTER12H_ADDR : Z := 0xc8c.
Definition HPMCOUNTER13H_ADDR : Z := 0xc8d.
Definition HPMCOUNTER14H_ADDR : Z := 0xc8e.
Definition HPMCOUNTER15H_ADDR : Z := 0xc8f.
Definition HPMCOUNTER16H_ADDR : Z := 0xc90.
Definition HPMCOUNTER17H_ADDR : Z := 0xc91.
Definition HPMCOUNTER18H_ADDR : Z := 0xc92.
Definition HPMCOUNTER19H_ADDR : Z := 0xc93.
Definition HPMCOUNTER20H_ADDR : Z := 0xc94.
Definition HPMCOUNTER21H_ADDR : Z := 0xc95.
Definition HPMCOUNTER22H_ADDR : Z := 0xc96.
Definition HPMCOUNTER23H_ADDR : Z := 0xc97.
Definition HPMCOUNTER24H_ADDR : Z := 0xc98.
Definition HPMCOUNTER25H_ADDR : Z := 0xc99.
Definition HPMCOUNTER26H_ADDR : Z := 0xc9a.
Definition HPMCOUNTER27H_ADDR : Z := 0xc9b.
Definition HPMCOUNTER28H_ADDR : Z := 0xc9c.
Definition HPMCOUNTER29H_ADDR : Z := 0xc9d.
Definition HPMCOUNTER30H_ADDR : Z := 0xc9e.
Definition HPMCOUNTER31H_ADDR : Z := 0xc9f.
Definition MHPMCOUNTER3_ADDR : Z := 0xb03.
Definition MHPMCOUNTER4_ADDR : Z := 0xb04.
Definition MHPMCOUNTER5_ADDR : Z := 0xb05.
Definition MHPMCOUNTER6_ADDR : Z := 0xb06.
Definition MHPMCOUNTER7_ADDR : Z := 0xb07.
Definition MHPMCOUNTER8_ADDR : Z := 0xb08.
Definition MHPMCOUNTER9_ADDR : Z := 0xb09.
Definition MHPMCOUNTER10_ADDR : Z := 0xb0a.
Definition MHPMCOUNTER11_ADDR : Z := 0xb0b.
Definition MHPMCOUNTER12_ADDR : Z := 0xb0c.
Definition MHPMCOUNTER13_ADDR : Z := 0xb0d.
Definition MHPMCOUNTER14_ADDR : Z := 0xb0e.
Definition MHPMCOUNTER15_ADDR : Z := 0xb0f.
Definition MHPMCOUNTER16_ADDR : Z := 0xb10.
Definition MHPMCOUNTER17_ADDR : Z := 0xb11.
Definition MHPMCOUNTER18_ADDR : Z := 0xb12.
Definition MHPMCOUNTER19_ADDR : Z := 0xb13.
Definition MHPMCOUNTER20_ADDR : Z := 0xb14.
Definition MHPMCOUNTER21_ADDR : Z := 0xb15.
Definition MHPMCOUNTER22_ADDR : Z := 0xb16.
Definition MHPMCOUNTER23_ADDR : Z := 0xb17.
Definition MHPMCOUNTER24_ADDR : Z := 0xb18.
Definition MHPMCOUNTER25_ADDR : Z := 0xb19.
Definition MHPMCOUNTER26_ADDR : Z := 0xb1a.
Definition MHPMCOUNTER27_ADDR : Z := 0xb1b.
Definition MHPMCOUNTER28_ADDR : Z := 0xb1c.
Definition MHPMCOUNTER29_ADDR : Z := 0xb1d.
Definition MHPMCOUNTER30_ADDR : Z := 0xb1e.
Definition MHPMCOUNTER31_ADDR : Z := 0xb1f.
Definition MHPMCOUNTER3H_ADDR : Z := 0xb83.
Definition MHPMCOUNTER4H_ADDR : Z := 0xb84.
Definition MHPMCOUNTER5H_ADDR : Z := 0xb85.
Definition MHPMCOUNTER6H_ADDR : Z := 0xb86.
Definition MHPMCOUNTER7H_ADDR : Z := 0xb87.
Definition MHPMCOUNTER8H_ADDR : Z := 0xb88.
Definition MHPMCOUNTER9H_ADDR : Z := 0xb89.
Definition MHPMCOUNTER10H_ADDR : Z := 0xb8a.
Definition MHPMCOUNTER11H_ADDR : Z := 0xb8b.
Definition MHPMCOUNTER12H_ADDR : Z := 0xb8c.
Definition MHPMCOUNTER13H_ADDR : Z := 0xb8d.
Definition MHPMCOUNTER14H_ADDR : Z := 0xb8e.
Definition MHPMCOUNTER15H_ADDR : Z := 0xb8f.
Definition MHPMCOUNTER16H_ADDR : Z := 0xb90.
Definition MHPMCOUNTER17H_ADDR : Z := 0xb91.
Definition MHPMCOUNTER18H_ADDR : Z := 0xb92.
Definition MHPMCOUNTER19H_ADDR : Z := 0xb93.
Definition MHPMCOUNTER20H_ADDR : Z := 0xb94.
Definition MHPMCOUNTER21H_ADDR : Z := 0xb95.
Definition MHPMCOUNTER22H_ADDR : Z := 0xb96.
Definition MHPMCOUNTER23H_ADDR : Z := 0xb97.
Definition MHPMCOUNTER24H_ADDR : Z := 0xb98.
Definition MHPMCOUNTER25H_ADDR : Z := 0xb99.
Definition MHPMCOUNTER26H_ADDR : Z := 0xb9a.
Definition MHPMCOUNTER27H_ADDR : Z := 0xb9b.
Definition MHPMCOUNTER28H_ADDR : Z := 0xb9c.
Definition MHPMCOUNTER29H_ADDR : Z := 0xb9d.
Definition MHPMCOUNTER30H_ADDR : Z := 0xb9e.
Definition MHPMCOUNTER31H_ADDR : Z := 0xb9f.
Definition MHPMEVENT3_ADDR : Z := 0x323.
Definition MHPMEVENT4_ADDR : Z := 0x324.
Definition MHPMEVENT5_ADDR : Z := 0x325.
Definition MHPMEVENT6_ADDR : Z := 0x326.
Definition MHPMEVENT7_ADDR : Z := 0x327.
Definition MHPMEVENT8_ADDR : Z := 0x328.
Definition MHPMEVENT9_ADDR : Z := 0x329.
Definition MHPMEVENT10_ADDR : Z := 0x32a.
Definition MHPMEVENT11_ADDR : Z := 0x32b.
Definition MHPMEVENT12_ADDR : Z := 0x32c.
Definition MHPMEVENT13_ADDR : Z := 0x32d.
Definition MHPMEVENT14_ADDR : Z := 0x32e.
Definition MHPMEVENT15_ADDR : Z := 0x32f.
Definition MHPMEVENT16_ADDR : Z := 0x330.
Definition MHPMEVENT17_ADDR : Z := 0x331.
Definition MHPMEVENT18_ADDR : Z := 0x332.
Definition MHPMEVENT19_ADDR : Z := 0x333.
Definition MHPMEVENT20_ADDR : Z := 0x334.
Definition MHPMEVENT21_ADDR : Z := 0x335.
Definition MHPMEVENT22_ADDR : Z := 0x336.
Definition MHPMEVENT23_ADDR : Z := 0x337.
Definition MHPMEVENT24_ADDR : Z := 0x338.
Definition MHPMEVENT25_ADDR : Z := 0x339.
Definition MHPMEVENT26_ADDR : Z := 0x33a.
Definition MHPMEVENT27_ADDR : Z := 0x33b.
Definition MHPMEVENT28_ADDR : Z := 0x33c.
Definition MHPMEVENT29_ADDR : Z := 0x33d.
Definition MHPMEVENT30_ADDR : Z := 0x33e.
Definition MHPMEVENT31_ADDR : Z := 0x33f.
End CSR.
Export CSR.

(** [SWITCH_CASE_MATCH_ANY_HPMCOUNTER_RV32] *)
Definition ANY_HPMCOUNTER : list Z := [
  HPMCOUNTER3_ADDR; HPMCOUNTER4_ADDR; HPMCOUNTER5_ADDR; HPMCOUNTER6_ADDR;
  HPMCOUNTER7_ADDR; HPMCOUNTER8_ADDR; HPMCOUNTER9_ADDR; HPMCOUNTER10_ADDR;
  HPMCOUNTER11_ADDR; HPMCOUNTER12_ADDR; HPMCOUNTER13_ADDR; HPMCOUNTER14_ADDR;
  HPMCOUNTER15_ADDR; HPMCOUNTER16_ADDR; HPMCOUNTER17_ADDR; HPMCOUNTER18_ADDR;
  HPMCOUNTER19_ADDR; HPMCOUNTER20_ADDR; HPMCOUNTER21_ADDR; HPMCOUNTER22_ADDR;
  HPMCOUNTER23_ADDR; HPMCOUNTER24_ADDR; HPMCOUNTER25_ADDR; HPMCOUNTER26_ADDR;
  HPMCOUNTER27_ADDR; HPMCOUNTER28_ADDR; HPMCOUNTER29_ADDR; HPMCOUNTER30_ADDR;
  HPMCOUNTER31_ADDR; HPMCOUNTER3H_ADDR; HPMCOUNTER4H_ADDR; HPMCOUNTER5H_ADDR;
  HPMCOUNTER6H_ADDR; HPMCOUNTER7H_ADDR; HPMCOUNTER8H_ADDR; HPMCOUNTER9H_ADDR;
  HPMCOUNTER10H_ADDR; HPMCOUNTER11H_ADDR; HPMCOUNTER12H_ADDR; HPMCOUNTER13H_ADDR;
  HPMCOUNTER14H_ADDR; HPMCOUNTER15H_ADDR; HPMCOUNTER16H_ADDR; HPMCOUNTER17H_ADDR;
  HPMCOUNTER18H_ADDR; HPMCOUNTER19H_ADDR; HPMCOUNTER20H_ADDR; HPMCOUNTER21H_ADDR;
  HPMCOUNTER22H_ADDR; HPMCOUNTER23H_ADDR; HPMCOUNTER24H_ADDR; HPMCOUNTER25H_ADDR;
  HPMCOUNTER26H_ADDR; HPMCOUNTER27H_ADDR; HPMCOUNTER28H_ADDR; HPMCOUNTER29H_ADDR;
  HPMCOUNTER30H_ADDR; HPMCOUNTER31H_ADDR; MHPMCOUNTER3_ADDR; MHPMCOUNTER4_ADDR;
  MHPMCOUNTER5_ADDR; MHPMCOUNTER6_ADDR; MHPMCOUNTER7_ADDR; MHPMCOUNTER8_ADDR;
  MHPMCOUNTER9_ADDR; MHPMCOUNTER10_ADDR; MHPMCOUNTER11_ADDR; MHPMCOUNTER12_ADDR;
  MHPMCOUNTER13_ADDR; MHPMCOUNTER14_ADDR; MHPMCOUNTER15_ADDR; MHPMCOUNTER16_ADDR;
  MHPMCOUNTER17_ADDR; MHPMCOUNTER18_ADDR; MHPMCOUNTER19_ADDR; MHPMCOUNTER20_ADDR;
  MHPMCOUNTER21_ADDR; MHPMCOUNTER22_ADDR; MHPMCOUNTER23_ADDR; MHPMCOUNTER24_ADDR;
  MHPMCOUNTER25_ADDR; MHPMCOUNTER26_ADDR; MHPMCOUNTER27_ADDR; MHPMCOUNTER28_ADDR;
  MHPMCOUNTER29_ADDR; MHPMCOUNTER30_ADDR; MHPMCOUNTER31_ADDR; MHPMCOUNTER3H_ADDR;
  MHPMCOUNTER4H_ADDR; MHPMCOUNTER5H_ADDR; MHPMCOUNTER6H_ADDR; MHPMCOUNTER7H_ADDR;
  MHPMCOUNTER8H_ADDR; MHPMCOUNTER9H_ADDR; MHPMCOUNTER10H_ADDR; MHPMCOUNTER11H_ADDR;
  MHPMCOUNTER12H_ADDR; MHPMCOUNTER13H_ADDR; MHPMCOUNTER14H_ADDR; MHPMCOUNTER15H_ADDR;
  MHPMCOUNTER16H_ADDR; MHPMCOUNTER17H_ADDR; MHPMCOUNTER18H_ADDR; MHPMCOUNTER19H_ADDR;
  MHPMCOUNTER20H_ADDR; MHPMCOUNTER21H_ADDR; MHPMCOUNTER22H_ADDR; MHPMCOUNTER23H_ADDR;
  MHPMCOUNTER24H_ADDR; MHPMCOUNTER25H_ADDR; MHPMCOUNTER26H_ADDR; MHPMCOUNTER27H_ADDR;
  MHPMCOUNTER28H_ADDR; MHPMCOUNTER29H_ADDR; MHPMCOUNTER30H_ADDR; MHPMCOUNTER31H_ADDR;
  MHPMEVENT3_ADDR; MHPMEVENT4_ADDR; MHPMEVENT5_ADDR; MHPMEVENT6_ADDR;
  MHPMEVENT7_ADDR; MHPMEVENT8_ADDR; MHPMEVENT9_ADDR; MHPMEVENT10_ADDR;
  MHPMEVENT11_ADDR; MHPMEVENT12_ADDR; MHPMEVENT13_ADDR; MHPMEVENT14_ADDR;
  MHPMEVENT15_ADDR; MHPMEVENT16_ADDR; MHPMEVENT17_ADDR; MHPMEVENT18_ADDR;
  MHPMEVENT19_ADDR; MHPMEVENT20_ADDR; MHPMEVENT21_ADDR; MHPMEVENT22_ADDR;
  MHPMEVENT23_ADDR; MHPMEVENT24_ADDR; MHPMEVENT25_ADDR; MHPMEVENT26_ADDR;
  MHPMEVENT27_ADDR; MHPMEVENT28_ADDR; MHPMEVENT29_ADDR; MHPMEVENT30_ADDR;
  MHPMEVENT31_ADDR
].

(** * The registers *)

Inductive csr_name :=
| cycle | time | instret
| mvendorid
| marchid
| mimpid
| mhartid
| mstatus
| misa
| medeleg
| mideleg
| mie
| mtvec
| mcounteren
| mcountinhibit
| mscratch
| mepc
| mcause
| mtval
| mip
| sedeleg
| sideleg
| stvec
| scounteren
| sscratch
| sepc
| scause
| stval
| satp
| utvec
| uscratch
| uepc
| ucause
| utval
| fcsr
| pmpaddr (i : Z)
| pmpcfg (i : Z).
#[export] Instance csr_name_eq_dec : EqDecision csr_name.
Proof. solve_decision. Defined.

(** The registers are 32-bit words, the three counters 64-bit. *)
Definition csr_table : Type := csr_name -> Z.
Definition csr_width (r : csr_name) : Z :=
  match r with cycle | time | instret => 64 | _ => 32 end.

Definition csr_set (r : csr_name) (v : Z) (t : csr_table) : csr_table :=
  fun r' => if decide (r' = r) then v else t r'.

(** * Bit-fields *)

Record field := mkField { f_lo : Z; f_width : Z }.
Definition get_field (f : field) (reg : Z) : Z := Z.land (Z.shiftr reg (f_lo f)) (Z.ones (f_width f)).
(** An assignment to a bit-field keeps the low bits of the value. *)
Definition set_field (f : field) (v reg : Z) : Z :=
  Z.lor (Z.land reg (Z.lnot (Z.shiftl (Z.ones (f_width f)) (f_lo f))))
        (Z.shiftl (Z.land v (Z.ones (f_width f))) (f_lo f)).

Definition misa_extensions : field := mkField 0 26.
Definition misa_wiri : field := mkField 26 4.
Definition misa_mxl : field := mkField 30 2.
Definition mvendorid_offset : field := mkField 0 7.
Definition mvendorid_bank : field := mkField 7 25.
Definition mstatus_uie : field := mkField 0 1.
Definition mstatus_sie : field := mkField 1 1.
Definition mstatus_mie : field := mkField 3 1.
Definition mstatus_upie : field := mkField 4 1.
Definition mstatus_spie : field := mkField 5 1.
Definition mstatus_mpie : field := mkField 7 1.
Definition mstatus_spp : field := mkField 8 1.
Definition mstatus_mpp : field := mkField 11 2.
Definition mstatus_fs : field := mkField 13 2.
Definition mstatus_xs : field := mkField 15 2.
Definition mstatus_mprv : field := mkField 17 1.
Definition mstatus_sum : field := mkField 18 1.
Definition mstatus_mxr : field := mkField 19 1.
Definition mstatus_tvm : field := mkField 20 1.
Definition mstatus_tw : field := mkField 21 1.
Definition mstatus_tsr : field := mkField 22 1.
Definition mstatus_sd : field := mkField 31 1.
Definition mtvec_mode : field := mkField 0 2.
Definition mtvec_base : field := mkField 2 30.
Definition mie_usie : field := mkField 0 1.
Definition mie_ssie : field := mkField 1 1.
Definition mie_msie : field := mkField 3 1.
Definition mie_utie : field := mkField 4 1.
Definition mie_stie : field := mkField 5 1.
Definition mie_mtie : field := mkField 7 1.
Definition mie_ueie : field := mkField 8 1.
Definition mie_seie : field := mkField 9 1.
Definition mie_meie : field := mkField 11 1.
Definition mip_usip : field := mkField 0 1.
Definition mip_ssip : field := mkField 1 1.
Definition mip_msip : field := mkField 3 1.
Definition mip_utip : field := mkField 4 1.
Definition mip_stip : field := mkField 5 1.
Definition mip_mtip : field := mkField 7 1.
Definition mip_ueip : field := mkField 8 1.
Definition mip_seip : field := mkField 9 1.
Definition mip_meip : field := mkField 11 1.
Definition mcause_exception_code : field := mkField 0 31.
Definition mcause_interrupt : field := mkField 31 1.
Definition mcounteren_CY : field := mkField 0 1.
Definition mcounteren_TM : field := mkField 1 1.
Definition mcounteren_IR : field := mkField 2 1.
Definition mcountinhibit_CY : field := mkField 0 1.
Definition mcountinhibit_IR : field := mkField 2 1.
Definition pmpcfg_L0 : field := mkField 24 1.
Definition pmpcfg_A0 : field := mkField 27 2.
Definition pmpcfg_X0 : field := mkField 29 1.
Definition pmpcfg_W0 : field := mkField 30 1.
Definition pmpcfg_R0 : field := mkField 31 1.
Definition satp_ppn : field := mkField 0 22.
Definition satp_asid : field := mkField 22 9.
Definition satp_mode : field := mkField 31 1.
Definition fcsr_fflags : field := mkField 0 5.
Definition fcsr_frm : field := mkField 5 3.
Definition fcsr_NX : field := mkField 0 1.
Definition fcsr_UF : field := mkField 1 1.
Definition fcsr_OF : field := mkField 2 1.
Definition fcsr_DZ : field := mkField 3 1.
Definition fcsr_NV : field := mkField 4 1.

(** ** misa *)

Definition misa_A : Z := 1.
Definition misa_C : Z := Z.shiftl 1 2.
Definition misa_D : Z := Z.shiftl 1 3.
Definition misa_E : Z := Z.shiftl 1 4.
Definition misa_F : Z := Z.shiftl 1 5.
Definition misa_I : Z := Z.shiftl 1 8.
Definition misa_M : Z := Z.shiftl 1 12.
Definition misa_N : Z := Z.shiftl 1 13.
Definition misa_S : Z := Z.shiftl 1 18.
Definition misa_U : Z := Z.shiftl 1 20.

(** [csr_misa::init] *)
Definition misa_init : Z :=
  let extensions := Z.lor misa_I (Z.lor misa_M (Z.lor misa_A (Z.lor misa_F
    (Z.lor misa_C (Z.lor misa_N (Z.lor misa_U misa_S)))))) in
  set_field misa_mxl 1 (set_field misa_wiri 0 (set_field misa_extensions extensions 0)).
Definition has_C_extension (t : csr_table) : bool :=
  negb (Z.land (get_field misa_extensions (t misa)) misa_C =? 0).
Definition has_E_base_isa (t : csr_table) : bool :=
  negb (Z.land (get_field misa_extensions (t misa)) misa_E =? 0).
Definition has_user_mode_extension (t : csr_table) : bool :=
  negb (Z.land (get_field misa_extensions (t misa)) misa_U =? 0).
Definition has_supervisor_mode_extension (t : csr_table) : bool :=
  negb (Z.land (get_field misa_extensions (t misa)) misa_S =? 0).
Definition select_E_base_isa (t : csr_table) : csr_table :=
  csr_set misa
    (set_field misa_extensions
       (Z.lor (Z.land (get_field misa_extensions (t misa)) (Z.lnot misa_I)) misa_E) (t misa)) t.

(** ** mtvec *)

(** [csr_mtvec::get_base_address] *)
Definition get_base_address (mtvec : Z) : Z := u32 (Z.shiftl (get_field mtvec_base mtvec) 2).
Definition Vectored : Z := 1.

(** * The table *)

Definition csr_table_init : csr_table := csr_set misa misa_init (fun _ => 0).

(** What an entry of [register_mapping] points to: a 32-bit register, or one of the words
    of a counter. *)
Inductive csr_loc := Word (r : csr_name) | Low (r : csr_name) | High (r : csr_name).

Definition loc_read (l : csr_loc) (t : csr_table) : Z :=
  match l with
  | Word r => t r
  | Low r => wrap 32 (t r)
  | High r => Z.shiftr (t r) 32
  end.
Definition loc_write (l : csr_loc) (v : Z) (t : csr_table) : csr_table :=
  match l with
  | Word r => csr_set r v t
  | Low r => csr_set r (Z.lor (Z.shiftl (Z.shiftr (t r) 32) 32) v) t
  | High r => csr_set r (Z.lor (Z.shiftl v 32) (wrap 32 (t r))) t
  end.

Definition register_mapping : list (Z * csr_loc) := [
  (CYCLE_ADDR, Low cycle); (CYCLEH_ADDR, High cycle);
  (TIME_ADDR, Low time); (TIMEH_ADDR, High time);
  (INSTRET_ADDR, Low instret); (INSTRETH_ADDR, High instret);
  (MCYCLE_ADDR, Low cycle); (MCYCLEH_ADDR, High cycle);
  (MTIME_ADDR, Low time); (MTIMEH_ADDR, High time);
  (MINSTRET_ADDR, Low instret); (MINSTRETH_ADDR, High instret);
  (MVENDORID_ADDR, Word mvendorid); (MARCHID_ADDR, Word marchid);
  (MIMPID_ADDR, Word mimpid); (MHARTID_ADDR, Word mhartid);
  (MSTATUS_ADDR, Word mstatus); (MISA_ADDR, Word misa);
  (MEDELEG_ADDR, Word medeleg); (MIDELEG_ADDR, Word mideleg);
  (MIE_ADDR, Word mie); (MTVEC_ADDR, Word mtvec);
  (MCOUNTEREN_ADDR, Word mcounteren); (MCOUNTINHIBIT_ADDR, Word mcountinhibit);
  (MSCRATCH_ADDR, Word mscratch); (MEPC_ADDR, Word mepc); (MCAUSE_ADDR, Word mcause);
  (MTVAL_ADDR, Word mtval); (MIP_ADDR, Word mip)]
  ++ map (fun i => (PMPADDR0_ADDR + i, Word (pmpaddr i))) (seqZ 0 16)
  ++ map (fun i => (PMPCFG0_ADDR + i, Word (pmpcfg i))) (seqZ 0 4)
  ++ [
  (SEDELEG_ADDR, Word sedeleg); (SIDELEG_ADDR, Word sideleg); (STVEC_ADDR, Word stvec);
  (SCOUNTEREN_ADDR, Word scounteren); (SSCRATCH_ADDR, Word sscratch);
  (SEPC_ADDR, Word sepc); (SCAUSE_ADDR, Word scause); (STVAL_ADDR, Word stval);
  (SATP_ADDR, Word satp);
  (UTVEC_ADDR, Word utvec); (USCRATCH_ADDR, Word uscratch); (UEPC_ADDR, Word uepc);
  (UCAUSE_ADDR, Word ucause); (UTVAL_ADDR, Word utval);
  (FCSR_ADDR, Word fcsr)].

Fixpoint find_loc (addr : Z) (l : list (Z * csr_loc)) : option csr_loc :=
  match l with
  | [] => None
  | (a, loc) :: l => if addr =? a then Some loc else find_loc addr l
  end.
Definition mapped (addr : Z) : option csr_loc := find_loc addr register_mapping.

Definition is_valid_csr32_addr (addr : Z) : bool :=
  match mapped addr with Some _ => true | None => false end.
(** [None] is the failed [ensure]. *)
Definition default_read32 (addr : Z) (t : csr_table) : option Z :=
  loc ← mapped addr; Some (loc_read loc t).
Definition default_write32 (addr value : Z) (t : csr_table) : option csr_table :=
  loc ← mapped addr; Some (loc_write loc value t).

(** [csr::is_bitset] *)
Definition is_bitset (reg bitpos : Z) : bool := negb (Z.land reg (u32 (Z.shiftl 1 bitpos)) =? 0).

(** The lambdas [read] and [write] of [get_csr_value] and [set_csr_value]. *)
Definition masked_read (r : csr_name) (mask : Z) (t : csr_table) : Z := Z.land (t r) mask.
Definition masked_write (r : csr_name) (mask value : Z) (t : csr_table) : csr_table :=
  csr_set r (Z.lor (Z.land (t r) (u32 (Z.lnot mask))) (Z.land value mask)) t.

(** * Lemmas *)

Definition field_in (f : field) (w : Z) : Prop := 0 <= f_lo f /\ 0 < f_width f /\ f_lo f + f_width f <= w.

Lemma testbit_field_mask f i : 0 <= f_lo f -> 0 < f_width f -> 0 <= i ->
  Z.testbit (Z.shiftl (Z.ones (f_width f)) (f_lo f)) i =
    (f_lo f <=? i) && (i <? f_lo f + f_width f).
Proof.
  intros Hl Hw Hi. rewrite Z.shiftl_spec by done.
  destruct (Z.leb_spec (f_lo f) i); cbn.
  - rewrite Z.testbit_ones by lia. destruct (Z.leb_spec 0 (i - f_lo f)); [|lia]. cbn.
    destruct (Z.ltb_spec (i - f_lo f) (f_width f)), (Z.ltb_spec i (f_lo f + f_width f)); lia.
  - by rewrite Z.testbit_neg_r by lia.
Qed.

Lemma set_field_spec f v reg i : 0 <= f_lo f -> 0 < f_width f -> 0 <= i ->
  Z.testbit (set_field f v reg) i =
    if (f_lo f <=? i) && (i <? f_lo f + f_width f) then Z.testbit v (i - f_lo f)
    else Z.testbit reg i.
Proof.
  intros Hl Hw Hi. unfold set_field.
  rewrite Z.lor_spec, Z.land_spec, Z.lnot_spec, testbit_field_mask, Z.shiftl_spec by done.
  destruct (Z.leb_spec (f_lo f) i) as [H1|H1]; cbn.
  - rewrite Z.land_spec, Z.testbit_ones by lia.
    destruct (Z.leb_spec 0 (i - f_lo f)); [|lia]. cbn.
    destruct (Z.ltb_spec i (f_lo f + f_width f)), (Z.ltb_spec (i - f_lo f) (f_width f));
      try lia; cbn; by rewrite ?andb_true_r, ?andb_false_r, ?orb_false_r.
  - rewrite (Z.testbit_neg_r _ (i - f_lo f)) by lia. by rewrite andb_true_r, orb_false_r.
Qed.

Lemma get_field_spec f reg i : 0 <= f_lo f -> 0 < f_width f -> 0 <= i ->
  Z.testbit (get_field f reg) i = (i <? f_width f) && Z.testbit reg (i + f_lo f).
Proof.
  intros Hl Hw Hi. unfold get_field. rewrite Z.land_spec, Z.shiftr_spec, Z.testbit_ones by lia.
  rewrite (proj2 (Z.leb_le 0 i)) by done. cbn. by rewrite andb_comm.
Qed.

(** Reading back a field just written. *)
Lemma get_set_same f v reg : 0 <= f_lo f -> 0 < f_width f ->
  get_field f (set_field f v reg) = wrap (f_width f) v.
Proof.
  intros Hl Hw. apply Z.bits_inj'. intros i Hi.
  rewrite get_field_spec, wrap_spec by lia. destruct (Z.ltb_spec i (f_width f)); [|done]. cbn.
  rewrite set_field_spec by lia.
  destruct (Z.leb_spec (f_lo f) (i + f_lo f)), (Z.ltb_spec (i + f_lo f) (f_lo f + f_width f)); try lia.
  cbn. f_equal. lia.
Qed.

Definition disjoint_fields (f g : field) : bool :=
  (f_lo f + f_width f <=? f_lo g) || (f_lo g + f_width g <=? f_lo f).

(** Writing a field leaves the others. *)
Lemma get_set_other f g v reg : 0 <= f_lo f -> 0 < f_width f -> 0 <= f_lo g -> 0 < f_width g ->
  disjoint_fields f g = true -> get_field f (set_field g v reg) = get_field f reg.
Proof.
  intros Hl Hw Hl' Hw' Hd. apply Z.bits_inj'. intros i Hi. rewrite !get_field_spec by lia.
  destruct (Z.ltb_spec i (f_width f)); [|done]. cbn. rewrite set_field_spec by lia.
  unfold disjoint_fields in Hd.
  destruct (Z.leb_spec (f_lo g) (i + f_lo f)), (Z.ltb_spec (i + f_lo f) (f_lo g + f_width g)); cbn; try done.
  apply orb_true_iff in Hd. rewrite !Z.leb_le in Hd. lia.
Qed.

Lemma get_field_range f reg : 0 < f_width f -> 0 <= get_field f reg < 2 ^ f_width f.
Proof.
  intros Hw. unfold get_field. rewrite Z.land_ones by lia. apply Z.mod_pos_bound.
  apply Z.pow_pos_nonneg; lia.
Qed.

Lemma set_field_range f v reg w : field_in f w -> 0 <= reg < 2 ^ w -> 0 <= set_field f v reg < 2 ^ w.
Proof.
  intros (Hl & Hw & Hle) Hreg.
  assert (forall i, w <= i -> Z.testbit reg i = false) as Hhigh.
  { intros i Hi. rewrite <- (Z.mod_small reg (2 ^ w)) by done. by rewrite Z.mod_pow2_bits_high by lia. }
  assert (0 <= set_field f v reg) as Hpos.
  { unfold set_field. apply Z.lor_nonneg. split; [apply Z.land_nonneg; lia|].
    apply Z.shiftl_nonneg, Z.land_nonneg. right. rewrite Z.ones_equiv.
    assert (0 < 2 ^ f_width f) by (apply Z.pow_pos_nonneg; lia). lia. }
  assert (set_field f v reg = wrap w (set_field f v reg)) as ->; [|apply wrap_range; lia].
  apply Z.bits_inj'. intros i Hi. rewrite wrap_spec by lia.
  destruct (Z.ltb_spec i w); [done|]. cbn. rewrite set_field_spec by lia.
  destruct (Z.ltb_spec i (f_lo f + f_width f)); [lia|]. rewrite andb_false_r. by apply Hhigh.
Qed.

Lemma csr_set_eq r v t : csr_set r v t r = v.
Proof. unfold csr_set. by rewrite decide_True. Qed.
Lemma csr_set_ne r r' v t : r' <> r -> csr_set r v t r' = t r'.
Proof. intros H. unfold csr_set. by rewrite decide_False. Qed.

(** What a masked write leaves: the bits of the mask from the value, the others kept. *)
Lemma masked_write_spec r mask value t i :
  0 <= t r < 2 ^ 32 -> 0 <= mask < 2 ^ 32 -> 0 <= i ->
  Z.testbit (masked_write r mask value t r) i =
    if Z.testbit mask i then Z.testbit value i else Z.testbit (t r) i.
Proof.
  intros Ht Hm Hi. unfold masked_write. rewrite csr_set_eq, Z.lor_spec, !Z.land_spec, wrap_spec, Z.lnot_spec by lia.
  destruct (Z.testbit mask i) eqn:Hmi; cbn.
  - by rewrite !andb_false_r, andb_true_r.
  - rewrite !andb_false_r, orb_false_r, andb_true_r. destruct (Z.ltb_spec i 32); [by rewrite andb_true_r|].
    rewrite andb_false_r. symmetry. rewrite <- (Z.mod_small (t r) (2 ^ 32)) by done.
    by rewrite Z.mod_pow2_bits_high by lia.
Qed.
