(* ===== verification/Iss.v ===== *)
(** The RISC-V instruction set simulator, state and privileged architecture (core/rv32:
    iss.h, iss.cpp; core/common: trap.h, irq_if.h, core_defs.h): the register file, the
    access to control and status registers, traps and interrupts.  The instruction
    execution is in [IssExec]. *)
From S2P Require Import Prelude Bits Instr Csr APInt KExpr KType KBuilder Concolic PathTrace.

(** * Privilege levels and exception codes *)

Definition MachineMode : Z := 3.
Definition SupervisorMode : Z := 1.
Definition UserMode : Z := 0.
(** [-1] as a [uint32_t]. *)
Definition NoneMode : Z := 0xffffffff.

Definition EXC_U_SOFTWARE_INTERRUPT : Z := 0.
Definition EXC_S_SOFTWARE_INTERRUPT : Z := 1.
Definition EXC_M_SOFTWARE_INTERRUPT : Z := 3.
Definition EXC_U_TIMER_INTERRUPT : Z := 4.
Definition EXC_S_TIMER_INTERRUPT : Z := 5.
Definition EXC_M_TIMER_INTERRUPT : Z := 7.
Definition EXC_U_EXTERNAL_INTERRUPT : Z := 8.
Definition EXC_S_EXTERNAL_INTERRUPT : Z := 9.
Definition EXC_M_EXTERNAL_INTERRUPT : Z := 11.
Definition EXC_INSTR_ADDR_MISALIGNED : Z := 0.
Definition EXC_ILLEGAL_INSTR : Z := 2.
Definition EXC_LOAD_ADDR_MISALIGNED : Z := 4.
Definition EXC_LOAD_ACCESS_FAULT : Z := 5.
Definition EXC_STORE_AMO_ADDR_MISALIGNED : Z := 6.
Definition EXC_STORE_AMO_ACCESS_FAULT : Z := 7.
Definition EXC_ECALL_U_MODE : Z := 8.
Definition EXC_ECALL_S_MODE : Z := 9.
Definition EXC_ECALL_M_MODE : Z := 11.
Definition EXC_INSTR_PAGE_FAULT : Z := 12.
Definition EXC_LOAD_PAGE_FAULT : Z := 13.
Definition EXC_STORE_AMO_PAGE_FAULT : Z := 15.

Inductive CoreExecStatus := Runnable | HitBreakpoint | Terminated.
#[export] Instance CoreExecStatus_eq_dec : EqDecision CoreExecStatus.
Proof. solve_decision. Defined.

(** What a computation may throw: a [SimulationTrap], or an exception or failed assertion
    that ends the simulation.  [OtherException] is for exceptions of the environment. *)
Inductive exn :=
| SimulationTrap (reason mtval : Z)
| RuntimeError
| AssertionFailed
| OtherException (what : Z).
Definition out_of_range : Z := 0.
#[export] Instance exn_eq_dec : EqDecision exn.
Proof. solve_decision. Defined.

(** * State *)

Record ISS := mkISS {
  regs : Z -> ConcolicValue;
  pc : Z;
  last_pc : Z;
  shall_exit : bool;
  ignore_wfi : bool;
  csrs : csr_table;
  prv : Z;
  lr_sc_counter : Z;
  total_num_instr : Z;
  cur_instr : Instruction;
  op : Mapping;
  status : CoreExecStatus;
  breakpoints : gset Z;
  debug_mode : bool;
  cycle_counter : Z;
}.

Definition set_regs v s := mkISS v (pc s) (last_pc s) (shall_exit s) (ignore_wfi s) (csrs s) (prv s) (lr_sc_counter s) (total_num_instr s) (cur_instr s) (op s) (status s) (breakpoints s) (debug_mode s) (cycle_counter s).
Definition set_pc v s := mkISS (regs s) v (last_pc s) (shall_exit s) (ignore_wfi s) (csrs s) (prv s) (lr_sc_counter s) (total_num_instr s) (cur_instr s) (op s) (status s) (breakpoints s) (debug_mode s) (cycle_counter s).
Definition set_last_pc v s := mkISS (regs s) (pc s) v (shall_exit s) (ignore_wfi s) (csrs s) (prv s) (lr_sc_counter s) (total_num_instr s) (cur_instr s) (op s) (status s) (breakpoints s) (debug_mode s) (cycle_counter s).
Definition set_shall_exit v s := mkISS (regs s) (pc s) (last_pc s) v (ignore_wfi s) (csrs s) (prv s) (lr_sc_counter s) (total_num_instr s) (cur_instr s) (op s) (status s) (breakpoints s) (debug_mode s) (cycle_counter s).
Definition set_csrs v s := mkISS (regs s) (pc s) (last_pc s) (shall_exit s) (ignore_wfi s) v (prv s) (lr_sc_counter s) (total_num_instr s) (cur_instr s) (op s) (status s) (breakpoints s) (debug_mode s) (cycle_counter s).
Definition set_prv v s := mkISS (regs s) (pc s) (last_pc s) (shall_exit s) (ignore_wfi s) (csrs s) v (lr_sc_counter s) (total_num_instr s) (cur_instr s) (op s) (status s) (breakpoints s) (debug_mode s) (cycle_counter s).
Definition set_lr_sc_counter v s := mkISS (regs s) (pc s) (last_pc s) (shall_exit s) (ignore_wfi s) (csrs s) (prv s) v (total_num_instr s) (cur_instr s) (op s) (status s) (breakpoints s) (debug_mode s) (cycle_counter s).
Definition set_total_num_instr v s := mkISS (regs s) (pc s) (last_pc s) (shall_exit s) (ignore_wfi s) (csrs s) (prv s) (lr_sc_counter s) v (cur_instr s) (op s) (status s) (breakpoints s) (debug_mode s) (cycle_counter s).
Definition set_instr v s := mkISS (regs s) (pc s) (last_pc s) (shall_exit s) (ignore_wfi s) (csrs s) (prv s) (lr_sc_counter s) (total_num_instr s) v (op s) (status s) (breakpoints s) (debug_mode s) (cycle_counter s).
Definition set_op v s := mkISS (regs s) (pc s) (last_pc s) (shall_exit s) (ignore_wfi s) (csrs s) (prv s) (lr_sc_counter s) (total_num_instr s) (cur_instr s) v (status s) (breakpoints s) (debug_mode s) (cycle_counter s).
Definition set_status v s := mkISS (regs s) (pc s) (last_pc s) (shall_exit s) (ignore_wfi s) (csrs s) (prv s) (lr_sc_counter s) (total_num_instr s) (cur_instr s) (op s) v (breakpoints s) (debug_mode s) (cycle_counter s).
Definition set_ignore_wfi v s := mkISS (regs s) (pc s) (last_pc s) (shall_exit s) v (csrs s) (prv s) (lr_sc_counter s) (total_num_instr s) (cur_instr s) (op s) (status s) (breakpoints s) (debug_mode s) (cycle_counter s).
Definition set_breakpoints v s := mkISS (regs s) (pc s) (last_pc s) (shall_exit s) (ignore_wfi s) (csrs s) (prv s) (lr_sc_counter s) (total_num_instr s) (cur_instr s) (op s) (status s) v (debug_mode s) (cycle_counter s).
Definition set_debug_mode v s := mkISS (regs s) (pc s) (last_pc s) (shall_exit s) (ignore_wfi s) (csrs s) (prv s) (lr_sc_counter s) (total_num_instr s) (cur_instr s) (op s) (status s) (breakpoints s) v (cycle_counter s).
Definition set_cycle_counter v s := mkISS (regs s) (pc s) (last_pc s) (shall_exit s) (ignore_wfi s) (csrs s) (prv s) (lr_sc_counter s) (total_num_instr s) (cur_instr s) (op s) (status s) (breakpoints s) (debug_mode s) v.

(** The member initialisers and the constructors of [RegFile] and [ISS]. *)
Definition zero_word : ConcolicValue := Concolic (EConstant (CE_alloc 0 32)) None.
Definition ISS_new (hart_id : Z) (use_E_base_isa : bool) : ISS :=
  let t := csr_set mhartid hart_id csr_table_init in
  mkISS (fun _ => zero_word) 0 0 false false
    (if use_E_base_isa then select_E_base_isa t else t) MachineMode 0 0 (mkInstruction 0) UNDEF
    Runnable ∅ false 0.

(** * The environment

    The memory interfaces, the CLINT, the coverage, the symbolic context and the SystemC
    kernel, as the core calls them.  Such a call may change the environment's state, the
    pending interrupt bits and the trace, but no other part of the core; system calls,
    which can, are a separate parameter.  The memory management unit reads the registers
    and the mode of the core. *)

Record core_view := mkCoreView { core_csrs : csr_table; core_prv : Z }.
Record Shared (E : Type) := mkShared {
  sh_core : core_view; sh_env : E; sh_mip : Z; sh_trace : Trace }.
Arguments mkShared {E} sh_core sh_env sh_mip sh_trace.
Arguments sh_core {E} s.
Arguments sh_env {E} s.
Arguments sh_mip {E} s.
Arguments sh_trace {E} s.
Definition EnvM (E A : Type) : Type := SM (Shared E) exn A.

Inductive load_kind := load_byte_ | load_half_ | load_word_ | load_ubyte_ | load_uhalf_.
Inductive store_kind := store_byte_ | store_half_ | store_word_.

Class Env (E : Type) := {
  env_load_instr : Z -> EnvM E Z;
  env_load : load_kind -> ConcolicValue -> EnvM E ConcolicValue;
  env_store : store_kind -> ConcolicValue -> ConcolicValue -> EnvM E unit;
  env_atomic_load_word : ConcolicValue -> EnvM E ConcolicValue;
  env_atomic_store_word : ConcolicValue -> ConcolicValue -> EnvM E unit;
  env_atomic_load_reserved_word : ConcolicValue -> EnvM E ConcolicValue;
  env_atomic_store_conditional_word : ConcolicValue -> ConcolicValue -> EnvM E bool;
  env_atomic_unlock : EnvM E unit;
  env_update_and_get_mtime : EnvM E Z;
  env_cover_instr : Z -> EnvM E unit;
  env_cover_branch : Z -> bool -> EnvM E unit;
  env_current_index : EnvM E Z;
  env_wait_wfi : EnvM E unit;
  env_notify_wfi : EnvM E unit;
  env_quantum_inc : Z -> EnvM E unit;
  env_need_sync : EnvM E bool;
  env_sync : EnvM E unit;
  (* the symbolic context and, for [make_symbolic], the execution context *)
  env_processed_packet : EnvM E bool;
  env_current_length : EnvM E Z;
  env_early_exit : Z -> EnvM E unit;
  env_get_symbolic_bytes : string -> Z -> EnvM E ConcolicValue;
  env_symbolic_store_data : ConcolicValue -> ConcolicValue -> Z -> EnvM E unit;
}.

(** ** The bus lock

    What the core relies on when it gives the lock back ([bus_lock_if::unlock]): it
    returns, and touches neither the interrupt bits nor the trace. *)
Class LockLaws (E : Type) `{Env E} : Prop := {
  env_atomic_unlock_law sh : exists e,
    env_atomic_unlock sh = (Ok tt, mkShared (sh_core sh) e (sh_mip sh) (sh_trace sh));
}.

(** ** The record of branches

    What the core relies on when it records a branch: [Coverage::cover_branch] and
    [SymbolicContext::current_index] return, the first touches neither the interrupt bits
    nor the trace nor the packet index, and the second reads that index. *)
Class RecordLaws (E : Type) `{Env E} := {
  packet_index : E -> Z;
  env_cover_branch_run a b sh : exists e,
    env_cover_branch a b sh = (Ok tt, mkShared (sh_core sh) e (sh_mip sh) (sh_trace sh)) /\
    packet_index e = packet_index (sh_env sh);
  env_current_index_run sh : env_current_index sh = (Ok (packet_index (sh_env sh)), sh);
}.

(** ** Concolic soundness of the environment

    [σ] is the input of the run.  A word is a concolic view of some 32-bit value under it;
    a trace is sound when every path constraint in it holds for it. *)
Definition is_word (σ : assignment) (c : ConcolicValue) : Prop := exists x, cval σ c (AP 32 x).
Definition trace_sound (σ : assignment) (t : Trace) : Prop :=
  trace_ok t /\ Forall (holds σ) (cs t).
Definition shared_ok {E} (σ : assignment) (inv : E -> Prop) (s : Shared E) : Prop :=
  inv (sh_env s) /\ trace_sound σ (sh_trace s).

(** What the core relies on: an invariant of the environment every call keeps, and loads
    that return words. *)
Class EnvLaws (σ : assignment) (E : Type) `{Env E} := {
  env_inv : E -> Prop;
  env_load_instr_law a : keeps (shared_ok σ env_inv) (env_load_instr a);
  env_load_law k a : is_word σ a -> yields (shared_ok σ env_inv) (env_load k a) (is_word σ);
  env_store_law k a v : is_word σ a -> is_word σ v -> keeps (shared_ok σ env_inv) (env_store k a v);
  env_atomic_load_word_law a :
    is_word σ a -> yields (shared_ok σ env_inv) (env_atomic_load_word a) (is_word σ);
  env_atomic_store_word_law a v :
    is_word σ a -> is_word σ v -> keeps (shared_ok σ env_inv) (env_atomic_store_word a v);
  env_atomic_load_reserved_word_law a :
    is_word σ a -> yields (shared_ok σ env_inv) (env_atomic_load_reserved_word a) (is_word σ);
  env_atomic_store_conditional_word_law a v :
    is_word σ a -> is_word σ v ->
    keeps (shared_ok σ env_inv) (env_atomic_store_conditional_word a v);
  env_unlock_law : keeps (shared_ok σ env_inv) env_atomic_unlock;
  env_update_and_get_mtime_law : keeps (shared_ok σ env_inv) env_update_and_get_mtime;
  env_cover_instr_law a : keeps (shared_ok σ env_inv) (env_cover_instr a);
  env_cover_branch_law a b : keeps (shared_ok σ env_inv) (env_cover_branch a b);
  env_current_index_law : keeps (shared_ok σ env_inv) env_current_index;
  env_wait_wfi_law : keeps (shared_ok σ env_inv) env_wait_wfi;
  env_quantum_inc_law n : keeps (shared_ok σ env_inv) (env_quantum_inc n);
  env_need_sync_law : keeps (shared_ok σ env_inv) env_need_sync;
  env_sync_law : keeps (shared_ok σ env_inv) env_sync;
}.

Record World (E : Type) := mkWorld { iss : ISS; tracer : Trace; env : E }.
Arguments mkWorld {E} iss tracer env.
Arguments iss {E} w.
Arguments tracer {E} w.
Arguments env {E} w.

Definition M (E A : Type) : Type := SM (World E) exn A.

Section core.
Context {E : Type} `{Env E} `{ExprBuilder} `{KleeSolver}.
#[local] Open Scope sm_scope.

Definition lift_env {A} (m : EnvM E A) : M E A := fun w =>
  let view := mkCoreView (csrs (iss w)) (prv (iss w)) in
  let '(r, sh) := m (mkShared view (env w) (csrs (iss w) mip) (tracer w)) in
  (r, mkWorld (set_csrs (csr_set mip (sh_mip sh) (csrs (iss w))) (iss w)) (sh_trace sh) (sh_env sh)).

Definition gets {A} (f : ISS -> A) : M E A := sm_gets (fun w => f (iss w)).
Definition modify (f : ISS -> ISS) : M E unit :=
  sm_modify (fun w => mkWorld (f (iss w)) (tracer w) (env w)).
Definition get_csr (r : csr_name) : M E Z := gets (fun s => csrs s r).
Definition put_csr (r : csr_name) (v : Z) : M E unit :=
  modify (fun s => set_csrs (csr_set r v (csrs s)) s).
Definition get_csr_field (r : csr_name) (f : field) : M E Z := gets (fun s => get_field f (csrs s r)).
Definition put_csr_field (r : csr_name) (f : field) (v : Z) : M E unit :=
  modify (fun s => set_csrs (csr_set r (set_field f v (csrs s r)) (csrs s)) s).
(** A result that is [None] where an assertion fails. *)
Definition asserted {A} (o : option A) : M E A :=
  match o with Some a => sm_ret a | None => sm_throw AssertionFailed end.
Definition assert_ (b : bool) : M E unit := if b then sm_ret tt else sm_throw AssertionFailed.
Definition raise_trap {A} (exc mtval : Z) : M E A := sm_throw (SimulationTrap exc mtval).

(** RAISE_ILLEGAL_INSTRUCTION and REQUIRE_ISA *)
Definition RAISE_ILLEGAL_INSTRUCTION {A} : M E A :=
  i <-- gets cur_instr ;; raise_trap EXC_ILLEGAL_INSTR (data i).
Definition REQUIRE_ISA (ext : Z) : M E unit :=
  reg <-- get_csr misa ;;
  sm_when (Z.land reg ext =? 0) RAISE_ILLEGAL_INSTRUCTION.

(** A constant 32-bit value: [solver.BVC(std::nullopt, (uint32_t)z)]. *)
Definition BVC_word (z : Z) : M E ConcolicValue := asserted (BVC None (U32 (u32 z))).
(** [solver.getValue<uint32_t>] *)
Definition get_u32 (c : ConcolicValue) : M E Z := asserted (getValue 32 (concrete c)).

(** * Register file *)

(** [RegFile::write].  The last case of the source asserts a string literal, which is
    never false: a wider value is dropped. *)
Definition regs_write (index : Z) (value : ConcolicValue) : M E unit :=
  assert_ (index <=? 31) ;;;
  w <-- asserted (cv_getWidth value) ;;
  if w <? 32 then
    modify (fun s => set_regs (fun i => if i =? index then cv_zext value 32 else regs s i) s)
  else if w =? 32 then
    modify (fun s => set_regs (fun i => if i =? index then value else regs s i) s)
  else sm_ret tt.

(** [regs[idx]] *)
Definition reg (idx : Z) : M E ConcolicValue := gets (fun s => regs s idx).
(** [RegFile::read] *)
Definition regs_read (index : Z) : M E ConcolicValue :=
  if 31 <? index then sm_throw (OtherException out_of_range) else reg index.
(** [RegFile::shamt] *)
Definition regs_shamt (index : Z) : M E ConcolicValue :=
  assert_ (index <=? 31) ;;;
  r <-- reg index ;;
  sm_ret (cv_zext (cv_extract r 0 5) 32).

(** * Modes and alignment *)

Definition pc_alignment_mask (t : csr_table) : Z :=
  if has_C_extension t then u32 (Z.lnot 1) else u32 (Z.lnot 3).

Definition trap_check_pc_alignment : M E unit :=
  p <-- gets pc ;; t <-- gets csrs ;;
  assert_ (Z.land p 1 =? 0) ;;;
  sm_when (negb (Z.land p 3 =? 0) && negb (has_C_extension t))
    (raise_trap EXC_INSTR_ADDR_MISALIGNED p).

Definition trap_check_addr_alignment (alignment : Z) (isLoad : bool) (addr : ConcolicValue) :
    M E unit :=
  caddr <-- get_u32 addr ;;
  sm_when (negb (caddr mod alignment =? 0))
    (raise_trap (if isLoad then EXC_LOAD_ADDR_MISALIGNED else EXC_STORE_AMO_ADDR_MISALIGNED)
       caddr).

Definition release_lr_sc_reservation : M E unit :=
  modify (set_lr_sc_counter 0) ;;; lift_env env_atomic_unlock.

(** * Control and status registers *)

Definition is_invalid_csr_access (csr_addr : Z) (is_write : bool) : M E bool :=
  sm_when ((csr_addr =? FFLAGS_ADDR) || (csr_addr =? FRM_ADDR) || (csr_addr =? FCSR_ADDR))
    (REQUIRE_ISA misa_F) ;;;
  t <-- gets csrs ;; p <-- gets prv ;;
  let csr_prv := Z.shiftr (Z.land 0x300 csr_addr) 8 in
  let csr_readonly := Z.shiftr (Z.land 0xC00 csr_addr) 10 =? 3 in
  let s_invalid := (csr_prv =? SupervisorMode) && negb (has_supervisor_mode_extension t) in
  let u_invalid := (csr_prv =? UserMode) && negb (has_user_mode_extension t) in
  sm_ret ((is_write && csr_readonly) || (p <? csr_prv) || s_invalid || u_invalid).

Definition is_counter_addr (addr : Z) : bool :=
  ((0xC00 <=? addr) && (addr <=? 0xC1F)) || ((0xC80 <=? addr) && (addr <=? 0xC9F)).

Definition validate_csr_counter_read_access_rights (addr : Z) : M E unit :=
  t <-- gets csrs ;; p <-- gets prv ;;
  if is_counter_addr addr then
    let cnt := Z.land addr 0x1F in
    sm_when ((p =? SupervisorMode) && negb (is_bitset (t mcounteren) cnt)) RAISE_ILLEGAL_INSTRUCTION ;;;
    sm_when ((p =? UserMode) && (negb (is_bitset (t mcounteren) cnt) || negb (is_bitset (t scounteren) cnt)))
      RAISE_ILLEGAL_INSTRUCTION
  else sm_ret tt.

(** Nanoseconds per cycle. *)
Definition cycle_time : Z := 10.
(** [_compute_and_get_current_cycles] *)
Definition compute_and_get_current_cycles : M E Z :=
  c <-- gets cycle_counter ;;
  assert_ (c mod cycle_time =? 0) ;;; sm_ret (c / cycle_time).

(** The 32-bit words of a counter. *)
Definition low (v : Z) : Z := wrap 32 v.
Definition high (v : Z) : Z := wrap 32 (Z.shiftr v 32).

Definition read_masked (r : csr_name) (mask : Z) : M E Z := gets (fun s => masked_read r mask (csrs s)).

(** What follows the switch of [get_csr_value]. *)
Definition get_csr_default (addr : Z) : M E Z :=
  t <-- gets csrs ;;
  sm_when (negb (is_valid_csr32_addr addr)) RAISE_ILLEGAL_INSTRUCTION ;;;
  asserted (default_read32 addr t).

Definition read_time (word : Z -> Z) : M E Z :=
  mtime <-- lift_env env_update_and_get_mtime ;;
  put_csr time (u64 mtime) ;;; v <-- get_csr time ;; sm_ret (word v).
Definition read_cycle (word : Z -> Z) : M E Z :=
  c <-- compute_and_get_current_cycles ;;
  put_csr cycle (u64 c) ;;; v <-- get_csr cycle ;; sm_ret (word v).
Definition read_instret (word : Z -> Z) : M E Z := v <-- get_csr instret ;; sm_ret (word v).

(** Labels that share a body. *)
Definition labels {A} (l : list Z) (a : A) : list (Z * A) := map (fun x => (x, a)) l.

Definition debug_csrs : list Z :=
  [TDATA1_ADDR; TDATA2_ADDR; TDATA3_ADDR; DCSR_ADDR; DPC_ADDR; DSCRATCH0_ADDR; DSCRATCH1_ADDR].

Definition get_csr_value (addr : Z) : M E Z :=
  validate_csr_counter_read_access_rights addr ;;;
  switch addr (
    labels [TIME_ADDR; MTIME_ADDR] (read_time low) ++
    labels [TIMEH_ADDR; MTIMEH_ADDR] (read_time high) ++ [
    (MCYCLE_ADDR, read_cycle low);
    (MCYCLEH_ADDR, read_cycle high);
    (MINSTRET_ADDR, read_instret low);
    (MINSTRETH_ADDR, read_instret high)] ++
    labels ANY_HPMCOUNTER (sm_ret 0) ++ [
    (MSTATUS_ADDR, read_masked mstatus MSTATUS_MASK);
    (SSTATUS_ADDR, read_masked mstatus SSTATUS_MASK);
    (USTATUS_ADDR, read_masked mstatus USTATUS_MASK);
    (MIP_ADDR, read_masked mip MIP_READ_MASK);
    (SIP_ADDR, read_masked mip SIP_MASK);
    (UIP_ADDR, read_masked mip UIP_MASK);
    (MIE_ADDR, read_masked mie MIE_MASK);
    (SIE_ADDR, read_masked mie SIE_MASK);
    (UIE_ADDR, read_masked mie UIE_MASK);
    (SATP_ADDR,
      tvm <-- get_csr_field mstatus mstatus_tvm ;;
      sm_when (negb (tvm =? 0)) RAISE_ILLEGAL_INSTRUCTION ;;; get_csr_default addr);
    (FCSR_ADDR, read_masked fcsr FCSR_MASK);
    (FFLAGS_ADDR, get_csr_field fcsr fcsr_fflags);
    (FRM_ADDR, get_csr_field fcsr fcsr_frm);
    (TSELECT_ADDR, sm_ret 1)] ++
    labels debug_csrs (sm_ret 0))
    (get_csr_default addr).

Definition write_masked (r : csr_name) (mask value : Z) : M E unit :=
  modify (fun s => set_csrs (masked_write r mask value (csrs s)) s).
(** The mask of the exception program counters depends on the C extension. *)
Definition write_epc (r : csr_name) (value : Z) : M E unit :=
  t <-- gets csrs ;; write_masked r (pc_alignment_mask t) value.

Definition set_csr_default (addr value : Z) : M E unit :=
  t <-- gets csrs ;;
  sm_when (negb (is_valid_csr32_addr addr)) RAISE_ILLEGAL_INSTRUCTION ;;;
  t' <-- asserted (default_write32 addr value t) ;; modify (set_csrs t').

Definition set_csr_value (addr value : Z) : M E unit :=
  switch addr (
    labels (MISA_ADDR :: ANY_HPMCOUNTER) (sm_ret tt) ++ [
    (SATP_ADDR,
      tvm <-- get_csr_field mstatus mstatus_tvm ;;
      sm_when (negb (tvm =? 0)) RAISE_ILLEGAL_INSTRUCTION ;;; write_masked satp SATP_MASK value);
    (MTVEC_ADDR, write_masked mtvec MTVEC_MASK value);
    (STVEC_ADDR, write_masked stvec MTVEC_MASK value);
    (UTVEC_ADDR, write_masked utvec MTVEC_MASK value);
    (MEPC_ADDR, write_epc mepc value);
    (SEPC_ADDR, write_epc sepc value);
    (UEPC_ADDR, write_epc uepc value);
    (MSTATUS_ADDR, write_masked mstatus MSTATUS_MASK value);
    (SSTATUS_ADDR, write_masked mstatus SSTATUS_MASK value);
    (USTATUS_ADDR, write_masked mstatus USTATUS_MASK value);
    (MIP_ADDR, write_masked mip MIP_WRITE_MASK value);
    (SIP_ADDR, write_masked mip SIP_MASK value);
    (UIP_ADDR, write_masked mip UIP_MASK value);
    (MIE_ADDR, write_masked mie MIE_MASK value);
    (SIE_ADDR, write_masked mie SIE_MASK value);
    (UIE_ADDR, write_masked mie UIE_MASK value);
    (MIDELEG_ADDR, write_masked mideleg MIDELEG_MASK value);
    (MEDELEG_ADDR, write_masked medeleg MEDELEG_MASK value);
    (SIDELEG_ADDR, write_masked sideleg SIDELEG_MASK value);
    (SEDELEG_ADDR, write_masked sedeleg SEDELEG_MASK value);
    (MCOUNTEREN_ADDR, write_masked mcounteren MCOUNTEREN_MASK value);
    (SCOUNTEREN_ADDR, write_masked scounteren MCOUNTEREN_MASK value);
    (MCOUNTINHIBIT_ADDR, write_masked mcountinhibit MCOUNTINHIBIT_MASK value);
    (FCSR_ADDR, write_masked fcsr FCSR_MASK value);
    (FFLAGS_ADDR, put_csr_field fcsr fcsr_fflags value);
    (FRM_ADDR, put_csr_field fcsr fcsr_frm value)] ++
    labels (TSELECT_ADDR :: debug_csrs) (sm_ret tt))
    (set_csr_default addr value).
End core.
