(* ===== verification/MmuSpec.v ===== *)
(** The Sv32 translation as the privileged architecture describes it, and the proofs that
    the page walk of [Mmu] implements it and that its look-aside buffer is transparent. *)
From S2P Require Import Prelude Bits Csr APInt KExpr KBuilder Concolic PathTrace Iss Mmu.

(** * Specification

    On a page table [pt], a function from physical addresses to 32-bit entries. *)

Record translation := mkTranslation {
  tr_root : Z;       (* physical page number of the root table *)
  tr_supervisor : bool; tr_sum : bool; tr_mxr : bool; tr_type : MemoryAccessType }.

Definition entry_valid (pte : Z) : bool :=
  Z.testbit pte 0 && (Z.testbit pte 1 || negb (Z.testbit pte 2)).
Definition entry_leaf (pte : Z) : bool := Z.testbit pte 1 || Z.testbit pte 3.
Definition entry_permits (t : translation) (pte : Z) : bool :=
  match tr_type t with
  | FETCH => Z.testbit pte 3
  | LOAD => Z.testbit pte 1 || (tr_mxr t && Z.testbit pte 3)
  | STORE => Z.testbit pte 1 && Z.testbit pte 2
  end &&
  (if tr_supervisor t
   then negb (Z.testbit pte 4) || (tr_sum t && negb (bool_decide (tr_type t = FETCH)))
   else Z.testbit pte 4).

(** What a leaf of level [i] makes of the virtual address [va]: level 1 maps a superpage. *)
Definition leaf_maps (t : translation) (i : Z) (va pte : Z) : option Z :=
  let page := pte / 2 ^ 10 in
  if entry_permits t pte && (page mod 2 ^ (10 * i) =? 0)
  then Some (page * 2 ^ 12 + va mod 2 ^ (12 + 10 * i)) else None.

(** The entries a virtual address selects at the two levels. *)
Definition root_entry (t : translation) (va : Z) : Z := tr_root t * 2 ^ 12 + va / 2 ^ 22 * 4.
Definition next_entry (pte va : Z) : Z := pte / 2 ^ 10 * 2 ^ 12 + va / 2 ^ 12 mod 2 ^ 10 * 4.

(** The address of the leaf entry and the physical address; [None] is a page fault. *)
Definition sv32 (pt : Z -> Z) (t : translation) (va : Z) : option (Z * Z) :=
  let a1 := root_entry t va in
  if entry_valid (pt a1) then
    if entry_leaf (pt a1) then pair a1 <$> leaf_maps t 1 va (pt a1)
    else
      let a0 := next_entry (pt a1) va in
      if entry_valid (pt a0) && entry_leaf (pt a0) then pair a0 <$> leaf_maps t 0 va (pt a0)
      else None
  else None.

(** The entries the translation looks at. *)
Definition sv32_reads (pt : Z -> Z) (t : translation) (va : Z) : list Z :=
  let a1 := root_entry t va in
  if entry_valid (pt a1) && negb (entry_leaf (pt a1)) then [a1; next_entry (pt a1) va] else [a1].

(** The translation the registers of the core ask for. *)
Definition core_translation (c : core_view) (type : MemoryAccessType) (mode : Z) : translation :=
  mkTranslation (get_field satp_ppn (core_csrs c satp)) (mode =? SupervisorMode)
    (negb (get_field mstatus_sum (core_csrs c mstatus) =? 0))
    (negb (get_field mstatus_mxr (core_csrs c mstatus) =? 0)) type.

(** * Page tables in memory

    What the unit relies on: [pte_at] is the word at an aligned physical address that is
    [backed] by memory; a load returns it, a store replaces it, and neither these nor the
    clock change anything else the unit can see. *)

Definition same_tables {E} (backed : E -> Z -> Prop) (pte_at : E -> Z -> Z) (e e' : E) : Prop :=
  forall a, backed e a -> backed e' a /\ pte_at e' a = pte_at e a.

Class PageTables (E : Type) `{MmuHost E} := {
  pte_at : E -> Z -> Z;
  backed : E -> Z -> Prop;
  pte_word e a : backed e a -> 0 <= pte_at e a < 2 ^ 32;
  put_mmu_law u e : get_mmu (put_mmu u e) = u /\ same_tables backed pte_at e (put_mmu u e);
  quantum_inc_law n s : exists e', quantum_inc n s = (Ok tt, with_env e' s) /\
    get_mmu e' = get_mmu (sh_env s) /\ same_tables backed pte_at (sh_env s) e';
  load_pte32_law a s : backed (sh_env s) a ->
    exists e', mmu_load_pte32 a s = (Ok (pte_at (sh_env s) a), with_env e' s) /\
      get_mmu e' = get_mmu (sh_env s) /\ same_tables backed pte_at (sh_env s) e';
  store_pte32_law a v s : backed (sh_env s) a -> 0 <= v < 2 ^ 32 ->
    exists e', mmu_store_pte32 a v s = (Ok tt, with_env e' s) /\
      get_mmu e' = get_mmu (sh_env s) /\
      forall x, backed (sh_env s) x ->
        backed e' x /\ pte_at e' x = if x =? a then v else pte_at (sh_env s) x;
}.

(** * Bits and fields *)

Lemma land_bit x k : 0 <= k -> negb (Z.land x (Z.shiftl 1 k) =? 0) = Z.testbit x k.
Proof.
  intros Hk. rewrite Z.shiftl_1_l. destruct (Z.testbit x k) eqn:Hx.
  - destruct (Z.eqb_spec (Z.land x (2 ^ k)) 0) as [H0|]; [|done].
    apply (f_equal (fun z => Z.testbit z k)) in H0.
    by rewrite Z.land_spec, Hx, Z.pow2_bits_true, Z.bits_0 in H0 by done.
  - destruct (Z.eqb_spec (Z.land x (2 ^ k)) 0) as [|H0]; [done|]. destruct H0. apply Z.bits_inj'.
    intros i Hi. rewrite Z.land_spec, Z.bits_0, Z.pow2_bits_eqb by done.
    destruct (Z.eqb_spec k i) as [->|]; [by rewrite Hx|apply andb_false_r].
Qed.
Create Rewrite HintDb pte.
Lemma pte_V_bit p : pte_V p = Z.testbit p 0.
Proof. by apply (land_bit p 0). Qed.
Lemma pte_R_bit p : pte_R p = Z.testbit p 1.
Proof. by apply (land_bit p 1). Qed.
Lemma pte_W_bit p : pte_W p = Z.testbit p 2.
Proof. by apply (land_bit p 2). Qed.
Lemma pte_X_bit p : pte_X p = Z.testbit p 3.
Proof. by apply (land_bit p 3). Qed.
Lemma pte_U_bit p : pte_U p = Z.testbit p 4.
Proof. by apply (land_bit p 4). Qed.
#[local] Hint Rewrite pte_V_bit pte_R_bit pte_W_bit pte_X_bit pte_U_bit : pte.

Lemma lor_shiftl_add a b k : 0 <= k -> 0 <= b < 2 ^ k -> Z.lor (Z.shiftl a k) b = a * 2 ^ k + b.
Proof.
  intros Hk Hb. rewrite <- Z.shiftl_mul_pow2 by done. symmetry. apply Z.add_nocarry_lor.
  apply Z.bits_inj'. intros i Hi. rewrite Z.land_spec, Z.bits_0.
  destruct (Z.ltb_spec i k) as [Hlt|Hge].
  - by rewrite Z.shiftl_spec_low.
  - rewrite <- (Z.mod_small b (2 ^ k)) by done. rewrite Z.mod_pow2_bits_high by lia.
    apply andb_false_r.
Qed.

(** The physical address the loop of [walk] assembles from an aligned page number. *)
Lemma assembled_address page va k :
  0 <= k <= 10 -> 0 <= page < 2 ^ 22 -> page mod 2 ^ k = 0 -> 0 <= va < 2 ^ 32 ->
  let mask := Z.shiftl 1 k - 1 in
  Z.lor (u64 (Z.shiftl (Z.lor (Z.land page (u64 (Z.lnot mask))) (Z.land (Z.shiftr va PGSHIFT) mask))
           PGSHIFT)) (Z.land va (PGSIZE - 1)) = page * 2 ^ 12 + va mod 2 ^ (12 + k).
Proof.
  intros Hk Hp Ha Hv mask. subst mask.
  rewrite Z.shiftl_1_l. replace (2 ^ k - 1) with (Z.ones k) by (rewrite Z.ones_equiv; lia).
  change (PGSIZE - 1) with (Z.ones 12). change PGSHIFT with 12.
  rewrite !Z.land_ones, Z.shiftr_div_pow2 by lia.
  assert (Z.land page (u64 (Z.lnot (Z.ones k))) = page) as ->.
  { rewrite wrap_land, (Z.land_comm (Z.lnot _)), Z.land_assoc, Z.land_ones by lia.
    rewrite (Z.mod_small page) by lia. rewrite <- Z.ldiff_land, Z.ldiff_ones_r by lia.
    rewrite Z.shiftl_mul_pow2, Z.shiftr_div_pow2 by lia.
    pose proof (Z.div_mod page (2 ^ k)). lia. }
  assert (2 ^ k <= 2 ^ 10) by (apply Z.pow_le_mono_r; lia). assert (0 < 2 ^ k) by lia.
  set (q := page / 2 ^ k). assert (page = q * 2 ^ k) as Hq by (subst q; pose proof (Z.div_mod page (2 ^ k)); lia).
  pose proof (Z.mod_pos_bound (va / 2 ^ 12) (2 ^ k)). pose proof (Z.mod_pos_bound va (2 ^ 12) ltac:(lia)).
  rewrite Hq at 1. rewrite <- (Z.shiftl_mul_pow2 q k), lor_shiftl_add, <- Hq by lia.
  rewrite wrap_small, lor_shiftl_add by (rewrite ?Z.shiftl_mul_pow2; lia).
  rewrite Z.pow_add_r, Z.rem_mul_r by lia. lia.
Qed.

Lemma access_allowed_permits root s sum mxr type p :
  access_allowed type s sum mxr p = entry_permits (mkTranslation root s sum mxr type) p.
Proof.
  unfold access_allowed, entry_permits. autorewrite with pte.
  cbn [tr_type tr_supervisor tr_sum tr_mxr].
  generalize (Z.testbit p 1), (Z.testbit p 2), (Z.testbit p 3), (Z.testbit p 4). intros r w x u.
  case_bool_decide; destruct type, s, sum, mxr, r, w, x, u; done.
Qed.
Lemma not_valid p : negb (pte_V p) || (negb (pte_R p) && pte_W p) = negb (entry_valid p).
Proof.
  unfold entry_valid. autorewrite with pte.
  by destruct (Z.testbit p 0), (Z.testbit p 1), (Z.testbit p 2).
Qed.
Lemma not_leaf p : negb (pte_R p) && negb (pte_X p) = negb (entry_leaf p).
Proof. unfold entry_leaf. autorewrite with pte. by rewrite negb_orb. Qed.
Lemma page_of p : Z.shiftr p PTE_PPN_SHIFT = p / 2 ^ 10.
Proof. by rewrite Z.shiftr_div_pow2. Qed.

(** ** Accessed and dirty bits

    The accessed bit is bit 6 of an entry, the dirty bit is bit 7; an access sets the first, a
    store both.  The page faults are the exceptions 12, 13 and 15. *)
Definition marked (type : MemoryAccessType) (p : Z) : Z :=
  match type with STORE => Z.setbit (Z.setbit p 6) 7 | _ => Z.setbit p 6 end.
Definition is_marked (type : MemoryAccessType) (p : Z) : Prop :=
  Z.testbit p 6 = true /\ (type = STORE -> Z.testbit p 7 = true).
Definition sv32_fault (type : MemoryAccessType) : Z :=
  match type with FETCH => 12 | LOAD => 13 | STORE => 15 end.

Lemma lor_marked type p : Z.lor p (ad_bits type) = marked type p.
Proof. destruct type; unfold marked, Z.setbit; [..|rewrite <- Z.lor_assoc]; reflexivity. Qed.
Lemma land_marked type p : Z.land p (ad_bits type) = ad_bits type -> is_marked type p.
Proof.
  intros Hp. split; [|intros ->]; pose proof (f_equal (fun z => Z.testbit z 6) Hp) as H6;
    pose proof (f_equal (fun z => Z.testbit z 7) Hp) as H7; cbn beta in H6, H7;
    rewrite Z.land_spec in H6, H7; [|by rewrite andb_true_r in H7].
  destruct type; by rewrite andb_true_r in H6.
Qed.
Lemma page_fault_spec type : page_fault type = sv32_fault type.
Proof. by destruct type. Qed.

(** * The walk *)

Section walk.
Context {E : Type} `{PageTables E}.
#[local] Open Scope sm_scope.

Local Abbreviation same := (same_tables backed pte_at).

(** The unit and the page tables are as before, up to the accessed and dirty bits of [a]. *)
Definition accessed (type : MemoryAccessType) (a : Z) (e e' : E) : Prop :=
  get_mmu e' = get_mmu e /\ forall x, backed e x -> backed e' x /\
    pte_at e' x = if x =? a then Z.lor (pte_at e x) (ad_bits type) else pte_at e x.

Lemma ad_bits_range type : 0 <= ad_bits type < 2 ^ 32.
Proof. by destruct type. Qed.
Lemma lor_ad_word p type : 0 <= p < 2 ^ 32 -> 0 <= Z.lor p (ad_bits type) < 2 ^ 32.
Proof.
  intros Hp. assert (Z.lor p (ad_bits type) = u32 (Z.lor p (ad_bits type))) as ->;
    [|by apply wrap_range].
  symmetry. apply Z.bits_inj'. intros i Hi. rewrite wrap_spec, Z.lor_spec by lia.
  destruct (Z.ltb_spec i 32) as [|Hge]; [done|]. cbn [andb].
  rewrite <- (wrap_small 32 p Hp), <- (wrap_small 32 _ (ad_bits_range type)), !wrap_spec by lia.
  by destruct (Z.ltb_spec i 32); [lia|].
Qed.

Lemma update_ad_run type a s :
  backed (sh_env s) a -> page_fault_on_AD (get_mmu (sh_env s)) = false ->
  exists e', update_ad type a (pte_at (sh_env s) a) s = (Ok true, with_env e' s) /\
    accessed type a (sh_env s) e'.
Proof.
  intros Ha Hf. unfold update_ad. set (p := pte_at (sh_env s) a).
  destruct (Z.eqb_spec (Z.land p (ad_bits type)) (ad_bits type)) as [Had|_].
  - exists (sh_env s). split; [by destruct s|]. split; [done|]. intros x Hx. split; [done|].
    destruct (Z.eqb_spec x a) as [->|]; [|done]. symmetry. fold p.
    rewrite <- Had, Z.lor_comm. apply Z.bits_inj'. intros i Hi.
    rewrite Z.lor_spec, Z.land_spec. by destruct (Z.testbit p i), (Z.testbit (ad_bits type) i).
  - unfold sm_bind at 1, env_gets, sm_gets. rewrite Hf. unfold sm_bind.
    rewrite wrap_small by (apply lor_ad_word, pte_word, Ha).
    destruct (store_pte32_law a (Z.lor p (ad_bits type)) s Ha) as (e' & -> & Hu & Hx);
      [apply lor_ad_word, pte_word, Ha|].
    exists e'. split; [done|]. split; [done|]. intros x Hb. destruct (Hx x Hb) as [? ->].
    split; [done|]. by destruct (Z.eqb_spec x a) as [->|].
Qed.

Lemma load_pte_run vm a s :
  ptesize vm = 4 -> mem_attached (get_mmu (sh_env s)) = true -> backed (sh_env s) a ->
  exists e', load_pte vm a s = (Ok (pte_at (sh_env s) a), with_env e' s) /\
    get_mmu e' = get_mmu (sh_env s) /\ same (sh_env s) e'.
Proof.
  intros Hsz Hm Ha. unfold load_pte. rewrite Hsz. unfold sm_bind, env_assert, env_gets, sm_gets, sm_ret.
  cbn. rewrite Hm. by apply load_pte32_law.
Qed.

Context (t : translation) (va : Z) (Hva : 0 <= va < 2 ^ 32).
Local Abbreviation vm := (mkVm 2 10 4 (tr_root t * 2 ^ 12)).
Local Abbreviation levels n base := (walk_levels vm (tr_type t) (tr_supervisor t) (tr_sum t) (tr_mxr t)
  va n base).

Lemma entry_of_level i base : (i <= 1)%nat -> 0 <= base < 2 ^ 34 -> base mod 2 ^ 12 = 0 ->
  u64 (base + Z.land (Z.shiftr va (PGSHIFT + Z.of_nat i * 10)) (Z.shiftl 1 10 - 1) * 4) =
  base + va / 2 ^ (12 + 10 * Z.of_nat i) mod 2 ^ 10 * 4.
Proof.
  intros Hi Hb _. change (Z.shiftl 1 10 - 1) with (Z.ones 10). change PGSHIFT with 12.
  rewrite Z.land_ones, Z.shiftr_div_pow2 by lia. rewrite (Z.mul_comm (Z.of_nat i)).
  set (x := va / _). pose proof (Z.mod_pos_bound x (2 ^ 10)). rewrite wrap_small; lia.
Qed.

(** One round of the loop, the entry at [a] being loaded: the three ways it goes on. *)
Lemma walk_round s i base a (p := pte_at (sh_env s) a) :
  (i <= 1)%nat -> 0 <= base < 2 ^ 34 -> base mod 2 ^ 12 = 0 ->
  a = base + va / 2 ^ (12 + 10 * Z.of_nat i) mod 2 ^ 10 * 4 -> backed (sh_env s) a ->
  mem_attached (get_mmu (sh_env s)) = true -> page_fault_on_AD (get_mmu (sh_env s)) = false ->
  if entry_valid p then
    if entry_leaf p then
      match leaf_maps t (Z.of_nat i) va p with
      | Some pa => exists e', levels (S i) base s = (Ok (Some pa), with_env e' s) /\
          accessed (tr_type t) a (sh_env s) e'
      | None => exists e', levels (S i) base s = (Ok None, with_env e' s) /\
          get_mmu e' = get_mmu (sh_env s) /\ same (sh_env s) e'
      end
    else exists e', levels (S i) base s = levels i (p / 2 ^ 10 * 2 ^ 12) (with_env e' s) /\
      get_mmu e' = get_mmu (sh_env s) /\ same (sh_env s) e'
  else exists e', levels (S i) base s = (Ok None, with_env e' s) /\
    get_mmu e' = get_mmu (sh_env s) /\ same (sh_env s) e'.
Proof.
  intros Hi Hb Hal Heq Ha Hm Hf. cbn [walk_levels]. rewrite entry_of_level by done. rewrite <- Heq.
  destruct (load_pte_run vm a s eq_refl Hm Ha) as (e1 & Hl & Hu1 & Hs1).
  assert (0 <= p < 2 ^ 32) as Hp by (by apply pte_word).
  assert (0 <= p / 2 ^ 10 < 2 ^ 22) as Hpage by
    (split; [apply Z.div_pos; lia|apply Z.div_lt_upper_bound; lia]).
  cbn [ptesize idxbits Mmu.levels] in *. rewrite (sm_bind_ok _ _ _ _ _ Hl). fold p.
  rewrite not_valid, not_leaf, page_of, (access_allowed_permits (tr_root t)).
  destruct (entry_valid p); cbn [negb]; [|by exists e1].
  destruct (entry_leaf p); cbn [negb]; cycle 1.
  { exists e1. split; [|done]. f_equal. rewrite Z.shiftl_mul_pow2 by done.
    change (2 ^ PGSHIFT) with (2 ^ 12). apply wrap_small. lia. }
  unfold leaf_maps. replace (mkTranslation _ _ _ _ _) with t by (by destruct t).
  destruct (entry_permits t p); cbn [negb andb]; [|by exists e1].
  rewrite <- (Z.mul_comm 10). set (k := 10 * Z.of_nat i).
  assert (Z.land (p / 2 ^ 10) (Z.shiftl 1 k - 1) = p / 2 ^ 10 mod 2 ^ k) as ->.
  { rewrite Z.shiftl_1_l, <- Z.land_ones by lia. f_equal. rewrite Z.ones_equiv. lia. }
  destruct (Z.eqb_spec (p / 2 ^ 10 mod 2 ^ k) 0) as [Hz|]; cbn [negb]; [|by exists e1].
  destruct (Hs1 a Ha) as [Ha1 Hpa].
  destruct (update_ad_run (tr_type t) a (with_env e1 s)) as (e2 & Hup & Hu2 & Hx);
    [done|cbn; by rewrite Hu1|].
  cbn [sh_env with_env] in Hup. rewrite Hpa in Hup. fold p in Hup.
  rewrite (sm_bind_ok _ _ _ _ _ Hup). exists e2. split; [|split; [cbn in *; congruence|]].
  - unfold sm_ret. do 3 f_equal. apply assembled_address; lia.
  - intros x Hxb. destruct (Hs1 x Hxb) as [Hx1 <-]. by apply Hx.
Qed.

(** The registers select Sv32 and the mode is a translated one. *)
Definition translates (c : core_view) (mode : Z) : Prop :=
  get_field satp_mode (core_csrs c satp) = SATP_MODE_SV32 /\ (mode = UserMode \/ mode = SupervisorMode).
Definition mmu_ready (u : GenericMMU) : Prop := mem_attached u = true /\ page_fault_on_AD u = false.

Lemma decode_run mode (s : Shared E) : translates (sh_core s) mode ->
  decode_vm_info mode s =
    (Ok (mkVm 2 10 4 (get_field satp_ppn (core_csrs (sh_core s) satp) * 2 ^ 12)), s).
Proof.
  intros [Hm Hmode]. unfold decode_vm_info, core_csr, sm_bind, env_assert, sm_gets, sm_ret.
  assert ((mode <=? SupervisorMode) = true) as -> by (destruct Hmode; by subst). cbn beta iota.
  rewrite Hm. cbn [switch Z.eqb Pos.eqb SATP_MODE_SV32]. do 3 f_equal.
  pose proof (get_field_range satp_ppn (core_csrs (sh_core s) satp) eq_refl) as Hr. cbn in Hr.
  rewrite Z.shiftl_mul_pow2 by done. apply wrap_small. change PGSHIFT with 12. lia.
Qed.
Lemma extension_run base (s : Shared E) : check_vaddr_extension va (mkVm 2 10 4 base) s = (Ok true, s).
Proof.
  unfold check_vaddr_extension, sm_bind, env_assert, sm_ret. cbn [idxbits Mmu.levels].
  change (10 * Z.of_nat 2 + PGSHIFT - 1) with 31. cbn beta iota. change (xlen - 31) with 1.
  change (u64 (u64 (Z.shiftl 1 1) - 1)) with (Z.ones 1). change (0 <? 31) with true. cbn iota.
  rewrite Z.land_ones by lia. do 2 f_equal. change (2 ^ 1) with 2. change (Z.ones 1) with 1.
  pose proof (Z.mod_pos_bound (Z.shiftr va 31) 2).
  destruct (Z.eqb_spec (Z.shiftr va 31 mod 2) 0), (Z.eqb_spec (Z.shiftr va 31 mod 2) 1); lia || done.
Qed.
End walk.

(** ** The walk is the translation *)

Section refinement.
Context {E : Type} `{PageTables E}.
#[local] Open Scope sm_scope.
Local Abbreviation same := (same_tables backed pte_at).

Lemma same_trans (e1 e2 e3 : E) u : get_mmu e2 = u -> same e1 e2 -> get_mmu e3 = u -> same e2 e3 ->
  get_mmu e3 = u /\ same e1 e3.
Proof.
  intros Hu H12 Hu' H23. split; [done|]. intros x Hx. destruct (H12 x Hx) as [Hx2 <-]. by apply H23.
Qed.
Lemma same_accessed (e1 e2 e3 : E) type a :
  get_mmu e2 = get_mmu e1 -> same e1 e2 -> accessed type a e2 e3 -> accessed type a e1 e3.
Proof.
  intros Hu H12 [Hu' H23]. split; [congruence|]. intros x Hx. destruct (H12 x Hx) as [Hx2 <-].
  by apply H23.
Qed.

Lemma walk_run va type mode s (t := core_translation (sh_core s) type mode) :
  0 <= va < 2 ^ 32 -> translates (sh_core s) mode -> mmu_ready (get_mmu (sh_env s)) ->
  Forall (backed (sh_env s)) (sv32_reads (pte_at (sh_env s)) t va) ->
  match sv32 (pte_at (sh_env s)) t va with
  | Some (a, pa) => exists e', walk va type mode s = (Ok pa, with_env e' s) /\
      accessed type a (sh_env s) e'
  | None => exists e',
      walk va type mode s = (Err (SimulationTrap (page_fault type) va), with_env e' s) /\
      get_mmu e' = get_mmu (sh_env s) /\ same (sh_env s) e'
  end.
Proof.
  intros Hva Ht [Hm Hf] Hreads. unfold walk.
  rewrite !(sm_bind_ok _ _ _ _ _ (eq_refl : core_csr _ _ s = _)).
  rewrite (sm_bind_ok _ _ _ _ _ (decode_run mode s Ht)).
  rewrite (sm_bind_ok _ _ _ _ _ (extension_run va _ s)). cbn [Mmu.levels ptbase].
  pose proof (get_field_range satp_ppn (core_csrs (sh_core s) satp) eq_refl) as Hr. cbn in Hr.
  assert (0 <= va / 2 ^ 22 < 2 ^ 10) by
    (split; [apply Z.div_pos; lia|apply Z.div_lt_upper_bound; lia]).
  unfold sv32_reads in Hreads. unfold sv32.
  set (root := get_field satp_ppn _) in *. set (a1 := root_entry t va) in *.
  assert (backed (sh_env s) a1) as Ha1 by (destruct (_ && _); by inversion Hreads).
  pose proof (walk_round t va Hva s 1 (root * 2 ^ 12) a1 ltac:(lia) ltac:(lia)
    ltac:(apply Z.mod_mul; lia)) as Hr1.
  rewrite (Z.mod_small (va / _)) in Hr1 by done. specialize (Hr1 eq_refl Ha1 Hm Hf).
  destruct (entry_valid (pte_at (sh_env s) a1)); cycle 1.
  { destruct Hr1 as (e1 & Hrun & Hu & Hs). exists e1. by rewrite (sm_bind_ok _ _ _ _ _ Hrun). }
  destruct (entry_leaf (pte_at (sh_env s) a1)).
  { change (Z.of_nat 1) with 1 in Hr1.
    destruct (leaf_maps t 1 va _); destruct Hr1 as (e1 & Hrun & Hu); exists e1;
      by rewrite (sm_bind_ok _ _ _ _ _ Hrun). }
  destruct Hr1 as (e1 & Hrun & Hu & Hs). cbn in Hreads.
  inversion_clear Hreads as [|? ? _ Hrest]. inversion_clear Hrest as [|? ? Ha0 _].
  pose proof (pte_word _ _ Ha1) as Hp1. set (p1 := pte_at (sh_env s) a1) in *.
  assert (0 <= p1 / 2 ^ 10 < 2 ^ 22) as Hpage by
    (split; [apply Z.div_pos; lia|apply Z.div_lt_upper_bound; lia]).
  destruct (Hs _ Ha0) as [Hb0 Hp0].
  pose proof (walk_round t va Hva (with_env e1 s) 0 (p1 / 2 ^ 10 * 2 ^ 12) (next_entry p1 va)
    ltac:(lia) ltac:(lia) ltac:(apply Z.mod_mul; lia) eq_refl Hb0) as Hr2.
  cbn [sh_env with_env] in Hr2. rewrite Hu, Hp0 in Hr2. specialize (Hr2 Hm Hf).
  change (Z.of_nat 0) with 0 in Hr2.
  destruct (entry_valid (pte_at (sh_env s) (next_entry p1 va))); cbn [andb]; cycle 1.
  { destruct Hr2 as (e2 & Hrun2 & Hu2 & Hs2). rewrite <- Hrun in Hrun2. exists e2.
    rewrite (sm_bind_ok _ _ _ _ _ Hrun2). eauto using same_trans. }
  destruct (entry_leaf (pte_at (sh_env s) (next_entry p1 va))); cycle 1.
  { destruct Hr2 as (e2 & Hrun2 & Hu2 & Hs2). rewrite <- Hrun in Hrun2. exists e2.
    rewrite (sm_bind_ok _ _ _ _ _ Hrun2). eauto using same_trans. }
  destruct (leaf_maps t 0 va _); destruct Hr2 as (e2 & Hrun2 & Hu2);
    rewrite <- Hrun in Hrun2; exists e2; rewrite (sm_bind_ok _ _ _ _ _ Hrun2).
  - eauto using same_accessed.
  - destruct Hu2. eauto using same_trans.
Qed.
End refinement.

(** * The look-aside buffer *)

(** Entries that agree but for accessed and dirty bits that were set meanwhile. *)
Definition ad_grows (p p' : Z) : Prop := forall n, 0 <= n ->
  Z.testbit p' n = Z.testbit p n \/ ((n = 6 \/ n = 7) /\ Z.testbit p' n = true).

Lemma ad_grows_refl p : ad_grows p p.
Proof. by left. Qed.
Lemma ad_grows_trans p q r : ad_grows p q -> ad_grows q r -> ad_grows p r.
Proof. intros Hp Hq n Hn. destruct (Hq n Hn) as [->|]; [by apply Hp|by right]. Qed.
Lemma ad_grows_bits p type : ad_grows p (Z.lor p (ad_bits type)).
Proof.
  intros n Hn. rewrite Z.lor_spec. destruct (Z.testbit (ad_bits type) n) eqn:Hb.
  - right. split; [|apply orb_true_r].
    assert (n < 8) by (destruct (Z.ltb_spec n 8); [done|];
      rewrite <- (Z.mod_small (ad_bits type) (2 ^ 8)), Z.mod_pow2_bits_high in Hb by (by destruct type || lia);
      done).
    assert (n = 0 \/ n = 1 \/ n = 2 \/ n = 3 \/ n = 4 \/ n = 5 \/ n = 6 \/ n = 7) as Hn' by lia.
    destruct Hn' as [->|[->|[->|[->|[->|[->|[->| ->]]]]]]]; destruct type; done || auto.
  - left. apply orb_false_r.
Qed.
Lemma ad_grows_keeps p p' type :
  ad_grows p p' -> Z.land p (ad_bits type) = ad_bits type -> Z.land p' (ad_bits type) = ad_bits type.
Proof.
  intros Hg Hp. apply Z.bits_inj'. intros n Hn. pose proof (f_equal (fun z => Z.testbit z n) Hp) as Hb.
  cbn beta in Hb. rewrite Z.land_spec in Hb. rewrite Z.land_spec. destruct (Hg n Hn) as [->|[_ ->]]; [done|].
  by destruct (Z.testbit (ad_bits type) n).
Qed.
Lemma land_lor_ad p type : Z.land (Z.lor p (ad_bits type)) (ad_bits type) = ad_bits type.
Proof.
  apply Z.bits_inj'. intros n Hn. rewrite Z.land_spec, Z.lor_spec.
  by destruct (Z.testbit p n), (Z.testbit (ad_bits type) n).
Qed.

(** The translation does not look at these bits. *)
Lemma grown_bit p p' n : ad_grows p p' -> 0 <= n -> n <> 6 -> n <> 7 -> Z.testbit p' n = Z.testbit p n.
Proof. intros Hg Hn H6 H7. destruct (Hg n Hn) as [|[[|] _]]; done. Qed.
Lemma grown_page p p' : ad_grows p p' -> p' / 2 ^ 10 = p / 2 ^ 10.
Proof.
  intros Hg. rewrite <- !Z.shiftr_div_pow2 by lia. apply Z.bits_inj'. intros n Hn.
  rewrite !Z.shiftr_spec by done. apply (grown_bit p p' (n + 10) Hg); lia.
Qed.
Lemma grown_entry t p p' : ad_grows p p' ->
  entry_valid p' = entry_valid p /\ entry_leaf p' = entry_leaf p /\
  (forall i va, leaf_maps t i va p' = leaf_maps t i va p) /\ forall va, next_entry p' va = next_entry p va.
Proof.
  intros Hg. unfold entry_valid, entry_leaf, leaf_maps, entry_permits, next_entry.
  rewrite (grown_page _ _ Hg), !(grown_bit _ _ _ Hg) by lia. done.
Qed.
Lemma sv32_grown pt pt' t va : Forall (fun a => ad_grows (pt a) (pt' a)) (sv32_reads pt t va) ->
  sv32 pt' t va = sv32 pt t va /\ sv32_reads pt' t va = sv32_reads pt t va.
Proof.
  unfold sv32, sv32_reads. set (a1 := root_entry t va). intros Hf.
  assert (ad_grows (pt a1) (pt' a1)) as H1 by (destruct (_ && _); by inversion Hf).
  destruct (grown_entry t _ _ H1) as (-> & -> & -> & ->).
  destruct (entry_valid (pt a1)); [|done]. destruct (entry_leaf (pt a1)); [done|]. cbn in *.
  inversion_clear Hf as [|? ? _ Hr]. inversion_clear Hr as [|? ? H0 _].
  by destruct (grown_entry t _ _ H0) as (-> & -> & -> & _).
Qed.

(** It maps pages: the offset in the page is kept. *)
Definition page_base (va : Z) : Z := va / 2 ^ 12 * 2 ^ 12.
Lemma page_base_spec va : va = page_base va + va mod 2 ^ 12.
Proof. unfold page_base. pose proof (Z.div_mod va (2 ^ 12)). lia. Qed.
Lemma page_base_div va k : 0 <= k -> page_base va / 2 ^ (12 + k) = va / 2 ^ (12 + k).
Proof.
  intros Hk. unfold page_base. rewrite Z.pow_add_r by lia. rewrite <- !Z.div_div by lia.
  by rewrite Z.div_mul by lia.
Qed.
Lemma page_base_mod va k : 0 <= k -> va mod 2 ^ (12 + k) = page_base va mod 2 ^ (12 + k) + va mod 2 ^ 12.
Proof.
  intros Hk. rewrite !Z.mod_eq, page_base_div by lia. pose proof (page_base_spec va).
  rewrite (Z.mod_eq va (2 ^ 12)) in H by lia. lia.
Qed.
Lemma sv32_page pt t va :
  sv32_reads pt t (page_base va) = sv32_reads pt t va /\
  sv32 pt t va = (fun '(a, p) => (a, p + va mod 2 ^ 12)) <$> sv32 pt t (page_base va).
Proof.
  assert (root_entry t (page_base va) = root_entry t va) as H1.
  { unfold root_entry. pose proof (page_base_div va 10 ltac:(lia)) as Hd.
    change (12 + 10) with 22 in Hd. by rewrite Hd. }
  assert (forall p, next_entry p (page_base va) = next_entry p va) as H0.
  { intros p. unfold next_entry. pose proof (page_base_div va 0 ltac:(lia)) as Hd.
    change (12 + 0) with 12 in Hd. by rewrite Hd. }
  assert (forall i p, 0 <= i ->
    leaf_maps t i va p = (fun q => q + va mod 2 ^ 12) <$> leaf_maps t i (page_base va) p) as Hl.
  { intros i p Hi. unfold leaf_maps. destruct (_ && _); [|done]. cbn. f_equal.
    rewrite (page_base_mod va (10 * i)) by lia. lia. }
  unfold sv32_reads, sv32. rewrite H1, H0. split; [done|]. rewrite !Hl by lia.
  destruct (entry_valid _); [|done]. destruct (entry_leaf _); [by destruct (leaf_maps _ _ _ _)|].
  destruct (_ && _); [by destruct (leaf_maps _ _ _ _)|done].
Qed.
Lemma sv32_page_aligned pt t va a p : sv32 pt t (page_base va) = Some (a, p) -> p mod 2 ^ 12 = 0.
Proof.
  assert (forall i q r, 0 <= i -> leaf_maps t i (page_base va) q = Some r -> r mod 2 ^ 12 = 0) as Hl.
  { intros i q r Hi. unfold leaf_maps. destruct (_ && _); [|done]. intros [= <-].
    unfold page_base. rewrite Z.pow_add_r, (Z.mul_comm (2 ^ 12) (2 ^ (10 * i))) by lia.
    rewrite Z.mul_mod_distr_r by lia. rewrite <- Z.mul_add_distr_r. by apply Z.mod_mul. }
  unfold sv32. intros Hs.
  destruct (entry_valid _); [|done]. destruct (entry_leaf _).
  - destruct (leaf_maps _ _ _ _) eqn:Hm; [|done]. injection Hs as <- <-. by apply Hl in Hm.
  - destruct (_ && _); [|done]. destruct (leaf_maps _ _ _ _) eqn:Hm; [|done]. injection Hs as <- <-.
    by apply Hl in Hm.
Qed.
Lemma sv32_leaf_read pt t va a p : sv32 pt t va = Some (a, p) -> a ∈ sv32_reads pt t va.
Proof.
  unfold sv32, sv32_reads. intros Hs. destruct (entry_valid _); [|done].
  destruct (entry_leaf _); cbn.
  - destruct (leaf_maps _ _ _ _); [|done]. injection Hs as <- _. set_solver.
  - destruct (_ && _); [|done]. destruct (leaf_maps _ _ _ _); [|done]. injection Hs as <- _. set_solver.
Qed.

Section tlb.
Context {E : Type} `{PageTables E}.
#[local] Open Scope sm_scope.

(** What the unit may do to the memory: set accessed and dirty bits. *)
Definition tables_grow (e e' : E) : Prop :=
  forall x, backed e x -> backed e' x /\ ad_grows (pte_at e x) (pte_at e' x).

(** An entry of the buffer is the translation of its page, with the bits of its access set. *)
Definition tlb_entry_ok (c : core_view) (e : E) (mode : Z) (type : MemoryAccessType)
    (x : tlb_entry_t) : Prop :=
  let t := core_translation c type mode in
  let va := vpn x * 2 ^ 12 in
  Forall (backed e) (sv32_reads (pte_at e) t va) /\
  exists a, sv32 (pte_at e) t va = Some (a, ppn x) /\
    Z.land (pte_at e a) (ad_bits type) = ad_bits type.
Definition tlb_coherent (c : core_view) (e : E) : Prop :=
  forall mode type i, (mode = UserMode \/ mode = SupervisorMode) ->
    let x := tlb (get_mmu e) mode type i in
    0 <= vpn x < 2 ^ 20 -> tlb_entry_ok c e mode type x.

Lemma same_grow e e' : same_tables backed pte_at e e' -> tables_grow e e'.
Proof. intros Hs x Hx. destruct (Hs x Hx) as [? ->]. split; [done|apply ad_grows_refl]. Qed.
Lemma accessed_grow type a e e' : accessed type a e e' -> tables_grow e e'.
Proof.
  intros [_ Ha] x Hx. destruct (Ha x Hx) as [? ->]. split; [done|].
  destruct (x =? a); [apply ad_grows_bits|apply ad_grows_refl].
Qed.
Lemma tables_grow_trans e1 e2 e3 : tables_grow e1 e2 -> tables_grow e2 e3 -> tables_grow e1 e3.
Proof.
  intros H12 H23 x Hx. destruct (H12 x Hx) as [Hx2 Hg]. destruct (H23 x Hx2) as [? Hg'].
  split; [done|]. by eapply ad_grows_trans.
Qed.
Lemma sv32_grow e e' t va : tables_grow e e' -> Forall (backed e) (sv32_reads (pte_at e) t va) ->
  sv32 (pte_at e') t va = sv32 (pte_at e) t va /\
  Forall (backed e') (sv32_reads (pte_at e') t va).
Proof.
  intros Hg Hr. destruct (sv32_grown (pte_at e) (pte_at e') t va) as [-> ->].
  - eapply Forall_impl; [exact Hr|]. intros x Hx. by apply Hg.
  - split; [done|]. eapply Forall_impl; [exact Hr|]. intros x Hx. by apply Hg.
Qed.
Lemma entry_ok_grow c e e' mode type x : tables_grow e e' ->
  tlb_entry_ok c e mode type x -> tlb_entry_ok c e' mode type x.
Proof.
  intros Hg (Hr & a & Hs & Had). unfold tlb_entry_ok.
  destruct (sv32_grow e e' _ _ Hg Hr) as [-> Hr']. split; [done|]. exists a. split; [done|].
  eapply ad_grows_keeps; [|exact Had]. apply Hg.
  eapply Forall_forall; [exact Hr|]. by eapply sv32_leaf_read.
Qed.
Lemma coherent_grow c e e' : tables_grow e e' -> get_mmu e' = get_mmu e ->
  tlb_coherent c e -> tlb_coherent c e'.
Proof.
  intros Hg Hu Hc mode type i Hm. cbn. rewrite Hu. intros Hv. eapply entry_ok_grow; [exact Hg|].
  by apply Hc.
Qed.
Lemma flushed_coherent c e u : get_mmu e = flush_tlb u -> tlb_coherent c e.
Proof. intros Hu mode type i _. cbn. rewrite Hu. cbn. lia. Qed.

Lemma land_pgmask va : Z.land va PGMASK = va mod 2 ^ 12.
Proof. change PGMASK with (Z.ones 12). by apply Z.land_ones. Qed.

(** The start of [translate_virtual_to_physical_addr] where the mode is a translated one. *)
Lemma translate_start va type mode s (i := va / 2 ^ 12 mod TLB_ENTRIES)
    (x := tlb (get_mmu (sh_env s)) mode type i) :
  translates (sh_core s) mode -> effective_mode (sh_core s) type = mode ->
  exists e1, get_mmu e1 = get_mmu (sh_env s) /\ same_tables backed pte_at (sh_env s) e1 /\
    translate_virtual_to_physical_addr va type s =
      (if vpn x =? va / 2 ^ 12 then (Ok (Z.lor (ppn x) (va mod 2 ^ 12)), with_env e1 s)
       else sm_bind (walk va type mode) (fun paddr =>
         env_modify (fun e => put_mmu (tlb_write mode type i
           (mkTlbEntry (Z.land paddr (u32 (Z.lnot PGMASK))) (va / 2 ^ 12)) (get_mmu e)) e) ;;;
         sm_ret paddr) (with_env e1 s)).
Proof.
  intros [Hsv Hm] Heff. destruct (quantum_inc_law mmu_access_delay s) as (e1 & Hq & Hu & Hs).
  exists e1. split; [done|]. split; [done|]. unfold translate_virtual_to_physical_addr.
  rewrite (sm_bind_ok _ _ _ _ _ (eq_refl : core_csr _ _ s = _)), Hsv. cbn [Z.eqb SATP_MODE_SV32 SATP_MODE_BARE].
  rewrite (sm_bind_ok _ _ _ _ _ (eq_refl : sm_gets _ s = _)), Heff.
  assert ((mode =? MachineMode) = false) as -> by (by destruct Hm as [-> | ->]).
  rewrite (sm_bind_ok _ _ _ _ _ Hq).
  assert ((mode =? 0) || (mode =? 1) = true) as -> by (by destruct Hm as [-> | ->]).
  rewrite (sm_bind_ok _ _ _ _ _ (eq_refl : env_assert true _ = _)).
  rewrite (sm_bind_ok _ _ _ _ _ (eq_refl : env_gets _ _ = _)). cbn [sh_env with_env].
  rewrite Hu, land_pgmask, Z.shiftr_div_pow2 by done. change (2 ^ PGSHIFT) with (2 ^ 12). fold i x.
  by destruct (vpn x =? va / 2 ^ 12).
Qed.

Lemma translate_miss va type mode s (i := va / 2 ^ 12 mod TLB_ENTRIES)
    (t := core_translation (sh_core s) type mode) :
  0 <= va < 2 ^ 32 -> translates (sh_core s) mode -> effective_mode (sh_core s) type = mode ->
  mmu_ready (get_mmu (sh_env s)) ->
  Forall (backed (sh_env s)) (sv32_reads (pte_at (sh_env s)) t va) ->
  vpn (tlb (get_mmu (sh_env s)) mode type i) <> va / 2 ^ 12 ->
  match sv32 (pte_at (sh_env s)) t va with
  | Some (a, pa) => exists e', translate_virtual_to_physical_addr va type s = (Ok pa, with_env e' s) /\
      tables_grow (sh_env s) e' /\ Z.land (pte_at e' a) (ad_bits type) = ad_bits type /\
      get_mmu e' = tlb_write mode type i
        (mkTlbEntry (Z.land pa (u32 (Z.lnot PGMASK))) (va / 2 ^ 12)) (get_mmu (sh_env s))
  | None => exists e', translate_virtual_to_physical_addr va type s =
        (Err (SimulationTrap (page_fault type) va), with_env e' s) /\
      tables_grow (sh_env s) e' /\ get_mmu e' = get_mmu (sh_env s)
  end.
Proof.
  intros Hva Ht Heff Hready Hreads Hmiss.
  destruct (translate_start va type mode s Ht Heff) as (e1 & Hu1 & Hs1 & Hrun).
  fold i in Hrun. apply Z.eqb_neq in Hmiss. rewrite Hmiss in Hrun. rewrite Hrun. clear Hrun Hmiss.
  pose proof (same_grow _ _ Hs1) as Hg1. destruct (sv32_grow _ _ t va Hg1 Hreads) as [Hsv Hreads1].
  pose proof (walk_run va type mode (with_env e1 s) Hva Ht) as Hwalk. cbn [sh_env with_env sh_core] in Hwalk.
  rewrite Hu1 in Hwalk. specialize (Hwalk Hready Hreads1). fold t in Hwalk. rewrite Hsv in Hwalk.
  destruct (sv32 (pte_at (sh_env s)) t va) as [[a pa]|] eqn:Hpa.
  - destruct Hwalk as (e2 & Hw & Hacc). rewrite (sm_bind_ok _ _ _ _ _ Hw).
    set (u := tlb_write _ _ _ _ _). destruct (put_mmu_law u e2) as [Hput Hs3].
    destruct Hacc as [Hu2 Hx]. assert (accessed type a e1 e2) as Hacc by done.
    exists (put_mmu u e2). split; [cbn; by rewrite Hu2, Hu1|].
    assert (backed (sh_env s) a) as Ha by
      (eapply Forall_forall; [exact Hreads|]; by eapply sv32_leaf_read).
    destruct (Hg1 a Ha) as [Ha1 _]. destruct (Hx a Ha1) as [Ha2 Hp2].
    split; [|split; [|done]].
    + eapply tables_grow_trans; [exact Hg1|]. eapply tables_grow_trans; [by eapply accessed_grow|].
      by apply same_grow.
    + destruct (Hs3 a Ha2) as [_ ->]. rewrite Hp2, Z.eqb_refl. apply land_lor_ad.
  - destruct Hwalk as (e2 & Hw & Hu2 & Hs2). rewrite (sm_bind_err _ _ _ _ _ Hw). exists e2.
    split; [done|]. split; [|congruence]. eapply tables_grow_trans; [exact Hg1|by apply same_grow].
Qed.

Lemma page_part a b : a mod 2 ^ 12 = 0 -> 0 <= a -> 0 <= b < 2 ^ 12 ->
  Z.lor a b = a + b /\ Z.land (a + b) (u32 (Z.lnot PGMASK)) = wrap 32 a.
Proof.
  intros Ha Hp Hb. assert (a = Z.shiftl (a / 2 ^ 12) 12) as Hsh.
  { rewrite Z.shiftl_mul_pow2 by lia. pose proof (Z.div_mod a (2 ^ 12)). lia. }
  assert (Z.lor a b = a + b) as Hor.
  { rewrite Hsh, lor_shiftl_add, Z.shiftl_mul_pow2 by lia. done. }
  split; [done|]. rewrite <- Hor. apply Z.bits_inj'. intros n Hn.
  change PGMASK with (Z.ones 12). rewrite Z.land_spec, Z.lor_spec, !wrap_spec, Z.lnot_spec, Z.testbit_ones
    by lia.
  destruct (Z.ltb_spec n 32); [|by rewrite andb_false_r]. rewrite Hsh.
  destruct (Z.ltb_spec n 12).
  - rewrite Z.shiftl_spec_low by done. destruct (Z.leb_spec 0 n); [|lia]. by rewrite andb_false_r.
  - rewrite <- (Z.mod_small b (2 ^ 12)), Z.mod_pow2_bits_high by lia.
    destruct (Z.leb_spec 0 n); [|lia]. by rewrite orb_false_r, andb_true_r.
Qed.

(** Addresses below 4 GiB survive the buffer; the entry written for one is correct. *)
Lemma filled_coherent c e e' mode type va a pa (i := va / 2 ^ 12 mod TLB_ENTRIES)
    (t := core_translation c type mode) :
  0 <= va < 2 ^ 32 -> 0 <= pa < 2 ^ 32 -> tlb_coherent c e -> tables_grow e e' ->
  Forall (backed e) (sv32_reads (pte_at e) t va) -> sv32 (pte_at e) t va = Some (a, pa) ->
  Z.land (pte_at e' a) (ad_bits type) = ad_bits type ->
  get_mmu e' = tlb_write mode type i
    (mkTlbEntry (Z.land pa (u32 (Z.lnot PGMASK))) (va / 2 ^ 12)) (get_mmu e) ->
  tlb_coherent c e'.
Proof.
  intros Hva Hpa Hc Hg Hreads Hs Had Hu mode' type' i' Hm'. cbn. rewrite Hu. cbn.
  destruct ((mode' =? mode) && bool_decide (type' = type) && (i' =? i)) eqn:Hx; cycle 1.
  { intros Hv. eapply entry_ok_grow; [exact Hg|]. by apply Hc. }
  apply andb_prop in Hx as [Hx _]. apply andb_prop in Hx as [->%Z.eqb_eq ->%bool_decide_eq_true].
  intros _. destruct (sv32_page (pte_at e) t va) as [Hrp Hsp]. rewrite Hs in Hsp.
  destruct (sv32 (pte_at e) t (page_base va)) as [[a' p']|] eqn:Hb; [|done].
  injection Hsp as <- Hpa'. pose proof (Z.mod_pos_bound va (2 ^ 12) ltac:(lia)).
  unfold tlb_entry_ok. cbn. fold (page_base va) t.
  destruct (sv32_grow e e' t (page_base va) Hg) as [Hs' Hr']; [by rewrite Hrp|].
  split; [done|]. exists a. rewrite Hs', Hb. split; [|done]. do 2 f_equal. subst pa.
  pose proof (sv32_page_aligned _ _ _ _ _ Hb) as Hal.
  assert (0 <= p') by (pose proof (Z.div_mod p' (2 ^ 12)); lia).
  destruct (page_part p' (va mod 2 ^ 12)) as [_ ->]; [done..|]. symmetry. apply wrap_small. lia.
Qed.

(** C28 The page walk implements the Sv32 translation of the privileged architecture: on page
    tables backed by memory it returns exactly the physical address the specification gives
    and sets the accessed bit 6 (and, for a store, the dirty bit 7) of the leaf entry and
    nothing else; when there is no translation (an invalid entry, a pointer at the last level, a
    misaligned superpage, missing permission) it raises the page fault of the access with
    the virtual address, and changes no entry. *)
Theorem walk_implements_sv32 va type mode s :
  0 <= va < 2 ^ 32 -> translates (sh_core s) mode -> mmu_ready (get_mmu (sh_env s)) ->
  Forall (backed (sh_env s))
    (sv32_reads (pte_at (sh_env s)) (core_translation (sh_core s) type mode) va) ->
  match sv32 (pte_at (sh_env s)) (core_translation (sh_core s) type mode) va with
  | Some (a, pa) => exists e', walk va type mode s = (Ok pa, with_env e' s) /\
      get_mmu e' = get_mmu (sh_env s) /\
      forall x, backed (sh_env s) x -> backed e' x /\
        pte_at e' x = if x =? a then marked type (pte_at (sh_env s) x) else pte_at (sh_env s) x
  | None => exists e',
      walk va type mode s = (Err (SimulationTrap (sv32_fault type) va), with_env e' s) /\
      get_mmu e' = get_mmu (sh_env s) /\ same_tables backed pte_at (sh_env s) e'
  end.
Proof.
  intros Hva Ht Hready Hr. pose proof (walk_run va type mode s Hva Ht Hready Hr) as Hrun.
  destruct (sv32 _ _ va) as [[a pa]|]; [|by rewrite <- page_fault_spec].
  destruct Hrun as (e' & Hrun & Hu & Hx). exists e'. split; [done|]. split; [done|].
  intros x Hb. rewrite <- lor_marked. by apply Hx.
Qed.

(** C29 The look-aside buffer is transparent for physical addresses below 4 GiB: from a coherent
    buffer (an empty one is), translating an address gives what the page tables in memory
    give, or their page fault, whether or not the page is in the buffer; the accessed and
    dirty bits the access needs are then set, page tables change in such bits only, and the
    buffer stays coherent. *)
Theorem tlb_transparent va type mode s :
  0 <= va < 2 ^ 32 -> translates (sh_core s) mode -> effective_mode (sh_core s) type = mode ->
  mmu_ready (get_mmu (sh_env s)) -> tlb_coherent (sh_core s) (sh_env s) ->
  Forall (backed (sh_env s))
    (sv32_reads (pte_at (sh_env s)) (core_translation (sh_core s) type mode) va) ->
  exists e', tables_grow (sh_env s) e' /\
    match sv32 (pte_at (sh_env s)) (core_translation (sh_core s) type mode) va with
    | Some (a, pa) => 0 <= pa < 2 ^ 32 ->
        translate_virtual_to_physical_addr va type s = (Ok pa, with_env e' s) /\
        is_marked type (pte_at e' a) /\ tlb_coherent (sh_core s) e'
    | None => translate_virtual_to_physical_addr va type s =
          (Err (SimulationTrap (sv32_fault type) va), with_env e' s) /\
        tlb_coherent (sh_core s) e'
    end.
Proof.
  intros Hva Ht Heff Hready Hc Hreads. rewrite <- page_fault_spec. set (t := core_translation _ _ _) in *.
  set (x := tlb (get_mmu (sh_env s)) mode type (va / 2 ^ 12 mod TLB_ENTRIES)).
  destruct (Z.eqb_spec (vpn x) (va / 2 ^ 12)) as [Hhit|Hmiss]; cycle 1.
  { pose proof (translate_miss va type mode s Hva Ht Heff Hready Hreads Hmiss) as Hrun.
    fold t in Hrun. destruct (sv32 _ t va) as [[a pa]|] eqn:Hs; destruct Hrun as (e' & Hrun & Hg & Hu).
    - destruct Hu as [Had Hu]. exists e'. split; [done|]. intros Hpa. split; [done|]. split; [by apply land_marked|].
      by apply (filled_coherent (sh_core s) (sh_env s) e' mode type va a pa).
    - exists e'. split; [done|]. split; [done|]. by eapply coherent_grow. }
  destruct (translate_start va type mode s Ht Heff) as (e1 & Hu1 & Hs1 & Hrun). fold x in Hrun.
  rewrite Hhit, Z.eqb_refl in Hrun. pose proof (same_grow _ _ Hs1) as Hg.
  assert (0 <= vpn x < 2 ^ 20) as Hv by
    (rewrite Hhit; split; [apply Z.div_pos; lia|apply Z.div_lt_upper_bound; lia]).
  destruct (Hc mode type _ (proj2 Ht) Hv) as (_ & a & Hsx & Had). fold x t in Hsx. rewrite Hhit in Hsx.
  fold (page_base va) in Hsx. destruct (sv32_page (pte_at (sh_env s)) t va) as [_ Hp].
  rewrite Hp, Hsx. cbn. exists e1. split; [done|]. intros Hpa. pose proof (Z.mod_pos_bound va (2 ^ 12) ltac:(lia)).
  pose proof (sv32_page_aligned _ _ _ _ _ Hsx) as Hal.
  assert (0 <= ppn x) by (pose proof (Z.div_mod (ppn x) (2 ^ 12)); lia).
  destruct (page_part (ppn x) (va mod 2 ^ 12)) as [<- _]; [done..|]. split; [done|]. split.
  - eapply land_marked, ad_grows_keeps; [|exact Had]. apply Hg. eapply Forall_forall; [exact Hreads|].
    eapply sv32_leaf_read. rewrite Hp, Hsx. reflexivity.
  - by eapply coherent_grow.
Qed.

(** The buffer keeps only 32 bits of a physical page address (the mask [~PGMASK] is an
    [unsigned]): a page the 34-bit physical addresses of Sv32 place at or above 4 GiB is
    reached by the first access and, as long as it stays in the buffer, every following
    access goes to the address modulo [2 ^ 32]. *)
Theorem tlb_hit_truncates va type mode s a pa :
  0 <= va < 2 ^ 32 -> 0 <= pa -> translates (sh_core s) mode ->
  effective_mode (sh_core s) type = mode -> mmu_ready (get_mmu (sh_env s)) ->
  Forall (backed (sh_env s))
    (sv32_reads (pte_at (sh_env s)) (core_translation (sh_core s) type mode) va) ->
  sv32 (pte_at (sh_env s)) (core_translation (sh_core s) type mode) va = Some (a, pa) ->
  vpn (tlb (get_mmu (sh_env s)) mode type (va / 2 ^ 12 mod TLB_ENTRIES)) <> va / 2 ^ 12 ->
  exists e1 e2, translate_virtual_to_physical_addr va type s = (Ok pa, with_env e1 s) /\
    translate_virtual_to_physical_addr va type (with_env e1 s) = (Ok (wrap 32 pa), with_env e2 s).
Proof.
  intros Hva Hpa Ht Heff Hready Hreads Hs Hmiss.
  pose proof (translate_miss va type mode s Hva Ht Heff Hready Hreads Hmiss) as Hrun.
  rewrite Hs in Hrun. destruct Hrun as (e1 & Hrun & Hg & _ & Hu).
  destruct (translate_start va type mode (with_env e1 s) Ht Heff) as (e2 & _ & _ & Hrun2).
  exists e1, e2. split; [done|]. rewrite Hrun2. cbn [sh_env with_env]. rewrite Hu. cbn.
  rewrite !Z.eqb_refl, bool_decide_eq_true_2 by done. cbn. rewrite Z.eqb_refl.
  destruct (sv32_page (pte_at (sh_env s)) (core_translation (sh_core s) type mode) va) as [_ Hp].
  rewrite Hs in Hp. destruct (sv32 _ _ (page_base va)) as [[a' p']|] eqn:Hb; [|done].
  injection Hp as <- Hpe. pose proof (sv32_page_aligned _ _ _ _ _ Hb) as Hal.
  pose proof (Z.mod_pos_bound va (2 ^ 12) ltac:(lia)). subst pa.
  assert (0 <= p') by (pose proof (Z.div_mod p' (2 ^ 12)); lia).
  destruct (page_part p' (va mod 2 ^ 12)) as [_ ->]; [done..|].
  assert (wrap 32 p' mod 2 ^ 12 = 0) as Hal'.
  { unfold wrap. rewrite (Z.div_mod p' (2 ^ 12)), Hal, Z.add_0_r, (Z.mul_comm (2 ^ 12)) by lia.
    change (2 ^ 32) with (2 ^ 20 * 2 ^ 12). rewrite Z.mul_mod_distr_r by lia. by apply Z.mod_mul. }
  pose proof (wrap_range 32 p' ltac:(lia)).
  destruct (page_part (wrap 32 p') (va mod 2 ^ 12)) as [-> _]; [done|lia|done|]. do 2 f_equal.
  unfold wrap in *. rewrite Z.add_mod, (Z.mod_small (va mod 2 ^ 12) (2 ^ 32)) by lia.
  symmetry. apply Z.mod_small. pose proof (Z.div_mod (p' mod 2 ^ 32) (2 ^ 12)). lia.
Qed.
End tlb.

(** * A memory of words to run the unit on *)

Record word_memory := mkWords { wm_mmu : GenericMMU; wm_words : gmap Z Z }.

Section word_memory.
#[local] Open Scope sm_scope.
Definition word_at (e : word_memory) (a : Z) : Z := u32 (default 0 (wm_words e !! a)).

#[export] Instance words_host : MmuHost word_memory := {|
  get_mmu := wm_mmu;
  put_mmu u e := mkWords u (wm_words e);
  quantum_inc _ := sm_ret tt;
  mmu_load_pte32 a := env_gets (fun e => word_at e a);
  mmu_load_pte64 a := env_gets (fun e => word_at e a);
  mmu_store_pte32 a v := env_modify (fun e => mkWords (wm_mmu e) (<[a := v]> (wm_words e)));
|}.

#[export] Instance words_tables : PageTables word_memory.
Proof.
  refine {| pte_at := word_at; backed := fun _ _ => True |}.
  - intros. by apply wrap_range.
  - done.
  - intros n s. by exists (sh_env s); destruct s.
  - intros a s _. exists (sh_env s). by destruct s.
  - intros a v s _ Hv. eexists. split; [reflexivity|]. split; [done|]. intros x _. split; [done|].
    unfold word_at. cbn. destruct (Z.eqb_spec x a) as [->|Hne].
    + rewrite lookup_insert_eq. by apply wrap_small.
    + by rewrite lookup_insert_ne.
Defined.

(** A root table on page 1 whose entry 1 points to the table on page 2, which maps its first
    page to the physical page [page], for users. *)
Definition sample_tables (page : Z) : word_memory :=
  mkWords (mkMMU true false (tlb MMU_new))
    {[0x1004 := Z.shiftl 2 10 + 1; 0x2000 := Z.shiftl page 10 + 0x1f]}.
Definition sample_view : core_view := mkCoreView (csr_set satp (2 ^ 31 + 1) csr_table_init) UserMode.
Definition sample_shared (page : Z) : Shared word_memory :=
  mkShared sample_view (sample_tables page) 0 Trace_new.

Lemma words_backed (e : word_memory) l : Forall (backed e) l.
Proof. by apply Forall_forall. Qed.
End word_memory.

Lemma walk_implements_sv32_witness :
  exists e', walk 0x400123 STORE UserMode (sample_shared 3) = (Ok 0x3123, with_env e' (sample_shared 3)) /\
    word_at e' 0x2000 = Z.shiftl 3 10 + 0xdf.
Proof.
  pose proof (walk_implements_sv32 0x400123 STORE UserMode (sample_shared 3) ltac:(lia)
    ltac:(by split; [vm_compute|left]) ltac:(done) (words_backed _ _)) as Hw.
  assert (sv32 (pte_at (sh_env (sample_shared 3)))
    (core_translation (sh_core (sample_shared 3)) STORE UserMode) 0x400123 = Some (0x2000, 0x3123)) as Hs
    by (vm_compute; reflexivity).
  rewrite Hs in Hw. destruct Hw as (e' & Hrun & _ & He). exists e'. split; [exact Hrun|].
  destruct (He 0x2000 I) as [_ He']. exact He'.
Defined.

Lemma tlb_transparent_witness :
  exists e', translate_virtual_to_physical_addr 0x400123 LOAD (sample_shared 3) =
    (Ok 0x3123, with_env e' (sample_shared 3)) /\ tlb_coherent sample_view e'.
Proof.
  assert (tlb_coherent sample_view (sample_tables 3)) as Hc0 by
    (by apply (flushed_coherent _ _ (mkMMU true false (tlb MMU_new)))).
  destruct (tlb_transparent 0x400123 LOAD UserMode (sample_shared 3) ltac:(lia)
    ltac:(by split; [vm_compute|left]) ltac:(done) ltac:(done)
    Hc0 (words_backed _ _)) as (e' & _ & Ht).
  assert (sv32 (pte_at (sh_env (sample_shared 3)))
    (core_translation (sh_core (sample_shared 3)) LOAD UserMode) 0x400123 = Some (0x2000, 0x3123)) as Hs
    by (vm_compute; reflexivity).
  exists e'. rewrite Hs in Ht.
  destruct (Ht ltac:(lia)) as (Hrun & _ & Hc). by split.
Defined.

Lemma tlb_hit_truncates_witness : exists e1 e2,
  translate_virtual_to_physical_addr 0x400123 LOAD (sample_shared 0x300000) =
    (Ok 0x300000123, with_env e1 (sample_shared 0x300000)) /\
  translate_virtual_to_physical_addr 0x400123 LOAD (with_env e1 (sample_shared 0x300000)) =
    (Ok 0x123, with_env e2 (sample_shared 0x300000)).
Proof.
  apply (tlb_hit_truncates 0x400123 LOAD UserMode (sample_shared 0x300000) 0x2000 0x300000123);
    [lia|lia|by split; [vm_compute|left]|done|done|apply words_backed|by vm_compute|by vm_compute].
Defined.
