(* ===== verification/Bus.v ===== *)
(** The interconnect: transactions with their concolic extension
    (symex/symbolic_extension.h), address decoding and the lock of the bus
    (platform/common/bus.h, core/common/bus_lock_if.h), and the memory of concolic bytes
    behind it (symex/symbolic_memory.cpp). *)
From S2P Require Import Prelude Bits Csr APInt KExpr KBuilder Concolic ConcMem PathTrace Iss Mmu.

(** * Transactions *)

Inductive tlm_command := TLM_READ_COMMAND | TLM_WRITE_COMMAND | TLM_IGNORE_COMMAND.
Inductive tlm_response := TLM_OK_RESPONSE | TLM_ADDRESS_ERROR_RESPONSE | TLM_COMMAND_ERROR_RESPONSE.
#[export] Instance tlm_command_eq_dec : EqDecision tlm_command.
Proof. solve_decision. Defined.
#[export] Instance tlm_response_eq_dec : EqDecision tlm_response.
Proof. solve_decision. Defined.

(** The generic payload: the buffer of bytes, and the [SymbolicExtension] if one is set. *)
Record payload := mkPayload {
  command : tlm_command; address : Z; data_ptr : list Z;
  extension : option ConcolicValue; response : tlm_response }.

Definition data_length (p : payload) : Z := Z.of_nat (length (data_ptr p)).
Definition is_response_error (p : payload) : bool :=
  negb (bool_decide (response p = TLM_OK_RESPONSE)).
Definition set_address (a : Z) (p : payload) : payload :=
  mkPayload (command p) a (data_ptr p) (extension p) (response p).
Definition set_data (d : list Z) (p : payload) : payload :=
  mkPayload (command p) (address p) d (extension p) (response p).
Definition set_extension (e : option ConcolicValue) (p : payload) : payload :=
  mkPayload (command p) (address p) (data_ptr p) e (response p).
Definition set_response (r : tlm_response) (p : payload) : payload :=
  mkPayload (command p) (address p) (data_ptr p) (extension p) r.

(** * Address decoding *)

Record PortMapping := mkPort { port_start : Z; port_end : Z }.
Definition contains (m : PortMapping) (addr : Z) : bool :=
  (port_start m <=? addr) && (addr <=? port_end m).
Definition global_to_local (m : PortMapping) (addr : Z) : Z := u64 (addr - port_start m).

(** [SimpleBus::decode]: [None] is [-1]. *)
Fixpoint decode_from (ports : list PortMapping) (i : nat) (addr : Z) : option (nat * PortMapping) :=
  match ports with
  | [] => None
  | m :: ports => if contains m addr then Some (i, m) else decode_from ports (S i) addr
  end.
Definition bus_decode (ports : list PortMapping) (addr : Z) := decode_from ports 0 addr.

(** [SimpleBus::transport]; the delay goes in and out with the transaction. *)
Definition bus_transport {E} (ports : list PortMapping)
    (targets : nat -> payload -> Z -> EnvM E (payload * Z)) (trans : payload) (delay : Z) :
    EnvM E (payload * Z) :=
  match bus_decode ports (address trans) with
  | None => sm_ret (set_response TLM_ADDRESS_ERROR_RESPONSE trans, delay)
  | Some (id, m) => targets id (set_address (global_to_local m (address trans)) trans) delay
  end.

(** [SimpleBus::transport_dbg]; the count of bytes is 0 without a target. *)
Definition bus_transport_dbg {E} (ports : list PortMapping)
    (targets : nat -> payload -> EnvM E (payload * Z)) (trans : payload) : EnvM E (payload * Z) :=
  match bus_decode ports (address trans) with
  | None => sm_ret (set_response TLM_ADDRESS_ERROR_RESPONSE trans, 0)
  | Some (id, m) => targets id (set_address (global_to_local m (address trans)) trans)
  end.

(** * The lock *)

Record BusLock := mkBusLock { locked : bool; owner : Z }.
Definition BusLock_new : BusLock := mkBusLock false 0.
Definition is_locked_by (hart_id : Z) (l : BusLock) : bool := locked l && (owner l =? hart_id).

(** [BusLock::unlock]; its notification wakes processes that wait for the lock. *)
Definition unlock (hart_id : Z) (l : BusLock) : BusLock :=
  if locked l && (owner l =? hart_id) then mkBusLock false (owner l) else l.

(** What the lock uses of its surroundings: where it is, and the kernel's wait for the
    event of the lock, during which other processes run.  The loop of
    [wait_until_unlocked] may wait [lock_patience] times; after that the simulation counts
    as deadlocked. *)
Class LockHost (E : Type) := {
  get_lock : E -> BusLock;
  put_lock : BusLock -> E -> E;
  wait_lock_event : EnvM E unit;
  lock_patience : nat;
}.
Definition deadlock : Z := 2.

Section lock.
Context {E : Type} `{LockHost E}.
#[local] Open Scope sm_scope.

Fixpoint wait_until_unlocked_from (fuel : nat) : EnvM E unit :=
  l <-- env_gets get_lock ;;
  if locked l then
    match fuel with
    | O => sm_throw (OtherException deadlock)
    | S fuel => wait_lock_event ;;; wait_until_unlocked_from fuel
    end
  else sm_ret tt.
Definition wait_until_unlocked : EnvM E unit := wait_until_unlocked_from lock_patience.

(** [bus_lock_if::wait_for_access_rights] *)
Definition wait_for_access_rights (hart_id : Z) : EnvM E unit :=
  l <-- env_gets get_lock ;;
  sm_when (locked l && negb (is_locked_by hart_id l)) wait_until_unlocked.

(** [BusLock::lock] *)
Definition lock (hart_id : Z) : EnvM E unit :=
  l <-- env_gets get_lock ;;
  sm_when (locked l && negb (hart_id =? owner l)) wait_until_unlocked ;;;
  l <-- env_gets get_lock ;;
  env_assert (negb (locked l) || (hart_id =? owner l)) ;;;
  env_modify (put_lock (mkBusLock true hart_id)).

(** [PeripheralWriteConnector::transport]: a device that writes waits for the lock. *)
Definition peripheral_write_transport (target : payload -> Z -> EnvM E (payload * Z))
    (trans : payload) (delay : Z) : EnvM E (payload * Z) :=
  wait_until_unlocked ;;;
  r <-- target trans delay ;;
  if bool_decide (response r.1 = TLM_ADDRESS_ERROR_RESPONSE) then sm_throw RuntimeError else sm_ret r.
End lock.

(** * The memory *)

Record SymbolicMemory := mkSymbolicMemory { sm_size : Z; sm_memory : ConcolicMemory }.

Class RamHost (E : Type) := { get_ram : E -> SymbolicMemory; put_ram : SymbolicMemory -> E -> E }.

Section memory.
Context {E : Type} `{RamHost E} `{ExprBuilder}.
#[local] Open Scope sm_scope.

Definition env_asserted {A} (o : option A) : EnvM E A :=
  match o with Some a => sm_ret a | None => sm_throw AssertionFailed end.

Definition read_data (trans : payload) : EnvM E payload :=
  m <-- env_gets (fun e => sm_memory (get_ram e)) ;;
  r <-- env_asserted (load m (address trans) (length (data_ptr trans))) ;;
  data <-- env_asserted r ;;
  bytes <-- env_asserted (BVCToBytes data (length (data_ptr trans))) ;;
  sm_ret (set_extension (Some data) (set_data bytes trans)).

Definition write_data (trans : payload) : EnvM E payload :=
  value <-- match extension trans with
            | Some value => sm_ret value
            | None => r <-- env_asserted (BVC_bytes (data_ptr trans) false) ;; env_asserted r
            end ;;
  m <-- env_gets (fun e => sm_memory (get_ram e)) ;;
  m' <-- env_asserted (store m (address trans) value (length (data_ptr trans))) ;;
  env_modify (fun e => put_ram (mkSymbolicMemory (sm_size (get_ram e)) m') e) ;;;
  sm_ret trans.

(** [SymbolicMemory::transport_dbg] and [transport] *)
Definition memory_transport_dbg (trans : payload) : EnvM E payload :=
  size <-- env_gets (fun e => sm_size (get_ram e)) ;;
  if size <? u64 (address trans + data_length trans) then
    sm_ret (set_response TLM_ADDRESS_ERROR_RESPONSE trans)
  else
    match command trans with
    | TLM_READ_COMMAND => read_data trans
    | TLM_WRITE_COMMAND => write_data trans
    | TLM_IGNORE_COMMAND => sm_ret (set_response TLM_ADDRESS_ERROR_RESPONSE trans)
    end.
Definition memory_transport (trans : payload) (delay : Z) : EnvM E (payload * Z) :=
  trans <-- memory_transport_dbg trans ;; sm_ret (trans, delay + 10).

(** [load_data] and [load_zero], which fill the memory before the simulation. *)
Fixpoint load_data (src : list Z) (dst_addr : Z) (m : ConcolicMemory) : option ConcolicMemory :=
  match src with
  | [] => Some m
  | b :: src =>
      byte ← BVC None (U8 (u8 b)); m ← store m dst_addr byte 1; load_data src (dst_addr + 1) m
  end.
Definition load_zero (dst_addr : Z) (n : nat) (m : ConcolicMemory) : option ConcolicMemory :=
  load_data (replicate n 0) dst_addr m.
End memory.
