(* ===== verification/MemIf.v ===== *)
(** The memory interface of the core ([CombinedMemoryInterface] of core/rv32/mem.h): address
    translation, transactions on the bus, the lock that makes the atomic instructions
    atomic; as an environment of the simulator. *)
From S2P Require Import Prelude Bits Csr APInt KExpr KBuilder Concolic ConcMem PathTrace Iss Mmu Bus.

(** * The state

    [lr_addr] starts as a null pointer.  [sys_mmu] is [None] where the platform passes no
    memory management unit.  [local_time] is the quantum keeper's.  The list [dmi_ranges] of
    the source is not here: nothing in the repository fills it.  [devices] is the state of
    everything else on the bus. *)
Record MemSys (D : Type) := mkMemSys {
  sys_lock : BusLock;
  lr_addr : option ConcolicValue;
  sys_mmu : option GenericMMU;
  local_time : Z;
  ram : SymbolicMemory;
  devices : D;
}.
Arguments mkMemSys {D} sys_lock lr_addr sys_mmu local_time ram devices.
Arguments sys_lock {D} m.
Arguments lr_addr {D} m.
Arguments sys_mmu {D} m.
Arguments local_time {D} m.
Arguments ram {D} m.
Arguments devices {D} m.

Definition set_sys_lock {D} v (e : MemSys D) := mkMemSys v (lr_addr e) (sys_mmu e) (local_time e) (ram e) (devices e).
Definition set_lr_addr {D} v (e : MemSys D) := mkMemSys (sys_lock e) v (sys_mmu e) (local_time e) (ram e) (devices e).
Definition set_sys_mmu {D} v (e : MemSys D) := mkMemSys (sys_lock e) (lr_addr e) v (local_time e) (ram e) (devices e).
Definition set_local_time {D} v (e : MemSys D) := mkMemSys (sys_lock e) (lr_addr e) (sys_mmu e) v (ram e) (devices e).
Definition set_ram {D} v (e : MemSys D) := mkMemSys (sys_lock e) (lr_addr e) (sys_mmu e) (local_time e) v (devices e).

(** What surrounds the interface: the port mapping and which port the memory is bound to;
    the other devices and the rest of the platform, the kernel included.  [same_pointer]
    tells whether two values are the same object, which the model of values does not. *)
Class Platform (D : Type) := {
  ports : list PortMapping;
  ram_port : nat;
  hart_id : Z;
  device_transport : nat -> payload -> Z -> EnvM (MemSys D) (payload * Z);
  same_pointer : ConcolicValue -> ConcolicValue -> bool;
  sys_wait_lock_event : EnvM (MemSys D) unit;
  sys_lock_patience : nat;
  sys_update_and_get_mtime : EnvM (MemSys D) Z;
  sys_cover_instr : Z -> EnvM (MemSys D) unit;
  sys_cover_branch : Z -> bool -> EnvM (MemSys D) unit;
  sys_current_index : EnvM (MemSys D) Z;
  sys_wait_wfi : EnvM (MemSys D) unit;
  sys_notify_wfi : EnvM (MemSys D) unit;
  sys_need_sync : EnvM (MemSys D) bool;
  sys_sync : EnvM (MemSys D) unit;
  sys_processed_packet_ : EnvM (MemSys D) bool;
  sys_current_length : EnvM (MemSys D) Z;
  sys_early_exit : Z -> EnvM (MemSys D) unit;
  sys_get_symbolic_bytes : string -> Z -> EnvM (MemSys D) ConcolicValue;
}.

Section interface.
Context {D : Type} `{Platform D} `{ExprBuilder}.
#[local] Open Scope sm_scope.
Local Abbreviation E := (MemSys D).

#[export] Instance sys_lock_host : LockHost E := {|
  get_lock := sys_lock; put_lock := set_sys_lock;
  wait_lock_event := sys_wait_lock_event; lock_patience := sys_lock_patience |}.
#[export] Instance sys_ram_host : RamHost E := {| get_ram := ram; put_ram := set_ram |}.

(** The target sockets of the bus. *)
Definition target_transport (id : nat) : payload -> Z -> EnvM E (payload * Z) :=
  if (id =? ram_port)%nat then memory_transport else device_transport id.

Definition quantum_keeper_inc (t : Z) : EnvM E unit :=
  env_modify (fun e => set_local_time (local_time e + t) e).

(** * Transactions

    [_do_transaction(trans)] *)
Definition do_transaction (trans : payload) : EnvM E payload :=
  local_delay <-- env_gets local_time ;;
  r <-- bus_transport ports target_transport trans local_delay ;;
  let '(trans, local_delay) := r in
  now <-- env_gets local_time ;;
  env_assert (now <=? local_delay) ;;;
  env_modify (set_local_time local_delay) ;;;
  if is_response_error trans then
    match command trans with
    | TLM_READ_COMMAND => env_raise_trap EXC_LOAD_PAGE_FAULT (address trans)
    | TLM_WRITE_COMMAND => env_raise_trap EXC_STORE_AMO_PAGE_FAULT (address trans)
    | TLM_IGNORE_COMMAND => sm_throw RuntimeError
    end
  else sm_ret trans.

(** [_do_transaction(cmd, addr, Concolic &data, num_bytes)]: reading, and writing. *)
Definition do_read (addr : Z) (num_bytes : nat) : EnvM E ConcolicValue :=
  trans <-- do_transaction
    (mkPayload TLM_READ_COMMAND addr (replicate num_bytes 0) None TLM_OK_RESPONSE) ;;
  match extension trans with
  | Some value => sm_ret value
  | None => r <-- env_asserted (BVC_bytes (data_ptr trans) false) ;; env_asserted r
  end.
Definition do_write (addr : Z) (data : ConcolicValue) (num_bytes : nat) : EnvM E unit :=
  buf <-- env_asserted (BVCToBytes data num_bytes) ;;
  do_transaction (mkPayload TLM_WRITE_COMMAND addr buf (Some data) TLM_OK_RESPONSE) ;;; sm_ret tt.

(** [_do_transaction(cmd, addr, uint8_t *data, num_bytes)] *)
Definition do_raw_transaction (cmd : tlm_command) (addr : Z) (data : list Z) : EnvM E (list Z) :=
  trans <-- do_transaction (mkPayload cmd addr data None TLM_OK_RESPONSE) ;; sm_ret (data_ptr trans).

Definition atomic_unlock : EnvM E unit :=
  env_modify (fun e => set_sys_lock (unlock hart_id (sys_lock e)) e).

(** [concrete_load_data<T>] and [concrete_store_data<T>] for a [T] of so many bytes.  The
    buffer of a load is not initialised; the bytes it has then are not read. *)
Definition concrete_load_data (num_bytes : nat) (addr : Z) : EnvM E Z :=
  wait_for_access_rights hart_id ;;;
  ans <-- do_raw_transaction TLM_READ_COMMAND addr (replicate num_bytes 0) ;; sm_ret (le_value ans).
Definition concrete_store_data (num_bytes : nat) (addr value : Z) : EnvM E unit :=
  wait_for_access_rights hart_id ;;;
  do_raw_transaction TLM_WRITE_COMMAND addr (le_bytes num_bytes value) ;;; atomic_unlock.

(** * Translation *)

#[export] Instance sys_mmu_host : MmuHost E := {|
  get_mmu e := default MMU_new (sys_mmu e);
  put_mmu u := set_sys_mmu (Some u);
  quantum_inc := quantum_keeper_inc;
  mmu_load_pte32 := concrete_load_data 4;
  mmu_load_pte64 := concrete_load_data 8;
  mmu_store_pte32 := concrete_store_data 4;
|}.

Definition v2p (vaddr : Z) (type : MemoryAccessType) : EnvM E Z :=
  u <-- env_gets sys_mmu ;;
  match u with
  | None => sm_ret vaddr
  | Some _ => translate_virtual_to_physical_addr vaddr type
  end.
(** Without a unit the pointer to it is null: the call is undefined, here an exception. *)
Definition null_mmu : Z := 8.
Definition sys_flush_tlb : EnvM E unit :=
  mmu <-- env_gets sys_mmu ;;
  match mmu with
  | None => sm_throw (OtherException null_mmu)
  | Some mmu => env_modify (set_sys_mmu (Some (flush_tlb mmu)))
  end.

(** * Loads and stores *)

Definition caddr (addr : ConcolicValue) : EnvM E Z := env_asserted (getValue 32 (concrete addr)).

(** Loads translate as stores do. *)
Definition symbolic_load_data (addr : ConcolicValue) (num_bytes : nat) : EnvM E ConcolicValue :=
  wait_for_access_rights hart_id ;;;
  a <-- caddr addr ;; vaddr <-- v2p a STORE ;; do_read vaddr num_bytes.
Definition symbolic_store_data (addr data : ConcolicValue) (num_bytes : nat) : EnvM E unit :=
  wait_for_access_rights hart_id ;;;
  a <-- caddr addr ;; vaddr <-- v2p a STORE ;; do_write vaddr data num_bytes ;;; atomic_unlock.

Definition load_instr (addr : Z) : EnvM E Z :=
  p <-- v2p addr FETCH ;; concrete_load_data 4 p.

Definition load_size (k : load_kind) : nat :=
  match k with load_byte_ | load_ubyte_ => 1 | load_half_ | load_uhalf_ => 2 | load_word_ => 4 end.
Definition widen (k : load_kind) (r : ConcolicValue) : EnvM E ConcolicValue :=
  match k with
  | load_byte_ | load_half_ | load_word_ => sm_ret (cv_sext r 32)
  | load_ubyte_ | load_uhalf_ =>
      w <-- env_asserted (cv_getWidth r) ;; sm_ret (if w <? 32 then cv_zext r 32 else r)
  end.
Definition load_value (k : load_kind) (addr : ConcolicValue) : EnvM E ConcolicValue :=
  r <-- symbolic_load_data addr (load_size k) ;; widen k r.

Definition store_size (k : store_kind) : nat :=
  match k with store_byte_ => 1 | store_half_ => 2 | store_word_ => 4 end.
Definition store_value (k : store_kind) (addr value : ConcolicValue) : EnvM E unit :=
  symbolic_store_data addr value (store_size k).

(** * Atomic accesses *)

Definition atomic_load_word (addr : ConcolicValue) : EnvM E ConcolicValue :=
  lock hart_id ;;; load_value load_word_ addr.
Definition atomic_store_word (addr value : ConcolicValue) : EnvM E unit :=
  l <-- env_gets sys_lock ;; env_assert (is_locked_by hart_id l) ;;;
  store_value store_word_ addr value.
Definition atomic_load_reserved_word (addr : ConcolicValue) : EnvM E ConcolicValue :=
  lock hart_id ;;; env_modify (set_lr_addr (Some addr)) ;;; load_value load_word_ addr.
Definition atomic_store_conditional_word (addr value : ConcolicValue) : EnvM E bool :=
  l <-- env_gets sys_lock ;;
  if is_locked_by hart_id l then
    reserved <-- env_gets lr_addr ;;
    if match reserved with Some r => same_pointer addr r | None => false end
    then store_value store_word_ addr value ;;; sm_ret true
    else atomic_unlock ;;; sm_ret false
  else sm_ret false.

(** * The environment of the simulator *)

#[export] Instance mem_env : Env E := {|
  env_load_instr := load_instr;
  env_load := load_value;
  env_store := store_value;
  env_atomic_load_word := atomic_load_word;
  env_atomic_store_word := atomic_store_word;
  env_atomic_load_reserved_word := atomic_load_reserved_word;
  env_atomic_store_conditional_word := atomic_store_conditional_word;
  env_atomic_unlock := atomic_unlock;
  env_update_and_get_mtime := sys_update_and_get_mtime;
  env_cover_instr := sys_cover_instr;
  env_cover_branch := sys_cover_branch;
  env_current_index := sys_current_index;
  env_wait_wfi := sys_wait_wfi;
  env_notify_wfi := sys_notify_wfi;
  env_quantum_inc := quantum_keeper_inc;
  env_need_sync := sys_need_sync;
  env_sync := sys_sync;
  env_processed_packet := sys_processed_packet_;
  env_current_length := sys_current_length;
  env_early_exit := sys_early_exit;
  env_get_symbolic_bytes := sys_get_symbolic_bytes;
  env_symbolic_store_data a v n := symbolic_store_data a v (Z.to_nat n);
|}.
End interface.
