(* ===== verification/MemSpec.v ===== *)
(** What the memory interface does: loads and stores reach the bytes of the memory through
    translation, bus and lock; what goes wrong on the bus; the reservation of [LR.W]; the
    memory as the place of the page tables the translation walks. *)
From S2P Require Import Prelude Bits Csr APInt KExpr KBuilder KBuilderSound Concolic ConcMem.
From S2P Require Import PathTrace Iss Mmu MmuSpec Bus MemIf.

(** What a load makes of the bytes it read. *)
Definition widened (k : load_kind) (z : Z) : Z :=
  match k with
  | load_byte_ => u32 (swrap 8 z)
  | load_half_ => u32 (swrap 16 z)
  | load_word_ | load_ubyte_ | load_uhalf_ => z
  end.

Section access.
Context {D : Type} `{Platform D} `{!ExprBuilder} (σ : assignment) `{!BuilderLaws}.
#[local] Open Scope sm_scope.
Local Abbreviation E := (MemSys D).

(** The lock is free or the hart's own. *)
Definition accessible (e : E) : Prop := locked (sys_lock e) = true -> owner (sys_lock e) = hart_id.
(** Accesses of this type are not translated. *)
Definition untranslated (s : Shared E) (type : MemoryAccessType) : Prop :=
  sys_mmu (sh_env s) = None \/
  get_field satp_mode (core_csrs (sh_core s) satp) = SATP_MODE_BARE \/
  effective_mode (sh_core s) type = MachineMode.

(** Where the [n] bytes at a bus address are in the memory. *)
Definition ram_offset (size a n : Z) : option Z :=
  match bus_decode ports a with
  | Some (id, m) =>
      let off := global_to_local m a in
      if (id =? ram_port)%nat && (u64 (off + n) <=? size) then Some off else None
  | None => None
  end.
Local Abbreviation offset e a n := (ram_offset (sm_size (ram e)) a (Z.of_nat n)).

Definition pass_time (t : Z) (e : E) : E := set_local_time (local_time e + t) e.
Definition write_ram (m : ConcolicMemory) (e : E) : E :=
  set_ram (mkSymbolicMemory (sm_size (ram e)) m) e.

(** ** Steps that return without an effect *)

Lemma wait_run (s : Shared E) : accessible (sh_env s) -> wait_for_access_rights hart_id s = (Ok tt, s).
Proof.
  intros Ha. unfold wait_for_access_rights, sm_bind, env_gets, sm_gets. cbn [get_lock sys_lock_host].
  unfold is_locked_by. unfold accessible in Ha. destruct (locked _); [|done].
  by rewrite Ha, Z.eqb_refl by done.
Qed.
Lemma lock_run (s : Shared E) : accessible (sh_env s) ->
  lock hart_id s = (Ok tt, with_env (set_sys_lock (mkBusLock true hart_id) (sh_env s)) s).
Proof.
  intros Ha. unfold lock, sm_bind, env_gets, sm_gets, env_modify, sm_modify. cbn [get_lock sys_lock_host put_lock].
  unfold accessible in Ha. destruct (locked _) eqn:Hl; [rewrite (Ha eq_refl), Z.eqb_refl|]; cbn;
    rewrite Hl; [by rewrite (Ha eq_refl), Z.eqb_refl|done].
Qed.
Lemma v2p_run (s : Shared E) a type : untranslated s type -> v2p a type s = (Ok a, s).
Proof.
  intros Hu. unfold v2p, sm_bind, env_gets, sm_gets. destruct (sys_mmu (sh_env s)) eqn:Hm; [|done].
  unfold translate_virtual_to_physical_addr.
  rewrite (sm_bind_ok _ _ _ _ _ (eq_refl : core_csr _ _ s = _)).
  destruct Hu as [Hu|[Hu|Hu]]; [congruence|by rewrite Hu|].
  destruct (_ =? SATP_MODE_BARE); [done|].
  by rewrite (sm_bind_ok _ _ _ _ _ (eq_refl : sm_gets _ s = _)), Hu.
Qed.
Lemma caddr_run (s : Shared E) c x : cval σ c (AP 32 x) -> caddr c s = (Ok x, s).
Proof. intros Hc. unfold caddr. by rewrite (getValue_spec σ 32 c _ Hc). Qed.

(** ** Transactions with the memory *)

Lemma memory_fits (s : Shared E) q k : u64 (address q + data_length q) <= sm_size (ram (sh_env s)) ->
  memory_transport_dbg q s = k ->
  (match command q with
   | TLM_READ_COMMAND => read_data q | TLM_WRITE_COMMAND => write_data q
   | TLM_IGNORE_COMMAND => sm_ret (set_response TLM_ADDRESS_ERROR_RESPONSE q)
   end) s = k.
Proof.
  intros Hfit <-. unfold memory_transport_dbg. rewrite (sm_bind_ok _ _ _ _ _ (eq_refl : env_gets _ s = _)).
  cbn [get_ram sys_ram_host]. by destruct (Z.ltb_spec (sm_size (ram (sh_env s))) (u64 (address q + data_length q))); [lia|].
Qed.

Lemma read_data_run (s : Shared E) q f : mem_view σ (sm_memory (ram (sh_env s))) f -> data_ptr q <> [] ->
  exists c, read_data q s =
      (Ok (set_extension (Some c) (set_data (read_bytes f (address q) (length (data_ptr q))) q)), s) /\
    cval σ c (AP (8 * data_length q) (le_value (read_bytes f (address q) (length (data_ptr q))))).
Proof.
  intros Hf Hne. set (n := length (data_ptr q)).
  assert (0 < n)%nat as Hn by (unfold n; destruct (data_ptr q); [done|cbn; lia]).
  destruct (load_spec σ _ f (address q) n Hf Hn) as (c & Hload & Hc). exists c. split; [|exact Hc].
  unfold read_data. rewrite (sm_bind_ok _ _ _ _ _ (eq_refl : env_gets _ s = _)).
  cbn [get_ram sys_ram_host]. fold n. rewrite Hload.
  rewrite !(sm_bind_ok _ _ _ _ _ (eq_refl : env_asserted (Some _) _ = _)).
  rewrite (BVCToBytes_spec σ c _ _ Hc), (sm_bind_ok _ _ _ _ _ (eq_refl : env_asserted (Some _) _ = _)).
  cbn. unfold sm_ret. do 3 f_equal. rewrite <- (length_read_bytes f (address q) n) at 1.
  f_equal. apply le_bytes_value. eapply read_bytes_ok, Hf.
Qed.

(** What a transaction writes: the value of its extension, or its bytes. *)
Definition carries (q : payload) (x : apint) : Prop :=
  match extension q with
  | Some v => cval σ v x
  | None => Forall byte_ok (data_ptr q) /\ ap_val x = le_value (data_ptr q)
  end.
Lemma write_data_run (s : Shared E) q f x : mem_view σ (sm_memory (ram (sh_env s))) f ->
  data_ptr q <> [] -> carries q x ->
  exists m', write_data q s = (Ok q, with_env (write_ram m' (sh_env s)) s) /\
    mem_view σ m' (write_bytes f (address q) (le_bytes (length (data_ptr q)) (ap_val x))).
Proof.
  intros Hf Hne Hx. set (n := length (data_ptr q)).
  assert (exists v y, cval σ v y /\ ap_val y = ap_val x /\ match extension q with
    | Some value => sm_ret value
    | None => r <-- env_asserted (BVC_bytes (data_ptr q) false) ;; env_asserted r
    end s = (Ok v, s)) as (v & y & Hv & Hyx & Hrun).
  { unfold carries in Hx. destruct (extension q) as [v|]; [by exists v, x|]. destruct Hx as [Hb Hx].
    destruct (BVC_bytes_spec σ (data_ptr q) false Hne Hb) as (v & Hbv & Hv). exists v. eexists.
    split; [exact Hv|]. split; [done|]. by rewrite Hbv. }
  destruct (store_spec σ _ f (address q) v y n Hf Hv) as (m' & Hst & Hm'). exists m'.
  rewrite <- Hyx. split; [|exact Hm']. unfold write_data. rewrite (sm_bind_ok _ _ _ _ _ Hrun).
  rewrite (sm_bind_ok _ _ _ _ _ (eq_refl : env_gets _ s = _)). cbn [get_ram sys_ram_host]. fold n.
  by rewrite Hst.
Qed.

Lemma do_transaction_ram (s : Shared E) p q off e' :
  ram_offset (sm_size (ram (sh_env s))) (address p) (data_length p) = Some off ->
  (match command p with
   | TLM_READ_COMMAND => read_data (set_address off p) | TLM_WRITE_COMMAND => write_data (set_address off p)
   | TLM_IGNORE_COMMAND => sm_ret (set_response TLM_ADDRESS_ERROR_RESPONSE (set_address off p))
   end) s = (Ok q, with_env e' s) ->
  local_time e' = local_time (sh_env s) -> is_response_error q = false ->
  do_transaction p s = (Ok q, with_env (pass_time 10 e') s).
Proof.
  intros Hoff Hrun Ht Hq. unfold ram_offset in Hoff. unfold do_transaction.
  rewrite (sm_bind_ok _ _ _ _ _ (eq_refl : env_gets _ s = _)). unfold bus_transport.
  destruct (bus_decode ports (address p)) as [[id m]|]; [|done].
  destruct (id =? ram_port)%nat eqn:Hid; [|done]. cbn [andb] in Hoff.
  destruct (Z.leb_spec (u64 (global_to_local m (address p) + data_length p)) (sm_size (ram (sh_env s))))
    as [Hfit|]; [|done].
  injection Hoff as Hoff. rewrite Hoff in *. unfold target_transport. rewrite Hid. unfold memory_transport.
  pose proof (memory_fits s (set_address off p) _ Hfit eq_refl) as Hdbg. cbn [command set_address] in Hdbg.
  rewrite Hrun in Hdbg. symmetry in Hdbg.
  assert (memory_transport (set_address off p) (local_time (sh_env s)) s =
    (Ok (q, local_time (sh_env s) + 10), with_env e' s)) as Hmt.
  { unfold memory_transport. by rewrite (sm_bind_ok _ _ _ _ _ Hdbg). }
  unfold memory_transport in Hmt. rewrite (sm_bind_ok _ _ _ _ _ Hmt).
  rewrite (sm_bind_ok _ _ _ _ _ (eq_refl : env_gets _ _ = _)). cbn [sh_env with_env]. rewrite Ht.
  destruct (Z.leb_spec (local_time (sh_env s)) (local_time (sh_env s) + 10)); [|lia].
  rewrite (sm_bind_ok _ _ _ _ _ (eq_refl : env_assert true _ = _)).
  rewrite (sm_bind_ok _ _ _ _ _ (eq_refl : env_modify _ _ = _)), Hq. unfold pass_time. by rewrite Ht.
Qed.

Lemma replicate_ne n : (0 < n)%nat -> replicate n 0 <> [].
Proof. by destruct n; [lia|]. Qed.
Lemma do_read_run (s : Shared E) a n off f : (0 < n)%nat ->
  mem_view σ (sm_memory (ram (sh_env s))) f -> offset (sh_env s) a n = Some off ->
  exists c, do_read a n s = (Ok c, with_env (pass_time 10 (sh_env s)) s) /\
    cval σ c (AP (8 * Z.of_nat n) (le_value (read_bytes f off n))).
Proof.
  intros Hn Hf Hoff. set (p := mkPayload TLM_READ_COMMAND a (replicate n 0) None TLM_OK_RESPONSE).
  destruct (read_data_run s (set_address off p) f Hf (replicate_ne n Hn)) as (c & Hrun & Hc).
  exists c. unfold data_length in Hc. cbn in Hc. rewrite length_replicate in Hc. split; [|exact Hc].
  change (data_ptr (set_address off p)) with (replicate n 0) in Hrun.
  change (address (set_address off p)) with off in Hrun. rewrite length_replicate in Hrun.
  assert (do_transaction p s = (Ok (mkPayload TLM_READ_COMMAND off (read_bytes f off n) (Some c) TLM_OK_RESPONSE),
    with_env (pass_time 10 (sh_env s)) s)) as Ht.
  { apply (do_transaction_ram s p _ off (sh_env s)); [|cbn [command p]; rewrite Hrun; by destruct s|done|done].
    unfold data_length. cbn. by rewrite length_replicate. }
  unfold do_read. fold p. by rewrite (sm_bind_ok _ _ _ _ _ Ht).
Qed.
Lemma do_write_run (s : Shared E) a n off f v x : (0 < n)%nat -> cval σ v x ->
  mem_view σ (sm_memory (ram (sh_env s))) f -> offset (sh_env s) a n = Some off ->
  exists m', do_write a v n s = (Ok tt, with_env (pass_time 10 (write_ram m' (sh_env s))) s) /\
    mem_view σ m' (write_bytes f off (le_bytes n (ap_val x))).
Proof.
  intros Hn Hv Hf Hoff. set (p := mkPayload TLM_WRITE_COMMAND a (le_bytes n (ap_val x)) (Some v) TLM_OK_RESPONSE).
  destruct (write_data_run s (set_address off p) f x Hf) as (m' & Hrun & Hm');
    [by cbn; destruct n; [lia|]|done|].
  exists m'. cbn in Hm'. rewrite length_le_bytes in Hm'. split; [|exact Hm'].
  unfold do_write. rewrite (BVCToBytes_spec σ v x n Hv), (sm_bind_ok _ _ _ _ _ (eq_refl : env_asserted (Some _) _ = _)).
  fold p. erewrite sm_bind_ok; [reflexivity|].
  apply (do_transaction_ram s p (set_address off p) off (write_ram m' (sh_env s))); [|exact Hrun|done|done].
  unfold data_length. cbn. by rewrite length_le_bytes.
Qed.

(** ** Loads and stores *)

(** Wherever the translation leads. *)
Lemma load_value_at (s s' : Shared E) k addr x pa off f : cval σ addr (AP 32 x) ->
  accessible (sh_env s) -> v2p x STORE s = (Ok pa, s') -> mem_view σ (sm_memory (ram (sh_env s'))) f ->
  offset (sh_env s') pa (load_size k) = Some off ->
  exists c, load_value k addr s = (Ok c, with_env (pass_time 10 (sh_env s')) s') /\
    cval σ c (AP 32 (widened k (le_value (read_bytes f off (load_size k))))).
Proof.
  intros Hx Ha Hv Hf Hoff.
  destruct (do_read_run s' pa (load_size k) off f) as (c & Hrun & Hc); [by destruct k; cbn; lia|done..|].
  assert (symbolic_load_data addr (load_size k) s = (Ok c, with_env (pass_time 10 (sh_env s')) s')) as Hload.
  { unfold symbolic_load_data.
    rewrite (sm_bind_ok _ _ _ _ _ (wait_run s Ha)), (sm_bind_ok _ _ _ _ _ (caddr_run s _ _ Hx)).
    by rewrite (sm_bind_ok _ _ _ _ _ Hv). }
  unfold load_value. rewrite (sm_bind_ok _ _ _ _ _ Hload).
  pose proof (read_bytes_ok σ _ f off (load_size k) Hf) as Hb.
  pose proof (le_value_bound _ Hb) as Hz. rewrite length_read_bytes in Hz.
  set (z := le_value _) in *. unfold widen, widened.
  destruct k; cbn [load_size] in *.
  1-3: eexists; (split; [reflexivity|]); pose proof (cv_sext_cval σ c _ 32 Hc ltac:(cbn; lia)) as Hs;
    unfold sext_spec in Hs; cbn [ap_width ap_val] in Hs; try exact Hs.
  - change (8 * Z.of_nat 4) with 32 in *. rewrite wrap_swrap, wrap_small in Hs by lia. exact Hs.
  - rewrite (cv_getWidth_spec σ c _ Hc). eexists. split; [reflexivity|]. by apply (cv_zext_cval σ c _ 32 Hc).
  - rewrite (cv_getWidth_spec σ c _ Hc). eexists. split; [reflexivity|]. by apply (cv_zext_cval σ c _ 32 Hc).
Qed.

(** The state after a store: the bytes written, the hart's lock released. *)
Definition stored (m' : ConcolicMemory) (e : E) : E :=
  set_sys_lock (unlock hart_id (sys_lock e)) (pass_time 10 (write_ram m' e)).

Lemma store_value_at (s s' : Shared E) k addr v x y pa off f :
  cval σ addr (AP 32 x) -> cval σ v (AP 32 y) -> accessible (sh_env s) ->
  v2p x STORE s = (Ok pa, s') -> mem_view σ (sm_memory (ram (sh_env s'))) f ->
  offset (sh_env s') pa (store_size k) = Some off ->
  exists m', store_value k addr v s = (Ok tt, with_env (stored m' (sh_env s')) s') /\
    mem_view σ m' (write_bytes f off (le_bytes (store_size k) y)).
Proof.
  intros Hx Hv Ha Ht Hf Hoff.
  destruct (do_write_run s' pa (store_size k) off f v (AP 32 y)) as (m' & Hrun & Hm'); [by destruct k; cbn; lia|done..|].
  exists m'. split; [|exact Hm']. unfold store_value, symbolic_store_data.
  rewrite (sm_bind_ok _ _ _ _ _ (wait_run s Ha)), (sm_bind_ok _ _ _ _ _ (caddr_run s _ _ Hx)).
  by rewrite (sm_bind_ok _ _ _ _ _ Ht), (sm_bind_ok _ _ _ _ _ Hrun).
Qed.

Lemma access_untranslatable (s s' : Shared E) addr x e : cval σ addr (AP 32 x) -> accessible (sh_env s) ->
  v2p x STORE s = (Err e, s') ->
  (forall k, load_value k addr s = (Err e, s')) /\ (forall k v, store_value k addr v s = (Err e, s')).
Proof.
  intros Hx Ha Ht. split; intros k; [unfold load_value, symbolic_load_data; apply sm_bind_err|
    intros v; unfold store_value, symbolic_store_data];
  rewrite (sm_bind_ok _ _ _ _ _ (wait_run s Ha)), (sm_bind_ok _ _ _ _ _ (caddr_run s _ _ Hx));
  by apply sm_bind_err.
Qed.

(** ** Without translation *)

Lemma load_value_run (s : Shared E) k addr x off f : cval σ addr (AP 32 x) ->
  accessible (sh_env s) -> untranslated s STORE -> mem_view σ (sm_memory (ram (sh_env s))) f ->
  offset (sh_env s) x (load_size k) = Some off ->
  exists c, load_value k addr s = (Ok c, with_env (pass_time 10 (sh_env s)) s) /\
    cval σ c (AP 32 (widened k (le_value (read_bytes f off (load_size k))))).
Proof. intros Hx Ha Hu. by apply (load_value_at s s k addr x x), v2p_run. Qed.
Lemma store_value_run (s : Shared E) k addr v x y off f : cval σ addr (AP 32 x) -> cval σ v (AP 32 y) ->
  accessible (sh_env s) -> untranslated s STORE -> mem_view σ (sm_memory (ram (sh_env s))) f ->
  offset (sh_env s) x (store_size k) = Some off ->
  exists m', store_value k addr v s = (Ok tt, with_env (stored m' (sh_env s)) s) /\
    mem_view σ m' (write_bytes f off (le_bytes (store_size k) y)).
Proof. intros Hx Hv Ha Hu. by apply (store_value_at s s k addr v x y x), v2p_run. Qed.

(** ** Errors of the bus *)

Definition bus_fault (cmd : tlm_command) : Z :=
  match cmd with TLM_WRITE_COMMAND => EXC_STORE_AMO_PAGE_FAULT | _ => EXC_LOAD_PAGE_FAULT end.

Lemma do_transaction_unmapped (s : Shared E) p :
  bus_decode ports (address p) = None -> command p <> TLM_IGNORE_COMMAND ->
  do_transaction p s = (Err (SimulationTrap (bus_fault (command p)) (address p)), s).
Proof.
  intros Hd Hcmd. unfold do_transaction. rewrite (sm_bind_ok _ _ _ _ _ (eq_refl : env_gets _ s = _)).
  unfold bus_transport. rewrite Hd, (sm_bind_ok _ _ _ _ _ (eq_refl : sm_ret _ s = _)).
  rewrite (sm_bind_ok _ _ _ _ _ (eq_refl : env_gets _ _ = _)), Z.leb_refl.
  rewrite (sm_bind_ok _ _ _ _ _ (eq_refl : env_assert true _ = _)).
  rewrite (sm_bind_ok _ _ _ _ _ (eq_refl : env_modify _ _ = _)). cbn [command set_response].
  destruct s as [v [? ? ? ? ? ?] ? ?]. by destruct (command p).
Qed.

Lemma do_transaction_outside (s : Shared E) p m (off := global_to_local m (address p)) :
  bus_decode ports (address p) = Some (ram_port, m) ->
  sm_size (ram (sh_env s)) < u64 (off + data_length p) -> command p <> TLM_IGNORE_COMMAND ->
  do_transaction p s =
    (Err (SimulationTrap (bus_fault (command p)) off), with_env (pass_time 10 (sh_env s)) s).
Proof.
  intros Hd Hout Hcmd. unfold do_transaction. rewrite (sm_bind_ok _ _ _ _ _ (eq_refl : env_gets _ s = _)).
  unfold bus_transport. rewrite Hd. unfold target_transport. rewrite Nat.eqb_refl. fold off.
  assert (memory_transport (set_address off p) (local_time (sh_env s)) s =
    (Ok (set_response TLM_ADDRESS_ERROR_RESPONSE (set_address off p), local_time (sh_env s) + 10), s)) as Hmt.
  { unfold memory_transport, memory_transport_dbg. unfold sm_bind at 2.
    cbn [env_gets sm_gets get_ram sys_ram_host]. apply Z.ltb_lt in Hout.
    change (data_length (set_address off p)) with (data_length p). cbn [address set_address].
    unfold env_gets, sm_gets, sm_bind. by rewrite Hout. }
  rewrite (sm_bind_ok _ _ _ _ _ Hmt). rewrite (sm_bind_ok _ _ _ _ _ (eq_refl : env_gets _ _ = _)).
  destruct (Z.leb_spec (local_time (sh_env s)) (local_time (sh_env s) + 10)); [|lia].
  rewrite (sm_bind_ok _ _ _ _ _ (eq_refl : env_assert true _ = _)).
  rewrite (sm_bind_ok _ _ _ _ _ (eq_refl : env_modify _ _ = _)). cbn [command set_response set_address].
  by destruct (command p).
Qed.

Lemma load_value_fault (s s' : Shared E) k addr x e : cval σ addr (AP 32 x) ->
  accessible (sh_env s) -> untranslated s STORE ->
  do_transaction (mkPayload TLM_READ_COMMAND x (replicate (load_size k) 0) None TLM_OK_RESPONSE) s = (Err e, s') ->
  load_value k addr s = (Err e, s').
Proof.
  intros Hx Ha Hu Ht. unfold load_value, symbolic_load_data. apply sm_bind_err.
  rewrite (sm_bind_ok _ _ _ _ _ (wait_run s Ha)), (sm_bind_ok _ _ _ _ _ (caddr_run s _ _ Hx)).
  rewrite (sm_bind_ok _ _ _ _ _ (v2p_run s x STORE Hu)). by apply sm_bind_err.
Qed.
Lemma store_value_fault (s s' : Shared E) k addr v x y e : cval σ addr (AP 32 x) -> cval σ v (AP 32 y) ->
  accessible (sh_env s) -> untranslated s STORE ->
  do_transaction (mkPayload TLM_WRITE_COMMAND x (le_bytes (store_size k) y) (Some v) TLM_OK_RESPONSE) s = (Err e, s') ->
  store_value k addr v s = (Err e, s').
Proof.
  intros Hx Hv Ha Hu Ht. unfold store_value, symbolic_store_data.
  rewrite (sm_bind_ok _ _ _ _ _ (wait_run s Ha)), (sm_bind_ok _ _ _ _ _ (caddr_run s _ _ Hx)).
  rewrite (sm_bind_ok _ _ _ _ _ (v2p_run s x STORE Hu)). apply sm_bind_err. unfold do_write.
  rewrite (BVCToBytes_spec σ v _ _ Hv), (sm_bind_ok _ _ _ _ _ (eq_refl : env_asserted (Some _) _ = _)).
  by apply sm_bind_err.
Qed.
(** Filling the memory keeps it a view. *)
Lemma load_data_view src : forall dst m m', (exists f, mem_view σ m f) ->
  load_data src dst m = Some m' -> exists f, mem_view σ m' f.
Proof.
  induction src as [|b src IH]; intros dst m m' [f Hf] Hl; [injection Hl as <-; by exists f|].
  cbn in Hl. destruct (BVC_byte σ (u8 b)) as (c & Hc & Hcv); [by apply (wrap_range 8)|].
  rewrite Hc in Hl. cbn in Hl. destruct (store_spec σ m f dst c _ 1 Hf Hcv) as (m1 & Hs & Hm1).
  rewrite Hs in Hl. cbn in Hl. eapply IH; [by eexists|exact Hl].
Qed.
End access.

(** * The properties *)

Section properties.
Context {D : Type} `{Platform D} `{!ExprBuilder} `{!BuilderLaws}.
#[local] Open Scope sm_scope.
Local Abbreviation E := (MemSys D).

(** Loads and stores of the core reach memory: where the address is mapped to the memory
    and not translated, a load returns a concolic view of the little-endian bytes there,
    sign- or zero-extended to a word as its kind says, and changes nothing but the time; a
    store writes the low bytes of the value and nothing else, and gives the hart's lock
    back. *)
Theorem memory_accesses σ (s : Shared E) f kl ks addr value x y :
  cval σ addr (AP 32 x) -> cval σ value (AP 32 y) -> accessible (sh_env s) ->
  untranslated s STORE -> mem_view σ (sm_memory (ram (sh_env s))) f ->
  (forall off, ram_offset (sm_size (ram (sh_env s))) x (Z.of_nat (load_size kl)) = Some off ->
     exists c, load_value kl addr s = (Ok c, with_env (pass_time 10 (sh_env s)) s) /\
       cval σ c (AP 32 (widened kl (le_value (read_bytes f off (load_size kl)))))) /\
  (forall off, ram_offset (sm_size (ram (sh_env s))) x (Z.of_nat (store_size ks)) = Some off ->
     exists m', store_value ks addr value s =
         (Ok tt, with_env (set_sys_lock (unlock hart_id (sys_lock (sh_env s)))
           (pass_time 10 (write_ram m' (sh_env s)))) s) /\
       mem_view σ m' (write_bytes f off (le_bytes (store_size ks) y))).
Proof.
  intros Hx Hy Ha Hu Hf. split; intros off Hoff; [by eapply load_value_run|by eapply store_value_run].
Qed.

(** An access nothing answers is a page fault of its kind and has no other effect: at an
    address no port contains, with that address; in the port of the memory but past its
    size, with the offset in the port, because the bus has rewritten the address of the
    transaction by then. *)
Theorem bus_errors σ (s : Shared E) kl ks addr value x y :
  cval σ addr (AP 32 x) -> cval σ value (AP 32 y) -> accessible (sh_env s) ->
  untranslated s STORE ->
  (bus_decode ports x = None ->
     load_value kl addr s = (Err (SimulationTrap EXC_LOAD_PAGE_FAULT x), s) /\
     store_value ks addr value s = (Err (SimulationTrap EXC_STORE_AMO_PAGE_FAULT x), s)) /\
  (forall m, bus_decode ports x = Some (ram_port, m) ->
     let off := global_to_local m x in
     (sm_size (ram (sh_env s)) < u64 (off + Z.of_nat (load_size kl)) ->
        load_value kl addr s =
          (Err (SimulationTrap EXC_LOAD_PAGE_FAULT off), with_env (pass_time 10 (sh_env s)) s)) /\
     (sm_size (ram (sh_env s)) < u64 (off + Z.of_nat (store_size ks)) ->
        store_value ks addr value s =
          (Err (SimulationTrap EXC_STORE_AMO_PAGE_FAULT off), with_env (pass_time 10 (sh_env s)) s))).
Proof.
  intros Hx Hy Ha Hu. split.
  - intros Hd. split; [eapply load_value_fault|eapply store_value_fault]; try done;
      by apply do_transaction_unmapped.
  - intros m Hd. split; intros Hout.
    + eapply load_value_fault; [done..|].
      apply (do_transaction_outside s
        (mkPayload TLM_READ_COMMAND x (replicate (load_size kl) 0) None TLM_OK_RESPONSE) m); try done.
      unfold data_length. cbn [data_ptr]. by rewrite length_replicate.
    + eapply store_value_fault; [done..|].
      apply (do_transaction_outside s
        (mkPayload TLM_WRITE_COMMAND x (le_bytes (store_size ks) y) (Some value) TLM_OK_RESPONSE) m); try done.
      unfold data_length. cbn [data_ptr]. by rewrite length_le_bytes.
Qed.

(** Reservations and atomic operations: [LR.W] and the load of an AMO leave the bus locked
    by the hart; [SC.W] fails without effect when the hart does not hold the lock, fails and
    gives the lock back when its address is not the object [LR.W] was given, and otherwise
    stores the word, reports success and gives the lock back, as does the store of an AMO;
    after any of them the reservation is gone. *)
Theorem reservations σ (s : Shared E) f addr value x y off :
  cval σ addr (AP 32 x) -> cval σ value (AP 32 y) -> accessible (sh_env s) ->
  untranslated s STORE -> mem_view σ (sm_memory (ram (sh_env s))) f ->
  ram_offset (sm_size (ram (sh_env s))) x 4 = Some off ->
  let e := sh_env s in
  let unlocked e := set_sys_lock (unlock hart_id (sys_lock e)) e in
  let held := set_sys_lock (mkBusLock true hart_id) e in
  (exists c, cval σ c (AP 32 (le_value (read_bytes f off 4))) /\
     atomic_load_reserved_word addr s =
       (Ok c, with_env (pass_time 10 (set_lr_addr (Some addr) held)) s)) /\
  (exists c, cval σ c (AP 32 (le_value (read_bytes f off 4))) /\
     atomic_load_word addr s = (Ok c, with_env (pass_time 10 held) s)) /\
  (exists m', mem_view σ m' (write_bytes f off (le_bytes 4 y)) /\
     let stored_ := unlocked (pass_time 10 (write_ram m' e)) in
     is_locked_by hart_id (sys_lock stored_) = false /\
     is_locked_by hart_id (sys_lock (unlocked e)) = false /\
     atomic_store_word addr value s =
       (if is_locked_by hart_id (sys_lock e) then (Ok tt, with_env stored_ s) else (Err AssertionFailed, s)) /\
     atomic_store_conditional_word addr value s =
       (if is_locked_by hart_id (sys_lock e) then
          if match lr_addr e with Some r => same_pointer addr r | None => false end
          then (Ok true, with_env stored_ s) else (Ok false, with_env (unlocked e) s)
        else (Ok false, s))).
Proof.
  intros Hx Hy Ha Hu Hf Hoff e unlocked held. split; [|split].
  - destruct (load_value_run σ (with_env (set_lr_addr (Some addr) held) s) load_word_ addr x off f)
      as (c & Hrun & Hc); try done.
    exists c. split; [exact Hc|]. unfold atomic_load_reserved_word.
    rewrite (sm_bind_ok _ _ _ _ _ (lock_run s Ha)).
    by rewrite (sm_bind_ok _ _ _ _ _ (eq_refl : env_modify _ _ = _)).
  - destruct (load_value_run σ (with_env held s) load_word_ addr x off f) as (c & Hrun & Hc); try done.
    exists c. split; [exact Hc|]. unfold atomic_load_word. by rewrite (sm_bind_ok _ _ _ _ _ (lock_run s Ha)).
  - destruct (store_value_run σ s store_word_ addr value x y off f) as (m' & Hrun & Hm'); try done.
    exists m'. split; [exact Hm'|].
    assert (forall e0 : E, is_locked_by hart_id (sys_lock (unlocked e0)) = false) as Hun.
    { intros e0. unfold unlocked, is_locked_by, unlock. cbn.
      destruct (locked (sys_lock e0)) eqn:Hl; cbn; [|by rewrite Hl].
      destruct (Z.eqb_spec (owner (sys_lock e0)) hart_id) as [Ho|Ho]; cbn; [done|].
      rewrite Hl. cbn. by apply Z.eqb_neq. }
    split; [apply Hun|]. split; [apply Hun|].
    unfold atomic_store_word, atomic_store_conditional_word.
    rewrite !(sm_bind_ok _ _ _ _ _ (eq_refl : env_gets _ s = _)). fold e.
    destruct (is_locked_by hart_id (sys_lock e)); [|done].
    split; [by rewrite (sm_bind_ok _ _ _ _ _ (eq_refl : env_assert true _ = _))|].
    rewrite (sm_bind_ok _ _ _ _ _ (eq_refl : env_gets _ s = _)). fold e.
    destruct (match lr_addr e with Some r => _ | None => _ end); [|done].
    by rewrite (sm_bind_ok _ _ _ _ _ Hrun).
Qed.
End properties.

(** ** Witnesses: a platform of 64 KiB of memory at [0x80000000] and a silent device *)

Definition sample_ports : list PortMapping :=
  [mkPort 0x80000000 0x8001ffff; mkPort 0x02000000 0x0200ffff].
#[local] Instance sample_platform : Platform unit := {|
  ports := sample_ports; ram_port := 0; hart_id := 0;
  device_transport _ p delay := sm_ret (p, delay);
  same_pointer a b := bool_decide (getValue 32 (concrete a) = getValue 32 (concrete b));
  sys_wait_lock_event := sm_ret tt; sys_lock_patience := 0;
  sys_update_and_get_mtime := sm_ret 0; sys_cover_instr _ := sm_ret tt;
  sys_cover_branch _ _ := sm_ret tt; sys_current_index := sm_ret 0;
  sys_wait_wfi := sm_ret tt; sys_notify_wfi := sm_ret tt;
  sys_need_sync := sm_ret false; sys_sync := sm_ret tt;
  sys_processed_packet_ := sm_ret false; sys_current_length := sm_ret 0;
  sys_early_exit _ := sm_ret tt; sys_get_symbolic_bytes _ _ := sm_throw RuntimeError |}.
#[local] Instance witness_builder : ExprBuilder := solver_builder.

Definition sample_ram : SymbolicMemory := mkSymbolicMemory 0x10000 mem_empty.
Definition sample_sys (l : BusLock) (r : option ConcolicValue) : MemSys unit :=
  mkMemSys l r None 0 sample_ram tt.
Definition sample_shared (l : BusLock) (r : option ConcolicValue) : Shared (MemSys unit) :=
  mkShared (mkCoreView (fun _ => 0) MachineMode) (sample_sys l r) 0 Trace_new.
Definition sample_pointer : ConcolicValue := sample_concrete 32 0x80000010.
Definition sample_wild : ConcolicValue := sample_concrete 32 0x80010000.
Definition sample_nowhere : ConcolicValue := sample_concrete 32 0x40000000.

Lemma memory_accesses_witness :
  exists m', store_value store_half_ sample_pointer sample_symbolic (sample_shared BusLock_new None) =
    (Ok tt, with_env (stored m' (sample_sys BusLock_new None)) (sample_shared BusLock_new None)) /\
    mem_view sample_input m' (write_bytes (fun _ => 0) 0x10 [0x04; 0x03]).
Proof.
  refine (proj2 (memory_accesses (H1 := solver_builder_laws) sample_input
    (sample_shared BusLock_new None) (fun _ => 0) load_word_ store_half_ sample_pointer
    sample_symbolic 0x80000010 0x0304 _ sample_symbolic_cval _ _ _) 0x10 _).
  - apply sample_concrete_cval. vm_compute. exact I.
  - discriminate.
  - left. reflexivity.
  - apply mem_view_empty.
  - reflexivity.
Defined.

(** Past the end of the memory but inside its port, and where there is no port. *)
Lemma bus_errors_witness :
  load_value load_byte_ sample_wild (sample_shared BusLock_new None) =
    (Err (SimulationTrap EXC_LOAD_PAGE_FAULT 0x10000),
     with_env (pass_time 10 (sample_sys BusLock_new None)) (sample_shared BusLock_new None)) /\
  store_value store_word_ sample_nowhere sample_symbolic (sample_shared BusLock_new None) =
    (Err (SimulationTrap EXC_STORE_AMO_PAGE_FAULT 0x40000000), sample_shared BusLock_new None).
Proof.
  split.
  - refine (proj1 (proj2 (bus_errors (H1 := solver_builder_laws) sample_input
      (sample_shared BusLock_new None) load_byte_ store_word_ sample_wild sample_symbolic
      0x80010000 0x0304 _ sample_symbolic_cval _ _) (mkPort 0x80000000 0x8001ffff) _) _);
      [apply sample_concrete_cval; vm_compute; exact I|discriminate|left; reflexivity|reflexivity|reflexivity].
  - refine (proj2 (proj1 (bus_errors (H1 := solver_builder_laws) sample_input
      (sample_shared BusLock_new None) load_byte_ store_word_ sample_nowhere sample_symbolic
      0x40000000 0x0304 _ sample_symbolic_cval _ _) _));
      [apply sample_concrete_cval; vm_compute; exact I|discriminate|left; reflexivity|reflexivity].
Defined.

(** The hart holds the lock and its reservation is for another address. *)
Lemma reservations_witness :
  let s := sample_shared (mkBusLock true 0) (Some sample_wild) in
  atomic_store_conditional_word sample_pointer sample_symbolic s =
    (Ok false, with_env (set_sys_lock (mkBusLock false 0) (sh_env s)) s).
Proof.
  destruct (proj2 (proj2 (reservations (H1 := solver_builder_laws) sample_input
    (sample_shared (mkBusLock true 0) (Some sample_wild)) (fun _ => 0) sample_pointer
    sample_symbolic 0x80000010 0x0304 0x10
    ltac:(apply sample_concrete_cval; vm_compute; exact I) sample_symbolic_cval
    ltac:(intros _; reflexivity) ltac:(left; reflexivity) ltac:(apply mem_view_empty)
    ltac:(reflexivity)))) as (m' & _ & _ & _ & _ & Hsc).
  exact Hsc.
Defined.
