(* ===== verification/Platform.v ===== *)
(** A platform of plain memory: an instance of the environment of the simulator in which
    instructions and data live in one concolic memory and nothing else happens.  It shows
    that the interface can be met, and the witnesses run programs on it. *)
From S2P Require Import Prelude Bits Instr Csr APInt KExpr KBuilder KBuilderSound Concolic.
From S2P Require Import ConcMem PathTrace Iss.

Record ram := mkRam { cells : ConcolicMemory }.

Section platform.
Context `{ExprBuilder}.
#[local] Open Scope sm_scope.

Definition ram_asserted {A} (o : option A) : EnvM ram A :=
  match o with Some a => sm_ret a | None => sm_throw AssertionFailed end.
Definition ram_read (a : Z) (n : nat) : EnvM ram ConcolicValue :=
  m <-- sm_gets (fun s => cells (sh_env s)) ;; c <-- ram_asserted (load m a n) ;; ram_asserted c.
Definition ram_write (addr v : ConcolicValue) (n : nat) : EnvM ram unit :=
  m <-- sm_gets (fun s => cells (sh_env s)) ;;
  m' <-- ram_asserted (store_concolic m addr v n) ;;
  sm_modify (fun s => mkShared (sh_core s) (mkRam m') (sh_mip s) (sh_trace s)).
Definition ram_address (addr : ConcolicValue) : EnvM ram Z :=
  ram_asserted (getValue 32 (concrete addr)).

Definition ram_load (k : load_kind) (addr : ConcolicValue) : EnvM ram ConcolicValue :=
  a <-- ram_address addr ;;
  c <-- ram_read a (match k with load_byte_ | load_ubyte_ => 1 | load_half_ | load_uhalf_ => 2
                                 | load_word_ => 4 end) ;;
  sm_ret (match k with load_ubyte_ | load_uhalf_ => cv_zext c 32 | _ => cv_sext c 32 end).
Definition ram_store (k : store_kind) (addr v : ConcolicValue) : EnvM ram unit :=
  ram_write addr v (match k with store_byte_ => 1 | store_half_ => 2 | store_word_ => 4 end).

#[local] Instance ram_env : Env ram := {|
  env_load_instr a := c <-- ram_read a 4 ;; ram_asserted (getValue 32 (concrete c));
  env_load := ram_load;
  env_store := ram_store;
  env_atomic_load_word := ram_load load_word_;
  env_atomic_store_word := ram_store store_word_;
  env_atomic_load_reserved_word := ram_load load_word_;
  env_atomic_store_conditional_word a v := ram_store store_word_ a v ;;; sm_ret true;
  env_atomic_unlock := sm_ret tt;
  env_update_and_get_mtime := sm_ret 0;
  env_cover_instr _ := sm_ret tt;
  env_cover_branch _ _ := sm_ret tt;
  env_current_index := sm_ret 0;
  env_wait_wfi := sm_ret tt;
  env_notify_wfi := sm_ret tt;
  env_quantum_inc _ := sm_ret tt;
  env_need_sync := sm_ret false;
  env_sync := sm_ret tt;
  env_processed_packet := sm_ret false;
  env_current_length := sm_ret 0;
  env_early_exit _ := sm_ret tt;
  env_get_symbolic_bytes _ _ := sm_throw AssertionFailed;
  env_symbolic_store_data _ _ _ := sm_throw AssertionFailed;
|}.

#[export] Instance ram_lock_laws : LockLaws ram.
Proof. split. intros [v e m t]. by exists e. Qed.

#[export] Instance ram_record_laws : RecordLaws ram.
Proof.
  refine {| packet_index := fun _ => 0 |}; [|done]. intros a b [v e m t]. by exists e.
Defined.

Definition ram_ok (σ : assignment) (r : ram) : Prop := exists f, mem_view σ (cells r) f.

Context (σ : assignment) `{Laws : !BuilderLaws}.
Local Abbreviation ok := (shared_ok σ (ram_ok σ)).

Lemma ram_asserted_keeps {A} (o : option A) : keeps ok (ram_asserted o).
Proof. destruct o; [apply keeps_ret|apply keeps_throw]. Qed.

Lemma ram_read_yields a n : (0 < n)%nat ->
  yields ok (ram_read a n) (fun c => exists x, cval σ c (AP (8 * Z.of_nat n) x)).
Proof.
  intros Hn s [[f Hf] Ht]. unfold ram_read, sm_bind, sm_gets.
  destruct (load_spec σ _ f a n Hf Hn) as (c & -> & Hc). cbn.
  split; [split; [by exists f|done]|by eexists].
Qed.

Lemma ram_load_yields k a : is_word σ a -> yields ok (ram_load k a) (is_word σ).
Proof.
  intros Ha. unfold ram_load. eapply yields_bind; [apply keeps_yields, ram_asserted_keeps|].
  intros addr _. eapply yields_bind; [apply ram_read_yields; by destruct k; lia|].
  intros c [x Hx]. apply yields_ret. destruct k; eexists; cbn in Hx;
    first [apply (cv_sext_cval σ _ _ 32 Hx) | apply (cv_zext_cval σ _ _ 32 Hx)]; cbn; lia.
Qed.

Lemma ram_store_keeps k a v : is_word σ v -> keeps ok (ram_store k a v).
Proof.
  intros [x Hx] s [[f Hf] Ht].
  unfold ram_store, ram_write, store_concolic, sm_bind, sm_gets, sm_modify.
  destruct (getValue 32 (concrete a)) as [addr|]; cbn; [|split; [by exists f|done]].
  edestruct (store_spec σ (cells (sh_env s)) f addr v) as (m' & -> & Hm'); [done..|]. cbn.
  split; [by eexists|done].
Qed.

#[export] Instance ram_env_laws : EnvLaws σ ram.
Proof.
  apply (Build_EnvLaws σ ram ram_env (ram_ok σ)); cbn; intros;
    try apply keeps_ret; try by apply ram_load_yields.
  - apply keeps_bind; [eapply yields_keeps, ram_read_yields; lia|intros; apply ram_asserted_keeps].
  - by apply ram_store_keeps.
  - by apply ram_store_keeps.
  - apply keeps_bind; [by apply ram_store_keeps|intros; apply keeps_ret].
Defined.
End platform.

(** A memory with a program of 32-bit words at an address. *)
Fixpoint load_program `{ExprBuilder} (a : Z) (program : list Z) (m : ConcolicMemory) : ConcolicMemory :=
  match program with
  | [] => m
  | i :: program =>
      load_program (a + 4) program
        (default m (store m a (Concolic (EConstant (CE_alloc i 32)) None) 4))
  end.

Lemma load_program_ok `{Laws : BuilderLaws} σ program : forall a m,
  ram_ok σ (mkRam m) -> ram_ok σ (mkRam (load_program a program m)).
Proof.
  induction program as [|i program IH]; intros a m [f Hf]; [by exists f|]. cbn [load_program].
  apply IH. cbn in Hf.
  edestruct (store_spec σ m f a (Concolic (EConstant (CE_alloc i 32)) None)) as (m' & -> & Hm').
  - exact Hf.
  - split; [reflexivity|]. split; [by apply ap_wf_wrap|done].
  - by eexists.
Qed.
Lemma empty_ram_ok `{Laws : BuilderLaws} σ : ram_ok σ (mkRam mem_empty).
Proof. exists (fun _ => 0). apply mem_view_empty. Qed.
