(* ===== verification/IssTrap.v ===== *)
(** Traps and interrupts of the instruction set simulator (core/rv32/iss.cpp): which mode
    takes a trap, the entry into and the return from a trap handler, the selection of a
    pending interrupt, and the interrupt lines of [irq_if.h]. *)
From S2P Require Import Prelude Bits Instr Csr APInt KExpr KBuilder Concolic PathTrace Iss KBuilderSound ConcMem Platform.

Record PendingInterrupts := mkPending { target_mode : Z; pending : Z }.

(** [ISS::compute_pending_interrupts] *)
Definition compute_pending_interrupts (t : csr_table) (p : Z) : PendingInterrupts :=
  let pending := Z.land (t mie) (t mip) in
  if pending =? 0 then mkPending NoneMode 0
  else
    let m_pending := Z.land pending (u32 (Z.lnot (t mideleg))) in
    if negb (m_pending =? 0) &&
       ((p <? MachineMode) || ((p =? MachineMode) && negb (get_field mstatus_mie (t mstatus) =? 0)))
    then mkPending MachineMode m_pending
    else
      let pending := Z.land pending (t mideleg) in
      let s_pending := Z.land pending (u32 (Z.lnot (t sideleg))) in
      if negb (s_pending =? 0) &&
         ((p <? SupervisorMode) || ((p =? SupervisorMode) && negb (get_field mstatus_sie (t mstatus) =? 0)))
      then mkPending SupervisorMode s_pending
      else
        let u_pending := Z.land pending (t sideleg) in
        if negb (u_pending =? 0) && ((p =? UserMode) && negb (get_field mstatus_uie (t mstatus) =? 0))
        then mkPending UserMode u_pending
        else mkPending NoneMode 0.

Definition has_local_pending_enabled_interrupts (t : csr_table) : bool :=
  negb (Z.land (t mie) (t mip) =? 0).

(** The chain of [prepare_interrupt]. *)
Definition select_interrupt (pending : Z) : option Z :=
  let bit f := negb (get_field f pending =? 0) in
  if bit mip_meip then Some EXC_M_EXTERNAL_INTERRUPT
  else if bit mip_msip then Some EXC_M_SOFTWARE_INTERRUPT
  else if bit mip_mtip then Some EXC_M_TIMER_INTERRUPT
  else if bit mip_seip then Some EXC_S_EXTERNAL_INTERRUPT
  else if bit mip_ssip then Some EXC_S_SOFTWARE_INTERRUPT
  else if bit mip_stip then Some EXC_S_TIMER_INTERRUPT
  else if bit mip_ueip then Some EXC_U_EXTERNAL_INTERRUPT
  else if bit mip_usip then Some EXC_U_SOFTWARE_INTERRUPT
  else if bit mip_utip then Some EXC_U_TIMER_INTERRUPT
  else None.

Section trap.
Context {E : Type} `{Env E} `{ExprBuilder} `{KleeSolver}.
#[local] Open Scope sm_scope.

(** [boost::lexical_cast<uint32_t>] of a [uint64_t]: it throws on a value out of range. *)
Definition bad_lexical_cast : Z := 1.
Definition lexical_cast_u32 (v : Z) : M E Z :=
  if v <? 2 ^ 32 then sm_ret v else sm_throw (OtherException bad_lexical_cast).

(** What [prepare_trap] stores for a handler: not an interrupt, the reason, the value. *)
Definition record_trap (cause tval : csr_name) (reason value : Z) : M E unit :=
  put_csr_field cause mcause_interrupt 0 ;;;
  put_csr_field cause mcause_exception_code reason ;;;
  v <-- lexical_cast_u32 value ;; put_csr tval v.

Definition prepare_trap (reason value : Z) : M E Z :=
  modify (fun s => set_pc (last_pc s) s) ;;;
  p <-- gets prv ;; t <-- gets csrs ;;
  let exc_bit := u32 (Z.shiftl 1 reason) in
  if (p =? MachineMode) || (Z.land exc_bit (t medeleg) =? 0) then
    record_trap mcause mtval reason value ;;; sm_ret MachineMode
  else if (p =? SupervisorMode) || (Z.land exc_bit (t sedeleg) =? 0) then
    record_trap scause stval reason value ;;; sm_ret SupervisorMode
  else
    assert_ ((p =? UserMode) && negb (Z.land exc_bit (t medeleg) =? 0) &&
             negb (Z.land exc_bit (t sedeleg) =? 0)) ;;;
    record_trap ucause utval reason value ;;; sm_ret UserMode.

Definition prepare_interrupt (e : PendingInterrupts) : M E unit :=
  match select_interrupt (pending e) with
  | None => sm_throw RuntimeError
  | Some exc =>
      switch (target_mode e) [
        (MachineMode,
          put_csr_field mcause mcause_exception_code exc ;;; put_csr_field mcause mcause_interrupt 1);
        (SupervisorMode,
          put_csr_field scause mcause_exception_code exc ;;; put_csr_field scause mcause_interrupt 1);
        (UserMode,
          put_csr_field ucause mcause_exception_code exc ;;; put_csr_field ucause mcause_interrupt 1)]
        (sm_throw RuntimeError)
  end.

(** The jump to a handler: its base address, and for an interrupt in vectored mode four
    bytes more for each cause. *)
Definition handler_address (tvec cause : Z) : Z :=
  let base := get_base_address tvec in
  if negb (get_field mcause_interrupt cause =? 0) && (get_field mtvec_mode tvec =? Vectored)
  then u32 (base + u32 (4 * get_field mcause_exception_code cause)) else base.
Definition enter_handler (tvec cause : csr_name) : M E unit :=
  modify (fun s => set_pc (handler_address (csrs s tvec) (csrs s cause)) s).

Definition switch_to_trap_handler (target_mode : Z) : M E unit :=
  release_lr_sc_reservation ;;;
  pp <-- gets prv ;;
  modify (set_prv target_mode) ;;;
  p <-- gets pc ;; prv' <-- gets prv ;;
  switch target_mode [
    (MachineMode,
      put_csr mepc p ;;;
      v <-- get_csr_field mstatus mstatus_mie ;; put_csr_field mstatus mstatus_mpie v ;;;
      put_csr_field mstatus mstatus_mie 0 ;;;
      put_csr_field mstatus mstatus_mpp pp ;;;
      enter_handler mtvec mcause);
    (SupervisorMode,
      assert_ ((prv' =? SupervisorMode) || (prv' =? UserMode)) ;;;
      put_csr sepc p ;;;
      v <-- get_csr_field mstatus mstatus_sie ;; put_csr_field mstatus mstatus_spie v ;;;
      put_csr_field mstatus mstatus_sie 0 ;;;
      put_csr_field mstatus mstatus_spp pp ;;;
      enter_handler stvec scause);
    (UserMode,
      assert_ (prv' =? UserMode) ;;;
      put_csr uepc p ;;;
      v <-- get_csr_field mstatus mstatus_uie ;; put_csr_field mstatus mstatus_upie v ;;;
      put_csr_field mstatus mstatus_uie 0 ;;;
      enter_handler utvec ucause)]
    (sm_throw RuntimeError).

Definition return_from_trap_handler (return_mode : Z) : M E unit :=
  t <-- gets csrs ;;
  switch return_mode [
    (MachineMode,
      modify (set_prv (get_field mstatus_mpp (t mstatus))) ;;;
      put_csr_field mstatus mstatus_mie (get_field mstatus_mpie (t mstatus)) ;;;
      put_csr_field mstatus mstatus_mpie 1 ;;;
      modify (set_pc (t mepc)) ;;;
      put_csr_field mstatus mstatus_mpp
        (if has_user_mode_extension t then UserMode else MachineMode));
    (SupervisorMode,
      modify (set_prv (get_field mstatus_spp (t mstatus))) ;;;
      put_csr_field mstatus mstatus_sie (get_field mstatus_spie (t mstatus)) ;;;
      put_csr_field mstatus mstatus_spie 1 ;;;
      modify (set_pc (t sepc)) ;;;
      put_csr_field mstatus mstatus_spp
        (if has_user_mode_extension t then UserMode else SupervisorMode));
    (UserMode,
      modify (set_prv UserMode) ;;;
      put_csr_field mstatus mstatus_uie (get_field mstatus_upie (t mstatus)) ;;;
      put_csr_field mstatus mstatus_upie 1 ;;;
      modify (set_pc (t uepc)))]
    (sm_throw RuntimeError).

(** ** The interrupt lines *)

Definition set_external_interrupt (level : Z) (v : bool) : M E unit :=
  switch level [
    (UserMode, put_csr_field mip mip_ueip (Z.b2z v));
    (SupervisorMode, put_csr_field mip mip_seip (Z.b2z v));
    (MachineMode, put_csr_field mip mip_meip (Z.b2z v))] (sm_ret tt).
Definition trigger_external_interrupt (level : Z) : M E unit :=
  set_external_interrupt level true ;;; lift_env env_notify_wfi.
Definition clear_external_interrupt (level : Z) : M E unit := set_external_interrupt level false.
Definition trigger_timer_interrupt (status : bool) : M E unit :=
  put_csr_field mip mip_mtip (Z.b2z status) ;;; lift_env env_notify_wfi.
Definition trigger_software_interrupt (status : bool) : M E unit :=
  put_csr_field mip mip_msip (Z.b2z status) ;;; lift_env env_notify_wfi.
End trap.

(** * Taking a trap and returning from it *)

(** The registers a mode's handler uses. *)
Definition epc_of (m : Z) : csr_name :=
  if m =? MachineMode then mepc else if m =? SupervisorMode then sepc else uepc.
Definition cause_of (m : Z) : csr_name :=
  if m =? MachineMode then mcause else if m =? SupervisorMode then scause else ucause.
Definition tval_of (m : Z) : csr_name :=
  if m =? MachineMode then mtval else if m =? SupervisorMode then stval else utval.
Definition tvec_of (m : Z) : csr_name :=
  if m =? MachineMode then mtvec else if m =? SupervisorMode then stvec else utvec.
Definition ie_of (m : Z) : field :=
  if m =? MachineMode then mstatus_mie else if m =? SupervisorMode then mstatus_sie else mstatus_uie.

(** The delegation rule of the privileged architecture: a trap goes to the machine mode
    unless delegated, and never to a mode less privileged than the one it interrupts. *)
Definition trap_target (t : csr_table) (p reason : Z) : Z :=
  if negb (Z.testbit (t medeleg) reason) || (p =? MachineMode) then MachineMode
  else if negb (Z.testbit (t sedeleg) reason) || (p =? SupervisorMode) then SupervisorMode
  else UserMode.

Lemma exc_bit_zero reason reg : 0 <= reason < 32 ->
  (Z.land (u32 (Z.shiftl 1 reason)) reg =? 0) = negb (Z.testbit reg reason).
Proof.
  intros Hr. rewrite wrap_small.
  2:{ rewrite Z.shiftl_mul_pow2 by lia. split; [lia|]. rewrite Z.mul_1_l.
      apply Z.pow_lt_mono_r; lia. }
  rewrite Z.shiftl_mul_pow2, Z.mul_1_l by lia.
  destruct (Z.testbit reg reason) eqn:Hb; cbn; [apply Z.eqb_neq|apply Z.eqb_eq].
  - intros Hz. assert (Z.testbit (Z.land (2 ^ reason) reg) reason = false) as Hf
      by (by rewrite Hz, Z.bits_0).
    by rewrite Z.land_spec, Z.pow2_bits_true, Hb in Hf by lia.
  - apply Z.bits_inj'. intros i Hi. rewrite Z.land_spec, Z.bits_0, Z.pow2_bits_eqb by lia.
    destruct (Z.eqb_spec reason i) as [<-|]; [by rewrite Hb|done].
Qed.

Lemma wrap_get_field f g reg : 0 < f_width f -> f_width g = f_width f ->
  wrap (f_width g) (get_field f reg) = get_field f reg.
Proof. intros Hf ->. by apply wrap_small, get_field_range. Qed.

(** Simplifies reads of a table and of a field after writes to others. *)
Ltac csr_simpl :=
  repeat first
    [ rewrite csr_set_eq
    | rewrite csr_set_ne by discriminate
    | rewrite get_set_same by done
    | rewrite get_set_other by done ].

Section roundtrip.
Context {E : Type} `{Env E} `{ExprBuilder} `{KleeSolver}.
#[local] Open Scope sm_scope.

(** A trap: the handler is prepared and entered. *)
Definition take_trap (reason value : Z) : M E Z :=
  m <-- prepare_trap reason value ;; switch_to_trap_handler m ;;; sm_ret m.

Definition valid_mode (p : Z) : Prop := p = MachineMode \/ p = SupervisorMode \/ p = UserMode.

(** In the handler of the mode [m]: what it finds of the trap and of the interrupted
    code [s]. *)
Definition in_handler (m reason value : Z) (s s' : ISS) : Prop :=
  prv s' = m /\ regs s' = regs s /\ lr_sc_counter s' = 0 /\
  pc s' = get_base_address (csrs s (tvec_of m)) /\
  csrs s' (epc_of m) = last_pc s /\ csrs s' (tval_of m) = value /\
  get_field mcause_exception_code (csrs s' (cause_of m)) = reason /\
  get_field mcause_interrupt (csrs s' (cause_of m)) = 0 /\
  get_field (ie_of m) (csrs s' mstatus) = 0.

(** After [prepare_trap]. *)
Definition prepared (m reason value : Z) (s s' : ISS) : Prop :=
  prv s' = prv s /\ regs s' = regs s /\ pc s' = last_pc s /\
  csrs s' mstatus = csrs s mstatus /\ csrs s' (tvec_of m) = csrs s (tvec_of m) /\
  csrs s' (tval_of m) = value /\
  get_field mcause_exception_code (csrs s' (cause_of m)) = reason /\
  get_field mcause_interrupt (csrs s' (cause_of m)) = 0.

Lemma prepare_trap_run s tr (e : E) reason value :
  valid_mode (prv s) -> 0 <= reason < 31 -> 0 <= value < 2 ^ 32 ->
  let m := trap_target (csrs s) (prv s) reason in
  exists s', prepare_trap reason value (mkWorld s tr e) = (Ok m, mkWorld s' tr e) /\
    prepared m reason value s s'.
Proof.
  intros Hp Hr Hv m. unfold m, prepare_trap, trap_target, record_trap, lexical_cast_u32.
  unfold sm_bind, modify, gets, sm_modify, sm_gets, put_csr_field, put_csr, sm_ret, assert_.
  cbn. rewrite !exc_bit_zero by lia. rewrite (proj2 (Z.ltb_lt _ _)) by lia.
  destruct (Z.testbit (csrs s medeleg) reason), (Z.testbit (csrs s sedeleg) reason);
    destruct Hp as [->|[->| ->]]; cbn; (eexists; split; [reflexivity|]);
    unfold prepared, tvec_of, tval_of, cause_of; cbn; csr_simpl; repeat split.
  all: apply wrap_small; cbn; lia.
Qed.

(** Where the return from a handler finds the interrupt enable bit and the mode. *)
Definition pie_of (m : Z) : field :=
  if m =? MachineMode then mstatus_mpie else if m =? SupervisorMode then mstatus_spie else mstatus_upie.
Definition saved_prv (m : Z) (t : csr_table) : Z :=
  if m =? MachineMode then get_field mstatus_mpp (t mstatus)
  else if m =? SupervisorMode then get_field mstatus_spp (t mstatus) else UserMode.

(** After [switch_to_trap_handler]. *)
Definition entered (m : Z) (s s' : ISS) : Prop :=
  prv s' = m /\ regs s' = regs s /\ lr_sc_counter s' = 0 /\
  pc s' = handler_address (csrs s (tvec_of m)) (csrs s (cause_of m)) /\
  csrs s' (epc_of m) = pc s /\ csrs s' (tval_of m) = csrs s (tval_of m) /\
  csrs s' (cause_of m) = csrs s (cause_of m) /\
  get_field (ie_of m) (csrs s' mstatus) = 0 /\
  get_field (pie_of m) (csrs s' mstatus) = get_field (ie_of m) (csrs s mstatus) /\
  saved_prv m (csrs s') = prv s.

(** What the mode [m] can interrupt: itself and the modes below. *)
Definition interruptible (m p : Z) : Prop := valid_mode m /\ valid_mode p /\ p <= m.

Lemma switch_run `{!LockLaws E} s tr (e : E) m : interruptible m (prv s) ->
  exists s' e', switch_to_trap_handler m (mkWorld s tr e) = (Ok tt, mkWorld s' tr e') /\
    entered m s s'.
Proof.
  intros (Hm & Hp & Hle). unfold switch_to_trap_handler, release_lr_sc_reservation, enter_handler.
  unfold sm_bind, modify, gets, sm_modify, sm_gets, put_csr_field, put_csr, sm_ret, assert_,
    lift_env, get_csr_field.
  cbn. match goal with |- context [env_atomic_unlock ?sh] =>
    destruct (env_atomic_unlock_law sh) as [e' ->] end. cbn.
  destruct Hm as [->|[->| ->]]; cbn; (eexists; exists e'; split; [reflexivity|]);
    unfold entered, tvec_of, tval_of, cause_of, epc_of, ie_of, pie_of, saved_prv; cbn; csr_simpl;
    repeat split; try by apply wrap_get_field.
  all: destruct Hp as [Hp|[Hp|Hp]]; rewrite Hp in *; done.
Qed.

Lemma return_run s tr (e : E) m : valid_mode m ->
  exists s', return_from_trap_handler m (mkWorld s tr e) = (Ok tt, mkWorld s' tr e) /\
    prv s' = saved_prv m (csrs s) /\ pc s' = csrs s (epc_of m) /\ regs s' = regs s /\
    get_field (ie_of m) (csrs s' mstatus) = get_field (pie_of m) (csrs s mstatus).
Proof.
  intros Hm. unfold return_from_trap_handler.
  unfold sm_bind, modify, gets, sm_modify, sm_gets, put_csr_field, put_csr, sm_ret, assert_.
  cbn. destruct Hm as [->|[->| ->]]; cbn; (eexists; split; [reflexivity|]);
    unfold epc_of, ie_of, pie_of, saved_prv; cbn; csr_simpl; repeat split;
    by apply wrap_get_field.
Qed.

Lemma trap_target_interruptible t p reason : valid_mode p -> interruptible (trap_target t p reason) p.
Proof.
  intros Hp. unfold interruptible, trap_target, valid_mode, MachineMode, SupervisorMode, UserMode in *.
  destruct (Z.testbit (t medeleg) reason), (Z.testbit (t sedeleg) reason);
    destruct Hp as [->|[->| ->]]; cbn; lia.
Qed.
End roundtrip.

(** C7 Trap entry and return: a trap with reason [reason] is taken in the mode the
    delegation registers name; the handler starts at the base of that mode's vector with
    interrupts of the mode disabled and finds the reason, the value and the address of
    the trapping instruction; returning from it resumes that instruction in the mode it
    ran in, with the interrupt enable bit as it was. *)
Theorem trap_roundtrip {E} `{LockLaws E} (w : World E) reason value :
  valid_mode (prv (iss w)) -> 0 <= reason < 31 -> 0 <= value < 2 ^ 32 ->
  let m := trap_target (csrs (iss w)) (prv (iss w)) reason in
  exists w1 w2,
    take_trap reason value w = (Ok m, w1) /\ in_handler m reason value (iss w) (iss w1) /\
    return_from_trap_handler m w1 = (Ok tt, w2) /\
    prv (iss w2) = prv (iss w) /\ pc (iss w2) = last_pc (iss w) /\ regs (iss w2) = regs (iss w) /\
    get_field (ie_of m) (csrs (iss w2) mstatus) = get_field (ie_of m) (csrs (iss w) mstatus).
Proof.
  destruct w as [s tr e]. intros Hp Hr Hv m. cbn [iss] in *.
  pose proof (trap_target_interruptible (csrs s) (prv s) reason Hp) as Hm. fold m in Hm.
  destruct (prepare_trap_run s tr e reason value Hp Hr Hv) as (s1 & Hrun & Hs1). fold m in Hrun, Hs1.
  destruct Hs1 as (Hp1 & Hr1 & Hpc1 & Hst1 & Htv1 & Hval1 & Hexc1 & Hint1).
  destruct (switch_run s1 tr e m) as (s2 & e2 & Hsw & Hs2); [by rewrite Hp1|].
  destruct Hs2 as (Hp2 & Hr2 & Hl2 & Hpc2 & Hepc2 & Hval2 & Hc2 & Hie2 & Hpie2 & Hpp2).
  destruct (return_run s2 tr e2 m) as (s3 & Hret & Hp3 & Hpc3 & Hr3 & Hie3); [apply Hm|].
  exists (mkWorld s2 tr e2), (mkWorld s3 tr e2). cbn [iss]. unfold take_trap, sm_bind, sm_ret.
  rewrite Hrun, Hsw, Hret. split; [done|]. split.
  - unfold in_handler, handler_address in *. rewrite Hint1 in Hpc2. cbn in Hpc2.
    rewrite Hc2. repeat split; congruence.
  - repeat split; congruence.
Qed.

(** * The selection of an interrupt *)

(** The mode the delegation registers give an interrupt to. *)
Definition irq_mode (t : csr_table) (i : Z) : Z :=
  if negb (Z.testbit (t mideleg) i) then MachineMode
  else if negb (Z.testbit (t sideleg) i) then SupervisorMode else UserMode.
(** A mode takes interrupts when a less privileged mode runs, or when it runs itself and
    has them enabled. *)
Definition irq_enabled (t : csr_table) (p m : Z) : Prop :=
  p < m \/ (p = m /\ get_field (ie_of m) (t mstatus) <> 0).
Definition irq_pending (t : csr_table) (i : Z) : Prop :=
  Z.testbit (t mie) i = true /\ Z.testbit (t mip) i = true.
Definition takeable (t : csr_table) (p i : Z) : Prop :=
  irq_pending t i /\ irq_enabled t p (irq_mode t i).

Lemma nonzero_bit z : 0 <= z -> (z =? 0) = false <-> exists i, 0 <= i /\ Z.testbit z i = true.
Proof.
  intros Hz. rewrite Z.eqb_neq. split.
  - intros Hne. exists (Z.log2 z). split; [apply Z.log2_nonneg|apply Z.bit_log2; lia].
  - intros (i & _ & Hi) ->. by rewrite Z.bits_0 in Hi.
Qed.

Section selection.
Variables (t : csr_table) (p : Z).
Hypotheses (Hmie : 0 <= t mie < 2 ^ 32) (Hp : 0 <= p).

(** The pending bits given to a mode, as [compute_pending_interrupts] masks them. *)
Definition pending_bits (m : Z) : Z :=
  let all := Z.land (t mie) (t mip) in
  if m =? MachineMode then Z.land all (u32 (Z.lnot (t mideleg)))
  else if m =? SupervisorMode then Z.land (Z.land all (t mideleg)) (u32 (Z.lnot (t sideleg)))
  else Z.land (Z.land all (t mideleg)) (t sideleg).

Lemma pending_bits_spec m i : valid_mode m -> 0 <= i ->
  Z.testbit (pending_bits m) i = true <-> irq_pending t i /\ irq_mode t i = m.
Proof.
  intros Hm Hi. unfold irq_pending, irq_mode.
  assert (Z.testbit (t mie) i = true -> i < 32) as Hlt.
  { intros Hb. destruct (Z_lt_le_dec i 32); [done|]. by rewrite (testbit_high 32) in Hb by done. }
  unfold valid_mode, pending_bits, MachineMode, SupervisorMode, UserMode in *.
  destruct Hm as [->|[->| ->]]; cbn; rewrite !Z.land_spec, ?wrap_spec, ?Z.lnot_spec by lia;
    destruct (Z.testbit (t mie) i) eqn:He; try (cbn; intuition congruence);
    rewrite ?(proj2 (Z.ltb_lt i 32)) by auto;
    destruct (Z.testbit (t mip) i), (Z.testbit (t mideleg) i), (Z.testbit (t sideleg) i);
    cbn; intuition congruence.
Qed.

Lemma pending_bits_nonneg m : 0 <= pending_bits m.
Proof.
  unfold pending_bits. destruct (m =? MachineMode); [|destruct (m =? SupervisorMode)];
    rewrite <- ?Z.land_assoc; apply Z.land_nonneg; lia.
Qed.

Lemma pending_bits_zero m : valid_mode m ->
  (pending_bits m =? 0) = false <-> exists i, 0 <= i /\ irq_pending t i /\ irq_mode t i = m.
Proof.
  intros Hm. rewrite (nonzero_bit _ (pending_bits_nonneg m)).
  split; intros (i & Hi & Hb); exists i; (split; [done|]); by apply pending_bits_spec.
Qed.

(** Whether the mode [m] takes an interrupt now. *)
Definition takes (m : Z) : bool :=
  negb (pending_bits m =? 0) &&
  ((p <? m) || ((p =? m) && negb (get_field (ie_of m) (t mstatus) =? 0))).

Lemma takes_spec m : valid_mode m ->
  takes m = true <-> exists i, 0 <= i /\ takeable t p i /\ irq_mode t i = m.
Proof.
  intros Hm. unfold takes, takeable, irq_enabled.
  rewrite andb_true_iff, negb_true_iff, (pending_bits_zero m Hm).
  rewrite orb_true_iff, andb_true_iff, negb_true_iff, Z.ltb_lt, Z.eqb_eq, Z.eqb_neq.
  split.
  - intros ((i & Hi & Hpe & He) & Hen). exists i. rewrite He. tauto.
  - intros (i & Hi & (Hpe & Hen) & He). rewrite He in Hen. split; [by exists i|tauto].
Qed.

Lemma compute_pending_takes : compute_pending_interrupts t p =
  if takes MachineMode then mkPending MachineMode (pending_bits MachineMode)
  else if takes SupervisorMode then mkPending SupervisorMode (pending_bits SupervisorMode)
  else if takes UserMode then mkPending UserMode (pending_bits UserMode)
  else mkPending NoneMode 0.
Proof.
  unfold compute_pending_interrupts, takes. cbn.
  rewrite (proj2 (Z.ltb_ge p UserMode)) by (unfold UserMode; lia). cbn.
  destruct (Z.eqb_spec (Z.land (t mie) (t mip)) 0) as [->|]; [|done].
  by rewrite !Z.land_0_l.
Qed.
End selection.

(** The pending interrupt taken: [compute_pending_interrupts] reports no mode exactly
    when no enabled pending interrupt can be taken in the current mode; otherwise it
    reports the most privileged mode that has one, together with exactly the pending
    interrupts delegated to that mode. *)
Theorem interrupt_selection t p :
  0 <= t mie < 2 ^ 32 -> 0 <= p ->
  let r := compute_pending_interrupts t p in
  (target_mode r = NoneMode <-> forall i, 0 <= i -> ~ takeable t p i) /\
  (target_mode r <> NoneMode ->
     (exists i, 0 <= i /\ takeable t p i /\ irq_mode t i = target_mode r) /\
     (forall i, 0 <= i -> takeable t p i -> irq_mode t i <= target_mode r) /\
     (forall i, 0 <= i ->
        Z.testbit (pending r) i = true <-> irq_pending t i /\ irq_mode t i = target_mode r)).
Proof.
  intros Hmie Hp r. unfold r. rewrite compute_pending_takes by done.
  pose proof (takes_spec t p Hmie) as Ht. pose proof (pending_bits_spec t Hmie) as Hb.
  assert (forall m, valid_mode m -> takes t p m = false ->
    forall i, 0 <= i -> takeable t p i -> irq_mode t i <> m) as Hno.
  { intros m Hm Hf i Hi Hta Heq. assert (takes t p m = true) by (apply Ht; eauto). congruence. }
  assert (forall i, valid_mode (irq_mode t i)) as Hval.
  { intros i. unfold irq_mode, valid_mode.
    destruct (negb (Z.testbit (t mideleg) i)), (negb (Z.testbit (t sideleg) i)); tauto. }
  assert (valid_mode MachineMode /\ valid_mode SupervisorMode /\ valid_mode UserMode)
    as (HM & HS & HU) by (unfold valid_mode; tauto).
  destruct (takes t p MachineMode) eqn:HtM; [|destruct (takes t p SupervisorMode) eqn:HtS;
    [|destruct (takes t p UserMode) eqn:HtU]]; cbn [target_mode pending].
  1-3: split; [split; [done|]; intros Hall; exfalso|intros _].
  1,3,5: match goal with H : takes _ _ ?m = true |- _ =>
      apply Ht in H as (i & Hi & Hta & _); [by apply (Hall i)|done] end.
  1-3: split; [by apply Ht|split; [|intros i Hi; by apply Hb]]; intros i Hi Hta.
  - destruct (Hval i) as [->|[->| ->]]; unfold MachineMode, SupervisorMode, UserMode; lia.
  - specialize (Hno _ HM HtM i Hi Hta).
    destruct (Hval i) as [Hv|[Hv|Hv]]; rewrite Hv in *; unfold MachineMode, SupervisorMode, UserMode in *; lia || done.
  - pose proof (Hno _ HM HtM i Hi Hta). pose proof (Hno _ HS HtS i Hi Hta).
    destruct (Hval i) as [Hv|[Hv|Hv]]; rewrite Hv in *; unfold MachineMode, SupervisorMode, UserMode in *; lia || done.
  - split; [|done]. split; [|done]. intros _ i Hi Hta.
    destruct (Hval i) as [Hv|[Hv|Hv]]; revert Hv; by eapply Hno.
Qed.

(** The order in which the privileged architecture serves simultaneous interrupts, by
    cause: external, software, timer, from the most to the least privileged. *)
Definition irq_priority : list Z := [11; 3; 7; 9; 1; 5; 8; 0; 4].

Lemma bit_field i reg : 0 <= i -> negb (get_field (mkField i 1) reg =? 0) = Z.testbit reg i.
Proof.
  intros Hi. unfold get_field. cbn. rewrite Z.land_ones by done. change (2 ^ 1) with 2.
  pose proof (Z.shiftr_spec reg i 0 (Z.le_refl 0)) as Hs. rewrite Z.add_0_l in Hs. rewrite <- Hs.
  rewrite Z.bit0_odd, Zodd_mod. pose proof (Z.mod_pos_bound (Z.shiftr reg i) 2).
  destruct (Z.eqb_spec (Z.shiftr reg i mod 2) 0), (Z.eqb_spec (Z.shiftr reg i mod 2) 1); lia || done.
Qed.

(** Among the pending interrupts of the mode, the one served is the first in the
    architecture's priority order; there is one unless no standard interrupt is pending. *)
Theorem interrupt_priority pending : select_interrupt pending = List.find (Z.testbit pending) irq_priority.
Proof.
  unfold select_interrupt, mip_meip, mip_msip, mip_mtip, mip_seip, mip_ssip, mip_stip,
    mip_ueip, mip_usip, mip_utip. rewrite !bit_field by done. reflexivity.
Qed.

(** ** Witnesses *)

#[local] Instance witness_builder : ExprBuilder := solver_builder.
#[local] Instance witness_solver : KleeSolver := search_solver [].
#[local] Instance witness_env : Env ram := ram_env.

(** User mode; environment calls are delegated to the supervisor mode, and the timer
    interrupt of the machine mode and the software interrupt of the supervisor mode are
    pending, the latter delegated. *)
Definition sample_table : csr_table :=
  csr_set medeleg 0x100 (csr_set mideleg 0x2 (csr_set stvec 0x80002000
    (csr_set mie 0x82 (csr_set mip 0x82 csr_table_init)))).
Definition sample_user : ISS :=
  set_prv UserMode (set_last_pc 0x1000 (set_pc 0x1004 (set_csrs sample_table (ISS_new 0 false)))).

Lemma trap_roundtrip_witness :
  exists w1, take_trap EXC_ECALL_U_MODE 0x1000 (mkWorld sample_user Trace_new (mkRam mem_empty)) =
      (Ok SupervisorMode, w1) /\
    in_handler SupervisorMode EXC_ECALL_U_MODE 0x1000 sample_user (iss w1).
Proof.
  destruct (trap_roundtrip (E := ram) (mkWorld sample_user Trace_new (mkRam mem_empty))
    EXC_ECALL_U_MODE 0x1000) as (w1 & w2 & H1 & H2 & _).
  - right. right. reflexivity.
  - unfold EXC_ECALL_U_MODE. lia.
  - lia.
  - exists w1. split; [exact H1|exact H2].
Defined.

Lemma interrupt_selection_witness :
  compute_pending_interrupts sample_table UserMode = mkPending MachineMode 0x80 /\
  (forall i, 0 <= i -> takeable sample_table UserMode i -> irq_mode sample_table i <= MachineMode).
Proof.
  split; [vm_compute; reflexivity|].
  apply (interrupt_selection sample_table UserMode); [|vm_compute; discriminate|vm_compute; discriminate].
  vm_compute. split; [discriminate|reflexivity].
Defined.
