(* ===== verification/IssExec.v ===== *)
(** Instruction execution (core/rv32/iss.cpp, [ISS::exec_step] and its helpers in iss.h):
    fetch, decode, the effect of each opcode, the taking of interrupts and traps, and the
    loop of the simulator.  An opcode of the [switch] is a case of [execute]; opcodes that
    share a shape share a definition. *)
From stdpp Require Import pretty.
From S2P Require Import Prelude Bits Instr Decode Compressed Csr APInt KExpr KBuilder Concolic.
From S2P Require Import PathTrace Iss IssTrap.

(** [instr_cycles], in nanoseconds. *)
Definition memory_access_cycles : Z := 4 * cycle_time.
Definition mul_div_cycles : Z := 8 * cycle_time.
Definition instr_cycles (op : Mapping) : Z :=
  match op with
  | LB | LBU | LH | LHU | LW | SB | SH | SW => memory_access_cycles
  | MUL | MULH | MULHU | MULHSU | DIV | DIVU | REM | REMU => mul_div_cycles
  | _ => cycle_time
  end.

(** [REG_MIN] *)
Definition REG_MIN : Z := - 2 ^ 31.

Section exec.
Context {E : Type} `{Env E} `{ExprBuilder} `{KleeSolver}.
(** [syscall_emulator_if], if there is one. *)
Variable sys : option (M E unit).
#[local] Open Scope sm_scope.

(** ** The macros of iss.cpp *)

Definition RD : M E Z := gets (fun s => rd (cur_instr s)).
Definition RS1 : M E ConcolicValue := gets (fun s => regs s (rs1 (cur_instr s))).
Definition RS2 : M E ConcolicValue := gets (fun s => regs s (rs2 (cur_instr s))).
(** [regs.shamt(RS2)] *)
Definition SHAMT_RS2 : M E ConcolicValue :=
  i <-- gets cur_instr ;; regs_shamt (rs2 i).

Definition PC : M E ConcolicValue := p <-- gets pc ;; BVC_word p.
Definition LAST_PC : M E ConcolicValue := p <-- gets last_pc ;; BVC_word p.
Definition I_IMM : M E ConcolicValue :=
  i <-- gets cur_instr ;; c <-- BVC_word (I_imm i) ;; sm_ret (cv_sext c 32).
Definition S_IMM : M E ConcolicValue :=
  i <-- gets cur_instr ;; c <-- BVC_word (S_imm i) ;; sm_ret (cv_sext c 32).
Definition U_IMM : M E ConcolicValue := i <-- gets cur_instr ;; BVC_word (U_imm i).
Definition SHAMT : M E ConcolicValue := i <-- gets cur_instr ;; BVC_word (shamt i).

Definition REG_UINT32_MAX : M E ConcolicValue := BVC_word (-1).
Definition REG_INT32_MIN : M E ConcolicValue := BVC_word REG_MIN.
Definition REG_ZERO : M E ConcolicValue := BVC_word 0.
Definition REG_ONE : M E ConcolicValue := BVC_word 1.

(** [regs.write(RD, v)] *)
Definition write_RD (v : ConcolicValue) : M E unit := r <-- RD ;; regs_write r v.

(** ** Branch conditions *)

(** [ISS::eval] *)
Definition iss_eval (bv : expr) : M E bool :=
  q <-- sm_gets (fun w => getQuery (tracer w) bv) ;; asserted (Solver_eval q).

(** [ISS::track_and_trace_branch] *)
Definition track_and_trace_branch (cond : bool) (e : ConcolicValue) : M E unit :=
  p <-- gets last_pc ;;
  lift_env (env_cover_branch p cond) ;;;
  match symbolic e with
  | Some s =>
      k <-- lift_env env_current_index ;;
      t <-- sm_gets (fun w => Trace_add (tracer w) cond s p (k + 1)) ;;
      t <-- asserted t ;;
      sm_modify (fun w => mkWorld (iss w) t (env w))
  | None => sm_ret tt
  end.

(** [pc = last_pc + imm] *)
Definition jump (imm : Z) : M E unit := modify (fun s => set_pc (u32 (last_pc s + imm)) s).

(** ** Instruction groups *)

Definition exec_imm (f : ConcolicValue -> ConcolicValue -> ConcolicValue) : M E unit :=
  a <-- RS1 ;; b <-- I_IMM ;; write_RD (f a b).
Definition exec_reg (f : ConcolicValue -> ConcolicValue -> ConcolicValue) : M E unit :=
  a <-- RS1 ;; b <-- RS2 ;; write_RD (f a b).
Definition exec_shift (k : Kind.arith) : M E unit :=
  a <-- RS1 ;; b <-- SHAMT_RS2 ;; write_RD (cv_arith k a b).
Definition exec_shift_imm (k : Kind.arith) : M E unit :=
  a <-- RS1 ;; b <-- SHAMT ;; write_RD (cv_arith k a b).

Definition exec_branch (k : Kind.cmp) : M E unit :=
  a <-- RS1 ;; b <-- RS2 ;;
  let res := cv_cmp k a b in
  cond <-- iss_eval (concrete res) ;;
  i <-- gets cur_instr ;;
  sm_when cond (jump (B_imm i) ;;; trap_check_pc_alignment) ;;;
  track_and_trace_branch cond res.

Definition exec_JAL : M E unit :=
  link <-- PC ;; i <-- gets cur_instr ;;
  jump (J_imm i) ;;; trap_check_pc_alignment ;;; write_RD link.
Definition exec_JALR : M E unit :=
  link <-- PC ;; i <-- gets cur_instr ;;
  a <-- RS1 ;; rs1 <-- get_u32 a ;;
  modify (set_pc (Z.land (u32 (rs1 + I_imm i)) (u32 (Z.lnot 1)))) ;;;
  trap_check_pc_alignment ;;; write_RD link.

Definition exec_store (k : store_kind) (alignment : Z) : M E unit :=
  a <-- RS1 ;; imm <-- S_IMM ;;
  let addr := cv_arith Kind.Add a imm in
  sm_when (1 <? alignment) (trap_check_addr_alignment alignment false addr) ;;;
  v <-- RS2 ;; lift_env (env_store k addr v).
Definition exec_load (k : load_kind) (alignment : Z) : M E unit :=
  a <-- RS1 ;; imm <-- I_IMM ;;
  let addr := cv_arith Kind.Add a imm in
  sm_when (1 <? alignment) (trap_check_addr_alignment alignment true addr) ;;;
  v <-- lift_env (env_load k addr) ;; write_RD v.

Definition exec_ECALL : M E unit :=
  match sys with
  | Some execute_syscall => execute_syscall
  | None =>
      p <-- gets prv ;; lp <-- gets last_pc ;;
      switch p [
        (MachineMode, raise_trap EXC_ECALL_M_MODE lp);
        (SupervisorMode, raise_trap EXC_ECALL_S_MODE lp);
        (UserMode, raise_trap EXC_ECALL_U_MODE lp)] (sm_throw RuntimeError)
  end.

(** ** Zicsr *)

Definition exec_csr_write (value : Instruction -> M E Z) : M E unit :=
  i <-- gets cur_instr ;;
  bad <-- is_invalid_csr_access (csr i) true ;;
  if bad : bool then RAISE_ILLEGAL_INSTRUCTION
  else
    v <-- value i ;;
    sm_when (negb (rd i =? 0))
      (old <-- get_csr_value (csr i) ;; c <-- BVC_word old ;; write_RD c) ;;;
    set_csr_value (csr i) v.

(** CSRRS, CSRRC, CSRRSI and CSRRCI: [src] is the field that must not be zero for a write
    to happen. *)
Definition exec_csr_modify (src : Instruction -> Z) (value : Instruction -> M E Z)
    (f : Z -> Z -> Z) : M E unit :=
  i <-- gets cur_instr ;;
  let write := negb (src i =? 0) in
  bad <-- is_invalid_csr_access (csr i) write ;;
  if bad : bool then RAISE_ILLEGAL_INSTRUCTION
  else
    v <-- value i ;;
    old <-- get_csr_value (csr i) ;;
    sm_when (negb (rd i =? 0)) (c <-- BVC_word old ;; write_RD c) ;;;
    sm_when write (set_csr_value (csr i) (f old v)).

(** The operand of the register forms, and of the immediate forms. *)
Definition csr_reg_operand (i : Instruction) : M E Z := a <-- reg (rs1 i) ;; get_u32 a.
Definition csr_imm_operand (i : Instruction) : M E Z := sm_ret (zimm i).
Definition csr_clear (old v : Z) : Z := Z.land old (u32 (Z.lnot v)).

(** ** Multiplication and division *)

Definition exec_mul (ext1 ext2 : ConcolicValue -> Z -> ConcolicValue) (offset : Z) : M E unit :=
  REQUIRE_ISA misa_M ;;;
  a <-- RS1 ;; b <-- RS2 ;;
  let ans := cv_arith Kind.Mul (ext1 a 64) (ext2 b 64) in
  write_RD (cv_extract ans offset 32).

(** The signed forms: [k] is the operation, [by_zero] and [overflow] what they give for a
    zero divisor and for the one overflowing quotient. *)
Definition exec_div_signed (k : Kind.arith)
    (by_zero overflow : ConcolicValue -> M E ConcolicValue) : M E unit :=
  REQUIRE_ISA misa_M ;;;
  a <-- RS1 ;; b <-- RS2 ;;
  zero <-- REG_ZERO ;; min <-- REG_INT32_MIN ;; max <-- REG_UINT32_MAX ;;
  let expr_zero := cv_cmp Kind.Eq b zero in
  let expr_min_rs2_m := cv_arith Kind.And (cv_cmp Kind.Eq a min) (cv_cmp Kind.Eq b max) in
  cond_is_rs2_zero <-- iss_eval (concrete expr_zero) ;;
  (if cond_is_rs2_zero : bool then r <-- by_zero a ;; write_RD r
   else r <-- overflow a ;; write_RD (cv_select expr_min_rs2_m r (cv_arith k a b))) ;;;
  track_and_trace_branch cond_is_rs2_zero expr_zero.

Definition exec_div_unsigned (k : Kind.arith) (by_zero : ConcolicValue -> M E ConcolicValue) :
    M E unit :=
  REQUIRE_ISA misa_M ;;;
  a <-- RS1 ;; b <-- RS2 ;;
  zero <-- REG_ZERO ;;
  let expr_zero := cv_cmp Kind.Eq b zero in
  cond_is_rs2_zero <-- iss_eval (concrete expr_zero) ;;
  (if cond_is_rs2_zero : bool then r <-- by_zero a ;; write_RD r
   else write_RD (cv_arith k a b)) ;;;
  track_and_trace_branch cond_is_rs2_zero expr_zero.

(** ** Atomics *)

Definition exec_LR_W : M E unit :=
  REQUIRE_ISA misa_A ;;;
  addr <-- RS1 ;;
  trap_check_addr_alignment 4 true addr ;;;
  v <-- lift_env (env_atomic_load_reserved_word addr) ;; write_RD v ;;;
  modify (fun s => if lr_sc_counter s =? 0 then set_lr_sc_counter 17 s else s).

Definition exec_SC_W : M E unit :=
  REQUIRE_ISA misa_A ;;;
  addr <-- RS1 ;;
  trap_check_addr_alignment 4 false addr ;;;
  val <-- RS2 ;;
  one <-- REG_ONE ;; write_RD one ;;;
  ok <-- lift_env (env_atomic_store_conditional_word addr val) ;;
  r <-- (if ok : bool then REG_ZERO else REG_ONE) ;; write_RD r ;;;
  modify (set_lr_sc_counter 0).

Definition execute_amo (operation : ConcolicValue -> ConcolicValue -> ConcolicValue) : M E unit :=
  REQUIRE_ISA misa_A ;;;
  addr <-- RS1 ;;
  trap_check_addr_alignment 4 false addr ;;;
  data <-- sm_catch (lift_env (env_atomic_load_word addr)) (fun e =>
    match e with
    | SimulationTrap reason value =>
        sm_throw (SimulationTrap
          (if reason =? EXC_LOAD_ACCESS_FAULT then EXC_STORE_AMO_ACCESS_FAULT else reason) value)
    | _ => sm_throw e
    end) ;;
  b <-- RS2 ;;
  lift_env (env_atomic_store_word addr (operation data b)) ;;;
  write_RD data.

Definition amo_select (k : Kind.cmp) (min : bool) (a b : ConcolicValue) : ConcolicValue :=
  if min then cv_select (cv_cmp k a b) b a else cv_select (cv_cmp k a b) a b.

(** ** System instructions *)

Definition exec_WFI : M E unit :=
  release_lr_sc_reservation ;;;
  t <-- gets csrs ;; p <-- gets prv ;;
  sm_when ((p =? SupervisorMode) && negb (get_field mstatus_tw (t mstatus) =? 0))
    RAISE_ILLEGAL_INSTRUCTION ;;;
  sm_when ((p =? UserMode) && has_supervisor_mode_extension t) RAISE_ILLEGAL_INSTRUCTION ;;;
  t <-- gets csrs ;; ign <-- gets ignore_wfi ;;
  sm_when (negb ign && negb (has_local_pending_enabled_interrupts t)) (lift_env env_wait_wfi).

(** ** The switch of [exec_step] *)

Definition execute (op : Mapping) : M E unit :=
  match op with
  | UNDEF => RAISE_ILLEGAL_INSTRUCTION
  | ADDI => exec_imm (cv_arith Kind.Add)
  | SLTI => exec_imm (cv_cmp Kind.Slt)
  | SLTIU => exec_imm (cv_cmp Kind.Ult)
  | XORI => exec_imm (cv_arith Kind.Xor)
  | ORI => exec_imm (cv_arith Kind.Or)
  | ANDI => exec_imm (cv_arith Kind.And)
  | ADD => exec_reg (cv_arith Kind.Add)
  | SUB => exec_reg (cv_arith Kind.Sub)
  | SLL => exec_shift Kind.Shl
  | SLT => exec_reg (cv_cmp Kind.Slt)
  | SLTU => exec_reg (cv_cmp Kind.Ult)
  | SRL => exec_shift Kind.LShr
  | SRA => exec_shift Kind.AShr
  | XOR => exec_reg (cv_arith Kind.Xor)
  | OR => exec_reg (cv_arith Kind.Or)
  | AND => exec_reg (cv_arith Kind.And)
  | SLLI => exec_shift_imm Kind.Shl
  | SRLI => exec_shift_imm Kind.LShr
  | SRAI => exec_shift_imm Kind.AShr
  | LUI => imm <-- U_IMM ;; write_RD imm
  | AUIPC => p <-- LAST_PC ;; imm <-- U_IMM ;; write_RD (cv_arith Kind.Add p imm)
  | JAL => exec_JAL
  | JALR => exec_JALR
  | SB => exec_store store_byte_ 1
  | SH => exec_store store_half_ 2
  | SW => exec_store store_word_ 4
  | LB => exec_load load_byte_ 1
  | LH => exec_load load_half_ 2
  | LW => exec_load load_word_ 4
  | LBU => exec_load load_ubyte_ 1
  | LHU => exec_load load_uhalf_ 2
  | BEQ => exec_branch Kind.Eq
  | BNE => exec_branch Kind.Ne
  | BLT => exec_branch Kind.Slt
  | BGE => exec_branch Kind.Sge
  | BLTU => exec_branch Kind.Ult
  | BGEU => exec_branch Kind.Uge
  | FENCE | FENCE_I => sm_ret tt
  | ECALL => exec_ECALL
  | EBREAK => modify (set_status HitBreakpoint)
  | CSRRW => exec_csr_write csr_reg_operand
  | CSRRS => exec_csr_modify rs1 csr_reg_operand Z.lor
  | CSRRC => exec_csr_modify rs1 csr_reg_operand csr_clear
  | CSRRWI => exec_csr_write csr_imm_operand
  | CSRRSI => exec_csr_modify zimm csr_imm_operand Z.lor
  | CSRRCI => exec_csr_modify zimm csr_imm_operand csr_clear
  | MUL => exec_mul cv_sext cv_sext 0
  | MULH => exec_mul cv_sext cv_sext 32
  | MULHU => exec_mul cv_zext cv_zext 32
  | MULHSU => exec_mul cv_sext cv_zext 32
  | DIV => exec_div_signed Kind.SDiv (fun _ => REG_UINT32_MAX) sm_ret
  | DIVU => exec_div_unsigned Kind.UDiv (fun _ => REG_UINT32_MAX)
  | REM => exec_div_signed Kind.SRem sm_ret (fun _ => REG_ZERO)
  | REMU => exec_div_unsigned Kind.URem sm_ret
  | LR_W => exec_LR_W
  | SC_W => exec_SC_W
  | AMOSWAP_W => execute_amo (fun _ b => b)
  | AMOADD_W => execute_amo (cv_arith Kind.Add)
  | AMOXOR_W => execute_amo (cv_arith Kind.Xor)
  | AMOAND_W => execute_amo (cv_arith Kind.And)
  | AMOOR_W => execute_amo (cv_arith Kind.Or)
  | AMOMIN_W => execute_amo (amo_select Kind.Sge true)
  | AMOMINU_W => execute_amo (amo_select Kind.Uge true)
  | AMOMAX_W => execute_amo (amo_select Kind.Sge false)
  | AMOMAXU_W => execute_amo (amo_select Kind.Uge false)
  | WFI => exec_WFI
  | MRET => return_from_trap_handler MachineMode
  | _ => sm_throw RuntimeError
  end.

(** The fetch at the start of [exec_step]. *)
Definition fetch : M E unit :=
  p <-- gets pc ;;
  sm_catch (mem_word <-- lift_env (env_load_instr p) ;; modify (set_instr (Instr mem_word)))
    (fun e => match e with
     | SimulationTrap _ _ => modify (set_op UNDEF) ;;; modify (set_instr (Instr 0)) ;;; sm_throw e
     | _ => sm_throw e
     end).

Definition decode : M E unit :=
  i <-- gets cur_instr ;;
  if is_compressed i then
    match decode_and_expand_compressed i RV32 with
    | None => sm_throw RuntimeError
    | Some (o, i') =>
        modify (fun s => set_op o (set_instr i' s)) ;;;
        modify (fun s => set_pc (u32 (pc s + 2)) s) ;;;
        sm_when (negb (bool_decide (o = UNDEF))) (REQUIRE_ISA misa_C)
    end
  else
    modify (set_op (decode_normal RV32 i)) ;;;
    modify (fun s => set_pc (u32 (pc s + 4)) s).

Definition exec_step : M E unit :=
  p <-- gets pc ;; t <-- gets csrs ;;
  assert_ (Z.land p (u32 (Z.lnot (pc_alignment_mask t))) =? 0) ;;;
  fetch ;;;
  decode ;;;
  lp <-- gets last_pc ;; lift_env (env_cover_instr lp) ;;;
  o <-- gets op ;; execute o.

(** ** The loop *)

Definition performance_and_sync_update (executed_op : Mapping) : M E unit :=
  modify (fun s => set_total_num_instr (u64 (total_num_instr s + 1)) s) ;;;
  t <-- gets csrs ;;
  sm_when (get_field mcountinhibit_IR (t mcountinhibit) =? 0)
    (put_csr instret (u64 (t instret + 1))) ;;;
  c <-- gets lr_sc_counter ;;
  sm_when (negb (c =? 0))
    (modify (set_lr_sc_counter (c - 1)) ;;;
     assert_ (0 <=? c - 1) ;;;
     sm_when (c - 1 =? 0) release_lr_sc_reservation) ;;;
  let new_cycles := instr_cycles executed_op in
  t <-- gets csrs ;;
  sm_when (get_field mcountinhibit_CY (t mcountinhibit) =? 0)
    (modify (fun s => set_cycle_counter (cycle_counter s + new_cycles) s)) ;;;
  lift_env (env_quantum_inc new_cycles) ;;;
  need <-- lift_env env_need_sync ;;
  sm_when need
    (c <-- gets lr_sc_counter ;; sm_when (c =? 0) (lift_env env_sync)).

(** The [try] block of [run_step] and its handler. *)
Definition step_and_trap : M E unit :=
  sm_catch
    (exec_step ;;;
     t <-- gets csrs ;; p <-- gets prv ;;
     let x := compute_pending_interrupts t p in
     sm_when (negb (target_mode x =? NoneMode))
       (prepare_interrupt x ;;; switch_to_trap_handler (target_mode x)))
    (fun e => match e with
     | SimulationTrap reason value => m <-- prepare_trap reason value ;; switch_to_trap_handler m
     | _ => sm_throw e
     end).

Definition run_step : M E unit :=
  r0 <-- regs_read 0 ;; v <-- get_u32 r0 ;; assert_ (v =? 0) ;;;
  hit <-- gets (fun s => debug_mode s && bool_decide (pc s ∈ breakpoints s)) ;;
  if hit : bool then modify (set_status HitBreakpoint)
  else
    modify (fun s => set_last_pc (pc s) s) ;;;
    step_and_trap ;;;
    zero <-- REG_ZERO ;; regs_write 0 zero ;;;
    modify (fun s => if shall_exit s then set_status Terminated s else s) ;;;
    o <-- gets op ;; performance_and_sync_update o.

(** [ISS::run], for at most so many steps: [false] when they do not suffice. *)
Fixpoint run (fuel : nat) : M E bool :=
  match fuel with
  | O => sm_ret false
  | S fuel =>
      run_step ;;;
      st <-- gets status ;;
      if bool_decide (st = Runnable) then run fuel else lift_env env_sync ;;; sm_ret true
  end.

(** ** Other operations *)

Definition init (entrypoint sp : Z) : M E unit :=
  c <-- BVC_word sp ;; regs_write 2 c ;;; modify (set_pc entrypoint).
Definition sys_exit : M E unit := modify (set_shall_exit true).
Definition sys_processed_packet : M E unit :=
  exit <-- lift_env env_processed_packet ;;
  modify (set_shall_exit exit) ;;;
  sm_when exit (k <-- lift_env env_current_length ;; lift_env (env_early_exit (k + 1))).
Definition make_symbolic (a size : Z) : M E unit :=
  saddr <-- BVC_word a ;;
  value <-- lift_env (env_get_symbolic_bytes ("memory<" +:+ pretty a +:+ ">")%string size) ;;
  lift_env (env_symbolic_store_data saddr value size).
Definition get_syscall_register_index : M E Z :=
  t <-- gets csrs ;; sm_ret (if has_E_base_isa t then 15 else 17).
Definition read_register (idx : Z) : M E Z := r <-- regs_read idx ;; get_u32 r.
Definition write_register (idx value : Z) : M E unit :=
  assert_ (value <=? 2 ^ 32 - 1) ;;; r <-- BVC_word value ;; regs_write idx r.
Definition block_on_wfi (block : bool) : M E unit := modify (set_ignore_wfi (negb block)).
Definition iss_set_status (s : CoreExecStatus) : M E unit := modify (set_status s).
Definition enable_debug : M E unit := modify (set_debug_mode true).
Definition insert_breakpoint (a : Z) : M E unit :=
  modify (fun s => set_breakpoints ({[u32 a]} ∪ breakpoints s) s).
Definition remove_breakpoint (a : Z) : M E unit :=
  modify (fun s => set_breakpoints (breakpoints s ∖ {[u32 a]}) s).
Definition get_registers : M E (list Z) :=
  rs <-- gets regs ;; asserted (mapM (fun i => getValue 32 (concrete (rs i))) (seqZ 0 32)).
End exec.
