(* ===== verification/IssSound.v ===== *)
(** Concolic soundness of the instruction set simulator: whatever instructions run, every
    register stays a concolic view of a word under the input of the run, and every path
    constraint recorded holds for that input.  Proved against the interfaces of the
    expression builder, of KLEE's solver and of the environment. *)
From S2P Require Import Prelude Bits Instr Decode Compressed Csr APInt KExpr KType KBuilder Concolic.
From S2P Require Import PathTrace Iss IssTrap IssExec KBuilderSound ConcMem Platform.

(** What a register may be given: a view of at most 32 bits. *)
Definition fits (σ : assignment) (c : ConcolicValue) : Prop :=
  exists v, ap_width v <= 32 /\ cval σ c v.
(** A view of a truth value. *)
Definition is_flag (σ : assignment) (c : ConcolicValue) : Prop := exists b, cval σ c (bool_ap b).

Section words.
Context `{Laws : BuilderLaws} (σ : assignment).

Lemma word_intro w c v : cval σ c v -> ap_width v = w -> exists x, cval σ c (AP w x).
Proof. destruct v as [w' x]. cbn. intros Hc <-. by exists x. Qed.
Lemma word_fits c : is_word σ c -> fits σ c.
Proof. intros [x Hx]. by exists (AP 32 x). Qed.
Lemma flag_fits c : is_flag σ c -> fits σ c.
Proof. intros [b Hb]. by exists (bool_ap b). Qed.

Lemma word_arith k a b : Kind.is_div k = false ->
  is_word σ a -> is_word σ b -> is_word σ (cv_arith k a b).
Proof.
  intros Hk [x Hx] [y Hy]. eapply word_intro; [apply (cv_arith_cval σ k _ _ _ _ Hx Hy)|done].
  unfold arith_ok. by rewrite Hk.
Qed.
Lemma word_cmp k a b : is_word σ a -> is_word σ b -> is_flag σ (cv_cmp k a b).
Proof. intros [x Hx] [y Hy]. eexists. exact (cv_cmp_cval σ k _ _ _ _ Hx Hy eq_refl). Qed.
Lemma word_select c a b : is_flag σ c -> is_word σ a -> is_word σ b -> is_word σ (cv_select c a b).
Proof.
  intros [f Hc] [x Hx] [y Hy]. pose proof (cv_select_cval σ _ _ _ _ _ _ Hc Hx Hy eq_refl eq_refl).
  destruct (ap_val (bool_ap f) =? 0); by eexists.
Qed.
Lemma word_sext32 c : is_word σ c -> is_word σ (cv_sext c 32).
Proof. intros [x Hx]. by eapply word_intro; [apply (cv_sext_cval σ _ _ 32 Hx)|]. Qed.
Lemma flag_and a b : is_flag σ a -> is_flag σ b -> is_flag σ (cv_arith Kind.And a b).
Proof.
  intros [x Hx] [y Hy]. exists (x && y).
  assert (bool_ap (x && y) = arith_val Kind.And (bool_ap x) (bool_ap y)) as -> by (by destruct x, y).
  by apply cv_arith_cval.
Qed.
Lemma word_shamt c : is_word σ c -> is_word σ (cv_zext (cv_extract c 0 5) 32).
Proof.
  intros [x Hx]. eexists. refine (cv_zext_cval σ _ _ 32 (cv_extract_cval σ _ _ 0 5 Hx _) _); [|done].
  by apply extract_ok_spec.
Qed.
Lemma word_mul (e1 e2 : ConcolicValue -> Z -> ConcolicValue) a b off :
  (forall c, is_word σ c -> exists x, cval σ (e1 c 64) (AP 64 x)) ->
  (forall c, is_word σ c -> exists x, cval σ (e2 c 64) (AP 64 x)) ->
  0 <= off <= 32 -> is_word σ a -> is_word σ b ->
  is_word σ (cv_extract (cv_arith Kind.Mul (e1 a 64) (e2 b 64)) off 32).
Proof.
  intros H1 H2 Hoff [x Hx]%H1 [y Hy]%H2.
  pose proof (cv_arith_cval σ Kind.Mul _ _ _ _ Hx Hy I) as Hm.
  eapply word_intro; [apply (cv_extract_cval σ _ _ off 32 Hm)|done].
  apply extract_ok_spec. cbn. lia.
Qed.
Lemma sext64 c : is_word σ c -> exists x, cval σ (cv_sext c 64) (AP 64 x).
Proof. intros [x Hx]. by eapply word_intro; [apply (cv_sext_cval σ _ _ 64 Hx)|]. Qed.
Lemma zext64 c : is_word σ c -> exists x, cval σ (cv_zext c 64) (AP 64 x).
Proof. intros [x Hx]. by eapply word_intro; [apply (cv_zext_cval σ _ _ 64 Hx)|]. Qed.

(** Division, where the divisor is not zero. *)
Lemma word_div k a b x y : ap_wf (AP 32 y) -> y <> 0 ->
  cval σ a (AP 32 x) -> cval σ b (AP 32 y) -> is_word σ (cv_arith k a b).
Proof.
  intros Hwf Hne Hx Hy. eapply word_intro; [apply (cv_arith_cval σ k _ _ _ _ Hx Hy)|done].
  unfold arith_ok. cbn. rewrite (proj2 (Z.eqb_neq y 0)) by done. by rewrite andb_false_r.
Qed.

Lemma BVC_word_spec z :
  exists c, BVC None (U32 (u32 z)) = Some c /\ symbolic c = None /\ cval σ c (AP 32 (u32 z)).
Proof. apply (BVC_concrete σ (U32 (u32 z))), int_ok_iff. cbn. apply (wrap_range 32). lia. Qed.
End words.

Create HintDb concolic discriminated.
#[export] Hint Resolve word_fits flag_fits word_cmp word_select word_sext32 flag_and word_shamt : concolic.
#[export] Hint Extern 2 (is_word _ (cv_arith _ _ _)) => apply word_arith; [reflexivity|..] : concolic.

(** * The invariant *)

Definition core_ok {E} (σ : assignment) `{EL : EnvLaws σ E} (w : World E) : Prop :=
  (forall i, is_word σ (regs (iss w) i)) /\ env_inv (env w) /\ trace_sound σ (tracer w).

Section sound.
Context {E : Type} `{Env E} `{!ExprBuilder} `{KleeSolver}.
Context (σ : assignment) `{!EnvLaws σ E} `{!BuilderLaws} `{!KleeSolverLaws}.
#[local] Open Scope sm_scope.

Local Abbreviation ok := (core_ok (E := E) σ).

(** ** Primitives *)

Lemma lift_env_yields {A} (m : EnvM E A) P :
  yields (shared_ok σ env_inv) m P -> yields ok (lift_env m) P.
Proof.
  intros Hm w [Hr Hs]. unfold lift_env.
  match goal with |- context [m ?sh] => specialize (Hm sh Hs) end.
  destruct (m _) as [[a|e] sh]; [destruct Hm as [Hm ?]; split; [|done]|]; by split.
Qed.
Lemma lift_env_keeps {A} (m : EnvM E A) :
  keeps (shared_ok σ env_inv) m -> keeps ok (lift_env m).
Proof. intros Hm. by eapply yields_keeps, lift_env_yields, keeps_yields. Qed.

Lemma modify_keeps f : (forall s, regs (f s) = regs s) -> keeps ok (modify f).
Proof. intros Hf. apply keeps_modify. intros w [Hr Hs]. split; [|done]. cbn. by rewrite Hf. Qed.
Lemma gets_keeps {A} (f : ISS -> A) : keeps ok (gets f).
Proof. apply keeps_gets. Qed.
Lemma put_csr_keeps r v : keeps ok (put_csr r v).
Proof. by apply modify_keeps. Qed.
Lemma put_csr_field_keeps r f v : keeps ok (put_csr_field r f v).
Proof. by apply modify_keeps. Qed.
Lemma get_csr_keeps r : keeps ok (get_csr r).
Proof. apply keeps_gets. Qed.
Lemma get_csr_field_keeps r f : keeps ok (get_csr_field r f).
Proof. apply keeps_gets. Qed.
Lemma asserted_keeps {A} (o : option A) : keeps ok (asserted o).
Proof. destruct o; [apply keeps_ret|apply keeps_throw]. Qed.
Lemma assert_keeps b : keeps ok (assert_ b).
Proof. destruct b; [apply keeps_ret|apply keeps_throw]. Qed.
Lemma raise_keeps {A} r v : keeps ok (raise_trap (A := A) r v).
Proof. apply keeps_throw. Qed.
Lemma illegal_keeps {A} : keeps ok (RAISE_ILLEGAL_INSTRUCTION (A := A)).
Proof. apply keeps_bind; [apply keeps_gets|intros; apply keeps_throw]. Qed.
Lemma get_u32_keeps c : keeps ok (get_u32 c).
Proof. apply asserted_keeps. Qed.

Hint Resolve gets_keeps put_csr_keeps put_csr_field_keeps get_csr_keeps get_csr_field_keeps
  asserted_keeps assert_keeps raise_keeps illegal_keeps get_u32_keeps : keeps.
Hint Extern 1 (keeps _ (modify _)) => apply modify_keeps; intros ?; reflexivity : keeps.
Hint Extern 1 (keeps _ (lift_env _)) => apply lift_env_keeps; by auto using
  env_load_instr_law, env_store_law, env_atomic_store_word_law,
  env_atomic_store_conditional_word_law, env_unlock_law, env_update_and_get_mtime_law,
  env_cover_instr_law, env_cover_branch_law, env_current_index_law, env_wait_wfi_law,
  env_quantum_inc_law, env_need_sync_law, env_sync_law : keeps.

Lemma BVC_word_yields z : yields ok (BVC_word z) (is_word σ).
Proof.
  unfold BVC_word. destruct (BVC_word_spec σ z) as (c & -> & _ & Hc).
  apply yields_ret. by eexists.
Qed.
Lemma reg_yields i : yields ok (reg i) (is_word σ).
Proof. apply yields_gets. intros w [Hr _]. apply Hr. Qed.
Lemma RS1_yields : yields ok RS1 (is_word σ).
Proof. apply yields_gets. intros w [Hr _]. apply Hr. Qed.
Lemma RS2_yields : yields ok RS2 (is_word σ).
Proof. apply yields_gets. intros w [Hr _]. apply Hr. Qed.

Lemma regs_write_keeps i c : fits σ c -> keeps ok (regs_write i c).
Proof.
  intros (v & Hw & Hc). unfold regs_write. apply keeps_bind; [auto with keeps|]. intros _.
  rewrite (cv_getWidth_spec σ c v Hc). intros w Hok. cbn [asserted]. unfold sm_bind, sm_ret.
  destruct (Z.ltb_spec (ap_width v) 32); [|destruct (Z.eqb_spec (ap_width v) 32); [|lia]].
  all: destruct Hok as [Hr Hs]; split; [|done]; intros j; cbn; destruct (j =? i); [|apply Hr].
  - eexists. apply (cv_zext_cval σ _ _ 32 Hc). lia.
  - by apply (word_intro σ 32 c v).
Qed.
Lemma write_RD_keeps c : fits σ c -> keeps ok (write_RD c).
Proof. intros Hc. apply keeps_bind; [apply keeps_gets|]. intros. by apply regs_write_keeps. Qed.

Lemma SHAMT_RS2_yields : yields ok SHAMT_RS2 (is_word σ).
Proof.
  eapply yields_bind; [apply keeps_yields, keeps_gets|]. intros i _. unfold regs_shamt.
  eapply yields_bind; [apply keeps_yields, assert_keeps|]. intros _ _.
  eapply yields_bind; [apply reg_yields|]. intros c Hc. apply yields_ret. by apply word_shamt.
Qed.
Lemma BVC_of_yields {A} (f : ISS -> A) (g : A -> Z) :
  yields ok (a <-- gets f ;; BVC_word (g a)) (is_word σ).
Proof. eapply yields_bind; [apply keeps_yields, keeps_gets|]. intros. apply BVC_word_yields. Qed.
Lemma PC_yields : yields ok PC (is_word σ).
Proof. apply (BVC_of_yields pc id). Qed.
Lemma LAST_PC_yields : yields ok LAST_PC (is_word σ).
Proof. apply (BVC_of_yields last_pc id). Qed.
Lemma U_IMM_yields : yields ok U_IMM (is_word σ).
Proof. apply BVC_of_yields. Qed.
Lemma SHAMT_yields : yields ok SHAMT (is_word σ).
Proof. apply BVC_of_yields. Qed.
Lemma sext_imm_yields (f : Instruction -> Z) :
  yields ok (i <-- gets cur_instr ;; c <-- BVC_word (f i) ;; sm_ret (cv_sext c 32)) (is_word σ).
Proof.
  eapply yields_bind; [apply keeps_yields, keeps_gets|]. intros.
  eapply yields_bind; [apply BVC_word_yields|]. intros. apply yields_ret. by apply word_sext32.
Qed.
Lemma I_IMM_yields : yields ok I_IMM (is_word σ).
Proof. apply sext_imm_yields. Qed.
Lemma S_IMM_yields : yields ok S_IMM (is_word σ).
Proof. apply sext_imm_yields. Qed.

Lemma load_yields k a : is_word σ a -> yields ok (lift_env (env_load k a)) (is_word σ).
Proof. intros. by apply lift_env_yields, env_load_law. Qed.
Lemma atomic_load_yields a : is_word σ a -> yields ok (lift_env (env_atomic_load_word a)) (is_word σ).
Proof. intros. by apply lift_env_yields, env_atomic_load_word_law. Qed.
Lemma load_reserved_yields a :
  is_word σ a -> yields ok (lift_env (env_atomic_load_reserved_word a)) (is_word σ).
Proof. intros. by apply lift_env_yields, env_atomic_load_reserved_word_law. Qed.

Hint Resolve BVC_word_yields reg_yields RS1_yields RS2_yields SHAMT_RS2_yields PC_yields
  LAST_PC_yields U_IMM_yields SHAMT_yields I_IMM_yields S_IMM_yields load_yields
  atomic_load_yields load_reserved_yields word_arith : yields.
Hint Extern 1 (keeps _ (write_RD _)) => apply write_RD_keeps; solve [eauto with concolic] : keeps.
Hint Extern 1 (keeps _ (regs_write _ _)) => apply regs_write_keeps; solve [eauto with concolic] : keeps.

(** ** Branches *)

Lemma flag_constant c b : cval σ c (bool_ap b) -> concrete c = EConstant (bool_ap b).
Proof. by intros [? _]. Qed.

(** The concrete condition decides. *)
Lemma iss_eval_yields c b : cval σ c (bool_ap b) -> yields ok (iss_eval (concrete c)) (eq b).
Proof.
  intros Hc. unfold iss_eval. rewrite (flag_constant c b Hc).
  intros w Hok. unfold sm_bind, sm_gets, getQuery, Solver_eval. cbn [q_expr].
  rewrite simplifyExpr_const_law. cbn. split; [done|]. by destruct b.
Qed.

(** The direction taken is a constraint the input meets. *)
Lemma track_and_trace_branch_keeps c b :
  cval σ c (bool_ap b) -> keeps ok (track_and_trace_branch b c).
Proof.
  intros Hc. unfold track_and_trace_branch. keeps_step; [auto with keeps|].
  keeps_step; [auto with keeps|]. destruct (symbolic c) as [s|] eqn:Hs; [|apply keeps_ret].
  keeps_step; [auto with keeps|]. intros w Hok. pose proof Hok as [Hr (Hi & Ht & Hcs)].
  assert (holds σ (branch_cond s b)) as Hs'.
  { pose proof (holds_cond σ s b b) as H'. rewrite eqb_reflx in H'. apply H'. by apply Hc. }
  unfold sm_bind, sm_gets. cbn.
  match goal with |- context [Trace_add ?t ?c ?e ?p ?k] =>
    destruct (Trace_add t c e p k) as [t'|] eqn:Ha end; [|exact Hok].
  split; [done|]. split; [done|]. split; cbn.
  - eapply Trace_add_ok; [exact Ht| |exact Ha]. apply (boolean_well_typed σ). exists b. by apply Hc.
  - apply Trace_add_tree in Ha as (_ & _ & _ & Ha).
    destruct (addConstraint_asserts σ (cs (tracer w)) (branch_cond s b)) as (cs' & Ha' & Hcs');
      [by eapply holds_well_typed|by constructor|]. cbn in Ha. congruence.
Qed.

(** ** Control and status registers, traps *)

Lemma keeps_switch {A} v (cases : list (Z * M E A)) dflt :
  Forall (fun c => keeps ok c.2) cases -> keeps ok dflt -> keeps ok (switch v cases dflt).
Proof.
  intros Hc Hd. induction Hc as [|[c m] cases Hm _ IH]; [done|]. cbn. by destruct (v =? c).
Qed.

Lemma Forall_labels {A} (l : list Z) (m : M E A) (rest : list (Z * M E A)) :
  keeps ok m -> Forall (fun c => keeps ok c.2) rest ->
  Forall (fun c => keeps ok c.2) (labels l m ++ rest).
Proof. intros Hm Hr. apply Forall_app_2; [|done]. induction l; constructor; done. Qed.
Lemma Forall_labels_end {A} (l : list Z) (m : M E A) :
  keeps ok m -> Forall (fun c => keeps ok c.2) (labels l m).
Proof. intros Hm. induction l; constructor; done. Qed.

Ltac cases_solve :=
  repeat first
    [ apply Forall_labels; [|cbn [app]] | apply Forall_labels_end | apply Forall_cons; split; [cbn [snd]|]
    | apply Forall_nil_2 ]; try keeps_solve.

Lemma require_isa_keeps x : keeps ok (REQUIRE_ISA x).
Proof. unfold REQUIRE_ISA. keeps_solve. Qed.
Lemma release_keeps : keeps ok release_lr_sc_reservation.
Proof. unfold release_lr_sc_reservation. keeps_solve. Qed.
Lemma csr_access_keeps a b : keeps ok (is_invalid_csr_access a b).
Proof. unfold is_invalid_csr_access. keeps_solve; apply require_isa_keeps. Qed.
Lemma read_masked_keeps r m : keeps ok (read_masked r m).
Proof. apply keeps_gets. Qed.
Lemma write_masked_keeps r m v : keeps ok (write_masked r m v).
Proof. by apply modify_keeps. Qed.
Lemma get_csr_default_keeps a : keeps ok (get_csr_default a).
Proof. unfold get_csr_default. keeps_solve. Qed.
Lemma set_csr_default_keeps a v : keeps ok (set_csr_default a v).
Proof. unfold set_csr_default. keeps_solve. Qed.
Lemma write_epc_keeps r v : keeps ok (write_epc r v).
Proof. unfold write_epc. keeps_solve. by apply write_masked_keeps. Qed.
Hint Resolve require_isa_keeps release_keeps csr_access_keeps read_masked_keeps
  write_masked_keeps get_csr_default_keeps set_csr_default_keeps write_epc_keeps : keeps.

Lemma get_csr_value_keeps a : keeps ok (get_csr_value a).
Proof.
  unfold get_csr_value. apply keeps_bind.
  - unfold validate_csr_counter_read_access_rights. keeps_solve.
  - intros _. apply keeps_switch; [|keeps_solve].
    unfold read_time, read_cycle, read_instret, compute_and_get_current_cycles. cases_solve.
Qed.
Lemma set_csr_value_keeps a v : keeps ok (set_csr_value a v).
Proof. apply keeps_switch; [|keeps_solve]. cases_solve. Qed.

Lemma switch_to_trap_handler_keeps m : keeps ok (switch_to_trap_handler m).
Proof.
  unfold switch_to_trap_handler, enter_handler. do 5 (keeps_step; [keeps_solve|]).
  apply keeps_switch; [|keeps_solve]. cases_solve.
Qed.
Lemma return_from_trap_handler_keeps m : keeps ok (return_from_trap_handler m).
Proof.
  unfold return_from_trap_handler. keeps_step; [keeps_solve|].
  apply keeps_switch; [|keeps_solve]. cases_solve.
Qed.
Lemma prepare_trap_keeps r v : keeps ok (prepare_trap r v).
Proof. unfold prepare_trap, record_trap, lexical_cast_u32. keeps_solve. Qed.
Lemma prepare_interrupt_keeps e : keeps ok (prepare_interrupt e).
Proof.
  unfold prepare_interrupt. destruct (select_interrupt _); [|keeps_solve].
  apply keeps_switch; [|keeps_solve]. cases_solve.
Qed.
Lemma pc_alignment_keeps : keeps ok trap_check_pc_alignment.
Proof. unfold trap_check_pc_alignment. keeps_solve. Qed.
Lemma addr_alignment_keeps n l a : keeps ok (trap_check_addr_alignment n l a).
Proof. unfold trap_check_addr_alignment. keeps_solve. Qed.
Lemma jump_keeps i : keeps ok (jump i).
Proof. by apply modify_keeps. Qed.
Hint Resolve get_csr_value_keeps set_csr_value_keeps switch_to_trap_handler_keeps
  return_from_trap_handler_keeps prepare_trap_keeps prepare_interrupt_keeps
  pc_alignment_keeps addr_alignment_keeps jump_keeps : keeps.

(** ** Instructions *)

Lemma exec_imm_keeps f :
  (forall a b, is_word σ a -> is_word σ b -> fits σ (f a b)) -> keeps ok (exec_imm f).
Proof. intros Hf. unfold exec_imm. do 2 keeps_step. apply write_RD_keeps. auto. Qed.
Lemma exec_reg_keeps f :
  (forall a b, is_word σ a -> is_word σ b -> fits σ (f a b)) -> keeps ok (exec_reg f).
Proof. intros Hf. unfold exec_reg. do 2 keeps_step. apply write_RD_keeps. auto. Qed.
Lemma exec_shift_keeps k : Kind.is_div k = false -> keeps ok (exec_shift k).
Proof. intros Hk. unfold exec_shift. do 2 keeps_step. apply write_RD_keeps, word_fits. by apply word_arith. Qed.
Lemma exec_shift_imm_keeps k : Kind.is_div k = false -> keeps ok (exec_shift_imm k).
Proof. intros Hk. unfold exec_shift_imm. do 2 keeps_step. apply write_RD_keeps, word_fits. by apply word_arith. Qed.

Lemma exec_branch_keeps k : keeps ok (exec_branch k).
Proof.
  unfold exec_branch. do 2 keeps_step. cbv zeta.
  destruct (word_cmp σ k a a0) as [b Hb]; [done..|].
  eapply keeps_bind_yields; [by apply iss_eval_yields|]. intros ? <-.
  keeps_step; [keeps_solve|]. keeps_step; [keeps_solve|]. by apply track_and_trace_branch_keeps.
Qed.

Lemma exec_store_keeps k n : keeps ok (exec_store k n).
Proof.
  unfold exec_store. do 2 keeps_step. keeps_step; [keeps_solve|]. keeps_step.
  apply lift_env_keeps, env_store_law; [|done]. by apply word_arith.
Qed.
Lemma exec_load_keeps k n : keeps ok (exec_load k n).
Proof.
  unfold exec_load. do 2 keeps_step. keeps_step; [keeps_solve|].
  eapply keeps_bind_yields; [apply load_yields; by apply word_arith|]. intros. keeps_solve.
Qed.

Lemma operand_keeps i : keeps ok (csr_reg_operand i) /\ keeps ok (csr_imm_operand i).
Proof. unfold csr_reg_operand, csr_imm_operand. split; keeps_solve. Qed.
Lemma exec_csr_write_keeps v : (forall i, keeps ok (v i)) -> keeps ok (exec_csr_write v).
Proof. intros Hv. unfold exec_csr_write. keeps_solve. Qed.
Lemma exec_csr_modify_keeps src v f : (forall i, keeps ok (v i)) -> keeps ok (exec_csr_modify src v f).
Proof. intros Hv. unfold exec_csr_modify. keeps_solve. Qed.

Lemma exec_mul_keeps (e1 e2 : ConcolicValue -> Z -> ConcolicValue) off :
  (forall c, is_word σ c -> exists x, cval σ (e1 c 64) (AP 64 x)) ->
  (forall c, is_word σ c -> exists x, cval σ (e2 c 64) (AP 64 x)) ->
  0 <= off <= 32 -> keeps ok (exec_mul e1 e2 off).
Proof.
  intros He1 He2 Hoff. unfold exec_mul. keeps_step; [keeps_solve|]. do 2 keeps_step.
  apply write_RD_keeps, word_fits. by apply word_mul.
Qed.

(** The comparison with zero, and what the other case knows of the divisor. *)
Lemma zero_test b : is_word σ b ->
  exists y, cval σ b (AP 32 y) /\ ap_wf (AP 32 y) /\
    forall z, cval σ z (AP 32 (u32 0)) -> cval σ (cv_cmp Kind.Eq b z) (bool_ap (y =? 0)).
Proof.
  intros [y Hy]. exists y. split; [done|]. split; [by eapply cval_wf|]. intros z Hz.
  exact (cv_cmp_cval σ Kind.Eq b z _ _ Hy Hz eq_refl).
Qed.
Lemma REG_yields z : yields ok (BVC_word z) (fun c => cval σ c (AP 32 (u32 z))).
Proof.
  unfold BVC_word. destruct (BVC_word_spec σ z) as (c & -> & _ & Hc). by apply yields_ret.
Qed.

Lemma exec_div_signed_keeps k by_zero overflow :
  (forall a, is_word σ a -> yields ok (by_zero a) (is_word σ)) ->
  (forall a, is_word σ a -> yields ok (overflow a) (is_word σ)) ->
  keeps ok (exec_div_signed k by_zero overflow).
Proof.
  intros Hz Ho. unfold exec_div_signed. apply keeps_bind; [keeps_solve|intros _].
  eapply keeps_bind_yields; [apply RS1_yields|]. intros a Ha.
  eapply keeps_bind_yields; [apply RS2_yields|]. intros b Hb.
  eapply keeps_bind_yields; [apply REG_yields|]. intros zero Hzero.
  eapply keeps_bind_yields; [apply BVC_word_yields|]. intros min Hmin.
  eapply keeps_bind_yields; [apply BVC_word_yields|]. intros max Hmax. cbv zeta.
  destruct (zero_test b Hb) as (y & Hy & Hwf & Htest). specialize (Htest zero Hzero).
  eapply keeps_bind_yields; [by apply iss_eval_yields|]. intros ? <-.
  keeps_step; [|by apply track_and_trace_branch_keeps].
  destruct (Z.eqb_spec y 0) as [|Hne].
  - eapply keeps_bind_yields; [by apply Hz|]. intros r Hr. keeps_solve.
  - eapply keeps_bind_yields; [by apply Ho|]. intros r Hr.
    apply write_RD_keeps, word_fits. destruct Ha as [x Ha].
    apply word_select; [|done|by apply (word_div σ k a b x y)].
    apply flag_and; apply word_cmp; done || by eexists.
Qed.

Lemma exec_div_unsigned_keeps k by_zero :
  (forall a, is_word σ a -> yields ok (by_zero a) (is_word σ)) ->
  keeps ok (exec_div_unsigned k by_zero).
Proof.
  intros Hz. unfold exec_div_unsigned. apply keeps_bind; [keeps_solve|intros _].
  eapply keeps_bind_yields; [apply RS1_yields|]. intros a Ha.
  eapply keeps_bind_yields; [apply RS2_yields|]. intros b Hb.
  eapply keeps_bind_yields; [apply REG_yields|]. intros zero Hzero. cbv zeta.
  destruct (zero_test b Hb) as (y & Hy & Hwf & Htest). specialize (Htest zero Hzero).
  eapply keeps_bind_yields; [by apply iss_eval_yields|]. intros ? <-.
  keeps_step; [|by apply track_and_trace_branch_keeps].
  destruct (Z.eqb_spec y 0) as [|Hne].
  - eapply keeps_bind_yields; [by apply Hz|]. intros r Hr. keeps_solve.
  - apply write_RD_keeps, word_fits. destruct Ha as [x Ha]. by apply (word_div σ k a b x y).
Qed.

Lemma execute_amo_keeps f :
  (forall a b, is_word σ a -> is_word σ b -> is_word σ (f a b)) -> keeps ok (execute_amo f).
Proof.
  intros Hf. unfold execute_amo. keeps_step; [keeps_solve|]. keeps_step. keeps_step; [keeps_solve|].
  eapply keeps_bind_yields with (P := is_word σ).
  { eapply triple_catch; [by apply atomic_load_yields|]. intros e w Hw. by destruct e. }
  intros data Hdata. keeps_step. keeps_step; [|keeps_solve].
  apply lift_env_keeps, env_atomic_store_word_law; auto.
Qed.
Lemma word_amo_select k m a b : is_word σ a -> is_word σ b -> is_word σ (amo_select k m a b).
Proof. intros. destruct m; apply word_select; auto using word_cmp. Qed.

Lemma modify_if_keeps (c : ISS -> bool) f : (forall s, regs (f s) = regs s) ->
  keeps ok (modify (fun s => if c s then f s else s)).
Proof. intros Hf. apply modify_keeps. intros s. by destruct (c s). Qed.

Lemma exec_SC_W_keeps : keeps ok exec_SC_W.
Proof.
  unfold exec_SC_W. keeps_step; [keeps_solve|]. keeps_step. keeps_step; [keeps_solve|]. keeps_step.
  eapply keeps_bind_yields; [apply BVC_word_yields|]. intros one Hone. keeps_step; [keeps_solve|].
  apply keeps_bind; [apply lift_env_keeps; by apply env_atomic_store_conditional_word_law|].
  intros stored. eapply keeps_bind_yields with (P := is_word σ).
  { destruct stored; apply BVC_word_yields. }
  intros r Hr. keeps_solve.
Qed.
Lemma exec_LR_W_keeps : keeps ok exec_LR_W.
Proof. unfold exec_LR_W. keeps_solve. by apply modify_if_keeps. Qed.
Lemma exec_WFI_keeps : keeps ok exec_WFI.
Proof. unfold exec_WFI. keeps_solve. Qed.

(** ** Steps *)

Context (sys : option (M E unit)).
Hypothesis sys_keeps : forall m, sys = Some m -> keeps ok m.

Lemma exec_ECALL_keeps : keeps ok (exec_ECALL sys).
Proof.
  unfold exec_ECALL. destruct sys as [m|]; [by apply sys_keeps|].
  keeps_step; [keeps_solve|]. keeps_step; [keeps_solve|].
  apply keeps_switch; [|keeps_solve]. cases_solve.
Qed.

Lemma execute_keeps op : keeps ok (execute sys op).
Proof.
  assert (forall k a b, is_word σ a -> is_word σ b -> fits σ (cv_cmp k a b)) as Hcmp
    by (intros; by apply flag_fits, word_cmp).
  assert (forall k, Kind.is_div k = false ->
    forall a b, is_word σ a -> is_word σ b -> is_word σ (cv_arith k a b)) as Har
    by (intros; by apply word_arith).
  destruct op; cbn [execute];
    lazymatch goal with
    | |- keeps _ (sm_throw _) => apply keeps_throw
    | |- keeps _ (sm_ret _) => apply keeps_ret
    | |- keeps _ (exec_imm (cv_cmp _)) => apply exec_imm_keeps, Hcmp
    | |- keeps _ (exec_reg (cv_cmp _)) => apply exec_reg_keeps, Hcmp
    | |- keeps _ (exec_imm _) => apply exec_imm_keeps; intros; by apply word_fits, Har
    | |- keeps _ (exec_reg _) => apply exec_reg_keeps; intros; by apply word_fits, Har
    | |- keeps _ (exec_shift _) => by apply exec_shift_keeps
    | |- keeps _ (exec_shift_imm _) => by apply exec_shift_imm_keeps
    | |- keeps _ (exec_branch _) => apply exec_branch_keeps
    | |- keeps _ (exec_store _ _) => apply exec_store_keeps
    | |- keeps _ (exec_load _ _) => apply exec_load_keeps
    | |- keeps _ (exec_ECALL _) => apply exec_ECALL_keeps
    | |- keeps _ (exec_csr_write _) => apply exec_csr_write_keeps, operand_keeps
    | |- keeps _ (exec_csr_modify _ _ _) => apply exec_csr_modify_keeps, operand_keeps
    | |- keeps _ (exec_mul _ _ _) =>
        apply exec_mul_keeps; [exact (sext64 σ) || exact (zext64 σ)..|lia]
    | |- keeps _ (exec_div_signed _ _ _) =>
        apply exec_div_signed_keeps; intros; [apply BVC_word_yields || by apply yields_ret..]
    | |- keeps _ (exec_div_unsigned _ _) =>
        apply exec_div_unsigned_keeps; intros; [apply BVC_word_yields || by apply yields_ret..]
    | |- keeps _ (execute_amo (amo_select _ _)) => apply execute_amo_keeps, word_amo_select
    | |- keeps _ (execute_amo (cv_arith _)) => by apply execute_amo_keeps, Har
    | |- keeps _ (execute_amo _) => by apply execute_amo_keeps
    | |- keeps _ exec_LR_W => apply exec_LR_W_keeps
    | |- keeps _ exec_SC_W => apply exec_SC_W_keeps
    | |- keeps _ exec_WFI => apply exec_WFI_keeps
    | |- keeps _ (return_from_trap_handler _) => apply return_from_trap_handler_keeps
    | _ => unfold exec_JAL, exec_JALR; keeps_solve
    end.
Qed.

Lemma exec_step_keeps : keeps ok (exec_step sys).
Proof.
  unfold exec_step. do 3 (keeps_step; [keeps_solve|]).
  keeps_step; [unfold fetch; keeps_solve|].
  keeps_step; [unfold decode; keeps_solve|].
  do 3 (keeps_step; [keeps_solve|]). apply execute_keeps.
Qed.

Lemma step_and_trap_keeps : keeps ok (step_and_trap sys).
Proof.
  unfold step_and_trap. keeps_step; [keeps_step; [apply exec_step_keeps|keeps_solve]|keeps_solve].
Qed.

Lemma performance_keeps o : keeps ok (performance_and_sync_update o).
Proof. unfold performance_and_sync_update. keeps_solve. Qed.

Lemma regs_read_keeps i : keeps ok (regs_read i).
Proof. unfold regs_read. destruct (31 <? i); [apply keeps_throw|apply keeps_gets]. Qed.

Lemma run_step_keeps : keeps ok (run_step sys).
Proof.
  unfold run_step. apply keeps_bind; [apply regs_read_keeps|intros r0]. do 2 (keeps_step; [keeps_solve|]).
  keeps_step; [keeps_solve|]. destruct a1; [keeps_solve|].
  keeps_step; [keeps_solve|]. keeps_step; [apply step_and_trap_keeps|].
  eapply keeps_bind_yields; [apply BVC_word_yields|]. intros zero Hz. keeps_step; [keeps_solve|].
  keeps_step; [by apply modify_if_keeps|]. keeps_step; [keeps_solve|]. apply performance_keeps.
Qed.

Lemma run_keeps fuel : keeps ok (run sys fuel).
Proof.
  induction fuel as [|fuel IH]; [apply keeps_ret|]. cbn [run].
  keeps_step; [apply run_step_keeps|]. keeps_step; [keeps_solve|].
  case_bool_decide; [done|]. keeps_solve.
Qed.
End sound.

(** * The properties *)

(** C1 Concolic execution is sound: along any run of the simulator, whatever program it
    executes and however the run ends, the concrete part of every register is a constant
    and its symbolic part, if any, evaluates to it under the input of the run; and every
    path constraint recorded holds for that input, so the trace describes the path that
    was executed. *)
Theorem concolic_run_sound {E} `{EL : EnvLaws σ E} `{BL : BuilderLaws} `{KL : KleeSolverLaws} sys fuel (w : World E) :
  (forall m, sys = Some m -> keeps (core_ok σ) m) -> core_ok σ w ->
  let w' := (run sys fuel w).2 in
  core_ok σ w' /\
  (forall i s, symbolic (regs (iss w') i) = Some s ->
     exists x, concrete (regs (iss w') i) = EConstant (AP 32 x) /\ eval σ s = Some (AP 32 x)) /\
  Forall (holds σ) (cs (tracer w')).
Proof.
  intros Hsys Hw w'. pose proof (run_keeps σ sys Hsys fuel w Hw) as Hrun.
  assert (core_ok σ w') as Hok by (unfold w'; destruct (run sys fuel w) as [[?|?] ?]; exact Hrun).
  split; [done|]. destruct Hok as (Hregs & _ & _ & Hcs). split; [|exact Hcs].
  intros i s Hs. destruct (Hregs i) as (x & Hc & _ & Hx). exists x. auto.
Qed.

(** ** Witnesses: a program that branches on a symbolic register *)

#[local] Instance witness_builder : ExprBuilder := solver_builder.
#[local] Instance witness_solver : KleeSolver := search_solver [].
#[local] Instance witness_env : Env ram := ram_env.

(** [addi a1, a0, 1; beq a1, zero, 8; nop], with a symbolic [a0]. *)
Definition sample_program : list Z :=
  [data (IF.ADDI 11 10 1); data (IF.BEQ 11 0 8); data (IF.ADDI 0 0 0)].
Definition sample_core : ISS :=
  set_pc 0x1000 (set_regs (fun i => if i =? 10 then sample_symbolic else zero_word) (ISS_new 0 false)).
Definition sample_world : World ram :=
  mkWorld sample_core Trace_new (mkRam (load_program 0x1000 sample_program mem_empty)).

Lemma sample_world_ok :
  core_ok (EL := ram_env_laws sample_input (Laws := solver_builder_laws))
    sample_input sample_world.
Proof.
  split.
  - intros i. cbn [sample_world sample_core iss set_pc set_regs regs].
    destruct (i =? 10); eexists; [apply sample_symbolic_cval|].
    apply (sample_concrete_cval 32 0). vm_compute. exact I.
  - split; [apply (load_program_ok (Laws := solver_builder_laws)), empty_ram_ok|].
    split; [apply Trace_new_ok|constructor].
Qed.

Lemma concolic_run_sound_witness :
  let w' := (run None 2 sample_world).2 in
  length (cs (tracer w')) = 1%nat /\ Forall (holds sample_input) (cs (tracer w')).
Proof.
  split; [vm_compute; reflexivity|].
  refine (proj2 (proj2 (concolic_run_sound (EL := ram_env_laws sample_input (Laws := solver_builder_laws))
    (BL := solver_builder_laws) (KL := search_solver_laws []) None 2 sample_world _ sample_world_ok))).
  discriminate.
Defined.
