(* ===== verification/IssSpec.v ===== *)
(** What the instructions compute: an integer specification of the RV32IM operations, and
    the proofs that [execute] implements it on concolic registers, whatever they depend on. *)
From S2P Require Import Prelude Bits Instr Decode Compressed Csr APInt KExpr KBuilder.
From S2P Require Import KBuilderSound KType Concolic ConcMem PathTrace Iss Platform IssTrap IssExec IssSound.

(** * The specification of the arithmetic instructions

    On words as unsigned integers below [2 ^ 32]: [x] is the first operand, [y] the second,
    a register or an immediate. *)

Definition alu_ref (op : Mapping) (x y : Z) : option Z :=
  match op with
  | ADDI | ADD => Some (u32 (x + y))
  | SUB => Some (u32 (x - y))
  | SLTI | SLT => Some (if s32 x <? s32 y then 1 else 0)
  | SLTIU | SLTU => Some (if x <? y then 1 else 0)
  | XORI | XOR => Some (Z.lxor x y)
  | ORI | OR => Some (Z.lor x y)
  | ANDI | AND => Some (Z.land x y)
  | SLLI | SLL => Some (u32 (x * 2 ^ (y mod 32)))
  | SRLI | SRL => Some (x / 2 ^ (y mod 32))
  | SRAI | SRA => Some (u32 (s32 x / 2 ^ (y mod 32)))
  | MUL => Some (u32 (x * y))
  | MULH => Some (u32 (s32 x * s32 y / 2 ^ 32))
  | MULHU => Some (x * y / 2 ^ 32)
  | MULHSU => Some (u32 (s32 x * y / 2 ^ 32))
  | DIV => Some (if y =? 0 then 2 ^ 32 - 1 else u32 (Z.quot (s32 x) (s32 y)))
  | DIVU => Some (if y =? 0 then 2 ^ 32 - 1 else x / y)
  | REM => Some (if y =? 0 then x else u32 (Z.rem (s32 x) (s32 y)))
  | REMU => Some (if y =? 0 then x else x mod y)
  | _ => None
  end.

(** The second operand: an immediate, or the register value [y]. *)
Definition alu_operand (op : Mapping) (i : Instruction) (y : Z) : Z :=
  match op with
  | ADDI | SLTI | SLTIU | XORI | ORI | ANDI => u32 (I_imm i)
  | SLLI | SRLI | SRAI => shamt i
  | _ => y
  end.

Definition is_M (op : Mapping) : bool :=
  match op with MUL | MULH | MULHU | MULHSU | DIV | DIVU | REM | REMU => true | _ => false end.
Definition is_division (op : Mapping) : bool :=
  match op with DIV | DIVU | REM | REMU => true | _ => false end.

(** * Fields of an instruction word *)

Lemma field_range x u l : 0 <= l <= u -> u < 31 ->
  0 <= Z.shiftr (BIT_RANGE x u l) l < 2 ^ (u - l + 1).
Proof.
  intros Hl Hu. unfold BIT_RANGE, range_mask.
  assert (0 < 2 ^ (u - l + 1)) by (apply Z.pow_pos_nonneg; lia).
  rewrite swrap_small.
  2: done.
  2:{ rewrite !Z.shiftl_mul_pow2 by lia. rewrite Z.mul_1_l.
      assert (2 ^ (u - l + 1) * 2 ^ l = 2 ^ (u + 1)) as Hm by (rewrite <- Z.pow_add_r by lia; f_equal; lia).
      assert (2 ^ (u + 1) <= 2 ^ 31) by (apply Z.pow_le_mono_r; lia).
      assert (0 < 2 ^ l) by (apply Z.pow_pos_nonneg; lia). nia. }
  rewrite Z.shiftr_land, Z.shiftr_shiftl_l by lia. rewrite Z.sub_diag, Z.shiftl_0_r.
  rewrite Z.shiftl_mul_pow2, Z.mul_1_l by lia.
  replace (2 ^ (u - l + 1) - 1) with (Z.ones (u - l + 1)) by (rewrite Z.ones_equiv; lia).
  rewrite Z.land_ones by lia. by apply Z.mod_pos_bound.
Qed.

Lemma rd_range i : 0 <= rd i <= 31.
Proof.
  unfold rd. pose proof (field_range (instr i) 11 7 ltac:(lia) ltac:(lia)) as H. cbn in H.
  rewrite (wrap_small 32); lia.
Qed.
Lemma rs2_range i : 0 <= rs2 i <= 31.
Proof.
  unfold rs2. pose proof (field_range (instr i) 24 20 ltac:(lia) ltac:(lia)) as H. cbn in H.
  rewrite (wrap_small 32); lia.
Qed.

(** Jump offsets are even. *)
Lemma B_imm_even i : Z.testbit (B_imm i) 0 = false.
Proof. unfold B_imm, BIT_SLICE, BIT_SINGLE_PN, BIT_RANGE, BIT_SINGLE, EXTRACT_SIGN_BIT, range_mask. bit_solve. Qed.
Lemma J_imm_even i : Z.testbit (J_imm i) 0 = false.
Proof. unfold J_imm, BIT_SLICE, BIT_SINGLE_PN, BIT_RANGE, BIT_SINGLE, EXTRACT_SIGN_BIT, range_mask. bit_solve. Qed.

(** A decoded shift by an immediate has a shift amount below 32. *)
Lemma shamt_range op i : decode_normal RV32 i = op ->
  op = SLLI \/ op = SRLI \/ op = SRAI -> 0 <= shamt i < 32.
Proof.
  intros Hd Hop. destruct (decode_normal_justified RV32 i) as [Hu|(m & e & Hm & He)].
  { rewrite Hd in Hu. rewrite Hu in Hop. by destruct Hop as [|[]]. }
  rewrite Hd in Hm.
  assert (m = 0xfe00707f /\ Z.testbit e 25 = false) as [-> Hbit].
  { destruct Hop as [->|[->| ->]]; injection Hm as <- <-; done. }
  unfold shamt. pose proof (field_range (instr i) 25 20 ltac:(lia) ltac:(lia)) as H.
  change (2 ^ (25 - 20 + 1)) with 64 in H. rewrite (wrap_small 32) by lia.
  assert (Z.testbit (Z.shiftr (BIT_RANGE (instr i) 25 20) 20) 5 = false) as Hb5.
  { rewrite Z.shiftr_spec by lia. unfold BIT_RANGE. rewrite Z.land_spec.
    rewrite <- He, Z.land_spec in Hbit. unfold data in Hbit. rewrite wrap_spec in Hbit by lia.
    cbn in Hbit |- *. by rewrite andb_true_r in *. }
  set (z := Z.shiftr _ _) in *. split; [lia|].
  destruct (Z_lt_le_dec z 32); [done|exfalso].
  rewrite Z.testbit_eqb in Hb5 by lia. change (2 ^ 5) with 32 in Hb5.
  assert (z / 32 = 1) as Hz by (symmetry; apply Z.div_unique with (r := z - 32); lia).
  by rewrite Hz in Hb5.
Qed.

(** * The operations on views of words *)

Section values.
Context `{Laws : BuilderLaws} (σ : assignment).

(** [c] is a view of [x] on at most 32 bits. *)
Definition narrow (c : ConcolicValue) (x : Z) : Prop := exists w, w <= 32 /\ cval σ c (AP w x).

Lemma word_narrow c x : cval σ c (AP 32 x) -> narrow c x.
Proof. intros Hc. by exists 32. Qed.
Lemma narrow_eq c x y : narrow c x -> x = y -> narrow c y.
Proof. by intros ? <-. Qed.
Lemma word_range c x : cval σ c (AP 32 x) -> 0 <= x < 2 ^ 32.
Proof. intros Hc%cval_wf%ap_wf_iff. apply Hc. Qed.

Lemma arith_word k a b x y : Kind.is_div k = false ->
  cval σ a (AP 32 x) -> cval σ b (AP 32 y) -> cval σ (cv_arith k a b) (AP 32 (arith_spec 32 k x y)).
Proof.
  intros Hk Ha Hb. apply (cv_arith_cval σ k _ _ _ _ Ha Hb). unfold arith_ok. by rewrite Hk.
Qed.
Lemma cmp_flag k a b x y :
  cval σ a (AP 32 x) -> cval σ b (AP 32 y) ->
  cval σ (cv_cmp k a b) (bool_ap (cmp_spec 32 k x y)).
Proof. intros Ha Hb. exact (cv_cmp_cval σ k _ _ _ _ Ha Hb eq_refl). Qed.
Lemma cmp_narrow k a b x y :
  cval σ a (AP 32 x) -> cval σ b (AP 32 y) ->
  narrow (cv_cmp k a b) (if cmp_spec 32 k x y then 1 else 0).
Proof.
  intros Ha Hb. exists 1. split; [done|]. pose proof (cmp_flag k a b x y Ha Hb) as Hf.
  by destruct (cmp_spec 32 k x y).
Qed.
Lemma sext_word c x : cval σ c (AP 32 x) -> cval σ (cv_sext c 32) (AP 32 x).
Proof.
  intros Hc. pose proof (cv_sext_cval σ _ _ 32 Hc (Z.le_refl 32)) as Hs.
  unfold sext_spec in Hs. cbn in Hs. rewrite wrap_swrap, wrap_small in Hs; [done|by eapply word_range|lia].
Qed.
Lemma shamt_word c y : cval σ c (AP 32 y) -> cval σ (cv_zext (cv_extract c 0 5) 32) (AP 32 (y mod 32)).
Proof.
  intros Hc. refine (cv_zext_cval σ _ (AP 5 _) 32 _ _); [|cbn; lia].
  apply (cv_extract_cval σ _ _ 0 5 Hc). by apply extract_ok_spec.
Qed.

(** The high and low words of a 64-bit product. *)
Lemma mul_word (e1 e2 : ConcolicValue -> Z -> ConcolicValue) a b x y off :
  cval σ (e1 a 64) (AP 64 (wrap 64 x)) -> cval σ (e2 b 64) (AP 64 (wrap 64 y)) -> 0 <= off <= 32 ->
  cval σ (cv_extract (cv_arith Kind.Mul (e1 a 64) (e2 b 64)) off 32) (AP 32 (u32 (x * y / 2 ^ off))).
Proof.
  intros Ha Hb Hoff. pose proof (cv_arith_cval σ Kind.Mul _ _ _ _ Ha Hb I) as Hm.
  assert (u32 (x * y / 2 ^ off) =
    ap_val (extract_spec (arith_val Kind.Mul (AP 64 (wrap 64 x)) (AP 64 (wrap 64 y))) off 32)) as ->.
  { unfold arith_val, extract_spec. cbn [ap_val ap_width arith_spec].
    assert (wrap 64 (wrap 64 x * wrap 64 y) = wrap 64 (x * y)) as -> by (symmetry; apply Zmult_mod).
    rewrite <- Z.shiftr_div_pow2 by lia. apply Z.bits_inj'. intros i Hi.
    rewrite !wrap_spec, !Z.shiftr_spec, wrap_spec by lia.
    destruct (Z.ltb_spec i 32); [|done]. rewrite (proj2 (Z.ltb_lt _ _)) by lia. done. }
  apply (cv_extract_cval σ _ _ off 32 Hm). apply extract_ok_spec. cbn. lia.
Qed.
Lemma sext64_word a x : cval σ a (AP 32 x) -> cval σ (cv_sext a 64) (AP 64 (wrap 64 (s32 x))).
Proof. intros Ha. by apply (cv_sext_cval σ _ _ 64 Ha). Qed.
Lemma zext64_word a x : cval σ a (AP 32 x) -> cval σ (cv_zext a 64) (AP 64 (wrap 64 x)).
Proof.
  intros Ha. rewrite wrap_small; [by apply (cv_zext_cval σ _ _ 64 Ha)|].
  pose proof (word_range a x Ha). lia.
Qed.
End values.

(** * Running the pieces of an instruction *)

Section runs.
Context {E : Type} `{Env E} `{!ExprBuilder} `{!KleeSolver} `{Laws : !BuilderLaws} (σ : assignment).
#[local] Open Scope sm_scope.

(** The effect of writing [r] to register [i], and nothing else. *)
Definition register_written (i r : Z) (w w' : World E) : Prop :=
  exists rs, w' = mkWorld (set_regs rs (iss w)) (tracer w) (env w) /\
    cval σ (rs i) (AP 32 r) /\ forall j, j <> i -> rs j = regs (iss w) j.

Lemma write_RD_run c r w : narrow σ c r ->
  exists w', write_RD c w = (Ok tt, w') /\ register_written (rd (cur_instr (iss w))) r w w'.
Proof.
  intros (n & Hn & Hc). pose proof (rd_range (cur_instr (iss w))) as Hrd.
  unfold write_RD, RD, regs_write, sm_bind, gets, sm_gets, modify, sm_modify, assert_, sm_ret.
  rewrite (proj2 (Z.leb_le _ _)), (cv_getWidth_spec σ c _ Hc) by lia. cbn.
  destruct (Z.ltb_spec n 32); [|destruct (Z.eqb_spec n 32) as [->|]; [|lia]];
    (eexists; split; [reflexivity|]; eexists; split; [reflexivity|]); split;
    try (intros j Hj; cbn; by destruct (Z.eqb_spec j (rd (cur_instr (iss w))))); rewrite Z.eqb_refl.
  - by apply (cv_zext_cval σ _ _ 32 Hc).
  - done.
Qed.

Lemma BVC_word_run z (w : World E) : exists c, BVC_word z w = (Ok c, w) /\ cval σ c (AP 32 (u32 z)).
Proof. unfold BVC_word. destruct (BVC_word_spec σ z) as (c & -> & _ & Hc). by exists c. Qed.
Lemma I_IMM_run (w : World E) : exists c, I_IMM w = (Ok c, w) /\
  cval σ c (AP 32 (u32 (I_imm (cur_instr (iss w))))).
Proof.
  unfold I_IMM, sm_bind, gets, sm_gets, sm_ret.
  destruct (BVC_word_run (I_imm (cur_instr (iss w))) w) as (c & -> & Hc).
  eexists. split; [done|]. by apply sext_word.
Qed.
Lemma SHAMT_RS2_run y (w : World E) : cval σ (regs (iss w) (rs2 (cur_instr (iss w)))) (AP 32 y) ->
  exists c, SHAMT_RS2 w = (Ok c, w) /\ cval σ c (AP 32 (y mod 32)).
Proof.
  intros Hy. pose proof (rs2_range (cur_instr (iss w))).
  unfold SHAMT_RS2, regs_shamt, reg, sm_bind, gets, sm_gets, sm_ret, assert_.
  rewrite (proj2 (Z.leb_le _ _)) by lia. eexists. split; [done|]. by apply shamt_word.
Qed.
Lemma REQUIRE_ISA_run ext (w : World E) : Z.land (csrs (iss w) misa) ext <> 0 ->
  REQUIRE_ISA ext w = (Ok tt, w).
Proof.
  intros He. unfold REQUIRE_ISA, sm_bind, get_csr, gets, sm_gets.
  by rewrite (proj2 (Z.eqb_neq _ _)).
Qed.

Lemma iss_eval_run (w : World E) c b : (forall cs v, simplifyExpr cs (EConstant v) = EConstant v) ->
  cval σ c (bool_ap b) -> iss_eval (concrete c) w = (Ok b, w).
Proof.
  intros Hs Hc. unfold iss_eval. rewrite (flag_constant σ c b Hc).
  unfold sm_bind, sm_gets, getQuery, Solver_eval. cbn [q_expr]. rewrite Hs. by destruct b.
Qed.

(** ** Arithmetic instructions *)

Context (sys : option (M E unit)).

Section alu.
Context (w : World E) (x y : Z).
Local Abbreviation i := (cur_instr (iss w)).
Hypotheses (Hx : cval σ (regs (iss w) (rs1 i)) (AP 32 x)) (Hy : cval σ (regs (iss w) (rs2 i)) (AP 32 y)).

(** Runs [m], which leaves [r] in the destination register and does nothing else. *)
Definition computes (m : M E unit) (r : Z) : Prop :=
  exists w', m w = (Ok tt, w') /\ register_written (rd i) r w w'.

Lemma exec_reg_computes f r :
  (forall a b, cval σ a (AP 32 x) -> cval σ b (AP 32 y) -> narrow σ (f a b) r) ->
  computes (exec_reg f) r.
Proof. intros Hf. apply (write_RD_run (f _ _) r w). by apply Hf. Qed.
Lemma exec_imm_computes f r :
  (forall a b, cval σ a (AP 32 x) -> cval σ b (AP 32 (u32 (I_imm i))) -> narrow σ (f a b) r) ->
  computes (exec_imm f) r.
Proof.
  intros Hf. destruct (I_IMM_run w) as (c & Hrun & Hc).
  unfold computes, exec_imm, sm_bind at 1, RS1, gets, sm_gets. unfold sm_bind at 1. rewrite Hrun.
  apply (write_RD_run _ r w). by apply Hf.
Qed.
Lemma exec_shift_computes k r : Kind.is_div k = false -> arith_spec 32 k x (y mod 32) = r ->
  computes (exec_shift k) r.
Proof.
  intros Hk <-. destruct (SHAMT_RS2_run y w Hy) as (c & Hrun & Hc).
  unfold computes, exec_shift, sm_bind at 1, RS1, gets, sm_gets. unfold sm_bind at 1. rewrite Hrun.
  apply (write_RD_run _ _ w). by apply word_narrow, arith_word.
Qed.
Lemma exec_shift_imm_computes k r : Kind.is_div k = false -> 0 <= shamt i < 32 ->
  arith_spec 32 k x (shamt i mod 32) = r -> computes (exec_shift_imm k) r.
Proof.
  intros Hk Hs <-. destruct (BVC_word_run (shamt i) w) as (c & Hrun & Hc).
  unfold computes, exec_shift_imm, SHAMT, RS1, gets, sm_gets, sm_bind. rewrite Hrun.
  apply (write_RD_run _ _ w). apply word_narrow. rewrite (Z.mod_small (shamt i)) by lia.
  rewrite wrap_small in Hc by lia. by apply arith_word.
Qed.
Lemma exec_mul_computes (e1 e2 : ConcolicValue -> Z -> ConcolicValue) a b off :
  Z.land (csrs (iss w) misa) misa_M <> 0 -> 0 <= off <= 32 ->
  (forall c, cval σ c (AP 32 x) -> cval σ (e1 c 64) (AP 64 (wrap 64 a))) ->
  (forall c, cval σ c (AP 32 y) -> cval σ (e2 c 64) (AP 64 (wrap 64 b))) ->
  computes (exec_mul e1 e2 off) (u32 (a * b / 2 ^ off)).
Proof.
  intros HM Hoff He1 He2. unfold computes, exec_mul. unfold sm_bind at 1.
  rewrite (REQUIRE_ISA_run misa_M w HM).
  apply (write_RD_run _ _ w). apply word_narrow. apply mul_word; auto.
Qed.

Lemma alu_run op r : decode_normal RV32 i = op -> is_division op = false ->
  (is_M op = true -> Z.land (csrs (iss w) misa) misa_M <> 0) ->
  alu_ref op x (alu_operand op i y) = Some r -> computes (execute sys op) r.
Proof.
  intros Hdec Hdiv HM Hr. pose proof (word_range σ _ _ Hx) as Hxr. pose proof (word_range σ _ _ Hy) as Hyr.
  pose proof (shamt_range op i Hdec) as Hsh.
  assert (forall k a b x' y' r', Kind.is_div k = false -> arith_spec 32 k x' y' = r' ->
    cval σ a (AP 32 x') -> cval σ b (AP 32 y') -> narrow σ (cv_arith k a b) r') as Har
    by (intros k a b x' y' r' Hk <- Ha Hb; by apply word_narrow, arith_word).
  assert (forall k a b x' y', cval σ a (AP 32 x') -> cval σ b (AP 32 y') ->
    narrow σ (cv_cmp k a b) (if cmp_spec 32 k x' y' then 1 else 0)) as Hcmp
    by (intros; by apply cmp_narrow).
  destruct op; try discriminate; cbn [alu_ref alu_operand execute] in *; injection Hr as <-;
    lazymatch goal with
    | |- computes (exec_reg (cv_cmp _)) _ => apply exec_reg_computes; intros a b Ha Hb; exact (Hcmp _ _ _ _ _ Ha Hb)
    | |- computes (exec_imm (cv_cmp _)) _ => apply exec_imm_computes; intros a b Ha Hb; exact (Hcmp _ _ _ _ _ Ha Hb)
    | |- computes (exec_reg _) _ => apply exec_reg_computes; intros a b Ha Hb; eapply Har; [| |exact Ha|exact Hb]; reflexivity
    | |- computes (exec_imm _) _ => apply exec_imm_computes; intros a b Ha Hb; eapply Har; [| |exact Ha|exact Hb]; reflexivity
    | |- computes (exec_shift _) _ => apply exec_shift_computes; [done|]
    | |- computes (exec_shift_imm _) _ => apply exec_shift_imm_computes; [done|apply Hsh; tauto|]
    | _ => idtac
    end.
  all: try (cbn [arith_spec]; pose proof (Z.mod_pos_bound (shamt i) 32);
    pose proof (Z.mod_pos_bound y 32);
    first [rewrite Z.shiftl_mul_pow2 by lia | rewrite Z.shiftr_div_pow2 by lia]; done).
  - assert (u32 (x * y) = u32 (s32 x * s32 y / 2 ^ 0)) as ->.
    { rewrite Z.div_1_r. unfold wrap. rewrite Zmult_mod, (Zmult_mod (s32 x)).
      f_equal. f_equal; symmetry; apply (wrap_swrap 32); lia. }
    apply exec_mul_computes; [auto|lia|intros; by apply sext64_word..].
  - apply exec_mul_computes; [auto|lia|intros; by apply sext64_word..].
  - apply exec_mul_computes; [auto|lia|intros; by apply sext64_word|intros; by apply zext64_word].
  - assert (x * y / 2 ^ 32 = u32 (x * y / 2 ^ 32)) as ->.
    { symmetry. apply wrap_small. split; [apply Z.div_pos; nia|apply Z.div_lt_upper_bound; nia]. }
    apply exec_mul_computes; [auto|lia|intros; by apply zext64_word..].
Qed.

(** ** Division: also a branch on the divisor being zero *)

Hypothesis Hsimp : forall cs v, simplifyExpr cs (EConstant v) = EConstant v.

(** [r] is in the destination register; the other registers and [pc] are as before. *)
Definition has_result (r : Z) (w' : World E) : Prop :=
  cval σ (regs (iss w') (rd i)) (AP 32 r) /\
  (forall j, j <> rd i -> regs (iss w') j = regs (iss w) j) /\ pc (iss w') = pc (iss w).

Lemma track_frame b c (w0 : World E) :
  let w' := (track_and_trace_branch b c w0).2 in
  regs (iss w') = regs (iss w0) /\ pc (iss w') = pc (iss w0).
Proof.
  unfold track_and_trace_branch, sm_bind, gets, sm_gets, lift_env.
  destruct (env_cover_branch _ _ _) as [[[]|e] sh]; [|done].
  destruct (symbolic c); [|done]. destruct (env_current_index _) as [[k|err] sh2]; [|done].
  by destruct (Trace_add _ _ _ _ _).
Qed.

Lemma written_result c r b e : narrow σ c r ->
  has_result r ((write_RD c ;;; track_and_trace_branch b e) w).2.
Proof.
  intros Hc. destruct (write_RD_run c r w Hc) as (w1 & Hrun & rs & -> & Hr & Ho).
  unfold sm_bind. rewrite Hrun.
  destruct (track_frame b e (mkWorld (set_regs rs (iss w)) (tracer w) (env w))) as [Hregs Hpc].
  split; [|split]; rewrite ?Hregs, ?Hpc; done.
Qed.

Lemma exec_div_unsigned_result k by_zero zr :
  Z.land (csrs (iss w) misa) misa_M <> 0 ->
  (forall a, cval σ a (AP 32 x) -> exists c, by_zero a w = (Ok c, w) /\ cval σ c (AP 32 zr)) ->
  has_result (if y =? 0 then zr else arith_spec 32 k x y) (exec_div_unsigned k by_zero w).2.
Proof.
  intros HM Hz. destruct (BVC_word_run 0 w) as (zero & Hzrun & Hzero).
  pose proof (cmp_flag σ Kind.Eq _ _ _ _ Hy Hzero) as Hflag.
  unfold exec_div_unsigned. unfold sm_bind at 1. rewrite (REQUIRE_ISA_run misa_M w HM).
  unfold RS1, RS2, gets, sm_gets, REG_ZERO. do 3 unfold sm_bind at 1. rewrite Hzrun.
  unfold sm_bind at 1. rewrite (iss_eval_run w _ _ Hsimp Hflag). cbn [cmp_spec].
  change (u32 0) with 0. destruct (Z.eqb_spec y 0) as [|Hne].
  - destruct (Hz _ Hx) as (c & Hrun & Hc). unfold sm_bind at 2. unfold sm_bind at 1. rewrite Hrun.
    by apply written_result, word_narrow.
  - apply written_result, word_narrow. apply (cv_arith_cval σ k _ _ _ _ Hx Hy).
    unfold arith_ok. cbn. rewrite (proj2 (Z.eqb_neq y 0)) by done. by rewrite andb_false_r.
Qed.

Lemma exec_div_signed_result k by_zero overflow zr ov :
  Z.land (csrs (iss w) misa) misa_M <> 0 ->
  (forall a, cval σ a (AP 32 x) -> exists c, by_zero a w = (Ok c, w) /\ cval σ c (AP 32 zr)) ->
  (forall a, cval σ a (AP 32 x) -> exists c, overflow a w = (Ok c, w) /\ cval σ c (AP 32 ov)) ->
  has_result
    (if y =? 0 then zr
     else if (x =? u32 REG_MIN) && (y =? u32 (-1)) then ov else arith_spec 32 k x y)
    (exec_div_signed k by_zero overflow w).2.
Proof.
  intros HM Hz Hov. destruct (BVC_word_run 0 w) as (zero & Hzrun & Hzero).
  destruct (BVC_word_run REG_MIN w) as (min & Hminrun & Hmin).
  destruct (BVC_word_run (-1) w) as (max & Hmaxrun & Hmax).
  pose proof (cmp_flag σ Kind.Eq _ _ _ _ Hy Hzero) as Hflag.
  pose proof (cmp_flag σ Kind.Eq _ _ _ _ Hx Hmin) as Hfmin.
  pose proof (cmp_flag σ Kind.Eq _ _ _ _ Hy Hmax) as Hfmax.
  pose proof (cv_arith_cval σ Kind.And _ _ _ _ Hfmin Hfmax I) as Hfand.
  unfold exec_div_signed. unfold sm_bind at 1. rewrite (REQUIRE_ISA_run misa_M w HM).
  unfold RS1, RS2, gets, sm_gets, REG_ZERO, REG_INT32_MIN, REG_UINT32_MAX.
  do 3 unfold sm_bind at 1. rewrite Hzrun. unfold sm_bind at 1. rewrite Hminrun.
  unfold sm_bind at 1. rewrite Hmaxrun. cbv zeta.
  unfold sm_bind at 1. rewrite (iss_eval_run w _ _ Hsimp Hflag). cbn [cmp_spec].
  change (u32 0) with 0. destruct (Z.eqb_spec y 0) as [|Hne].
  - destruct (Hz _ Hx) as (c & Hrun & Hc). unfold sm_bind at 2. unfold sm_bind at 1. rewrite Hrun.
    by apply written_result, word_narrow.
  - destruct (Hov _ Hx) as (c & Hrun & Hc). unfold sm_bind at 2. unfold sm_bind at 1. rewrite Hrun.
    apply written_result, word_narrow.
    assert (arith_ok k (AP 32 x) (AP 32 y)) as Hok.
    { unfold arith_ok. cbn. rewrite (proj2 (Z.eqb_neq y 0)) by done. by rewrite andb_false_r. }
    pose proof (cv_arith_cval σ k _ _ _ _ Hx Hy Hok) as Hq.
    pose proof (cv_select_cval σ _ _ _ _ _ _ Hfand Hc Hq eq_refl eq_refl) as Hsel.
    cbn [cmp_spec] in Hsel.
    destruct (x =? u32 REG_MIN), (y =? u32 (-1)); exact Hsel.
Qed.

Lemma div_run op r : is_division op = true -> Z.land (csrs (iss w) misa) misa_M <> 0 ->
  alu_ref op x (alu_operand op i y) = Some r -> has_result r (execute sys op w).2.
Proof.
  intros Hdiv HM Hr.
  assert (forall a, cval σ a (AP 32 x) -> exists c, @REG_UINT32_MAX E w = (Ok c, w) /\
    cval σ c (AP 32 (2 ^ 32 - 1))) as Hmax by (intros; apply BVC_word_run).
  assert (forall a, cval σ a (AP 32 x) -> exists c, @REG_ZERO E w = (Ok c, w) /\
    cval σ c (AP 32 0)) as Hzero by (intros; apply BVC_word_run).
  assert (forall a, cval σ a (AP 32 x) -> exists c, (sm_ret a : M E _) w = (Ok c, w) /\
    cval σ c (AP 32 x)) as Hret by (intros a Ha; by exists a).
  destruct op; try discriminate; cbn [alu_ref alu_operand execute] in *; injection Hr as <-.
  - pose proof (exec_div_signed_result Kind.SDiv (fun _ => REG_UINT32_MAX) sm_ret _ _ HM Hmax Hret) as Hs. revert Hs.
    destruct (y =? 0); [done|]. destruct (Z.eqb_spec x (u32 REG_MIN)) as [->|]; [|done].
    by destruct (Z.eqb_spec y (u32 (-1))) as [->|].
  - exact (exec_div_unsigned_result Kind.UDiv (fun _ => REG_UINT32_MAX) _ HM Hmax).
  - pose proof (exec_div_signed_result Kind.SRem sm_ret (fun _ => REG_ZERO) _ _ HM Hret Hzero) as Hs. revert Hs.
    destruct (y =? 0); [done|]. destruct (Z.eqb_spec x (u32 REG_MIN)) as [->|]; [|done].
    by destruct (Z.eqb_spec y (u32 (-1))) as [->|].
  - exact (exec_div_unsigned_result Kind.URem sm_ret _ HM Hret).
Qed.
End alu.

(** ** Jumps and branches *)

(** A target the core may jump to: with compressed instructions any even address. *)
Definition target_ok (t : csr_table) (target : Z) : bool :=
  has_C_extension t || (target mod 4 =? 0).

Lemma even_land z : Z.testbit z 0 = false -> Z.land z 1 = 0.
Proof.
  intros Hz. apply Z.bits_inj'. intros j Hj. rewrite Z.land_spec, Z.bits_0.
  destruct (Z.eq_dec j 0) as [->|]; [by rewrite Hz|].
  change 1 with (Z.ones 1). rewrite Z.ones_spec_high by lia. by rewrite andb_false_r.
Qed.
Lemma even_add a b : Z.testbit a 0 = false -> Z.testbit b 0 = false -> Z.land (u32 (a + b)) 1 = 0.
Proof.
  rewrite !Z.bit0_odd. intros Ha Hb. apply even_land. rewrite wrap_spec, Z.bit0_odd by lia.
  by rewrite Z.odd_add, Ha, Hb.
Qed.

Lemma land_3 z : Z.land z 3 = z mod 4.
Proof. by apply (Z.land_ones z 2). Qed.

Lemma pc_alignment_run (w : World E) : Z.land (pc (iss w)) 1 = 0 ->
  trap_check_pc_alignment w =
    (if target_ok (csrs (iss w)) (pc (iss w)) then Ok tt
     else Err (SimulationTrap EXC_INSTR_ADDR_MISALIGNED (pc (iss w))), w).
Proof.
  intros He. unfold trap_check_pc_alignment, target_ok, sm_bind, gets, sm_gets. rewrite He, land_3.
  cbn. by destruct (has_C_extension _), (_ =? 0).
Qed.

(** The branch conditions. *)
Definition branch_ref (op : Mapping) (x y : Z) : option bool :=
  match op with
  | BEQ => Some (x =? y)
  | BNE => Some (negb (x =? y))
  | BLT => Some (s32 x <? s32 y)
  | BGE => Some (s32 y <=? s32 x)
  | BLTU => Some (x <? y)
  | BGEU => Some (y <=? x)
  | _ => None
  end.

Definition with_pc (p : Z) (w : World E) : World E := mkWorld (set_pc p (iss w)) (tracer w) (env w).

(** The comparison each branch makes. *)
Definition branch_kind (op : Mapping) : option Kind.cmp :=
  match op with
  | BEQ => Some Kind.Eq | BNE => Some Kind.Ne | BLT => Some Kind.Slt
  | BGE => Some Kind.Sge | BLTU => Some Kind.Ult | BGEU => Some Kind.Uge
  | _ => None
  end.

Lemma branch_ref_kind op x y : branch_ref op x y = (fun k => cmp_spec 32 k x y) <$> branch_kind op.
Proof. by destruct op. Qed.
Lemma execute_branch op k (w : World E) : branch_kind op = Some k ->
  execute sys op w = exec_branch k w.
Proof. by destruct op; intros [= <-]. Qed.

Lemma cmp_symbolic k a b : symbolic (cv_cmp k a b) =
  match symbolic a, symbolic b with
  | None, None => None
  | _, _ => Some (bCmp k (sym_or_conc a) (sym_or_conc b))
  end.
Proof. unfold cv_cmp, binary_operator. by destruct (symbolic a), (symbolic b). Qed.
Lemma cmp_evals σ' k l r x y : eval σ' l = Some (AP 32 x) -> eval σ' r = Some (AP 32 y) ->
  evals σ' (bCmp k l r) (cmp_spec 32 k x y).
Proof. intros Hl Hr. unfold evals. apply bCmp_sound. by rewrite Hl, Hr. Qed.

Lemma csr_set_same r (t : csr_table) n : csr_set r (t r) t n = t n.
Proof. unfold csr_set. by destruct (decide (n = r)) as [->|]. Qed.

Lemma exec_branch_run (w : World E) k x y :
  (forall cs v, simplifyExpr cs (EConstant v) = EConstant v) ->
  let a := regs (iss w) (rs1 (cur_instr (iss w))) in
  let b := regs (iss w) (rs2 (cur_instr (iss w))) in
  let target := u32 (last_pc (iss w) + B_imm (cur_instr (iss w))) in
  let c := cmp_spec 32 k x y in
  cval σ a (AP 32 x) -> cval σ b (AP 32 y) -> Z.testbit (last_pc (iss w)) 0 = false ->
  exec_branch k w =
    if c && negb (target_ok (csrs (iss w)) target)
    then (Err (SimulationTrap EXC_INSTR_ADDR_MISALIGNED target), with_pc target w)
    else track_and_trace_branch c (cv_cmp k a b) (if c then with_pc target w else w).
Proof.
  intros Hs a b target c Hx Hy He. pose proof (cmp_flag σ k _ _ _ _ Hx Hy) as Hf.
  unfold exec_branch, RS1, RS2, gets, sm_gets. fold a b.
  do 2 unfold sm_bind at 1. cbv zeta. unfold sm_bind at 1. fold a b.
  rewrite (iss_eval_run w _ _ Hs Hf).
  fold c. unfold sm_bind at 1. unfold sm_bind at 1. destruct c eqn:Hc; cbn [sm_when andb]; [|done].
  unfold sm_bind at 1, jump, modify, sm_modify. fold target.
  change (mkWorld (set_pc target (iss w)) (tracer w) (env w)) with (with_pc target w).
  rewrite (pc_alignment_run (with_pc target w)).
  - cbn [with_pc iss set_pc csrs pc]. by destruct (target_ok _ target).
  - apply even_add; [done|apply B_imm_even].
Qed.

(** What [track_and_trace_branch] records. *)
Lemma track_run `{!RecordLaws E} c res (w : World E) : trace_ok (tracer w) ->
  exists r w', track_and_trace_branch c res w = (r, w') /\
    (forall n, csrs (iss w') n = csrs (iss w) n) /\ iss w' = set_csrs (csrs (iss w')) (iss w) /\
    match symbolic res with
    | None => r = Ok tt /\ tracer w' = tracer w
    | Some s =>
        match addConstraint (cs (tracer w)) (ECmp Kind.Eq s (EConstant (bool_ap c))) with
        | Some cs' => r = Ok tt /\ cs (tracer w') = cs' /\
            branch_recorded (tracer w) (mkBranch s false (last_pc (iss w)) (packet_index (env w) + 1)) c (tracer w')
        | None => r = Err AssertionFailed /\ tracer w' = tracer w
        end
    end.
Proof.
  intros Ht. unfold track_and_trace_branch, gets, sm_gets. unfold sm_bind at 1. unfold sm_bind at 1.
  unfold lift_env at 1. match goal with |- context [env_cover_branch ?p ?c ?sh] =>
    destruct (env_cover_branch_run p c sh) as (e & -> & He) end. cbn [sh_mip sh_trace sh_env] in *.
  destruct (symbolic res) as [s|].
  2:{ do 2 eexists. split; [done|]. cbn. split; [apply csr_set_same|done]. }
  unfold sm_bind at 1. unfold lift_env at 1. cbn [iss tracer env].
  rewrite env_current_index_run. cbn [sh_mip sh_trace sh_env]. rewrite He.
  unfold sm_bind at 1. cbn [tracer].
  assert (ECmp Kind.Eq s (EConstant (bool_ap c)) = branch_cond s c) as -> by (by destruct c).
  destruct (addConstraint (cs (tracer w)) (branch_cond s c)) as [cs'|] eqn:Ha.
  - destruct (Trace_add_recorded _ c s (last_pc (iss w)) (packet_index (env w) + 1) _ Ht Ha) as (t' & -> & Hcs & Hrec).
    do 2 eexists. split; [done|]. cbn. split; [intros n; rewrite !csr_set_same; done|].
    by split.
  - unfold Trace_add. rewrite Ha. do 2 eexists. split; [done|]. cbn.
    by split; [intros n; rewrite !csr_set_same|].
Qed.

Lemma PC_run (w : World E) : exists c, PC w = (Ok c, w) /\ cval σ c (AP 32 (u32 (pc (iss w)))).
Proof. unfold PC, sm_bind, gets, sm_gets. apply BVC_word_run. Qed.

(** What the two jumps do with their target. *)
Definition jumped (target : Z) (w : World E) (r : result exn unit * World E) : Prop :=
  if target_ok (csrs (iss w)) target then
    exists w', r = (Ok tt, w') /\
      register_written (rd (cur_instr (iss w))) (u32 (pc (iss w))) (with_pc target w) w'
  else r = (Err (SimulationTrap EXC_INSTR_ADDR_MISALIGNED target), with_pc target w).

Lemma jump_link_run (w : World E) target link :
  Z.land target 1 = 0 -> cval σ link (AP 32 (u32 (pc (iss w)))) ->
  jumped target w ((trap_check_pc_alignment ;;; write_RD link) (with_pc target w)).
Proof.
  intros He Hl. unfold jumped. unfold sm_bind.
  rewrite (pc_alignment_run (with_pc target w)) by done. cbn [with_pc iss set_pc csrs pc].
  destruct (target_ok _ target); [|done].
  destruct (write_RD_run link (u32 (pc (iss w))) (with_pc target w)) as (w' & Hrun & Hw);
    [by apply word_narrow|]. by exists w'.
Qed.

Lemma exec_JAL_run (w : World E) : Z.testbit (last_pc (iss w)) 0 = false ->
  jumped (u32 (last_pc (iss w) + J_imm (cur_instr (iss w)))) w (exec_JAL w).
Proof.
  intros He. destruct (PC_run w) as (link & Hrun & Hl). unfold exec_JAL. unfold sm_bind at 1. rewrite Hrun.
  apply (jump_link_run w _ link); [|done]. apply even_add; [done|apply J_imm_even].
Qed.

Lemma clear_bit0 z : 0 <= z < 2 ^ 32 -> Z.land z (u32 (Z.lnot 1)) = z - z mod 2.
Proof.
  intros Hz. replace (z - z mod 2) with (z / 2 * 2) by (pose proof (Z.div_mod z 2); lia).
  assert (z / 2 * 2 = Z.shiftl (Z.shiftr z 1) 1) as ->
    by (rewrite Z.shiftl_mul_pow2, Z.shiftr_div_pow2 by lia; done).
  apply Z.bits_inj'. intros j Hj. rewrite Z.land_spec, wrap_spec, Z.lnot_spec by lia.
  destruct (Z.eq_dec j 0) as [->|].
  - rewrite Z.shiftl_spec_low by lia. by rewrite andb_false_r.
  - rewrite Z.shiftl_spec, Z.shiftr_spec by lia. replace (j - 1 + 1) with j by lia.
    destruct (Z.ltb_spec j 32).
    + change 1 with (Z.ones 1). rewrite Z.ones_spec_high by lia. by rewrite andb_true_r.
    + by rewrite (testbit_high 32) by done.
Qed.

Lemma exec_JALR_run (w : World E) x :
  cval σ (regs (iss w) (rs1 (cur_instr (iss w)))) (AP 32 x) ->
  let sum := u32 (x + I_imm (cur_instr (iss w))) in
  jumped (sum - sum mod 2) w (exec_JALR w).
Proof.
  intros Hx sum. destruct (PC_run w) as (link & Hrun & Hl). unfold exec_JALR.
  unfold sm_bind at 1. rewrite Hrun. unfold RS1, gets, sm_gets, get_u32. do 3 unfold sm_bind at 1.
  rewrite (getValue_spec σ 32 _ _ Hx) by done. cbn [asserted ap_val sm_ret].
  unfold sm_bind at 1, modify, sm_modify. fold sum.
  rewrite clear_bit0 by (apply wrap_range; lia).
  apply (jump_link_run w _ link); [|done]. apply even_land.
  rewrite Z.bit0_odd. pose proof (Z.div_mod sum 2).
  replace (sum - sum mod 2) with (2 * (sum / 2)) by lia. by rewrite Z.odd_mul.
Qed.
End runs.

(** * Loads and stores *)

(** The access and its alignment. *)
Definition load_ref (op : Mapping) : option (load_kind * Z) :=
  match op with
  | LB => Some (load_byte_, 1) | LH => Some (load_half_, 2) | LW => Some (load_word_, 4)
  | LBU => Some (load_ubyte_, 1) | LHU => Some (load_uhalf_, 2) | _ => None
  end.
Definition store_ref (op : Mapping) : option (store_kind * Z) :=
  match op with
  | SB => Some (store_byte_, 1) | SH => Some (store_half_, 2) | SW => Some (store_word_, 4)
  | _ => None
  end.

Section memory.
Context {E : Type} `{Env E} `{!ExprBuilder} `{!KleeSolver} `{Laws : !BuilderLaws} (σ : assignment).
#[local] Open Scope sm_scope.
Context (sys : option (M E unit)).

Lemma S_IMM_run (w : World E) : exists c, S_IMM w = (Ok c, w) /\
  cval σ c (AP 32 (u32 (S_imm (cur_instr (iss w))))).
Proof.
  unfold S_IMM, sm_bind, gets, sm_gets, sm_ret.
  destruct (BVC_word_run σ (S_imm (cur_instr (iss w))) w) as (c & -> & Hc).
  eexists. split; [done|]. by apply sext_word.
Qed.

Lemma address_word a b x imm : cval σ a (AP 32 x) -> cval σ b (AP 32 (u32 imm)) ->
  cval σ (cv_arith Kind.Add a b) (AP 32 (u32 (x + imm))).
Proof.
  intros Ha Hb. pose proof (arith_word σ Kind.Add _ _ _ _ eq_refl Ha Hb) as Hc. cbn [arith_spec] in Hc.
  replace (u32 (x + imm)) with (u32 (x + u32 imm)); [done|]. unfold wrap. apply Zplus_mod_idemp_r.
Qed.

Lemma addr_alignment_run n isLoad c a (w : World E) : cval σ c (AP 32 a) ->
  sm_when (1 <? n) (trap_check_addr_alignment n isLoad c) w =
    (if (1 <? n) && negb (a mod n =? 0)
     then Err (SimulationTrap (if isLoad then EXC_LOAD_ADDR_MISALIGNED
                               else EXC_STORE_AMO_ADDR_MISALIGNED) a)
     else Ok tt, w).
Proof.
  intros Hc. destruct (1 <? n); [|done]. cbn [sm_when].
  unfold trap_check_addr_alignment, get_u32, sm_bind. rewrite (getValue_spec σ 32 _ _ Hc) by done.
  cbn. by destruct (a mod n =? 0).
Qed.

Lemma exec_load_run (w : World E) k n x :
  cval σ (regs (iss w) (rs1 (cur_instr (iss w)))) (AP 32 x) ->
  let a := u32 (x + I_imm (cur_instr (iss w))) in
  exists addr, cval σ addr (AP 32 a) /\
    exec_load k n w =
      if (1 <? n) && negb (a mod n =? 0)
      then (Err (SimulationTrap EXC_LOAD_ADDR_MISALIGNED a), w)
      else (v <-- lift_env (env_load k addr) ;; write_RD v) w.
Proof.
  intros Hx a. destruct (I_IMM_run σ w) as (imm & Hrun & Hi).
  pose proof (address_word _ _ _ _ Hx Hi) as Ha. eexists. split; [exact Ha|].
  unfold exec_load, RS1, gets, sm_gets. unfold sm_bind at 1. unfold sm_bind at 1. rewrite Hrun.
  cbv zeta. unfold sm_bind at 1. rewrite (addr_alignment_run n true _ a w Ha).
  by destruct ((1 <? n) && negb (a mod n =? 0)).
Qed.

Lemma exec_store_run (w : World E) k n x :
  cval σ (regs (iss w) (rs1 (cur_instr (iss w)))) (AP 32 x) ->
  let a := u32 (x + S_imm (cur_instr (iss w))) in
  exists addr, cval σ addr (AP 32 a) /\
    exec_store k n w =
      if (1 <? n) && negb (a mod n =? 0)
      then (Err (SimulationTrap EXC_STORE_AMO_ADDR_MISALIGNED a), w)
      else lift_env (env_store k addr (regs (iss w) (rs2 (cur_instr (iss w))))) w.
Proof.
  intros Hx a. destruct (S_IMM_run w) as (imm & Hrun & Hi).
  pose proof (address_word _ _ _ _ Hx Hi) as Ha. eexists. split; [exact Ha|].
  unfold exec_store, RS1, gets, sm_gets. unfold sm_bind at 1. unfold sm_bind at 1. rewrite Hrun.
  cbv zeta. unfold sm_bind at 1. rewrite (addr_alignment_run n false _ a w Ha).
  by destruct ((1 <? n) && negb (a mod n =? 0)).
Qed.
End memory.

(** * The zero register *)

Section frame.
Context {E : Type} `{Env E} `{!ExprBuilder} `{!KleeSolver} (P : (Z -> ConcolicValue) -> Prop).
Local Abbreviation inv := (fun w : World E => P (regs (iss w))).

Lemma frame_lift {A} (m : EnvM E A) : keeps inv (lift_env m).
Proof. intros w Hw. unfold lift_env. by destruct (m _) as [[a|e] sh]. Qed.
Lemma frame_modify f : (forall s, regs (f s) = regs s) -> keeps inv (modify f).
Proof. intros Hf. apply keeps_modify. intros w Hw. cbn. by rewrite Hf. Qed.
Lemma frame_gets {A} (f : ISS -> A) : keeps inv (gets f).
Proof. apply keeps_gets. Qed.
Lemma frame_assert b : keeps inv (assert_ b).
Proof. destruct b; [apply keeps_ret|apply keeps_throw]. Qed.
Hint Resolve frame_lift frame_gets frame_assert : keeps.
Hint Extern 1 (keeps _ (modify _)) => apply frame_modify; intros ?; reflexivity : keeps.

Lemma frame_performance o : keeps inv (performance_and_sync_update o).
Proof. unfold performance_and_sync_update, put_csr, release_lr_sc_reservation. keeps_solve. Qed.
Lemma frame_exit : keeps inv (modify (fun s => if shall_exit s then set_status Terminated s else s)).
Proof. apply frame_modify. intros s. by destruct (shall_exit s). Qed.
End frame.

(** The zero register reads as zero. *)
Definition zero_reads_zero {E} (w : World E) : Prop :=
  getValue 32 (concrete (regs (iss w) 0)) = Some 0.

Lemma triple_true {S Ex A} (m : SM S Ex A) : triple (fun _ => True) m (fun _ _ => True) (fun _ _ => True).
Proof. intros s _. by destruct (m s) as [[]]. Qed.

Lemma run_step_zero {E} `{Env E} `{ExprBuilder} `{KleeSolver} sys :
  triple (fun _ : World E => True) (run_step sys) (fun _ => zero_reads_zero) (fun _ _ => True).
Proof.
  unfold run_step. intros w _. unfold sm_bind at 1 2 3, regs_read, reg, gets, sm_gets, get_u32, asserted.
  cbn [Z.ltb Z.compare]. destruct (getValue 32 _) as [v|] eqn:Hv; [|done].
  cbn [sm_ret]. destruct (Z.eqb_spec v 0) as [->|]; [|done]. cbn [assert_ sm_ret].
  unfold sm_bind at 1. destruct (debug_mode _ && _); [exact Hv|].
  clear Hv. enough (triple (fun _ : World E => True)
    (modify (fun s => set_last_pc (pc s) s) ;;; step_and_trap sys ;;;
     zero <-- REG_ZERO ;; regs_write 0 zero ;;;
     modify (fun s => if shall_exit s then set_status Terminated s else s) ;;;
     o <-- gets op ;; performance_and_sync_update o)%sm
    (fun _ => zero_reads_zero) (fun _ _ => True)) as Ht by (by apply Ht).
  eapply triple_bind; [apply triple_true|]. intros ?. eapply triple_bind; [apply triple_true|]. intros ?.
  eapply triple_bind with (P' := fun z _ => z = Concolic (EConstant (AP 32 0)) None).
  { by intros w1 _. }
  intros z. eapply triple_bind with (P' := fun _ => zero_reads_zero); [by intros w1 ->|]. intros ?.
  set (P := fun rs : Z -> ConcolicValue => getValue 32 (concrete (rs 0)) = Some 0).
  assert (keeps (fun w : World E => P (regs (iss w)))
    (modify (fun s => if shall_exit s then set_status Terminated s else s) ;;;
     o <-- gets op ;; performance_and_sync_update o)%sm) as Hk.
  { apply keeps_bind; [apply frame_exit|]. intros _. apply keeps_bind; [apply keeps_gets|].
    intros o. apply frame_performance. }
  eapply triple_conseq; [exact Hk|done|done|done].
Qed.

(** The opcodes [exec_step] has a case for. *)
Definition supported (op : Mapping) : bool :=
  match op with
  | UNDEF | LUI | AUIPC | JAL | JALR | BEQ | BNE | BLT | BGE | BLTU | BGEU | LB | LH | LW | LBU
  | LHU | SB | SH | SW | ADDI | SLTI | SLTIU | XORI | ORI | ANDI | SLLI | SRLI | SRAI | ADD | SUB
  | SLL | SLT | SLTU | XOR | SRL | SRA | OR | AND | FENCE | ECALL | EBREAK | FENCE_I | CSRRW
  | CSRRS | CSRRC | CSRRWI | CSRRSI | CSRRCI | MUL | MULH | MULHSU | MULHU | DIV | DIVU | REM
  | REMU | LR_W | SC_W | AMOSWAP_W | AMOADD_W | AMOXOR_W | AMOAND_W | AMOOR_W | AMOMIN_W
  | AMOMAX_W | AMOMINU_W | AMOMAXU_W | MRET | WFI => true
  | _ => false
  end.

Lemma unsupported_execute {E} `{Env E} `{ExprBuilder} `{KleeSolver} sys op (w : World E) :
  supported op = false -> execute sys op w = (Err RuntimeError, w).
Proof. by destruct op. Qed.

(** * The properties *)

(** C2 The arithmetic of RV32IM: on registers that are views of [x] and [y], each decoded
    integer instruction leaves in its destination a view of exactly the word the
    specification gives, for the concrete and the symbolic part alike (division by zero
    and the overflowing quotient included).  It changes no other register and not [pc];
    the instructions that do not divide change nothing else at all. *)
Theorem arithmetic_instructions {E} `{Env E} `{BL : BuilderLaws} `{KL : KleeSolverLaws}
    σ sys (w : World E) op x y r :
  decode_normal RV32 (cur_instr (iss w)) = op ->
  cval σ (regs (iss w) (rs1 (cur_instr (iss w)))) (AP 32 x) ->
  cval σ (regs (iss w) (rs2 (cur_instr (iss w)))) (AP 32 y) ->
  (is_M op = true -> Z.land (csrs (iss w) misa) misa_M <> 0) ->
  alu_ref op x (alu_operand op (cur_instr (iss w)) y) = Some r ->
  has_result σ w r (execute sys op w).2 /\
  (is_division op = false -> exists w', execute sys op w = (Ok tt, w') /\
     register_written σ (rd (cur_instr (iss w))) r w w').
Proof.
  intros Hd Hx Hy HM Hr. destruct (is_division op) eqn:Hdiv; (split; [|try discriminate]).
  - apply (div_run σ sys w x y Hx Hy); [apply simplifyExpr_const_law|done| |done].
    apply HM. by destruct op.
  - destruct (alu_run σ sys w x y Hx Hy op r Hd Hdiv HM Hr) as (w' & -> & rs & -> & Hrd & Ho).
    split; [exact Hrd|split; [exact Ho|done]].
  - intros _. by apply (alu_run σ sys w x y Hx Hy op r Hd Hdiv HM Hr).
Qed.

(** C8 Branches: the branch goes to its target exactly when the condition of the
    specification holds of the two words, and continues after itself otherwise; nothing
    but [pc] changes in the core.  When one of the words is symbolic the branch is then
    recorded: the constraint that its condition equals the direction taken is added to the
    constraints of the trace (when it contradicts them, the assertion of the constraint
    manager fails), the node of the tree the execution is at holds the branch (the
    condition, its address and the number of the next packet), unless an earlier run put
    one there, and the execution moves to the child of the direction taken, which then
    exists.  The recorded condition is that of the branch under every input: wherever the
    symbolic parts of the two words evaluate to [x'] and [y'], its truth is what the
    specification gives for [x'] and [y'].  When no word is symbolic the trace stays as it
    is.  A taken branch to a misaligned target traps instead, and is not recorded. *)
Theorem branch_instructions {E} `{RL : RecordLaws E} `{BL : BuilderLaws} `{KL : KleeSolverLaws}
    σ sys (w : World E) op x y c :
  let a := regs (iss w) (rs1 (cur_instr (iss w))) in
  let b := regs (iss w) (rs2 (cur_instr (iss w))) in
  let target := u32 (last_pc (iss w) + B_imm (cur_instr (iss w))) in
  cval σ a (AP 32 x) -> cval σ b (AP 32 y) ->
  Z.testbit (last_pc (iss w)) 0 = false -> trace_ok (tracer w) ->
  branch_ref op x y = Some c ->
  if c && negb (target_ok (csrs (iss w)) target) then
    execute sys op w = (Err (SimulationTrap EXC_INSTR_ADDR_MISALIGNED target), with_pc target w)
  else
    exists r w', execute sys op w = (r, w') /\
      (forall n, csrs (iss w') n = csrs (iss w) n) /\
      iss w' = set_csrs (csrs (iss w')) (set_pc (if c then target else pc (iss w)) (iss w)) /\
      match symbolic a, symbolic b with
      | None, None => r = Ok tt /\ tracer w' = tracer w
      | _, _ => exists s, evals σ s c /\
          (forall σ' x' y', eval σ' (sym_or_conc a) = Some (AP 32 x') ->
             eval σ' (sym_or_conc b) = Some (AP 32 y') ->
             exists c', branch_ref op x' y' = Some c' /\ evals σ' s c') /\
          match addConstraint (cs (tracer w)) (ECmp Kind.Eq s (EConstant (bool_ap c))) with
          | Some cs' => r = Ok tt /\ cs (tracer w') = cs' /\
              branch_recorded (tracer w) (mkBranch s false (last_pc (iss w)) (packet_index (env w) + 1))
                c (tracer w')
          | None => r = Err AssertionFailed /\ tracer w' = tracer w
          end
      end.
Proof.
  intros a b target Hx Hy He Ht Hc. rewrite branch_ref_kind in Hc.
  destruct (branch_kind op) as [k|] eqn:Hop; [|done]. injection Hc as <-.
  rewrite (execute_branch _ _ _ _ Hop), (exec_branch_run σ w k x y simplifyExpr_const_law Hx Hy He).
  cbv zeta. fold a b target. set (c := cmp_spec 32 k x y). destruct (c && _); [done|].
  set (w0 := if c then with_pc target w else w).
  assert (csrs (iss w0) = csrs (iss w) /\ tracer w0 = tracer w /\ env w0 = env w /\ last_pc (iss w0) = last_pc (iss w) /\
    iss w0 = set_pc (if c then target else pc (iss w)) (iss w)) as (Hc0 & Ht0 & He0 & Hl0 & Hi0).
  { subst w0. destruct c; [done|]. by destruct (iss w). }
  destruct (track_run c (cv_cmp k a b) w0) as (r & w' & Hrun & Hcs & Hiss & Hrec); [by rewrite Ht0|].
  exists r, w'. split; [done|]. split; [intros n; by rewrite Hcs, Hc0|].
  split; [by rewrite Hiss, Hi0 at 1|].
  rewrite cmp_symbolic, Ht0, He0, Hl0 in Hrec.
  assert (forall s, s = bCmp k (sym_or_conc a) (sym_or_conc b) -> evals σ s c /\
    (forall σ' x' y', eval σ' (sym_or_conc a) = Some (AP 32 x') ->
       eval σ' (sym_or_conc b) = Some (AP 32 y') ->
       exists c', branch_ref op x' y' = Some c' /\ evals σ' s c')) as Hs.
  { intros s ->. split; [apply cmp_evals; by apply cval_sym_or_conc|]. intros σ' x' y' Hx' Hy'.
    eexists. rewrite branch_ref_kind, Hop. split; [done|by apply cmp_evals]. }
  destruct (symbolic a), (symbolic b); try done;
    (eexists; split; [by apply Hs|split; [by apply Hs|exact Hrec]]).
Qed.

(** Jumps: [JAL] and [JALR] continue at the target (for [JALR] the sum of register and
    immediate with bit 0 cleared) and link the address of the next instruction; a
    misaligned target traps and leaves the link register alone. *)
Theorem jump_instructions {E} `{Env E} `{BL : BuilderLaws} `{KleeSolver} σ sys (w : World E) x :
  cval σ (regs (iss w) (rs1 (cur_instr (iss w)))) (AP 32 x) ->
  Z.testbit (last_pc (iss w)) 0 = false ->
  jumped σ (u32 (last_pc (iss w) + J_imm (cur_instr (iss w)))) w (execute sys JAL w) /\
  let sum := u32 (x + I_imm (cur_instr (iss w))) in
  jumped σ (sum - sum mod 2) w (execute sys JALR w).
Proof. intros Hx He. split; [by apply exec_JAL_run|by apply exec_JALR_run]. Qed.

(** C26 Loads and stores: the address is the base register plus the immediate modulo
    [2 ^ 32], and the memory is accessed with a concolic view of it; an access that is not
    naturally aligned raises the misaligned exception with that address and has no other
    effect. *)
Theorem memory_instructions {E} `{Env E} `{BL : BuilderLaws} `{KleeSolver} σ sys (w : World E) op x :
  cval σ (regs (iss w) (rs1 (cur_instr (iss w)))) (AP 32 x) ->
  (forall k n, load_ref op = Some (k, n) ->
     let a := u32 (x + I_imm (cur_instr (iss w))) in
     exists addr, cval σ addr (AP 32 a) /\
       execute sys op w =
         if (1 <? n) && negb (a mod n =? 0)
         then (Err (SimulationTrap EXC_LOAD_ADDR_MISALIGNED a), w)
         else (v <-- lift_env (env_load k addr) ;; write_RD v)%sm w) /\
  (forall k n, store_ref op = Some (k, n) ->
     let a := u32 (x + S_imm (cur_instr (iss w))) in
     exists addr, cval σ addr (AP 32 a) /\
       execute sys op w =
         if (1 <? n) && negb (a mod n =? 0)
         then (Err (SimulationTrap EXC_STORE_AMO_ADDR_MISALIGNED a), w)
         else lift_env (env_store k addr (regs (iss w) (rs2 (cur_instr (iss w))))) w).
Proof.
  intros Hx. split; intros k n Hop a; destruct op; try discriminate; injection Hop as <- <-;
    exact (exec_load_run σ w _ _ x Hx) || exact (exec_store_run σ w _ _ x Hx).
Qed.

(** The zero register: whatever an instruction wrote to it, it reads as zero after
    every step that returns, so the check at the start of the next step succeeds. *)
Theorem zero_register {E} `{Env E} `{ExprBuilder} `{KleeSolver} sys (w w' : World E) :
  run_step sys w = (Ok tt, w') -> zero_reads_zero w'.
Proof. intros Hr. pose proof (run_step_zero sys w I) as Ht. by rewrite Hr in Ht. Qed.

(** The state in which [exec_step] starts. *)
Definition step_start {E} (w : World E) : World E :=
  mkWorld (set_last_pc (pc (iss w)) (iss w)) (tracer w) (env w).

(** Instructions the decoder accepts but the executor has no case for (floating point,
    RV64, [SRET], [URET], [SFENCE.VMA]) end the simulation with a runtime error: no trap is
    taken, although the [RAISE_ILLEGAL_INSTRUCTION] of the source, compiled out, intended
    one. *)
Theorem unsupported_ends_simulation {E} `{Env E} `{ExprBuilder} `{KleeSolver}
    sys (w w1 w2 : World E) :
  zero_reads_zero w -> debug_mode (iss w) = false ->
  Z.land (pc (iss w)) (u32 (Z.lnot (pc_alignment_mask (csrs (iss w))))) = 0 ->
  fetch (step_start w) = (Ok tt, w1) -> decode w1 = (Ok tt, w2) ->
  supported (op (iss w2)) = false ->
  (lift_env (env_cover_instr (last_pc (iss w2))) w2).1 = Ok tt ->
  (run_step sys w).1 = Err RuntimeError.
Proof.
  intros Hz Hdbg Hal Hf Hd Hs Hc. unfold run_step, zero_reads_zero in *.
  unfold sm_bind at 1 2 3, regs_read, reg, gets, sm_gets, get_u32, asserted.
  cbn [Z.ltb Z.compare]. rewrite Hz. cbn [sm_ret Z.eqb assert_]. unfold sm_bind at 1. rewrite Hdbg.
  cbn [andb]. unfold sm_bind at 1, modify at 1, sm_modify. fold (step_start w).
  assert (step_and_trap sys (step_start w) = (Err RuntimeError, (step_and_trap sys (step_start w)).2)) as Hst;
    [|unfold sm_bind at 1; by rewrite Hst].
  assert ((step_and_trap sys (step_start w)).1 = Err RuntimeError) as Hst;
    [|by rewrite <- Hst, <- surjective_pairing].
  unfold step_and_trap, sm_catch. unfold sm_bind at 1. unfold exec_step. unfold sm_bind at 1 2 3, gets, sm_gets.
  cbn [step_start iss set_last_pc pc csrs] in *. rewrite Hal. cbn [Z.eqb assert_ sm_ret].
  unfold sm_bind at 1. fold (step_start w). rewrite Hf. unfold sm_bind at 1. rewrite Hd.
  unfold sm_bind at 1 2. destruct (lift_env _ w2) as [r w3] eqn:Hl. cbn in Hc. subst r.
  unfold sm_bind at 1.
  assert (op (iss w3) = op (iss w2)) as ->.
  { unfold lift_env in Hl. destruct (env_cover_instr _ _). by injection Hl as _ <-. }
  by rewrite unsupported_execute.
Qed.

(** ** Witnesses *)

#[local] Instance witness_builder : ExprBuilder := solver_builder.
#[local] Instance witness_solver : KleeSolver := search_solver [].
#[local] Instance witness_env : Env ram := ram_env.

(** The sample world about to execute an instruction; [a0] is symbolic and holds 0x304. *)
Definition sample_at (i : Instruction) : World ram :=
  mkWorld (set_instr i (set_last_pc 0x1000 (set_pc 0x1004 sample_core))) Trace_new (mkRam mem_empty).

Lemma sample_zero : cval sample_input zero_word (AP 32 0).
Proof. apply (sample_concrete_cval 32 0). vm_compute. exact I. Qed.

(** [div a1, a0, zero] *)
Lemma arithmetic_instructions_witness :
  cval sample_input (regs (iss (execute None DIV (sample_at (Instr 0x020545b3))).2) 11)
    (AP 32 (2 ^ 32 - 1)).
Proof.
  refine (proj1 (proj1 (arithmetic_instructions (BL := solver_builder_laws)
    (KL := search_solver_laws []) sample_input None (sample_at (Instr 0x020545b3)) DIV 0x304 0 _ _ _ _ _ _))).
  - vm_compute. reflexivity.
  - exact sample_symbolic_cval.
  - exact sample_zero.
  - intros _. vm_compute. discriminate.
  - reflexivity.
Defined.

(** [beq a0, zero, 8] is not taken; [a0] being symbolic, the condition is recorded. *)
Lemma branch_instructions_witness :
  exists w' s b, execute None BEQ (sample_at (IF.BEQ 10 0 8)) = (Ok tt, w') /\
    pc (iss w') = 0x1004 /\ evals sample_input s false /\
    value_at [] (pathCondsRoot (tracer w')) = Some (Some b) /\ bv b = s /\ addr b = 0x1000 /\ pktSeqLen b = 1 /\
    pathCondsCurrent (tracer w') = Some [false].
Proof.
  destruct (branch_instructions (BL := solver_builder_laws) (KL := search_solver_laws [])
    sample_input None (sample_at (IF.BEQ 10 0 8)) BEQ 0x304 0 false) as (r & w' & Hrun & _ & Hiss & Hrec).
  - exact sample_symbolic_cval.
  - exact sample_zero.
  - reflexivity.
  - exact Trace_new_ok.
  - reflexivity.
  - destruct Hrec as (s & Hs & _ & Hrec).
    assert (exists w2, execute None BEQ (sample_at (IF.BEQ 10 0 8)) = (Ok tt, w2)) as [w2 Hok]
      by (eexists; vm_compute; reflexivity).
    pose proof (eq_trans (eq_sym Hrun) Hok) as [= -> ->].
    destruct (addConstraint _ _); [|by destruct Hrec].
    destruct Hrec as (_ & _ & Hcur & _ & Hp & _).
    exists w2, s. eexists. split; [exact Hok|]. split; [by rewrite Hiss|]. split; [exact Hs|].
    split; [exact Hp|]. do 3 (split; [reflexivity|]). exact Hcur.
Defined.

(** [jalr ra, 1(a0)] *)
Lemma jump_instructions_witness :
  jumped sample_input 0x304 (sample_at (IF.JALR 1 10 1))
    (execute None JALR (sample_at (IF.JALR 1 10 1))).
Proof.
  refine (proj2 (jump_instructions (BL := solver_builder_laws) sample_input None
    (sample_at (IF.JALR 1 10 1)) 0x304 _ _)).
  - exact sample_symbolic_cval.
  - reflexivity.
Defined.

(** [lw a1, 2(a0)] at the misaligned address 0x306. *)
Lemma memory_instructions_witness :
  exists addr, cval sample_input addr (AP 32 0x306) /\
    execute None LW (sample_at (IF.LW 11 10 2)) =
      (Err (SimulationTrap EXC_LOAD_ADDR_MISALIGNED 0x306), sample_at (IF.LW 11 10 2)).
Proof.
  refine (proj1 (memory_instructions (BL := solver_builder_laws) sample_input None
    (sample_at (IF.LW 11 10 2)) LW 0x304 _) load_word_ 4 _).
  - exact sample_symbolic_cval.
  - reflexivity.
Defined.

Lemma returns_ok {S Ex} (m : SM S Ex unit) s : (m s).1 = Ok tt -> m s = (Ok tt, (m s).2).
Proof. intros Hm. by apply injective_projections. Qed.

Lemma zero_register_witness :
  exists w', run_step None sample_world = (Ok tt, w') /\ zero_reads_zero w'.
Proof.
  assert (run_step None sample_world = (Ok tt, (run_step None sample_world).2)) as Hr
    by (apply returns_ok; vm_compute; reflexivity).
  eexists. split; [exact Hr|]. exact (zero_register None sample_world _ Hr).
Defined.

(** [sret] at the start of the program. *)
Definition sample_sret : World ram :=
  mkWorld sample_core Trace_new (mkRam (load_program 0x1000 [0x10200073] mem_empty)).

Lemma unsupported_ends_simulation_witness : (run_step None sample_sret).1 = Err RuntimeError.
Proof.
  refine (unsupported_ends_simulation None sample_sret _ _ _ _ _
    (returns_ok fetch _ _) (returns_ok decode _ _) _ _); vm_compute; reflexivity.
Defined.
