(* ===== verification/IssCsr.v ===== *)
(** What the CSR instructions do: the registers with a write and a read mask, the access
    checks by privilege, and the return from machine mode. *)
From S2P Require Import Prelude Bits Instr Decode Compressed Csr APInt KExpr KBuilder.
From S2P Require Import KBuilderSound Concolic ConcMem PathTrace Iss Platform IssTrap IssExec IssSound IssSpec.

(** * The masked registers

    Address, register, the bits a write changes, the bits a read shows. *)
Record csr_view := mkView { v_addr : Z; v_reg : csr_name; v_write : Z; v_read : Z }.

Definition all_bits : Z := 0xffffffff.
Definition csr_views : list csr_view := [
  mkView MTVEC_ADDR mtvec MTVEC_MASK all_bits; mkView STVEC_ADDR stvec MTVEC_MASK all_bits;
  mkView UTVEC_ADDR utvec MTVEC_MASK all_bits;
  mkView MSTATUS_ADDR mstatus MSTATUS_MASK MSTATUS_MASK;
  mkView SSTATUS_ADDR mstatus SSTATUS_MASK SSTATUS_MASK;
  mkView USTATUS_ADDR mstatus USTATUS_MASK USTATUS_MASK;
  mkView MIP_ADDR mip MIP_WRITE_MASK MIP_READ_MASK; mkView SIP_ADDR mip SIP_MASK SIP_MASK;
  mkView UIP_ADDR mip UIP_MASK UIP_MASK;
  mkView MIE_ADDR mie MIE_MASK MIE_MASK; mkView SIE_ADDR mie SIE_MASK SIE_MASK;
  mkView UIE_ADDR mie UIE_MASK UIE_MASK;
  mkView MIDELEG_ADDR mideleg MIDELEG_MASK all_bits; mkView MEDELEG_ADDR medeleg MEDELEG_MASK all_bits;
  mkView SIDELEG_ADDR sideleg SIDELEG_MASK all_bits; mkView SEDELEG_ADDR sedeleg SEDELEG_MASK all_bits;
  mkView MCOUNTEREN_ADDR mcounteren MCOUNTEREN_MASK all_bits;
  mkView SCOUNTEREN_ADDR scounteren MCOUNTEREN_MASK all_bits;
  mkView MCOUNTINHIBIT_ADDR mcountinhibit MCOUNTINHIBIT_MASK all_bits;
  mkView MSCRATCH_ADDR mscratch all_bits all_bits; mkView SSCRATCH_ADDR sscratch all_bits all_bits;
  mkView USCRATCH_ADDR uscratch all_bits all_bits;
  mkView MCAUSE_ADDR mcause all_bits all_bits; mkView MTVAL_ADDR mtval all_bits all_bits;
  mkView SCAUSE_ADDR scause all_bits all_bits; mkView STVAL_ADDR stval all_bits all_bits;
  mkView UCAUSE_ADDR ucause all_bits all_bits; mkView UTVAL_ADDR utval all_bits all_bits].

(** The word a write of [v] leaves, and the word a read shows. *)
Definition view_write (c : csr_view) (old v : Z) : Z :=
  Z.lor (Z.land old (u32 (Z.lnot (v_write c)))) (Z.land v (v_write c)).
Definition view_read (c : csr_view) (word : Z) : Z := Z.land word (v_read c).

Lemma land_all z : 0 <= z < 2 ^ 32 -> Z.land z all_bits = z.
Proof. intros Hz. change all_bits with (Z.ones 32). rewrite Z.land_ones by lia. by apply Z.mod_small. Qed.

Section views.
Context {E : Type} `{Env E} `{!ExprBuilder} `{!KleeSolver}.
#[local] Open Scope sm_scope.

Definition with_csr (r : csr_name) (v : Z) (w : World E) : World E :=
  mkWorld (set_csrs (csr_set r v (csrs (iss w))) (iss w)) (tracer w) (env w).

Lemma view_set c v (w : World E) : c ∈ csr_views ->
  0 <= v < 2 ^ 32 -> 0 <= csrs (iss w) (v_reg c) < 2 ^ 32 ->
  set_csr_value (v_addr c) v w = (Ok tt, with_csr (v_reg c) (view_write c (csrs (iss w) (v_reg c)) v) w).
Proof.
  intros Hc Hv Ht. unfold with_csr, view_write.
  repeat (apply elem_of_cons in Hc as [->|Hc]; [try reflexivity|]); [..|by apply elem_of_nil in Hc].
  all: cbn [v_addr v_reg v_write] in *; rewrite (land_all v) by done;
    change (u32 (Z.lnot all_bits)) with 0; rewrite Z.land_0_r, Z.lor_0_l; reflexivity.
Qed.

Lemma view_get c (w : World E) : c ∈ csr_views -> 0 <= csrs (iss w) (v_reg c) < 2 ^ 32 ->
  get_csr_value (v_addr c) w = (Ok (view_read c (csrs (iss w) (v_reg c))), w).
Proof.
  intros Hc Ht. unfold view_read.
  repeat (apply elem_of_cons in Hc as [->|Hc]; [try reflexivity|]); [..|by apply elem_of_nil in Hc].
  all: cbn [v_addr v_reg v_read] in *; rewrite land_all by done; reflexivity.
Qed.

(** ** Access checks *)

(** Bits 9 and 8 of a CSR address name the least privileged mode that may access it, bits
    11 and 10 are both set for a read-only register. *)
Definition csr_forbidden (t : csr_table) (p addr : Z) (write : bool) : bool :=
  let mode := addr / 2 ^ 8 mod 4 in
  let readonly := addr / 2 ^ 10 mod 4 =? 3 in
  (write && readonly) || (p <? mode) ||
  ((mode =? SupervisorMode) && negb (has_supervisor_mode_extension t)) ||
  ((mode =? UserMode) && negb (has_user_mode_extension t)).

Definition is_fp_csr (addr : Z) : bool :=
  (addr =? FFLAGS_ADDR) || (addr =? FRM_ADDR) || (addr =? FCSR_ADDR).

Lemma two_bits addr k : 0 <= k -> Z.shiftr (Z.land (Z.shiftl 3 k) addr) k = addr / 2 ^ k mod 4.
Proof.
  intros Hk. rewrite Z.shiftr_land, Z.shiftr_shiftl_l, Z.sub_diag, Z.shiftl_0_r by lia.
  rewrite Z.land_comm, Z.shiftr_div_pow2 by done. by apply (Z.land_ones _ 2).
Qed.

Lemma csr_access_run addr write (w : World E) :
  is_fp_csr addr = false \/ Z.land (csrs (iss w) misa) misa_F <> 0 ->
  is_invalid_csr_access addr write w =
    (Ok (csr_forbidden (csrs (iss w)) (prv (iss w)) addr write), w).
Proof.
  intros Hfp. unfold is_invalid_csr_access. unfold sm_bind at 1.
  assert (sm_when ((addr =? FFLAGS_ADDR) || (addr =? FRM_ADDR) || (addr =? FCSR_ADDR))
    (REQUIRE_ISA misa_F) w = (Ok tt, w)) as ->.
  { destruct Hfp as [Hfp|HF]; [unfold is_fp_csr in Hfp; by rewrite Hfp|].
    destruct (_ || _); [by apply REQUIRE_ISA_run|done]. }
  unfold csr_forbidden, sm_bind, gets, sm_gets, sm_ret.
  by rewrite <- (two_bits addr 8), <- (two_bits addr 10) by lia.
Qed.

Context (sys : option (M E unit)).

(** The CSR instructions: the value given to the register from the old one and the operand,
    whether the operand is the immediate, and whether the write depends on it. *)
Definition csr_ref (op : Mapping) : option ((Z -> Z -> Z) * bool * bool) :=
  match op with
  | CSRRW => Some (fun _ v => v, false, false)
  | CSRRS => Some (Z.lor, false, true)
  | CSRRC => Some (csr_clear, false, true)
  | CSRRWI => Some (fun _ v => v, true, false)
  | CSRRSI => Some (Z.lor, true, true)
  | CSRRCI => Some (csr_clear, true, true)
  | _ => None
  end.
Definition csr_writes (i : Instruction) (imm cond : bool) : bool :=
  negb cond || negb ((if imm then zimm i else rs1 i) =? 0).

Lemma csr_denied_run (w : World E) op f imm cond :
  let i := cur_instr (iss w) in
  csr_ref op = Some (f, imm, cond) ->
  is_fp_csr (csr i) = false \/ Z.land (csrs (iss w) misa) misa_F <> 0 ->
  csr_forbidden (csrs (iss w)) (prv (iss w)) (csr i) (csr_writes i imm cond) = true ->
  execute sys op w = (Err (SimulationTrap EXC_ILLEGAL_INSTR (data i)), w).
Proof.
  intros i Hop Hfp Hno. pose proof (csr_access_run (csr i) (csr_writes i imm cond) w Hfp) as Ha.
  rewrite Hno in Ha.
  destruct op; try discriminate; injection Hop as <- <- <-; cbn [execute];
    unfold csr_writes in Ha; cbn [negb orb] in Ha;
    unfold exec_csr_write, exec_csr_modify, sm_bind, gets, sm_gets; fold i;
    rewrite Ha; reflexivity.
Qed.

Context `{Laws : !BuilderLaws} (σ : assignment).

(** What an allowed instruction leaves: the old value in the destination, if there is one,
    and the new value in the register, if it is written; all the rest of the hart, the
    trace and the environment are as before. *)
Definition csr_result (w : World E) (c : csr_view) (write : bool) (new : Z) (w' : World E) : Prop :=
  let i := cur_instr (iss w) in
  let old := csrs (iss w) (v_reg c) in
  csrs (iss w') (v_reg c) = (if write then view_write c old new else old) /\
  (forall r, r <> v_reg c -> csrs (iss w') r = csrs (iss w) r) /\
  (rd i <> 0 -> cval σ (regs (iss w') (rd i)) (AP 32 (view_read c old))) /\
  (forall j, j <> rd i \/ rd i = 0 -> regs (iss w') j = regs (iss w) j) /\
  iss w' = set_regs (regs (iss w')) (set_csrs (csrs (iss w')) (iss w)) /\
  tracer w' = tracer w /\ env w' = env w.

Lemma view_read_range c old : c ∈ csr_views -> 0 <= view_read c old < 2 ^ 32.
Proof.
  intros Hc. assert (exists m, v_read c = m /\ 0 <= m < 2 ^ 32) as (m & Hm & Hr).
  { eexists. split; [done|].
    repeat (apply elem_of_cons in Hc as [->|Hc]; [vm_compute; split; [discriminate|done]|]).
    by apply elem_of_nil in Hc. }
  unfold view_read. rewrite Hm. rewrite <- (Z.mod_small m (2 ^ 32)) by done.
  rewrite <- Z.land_ones, Z.land_assoc, Z.land_ones by lia. apply Z.mod_pos_bound. lia.
Qed.

(** Writing the old value to the destination, if there is one. *)
Lemma csr_read_back c (w : World E) : c ∈ csr_views -> let i := cur_instr (iss w) in
  let old := view_read c (csrs (iss w) (v_reg c)) in
  exists rs, sm_when (negb (rd i =? 0)) (v <-- BVC_word old ;; write_RD v) w =
      (Ok tt, mkWorld (set_regs rs (iss w)) (tracer w) (env w)) /\
    (rd i <> 0 -> cval σ (rs (rd i)) (AP 32 old)) /\
    (forall j, j <> rd i \/ rd i = 0 -> rs j = regs (iss w) j).
Proof.
  intros Hc i old. destruct (Z.eqb_spec (rd i) 0) as [Hz|Hne]; cbn [negb sm_when].
  - exists (regs (iss w)). split; [by destruct w as [[] ? ?]|]. split; [done|auto].
  - destruct (BVC_word_run σ old w) as (v & Hrun & Hv). unfold sm_bind. rewrite Hrun.
    rewrite wrap_small in Hv by (by apply view_read_range).
    destruct (write_RD_run σ v old w) as (w' & Hwr & rs & -> & Hrs & Ho); [by apply word_narrow|].
    exists rs. split; [done|]. split; [done|]. intros j [Hj|Hj]; [by apply Ho|done].
Qed.

Section effect.
Context (w : World E) (c : csr_view) (x : Z).
Local Abbreviation i := (cur_instr (iss w)).
Hypotheses (Hc : c ∈ csr_views) (Hi : csr i = v_addr c)
  (Hword : 0 <= csrs (iss w) (v_reg c) < 2 ^ 32)
  (Hx : cval σ (regs (iss w) (rs1 i)) (AP 32 x))
  (Hfp : is_fp_csr (csr i) = false \/ Z.land (csrs (iss w) misa) misa_F <> 0).

Definition csr_operand (imm : bool) : Z := if imm then zimm i else x.

Lemma operand_run (imm : bool) :
  (if imm then csr_imm_operand i else csr_reg_operand i : M E Z) w = (Ok (csr_operand imm), w).
Proof.
  destruct imm; [done|]. unfold csr_reg_operand, reg, gets, sm_gets, sm_bind, get_u32.
  by rewrite (getValue_spec σ 32 _ _ Hx).
Qed.

Lemma zimm_range j : 0 <= zimm j < 32.
Proof.
  unfold zimm. pose proof (field_range (instr j) 19 15 ltac:(lia) ltac:(lia)) as Hf. cbn in Hf.
  rewrite (wrap_small 32); lia.
Qed.
Lemma operand_range (imm : bool) : 0 <= csr_operand imm < 2 ^ 32.
Proof.
  destruct imm; cbn; [pose proof (zimm_range i); lia|by apply (word_range σ _ _ Hx)].
Qed.

Lemma write_result rs new : 0 <= new < 2 ^ 32 ->
  (rd i <> 0 -> cval σ (rs (rd i)) (AP 32 (view_read c (csrs (iss w) (v_reg c))))) ->
  (forall j, j <> rd i \/ rd i = 0 -> rs j = regs (iss w) j) ->
  exists w', set_csr_value (csr i) new (mkWorld (set_regs rs (iss w)) (tracer w) (env w)) = (Ok tt, w') /\
    csr_result w c true new w'.
Proof.
  intros Hnew Hrs Ho. rewrite Hi, (view_set c new) by done. eexists. split; [done|].
  unfold csr_result, with_csr. cbn -[csr_set view_write view_read].
  split; [by rewrite csr_set_eq|]. split; [|by auto].
  intros r Hr. by apply csr_set_ne.
Qed.

Lemma exec_csr_write_run (imm : bool) :
  csr_forbidden (csrs (iss w)) (prv (iss w)) (csr i) true = false ->
  exists w', exec_csr_write (if imm then csr_imm_operand else csr_reg_operand) w = (Ok tt, w') /\
    csr_result w c true (csr_operand imm) w'.
Proof.
  intros Hno. pose proof (csr_access_run (csr i) true w Hfp) as Ha. rewrite Hno in Ha.
  destruct (csr_read_back c w Hc) as (rs & Hrun & Hrd & Ho).
  unfold exec_csr_write. unfold sm_bind at 1, gets, sm_gets. unfold sm_bind at 1. rewrite Ha.
  unfold sm_bind at 1.
  assert ((if imm then csr_imm_operand else csr_reg_operand) i w = (Ok (csr_operand imm), w)) as ->
    by (pose proof (operand_run imm); by destruct imm).
  assert (sm_when (negb (rd i =? 0))
    (old <-- get_csr_value (csr i) ;; v <-- BVC_word old ;; write_RD v) w =
    (Ok tt, mkWorld (set_regs rs (iss w)) (tracer w) (env w))) as Hread.
  { rewrite <- Hrun. destruct (negb (rd i =? 0)); [|done]. cbn [sm_when]. unfold sm_bind at 1.
    by rewrite Hi, (view_get c w). }
  unfold sm_bind at 1. rewrite Hread. apply write_result; [apply operand_range|done..].
Qed.

Lemma exec_csr_modify_run (imm : bool) f :
  (forall a b, 0 <= a < 2 ^ 32 -> 0 <= b < 2 ^ 32 -> 0 <= f a b < 2 ^ 32) ->
  let write := csr_writes i imm true in
  csr_forbidden (csrs (iss w)) (prv (iss w)) (csr i) write = false ->
  exists w', exec_csr_modify (if imm then zimm else rs1)
      (if imm then csr_imm_operand else csr_reg_operand) f w = (Ok tt, w') /\
    csr_result w c write (f (view_read c (csrs (iss w) (v_reg c))) (csr_operand imm)) w'.
Proof.
  intros Hf write Hno. pose proof (csr_access_run (csr i) write w Hfp) as Ha. rewrite Hno in Ha.
  destruct (csr_read_back c w Hc) as (rs & Hrun & Hrd & Ho).
  unfold exec_csr_modify. unfold sm_bind at 1, gets, sm_gets. cbv zeta.
  assert (negb ((if imm then zimm else rs1) i =? 0) = write) as -> by (by destruct imm).
  unfold sm_bind at 1. rewrite Ha. unfold sm_bind at 1.
  assert ((if imm then csr_imm_operand else csr_reg_operand) i w = (Ok (csr_operand imm), w)) as ->
    by (pose proof (operand_run imm); by destruct imm).
  unfold sm_bind at 1. rewrite Hi, (view_get c w) by done. unfold sm_bind at 1. rewrite Hrun.
  destruct write; cbn [sm_when].
  - rewrite <- Hi. apply write_result; [|done..]. apply Hf; [by apply view_read_range|apply operand_range].
  - eexists. split; [done|]. unfold csr_result. cbn -[view_read]. by auto.
Qed.
End effect.
End views.

Lemma csr_view_not_fp c : c ∈ csr_views -> is_fp_csr (v_addr c) = false.
Proof.
  intros Hc. repeat (apply elem_of_cons in Hc as [->|Hc]; [reflexivity|]). by apply elem_of_nil in Hc.
Qed.
Lemma lor_word a b : 0 <= a < 2 ^ 32 -> 0 <= b < 2 ^ 32 -> 0 <= Z.lor a b < 2 ^ 32.
Proof.
  intros Ha Hb. apply bit_op_range; [lia|apply Z.lor_nonneg; lia|].
  intros i Hi. by rewrite Z.lor_spec, (testbit_high 32 a), (testbit_high 32 b).
Qed.
Lemma csr_clear_word a b : 0 <= a < 2 ^ 32 -> 0 <= b < 2 ^ 32 -> 0 <= csr_clear a b < 2 ^ 32.
Proof.
  intros Ha Hb. unfold csr_clear. apply bit_op_range; [lia|apply Z.land_nonneg; lia|].
  intros i Hi. by rewrite Z.land_spec, (testbit_high 32 a).
Qed.

(** * The properties *)

(** C25 The CSR instructions on the masked registers (status, interrupt enable and pending
    in their machine, supervisor and user views, trap vectors, delegation, counter
    control, scratch, cause and trap value): when the access is allowed, the destination
    receives what a read of the old value shows, the register keeps the bits outside the
    write mask and takes the others from the value written, set or cleared, the set and
    clear forms write only when their source field is not zero, and nothing else
    changes. *)
Theorem csr_instructions {E} `{Env E} `{BL : BuilderLaws} `{KleeSolver} σ sys (w : World E) op f imm cond c x :
  csr_ref op = Some (f, imm, cond) -> c ∈ csr_views -> csr (cur_instr (iss w)) = v_addr c ->
  0 <= csrs (iss w) (v_reg c) < 2 ^ 32 ->
  cval σ (regs (iss w) (rs1 (cur_instr (iss w)))) (AP 32 x) ->
  csr_forbidden (csrs (iss w)) (prv (iss w)) (v_addr c) (csr_writes (cur_instr (iss w)) imm cond) = false ->
  exists w', execute sys op w = (Ok tt, w') /\
    csr_result σ w c (csr_writes (cur_instr (iss w)) imm cond)
      (f (view_read c (csrs (iss w) (v_reg c))) (csr_operand w x imm)) w'.
Proof.
  intros Hop Hc Hi Ht Hx Hno. rewrite <- Hi in Hno.
  assert (is_fp_csr (csr (cur_instr (iss w))) = false) as Hfp by (rewrite Hi; by apply csr_view_not_fp).
  pose proof (exec_csr_write_run σ w c x Hc Hi Ht Hx (or_introl Hfp)) as Hw.
  pose proof (fun imm f Hf => exec_csr_modify_run σ w c x Hc Hi Ht Hx (or_introl Hfp) imm f Hf) as Hm.
  destruct op; try discriminate; injection Hop as <- <- <-; cbn [execute];
    [apply (Hw false)|apply (Hm false Z.lor lor_word)|apply (Hm false csr_clear csr_clear_word)
    |apply (Hw true)|apply (Hm true Z.lor lor_word)|apply (Hm true csr_clear csr_clear_word)];
    exact Hno.
Qed.

(** A forbidden CSR access raises the illegal instruction exception and changes
    nothing: writing a read-only register, a register of a more privileged mode, or a
    register of a mode the hart does not implement. *)
Theorem csr_access_checked {E} `{Env E} `{ExprBuilder} `{KleeSolver} sys (w : World E) op f imm cond :
  let i := cur_instr (iss w) in
  csr_ref op = Some (f, imm, cond) ->
  is_fp_csr (csr i) = false \/ Z.land (csrs (iss w) misa) misa_F <> 0 ->
  csr_forbidden (csrs (iss w)) (prv (iss w)) (csr i) (csr_writes i imm cond) = true ->
  execute sys op w = (Err (SimulationTrap EXC_ILLEGAL_INSTR (data i)), w).
Proof. intros i. apply csr_denied_run. Qed.

(** [MRET] is executed in every mode: also in user or supervisor mode, where the
    privileged architecture makes it an illegal instruction, it continues at [mepc] in
    whatever mode [mstatus.mpp] names (the reserved value 2 included). *)
Theorem mret_not_checked {E} `{Env E} `{ExprBuilder} `{KleeSolver} sys (w : World E) :
  exists w', execute sys MRET w = (Ok tt, w') /\
    prv (iss w') = get_field mstatus_mpp (csrs (iss w) mstatus) /\
    pc (iss w') = csrs (iss w) mepc /\
    get_field mstatus_mie (csrs (iss w') mstatus) = get_field mstatus_mpie (csrs (iss w) mstatus).
Proof.
  destruct w as [s tr e]. destruct (return_run s tr e MachineMode) as (s' & Hr & Hp & Hpc & _ & Hie);
    [by left|]. exists (mkWorld s' tr e). split; [exact Hr|]. split; [exact Hp|split; [exact Hpc|exact Hie]].
Qed.

(** ** Witnesses *)

#[local] Instance witness_builder : ExprBuilder := solver_builder.
#[local] Instance witness_solver : KleeSolver := search_solver [].
#[local] Instance witness_env : Env ram := ram_env.

(** [csrrs a1, sstatus, a0] in machine mode, with 0x304 in [a0]: only the bit of the mask
    ([spp]) is set. *)
Definition sample_csrrs : Instruction := Instr 0x100525f3.
Lemma csr_instructions_witness :
  exists w', execute None CSRRS (sample_at sample_csrrs) = (Ok tt, w') /\
    csrs (iss w') mstatus = 0x100.
Proof.
  destruct (csr_instructions (BL := solver_builder_laws) sample_input None (sample_at sample_csrrs)
    CSRRS Z.lor false true (mkView SSTATUS_ADDR mstatus SSTATUS_MASK SSTATUS_MASK) 0x304)
    as (w' & Hrun & Hcsr & _).
  - reflexivity.
  - do 4 right. left. 
  - vm_compute. reflexivity.
  - vm_compute. split; [discriminate|reflexivity].
  - exact sample_symbolic_cval.
  - vm_compute. reflexivity.
  - exists w'. split; [exact Hrun|]. etransitivity; [exact Hcsr|]. vm_compute. reflexivity.
Defined.

(** [csrrw a1, cycle, a0]: the register is read-only. *)
Lemma csr_access_checked_witness :
  execute None CSRRW (sample_at (Instr 0xc00515f3)) =
    (Err (SimulationTrap EXC_ILLEGAL_INSTR 0xc00515f3), sample_at (Instr 0xc00515f3)).
Proof.
  refine (csr_access_checked None (sample_at (Instr 0xc00515f3)) CSRRW (fun _ v => v) false false _ _ _).
  - reflexivity.
  - left. reflexivity.
  - vm_compute. reflexivity.
Defined.
