(* ===== verification/MemSound.v ===== *)
(** The memory interface is a sound environment for the simulator: it keeps the concolic
    memory a view of bytes and what loads return are views of words, whatever the devices
    on the bus do, as long as they keep to the interface too. *)
From S2P Require Import Prelude Bits Csr APInt KExpr KType KBuilder KBuilderSound Concolic ConcMem.
From S2P Require Import PathTrace Iss IssExec Platform IssSound Mmu Bus MemIf MemSpec.

(** * The invariant and what the devices promise *)

(** A transaction carries bytes, and a view of at most a word or of the size of the buffer. *)
Definition payload_ok (σ : assignment) (n : nat) (p : payload) : Prop :=
  Forall byte_ok (data_ptr p) /\ length (data_ptr p) = n /\
  forall c, extension p = Some c -> exists v, ap_width v <= Z.max 32 (8 * Z.of_nat n) /\ cval σ c v.

Definition mem_sys_ok {D} (σ : assignment) (inv : D -> Prop) (e : MemSys D) : Prop :=
  inv (devices e) /\ exists f, mem_view σ (sm_memory (ram e)) f.

Class PlatformLaws (σ : assignment) (D : Type) `{Platform D} := {
  dev_inv : D -> Prop;
  device_transport_law id p delay n : payload_ok σ n p ->
    yields (shared_ok σ (mem_sys_ok σ dev_inv)) (device_transport id p delay)
      (fun r => payload_ok σ n r.1);
  wait_lock_event_law : keeps (shared_ok σ (mem_sys_ok σ dev_inv)) sys_wait_lock_event;
  mtime_law : keeps (shared_ok σ (mem_sys_ok σ dev_inv)) sys_update_and_get_mtime;
  cover_instr_law a : keeps (shared_ok σ (mem_sys_ok σ dev_inv)) (sys_cover_instr a);
  cover_branch_law a b : keeps (shared_ok σ (mem_sys_ok σ dev_inv)) (sys_cover_branch a b);
  current_index_law : keeps (shared_ok σ (mem_sys_ok σ dev_inv)) sys_current_index;
  wait_wfi_law : keeps (shared_ok σ (mem_sys_ok σ dev_inv)) sys_wait_wfi;
  need_sync_law : keeps (shared_ok σ (mem_sys_ok σ dev_inv)) sys_need_sync;
  sync_law : keeps (shared_ok σ (mem_sys_ok σ dev_inv)) sys_sync;
}.

Section sound.
Context {D : Type} `{Platform D} `{!ExprBuilder} (σ : assignment) `{!PlatformLaws σ D} `{!BuilderLaws}.
#[local] Open Scope sm_scope.
Local Abbreviation E := (MemSys D).
Local Abbreviation ok := (shared_ok (E := E) σ (mem_sys_ok σ dev_inv)).

(** ** Primitives *)

Lemma env_gets_keeps {A} (f : E -> A) : keeps ok (env_gets f).
Proof. apply keeps_gets. Qed.
Lemma env_assert_keeps b : keeps ok (env_assert b).
Proof. destruct b; [apply keeps_ret|apply keeps_throw]. Qed.
Lemma env_asserted_keeps {A} (o : option A) : keeps ok (env_asserted o).
Proof. destruct o; [apply keeps_ret|apply keeps_throw]. Qed.
Lemma env_raise_keeps {A} r v : keeps ok (env_raise_trap (A := A) r v).
Proof. apply keeps_throw. Qed.
Lemma core_csr_keeps r f : keeps ok (core_csr r f).
Proof. apply keeps_gets. Qed.
(** A change outside the memory and the devices. *)
Lemma env_modify_keeps (f : E -> E) : (forall e, devices (f e) = devices e /\ ram (f e) = ram e) ->
  keeps ok (env_modify f).
Proof.
  intros Hf. apply keeps_modify. intros s [[Hd Hm] Ht]. split; [|done].
  cbn. destruct (Hf (sh_env s)) as [Hd' Hm']. split; [by rewrite Hd'|by rewrite Hm'].
Qed.
Lemma env_asserted_yields {A} (o : option A) (P : A -> Prop) :
  (forall a, o = Some a -> P a) -> yields ok (env_asserted o) P.
Proof. intros Ho. destruct o; [apply yields_ret; auto|apply yields_throw]. Qed.

Hint Resolve env_gets_keeps env_assert_keeps env_asserted_keeps env_raise_keeps core_csr_keeps
  wait_lock_event_law : keeps.
Hint Extern 1 (keeps _ (env_modify _)) => apply env_modify_keeps; intros ?; split; reflexivity : keeps.

Lemma quantum_keeper_inc_keeps t : keeps ok (quantum_keeper_inc t).
Proof. by apply env_modify_keeps. Qed.
Lemma atomic_unlock_keeps : keeps ok atomic_unlock.
Proof. by apply env_modify_keeps. Qed.
Lemma wait_keeps h : keeps ok (wait_for_access_rights h).
Proof.
  unfold wait_for_access_rights. keeps_step; [auto with keeps|]. apply keeps_when.
  unfold wait_until_unlocked. induction lock_patience as [|n IH]; cbn; keeps_step; [auto with keeps| |auto with keeps|].
  all: keeps_solve.
Qed.
Lemma lock_keeps h : keeps ok (lock h).
Proof.
  unfold lock. keeps_step; [auto with keeps|]. keeps_step.
  - apply keeps_when. unfold wait_until_unlocked.
    induction lock_patience as [|n IH]; cbn; keeps_step; [auto with keeps| |auto with keeps|]; keeps_solve.
  - keeps_solve.
Qed.
Hint Resolve quantum_keeper_inc_keeps atomic_unlock_keeps wait_keeps lock_keeps : keeps.

(** ** The memory *)

Lemma read_data_yields n p : payload_ok σ n p -> (0 < n)%nat ->
  yields ok (read_data p) (payload_ok σ n).
Proof.
  intros (Hb & Hl & Hx) Hn s Hs. unfold read_data. destruct Hs as [[Hd [f Hf]] Ht].
  rewrite (sm_bind_ok _ _ _ _ _ (eq_refl : env_gets _ s = _)), Hl.
  destruct (load_spec σ _ f (address p) n Hf Hn) as (c & Hload & Hc). cbn [get_ram sys_ram_host].
  rewrite Hload, !(sm_bind_ok _ _ _ _ _ (eq_refl : env_asserted (Some _) _ = _)).
  rewrite (BVCToBytes_spec σ c _ n Hc), (sm_bind_ok _ _ _ _ _ (eq_refl : env_asserted (Some _) _ = _)).
  split; [split; [split; [done|by exists f]|done]|].
  split; [apply le_bytes_ok|]. split; [apply length_le_bytes|]. intros c' [= <-].
  eexists. split; [|exact Hc]. cbn. lia.
Qed.

Lemma write_data_yields n p : payload_ok σ n p -> (0 < n)%nat ->
  yields ok (write_data p) (payload_ok σ n).
Proof.
  intros Hp Hn. pose proof Hp as (Hb & Hl & Hx). unfold write_data.
  eapply (yields_bind _ _ _ (fun c => exists v, cval σ c v)).
  { destruct (extension p) as [c|].
    - apply yields_ret. destruct (Hx c eq_refl) as (v & _ & Hc). by exists v.
    - destruct (BVC_bytes_spec σ (data_ptr p) false) as (c & -> & Hc); [by destruct (data_ptr p); cbn in Hl; [lia|]|done|].
      cbn [env_asserted]. intros s Hs. unfold sm_bind, sm_ret. split; [done|]. by eexists. }
  intros c (v & Hc) s Hs. destruct Hs as [[Hd [f Hf]] Ht].
  rewrite (sm_bind_ok _ _ _ _ _ (eq_refl : env_gets _ s = _)), Hl. cbn [get_ram sys_ram_host].
  destruct (store_spec σ _ f (address p) c v n Hf Hc) as (m' & -> & Hm').
  rewrite (sm_bind_ok _ _ _ _ _ (eq_refl : env_asserted (Some _) _ = _)). cbn. split; [|done].
  split; [|done]. split; [done|]. by eexists.
Qed.

Lemma memory_transport_yields n p delay : payload_ok σ n p -> (0 < n)%nat ->
  yields ok (memory_transport p delay) (fun r => payload_ok σ n r.1).
Proof.
  intros Hp Hn. unfold memory_transport. eapply (yields_bind _ _ _ (payload_ok σ n)).
  - unfold memory_transport_dbg. eapply yields_bind; [apply keeps_yields, env_gets_keeps|]. intros sz _.
    destruct (_ <? _); [by apply yields_ret|].
    destruct (command p); [by apply read_data_yields|by apply write_data_yields|by apply yields_ret].
  - intros p' Hp'. by apply yields_ret.
Qed.

(** ** Transactions *)

Lemma do_transaction_yields n p : payload_ok σ n p -> (0 < n)%nat ->
  yields ok (do_transaction p) (payload_ok σ n).
Proof.
  intros Hp Hn. unfold do_transaction. eapply yields_bind; [apply keeps_yields, env_gets_keeps|].
  intros t _. eapply (yields_bind _ _ _ (fun r => payload_ok σ n r.1)).
  - unfold bus_transport. destruct (bus_decode ports (address p)) as [[id m]|]; [|by apply yields_ret].
    unfold target_transport. destruct (id =? ram_port)%nat;
      [by apply memory_transport_yields|by apply device_transport_law].
  - intros [p' t'] Hp'. cbn in Hp'. eapply yields_bind; [apply keeps_yields, env_gets_keeps|]. intros now _.
    eapply yields_bind; [apply keeps_yields, env_assert_keeps|]. intros _ _.
    eapply yields_bind; [apply keeps_yields; auto with keeps|]. intros _ _.
    destruct (is_response_error p'); [destruct (command p'); apply yields_throw|by apply yields_ret].
Qed.

Lemma zeros_ok n : Forall byte_ok (replicate n 0).
Proof. apply Forall_replicate. by unfold byte_ok. Qed.

Lemma do_read_yields addr n : (0 < n)%nat ->
  yields ok (do_read addr n)
    (fun c => exists v, ap_width v <= Z.max 32 (8 * Z.of_nat n) /\ cval σ c v).
Proof.
  intros Hn. unfold do_read. eapply yields_bind; [apply (do_transaction_yields n); [|done]|].
  { split; [apply zeros_ok|]. split; [apply length_replicate|done]. }
  intros p (Hb & Hl & Hx). destruct (extension p) as [c|]; [apply yields_ret, Hx, eq_refl|].
  destruct (BVC_bytes_spec σ (data_ptr p) false) as (c & -> & Hc);
    [by destruct (data_ptr p); cbn in Hl; [lia|]|done|].
  cbn [env_asserted]. intros s Hs. unfold sm_bind, sm_ret. split; [done|]. eexists. split; [|exact Hc].
  cbn. lia.
Qed.
Lemma do_write_keeps addr c n : is_word σ c -> (0 < n)%nat -> keeps ok (do_write addr c n).
Proof.
  intros [x Hc] Hn. unfold do_write. rewrite (BVCToBytes_spec σ c _ n Hc).
  set (p := mkPayload TLM_WRITE_COMMAND addr (le_bytes n (ap_val (AP 32 x))) (Some c) TLM_OK_RESPONSE).
  change (keeps ok (do_transaction p ;;; sm_ret tt)). apply keeps_bind; [|intros; apply keeps_ret].
  eapply yields_keeps, (do_transaction_yields n); [|done]. split; [apply le_bytes_ok|].
  split; [apply length_le_bytes|]. intros c' [= <-]. exists (AP 32 x). split; [cbn; lia|done].
Qed.
Lemma do_raw_keeps cmd addr data : Forall byte_ok data -> data <> [] ->
  keeps ok (do_raw_transaction cmd addr data).
Proof.
  intros Hb Hne. unfold do_raw_transaction. keeps_step; [|apply keeps_ret].
  eapply yields_keeps, (do_transaction_yields (length data)); [by split|].
  destruct data; [done|cbn; lia].
Qed.
Lemma concrete_load_keeps n addr : (0 < n)%nat -> keeps ok (concrete_load_data n addr).
Proof.
  intros Hn. unfold concrete_load_data. keeps_step; [apply wait_keeps|]. keeps_step; [|apply keeps_ret].
  apply do_raw_keeps; [apply zeros_ok|by destruct n; [lia|]].
Qed.
Lemma concrete_store_keeps n addr v : (0 < n)%nat -> keeps ok (concrete_store_data n addr v).
Proof.
  intros Hn. unfold concrete_store_data. keeps_step; [apply wait_keeps|].
  keeps_step; [|apply atomic_unlock_keeps]. apply do_raw_keeps; [apply le_bytes_ok|by destruct n; [lia|]].
Qed.

(** ** Translation *)

Lemma load_pte_keeps vm a : keeps ok (load_pte vm a).
Proof.
  unfold load_pte. keeps_step; [auto with keeps|]. keeps_step; [auto with keeps|].
  keeps_step; [auto with keeps|]. destruct (ptesize vm =? 4); apply concrete_load_keeps; lia.
Qed.
Lemma update_ad_keeps type a pte : keeps ok (update_ad type a pte).
Proof.
  unfold update_ad. destruct (_ =? _); [apply keeps_ret|]. keeps_step; [auto with keeps|].
  keeps_step; [apply keeps_ret|]. keeps_step; [apply concrete_store_keeps; lia|apply keeps_ret].
Qed.
Lemma walk_levels_keeps vm type s sum mxr va n : forall base,
  keeps ok (walk_levels vm type s sum mxr va n base).
Proof.
  induction n as [|i IH]; intros base; [apply keeps_ret|]. cbn [walk_levels].
  keeps_step; [apply load_pte_keeps|].
  repeat match goal with |- keeps _ (if ?b then _ else _) => destruct b end; try apply keeps_ret; [apply IH|].
  keeps_step; [apply update_ad_keeps|]. keeps_step; apply keeps_ret.
Qed.
Lemma walk_keeps va type mode : keeps ok (walk va type mode).
Proof.
  unfold walk, decode_vm_info, check_vaddr_extension. do 2 (keeps_step; [auto with keeps|]).
  keeps_step; [repeat (keeps_step; [auto with keeps|]); cbn [switch];
    repeat match goal with |- keeps _ (if ?b then _ else _) => destruct b end; auto with keeps|].
  keeps_step; [keeps_step; auto with keeps|]. keeps_step; [apply walk_levels_keeps|].
  keeps_step; auto with keeps.
Qed.
Lemma v2p_keeps va type : keeps ok (v2p va type).
Proof.
  unfold v2p. keeps_step; [auto with keeps|]. keeps_step; [|apply keeps_ret].
  unfold translate_virtual_to_physical_addr. keeps_step; [auto with keeps|].
  keeps_step; [apply keeps_ret|]. keeps_step; [apply keeps_gets|]. keeps_step; [apply keeps_ret|].
  keeps_step; [apply quantum_keeper_inc_keeps|]. keeps_step; [auto with keeps|].
  keeps_step; [auto with keeps|]. keeps_step; [apply keeps_ret|]. keeps_step; [apply walk_keeps|].
  keeps_step; [|apply keeps_ret]. by apply env_modify_keeps.
Qed.
Hint Resolve v2p_keeps : keeps.

(** ** Accesses *)

Lemma symbolic_load_yields a n : (0 < n)%nat ->
  yields ok (symbolic_load_data a n)
    (fun c => exists v, ap_width v <= Z.max 32 (8 * Z.of_nat n) /\ cval σ c v).
Proof.
  intros Hn. unfold symbolic_load_data. do 3 (eapply yields_bind;
    [apply keeps_yields; first [apply wait_keeps|apply env_asserted_keeps|apply v2p_keeps]|intros ? _]).
  by apply do_read_yields.
Qed.
Lemma symbolic_store_keeps a c n : is_word σ c -> (0 < n)%nat -> keeps ok (symbolic_store_data a c n).
Proof.
  intros Hc Hn. unfold symbolic_store_data. do 3 (keeps_step;
    [first [apply wait_keeps|apply env_asserted_keeps|apply v2p_keeps]|]).
  keeps_step; [by apply do_write_keeps|apply atomic_unlock_keeps].
Qed.

Lemma widen_yields k c v : ap_width v <= 32 -> cval σ c v -> yields ok (widen k c) (is_word σ).
Proof.
  intros Hw Hc. unfold widen.
  assert (is_word σ (cv_sext c 32)) as Hs.
  { eapply word_intro; [apply (cv_sext_cval σ _ _ 32 Hc Hw)|done]. }
  destruct k; [by apply yields_ret..| |]; rewrite (cv_getWidth_spec σ c v Hc); intros s Hok;
    (split; [done|]); cbn; (destruct (Z.ltb_spec (ap_width v) 32);
      [eexists; by apply cv_zext_cval|apply (word_intro σ 32 c v Hc); lia]).
Qed.
Lemma load_value_yields k a : yields ok (load_value k a) (is_word σ).
Proof.
  unfold load_value. eapply yields_bind; [apply symbolic_load_yields; by destruct k; cbn; lia|].
  intros c (v & Hw & Hc). eapply widen_yields; [|exact Hc]. destruct k; cbn in Hw; lia.
Qed.
Lemma store_value_keeps k a c : is_word σ c -> keeps ok (store_value k a c).
Proof. intros Hc. apply symbolic_store_keeps; [done|]. by destruct k; cbn; lia. Qed.

#[export] Instance mem_env_laws : EnvLaws σ E.
Proof.
  apply (Build_EnvLaws σ E mem_env (mem_sys_ok σ dev_inv)); cbn.
  - intros a. unfold load_instr. keeps_step; [auto with keeps|]. apply concrete_load_keeps. lia.
  - intros. apply load_value_yields.
  - intros. by apply store_value_keeps.
  - intros a Ha. eapply yields_bind; [apply keeps_yields, lock_keeps|]. intros. apply load_value_yields.
  - intros a v Ha Hv. unfold atomic_store_word. do 2 (keeps_step; [auto with keeps|]).
    by apply store_value_keeps.
  - intros a Ha. eapply yields_bind; [apply keeps_yields, lock_keeps|]. intros _ _.
    eapply yields_bind; [by apply keeps_yields, env_modify_keeps|]. intros. apply load_value_yields.
  - intros a v Ha Hv. unfold atomic_store_conditional_word. keeps_step; [auto with keeps|].
    keeps_step; [|apply keeps_ret]. keeps_step; [auto with keeps|].
    match goal with |- keeps _ (if ?b then _ else _) => destruct b end;
      (keeps_step; [|apply keeps_ret]); [by apply store_value_keeps|apply atomic_unlock_keeps].
  - apply atomic_unlock_keeps.
  - apply mtime_law.
  - apply cover_instr_law.
  - apply cover_branch_law.
  - apply current_index_law.
  - apply wait_wfi_law.
  - apply quantum_keeper_inc_keeps.
  - apply need_sync_law.
  - apply sync_law.
Defined.

(** ** From reset *)

Lemma init_keeps `{KleeSolver} entry sp : keeps (core_ok σ) (init entry sp).
Proof.
  unfold init. eapply keeps_bind_yields; [apply BVC_word_yields|]. intros c Hc.
  apply keeps_bind; [|intros; by apply modify_keeps]. apply regs_write_keeps; [done|]. by apply word_fits.
Qed.
End sound.

(** The program loaded, the core at its entry point. *)
Definition reset_world {D} `{ExprBuilder} (hart : Z) (e_isa : bool) (u : option GenericMMU)
    (size : Z) (m : ConcolicMemory) (d : D) : World (MemSys D) :=
  mkWorld (ISS_new hart e_isa) Trace_new
    (mkMemSys BusLock_new None u 0 (mkSymbolicMemory size m) d).
Definition boot {D} `{Platform D} `{ExprBuilder} `{KleeSolver} (sys : option (M (MemSys D) unit))
    (fuel : nat) (entry sp : Z) : M (MemSys D) bool :=
  (init entry sp ;;; run sys fuel)%sm.

(** C30 The whole system is sound from reset: with any image in the concolic memory, behind the
    memory interface, the bus and the translation, and with any devices that pass on views,
    after any number of steps every register is a concolic view of a word under the input of
    the run, the memory is one of bytes, and every recorded path constraint holds for the
    input. *)
Theorem system_run_sound {D} `{PL : PlatformLaws σ D} `{BL : BuilderLaws} `{KL : KleeSolverLaws}
    sys fuel entry sp image dst m hart e_isa u size d :
  (forall h, sys = Some h -> keeps (core_ok (E := MemSys D) σ) h) -> dev_inv d ->
  load_data image dst mem_empty = Some m ->
  let w := (boot sys fuel entry sp (reset_world hart e_isa u size m d)).2 in
  (forall i, is_word σ (regs (iss w) i)) /\ (exists f, mem_view σ (sm_memory (ram (env w))) f) /\
  Forall (holds σ) (cs (tracer w)).
Proof.
  intros Hsys Hd Hm w. assert (core_ok σ w) as (Hr & [_ Hmem] & _ & Hcs); [|done].
  assert (core_ok (E := MemSys D) σ (reset_world hart e_isa u size m d)) as Hw0.
  { split; [|split].
    - intros i. eexists. split; [reflexivity|]. split; [by apply ap_wf_wrap|done].
    - split; [done|]. apply (load_data_view σ image dst mem_empty m); [|exact Hm]. eexists. apply mem_view_empty.
    - split; [apply Trace_new_ok|constructor]. }
  assert (keeps (core_ok (E := MemSys D) σ) (boot sys fuel entry sp)) as Hk.
  { unfold boot. apply keeps_bind; [apply (init_keeps σ)|intros ?]. by apply run_keeps. }
  unfold w. specialize (Hk _ Hw0). by destruct (boot _ _ _ _ _) as [[?|?] ?].
Qed.

(** ** Witness: a program in the memory of the sample platform that loads itself *)

#[local] Existing Instance sample_platform.
#[local] Instance witness_builder : ExprBuilder := solver_builder.
#[local] Instance witness_solver : KleeSolver := search_solver [].

Definition sample_platform_laws : PlatformLaws sample_input unit.
Proof.
  apply (Build_PlatformLaws sample_input unit sample_platform (fun _ => True));
    intros; try apply keeps_ret. by apply yields_ret.
Defined.

(** [lui a0, 0x80000; lw a1, 0(a0); nop] *)
Definition sample_image : list Z :=
  concat (map (le_bytes 4) [0x80000537; 0x00052583; 0x00000013]).
Definition sample_boot : World (MemSys unit) :=
  (boot None 2 0x80000000 0x80001000 (reset_world 0 false None 0x10000
     (default mem_empty (load_data sample_image 0 mem_empty)) tt)).2.

Lemma system_run_sound_witness :
  getValue 32 (concrete (regs (iss sample_boot) 11)) = Some (le_value (firstn 4 sample_image)) /\
  (forall i, is_word sample_input (regs (iss sample_boot) i)) /\
  exists f, mem_view sample_input (sm_memory (ram (env sample_boot))) f.
Proof.
  split; [vm_compute; reflexivity|].
  destruct (system_run_sound (PL := sample_platform_laws) (BL := solver_builder_laws)
    (KL := search_solver_laws []) None 2 0x80000000 0x80001000 sample_image 0
    (default mem_empty (load_data sample_image 0 mem_empty)) 0 false None 0x10000 tt)
    as (Hr & Hm & _); [discriminate|exact I|vm_compute; reflexivity|exact (conj Hr Hm)].
Defined.
