(* ===== verification/MemTables.v ===== *)
(** The memory behind the bus as the place of the page tables: what the address translation
    relies on holds of the memory interface, so its theorems apply to the whole system, and
    translated loads and stores reach the physical addresses the page tables give. *)
From S2P Require Import Prelude Bits Csr APInt KExpr KBuilder KBuilderSound Concolic ConcMem.
From S2P Require Import PathTrace Iss Mmu MmuSpec Bus MemIf MemSpec.

Section tables.
Context {D : Type} `{Platform D} `{!ExprBuilder} (σ : assignment) (size : Z) `{!BuilderLaws}.
#[local] Open Scope sm_scope.
Local Abbreviation E := (MemSys D).

Definition ram_view (e : E) (f : bytemem) : Prop := mem_view σ (sm_memory (ram e)) f.

(** ** Concrete accesses *)

Lemma raw_read_run (s : Shared E) a n off f : (0 < n)%nat -> ram_view (sh_env s) f ->
  ram_offset (sm_size (ram (sh_env s))) a (Z.of_nat n) = Some off ->
  do_raw_transaction TLM_READ_COMMAND a (replicate n 0) s =
    (Ok (read_bytes f off n), with_env (pass_time 10 (sh_env s)) s).
Proof.
  intros Hn Hf Hoff. set (p := mkPayload TLM_READ_COMMAND a (replicate n 0) None TLM_OK_RESPONSE).
  destruct (read_data_run σ s (set_address off p) f Hf (replicate_ne n Hn)) as (c & Hrun & _).
  cbn [set_address p data_ptr address] in Hrun. rewrite length_replicate in Hrun.
  set (q := set_extension (Some c) (set_data (read_bytes f off n) (set_address off p))) in *.
  assert (do_transaction p s = (Ok q, with_env (pass_time 10 (sh_env s)) s)) as Ht.
  { apply (do_transaction_ram s p q off (sh_env s)); [|cbn [command p]; rewrite Hrun; by destruct s|done|done].
    unfold data_length. cbn. by rewrite length_replicate. }
  unfold do_raw_transaction. fold p. by rewrite (sm_bind_ok _ _ _ _ _ Ht).
Qed.
Lemma raw_write_run (s : Shared E) a bs off f : bs <> [] -> Forall byte_ok bs -> ram_view (sh_env s) f ->
  ram_offset (sm_size (ram (sh_env s))) a (Z.of_nat (length bs)) = Some off ->
  exists m', do_raw_transaction TLM_WRITE_COMMAND a bs s =
      (Ok bs, with_env (pass_time 10 (write_ram m' (sh_env s))) s) /\
    mem_view σ m' (write_bytes f off bs).
Proof.
  intros Hne Hb Hf Hoff. set (p := mkPayload TLM_WRITE_COMMAND a bs None TLM_OK_RESPONSE).
  destruct (write_data_run σ s (set_address off p) f (AP 32 (le_value bs)) Hf Hne) as (m' & Hrun & Hm'); [by split|].
  exists m'. split; [|by rewrite le_bytes_value in Hm'].
  unfold do_raw_transaction. fold p.
  by rewrite (sm_bind_ok _ _ _ _ _
    (do_transaction_ram s p (set_address off p) off (write_ram m' (sh_env s)) Hoff Hrun eq_refl eq_refl)).
Qed.

Lemma concrete_load_run (s : Shared E) a n off f : (0 < n)%nat -> accessible (sh_env s) ->
  ram_view (sh_env s) f -> ram_offset (sm_size (ram (sh_env s))) a (Z.of_nat n) = Some off ->
  concrete_load_data n a s =
    (Ok (le_value (read_bytes f off n)), with_env (pass_time 10 (sh_env s)) s).
Proof.
  intros Hn Ha Hf Hoff. unfold concrete_load_data. rewrite (sm_bind_ok _ _ _ _ _ (wait_run s Ha)).
  by rewrite (sm_bind_ok _ _ _ _ _ (raw_read_run s a n off f Hn Hf Hoff)).
Qed.
Lemma concrete_store_run (s : Shared E) a n v off f : (0 < n)%nat -> accessible (sh_env s) ->
  ram_view (sh_env s) f -> ram_offset (sm_size (ram (sh_env s))) a (Z.of_nat n) = Some off ->
  exists m', concrete_store_data n a v s = (Ok tt, with_env (stored m' (sh_env s)) s) /\
    mem_view σ m' (write_bytes f off (le_bytes n v)).
Proof.
  intros Hn Ha Hf Hoff.
  destruct (raw_write_run s a (le_bytes n v) off f) as (m' & Hrun & Hm');
    [by destruct n; [lia|]|apply le_bytes_ok|done|by rewrite length_le_bytes|].
  exists m'. split; [|done]. unfold concrete_store_data. rewrite (sm_bind_ok _ _ _ _ _ (wait_run s Ha)).
  by rewrite (sm_bind_ok _ _ _ _ _ Hrun).
Qed.

(** ** Words of the memory *)

Definition ram_word (e : E) (a : Z) : Z :=
  match ram_offset (sm_size (ram e)) a 4 with
  | Some off =>
      match load (sm_memory (ram e)) off 4 with
      | Some (Some c) => default 0 (getValue 32 (concrete c))
      | _ => 0
      end
  | None => 0
  end.
Lemma ram_word_view e f a off : ram_view e f -> ram_offset (sm_size (ram e)) a 4 = Some off ->
  ram_word e a = le_value (read_bytes f off 4).
Proof.
  intros Hf Hoff. unfold ram_word. rewrite Hoff.
  destruct (load_spec σ _ f off 4 Hf ltac:(lia)) as (c & -> & Hc). by rewrite (getValue_spec σ 32 c _ Hc).
Qed.

(** An aligned word of the memory, which has a fixed size, that does not wrap around its end. *)
Definition ram_backed (e : E) (a : Z) : Prop :=
  sm_size (ram e) = size /\ accessible e /\ (exists f, ram_view e f) /\ a mod 4 = 0 /\
  exists m, bus_decode ports a = Some (ram_port, m) /\
    ram_offset (sm_size (ram e)) a 4 = Some (a - port_start m) /\
    0 <= a - port_start m /\ a - port_start m + 4 <= 2 ^ 32.

Lemma decode_from_port ps i a a' m m' k :
  decode_from ps i a = Some (k, m) -> decode_from ps i a' = Some (k, m') -> m = m'.
Proof.
  assert (forall ps i a k m, decode_from ps i a = Some (k, m) -> (i <= k)%nat /\ ps !! (k - i)%nat = Some m) as Hd.
  { clear. induction ps as [|p ps IH]; intros i a k m Hd; [done|]. cbn in Hd. destruct (contains p a).
    - injection Hd as <- <-. by rewrite Nat.sub_diag.
    - destruct (IH _ _ _ _ Hd) as [Hle Hl]. split; [lia|]. by replace (k - i)%nat with (S (k - S i)) by lia. }
  intros [_ Hm]%Hd [_ Hm']%Hd. congruence.
Qed.

Lemma read_disjoint f off off' (bs : list Z) : 0 <= off -> off + 4 <= 2 ^ 32 ->
  0 <= off' -> off' + 4 <= 2 ^ 32 -> length bs = 4%nat -> off + 4 <= off' \/ off' + 4 <= off ->
  read_bytes (write_bytes f off bs) off' 4 = read_bytes f off' 4.
Proof.
  intros Hoff Hend Hoff' Hend' Hl Hdis. apply read_bytes_ext. intros i Hi. apply write_bytes_outside.
  intros j Hj. rewrite Hl in Hj. rewrite !wrap_small by lia. lia.
Qed.

Lemma words_apart a x b : a mod 4 = 0 -> x mod 4 = 0 -> x <> a ->
  (a - b) + 4 <= x - b \/ (x - b) + 4 <= a - b.
Proof. intros Ha Hx Hne. pose proof (Z.div_mod a 4). pose proof (Z.div_mod x 4). lia. Qed.

Lemma accessible_unlock (e : E) l : accessible e -> l = unlock hart_id (sys_lock e) ->
  locked l = true -> owner l = hart_id.
Proof.
  intros Ha -> Hl. unfold unlock in *. destruct (locked (sys_lock e)) eqn:Hk; cbn in *; [|congruence].
  destruct (owner (sys_lock e) =? hart_id); [done|]. by apply Ha.
Qed.

(** A store to a word changes that word alone. *)
Lemma store_word_tables (s : Shared E) a v m' f off x : ram_backed (sh_env s) a ->
  0 <= v < 2 ^ 32 -> ram_view (sh_env s) f ->
  ram_offset (sm_size (ram (sh_env s))) a 4 = Some off ->
  mem_view σ m' (write_bytes f off (le_bytes 4 v)) -> ram_backed (sh_env s) x ->
  ram_backed (stored m' (sh_env s)) x /\
  ram_word (stored m' (sh_env s)) x = if x =? a then v else ram_word (sh_env s) x.
Proof.
  intros (Hsz & Ha & _ & Hal & m & Hd & Hoff & Hlo & Hhi) Hv Hf Hoff' Hm' (_ & _ & _ & Hxal & mx & Hdx & Hxoff & Hxlo & Hxhi).
  rewrite Hoff in Hoff'. injection Hoff' as <-. pose proof (decode_from_port _ _ _ _ _ _ _ Hd Hdx) as <-.
  assert (ram_view (stored m' (sh_env s)) (write_bytes f (a - port_start m) (le_bytes 4 v))) as Hf' by done.
  split.
  - split; [done|]. split; [intros Hl; by eapply accessible_unlock|]. split; [by eexists|]. split; [done|]. by exists m.
  - erewrite (ram_word_view (stored m' (sh_env s))), (ram_word_view (sh_env s)) by done.
    destruct (Z.eqb_spec x a) as [->|Hne].
    + pose proof (read_write_bytes (le_bytes 4 v) f (a - port_start m)) as Hrw.
      rewrite length_le_bytes in Hrw. rewrite Hrw by lia. rewrite le_value_bytes. by apply wrap_small.
    + rewrite read_disjoint; [done..|apply length_le_bytes|by apply words_apart].
Qed.

#[export] Instance memory_tables : PageTables E.
Proof.
  refine {| pte_at := ram_word; backed := ram_backed |}.
  - intros e a (_ & _ & [f Hf] & _ & m & _ & Hoff & _). rewrite (ram_word_view e f a _ Hf Hoff).
    pose proof (read_bytes_ok σ _ f (a - port_start m) 4 Hf) as Hb.
    pose proof (le_value_bound _ Hb) as Hv. rewrite length_read_bytes in Hv. exact Hv.
  - intros u e. split; [done|]. by intros a Ha.
  - intros n s. eexists. split; [reflexivity|]. split; [done|]. by intros a Ha.
  - intros a s Hb. pose proof Hb as (_ & Ha & [f Hf] & _ & m & _ & Hoff & _). eexists. split.
    { rewrite (ram_word_view _ f a _ Hf Hoff). exact (concrete_load_run s a 4 _ f ltac:(lia) Ha Hf Hoff). }
    by split.
  - intros a v s Hb Hv. pose proof Hb as (_ & Ha & [f Hf] & _ & m & _ & Hoff & _).
    destruct (concrete_store_run s a 4 v _ f ltac:(lia) Ha Hf Hoff) as (m' & Hrun & Hm').
    exists (stored m' (sh_env s)). split; [exact Hrun|]. split; [done|]. intros x Hx.
    by eapply store_word_tables.
Defined.

(** ** Translated accesses *)

Lemma sv32_reads_root (pt : Z -> Z) t va (P : Z -> Prop) :
  Forall P (sv32_reads pt t va) -> exists a, P a.
Proof. unfold sv32_reads. destruct (_ && _); intros Hf; exists (root_entry t va); by inversion Hf. Qed.

(** The translation of an access of the core, in the memory that holds the page tables. *)
Lemma v2p_sv32 x mode (s : Shared E) : is_Some (sys_mmu (sh_env s)) ->
  0 <= x < 2 ^ 32 -> translates (sh_core s) mode -> effective_mode (sh_core s) STORE = mode ->
  mmu_ready (get_mmu (sh_env s)) -> tlb_coherent (sh_core s) (sh_env s) ->
  Forall (ram_backed (sh_env s))
    (sv32_reads (ram_word (sh_env s)) (core_translation (sh_core s) STORE mode) x) ->
  exists e' f', tables_grow (sh_env s) e' /\ ram_view e' f' /\ sm_size (ram e') = size /\
    match sv32 (ram_word (sh_env s)) (core_translation (sh_core s) STORE mode) x with
    | Some (a, pa) => 0 <= pa < 2 ^ 32 ->
        v2p x STORE s = (Ok pa, with_env e' s) /\ is_marked STORE (ram_word e' a)
    | None => v2p x STORE s = (Err (SimulationTrap EXC_STORE_AMO_PAGE_FAULT x), with_env e' s)
    end.
Proof.
  intros [u Hu] Hx Ht Heff Hready Hc Hb.
  destruct (tlb_transparent x STORE mode s Hx Ht Heff Hready Hc Hb) as (e' & Hg & Hrun).
  destruct (sv32_reads_root _ _ _ _ Hb) as [a Ha]. destruct (Hg a Ha) as [(Hsz & _ & [f' Hf'] & _) _].
  exists e', f'. split; [done|]. split; [done|]. split; [done|].
  assert (v2p x STORE s = translate_virtual_to_physical_addr x STORE s) as ->.
  { unfold v2p. rewrite (sm_bind_ok _ _ _ _ _ (eq_refl : env_gets _ s = _)). by rewrite Hu. }
  cbn [pte_at memory_tables] in Hrun. destruct (sv32 _ _ x) as [[a' pa]|]; [intros Hpa; by destruct (Hrun Hpa) as (? & ? & _)|apply Hrun].
Qed.
End tables.

(** C31 Translated loads and stores of the core reach memory where the page tables say: with the
    tables in the memory behind the bus, a load returns the bytes at the physical address
    Sv32 gives and a store writes them there, when the leaf entry of the page has its accessed
    bit 6 and its dirty bit 7 set, and the tables have changed in such bits only; without a
    translation both raise the page fault.  Loads are translated as stores: they need
    write permission, set the dirty bit, and raise the fault of a store. *)
Theorem virtual_memory_accesses {D} `{Platform D} `{!ExprBuilder} `{!BuilderLaws} σ
    (s : Shared (MemSys D)) mode kl ks addr value x y (size := sm_size (ram (sh_env s))) :
  cval σ addr (AP 32 x) -> cval σ value (AP 32 y) -> is_Some (sys_mmu (sh_env s)) ->
  translates (sh_core s) mode -> effective_mode (sh_core s) STORE = mode ->
  mmu_ready (get_mmu (sh_env s)) -> tlb_coherent (H0 := memory_tables σ size) (sh_core s) (sh_env s) ->
  Forall (ram_backed σ size (sh_env s))
    (sv32_reads (ram_word (sh_env s)) (core_translation (sh_core s) STORE mode) x) ->
  exists e' f', tables_grow (H0 := memory_tables σ size) (sh_env s) e' /\ ram_view σ e' f' /\
    match sv32 (ram_word (sh_env s)) (core_translation (sh_core s) STORE mode) x with
    | Some (a, pa) => 0 <= pa < 2 ^ 32 ->
        Z.testbit (ram_word e' a) 6 = true /\ Z.testbit (ram_word e' a) 7 = true /\
        (forall off, ram_offset size pa (Z.of_nat (load_size kl)) = Some off ->
           exists c, load_value kl addr s = (Ok c, with_env (pass_time 10 e') s) /\
             cval σ c (AP 32 (widened kl (le_value (read_bytes f' off (load_size kl)))))) /\
        (forall off, ram_offset size pa (Z.of_nat (store_size ks)) = Some off ->
           exists m', store_value ks addr value s = (Ok tt, with_env (stored m' e') s) /\
             mem_view σ m' (write_bytes f' off (le_bytes (store_size ks) y)))
    | None =>
        load_value kl addr s = (Err (SimulationTrap EXC_STORE_AMO_PAGE_FAULT x), with_env e' s) /\
        store_value ks addr value s =
          (Err (SimulationTrap EXC_STORE_AMO_PAGE_FAULT x), with_env e' s)
    end.
Proof.
  intros Hx Hy Hu Ht Heff Hready Hc Hb. pose proof (sv32_reads_root _ _ _ _ Hb) as (a & _ & Ha & _).
  assert (0 <= x < 2 ^ 32) as Hr by (by destruct Hx as (_ & [_ Hwf]%ap_wf_iff & _)).
  destruct (v2p_sv32 σ size x mode s Hu Hr Ht Heff Hready Hc Hb) as (e' & f' & Hg & Hf' & Hsz & Hrun).
  exists e', f'. split; [done|]. split; [done|].
  destruct (sv32 _ _ x) as [[a' pa]|] eqn:Hs; cycle 1.
  { destruct (access_untranslatable σ s _ addr x _ Hx Ha Hrun) as [Hl Hst]. by split. }
  intros Hpa. destruct (Hrun Hpa) as [Hv [H6 H7]]. rewrite <- Hsz.
  split; [done|]. split; [by apply H7|]. split; intros off Hoff.
  - exact (load_value_at σ s (with_env e' s) kl addr x pa off f' Hx Ha Hv Hf' Hoff).
  - exact (store_value_at σ s (with_env e' s) ks addr value x y pa off f' Hx Hy Ha Hv Hf' Hoff).
Qed.

(** ** Witness: page tables in the memory of the sample platform *)

#[local] Existing Instance sample_platform.
#[local] Instance witness_builder : ExprBuilder := solver_builder.

(** A root table on page [0x80000] whose first entry points to the table on page [0x80001],
    which maps page 1 to the page [0x80002], for users. *)
Definition table_image : list (Z * Z) := [(0x0, 0x20000401); (0x1004, 0x2000081f); (0x2010, 0xbeef)].
Definition table_memory : ConcolicMemory :=
  fold_right (fun w m => default m (load_data (le_bytes 4 w.2) w.1 m)) mem_empty table_image.
Definition table_world : Shared (MemSys unit) :=
  mkShared (mkCoreView (csr_set satp (2 ^ 31 + 0x80000) csr_table_init) UserMode)
    (mkMemSys BusLock_new None (Some (mkMMU true false (tlb MMU_new))) 0
       (mkSymbolicMemory 0x10000 table_memory) tt) 0 Trace_new.

Lemma table_memory_view : exists f, ram_view sample_input (sh_env table_world) f.
Proof.
  unfold ram_view. cbn [table_world sh_env ram sm_memory]. unfold table_memory.
  induction table_image as [|w l IH]; [eexists; apply mem_view_empty|]. cbn [fold_right].
  destruct (load_data _ _ _) as [m'|] eqn:Hl; [|exact IH].
  exact (load_data_view (H0 := witness_builder) (H1 := solver_builder_laws) sample_input _ _ _ m' IH Hl).
Qed.
Lemma table_backed :
  Forall (ram_backed sample_input 0x10000 (sh_env table_world)) [0x80000000; 0x80001004].
Proof.
  repeat constructor; try discriminate; try apply table_memory_view;
    (exists (mkPort 0x80000000 0x8001ffff); split; [reflexivity|]; split; [reflexivity|]; cbn; lia).
Qed.
Lemma table_coherent : tlb_coherent (H0 := memory_tables (H0 := witness_builder) (H1 := solver_builder_laws) sample_input 0x10000)
  (sh_core table_world) (sh_env table_world).
Proof. by apply (flushed_coherent _ _ (mkMMU true false (tlb MMU_new))). Qed.

Lemma virtual_memory_accesses_witness : exists e' m',
  Z.testbit (ram_word e' 0x80001004) 7 = true /\ store_value store_half_ (sample_concrete 32 0x1010) sample_symbolic table_world =
    (Ok tt, with_env (stored m' e') table_world).
Proof.
  destruct (virtual_memory_accesses (H0 := witness_builder) (H1 := solver_builder_laws) sample_input table_world UserMode
    load_half_ store_half_ (sample_concrete 32 0x1010) sample_symbolic 0x1010 0x0304
    ltac:(apply sample_concrete_cval; vm_compute; exact I) sample_symbolic_cval
    ltac:(by eexists) ltac:(by split; [vm_compute|left]) ltac:(vm_compute; reflexivity)
    ltac:(done) table_coherent)
    as (e' & f' & Hg & _ & Hrun).
  { assert (sv32_reads (ram_word (sh_env table_world))
      (core_translation (sh_core table_world) STORE UserMode) 0x1010 = [0x80000000; 0x80001004])
      as -> by (vm_compute; reflexivity). exact table_backed. }
  assert (sv32 (ram_word (sh_env table_world)) (core_translation (sh_core table_world) STORE UserMode)
    0x1010 = Some (0x80001004, 0x80002010)) as Hs by (vm_compute; reflexivity).
  rewrite Hs in Hrun. destruct (Hrun ltac:(lia)) as (_ & Hdirty & _ & Hstore).
  destruct (Hstore 0x2010 ltac:(reflexivity)) as (m' & Hst & _).
  exists e', m'. split; [exact Hdirty|exact Hst].
Defined.
