(* ===== verification/RegMap.v ===== *)
(** Memory-mapped registers (util/memory_map.h): ranges of bytes with callbacks, the routing
    of a transaction to one of them, and the views of integers the devices have on them. *)
From S2P Require Import Prelude Bits Concolic ConcMem Iss Bus.

(** * Ranges *)

(** [memcpy] into a vector of bytes. *)
Definition splice (off : nat) (src mem : list Z) : list Z :=
  take off mem ++ src ++ drop (off + length src) mem.

(** A [RegisterRange] of a device with state [S].  Its vector is a part of that state.  A
    callback is given the offset, the size and the delay of the access; no device of the
    repository looks at the transaction here. *)
Record RegisterRange (S : Type) := mkRange {
  rr_start : Z;
  rr_size : Z;
  rr_mem : S -> list Z;
  rr_put : list Z -> S -> S;
  readonly : bool;
  alignment : Z;
  pre_write_callback : Z -> Z -> Z -> SM S exn bool;
  post_write_callback : Z -> Z -> Z -> SM S exn unit;
  pre_read_callback : Z -> Z -> Z -> SM S exn bool;
  post_read_callback : Z -> Z -> Z -> SM S exn unit;
}.
Arguments mkRange {S}.
Arguments rr_start {S} r.
Arguments rr_size {S} r.
Arguments rr_mem {S} r.
Arguments rr_put {S} r.
Arguments readonly {S} r.
Arguments alignment {S} r.
Arguments pre_write_callback {S} r.
Arguments post_write_callback {S} r.
Arguments pre_read_callback {S} r.
Arguments post_read_callback {S} r.

Definition no_pre_callback {S} : Z -> Z -> Z -> SM S exn bool := fun _ _ _ => sm_ret true.
Definition no_post_callback {S} : Z -> Z -> Z -> SM S exn unit := fun _ _ _ => sm_ret tt.
(** The constructor: no callbacks, writable, alignment 1. *)
Definition RegisterRange_new {S} (start size : Z) (mem : S -> list Z) (put : list Z -> S -> S) :
    RegisterRange S :=
  mkRange start size mem put false 1 no_pre_callback no_post_callback no_pre_callback no_post_callback.

Section range.
Context {S : Type}.
#[local] Open Scope sm_scope.

Definition rr_contains (r : RegisterRange S) (addr : Z) : bool :=
  (rr_start r <=? addr) && (addr <=? u64 (rr_start r + rr_size r - 1)).
Definition to_local (r : RegisterRange S) (addr : Z) : Z := u64 (addr - rr_start r).
Definition dev_assert (b : bool) : SM S exn unit := if b then sm_ret tt else sm_throw AssertionFailed.
Definition ensure (b : bool) : SM S exn unit := if b then sm_ret tt else sm_throw RuntimeError.

(** Both check the bounds before the callback. *)
Definition check_bounds (r : RegisterRange S) (addr len : Z) : SM S exn unit :=
  dev_assert (rr_contains r addr) ;;;
  mem <-- sm_gets (rr_mem r) ;;
  dev_assert (u64 (to_local r addr + len) <=? Z.of_nat (length mem)).

Definition rr_write (r : RegisterRange S) (addr : Z) (src : list Z) (delay : Z) : SM S exn unit :=
  let len := Z.of_nat (length src) in
  let local_addr := to_local r addr in
  check_bounds r addr len ;;;
  go <-- pre_write_callback r local_addr len delay ;;
  sm_when go
    (sm_modify (fun s => rr_put r (splice (Z.to_nat local_addr) src (rr_mem r s)) s) ;;;
     post_write_callback r local_addr len delay).

(** The destination stays as it is when the callback refuses. *)
Definition rr_read (r : RegisterRange S) (addr : Z) (dst : list Z) (delay : Z) : SM S exn (list Z) :=
  let len := Z.of_nat (length dst) in
  let local_addr := to_local r addr in
  check_bounds r addr len ;;;
  go <-- pre_read_callback r local_addr len delay ;;
  if go : bool then
    mem <-- sm_gets (rr_mem r) ;;
    post_read_callback r local_addr len delay ;;;
    sm_ret (take (length dst) (drop (Z.to_nat local_addr) mem))
  else sm_ret dst.

Definition process (r : RegisterRange S) (trans : payload) (delay : Z) : SM S exn payload :=
  let addr := address trans in
  ensure ((addr mod alignment r =? 0) && (data_length trans mod alignment r =? 0)) ;;;
  match command trans with
  | TLM_READ_COMMAND =>
      data <-- rr_read r addr (data_ptr trans) delay ;; sm_ret (set_data data trans)
  | TLM_WRITE_COMMAND =>
      ensure (negb (readonly r)) ;;; rr_write r addr (data_ptr trans) delay ;;; sm_ret trans
  | TLM_IGNORE_COMMAND => sm_throw RuntimeError
  end.

(** [vp::mm::route] *)
Fixpoint route (register_ranges : list (RegisterRange S)) (trans : payload) (delay : Z) :
    SM S exn payload :=
  match register_ranges with
  | [] => sm_throw RuntimeError
  | r :: rs => if rr_contains r (address trans) then process r trans delay else route rs trans delay
  end.
End range.

(** * Views

    [IntegerView] and [ArrayView] of integers of [w] bytes. *)

Definition view (w i : nat) (mem : list Z) : Z := le_value (take w (drop (w * i) mem)).
Definition set_view (w i : nat) (v : Z) (mem : list Z) : list Z := splice (w * i) (le_bytes w v) mem.

(** * Lemmas *)

Lemma length_splice off src mem : (off + length src <= length mem)%nat ->
  length (splice off src mem) = length mem.
Proof. intros H. unfold splice. rewrite !length_app, length_take, length_drop. lia. Qed.
Lemma splice_ok off src mem : Forall byte_ok src -> Forall byte_ok mem ->
  Forall byte_ok (splice off src mem).
Proof.
  intros Hs Hm. unfold splice. rewrite !Forall_app.
  split; [by apply Forall_take|]. split; [done|by apply Forall_drop].
Qed.
Lemma lookup_splice off src mem j : (off + length src <= length mem)%nat ->
  splice off src mem !! j =
    if decide (off <= j < off + length src)%nat then src !! (j - off)%nat else mem !! j.
Proof.
  intros Hl. unfold splice. assert (length (take off mem) = off) as Ht by (rewrite length_take; lia).
  destruct (decide _) as [[Hlo Hhi]|Hout].
  - rewrite lookup_app_r, Ht by lia. by rewrite lookup_app_l by lia.
  - destruct (Nat.lt_ge_cases j off) as [Hj|Hj].
    + rewrite lookup_app_l by lia. by apply lookup_take_lt.
    + rewrite lookup_app_r, Ht, lookup_app_r, lookup_drop by lia. f_equal. lia.
Qed.
(** What a range of bytes reads is decided by its bytes. *)
Lemma take_drop_ext n off (m1 m2 : list Z) :
  (forall j, (off <= j < off + n)%nat -> m1 !! j = m2 !! j) ->
  take n (drop off m1) = take n (drop off m2).
Proof.
  intros H. apply list_eq. intros j. destruct (Nat.lt_ge_cases j n) as [Hj|Hj].
  - rewrite !lookup_take_lt, !lookup_drop by lia. apply H. lia.
  - by rewrite !lookup_take_ge.
Qed.
Lemma take_drop_splice off src mem : (off + length src <= length mem)%nat ->
  take (length src) (drop off (splice off src mem)) = src.
Proof.
  intros Hl. unfold splice. rewrite drop_app_length' by (rewrite length_take; lia).
  by rewrite take_app_length.
Qed.

Lemma view_set_same w i v mem : (w * i + w <= length mem)%nat ->
  view w i (set_view w i v mem) = wrap (8 * Z.of_nat w) v.
Proof.
  intros Hl. unfold view, set_view. pose proof (take_drop_splice (w * i) (le_bytes w v) mem) as Ht.
  rewrite length_le_bytes in Ht. rewrite Ht by done. apply le_value_bytes.
Qed.
Lemma view_set_other w w' i j v mem : (w * i + w <= length mem)%nat ->
  (w' * j + w' <= w * i \/ w * i + w <= w' * j)%nat ->
  view w' j (set_view w i v mem) = view w' j mem.
Proof.
  intros Hl Hd. unfold view, set_view. f_equal. apply take_drop_ext. intros k Hk.
  rewrite lookup_splice by (by rewrite length_le_bytes). rewrite length_le_bytes.
  by rewrite decide_False by lia.
Qed.
Lemma set_view_at w i j v mem : (w * i + w <= length mem)%nat ->
  view w j (set_view w i v mem) = if (j =? i)%nat then wrap (8 * Z.of_nat w) v else view w j mem.
Proof.
  intros Hl. destruct (Nat.eqb_spec j i) as [->|Hne]; [by apply view_set_same|].
  apply view_set_other; [done|]. assert (j < i \/ i < j)%nat as [Hlt|Hlt] by lia;
    [left|right]; nia.
Qed.
Lemma length_set_view w i v mem : (w * i + w <= length mem)%nat ->
  length (set_view w i v mem) = length mem.
Proof. intros Hl. apply length_splice. by rewrite length_le_bytes. Qed.
Lemma set_view_ok w i v mem : Forall byte_ok mem -> Forall byte_ok (set_view w i v mem).
Proof. intros Hm. apply splice_ok; [apply le_bytes_ok|done]. Qed.
Lemma view_bound w i mem : Forall byte_ok mem -> 0 <= view w i mem < 2 ^ (8 * Z.of_nat w).
Proof.
  intros Hm. unfold view. pose proof (le_value_bound (take w (drop (w * i) mem))) as Hb.
  assert (Forall byte_ok (take w (drop (w * i) mem))) as Ht by (by apply Forall_take, Forall_drop).
  specialize (Hb Ht). rewrite length_take in Hb. split; [lia|].
  eapply Z.lt_le_trans; [apply Hb|]. apply Z.pow_le_mono_r; lia.
Qed.

(** ** Accesses inside a range *)

Section accesses.
Context {S : Type}.
#[local] Open Scope sm_scope.

(** The [n] bytes at an address are in the range, whose vector has the size announced. *)
Definition inside (r : RegisterRange S) (addr : Z) (n : nat) (s : S) : Prop :=
  0 <= rr_start r /\ rr_start r + rr_size r <= 2 ^ 63 /\ Z.of_nat (length (rr_mem r s)) = rr_size r /\
  rr_start r <= addr < rr_start r + rr_size r /\
  addr + Z.of_nat n <= rr_start r + rr_size r.

Lemma inside_contains r addr n s : inside r addr n s -> rr_contains r addr = true.
Proof.
  intros (H0 & H63 & _ & Ha & _). unfold rr_contains. rewrite wrap_small by lia.
  apply andb_true_iff. rewrite !Z.leb_le. lia.
Qed.
Lemma inside_local r addr n s : inside r addr n s -> to_local r addr = addr - rr_start r.
Proof. intros (H0 & H63 & _ & Ha & _). unfold to_local. by rewrite wrap_small by lia. Qed.
Lemma check_bounds_run r addr n s : inside r addr n s ->
  check_bounds r addr (Z.of_nat n) s = (Ok tt, s).
Proof.
  intros Hi. unfold check_bounds. rewrite (inside_contains r addr n s Hi), (inside_local r addr n s Hi).
  destruct Hi as (H0 & H63 & Hl & Ha & He). unfold sm_bind, dev_assert, sm_gets, sm_ret.
  rewrite wrap_small, Hl by lia. by destruct (Z.leb_spec (addr - rr_start r + Z.of_nat n) (rr_size r)); [|lia].
Qed.

Lemma rr_read_run r addr dst delay s s' : inside r addr (length dst) s ->
  pre_read_callback r (addr - rr_start r) (Z.of_nat (length dst)) delay s = (Ok true, s') ->
  post_read_callback r (addr - rr_start r) (Z.of_nat (length dst)) delay s' = (Ok tt, s') ->
  rr_read r addr dst delay s =
    (Ok (take (length dst) (drop (Z.to_nat (addr - rr_start r)) (rr_mem r s'))), s').
Proof.
  intros Hi Hpre Hpost. unfold rr_read. rewrite (sm_bind_ok _ _ _ _ _ (check_bounds_run r addr _ s Hi)).
  rewrite (inside_local r addr _ s Hi), (sm_bind_ok _ _ _ _ _ Hpre).
  rewrite (sm_bind_ok _ _ _ _ _ (eq_refl : sm_gets _ s' = _)). by rewrite (sm_bind_ok _ _ _ _ _ Hpost).
Qed.
(** The state after the bytes are copied. *)
Definition copied (r : RegisterRange S) (addr : Z) (src : list Z) (s : S) : S :=
  rr_put r (splice (Z.to_nat (addr - rr_start r)) src (rr_mem r s)) s.
Lemma rr_write_run r addr src delay s : inside r addr (length src) s ->
  pre_write_callback r (addr - rr_start r) (Z.of_nat (length src)) delay s = (Ok true, s) ->
  rr_write r addr src delay s =
    post_write_callback r (addr - rr_start r) (Z.of_nat (length src)) delay (copied r addr src s).
Proof.
  intros Hi Hpre. unfold rr_write. rewrite (sm_bind_ok _ _ _ _ _ (check_bounds_run r addr _ s Hi)).
  by rewrite (inside_local r addr _ s Hi), (sm_bind_ok _ _ _ _ _ Hpre).
Qed.

Lemma process_read (r : RegisterRange S) trans delay s a s' : command trans = TLM_READ_COMMAND ->
  address trans mod alignment r = 0 -> data_length trans mod alignment r = 0 ->
  rr_read r (address trans) (data_ptr trans) delay s = (a, s') ->
  process r trans delay s =
    ((match a with Ok data => Ok (set_data data trans) | Err e => Err e end : result exn payload), s').
Proof.
  intros Hc Ha Hl Hr. unfold process, ensure. rewrite Ha, Hl, Hc. cbn.
  unfold sm_bind, sm_ret. rewrite Hr. by destruct a.
Qed.
Lemma process_write (r : RegisterRange S) trans delay s a s' : command trans = TLM_WRITE_COMMAND -> readonly r = false ->
  address trans mod alignment r = 0 -> data_length trans mod alignment r = 0 ->
  rr_write r (address trans) (data_ptr trans) delay s = (a, s') ->
  process r trans delay s =
    ((match a with Ok _ => Ok trans | Err e => Err e end : result exn payload), s').
Proof.
  intros Hc Hro Ha Hl Hw. unfold process, ensure. rewrite Ha, Hl, Hc, Hro. cbn.
  unfold sm_bind, sm_ret. rewrite Hw. by destruct a.
Qed.

(** ** Invariants of the device *)

Lemma dev_assert_keeps (I : S -> Prop) b : keeps I (dev_assert b).
Proof. destruct b; [apply keeps_ret|apply keeps_throw]. Qed.
Lemma ensure_keeps (I : S -> Prop) b : keeps I (ensure b).
Proof. destruct b; [apply keeps_ret|apply keeps_throw]. Qed.

(** The length of a transaction is an [unsigned int]. *)
Definition access_ok (trans : payload) : Prop :=
  Forall byte_ok (data_ptr trans) /\ data_length trans < 2 ^ 32.
(** The vector of the range keeps its size. *)
Definition sized (I : S -> Prop) (r : RegisterRange S) : Prop :=
  0 <= rr_start r /\ 0 < rr_size r /\ rr_start r + rr_size r <= 2 ^ 63 /\
  forall s, I s -> Z.of_nat (length (rr_mem r s)) = rr_size r.
(** Copying bytes into the range and the callback after it keep the invariant. *)
Definition write_keeps (I : S -> Prop) (r : RegisterRange S) (src : list Z) (delay : Z) : Prop :=
  forall off s, I s -> (off + length src <= length (rr_mem r s))%nat ->
    I (post_write_callback r (Z.of_nat off) (Z.of_nat (length src)) delay
         (rr_put r (splice off src (rr_mem r s)) s)).2.

Lemma rr_read_keeps (I : S -> Prop) (r : RegisterRange S) addr dst delay :
  (forall a n, keeps I (pre_read_callback r a n delay)) ->
  (forall a n, keeps I (post_read_callback r a n delay)) -> keeps I (rr_read r addr dst delay).
Proof.
  intros Hpre Hpost. unfold rr_read, check_bounds.
  keeps_step; [keeps_step; [apply dev_assert_keeps|keeps_step; [apply keeps_gets|apply dev_assert_keeps]]|].
  keeps_step; [apply Hpre|]. keeps_step; [|apply keeps_ret].
  keeps_step; [apply keeps_gets|]. keeps_step; [apply Hpost|apply keeps_ret].
Qed.
Lemma rr_write_keeps (I : S -> Prop) (r : RegisterRange S) addr src delay :
  sized I r -> Z.of_nat (length src) < 2 ^ 32 -> (forall a n, keeps I (pre_write_callback r a n delay)) ->
  write_keeps I r src delay -> keeps I (rr_write r addr src delay).
Proof.
  intros (H0 & Hpos & H63 & Hsz) Hsrc Hpre Hpost s Hs. unfold rr_write, check_bounds.
  unfold sm_bind at 1. unfold sm_bind at 1. unfold dev_assert at 1.
  destruct (rr_contains r addr) eqn:Hc; [|done]. unfold sm_ret at 1. unfold sm_bind at 1, sm_gets at 1.
  unfold dev_assert at 1.
  destruct (Z.leb_spec (u64 (to_local r addr + Z.of_nat (length src))) (Z.of_nat (length (rr_mem r s)))) as [Hb|];
    [|done].
  unfold sm_ret at 1. unfold sm_bind at 1.
  specialize (Hpre (to_local r addr) (Z.of_nat (length src)) s Hs).
  destruct (pre_write_callback _ _ _ _ s) as [[go|?] s1]; [|done]. destruct go; [|done]. cbn [sm_when].
  assert (0 <= to_local r addr < rr_size r) as Hl.
  { unfold rr_contains, to_local in *. apply andb_true_iff in Hc. rewrite !Z.leb_le in Hc.
    rewrite wrap_small in Hc by lia. rewrite wrap_small by lia. lia. }
  rewrite (Hsz s Hs), wrap_small in Hb by lia.
  specialize (Hpost (Z.to_nat (to_local r addr)) s1 Hpre). rewrite Z2Nat.id in Hpost by lia.
  unfold sm_bind, sm_modify.
  pose proof (Hsz s1 Hpre). specialize (Hpost ltac:(lia)).
  by destruct (post_write_callback _ _ _ _ _) as [[?|?] ?].
Qed.

Lemma process_keeps (I : S -> Prop) (r : RegisterRange S) trans delay :
  (forall a n, keeps I (pre_read_callback r a n delay)) ->
  (forall a n, keeps I (post_read_callback r a n delay)) ->
  (readonly r = false -> keeps I (rr_write r (address trans) (data_ptr trans) delay)) ->
  keeps I (process r trans delay).
Proof.
  intros Hpre Hpost Hw. unfold process. keeps_step; [apply ensure_keeps|].
  destruct (command trans); [keeps_step; [by apply rr_read_keeps|apply keeps_ret]| |apply keeps_throw].
  destruct (readonly r) eqn:Hro; cbn [negb ensure]; [intros s Hs; exact Hs|].
  keeps_step; [apply keeps_ret|]. keeps_step; [by apply Hw|apply keeps_ret].
Qed.
Lemma route_keeps (I : S -> Prop) (rs : list (RegisterRange S)) trans delay :
  Forall (fun r => keeps I (process r trans delay)) rs -> keeps I (route rs trans delay).
Proof.
  induction 1 as [|r rs Hr _ IH]; [apply keeps_throw|]. cbn. by destruct (rr_contains r (address trans)).
Qed.
End accesses.
