(* ===== verification/TlmMap.v ===== *)
(** Register banks and address maps of the peripherals (util/tlm_map.h): how a transaction
    becomes the read or write of a register, with the handler of the device around it. *)
From S2P Require Import Prelude Bits Concolic ConcMem Iss Bus RegMap.

(** * Registers *)

Record access_mode := mkMode { allow_read : bool; allow_write : bool }.
Definition read_write : access_mode := mkMode true true.
Definition read_only : access_mode := mkMode true false.
Definition write_only : access_mode := mkMode false true.
Definition can_read (m : access_mode) : bool := allow_read m.
Definition can_write (m : access_mode) : bool := allow_write m.

(** A device with state [S] has registers named by [R]; the name stands for [vptr]. *)
Class Registers (S R : Type) := {
  reg_value : R -> S -> Z;
  reg_assign : R -> Z -> S -> S;
}.

Record reg_mapping_t (R : Type) := mkReg { reg_addr : Z; vptr : R; reg_mode : access_mode; reg_mask : Z }.
Arguments mkReg {R}.
Arguments reg_addr {R} r.
Arguments vptr {R} r.
Arguments reg_mode {R} r.
Arguments reg_mask {R} r.
(** The defaults of the members. *)
Definition reg_new {R} (addr : Z) (v : R) : reg_mapping_t R := mkReg addr v read_write 0xffffffff.

Section map.
Context {S R : Type} `{Registers S R}.
#[local] Open Scope sm_scope.

(** Handlers work on the device and on the transaction. *)
Definition Handler : Type := SM (S * payload) exn unit.
Definition on_device {A} (m : SM S exn A) : SM (S * payload) exn A :=
  fun s => let '(r, d) := m s.1 in (r, (d, s.2)).
Definition get_trans : SM (S * payload) exn payload := sm_gets snd.
Definition set_trans_data (data : list Z) : Handler := sm_modify (fun s => (s.1, set_data data s.2)).

Definition bus_write (r : reg_mapping_t R) (new_value : Z) : SM S exn unit :=
  dev_assert (can_write (reg_mode r)) ;;;
  sm_modify (reg_assign (vptr r) (Z.land new_value (reg_mask r))).
Definition bus_read (r : reg_mapping_t R) : SM S exn Z :=
  dev_assert (can_read (reg_mode r)) ;;; sm_gets (reg_value (vptr r)).

Record register_access_t := mkAccess {
  acc_read : bool; acc_write : bool; acc_vptr : R; acc_nv : Z; acc_fn : Handler }.

(** The lambda [fn] of [try_handle]. *)
Definition access_fn (r : reg_mapping_t R) : Handler :=
  trans <-- get_trans ;;
  let off := Z.to_nat (address trans mod 4) in
  match command trans with
  | TLM_READ_COMMAND =>
      n <-- on_device (bus_read r) ;;
      set_trans_data (take (length (data_ptr trans)) (drop off (le_bytes 4 n)))
  | TLM_WRITE_COMMAND =>
      n <-- on_device (sm_gets (reg_value (vptr r))) ;;
      on_device (bus_write r (le_value (splice off (data_ptr trans) (le_bytes 4 n))))
  | TLM_IGNORE_COMMAND => sm_throw RuntimeError
  end.

(** [*new_vptr] reads four bytes whatever the length of the data: [beyond] is what follows
    the buffer. *)
Definition new_value (beyond : list Z) (trans : payload) : Z :=
  le_value (take 4 (data_ptr trans ++ beyond)).

(** [RegisterMapping::try_handle]; the hash map of registers is a list without duplicates. *)
Definition find_register (bank : list (reg_mapping_t R)) (addr : Z) : option (reg_mapping_t R) :=
  find (fun r => reg_addr r =? addr - addr mod 4) bank.
Definition bank_try_handle (bank : list (reg_mapping_t R)) (handler : register_access_t -> Handler)
    (beyond : list Z) : SM (S * payload) exn bool :=
  trans <-- get_trans ;;
  let addr := address trans in
  match find_register bank addr with
  | None => sm_ret false
  | Some r =>
      let is_read := bool_decide (command trans = TLM_READ_COMMAND) in
      let is_write := bool_decide (command trans = TLM_WRITE_COMMAND) in
      dev_assert (u64 (data_length trans + addr mod 4) <=? 4) ;;;
      dev_assert (is_read || is_write) ;;;
      dev_assert (can_read (reg_mode r) || negb is_read) ;;;
      dev_assert (can_write (reg_mode r) || negb is_write) ;;;
      let nv := if is_write then new_value beyond trans else 0 in
      handler (mkAccess is_read is_write (vptr r) nv (access_fn r)) ;;; sm_ret true
  end.

(** [AddressMapping::try_handle] *)
Definition address_try_handle (start end_ : Z) (mode : access_mode) (handler : Handler) :
    SM (S * payload) exn bool :=
  trans <-- get_trans ;;
  let addr := address trans in
  if (start <=? addr) && (addr <? end_) then
    dev_assert (u64 (addr + data_length trans) <=? end_) ;;;
    dev_assert (can_read mode || negb (bool_decide (command trans = TLM_READ_COMMAND))) ;;;
    dev_assert (can_write mode || negb (bool_decide (command trans = TLM_WRITE_COMMAND))) ;;;
    sm_modify (fun s => (s.1, set_address (u64 (addr - start)) s.2)) ;;;
    handler ;;; sm_ret true
  else sm_ret false.

(** [execute_memory_access] on a memory of the device. *)
Definition execute_memory_access (get : S -> list Z) (put : list Z -> S -> S) : Handler :=
  trans <-- get_trans ;;
  let off := Z.to_nat (address trans) in
  match command trans with
  | TLM_WRITE_COMMAND =>
      on_device (sm_modify (fun s => put (splice off (data_ptr trans) (get s)) s))
  | TLM_READ_COMMAND =>
      mem <-- on_device (sm_gets get) ;;
      set_trans_data (take (length (data_ptr trans)) (drop off mem))
  | TLM_IGNORE_COMMAND => sm_throw RuntimeError
  end.

(** [LocalRouter::transport] *)
Fixpoint router_transport (maps : list (SM (S * payload) exn bool)) : Handler :=
  match maps with
  | [] => sm_throw RuntimeError
  | try_handle :: maps =>
      done <-- try_handle ;; if done : bool then sm_ret tt else router_transport maps
  end.
End map.
