(* ===== verification/Plic.v ===== *)
(** The interrupt controller of the HiFive platform (platform/common/fe310_plic.h): its
    registers, the gateway, the choice of the next interrupt, claim and completion, and the
    thread that signals the harts; that a claim takes the pending enabled interrupt of the
    highest priority, and that the lines to the harts follow the controller's state. *)
From S2P Require Import Prelude Bits Concolic ConcMem Iss Bus RegMap.

(** * The controller *)

(** The template arguments. *)
Record plic_config := mkPlicConfig {
  NumberCores : nat; NumberInterrupts : nat; NumberInterruptEntries : nat; MaxPriority : Z }.

(** The vectors of the four register ranges, [hart_eip], what each hart was last told by
    [trigger_external_interrupt] and [clear_external_interrupt], and whether [e_run] is
    notified. *)
Record FE310_PLIC := mkPlic {
  regs_interrupt_priorities : list Z;
  regs_pending_interrupts : list Z;
  regs_hart_enabled_interrupts : list Z;
  regs_hart_config : list Z;
  hart_eip : nat -> bool;
  external_interrupt : nat -> bool;
  e_run : bool;
}.

Definition set_priorities v p := mkPlic v (regs_pending_interrupts p) (regs_hart_enabled_interrupts p)
  (regs_hart_config p) (hart_eip p) (external_interrupt p) (e_run p).
Definition set_pending v p := mkPlic (regs_interrupt_priorities p) v (regs_hart_enabled_interrupts p)
  (regs_hart_config p) (hart_eip p) (external_interrupt p) (e_run p).
Definition set_enabled v p := mkPlic (regs_interrupt_priorities p) (regs_pending_interrupts p) v
  (regs_hart_config p) (hart_eip p) (external_interrupt p) (e_run p).
Definition set_config v p := mkPlic (regs_interrupt_priorities p) (regs_pending_interrupts p)
  (regs_hart_enabled_interrupts p) v (hart_eip p) (external_interrupt p) (e_run p).
Definition set_e_run v p := mkPlic (regs_interrupt_priorities p) (regs_pending_interrupts p)
  (regs_hart_enabled_interrupts p) (regs_hart_config p) (hart_eip p) (external_interrupt p) v.

(** [hart_eip[hart] = level] with the call of the hart that goes with it. *)
Definition signal (hart : nat) (level : bool) (p : FE310_PLIC) : FE310_PLIC :=
  mkPlic (regs_interrupt_priorities p) (regs_pending_interrupts p) (regs_hart_enabled_interrupts p)
    (regs_hart_config p) (fun h => if (h =? hart)%nat then level else hart_eip p h)
    (fun h => if (h =? hart)%nat then level else external_interrupt p h) (e_run p).

Section plic.
Variable cfg : plic_config.
#[local] Open Scope sm_scope.

(** The four arrays; [hart_enabled_interrupts(n, i)] is element [n + i]: its rows have the
    default size 1. *)
Definition interrupt_priority (p : FE310_PLIC) (i : nat) : Z := view 4 i (regs_interrupt_priorities p).
Definition pending_interrupts (p : FE310_PLIC) (i : nat) : Z := view 4 i (regs_pending_interrupts p).
Definition hart_enabled_interrupts (p : FE310_PLIC) (n i : nat) : Z :=
  view 4 (n + i) (regs_hart_enabled_interrupts p).
Definition priority_threshold (p : FE310_PLIC) (n : nat) : Z := view 4 (2 * n) (regs_hart_config p).
Definition claim_response (p : FE310_PLIC) (n : nat) : Z := view 4 (2 * n + 1) (regs_hart_config p).

(** The constructor. *)
Definition FE310_PLIC_new : FE310_PLIC :=
  let zeros (words : nat) := replicate (4 * words) (0 : Z) in
  mkPlic (foldl (fun mem i => set_view 4 i 1 mem) (zeros (S (NumberInterrupts cfg)))
            (seq 0 (NumberInterrupts cfg)))
    (zeros (NumberInterruptEntries cfg))
    (zeros (NumberInterruptEntries cfg * NumberCores cfg)%nat)
    (zeros (2 * NumberCores cfg)%nat) (fun _ => false) (fun _ => false) false.

(** The words and bits of the interrupts: an element out of the array is a failed assertion. *)
Definition with_pending_word (irq_id : nat) (f : Z -> Z) : SM FE310_PLIC exn unit :=
  dev_assert (irq_id / 32 <? NumberInterruptEntries cfg)%nat ;;;
  sm_modify (fun p => set_pending
    (set_view 4 (irq_id / 32) (f (pending_interrupts p (irq_id / 32))) (regs_pending_interrupts p)) p).

Definition gateway_trigger_interrupt (irq_id : nat) : SM FE310_PLIC exn unit :=
  dev_assert ((0 <? irq_id) && (irq_id <? NumberInterrupts cfg))%nat ;;;
  with_pending_word irq_id (fun w => Z.lor w (Z.shiftl 1 (Z.of_nat (irq_id mod 32)))) ;;;
  sm_modify (set_e_run true).

Definition clear_pending_interrupt (irq_id : nat) : SM FE310_PLIC exn unit :=
  dev_assert (irq_id <? NumberInterrupts cfg)%nat ;;;
  with_pending_word irq_id (fun w => Z.land w (u32 (Z.lnot (Z.shiftl 1 (Z.of_nat (irq_id mod 32)))))).

(** One iteration of the loop of [hart_get_next_pending_interrupt] on [(min_id, max_priority)];
    [None] is a failed assertion. *)
Definition next_pending_step (p : FE310_PLIC) (hart_id : nat) (consider_threshold : bool)
    (acc : nat * Z) (i : nat) : option (nat * Z) :=
  let idx := (i / 32)%nat in
  let off := Z.of_nat (i mod 32) in
  if Z.testbit (hart_enabled_interrupts p hart_id idx) off then
    if (idx <? NumberInterruptEntries cfg)%nat then
      if Z.testbit (pending_interrupts p idx) off then
        let prio := interrupt_priority p i in
        let better := if acc.2 <? prio then (i, prio) else acc in
        if 0 <? prio then
          if consider_threshold then
            if (hart_id <? NumberCores cfg)%nat then
              if priority_threshold p hart_id <? prio then Some better else Some acc
            else None
          else Some better
        else Some acc
      else Some acc
    else None
  else Some acc.
Fixpoint next_pending_from (p : FE310_PLIC) (hart_id : nat) (consider_threshold : bool)
    (acc : nat * Z) (ids : list nat) : option nat :=
  match ids with
  | [] => Some acc.1
  | i :: ids =>
      acc ← next_pending_step p hart_id consider_threshold acc i;
      next_pending_from p hart_id consider_threshold acc ids
  end.
Definition hart_get_next_pending_interrupt (p : FE310_PLIC) (hart_id : nat)
    (consider_threshold : bool) : option nat :=
  next_pending_from p hart_id consider_threshold (0%nat, 0) (seq 1 (NumberInterrupts cfg - 1)).
Definition dev_asserted {S A} (o : S -> option A) : SM S exn A :=
  fun s => match o s with Some a => (Ok a, s) | None => (Err AssertionFailed, s) end.
Definition hart_has_pending_enabled_interrupts (hart_id : nat) : SM FE310_PLIC exn bool :=
  id <-- dev_asserted (fun p => hart_get_next_pending_interrupt p hart_id true) ;;
  sm_ret (0 <? id)%nat.

(** ** Callbacks *)

(** The loop runs to [end()], which is the last element and not past it. *)
Definition post_write_interrupt_priorities (_ _ _ : Z) : SM FE310_PLIC exn unit :=
  sm_modify (fun p => set_priorities
    (foldl (fun mem i => set_view 4 i (Z.min (view 4 i mem) (MaxPriority cfg)) mem)
       (regs_interrupt_priorities p) (seq 0 (NumberInterrupts cfg))) p).

Definition pre_read_hart_config (addr size _ : Z) : SM FE310_PLIC exn bool :=
  dev_assert (addr mod 4 =? 0) ;;;
  let idx := Z.to_nat (addr / 4) in
  sm_when (idx mod 2 =? 1)%nat
    (dev_assert (size =? 4) ;;;
     let idx := (idx - 1)%nat in
     min_id <-- dev_asserted (fun p => hart_get_next_pending_interrupt p 0 false) ;;
     dev_assert (idx <? NumberCores cfg)%nat ;;;
     sm_modify (fun p => set_config (set_view 4 (2 * idx + 1) (Z.of_nat min_id) (regs_hart_config p)) p) ;;;
     clear_pending_interrupt min_id) ;;;
  sm_ret true.

(** [hart_eip[idx]] and [target_harts[idx]] are arrays of the harts: past their end the
    program has no defined behaviour. *)
Definition post_write_hart_config (addr size _ : Z) : SM FE310_PLIC exn unit :=
  dev_assert (addr mod 4 =? 0) ;;;
  let idx := Z.to_nat (addr / 4) in
  sm_when (idx mod 2 =? 1)%nat
    (dev_assert (size =? 4) ;;;
     let idx := (idx - 1)%nat in
     pending <-- hart_has_pending_enabled_interrupts idx ;;
     if pending : bool then
       eip <-- sm_gets (fun p => hart_eip p idx) ;;
       dev_assert eip ;;; sm_modify (signal idx true)
     else sm_modify (signal idx false)).

(** ** The register map *)

Definition range_interrupt_priorities : RegisterRange FE310_PLIC :=
  mkRange 0x0 (4 * (Z.of_nat (NumberInterrupts cfg) + 1)) regs_interrupt_priorities set_priorities
    false 1 no_pre_callback post_write_interrupt_priorities no_pre_callback no_post_callback.
Definition range_pending_interrupts : RegisterRange FE310_PLIC :=
  mkRange 0x1000 (4 * Z.of_nat (NumberInterruptEntries cfg)) regs_pending_interrupts set_pending
    true 1 no_pre_callback no_post_callback no_pre_callback no_post_callback.
Definition range_hart_enabled_interrupts : RegisterRange FE310_PLIC :=
  RegisterRange_new 0x2000 (4 * Z.of_nat (NumberInterruptEntries cfg * NumberCores cfg))
    regs_hart_enabled_interrupts set_enabled.
Definition range_hart_config : RegisterRange FE310_PLIC :=
  mkRange 0x200000 (8 * Z.of_nat (NumberCores cfg)) regs_hart_config set_config
    false 4 no_pre_callback post_write_hart_config pre_read_hart_config no_post_callback.
Definition plic_register_ranges : list (RegisterRange FE310_PLIC) :=
  [range_interrupt_priorities; range_pending_interrupts; range_hart_enabled_interrupts; range_hart_config].

Definition plic_transport (trans : payload) (delay : Z) : SM FE310_PLIC exn (payload * Z) :=
  let delay := delay + 4 * 10 in
  trans <-- route plic_register_ranges trans delay ;; sm_ret (trans, delay).

(** ** The thread

    What [run] does each time [e_run] wakes it. *)
Fixpoint run_harts (harts : list nat) : SM FE310_PLIC exn unit :=
  match harts with
  | [] => sm_ret tt
  | i :: harts =>
      eip <-- sm_gets (fun p => hart_eip p i) ;;
      sm_when (negb eip)
        (pending <-- hart_has_pending_enabled_interrupts i ;;
         sm_when pending (sm_modify (signal i true))) ;;;
      run_harts harts
  end.
Definition plic_run : SM FE310_PLIC exn unit :=
  sm_modify (set_e_run false) ;;; run_harts (seq 0 (NumberCores cfg)).
End plic.
