(* ===== verification/PlicSpec.v ===== *)
(** What the interrupt controller promises: the choice of the next interrupt, claim, the
    delivery of an interrupt from the gateway to the hart, and the invariant of its
    registers over every sequence of events. *)
From S2P Require Import Prelude Bits Concolic ConcMem Iss Bus RegMap Plic.

(** * The choice among candidates by priority *)

Section choice.
Context (candidate : nat -> Prop) (prio : nat -> Z).

(** The candidate of the highest priority, the lowest number among equals; 0 without one. *)
Definition highest_of (id : nat) : Prop :=
  (id = 0%nat /\ forall i, ~ candidate i) \/
  (candidate id /\ forall j, candidate j -> prio j < prio id \/ (prio j = prio id /\ (id <= j)%nat)).

(** What a loop over the interrupts knows after those below [a]. *)
Definition best_among (a : nat) (acc : nat * Z) : Prop :=
  (acc = (0%nat, 0) /\ forall i, (i < a)%nat -> ~ candidate i) \/
  (candidate acc.1 /\ (acc.1 < a)%nat /\ acc.2 = prio acc.1 /\
   forall j, (j < a)%nat -> candidate j -> prio j < acc.2 \/ (prio j = acc.2 /\ (acc.1 <= j)%nat)).

Lemma best_skip a acc : best_among a acc -> ~ candidate a -> best_among (S a) acc.
Proof.
  intros Hb Hn. assert (forall j, (j < S a)%nat -> candidate j -> (j < a)%nat) as Hlt.
  { intros j Hj Hc. assert (j <> a) by (by intros ->). lia. }
  destruct Hb as [[-> Hb]|(Hc & Hlo & He & Hb)].
  - left. split; [done|]. intros i Hi Hc. by apply (Hb i); [apply Hlt|].
  - right. split; [done|]. split; [lia|]. split; [done|]. intros j Hj Hj'. apply Hb; auto.
Qed.
Hypothesis positive : forall i, candidate i -> 0 < prio i.
Lemma best_take a acc : best_among a acc -> candidate a ->
  best_among (S a) (if acc.2 <? prio a then (a, prio a) else acc).
Proof.
  intros Hb Hc. destruct (Z.ltb_spec acc.2 (prio a)) as [Hlt|Hge].
  - right. cbn [fst snd]. split; [done|]. split; [lia|]. split; [done|]. intros j Hj Hcj.
    destruct (decide (j = a)) as [->|Hne]; [right; lia|]. left.
    destruct Hb as [[-> Hb]|(_ & _ & _ & Hb)]; [by destruct (Hb j); [lia|]|].
    destruct (Hb j ltac:(lia) Hcj); lia.
  - destruct Hb as [[-> Hb]|(Ha & Hlo & He & Hb)]; [pose proof (positive a Hc); cbn [snd] in Hge; lia|].
    right. split; [done|]. split; [lia|]. split; [done|]. intros j Hj Hcj.
    destruct (decide (j = a)) as [->|Hne]; [|apply Hb; [lia|done]]. lia.
Qed.
Lemma best_start : ~ candidate 0%nat -> best_among 1 (0%nat, 0).
Proof. intros H0. left. split; [done|]. intros i Hi. by assert (i = 0%nat) as -> by lia. Qed.
(** After all interrupts the best is the highest. *)
Lemma best_highest n acc : best_among n acc -> (forall i, candidate i -> (i < n)%nat) -> highest_of acc.1.
Proof.
  intros [[-> Hb]|(Hc & _ & He & Hb)] Hn.
  - left. split; [done|]. intros i Hi. by apply (Hb i); [apply Hn|].
  - right. split; [done|]. intros j Hj. rewrite <- He. by apply Hb; [apply Hn|].
Qed.
End choice.

Section spec.
Variable cfg : plic_config.
#[local] Open Scope sm_scope.

(** The register ranges do not overlap and there is a pending bit for every interrupt. *)
Definition config_ok : Prop :=
  (0 < NumberCores cfg <= 4 /\ 0 < NumberInterrupts cfg < 1024 /\
   NumberInterrupts cfg <= 32 * NumberInterruptEntries cfg /\ NumberInterruptEntries cfg <= 1024)%nat /\
  1 <= MaxPriority cfg < 2 ^ 32.

Definition vector_ok (n : nat) (mem : list Z) : Prop := Forall byte_ok mem /\ length mem = n.
Definition plic_wf (p : FE310_PLIC) : Prop :=
  vector_ok (4 * (NumberInterrupts cfg + 1)) (regs_interrupt_priorities p) /\
  vector_ok (4 * NumberInterruptEntries cfg) (regs_pending_interrupts p) /\
  vector_ok (4 * (NumberInterruptEntries cfg * NumberCores cfg)) (regs_hart_enabled_interrupts p) /\
  vector_ok (8 * NumberCores cfg) (regs_hart_config p).

(** ** The next interrupt *)

Definition enabled_bit (p : FE310_PLIC) (h i : nat) : bool :=
  Z.testbit (hart_enabled_interrupts p h (i / 32)) (Z.of_nat (i mod 32)).
Definition pending_bit (p : FE310_PLIC) (i : nat) : bool :=
  Z.testbit (pending_interrupts p (i / 32)) (Z.of_nat (i mod 32)).

(** The interrupts the controller may choose from. *)
Definition candidate (p : FE310_PLIC) (h : nat) (thr : bool) (i : nat) : Prop :=
  (0 < i < NumberInterrupts cfg)%nat /\ enabled_bit p h i = true /\ pending_bit p i = true /\
  0 < interrupt_priority p i /\ (thr = true -> priority_threshold p h < interrupt_priority p i).

Definition highest (p : FE310_PLIC) (h : nat) (thr : bool) : nat -> Prop := highest_of (candidate p h thr) (interrupt_priority p).
Abbreviation best_below p h thr := (best_among (candidate p h thr) (interrupt_priority p)).

Lemma candidate_positive p h thr i : candidate p h thr i -> 0 < interrupt_priority p i.
Proof. by intros (_ & _ & _ & Hp & _). Qed.
Lemma next_pending_step_best p h thr acc i :
  config_ok -> (thr = true -> (h < NumberCores cfg)%nat) -> (0 < i < NumberInterrupts cfg)%nat ->
  best_below p h thr i acc ->
  exists acc', next_pending_step cfg p h thr acc i = Some acc' /\ best_below p h thr (S i) acc'.
Proof.
  intros [(_ & Hni & Hne & _) _] Hh Hi Hb. unfold next_pending_step.
  assert (i / 32 < NumberInterruptEntries cfg)%nat as Hidx by (apply Nat.Div0.div_lt_upper_bound; lia).
  apply Nat.ltb_lt in Hidx. rewrite Hidx. fold (enabled_bit p h i). fold (pending_bit p i).
  destruct (enabled_bit p h i) eqn:He; [|eexists; split; [done|]; apply best_skip; [done|]; intros (_ & ? & _); congruence].
  destruct (pending_bit p i) eqn:Hp; [|eexists; split; [done|]; apply best_skip; [done|]; intros (_ & _ & ? & _); congruence].
  destruct (Z.ltb_spec 0 (interrupt_priority p i)) as [Hpos|Hz];
    [|eexists; split; [done|]; apply best_skip; [done|]; intros (_ & _ & _ & ? & _); lia].
  destruct thr.
  - specialize (Hh eq_refl). apply Nat.ltb_lt in Hh. rewrite Hh.
    destruct (Z.ltb_spec (priority_threshold p h) (interrupt_priority p i)) as [Ht|Ht]; (eexists; split; [done|]).
    + by apply best_take; [apply candidate_positive|..].
    + apply best_skip; [done|]. intros (_ & _ & _ & _ & Hlt). specialize (Hlt eq_refl). lia.
  - eexists; split; [done|]. by apply best_take; [apply candidate_positive|..].
Qed.

Lemma next_pending_highest p h thr : config_ok -> (thr = true -> (h < NumberCores cfg)%nat) ->
  exists id, hart_get_next_pending_interrupt cfg p h thr = Some id /\ highest p h thr id /\
    (id < NumberInterrupts cfg)%nat.
Proof.
  intros Hcfg Hh. pose proof Hcfg as [(_ & Hni & _) _].
  assert (forall n a acc, best_below p h thr a acc -> (0 < a)%nat -> (a + n <= NumberInterrupts cfg)%nat ->
    exists acc', next_pending_from cfg p h thr acc (seq a n) = Some acc'.1 /\ best_below p h thr (a + n) acc') as Hloop.
  { induction n as [|n IH]; intros a acc Hb Ha Hn.
    - exists acc. by rewrite Nat.add_0_r.
    - destruct (next_pending_step_best p h thr acc a) as (acc' & Hs & Hb'); [done|done|lia|done|].
      destruct (IH (S a) acc' Hb') as (acc2 & Hr & Hb2); [lia|lia|]. exists acc2.
      cbn [seq next_pending_from]. rewrite Hs. split; [exact Hr|]. by rewrite Nat.add_succ_r. }
  destruct (Hloop (NumberInterrupts cfg - 1)%nat 1%nat (0%nat, 0)) as (acc & Hr & Hb); [|lia|lia|].
  { apply best_start. intros [[? _] _]. lia. }
  exists acc.1. split; [exact Hr|]. replace (1 + (NumberInterrupts cfg - 1))%nat with (NumberInterrupts cfg) in Hb by lia.
  assert (highest p h thr acc.1) as Hh' by (apply (best_highest _ _ (NumberInterrupts cfg)); [done|by intros i [[_ ?] _]]).
  split; [done|]. destruct Hh' as [[-> _]|[[[_ ?] _] _]]; [lia|done].
Qed.
Lemma highest_positive p h thr id : highest p h thr id -> (0 <? id)%nat = true <-> exists i, candidate p h thr i.
Proof.
  intros [[-> Hn]|[Hc _]]; split; try done.
  - intros [i Hi]. by destruct (Hn i).
  - intros _. by exists id.
  - intros _. destruct Hc as [[Hlo _] _]. by apply Nat.ltb_lt.
Qed.

(** ** The pending bits *)

Lemma word_bits_low w j : (j < 32)%nat -> Z.testbit (u32 w) (Z.of_nat j) = Z.testbit w (Z.of_nat j).
Proof. intros Hj. unfold wrap. by rewrite Z.mod_pow2_bits_low by lia. Qed.

Lemma shift_bit k j : Z.testbit (Z.shiftl 1 (Z.of_nat k)) (Z.of_nat j) = (j =? k)%nat.
Proof.
  rewrite Z.shiftl_1_l, Z.pow2_bits_eqb by lia.
  destruct (Nat.eqb_spec j k) as [->|Hne]; [apply Z.eqb_refl|by apply Z.eqb_neq; lia].
Qed.

Lemma same_bit i k : (i mod 32 =? k mod 32)%nat && (i / 32 =? k / 32)%nat = (i =? k)%nat.
Proof.
  pose proof (Nat.div_mod_eq i 32). pose proof (Nat.div_mod_eq k 32).
  destruct (Nat.eqb_spec i k) as [->|Hne]; [by rewrite !Nat.eqb_refl|].
  destruct (Nat.eqb_spec (i mod 32) (k mod 32)), (Nat.eqb_spec (i / 32) (k / 32)); try done. lia.
Qed.

Definition put_pending_word (k : nat) (w : Z) (p : FE310_PLIC) : FE310_PLIC :=
  set_pending (set_view 4 (k / 32) w (regs_pending_interrupts p)) p.

Lemma irq_word_fits k : config_ok -> (k < NumberInterrupts cfg)%nat ->
  (k / 32 < NumberInterruptEntries cfg)%nat.
Proof. intros [(_ & _ & Hne & _) _] Hk. apply Nat.Div0.div_lt_upper_bound. lia. Qed.

Lemma put_pending_wf k w p : config_ok -> (k < NumberInterrupts cfg)%nat -> plic_wf p ->
  plic_wf (put_pending_word k w p).
Proof.
  intros Hcfg Hk (Hp & [Hb Hl] & He & Hc). pose proof (irq_word_fits k Hcfg Hk).
  split; [done|]. split; [|done]. split; [by apply set_view_ok|].
  unfold put_pending_word. cbn [regs_pending_interrupts set_pending]. by rewrite length_set_view by lia.
Qed.
Lemma put_pending_bit k w p i : config_ok -> (k < NumberInterrupts cfg)%nat -> plic_wf p ->
  pending_bit (put_pending_word k w p) i =
    if (i / 32 =? k / 32)%nat then Z.testbit w (Z.of_nat (i mod 32)) else pending_bit p i.
Proof.
  intros Hcfg Hk (_ & [_ Hl] & _). pose proof (irq_word_fits k Hcfg Hk).
  unfold pending_bit, pending_interrupts, put_pending_word. cbn [regs_pending_interrupts set_pending].
  rewrite set_view_at by lia. destruct (_ =? _)%nat; [|done].
  apply word_bits_low, Nat.mod_upper_bound. lia.
Qed.

(** Triggering and clearing set and clear the bit of the interrupt alone. *)
Definition triggered (k : nat) (p : FE310_PLIC) : FE310_PLIC :=
  put_pending_word k (Z.lor (pending_interrupts p (k / 32)) (Z.shiftl 1 (Z.of_nat (k mod 32)))) p.
Definition cleared (k : nat) (p : FE310_PLIC) : FE310_PLIC :=
  put_pending_word k
    (Z.land (pending_interrupts p (k / 32)) (u32 (Z.lnot (Z.shiftl 1 (Z.of_nat (k mod 32)))))) p.

Lemma triggered_bit k p i : config_ok -> (k < NumberInterrupts cfg)%nat -> plic_wf p ->
  pending_bit (triggered k p) i = pending_bit p i || (i =? k)%nat.
Proof.
  intros Hcfg Hk Hwf. unfold triggered. rewrite put_pending_bit by done. rewrite <- (same_bit i k).
  destruct (Nat.eqb_spec (i / 32) (k / 32)) as [He|]; [|by rewrite andb_false_r, orb_false_r].
  rewrite andb_true_r, Z.lor_spec, shift_bit. unfold pending_bit. by rewrite He.
Qed.
Lemma cleared_bit k p i : config_ok -> (k < NumberInterrupts cfg)%nat -> plic_wf p ->
  pending_bit (cleared k p) i = pending_bit p i && negb (i =? k)%nat.
Proof.
  intros Hcfg Hk Hwf. unfold cleared. rewrite put_pending_bit by done. rewrite <- (same_bit i k).
  destruct (Nat.eqb_spec (i / 32) (k / 32)) as [He|]; [|by rewrite andb_false_r, andb_true_r].
  rewrite andb_true_r, Z.land_spec, word_bits_low by (apply Nat.mod_upper_bound; lia).
  rewrite Z.lnot_spec, shift_bit by lia. unfold pending_bit. by rewrite He.
Qed.

Lemma gateway_run k p : config_ok -> (0 < k < NumberInterrupts cfg)%nat ->
  gateway_trigger_interrupt cfg k p = (Ok tt, set_e_run true (triggered k p)).
Proof.
  intros Hcfg Hk. pose proof (irq_word_fits k Hcfg ltac:(lia)) as Hi. apply Nat.ltb_lt in Hi.
  unfold gateway_trigger_interrupt, with_pending_word.
  destruct (Nat.ltb_spec 0 k), (Nat.ltb_spec k (NumberInterrupts cfg)); try lia. by rewrite Hi.
Qed.
Lemma clear_run k p : config_ok -> (k < NumberInterrupts cfg)%nat ->
  clear_pending_interrupt cfg k p = (Ok tt, cleared k p).
Proof.
  intros Hcfg Hk. pose proof (irq_word_fits k Hcfg Hk) as Hi. apply Nat.ltb_lt in Hi.
  unfold clear_pending_interrupt, with_pending_word. apply Nat.ltb_lt in Hk. by rewrite Hk, Hi.
Qed.

(** ** The claim register of the first hart *)

Definition put_claim (id : nat) (p : FE310_PLIC) : FE310_PLIC :=
  set_config (set_view 4 1 (Z.of_nat id) (regs_hart_config p)) p.

Lemma route_config trans delay : config_ok -> address trans = 0x200004 ->
  route (plic_register_ranges cfg) trans delay = process (range_hart_config cfg) trans delay.
Proof.
  intros [(Hnc & Hni & Hne & Hne') _] Ha. cbn [plic_register_ranges route]. unfold rr_contains. rewrite Ha.
  cbn [rr_start rr_size range_interrupt_priorities range_pending_interrupts range_hart_enabled_interrupts
    range_hart_config RegisterRange_new].
  assert (NumberInterruptEntries cfg * NumberCores cfg <= 4096)%nat as Hm by nia.
  rewrite !wrap_small by lia.
  destruct (Z.leb_spec 0x200004 (0 + 4 * (Z.of_nat (NumberInterrupts cfg) + 1) - 1)); [lia|].
  destruct (Z.leb_spec 0x200004 (0x1000 + 4 * Z.of_nat (NumberInterruptEntries cfg) - 1)); [lia|].
  destruct (Z.leb_spec 0x200004 (0x2000 + 4 * Z.of_nat (NumberInterruptEntries cfg * NumberCores cfg) - 1)); [lia|].
  by destruct (Z.leb_spec 0x200004 (0x200000 + 8 * Z.of_nat (NumberCores cfg) - 1)); [|lia].
Qed.

Lemma claim_run p data delay : config_ok -> plic_wf p -> length data = 4%nat ->
  exists id, highest p 0 false id /\ (id < NumberInterrupts cfg)%nat /\
    plic_transport cfg (mkPayload TLM_READ_COMMAND 0x200004 data None TLM_OK_RESPONSE) delay p =
      (Ok (mkPayload TLM_READ_COMMAND 0x200004 (le_bytes 4 (Z.of_nat id)) None TLM_OK_RESPONSE, delay + 40),
       cleared id (put_claim id p)).
Proof.
  intros Hcfg Hwf Hd. pose proof Hcfg as [(Hnc & Hni & _) _].
  destruct (next_pending_highest p 0 false Hcfg ltac:(done)) as (id & Hid & Hh & Hlt).
  exists id. split; [done|]. split; [done|]. destruct Hwf as (_ & _ & _ & [Hb Hl]).
  set (r := range_hart_config cfg). set (p' := cleared id (put_claim id p)).
  assert (inside r 0x200004 4 p) as Hin by (unfold inside; cbn; lia).
  assert (pre_read_hart_config cfg 4 4 (delay + 40) p = (Ok true, p')) as Hpre.
  { unfold pre_read_hart_config. change (4 mod 4 =? 0) with true. change (Z.to_nat (4 / 4)) with 1%nat.
    change ((1 mod 2 =? 1)%nat) with true. change (1 - 1)%nat with 0%nat. change (4 =? 4) with true.
    destruct (Nat.ltb_spec 0 (NumberCores cfg)); [|lia]. unfold sm_when, sm_bind, dev_asserted.
    cbn [dev_assert sm_ret]. unfold sm_ret. rewrite Hid. cbn [sm_modify]. unfold sm_modify.
    change (2 * 0 + 1)%nat with 1%nat. fold (put_claim id p). by rewrite clear_run. }
  assert (rr_read r 0x200004 data (delay + 40) p =
    (Ok (le_bytes 4 (Z.of_nat id)), p')) as Hread.
  { erewrite rr_read_run; [|by rewrite Hd|rewrite Hd; exact Hpre|done]. rewrite Hd.
    pose proof (take_drop_splice 4 (le_bytes 4 (Z.of_nat id)) (regs_hart_config p)) as Ht.
    rewrite length_le_bytes in Ht. f_equal. f_equal. apply Ht. lia. }
  unfold plic_transport. erewrite sm_bind_ok; [reflexivity|]. rewrite route_config by done.
  erewrite process_read; [|done|done|unfold data_length; cbn; by rewrite Hd|exact Hread]. done.
Qed.
(** ** The invariant *)

(** Well-formed registers, priorities in range, and lines to the harts that are as
    [hart_eip] says. *)
Definition plic_inv (p : FE310_PLIC) : Prop :=
  plic_wf p /\ (forall h, external_interrupt p h = hart_eip p h) /\
  (forall i, (i < NumberInterrupts cfg)%nat -> interrupt_priority p i <= MaxPriority cfg).

Lemma vector_splice n off src mem : vector_ok n mem -> Forall byte_ok src ->
  (off + length src <= length mem)%nat -> vector_ok n (splice off src mem).
Proof. intros [Hb Hl] Hs Ho. split; [by apply splice_ok|]. by rewrite length_splice. Qed.
Lemma vector_set_view n i v mem : vector_ok n mem -> (4 * i + 4 <= n)%nat ->
  vector_ok n (set_view 4 i v mem).
Proof.
  intros [Hb Hl] Hi. apply vector_splice; [done|apply le_bytes_ok|]. rewrite length_le_bytes. lia.
Qed.

Lemma signal_inv h b p : plic_inv p -> plic_inv (signal h b p).
Proof. intros (Hwf & Hl & Hp). split; [done|]. split; [|done]. intros k. cbn. by destruct (_ =? _)%nat. Qed.
Lemma e_run_inv b p : plic_inv p -> plic_inv (set_e_run b p).
Proof. done. Qed.
Lemma put_pending_inv k w p : config_ok -> (k < NumberInterrupts cfg)%nat -> plic_inv p ->
  plic_inv (put_pending_word k w p).
Proof. intros Hcfg Hk (Hwf & Hl & Hp). split; [by apply put_pending_wf|done]. Qed.
Lemma put_config_inv i v p : plic_inv p -> (4 * i + 4 <= 8 * NumberCores cfg)%nat ->
  plic_inv (set_config (set_view 4 i v (regs_hart_config p)) p).
Proof.
  intros ((H1 & H2 & H3 & H4) & Hl & Hp) Hi. split; [|done].
  split; [done|]. split; [done|]. split; [done|]. by apply vector_set_view.
Qed.

Lemma dev_asserted_keeps {A} (o : FE310_PLIC -> option A) : keeps plic_inv (dev_asserted o).
Proof. intros p Hp. unfold dev_asserted. by destruct (o p). Qed.
Lemma has_pending_keeps h : keeps plic_inv (hart_has_pending_enabled_interrupts cfg h).
Proof. unfold hart_has_pending_enabled_interrupts. keeps_step; [apply dev_asserted_keeps|apply keeps_ret]. Qed.

Lemma pre_read_inv addr size delay : config_ok -> keeps plic_inv (pre_read_hart_config cfg addr size delay).
Proof.
  intros Hcfg. unfold pre_read_hart_config. keeps_step; [apply dev_assert_keeps|].
  keeps_step; [apply keeps_when; keeps_step; [apply dev_assert_keeps|]|apply keeps_ret].
  intros p Hp. unfold sm_bind at 1, dev_asserted.
  destruct (next_pending_highest p 0 false Hcfg ltac:(done)) as (id & -> & _ & Hid).
  revert p Hp. match goal with |- forall p, plic_inv p -> match ?m p with _ => _ end => change (keeps plic_inv m) end.
  destruct (Nat.ltb_spec (Z.to_nat (addr / 4) - 1) (NumberCores cfg)) as [Hn|]; cbn [dev_assert]; [|apply keeps_throw].
  keeps_step; [apply keeps_ret|]. keeps_step; [apply keeps_modify; intros p Hp; apply put_config_inv; [done|lia]|].
  intros p Hp. rewrite clear_run by done. by apply put_pending_inv.
Qed.
Lemma post_write_config_inv addr size delay : keeps plic_inv (post_write_hart_config cfg addr size delay).
Proof.
  unfold post_write_hart_config. keeps_step; [apply dev_assert_keeps|]. apply keeps_when.
  keeps_step; [apply dev_assert_keeps|]. keeps_step; [apply has_pending_keeps|].
  keeps_step; [keeps_step; [apply keeps_gets|]; keeps_step; [apply dev_assert_keeps|]|];
    apply keeps_modify; intros p; apply signal_inv.
Qed.

(** Clamping the priorities. *)
Definition clamp (mem : list Z) (i : nat) : list Z := set_view 4 i (Z.min (view 4 i mem) (MaxPriority cfg)) mem.
Lemma clamp_ok n mem a k : vector_ok n mem -> (4 * (a + k) <= n)%nat -> 1 <= MaxPriority cfg < 2 ^ 32 ->
  vector_ok n (foldl clamp mem (seq a k)) /\
  forall i, view 4 i (foldl clamp mem (seq a k)) =
    if decide (a <= i < a + k)%nat then Z.min (view 4 i mem) (MaxPriority cfg) else view 4 i mem.
Proof.
  intros Hv Hn Hmp. revert mem a Hv Hn. induction k as [|k IH]; intros mem a Hv Hn; cbn [seq foldl].
  - split; [done|]. intros i. by rewrite decide_False by lia.
  - assert (vector_ok n (clamp mem a)) as Hc by (apply vector_set_view; [done|lia]).
    destruct (IH (clamp mem a) (S a) Hc ltac:(lia)) as [Hok Hi]. split; [done|]. intros i. rewrite Hi.
    assert (view 4 i (clamp mem a) = if (i =? a)%nat then Z.min (view 4 i mem) (MaxPriority cfg) else view 4 i mem) as ->.
    { unfold clamp. destruct Hv as [Hb Hl]. rewrite set_view_at by lia. destruct (Nat.eqb_spec i a) as [->|]; [|done].
      apply wrap_small. pose proof (view_bound 4 a mem Hb). lia. }
    destruct (Nat.eqb_spec i a) as [->|Hne].
    + rewrite decide_False by lia. by rewrite decide_True by lia.
    + repeat destruct (decide _); try lia.
Qed.
Lemma priorities_inv delay src : config_ok -> Forall byte_ok src ->
  write_keeps plic_inv (range_interrupt_priorities cfg) src delay.
Proof.
  intros [_ Hmp] Hs off p ((Hv & Hwf) & Hl & Hp) Ho. cbn in *. fold clamp.
  pose proof (vector_splice _ off src _ Hv Hs Ho) as Hv'.
  destruct (clamp_ok _ _ 0 (NumberInterrupts cfg) Hv' ltac:(lia) Hmp) as [Hok Hi].
  split; [by split|]. split; [done|]. intros i Hlt. unfold interrupt_priority. cbn [regs_interrupt_priorities set_priorities].
  rewrite Hi, decide_True by lia. lia.
Qed.
Lemma enabled_inv delay src : Forall byte_ok src ->
  write_keeps plic_inv (range_hart_enabled_interrupts cfg) src delay.
Proof.
  intros Hs off p ((H1 & H2 & H3 & H4) & Hl & Hp) Ho. split; [|done].
  split; [done|]. split; [done|]. split; [by apply vector_splice|done].
Qed.
Lemma config_inv delay src : Forall byte_ok src ->
  write_keeps plic_inv (range_hart_config cfg) src delay.
Proof.
  intros Hs off p ((H1 & H2 & H3 & H4) & Hl & Hp) Ho. cbn [post_write_callback range_hart_config rr_put rr_mem].
  pose proof (post_write_config_inv (Z.of_nat off) (Z.of_nat (length src)) delay) as Hk.
  assert (plic_inv (set_config (splice off src (regs_hart_config p)) p)) as Hi.
  { split; [|done]. split; [done|]. split; [done|]. split; [done|]. by apply vector_splice. }
  specialize (Hk _ Hi). by destruct (post_write_hart_config _ _ _ _ _) as [[?|?] ?].
Qed.

Lemma plic_sized : config_ok -> Forall (fun r => sized plic_inv r) (plic_register_ranges cfg).
Proof.
  intros [(Hnc & Hni & Hne & Hne') _].
  assert (0 < NumberInterruptEntries cfg)%nat by lia.
  assert (0 < NumberInterruptEntries cfg * NumberCores cfg <= 4096)%nat as Hm by nia.
  repeat constructor; cbn; try lia;
    intros p (([_ H1] & [_ H2] & [_ H3] & [_ H4]) & _); lia.
Qed.

Lemma transport_inv trans delay : config_ok -> access_ok trans -> keeps plic_inv (plic_transport cfg trans delay).
Proof.
  intros Hcfg [Hb Hl]. unfold plic_transport. keeps_step; [|apply keeps_ret]. apply route_keeps.
  pose proof (plic_sized Hcfg) as Hs. unfold plic_register_ranges in *.
  rewrite !Forall_cons in Hs. destruct Hs as (H1 & H2 & H3 & H4 & _). rewrite !Forall_cons.
  split_and!; [..|by constructor]; apply process_keeps; try (intros; apply keeps_ret); try discriminate;
    try (intros; by apply pre_read_inv); intros _;
    (apply rr_write_keeps; [done|done|intros; apply keeps_ret|]).
  - by apply priorities_inv.
  - by apply enabled_inv.
  - by apply config_inv.
Qed.

Lemma run_harts_inv hs : keeps plic_inv (run_harts cfg hs).
Proof.
  induction hs as [|h hs IH]; cbn; [apply keeps_ret|].
  keeps_step; [apply keeps_gets|]. keeps_step; [apply keeps_when|done].
  keeps_step; [apply has_pending_keeps|]. apply keeps_when, keeps_modify. intros p. apply signal_inv.
Qed.

(** ** The thread *)

Definition same_registers (p p' : FE310_PLIC) : Prop :=
  regs_interrupt_priorities p' = regs_interrupt_priorities p /\
  regs_pending_interrupts p' = regs_pending_interrupts p /\
  regs_hart_enabled_interrupts p' = regs_hart_enabled_interrupts p /\
  regs_hart_config p' = regs_hart_config p.
Lemma same_candidate p p' h thr i : same_registers p p' -> candidate p' h thr i <-> candidate p h thr i.
Proof.
  intros (H1 & H2 & H3 & H4). unfold candidate, enabled_bit, pending_bit, hart_enabled_interrupts,
    pending_interrupts, interrupt_priority, priority_threshold. by rewrite H1, H2, H3, H4.
Qed.

(** A hart the thread looks at is signalled exactly if it was or has a candidate. *)
Lemma run_harts_run hs p : config_ok -> Forall (fun h => h < NumberCores cfg)%nat hs ->
  exists p', run_harts cfg hs p = (Ok tt, p') /\ same_registers p p' /\ e_run p' = e_run p /\
    (forall h, hart_eip p' h = true <->
       hart_eip p h = true \/ (h ∈ hs /\ exists i, candidate p h true i)).
Proof.
  intros Hcfg Hhs. revert p. induction Hhs as [|h hs Hh _ IH]; intros p.
  - exists p. split; [done|]. split; [done|]. split; [done|]. intros h. split; [by left|].
    intros [|[Hin _]]; [done|by apply elem_of_nil in Hin].
  - destruct (next_pending_highest p h true Hcfg ltac:(done)) as (id & Hid & Hhi & _).
    pose proof (highest_positive p h true id Hhi) as Hpos.
    set (p1 := if negb (hart_eip p h) && (0 <? id)%nat then signal h true p else p).
    assert (run_harts cfg (h :: hs) p = run_harts cfg hs p1) as ->.
    { cbn [run_harts]. unfold hart_has_pending_enabled_interrupts, sm_bind, sm_gets, dev_asserted, sm_when, sm_ret, sm_modify, p1.
      destruct (hart_eip p h); [done|]. cbn [negb andb]. cbn beta iota. rewrite Hid. by destruct (0 <? id)%nat. }
    assert (same_registers p p1 /\ e_run p1 = e_run p) as [Hs1 He1] by (unfold p1; by destruct (_ && _)).
    destruct (IH p1) as (p' & Hr & (R1 & R2 & R3 & R4) & He' & Hp'). exists p'. split; [exact Hr|].
    split; [destruct Hs1 as (S1 & S2 & S3 & S4); repeat split; congruence|]. split; [congruence|].
    intros k. rewrite Hp', elem_of_cons.
    assert (hart_eip p1 k = true <-> hart_eip p k = true \/ (k = h /\ exists i, candidate p h true i)) as Hk.
    { rewrite <- Hpos. unfold p1. destruct (hart_eip p h) eqn:He, (0 <? id)%nat eqn:Hi; cbn.
      all: destruct (Nat.eqb_spec k h) as [->|Hne]; intuition congruence. }
    rewrite Hk. setoid_rewrite (same_candidate p p1) ; [|done].
    split; [intros [[?|[-> ?]]|[? ?]]|intros [?|[[->|?] ?]]]; auto 6.
Qed.
(** ** Events

    What can happen to the controller: a device raises an interrupt, the bus delivers a
    transaction, the thread wakes up. *)
Inductive plic_event := Trigger (irq_id : nat) | Access (trans : payload) (delay : Z) | Wake.
Definition plic_handle (ev : plic_event) : SM FE310_PLIC exn unit :=
  match ev with
  | Trigger irq_id => gateway_trigger_interrupt cfg irq_id
  | Access trans delay => plic_transport cfg trans delay ;;; sm_ret tt
  | Wake => plic_run cfg
  end.
Fixpoint plic_events (evs : list plic_event) : SM FE310_PLIC exn unit :=
  match evs with [] => sm_ret tt | ev :: evs => plic_handle ev ;;; plic_events evs end.
Definition event_ok (ev : plic_event) : Prop :=
  match ev with Access trans _ => access_ok trans | _ => True end.

Lemma gateway_inv k : config_ok -> keeps plic_inv (gateway_trigger_interrupt cfg k).
Proof.
  intros Hcfg p Hp. destruct (decide (0 < k < NumberInterrupts cfg)%nat) as [Hk|Hk].
  - rewrite gateway_run by done. apply e_run_inv, put_pending_inv; [done|lia|done].
  - unfold gateway_trigger_interrupt. destruct (Nat.ltb_spec 0 k), (Nat.ltb_spec k (NumberInterrupts cfg)); try lia; done.
Qed.
Lemma plic_run_inv : keeps plic_inv (plic_run cfg).
Proof. unfold plic_run. keeps_step; [by apply keeps_modify|apply run_harts_inv]. Qed.
Lemma events_inv evs : config_ok -> Forall event_ok evs -> keeps plic_inv (plic_events evs).
Proof.
  intros Hcfg. induction 1 as [|ev evs Hev _ IH]; [apply keeps_ret|]. cbn. keeps_step; [|done].
  destruct ev as [k|trans delay|]; cbn; [by apply gateway_inv| |apply plic_run_inv].
  keeps_step; [by apply transport_inv|apply keeps_ret].
Qed.

Lemma zeros_vector n : vector_ok n (replicate n 0).
Proof. split; [|apply length_replicate]. apply Forall_replicate. by unfold byte_ok. Qed.
Lemma initial_priorities k n : (k <= n)%nat ->
  let mem := foldl (fun mem i => set_view 4 i 1 mem) (replicate (4 * (n + 1)) 0) (seq 0 k) in
  vector_ok (4 * (n + 1)) mem /\ forall i, (i < k)%nat -> view 4 i mem = 1.
Proof.
  intros Hk. induction k as [|k IH]; [split; [apply zeros_vector|lia]|].
  rewrite seq_S, foldl_app. cbn [foldl]. destruct (IH ltac:(lia)) as [Hv Hi]. cbn zeta.
  rewrite Nat.add_0_l. set (mem := foldl _ _ _) in *. split; [apply vector_set_view; [done|lia]|].
  intros i Hlt. pose proof Hv as [_ Hl]. rewrite set_view_at by lia. destruct (Nat.eqb_spec i k); [done|]. apply Hi. lia.
Qed.
Lemma new_inv : config_ok -> plic_inv (FE310_PLIC_new cfg).
Proof.
  intros [_ Hmp]. destruct (initial_priorities (NumberInterrupts cfg) (NumberInterrupts cfg) ltac:(lia)) as [Hv Hi].
  rewrite Nat.add_1_r in Hv, Hi. split; [|split; [done|]].
  - unfold plic_wf. rewrite Nat.add_1_r. split; [exact Hv|]. split; [apply zeros_vector|]. split; [apply zeros_vector|].
    cbn [FE310_PLIC_new regs_hart_config]. replace (4 * (2 * NumberCores cfg))%nat with (8 * NumberCores cfg)%nat by lia.
    apply zeros_vector.
  - intros i Hlt. unfold interrupt_priority. cbn [FE310_PLIC_new regs_interrupt_priorities].
    rewrite Hi by done. lia.
Qed.
End spec.

(** * The properties *)

(** Whatever interrupts are raised, whatever transactions arrive, in any order and however
    many of them fail, the registers of the controller stay well formed, every interrupt
    priority stays at most the maximum, and the external interrupt line of every hart is as
    [hart_eip] says. *)
Theorem plic_invariant cfg evs : config_ok cfg -> Forall event_ok evs ->
  plic_inv cfg (plic_events cfg evs (FE310_PLIC_new cfg)).2.
Proof.
  intros Hcfg Hev. pose proof (events_inv cfg evs Hcfg Hev _ (new_inv cfg Hcfg)) as Hi.
  by destruct (plic_events _ _ _) as [[?|?] ?].
Qed.

(** Reading the claim register of the first hart returns the pending enabled interrupt of
    the highest priority, the lowest number among equals, or 0 when there is none, whatever
    the threshold; it clears the pending bit of that interrupt and of no other, and leaves
    enables, priorities, thresholds and the lines to the harts alone. *)
Theorem plic_claim cfg p data delay : config_ok cfg -> plic_inv cfg p -> length data = 4%nat ->
  exists id p', plic_transport cfg (mkPayload TLM_READ_COMMAND 0x200004 data None TLM_OK_RESPONSE) delay p =
      (Ok (mkPayload TLM_READ_COMMAND 0x200004 (le_bytes 4 (Z.of_nat id)) None TLM_OK_RESPONSE, delay + 40), p') /\
    highest cfg p 0 false id /\
    (forall i, (0 < i < NumberInterrupts cfg)%nat -> pending_bit p' i = pending_bit p i && negb (i =? id)%nat) /\
    regs_hart_enabled_interrupts p' = regs_hart_enabled_interrupts p /\
    regs_interrupt_priorities p' = regs_interrupt_priorities p /\
    (forall n, (n < NumberCores cfg)%nat -> priority_threshold p' n = priority_threshold p n) /\
    hart_eip p' = hart_eip p /\ external_interrupt p' = external_interrupt p.
Proof.
  intros Hcfg [Hwf _] Hd. destruct (claim_run cfg p data delay Hcfg Hwf Hd) as (id & Hh & Hid & Hrun).
  exists id, (cleared id (put_claim id p)). split; [exact Hrun|]. split; [done|]. split.
  - intros i Hi. rewrite (cleared_bit cfg); [done|done|done|].
    destruct Hwf as (H1 & H2 & H3 & H4). split; [done|]. split; [done|]. split; [done|].
    apply vector_set_view; [done|]. destruct Hcfg as [[Hn _] _]. lia.
  - split; [done|]. split; [done|]. split; [|done]. intros n Hn. destruct Hwf as (_ & _ & _ & [_ Hl]).
    unfold priority_threshold. cbn [cleared put_pending_word put_claim set_pending set_config regs_hart_config].
    rewrite set_view_at by lia. by destruct (Nat.eqb_spec (2 * n) 1); [lia|].
Qed.

(** C32 An interrupt is delivered: once a device has raised an interrupt that a hart has enabled
    with a priority above its threshold, the thread is notified, and when it has run the
    external interrupt line of the hart is set; the thread sets the line of no other hart
    than those with such an interrupt, and clears none. *)
Theorem plic_delivers cfg p h k : config_ok cfg -> plic_inv cfg p -> (h < NumberCores cfg)%nat ->
  (0 < k < NumberInterrupts cfg)%nat -> enabled_bit p h k = true ->
  0 < interrupt_priority p k -> priority_threshold p h < interrupt_priority p k ->
  exists p1 p', gateway_trigger_interrupt cfg k p = (Ok tt, p1) /\ e_run p1 = true /\
    plic_run cfg p1 = (Ok tt, p') /\ external_interrupt p' h = true /\
    (forall n, (n < NumberCores cfg)%nat -> external_interrupt p' n = true <->
       external_interrupt p n = true \/ exists i, candidate cfg p1 n true i).
Proof.
  intros Hcfg Hinv Hh Hk He Hpos Hthr. set (p1 := set_e_run true (triggered k p)).
  pose proof (gateway_inv cfg k Hcfg p Hinv) as Hinv1. rewrite gateway_run in Hinv1 by done. fold p1 in Hinv1.
  assert (candidate cfg p1 h true k) as Hc.
  { split; [done|]. split; [exact He|]. split; [|by split].
    change (pending_bit p1 k) with (pending_bit (triggered k p) k).
    rewrite (triggered_bit cfg); [by rewrite Nat.eqb_refl, orb_true_r|done|lia|apply Hinv]. }
  destruct (run_harts_run cfg (seq 0 (NumberCores cfg)) (set_e_run false p1) Hcfg) as (p' & Hrun & _ & _ & Heip).
  { apply Forall_forall. intros n Hn%elem_of_seq. lia. }
  pose proof (plic_run_inv cfg p1 Hinv1) as Hinv'.
  assert (plic_run cfg p1 = (Ok tt, p')) as Hr by (unfold plic_run; by rewrite (sm_bind_ok _ _ _ _ _ (eq_refl : sm_modify _ p1 = _))).
  rewrite Hr in Hinv'. destruct Hinv' as (_ & Hline & _), Hinv as (_ & Hline0 & _).
  assert (forall n, (n < NumberCores cfg)%nat -> external_interrupt p' n = true <->
    external_interrupt p n = true \/ exists i, candidate cfg p1 n true i) as Hall.
  { intros n Hn. rewrite Hline, Heip, Hline0, elem_of_seq. split; [intros [?|[_ ?]]|intros [?|?]]; auto.
    right. split; [lia|done]. }
  exists p1, p'. split; [by apply gateway_run|]. split; [done|]. split; [done|]. split; [|done].
  apply Hall; [done|]. right. by exists k.
Qed.

(** ** Witnesses: the controller of the HiFive board *)

Definition hifive_plic : plic_config := mkPlicConfig 1 53 64 7.
Lemma hifive_plic_ok : config_ok hifive_plic.
Proof. unfold config_ok, hifive_plic. cbn. lia. Qed.

(** Interrupts 3 and 5 are enabled, 5 has the priority 9, which is clamped to 7. *)
Definition setup_events : list plic_event :=
  [Access (mkPayload TLM_WRITE_COMMAND 0x2000 (le_bytes 4 0x28) None TLM_OK_RESPONSE) 0;
   Access (mkPayload TLM_WRITE_COMMAND 20 (le_bytes 4 9) None TLM_OK_RESPONSE) 0].
Definition setup_plic : FE310_PLIC := (plic_events hifive_plic setup_events (FE310_PLIC_new hifive_plic)).2.
Lemma access_ok_dec trans : forallb (fun b => (0 <=? b) && (b <? 2 ^ 8)) (data_ptr trans) = true ->
  (data_length trans <? 2 ^ 32) = true -> access_ok trans.
Proof.
  intros Hb Hl. split; [|by apply Z.ltb_lt]. apply Forall_forall. intros b Hin.
  rewrite forallb_forall in Hb. apply list_elem_of_In, Hb in Hin. unfold byte_ok. lia.
Qed.
Lemma setup_events_ok : Forall event_ok setup_events.
Proof. unfold setup_events. rewrite !Forall_cons. split_and!; [..|done]; apply access_ok_dec; vm_compute; reflexivity. Qed.
Definition raised_plic : FE310_PLIC :=
  (plic_events hifive_plic (setup_events ++ [Trigger 3; Trigger 5]) (FE310_PLIC_new hifive_plic)).2.

Lemma plic_invariant_witness : interrupt_priority setup_plic 5 = 7 /\ plic_inv hifive_plic setup_plic.
Proof.
  split; [vm_compute; reflexivity|].
  exact (plic_invariant hifive_plic setup_events hifive_plic_ok setup_events_ok).
Defined.

Lemma setup_plic_inv : plic_inv hifive_plic setup_plic.
Proof.
  pose proof (events_inv hifive_plic setup_events hifive_plic_ok setup_events_ok _ (new_inv hifive_plic hifive_plic_ok)) as Hi.
  unfold setup_plic. by destruct (plic_events _ _ _) as [[?|?] ?].
Qed.
Lemma raised_plic_inv : plic_inv hifive_plic raised_plic.
Proof.
  assert (Forall event_ok (setup_events ++ [Trigger 3; Trigger 5])) as Hok
    by (apply Forall_app; split; [apply setup_events_ok|by repeat constructor]).
  pose proof (events_inv hifive_plic _ hifive_plic_ok Hok _ (new_inv hifive_plic hifive_plic_ok)) as Hi.
  unfold raised_plic. by destruct (plic_events _ _ _) as [[?|?] ?].
Qed.

(** The claim takes interrupt 5, whose priority is higher, and leaves 3 pending. *)
Lemma plic_claim_witness : exists id p',
  plic_transport hifive_plic (mkPayload TLM_READ_COMMAND 0x200004 [0; 0; 0; 0] None TLM_OK_RESPONSE) 0 raised_plic =
    (Ok (mkPayload TLM_READ_COMMAND 0x200004 (le_bytes 4 (Z.of_nat id)) None TLM_OK_RESPONSE, 40), p') /\
  highest hifive_plic raised_plic 0 false id /\ pending_bit raised_plic 3 = true.
Proof.
  destruct (plic_claim hifive_plic raised_plic [0; 0; 0; 0] 0 hifive_plic_ok raised_plic_inv eq_refl)
    as (id & p' & Hrun & Hid & _).
  exists id, p'. split; [exact Hrun|]. split; [exact Hid|]. vm_compute. reflexivity.
Defined.

Lemma plic_delivers_witness : exists p1 p', gateway_trigger_interrupt hifive_plic 5 setup_plic = (Ok tt, p1) /\
  plic_run hifive_plic p1 = (Ok tt, p') /\ external_interrupt p' 0 = true.
Proof.
  destruct (plic_delivers hifive_plic setup_plic 0 5 hifive_plic_ok setup_plic_inv) as (p1 & p' & Hg & _ & Hr & Hx & _);
    [cbn; lia|cbn; lia|vm_compute; reflexivity|vm_compute; reflexivity|vm_compute; reflexivity|].
  exists p1, p'. split; [exact Hg|]. split; [exact Hr|exact Hx].
Defined.

(** Enabling an interrupt that is already pending does not wake the thread: it is not
    signalled before another interrupt is raised. *)
Example enabling_is_not_signalled :
  let evs := [Trigger 3; Wake; Access (mkPayload TLM_WRITE_COMMAND 0x2000 (le_bytes 4 8) None TLM_OK_RESPONSE) 0] in
  let p := (plic_events hifive_plic evs (FE310_PLIC_new hifive_plic)).2 in
  hart_get_next_pending_interrupt hifive_plic p 0 true = Some 3%nat /\ external_interrupt p 0 = false /\ e_run p = false.
Proof. vm_compute. auto. Qed.
(** A completion that comes when an interrupt is pending and not yet signalled fails an assertion. *)
Example early_completion_fails :
  let complete := mkPayload TLM_WRITE_COMMAND 0x200004 (le_bytes 4 3) None TLM_OK_RESPONSE in
  (plic_events hifive_plic (setup_events ++ [Trigger 3; Access complete 0]) (FE310_PLIC_new hifive_plic)).1 =
    Err AssertionFailed.
Proof. vm_compute. reflexivity. Qed.
