(* ===== verification/Fu540.v ===== *)
(** The interrupt controller of the FU540 (platform/common/fu540_plic.h, fu540_plic.cpp): its
    registers per hart and privilege level, the gateway, the choice of the next interrupt, claim
    and completion, and the thread that signals the harts. *)
From S2P Require Import Prelude Bits Concolic ConcMem Csr Iss Bus RegMap Plic.

(** * The controller *)

Definition FU540_PLIC_NUMIRQ : nat := 53.
Definition FU540_PLIC_MAX_THR : Z := 7.
Definition FU540_PLIC_MAX_PRIO : Z := 7.
Definition ENABLE_BASE : Z := 0x2000.
Definition ENABLE_PER_HART : Z := 0x80.
Definition CONTEXT_BASE : Z := 0x200000.
Definition CONTEXT_PER_HART : Z := 0x1000.
Definition HART_REG_SIZE : Z := 8.
Definition invalid_argument : Z := 1.

(** The vectors of the register ranges, those of the harts by hart and level, what each hart was last
    told of a level by [trigger_external_interrupt] and [clear_external_interrupt], and whether [e_run]
    is notified. *)
Record FU540_PLIC := mkFu540 {
  fu_priorities : list Z;
  fu_pending : list Z;
  fu_enabled : nat -> Z -> list Z;
  fu_context : nat -> Z -> list Z;
  fu_external : nat -> Z -> bool;
  fu_e_run : bool;
}.
Definition put_at {A} (f : nat -> Z -> A) (h : nat) (l : Z) (v : A) : nat -> Z -> A :=
  fun h' l' => if (h' =? h)%nat && (l' =? l) then v else f h' l'.
Definition put_priorities v p := mkFu540 v (fu_pending p) (fu_enabled p) (fu_context p) (fu_external p) (fu_e_run p).
Definition put_pending v p := mkFu540 (fu_priorities p) v (fu_enabled p) (fu_context p) (fu_external p) (fu_e_run p).
Definition put_enabled h l v p :=
  mkFu540 (fu_priorities p) (fu_pending p) (put_at (fu_enabled p) h l v) (fu_context p) (fu_external p) (fu_e_run p).
Definition put_context h l v p :=
  mkFu540 (fu_priorities p) (fu_pending p) (fu_enabled p) (put_at (fu_context p) h l v) (fu_external p) (fu_e_run p).
Definition put_external h l v p :=
  mkFu540 (fu_priorities p) (fu_pending p) (fu_enabled p) (fu_context p) (put_at (fu_external p) h l v) (fu_e_run p).
Definition put_e_run v p := mkFu540 (fu_priorities p) (fu_pending p) (fu_enabled p) (fu_context p) (fu_external p) v.

#[local] Open Scope sm_scope.
Abbreviation M := (SM FU540_PLIC exn).

(** [HartConfig]: the registers of a level; the supervisor's of the first hart are the machine's. *)
Definition s_level (h : nat) : Z := if (h =? 0)%nat then MachineMode else SupervisorMode.
Definition level_of (h : nat) (level : Z) : option Z :=
  if level =? MachineMode then Some MachineMode else if level =? SupervisorMode then Some (s_level h) else None.

Definition get_idx (irq : nat) : nat := (irq / 32)%nat.
Definition get_off (irq : nat) : Z := Z.shiftl 1 (Z.of_nat (irq mod 32)).
Definition is_irq (irq : nat) : bool := (0 <? irq)%nat && (irq <=? FU540_PLIC_NUMIRQ)%nat.

Definition fu_gateway_trigger_interrupt (irq : nat) : M unit :=
  if is_irq irq then
    sm_modify (fun p => put_pending
      (set_view 4 (get_idx irq) (Z.lor (view 4 (get_idx irq) (fu_pending p)) (get_off irq)) (fu_pending p)) p) ;;;
    sm_modify (put_e_run true)
  else sm_throw (OtherException invalid_argument).

Definition fu_clear_pending (irq : nat) : M unit :=
  dev_assert (is_irq irq) ;;;
  sm_modify (fun p => put_pending
    (set_view 4 (get_idx irq) (Z.land (view 4 (get_idx irq) (fu_pending p)) (u32 (Z.lnot (get_off irq)))) (fu_pending p)) p).
Definition fu_is_pending (p : FU540_PLIC) (irq : nat) : bool :=
  negb (Z.land (view 4 (get_idx irq) (fu_pending p)) (get_off irq) =? 0).
Definition fu_is_enabled (p : FU540_PLIC) (h : nat) (irq : nat) (level : Z) : option bool :=
  l ← level_of h level; Some (negb (Z.land (view 4 (get_idx irq) (fu_enabled p h l)) (get_off irq) =? 0)).
Definition fu_threshold (p : FU540_PLIC) (h : nat) (level : Z) : option Z := l ← level_of h level; Some (view 4 0 (fu_context p h l)).
(** [interrupt_priorities[irq]] is element [irq] of the 53 of the array, from 0. *)
Definition fu_priority (p : FU540_PLIC) (irq : nat) : option Z :=
  if (irq <? FU540_PLIC_NUMIRQ)%nat then Some (view 4 irq (fu_priorities p)) else None.

(** The loop of [next_pending_irq] on [(selirq, maxpri)]; [None] is a failed assertion. *)
Fixpoint next_irq_from (p : FU540_PLIC) (h : nat) (lvl : Z) (ignth : bool) (acc : nat * Z) (irqs : list nat) : option nat :=
  match irqs with
  | [] => Some acc.1
  | irq :: irqs =>
      enabled ← fu_is_enabled p h irq lvl;
      if negb enabled || negb (fu_is_pending p irq) then next_irq_from p h lvl ignth acc irqs
      else
        prio ← fu_priority p irq; threshold ← fu_threshold p h lvl;
        if negb ignth && (prio <? threshold) then next_irq_from p h lvl ignth acc irqs
        else next_irq_from p h lvl ignth (if acc.2 <? prio then (irq, prio) else acc) irqs
  end.
Definition next_pending_irq (p : FU540_PLIC) (h : nat) (lvl : Z) (ignth : bool) : option nat :=
  if (h =? 0)%nat && (lvl =? SupervisorMode) then None
  else next_irq_from p h lvl ignth (0%nat, 0) (seq 1 FU540_PLIC_NUMIRQ).
Definition has_pending_irq (p : FU540_PLIC) (h : nat) : option (option Z) :=
  supervisor ← (if (h =? 0)%nat then Some 0%nat else next_pending_irq p h SupervisorMode false);
  if (0 <? supervisor)%nat then Some (Some SupervisorMode)
  else machine ← next_pending_irq p h MachineMode false; Some (if (0 <? machine)%nat then Some MachineMode else None).

(** ** Callbacks *)

Definition is_claim_access (addr : Z) : bool := (u32 (addr / 4)) mod 2 =? 1.
Definition read_hartctx (h : nat) (level addr size _ : Z) : M bool :=
  dev_assert (addr mod 4 =? 0) ;;; dev_assert (size =? 4) ;;;
  sm_when (is_claim_access addr)
    (irq <-- dev_asserted (fun p => next_pending_irq p h level true) ;;
     l <-- dev_asserted (fun _ => level_of h level) ;;
     sm_modify (fun p => put_context h l (set_view 4 1 (Z.of_nat irq) (fu_context p h l)) p) ;;;
     sm_when (0 <? irq)%nat (fu_clear_pending irq)) ;;;
  sm_ret true.
Definition write_hartctx (h : nat) (level addr size _ : Z) : M unit :=
  dev_assert (addr mod 4 =? 0) ;;; dev_assert (size =? 4) ;;;
  if is_claim_access addr then sm_modify (put_external h level false)
  else
    l <-- dev_asserted (fun _ => level_of h level) ;;
    sm_modify (fun p => put_context h l
      (set_view 4 0 (Z.min (view 4 0 (fu_context p h l)) FU540_PLIC_MAX_THR) (fu_context p h l)) p).
Definition write_irq_prios (addr size _ : Z) : M unit :=
  let idx := Z.to_nat (addr / 4) in
  dev_assert (idx <=? FU540_PLIC_NUMIRQ)%nat ;;;
  dev_assert (idx <? FU540_PLIC_NUMIRQ)%nat ;;;
  sm_modify (fun p => put_priorities
    (set_view 4 idx (Z.min (view 4 idx (fu_priorities p)) FU540_PLIC_MAX_PRIO) (fu_priorities p)) p).

(** ** The register map *)

Definition range_irq_priorities : RegisterRange FU540_PLIC :=
  mkRange 0x4 (4 * Z.of_nat FU540_PLIC_NUMIRQ) fu_priorities put_priorities
    false 4 no_pre_callback write_irq_prios no_pre_callback no_post_callback.
Definition range_pending_irqs : RegisterRange FU540_PLIC :=
  mkRange 0x1000 8 fu_pending put_pending
    false 4 (fun _ _ _ => sm_ret false) no_post_callback no_pre_callback no_post_callback.
Definition range_enabled (h : nat) (l addr : Z) : RegisterRange FU540_PLIC :=
  mkRange addr HART_REG_SIZE (fun p => fu_enabled p h l) (put_enabled h l)
    false 4 no_pre_callback no_post_callback no_pre_callback no_post_callback.
Definition range_context (h : nat) (l addr : Z) : RegisterRange FU540_PLIC :=
  mkRange addr HART_REG_SIZE (fun p => fu_context p h l) (put_context h l)
    false 4 no_pre_callback (write_hartctx h l) (read_hartctx h l) no_post_callback.
(** The loop of [create_hart_regs]. *)
Fixpoint create_hart_regs {A} (add_reg : nat -> Z -> Z -> A) (harts : list nat) (addr inc : Z) : list A :=
  match harts with
  | [] => []
  | i :: harts =>
      add_reg i MachineMode addr ::
      if (i =? 0)%nat then create_hart_regs add_reg harts (addr + inc) inc
      else add_reg i SupervisorMode (addr + inc) :: create_hart_regs add_reg harts (addr + inc + inc) inc
  end.
Definition create_registers (harts : nat) : list (RegisterRange FU540_PLIC) :=
  [range_irq_priorities; range_pending_irqs] ++
  create_hart_regs range_enabled (seq 0 harts) ENABLE_BASE ENABLE_PER_HART ++
  create_hart_regs range_context (seq 0 harts) CONTEXT_BASE CONTEXT_PER_HART.

(** The constructor. *)
Definition FU540_PLIC_new : FU540_PLIC :=
  mkFu540 (replicate (4 * FU540_PLIC_NUMIRQ) 0) (replicate 8 0) (fun _ _ => replicate 8 0) (fun _ _ => replicate 8 0)
    (fun _ _ => false) false.

Definition fu_transport (harts : nat) (trans : payload) (delay : Z) : M (payload * Z) :=
  let delay := delay + 4 * 10 in
  trans <-- route (create_registers harts) trans delay ;; sm_ret (trans, delay).

(** ** The thread *)

Fixpoint fu_run_harts (harts : list nat) : M unit :=
  match harts with
  | [] => sm_ret tt
  | i :: harts =>
      lvl <-- dev_asserted (fun p => has_pending_irq p i) ;;
      match lvl with Some lvl => sm_modify (put_external i lvl true) | None => sm_ret tt end ;;;
      fu_run_harts harts
  end.
(** What [run] does each time [e_run] wakes it. *)
Definition fu_run (harts : nat) : M unit := sm_modify (put_e_run false) ;;; fu_run_harts (seq 0 harts).
