(* ===== verification/Fu540Spec.v ===== *)
(** What the controller of the FU540 promises: the choice of the next interrupt of a hart and level, claim,
    and the signals of the thread; and where it does otherwise than the manual says. *)
From S2P Require Import Prelude Bits Concolic ConcMem Csr Iss Bus RegMap Plic PlicSpec Fu540.

(** * Well-formed registers *)

Definition fu_wf (p : FU540_PLIC) : Prop :=
  vector_ok (4 * FU540_PLIC_NUMIRQ) (fu_priorities p) /\ vector_ok 8 (fu_pending p) /\
  (forall h l, vector_ok 8 (fu_enabled p h l)) /\ (forall h l, vector_ok 8 (fu_context p h l)).

(** The levels of a hart. *)
Definition has_level (h : nat) (l : Z) : Prop := l = MachineMode \/ l = SupervisorMode /\ h <> 0%nat.
Lemma level_of_has h l : has_level h l -> level_of h l = Some l.
Proof. intros [->|[-> Hh]]; [done|]. unfold level_of, s_level. apply Nat.eqb_neq in Hh. by rewrite Hh. Qed.

(** * The next interrupt *)

Definition irq_bit (w : list Z) (i : nat) : bool := Z.testbit (view 4 (i / 32) w) (Z.of_nat (i mod 32)).
Lemma land_off w k : negb (Z.land w (Z.shiftl 1 (Z.of_nat k)) =? 0) = Z.testbit w (Z.of_nat k).
Proof.
  rewrite Z.shiftl_1_l. destruct (Z.testbit w (Z.of_nat k)) eqn:Hb.
  - apply negb_true_iff, Z.eqb_neq. intros H0. pose proof (Z.land_spec w (2 ^ Z.of_nat k) (Z.of_nat k)) as Hs.
    by rewrite H0, Z.bits_0, Hb, Z.pow2_bits_true in Hs by lia.
  - apply negb_false_iff, Z.eqb_eq, Z.bits_inj'. intros j Hj. rewrite Z.land_spec, Z.bits_0, Z.pow2_bits_eqb by lia.
    destruct (Z.eqb_spec (Z.of_nat k) j) as [<-|]; [by rewrite Hb|apply andb_false_r].
Qed.

(** The priority the controller takes for an interrupt is that of the register of the next one: the array starts at
    the register of interrupt 1. *)
Definition priority_used (p : FU540_PLIC) (i : nat) : Z := view 4 i (fu_priorities p).
Definition priority_register (i : nat) : Z := 4 * Z.of_nat i.
(** The interrupts that are taken for a hart and level; a priority equal to the threshold is enough. *)
Definition fu_candidate (p : FU540_PLIC) (h : nat) (l : Z) (thr : bool) (i : nat) : Prop :=
  (0 < i < FU540_PLIC_NUMIRQ)%nat /\ irq_bit (fu_enabled p h l) i = true /\ irq_bit (fu_pending p) i = true /\
  0 < priority_used p i /\ (thr = true -> view 4 0 (fu_context p h l) <= priority_used p i).
Definition last_irq_waits (p : FU540_PLIC) (h : nat) (l : Z) : bool :=
  irq_bit (fu_enabled p h l) FU540_PLIC_NUMIRQ && irq_bit (fu_pending p) FU540_PLIC_NUMIRQ.

Section choice.
Context (p : FU540_PLIC) (h : nat) (l : Z) (thr : bool) (Hl : has_level h l).
Abbreviation cand := (fu_candidate p h l thr).

Lemma fu_positive i : cand i -> 0 < priority_used p i.
Proof. by intros (_ & _ & _ & ? & _). Qed.
Lemma next_irq_step i irqs acc : (0 < i < FU540_PLIC_NUMIRQ)%nat -> best_among cand (priority_used p) i acc ->
  exists acc', next_irq_from p h l (negb thr) acc (i :: irqs) = next_irq_from p h l (negb thr) acc' irqs /\
    best_among cand (priority_used p) (S i) acc'.
Proof.
  intros Hi Hb. cbn [next_irq_from]. unfold fu_is_enabled, fu_threshold, fu_is_pending, fu_priority.
  rewrite (level_of_has h l Hl). cbn [mbind option_bind]. unfold get_off, get_idx. rewrite !land_off.
  fold (irq_bit (fu_enabled p h l) i). fold (irq_bit (fu_pending p) i).
  rewrite (proj2 (Nat.ltb_lt _ _) (proj2 Hi)). cbn [mbind option_bind]. fold (priority_used p i). rewrite negb_involutive.
  assert (~ cand i -> exists acc', next_irq_from p h l (negb thr) acc irqs = next_irq_from p h l (negb thr) acc' irqs /\
    best_among cand (priority_used p) (S i) acc') as Hskip by (intros Hn; exists acc; split; [done|by apply best_skip]).
  destruct (irq_bit (fu_enabled p h l) i) eqn:He; cbn [negb orb]; [|apply Hskip; intros (_ & ? & _); congruence].
  destruct (irq_bit (fu_pending p) i) eqn:Hp; cbn [negb orb]; [|apply Hskip; intros (_ & _ & ? & _); congruence].
  destruct (thr && (priority_used p i <? view 4 0 (fu_context p h l))) eqn:Ht.
  { apply Hskip. apply andb_true_iff in Ht as [-> Ht%Z.ltb_lt]. intros (_ & _ & _ & _ & Hle). specialize (Hle eq_refl). lia. }
  destruct (Z.ltb_spec 0 (priority_used p i)) as [Hpos|Hz].
  - eexists. split; [reflexivity|]. apply best_take; [apply fu_positive|done|]. split; [done|]. split; [done|]. split; [done|]. split; [done|].
    intros ->. apply andb_false_iff in Ht as [?|Ht%Z.ltb_ge]; [done|lia].
  - assert (~ cand i) as Hn by (intros Hc%fu_positive; lia). eexists. split; [reflexivity|].
    assert (0 <= acc.2) as Hacc by (destruct Hb as [[-> _]|(Hc%fu_positive & _ & -> & _)]; [done|lia]).
    rewrite (proj2 (Z.ltb_ge _ _)) by lia. by apply best_skip.
Qed.
(** The choice; an interrupt 53 that waits fails the assertion of the array. *)
Lemma next_irq_highest : last_irq_waits p h l = false ->
  exists id, next_pending_irq p h l (negb thr) = Some id /\ highest_of cand (priority_used p) id /\ (id < FU540_PLIC_NUMIRQ)%nat.
Proof.
  intros Hlast. unfold next_pending_irq. replace ((h =? 0)%nat && (l =? SupervisorMode)) with false
    by (symmetry; apply andb_false_iff; destruct Hl as [->|[_ Hh]]; [by right|left; by apply Nat.eqb_neq]).
  assert (forall n a acc, (0 < a)%nat -> (a + n <= FU540_PLIC_NUMIRQ)%nat -> best_among cand (priority_used p) a acc ->
    exists acc', next_irq_from p h l (negb thr) acc (seq a n ++ [FU540_PLIC_NUMIRQ]) = next_irq_from p h l (negb thr) acc' [FU540_PLIC_NUMIRQ] /\
      best_among cand (priority_used p) (a + n) acc') as Hloop.
  { induction n as [|n IH]; intros a acc Ha Hn Hb; [exists acc; by rewrite Nat.add_0_r|].
    cbn [seq app]. destruct (next_irq_step a (seq (S a) n ++ [FU540_PLIC_NUMIRQ]) acc ltac:(lia) Hb) as (acc1 & -> & Hb1).
    destruct (IH (S a) acc1 ltac:(lia) ltac:(lia) Hb1) as (acc2 & -> & Hb2). exists acc2. split; [done|]. by rewrite Nat.add_succ_r. }
  destruct (Hloop 52%nat 1%nat (0%nat, 0)) as (acc & Hr & Hb); [lia|unfold FU540_PLIC_NUMIRQ; lia|apply best_start; intros [[? _] _]; lia|].
  change (seq 1 52 ++ [FU540_PLIC_NUMIRQ]) with (seq 1 FU540_PLIC_NUMIRQ) in Hr. rewrite Hr. exists acc.1.
  assert (highest_of cand (priority_used p) acc.1) as Hh by (apply (best_highest _ _ 53); [done|by intros i [[_ ?] _]]).
  split; [|split; [done|]].
  - cbn [next_irq_from]. unfold fu_is_enabled, fu_is_pending. rewrite (level_of_has h l Hl). cbn [mbind option_bind].
    unfold get_off, get_idx. rewrite !land_off. unfold last_irq_waits, irq_bit in Hlast. apply andb_false_iff in Hlast as [-> | ->]; cbn [negb orb]; [done|].
    by rewrite orb_true_r.
  - destruct Hh as [[-> _]|[[[_ ?] _] _]]; [unfold FU540_PLIC_NUMIRQ; lia|done].
Qed.
End choice.

(** * The pending bits *)

Definition put_word (k : nat) (w : Z) (p : FU540_PLIC) : FU540_PLIC := put_pending (set_view 4 (k / 32) w (fu_pending p)) p.
Lemma irq_word k : (k <= FU540_PLIC_NUMIRQ)%nat -> (k / 32 < 2)%nat.
Proof. intros Hk. apply Nat.Div0.div_lt_upper_bound. unfold FU540_PLIC_NUMIRQ in Hk. lia. Qed.
Lemma put_word_wf k w p : (k <= FU540_PLIC_NUMIRQ)%nat -> fu_wf p -> fu_wf (put_word k w p).
Proof.
  intros Hk%irq_word (Hp & [Hb Hl] & He & Hc). split_and!; [done| |done|done]. split; [by apply set_view_ok|].
  unfold put_word. cbn [fu_pending put_pending]. by rewrite length_set_view by lia.
Qed.
Lemma put_word_bit k w p i : (k <= FU540_PLIC_NUMIRQ)%nat -> fu_wf p ->
  irq_bit (fu_pending (put_word k w p)) i = if (i / 32 =? k / 32)%nat then Z.testbit w (Z.of_nat (i mod 32)) else irq_bit (fu_pending p) i.
Proof.
  intros Hk%irq_word (_ & [_ Hl] & _). unfold irq_bit, put_word. cbn [fu_pending put_pending]. rewrite set_view_at by lia.
  destruct (_ =? _)%nat; [|done]. apply word_bits_low, Nat.mod_upper_bound. lia.
Qed.
Definition fu_triggered (k : nat) (p : FU540_PLIC) : FU540_PLIC := put_word k (Z.lor (view 4 (k / 32) (fu_pending p)) (get_off k)) p.
Definition fu_cleared (k : nat) (p : FU540_PLIC) : FU540_PLIC := put_word k (Z.land (view 4 (k / 32) (fu_pending p)) (u32 (Z.lnot (get_off k)))) p.
Lemma fu_triggered_bit k p i : (k <= FU540_PLIC_NUMIRQ)%nat -> fu_wf p ->
  irq_bit (fu_pending (fu_triggered k p)) i = irq_bit (fu_pending p) i || (i =? k)%nat.
Proof.
  intros Hk Hwf. unfold fu_triggered. rewrite put_word_bit by done. rewrite <- (same_bit i k).
  destruct (Nat.eqb_spec (i / 32) (k / 32)) as [He|]; [|by rewrite andb_false_r, orb_false_r].
  unfold get_off. rewrite andb_true_r, Z.lor_spec, shift_bit. unfold irq_bit. by rewrite He.
Qed.
Lemma fu_cleared_bit k p i : (k <= FU540_PLIC_NUMIRQ)%nat -> fu_wf p ->
  irq_bit (fu_pending (fu_cleared k p)) i = irq_bit (fu_pending p) i && negb (i =? k)%nat.
Proof.
  intros Hk Hwf. unfold fu_cleared. rewrite put_word_bit by done. rewrite <- (same_bit i k).
  destruct (Nat.eqb_spec (i / 32) (k / 32)) as [He|]; [|by rewrite andb_false_r, andb_true_r].
  unfold get_off. rewrite andb_true_r, Z.land_spec, word_bits_low by (apply Nat.mod_upper_bound; lia).
  rewrite Z.lnot_spec, shift_bit by lia. unfold irq_bit. by rewrite He.
Qed.
Lemma is_irq_spec k : (0 < k <= FU540_PLIC_NUMIRQ)%nat -> is_irq k = true.
Proof. intros Hk. unfold is_irq. by rewrite (proj2 (Nat.ltb_lt _ _)), (proj2 (Nat.leb_le _ _)) by lia. Qed.
Lemma fu_gateway_run k p : (0 < k <= FU540_PLIC_NUMIRQ)%nat -> fu_gateway_trigger_interrupt k p = (Ok tt, put_e_run true (fu_triggered k p)).
Proof. intros Hk. unfold fu_gateway_trigger_interrupt. by rewrite (is_irq_spec k Hk). Qed.
Lemma fu_clear_run k p : (0 < k <= FU540_PLIC_NUMIRQ)%nat -> fu_clear_pending k p = (Ok tt, fu_cleared k p).
Proof. intros Hk. unfold fu_clear_pending. by rewrite (is_irq_spec k Hk). Qed.

(** * Where the registers are *)

Definition slot (h : nat) (l : Z) : Z :=
  if l =? MachineMode then (if (h =? 0)%nat then 0 else 2 * Z.of_nat h - 1) else 2 * Z.of_nat h.
Lemma slot_inj h l h' l' : has_level h l -> has_level h' l' -> slot h l = slot h' l' -> h = h' /\ l = l'.
Proof.
  unfold slot. intros [->|[-> H]] [->|[-> H']]; cbn [Z.eqb]; change (MachineMode =? MachineMode) with true;
    change (SupervisorMode =? MachineMode) with false; cbv iota;
    destruct (Nat.eqb_spec h 0), (Nat.eqb_spec h' 0); subst; intros Hs; try done; split; try done; lia.
Qed.
Lemma hart_regs_elem {A} (f : nat -> Z -> Z -> A) base inc n x : forall a,
  x ∈ create_hart_regs f (seq a n) (base + inc * slot a MachineMode) inc <->
  exists h l, (a <= h < a + n)%nat /\ has_level h l /\ x = f h l (base + inc * slot h l).
Proof.
  induction n as [|n IH]; intros a; cbn [seq create_hart_regs].
  { split; [by intros ?%elem_of_nil|]. intros (h & l & ? & _). lia. }
  assert (forall h l, (a <= h < a + S n)%nat /\ has_level h l <-> (h = a /\ l = MachineMode) \/ (h = a /\ l = SupervisorMode /\ a <> 0%nat) \/ (S a <= h < S a + n)%nat /\ has_level h l) as Hcase.
  { intros h l. split.
    - intros [Hh Hl]. destruct (decide (h = a)) as [->|]; [destruct Hl as [->|[-> ?]]; auto|]. right. right. split; [lia|done].
    - intros [[-> ->]|[(-> & -> & ?)|[? ?]]]; (split; [lia|]); [by left|by right|done]. }
  destruct (Nat.eqb_spec a 0) as [->|Ha].
  - replace (base + inc * slot 0 MachineMode + inc) with (base + inc * slot 1 MachineMode) by (cbn; lia).
    rewrite elem_of_cons, IH. split.
    + intros [->|(h & l & Hh & Hl & ->)]; [exists 0%nat, MachineMode|exists h, l]; (split; [lia|split; [first [done|by left]|done]]).
    + intros (h & l & Hh & Hl & ->). destruct (proj1 (Hcase h l) (conj Hh Hl)) as [[-> ->]|[(_ & _ & ?)|[? ?]]]; [by left|done|right; by exists h, l].
  - assert (slot a MachineMode = 2 * Z.of_nat a - 1 /\ slot a SupervisorMode = 2 * Z.of_nat a /\ slot (S a) MachineMode = 2 * Z.of_nat a + 1) as (H1 & H2 & H3).
    { unfold slot. cbn. destruct (Nat.eqb_spec a 0); [done|]. split_and!; lia. }
    replace (base + inc * slot a MachineMode + inc + inc) with (base + inc * slot (S a) MachineMode) by (rewrite H1, H3; lia).
    replace (base + inc * slot a MachineMode + inc) with (base + inc * slot a SupervisorMode) by (rewrite H1, H2; lia).
    rewrite !elem_of_cons, IH. split.
    + intros [->|[->|(h & l & Hh & Hl & ->)]]; [exists a, MachineMode|exists a, SupervisorMode|exists h, l]; (split; [lia|split; [|done]]); [by left|by right|done].
    + intros (h & l & Hh & Hl & ->). destruct (proj1 (Hcase h l) (conj Hh Hl)) as [[-> ->]|[(-> & -> & ?)|[? ?]]]; [by left|by right; left|right; right; by exists h, l].
Qed.
(** A transaction goes to the only range that contains its address. *)
Lemma route_unique {S} (r : RegisterRange S) rs trans delay : r ∈ rs -> rr_contains r (address trans) = true ->
  (forall r', r' ∈ rs -> rr_contains r' (address trans) = true -> r' = r) -> route rs trans delay = process r trans delay.
Proof.
  induction rs as [|x rs IH]; [by intros ?%elem_of_nil|]. intros Hin Hc Hu. cbn [route]. destruct (rr_contains x (address trans)) eqn:Hx.
  - by rewrite (Hu x ltac:(by left) Hx).
  - apply elem_of_cons in Hin as [->|Hin]; [congruence|]. apply IH; [done|done|]. intros r' Hr'. apply Hu. by right.
Qed.
Definition context_address (h : nat) (l : Z) : Z := CONTEXT_BASE + CONTEXT_PER_HART * slot h l.
Lemma contains_range a (r : RegisterRange FU540_PLIC) : 0 <= rr_start r < 2 ^ 40 -> 0 < rr_size r < 2 ^ 40 ->
  rr_contains r a = true -> rr_start r <= a < rr_start r + rr_size r.
Proof. intros Ha Hn. unfold rr_contains. rewrite wrap_small by lia. rewrite andb_true_iff, !Z.leb_le. lia. Qed.
Lemma slot_bound harts h l : (h < harts)%nat -> 0 <= slot h l < 2 * Z.of_nat harts.
Proof. intros Hh. unfold slot. destruct (_ =? _); [|lia]. destruct (Nat.eqb_spec h 0); lia. Qed.
Lemma route_claim harts h l trans delay : (harts <= 500)%nat -> (h < harts)%nat -> has_level h l ->
  address trans = context_address h l + 4 -> route (create_registers harts) trans delay = process (range_context h l (context_address h l)) trans delay.
Proof.
  intros Hn Hh Hl Ha. pose proof (slot_bound harts h l Hh) as Hs. apply route_unique; rewrite ?Ha.
  - unfold create_registers. rewrite !elem_of_app. right. right. apply (hart_regs_elem range_context CONTEXT_BASE CONTEXT_PER_HART harts _ 0%nat).
    exists h, l. split; [lia|done].
  - unfold rr_contains, context_address. cbn [rr_start rr_size range_context].
    unfold CONTEXT_BASE, CONTEXT_PER_HART, HART_REG_SIZE. rewrite wrap_small by lia. rewrite andb_true_iff, !Z.leb_le. lia.
  - intros r' Hin Hc. unfold create_registers in Hin. rewrite !elem_of_app in Hin.
    destruct Hin as [[->|[->|?%elem_of_nil]%elem_of_cons]%elem_of_cons|[Hin|Hin]]; [| |done| |].
    + apply contains_range in Hc; cbn [rr_start rr_size range_irq_priorities] in Hc |- *;
        unfold context_address, CONTEXT_BASE, CONTEXT_PER_HART, FU540_PLIC_NUMIRQ in *; lia.
    + apply contains_range in Hc; cbn [rr_start rr_size range_pending_irqs] in Hc |- *; unfold context_address, CONTEXT_BASE, CONTEXT_PER_HART in *; lia.
    + apply (hart_regs_elem range_enabled ENABLE_BASE ENABLE_PER_HART harts _ 0%nat) in Hin as (h' & l' & Hh' & Hl' & ->).
      pose proof (slot_bound harts h' l' ltac:(lia)). apply contains_range in Hc; cbn [rr_start rr_size range_enabled] in Hc |- *;
        unfold context_address, CONTEXT_BASE, CONTEXT_PER_HART, ENABLE_BASE, ENABLE_PER_HART, HART_REG_SIZE in *; lia.
    + apply (hart_regs_elem range_context CONTEXT_BASE CONTEXT_PER_HART harts _ 0%nat) in Hin as (h' & l' & Hh' & Hl' & ->).
      pose proof (slot_bound harts h' l' ltac:(lia)). assert (slot h' l' = slot h l) as Heq.
      { apply contains_range in Hc; cbn [rr_start rr_size range_context] in Hc |- *;
          unfold context_address, CONTEXT_BASE, CONTEXT_PER_HART, HART_REG_SIZE in *; lia. }
      destruct (slot_inj _ _ _ _ Hl' Hl Heq) as [-> ->]. done.
Qed.

(** * Claim *)

Definition put_claimed (h : nat) (l : Z) (id : nat) (p : FU540_PLIC) : FU540_PLIC :=
  put_context h l (set_view 4 1 (Z.of_nat id) (fu_context p h l)) p.
Definition fu_claimed (h : nat) (l : Z) (id : nat) (p : FU540_PLIC) : FU540_PLIC :=
  let p := put_claimed h l id p in if (0 <? id)%nat then fu_cleared id p else p.
Lemma put_at_same {A} (f : nat -> Z -> A) h l v : put_at f h l v h l = v.
Proof. unfold put_at. by rewrite Nat.eqb_refl, Z.eqb_refl. Qed.
Lemma put_at_ok {A} (P : A -> Prop) (f : nat -> Z -> A) h l v : P v -> (forall h l, P (f h l)) -> forall h' l', P (put_at f h l v h' l').
Proof. intros Hv Hf h' l'. unfold put_at. by destruct (_ && _). Qed.
Lemma put_claimed_wf h l id p : fu_wf p -> fu_wf (put_claimed h l id p).
Proof.
  intros (Hp & Hq & He & Hc). split_and!; [done|done|done|]. apply (put_at_ok (vector_ok 8)); [|done]. apply vector_set_view; [done|lia].
Qed.
Lemma read_claim_run harts p h l data delay : (harts <= 500)%nat -> (h < harts)%nat -> has_level h l -> fu_wf p -> length data = 4%nat ->
  last_irq_waits p h l = false ->
  exists id, highest_of (fu_candidate p h l false) (priority_used p) id /\ (id < FU540_PLIC_NUMIRQ)%nat /\
    fu_transport harts (mkPayload TLM_READ_COMMAND (context_address h l + 4) data None TLM_OK_RESPONSE) delay p =
      (Ok (mkPayload TLM_READ_COMMAND (context_address h l + 4) (le_bytes 4 (Z.of_nat id)) None TLM_OK_RESPONSE, delay + 40),
       fu_claimed h l id p).
Proof.
  intros Hn Hh Hl Hwf Hd Hlast. destruct (next_irq_highest p h l false Hl Hlast) as (id & Hid & Hhi & Hlt).
  cbn [negb] in Hid. exists id. split; [done|]. split; [done|]. set (r := range_context h l (context_address h l)).
  pose proof (slot_bound harts h l Hh) as Hs. assert (length (fu_context p h l) = 8%nat) as Hlen by apply Hwf.
  assert (inside r (context_address h l + 4) 4 p) as Hin.
  { unfold inside, r. cbn [rr_start rr_size rr_mem range_context]. rewrite Hlen. unfold context_address, CONTEXT_BASE, CONTEXT_PER_HART, HART_REG_SIZE. lia. }
  assert (read_hartctx h l 4 4 (delay + 40) p = (Ok true, fu_claimed h l id p)) as Hpre.
  { unfold read_hartctx. change (4 mod 4 =? 0) with true. change (4 =? 4) with true. change (is_claim_access 4) with true.
    unfold sm_when, sm_bind, dev_asserted. cbn [dev_assert sm_ret]. unfold sm_ret. rewrite Hid, (level_of_has h l Hl). unfold sm_modify.
    fold (put_claimed h l id p). unfold fu_claimed. destruct (Nat.ltb_spec 0 id); [|done]. by rewrite fu_clear_run by lia. }
  assert (rr_read r (context_address h l + 4) data (delay + 40) p = (Ok (le_bytes 4 (Z.of_nat id)), fu_claimed h l id p)) as Hread.
  { replace (context_address h l + 4) with (rr_start r + 4) by done. erewrite rr_read_run; [|by rewrite Hd|rewrite Hd; replace (rr_start r + 4 - rr_start r) with 4 by lia; exact Hpre|done].
    replace (rr_start r + 4 - rr_start r) with 4 by lia. rewrite Hd.
    assert (rr_mem r (fu_claimed h l id p) = set_view 4 1 (Z.of_nat id) (fu_context p h l)) as ->.
    { unfold r, fu_claimed. cbn [rr_mem range_context]. destruct (0 <? id)%nat; cbn [put_claimed put_context fu_cleared put_word put_pending fu_context]; apply put_at_same. }
    pose proof (take_drop_splice 4 (le_bytes 4 (Z.of_nat id)) (fu_context p h l)) as Ht.
    rewrite length_le_bytes in Ht. f_equal. f_equal. apply Ht. lia. }
  unfold fu_transport. erewrite sm_bind_ok; [reflexivity|]. rewrite (route_claim harts h l) by done.
  erewrite process_read; [|done| |unfold data_length; cbn [data_ptr]; by rewrite Hd|exact Hread]; [done|].
  cbn [address alignment range_context]. unfold context_address, CONTEXT_BASE, CONTEXT_PER_HART.
  replace (0x200000 + 0x1000 * slot h l + 4) with ((0x80000 + 0x400 * slot h l + 1) * 4) by lia. apply Z_mod_mult.
Qed.

(** * The thread *)

(** What the thread tells a hart: of its supervisor level, if that has a candidate, and only otherwise of its machine level. *)
Definition tells (p : FU540_PLIC) (h : nat) (l : Z) : Prop :=
  (exists i, fu_candidate p h l true i) /\ (l = SupervisorMode /\ h <> 0%nat \/ l = MachineMode /\ (h = 0%nat \/ ~ exists i, fu_candidate p h SupervisorMode true i)).
Definition none_waits (p : FU540_PLIC) (h : nat) : Prop := forall l, has_level h l -> last_irq_waits p h l = false.
Lemma chosen_exists p h l thr id : highest_of (fu_candidate p h l thr) (priority_used p) id -> (0 <? id)%nat = true <-> exists i, fu_candidate p h l thr i.
Proof.
  intros [[-> Hn]|[Hc _]]; split; try done.
  - intros [i Hi]. by destruct (Hn i).
  - intros _. by exists id.
  - intros _. destruct Hc as [[Hlo _] _]. by apply Nat.ltb_lt.
Qed.
Section tells.
Context (p : FU540_PLIC) (h : nat).
Lemma machine_told m : (0 <? m)%nat = true <-> (exists i, fu_candidate p h MachineMode true i) ->
  (h = 0%nat \/ ~ exists i, fu_candidate p h SupervisorMode true i) ->
  forall l, (if (0 <? m)%nat then Some MachineMode else None) = Some l <-> tells p h l.
Proof.
  intros Hm Hno l. unfold tells. destruct (0 <? m)%nat.
  - apply proj1 in Hm. specialize (Hm eq_refl). split; [intros [= <-]; split; [done|right; by split]|].
    intros [Hc [[-> Hh]|[-> _]]]; [|done]. by destruct Hno.
  - split; [done|]. intros [Hc [[-> Hh]|[-> _]]]; [by destruct Hno|]. by apply Hm in Hc.
Qed.
Lemma supervisor_told : (exists i, fu_candidate p h SupervisorMode true i) -> h <> 0%nat ->
  forall l, Some SupervisorMode = Some l <-> tells p h l.
Proof.
  intros Hc Hh l. unfold tells. split; [intros [= <-]; split; [done|by left]|].
  intros [_ [[-> _]|[-> [?|Hn]]]]; [done|done|]. by destruct Hn.
Qed.
Lemma has_pending_spec : none_waits p h -> exists o, has_pending_irq p h = Some o /\ forall l, o = Some l <-> tells p h l.
Proof.
  intros Hw. assert (has_level h MachineMode) as Hm by by left.
  destruct (next_irq_highest p h MachineMode true Hm (Hw _ Hm)) as (m & Hnm & Hhm & _). apply chosen_exists in Hhm. cbn [negb] in Hnm.
  assert (has_pending_irq p h = supervisor ← (if (h =? 0)%nat then Some 0%nat else next_pending_irq p h SupervisorMode false);
    if (0 <? supervisor)%nat then Some (Some SupervisorMode) else Some (if (0 <? m)%nat then Some MachineMode else None)) as ->.
  { unfold has_pending_irq. by rewrite Hnm. }
  destruct (Nat.eqb_spec h 0) as [Hz|Hh].
  { eexists. split; [reflexivity|]. apply machine_told; [done|by left]. }
  assert (has_level h SupervisorMode) as Hs by by right.
  destruct (next_irq_highest p h SupervisorMode true Hs (Hw _ Hs)) as (s & Hns & Hhs & _). apply chosen_exists in Hhs. cbn [negb] in Hns.
  rewrite Hns. cbn [mbind option_bind]. destruct (0 <? s)%nat eqn:Hs0.
  - eexists. split; [reflexivity|]. apply supervisor_told; [by apply Hhs|done].
  - eexists. split; [reflexivity|]. apply machine_told; [done|]. right. intros Hc. apply Hhs in Hc. congruence.
Qed.
End tells.
Definition same_fu_registers (p p' : FU540_PLIC) : Prop :=
  fu_priorities p' = fu_priorities p /\ fu_pending p' = fu_pending p /\ fu_enabled p' = fu_enabled p /\ fu_context p' = fu_context p.
Lemma same_tells p p' h l : same_fu_registers p p' -> tells p' h l <-> tells p h l.
Proof. intros (H1 & H2 & H3 & H4). unfold tells, fu_candidate, irq_bit, priority_used. by rewrite H1, H2, H3, H4. Qed.
Lemma fu_run_harts_run hs : forall p, NoDup hs -> Forall (none_waits p) hs ->
  exists p', fu_run_harts hs p = (Ok tt, p') /\ same_fu_registers p p' /\ fu_e_run p' = fu_e_run p /\
    forall h l, fu_external p' h l = true <-> fu_external p h l = true \/ (h ∈ hs /\ tells p h l).
Proof.
  induction hs as [|h hs IH]; intros p Hnd Hw.
  { exists p. split_and!; [done..|]. intros h l. rewrite elem_of_nil. tauto. }
  apply NoDup_cons in Hnd as [Hh Hnd]. apply Forall_cons in Hw as [Hwh Hw]. destruct (has_pending_spec p h Hwh) as (o & Ho & Hspec).
  set (p1 := match o with Some l => put_external h l true p | None => p end).
  assert (fu_run_harts (h :: hs) p = fu_run_harts hs p1) as ->.
  { cbn [fu_run_harts]. unfold sm_bind, dev_asserted. rewrite Ho. by destruct o. }
  assert (same_fu_registers p p1 /\ fu_e_run p1 = fu_e_run p) as [Hs1 He1] by (unfold p1; by destruct o).
  destruct (IH p1 Hnd) as (p' & Hr & (R1 & R2 & R3 & R4) & He & Hp).
  { unfold none_waits, last_irq_waits, irq_bit in *. destruct Hs1 as (S1 & S2 & S3 & S4). eapply Forall_impl; [exact Hw|].
    intros k Hk l Hl. rewrite S2, S3. by apply Hk. }
  exists p'. split; [exact Hr|]. split; [destruct Hs1 as (S1 & S2 & S3 & S4); repeat split; congruence|]. split; [congruence|].
  intros k l. rewrite Hp, (same_tells p p1) by done. rewrite elem_of_cons.
  assert (fu_external p1 k l = true <-> fu_external p k l = true \/ (k = h /\ tells p h l)) as ->.
  { rewrite <- Hspec. unfold p1. destruct o as [x|]; [|intuition congruence]. cbn [put_external fu_external]. unfold put_at.
    destruct (Nat.eqb_spec k h) as [->|Hk], (Z.eqb_spec l x) as [->|Hx]; cbn [andb]; intuition congruence. }
  split; [intros [[?|[-> ?]]|[? ?]]; auto|]. intros [?|[[->|?] ?]]; auto.
Qed.

(** * Events *)

Inductive fu_event := FuTrigger (irq : nat) | FuAccess (trans : payload) (delay : Z) | FuWake.
Definition fu_handle (harts : nat) (ev : fu_event) : SM FU540_PLIC exn unit :=
  match ev with
  | FuTrigger irq => fu_gateway_trigger_interrupt irq
  | FuAccess trans delay => sm_bind (fu_transport harts trans delay) (fun _ => sm_ret tt)
  | FuWake => fu_run harts
  end.
Fixpoint fu_events (harts : nat) (evs : list fu_event) : SM FU540_PLIC exn unit :=
  match evs with [] => sm_ret tt | ev :: evs => sm_bind (fu_handle harts ev) (fun _ => fu_events harts evs) end.
Definition fu_event_ok (ev : fu_event) : Prop := match ev with FuAccess trans _ => access_ok trans | _ => True end.

Lemma fu_asserted_keeps {A} (o : FU540_PLIC -> option A) : keeps fu_wf (dev_asserted o).
Proof. intros p Hp. unfold dev_asserted. by destruct (o p). Qed.
Lemma put_context_keeps h l (f : FU540_PLIC -> list Z) : (forall p, fu_wf p -> vector_ok 8 (f p)) ->
  keeps fu_wf (sm_modify (fun p => put_context h l (f p) p) : SM FU540_PLIC exn unit).
Proof.
  intros Hf. apply keeps_modify. intros p Hwf. pose proof Hwf as (Hp & Hq & He & Hc). split_and!; [done|done|done|].
  apply (put_at_ok (vector_ok 8)); [by apply Hf|done].
Qed.
Lemma context_word h l i v p : fu_wf p -> (i < 2)%nat -> vector_ok 8 (set_view 4 i v (fu_context p h l)).
Proof. intros (_ & _ & _ & Hc) Hi. apply vector_set_view; [apply Hc|lia]. Qed.
Lemma fu_clear_keeps k : keeps fu_wf (fu_clear_pending k).
Proof.
  unfold fu_clear_pending. destruct (is_irq k) eqn:Hk; [|apply keeps_throw]. apply andb_true_iff in Hk as [_ Hk%Nat.leb_le].
  keeps_step; [apply keeps_ret|]. apply keeps_modify. intros p Hp. by apply (put_word_wf k).
Qed.
Lemma read_hartctx_keeps h l a n delay : keeps fu_wf (read_hartctx h l a n delay).
Proof.
  unfold read_hartctx. keeps_step; [apply dev_assert_keeps|]. keeps_step; [apply dev_assert_keeps|].
  keeps_step; [|apply keeps_ret]. apply keeps_when. keeps_step; [apply fu_asserted_keeps|]. keeps_step; [apply fu_asserted_keeps|].
  keeps_step; [|apply keeps_when, fu_clear_keeps]. apply put_context_keeps. intros p Hp. apply context_word; [done|lia].
Qed.
Lemma write_hartctx_keeps h l a n delay : keeps fu_wf (write_hartctx h l a n delay).
Proof.
  unfold write_hartctx. keeps_step; [apply dev_assert_keeps|]. keeps_step; [apply dev_assert_keeps|].
  destruct (is_claim_access a); [by apply keeps_modify|]. keeps_step; [apply fu_asserted_keeps|].
  apply put_context_keeps. intros p Hp. apply context_word; [done|lia].
Qed.
Lemma write_irq_prios_keeps a n delay : keeps fu_wf (write_irq_prios a n delay).
Proof.
  unfold write_irq_prios. keeps_step; [apply dev_assert_keeps|].
  destruct (Nat.ltb_spec (Z.to_nat (a / 4)) FU540_PLIC_NUMIRQ) as [Hi|]; [|apply keeps_throw]. keeps_step; [apply keeps_ret|].
  apply keeps_modify. intros p (Hp & Hq & He & Hc). split; [|done]. apply vector_set_view; [done|lia].
Qed.
Lemma keeps_after (m : SM FU540_PLIC exn unit) p : keeps fu_wf m -> fu_wf p -> fu_wf (m p).2.
Proof. intros Hm Hp. specialize (Hm p Hp). by destruct (m p) as [[?|?] ?]. Qed.
Lemma fu_transport_keeps harts trans delay : (harts <= 500)%nat -> access_ok trans -> keeps fu_wf (fu_transport harts trans delay).
Proof.
  intros Hn [Hb Hlen]. unfold fu_transport. keeps_step; [|apply keeps_ret]. apply route_keeps, Forall_forall.
  assert (forall r : RegisterRange FU540_PLIC, sized fu_wf r -> (forall a n d, keeps fu_wf (pre_read_callback r a n d)) ->
    (forall a n d, keeps fu_wf (post_read_callback r a n d)) -> (forall a n d, keeps fu_wf (pre_write_callback r a n d)) ->
    write_keeps fu_wf r (data_ptr trans) (delay + 4 * 10) -> keeps fu_wf (process r trans (delay + 4 * 10))) as Hproc.
  { intros r Hs Hr1 Hr2 Hw1 Hw2. apply process_keeps; [intros; apply Hr1|intros; apply Hr2|]. intros _. by apply rr_write_keeps. }
  intros r Hin. unfold create_registers in Hin. rewrite !elem_of_app in Hin.
  destruct Hin as [[->|[->|?%elem_of_nil]%elem_of_cons]%elem_of_cons|[Hin|Hin]]; [| |done| |].
  - apply Hproc; try (intros; apply keeps_ret).
    + split; [cbn; lia|]. split; [done|]. split; [done|]. intros p ([_ Hp] & _). cbn [rr_mem range_irq_priorities rr_size]. by rewrite Hp.
    + intros off p (Hp & Hq & He & Hc) Ho. apply keeps_after; [apply write_irq_prios_keeps|]. split; [|done]. by apply vector_splice.
  - apply Hproc; try (intros; apply keeps_ret).
    + split; [cbn; lia|]. split; [done|]. split; [done|]. intros p (_ & [_ Hp] & _). cbn [rr_mem range_pending_irqs rr_size]. by rewrite Hp.
    + intros off p (Hp & Hq & He & Hc) Ho. split_and!; [done|by apply vector_splice|done|done].
  - apply (hart_regs_elem range_enabled ENABLE_BASE ENABLE_PER_HART harts _ 0%nat) in Hin as (h & l & Hh & Hl & ->).
    pose proof (slot_bound harts h l ltac:(lia)). apply Hproc; try (intros; apply keeps_ret).
    + unfold sized. cbn [rr_start rr_size rr_mem range_enabled]. unfold ENABLE_BASE, ENABLE_PER_HART, HART_REG_SIZE.
      split; [lia|]. split; [lia|]. split; [lia|]. intros p (_ & _ & He & _). by rewrite (proj2 (He h l)).
    + intros off p (Hp & Hq & He & Hc) Ho. split_and!; [done|done| |done]. apply (put_at_ok (vector_ok 8)); [apply vector_splice; [apply He|exact Hb|exact Ho]|done].
  - apply (hart_regs_elem range_context CONTEXT_BASE CONTEXT_PER_HART harts _ 0%nat) in Hin as (h & l & Hh & Hl & ->).
    pose proof (slot_bound harts h l ltac:(lia)). apply Hproc; try (intros; apply keeps_ret).
    + unfold sized. cbn [rr_start rr_size rr_mem range_context]. unfold CONTEXT_BASE, CONTEXT_PER_HART, HART_REG_SIZE.
      split; [lia|]. split; [lia|]. split; [lia|]. intros p (_ & _ & _ & Hc). by rewrite (proj2 (Hc h l)).
    + intros a n d. apply read_hartctx_keeps.
    + intros off p (Hp & Hq & He & Hc) Ho. apply keeps_after; [apply write_hartctx_keeps|]. split_and!; [done|done|done|].
      apply (put_at_ok (vector_ok 8)); [apply vector_splice; [apply Hc|exact Hb|exact Ho]|done].
Qed.
Lemma fu_run_keeps harts : keeps fu_wf (fu_run harts).
Proof.
  unfold fu_run. keeps_step; [by apply keeps_modify|]. induction (seq 0 harts) as [|h hs IH]; cbn [fu_run_harts]; [apply keeps_ret|].
  keeps_step; [apply fu_asserted_keeps|]. keeps_step; [|done]. case_match; [by apply keeps_modify|apply keeps_ret].
Qed.
Lemma fu_events_keeps harts evs : (harts <= 500)%nat -> Forall fu_event_ok evs -> keeps fu_wf (fu_events harts evs).
Proof.
  intros Hn. induction 1 as [|ev evs Hev _ IH]; [apply keeps_ret|]. cbn [fu_events]. keeps_step; [|done].
  destruct ev as [k|trans delay|]; cbn [fu_handle]; [| |apply fu_run_keeps].
  - destruct (decide (0 < k <= FU540_PLIC_NUMIRQ)%nat) as [Hk|Hk].
    + intros p Hp. rewrite fu_gateway_run by done. apply (put_word_wf k); [lia|done].
    + unfold fu_gateway_trigger_interrupt, is_irq. destruct (Nat.ltb_spec 0 k), (Nat.leb_spec k FU540_PLIC_NUMIRQ); try lia; apply keeps_throw.
  - keeps_step; [by apply fu_transport_keeps|apply keeps_ret].
Qed.
Lemma fu_new_wf : fu_wf FU540_PLIC_new.
Proof. split_and!; [apply zeros_vector|apply zeros_vector|intros h l; apply zeros_vector..]. Qed.

(** * The properties *)

(** C17 Interrupts of the FU540: after any sequence of interrupts, transactions and wake-ups, unless the last interrupt waits
    for the hart and level, a read of their claim register returns, of the interrupts that are pending and enabled for
    them, the one of the highest priority the controller takes, whatever the threshold, or 0, and clears the pending bit
    of that one only; an interrupt raised that is enabled with a priority of at least the threshold wakes the
    thread, which tells each hart of one level: of the supervisor's if that has such an interrupt, and only
    otherwise of the machine's. *)
Theorem fu540_interrupts harts evs : (harts <= 500)%nat -> Forall fu_event_ok evs ->
  let p := (fu_events harts evs FU540_PLIC_new).2 in
  (forall h l data delay, (h < harts)%nat -> has_level h l -> length data = 4%nat -> last_irq_waits p h l = false ->
    exists id p', fu_transport harts (mkPayload TLM_READ_COMMAND (context_address h l + 4) data None TLM_OK_RESPONSE) delay p =
        (Ok (mkPayload TLM_READ_COMMAND (context_address h l + 4) (le_bytes 4 (Z.of_nat id)) None TLM_OK_RESPONSE, delay + 40), p') /\
      highest_of (fu_candidate p h l false) (priority_used p) id /\
      (forall i, irq_bit (fu_pending p') i = irq_bit (fu_pending p) i && negb ((0 <? id)%nat && (i =? id)%nat)) /\
      fu_priorities p' = fu_priorities p /\ fu_enabled p' = fu_enabled p /\ fu_external p' = fu_external p) /\
  (forall k, (0 < k <= FU540_PLIC_NUMIRQ)%nat -> exists p1, fu_gateway_trigger_interrupt k p = (Ok tt, p1) /\ fu_e_run p1 = true /\
    (forall i, irq_bit (fu_pending p1) i = irq_bit (fu_pending p) i || (i =? k)%nat) /\
    (Forall (none_waits p1) (seq 0 harts) -> exists p', fu_run harts p1 = (Ok tt, p') /\
      forall h l, fu_external p' h l = true <-> fu_external p h l = true \/ ((h < harts)%nat /\ tells p1 h l))).
Proof.
  intros Hn Hev p. assert (fu_wf p) as Hwf.
  { pose proof (fu_events_keeps harts evs Hn Hev _ fu_new_wf) as Hk. unfold p. by destruct (fu_events _ _ _) as [[?|?] ?]. }
  split.
  - intros h l data delay Hh Hl Hd Hlast. destruct (read_claim_run harts p h l data delay Hn Hh Hl Hwf Hd Hlast) as (id & Hhi & Hid & Hrun).
    exists id, (fu_claimed h l id p). split; [exact Hrun|]. split; [done|]. unfold fu_claimed. pose proof (put_claimed_wf h l id p Hwf) as Hwf'.
    destruct (0 <? id)%nat; cbn [andb negb].
    + split; [|done]. intros i. by rewrite fu_cleared_bit by (done || lia).
    + split; [|done]. intros i. by rewrite andb_true_r.
  - intros k Hk. exists (put_e_run true (fu_triggered k p)). split; [by apply fu_gateway_run|]. split; [done|].
    split; [intros i; apply (fu_triggered_bit k p i); [lia|done]|]. intros Hw. unfold fu_run, sm_bind, sm_modify.
    set (p1 := put_e_run true (fu_triggered k p)) in *.
    destruct (fu_run_harts_run (seq 0 harts) (put_e_run false p1)) as (p' & Hr & _ & _ & Hx); [apply NoDup_seq|done|].
    exists p'. split; [exact Hr|]. intros h l. rewrite Hx, elem_of_seq. change (fu_external (put_e_run false p1) h l) with (fu_external p h l).
    change (tells (put_e_run false p1) h l) with (tells p1 h l). split; [intros [?|[? ?]]; [by left|right; split; [lia|done]]|intros [?|[? ?]]; [by left|right; split; [lia|done]]].
Qed.

(** ** A witness: interrupts 3 and 4 of the second hart, for its supervisor and its machine level *)

Definition fu_write (addr v : Z) : fu_event := FuAccess (mkPayload TLM_WRITE_COMMAND addr (le_bytes 4 v) None TLM_OK_RESPONSE) 0.
Definition fu_enable (h : nat) (l v : Z) : fu_event := fu_write (ENABLE_BASE + ENABLE_PER_HART * slot h l) v.
Definition fu_setup : list fu_event :=
  [fu_enable 1 SupervisorMode 0x8; fu_enable 1 MachineMode 0x10; fu_write 0x10 5; fu_write 0x14 6; FuTrigger 3; FuTrigger 4].
Lemma fu_setup_ok : Forall fu_event_ok fu_setup.
Proof. unfold fu_setup. rewrite !Forall_cons. split_and!; [..|done]; first [done|apply access_ok_dec; vm_compute; reflexivity]. Qed.
Definition fu_claim (h : nat) (l : Z) : fu_event :=
  FuAccess (mkPayload TLM_READ_COMMAND (context_address h l + 4) [0; 0; 0; 0] None TLM_OK_RESPONSE) 0.
Lemma fu540_interrupts_witness :
  let p := (fu_events 2 fu_setup FU540_PLIC_new).2 in
  (exists id p', fu_transport 2 (mkPayload TLM_READ_COMMAND (context_address 1 SupervisorMode + 4) [0; 0; 0; 0] None TLM_OK_RESPONSE) 0 p =
      (Ok (mkPayload TLM_READ_COMMAND (context_address 1 SupervisorMode + 4) (le_bytes 4 (Z.of_nat id)) None TLM_OK_RESPONSE, 40), p') /\
    highest_of (fu_candidate p 1 SupervisorMode false) (priority_used p) id) /\
  next_pending_irq p 1 SupervisorMode true = Some 3%nat.
Proof.
  intros p. split; [|vm_compute; reflexivity].
  destruct (proj1 (fu540_interrupts 2 fu_setup ltac:(lia) fu_setup_ok) 1%nat SupervisorMode [0; 0; 0; 0] 0) as (id & p' & Hrun & Hid & _);
    [lia|by right|done|vm_compute; reflexivity|]. exists id, p'. split; [exact Hrun|exact Hid].
Defined.

(** ** What the controller does otherwise *)

(** The priority the software gives interrupt 3, in its register at 0xC, is taken for interrupt 2: interrupt 3 is
    never signalled. *)
Example priorities_are_shifted :
  let evs := [fu_enable 0 MachineMode 0x8; fu_write (priority_register 3) 7; FuTrigger 3; FuWake] in
  let p := (fu_events 1 evs FU540_PLIC_new).2 in
  priority_used p 2 = 7 /\ priority_used p 3 = 0 /\ fu_external p 0 MachineMode = false.
Proof. vm_compute. auto. Qed.
(** Interrupt 53 fails the assertion of the array. *)
Example last_irq_fails :
  let enable := fu_write (ENABLE_BASE + 4) (2 ^ 21) in
  (fu_events 1 [enable; FuTrigger 53; FuWake] FU540_PLIC_new).1 = Err AssertionFailed.
Proof. vm_compute. reflexivity. Qed.
(** The machine level is not told of its interrupt while the supervisor's has one, nor when that is completed. *)
Example machine_level_forgotten :
  let complete := fu_write (context_address 1 SupervisorMode + 4) 3 in
  let p := (fu_events 2 (fu_setup ++ [FuWake; fu_claim 1 SupervisorMode; complete]) FU540_PLIC_new).2 in
  next_pending_irq p 1 MachineMode false = Some 4%nat /\ fu_external p 1 MachineMode = false /\
  fu_external p 1 SupervisorMode = false /\ fu_e_run p = false.
Proof. vm_compute. auto. Qed.
(** A write of two words leaves the second priority unclamped. *)
Example second_priority_unclamped :
  let p := (fu_events 1 [FuAccess (mkPayload TLM_WRITE_COMMAND 4 (le_bytes 4 9 ++ le_bytes 4 9) None TLM_OK_RESPONSE) 0] FU540_PLIC_new).2 in
  priority_used p 0 = 7 /\ priority_used p 1 = 9.
Proof. vm_compute. auto. Qed.
