(* ===== verification/GdbPacket.v ===== *)
(** The packets of the GDB protocol (core/common/gdb-mc/libgdb/util.c, response.c): checksum,
    serialisation, run lengths and escapes; and hexadecimal output. *)
From Stdlib Require Import Ascii.
From S2P Require Import Prelude.

(** * Characters

    A C string is the list of its characters, which are signed, without the null byte that ends it. *)

Definition char_of (c : ascii) : Z := swrap 8 (Z.of_N (N_of_ascii c)).
Definition chars (s : string) : list Z := char_of <$> String.list_ascii_of_string s.
Definition chr (s : string) : Z := default 0 (head (chars s)).

(** ** Hexadecimal digits *)

Definition hex_char (d : Z) : Z := if d <? 10 then chr "0" + d else chr "a" + (d - 10).
(** The last [k] digits, the most significant first. *)
Fixpoint hex_digits (k : nat) (v : Z) : list Z :=
  match k with O => [] | S k => hex_digits k (v / 16) ++ [hex_char (v mod 16)] end.
Definition hex_width (v : Z) : nat := if v =? 0 then 1%nat else Z.to_nat (Z.log2 v / 4 + 1).
(** [%.kx] of [printf], and [std::setw(k)] with zeros to fill: at least so many digits. *)
Definition print_hex (k : nat) (v : Z) : list Z := hex_digits (Nat.max k (hex_width v)) v.

(** * Checksums and packets *)

Definition GDB_CSUM_LEN : nat := 2.
Inductive gdb_kind_t := GDB_KIND_NOTIFY | GDB_KIND_PACKET | GDB_KIND_NACK | GDB_KIND_ACK.
#[export] Instance gdb_kind_eq_dec : EqDecision gdb_kind_t.
Proof. solve_decision. Defined.
Record gdb_packet_t := mkPacket { kind : gdb_kind_t; data : option (list Z); csum : list Z }.

(** An assertion or [errx] ends the program; a bad message is a null pointer. *)
Inductive gdb_error := Aborted | BadMessage.
Definition xassert (b : bool) : result gdb_error unit := if b then Ok tt else Err Aborted.
#[export] Instance result_ret {E} : MRet (result E) := fun A a => Ok a.
#[export] Instance result_bind {E} : MBind (result E) := fun A B f m => match m with Ok a => f a | Err e => Err e end.

(** The characters are signed, and so is the remainder. *)
Definition calc_csum (data : list Z) : Z := Z.rem (foldl Z.add 0 data) 256.
(** A notification is marked by the character of a checksum. *)
Definition kind_to_char (kind : gdb_kind_t) : Z :=
  chr (match kind with GDB_KIND_NOTIFY => "#" | GDB_KIND_PACKET => "$" | GDB_KIND_NACK => "-" | GDB_KIND_ACK => "+" end).
Definition gdb_serialize (kind : gdb_kind_t) (data : option (list Z)) : result gdb_error (list Z) :=
  match kind with
  | GDB_KIND_NACK | GDB_KIND_ACK => xassert (bool_decide (data = None)) ≫= fun _ => Ok [kind_to_char kind]
  | _ =>
      match data with
      | None => Err Aborted
      | Some data =>
          let serialized := kind_to_char kind :: data ++ chr "#" :: print_hex 2 (u32 (calc_csum data)) in
          xassert (length serialized <? length data + GDB_CSUM_LEN + 3)%nat ≫= fun _ => Ok serialized
      end
  end.
Definition gdb_is_valid (pkt : gdb_packet_t) : result gdb_error bool :=
  match data pkt with
  | None => Ok true
  | Some data =>
      let strcsum := print_hex 2 (u32 (calc_csum data)) in
      xassert (length strcsum =? GDB_CSUM_LEN)%nat ≫= fun _ => Ok (bool_decide (csum pkt = strcsum))
  end.

(** * Run lengths and escapes *)

Definition GDB_RUNLEN_CHAR : Z := chr "*".
Definition GDB_RUNLEN_OFF : Z := 29.
Definition GDB_ESCAPE_CHAR : Z := chr "}".
Definition GDB_ESCAPE_BYTE : Z := 0x20.

(** The loop, after a character [prev], with the character to repeat, or -1. *)
Fixpoint decode_runlen_from (prev : option Z) (runlen : Z) (data : list Z) : result gdb_error (list Z) :=
  match data with
  | [] => Ok []
  | c :: rest =>
      if c =? GDB_RUNLEN_CHAR then match prev with None => Err BadMessage | Some p => decode_runlen_from (Some c) p rest end
      else
        let value := if runlen =? -1 then c else runlen in
        let rcount := if runlen =? -1 then 1 else c - GDB_RUNLEN_OFF in
        if rcount <=? 0 then Err BadMessage
        else xassert ((0 <=? value) && (value <=? 127)) ≫= fun _ =>
             decode_runlen_from (Some c) (-1) rest ≫= fun out => Ok (replicate (Z.to_nat rcount) value ++ out)
  end.
Definition gdb_decode_runlen (data : list Z) : result gdb_error (list Z) := decode_runlen_from None (-1) data.

Fixpoint unescape_from (esc : bool) (data : list Z) : list Z :=
  match data with
  | [] => []
  | c :: rest =>
      if c =? GDB_ESCAPE_CHAR then unescape_from true rest
      else (if esc then Z.lxor c GDB_ESCAPE_BYTE else c) :: unescape_from false rest
  end.
Definition gdb_unescape (data : list Z) : list Z := unescape_from false data.

(** [gdb_parse_cmd], of the text before its grammar: what the grammar, which the library mpc
    parses, is given; [None] is a packet that is no command. *)
Definition command_text (pkt : gdb_packet_t) : result gdb_error (list Z) :=
  if bool_decide (kind pkt = GDB_KIND_PACKET) then
    gdb_is_valid pkt ≫= fun valid =>
    if valid : bool then
      match data pkt with
      | None => Err Aborted
      | Some data => gdb_decode_runlen data ≫= fun d => Ok (gdb_unescape d)
      end
    else Err BadMessage
  else Err BadMessage.

(** * Theorems *)

(** ** Two digits *)

Lemma hex_width_small v : 0 <= v < 256 -> (hex_width v <= 2)%nat.
Proof.
  intros Hv. unfold hex_width. destruct (Z.eqb_spec v 0) as [|Hne]; [lia|]. assert (Z.log2 v <= 7).
  { assert (Z.log2 v < 8); [|lia]. apply Z.log2_lt_pow2; lia. }
  assert (Z.log2 v / 4 <= 1) by (apply Z.lt_succ_r, Z.div_lt_upper_bound; lia). lia.
Qed.
Lemma print_hex_byte v : 0 <= v < 256 -> print_hex 2 v = [hex_char (v / 16); hex_char (v mod 16)].
Proof.
  intros Hv. unfold print_hex. rewrite Nat.max_l by (by apply hex_width_small). cbn. f_equal. f_equal.
  apply Z.mod_small. split; [apply Z.div_pos; lia|apply Z.div_lt_upper_bound; lia].
Qed.
Lemma length_hex_digits k : forall v, length (hex_digits k v) = k.
Proof. induction k; intros v; [done|]. cbn. rewrite length_app, IHk. cbn. lia. Qed.
Definition ascii_ok (c : Z) : Prop := 0 <= c <= 127.
Lemma sum_ascii d : Forall ascii_ok d -> forall n, 0 <= n -> 0 <= foldl Z.add n d.
Proof. induction 1 as [|c d Hc _ IH]; intros n Hn; [done|]. cbn. apply IH. unfold ascii_ok in Hc. lia. Qed.
Lemma csum_ascii d : Forall ascii_ok d -> 0 <= calc_csum d < 256 /\ u32 (calc_csum d) = calc_csum d.
Proof.
  intros Hd. assert (0 <= calc_csum d < 256) as Hc.
  { apply Z.rem_bound_pos; [apply (sum_ascii d Hd 0); lia|lia]. }
  split; [done|]. apply Z.mod_small. lia.
Qed.
Definition csum_chars (d : list Z) : list Z := [hex_char (calc_csum d / 16); hex_char (calc_csum d mod 16)].
Lemma serialize_ascii d : Forall ascii_ok d ->
  gdb_serialize GDB_KIND_PACKET (Some d) = Ok (chr "$" :: d ++ chr "#" :: csum_chars d) /\
  gdb_is_valid (mkPacket GDB_KIND_PACKET (Some d) (csum_chars d)) = Ok true.
Proof.
  intros Hd. destruct (csum_ascii d Hd) as [Hc Hu]. unfold gdb_serialize, gdb_is_valid. cbn [data csum]. rewrite Hu, (print_hex_byte _ Hc).
  rewrite (proj2 (Nat.ltb_lt _ _)) by (unfold GDB_CSUM_LEN; cbn [length]; rewrite length_app; cbn; lia). cbn. by rewrite bool_decide_true.
Qed.
(** A negative checksum has eight digits. *)
Lemma negative_aborts d cs k : calc_csum d < 0 -> gdb_is_valid (mkPacket k (Some d) cs) = Err Aborted.
Proof.
  intros Hn. assert (-256 < calc_csum d) as Hlow.
  { unfold calc_csum in *. pose proof (Z.rem_bound_abs (foldl Z.add 0 d) 256 ltac:(done)) as Hb. rewrite Z.abs_neq in Hb by lia. lia. }
  unfold gdb_is_valid. cbn [data]. assert (u32 (calc_csum d) = calc_csum d + 2 ^ 32) as ->.
  { unfold wrap. rewrite <- (Z_mod_plus_full _ 1). apply Z.mod_small. lia. }
  assert (hex_width (calc_csum d + 2 ^ 32) = 8%nat) as Hw.
  { unfold hex_width. rewrite (proj2 (Z.eqb_neq _ _)) by lia. rewrite (Z.log2_unique _ 31); [done|lia|lia]. }
  unfold print_hex. rewrite Hw, length_hex_digits. done.
Qed.

(** ** What a client sends *)

Definition special (c : Z) : bool := (c =? chr "#") || (c =? chr "$") || (c =? chr "*") || (c =? chr "}").
(** A character, and how often it is repeated, as GDB's manual has it: escaped, alone, or with a count. *)
Definition encode_run (r : Z * Z) : list Z :=
  if special r.1 then [chr "}"; Z.lxor r.1 0x20] else if r.2 =? 0 then [r.1] else [r.1; chr "*"; r.2 + 29].
Definition gdb_encode (rs : list (Z * Z)) : list Z := rs ≫= encode_run.
Definition expand (rs : list (Z * Z)) : list Z := rs ≫= fun r => replicate (Z.to_nat (r.2 + 1)) r.1.
(** Runs of three to ninety-seven more; counts that are the characters of a frame, or of a run, are not used. *)
Definition run_ok (r : Z * Z) : Prop :=
  0 < r.1 <= 127 /\
  (r.2 = 0 \/ special r.1 = false /\ 3 <= r.2 <= 97 /\ r.2 + 29 <> chr "#" /\ r.2 + 29 <> chr "$" /\ r.2 + 29 <> chr "*").
Definition in_frame (c : Z) : bool := (c =? chr "#") || (c =? chr "$").

Ltac codes := change (chr "#") with 35 in *; change (chr "$") with 36 in *; change (chr "*") with 42 in *; change (chr "}") with 125 in *;
  change GDB_RUNLEN_CHAR with 42 in *; change GDB_ESCAPE_CHAR with 125 in *; change GDB_RUNLEN_OFF with 29 in *.
Lemma special_cases c : special c = true -> c = 35 \/ c = 36 \/ c = 42 \/ c = 125.
Proof. unfold special. rewrite !orb_true_iff, !Z.eqb_eq. codes. lia. Qed.
Lemma plain_cases c : special c = false -> c <> 35 /\ c <> 36 /\ c <> 42 /\ c <> 125.
Proof. unfold special. rewrite !orb_false_iff, !Z.eqb_neq. codes. tauto. Qed.
(** The text before escapes are undone. *)
Definition escaped (rs : list (Z * Z)) : list Z :=
  rs ≫= fun r => if special r.1 then [chr "}"; Z.lxor r.1 0x20] else replicate (Z.to_nat (r.2 + 1)) r.1.

(** One character out of a run. *)
Lemma decode_plain prev c rest : 0 <= c <= 127 -> c <> 42 ->
  decode_runlen_from prev (-1) (c :: rest) = decode_runlen_from (Some c) (-1) rest ≫= fun out => Ok (c :: out).
Proof.
  intros Hc Hne. cbn [decode_runlen_from]. rewrite (proj2 (Z.eqb_neq c GDB_RUNLEN_CHAR)) by done.
  rewrite Z.eqb_refl. cbn. by rewrite (proj2 (Z.leb_le 0 c)), (proj2 (Z.leb_le c 127)) by lia.
Qed.
Lemma decode_encoded rs : Forall run_ok rs -> forall prev, decode_runlen_from prev (-1) (gdb_encode rs) = Ok (escaped rs).
Proof.
  induction 1 as [|[c n] rs [Hc Hn] _ IH]; intros prev; [done|]. unfold gdb_encode, escaped in *. cbn in Hc, Hn. rewrite !bind_cons.
  unfold encode_run at 1. cbn [fst snd]. codes. destruct (special c) eqn:Hs.
  - cbn [app]. assert (0 <= Z.lxor c 32 <= 127 /\ Z.lxor c 32 <> 42) as [Hx Hne] by (destruct (special_cases c Hs) as [->|[->|[->| ->]]]; by vm_compute).
    rewrite decode_plain by lia. rewrite decode_plain by done. by rewrite IH.
  - pose proof (plain_cases c Hs) as Hp. destruct Hn as [->|(_ & Hn & H1 & H2 & H3)].
    + cbn [Z.eqb app]. rewrite decode_plain by lia. by rewrite IH.
    + rewrite (proj2 (Z.eqb_neq n 0)) by lia. cbn [app]. rewrite decode_plain by lia.
      cbn [decode_runlen_from]. codes. change (42 =? 42) with true. cbv iota.
      rewrite (proj2 (Z.eqb_neq (n + 29) _)) by done. rewrite (proj2 (Z.eqb_neq c (-1))) by lia.
      rewrite (proj2 (Z.leb_gt (n + 29 - 29) 0)) by lia.
      rewrite (proj2 (Z.leb_le 0 c)), (proj2 (Z.leb_le c 127)) by lia. cbn [andb xassert mbind result_bind]. rewrite IH.
      cbn [mbind result_bind]. replace (n + 29 - 29) with n by lia.
      rewrite Z2Nat.inj_add by lia. rewrite Nat.add_1_r. done.
Qed.
Lemma unescape_replicate c n rest : c <> 125 -> unescape_from false (replicate n c ++ rest) = replicate n c ++ unescape_from false rest.
Proof. intros Hc. induction n as [|n IH]; [done|]. cbn [replicate app unescape_from].
  rewrite (proj2 (Z.eqb_neq c GDB_ESCAPE_CHAR)) by done. by rewrite IH. Qed.
Lemma unescape_escaped rs : Forall run_ok rs -> gdb_unescape (escaped rs) = expand rs.
Proof.
  unfold gdb_unescape, escaped, expand. induction 1 as [|[c n] rs [Hc Hn] _ IH]; [done|]. rewrite !bind_cons. cbn [fst snd] in *.
  destruct (special c) eqn:Hs.
  - destruct Hn as [->|[? _]]; [|congruence]. assert (Z.lxor c 32 <> 125) as Hx by (destruct (special_cases c Hs) as [->|[->|[->| ->]]]; by vm_compute).
    cbn [app unescape_from]. change (chr "}" =? GDB_ESCAPE_CHAR) with true. cbv iota. unfold GDB_ESCAPE_BYTE.
    rewrite (proj2 (Z.eqb_neq (Z.lxor c 32) GDB_ESCAPE_CHAR)) by done. by rewrite Z.lxor_assoc, Z.lxor_nilpotent, Z.lxor_0_r, IH.
  - pose proof (plain_cases c Hs) as Hp. rewrite unescape_replicate by lia. by rewrite IH.
Qed.
Lemma encoded_text rs : Forall run_ok rs -> Forall (fun c => 0 < c <= 127 /\ in_frame c = false) (gdb_encode rs).
Proof.
  induction 1 as [|[c n] rs [Hc Hn] _ IH]; [by apply Forall_nil|]. unfold gdb_encode in *. rewrite bind_cons. apply Forall_app. split; [|done].
  unfold encode_run, in_frame. cbn [fst snd] in *. codes. destruct (special c) eqn:Hs.
  - destruct (special_cases c Hs) as [->|[->|[->| ->]]]; repeat (apply Forall_cons; split; [by cbn|]); by apply Forall_nil.
  - pose proof (plain_cases c Hs) as Hp. assert (0 < c <= 127 /\ (c =? 35) || (c =? 36) = false) as Hc'.
    { split; [done|]. apply orb_false_iff. rewrite !Z.eqb_neq. lia. }
    destruct Hn as [->|(_ & Hn & H1 & H2 & H3)]; [apply Forall_cons; split; [done|by apply Forall_nil]|]. rewrite (proj2 (Z.eqb_neq n 0)) by lia.
    apply Forall_cons. split; [done|]. apply Forall_cons. split; [by cbn|]. apply Forall_cons. split; [|by apply Forall_nil].
    split; [lia|]. apply orb_false_iff. by rewrite !Z.eqb_neq.
Qed.

(** C19 Packets round trip.  What the stub sends of ASCII characters is framed with two digits of the sum that its own check accepts; what a
    client encodes as GDB's manual says, with escapes and runs, arrives as what was encoded, if no run has the count that is the character of
    a run; a packet whose signed characters add up to a negative checksum ends the program. *)
Theorem packet_roundtrip rs : Forall run_ok rs ->
  let text := gdb_encode rs in
  Forall (fun c => in_frame c = false) text /\
  gdb_serialize GDB_KIND_PACKET (Some text) = Ok (chr "$" :: text ++ chr "#" :: csum_chars text) /\
  command_text (mkPacket GDB_KIND_PACKET (Some text) (csum_chars text)) = Ok (expand rs) /\
  (forall d cs, calc_csum d < 0 -> command_text (mkPacket GDB_KIND_PACKET (Some d) cs) = Err Aborted).
Proof.
  intros Hrs text. pose proof (encoded_text rs Hrs) as Htext. assert (Forall ascii_ok text) as Ha.
  { eapply Forall_impl; [exact Htext|]. intros c [Hc _]. unfold ascii_ok. lia. }
  destruct (serialize_ascii text Ha) as [Hs Hv]. split_and!; [|done| |].
  - eapply Forall_impl; [exact Htext|]. by intros c [_ Hc].
  - unfold command_text. cbn [kind data]. rewrite bool_decide_true by done. rewrite Hv. cbn [mbind result_bind].
    unfold gdb_decode_runlen, text. rewrite (decode_encoded rs Hrs). cbn. by rewrite unescape_escaped.
  - intros d cs Hn. unfold command_text. cbn [kind]. rewrite bool_decide_true by done. by rewrite (negative_aborts d cs _ Hn).
Qed.
(** Zeros, a bracket that is escaped, and a letter; a character above the ASCII ones. *)
Definition sample_runs : list (Z * Z) := [(chr "m", 0); (chr "0", 3); (chr "}", 0); (chr "x", 97)].
Lemma packet_roundtrip_witness :
  command_text (mkPacket GDB_KIND_PACKET (Some (gdb_encode sample_runs)) (csum_chars (gdb_encode sample_runs))) = Ok (expand sample_runs) /\
  gdb_encode sample_runs = chars "m0* }]x*~" /\
  command_text (mkPacket GDB_KIND_PACKET (Some [-61; -92]) (chars "67")) = Err Aborted.
Proof.
  assert (Forall run_ok sample_runs) as Hok by (repeat (apply Forall_cons; split; [vm_compute; intuition congruence|]); by apply Forall_nil).
  destruct (packet_roundtrip sample_runs Hok) as (_ & _ & H & Hneg). split; [exact H|]. split; [vm_compute; reflexivity|].
  apply Hneg. by vm_compute.
Defined.
(** A run of thirteen more: the count is taken for the character of a run. *)
Example run_of_fourteen : gdb_decode_runlen (chars "0**") = Ok (chars "0").
Proof. reflexivity. Qed.
(** A notification sent is marked as a checksum is. *)
Example notification_mark : gdb_serialize GDB_KIND_NOTIFY (Some (chars "Stop")) = Ok (chars "#Stop#a6").
Proof. reflexivity. Qed.
