(* ===== verification/GdbServer.v ===== *)
(** The debugger's stub (core/common/gdb-mc/gdb_server.cpp, handler.cpp, register_format.cpp and
    core/common/debug_memory.cpp): the state of the server, a handler per command, and what is done
    with a packet.  The harts, the bus and the socket are an interface ([DebugTarget]), as is the
    simulation kernel between a run event and a stop event. *)
From stdpp Require Import pretty.
From Stdlib Require Import Ascii.
From S2P Require Import Prelude Concolic Mmu Iss Bus GdbPacket.

#[local] Open Scope sm_scope.

(** * What the server calls *)

Inductive Architecture := RV32 | RV64 | RV128.
(** [debug_target_if] of the hart with a number, the debug transport of the bus, the memory management
    unit of a hart if there are some, the run and the stop events, and the socket: how many bytes were
    written, or [None] for an error. *)
Class DebugTarget (E : Type) := {
  get_status : nat -> SM E exn CoreExecStatus;
  target_set_status : nat -> CoreExecStatus -> SM E exn unit;
  target_insert_breakpoint : nat -> Z -> SM E exn unit;
  target_remove_breakpoint : nat -> Z -> SM E exn unit;
  get_hart_id : nat -> SM E exn Z;
  get_progam_counter : nat -> SM E exn Z;
  target_get_registers : nat -> SM E exn (list Z);
  target_read_register : nat -> Z -> SM E exn Z;
  isock_transport_dbg : payload -> SM E exn (payload * Z);
  mmu_v2p : option (nat -> Z -> MemoryAccessType -> SM E exn Z);
  notify_and_wait : list nat -> bool -> SM E exn unit;
  wait_stop : nat -> SM E exn unit;
  sock_write : list Z -> SM E exn (option nat);
}.

(** * Commands *)

Definition GDB_THREAD_ANY : Z := 0.
Definition GDB_THREAD_ALL : Z := -1.
Inductive gdb_ztype_t := GDB_ZKIND_SOFT | GDB_ZKIND_HARD | GDB_ZKIND_WATCHW | GDB_ZKIND_WATCHR | GDB_ZKIND_WATCHA.
#[export] Instance gdb_ztype_eq_dec : EqDecision gdb_ztype_t.
Proof. solve_decision. Defined.
Record gdb_vcont_t := mkVcont { action : Z; vcont_tid : Z }.
(** The union of a command, with the type of what it holds. *)
Inductive gdb_argument_t :=
| GDB_ARG_NONE
| GDB_ARG_VCONT (vval : list gdb_vcont_t)
| GDB_ARG_H (hop : Z) (tid : Z)
| GDB_ARG_INT (ival : Z)
| GDB_ARG_MEMORY (addr length : Z)
| GDB_ARG_MEMORYW (addr length : Z) (data : list Z)
| GDB_ARG_BREAK (type : gdb_ztype_t) (addr kind : Z)
| GDB_ARG_THREAD (tid : Z).
Record gdb_command_t := mkCommand { name : string; arg : gdb_argument_t }.

(** Exceptions besides [std::out_of_range]; a member of the union that was not written is read. *)
Definition invalid_argument : Z := 1.
Definition exit_success : Z := 2.
Definition uninitialised : Z := 3.

Record GDBServer (E : Type) := mkServer {
  arch : Architecture; harts : list nat; thread_ops : gmap Z Z; prevpkt : option (list Z); single_run : bool; target : E }.
Arguments mkServer {E}.
Arguments arch {E}.
Arguments harts {E}.
Arguments thread_ops {E}.
Arguments prevpkt {E}.
Arguments single_run {E}.
Arguments target {E}.

Section server.
Context {E : Type} `{DebugTarget E} (gdb_parse_stage2 : list Z -> option gdb_command_t).
Abbreviation GdbM := (SM (GDBServer E) exn).

Definition put_thread_ops v (s : GDBServer E) := mkServer (arch s) (harts s) v (prevpkt s) (single_run s) (target s).
Definition put_prevpkt v (s : GDBServer E) := mkServer (arch s) (harts s) (thread_ops s) v (single_run s) (target s).
Definition put_single_run v (s : GDBServer E) := mkServer (arch s) (harts s) (thread_ops s) (prevpkt s) v (target s).
Definition on_target {A} (m : SM E exn A) : GdbM A :=
  fun s => let '(r, e) := m (target s) in (r, mkServer (arch s) (harts s) (thread_ops s) (prevpkt s) (single_run s) e).
Definition gdb_assert (b : bool) : GdbM unit := if b then sm_ret tt else sm_throw AssertionFailed.
Fixpoint for_each {A B} (f : A -> GdbM B) (l : list A) : GdbM (list B) :=
  match l with [] => sm_ret [] | a :: l => b <-- f a ;; bs <-- for_each f l ;; sm_ret (b :: bs) end.

(** [GDBServer::GDBServer], with as many units as harts or none. *)
Definition GDBServer_new (targets : list nat) (mmus : nat) (a : Architecture) (e : E) : result exn (GDBServer E) :=
  if (length targets =? 0)%nat then Err (OtherException invalid_argument)
  else if (0 <? mmus)%nat && negb (mmus =? length targets)%nat then Err (OtherException invalid_argument)
  else Ok (mkServer a targets ∅ None false e).

(** * Memory and registers *)

Definition do_dbg_transaction (cmd : tlm_command) (addr : Z) (data : list Z) : GdbM (list Z * Z) :=
  r <-- on_target (isock_transport_dbg (mkPayload cmd addr data None TLM_OK_RESPONSE)) ;;
  if is_response_error r.1 then sm_throw RuntimeError else sm_ret (data_ptr r.1, r.2).
Definition read_memory (start nbytes : Z) : GdbM (list Z) :=
  r <-- do_dbg_transaction TLM_READ_COMMAND start (replicate (Z.to_nat nbytes) 0) ;;
  gdb_assert (r.2 =? nbytes) ;;; sm_ret (r.1 ≫= print_hex 2).

Definition hex_value_of (c : Z) : option Z :=
  if (chr "0" <=? c) && (c <=? chr "9") then Some (c - chr "0")
  else if (chr "a" <=? c) && (c <=? chr "f") then Some (c - chr "a" + 10)
  else if (chr "A" <=? c) && (c <=? chr "F") then Some (c - chr "A" + 10) else None.
(** [strtol] of two characters, which are digits by the grammar of the command. *)
Definition strtol_hex (a b : Z) : Z :=
  match hex_value_of a, hex_value_of b with Some x, Some y => 16 * x + y | Some x, None => x | _, _ => 0 end.
(** The loop: [i] and [j] count digits and bytes, up to [nbytes] the one and the other. *)
Fixpoint decode_hex (n : nat) (i : nat) (nbytes : Z) (data : list Z) (buf : list Z) : list Z :=
  match n with
  | O => buf
  | S n =>
      if Z.of_nat (2 * i) + 1 <? nbytes
      then decode_hex n (S i) nbytes data (<[i := strtol_hex (default 0 (data !! (2 * i)%nat)) (default 0 (data !! (2 * i + 1)%nat))]> buf)
      else buf
  end.
Definition write_memory (start nbytes : Z) (data : list Z) : GdbM unit :=
  let buf := replicate (length data / 2) 0 in
  gdb_assert (length data mod 2 =? 0)%nat ;;; gdb_assert (Z.of_nat (length buf) =? nbytes) ;;;
  r <-- do_dbg_transaction TLM_WRITE_COMMAND start (decode_hex (length data) 0 nbytes data buf) ;;
  gdb_assert (r.2 =? nbytes).

Definition bswap (n : nat) (v : Z) : Z := le_value (rev (le_bytes n v)).
Definition formatRegister (a : Architecture) (value : Z) : result exn (list Z) :=
  match a with
  | RV32 => Ok (print_hex 8 (bswap 4 value))
  | RV64 => Ok (print_hex 16 (bswap 8 value))
  | RV128 => Err (OtherException invalid_argument)
  end.
Definition format_register (value : Z) : GdbM (list Z) :=
  a <-- sm_gets arch ;; match formatRegister a value with Ok s => sm_ret s | Err e => sm_throw e end.

(** * Threads *)

Definition get_threads (id : Z) : GdbM (list nat) :=
  let id := if id =? GDB_THREAD_ANY then 1 else id in
  hs <-- sm_gets harts ;;
  if id =? GDB_THREAD_ALL then sm_ret hs
  else if id <? 1 then sm_throw (OtherException out_of_range)
  else match hs !! Z.to_nat (id - 1) with Some h => sm_ret [h] | None => sm_throw (OtherException out_of_range) end.
Definition translate_addr (hart : nat) (addr : Z) (type : MemoryAccessType) : GdbM Z :=
  match mmu_v2p with None => sm_ret addr | Some v2p => on_target (v2p hart addr type) end.
(** The function is run for the threads of the operation, one after the other. *)
Definition exec_thread {B} (fn : nat -> GdbM B) : GdbM (list B) :=
  thread <-- sm_gets (fun s => default GDB_THREAD_ANY (thread_ops s !! chr "g")) ;;
  threads <-- get_threads thread ;; for_each fn threads.

Definition stop_hart (hart : nat) : GdbM CoreExecStatus :=
  status <-- on_target (get_status hart) ;;
  sm_when (bool_decide (status = Runnable)) (on_target (target_set_status hart HitBreakpoint) ;;; on_target (wait_stop hart)) ;;;
  sm_ret status.
Definition run_threads (hartsrun : list nat) (single : bool) : GdbM (list nat) :=
  match hartsrun with
  | [] => sm_ret []
  | _ =>
      sm_modify (put_single_run single) ;;;
      on_target (notify_and_wait hartsrun single) ;;;
      orig_status <-- for_each stop_hart hartsrun ;;
      for_each (fun p => on_target (target_set_status p.1 p.2)) (zip hartsrun orig_status) ;;;
      sm_ret hartsrun
  end.

(** * Packets sent *)

(** [writeall], of a socket that takes so many bytes at a time: [false] is the exception. *)
Fixpoint writeall (fuel : nat) (data : list Z) : GdbM bool :=
  match fuel with
  | O => sm_ret false
  | S fuel =>
      ret <-- on_target (sock_write data) ;;
      match ret with
      | None => sm_ret false
      | Some n => if (n <? length data)%nat then writeall fuel (drop n data) else sm_ret true
      end
  end.
Definition send_packet (data : option (list Z)) (k : gdb_kind_t) : GdbM unit :=
  match gdb_serialize k data with
  | Err _ => sm_throw AssertionFailed
  | Ok serialized =>
      written <-- writeall (S (length serialized)) serialized ;;
      sm_when (written && bool_decide (k = GDB_KIND_PACKET)) (sm_modify (put_prevpkt (Some serialized)))
  end.
Definition reply (data : list Z) : GdbM unit := send_packet (Some data) GDB_KIND_PACKET.
Definition retransmit : GdbM unit :=
  prev <-- sm_gets prevpkt ;;
  match prev with None => sm_ret tt | Some p => writeall (S (length p)) p ;;; sm_ret tt end.

(** * Handlers *)

Definition catching (p : exn -> bool) (m : GdbM (list Z)) : GdbM unit :=
  r <-- sm_catch (a <-- m ;; sm_ret (Some a)) (fun e => if p e then sm_ret None else sm_throw e) ;;
  reply (match r with Some text => text | None => chars "E01" end).
Definition is_runtime_error (e : exn) : bool := bool_decide (e = RuntimeError).
Definition is_out_of_range (e : exn) : bool := bool_decide (e = OtherException out_of_range).
Definition uninit : GdbM unit := sm_throw (OtherException uninitialised).
Definition UINT_MAX : Z := 2 ^ 32 - 1.
Definition GDB_PC_REG : Z := 32.
Definition GDB_PKTSIZ : Z := 4096.

Definition haltReason (cmd : gdb_command_t) : GdbM unit := reply (chars "S05").
Definition getRegisters (cmd : gdb_command_t) : GdbM unit :=
  texts <-- exec_thread (fun hart => vs <-- on_target (target_get_registers hart) ;; rs <-- for_each format_register vs ;; sm_ret (concat rs)) ;;
  reply (concat texts).
Definition setThread (cmd : gdb_command_t) : GdbM unit :=
  match arg cmd with
  | GDB_ARG_H o tid => sm_modify (fun s => put_thread_ops (<[o := tid]> (thread_ops s)) s) ;;; reply (chars "OK")
  | _ => uninit
  end.
Definition killServer (cmd : gdb_command_t) : GdbM unit := sm_throw (OtherException exit_success).
Definition readMemory (cmd : gdb_command_t) : GdbM unit :=
  match arg cmd with
  | GDB_ARG_MEMORY a len =>
      gdb_assert (len <=? UINT_MAX) ;;;
      catching is_runtime_error
        (ts <-- exec_thread (fun hart => addr <-- translate_addr hart a LOAD ;; read_memory addr len) ;; sm_ret (concat ts))
  | _ => uninit
  end.
Definition writeMemory (cmd : gdb_command_t) : GdbM unit :=
  match arg cmd with
  | GDB_ARG_MEMORYW a len data =>
      gdb_assert (len <=? UINT_MAX) ;;;
      catching is_runtime_error
        (exec_thread (fun hart => addr <-- translate_addr hart a STORE ;; write_memory addr len data) ;;; sm_ret (chars "OK"))
  | _ => uninit
  end.
Definition readRegister (cmd : gdb_command_t) : GdbM unit :=
  match arg cmd with
  | GDB_ARG_INT r =>
      catching is_out_of_range
        (ts <-- exec_thread (fun hart =>
            v <-- on_target (if r =? GDB_PC_REG then get_progam_counter hart else target_read_register hart (u32 r)) ;;
            format_register v) ;; sm_ret (concat ts))
  | _ => uninit
  end.
(** The loop over the harts, the [i]-th of [n] first; a comma stands after one that is not the last. *)
Fixpoint thread_list (i n : nat) (hs : list nat) : GdbM (list Z) :=
  match hs with
  | [] => sm_ret []
  | hart :: hs =>
      status <-- on_target (get_status hart) ;;
      here <-- (if bool_decide (status = Terminated) then sm_ret []
                else id <-- on_target (get_hart_id hart) ;;
                     sm_ret (chars (pretty (id + 1)) ++ if (i + 1 <? n)%nat then chars "," else [])) ;;
      rest <-- thread_list (S i) n hs ;; sm_ret (here ++ rest)
  end.
Definition threadInfo (cmd : gdb_command_t) : GdbM unit :=
  hs <-- sm_gets harts ;; l <-- thread_list 0 (length hs) hs ;; reply (chars "m" ++ l).
Definition threadInfoEnd (cmd : gdb_command_t) : GdbM unit := reply (chars "l").
Definition qAttached (cmd : gdb_command_t) : GdbM unit := reply (chars "0").
Definition qSupported (cmd : gdb_command_t) : GdbM unit :=
  reply (chars "vContSupported+;PacketSize=" ++ chars (pretty GDB_PKTSIZ)).
Definition isAlive (cmd : gdb_command_t) : GdbM unit :=
  match arg cmd with
  | GDB_ARG_THREAD tid => catching is_out_of_range (get_threads tid ;;; sm_ret (chars "OK"))
  | _ => uninit
  end.

(** What stopped, and whose thread. *)
Definition stopped_ty : Type := option (string * Z).
Fixpoint look_at (hs : list nat) (stopped : stopped_ty) : GdbM stopped_ty :=
  match hs with
  | [] => sm_ret stopped
  | hart :: hs =>
      status <-- on_target (get_status hart) ;;
      match status with
      | HitBreakpoint =>
          id <-- on_target (get_hart_id hart) ;; on_target (target_set_status hart Runnable) ;;; look_at hs (Some ("05", id + 1))
      | Terminated => id <-- on_target (get_hart_id hart) ;; look_at hs (Some ("03", id + 1))
      | Runnable => look_at hs stopped
      end
  end.
Definition run_selected (tid : Z) (single : bool) (matched : list nat) : GdbM (list nat) :=
  run <-- get_threads tid ;; run_threads (filter (fun h => h ∉ matched) run) single.
(** The actions; [None] when a thread does not exist. *)
Fixpoint vcont_actions (l : list gdb_vcont_t) (matched : list nat) (stopped : stopped_ty) : GdbM (option stopped_ty) :=
  match l with
  | [] => sm_ret (Some stopped)
  | v :: l =>
      sm_when (negb (action v =? chr "s") && negb (action v =? chr "c")) (sm_throw (OtherException invalid_argument)) ;;;
      selected <-- sm_catch (hs <-- run_selected (vcont_tid v) (action v =? chr "s") matched ;; sm_ret (Some hs))
                     (fun e => if is_out_of_range e then sm_ret None else sm_throw e) ;;
      match selected with
      | None => sm_ret None
      | Some hs =>
          stopped <-- look_at hs stopped ;;
          if 0 <? vcont_tid v then
            threads <-- get_threads (vcont_tid v) ;;
            match threads with [h] => vcont_actions l (h :: matched) stopped | _ => sm_throw AssertionFailed end
          else vcont_actions l matched stopped
      end
  end.
Definition vCont (cmd : gdb_command_t) : GdbM unit :=
  match arg cmd with
  | GDB_ARG_VCONT vval =>
      r <-- vcont_actions vval [] None ;;
      match r with
      | None => reply (chars "E01")
      | Some None => sm_throw AssertionFailed
      | Some (Some (stop_reason, stopped_thread)) =>
          gdb_assert (1 <=? stopped_thread) ;;;
          sm_modify (fun s => put_thread_ops (<[chr "g" := stopped_thread]> (thread_ops s)) s) ;;;
          reply (chars "T" ++ chars stop_reason ++ chars "thread:" ++ chars (pretty stopped_thread) ++ chars ";")
      end
  | _ => uninit
  end.
Definition vContSupported (cmd : gdb_command_t) : GdbM unit := reply (chars "vCont;c;C").
Definition for_harts (f : nat -> SM E exn unit) : GdbM unit := hs <-- sm_gets harts ;; for_each (fun h => on_target (f h)) hs ;;; sm_ret tt.
Definition breakpoint_command (f : nat -> Z -> SM E exn unit) (cmd : gdb_command_t) : GdbM unit :=
  match arg cmd with
  | GDB_ARG_BREAK type a _ =>
      if bool_decide (type = GDB_ZKIND_SOFT) then for_harts (fun h => f h a) ;;; reply (chars "OK") else reply []
  | _ => uninit
  end.
Definition removeBreakpoint : gdb_command_t -> GdbM unit := breakpoint_command target_remove_breakpoint.
Definition setBreakpoint : gdb_command_t -> GdbM unit := breakpoint_command target_insert_breakpoint.

Definition handlers : list (string * (gdb_command_t -> GdbM unit)) := [
  ("?", haltReason); ("g", getRegisters); ("H", setThread); ("k", killServer); ("m", readMemory); ("M", writeMemory);
  ("p", readRegister); ("qAttached", qAttached); ("qSupported", qSupported); ("qfThreadInfo", threadInfo);
  ("qsThreadInfo", threadInfoEnd); ("T", isAlive); ("vCont", vCont); ("vCont?", vContSupported);
  ("z", removeBreakpoint); ("Z", setBreakpoint)].
Fixpoint handler_at (n : string) (l : list (string * (gdb_command_t -> GdbM unit))) : option (gdb_command_t -> GdbM unit) :=
  match l with [] => None | (m, h) :: l => if String.eqb n m then Some h else handler_at n l end.

(** The body of the loop of [GDBServer::run], for a packet received. *)
Definition handle_command (cmd : gdb_command_t) : GdbM unit :=
  send_packet None GDB_KIND_ACK ;;;
  match handler_at (name cmd) handlers with Some handler => handler cmd | None => reply [] end.
Definition handle_packet (pkt : gdb_packet_t) : GdbM unit :=
  match kind pkt with
  | GDB_KIND_NACK => retransmit
  | GDB_KIND_ACK => sm_ret tt
  | _ =>
      match command_text pkt with
      | Err Aborted => sm_throw AssertionFailed
      | Err BadMessage => send_packet None GDB_KIND_NACK
      | Ok text => match gdb_parse_stage2 text with None => send_packet None GDB_KIND_NACK | Some cmd => handle_command cmd end
      end
  end.
End server.
