(* ===== verification/GdbSpec.v ===== *)
(** Theorems on the debugger's stub: memory and registers, answers, and commands that end the simulation. *)
From stdpp Require Import pretty.
From Stdlib Require Import Ascii.
From S2P Require Import Prelude Concolic Mmu Iss Bus GdbPacket GdbServer.

#[local] Open Scope sm_scope.

(** * Bytes as text *)

Definition hex_text (bs : list Z) : list Z := bs ≫= print_hex 2.
Lemma hex_text_byte b bs : byte_ok b -> hex_text (b :: bs) = hex_char (b / 16) :: hex_char (b mod 16) :: hex_text bs.
Proof. intros Hb. unfold hex_text. rewrite bind_cons, print_hex_byte by (unfold byte_ok in Hb; lia). done. Qed.
Lemma length_hex_text bs : Forall byte_ok bs -> length (hex_text bs) = (2 * length bs)%nat.
Proof. induction 1 as [|b bs Hb _ IH]; [done|]. rewrite hex_text_byte by done. cbn [length]. rewrite IH. lia. Qed.
Lemma hex_text_lookup bs : Forall byte_ok bs -> forall i b, bs !! i = Some b ->
  hex_text bs !! (2 * i)%nat = Some (hex_char (b / 16)) /\ hex_text bs !! (2 * i + 1)%nat = Some (hex_char (b mod 16)).
Proof.
  induction 1 as [|x bs Hx _ IH]; intros i b Hi; [done|]. rewrite hex_text_byte by done. destruct i as [|i]; [by injection Hi as ->|].
  replace (2 * S i)%nat with (S (S (2 * i))) by lia. cbn. by apply IH.
Qed.
Lemma hex_value_char d : 0 <= d < 16 -> hex_value_of (hex_char d) = Some d.
Proof.
  intros Hd. assert (exists n : nat, d = Z.of_nat n /\ (n < 16)%nat) as (n & -> & Hn) by (exists (Z.to_nat d); lia).
  do 16 (destruct n as [|n]; [by vm_compute|]). lia.
Qed.
Lemma strtol_byte b : byte_ok b -> strtol_hex (hex_char (b / 16)) (hex_char (b mod 16)) = b.
Proof.
  intros Hb. unfold byte_ok in Hb. unfold strtol_hex. rewrite !hex_value_char.
  - pose proof (Z.div_mod b 16). lia.
  - apply Z.mod_pos_bound. lia.
  - split; [apply Z.div_pos; lia|apply Z.div_lt_upper_bound; lia].
Qed.

(** What is left of bytes that are written: the loop counts digits against bytes. *)
Definition half_written (bs : list Z) : list Z := take (length bs / 2) bs ++ replicate (length bs - length bs / 2) 0.
Lemma decode_step bs i b : Forall byte_ok bs -> bs !! i = Some b -> (i < length bs)%nat ->
  <[i := strtol_hex (default 0 (hex_text bs !! (2 * i)%nat)) (default 0 (hex_text bs !! (2 * i + 1)%nat))]>
    (take i bs ++ replicate (length bs - i) 0) = take (S i) bs ++ replicate (length bs - S i) 0.
Proof.
  intros Hbs Hi Hlt. destruct (hex_text_lookup bs Hbs i b Hi) as [-> ->]. unfold from_option, id.
  rewrite strtol_byte by (by eapply Forall_lookup_1). rewrite (take_S_r _ _ _ Hi).
  assert (length (take i bs) = i) as Hl by (rewrite length_take; lia).
  replace (length bs - i)%nat with (S (length bs - S i)) by lia. cbn [replicate].
  rewrite insert_app_r_alt by lia. rewrite Hl, Nat.sub_diag. cbn. by rewrite <- app_assoc.
Qed.
Lemma decode_hex_half bs : Forall byte_ok bs -> forall n i, (length bs / 2 <= i + n)%nat -> (i <= length bs / 2)%nat ->
  decode_hex n i (Z.of_nat (length bs)) (hex_text bs) (take i bs ++ replicate (length bs - i) 0) = half_written bs.
Proof.
  intros Hbs. pose proof (Nat.div_mod_eq (length bs) 2) as Hdm. pose proof (Nat.mod_upper_bound (length bs) 2 ltac:(lia)) as Hm.
  induction n as [|n IH]; intros i Hn Hi; cbn [decode_hex]; [by replace i with (length bs / 2)%nat by lia|].
  destruct (Z.ltb_spec (Z.of_nat (2 * i) + 1) (Z.of_nat (length bs))) as [Hlt|Hge].
  - destruct (lookup_lt_is_Some_2 bs i) as [b Hb]; [lia|]. rewrite (decode_step bs i b) by (done || lia). apply IH; lia.
  - by replace i with (length bs / 2)%nat by lia.
Qed.

(** A register as the bytes of the target. *)
Lemma hex_digits_app k : forall j v, hex_digits (j + k) v = hex_digits j (v / 16 ^ Z.of_nat k) ++ hex_digits k v.
Proof.
  induction k as [|k IH]; intros j v; [by rewrite Nat.add_0_r, Z.div_1_r, app_nil_r|].
  rewrite Nat.add_succ_r. cbn [hex_digits]. rewrite IH, <- app_assoc. do 2 f_equal.
  rewrite Z.div_div by lia. f_equal. rewrite Nat2Z.inj_succ, Z.pow_succ_r by lia. done.
Qed.
Lemma hex_digits_mod k : forall v, hex_digits k (v mod 16 ^ Z.of_nat k) = hex_digits k v.
Proof.
  induction k as [|k IH]; intros v; [done|]. cbn [hex_digits]. rewrite Nat2Z.inj_succ, Z.pow_succ_r by lia.
  rewrite Z.rem_mul_r by lia. f_equal.
  - rewrite <- (IH (v / 16)). f_equal. rewrite Z.add_comm, (Z.mul_comm 16), Z.div_add_l by lia.
    rewrite (Z.div_small (v mod 16)) by (apply Z.mod_pos_bound; lia). lia.
  - f_equal. f_equal. rewrite Z.add_comm, Z.mul_comm, Z.add_comm, Z.mod_add by lia. by rewrite Z.mod_mod.
Qed.
Lemma hex_digits_value bs : Forall byte_ok bs -> hex_digits (2 * length bs) (le_value (rev bs)) = hex_text bs.
Proof.
  induction bs as [|b bs IH]; intros Hbs; [done|]. apply Forall_cons in Hbs as [Hb Hbs]. specialize (IH Hbs). cbn [rev length].
  assert (Forall byte_ok (rev bs)) as Hrev by (by apply List.Forall_rev).
  pose proof (le_value_bound (rev bs) Hrev) as Hbound. rewrite length_rev in Hbound.
  rewrite le_value_app, length_rev. cbn [le_value]. rewrite Z.mul_0_r, Z.add_0_r.
  assert (16 ^ Z.of_nat (2 * length bs) = 2 ^ (8 * Z.of_nat (length bs))) as Hpow.
  { change 16 with (2 ^ 4). rewrite <- Z.pow_mul_r by lia. f_equal. lia. }
  replace (2 * S (length bs))%nat with (2 + 2 * length bs)%nat by lia. rewrite hex_digits_app, <- (hex_digits_mod (2 * length bs)), Hpow.
  unfold byte_ok in Hb. rewrite (Z.mul_comm _ b), Z.mod_add, Z.div_add by lia.
  rewrite (Z.div_small (le_value _)), (Z.mod_small (le_value _)) by lia. rewrite IH, hex_text_byte, Z.add_0_l by done. cbn.
  f_equal. f_equal. rewrite Z.mod_small; [done|]. split; [apply Z.div_pos; lia|apply Z.div_lt_upper_bound; lia].
Qed.
Lemma hex_width_bound k v : (0 < k)%nat -> 0 <= v < 16 ^ Z.of_nat k -> (hex_width v <= k)%nat.
Proof.
  intros Hk Hv. unfold hex_width. destruct (Z.eqb_spec v 0) as [|Hne]; [lia|].
  assert (Z.log2 v / 4 < Z.of_nat k); [|pose proof (Z.log2_nonneg v); pose proof (Z.div_pos (Z.log2 v) 4); lia].
  apply Z.div_lt_upper_bound; [done|]. apply Z.log2_lt_pow2; [lia|]. rewrite Z.pow_mul_r by lia. change (2 ^ 4) with 16. lia.
Qed.
Lemma print_register n v : (0 < n)%nat -> print_hex (2 * n) (bswap n v) = hex_text (le_bytes n v).
Proof.
  intros Hn. pose proof (le_bytes_ok n v) as Hok. assert (length (le_bytes n v) = n) as Hl by apply length_le_bytes.
  assert (Forall byte_ok (rev (le_bytes n v))) as Hrev by (by apply List.Forall_rev).
  pose proof (le_value_bound _ Hrev) as Hb. rewrite length_rev, Hl in Hb.
  unfold print_hex, bswap. rewrite Nat.max_l; [rewrite <- Hl at 1; by apply hex_digits_value|]. apply hex_width_bound; [lia|].
  change 16 with (2 ^ 4). rewrite <- Z.pow_mul_r by lia. by replace (4 * Z.of_nat (2 * n)) with (8 * Z.of_nat n) by lia.
Qed.

(** * Answers *)

Section answers.
Context {E : Type} `{DebugTarget E} (out : E -> list Z).
Abbreviation GdbM := (SM (GDBServer E) exn).
Definition silent {A} (m : SM E exn A) : Prop := forall e, out (m e).2 = out e.
(** Only the socket writes to the connection, and it writes something. *)
Record connected : Prop := {
  silent_status h : silent (get_status h); silent_set h s : silent (target_set_status h s);
  silent_insert h a : silent (target_insert_breakpoint h a); silent_remove h a : silent (target_remove_breakpoint h a);
  silent_id h : silent (get_hart_id h); silent_pc h : silent (get_progam_counter h);
  silent_registers h : silent (target_get_registers h); silent_register h r : silent (target_read_register h r);
  silent_bus p : silent (isock_transport_dbg p);
  silent_mmu f h a t : mmu_v2p = Some f -> silent (f h a t);
  silent_run hs b : silent (notify_and_wait hs b); silent_stop h : silent (wait_stop h);
  socket_works d e : d <> [] -> exists k e', sock_write d e = (Ok (Some k), e') /\ (1 <= k <= length d)%nat /\ out e' = out e ++ take k d;
}.
Context (Hconn : connected).
Definition at_output (o : list Z) (p : option (list Z)) (s : GDBServer E) : Prop := out (target s) = o /\ prevpkt s = p.
Definition quiet {A} (m : GdbM A) : Prop := forall o p, keeps (at_output o p) m.
(** [m] sends one packet, which it remembers. *)
Definition packet_sent (o : list Z) (s : GDBServer E) : Prop :=
  exists text frame, gdb_serialize GDB_KIND_PACKET (Some text) = Ok frame /\ out (target s) = o ++ frame /\ prevpkt s = Some frame.
Definition answering (m : GdbM unit) : Prop := forall o p, triple (at_output o p) m (fun _ => packet_sent o) (fun _ _ => True).

Lemma quiet_ret {A} (a : A) : quiet (sm_ret a).
Proof. intros o p. apply keeps_ret. Qed.
Lemma quiet_throw {A} e : quiet (sm_throw (A := A) e).
Proof. intros o p. apply keeps_throw. Qed.
Lemma quiet_gets {A} (f : GDBServer E -> A) : quiet (sm_gets f).
Proof. intros o p. apply keeps_gets. Qed.
Lemma quiet_bind {A B} (m : GdbM A) (k : A -> GdbM B) : quiet m -> (forall a, quiet (k a)) -> quiet (sm_bind m k).
Proof. intros Hm Hk o p. apply keeps_bind; [apply Hm|intros a; apply Hk]. Qed.
Lemma quiet_catch {A} (m : GdbM A) h : quiet m -> (forall e, quiet (h e)) -> quiet (sm_catch m h).
Proof. intros Hm Hh o p. apply keeps_catch; [apply Hm|intros e; apply Hh]. Qed.
Lemma quiet_when b m : quiet m -> quiet (sm_when b m).
Proof. intros Hm o p. apply keeps_when, Hm. Qed.
Lemma quiet_on {A} (m : SM E exn A) : silent m -> quiet (on_target m).
Proof. intros Hm o p s [Ho Hp]. unfold on_target. specialize (Hm (target s)). destruct (m (target s)) as [[a|e] e']; by split; [rewrite <- Ho|]. Qed.
Lemma quiet_ops v : quiet (sm_modify (fun s => put_thread_ops (v s) s)).
Proof. intros o p. by apply keeps_modify. Qed.
Lemma quiet_single v : quiet (sm_modify (put_single_run v)).
Proof. intros o p. by apply keeps_modify. Qed.
Lemma quiet_assert b : quiet (gdb_assert b).
Proof. destruct b; [apply quiet_ret|apply quiet_throw]. Qed.
Create HintDb quiet discriminated.
#[local] Hint Resolve quiet_ret quiet_throw quiet_gets quiet_when quiet_on quiet_ops quiet_single quiet_assert : quiet.
#[local] Hint Resolve silent_status silent_set silent_insert silent_remove silent_id silent_pc silent_registers silent_register silent_bus
  silent_run silent_stop Hconn : quiet.
Lemma quiet_each {A B} (f : A -> GdbM B) l : (forall a, quiet (f a)) -> quiet (for_each f l).
Proof.
  intros Hf. induction l as [|a l IH]; cbn; [apply quiet_ret|]. apply quiet_bind; [done|]. intros b. apply quiet_bind; [done|]. intros bs. apply quiet_ret.
Qed.
Lemma quiet_threads id : quiet (get_threads id).
Proof. unfold get_threads. apply quiet_bind; [apply quiet_gets|]. intros hs. repeat case_match; auto with quiet. Qed.
Lemma quiet_exec {B} (fn : nat -> GdbM B) : (forall h, quiet (fn h)) -> quiet (exec_thread fn).
Proof.
  intros Hf. apply quiet_bind; [apply quiet_gets|]. intros t. apply quiet_bind; [apply quiet_threads|]. intros ts. by apply quiet_each.
Qed.
#[local] Hint Resolve quiet_threads : quiet.
Ltac quiet_step :=
  lazymatch goal with
  | |- quiet (sm_bind _ _) => apply quiet_bind; [|intros ?]
  | |- quiet (sm_catch _ _) => apply quiet_catch; [|intros ?]
  | |- quiet (sm_when _ _) => apply quiet_when
  | |- quiet (exec_thread _) => apply quiet_exec; intros ?
  | |- quiet (for_each _ _) => apply quiet_each; intros ?
  | |- quiet (match ?x with _ => _ end) => let Hx := fresh in destruct x eqn:Hx
  | |- quiet _ => solve [eauto with quiet]
  end.
Ltac quiet_solve := repeat quiet_step.

Lemma quiet_transaction c a d : quiet (do_dbg_transaction c a d).
Proof. unfold do_dbg_transaction. quiet_solve. Qed.
Lemma quiet_translate h a t : quiet (translate_addr h a t).
Proof. unfold translate_addr. destruct mmu_v2p as [f|] eqn:Hf; [|apply quiet_ret]. apply quiet_on. by apply silent_mmu. Qed.
Lemma quiet_format v : quiet (format_register v).
Proof. unfold format_register. quiet_solve. Qed.
#[local] Hint Resolve quiet_transaction quiet_translate quiet_format : quiet.
Lemma quiet_read a n : quiet (read_memory a n).
Proof. unfold read_memory. quiet_solve. Qed.
Lemma quiet_write a n d : quiet (write_memory a n d).
Proof. unfold write_memory. quiet_solve. Qed.
Lemma quiet_run hs b : quiet (run_threads hs b).
Proof.
  unfold run_threads, stop_hart. destruct hs; [apply quiet_ret|]. quiet_solve.
Qed.
#[local] Hint Resolve quiet_read quiet_write quiet_run : quiet.
Lemma quiet_list hs : forall i n, quiet (thread_list i n hs).
Proof. induction hs as [|h hs IH]; intros i n; cbn [thread_list]; quiet_solve; apply IH. Qed.
Lemma quiet_look hs : forall st, quiet (look_at hs st).
Proof. induction hs as [|h hs IH]; intros st; cbn [look_at]; quiet_solve; apply IH. Qed.
#[local] Hint Resolve quiet_list quiet_look : quiet.
Lemma quiet_actions l : forall m st, quiet (vcont_actions l m st).
Proof. induction l as [|v l IH]; intros m st; cbn [vcont_actions]; unfold run_selected; quiet_solve; apply IH. Qed.
#[local] Hint Resolve quiet_actions : quiet.

(** ** The socket *)

Lemma writeall_writes o p fuel : forall d, d <> [] -> (length d < fuel)%nat -> forall s, at_output o p s ->
  exists s', writeall fuel d s = (Ok true, s') /\ at_output (o ++ d) p s'.
Proof.
  revert o. induction fuel as [|fuel IH]; intros o d Hd Hf s [Ho Hp]; [lia|]. cbn [writeall]. unfold sm_bind, on_target.
  destruct (socket_works Hconn d (target s) Hd) as (k & e' & -> & Hk & Hout). destruct (Nat.ltb_spec k (length d)) as [Hlt|Hge].
  - destruct (IH (o ++ take k d) (drop k d)) with (s := mkServer (arch s) (harts s) (thread_ops s) (prevpkt s) (single_run s) e')
      as (s' & Hw & Hs').
    + intros Hn. apply (f_equal length) in Hn. rewrite length_drop in Hn. cbn in Hn. lia.
    + rewrite length_drop. lia.
    + split; [cbn; by rewrite Hout, Ho|done].
    + exists s'. split; [done|]. by rewrite <- app_assoc, take_drop in Hs'.
  - eexists. split; [done|]. split; [cbn; by rewrite Hout, Ho, take_ge|done].
Qed.
Lemma sends k d frame o p s : gdb_serialize k d = Ok frame -> frame <> [] -> at_output o p s ->
  exists s', send_packet d k s = (Ok tt, s') /\ at_output (o ++ frame) (if bool_decide (k = GDB_KIND_PACKET) then Some frame else p) s'.
Proof.
  intros Hs Hne Hat. unfold send_packet. rewrite Hs. destruct (writeall_writes o p (S (length frame)) frame Hne ltac:(lia) s Hat) as (s' & Hw & Hs').
  unfold sm_bind. rewrite Hw. cbn [andb]. destruct (bool_decide (k = GDB_KIND_PACKET)); [|by exists s'].
  eexists. split; [done|]. by destruct Hs'.
Qed.
Lemma serialize_nonempty d frame : gdb_serialize GDB_KIND_PACKET (Some d) = Ok frame -> frame <> [].
Proof. unfold gdb_serialize. destruct (xassert _); [|done]. by intros [= <-]. Qed.
Lemma reply_answers d : answering (reply d).
Proof.
  intros o p s Hs. unfold reply. destruct (gdb_serialize GDB_KIND_PACKET (Some d)) as [frame|e] eqn:Hf; [|unfold send_packet; by rewrite Hf].
  destruct (sends _ _ frame o p s Hf (serialize_nonempty d frame Hf) Hs) as (s' & -> & Hs'). rewrite bool_decide_true in Hs' by done.
  exists d, frame. split; [done|exact Hs'].
Qed.
Lemma answering_bind {A} (m : GdbM A) k : quiet m -> (forall a, answering (k a)) -> answering (sm_bind m k).
Proof.
  intros Hm Hk o p. eapply triple_bind; [|intros a; apply (Hk a o p)].
  eapply triple_conseq; [apply (Hm o p)|done|done|done].
Qed.
Lemma answering_throw e : answering (sm_throw e).
Proof. by intros o p s _. Qed.

(** ** Handlers *)

#[local] Hint Resolve reply_answers answering_throw : quiet.
Lemma catching_answers c m : quiet m -> answering (catching c m).
Proof. intros Hm. unfold catching. apply answering_bind; [|intros a; apply reply_answers]. quiet_solve. Qed.
Ltac answer_step :=
  lazymatch goal with
  | |- answering (sm_bind _ _) => apply answering_bind; [quiet_solve|intros ?]
  | |- answering (catching _ _) => apply catching_answers; quiet_solve
  | |- answering (match ?x with _ => _ end) => destruct x
  | |- answering _ => solve [eauto with quiet]
  end.
Lemma handlers_answer cmd : Forall (fun nh => answering (nh.2 cmd)) handlers.
Proof.
  unfold handlers. repeat (apply Forall_cons; split; cbn [snd]); [..|by apply Forall_nil];
    unfold haltReason, getRegisters, setThread, killServer, readMemory, writeMemory, readRegister, qAttached, qSupported, threadInfo,
      threadInfoEnd, isAlive, vCont, vContSupported, removeBreakpoint, setBreakpoint, breakpoint_command, for_harts, uninit; repeat answer_step.
  case_match; quiet_solve.
Qed.
Lemma handler_answers n cmd h : handler_at n handlers = Some h -> answering (h cmd).
Proof.
  pose proof (handlers_answer cmd) as Hall. revert Hall. generalize (handlers (E := E)). intros l. induction 1 as [|[m g] l Hg _ IH]; [done|].
  cbn. destruct (String.eqb n m); [intros [= <-]; exact Hg|exact IH].
Qed.

(** ** Packets *)

Section packets.
Context (gdb_parse_stage2 : list Z -> option gdb_command_t).
Definition command_of (pkt : gdb_packet_t) : option gdb_command_t :=
  match command_text pkt with Ok text => gdb_parse_stage2 text | Err _ => None end.
(** What is sent for a packet: a rejection, what was sent before, or an acknowledgment and one packet. *)
Definition answered (pkt : gdb_packet_t) (s s' : GDBServer E) : Prop :=
  match kind pkt with
  | GDB_KIND_ACK => s' = s
  | GDB_KIND_NACK => at_output (out (target s) ++ default [] (prevpkt s)) (prevpkt s) s'
  | GDB_KIND_PACKET | GDB_KIND_NOTIFY =>
      match command_of pkt with
      | None => at_output (out (target s) ++ chars "-") (prevpkt s) s'
      | Some cmd => packet_sent (out (target s) ++ chars "+") s'
      end
  end.
(** The packet remembered is one that was sent. *)
Definition remembered (s : GDBServer E) : Prop := prevpkt s <> Some [].
Lemma packet_remembered o s : packet_sent o s -> remembered s.
Proof. intros (d & frame & Hf & _ & Hp). unfold remembered. rewrite Hp. intros [= ->]. by apply (serialize_nonempty d []). Qed.
Lemma ack_sent k s : k = GDB_KIND_ACK \/ k = GDB_KIND_NACK ->
  exists s', send_packet None k s = (Ok tt, s') /\ at_output (out (target s) ++ [kind_to_char k]) (prevpkt s) s'.
Proof.
  intros Hk. assert (gdb_serialize k None = Ok [kind_to_char k]) as Hs by (by destruct Hk as [-> | ->]).
  destruct (sends k None _ (out (target s)) (prevpkt s) s Hs ltac:(done) (conj eq_refl eq_refl)) as (s' & Hrun & Hat).
  rewrite bool_decide_false in Hat by (by destruct Hk as [-> | ->]). by exists s'.
Qed.
Lemma packet_answered pkt s s' : remembered s -> handle_packet gdb_parse_stage2 pkt s = (Ok tt, s') -> answered pkt s s' /\ remembered s'.
Proof.
  intros Hrem Hrun. unfold handle_packet, answered, command_of in *.
  assert (forall s', send_packet None GDB_KIND_NACK s = (Ok tt, s') -> at_output (out (target s) ++ chars "-") (prevpkt s) s' /\ remembered s') as Hnack.
  { intros s1 H1. destruct (ack_sent GDB_KIND_NACK s (or_intror eq_refl)) as (s2 & H2 & Hat). rewrite H2 in H1. injection H1 as <-.
    split; [exact Hat|]. unfold remembered. by rewrite (proj2 Hat). }
  assert (forall cmd, handle_command cmd s = (Ok tt, s') -> packet_sent (out (target s) ++ chars "+") s' /\ remembered s') as Hcmd.
  { intros cmd Hh. unfold handle_command, sm_bind in Hh. destruct (ack_sent GDB_KIND_ACK s (or_introl eq_refl)) as (s1 & H1 & Hat).
    rewrite H1 in Hh. assert (packet_sent (out (target s) ++ chars "+") s') as Hsent; [|split; [done|by eapply packet_remembered]].
    assert (forall m, answering m -> m s1 = (Ok tt, s') -> packet_sent (out (target s) ++ chars "+") s') as Hm.
    { intros m Hans Hms. specialize (Hans _ _ s1 Hat). by rewrite Hms in Hans. }
    destruct (handler_at (name cmd) handlers) as [h|] eqn:Hat'; [|by eapply Hm; [apply reply_answers|]].
    eapply Hm; [by apply (handler_answers (name cmd) cmd h)|exact Hh]. }
  destruct (kind pkt); [| | |by injection Hrun as <-].
  1, 2: destruct (command_text pkt) as [text|[]]; [|done|by apply Hnack]; destruct (gdb_parse_stage2 text) as [cmd|]; [by apply (Hcmd cmd)|by apply Hnack].
  unfold retransmit, sm_bind, sm_gets in Hrun. destruct (prevpkt s) as [d|] eqn:Hp.
  - destruct (writeall_writes (out (target s)) (Some d) (S (length d)) d) with (s := s) as (s1 & Hw & Hat); [by intros ->|lia|done|].
    rewrite Hw in Hrun. injection Hrun as <-. split; [exact Hat|]. unfold remembered. rewrite (proj2 Hat). intros [= ->]. by apply Hrem.
  - injection Hrun as <-. split; [split; [by rewrite app_nil_r|done]|done].
Qed.
End packets.
End answers.

(** A packet sent passes the check of packets received. *)
Lemma serialized_valid d frame : gdb_serialize GDB_KIND_PACKET (Some d) = Ok frame ->
  exists cs, frame = chr "$" :: d ++ chr "#" :: cs /\ length cs = 2%nat /\ gdb_is_valid (mkPacket GDB_KIND_PACKET (Some d) cs) = Ok true.
Proof.
  unfold gdb_serialize, gdb_is_valid. cbn [data csum]. set (cs := print_hex 2 _). destruct (Nat.ltb_spec (length (kind_to_char GDB_KIND_PACKET :: d ++ chr "#" :: cs))
    (length d + GDB_CSUM_LEN + 3)) as [Hlt|]; [|done]. intros [= <-]. exists cs. assert (length cs = 2%nat) as Hl.
  { assert (2 <= length cs)%nat by (unfold cs, print_hex; rewrite length_hex_digits; lia).
    unfold GDB_CSUM_LEN in Hlt. cbn [length] in Hlt. rewrite length_app in Hlt. cbn [length] in Hlt. lia. }
  split_and!; [done|done|]. rewrite (proj2 (Nat.eqb_eq _ _)) by done. cbn. by rewrite bool_decide_true.
Qed.

(** C20 The protocol: whatever packet arrives, if no handler ends the simulation, what is sent for it is: nothing for an acknowledgment; the
    last packet again, if there was one, for a rejection; a rejection of what is no command; and an acknowledgment with exactly one packet,
    which the receiver's check accepts and which is kept to be sent again, for every command, known or not. *)
Theorem packets_answered {E} `{DebugTarget E} (out : E -> list Z) (parse : list Z -> option gdb_command_t) pkt s s' :
  connected out -> remembered s -> handle_packet parse pkt s = (Ok tt, s') ->
  answered out parse pkt s s' /\ remembered s' /\
  forall d frame, gdb_serialize GDB_KIND_PACKET (Some d) = Ok frame ->
    exists cs, frame = chr "$" :: d ++ chr "#" :: cs /\ length cs = 2%nat /\ gdb_is_valid (mkPacket GDB_KIND_PACKET (Some d) cs) = Ok true.
Proof.
  intros Hc Hr Hrun. destruct (packet_answered out Hc parse pkt s s' Hr Hrun) as [Ha Hr']. split_and!; [done|done|]. apply serialized_valid.
Qed.

(** * What the commands do *)

Section commands.
Context {E : Type} `{DebugTarget E}.
Abbreviation GdbM := (SM (GDBServer E) exn).
Definition at_target (e : E) (s : GDBServer E) : GDBServer E := mkServer (arch s) (harts s) (thread_ops s) (prevpkt s) (single_run s) e.
Definition selected (s : GDBServer E) : Z := default GDB_THREAD_ANY (thread_ops s !! chr "g").

Lemma write_memory_half a bs (s : GDBServer E) : Forall byte_ok bs ->
  write_memory a (Z.of_nat (length bs)) (hex_text bs) s =
  (r <-- do_dbg_transaction TLM_WRITE_COMMAND a (half_written bs) ;; gdb_assert (r.2 =? Z.of_nat (length bs))) s.
Proof.
  intros Hbs. unfold write_memory. rewrite !length_hex_text, length_replicate by done.
  rewrite (Nat.mul_comm 2), Nat.Div0.mod_mul, Nat.div_mul, Z.eqb_refl by done. unfold gdb_assert at 1 2. cbn [Nat.eqb].
  pose proof (decode_hex_half bs Hbs (length bs * 2) 0) as Hd. rewrite take_0, app_nil_l, Nat.sub_0_r in Hd.
  rewrite Hd; [done| |lia]. pose proof (Nat.Div0.div_le_upper_bound (length bs) 2 (length bs)). lia.
Qed.
(** One thread is selected, and it exists. *)
Context (s : GDBServer E) (h : nat) (Hsel : get_threads (selected s) s = (Ok [h], s)).
Lemma exec_one {B} (fn : nat -> GdbM B) : exec_thread fn s = (b <-- fn h ;; sm_ret [b]) s.
Proof.
  unfold exec_thread, sm_bind at 1. cbn [sm_gets]. unfold selected in Hsel. unfold sm_bind at 1. rewrite Hsel. cbn [for_each].
  unfold sm_bind. destruct (fn h s) as [[b|e] s1]; reflexivity.
Qed.
Lemma transaction_ok c a d p n e : isock_transport_dbg (mkPayload c a d None TLM_OK_RESPONSE) (target s) = (Ok (p, n), e) ->
  response p = TLM_OK_RESPONSE -> do_dbg_transaction c a d s = (Ok (data_ptr p, n), at_target e s).
Proof.
  intros Hb Hr. unfold do_dbg_transaction, sm_bind, on_target. rewrite Hb. unfold is_response_error. cbn [fst snd].
  by rewrite Hr, bool_decide_true.
Qed.
Lemma write_answer a bs p e : mmu_v2p = None -> Forall byte_ok bs -> Z.of_nat (length bs) < 2 ^ 32 ->
  isock_transport_dbg (mkPayload TLM_WRITE_COMMAND a (half_written bs) None TLM_OK_RESPONSE) (target s) = (Ok (p, Z.of_nat (length bs)), e) ->
  response p = TLM_OK_RESPONSE ->
  writeMemory (mkCommand "M" (GDB_ARG_MEMORYW a (Z.of_nat (length bs)) (hex_text bs))) s = reply (chars "OK") (at_target e s).
Proof.
  intros Hmmu Hbs Hlen Hb Hr. unfold writeMemory. cbn [arg]. rewrite (proj2 (Z.leb_le _ _)) by (unfold UINT_MAX; lia). cbn [gdb_assert].
  unfold catching, sm_bind, sm_catch. cbn [sm_ret]. change (sm_ret tt s) with (@Ok exn unit tt, s). cbv beta iota.
  rewrite exec_one. unfold sm_bind, translate_addr. rewrite Hmmu. cbn [sm_ret]. rewrite (write_memory_half a bs s Hbs).
  unfold sm_bind. rewrite (transaction_ok _ _ _ _ _ _ Hb Hr). cbn [snd]. rewrite Z.eqb_refl. reflexivity.
Qed.
Lemma read_answer a n p e : mmu_v2p = None -> Z.of_nat n < 2 ^ 32 ->
  isock_transport_dbg (mkPayload TLM_READ_COMMAND a (replicate n 0) None TLM_OK_RESPONSE) (target s) = (Ok (p, Z.of_nat n), e) ->
  response p = TLM_OK_RESPONSE ->
  readMemory (mkCommand "m" (GDB_ARG_MEMORY a (Z.of_nat n))) s = reply (hex_text (data_ptr p)) (at_target e s).
Proof.
  intros Hmmu Hlen Hb Hr. unfold readMemory. cbn [arg]. rewrite (proj2 (Z.leb_le _ _)) by (unfold UINT_MAX; lia). cbn [gdb_assert].
  unfold catching, sm_bind, sm_catch. change (sm_ret tt s) with (@Ok exn unit tt, s). cbv beta iota.
  rewrite exec_one. unfold sm_bind, translate_addr. rewrite Hmmu. cbn [sm_ret]. unfold read_memory. rewrite Nat2Z.id.
  unfold sm_bind. rewrite (transaction_ok _ _ _ _ _ _ Hb Hr). cbn [fst snd]. rewrite Z.eqb_refl. cbn. by rewrite app_nil_r.
Qed.
Definition register_text (n : nat) (v : Z) : list Z := hex_text (le_bytes n v).
Lemma registers_formatted vs (s1 : GDBServer E) : arch s1 = RV32 -> for_each format_register vs s1 = (Ok (register_text 4 <$> vs), s1).
Proof.
  intros Ha. assert (forall v, format_register v s1 = (Ok (register_text 4 v), s1)) as Hf.
  { intros v. unfold format_register, sm_bind, sm_gets. rewrite Ha. cbn [formatRegister]. change 8%nat with (2 * 4)%nat. by rewrite print_register by lia. }
  induction vs as [|v vs IH]; [done|]. cbn [for_each]. unfold sm_bind. by rewrite Hf, IH.
Qed.
Lemma registers_answer vs e : arch s = RV32 -> target_get_registers h (target s) = (Ok vs, e) ->
  getRegisters (mkCommand "g" GDB_ARG_NONE) s = reply (vs ≫= register_text 4) (at_target e s).
Proof.
  intros Ha Hv. unfold getRegisters, sm_bind. rewrite exec_one. unfold sm_bind, on_target. rewrite Hv.
  change (mkServer (arch s) (harts s) (thread_ops s) (prevpkt s) (single_run s) e) with (at_target e s).
  rewrite (registers_formatted vs (at_target e s) Ha). unfold sm_ret. cbn [concat]. rewrite app_nil_r. do 2 f_equal.
  clear Hv. induction vs as [|v vs IH]; [done|]. cbn. by rewrite IH.
Qed.
End commands.

(** C21 Memory and registers under the debugger.  With one thread selected and no memory management unit: reading memory answers with the bytes
    the bus gave, two digits each; the registers are answered as their bytes, the lowest first; but of bytes written only the first half
    reaches the bus, the rest are zeros, and the answer is [OK]. *)
Theorem debugger_accesses {E} `{DebugTarget E} (s : GDBServer E) h e : get_threads (selected s) s = (Ok [h], s) -> mmu_v2p = None ->
  (forall a n p, Z.of_nat n < 2 ^ 32 -> response p = TLM_OK_RESPONSE ->
    isock_transport_dbg (mkPayload TLM_READ_COMMAND a (replicate n 0) None TLM_OK_RESPONSE) (target s) = (Ok (p, Z.of_nat n), e) ->
    readMemory (mkCommand "m" (GDB_ARG_MEMORY a (Z.of_nat n))) s = reply (hex_text (data_ptr p)) (at_target e s)) /\
  (forall vs, arch s = RV32 -> target_get_registers h (target s) = (Ok vs, e) ->
    getRegisters (mkCommand "g" GDB_ARG_NONE) s = reply (vs ≫= fun v => hex_text (le_bytes 4 v)) (at_target e s)) /\
  (forall a bs p, Forall byte_ok bs -> Z.of_nat (length bs) < 2 ^ 32 -> response p = TLM_OK_RESPONSE ->
    isock_transport_dbg (mkPayload TLM_WRITE_COMMAND a (half_written bs) None TLM_OK_RESPONSE) (target s) = (Ok (p, Z.of_nat (length bs)), e) ->
    writeMemory (mkCommand "M" (GDB_ARG_MEMORYW a (Z.of_nat (length bs)) (hex_text bs))) s = reply (chars "OK") (at_target e s)).
Proof.
  intros Hsel Hmmu. split_and!; intros.
  - by apply (read_answer s h).
  - by apply (registers_answer s h).
  - by apply (write_answer s h) with (p := p).
Qed.

(** Commands end the simulation.  Any thread is accepted for later operations, and one that does not exist ends the simulation with the
    next of them that is not for one register; an action that the stub itself says it supports does; and so does the bare name of a
    command, whose argument was never written. *)
Theorem commands_end_simulation {E} `{DebugTarget E} (s : GDBServer E) :
  (forall tid, setThread (mkCommand "H" (GDB_ARG_H (chr "g") tid)) s = reply (chars "OK") (put_thread_ops (<[chr "g" := tid]> (thread_ops s)) s)) /\
  (forall c, Z.of_nat (length (harts s)) < selected s -> getRegisters c s = (Err (OtherException out_of_range), s)) /\
  (forall t l, vCont (mkCommand "vCont" (GDB_ARG_VCONT (mkVcont (chr "C") t :: l))) s = (Err (OtherException invalid_argument), s)) /\
  (forall c, vContSupported c = reply (chars "vCont;c;C")) /\
  Forall (fun n => exists h, handler_at n handlers = Some h /\ h (mkCommand n GDB_ARG_NONE) s = (Err (OtherException uninitialised), s))
    ["H"; "m"; "M"; "p"; "T"; "vCont"; "z"; "Z"].
Proof.
  split_and!; [done| |done|done|].
  - intros c Hlt. unfold getRegisters, exec_thread, sm_bind, sm_gets. unfold selected in Hlt. set (t := default _ _) in *.
    assert (get_threads t s = (Err (OtherException out_of_range), s)) as ->; [|done].
    unfold get_threads, sm_bind, sm_gets. rewrite (proj2 (Z.eqb_neq t GDB_THREAD_ANY)) by (unfold GDB_THREAD_ANY; lia).
    rewrite (proj2 (Z.eqb_neq t GDB_THREAD_ALL)) by (unfold GDB_THREAD_ALL; lia). rewrite (proj2 (Z.ltb_ge t 1)) by lia.
    by rewrite lookup_ge_None_2 by lia.
  - repeat (apply Forall_cons; split; [by eexists|]). by apply Forall_nil.
Qed.

(** ** A witness: one hart, eight bytes of memory, and a socket that takes three bytes at a time *)

Record toy := mkToy { toy_regs : list Z; toy_mem : list Z; toy_out : list Z; toy_status : CoreExecStatus; toy_breaks : list Z }.
Definition toy_bus (p : payload) (t : toy) : result exn (payload * Z) * toy :=
  let a := Z.to_nat (address p) in let n := length (data_ptr p) in
  if (a + n <=? length (toy_mem t))%nat then
    match command p with
    | TLM_READ_COMMAND => (Ok (set_data (take n (drop a (toy_mem t))) p, Z.of_nat n), t)
    | TLM_WRITE_COMMAND =>
        (Ok (p, Z.of_nat n), mkToy (toy_regs t) (take a (toy_mem t) ++ data_ptr p ++ drop (a + n) (toy_mem t)) (toy_out t) (toy_status t) (toy_breaks t))
    | TLM_IGNORE_COMMAND => (Ok (set_response TLM_ADDRESS_ERROR_RESPONSE p, 0), t)
    end
  else (Ok (set_response TLM_ADDRESS_ERROR_RESPONSE p, 0), t).
Definition toy_write (d : list Z) (t : toy) : result exn (option nat) * toy :=
  (Ok (Some (Nat.min 3 (length d))), mkToy (toy_regs t) (toy_mem t) (toy_out t ++ take 3 d) (toy_status t) (toy_breaks t)).
Definition toy_set_status (st : CoreExecStatus) (t : toy) : toy := mkToy (toy_regs t) (toy_mem t) (toy_out t) st (toy_breaks t).
Definition toy_put_breaks (b : list Z) (t : toy) : toy := mkToy (toy_regs t) (toy_mem t) (toy_out t) (toy_status t) b.
#[local] Instance toy_target : DebugTarget toy := {|
  get_status _ := sm_gets toy_status; target_set_status _ st := sm_modify (toy_set_status st);
  target_insert_breakpoint _ a := sm_modify (fun t => toy_put_breaks (a :: toy_breaks t) t);
  target_remove_breakpoint _ a := sm_modify (fun t => toy_put_breaks (filter (fun b => b <> a) (toy_breaks t)) t);
  get_hart_id _ := sm_ret 0; get_progam_counter _ := sm_ret 0;
  target_get_registers _ := sm_gets toy_regs;
  target_read_register _ r := fun t => (match toy_regs t !! Z.to_nat r with Some v => Ok v | None => Err (OtherException out_of_range) end, t);
  isock_transport_dbg := toy_bus; mmu_v2p := None;
  notify_and_wait _ _ := sm_modify (toy_set_status HitBreakpoint); wait_stop _ := sm_ret tt; sock_write := toy_write |}.
Lemma toy_connected : connected toy_out.
Proof.
  split; try done.
  - intros p t. cbn. unfold toy_bus. destruct (_ <=? _)%nat; [|done]. by destruct (command p).
  - intros d t Hd. exists (Nat.min 3 (length d)). eexists. split; [reflexivity|]. cbn [toy_out].
    split; [pose proof (proj1 (Nat.neq_0_lt_0 _) (fun Hl => Hd (proj1 (length_zero_iff_nil d) Hl))); lia|]. f_equal.
    destruct (Nat.le_gt_cases 3 (length d)) as [Hl|Hl]; [by rewrite Nat.min_l|]. rewrite Nat.min_r by lia. by rewrite !take_ge by lia.
Qed.
Definition toy_server : GDBServer toy := mkServer RV32 [0%nat] ∅ None false (mkToy [0; 0x80000000; 258] [1; 2; 3; 4; 5; 6; 7; 8] [] Runnable []).
(** The grammar, of a few commands. *)
Definition toy_parse (text : list Z) : option gdb_command_t :=
  if bool_decide (text = chars "M2,4:a1a2a3a4") then Some (mkCommand "M" (GDB_ARG_MEMORYW 2 4 (chars "a1a2a3a4")))
  else if bool_decide (text = chars "m0,8") then Some (mkCommand "m" (GDB_ARG_MEMORY 0 8))
  else if bool_decide (text = chars "vCont;c") then Some (mkCommand "vCont" (GDB_ARG_VCONT [mkVcont (chr "c") GDB_THREAD_ALL]))
  else if bool_decide (text = chars "QStartNoAckMode") then Some (mkCommand "QStartNoAckMode" GDB_ARG_NONE) else None.
Definition toy_packet (text : string) : gdb_packet_t := mkPacket GDB_KIND_PACKET (Some (chars text)) (csum_chars (chars text)).
Definition toy_run (text : string) (s : GDBServer toy) : GDBServer toy := (handle_packet toy_parse (toy_packet text) s).2.
Definition toy_written := toy_run "M2,4:a1a2a3a4" toy_server.
Lemma packets_answered_witness :
  answered toy_out toy_parse (toy_packet "M2,4:a1a2a3a4") toy_server toy_written /\
  toy_out (target toy_written) = chars "+$OK#9a" /\
  toy_out (target (toy_run "m0,8" toy_written)) = chars "+$OK#9a+$0102a1a200000708#77" /\
  toy_out (target (toy_run "vCont;c" toy_server)) = chars "+$T05thread:1;#d7" /\
  toy_out (target (toy_run "QStartNoAckMode" toy_server)) = chars "+$#00" /\
  toy_out (target (toy_run "bogus" toy_server)) = chars "-".
Proof.
  split; [|split_and!; vm_compute; reflexivity].
  apply (packets_answered toy_out toy_parse (toy_packet "M2,4:a1a2a3a4") toy_server toy_written toy_connected); [done|vm_compute; reflexivity].
Defined.
Lemma debugger_accesses_witness :
  getRegisters (mkCommand "g" GDB_ARG_NONE) toy_server = reply (chars "000000000000008002010000") toy_server /\
  writeMemory (mkCommand "M" (GDB_ARG_MEMORYW 2 4 (hex_text [0xa1; 0xa2; 0xa3; 0xa4]))) toy_server =
    reply (chars "OK") (at_target (mkToy [0; 0x80000000; 258] [1; 2; 0xa1; 0xa2; 0; 0; 7; 8] [] Runnable []) toy_server).
Proof.
  split.
  - destruct (debugger_accesses toy_server 0%nat (target toy_server) ltac:(vm_compute; reflexivity) eq_refl) as (_ & H & _).
    exact (H [0; 0x80000000; 258] eq_refl eq_refl).
  - destruct (debugger_accesses toy_server 0%nat (mkToy [0; 0x80000000; 258] [1; 2; 0xa1; 0xa2; 0; 0; 7; 8] [] Runnable [])
      ltac:(vm_compute; reflexivity) eq_refl) as (_ & _ & H).
    refine (H 2 [0xa1; 0xa2; 0xa3; 0xa4] (mkPayload TLM_WRITE_COMMAND 2 [0xa1; 0xa2; 0; 0] None TLM_OK_RESPONSE) _ _ eq_refl _);
      [repeat constructor; lia|done|vm_compute; reflexivity].
Defined.
(** The third thread is selected, of one. *)
Lemma commands_end_simulation_witness :
  let s := mkServer RV32 [0%nat] {[chr "g" := 3]} None false (mkToy [0] [1; 2] [] Runnable []) in
  getRegisters (mkCommand "g" GDB_ARG_NONE) s = (Err (OtherException out_of_range), s) /\
  vCont (mkCommand "vCont" (GDB_ARG_VCONT [mkVcont (chr "C") GDB_THREAD_ALL])) s = (Err (OtherException invalid_argument), s).
Proof.
  intros s. destruct (commands_end_simulation s) as (_ & Hg & Hc & _). split; [|exact (Hc GDB_THREAD_ALL [])].
  apply (Hg (mkCommand "g" GDB_ARG_NONE)). vm_compute. reflexivity.
Defined.
