(* ===== verification/GdbIss.v ===== *)
(** The simulator under the debugger (core/common/gdb-mc/gdb_runner.cpp, core/rv32/iss.cpp): one hart as
    what the stub calls, and its breakpoints. *)
From stdpp Require Import pretty.
From S2P Require Import Prelude Csr Instr APInt KExpr KBuilder KBuilderSound KConstraints Concolic ConcMem PathTrace Mmu Iss Platform IssTrap IssExec IssSound IssSpec Bus GdbPacket GdbServer.

#[local] Open Scope sm_scope.

Section iss_target.
Context {R : Type} `{Env R} `{ExprBuilder} `{KleeSolver}.
(** The system calls; the bus, as the debugger reaches it; the bytes for the connection, which takes all of them; and a bound on
    the steps of one run. *)
Variables (sys : option (M R unit)) (bus : payload -> M R (payload * Z)) (fuel : nat).
Definition still_running : Z := 4.
(** The body of the loop of [GDBServerRunner::run], from the run event to the stop event. *)
Definition GDBServerRunner_run (single_run : bool) : M R unit :=
  if single_run then
    run_step sys ;;; st <-- gets status ;; sm_when (bool_decide (st = Runnable)) (iss_set_status HitBreakpoint)
  else done <-- run sys fuel ;; if done : bool then sm_ret tt else sm_throw (OtherException still_running).
(** What the server and the runner do to the hart at first. *)
Definition debugged : M R unit := block_on_wfi false ;;; enable_debug.

Definition on_iss {A} (m : M R A) : SM (World R * list Z) exn A := fun s => let '(r, w) := m s.1 in (r, (w, s.2)).
(** Without a memory management unit; the one hart has stopped when the wait for a first stop ends. *)
#[export] Instance iss_target : DebugTarget (World R * list Z) := {|
  get_status _ := on_iss (gets status);
  target_set_status _ st := on_iss (iss_set_status st);
  target_insert_breakpoint _ a := on_iss (insert_breakpoint a);
  target_remove_breakpoint _ a := on_iss (remove_breakpoint a);
  get_hart_id _ := on_iss (get_csr mhartid);
  get_progam_counter _ := on_iss (gets pc);
  target_get_registers _ := on_iss get_registers;
  target_read_register _ r := on_iss (read_register r);
  isock_transport_dbg p := on_iss (bus p);
  mmu_v2p := None;
  notify_and_wait _ single := on_iss (GDBServerRunner_run single);
  wait_stop _ := sm_ret tt;
  sock_write d := fun s => (Ok (Some (length d)), (s.1, s.2 ++ d)) |}.

Definition with_iss (f : ISS -> ISS) (s : GDBServer (World R * list Z)) : GDBServer (World R * list Z) :=
  let w := (target s).1 in
  mkServer (arch s) (harts s) (thread_ops s) (prevpkt s) (single_run s) (mkWorld (f (iss w)) (tracer w) (env w), (target s).2).

Lemma run_step_breakpoint (w : World R) : zero_reads_zero w -> debug_mode (iss w) = true -> pc (iss w) ∈ breakpoints (iss w) ->
  run_step sys w = (Ok tt, mkWorld (set_status HitBreakpoint (iss w)) (tracer w) (env w)).
Proof.
  intros Hz Hd Hb. unfold run_step, zero_reads_zero in *. unfold sm_bind at 1 2 3, regs_read, reg, gets, sm_gets, get_u32, asserted.
  cbn [Z.ltb Z.compare]. rewrite Hz. cbn [sm_ret Z.eqb assert_]. unfold sm_bind at 1. by rewrite Hd, bool_decide_true.
Qed.
Lemma run_breakpoint n (w : World R) : zero_reads_zero w -> debug_mode (iss w) = true -> pc (iss w) ∈ breakpoints (iss w) ->
  run sys (S n) w = (lift_env env_sync ;;; sm_ret true) (mkWorld (set_status HitBreakpoint (iss w)) (tracer w) (env w)).
Proof. intros Hz Hd Hb. cbn [run]. unfold sm_bind at 1. by rewrite run_step_breakpoint. Qed.

(** Breakpoints.  A software breakpoint set is one of the hart's, at the address as a 32-bit one, and a hart that is debugged stops
    there, when it runs and when it steps: nothing is executed but the synchronisation at the end of a run, and the hart says that it hit a
    breakpoint; one that is removed is gone, and no other kind is supported. *)
Theorem breakpoints_honoured (s : GDBServer (World R * list Z)) a k : harts s = [0%nat] ->
  let set := with_iss (fun c => set_breakpoints ({[u32 a]} ∪ breakpoints c) c) s in
  setBreakpoint (mkCommand "Z" (GDB_ARG_BREAK GDB_ZKIND_SOFT a k)) s = reply (chars "OK") set /\
  (forall w, w = (target set).1 -> zero_reads_zero w -> debug_mode (iss w) = true -> pc (iss w) = u32 a ->
    let hit := mkWorld (set_status HitBreakpoint (iss w)) (tracer w) (env w) in
    (0 < fuel)%nat -> GDBServerRunner_run true w = (Ok tt, hit) /\
    GDBServerRunner_run false w = lift_env env_sync hit) /\
  removeBreakpoint (mkCommand "z" (GDB_ARG_BREAK GDB_ZKIND_SOFT a k)) s =
    reply (chars "OK") (with_iss (fun c => set_breakpoints (breakpoints c ∖ {[u32 a]}) c) s) /\
  (forall t, t <> GDB_ZKIND_SOFT -> setBreakpoint (mkCommand "Z" (GDB_ARG_BREAK t a k)) s = reply [] s).
Proof.
  intros Hh set. split_and!.
  - unfold setBreakpoint, breakpoint_command. cbn [arg]. rewrite bool_decide_true by done.
    unfold for_harts, sm_bind, sm_gets. rewrite Hh. reflexivity.
  - intros w -> Hz Hd Hpc hit Hf. assert (pc (iss (target set).1) ∈ breakpoints (iss (target set).1)) as Hin.
    { rewrite Hpc. apply elem_of_union. left. by apply elem_of_singleton. }
    split; unfold GDBServerRunner_run, sm_bind; [by rewrite run_step_breakpoint|].
    destruct fuel as [|n]; [lia|]. rewrite run_breakpoint by done. unfold sm_bind. fold hit.
    destruct (lift_env env_sync hit) as [[[]|e] w]; reflexivity.
  - unfold removeBreakpoint, breakpoint_command. cbn [arg]. rewrite bool_decide_true by done.
    unfold for_harts, sm_bind, sm_gets. rewrite Hh. reflexivity.
  - intros t Ht. unfold setBreakpoint, breakpoint_command. cbn [arg]. by rewrite bool_decide_false.
Qed.
End iss_target.

(** ** A witness: the sample hart, with a breakpoint at its program counter *)

#[local] Instance witness_builder : ExprBuilder := solver_builder.
#[local] Instance witness_solver : KleeSolver := search_solver [].
#[local] Instance witness_env : Env ram := ram_env.
#[local] Instance witness_target : DebugTarget (World ram * list Z) :=
  iss_target None (fun p => sm_ret (set_response TLM_ADDRESS_ERROR_RESPONSE p, 0)) 1.
Definition debugged_server : GDBServer (World ram * list Z) :=
  mkServer RV32 [0%nat] ∅ None false ((debugged sample_world).2, []).
Definition broken : GDBServer (World ram * list Z) :=
  with_iss (fun c => set_breakpoints ({[u32 0x1000]} ∪ breakpoints c) c) debugged_server.
Lemma breakpoints_honoured_witness :
  setBreakpoint (mkCommand "Z" (GDB_ARG_BREAK GDB_ZKIND_SOFT 0x1000 4)) debugged_server = reply (chars "OK") broken /\
  GDBServerRunner_run None 1 true (target broken).1 =
    (Ok tt, mkWorld (set_status HitBreakpoint (iss (target broken).1)) (tracer (target broken).1) (env (target broken).1)).
Proof.
  destruct (breakpoints_honoured None (fun p => sm_ret (set_response TLM_ADDRESS_ERROR_RESPONSE p, 0)) 1 debugged_server 0x1000 4 eq_refl)
    as (Hset & Hrun & _). split; [exact Hset|].
  refine (proj1 (Hrun (target broken).1 eq_refl _ _ _ _)); [vm_compute; reflexivity|reflexivity|vm_compute; reflexivity|lia].
Defined.
