(* ===== verification/Syscall.v ===== *)
(** The emulation of system calls (core/rv32/syscall.h, syscall.cpp): the state of the handler, a
    function per call, and the call of a core with its registers.  The operating system of the host is
    an interface ([HostOS]), as is the core ([iss_syscall_if]). *)
From S2P Require Import Prelude Csr APInt KExpr KBuilder KBuilderSound KConstraints Concolic ConcMem PathTrace Iss Platform IssTrap IssExec IssSound IssSpec Bus.

#[local] Open Scope sm_scope.

(** * Interfaces *)

(** [struct stat] of the host, with its times in seconds and nanoseconds. *)
Record host_stat := mkStat {
  st_dev : Z; st_ino : Z; st_mode : Z; st_nlink : Z; st_uid : Z; st_gid : Z; st_rdev : Z; st_size : Z; st_blksize : Z;
  st_blocks : Z; st_atim : Z * Z; st_mtim : Z * Z; st_ctim : Z * Z }.
Class HostOS (H : Type) := {
  os_fstat : Z -> H -> Z * host_stat * H;
  os_gettimeofday : H -> Z * (Z * Z) * H;
  os_time : H -> Z * H;
  os_write : Z -> list Z -> H -> Z * H;
  os_read : Z -> Z -> H -> Z * list Z * H;
  os_lseek : Z -> Z -> Z -> H -> Z * H;
  os_open : (nat -> Z) -> Z -> Z -> H -> Z * H;
  os_close : Z -> H -> Z * H;
}.
Class SyscallCore (C : Type) := {
  core_sys_exit : SM C exn unit;
  core_syscall_register_index : SM C exn Z;
  core_read_register : Z -> SM C exn Z;
  core_write_register : Z -> Z -> SM C exn unit;
}.

(** * State *)

Definition bad_lexical_cast : Z := 5.
(** The memory is the host's, by the distance from its start, if a pointer to it was given. *)
Record SyscallHandler (H : Type) := mkSyscalls {
  mem : option (Z -> Z); mem_offset : Z; hp : Z; sys_shall_exit : bool; start_heap : Z; max_heap : Z; os : H }.
Arguments mkSyscalls {H}.
Arguments mem {H}.
Arguments mem_offset {H}.
Arguments hp {H}.
Arguments sys_shall_exit {H}.
Arguments start_heap {H}.
Arguments max_heap {H}.
Arguments os {H}.

Section syscalls.
Context {H : Type} `{HostOS H}.
Abbreviation SysM := (SM (SyscallHandler H) exn).
Definition put_mem v (s : SyscallHandler H) := mkSyscalls v (mem_offset s) (hp s) (sys_shall_exit s) (start_heap s) (max_heap s) (os s).
Definition put_heap v (s : SyscallHandler H) :=
  mkSyscalls (mem s) (mem_offset s) v (sys_shall_exit s) (start_heap s) (if max_heap s <? v then v else max_heap s) (os s).
Definition put_exit (s : SyscallHandler H) := mkSyscalls (mem s) (mem_offset s) (hp s) true (start_heap s) (max_heap s) (os s).
Definition put_os (v : H) (s : SyscallHandler H) := mkSyscalls (mem s) (mem_offset s) (hp s) (sys_shall_exit s) (start_heap s) (max_heap s) v.
(** [init] *)
Definition syscalls_init (host_memory : option (Z -> Z)) (mem_start heap : Z) (o : H) : SyscallHandler H :=
  mkSyscalls host_memory mem_start heap false heap heap o.
Definition get_max_heap_memory_consumption (s : SyscallHandler H) : Z := u64 (max_heap s - start_heap s).

Definition on_os {A} (f : H -> A * H) : SysM A := fun s => let '(a, o) := f (os s) in (Ok a, put_os o s).
Definition sys_assert (b : bool) : SysM unit := if b then sm_ret tt else sm_throw AssertionFailed.
(** [boost::lexical_cast<int>] *)
Definition lexical_cast_int (v : Z) : SysM Z :=
  if (- 2 ^ 31 <=? v) && (v <? 2 ^ 31) then sm_ret v else sm_throw (OtherException bad_lexical_cast).
(** [guest_to_host_pointer]: the distance from the start of the memory. *)
Definition guest_to_host_pointer (addr : Z) : SysM Z :=
  s <-- sm_gets (fun s => s) ;; sys_assert (bool_decide (is_Some (mem s))) ;;; sm_ret (addr - mem_offset s).
Definition store_bytes (p : Z) (bs : list Z) (m : Z -> Z) : Z -> Z :=
  fun i => match bs !! Z.to_nat (i - p) with Some b => if p <=? i then b else m i | None => m i end.
Definition poke (p : Z) (bs : list Z) : SysM unit := sm_modify (fun s => put_mem (store_bytes p bs <$> mem s) s).
Definition peek (p : Z) (n : nat) : SysM (list Z) := sm_gets (fun s => match mem s with Some m => (fun i => m (p + Z.of_nat i)) <$> seq 0 n | None => [] end).

(** * The calls *)

(** [rv32_stat]: each member at its offset. *)
Definition stat_layout (x : host_stat) : list (Z * list Z) := [
  (0, le_bytes 8 (st_dev x)); (8, le_bytes 8 (st_ino x)); (16, le_bytes 4 (st_mode x)); (20, le_bytes 4 (st_nlink x));
  (24, le_bytes 4 (st_uid x)); (28, le_bytes 4 (st_gid x)); (32, le_bytes 8 (st_rdev x)); (48, le_bytes 8 (st_size x));
  (56, le_bytes 4 (st_blksize x)); (64, le_bytes 8 (st_blocks x)); (72, le_bytes 4 (st_atim x).1); (76, le_bytes 4 (st_atim x).2);
  (80, le_bytes 4 (st_mtim x).1); (84, le_bytes 4 (st_mtim x).2); (88, le_bytes 4 (st_ctim x).1); (92, le_bytes 4 (st_ctim x).2)].
Fixpoint poke_all (p : Z) (l : list (Z * list Z)) : SysM unit :=
  match l with [] => sm_ret tt | (o, bs) :: l => poke (p + o) bs ;;; poke_all p l end.
Definition sys_fstat (fd s_addr : Z) : SysM Z :=
  r <-- on_os (os_fstat fd) ;;
  sm_when (r.1 =? 0) (p <-- guest_to_host_pointer s_addr ;; poke_all p (stat_layout r.2)) ;;;
  sm_ret r.1.
Definition sys_gettimeofday (tp tzp : Z) : SysM Z :=
  sys_assert (tzp =? 0) ;;;
  r <-- on_os os_gettimeofday ;;
  p <-- guest_to_host_pointer tp ;;
  poke p (le_bytes 4 r.2.1) ;;; poke (p + 4) (le_bytes 4 r.2.2) ;;;
  sm_ret r.1.
Definition sys_time (tloc : Z) : SysM Z :=
  host_ans <-- on_os os_time ;;
  guest_ans <-- lexical_cast_int host_ans ;;
  sm_when (negb (tloc =? 0)) (p <-- guest_to_host_pointer tloc ;; poke p (le_bytes 4 guest_ans)) ;;;
  lexical_cast_int guest_ans.

(** The flags of the target, and those of the host (Linux). *)
Definition RV_RDONLY : Z := 0x0000.
Definition RV_WRONLY : Z := 0x0001.
Definition RV_RDWR : Z := 0x0002.
Definition RV_APPEND : Z := 0x0008.
Definition RV_CREAT : Z := 0x0200.
Definition RV_TRUNC : Z := 0x0400.
Definition O_RDONLY : Z := 0.
Definition O_WRONLY : Z := 1.
Definition O_RDWR : Z := 2.
Definition O_CREAT : Z := 0x40.
Definition O_TRUNC : Z := 0x200.
Definition O_APPEND : Z := 0x400.
Definition host_flag (flags : Z) (f : Z * Z) : Z := if Z.land flags f.1 =? 0 then 0 else f.2.
Definition flag_table : list (Z * Z) :=
  [(RV_RDONLY, O_RDONLY); (RV_WRONLY, O_WRONLY); (RV_RDWR, O_RDWR); (RV_APPEND, O_APPEND); (RV_CREAT, O_CREAT); (RV_TRUNC, O_TRUNC)].
Definition translateRVFlagsToHost (flags : Z) : SysM Z :=
  let ret := foldl (fun r f => Z.lor r (host_flag flags f)) 0 flag_table in
  if (ret =? 0) && negb (flags =? 0) then sm_throw RuntimeError else sm_ret ret.

Definition sys_brk (addr : Z) : SysM Z :=
  if addr =? 0 then h <-- sm_gets hp ;; lexical_cast_int h
  else sm_modify (put_heap addr) ;;; lexical_cast_int addr.
Definition sys_write (fd buf count : Z) : SysM Z :=
  p <-- guest_to_host_pointer buf ;;
  bytes <-- peek p (Z.to_nat count) ;;
  ans <-- on_os (os_write fd bytes) ;;
  sys_assert (0 <=? ans) ;;; sm_ret (s32 ans).
Definition sys_read (fd buf count : Z) : SysM Z :=
  p <-- guest_to_host_pointer buf ;;
  r <-- on_os (os_read fd count) ;;
  poke p r.2 ;;;
  sys_assert (0 <=? r.1) ;;; sm_ret (s32 r.1).
Definition sys_lseek (fd offset whence : Z) : SysM Z := ans <-- on_os (os_lseek fd offset whence) ;; sm_ret (s32 ans).
Definition sys_open (pathname flags mode : Z) : SysM Z :=
  p <-- guest_to_host_pointer pathname ;;
  path <-- sm_gets (fun s n => match mem s with Some m => m (p + Z.of_nat n) | None => 0 end) ;;
  host_flags <-- translateRVFlagsToHost flags ;;
  on_os (os_open path host_flags mode).
Definition sys_close (fd : Z) : SysM Z := if (0 <=? fd) && (fd <=? 2) then sm_ret 0 else on_os (os_close fd).

(** * Dispatch *)

Definition SYS_exit : Z := 93.
Definition SYS_read : Z := 63.
Definition SYS_write : Z := 64.
Definition SYS_open : Z := 1024.
Definition SYS_close : Z := 57.
Definition SYS_lseek : Z := 62.
Definition SYS_brk : Z := 214.
Definition SYS_fstat : Z := 80.
Definition SYS_time : Z := 1062.
Definition SYS_gettimeofday : Z := 169.
Definition SYS_host_error : Z := 1.
Definition SYS_host_test_pass : Z := 2.
Definition SYS_host_test_fail : Z := 3.

(** The arguments are 64-bit values; those of 32 bits are converted. *)
Definition execute_syscall (n a0 a1 a2 : Z) : SysM Z :=
  if n =? SYS_fstat then sys_fstat (s32 a0) a1
  else if n =? SYS_gettimeofday then sys_gettimeofday a0 a1
  else if n =? SYS_brk then sys_brk a0
  else if n =? SYS_time then sys_time a0
  else if n =? SYS_write then sys_write (s32 a0) a1 a2
  else if n =? SYS_read then sys_read (s32 a0) a1 a2
  else if n =? SYS_lseek then sys_lseek (s32 a0) (swrap 64 a1) (s32 a2)
  else if n =? SYS_open then sys_open a0 (s32 a1) (u32 a2)
  else if n =? SYS_close then sys_close (s32 a0)
  else if n =? SYS_exit then sm_modify put_exit ;;; sm_ret 0
  else if n =? SYS_host_error then sm_throw RuntimeError
  else if (n =? SYS_host_test_pass) || (n =? SYS_host_test_fail) then sm_modify put_exit ;;; sm_ret 0
  else sm_throw RuntimeError.

Context {C : Type} `{SyscallCore C}.
Definition in_core {A} (m : SM C exn A) : SM (SyscallHandler H * C) exn A := fun s => let '(r, c) := m s.2 in (r, (s.1, c)).
Definition in_handler {A} (m : SysM A) : SM (SyscallHandler H * C) exn A := fun s => let '(r, h) := m s.1 in (r, (h, s.2)).
(** The call of a core: its answer is an [int32_t] where a register takes a [uint64_t]. *)
Definition execute_core_syscall : SM (SyscallHandler H * C) exn unit :=
  i <-- in_core core_syscall_register_index ;;
  syscall <-- in_core (core_read_register i) ;;
  a3 <-- in_core (core_read_register 13) ;; a2 <-- in_core (core_read_register 12) ;;
  a1 <-- in_core (core_read_register 11) ;; a0 <-- in_core (core_read_register 10) ;;
  ans <-- in_handler (execute_syscall syscall a0 a1 a2) ;;
  in_core (core_write_register 10 (u64 ans)) ;;;
  exit <-- sm_gets (fun s : SyscallHandler H * C => sys_shall_exit s.1) ;;
  sm_when exit (in_core core_sys_exit).

(** [register_core] and [transport]: the cores by their numbers, and a call by a transaction with such a number. *)
Definition register_core (hart_id : Z) (core : C) (cores : gmap Z C) : result exn (gmap Z C) :=
  match cores !! hart_id with Some _ => Err AssertionFailed | None => Ok (<[hart_id := core]> cores) end.
Definition syscall_transport (trans : payload) : SM (SyscallHandler H * gmap Z C) exn unit := fun s =>
  let hart_id := le_value (data_ptr trans) in
  if (address trans mod 4 =? 0) && (data_length trans =? 4) then
    match s.2 !! hart_id with
    | None => (Err AssertionFailed, s)
    | Some core => let '(r, (h, core)) := execute_core_syscall (s.1, core) in (r, (h, <[hart_id := core]> s.2))
    end
  else (Err AssertionFailed, s).
End syscalls.
(** The simulator as the core. *)
#[export] Instance iss_core {R} `{Env R} `{ExprBuilder} `{KleeSolver} : SyscallCore (World R) := {|
  core_sys_exit := sys_exit; core_syscall_register_index := get_syscall_register_index;
  core_read_register := read_register; core_write_register := write_register |}.

(** * Theorems *)

Section theorems.
Context {H : Type} `{HostOS H}.
Abbreviation SysM := (SM (SyscallHandler H) exn).

(** ** The heap *)

(** The greatest heap is no smaller than the heap and the one at first. *)
Definition heap_ok (s : SyscallHandler H) : Prop := hp s <= max_heap s /\ start_heap s <= max_heap s.
Lemma keeps_on_os {A} (f : H -> A * H) : keeps heap_ok (on_os f).
Proof. intros s Hs. unfold on_os. destruct (f (os s)) as [a o]. exact Hs. Qed.
Lemma keeps_heap v : keeps (E := exn) heap_ok (sm_modify (put_heap v)).
Proof. apply keeps_modify. intros s [Hp Hs]. unfold heap_ok. cbn. destruct (Z.ltb_spec (max_heap s) v); lia. Qed.
Lemma keeps_poke p bs : keeps heap_ok (poke p bs).
Proof. by apply keeps_modify. Qed.
Lemma keeps_exit : keeps (E := exn) heap_ok (sm_modify put_exit).
Proof. by apply keeps_modify. Qed.
Lemma keeps_sys_assert b : keeps heap_ok (sys_assert b).
Proof. destruct b; [apply keeps_ret|apply keeps_throw]. Qed.
Lemma keeps_cast v : keeps heap_ok (lexical_cast_int v).
Proof. unfold lexical_cast_int. keeps_solve. Qed.
Hint Resolve keeps_on_os keeps_heap keeps_poke keeps_exit keeps_sys_assert keeps_cast : keeps.
Lemma keeps_pointer a : keeps heap_ok (guest_to_host_pointer a).
Proof. unfold guest_to_host_pointer. keeps_solve. Qed.
Lemma keeps_peek p n : keeps heap_ok (peek p n).
Proof. apply keeps_gets. Qed.
Lemma keeps_poke_all p l : keeps heap_ok (poke_all p l).
Proof. induction l as [|[o bs] l IH]; cbn; keeps_solve. Qed.
Hint Resolve keeps_pointer keeps_peek keeps_poke_all : keeps.
Lemma heap_kept n a0 a1 a2 : keeps heap_ok (execute_syscall n a0 a1 a2).
Proof.
  unfold execute_syscall, sys_fstat, sys_gettimeofday, sys_brk, sys_time, sys_write, sys_read, sys_lseek, sys_open, sys_close,
    translateRVFlagsToHost. keeps_solve.
Qed.

(** ** The flags of a file *)

Lemma land_pow2_eqb flags k : 0 <= k -> (Z.land flags (2 ^ k) =? 0) = negb (Z.testbit flags k).
Proof.
  intros Hk. destruct (Z.testbit flags k) eqn:Hb; cbn.
  - apply Z.eqb_neq. intros Hz. apply (f_equal (fun z => Z.testbit z k)) in Hz. rewrite Z.land_spec, Hb, Z.pow2_bits_true, Z.bits_0 in Hz by done. done.
  - apply Z.eqb_eq, Z.bits_inj_iff'. intros i Hi. rewrite Z.land_spec, Z.bits_0. destruct (decide (i = k)) as [->|Hne]; [by rewrite Hb|].
    rewrite Z.pow2_bits_false by done. apply andb_false_r.
Qed.
(** The host's flags of those of the target that are known; the others are dropped, unless none is known. *)
Lemma flags_translated flags (s : SyscallHandler H) : translateRVFlagsToHost flags s =
  (let ret := Z.lor (Z.lor (Z.lor (Z.lor (if Z.testbit flags 0 then O_WRONLY else 0) (if Z.testbit flags 1 then O_RDWR else 0))
     (if Z.testbit flags 3 then O_APPEND else 0)) (if Z.testbit flags 9 then O_CREAT else 0)) (if Z.testbit flags 10 then O_TRUNC else 0) in
   if (ret =? 0) && negb (flags =? 0) then Err RuntimeError else Ok ret, s).
Proof.
  unfold translateRVFlagsToHost, flag_table, host_flag. cbn [foldl fst snd]. change RV_RDONLY with 0. rewrite Z.land_0_r. cbn [Z.eqb Z.lor].
  change RV_WRONLY with (2 ^ 0). change RV_RDWR with (2 ^ 1). change RV_APPEND with (2 ^ 3). change RV_CREAT with (2 ^ 9). change RV_TRUNC with (2 ^ 10).
  rewrite !land_pow2_eqb by done. destruct (Z.testbit flags 0), (Z.testbit flags 1), (Z.testbit flags 3), (Z.testbit flags 9), (Z.testbit flags 10);
    cbn -[Z.testbit]; try done; by destruct (flags =? 0).
Qed.

(** ** Calls that use memory *)

(** Without a pointer to the memory, as every platform initialises the handler. *)
Lemma no_memory (s : SyscallHandler H) a : mem s = None -> guest_to_host_pointer a s = (Err AssertionFailed, s).
Proof. intros Hm. unfold guest_to_host_pointer, sm_bind, sm_gets, sys_assert. by rewrite Hm. Qed.
Lemma some_memory (s : SyscallHandler H) a m : mem s = Some m -> guest_to_host_pointer a s = (Ok (a - mem_offset s), s).
Proof. intros Hm. unfold guest_to_host_pointer, sm_bind, sm_gets, sys_assert. by rewrite Hm. Qed.
Definition guest_bytes (s : SyscallHandler H) (m : Z -> Z) (a : Z) (n : nat) : list Z := (fun i => m (a - mem_offset s + Z.of_nat i)) <$> seq 0 n.
Lemma write_spec fd buf count (s : SyscallHandler H) m : mem s = Some m ->
  let r := os_write fd (guest_bytes s m buf (Z.to_nat count)) (os s) in
  sys_write fd buf count s = (if 0 <=? r.1 then Ok (s32 r.1) else Err AssertionFailed, put_os r.2 s).
Proof.
  intros Hm r. unfold sys_write, sm_bind. rewrite (some_memory s buf m Hm). unfold peek, sm_gets. rewrite Hm. unfold on_os. fold (guest_bytes s m buf (Z.to_nat count)).
  subst r. destruct (os_write _ _ _) as [ans o]. cbn. unfold sys_assert. by destruct (0 <=? ans).
Qed.
Lemma read_spec fd buf count (s : SyscallHandler H) m : mem s = Some m ->
  let r := os_read fd count (os s) in
  sys_read fd buf count s = (if 0 <=? r.1.1 then Ok (s32 r.1.1) else Err AssertionFailed,
    put_mem (Some (store_bytes (buf - mem_offset s) r.1.2 m)) (put_os r.2 s)).
Proof.
  intros Hm r. unfold sys_read, sm_bind. rewrite (some_memory s buf m Hm). unfold on_os. subst r.
  destruct (os_read _ _ _) as [[ans bs] o]. cbn. rewrite Hm. cbn. unfold sys_assert. by destruct (0 <=? ans).
Qed.
(** Without a pointer to the memory: the calls that ask for one. *)
Lemma unmapped_calls (s : SyscallHandler H) a0 a1 a2 : mem s = None ->
  (forall n, n = SYS_write \/ n = SYS_read \/ n = SYS_open -> execute_syscall n a0 a1 a2 s = (Err AssertionFailed, s)) /\
  execute_syscall SYS_gettimeofday a0 a1 a2 s =
    (Err AssertionFailed, if a1 =? 0 then put_os (os_gettimeofday (os s)).2 s else s) /\
  (let r := os_fstat (s32 a0) (os s) in
    r.1.1 = 0 -> execute_syscall SYS_fstat a0 a1 a2 s = (Err AssertionFailed, put_os r.2 s)) /\
  (let r := os_time (os s) in a0 <> 0 -> - 2 ^ 31 <= r.1 < 2 ^ 31 ->
    execute_syscall SYS_time a0 a1 a2 s = (Err AssertionFailed, put_os r.2 s)).
Proof.
  intros Hm. split_and!.
  - intros n [->|[->| ->]].
    + change (sys_write (H := H) (s32 a0) a1 a2 s = (Err AssertionFailed, s)). unfold sys_write, sm_bind. by rewrite no_memory.
    + change (sys_read (H := H) (s32 a0) a1 a2 s = (Err AssertionFailed, s)). unfold sys_read, sm_bind. by rewrite no_memory.
    + change (sys_open (H := H) a0 (s32 a1) (u32 a2) s = (Err AssertionFailed, s)). unfold sys_open, sm_bind. by rewrite no_memory.
  - change (execute_syscall SYS_gettimeofday a0 a1 a2) with (sys_gettimeofday (H := H) a0 a1).
    unfold sys_gettimeofday, sys_assert, on_os, sm_bind. destruct (a1 =? 0); [|done]. cbn.
    destruct (os_gettimeofday (os s)) as [r o]. cbn. by rewrite Hm.
  - intros r Hr. change (execute_syscall SYS_fstat a0 a1 a2) with (sys_fstat (H := H) (s32 a0) a1).
    unfold sys_fstat, on_os, sm_bind. fold r. destruct r as [r o]. cbn in Hr. rewrite Hr. cbn. by rewrite Hm.
  - intros r Ha Hr. change (execute_syscall SYS_time a0 a1 a2) with (sys_time (H := H) a0).
    unfold sys_time, on_os, sm_bind, lexical_cast_int. fold r. destruct r as [r o]. cbn in Hr |- *.
    rewrite (proj2 (Z.leb_le _ _)), (proj2 (Z.ltb_lt _ _)), (proj2 (Z.eqb_neq a0 0)) by (done || lia). cbn. by rewrite Hm.
Qed.

(** ** The call of a core *)

Section core_call.
Context {R : Type} `{Env R} `{ExprBuilder} `{KleeSolver}.
(** The registers of a hart with the call's number and arguments. *)
Definition calls_with (w : World R) (n a0 a1 a2 : Z) : Prop :=
  has_E_base_isa (csrs (iss w)) = false /\
  let value i := getValue 32 (concrete (regs (iss w) i)) in
  value 17 = Some n /\ is_Some (value 13) /\ value 12 = Some a2 /\ value 11 = Some a1 /\ value 10 = Some a0.
Lemma core_call h (w : World R) n a0 a1 a2 : calls_with w n a0 a1 a2 ->
  execute_core_syscall (h, w) =
  match execute_syscall n a0 a1 a2 h with
  | (Ok ans, h') => (in_core (write_register 10 (u64 ans)) ;;; sm_when (sys_shall_exit h') (in_core sys_exit)) (h', w)
  | (Err e, h') => (Err e, (h', w))
  end.
Proof.
  intros (He & H17 & [a3 H13] & H12 & H11 & H10). unfold execute_core_syscall.
  assert (forall i v, i <= 31 -> getValue 32 (concrete (regs (iss w) i)) = Some v ->
    @in_core H (World R) _ (core_read_register i) (h, w) = (Ok v, (h, w))) as Hread.
  { intros i v Hi Hv. unfold in_core. cbn. unfold read_register, regs_read, sm_bind, reg, gets, sm_gets, get_u32, asserted.
    rewrite (proj2 (Z.ltb_ge 31 i)) by lia. by rewrite Hv. }
  unfold sm_bind at 1. assert (@in_core H (World R) _ core_syscall_register_index (h, w) = (Ok 17, (h, w))) as ->.
  { unfold in_core. cbn. unfold get_syscall_register_index, sm_bind, gets, sm_gets. by rewrite He. }
  unfold sm_bind at 1. rewrite (Hread 17 n) by done. unfold sm_bind at 1. rewrite (Hread 13 a3) by done. unfold sm_bind at 1. rewrite (Hread 12 a2) by done.
  unfold sm_bind at 1. rewrite (Hread 11 a1) by done. unfold sm_bind at 1. rewrite (Hread 10 a0) by done. unfold sm_bind at 1, in_handler. cbn [fst snd].
  destruct (execute_syscall n a0 a1 a2 h) as [[ans|e] h']; [|done]. unfold sm_bind, sm_gets, in_core. cbn [fst snd].
  change (core_write_register 10 (u64 ans)) with (write_register (E := R) 10 (u64 ans)). by destruct (write_register 10 (u64 ans) w) as [[[]|e] w'].
Qed.
(** A negative answer is no register's value. *)
Lemma negative_answer h (w : World R) n a0 a1 a2 ans h' : calls_with w n a0 a1 a2 -> execute_syscall n a0 a1 a2 h = (Ok ans, h') ->
  - 2 ^ 31 <= ans < 0 -> execute_core_syscall (h, w) = (Err AssertionFailed, (h', w)).
Proof.
  intros Hw Hans Hneg. rewrite (core_call h w n a0 a1 a2 Hw), Hans. unfold sm_bind, in_core, write_register, sm_bind, assert_.
  assert (u64 ans = ans + 2 ^ 64) as ->.
  { unfold wrap. rewrite <- (Z_mod_plus_full _ 1). apply Z.mod_small. lia. }
  by rewrite (proj2 (Z.leb_gt _ _)) by lia.
Qed.
Lemma failed_call h (w : World R) n a0 a1 a2 e h' : calls_with w n a0 a1 a2 ->
  execute_syscall n a0 a1 a2 h = (Err e, h') -> execute_core_syscall (h, w) = (Err e, (h', w)).
Proof. intros Hw He. by rewrite (core_call h w n a0 a1 a2 Hw), He. Qed.
Lemma heap_kept_core h (w : World R) n a0 a1 a2 : calls_with w n a0 a1 a2 -> heap_ok h -> heap_ok (execute_core_syscall (h, w)).2.1.
Proof.
  intros Hw Hh. rewrite (core_call h w n a0 a1 a2 Hw). pose proof (heap_kept n a0 a1 a2 h Hh) as Hk.
  destruct (execute_syscall n a0 a1 a2 h) as [[ans|e] h']; [|exact Hk]. unfold sm_bind, in_core. cbn [fst snd].
  destruct (write_register 10 (u64 ans) w) as [[[]|e] w1]; [|exact Hk]. unfold sm_when. destruct (sys_shall_exit h'); [|exact Hk].
  cbn [fst snd]. by destruct (sys_exit w1).
Qed.

(** C22 System calls of a hart.  A call ends the program when it is [exit], with zero in the register of the answer; the heap moves to the
    address asked for and its greatest extent is kept, but an address of 2^31 or more, where the memory of two platforms starts, ends the
    simulation; a write hands the host the bytes of the guest, a read stores those of the host, and both report how many there were;
    an answer that is negative, an error of the host, ends the simulation, since it is no value of the register; and without a pointer to the
    memory, which no platform gives, so does every call with a pointer of the guest: a write, a read, an open and a gettimeofday always, an
    fstat when the host knows the file, and a time that is to be stored. *)
Theorem system_calls h (w : World R) n a0 a1 a2 : calls_with w n a0 a1 a2 -> 0 <= a0 < 2 ^ 32 ->
  let run := execute_core_syscall (h, w) in
  (heap_ok h -> heap_ok run.2.1) /\
  (n = SYS_exit -> run = (in_core (write_register 10 0) ;;; in_core sys_exit) (put_exit h, w)) /\
  (n = SYS_brk -> let asked := if a0 =? 0 then h else put_heap a0 h in
    execute_syscall n a0 a1 a2 h =
      (if (- 2 ^ 31 <=? hp asked) && (hp asked <? 2 ^ 31) then Ok (hp asked) else Err (OtherException bad_lexical_cast), asked)) /\
  (forall m, mem h = Some m -> n = SYS_write -> let r := os_write (s32 a0) (guest_bytes h m a1 (Z.to_nat a2)) (os h) in
    execute_syscall n a0 a1 a2 h = (if 0 <=? r.1 then Ok (s32 r.1) else Err AssertionFailed, put_os r.2 h)) /\
  (forall m, mem h = Some m -> n = SYS_read -> let r := os_read (s32 a0) a2 (os h) in
    execute_syscall n a0 a1 a2 h = (if 0 <=? r.1.1 then Ok (s32 r.1.1) else Err AssertionFailed,
      put_mem (Some (store_bytes (a1 - mem_offset h) r.1.2 m)) (put_os r.2 h))) /\
  (forall ans h', execute_syscall n a0 a1 a2 h = (Ok ans, h') -> - 2 ^ 31 <= ans < 0 -> run = (Err AssertionFailed, (h', w))) /\
  (mem h = None ->
    (n = SYS_write \/ n = SYS_read \/ n = SYS_open -> run = (Err AssertionFailed, (h, w))) /\
    (n = SYS_gettimeofday ->
       run = (Err AssertionFailed, (if a1 =? 0 then put_os (os_gettimeofday (os h)).2 h else h, w))) /\
    (n = SYS_fstat -> let r := os_fstat (s32 a0) (os h) in
       r.1.1 = 0 -> run = (Err AssertionFailed, (put_os r.2 h, w))) /\
    (n = SYS_time -> let r := os_time (os h) in
       a0 <> 0 -> - 2 ^ 31 <= r.1 < 2 ^ 31 -> run = (Err AssertionFailed, (put_os r.2 h, w)))).
Proof.
  intros Hw Ha0 run. split_and!.
  - by apply (heap_kept_core h w n a0 a1 a2).
  - intros ->. unfold run. by rewrite (core_call h w _ a0 a1 a2 Hw).
  - intros -> asked. change (execute_syscall SYS_brk a0 a1 a2) with (sys_brk (H := H) a0). unfold sys_brk, asked.
    destruct (a0 =? 0); unfold sm_bind, sm_gets, sm_modify, lexical_cast_int; cbn [hp put_heap]; by case_match.
  - intros m Hm -> r. by apply (write_spec (s32 a0) a1 a2 h m).
  - intros m Hm -> r. by apply (read_spec (s32 a0) a1 a2 h m).
  - intros ans h' Hans Hneg. by apply (negative_answer h w n a0 a1 a2 ans h').
  - intros Hm. destruct (unmapped_calls h a0 a1 a2 Hm) as (Hbuf & Hgtod & Hfstat & Htime).
    split_and!; intros Hn; intros; apply (failed_call h w n a0 a1 a2 _ _ Hw);
      [by apply Hbuf|subst n..]; [done|by apply Hfstat|by apply Htime].
Qed.
End core_call.
End theorems.

(** ** A witness: a host without files, and calls of the sample hart *)

#[local] Instance witness_builder : ExprBuilder := solver_builder.
#[local] Instance witness_solver : KleeSolver := search_solver [].
#[local] Instance witness_env : Env ram := ram_env.
#[local] Instance no_files : HostOS (list Z) := {|
  os_fstat _ o := (-1, mkStat 0 0 0 0 0 0 0 0 0 0 (0, 0) (0, 0) (0, 0), o);
  os_gettimeofday o := (0, (100, 5), o); os_time o := (100, o);
  os_write _ bs o := (Z.of_nat (length bs), o ++ bs); os_read _ n o := (2, [7; 8], o);
  os_lseek _ _ _ o := (-1, o); os_open _ _ _ o := (-1, o); os_close _ o := (-1, o) |}.
Definition call_world (n a0 a1 a2 : Z) : World ram :=
  let value i := if i =? 17 then n else if i =? 10 then a0 else if i =? 11 then a1 else if i =? 12 then a2 else 0 in
  mkWorld (set_regs (fun i => Concolic (EConstant (AP 32 (value i))) None) sample_core) Trace_new (mkRam mem_empty).
Definition five_bytes : SyscallHandler (list Z) := syscalls_init (Some (fun i => 65 + i)) 0x1000 0x2000 [].
Definition no_pointer : SyscallHandler (list Z) := syscalls_init None 0 0x80002000 [].
Ltac calls := split; [vm_compute; reflexivity|]; cbn zeta; split_and!; [vm_compute; reflexivity|by eexists; vm_compute|vm_compute; reflexivity..].
Lemma system_calls_witness :
  execute_syscall SYS_write 1 0x1002 3 five_bytes = (Ok 3, put_os [67; 68; 69] five_bytes) /\
  execute_core_syscall (five_bytes, call_world SYS_close 5 0 0) = (Err AssertionFailed, (five_bytes, call_world SYS_close 5 0 0)) /\
  execute_syscall SYS_brk 0 0 0 no_pointer = (Err (OtherException bad_lexical_cast), no_pointer) /\
  execute_core_syscall (no_pointer, call_world SYS_write 1 0x80001000 3) = (Err AssertionFailed, (no_pointer, call_world SYS_write 1 0x80001000 3)).
Proof.
  split_and!.
  - destruct (system_calls five_bytes (call_world SYS_write 1 0x1002 3) SYS_write 1 0x1002 3) as (_ & _ & _ & Hw & _); [calls|lia|].
    rewrite (Hw _ eq_refl eq_refl). vm_compute. reflexivity.
  - destruct (system_calls five_bytes (call_world SYS_close 5 0 0) SYS_close 5 0 0) as (_ & _ & _ & _ & _ & Hn & _); [calls|lia|].
    by apply (Hn (-1)).
  - destruct (system_calls no_pointer (call_world SYS_brk 0 0 0) SYS_brk 0 0 0) as (_ & _ & Hb & _); [calls|lia|].
    rewrite (Hb eq_refl). vm_compute. reflexivity.
  - destruct (system_calls no_pointer (call_world SYS_write 1 0x80001000 3) SYS_write 1 0x80001000 3) as (_ & _ & _ & _ & _ & _ & Hm); [calls|lia|].
    apply (proj1 (Hm eq_refl)). by left.
Defined.
