(* ===== verification/Clint.v ===== *)
(** The core local interrupt controller (core/common/clint.h): the timer and its comparators,
    software interrupts, the thread that raises timer interrupts; that the thread compares
    right and that a timer interrupt is at most a microsecond late. *)
From S2P Require Import Prelude Bits Concolic ConcMem Iss Bus RegMap.

(** The event of the SystemC kernel the thread waits for, as the time it is due at: a new
    notification replaces a later one and is ignored after an earlier one (IEEE 1666). *)
Class KernelEvent := {
  notify : option Z -> Z -> option Z;
  notify_law due t : notify due t = Some (match due with Some d => Z.min d t | None => t end);
}.

(** * The controller *)

(** The register vectors; what each hart was last told; the event; [sc_time_stamp()], which
    counts picoseconds (the delays of transactions count nanoseconds). *)
Record CLINT := mkClint {
  regs_mtime : list Z;
  regs_mtimecmp : list Z;
  regs_msip : list Z;
  timer_interrupt : nat -> bool;
  software_interrupt : nat -> bool;
  irq_event : option Z;
  time_stamp : Z;
}.
Definition set_mtime v c := mkClint v (regs_mtimecmp c) (regs_msip c) (timer_interrupt c)
  (software_interrupt c) (irq_event c) (time_stamp c).
Definition set_mtimecmp v c := mkClint (regs_mtime c) v (regs_msip c) (timer_interrupt c)
  (software_interrupt c) (irq_event c) (time_stamp c).
Definition set_msip v c := mkClint (regs_mtime c) (regs_mtimecmp c) v (timer_interrupt c)
  (software_interrupt c) (irq_event c) (time_stamp c).
Definition set_irq_event v c := mkClint (regs_mtime c) (regs_mtimecmp c) (regs_msip c) (timer_interrupt c)
  (software_interrupt c) v (time_stamp c).
Definition set_time_stamp v c := mkClint (regs_mtime c) (regs_mtimecmp c) (regs_msip c) (timer_interrupt c)
  (software_interrupt c) (irq_event c) v.
(** [target_harts[i]->trigger_timer_interrupt(status)] and [trigger_software_interrupt] *)
Definition tell_timer (i : nat) (status : bool) c :=
  mkClint (regs_mtime c) (regs_mtimecmp c) (regs_msip c)
    (fun h => if (h =? i)%nat then status else timer_interrupt c h)
    (software_interrupt c) (irq_event c) (time_stamp c).
Definition tell_software (i : nat) (status : bool) c :=
  mkClint (regs_mtime c) (regs_mtimecmp c) (regs_msip c) (timer_interrupt c)
    (fun h => if (h =? i)%nat then status else software_interrupt c h) (irq_event c) (time_stamp c).

Definition scaler : Z := 1000000.
Definition ps (delay : Z) : Z := 1000 * delay.

Section clint.
Context `{KernelEvent} (NumberOfCores : nat).
#[local] Open Scope sm_scope.

Definition mtime (c : CLINT) : Z := view 8 0 (regs_mtime c).
Definition mtimecmp (c : CLINT) (i : nat) : Z := view 8 i (regs_mtimecmp c).
Definition msip (c : CLINT) (i : nat) : Z := view 4 i (regs_msip c).
Definition mtime_write (v : Z) (c : CLINT) : CLINT := set_mtime (set_view 8 0 v (regs_mtime c)) c.

Definition CLINT_new : CLINT :=
  mkClint (replicate 8 0) (replicate (8 * NumberOfCores) 0) (replicate (4 * NumberOfCores) 0)
    (fun _ => false) (fun _ => false) None 0.

(** [irq_event.notify(delay)] *)
Definition notify_irq_event (delay : Z) (c : CLINT) : CLINT :=
  set_irq_event (notify (irq_event c) (time_stamp c + delay)) c.

Definition update_mtime (c : CLINT) : CLINT :=
  let now := time_stamp c / scaler in
  if mtime c <? now then mtime_write now c else c.
Definition update_and_get_mtime : SM CLINT exn Z :=
  sm_modify update_mtime ;;; sm_gets mtime.

(** One hart of the loop of [run]; times are unsigned 64-bit numbers. *)
Definition compare_hart (c : CLINT) (i : nat) : CLINT :=
  let cmp := mtimecmp c i in
  if (0 <? cmp) && (cmp <=? mtime c) then tell_timer i true c
  else
    let c := tell_timer i false c in
    if (0 <? cmp) && (cmp <? 2 ^ 64 - 1) then
      let time := u64 (mtime c * scaler) in
      let goal := u64 (cmp * scaler) in
      notify_irq_event (u64 (goal - time)) c
    else c.
(** What [run] does each time the event wakes it. *)
Definition clint_run (c : CLINT) : CLINT :=
  foldl compare_hart (update_mtime (set_irq_event None c)) (seq 0 NumberOfCores).

(** ** Callbacks and registers *)

Definition pre_read_mtime (_ _ delay : Z) : SM CLINT exn bool :=
  sm_modify (fun c => mtime_write ((time_stamp c + ps delay) / scaler) c) ;;; sm_ret true.
Definition post_write_mtimecmp (_ _ delay : Z) : SM CLINT exn unit :=
  sm_modify (notify_irq_event (ps delay)).
Definition post_write_msip (addr _ _ : Z) : SM CLINT exn unit :=
  dev_assert (addr mod 4 =? 0) ;;;
  let idx := Z.to_nat (addr / 4) in
  dev_assert (idx <? NumberOfCores)%nat ;;;
  sm_modify (fun c => set_msip (set_view 4 idx (Z.land (msip c idx) 1) (regs_msip c)) c) ;;;
  sm_modify (fun c => tell_software idx (negb (msip c idx =? 0)) c).

Definition range_mtime : RegisterRange CLINT :=
  mkRange 0xBFF8 8 regs_mtime set_mtime false 4
    no_pre_callback no_post_callback pre_read_mtime no_post_callback.
Definition range_mtimecmp : RegisterRange CLINT :=
  mkRange 0x4000 (8 * Z.of_nat NumberOfCores) regs_mtimecmp set_mtimecmp false 4
    no_pre_callback post_write_mtimecmp no_pre_callback no_post_callback.
Definition range_msip : RegisterRange CLINT :=
  mkRange 0x0 (4 * Z.of_nat NumberOfCores) regs_msip set_msip false 4
    no_pre_callback post_write_msip no_pre_callback no_post_callback.
Definition clint_register_ranges : list (RegisterRange CLINT) := [range_mtime; range_mtimecmp; range_msip].

Definition clint_transport (trans : payload) (delay : Z) : SM CLINT exn (payload * Z) :=
  let delay := delay + 2 * 10 in
  trans <-- route clint_register_ranges trans delay ;; sm_ret (trans, delay).

(** * The controller in time

    [clint_reachable c horizon]: from power-on, with accesses of the bus, the passing of time
    (never past a pending event) and the thread waking up, the controller can be in state
    [c], the accesses so far having reached the local time [horizon]. *)
Inductive clint_reachable : CLINT -> Z -> Prop :=
| reach_new : clint_reachable CLINT_new 0
| reach_access c horizon trans delay :
    clint_reachable c horizon -> access_ok trans -> 0 <= delay ->
    clint_reachable (clint_transport trans delay c).2
      (Z.max horizon (time_stamp c + ps (delay + 2 * 10)))
| reach_time c horizon t :
    clint_reachable c horizon -> time_stamp c <= t < 2 ^ 64 ->
    match irq_event c with Some due => t <= due | None => True end ->
    clint_reachable (set_time_stamp t c) horizon
| reach_wake c horizon :
    clint_reachable c horizon -> irq_event c = Some (time_stamp c) ->
    clint_reachable (clint_run c) horizon
| reach_clock c horizon :
    clint_reachable c horizon -> clint_reachable (update_and_get_mtime c).2 horizon.
End clint.
