(* ===== verification/ClintSpec.v ===== *)
(** What the interrupt controller of the core promises: the timer lines are what the
    comparators say whenever the thread has run, and in every reachable state a timer
    interrupt is at most a microsecond late. *)
From S2P Require Import Prelude Bits Concolic ConcMem Iss Bus RegMap Clint.

Section spec.
Context `{KernelEvent} (NumberOfCores : nat) (cores_ok : (0 < NumberOfCores < 4096)%nat).
#[local] Open Scope sm_scope.

Definition vectors_ok (c : CLINT) : Prop :=
  (Forall byte_ok (regs_mtime c) /\ length (regs_mtime c) = 8%nat) /\
  (Forall byte_ok (regs_mtimecmp c) /\ length (regs_mtimecmp c) = (8 * NumberOfCores)%nat) /\
  (Forall byte_ok (regs_msip c) /\ length (regs_msip c) = (4 * NumberOfCores)%nat).

(** The time by which a comparator with this value has to be honoured: the end of its
    microsecond, unless the accesses of the bus are ahead of the simulated time. *)
Definition deadline (horizon cmp : Z) : Z := Z.max horizon ((cmp + 1) * scaler - 1).
Definition due_by (t : Z) (c : CLINT) : Prop := exists due, irq_event c = Some due /\ due <= t.

(** The comparators below [k] are honoured or the thread wakes up in time. *)
Definition served_below (k : nat) (horizon : Z) (c : CLINT) : Prop :=
  forall i, (i < k)%nat -> 0 < mtimecmp c i -> (mtimecmp c i + 1) * scaler <= 2 ^ 64 ->
    timer_interrupt c i = true \/ due_by (deadline horizon (mtimecmp c i)) c.
Definition time_ok (c : CLINT) : Prop :=
  0 <= time_stamp c < 2 ^ 64 /\ forall due, irq_event c = Some due -> time_stamp c <= due.
Definition clint_inv (horizon : Z) (c : CLINT) : Prop :=
  vectors_ok c /\ time_ok c /\ served_below NumberOfCores horizon c.

(** ** The event *)

Lemma notify_due c delay t : due_by t c \/ time_stamp c + delay <= t -> due_by t (notify_irq_event delay c).
Proof.
  intros Ht. unfold due_by, notify_irq_event. cbn [irq_event set_irq_event]. rewrite notify_law.
  eexists. split; [done|]. destruct Ht as [(due & -> & Hd)|Ht]; [lia|].
  destruct (irq_event c); lia.
Qed.
Lemma notify_time_ok c delay : 0 <= delay -> time_ok c -> time_ok (notify_irq_event delay c).
Proof.
  intros Hd [Ht He]. split; [done|]. unfold notify_irq_event. cbn [irq_event set_irq_event time_stamp].
  rewrite notify_law. intros due [= <-]. destruct (irq_event c) as [d|]; [specialize (He d eq_refl)|]; lia.
Qed.

(** ** The thread *)

Lemma update_mtime_spec c : vectors_ok c -> time_ok c ->
  vectors_ok (update_mtime c) /\ mtime (update_mtime c) = Z.max (mtime c) (time_stamp c / scaler) /\
  regs_mtimecmp (update_mtime c) = regs_mtimecmp c /\ time_stamp (update_mtime c) = time_stamp c /\
  timer_interrupt (update_mtime c) = timer_interrupt c /\ irq_event (update_mtime c) = irq_event c.
Proof.
  intros Hv [Ht _]. unfold update_mtime. destruct (Z.ltb_spec (mtime c) (time_stamp c / scaler)) as [Hlt|Hge].
  - destruct Hv as ((Hb & Hl) & Hv). split; [|split; [|done]].
    + split; [|done]. cbn [regs_mtime mtime_write set_mtime]. split; [by apply set_view_ok|].
      rewrite length_set_view; lia.
    + unfold mtime, mtime_write. cbn [regs_mtime set_mtime]. rewrite view_set_same by lia.
      change (8 * Z.of_nat 8) with 64. unfold mtime in Hlt. pose proof (view_bound 8 0 _ Hb).
      assert (time_stamp c / scaler <= time_stamp c) by (unfold scaler; apply Z.div_le_upper_bound; lia).
      rewrite wrap_small by lia. lia.
  - split; [done|]. split; [lia|done].
Qed.

(** The state of the loop after the harts below [k]. *)
Definition compared (c0 : CLINT) (k : nat) (c : CLINT) : Prop :=
  regs_mtime c = regs_mtime c0 /\ regs_mtimecmp c = regs_mtimecmp c0 /\ regs_msip c = regs_msip c0 /\
  time_stamp c = time_stamp c0 /\ time_ok c /\
  forall i, (i < k)%nat ->
    timer_interrupt c i = (0 <? mtimecmp c0 i) && (mtimecmp c0 i <=? mtime c0) /\
    (mtime c0 < mtimecmp c0 i -> (mtimecmp c0 i + 1) * scaler <= 2 ^ 64 ->
       due_by ((mtimecmp c0 i + 1) * scaler - 1) c).

Lemma compare_hart_spec c0 k c : vectors_ok c0 -> time_stamp c0 / scaler <= mtime c0 ->
  compared c0 k c -> compared c0 (S k) (compare_hart c k).
Proof.
  intros Hv Hm (H1 & H2 & H3 & H4 & Ht & Hi).
  assert (mtime c = mtime c0) as Em by (unfold mtime; by rewrite H1).
  assert (mtimecmp c k = mtimecmp c0 k) as Ec by (unfold mtimecmp; by rewrite H2).
  assert (0 <= mtime c0) as Hm0 by (apply (view_bound 8 0 (regs_mtime c0)), Hv).
  assert (forall b c', timer_interrupt c' = timer_interrupt (tell_timer k b c) -> forall i, (i < k)%nat ->
    timer_interrupt c' i = (0 <? mtimecmp c0 i) && (mtimecmp c0 i <=? mtime c0)) as Hold.
  { intros b c' -> i Hlt. cbn. destruct (Nat.eqb_spec i k); [lia|]. by apply Hi. }
  unfold compare_hart. cbv zeta. rewrite Em, Ec.
  destruct ((0 <? mtimecmp c0 k) && (mtimecmp c0 k <=? mtime c0)) eqn:Hb.
  - do 5 (split; [done|]). intros i Hlt. destruct (decide (i = k)) as [->|Hne].
    + cbn [timer_interrupt tell_timer]. rewrite Nat.eqb_refl, Hb. split; [done|]. lia.
    + split; [apply (Hold true); [done|lia]|]. apply Hi. lia.
  - set (c1 := tell_timer k false c). destruct ((0 <? mtimecmp c0 k) && (mtimecmp c0 k <? 2 ^ 64 - 1)) eqn:Hn.
    + match goal with |- context [notify_irq_event ?d _] => set (delay := d) end. assert (0 <= delay) by (apply (wrap_range 64); lia).
      do 4 (split; [done|]). split; [by apply notify_time_ok|]. intros i Hlt.
      destruct (decide (i = k)) as [->|Hne].
      * split; [cbn [timer_interrupt tell_timer notify_irq_event set_irq_event c1]; by rewrite Nat.eqb_refl, Hb|]. intros Hgt Hfit. apply notify_due. right.
        unfold delay. change (mtime c1) with (mtime c). rewrite Em. unfold scaler in *.
        rewrite (wrap_small 64 (mtimecmp c0 k * _)), (wrap_small 64 (mtime c0 * _)), wrap_small by lia.
        cbn [time_stamp c1 tell_timer]. rewrite H4.
        pose proof (Z.div_mod (time_stamp c0) 1000000 ltac:(lia)).
        pose proof (Z.mod_pos_bound (time_stamp c0) 1000000 ltac:(lia)). lia.
      * split; [apply (Hold false); [done|lia]|]. intros Hgt Hfit. apply notify_due. left.
        apply Hi; [lia|done|done].
    + do 5 (split; [done|]). intros i Hlt. destruct (decide (i = k)) as [->|Hne].
      * cbn [timer_interrupt tell_timer c1]. rewrite Nat.eqb_refl, Hb. split; [done|]. unfold scaler. lia.
      * split; [apply (Hold false); [done|lia]|]. apply Hi. lia.
Qed.

Lemma clint_run_spec c : vectors_ok c -> time_ok c ->
  let c0 := update_mtime (set_irq_event None c) in
  vectors_ok c0 /\ mtime c0 = Z.max (mtime c) (time_stamp c / scaler) /\
  regs_mtimecmp c0 = regs_mtimecmp c /\ compared c0 NumberOfCores (clint_run NumberOfCores c).
Proof.
  intros Hv [Ht _] c0.
  destruct (update_mtime_spec (set_irq_event None c)) as (Hv0 & Hm0 & Hc0 & Ht0 & _ & He0); [done|by split|].
  fold c0 in Hv0, Hm0, Hc0, Ht0, He0. cbn [time_stamp set_irq_event] in *.
  split; [done|]. split; [exact Hm0|]. split; [exact Hc0|]. unfold clint_run. fold c0.
  assert (forall n a c', compared c0 a c' -> compared c0 (a + n) (foldl compare_hart c' (seq a n))) as Hloop.
  { induction n as [|n IH]; intros a c' Hc'; [by rewrite Nat.add_0_r|]. cbn [seq foldl].
    rewrite Nat.add_succ_r. apply (IH (S a)). apply compare_hart_spec; [done| |done]. rewrite Hm0, Ht0. lia. }
  apply (Hloop NumberOfCores 0%nat c0). repeat (split; [done|]). split; [|lia].
  split; [by rewrite Ht0|]. rewrite He0. done.
Qed.

(** ** Accesses *)

Lemma served_mono k h h' c : h <= h' -> served_below k h c -> served_below k h' c.
Proof.
  intros Hle Hs i Hi Hpos Hfit. destruct (Hs i Hi Hpos Hfit) as [|(due & He & Hd)]; [by left|].
  right. exists due. split; [done|]. unfold deadline in *. lia.
Qed.

Section access.
Context (h ts delay : Z) (delay_pos : 0 <= delay) (in_time : ts + ps delay <= h).

Definition at_time (c : CLINT) : Prop := clint_inv h c /\ time_stamp c = ts.

Lemma vector_written n (mem : list Z) off src : Forall byte_ok mem -> length mem = n -> Forall byte_ok src ->
  (off + length src <= n)%nat -> Forall byte_ok (splice off src mem) /\ length (splice off src mem) = n.
Proof. intros Hm Hl Hs Ho. split; [by apply splice_ok|]. rewrite length_splice; lia. Qed.
Lemma mtime_changed c mem : Forall byte_ok mem -> length mem = 8%nat -> at_time c -> at_time (set_mtime mem c).
Proof. intros Hb Hl (((_ & Hv) & Ht & Hs) & He). split; [|done]. split; [|by split]. by split. Qed.
Lemma msip_changed c mem : Forall byte_ok mem -> length mem = (4 * NumberOfCores)%nat -> at_time c ->
  at_time (set_msip mem c).
Proof.
  intros Hb Hl (((H1 & H2 & _) & Ht & Hs) & He). split; [|done]. split; [|by split].
  split; [done|]. by split.
Qed.
(** Whatever is written to a comparator, the thread is notified. *)
Lemma mtimecmp_changed c mem : Forall byte_ok mem -> length mem = (8 * NumberOfCores)%nat -> at_time c ->
  at_time (notify_irq_event (ps delay) (set_mtimecmp mem c)).
Proof.
  intros Hb Hl (((H1 & _ & H3) & Ht & _) & He). split; [|done]. split; [|split].
  - split; [done|]. by split.
  - apply notify_time_ok; [unfold ps; lia|done].
  - intros i Hi Hpos Hfit. right. apply notify_due. right. cbn [time_stamp set_mtimecmp].
    rewrite He. unfold deadline. lia.
Qed.

Lemma msip_callback addr size d : keeps at_time (post_write_msip NumberOfCores addr size d).
Proof.
  unfold post_write_msip. keeps_step; [apply dev_assert_keeps|].
  destruct (Nat.ltb_spec (Z.to_nat (addr / 4)) NumberOfCores) as [Hi|]; cbn [dev_assert];
    [|by intros c Hc].
  keeps_step; [apply keeps_ret|]. keeps_step; [|by apply keeps_modify].
  apply keeps_modify. intros c Hc. apply msip_changed; [apply set_view_ok, Hc| |done]. pose proof Hc as ((Hv & _) & _).
  destruct Hv as (_ & _ & _ & Hl). rewrite length_set_view; lia.
Qed.

Lemma clint_ranges_sized : Forall (fun r => sized at_time r) (clint_register_ranges NumberOfCores).
Proof.
  repeat constructor; cbn; try lia; intros c ((((_ & H1) & (_ & H2) & (_ & H3)) & _) & _); lia.
Qed.

Lemma clint_route_keeps trans : access_ok trans ->
  keeps at_time (route (clint_register_ranges NumberOfCores) trans delay).
Proof.
  intros [Hb Hl]. apply route_keeps. pose proof clint_ranges_sized as Hs.
  unfold clint_register_ranges in *. rewrite !Forall_cons in Hs. destruct Hs as (H1 & H2 & H3 & _).
  rewrite !Forall_cons. split_and!; [..|done]; apply process_keeps; try (intros; apply keeps_ret);
    [intros a n| | |]; [|intros _; (apply rr_write_keeps; [done|done|intros; apply keeps_ret|])..].
  - unfold range_mtime; cbn [pre_read_callback]. unfold pre_read_mtime. keeps_step; [|apply keeps_ret].
    apply keeps_modify. intros c Hc. pose proof Hc as ((((Hm & Hlm) & _) & _) & _).
    apply mtime_changed; [by apply set_view_ok|rewrite length_set_view; lia|done].
  - intros off c Hc Ho. pose proof Hc as ((((Hm & Hlm) & _) & _) & _). cbn [rr_mem range_mtime] in *.
    apply mtime_changed; [by apply splice_ok|rewrite length_splice; lia|done].
  - intros off c Hc Ho. pose proof Hc as (((_ & (Hm & Hlm) & _) & _) & _). cbn [rr_mem range_mtimecmp] in *.
    apply mtimecmp_changed; [by apply splice_ok|rewrite length_splice; lia|done].
  - intros off c Hc Ho. pose proof Hc as (((_ & _ & (Hm & Hlm)) & _) & _).
    cbn [rr_mem rr_put range_msip post_write_callback] in *.
    assert (at_time (set_msip (splice off (data_ptr trans) (regs_msip c)) c)) as Hc'
      by (apply msip_changed; [by apply splice_ok|rewrite length_splice; lia|done]).
    pose proof (msip_callback (Z.of_nat off) (Z.of_nat (length (data_ptr trans))) delay _ Hc') as Hk.
    by destruct (post_write_msip _ _ _ _ _) as [[?|?] ?].
Qed.
End access.

(** ** The invariant *)

Lemma reachable_inv c horizon : clint_reachable NumberOfCores c horizon -> clint_inv horizon c.
Proof.
  induction 1 as [|c h trans delay _ IH Ht Hd|c h t _ IH Ht Hdue|c h _ IH Hdue|c h _ IH].
  - split; [|split; [done|]].
    + unfold vectors_ok. cbn [CLINT_new regs_mtime regs_mtimecmp regs_msip]. rewrite !length_replicate. split_and!; try done; apply Forall_replicate; by unfold byte_ok.
    + intros i Hi Hpos. assert (mtimecmp (CLINT_new NumberOfCores) i = 0) as Hz; [|lia].
      unfold mtimecmp, view. cbn [CLINT_new regs_mtimecmp]. rewrite drop_replicate, take_replicate.
      induction (_ `min` _)%nat as [|n IHn]; [done|]. cbn. by rewrite IHn.
  - set (h' := Z.max h _). unfold clint_transport.
    pose proof (clint_route_keeps h' (time_stamp c) (delay + 2 * 10) ltac:(lia) ltac:(unfold h'; lia) trans Ht c) as Hk.
    assert (at_time h' (time_stamp c) c) as Hc.
    { split; [|done]. destruct IH as (Hv & Hti & Hs). split; [done|]. split; [done|].
      eapply served_mono; [|exact Hs]. unfold h'. lia. }
    specialize (Hk Hc). unfold sm_bind. by destruct (route _ _ _ c) as [[?|?] ?]; destruct Hk.
  - destruct IH as (Hv & [Ht0 He] & Hs). split; [done|]. split; [|done]. split; [cbn; lia|].
    cbn [irq_event set_time_stamp time_stamp]. intros due Hd. by rewrite Hd in Hdue.
  - destruct IH as (Hv & Ht & _). pose proof (clint_run_spec c Hv Ht) as (Hv0 & _ & _ & H1 & H2 & H3 & _ & Ht' & Hi).
    split; [unfold vectors_ok; by rewrite H1, H2, H3|]. split; [done|]. intros i Hlt Hpos Hfit.
    destruct (Hi i Hlt) as [Hl Hn]. assert (mtimecmp (clint_run NumberOfCores c) i =
      mtimecmp (update_mtime (set_irq_event None c)) i) as He by (unfold mtimecmp; by rewrite H2).
    rewrite He in *. destruct (Z.leb_spec (mtimecmp (update_mtime (set_irq_event None c)) i)
      (mtime (update_mtime (set_irq_event None c)))) as [Hle|Hgt]; [left|right].
    + rewrite Hl. destruct (Z.ltb_spec 0 (mtimecmp (update_mtime (set_irq_event None c)) i)); [|lia].
      by destruct (Z.leb_spec (mtimecmp (update_mtime (set_irq_event None c)) i) (mtime (update_mtime (set_irq_event None c)))); [|lia].
    + destruct (Hn Hgt Hfit) as (due & Hd & Hdue'). exists due. split; [done|]. unfold deadline. lia.
  - destruct IH as (Hv & Ht & Hs). cbn [update_and_get_mtime sm_bind sm_modify sm_gets snd].
    change ((update_and_get_mtime c).2) with (update_mtime c).
    destruct (update_mtime_spec c Hv Ht) as (Hv' & _ & Hc & Hts & Htm & He). split; [done|].
    split; [by unfold time_ok; rewrite Hts, He|]. intros i. unfold mtimecmp, due_by. rewrite Hc, Htm, He. apply Hs.
Qed.
End spec.

(** * The properties *)

(** When the thread has run, the timer interrupt line of every hart is set exactly if its
    comparator is not zero and the timer has reached it; the timer is at least the simulated
    time in microseconds and did not go back. *)
Theorem clint_compares `{KernelEvent} n c : (0 < n < 4096)%nat -> vectors_ok n c -> time_ok c ->
  let c' := clint_run n c in
  mtime c' = Z.max (mtime c) (time_stamp c / scaler) /\ regs_mtimecmp c' = regs_mtimecmp c /\
  forall i, (i < n)%nat -> timer_interrupt c' i = (0 <? mtimecmp c i) && (mtimecmp c i <=? mtime c').
Proof.
  intros Hn Hv Ht c'. pose proof (clint_run_spec n Hn c Hv Ht) as (_ & Hm & Hc & H1 & H2 & _ & _ & _ & Hi).
  assert (mtime c' = mtime (update_mtime (set_irq_event None c))) as Em by (unfold mtime, c'; by rewrite H1).
  split; [by rewrite Em|]. split; [unfold c'; by rewrite H2|]. intros i Hlt. destruct (Hi i Hlt) as [Ht' _].
  unfold c' in *. rewrite Ht', Em. unfold mtimecmp. by rewrite Hc.
Qed.

(** C33 A timer interrupt comes: in every state the controller can reach, once the simulated time
    is past the microsecond a hart's comparator names (and past the local time of the
    accesses made so far), the timer interrupt line of the hart is set.  The comparator has
    to be small enough for its time to be a 64-bit number of picoseconds. *)
Theorem clint_deadline `{KernelEvent} n c horizon i : (0 < n < 4096)%nat ->
  clint_reachable n c horizon -> (i < n)%nat ->
  0 < mtimecmp c i -> (mtimecmp c i + 1) * scaler <= 2 ^ 64 ->
  horizon < time_stamp c -> (mtimecmp c i + 1) * scaler <= time_stamp c ->
  timer_interrupt c i = true.
Proof.
  intros Hn Hr Hi Hpos Hfit Hh Ht. destruct (reachable_inv n Hn c horizon Hr) as (_ & [_ Hev] & Hs).
  destruct (Hs i Hi Hpos Hfit) as [|(due & Hd & Hdue)]; [done|]. specialize (Hev due Hd).
  unfold deadline in Hdue. lia.
Qed.

(** ** Witnesses *)

#[local] Instance earliest_event : KernelEvent := {|
  notify due t := Some (match due with Some d => Z.min d t | None => t end);
  notify_law due t := eq_refl |}.

(** The comparator of the only hart is set to two microseconds and the time passes. *)
Definition set_comparator : payload := mkPayload TLM_WRITE_COMMAND 0x4000 (le_bytes 8 2) None TLM_OK_RESPONSE.
Definition armed_clint : CLINT := (clint_transport 1 set_comparator 0 (CLINT_new 1)).2.
Definition armed_awake : CLINT := clint_run 1 (set_time_stamp 20000 armed_clint).
Definition fired_clint : CLINT := clint_run 1 (set_time_stamp 2020000 armed_awake).

Lemma set_comparator_ok : access_ok set_comparator.
Proof. split; [|done]. by apply le_bytes_ok. Qed.

Lemma clint_compares_witness : mtime fired_clint = 2 /\ timer_interrupt fired_clint 0 = true.
Proof.
  destruct (clint_compares 1 (set_time_stamp 2020000 armed_awake)) as (Hm & _ & Hi); [lia|..].
  - split_and!; try (vm_compute; reflexivity);
      [apply (le_bytes_ok 8 0)|apply (le_bytes_ok 8 2)|apply (le_bytes_ok 4 0)].
  - split; [vm_compute; split; [discriminate|reflexivity]|]. intros due [= <-]. vm_compute. discriminate.
  - split; [exact Hm|]. etransitivity; [exact (Hi 0%nat ltac:(lia))|]. vm_compute. reflexivity.
Defined.

Lemma clint_deadline_witness : timer_interrupt (set_time_stamp 3000000 fired_clint) 0 = true.
Proof.
  apply (clint_deadline 1 _ 20000 0); [lia| |lia|vm_compute; reflexivity|vm_compute; discriminate|
    vm_compute; reflexivity|vm_compute; discriminate].
  assert (clint_reachable 1 armed_clint 20000) as Ha
    by exact (reach_access 1 _ _ set_comparator 0 (reach_new 1) set_comparator_ok ltac:(lia)).
  assert (clint_reachable 1 armed_awake 20000) as Hw
    by (apply reach_wake; [apply (reach_time 1 armed_clint); [exact Ha|vm_compute; split; [discriminate|reflexivity]|
      vm_compute; discriminate]|vm_compute; reflexivity]).
  apply reach_time; [|vm_compute; split; [discriminate|reflexivity]|vm_compute; exact I].
  apply reach_wake; [apply (reach_time 1 armed_awake); [exact Hw|vm_compute; split; [discriminate|reflexivity]|
    vm_compute; discriminate]|vm_compute; reflexivity].
Defined.
