(* ===== verification/Uart.v ===== *)
(** The UART (platform/common/abstract_uart.cpp): its registers and queues, and the three
    threads that work on it: the simulation, which accesses the registers, the transmitter
    and the receiver, synchronised by two mutexes and two counting semaphores. *)
From S2P Require Import Prelude Bits Concolic ConcMem Iss Bus RegMap TlmMap.

Definition UART_TXWM : Z := 1.
Definition UART_RXWM : Z := 2.
Definition UART_FULL : Z := Z.shiftl 1 31.
Definition UART_FIFO_DEPTH : Z := 8.
Definition UART_CTRL_CNT (reg : Z) : Z := Z.shiftr reg 16.

Inductive uart_reg := txdata | rxdata | txctrl | rxctrl | ie | ip | div.
#[export] Instance uart_reg_eq_dec : EqDecision uart_reg.
Proof. solve_decision. Defined.

(** Where the transmitter ([transmit]) and the receiver ([rxpush], called for each of the
    bytes of one [handle_input]) stand: before the semaphore, past it, and for the
    transmitter with the byte it is about to hand to [write_data]. *)
Inductive transmit_pc := TxWait | TxPop | TxWrite (data : Z).
Inductive receive_pc := RxPoll | RxWait (data : Z) (rest : list Z) | RxPush (data : Z) (rest : list Z).

(** [tx_post] says that the simulation has pushed a byte and not yet posted [txfull];
    [async_event] that [asyncEvent] is notified; [irqs] counts the interrupts raised at the
    interrupt controller. *)
Record UART := mkUart {
  uart_regs : uart_reg -> Z;
  tx_fifo : list Z;
  rx_fifo : list Z;
  txfull : Z;
  rxempty : Z;
  tx_post : bool;
  tx_pc : transmit_pc;
  rx_pc : receive_pc;
  async_event : bool;
  irqs : nat;
}.
Definition set_uart_regs v u := mkUart v (tx_fifo u) (rx_fifo u) (txfull u) (rxempty u) (tx_post u) (tx_pc u) (rx_pc u) (async_event u) (irqs u).
Definition set_tx_fifo v u := mkUart (uart_regs u) v (rx_fifo u) (txfull u) (rxempty u) (tx_post u) (tx_pc u) (rx_pc u) (async_event u) (irqs u).
Definition set_rx_fifo v u := mkUart (uart_regs u) (tx_fifo u) v (txfull u) (rxempty u) (tx_post u) (tx_pc u) (rx_pc u) (async_event u) (irqs u).
Definition set_txfull v u := mkUart (uart_regs u) (tx_fifo u) (rx_fifo u) v (rxempty u) (tx_post u) (tx_pc u) (rx_pc u) (async_event u) (irqs u).
Definition set_rxempty v u := mkUart (uart_regs u) (tx_fifo u) (rx_fifo u) (txfull u) v (tx_post u) (tx_pc u) (rx_pc u) (async_event u) (irqs u).
Definition set_tx_post v u := mkUart (uart_regs u) (tx_fifo u) (rx_fifo u) (txfull u) (rxempty u) v (tx_pc u) (rx_pc u) (async_event u) (irqs u).
Definition set_tx_pc v u := mkUart (uart_regs u) (tx_fifo u) (rx_fifo u) (txfull u) (rxempty u) (tx_post u) v (rx_pc u) (async_event u) (irqs u).
Definition set_rx_pc v u := mkUart (uart_regs u) (tx_fifo u) (rx_fifo u) (txfull u) (rxempty u) (tx_post u) (tx_pc u) v (async_event u) (irqs u).
Definition set_async_event v u := mkUart (uart_regs u) (tx_fifo u) (rx_fifo u) (txfull u) (rxempty u) (tx_post u) (tx_pc u) (rx_pc u) v (irqs u).
Definition set_irqs v u := mkUart (uart_regs u) (tx_fifo u) (rx_fifo u) (txfull u) (rxempty u) (tx_post u) (tx_pc u) (rx_pc u) (async_event u) v.

#[export] Instance uart_registers : Registers UART uart_reg := {|
  reg_value r u := uart_regs u r;
  reg_assign r v u := set_uart_regs (fun k => if decide (k = r) then v else uart_regs u k) u;
|}.

(** The constructor, with the threads started. *)
Definition UART_new : UART :=
  mkUart (fun _ => 0) [] [] 0 UART_FIFO_DEPTH false TxWait RxPoll false 0.
Definition uart_bank : list (reg_mapping_t uart_reg) :=
  [reg_new 0x0 txdata; reg_new 0x4 rxdata; reg_new 0x8 txctrl; reg_new 0xC rxctrl;
   reg_new 0x10 ie; reg_new 0x14 ip; reg_new 0x18 div].

Section uart.
#[local] Open Scope sm_scope.

Definition fifo_size (q : list Z) : Z := Z.of_nat (length q).

(** ** The simulation thread *)

(** The watermark bits: computed by a read of [ip], and tested by [interrupt]. *)
Definition tx_watermark (u : UART) : bool := fifo_size (tx_fifo u) <? UART_CTRL_CNT (uart_regs u txctrl).
Definition rx_watermark (u : UART) : bool := UART_CTRL_CNT (uart_regs u rxctrl) <? fifo_size (rx_fifo u).

Definition refresh_register (r : uart_reg) (u : UART) : UART :=
  match r with
  | txdata => reg_assign txdata (if UART_FIFO_DEPTH <=? fifo_size (tx_fifo u) then UART_FULL else 0) u
  | rxdata =>
      match rx_fifo u with
      | [] => reg_assign rxdata (Z.shiftl 1 31) u
      | data :: rest => set_rxempty (rxempty u + 1) (set_rx_fifo rest (reg_assign rxdata data u))
      end
  | ip => reg_assign ip (Z.lor (if tx_watermark u then UART_TXWM else 0)
                               (if rx_watermark u then UART_RXWM else 0)) u
  | _ => u
  end.

(** A write that lowers a watermark. *)
Definition lowers_watermark (r : uart_reg) (nv : Z) (u : UART) : bool :=
  match r with
  | txctrl | rxctrl => UART_CTRL_CNT nv <? UART_CTRL_CNT (uart_regs u r)
  | _ => false
  end.
(** The push of a written [txdata], up to the post of [txfull]; a full queue ignores it. *)
Definition push_txdata (u : UART) : UART :=
  if UART_FIFO_DEPTH <=? fifo_size (tx_fifo u) then u
  else set_tx_post true (set_tx_fifo (tx_fifo u ++ [u8 (uart_regs u txdata)]) u).

Definition register_access_callback (r : register_access_t (S := UART) (R := uart_reg)) : Handler (S := UART) :=
  on_device (sm_when (acc_read r) (sm_modify (refresh_register (acc_vptr r)))) ;;;
  lowers <-- on_device (sm_gets (lowers_watermark (acc_vptr r) (acc_nv r))) ;;
  acc_fn r ;;;
  on_device
    (sm_when ((acc_write r && lowers) || (acc_write r && bool_decide (acc_vptr r = ie)))
       (sm_modify (set_async_event true)) ;;;
     sm_when (acc_write r && bool_decide (acc_vptr r = txdata)) (sm_modify push_txdata)).

(** The access up to the post, which the transmitter may see late; and the post. *)
Definition uart_access (beyond : list Z) : Handler (S := UART) :=
  router_transport [bank_try_handle uart_bank register_access_callback beyond].
Definition post_txfull (u : UART) : UART :=
  if tx_post u then set_tx_post false (set_txfull (txfull u + 1) u) else u.
Definition uart_transport (beyond : list Z) : Handler (S := UART) :=
  uart_access beyond ;;; on_device (sm_modify post_txfull).

(** The method sensitive to [asyncEvent]. *)
Definition interrupt_trigger (u : UART) : bool :=
  (negb (Z.land (uart_regs u ie) UART_RXWM =? 0) && rx_watermark u) ||
  (negb (Z.land (uart_regs u ie) UART_TXWM =? 0) && tx_watermark u).
Definition uart_interrupt (u : UART) : UART :=
  set_async_event false (if interrupt_trigger u then set_irqs (S (irqs u)) u else u).
End uart.

(** ** The three threads together

    The labels of a step are what the outside sees of it: a byte the program wrote that was
    accepted, one handed to [write_data], one given to [rxpush], and one the program read.  A
    write that leaves out the low byte of [txdata] sends the byte the register holds once more
    ([Repeated]), and a read that leaves out the low byte of [rxdata] takes a byte from the
    queue without showing it ([Missed]). *)
Inductive uart_label :=
| Accepted (b : Z) | Repeated (b : Z) | Delivered (b : Z) | Arrived (b : Z) | Fetched (b : Z) | Missed (b : Z).

(** The labels of an access: the bytes are those of the transaction, the data the program wrote
    or, in the transaction that comes back, the data it gets. *)
Definition access_labels (u : UART) (trans : payload) (out : result exn unit * (UART * payload)) :
    list uart_label :=
  let off := address trans mod 4 in
  let reg := address trans - off in
  match out.1, command trans with
  | Ok _, TLM_WRITE_COMMAND =>
      if (reg =? 0x0) && (fifo_size (tx_fifo u) <? UART_FIFO_DEPTH) then
        match data_ptr trans with
        | b :: _ => [if off =? 0 then Accepted (u8 b) else Repeated (u8 (uart_regs u txdata))]
        | [] => [Repeated (u8 (uart_regs u txdata))]
        end
      else []
  | Ok _, TLM_READ_COMMAND =>
      match rx_fifo u with
      | front :: _ =>
          if reg =? 0x4 then
            match data_ptr out.2.2 with
            | b :: _ => [if off =? 0 then Fetched b else Missed front]
            | [] => [Missed front]
            end
          else []
      | [] => []
      end
  | _, _ => []
  end.

Inductive uart_step : UART -> list uart_label -> UART -> Prop :=
(** simulation: an access, allowed when the last one has posted; the post; the method *)
| step_access u trans beyond :
    tx_post u = false ->
    let out := uart_access beyond (u, trans) in
    uart_step u (access_labels u trans out) out.2.1
| step_post u : tx_post u = true -> uart_step u [] (post_txfull u)
| step_interrupt u : async_event u = true -> uart_step u [] (uart_interrupt u)
(** transmitter: [swait(&txfull)]; the pop under [txmtx]; [write_data] *)
| step_tx_wait u : tx_pc u = TxWait -> 0 < txfull u ->
    uart_step u [] (set_tx_pc TxPop (set_txfull (txfull u - 1) u))
| step_tx_pop u data rest : tx_pc u = TxPop -> tx_fifo u = data :: rest ->
    uart_step u [] (set_async_event true (set_tx_pc (TxWrite data) (set_tx_fifo rest u)))
| step_tx_write u data : tx_pc u = TxWrite data -> uart_step u [Delivered data] (set_tx_pc TxWait u)
(** receiver: [handle_input] has bytes; [swait(&rxempty)]; the push under [rcvmtx] *)
| step_rx_input u data rest : rx_pc u = RxPoll -> Forall byte_ok (data :: rest) ->
    uart_step u (map Arrived (data :: rest)) (set_rx_pc (RxWait data rest) u)
| step_rx_wait u data rest : rx_pc u = RxWait data rest -> 0 < rxempty u ->
    uart_step u [] (set_rx_pc (RxPush data rest) (set_rxempty (rxempty u - 1) u))
| step_rx_push u data rest : rx_pc u = RxPush data rest ->
    uart_step u []
      (set_async_event true (set_rx_pc match rest with [] => RxPoll | d :: rest => RxWait d rest end
        (set_rx_fifo (rx_fifo u ++ [data]) u))).

Inductive uart_reachable : UART -> list uart_label -> Prop :=
| uart_reach_new : uart_reachable UART_new []
| uart_reach_step u tr ls u' : uart_reachable u tr -> uart_step u ls u' -> uart_reachable u' (tr ++ ls).
