(* ===== verification/UartSpec.v ===== *)
(** What the UART promises under every interleaving of its threads: its queues are bounded,
    no thread finds a queue or semaphore in a state it does not expect, and bytes are neither
    lost nor reordered; and what its interrupt says. *)
From S2P Require Import Prelude Bits Concolic ConcMem Iss Bus RegMap TlmMap Uart.

#[local] Open Scope sm_scope.

(** ** What a register access does to the queues *)

Definition same_queues (u u' : UART) : Prop :=
  tx_fifo u' = tx_fifo u /\ rx_fifo u' = rx_fifo u /\ txfull u' = txfull u /\ rxempty u' = rxempty u /\
  tx_post u' = tx_post u /\ tx_pc u' = tx_pc u /\ rx_pc u' = rx_pc u.
(** One byte pushed, with the post to come; or one byte fetched. *)
Definition pushed (b : Z) (u u' : UART) : Prop :=
  fifo_size (tx_fifo u) < UART_FIFO_DEPTH /\
  same_queues (set_tx_post true (set_tx_fifo (tx_fifo u ++ [b]) u)) u'.
Definition fetched (b : Z) (u u' : UART) : Prop :=
  exists rest, rx_fifo u = b :: rest /\ same_queues (set_rxempty (rxempty u + 1) (set_rx_fifo rest u)) u'.
Lemma same_queues_refl u : same_queues u u.
Proof. by repeat split. Qed.
Lemma same_queues_trans u1 u2 u3 : same_queues u1 u2 -> same_queues u2 u3 -> same_queues u1 u3.
Proof. intros (?&?&?&?&?&?&?) (?&?&?&?&?&?&?). repeat split; congruence. Qed.
Lemma set_async_queues b u u' : same_queues u u' -> same_queues u (set_async_event b u').
Proof. done. Qed.

(** A read: the register is refreshed, and its bytes from the offset on are the data. *)
Lemma callback_read r u trans nv : command trans = TLM_READ_COMMAND -> reg_mode r = read_write ->
  let u' := refresh_register (vptr r) u in
  register_access_callback (mkAccess true false (vptr r) nv (access_fn r)) (u, trans) =
    (Ok tt, (u', set_data (take (length (data_ptr trans))
      (drop (Z.to_nat (address trans mod 4)) (le_bytes 4 (uart_regs u' (vptr r))))) trans)).
Proof.
  intros Hc Hm u'. unfold register_access_callback, access_fn, bus_read, dev_assert, on_device, get_trans,
    set_trans_data, sm_bind, sm_gets, sm_modify, sm_ret, sm_when. cbn. by rewrite Hc, Hm.
Qed.
(** A write: the register gets the data in place of its bytes from the offset on; a write of
    [txdata] then pushes. *)
Lemma callback_write r u trans nv : command trans = TLM_WRITE_COMMAND -> reg_mode r = read_write ->
  let v := Z.land (le_value (splice (Z.to_nat (address trans mod 4)) (data_ptr trans)
    (le_bytes 4 (uart_regs u (vptr r))))) (reg_mask r) in
  exists u', same_queues u u' /\ uart_regs u' (vptr r) = v /\
    register_access_callback (mkAccess false true (vptr r) nv (access_fn r)) (u, trans) =
      (Ok tt, (if bool_decide (vptr r = txdata) then push_txdata u' else u', trans)).
Proof.
  intros Hc Hm v. set (u1 := reg_assign (vptr r) v u).
  assert (uart_regs u1 (vptr r) = v) as Hv by (unfold u1; cbn; by rewrite decide_True).
  unfold register_access_callback, access_fn, bus_write, dev_assert, on_device, get_trans,
    sm_bind, sm_gets, sm_modify, sm_ret, sm_when. cbn. rewrite Hc, Hm. cbn. fold v u1.
  destruct (lowers_watermark _ _ _ || _); [exists (set_async_event true u1)|exists u1];
    (split; [done|]); (split; [exact Hv|]); by destruct (bool_decide _).
Qed.

(** The low byte of what is written. *)
Lemma low_byte h x : u8 (Z.land (h + 256 * x) 0xffffffff) = u8 h.
Proof.
  change 0xffffffff with (Z.ones 32). rewrite Z.land_ones by lia. unfold wrap.
  rewrite Z.mod_mod_divide by (exists (2 ^ 24); reflexivity).
  rewrite (Z.mul_comm 256). by apply (Z_mod_plus_full h x 256).
Qed.
Lemma spliced_low off data old : 0 <= off -> exists x,
  le_value (splice (Z.to_nat off) data (le_bytes 4 old)) =
    match data with b :: _ => if off =? 0 then b else u8 old | [] => u8 old end + 256 * x.
Proof.
  intros Hoff. destruct (Z.eqb_spec off 0) as [->|Hne]; [by destruct data; eexists|].
  destruct (Z.to_nat off) eqn:E; [lia|]. by destruct data; eexists.
Qed.

(** What an access does to the queues, as its labels say. *)
Definition access_done (u u' : UART) (ls : list uart_label) : Prop :=
  (same_queues u u' /\ ls = []) \/
  (exists b, pushed b u u' /\ (ls = [Accepted b] \/ ls = [Repeated b])) \/
  (exists b, fetched b u u' /\ (ls = [Fetched b] \/ ls = [Missed b])).

Lemma read_done r u trans data' : reg_addr r = address trans - address trans mod 4 ->
  r ∈ uart_bank -> command trans = TLM_READ_COMMAND -> Forall byte_ok (rx_fifo u) ->
  let u' := refresh_register (vptr r) u in
  data' = take (length (data_ptr trans)) (drop (Z.to_nat (address trans mod 4)) (le_bytes 4 (uart_regs u' (vptr r)))) ->
  access_done u u' (access_labels u trans (Ok tt, (u', set_data data' trans))).
Proof.
  intros Hr Hin Hc Hb u' ->. unfold access_labels. cbn [fst snd set_data data_ptr]. rewrite Hc, <- Hr.
  pose proof (Z.mod_pos_bound (address trans) 4 ltac:(lia)) as Hoff.
  unfold uart_bank in Hin. rewrite !elem_of_cons, elem_of_nil in Hin.
  destruct Hin as [->|[->|[->|[->|[->|[->|[->|[]]]]]]]]; subst u'; cbn [refresh_register vptr reg_new reg_addr Z.eqb];
    try (left; split; [done|by destruct (rx_fifo u)]).
  destruct (rx_fifo u) as [|b rest] eqn:Hq; [by left|]. right; right. exists b. split; [by exists rest|].
  apply Forall_cons in Hb as [Hb _]. change (0x4 =? 0x4) with true. cbv iota.
  destruct (Z.eqb_spec (address trans mod 4) 0) as [->|Hne]; [|by destruct (take _ _); right].
  destruct (data_ptr trans) as [|d data]; [by right|left]. cbn. do 2 f_equal. by apply (wrap_small 8).
Qed.
Lemma write_done r u trans u' : reg_addr r = address trans - address trans mod 4 ->
  r ∈ uart_bank -> command trans = TLM_WRITE_COMMAND -> same_queues u u' ->
  uart_regs u' (vptr r) = Z.land (le_value (splice (Z.to_nat (address trans mod 4)) (data_ptr trans)
    (le_bytes 4 (uart_regs u (vptr r))))) (reg_mask r) ->
  let u2 := if bool_decide (vptr r = txdata) then push_txdata u' else u' in
  access_done u u2 (access_labels u trans (Ok tt, (u2, trans))).
Proof.
  intros Hr Hin Hc Hs Hv. unfold access_labels. cbn [fst snd]. rewrite Hc, <- Hr.
  pose proof (Z.mod_pos_bound (address trans) 4 ltac:(lia)) as Hoff.
  unfold uart_bank in Hin. rewrite !elem_of_cons, elem_of_nil in Hin.
  destruct Hin as [->|[->|[->|[->|[->|[->|[->|[]]]]]]]]; try by left.
  cbn [vptr reg_new reg_addr reg_mask] in *. change (0x0 =? 0x0) with true. cbn [andb].
  rewrite bool_decide_eq_true_2 by done. cbv zeta. destruct Hs as (E1 & E2 & E3 & E4 & E5 & E6 & E7).
  unfold push_txdata. rewrite E1.
  destruct (Z.leb_spec UART_FIFO_DEPTH (fifo_size (tx_fifo u))), (Z.ltb_spec (fifo_size (tx_fifo u)) UART_FIFO_DEPTH);
    [lia|by left|right; left|lia].
  destruct (spliced_low (address trans mod 4) (data_ptr trans) (uart_regs u txdata)) as [x Hx]; [lia|].
  rewrite Hx in Hv. rewrite Hv, low_byte. eexists. split; [split; [done|by repeat split]|].
  destruct (data_ptr trans); [|destruct (_ =? 0)]; rewrite ?wrap_wrap; auto.
Qed.

Lemma uart_bank_modes r : r ∈ uart_bank -> reg_mode r = read_write.
Proof.
  unfold uart_bank. rewrite !elem_of_cons, elem_of_nil. by intros [->|[->|[->|[->|[->|[->|[->|[]]]]]]]].
Qed.
Lemma uart_access_done u trans beyond out : Forall byte_ok (rx_fifo u) -> uart_access beyond (u, trans) = out ->
  access_done u out.2.1 (access_labels u trans out).
Proof.
  intros Hb. unfold uart_access. cbn [router_transport]. unfold bank_try_handle, sm_bind, get_trans, sm_gets. cbn [snd].
  destruct (find_register _ _) as [r|] eqn:Hf; [|intros <-; by left].
  unfold find_register in Hf. apply find_some in Hf as [Hin%list_elem_of_In Hr%Z.eqb_eq].
  pose proof (uart_bank_modes r Hin) as Hm. unfold dev_assert.
  repeat match goal with |- context [if ?b then sm_ret tt else sm_throw AssertionFailed] =>
    destruct b eqn:?; [unfold sm_ret at 1|intros <-; by left] end.
  destruct (command trans) eqn:Hc; [..|done].
  - match goal with |- context [register_access_callback (mkAccess _ _ _ ?n _)] =>
      change (register_access_callback _ (u, trans)) with
        (register_access_callback (mkAccess true false (vptr r) n (access_fn r)) (u, trans)) end.
    rewrite callback_read by done. intros <-. exact (read_done r u trans _ Hr Hin Hc Hb eq_refl).
  - match goal with |- context [register_access_callback (mkAccess _ _ _ ?n _)] =>
      change (register_access_callback _ (u, trans)) with
        (register_access_callback (mkAccess false true (vptr r) n (access_fn r)) (u, trans));
      destruct (callback_write r u trans n Hc Hm) as (u' & Hs & Hv & ->) end.
    intros <-. exact (write_done r u trans u' Hr Hin Hc Hs Hv).
Qed.

(** ** The invariant of the threads *)

Definition sent (tr : list uart_label) : list Z :=
  omap (fun l => match l with Accepted b | Repeated b => Some b | _ => None end) tr.
Definition delivered (tr : list uart_label) : list Z := omap (fun l => match l with Delivered b => Some b | _ => None end) tr.
Definition arrived (tr : list uart_label) : list Z := omap (fun l => match l with Arrived b => Some b | _ => None end) tr.
Definition taken (tr : list uart_label) : list Z :=
  omap (fun l => match l with Fetched b | Missed b => Some b | _ => None end) tr.

(** The bytes a thread holds. *)
Definition in_transmitter (u : UART) : list Z := match tx_pc u with TxWrite data => [data] | _ => [] end.
Definition in_receiver (u : UART) : list Z :=
  match rx_pc u with RxPoll => [] | RxWait data rest | RxPush data rest => data :: rest end.

(** Permits of the semaphores a thread has taken, and the one the simulation owes. *)
Definition tx_taken (u : UART) : Z := match tx_pc u with TxPop => 1 | _ => 0 end.
Definition rx_taken (u : UART) : Z := match rx_pc u with RxPush _ _ => 1 | _ => 0 end.
Definition tx_owed (u : UART) : Z := if tx_post u then 1 else 0.

Definition uart_counts (u : UART) : Prop :=
  0 <= txfull u /\ 0 <= rxempty u /\
  txfull u + tx_taken u + tx_owed u = fifo_size (tx_fifo u) /\
  rxempty u + rx_taken u + fifo_size (rx_fifo u) = UART_FIFO_DEPTH /\
  fifo_size (tx_fifo u) <= UART_FIFO_DEPTH.
Definition uart_order (u : UART) (tr : list uart_label) : Prop :=
  sent tr = delivered tr ++ in_transmitter u ++ tx_fifo u /\
  arrived tr = taken tr ++ rx_fifo u ++ in_receiver u.

Lemma labels_app tr ls : sent (tr ++ ls) = sent tr ++ sent ls /\
  delivered (tr ++ ls) = delivered tr ++ delivered ls /\ arrived (tr ++ ls) = arrived tr ++ arrived ls /\
  taken (tr ++ ls) = taken tr ++ taken ls.
Proof. split_and!; apply omap_app. Qed.
Lemma arrived_map bs : arrived (map Arrived bs) = bs /\ sent (map Arrived bs) = [] /\
  delivered (map Arrived bs) = [] /\ taken (map Arrived bs) = [].
Proof. induction bs as [|b bs (H1 & H2 & H3 & H4)]; [done|].
  split; [change (b :: arrived (map Arrived bs) = b :: bs); by rewrite H1|done].
Qed.

(** The queue of received bytes holds bytes, as does the receiver. *)
Definition uart_bytes (u : UART) : Prop := Forall byte_ok (rx_fifo u ++ in_receiver u).

Lemma access_keeps u u' ls tr : tx_post u = false -> access_done u u' ls ->
  uart_counts u -> uart_order u tr -> uart_bytes u ->
  uart_counts u' /\ uart_order u' (tr ++ ls) /\ uart_bytes u'.
Proof.
  intros Hpost He Hc Ho Hb. unfold uart_order. destruct (labels_app tr ls) as (-> & -> & -> & ->).
  unfold uart_counts, uart_order, uart_bytes, in_transmitter, in_receiver, tx_taken, rx_taken, tx_owed, fifo_size in *.
  destruct Ho as [Ha Hf].
  destruct He as [[(-> & -> & -> & -> & -> & -> & ->) ->]|[(b & [Hlt (-> & -> & -> & -> & -> & -> & ->)] & Hl)|
    (b & (rest & Hr & (-> & -> & -> & -> & -> & -> & ->)) & Hl)]].
  - cbn. by rewrite !app_nil_r.
  - assert (sent ls = [b] /\ delivered ls = [] /\ arrived ls = [] /\ taken ls = []) as (-> & -> & -> & ->)
      by (by destruct Hl as [->| ->]).
    cbn. rewrite Hpost, Ha, Hf, !app_nil_r, !length_app in *. cbn. rewrite <- !app_assoc.
    unfold fifo_size in Hlt. split; [lia|done].
  - assert (sent ls = [] /\ delivered ls = [] /\ arrived ls = [] /\ taken ls = [b]) as (-> & -> & -> & ->)
      by (by destruct Hl as [->| ->]).
    cbn. rewrite Ha, Hf, !app_nil_r, Hr in *. cbn in *. apply Forall_cons in Hb as [_ Hb].
    rewrite <- !app_assoc. cbn. split; [lia|done].
Qed.

Lemma uart_step_keeps u ls u' tr : uart_step u ls u' -> uart_counts u -> uart_order u tr -> uart_bytes u ->
  uart_counts u' /\ uart_order u' (tr ++ ls) /\ uart_bytes u'.
Proof.
  intros Hstep Hc Ho Hb. destruct Hstep as [u trans beyond Hpost out|u Hpost|u Hev|u Hpc Hpos|u data rest Hpc Hq|
    u data Hpc|u data rest Hpc Hd|u data rest Hpc Hpos|u data rest Hpc].
  1: by apply (access_keeps u); [|apply (uart_access_done u trans beyond); [exact (proj1 (proj1 (Forall_app _ _ _) Hb))|done]|..].
  all: unfold uart_order; destruct (labels_app tr []) as (Q1 & Q2 & Q3 & Q4).
  all: unfold uart_counts, uart_order, uart_bytes, in_transmitter, in_receiver, tx_taken, rx_taken, tx_owed, fifo_size in *.
  all: destruct Hc as (C1 & C2 & C3 & C4 & C5), Ho as [Ha Hf].
  - unfold post_txfull. rewrite Hpost in *. rewrite app_nil_r. cbn. by split; [lia|].
  - rewrite app_nil_r. unfold uart_interrupt. destruct (interrupt_trigger u); by split.
  - rewrite app_nil_r, Hpc in *. cbn in *. by split; [lia|].
  - rewrite app_nil_r, Hpc, Hq in *. cbn in *. by split; [lia|].
  - destruct (labels_app tr [Delivered data]) as (-> & -> & -> & ->). rewrite Hpc in *. cbn in *.
    rewrite Ha, Hf, !app_nil_r, <- !app_assoc. by split; [lia|].
  - destruct (labels_app tr (map Arrived (data :: rest))) as (-> & -> & -> & ->).
    destruct (arrived_map (data :: rest)) as (-> & -> & -> & ->). rewrite Hpc in *. cbn in *.
    rewrite Ha, Hf, !app_nil_r, <- !app_assoc in *. split; [lia|]. split; [done|]. by apply Forall_app.
  - rewrite app_nil_r, Hpc in *. cbn in *. by split; [lia|].
  - rewrite app_nil_r, Hpc in *. cbn in *. rewrite Ha, Hf, length_app. cbn. rewrite <- !app_assoc.
    destruct rest; cbn; by split; [lia|].
Qed.

Lemma uart_reachable_inv u tr : uart_reachable u tr -> uart_counts u /\ uart_order u tr /\ uart_bytes u.
Proof.
  induction 1 as [|u tr ls u' _ (Hc & Ho & Hb) Hs]; [split; [by repeat split|]; split; [done|constructor]|]. by eapply uart_step_keeps.
Qed.

(** What a program reads: whether there is room, and the next byte. *)
Lemma uart_word_reads u beyond data : length data = 4%nat ->
  let read a := mkPayload TLM_READ_COMMAND a data None TLM_OK_RESPONSE in
  let full := if UART_FIFO_DEPTH <=? fifo_size (tx_fifo u) then 2 ^ 31 else 0 in
  let next := match rx_fifo u with [] => 2 ^ 31 | b :: _ => b end in
  (exists u', uart_access beyond (u, read 0x0) = (Ok tt, (u', set_data (le_bytes 4 full) (read 0x0)))) /\
  (exists u', uart_access beyond (u, read 0x4) = (Ok tt, (u', set_data (le_bytes 4 next) (read 0x4)))).
Proof.
  intros Hd. destruct data as [|b0 [|b1 [|b2 [|b3 [|]]]]]; try discriminate Hd.
  split; [eexists; reflexivity|]. destruct u as [? ? [|b rest]]; eexists; reflexivity.
Qed.

(** * The properties *)

(** C34 Under every interleaving of the simulation, the transmitter and the receiver, whatever
    the program writes and whatever arrives: neither queue exceeds its depth; the bytes
    handed to the host are those the program wrote that were accepted, in order, up to the
    ones still queued (a write that leaves out the low byte of the register sends the old
    one again), and the bytes the program reads are those that arrived, in order (a read
    that leaves out the low byte of the register loses one); a read of a word tells whether
    there is room, or the next byte; the transmitter never pops an empty queue; and no
    thread waits without a reason: the transmitter can go on when there is a byte in the
    queue, the receiver when there is room. *)
Theorem uart_threads u tr : uart_reachable u tr ->
  fifo_size (tx_fifo u) <= UART_FIFO_DEPTH /\ fifo_size (rx_fifo u) <= UART_FIFO_DEPTH /\
  sent tr = delivered tr ++ in_transmitter u ++ tx_fifo u /\
  arrived tr = taken tr ++ rx_fifo u ++ in_receiver u /\
  (forall beyond data, length data = 4%nat ->
     let read a := mkPayload TLM_READ_COMMAND a data None TLM_OK_RESPONSE in
     let full := if UART_FIFO_DEPTH <=? fifo_size (tx_fifo u) then 2 ^ 31 else 0 in
     let next := match rx_fifo u with [] => 2 ^ 31 | b :: _ => b end in
     (exists u', uart_access beyond (u, read 0x0) = (Ok tt, (u', set_data (le_bytes 4 full) (read 0x0)))) /\
     (exists u', uart_access beyond (u, read 0x4) = (Ok tt, (u', set_data (le_bytes 4 next) (read 0x4))))) /\
  (tx_pc u = TxPop -> tx_fifo u <> []) /\
  (tx_pc u = TxWait -> tx_post u = false -> tx_fifo u <> [] -> 0 < txfull u) /\
  (forall data rest, rx_pc u = RxWait data rest -> fifo_size (rx_fifo u) < UART_FIFO_DEPTH -> 0 < rxempty u).
Proof.
  intros Hr. destruct (uart_reachable_inv u tr Hr) as [(C1 & C2 & C3 & C4 & C5) [[Ha Hf] _]].
  unfold tx_taken, rx_taken, tx_owed in *.
  split; [done|]. split; [destruct (rx_pc u); lia|]. split; [done|]. split; [done|].
  split; [intros beyond data; apply uart_word_reads|]. split; [|split].
  - intros Hpc Hq. rewrite Hpc, Hq in *. unfold fifo_size in *. cbn in C3. destruct (tx_post u); lia.
  - intros Hpc Hp Hq. rewrite Hpc, Hp in *. destruct (tx_fifo u); [done|]. unfold fifo_size in *. cbn in C3. lia.
  - intros data rest Hpc Hlt. rewrite Hpc in *. lia.
Qed.

(** The interrupt register tells what the interrupt is for: a read of [ip] returns the
    watermark bits, and an interrupt is raised exactly when an enabled bit is among them. *)
Theorem uart_interrupt_register u beyond data : length data = 4%nat ->
  let bits := Z.lor (if tx_watermark u then UART_TXWM else 0) (if rx_watermark u then UART_RXWM else 0) in
  let trans := mkPayload TLM_READ_COMMAND 0x14 data None TLM_OK_RESPONSE in
  (exists u', uart_access beyond (u, trans) = (Ok tt, (u', set_data (le_bytes 4 bits) trans))) /\
  interrupt_trigger u = negb (Z.land (uart_regs u ie) bits =? 0).
Proof.
  intros Hd bits trans. destruct data as [|b0 [|b1 [|b2 [|b3 [|]]]]]; try discriminate Hd. split.
  - eexists. reflexivity.
  - unfold interrupt_trigger, bits, UART_TXWM, UART_RXWM.
    assert (forall b, (Z.land (uart_regs u ie) b =? 0) = true <-> Z.land (uart_regs u ie) b = 0) as He by (intros; apply Z.eqb_eq).
    destruct (rx_watermark u), (tx_watermark u); rewrite ?andb_true_r, ?andb_false_r, ?orb_false_r; cbn [Z.lor orb];
      [|done|done|by rewrite Z.land_0_r].
    assert (Z.land (uart_regs u ie) 3 = Z.lor (Z.land (uart_regs u ie) 2) (Z.land (uart_regs u ie) 1)) as E
      by (rewrite <- Z.land_lor_distr_r; done).
    change (Z.lor 1 2) with 3. rewrite E.
    destruct (Z.eqb_spec (Z.land (uart_regs u ie) 2) 0) as [->|H2]; cbn [negb orb].
    + by rewrite Z.lor_0_l.
    + symmetry. apply negb_true_iff, Z.eqb_neq. intros [? _]%Z.lor_eq_0_iff. done.
Qed.

(** ** Witness: two bytes written, the first one sent, and a byte received and read *)

Definition write_byte (b : Z) : payload := mkPayload TLM_WRITE_COMMAND 0x0 (le_bytes 4 b) None TLM_OK_RESPONSE.
Definition read_word : payload := mkPayload TLM_READ_COMMAND 0x4 (replicate 4 0) None TLM_OK_RESPONSE.
Definition after_access (trans : payload) (u : UART) : UART := (uart_access [] (u, trans)).2.1.
Definition uart_one : UART := after_access (write_byte 0x41) UART_new.
Definition uart_two : UART := after_access (write_byte 0x42) (post_txfull uart_one).
Definition uart_popped : UART := set_tx_pc TxPop (set_txfull (txfull (post_txfull uart_two) - 1) (post_txfull uart_two)).
Definition uart_sending : UART := set_async_event true (set_tx_pc (TxWrite 0x41) (set_tx_fifo [0x42] uart_popped)).
Definition uart_receiving : UART := set_rx_pc (RxWait 0x53 []) (set_tx_pc TxWait uart_sending).
Definition uart_receives : UART := set_rx_pc (RxPush 0x53 []) (set_rxempty (rxempty uart_receiving - 1) uart_receiving).
Definition uart_received : UART := set_async_event true (set_rx_pc RxPoll (set_rx_fifo [0x53] uart_receives)).

Lemma reach_access u tr trans : uart_reachable u tr -> tx_post u = false ->
  uart_reachable (after_access trans u) (tr ++ access_labels u trans (uart_access [] (u, trans))).
Proof. intros Hr Hp. eapply uart_reach_step; [exact Hr|]. by apply step_access. Qed.
Lemma uart_two_reachable : uart_reachable (post_txfull uart_two) [Accepted 0x41; Accepted 0x42].
Proof.
  pose proof (reach_access _ _ (write_byte 0x41) uart_reach_new eq_refl) as R1. fold uart_one in R1.
  assert (tx_post uart_one = true) as P1 by (vm_compute; reflexivity).
  pose proof (uart_reach_step _ _ _ _ R1 (step_post uart_one P1)) as R2.
  assert (tx_post (post_txfull uart_one) = false) as P2 by (vm_compute; reflexivity).
  pose proof (reach_access _ _ (write_byte 0x42) R2 P2) as R3. fold uart_two in R3.
  assert (tx_post uart_two = true) as P3 by (vm_compute; reflexivity).
  exact (uart_reach_step _ _ _ _ R3 (step_post uart_two P3)).
Qed.
Lemma uart_received_reachable :
  uart_reachable uart_received [Accepted 0x41; Accepted 0x42; Delivered 0x41; Arrived 0x53].
Proof.
  change [Accepted 0x41; Accepted 0x42; Delivered 0x41; Arrived 0x53]
    with (((((([Accepted 0x41; Accepted 0x42] ++ []) ++ []) ++ [Delivered 0x41]) ++ [Arrived 0x53]) ++ []) ++ []).
  eapply uart_reach_step; [eapply uart_reach_step; [eapply uart_reach_step; [eapply uart_reach_step; [
    eapply uart_reach_step; [eapply uart_reach_step; [exact uart_two_reachable|]|]|]|]|]|].
  - apply (step_tx_wait (post_txfull uart_two)); vm_compute; reflexivity.
  - apply (step_tx_pop uart_popped); vm_compute; reflexivity.
  - by apply (step_tx_write uart_sending).
  - apply (step_rx_input (set_tx_pc TxWait uart_sending) 0x53 []); [reflexivity|]. repeat constructor; lia.
  - apply (step_rx_wait uart_receiving 0x53 []); vm_compute; reflexivity.
  - by apply (step_rx_push uart_receives 0x53 []).
Qed.

Lemma uart_threads_witness :
  let tr := [Accepted 0x41; Accepted 0x42; Delivered 0x41; Arrived 0x53; Fetched 0x53] in
  let u := after_access read_word uart_received in
  uart_reachable u tr /\ sent tr = [0x41; 0x42] /\ taken tr = [0x53] /\
  fifo_size (tx_fifo u) <= UART_FIFO_DEPTH.
Proof.
  intros tr u. assert (uart_reachable u tr) as Hr.
  { refine (reach_access _ _ read_word uart_received_reachable _). vm_compute. reflexivity. }
  split; [exact Hr|]. split; [reflexivity|]. split; [reflexivity|]. exact (proj1 (uart_threads u tr Hr)).
Defined.
