(* ===== verification/Slip.v ===== *)
(** SLIP framing of the network interface (platform/common/slip.cpp): escaping what the host
    receives, unescaping what the program sends; when a packet survives the way through
    both. *)
From S2P Require Import Prelude Bits Concolic ConcMem Iss.

Definition SLIP_END : Z := 0xc0.
Definition SLIP_ESC : Z := 0xdb.
Definition SLIP_ESC_END : Z := 0xdc.
Definition SLIP_ESC_ESC : Z := 0xdd.

(** The buffer up to [sndsiz], and the packets written to the network device so far. *)
Record SLIP := mkSlip { sndbuf : list Z; sent : list (list Z) }.
Definition SLIP_new : SLIP := mkSlip [] [].

(** The file operations: [write] of a packet, [None] for an error, otherwise the number of
    bytes written.  Allocation does not fail. *)
Class TunDevice := { tun_write : list Z -> option Z }.
Definition system_error : Z := 3.

Section slip.
Context `{TunDevice}.
#[local] Open Scope sm_scope.

Definition send_packet : SM SLIP exn unit :=
  packet <-- sm_gets sndbuf ;;
  match tun_write packet with
  | None => sm_throw (OtherException system_error)
  | Some ret =>
      sm_modify (fun s => mkSlip (sndbuf s) (sent s ++ [take (Z.to_nat ret) packet])) ;;;
      if ret =? Z.of_nat (length packet) then sm_modify (fun s => mkSlip [] (sent s))
      else sm_throw RuntimeError
  end.

Definition push (data : Z) (s : SLIP) : SLIP := mkSlip (sndbuf s ++ [data]) (sent s).
(** [sndbuf[sndsiz - 1] = data] *)
Definition replace_last (data : Z) (s : SLIP) : SLIP := mkSlip (removelast (sndbuf s) ++ [data]) (sent s).

(** [SLIP::write_data] *)
Definition slip_write_data (data : Z) : SM SLIP exn unit :=
  if data =? SLIP_END then
    buf <-- sm_gets sndbuf ;;
    sm_when (negb (bool_decide (buf = []))) send_packet
  else
    buf <-- sm_gets sndbuf ;;
    if bool_decide (last buf = Some SLIP_ESC) && (data =? SLIP_ESC_END) then sm_modify (replace_last SLIP_END)
    else if bool_decide (last buf = Some SLIP_ESC) && (data =? SLIP_ESC_ESC) then sm_modify (replace_last SLIP_ESC)
    else sm_modify (push data).
Fixpoint slip_write (data : list Z) : SM SLIP exn unit :=
  match data with [] => sm_ret tt | d :: data => slip_write_data d ;;; slip_write data end.
End slip.

(** [SLIP::handle_input]: the bytes pushed for a packet read from the network device. *)
Definition escape (b : Z) : list Z :=
  if b =? SLIP_END then [SLIP_ESC; SLIP_ESC_END]
  else if b =? SLIP_ESC then [SLIP_ESC; SLIP_ESC_ESC]
  else [b].
Definition slip_input (rcvbuf : list Z) : list Z := flat_map escape rcvbuf ++ [SLIP_END].

(** * Decoding what was encoded *)

(** A byte that follows an escape byte of the packet and that [slip_write_data] takes for
    the second byte of an escape sequence. *)
Definition confused (prev : option Z) (b : Z) : bool :=
  bool_decide (prev = Some SLIP_ESC) && ((b =? SLIP_ESC_END) || (b =? SLIP_ESC_ESC)).
Fixpoint unambiguous_after (prev : option Z) (packet : list Z) : bool :=
  match packet with
  | [] => true
  | b :: packet => negb (confused prev b) && unambiguous_after (Some b) packet
  end.
Definition unambiguous (packet : list Z) : bool := unambiguous_after None packet.

Section decode.
Context `{TunDevice}.
#[local] Open Scope sm_scope.

(** What the buffer becomes for one byte of the packet. *)
Definition received (buf : list Z) (b : Z) : list Z :=
  if confused (last buf) b
  then removelast buf ++ [if b =? SLIP_ESC_END then SLIP_END else SLIP_ESC]
  else buf ++ [b].

Lemma slip_write_app l1 l2 s s' : slip_write l1 s = (Ok tt, s') -> slip_write (l1 ++ l2) s = slip_write l2 s'.
Proof.
  revert s. induction l1 as [|d l1 IH]; intros s; cbn; [by intros [= ->]|].
  unfold sm_bind. destruct (slip_write_data d s) as [[[]|?] s1]; [apply IH|done].
Qed.
Lemma write_byte buf d out : d <> SLIP_END ->
  slip_write_data d (mkSlip buf out) = (Ok tt, mkSlip (received buf d) out).
Proof.
  intros Hd. unfold slip_write_data. apply Z.eqb_neq in Hd. rewrite Hd.
  unfold sm_bind, sm_gets, sm_modify, received, confused, replace_last, push. cbn [sndbuf sent].
  destruct (bool_decide _); cbn [andb]; [|done].
  destruct (d =? SLIP_ESC_END); cbn [orb]; [done|]. by destruct (d =? SLIP_ESC_ESC).
Qed.
Lemma received_plain buf d : confused (last buf) d = false -> received buf d = buf ++ [d].
Proof. intros Hc. unfold received. by rewrite Hc. Qed.
Lemma received_escaped buf d : confused (Some SLIP_ESC) d = true ->
  received (buf ++ [SLIP_ESC]) d = buf ++ [if d =? SLIP_ESC_END then SLIP_END else SLIP_ESC].
Proof. intros Hc. unfold received. by rewrite last_snoc, Hc, removelast_last. Qed.
Lemma confused_other prev d : d <> SLIP_ESC_END -> d <> SLIP_ESC_ESC -> confused prev d = false.
Proof. intros H1%Z.eqb_neq H2%Z.eqb_neq. unfold confused. rewrite H1, H2. apply andb_false_r. Qed.

Lemma write_escaped buf b out :
  slip_write (escape b) (mkSlip buf out) = (Ok tt, mkSlip (received buf b) out).
Proof.
  assert (forall d, d <> SLIP_END -> confused (Some SLIP_ESC) d = true ->
    slip_write [SLIP_ESC; d] (mkSlip buf out) =
      (Ok tt, mkSlip (buf ++ [if d =? SLIP_ESC_END then SLIP_END else SLIP_ESC]) out)) as Htwo.
  { intros d Hd Hc. cbn [slip_write].
    rewrite (sm_bind_ok _ _ _ _ _ (write_byte buf SLIP_ESC out ltac:(done))).
    rewrite received_plain by (by apply confused_other).
    by rewrite (sm_bind_ok _ _ _ _ _ (write_byte _ d out Hd)), received_escaped. }
  unfold escape. destruct (Z.eqb_spec b SLIP_END) as [->|Hend].
  { rewrite Htwo by done. by rewrite received_plain by (by apply confused_other). }
  destruct (Z.eqb_spec b SLIP_ESC) as [->|Hesc].
  { rewrite Htwo by done. by rewrite received_plain by (by apply confused_other). }
  cbn [slip_write]. by rewrite (sm_bind_ok _ _ _ _ _ (write_byte buf b out Hend)).
Qed.
Lemma write_packet buf packet out :
  slip_write (flat_map escape packet) (mkSlip buf out) = (Ok tt, mkSlip (foldl received buf packet) out).
Proof.
  revert buf. induction packet as [|b packet IH]; intros buf; [done|]. cbn [flat_map foldl].
  by rewrite (slip_write_app _ _ _ _ (write_escaped buf b out)).
Qed.

Lemma received_nonempty buf b : received buf b <> [].
Proof. unfold received. destruct (confused _ _); by destruct (removelast buf), buf. Qed.
Lemma received_length buf b : confused (last buf) b = true -> length (received buf b) = length buf.
Proof.
  intros Hc. unfold received. rewrite Hc. unfold confused in Hc. destruct buf as [|x buf]; [done|].
  destruct (exists_last (l := x :: buf)) as (l & y & ->); [done|]. by rewrite removelast_last, !length_app.
Qed.
Lemma foldl_received_length buf packet :
  (length (foldl received buf packet) <= length buf + length packet)%nat.
Proof.
  revert buf. induction packet as [|b packet IH]; intros buf; cbn; [lia|].
  specialize (IH (received buf b)). destruct (confused (last buf) b) eqn:Hc.
  - rewrite received_length in IH by done. lia.
  - unfold received in IH. rewrite Hc, length_app in IH. cbn in IH. unfold received. rewrite Hc. lia.
Qed.
Lemma foldl_received buf packet : unambiguous_after (last buf) packet = true <->
  foldl received buf packet = buf ++ packet.
Proof.
  revert buf. induction packet as [|b packet IH]; intros buf; cbn; [by rewrite app_nil_r|].
  destruct (confused (last buf) b) eqn:Hc; cbn.
  - split; [done|]. intros He. apply (f_equal length) in He. rewrite length_app in He. cbn in He.
    pose proof (foldl_received_length (received buf b) packet) as Hl. rewrite received_length in Hl by done. lia.
  - rewrite (received_plain buf b Hc). specialize (IH (buf ++ [b])).
    rewrite last_snoc, <- app_assoc in IH. exact IH.
Qed.
Lemma foldl_received_nonempty packet : packet <> [] -> foldl received [] packet <> [].
Proof.
  destruct packet as [|b packet]; [done|]. intros _. cbn. generalize (received_nonempty [] b). generalize (received [] b).
  induction packet as [|c packet IH]; intros buf Hb; [done|]. cbn. apply IH, received_nonempty.
Qed.

Lemma write_frame packet out : packet <> [] -> (forall p, tun_write p = Some (Z.of_nat (length p))) ->
  slip_write (slip_input packet) (mkSlip [] out) = (Ok tt, mkSlip [] (out ++ [foldl received [] packet])).
Proof.
  intros Hne Htun. unfold slip_input. rewrite (slip_write_app _ _ _ _ (write_packet [] packet out)).
  pose proof (foldl_received_nonempty packet Hne) as Hne'. set (buf := foldl received [] packet) in *.
  cbn. unfold sm_bind, sm_gets, sm_when. cbn. rewrite bool_decide_eq_false_2 by done. cbn.
  unfold send_packet, sm_bind, sm_gets, sm_modify. cbn. rewrite Htun, Z.eqb_refl, Nat2Z.id, take_ge by lia. done.
Qed.
End decode.

(** Framing and unframing: when a list of packets is framed as the receiver frames it and
    those bytes are written to the interface, the packets sent are the same ones, provided
    no packet has an escape byte followed by one of the two bytes that end an escape
    sequence; one that has is altered. *)
Theorem slip_roundtrip `{TunDevice} packets :
  (forall p, tun_write p = Some (Z.of_nat (length p))) -> Forall (fun p => p <> []) packets ->
  exists received_, slip_write (flat_map slip_input packets) SLIP_new = (Ok tt, mkSlip [] received_) /\
    length received_ = length packets /\
    forall i p q, packets !! i = Some p -> received_ !! i = Some q -> (q = p <-> unambiguous p = true).
Proof.
  intros Htun Hne. exists (map (foldl received []) packets). split; [|split; [by rewrite length_map|]].
  - assert (forall out, slip_write (flat_map slip_input packets) (mkSlip [] out) =
      (Ok tt, mkSlip [] (out ++ map (foldl received []) packets))) as Hall; [|apply Hall].
    induction Hne as [|p packets Hp _ IH]; intros out; cbn; [by rewrite app_nil_r|].
    rewrite (slip_write_app _ _ _ _ (write_frame p out Hp Htun)), IH, <- app_assoc. done.
  - intros i p q Hi Hq. rewrite list_lookup_fmap, Hi in Hq. injection Hq as <-.
    unfold unambiguous. rewrite (foldl_received [] p). done.
Qed.

(** ** Witness: a packet of special bytes, and one the framing does not carry *)

#[local] Instance whole_packets : TunDevice := {| tun_write p := Some (Z.of_nat (length p)) |}.
Lemma slip_roundtrip_witness : exists p q,
  slip_write (flat_map slip_input [[SLIP_END; SLIP_ESC; 1]; [SLIP_ESC; SLIP_ESC_END]]) SLIP_new =
    (Ok tt, mkSlip [] [p; q]) /\ p = [SLIP_END; SLIP_ESC; 1] /\ q <> [SLIP_ESC; SLIP_ESC_END].
Proof.
  destruct (slip_roundtrip [[SLIP_END; SLIP_ESC; 1]; [SLIP_ESC; SLIP_ESC_END]]) as (r & Hr & Hl & Hi);
    [done|by repeat constructor|].
  destruct r as [|p [|q [|]]]; try discriminate Hl. exists p, q. split; [exact Hr|]. split.
  - by apply (Hi 0%nat).
  - intros Hq. assert (unambiguous [SLIP_ESC; SLIP_ESC_END] = true) as Hbad by (by apply (Hi 1%nat _ q)).
    discriminate Hbad.
Defined.
