(* ===== verification/Bencode.v ===== *)
(** Bencode (symex/bencode.hpp): the format of the messages exchanged with the server of
    symbolic protocol states.  The decoder reads from a stream, the encoder writes to one;
    what is encoded is decoded again. *)
From Stdlib Require Import Ascii OrdersEx.
From stdpp Require Import pretty relations.
From S2P Require Import Prelude.

(** * Data *)

(** [bencode::data].  A dictionary is a [std::map]: a list sorted by key. *)
Inductive data :=
| DInteger (i : Z)
| DString (s : string)
| DList (l : list data)
| DDict (d : list (string * data)).
Abbreviation dict := (list (string * data)).

(** [std::map<string, data>::emplace] of a key that is not in the map, and the test for
    the key. *)
Fixpoint dict_emplace (k : string) (v : data) (m : dict) : dict :=
  match m with
  | [] => [(k, v)]
  | (k', v') :: m' => if String.ltb k k' then (k, v) :: m else (k', v') :: dict_emplace k v m'
  end.
Definition dict_has (k : string) (m : dict) : bool := bool_decide (k ∈ m.*1).

(** * Decoding *)

(** What the exceptions say, all of type [std::invalid_argument] but [length_error]. *)
Inductive decode_error :=
| unexpected_end_of_string
| integer_overflow
| integer_underflow
| expected_e
| expected_colon
| unexpected_e
| expected_string_token
| duplicated_key (k : string)
| unexpected_type
| length_error
| assertion_failed.

(** The integer types the digits are read to: [std::numeric_limits]. *)
Record Integer := mkInteger { digits10 : nat; limits_min : Z; limits_max : Z }.
Definition long_long : Integer := mkInteger 18 (- 2 ^ 63) (2 ^ 63 - 1).
Definition size_t : Integer := mkInteger 19 0 (2 ^ 64 - 1).

(** [std::isdigit] in the C locale, and [c - '0'] of a digit. *)
Definition char_code (c : ascii) : Z := Z.of_N (N_of_ascii c).
Definition isdigit (c : ascii) : bool := (48 <=? char_code c) && (char_code c <=? 57).
Definition digit_value (c : ascii) : Z := char_code c - 48.

Section decode.
(** The longest string the host can allocate. *)
Context (max_size : Z).
#[local] Open Scope sm_scope.

(** What is read from is what the stream still holds. *)
Definition Decoder (A : Type) : Type := SM string decode_error A.
(** [begin == end], [*begin] and [++begin] of an [istreambuf_iterator]: at the end of the
    stream the character is that of [EOF], and there is nothing to skip. *)
Definition at_end : Decoder bool := sm_gets (fun s => bool_decide (s = "")).
Definition peek : Decoder ascii :=
  sm_gets (fun s => match s with EmptyString => ascii_of_N 255 | String c _ => c end).
Definition advance : Decoder unit :=
  sm_modify (fun s => match s with EmptyString => EmptyString | String _ s => s end).
Definition decode_assert (b : bool) : Decoder unit := sm_when (negb b) (sm_throw assertion_failed).
Definition check_end : Decoder unit :=
  e <-- at_end ;; sm_when e (sm_throw unexpected_end_of_string).

(** The divisions of C++ truncate. *)
Definition check_overflow (t : Integer) (value digit : Z) : Decoder unit :=
  let max := limits_max t in
  sm_when ((Z.quot max 10 <? value) || ((value =? Z.quot max 10) && (Z.rem max 10 <? digit)))
    (sm_throw integer_overflow).
Definition check_underflow (t : Integer) (value digit : Z) : Decoder unit :=
  let min := limits_min t in
  sm_when ((value <? Z.quot min 10) || ((value =? Z.quot min 10) && (digit <? Z.rem min 10)))
    (sm_throw integer_underflow).
Definition check_over_underflow (t : Integer) (value digit sgn : Z) : Decoder unit :=
  if sgn =? 1 then check_overflow t value digit else check_underflow t value digit.

(** The loop over the digits that fit whatever they are; [rest] is what comes after it. *)
Fixpoint fitting_digits (n : nat) (sgn value : Z) (rest : Z -> Decoder Z) : Decoder Z :=
  match n with
  | O => rest value
  | S n =>
      check_end ;;;
      c <-- peek ;;
      if isdigit c then advance ;;; fitting_digits n sgn (value * 10 + digit_value c * sgn) rest
      else sm_ret value
  end.
(** The digit that fits or not, and the end of the number. *)
Definition last_digit (t : Integer) (sgn value : Z) : Decoder Z :=
  check_end ;;;
  c <-- peek ;;
  value <-- (if isdigit c then
               advance ;;;
               let digit := digit_value c * sgn in
               check_over_underflow t value digit sgn ;;;
               sm_ret (value * 10 + digit)
             else sm_ret value) ;;
  c <-- peek ;;
  sm_when (isdigit c) (sm_throw (if sgn =? 1 then integer_overflow else integer_underflow)) ;;;
  sm_ret value.
(** [detail::decode_digits] *)
Definition decode_digits (t : Integer) (sgn : Z) : Decoder Z :=
  decode_assert ((sgn =? 1) || ((limits_min t <? 0) && (sgn =? -1))) ;;;
  fitting_digits (digits10 t) sgn 0 (last_digit t sgn).

(** [detail::decode_int<long long>] *)
Definition decode_int : Decoder Z :=
  c <-- peek ;;
  decode_assert (bool_decide (c = "i"%char)) ;;;
  advance ;;;
  c <-- peek ;;
  value <-- (if bool_decide (c = "-"%char) then advance ;;; decode_digits long_long (-1)
             else decode_digits long_long 1) ;;
  c <-- peek ;;
  sm_when (negb (bool_decide (c = "e"%char))) (sm_throw expected_e) ;;;
  advance ;;;
  sm_ret value.

(** [str_reader::operator()] for a stream: it runs until the characters have been read or
    the stream ends, so the recursion is over the stream. *)
Fixpoint read_chars (len : Z) (s : string) : result decode_error string * string :=
  if len <=? 0 then (Ok "", s)
  else match s with
       | "" => (Err unexpected_end_of_string, "")
       | String c s =>
           match read_chars (len - 1) s with
           | (Ok v, s) => (Ok (String c v), s)
           | (Err e, s) => (Err e, s)
           end
       end.
Definition str_reader (len : Z) : Decoder string :=
  sm_when (max_size <? len) (sm_throw length_error) ;;; read_chars len.

(** [detail::decode_str] *)
Definition decode_str : Decoder string :=
  c <-- peek ;;
  decode_assert (isdigit c) ;;;
  len <-- decode_digits size_t 1 ;;
  check_end ;;;
  c <-- peek ;;
  sm_when (negb (bool_decide (c = ":"%char))) (sm_throw expected_colon) ;;;
  advance ;;;
  str_reader len.

(** ** The stack of open containers

    The stack points to the containers that are not closed yet, each the last element of
    the one below it (for a dictionary: the one stored under the last [dict_key]).  Nothing
    reads them before they are closed, so an open container is kept on the stack and put
    into the one below when it is closed. *)
Inductive frame := OpenList (l : list data) | OpenDict (m : dict) (dict_key : string).
Definition frame_data (f : frame) : data :=
  match f with OpenList l => DList l | OpenDict m _ => DDict m end.

(** What the decoder holds: the stack, and the result once the root is complete. *)
Record decoding := mkDecoding { state : list frame; decoded : option data }.
Definition attach (thing : data) (d : decoding) : decoding :=
  match state d with
  | [] => mkDecoding [] (Some thing)
  | OpenList l :: st => mkDecoding (OpenList (l ++ [thing]) :: st) (decoded d)
  | OpenDict m k :: st => mkDecoding (OpenDict (dict_emplace k thing m) k :: st) (decoded d)
  end.
(** The check of [emplace] in [store]. *)
Definition check_key (d : decoding) : Decoder unit :=
  match state d with
  | OpenDict m k :: _ => sm_when (dict_has k m) (sm_throw (duplicated_key k))
  | _ => sm_ret tt
  end.
(** [store] of a value that is complete, and of an empty container that is pushed. *)
Definition store (thing : data) (d : decoding) : Decoder decoding :=
  check_key d ;;; sm_ret (attach thing d).
Definition store_open (f : frame) (d : decoding) : Decoder decoding :=
  check_key d ;;; sm_ret (mkDecoding (f :: state d) (decoded d)).
(** [state.pop()] *)
Definition pop (d : decoding) : decoding :=
  match state d with
  | [] => d
  | f :: st => attach (frame_data f) (mkDecoding st (decoded d))
  end.
Definition set_dict_key (k : string) (d : decoding) : decoding :=
  match state d with
  | OpenDict m _ :: st => mkDecoding (OpenDict m k :: st) (decoded d)
  | _ => d
  end.

(** The body of the loop of [basic_decode], from the type of the value on. *)
Definition decode_value (d : decoding) : Decoder decoding :=
  c <-- peek ;;
  if bool_decide (c = "i"%char) then i <-- decode_int ;; store (DInteger i) d
  else if bool_decide (c = "l"%char) then advance ;;; store_open (OpenList []) d
  else if bool_decide (c = "d"%char) then advance ;;; store_open (OpenDict [] "") d
  else if isdigit c then s <-- decode_str ;; store (DString s) d
  else sm_throw unexpected_type.
(** The body of the loop of [basic_decode]. *)
Definition decode_step (d : decoding) : Decoder decoding :=
  check_end ;;;
  c <-- peek ;;
  if bool_decide (c = "e"%char) then
    match state d with
    | [] => sm_throw unexpected_e
    | _ => advance ;;; sm_ret (pop d)
    end
  else
    match state d with
    | OpenDict _ _ :: _ =>
        sm_when (negb (isdigit c)) (sm_throw expected_string_token) ;;;
        k <-- decode_str ;;
        check_end ;;;
        decode_value (set_dict_key k d)
    | _ => decode_value d
    end.

(** The loop, for a number of rounds; [None] when they do not suffice. *)
Fixpoint decode_loop (n : nat) (d : decoding) (s : string) :
    option (result decode_error data * string) :=
  match n with
  | O => None
  | S n =>
      match decode_step d s with
      | (Err e, s) => Some (Err e, s)
      | (Ok d, s) =>
          match state d with
          | [] => (fun r => (Ok r, s)) <$> decoded d
          | _ => decode_loop n d s
          end
      end
  end.
(** [basic_decode]: a round consumes a character. *)
Definition decode (s : string) : option (result decode_error data * string) :=
  decode_loop (S (String.length s)) (mkDecoding [] None) s.
End decode.

(** * Encoding *)

Definition write_integer (value : Z) : string := pretty value.
Definition encode_integer (value : Z) : string := "i" +:+ write_integer value +:+ "e".
Definition encode_string (value : string) : string :=
  write_integer (Z.of_nat (String.length value)) +:+ ":" +:+ value.
(** [encode]: the characters written. *)
Fixpoint encode (value : data) : string :=
  match value with
  | DInteger i => encode_integer i
  | DString s => encode_string s
  | DList l => "l" +:+ foldr (fun i out => encode i +:+ out) "e" l
  | DDict m => "d" +:+ foldr (fun i out => encode_string (fst i) +:+ encode (snd i) +:+ out) "e" m
  end.

Example sample_data : data :=
  DList [DInteger 0; DString "abc"; DDict [("k", DInteger (-12)); ("l", DList [])]].
Example encode_sample : encode sample_data = "li0e3:abcd1:ki-12e1:lleee".
Proof. vm_compute. reflexivity. Qed.
Example decode_sample : decode 1000 "li0e3:abcd1:ki-12e1:lleeexyz" = Some (Ok sample_data, "xyz").
Proof. vm_compute. reflexivity. Qed.

(** * Well-formed data

    The integers fit their type, the strings fit the memory, the keys of a dictionary are
    sorted and different. *)
Fixpoint keys_sorted (m : dict) : bool :=
  match m with
  | [] => true
  | (k, _) :: m => forallb (fun e => String.ltb k (fst e)) m && keys_sorted m
  end.
Fixpoint data_ok (max_size : Z) (d : data) : bool :=
  match d with
  | DInteger i => (limits_min long_long <=? i) && (i <=? limits_max long_long)
  | DString s => Z.of_nat (String.length s) <=? max_size
  | DList l => forallb (data_ok max_size) l
  | DDict m =>
      keys_sorted m &&
      forallb (fun e => (Z.of_nat (String.length (fst e)) <=? max_size) && data_ok max_size (snd e)) m
  end.

(** Induction over data, with the hypothesis for the members of containers. *)
Lemma data_nested_ind (P : data -> Prop) :
  (forall i, P (DInteger i)) -> (forall s, P (DString s)) ->
  (forall l, Forall P l -> P (DList l)) ->
  (forall m, Forall (fun e => P (snd e)) m -> P (DDict m)) -> forall d, P d.
Proof.
  intros Hi Hs Hl Hm. fix IH 1. intros [i|s|l|m]; [apply Hi|apply Hs|apply Hl|apply Hm].
  - induction l; constructor; auto.
  - induction m; constructor; auto.
Qed.

(** ** The order of the keys *)

Lemma ltb_lt a b : String.ltb a b = true <-> OrdersEx.String_as_OT.lt a b.
Proof.
  unfold String.ltb, OrdersEx.String_as_OT.lt.
  assert (String.compare a b = OrdersEx.String_as_OT.compare a b) as ->.
  { revert b. induction a as [|c a IH]; intros [|d b]; cbn; try done. }
  by destruct (OrdersEx.String_as_OT.compare a b).
Qed.
Lemma ltb_irrefl a : String.ltb a a = false.
Proof. apply not_true_iff_false. rewrite ltb_lt. apply OrdersEx.String_as_OT.lt_strorder. Qed.
Lemma ltb_trans a b c : String.ltb a b = true -> String.ltb b c = true -> String.ltb a c = true.
Proof. rewrite !ltb_lt. apply OrdersEx.String_as_OT.lt_strorder. Qed.
Lemma ltb_total a b : a = b \/ String.ltb a b = true \/ String.ltb b a = true.
Proof. rewrite !ltb_lt. destruct (OrdersEx.String_as_OT.compare_spec a b); auto. Qed.

Lemma forallb_Forall {A} (f : A -> bool) l : forallb f l = true <-> Forall (fun x => f x = true) l.
Proof. induction l; cbn; [by split|]. by rewrite andb_true_iff, IHl, Forall_cons. Qed.

(** An ascending key goes to the end of the map; any new key keeps the map sorted. *)
Lemma dict_emplace_last k v (m : dict) :
  Forall (fun e => String.ltb (fst e) k = true) m -> dict_emplace k v m = m ++ [(k, v)].
Proof.
  induction m as [|[k' v'] m IH]; [done|]. intros [Hk Hm]%Forall_cons. cbn in *.
  destruct (String.ltb k k') eqn:Hlt; [|by rewrite IH].
  pose proof (ltb_trans _ _ _ Hk Hlt) as H. by rewrite ltb_irrefl in H.
Qed.
Lemma dict_emplace_Forall (P : string * data -> Prop) k v (m : dict) :
  P (k, v) -> Forall P m -> Forall P (dict_emplace k v m).
Proof.
  intros HP. induction m as [|[k' v'] m IH]; intros Hm; cbn; [by constructor|].
  destruct (String.ltb k k'); [by constructor|]. apply Forall_cons in Hm as [? ?].
  constructor; auto.
Qed.
Lemma dict_emplace_sorted k v (m : dict) :
  dict_has k m = false -> keys_sorted m = true -> keys_sorted (dict_emplace k v m) = true.
Proof.
  unfold dict_has. rewrite bool_decide_eq_false. induction m as [|[k' v'] m IH]; [done|].
  cbn [fmap list_fmap fst keys_sorted dict_emplace]. intros Hk [Hk' Hm]%andb_true_iff.
  rewrite not_elem_of_cons in Hk. destruct Hk as [Hne Hk].
  destruct (String.ltb k k') eqn:Hlt; cbn [keys_sorted].
  - rewrite andb_true_iff. cbn [forallb fst keys_sorted]. rewrite Hlt, Hk', Hm. cbn. split; [|done].
    rewrite forallb_Forall in *. eapply Forall_impl; [exact Hk'|]. intros e. by apply ltb_trans.
  - rewrite andb_true_iff. split; [|by apply IH]. rewrite forallb_Forall in *.
    apply dict_emplace_Forall; [|done]. cbn. destruct (ltb_total k' k) as [->|[?|?]]; [done|done|congruence].
Qed.

(** * Decoding ends, with well-formed data

    [reads N m P]: on a stream of at most [N] characters [m] leaves at most [N], returns
    only values [P] holds of, and fails no assertion. *)
Definition short (N : nat) (s : string) : Prop := (String.length s <= N)%nat.
Definition reads {A} (N : nat) (m : Decoder A) (P : A -> Prop) : Prop :=
  triple (short N) m (fun a s => short N s /\ P a) (fun e _ => e <> assertion_failed).

Lemma reads_ret {A} N (a : A) (P : A -> Prop) : P a -> reads N (sm_ret a) P.
Proof. by intros H s Hs. Qed.
Lemma reads_throw {A} N e (P : A -> Prop) : e <> assertion_failed -> reads N (sm_throw e) P.
Proof. by intros H s Hs. Qed.
Lemma reads_bind {A B} N (m : Decoder A) (k : A -> Decoder B) P Q :
  reads N m P -> (forall a, P a -> reads N (k a) Q) -> reads N (sm_bind m k) Q.
Proof. intros Hm Hk. eapply triple_bind; [exact Hm|]. intros a s [Hs Ha]. by apply Hk. Qed.
Lemma reads_when N b e : e <> assertion_failed -> reads N (sm_when b (sm_throw e)) (fun _ => b = false).
Proof. intros He s Hs. by destruct b. Qed.
Lemma reads_peek N : reads N peek (fun _ => True).
Proof. by intros s Hs. Qed.
Lemma reads_advance N : reads N advance (fun _ => True).
Proof. intros [|c s] Hs; [done|]. unfold short in *. cbn in *. split; [lia|done]. Qed.
Lemma reads_check_end N : reads N check_end (fun _ => True).
Proof. intros s Hs. unfold check_end, at_end, sm_bind, sm_gets. by destruct (bool_decide (s = "")). Qed.
Lemma reads_weaken {A} N (m : Decoder A) (P Q : A -> Prop) :
  reads N m P -> (forall a, P a -> Q a) -> reads N m Q.
Proof. intros Hm HP. eapply triple_conseq; [exact Hm|done| |done]. intros a s [? ?]. auto. Qed.

Create HintDb reads discriminated.
#[export] Hint Resolve reads_peek reads_advance reads_check_end reads_when : reads.
(** Walks over a bind whose first computation is one of the above. *)
Ltac reads_step := eapply reads_bind; [solve [eauto with reads; by apply reads_when]|intros ? ?].

(** ** Integers stay in the range of their type *)

Lemma digit_range c : isdigit c = true -> 0 <= digit_value c <= 9.
Proof. unfold isdigit, digit_value. lia. Qed.

Record integer_ok (t : Integer) : Prop := {
  fits_max : 10 ^ Z.of_nat (digits10 t) <= limits_max t < 10 ^ (Z.of_nat (digits10 t) + 1);
  fits_min : limits_min t = 0 \/
    - 10 ^ (Z.of_nat (digits10 t) + 1) < limits_min t <= - 10 ^ Z.of_nat (digits10 t);
}.
Lemma long_long_ok : integer_ok long_long.
Proof. split; cbn; lia. Qed.
Lemma size_t_ok : integer_ok size_t.
Proof. split; cbn; lia. Qed.

(** A sign the type has. *)
Definition sign_ok (t : Integer) (sgn : Z) : Prop := sgn = 1 \/ (sgn = -1 /\ limits_min t < 0).
Definition in_range (t : Integer) (v : Z) : Prop := limits_min t <= v <= limits_max t.

Lemma reads_fitting N t sgn n value rest :
  sign_ok t sgn -> integer_ok t -> (n <= digits10 t)%nat ->
  0 <= value * sgn < 10 ^ Z.of_nat (digits10 t - n) ->
  (forall v, 0 <= v * sgn < 10 ^ Z.of_nat (digits10 t) -> reads N (rest v) (in_range t)) ->
  reads N (fitting_digits n sgn value rest) (in_range t).
Proof.
  intros Hsgn [Hmax Hmin]. revert value. induction n as [|n IH]; intros value Hn Hv Hrest; cbn.
  - apply Hrest. by rewrite Nat.sub_0_r in Hv.
  - reads_step. reads_step. destruct (isdigit a0) eqn:Hd.
    + reads_step. apply IH; [lia| |done]. apply digit_range in Hd.
      replace (digits10 t - n)%nat with (S (digits10 t - S n)) by lia.
      rewrite Nat2Z.inj_succ, Z.pow_succ_r by lia. destruct Hsgn as [-> | [-> _]]; lia.
    + apply reads_ret. unfold in_range.
      assert (10 ^ Z.of_nat (digits10 t - S n) <= 10 ^ Z.of_nat (digits10 t)) by (apply Z.pow_le_mono_r; lia).
      destruct Hsgn as [-> | [-> ?]]; lia.
Qed.

Lemma reads_over_underflow N t value digit sgn :
  sign_ok t sgn -> integer_ok t -> 0 <= value * sgn -> 0 <= digit * sgn <= 9 ->
  reads N (check_over_underflow t value digit sgn) (fun _ => in_range t (value * 10 + digit)).
Proof.
  intros Hsgn [Hmax Hmin] Hv Hd. unfold check_over_underflow, check_overflow, check_underflow, in_range.
  assert (0 < 10 ^ Z.of_nat (digits10 t)) by (by apply Z.pow_pos_nonneg; lia).
  destruct Hsgn as [-> | [-> Hneg]]; cbn [Z.eqb Pos.eqb].
  - eapply reads_weaken; [by apply reads_when|]. intros ? Hc. cbn in Hc |- *.
    pose proof (Z.quot_rem' (limits_max t) 10).
    assert (0 <= Z.rem (limits_max t) 10) by (apply Z.rem_nonneg; lia). lia.
  - eapply reads_weaken; [by apply reads_when|]. intros ? Hc. cbn in Hc |- *.
    pose proof (Z.quot_rem' (limits_min t) 10).
    assert (Z.rem (limits_min t) 10 <= 0) by (apply Z.rem_nonpos; lia). lia.
Qed.

Lemma reads_last N t sgn v : sign_ok t sgn -> integer_ok t ->
  0 <= v * sgn < 10 ^ Z.of_nat (digits10 t) -> reads N (last_digit t sgn v) (in_range t).
Proof.
  intros Hsgn Hok Hv. unfold last_digit. reads_step. reads_step.
  assert (in_range t v) as Hin.
  { unfold in_range. destruct Hok as [? ?]. destruct Hsgn as [-> | [-> ?]]; lia. }
  eapply reads_bind with (P := in_range t).
  - destruct (isdigit _) eqn:Hd; [|by apply reads_ret]. reads_step. apply digit_range in Hd.
    eapply reads_bind; [apply reads_over_underflow; [done|done|lia|]|].
    { destruct Hsgn as [-> | [-> ?]]; lia. }
    intros ? Hr. by apply reads_ret.
  - intros v' Hv'. reads_step. eapply reads_bind; [apply reads_when; by destruct (sgn =? 1)|].
    intros ? _. by apply reads_ret.
Qed.
Lemma reads_digits N t sgn : sign_ok t sgn -> integer_ok t -> reads N (decode_digits t sgn) (in_range t).
Proof.
  intros Hsgn Hok. unfold decode_digits, decode_assert.
  assert (((sgn =? 1) || ((limits_min t <? 0) && (sgn =? -1))) = true) as ->.
  { destruct Hsgn as [-> | [-> H%Z.ltb_lt]]; [done|]. by rewrite H. }
  eapply (reads_bind _ _ _ (fun _ => True)); [by apply reads_ret|]. intros _ _.
  apply reads_fitting; [done|done|done| |].
  { rewrite Nat.sub_diag. lia. }
  intros v Hv. by apply reads_last.
Qed.

(** ** Values *)

Section total.
Context (max_size : Z).
Abbreviation ok := (data_ok max_size).
Definition key_ok (k : string) : bool := Z.of_nat (String.length k) <=? max_size.

Lemma reads_chars N len : 0 <= len -> reads N (read_chars len) (fun v => Z.of_nat (String.length v) = len).
Proof.
  intros Hlen s. revert len Hlen. induction s as [|c s IH]; intros len Hlen Hs; cbn.
  - destruct (Z.leb_spec len 0); [|done]. cbn. split; [done|lia].
  - destruct (Z.leb_spec len 0); [cbn; split; [done|lia]|].
    unfold short in *. cbn in Hs. specialize (IH (len - 1) ltac:(lia) ltac:(lia)).
    destruct (read_chars (len - 1) s) as [[v|e] s']; cbn in *; [destruct IH; split; lia|done].
Qed.

(** [m] on a stream with a character to read leaves less of it. *)
Definition consumes {A} (N : nat) (m : Decoder A) (s : string) (P : A -> Prop) : Prop :=
  match m s with
  | (Ok a, s) => short N s /\ P a
  | (Err e, _) => e <> assertion_failed
  end.
Lemma reads_consumes {A} N (m : Decoder A) s P : reads N m P -> short N s -> consumes N m s P.
Proof. intros Hm Hs. specialize (Hm s Hs). unfold consumes. destruct (m s) as [[a|e] s']; naive_solver. Qed.
Lemma consumes_bind {A B} N (m : Decoder A) (k : A -> Decoder B) s P Q :
  consumes N m s P -> (forall a, P a -> reads N (k a) Q) -> consumes N (sm_bind m k) s Q.
Proof.
  unfold consumes, sm_bind. destruct (m s) as [[a|e] s']; [|done]. intros [Hs Ha] Hk.
  by apply (reads_consumes N (k a)); [apply Hk|].
Qed.
Lemma consumes_step {A B} N (m : Decoder A) (k : A -> Decoder B) s a s' Q :
  m s = (Ok a, s') -> consumes N (k a) s' Q -> consumes N (sm_bind m k) s Q.
Proof. intros Hm. unfold consumes. by rewrite (sm_bind_ok _ _ _ _ _ Hm). Qed.

Lemma decode_int_consumes N s : short N s ->
  consumes N decode_int (String "i" s) (in_range long_long).
Proof.
  intros Hs. unfold decode_int. do 3 (eapply consumes_step; [reflexivity|]).
  apply reads_consumes; [|done].
  reads_step. eapply reads_bind with (P := in_range long_long).
  - case_bool_decide; [reads_step|]; apply reads_digits, long_long_ok; [right|left]; done.
  - intros v Hv. reads_step. reads_step. reads_step. by apply reads_ret.
Qed.

Lemma fitting_digits_S n sgn value rest :
  fitting_digits (S n) sgn value rest =
    (check_end ;;; c <-- peek ;;
     if isdigit c then advance ;;; fitting_digits n sgn (value * 10 + digit_value c * sgn) rest
     else sm_ret value)%sm.
Proof. done. Qed.
Lemma decode_digits_consumes N c s : isdigit c = true -> short N s ->
  consumes N (decode_digits size_t 1) (String c s) (in_range size_t).
Proof.
  intros Hc Hs. unfold decode_digits. eapply consumes_step; [reflexivity|].
  change (digits10 size_t) with (S 18). rewrite fitting_digits_S.
  do 2 (eapply consumes_step; [reflexivity|]). rewrite Hc.
  eapply consumes_step; [reflexivity|]. apply reads_consumes; [|done].
  apply digit_range in Hc. pose proof size_t_ok.
  apply reads_fitting; [by left|done|cbn; lia|cbn; lia|]. intros v Hv. by apply reads_last; [left|..].
Qed.
Lemma decode_str_consumes N c s : isdigit c = true -> short N s ->
  consumes N (decode_str max_size) (String c s) (fun v => key_ok v = true).
Proof.
  intros Hc Hs. unfold decode_str. eapply consumes_step; [reflexivity|].
  eapply consumes_step; [by rewrite Hc|].
  eapply consumes_bind; [by apply decode_digits_consumes|]. intros len [Hlen _].
  reads_step. reads_step. reads_step. reads_step. unfold str_reader. reads_step.
  eapply reads_weaken; [by apply reads_chars|]. intros v <-. unfold key_ok. cbn in *. lia.
Qed.

(** ** The stack

    What an open container holds is well formed; below the top the key of the member that
    is open is new. *)
Definition frame_ok (f : frame) : Prop := match f with
  | OpenList l => forallb ok l = true
  | OpenDict m _ => ok (DDict m) = true
  end.
Definition pending (f : frame) : Prop := match f with
  | OpenList _ => True
  | OpenDict m k => dict_has k m = false /\ key_ok k = true
  end.
Record decoding_ok (d : decoding) : Prop := {
  stack_ok : Forall frame_ok (state d);
  pending_ok : Forall pending (tail (state d));
}.
(** A decoding after a round: the root is complete when the stack is empty. *)
Definition round_ok (d : decoding) : Prop :=
  decoding_ok d /\ (state d = [] -> exists v, decoded d = Some v /\ ok v = true).
(** A decoding whose next member can be put into the top of the stack. *)
Definition ready (d : decoding) : Prop :=
  decoding_ok d /\ match state d with OpenDict _ k :: _ => key_ok k = true | _ => True end.

Lemma frame_data_ok f : frame_ok f -> ok (frame_data f) = true.
Proof. by destruct f. Qed.
Lemma attach_ok thing d :
  decoding_ok d -> match state d with f :: _ => pending f | [] => True end -> ok thing = true ->
  round_ok (attach thing d).
Proof.
  destruct d as [[|[l|m k] st] r]; unfold attach; cbn; intros [Hst Hp] Htop Hok.
  - split; [by split|]. intros _. by exists thing.
  - apply Forall_cons in Hst as [Hl Hst]. cbn in *. split; [|done].
    split; [|done]. constructor; [|done]. cbn. rewrite forallb_app, Hl. cbn. by rewrite Hok.
  - apply Forall_cons in Hst as [Hm Hst]. cbn in *. split; [|done].
    split; [|done]. constructor; [|done]. cbn. apply andb_true_iff in Hm as [Hs Hm].
    destruct Htop as [Hnew Hk]. rewrite dict_emplace_sorted by done. cbn.
    rewrite forallb_Forall in *. apply dict_emplace_Forall; [|done]. cbn. by rewrite Hok, andb_true_r.
Qed.
Lemma pop_ok d f st : decoding_ok d -> state d = f :: st -> round_ok (pop d).
Proof.
  intros [Hst Hp] Hd. unfold pop. rewrite Hd in *. cbn in *.
  apply Forall_cons in Hst as [Hf Hst]. apply attach_ok; [| |by apply frame_data_ok]; cbn.
  - split; [done|]. cbn. by destruct Hp.
  - destruct st; [done|]. by apply Forall_cons in Hp as [? _].
Qed.

Lemma reads_check_key N d : ready d ->
  reads N (check_key d) (fun _ => match state d with f :: _ => pending f | [] => True end).
Proof.
  intros [_ Hk]. unfold check_key. destruct (state d) as [|[l|m k] st]; [by apply reads_ret..|].
  eapply reads_weaken; [by apply reads_when|]. by intros ? H.
Qed.
Lemma reads_store N thing d : ready d -> ok thing = true -> reads N (store thing d) round_ok.
Proof.
  intros Hd Hok. unfold store. eapply reads_bind; [by apply reads_check_key|]. intros ? Hp.
  apply reads_ret. apply attach_ok; [by destruct Hd|done|done].
Qed.
Lemma reads_store_open N f d : ready d -> frame_ok f -> reads N (store_open f d) round_ok.
Proof.
  intros Hd Hf. unfold store_open. eapply reads_bind; [by apply reads_check_key|]. intros ? Hp.
  apply reads_ret. destruct Hd as [[Hst Hpd] _]. split; [|done]. split; cbn; [by constructor|].
  destruct (state d); [done|by constructor].
Qed.

(** ** A round consumes a character *)

Lemma consumes_throw {A} N e s (P : A -> Prop) : e <> assertion_failed -> consumes N (sm_throw e) s P.
Proof. done. Qed.
Lemma decode_value_consumes N d c s : ready d -> short N s ->
  consumes N (decode_value max_size d) (String c s) round_ok.
Proof.
  intros Hd Hs. unfold decode_value. eapply consumes_step; [reflexivity|].
  case_bool_decide as Hi; [subst c|].
  { eapply consumes_bind; [by apply decode_int_consumes|]. intros i Hi. apply reads_store; [done|].
    unfold in_range in Hi. cbn -[long_long]. lia. }
  case_bool_decide; [eapply consumes_step; [reflexivity|]; apply reads_consumes; [by apply reads_store_open|done]|].
  case_bool_decide; [eapply consumes_step; [reflexivity|]; apply reads_consumes; [by apply reads_store_open|done]|].
  destruct (isdigit c) eqn:Hc; [|by apply consumes_throw].
  eapply consumes_bind; [by apply decode_str_consumes|]. intros v Hv. by apply reads_store.
Qed.
Lemma reads_decode_value N d : ready d -> reads N (decode_value max_size d) round_ok.
Proof.
  intros Hd [|c s] Hs; [done|]. unfold short in Hs. cbn in Hs.
  pose proof (decode_value_consumes (String.length s) d c s Hd (le_n _)) as Hc. unfold consumes in Hc.
  destruct (decode_value max_size d (String c s)) as [[d'|e] s']; [|done]. unfold short in *.
  destruct Hc. split; [lia|done].
Qed.
Lemma decode_step_consumes N d c s : decoding_ok d -> short N s ->
  consumes N (decode_step max_size d) (String c s) round_ok.
Proof.
  intros Hd Hs. unfold decode_step. do 2 (eapply consumes_step; [reflexivity|]).
  case_bool_decide.
  { destruct (state d) as [|f st] eqn:Hst; [by apply consumes_throw|].
    eapply consumes_step; [reflexivity|]. apply reads_consumes; [|done]. apply reads_ret.
    by eapply pop_ok. }
  destruct (state d) as [|[l|m k0] st] eqn:Hst;
    [apply decode_value_consumes; [|done]; split; [done|by rewrite Hst]..|].
  destruct (isdigit c) eqn:Hc; [|done]. eapply consumes_step; [reflexivity|].
  eapply consumes_bind; [by apply decode_str_consumes|]. intros k Hk. reads_step.
  apply reads_decode_value. unfold set_dict_key, ready. rewrite Hst. cbn. split; [|done].
  destruct Hd as [Hf Hp]. rewrite Hst in *. split; [|done]. cbn. by apply Forall_cons in Hf as [? ?]; constructor.
Qed.

Lemma decode_loop_total n d s : decoding_ok d -> (String.length s < n)%nat ->
  exists r s', decode_loop max_size n d s = Some (r, s') /\
    match r with Ok v => ok v = true | Err e => e <> assertion_failed end.
Proof.
  revert d s. induction n as [|n IH]; intros d s Hd Hn; [lia|]. cbn [decode_loop].
  destruct s as [|c s]; [by do 2 eexists|]. cbn in Hn.
  pose proof (decode_step_consumes (String.length s) d c s Hd (le_n _)) as Hc. unfold consumes in Hc.
  destruct (decode_step max_size d (String c s)) as [[d'|e] s']; [|by do 2 eexists].
  destruct Hc as [Hs [Hd' Hr]]. unfold short in Hs.
  destruct (state d') as [|f st] eqn:Hst.
  - destruct (Hr eq_refl) as (v & -> & Hv). by do 2 eexists.
  - apply IH; [done|lia].
Qed.
End total.

(** Decoding is total and checked: on every stream the decoder ends, in no more rounds
    than the stream has characters, with an exception that reports malformed input, never a
    failed assertion, or with data whose integers are in the range of [long long], whose
    strings fit, and whose dictionaries have sorted keys without duplicates. *)
Theorem decode_total max_size s :
  exists r s', decode max_size s = Some (r, s') /\
    match r with Ok v => data_ok max_size v = true | Err e => e <> assertion_failed end.
Proof. apply decode_loop_total; [by split|lia]. Qed.

(** * Decoding what was encoded *)

(** ** Decimal digits *)

Definition of_digits (ds : list Z) (s : string) : string :=
  foldr (fun d s => String (pretty_N_char (Z.to_N d)) s) s ds.
Definition digits_value (v : Z) (ds : list Z) : Z := foldl (fun v d => v * 10 + d) v ds.
Definition digit (d : Z) : Prop := 0 <= d <= 9.

Lemma of_digits_app ds1 ds2 s : of_digits (ds1 ++ ds2) s = of_digits ds1 (of_digits ds2 s).
Proof. apply foldr_app. Qed.
Lemma digit_char d : digit d -> isdigit (pretty_N_char (Z.to_N d)) = true /\
  digit_value (pretty_N_char (Z.to_N d)) = d.
Proof.
  intros Hd. assert (d = 0 \/ d = 1 \/ d = 2 \/ d = 3 \/ d = 4 \/ d = 5 \/ d = 6 \/ d = 7 \/ d = 8 \/ d = 9)
    as H by (unfold digit in Hd; lia).
  by repeat (destruct H as [->|H]; [done|]); subst.
Qed.
Lemma digits_value_app v ds d : digits_value v (ds ++ [d]) = digits_value v ds * 10 + d.
Proof. unfold digits_value. by rewrite foldl_app. Qed.

(** The decimal digits of a positive number, and how many they are. *)
Lemma pretty_go_digits (n : N) : (0 < n)%N -> exists ds,
  (forall s s', pretty_N_go n s +:+ s' = of_digits ds (s +:+ s')) /\ Forall digit ds /\
  digits_value 0 ds = Z.of_N n /\ ds <> [] /\ 10 ^ (Z.of_nat (length ds) - 1) <= Z.of_N n.
Proof.
  induction (N.lt_wf_0 n) as [n _ IH]. intros Hn.
  pose proof (N.div_mod' n 10) as Hdm. pose proof (N.mod_lt n 10 ltac:(done)) as Hm.
  assert (0 <= Z.of_N (n `mod` 10) <= 9) as Hd by (revert Hm; generalize (n `mod` 10)%N; lia).
  assert (Z.of_N n = Z.of_N (n / 10) * 10 + Z.of_N (n `mod` 10)) as Hn10.
  { rewrite Hdm at 1. generalize (n / 10)%N, (n `mod` 10)%N. lia. }
  set (d := Z.of_N (n `mod` 10)) in *.
  assert (forall s, String (pretty_N_char (n `mod` 10)) s = of_digits [d] s) as Hch.
  { intros s. unfold d. cbn. by rewrite N2Z.id. }
  destruct (decide (n / 10 = 0)%N) as [H0|H0].
  - exists [d]. split_and!; [|by constructor| |done|].
    + intros s s'. rewrite pretty_N_go_step, H0 by done. rewrite pretty_N_go_0, Hch. done.
    + cbn. lia.
    + cbn. lia.
  - destruct (IH (n / 10)%N ltac:(by apply N.div_lt) ltac:(lia)) as (ds & Hs & Hds & Hv & Hne & Hlen).
    exists (ds ++ [d]). split_and!.
    + intros s s'. rewrite pretty_N_go_step by done. rewrite Hs, of_digits_app, Hch. done.
    + apply Forall_app. split; [done|by constructor].
    + rewrite digits_value_app, Hv. lia.
    + by destruct ds.
    + rewrite length_app. cbn [length]. replace (Z.of_nat (length ds + 1) - 1) with (Z.succ (Z.of_nat (length ds) - 1)) by lia.
      destruct ds; [done|]. rewrite Z.pow_succ_r by (cbn; lia). lia.
Qed.
(** [std::to_chars] of a number that is not negative. *)
Lemma pretty_digits (z : Z) s : 0 <= z -> exists ds,
  pretty z +:+ s = of_digits ds s /\ Forall digit ds /\ digits_value 0 ds = z /\ ds <> [] /\
  (length ds = 1%nat \/ 10 ^ (Z.of_nat (length ds) - 1) <= z).
Proof.
  intros Hz. destruct z as [|p|p]; [| |lia].
  - exists [0]. split_and!; try done; [|by left]. by repeat constructor.
  - destruct (pretty_go_digits (Npos p) ltac:(done)) as (ds & Hs & Hds & Hv & Hne & Hlen).
    exists ds. split_and!; try done; [apply (Hs "" s)|by right].
Qed.

(** ** Reading a number *)

(** Runs the first computation of a bind on a stream whose first character is known. *)
Ltac run := erewrite sm_bind_ok by reflexivity; cbv beta.

Definition signed_value (sgn v : Z) (ds : list Z) : Z := foldl (fun v d => v * 10 + d * sgn) v ds.
Lemma signed_value_eq sgn v ds : signed_value sgn (v * sgn) ds = digits_value v ds * sgn.
Proof.
  revert v. induction ds as [|d ds IH]; intros v; [done|]. cbn.
  replace (v * sgn * 10 + d * sgn) with ((v * 10 + d) * sgn) by lia. apply IH.
Qed.

Lemma signed_value_0 sgn ds : signed_value sgn 0 ds = digits_value 0 ds * sgn.
Proof. exact (signed_value_eq sgn 0 ds). Qed.
Lemma digits_value_nonneg v ds : 0 <= v -> Forall digit ds -> 0 <= digits_value v ds.
Proof.
  intros Hv Hds. revert v Hv. induction Hds as [|d ds Hd _ IH]; intros v Hv; [done|].
  cbn. apply IH. unfold digit in Hd. lia.
Qed.
Lemma split_at {A} n (l : list A) : (n <= length l)%nat -> exists l1 l2, l = l1 ++ l2 /\ length l1 = n.
Proof. intros Hn. exists (take n l), (drop n l). by rewrite take_drop, length_take_le. Qed.

Lemma fitting_digits_step n sgn v rest d s : digit d ->
  fitting_digits (S n) sgn v rest (of_digits [d] s) = fitting_digits n sgn (v * 10 + d * sgn) rest s.
Proof.
  intros [H1 H2]%digit_char. rewrite fitting_digits_S. cbn [of_digits foldr].
  run. run. rewrite H1. run. by rewrite H2.
Qed.
Lemma fitting_digits_short n sgn v ds c s rest :
  Forall digit ds -> isdigit c = false -> (length ds < n)%nat ->
  fitting_digits n sgn v rest (of_digits ds (String c s)) = (Ok (signed_value sgn v ds), String c s).
Proof.
  intros Hds Hc. revert v n. induction Hds as [|d ds Hd _ IH]; intros v [|n] Hn; cbn in Hn; try lia.
  - rewrite fitting_digits_S. cbn [of_digits foldr]. run. run. by rewrite Hc.
  - change (d :: ds) with ([d] ++ ds). rewrite of_digits_app, fitting_digits_step by done. apply IH. lia.
Qed.
Lemma fitting_digits_all n sgn v ds1 ds2 s rest :
  Forall digit ds1 -> length ds1 = n ->
  fitting_digits n sgn v rest (of_digits (ds1 ++ ds2) s) = rest (signed_value sgn v ds1) (of_digits ds2 s).
Proof.
  intros Hds. revert v n. induction Hds as [|d ds Hd _ IH]; intros v [|n] Hn; try done.
  cbn [app]. change (d :: ds ++ ds2) with ([d] ++ (ds ++ ds2)).
  rewrite of_digits_app, fitting_digits_step by done. apply IH. by injection Hn.
Qed.

Lemma last_digit_none t sgn v c s : isdigit c = false ->
  last_digit t sgn v (String c s) = (Ok v, String c s).
Proof. intros Hc. unfold last_digit. run. run. rewrite Hc. run. run. by rewrite Hc. Qed.
Lemma last_digit_one t sgn v d c s : sign_ok t sgn -> integer_ok t -> 0 <= v * sgn ->
  digit d -> isdigit c = false -> in_range t (v * 10 + d * sgn) ->
  last_digit t sgn v (of_digits [d] (String c s)) = (Ok (v * 10 + d * sgn), String c s).
Proof.
  intros Hsgn [Hmax Hmin] Hv Hd Hc Hr. destruct (digit_char d Hd) as [H1 H2].
  unfold last_digit. cbn [of_digits foldr]. run. run. rewrite H1. 
  assert (check_over_underflow t v (d * sgn) sgn (String c s) = (Ok tt, String c s)) as Hno.
  { unfold check_over_underflow, check_overflow, check_underflow, digit, in_range in *.
    assert (0 < 10 ^ Z.of_nat (digits10 t)) by (by apply Z.pow_pos_nonneg; lia).
    pose proof (Z.quot_rem' (limits_max t) 10). pose proof (Z.quot_rem' (limits_min t) 10).
    assert (0 <= Z.rem (limits_max t) 10 < 10) by (apply Z.rem_bound_pos; lia).
    pose proof (Z.rem_bound_abs (limits_min t) 10 ltac:(done)).
    assert (Z.rem (limits_min t) 10 <= 0) by (apply Z.rem_nonpos; lia).
    destruct Hsgn as [-> | [-> Hneg]]; cbn [Z.eqb Pos.eqb]; cbv zeta.
    all: destruct (_ || _) eqn:Hb; [lia|done]. }
  erewrite sm_bind_ok; [|run; rewrite H2; erewrite sm_bind_ok by exact Hno; reflexivity].
  cbv beta. run. by rewrite Hc.
Qed.

(** A number is read back up to what follows it, in the range of its type. *)
Lemma decode_digits_of t sgn ds c s :
  sign_ok t sgn -> integer_ok t -> Forall digit ds -> ds <> [] -> isdigit c = false ->
  in_range t (digits_value 0 ds * sgn) ->
  length ds = 1%nat \/ 10 ^ (Z.of_nat (length ds) - 1) <= digits_value 0 ds ->
  decode_digits t sgn (of_digits ds (String c s)) = (Ok (digits_value 0 ds * sgn), String c s).
Proof.
  intros Hsgn Hok Hds Hne Hc Hr Hlen. unfold decode_digits, decode_assert.
  assert (((sgn =? 1) || ((limits_min t <? 0) && (sgn =? -1))) = true) as ->.
  { destruct Hsgn as [-> | [-> H%Z.ltb_lt]]; [done|]. by rewrite H. }
  cbn [negb sm_when]. erewrite sm_bind_ok by reflexivity.
  assert (length ds <= digits10 t + 1)%nat as Hl.
  { destruct Hlen as [-> | Hlen]; [lia|]. destruct Hok as [Hmax Hmin]. apply Nat2Z.inj_le.
    assert (10 ^ (Z.of_nat (length ds) - 1) < 10 ^ (Z.of_nat (digits10 t) + 1)) as Hlt.
    { unfold in_range in Hr. destruct Hsgn as [-> | [-> ?]]; lia. }
    apply Z.pow_lt_mono_r_iff in Hlt; lia. }
  destruct (decide (length ds < digits10 t)%nat) as [Hlt|Hge].
  { rewrite fitting_digits_short by done. by rewrite signed_value_0. }
  destruct (split_at (digits10 t) ds ltac:(lia)) as (ds1 & ds2 & -> & H1).
  rewrite length_app in Hl. apply Forall_app in Hds as [Hds1 Hds2].
  rewrite fitting_digits_all, signed_value_0 by done.
  destruct ds2 as [|d [|d' ds2]]; [|..|cbn in Hl; lia].
  - rewrite app_nil_r in *. by apply last_digit_none.
  - apply Forall_cons in Hds2 as [Hd _]. rewrite digits_value_app in *. rewrite last_digit_one; try done.
    + f_equal. f_equal. lia.
    + pose proof (digits_value_nonneg 0 ds1 ltac:(done) Hds1). destruct Hsgn as [-> | [-> ?]]; lia.
    + unfold in_range in *. lia.
Qed.

Lemma str_app_assoc (s1 s2 s3 : string) : (s1 +:+ s2) +:+ s3 = s1 +:+ (s2 +:+ s3).
Proof. induction s1 as [|c s1 IH]; [done|]. exact (f_equal (String c) IH). Qed.
Lemma decode_int_of z s : in_range long_long z -> decode_int (encode_integer z +:+ s) = (Ok z, s).
Proof.
  intros Hz. unfold encode_integer, write_integer. rewrite !str_app_assoc.
  assert (exists sgn, sign_ok long_long sgn /\ 0 <= z * sgn /\ z * sgn * sgn = z /\
    pretty z = (if sgn =? 1 then "" else "-") +:+ pretty (z * sgn)) as (sgn & Hsgn & Hpos & Hsq & Hp).
  { destruct (decide (0 <= z)); [exists 1|exists (-1)].
    - rewrite Z.mul_1_r. split_and!; [by left|done|lia|done].
    - replace (z * -1) with (- z) by lia. split_and!; [by right|lia|lia|]. destruct z; [lia|lia|done]. }
  destruct (pretty_digits (z * sgn) ("e" +:+ s) Hpos) as (ds & Hs & Hds & Hv & Hne & Hlen).
  assert (decode_digits long_long sgn (of_digits ds (String "e" s)) = (Ok z, String "e" s)) as Hd.
  { rewrite decode_digits_of; [by rewrite Hv, Hsq|done|apply long_long_ok|done|done|done| |].
    - by rewrite Hv, Hsq. - by rewrite Hv. }
  rewrite Hp, str_app_assoc, Hs. change ("e" +:+ s) with (String "e" s).
  change ("i" +:+ ?x) with (String "i" x). unfold decode_int. run. run. run.
  destruct Hsgn as [-> | [-> _]]; cbn [Z.eqb Pos.eqb].
  - change ("" +:+ ?x) with x. destruct ds as [|d ds]; [done|].
    assert (pretty_N_char (Z.to_N d) <> "-"%char) as Hm.
    { apply Forall_cons in Hds as [[Hc _]%digit_char _]. by intros E; rewrite E in Hc. }
    cbn [of_digits foldr]. run. rewrite bool_decide_eq_false_2 by done.
    erewrite sm_bind_ok by exact Hd. cbv beta. run. run. run. done.
  - change ("-" +:+ ?x) with (String "-" x). run.
    rewrite bool_decide_eq_true_2 by done. erewrite sm_bind_ok by (run; exact Hd). cbv beta. run. run. run. done.
Qed.

Lemma read_chars_of v s : read_chars (Z.of_nat (String.length v)) (v +:+ s) = (Ok v, s).
Proof.
  induction v as [|c v IH]; [by destruct s|]. change (String c v +:+ s) with (String c (v +:+ s)).
  cbn [read_chars String.length]. destruct (Z.leb_spec (Z.of_nat (S (String.length v))) 0); [lia|].
  replace (Z.of_nat (S (String.length v)) - 1) with (Z.of_nat (String.length v)) by lia. by rewrite IH.
Qed.
Lemma decode_str_of max_size v s : max_size < 2 ^ 64 -> key_ok max_size v = true ->
  decode_str max_size (encode_string v +:+ s) = (Ok v, s).
Proof.
  unfold key_ok. intros Hmax Hv. unfold encode_string, write_integer. rewrite !str_app_assoc.
  destruct (pretty_digits (Z.of_nat (String.length v)) (":" +:+ (v +:+ s)) ltac:(lia))
    as (ds & Hs & Hds & Hval & Hne & Hlen).
  rewrite Hs. change (":" +:+ ?x) with (String ":" x).
  assert (decode_digits size_t 1 (of_digits ds (String ":" (v +:+ s))) =
    (Ok (Z.of_nat (String.length v)), String ":" (v +:+ s))) as Hd.
  { rewrite decode_digits_of; [by rewrite Hval, Z.mul_1_r|by left|apply size_t_ok|done|done|done| |].
    - rewrite Hval. unfold in_range. cbn [limits_min limits_max size_t]. lia. 
    - by rewrite Hval. }
  unfold decode_str. destruct ds as [|d ds]; [done|].
  assert (isdigit (pretty_N_char (Z.to_N d)) = true) as Hc by (apply Forall_cons in Hds as [[? _]%digit_char _]; done).
  erewrite sm_bind_ok by reflexivity. erewrite sm_bind_ok by (cbn [of_digits foldr]; rewrite Hc; reflexivity).
  erewrite sm_bind_ok by exact Hd. cbv beta. run. run. run. run.
  unfold str_reader. destruct (Z.ltb_spec max_size (Z.of_nat (String.length v))); [lia|]. run.
  apply read_chars_of.
Qed.

(** ** Rounds *)

Section roundtrip.
Context (max_size : Z) (Hmax : max_size < 2 ^ 64).
Abbreviation ok := (data_ok max_size).

Definition round (x y : decoding * string) : Prop :=
  decode_step max_size x.1 x.2 = (Ok y.1, y.2) /\ state y.1 <> [].

(** What precedes the next value: in a dictionary, its key. *)
Definition entry (d : decoding) (pre k : string) : Prop :=
  match state d with
  | OpenDict m _ :: _ => pre = encode_string k /\ dict_has k m = false /\ key_ok max_size k = true
  | _ => pre = ""
  end.
(** From [x] rounds lead to the completion of [v], which [d] receives. *)
Definition completes (x : decoding * string) (v : data) (d : decoding) (rest : string) : Prop :=
  exists y, rtc round x y /\ decode_step max_size y.1 y.2 = (Ok (attach v d), rest).

Lemma encode_string_head v : exists c s, encode_string v = String c s /\ isdigit c = true.
Proof.
  unfold encode_string, write_integer.
  destruct (pretty_digits (Z.of_nat (String.length v)) (":" +:+ v) ltac:(lia))
    as ([|d ds] & Hs & Hds & _ & Hne & _); [done|].
  apply Forall_cons in Hds as [[Hc _]%digit_char _]. rewrite Hs. by do 2 eexists.
Qed.
Lemma digit_not_letter c c' : isdigit c = true -> isdigit c' = false -> c <> c'.
Proof. intros H1 H2 ->. by rewrite H1 in H2. Qed.
Lemma encode_head v : exists c s, encode v = String c s /\ c <> "e"%char.
Proof.
  destruct v as [i|v|l|m]; [by do 2 eexists| |by do 2 eexists..].
  destruct (encode_string_head v) as (c & s & Hs & Hc). exists c, s. split; [done|].
  by eapply digit_not_letter.
Qed.

Lemma decode_step_entry d pre k c s : entry d pre k -> c <> "e"%char ->
  decode_step max_size d (pre +:+ String c s) = decode_value max_size (set_dict_key k d) (String c s).
Proof.
  unfold entry, decode_step. intros He Hc.
  destruct (state d) as [|[l|m k0] st] eqn:Hst.
  1, 2: subst pre; change ("" +:+ ?x) with x; run; run; rewrite bool_decide_eq_false_2 by done;
    unfold set_dict_key; by rewrite Hst.
  destruct He as (-> & Hnew & Hk). destruct (encode_string_head k) as (ck & sk & Hck & Hdig).
  pose proof (decode_str_of max_size k (String c s) Hmax Hk) as Hstr. rewrite Hck in *.
  change (String ck sk +:+ ?x) with (String ck (sk +:+ x)) in *. run. run.
  rewrite bool_decide_eq_false_2 by (by eapply digit_not_letter). rewrite Hdig. run.
  erewrite sm_bind_ok by exact Hstr. cbv beta. by run.
Qed.
Lemma check_key_entry d pre k s : entry d pre k -> check_key (set_dict_key k d) s = (Ok tt, s).
Proof.
  unfold entry, check_key, set_dict_key. destruct (state d) as [|[l|m k0] st] eqn:Hst; [by rewrite Hst..|].
  intros (_ & Hnew & _). cbn. by rewrite Hnew.
Qed.

Lemma decode_value_string d v s pre k : entry d pre k -> ok (DString v) = true ->
  decode_value max_size (set_dict_key k d) (encode_string v +:+ s) =
    (Ok (attach (DString v) (set_dict_key k d)), s).
Proof.
  intros He Hv. pose proof (decode_str_of max_size v s Hmax Hv) as Hstr.
  destruct (encode_string_head v) as (c & s' & Hc & Hdig). rewrite Hc in *.
  change (String c s' +:+ ?x) with (String c (s' +:+ x)) in *. unfold decode_value. run.
  rewrite !bool_decide_eq_false_2, Hdig by (by eapply digit_not_letter).
  erewrite sm_bind_ok by exact Hstr. cbv beta. unfold store.
  by erewrite sm_bind_ok by (by eapply check_key_entry).
Qed.
Lemma decode_value_integer d i s pre k : entry d pre k -> ok (DInteger i) = true ->
  decode_value max_size (set_dict_key k d) (encode_integer i +:+ s) =
    (Ok (attach (DInteger i) (set_dict_key k d)), s).
Proof.
  intros He Hi. unfold decode_value. run. rewrite bool_decide_eq_true_2 by done.
  erewrite sm_bind_ok by (apply decode_int_of; cbn -[long_long] in Hi; unfold in_range; lia).
  cbv beta. unfold store. by erewrite sm_bind_ok by (by eapply check_key_entry).
Qed.

(** A container is opened, its members are read, it is closed. *)
Definition opened (f : frame) (d : decoding) : decoding := mkDecoding (f :: state d) (decoded d).
Lemma decode_step_open d pre k f c s : entry d pre k ->
  (c = "l"%char /\ f = OpenList []) \/ (c = "d"%char /\ f = OpenDict [] "") ->
  round (d, pre +:+ String c s) (opened f (set_dict_key k d), s).
Proof.
  intros He Hf. split; [|done]. cbn [fst snd].
  rewrite (decode_step_entry _ _ k) by (done || by destruct Hf as [[-> _]|[-> _]]).
  unfold decode_value, store_open. destruct Hf as [[-> ->]|[-> ->]]; run;
    (rewrite bool_decide_eq_false_2 by done).
  - rewrite bool_decide_eq_true_2 by done. run. by erewrite sm_bind_ok by (by eapply check_key_entry).
  - rewrite bool_decide_eq_false_2, bool_decide_eq_true_2 by done. run.
    by erewrite sm_bind_ok by (by eapply check_key_entry).
Qed.
Lemma decode_step_close f d rest :
  decode_step max_size (opened f d) (String "e" rest) = (Ok (attach (frame_data f) d), rest).
Proof. by destruct d. Qed.

Lemma foldr_end {A} (f : A -> string) l rest :
  foldr (fun i out => f i +:+ out) "e" l +:+ rest = foldr (fun i out => f i +:+ out) (String "e" rest) l.
Proof. induction l as [|i l IH]; [done|]. cbn [foldr]. by rewrite str_app_assoc, IH. Qed.
Lemma foldr_end2 {A} (f g : A -> string) l rest :
  foldr (fun i out => f i +:+ g i +:+ out) "e" l +:+ rest =
    foldr (fun i out => f i +:+ g i +:+ out) (String "e" rest) l.
Proof. induction l as [|i l IH]; [done|]. cbn [foldr]. by rewrite !str_app_assoc, IH. Qed.

Lemma completes_round x v d rest : state d <> [] -> completes x v d rest -> rtc round x (attach v d, rest).
Proof.
  intros Hd (y & Hxy & Hstep). eapply rtc_r; [exact Hxy|]. split; [done|].
  unfold attach. by destruct (state d) as [|[] ?].
Qed.
(** What is to be shown of every value. *)
Definition decodes (v : data) : Prop := ok v = true -> forall d pre k rest, entry d pre k ->
  completes (d, pre +:+ (encode v +:+ rest)) v (set_dict_key k d) rest.

Lemma decode_members l d pl rest : Forall decodes l -> forallb ok l = true ->
  rtc round (opened (OpenList pl) d, foldr (fun i out => encode i +:+ out) (String "e" rest) l)
    (opened (OpenList (pl ++ l)) d, String "e" rest).
Proof.
  intros Hl. revert pl. induction Hl as [|v l Hv _ IH]; intros pl; [by rewrite app_nil_r|].
  intros [Hok Hokl]%andb_true_iff. cbn [foldr].
  etrans; [|rewrite (cons_middle v pl l), app_assoc; by apply IH].
  apply (completes_round _ v (opened (OpenList pl) d)); [done|]. exact (Hv Hok (opened (OpenList pl) d) "" "" _ eq_refl).
Qed.

Lemma keys_sorted_middle pm k v m : keys_sorted (pm ++ (k, v) :: m) = true ->
  Forall (fun e => String.ltb (fst e) k = true) pm.
Proof.
  induction pm as [|[k' v'] pm IH]; [by constructor|]. cbn. intros [Hk Hs]%andb_true_iff.
  constructor; [|by apply IH]. apply forallb_Forall, Forall_app in Hk as [_ [Hk _]%Forall_cons]. done.
Qed.
Lemma smaller_new k (pm : dict) : Forall (fun e => String.ltb (fst e) k = true) pm -> dict_has k pm = false.
Proof.
  intros Hpm. apply bool_decide_eq_false. intros (e & -> & Hin)%list_elem_of_fmap.
  rewrite Forall_forall in Hpm. specialize (Hpm e Hin). by rewrite ltb_irrefl in Hpm.
Qed.
Lemma decode_entries m d pm k rest : Forall (fun e => decodes (snd e)) m ->
  keys_sorted (pm ++ m) = true ->
  forallb (fun e => key_ok max_size (fst e) && ok (snd e)) m = true ->
  exists k', rtc round
    (opened (OpenDict pm k) d,
     foldr (fun i out => encode_string (fst i) +:+ encode (snd i) +:+ out) (String "e" rest) m)
    (opened (OpenDict (pm ++ m) k') d, String "e" rest).
Proof.
  intros Hm. revert pm k. induction Hm as [|[key v] m Hv _ IH]; intros pm k Hs.
  { exists k. by rewrite app_nil_r. }
  cbn [forallb fst snd]. intros [[Hkey Hok]%andb_true_iff Hokm]%andb_true_iff.
  pose proof (keys_sorted_middle _ _ _ _ Hs) as Hpm. cbn [snd] in Hv.
  rewrite (cons_middle (key, v) pm m), app_assoc in Hs |- *.
  destruct (IH _ key Hs Hokm) as (k' & Hrest). exists k'. etrans; [|exact Hrest]. cbn [foldr fst snd].
  rewrite <- (dict_emplace_last key v pm) by done.
  apply (completes_round _ v (opened (OpenDict pm key) d)); [done|].
  apply (Hv Hok (opened (OpenDict pm k) d) (encode_string key) key). split_and!; [done|by apply smaller_new|done].
Qed.

Lemma decodes_all v : decodes v.
Proof.
  induction v as [i|s|l IH|m IH] using data_nested_ind; intros Hok d pre k rest He; unfold completes.
  - eexists. split; [reflexivity|]. cbn [fst snd].
    rewrite <- (decode_value_integer d i rest pre k) by done. by apply decode_step_entry.
  - eexists. split; [reflexivity|]. cbn [fst snd].
    rewrite <- (decode_value_string d s rest pre k) by done.
    destruct (encode_string_head s) as (c & s' & Hs & Hc). cbn [encode]. rewrite Hs.
    apply (decode_step_entry _ _ k c (s' +:+ rest)); [done|]. by eapply digit_not_letter.
  - cbn [encode]. rewrite str_app_assoc, foldr_end. eexists. split.
    + eapply rtc_l; [by apply (decode_step_open _ _ k (OpenList []) "l"); [done|left]|].
      by apply decode_members.
    + apply decode_step_close.
  - cbn [encode]. rewrite str_app_assoc, foldr_end2. apply andb_true_iff in Hok as [Hs Hok].
    destruct (decode_entries m (set_dict_key k d) [] "" rest IH Hs Hok) as (k' & Hm). eexists. split.
    + eapply rtc_l; [by apply (decode_step_open _ _ k (OpenDict [] "") "d"); [done|right]|]. exact Hm.
    + apply decode_step_close.
Qed.

Lemma decode_loop_mono n n' d s r : (n <= n')%nat ->
  decode_loop max_size n d s = Some r -> decode_loop max_size n' d s = Some r.
Proof.
  revert n' d s. induction n as [|n IH]; intros [|n'] d s Hn; try done; [lia|]. cbn [decode_loop].
  destruct (decode_step max_size d s) as [[d'|e] s']; [|done].
  destruct (state d'); [done|]. apply IH. lia.
Qed.
Lemma decode_loop_completes v d x rest : state d = [] -> completes x v d rest ->
  exists n, decode_loop max_size n x.1 x.2 = Some (Ok v, rest).
Proof.
  intros Hd (y & Hxy & Hstep). induction Hxy as [y|x y z [Hxy Hne] _ IH].
  - exists 1%nat. cbn [decode_loop]. rewrite Hstep. unfold attach. by rewrite Hd.
  - destruct (IH Hstep) as (n & Hn). exists (S n). cbn [decode_loop]. rewrite Hxy.
    destruct (state y.1); [done|exact Hn].
Qed.
End roundtrip.

Lemma decode_encode max_size v rest : max_size < 2 ^ 64 -> data_ok max_size v = true ->
  decode max_size (encode v +:+ rest) = Some (Ok v, rest).
Proof.
  intros Hmax Hok. set (d := mkDecoding [] None). set (s := encode v +:+ rest).
  destruct (decode_loop_completes max_size v d (d, s) rest eq_refl) as (n & Hn).
  { exact (decodes_all max_size Hmax v Hok d "" "" rest eq_refl). }
  destruct (decode_loop_total max_size (S (String.length s)) d s) as (r & s' & Hd & _); [by split|lia|].
  unfold decode. fold d. cbn [fst snd] in Hn. set (m := S (String.length s)) in *.
  destruct (Nat.le_ge_cases n m) as [H|H]; [by apply (decode_loop_mono max_size n m)|].
  pose proof (decode_loop_mono max_size m n _ _ _ H Hd) as Heq. rewrite Hd, <- Heq, Hn. done.
Qed.

(** C37 What is encoded is decoded: from a stream that starts with the encoding of
    well-formed data the decoder takes exactly that encoding, and returns the data; what
    follows is left in the stream.  So encodings can follow one another: a stream is the
    encoding of well-formed data and a rest in one way only. *)
Theorem bencode_roundtrip max_size v rest : max_size < 2 ^ 64 -> data_ok max_size v = true ->
  decode max_size (encode v +:+ rest) = Some (Ok v, rest) /\
  forall v' rest', data_ok max_size v' = true -> encode v +:+ rest = encode v' +:+ rest' ->
    v = v' /\ rest = rest'.
Proof.
  intros Hmax Hok. pose proof (decode_encode max_size v rest Hmax Hok) as Hd. split; [done|].
  intros v' rest' Hok' He. rewrite He, decode_encode in Hd by done. by injection Hd as -> ->.
Qed.
Theorem bencode_roundtrip_witness : data_ok 1000 sample_data = true /\
  decode 1000 (encode sample_data +:+ "i7e") = Some (Ok sample_data, "i7e").
Proof.
  split; [reflexivity|].
  exact (proj1 (bencode_roundtrip 1000 sample_data "i7e" eq_refl eq_refl)).
Defined.

(** Bounds of [long long]: the smallest integer is read, one less is an underflow. *)
Example decode_smallest : decode 1000 "i-9223372036854775808e" = Some (Ok (DInteger (- 2 ^ 63)), "").
Proof. vm_compute. reflexivity. Qed.
Example decode_too_small : decode 1000 "i-9223372036854775809e" = Some (Err integer_underflow, "e").
Proof. vm_compute. reflexivity. Qed.
Example decode_no_digits : decode 1000 "ie" = Some (Ok (DInteger 0), "").
Proof. vm_compute. reflexivity. Qed.
Example decode_truncated : decode 1000 "l1:a" = Some (Err unexpected_end_of_string, "").
Proof. vm_compute. reflexivity. Qed.
Example decode_duplicate : decode 1000 "d1:ai1e1:ale" = Some (Err (duplicated_key "a"), "e").
Proof. vm_compute. reflexivity. Qed.
