(* ===== verification/SymContext.v ===== *)
(** The symbolic context (symex/symbolic_context.cpp): what the peripherals and the
    exploration share besides the solver.  Constraints assumed by a message, the position
    in the packet sequence, and the partially explored executions. *)
From S2P Require Import Prelude Bits APInt KExpr KType KBuilder Concolic PathTrace ExecContext Iss.

(** [stopped] is the flag of symbolic_explore.cpp that [stop_assume] sets.  The keys of the
    map [constraints] are a list.  [tree_rand] counts the [rand()] calls of the search for
    a new path, those of the context are counted there. *)
Record SymbolicContext := mkSymContext {
  current_packet_index : Z;
  packet_sequence_length : Z;
  constraints : list expr;
  enforcing_assume : bool;
  partially_explored : gmap Z (list ConcreteStore);
  trace : Trace;
  ctx : ExecutionContext;
  stopped : bool;
  tree_rand : nat;
}.
Definition set_packet_index v s := mkSymContext v (packet_sequence_length s) (constraints s) (enforcing_assume s) (partially_explored s) (trace s) (ctx s) (stopped s) (tree_rand s).
Definition set_sequence_length v s := mkSymContext (current_packet_index s) v (constraints s) (enforcing_assume s) (partially_explored s) (trace s) (ctx s) (stopped s) (tree_rand s).
Definition set_constraints v s := mkSymContext (current_packet_index s) (packet_sequence_length s) v (enforcing_assume s) (partially_explored s) (trace s) (ctx s) (stopped s) (tree_rand s).
Definition set_enforcing v s := mkSymContext (current_packet_index s) (packet_sequence_length s) (constraints s) v (partially_explored s) (trace s) (ctx s) (stopped s) (tree_rand s).
Definition set_partial v s := mkSymContext (current_packet_index s) (packet_sequence_length s) (constraints s) (enforcing_assume s) v (trace s) (ctx s) (stopped s) (tree_rand s).
Definition set_sym_trace v s := mkSymContext (current_packet_index s) (packet_sequence_length s) (constraints s) (enforcing_assume s) (partially_explored s) v (ctx s) (stopped s) (tree_rand s).
Definition set_ctx v s := mkSymContext (current_packet_index s) (packet_sequence_length s) (constraints s) (enforcing_assume s) (partially_explored s) (trace s) v (stopped s) (tree_rand s).
Definition set_stopped v s := mkSymContext (current_packet_index s) (packet_sequence_length s) (constraints s) (enforcing_assume s) (partially_explored s) (trace s) (ctx s) v (tree_rand s).
Definition set_tree_rand v s := mkSymContext (current_packet_index s) (packet_sequence_length s) (constraints s) (enforcing_assume s) (partially_explored s) (trace s) (ctx s) (stopped s) v.

Definition SymbolicContext_new : SymbolicContext :=
  mkSymContext 0 0 [] false ∅ Trace_new (mkContext ∅ ∅ 0) false 0.

(** The report [SC_REPORT_ERROR] throws for [assume_mtype]. *)
Definition AssumeNotification : exn := OtherException 4.

Section context.
Context `{KleeSolver}.
#[local] Open Scope sm_scope.
Abbreviation SymM := (SM SymbolicContext exn).

Definition asserted {A} (o : option A) : SymM A :=
  match o with Some a => sm_ret a | None => sm_throw Iss.AssertionFailed end.

(** [symbolic_exploration::stop_assume], with the report handler. *)
Definition stop_assume : SymM unit := sm_modify (set_stopped true) ;;; sm_throw AssumeNotification.

(** [SymbolicContext::assume] *)
Definition assume (constraint : expr) : SymM unit :=
  let expr := eqTrue constraint in
  known <-- sm_gets (fun s => bool_decide (expr ∈ constraints s)) ;;
  sm_when (negb known) (
    t <-- sm_gets (fun s => Trace_assume (trace s) expr) ;;
    t <-- asserted t ;;
    sm_modify (set_sym_trace t) ;;;
    sm_modify (fun s => set_constraints (expr :: constraints s) s) ;;;
    sm_modify (set_enforcing true) ;;;
    stop_assume).

(** [SymbolicContext::setupNewValues].  The search for a new path has as many rounds as the
    tree has branches that are not negated, and the one that finds none. *)
Definition setupNewValues (rnd : nat -> bool) : SymM bool :=
  enforcing <-- sm_gets enforcing_assume ;;
  if enforcing : bool then
    sm_modify (set_enforcing false) ;;;
    assign <-- sm_gets (fun s => fromAssume (trace s)) ;;
    match assign with
    | None => sm_throw RuntimeError
    | Some assign =>
        store <-- asserted (getStore assign) ;;
        sm_modify (fun s => set_ctx (ExecContext.setupNewValues store (ctx s)) s) ;;;
        sm_ret true
    end
  else
    r <-- sm_gets (fun s => setupNewValues_trace (S (unnegated (pathCondsRoot (trace s)))) rnd
                              (tree_rand s) (packet_sequence_length s) (trace s) (ctx s)) ;;
    r <-- asserted r ;;
    let '(found, c, t, pos) := r in
    sm_modify (fun s => set_tree_rand pos (set_sym_trace t (set_ctx c s))) ;;;
    sm_ret found.

Definition prepare_packet_sequence (k : Z) : SymM unit :=
  sm_modify (fun s => set_sequence_length k (set_packet_index 0 s)).
Definition current_index : SymM Z := sm_gets current_packet_index.
Definition current_length : SymM Z := sm_gets packet_sequence_length.
Definition processed_packet : SymM bool :=
  sm_modify (fun s => set_packet_index (u32 (current_packet_index s + 1)) s) ;;;
  sm_gets (fun s => packet_sequence_length s <=? current_packet_index s).

(** ** Partially explored executions *)

(** [partially_explored[k]] *)
Definition partial (k : Z) (s : SymbolicContext) : list ConcreteStore :=
  default [] (partially_explored s !! k).
Definition put_partial (k : Z) (l : list ConcreteStore) (s : SymbolicContext) : SymbolicContext :=
  set_partial (<[k := l]> (partially_explored s)) s.

Definition early_exit (k : Z) : SymM unit :=
  store <-- sm_gets (fun s => getPrevStore (ctx s)) ;;
  sm_modify (fun s => put_partial k (partial k s ++ [store]) s).
Definition clear_partial : SymM unit := sm_modify (set_partial ∅).
(** [rand() % size]; the conversion to [size_t] comes first. *)
Definition random_partial (rand : nat -> Z) (k : Z) : SymM (option ConcreteStore) :=
  sm_modify (fun s => put_partial k (partial k s) s) ;;;
  stores <-- sm_gets (partial k) ;;
  match stores with
  | [] => sm_ret None
  | _ =>
      r <-- sm_gets (fun s => rand (rand_calls (ctx s))) ;;
      sm_modify (fun s => set_ctx (mkContext (next_run (ctx s)) (last_run (ctx s)) (S (rand_calls (ctx s)))) s) ;;;
      let idx := Z.to_nat (u64 r mod Z.of_nat (length stores)) in
      match stores !! idx with
      | None => sm_throw (OtherException out_of_range)
      | Some store => sm_modify (put_partial k (delete idx stores)) ;;; sm_ret (Some store)
      end
  end.

(** [ISS::sys_processed_packet] on the side of the context: whether the software shall
    exit. *)
Definition packet_done : SymM bool :=
  exit <-- processed_packet ;;
  sm_when exit (k <-- current_length ;; early_exit (u32 (k + 1))) ;;;
  sm_ret exit.
End context.

(** * The context keeps what was assumed

    What the recorded constraints say is covered by the assumptions of the trace. *)
Definition context_ok (s : SymbolicContext) : Prop :=
  typed_tree (pathCondsRoot (trace s)) /\ Forall well_typed (constraints s) /\
  covers (assume_cs (trace s)) (constraints s).

(** The recorded constraints that have a truth value under an input hold of it. *)
Definition meets (assign : Assignment) (l : list expr) : Prop :=
  Forall (fun e => boolean (input_of assign) e -> holds (input_of assign) e) l.

Section laws.
Context `{Laws : KleeSolverLaws}.

Lemma eqTrue_typed e : well_typed e -> well_typed (eqTrue e).
Proof. apply (cond_well_typed e true). Qed.

Lemma assume_eq s e : eqTrue e ∉ constraints s ->
  assume e s = match Trace_assume (trace s) (eqTrue e) with
    | Some t => (Err AssumeNotification,
        set_stopped true (set_enforcing true
          (set_constraints (eqTrue e :: constraints s) (set_sym_trace t s))))
    | None => (Err Iss.AssertionFailed, s)
    end.
Proof.
  intros Hnew. unfold assume, sm_bind, sm_gets. rewrite bool_decide_eq_false_2 by done.
  cbn [negb sm_when]. by destruct (Trace_assume (trace s) (eqTrue e)).
Qed.
(** Both ways an assumption that is new can end. *)
Lemma assume_new s e : context_ok s -> well_typed e -> eqTrue e ∉ constraints s ->
  (assume e s = (Err Iss.AssertionFailed, s) /\
   forall σ, ~ Forall (holds σ) (eqTrue e :: assume_cs (trace s))) \/
  exists t, Trace_assume (trace s) (eqTrue e) = Some t /\
    assume e s = (Err AssumeNotification,
      set_stopped true (set_enforcing true
        (set_constraints (eqTrue e :: constraints s) (set_sym_trace t s)))) /\
    context_ok (set_constraints (eqTrue e :: constraints s) (set_sym_trace t s)).
Proof.
  intros (Htree & Hcs & Hcov) He Hnew. rewrite (assume_eq s e Hnew).
  pose proof (addConstraint_law (assume_cs (trace s)) (eqTrue e) (proj1 Hcov) (eqTrue_typed e He)) as Hadd.
  unfold Trace_assume.
  destruct (addConstraint (assume_cs (trace s)) (eqTrue e)) as [l|] eqn:Ha; cbn [mbind option_bind]; [|by left].
  right. eexists. split; [reflexivity|]. split; [reflexivity|]. split_and!; [done| |].
  - constructor; [by apply eqTrue_typed|done].
  - pose proof (covers_add _ _ _ _ Hcov (eqTrue_typed e He) Ha) as [Ht Hc]. split; [done|].
    intros σ Hr. apply Hc. apply Exists_app. apply Exists_cons in Hr as [Hr|Hr]; [right|by left].
    by constructor.
Qed.

(** The next run, after an assumption, is on an input that meets all constraints. *)
Lemma setupNewValues_enforcing rnd s : context_ok s -> enforcing_assume s = true ->
  match setupNewValues rnd s with
  | (Ok found, s') =>
      found = true /\ exists assign store, getStore assign = Some store /\
        meets assign (constraints s) /\
        s' = set_ctx (ExecContext.setupNewValues store (ctx s)) (set_enforcing false s)
  | (Err e, _) =>
      (e = RuntimeError /\ fromAssume (trace s) = None) \/
      (e = Iss.AssertionFailed /\ exists assign, fromAssume (trace s) = Some assign /\ getStore assign = None)
  end.
Proof.
  intros (_ & _ & Hcov) Hen. unfold setupNewValues, sm_bind at 1, sm_gets at 1. rewrite Hen.
  unfold sm_bind, sm_gets, sm_modify. cbn [trace set_enforcing].
  destruct (fromAssume (trace s)) as [assign|] eqn:Ha; [|by left].
  destruct (getStore assign) as [store|] eqn:Hs; cbn; [|right; by eauto].
  split; [done|]. exists assign, store. split; [done|]. split; [|done].
  unfold fromAssume in Ha.
  destruct (getAssignment_sound _ assign (EConstant (CE_alloc 0 Bool)) false Ha eq_refl) as [Hh _].
  by eapply covers_holds.
Qed.

(** The search for a new path ends. *)
Lemma setupNewValues_search rnd s : context_ok s -> enforcing_assume s = false ->
  exists r t pos,
    findNewPath (S (unnegated (pathCondsRoot (trace s)))) rnd (tree_rand s) (packet_sequence_length s)
      (trace s) = Some (r, t, pos) /\
    setupNewValues rnd s = match r with
      | Exhausted => (Ok false, set_tree_rand pos (set_sym_trace t s))
      | NewPath assign =>
          match getStore assign with
          | Some store => (Ok true, set_tree_rand pos (set_sym_trace t
                            (set_ctx (ExecContext.setupNewValues store (ctx s)) s)))
          | None => (Err Iss.AssertionFailed, s)
          end
      | PathTrace.AssertionFailed => (Err Iss.AssertionFailed, s)
      end.
Proof.
  intros _ Hen.
  destruct (findNewPath_returns (S (unnegated (pathCondsRoot (trace s)))) rnd (tree_rand s)
    (packet_sequence_length s) (trace s)) as [[[r t] pos] Hf]; [lia|].
  exists r, t, pos. split; [done|]. unfold setupNewValues, setupNewValues_trace.
  unfold sm_bind, sm_gets, sm_modify. rewrite Hen, Hf. cbn [mbind option_bind].
  destruct r as [assign| |]; cbn; [|by destruct s|done].
  by destruct (getStore assign).
Qed.
Lemma setupNewValues_ok rnd s : context_ok s -> context_ok (setupNewValues rnd s).2.
Proof.
  intros Hs. destruct (enforcing_assume s) eqn:Hen.
  - unfold setupNewValues, sm_bind, sm_gets, sm_modify. rewrite Hen. cbn [trace set_enforcing].
    destruct (fromAssume (trace s)) as [assign|]; [|done]. by destruct (getStore assign).
  - destruct (setupNewValues_search rnd s Hs Hen) as (r & t & pos & Hf & ->).
    assert (typed_trace (trace s)) as Ht by (split; [apply Hs|apply Hs]).
    pose proof (findNewPath_result _ _ _ _ _ _ _ _ Ht Hf) as (Hm & Hcs & _).
    assert (context_ok (set_sym_trace t s)) as Hok.
    { destruct Hs as (Htree & Hc & Hcov). split_and!; [|done|cbn; by rewrite Hcs].
      by eapply more_negated_typed. }
    destruct r as [assign| |]; [|exact Hok|done]. by destruct (getStore assign).
Qed.

(** C38 Assumptions restart the execution and then hold: assuming a new constraint stops
    the run (or fails the assertion of the constraint manager, when no input meets it
    together with the earlier ones); the values set up for the next run are of an input
    under which every constraint assumed so far holds, or there is no such input for the
    solver and setting up fails; when the next run assumes the constraint again, it just
    goes on. *)
Theorem assume_enforced rnd s e : context_ok s -> well_typed e -> eqTrue e ∉ constraints s ->
  match assume e s with
  | (Ok _, _) => False
  | (Err x, s1) =>
      (x = Iss.AssertionFailed /\ s1 = s /\
       forall σ, ~ Forall (holds σ) (eqTrue e :: assume_cs (trace s))) \/
      (x = AssumeNotification /\ stopped s1 = true /\ context_ok s1 /\
       match setupNewValues rnd s1 with
       | (Ok found, s2) =>
           found = true /\ context_ok s2 /\ enforcing_assume s2 = false /\
           (exists assign store, getStore assign = Some store /\
              next_run (ctx s2) = store ∪ next_run (ctx s) /\
              meets assign (eqTrue e :: constraints s)) /\
           assume e s2 = (Ok tt, s2)
       | (Err y, _) =>
           (y = RuntimeError /\ fromAssume (trace s1) = None) \/
           (y = Iss.AssertionFailed /\
            exists assign, fromAssume (trace s1) = Some assign /\ getStore assign = None)
       end)
  end.
Proof.
  intros Hs He Hnew. destruct (assume_new s e Hs He Hnew) as [[-> Hno]|(t & Ht & -> & Hok)]; [by left|].
  right. split; [done|]. split; [done|]. set (s1 := set_stopped _ _).
  assert (context_ok s1) as Hs1 by exact Hok. split; [done|].
  pose proof (setupNewValues_enforcing rnd s1 Hs1 eq_refl) as H'.
  destruct (setupNewValues rnd s1) as [[found|y] s2] eqn:Hset; [|done].
  destruct H' as (-> & assign & store & Hst & Hm & ->). split; [done|]. split; [exact Hs1|].
  split; [done|]. split; [by exists assign, store|].
  unfold assume, sm_bind at 1, sm_gets. cbn. rewrite bool_decide_eq_true_2; [done|by left].
Qed.
End laws.

(** ** Partially explored executions are handed out once *)

(** Every store kept by an early exit is handed out exactly once: [random_partial]
    returns none exactly if none is kept for the length, otherwise one of those kept,
    whatever [rand] returns, and keeps the others; the stores of other lengths stay. *)
Theorem random_partial_once rand k s :
  match random_partial rand k s with
  | (Ok None, s') => partial k s = [] /\ partial k s' = []
  | (Ok (Some store), s') => partial k s ≡ₚ store :: partial k s'
  | (Err _, _) => False
  end /\
  (forall k', k' <> k -> partial k' (random_partial rand k s).2 = partial k' s) /\
  (forall store, getPrevStore (ctx s) = store ->
     exists s', early_exit k s = (Ok tt, s') /\ partial k s' ≡ₚ store :: partial k s /\
       forall k', k' <> k -> partial k' s' = partial k' s).
Proof.
  assert (forall k l s, partial k (put_partial k l s) = l) as Hsame.
  { intros. unfold partial. cbn. by rewrite lookup_insert_eq. }
  assert (forall k k' l s, k' <> k -> partial k' (put_partial k l s) = partial k' s) as Hother.
  { intros. unfold partial. cbn. by rewrite lookup_insert_ne. }
  split_and!.
  - unfold random_partial, sm_bind, sm_modify, sm_gets, sm_ret. rewrite Hsame.
    destruct (partial k s) as [|x l] eqn:Hl; [by rewrite Hsame|].
    set (i := Z.to_nat _). assert (i < length (x :: l))%nat as Hi.
    { unfold i. cbn [length]. pose proof (Z.mod_pos_bound (u64 (rand (rand_calls (ctx s)))) (Z.of_nat (S (length l))) ltac:(lia)).
      cbn in *. lia. }
    destruct (lookup_lt_is_Some_2 _ _ Hi) as [store Hst]. rewrite Hst. rewrite Hsame.
    by apply delete_Permutation.
  - intros k' Hk. unfold random_partial, sm_bind, sm_modify, sm_gets, sm_ret.
    rewrite Hsame. destruct (partial k s) as [|x l]; [by apply Hother|].
    destruct (_ !! _); cbn [snd]; [rewrite Hother by done|]; by apply Hother.
  - intros store Hst. eexists. split; [reflexivity|]. rewrite Hsame, Hst. split.
    + by rewrite Permutation_app_comm.
    + intros k' Hk. by apply Hother.
Qed.

(** ** A witness *)

#[local] Instance context_witness_solver : KleeSolver := search_solver sample_inputs.
Definition sample_stopped : SymbolicContext := (assume sample_test SymbolicContext_new).2.
Definition sample_restarted : SymbolicContext := (setupNewValues (fun _ => true) sample_stopped).2.

Lemma assume_enforced_witness :
  setupNewValues (fun _ => true) sample_stopped = (Ok true, sample_restarted) /\
  next_run (ctx sample_restarted) = {["x" := U8 7]} /\
  assume sample_test sample_restarted = (Ok tt, sample_restarted).
Proof.
  split; [vm_compute; reflexivity|]. split; [vm_compute; reflexivity|].
  assert (context_ok SymbolicContext_new) as Hok.
  { repeat split; try constructor. by intros σ Hr%Exists_nil. }
  assert (well_typed sample_test) as Ht by reflexivity.
  assert (eqTrue sample_test ∉ constraints SymbolicContext_new) as Hnew by apply not_elem_of_nil.
  pose proof (assume_enforced (Laws := search_solver_laws sample_inputs) (fun _ => true) SymbolicContext_new
    sample_test Hok Ht Hnew) as Hw.
  change (assume sample_test SymbolicContext_new) with (Err AssumeNotification : result exn unit, sample_stopped) in Hw.
  destruct Hw as [[? _]|(_ & _ & _ & Hw)]; [discriminate|].
  change (setupNewValues (fun _ => true) sample_stopped) with (Ok true : result exn bool, sample_restarted) in Hw.
  apply Hw.
Defined.
