(* ===== verification/SymFormat.v ===== *)
(** Messages of symbolic fields (symex/symbolic_format.cpp): a list of fields, each a name,
    a size in bits and either the bytes of a concrete value or the constraints of a symbolic
    one, becomes one concolic value, which is handed out byte by byte. *)
From Stdlib Require Import Ascii.
From stdpp Require Import pretty.
From S2P Require Import Prelude Bits APInt KExpr KType KBuilder KBuilderSound Concolic PathTrace ExecContext Iss Bencode SymContext.

(** [Solver::fromString]: KLEE's parser for constraints over named expressions.  A string
    it rejects becomes the null expression. *)
Class QueryParser := { fromString : gmap string expr -> string -> option expr }.

Definition bad_variant_access : exn := OtherException 5.
Definition invalid_argument : exn := OtherException 6.

(** The object, constructed: what is left of [input] are its [offset] lowest bits. *)
Record SymbolicFormat := mkFormat { input : ConcolicValue; offset : Z }.

Definition HAS_PADDING (bitsize : Z) : bool := negb (bitsize mod 8 =? 0).
Definition to_byte_size (bitsize : Z) : Z :=
  let rem := bitsize mod 8 in
  if rem =? 0 then bitsize / 8 else u64 (bitsize - rem + 8) / 8.

(** The name of a field in the packet number [idx]. *)
Definition field_name (idx : Z) (name : string) : string := "pkt" +:+ pretty idx +:+ ":" +:+ name.

Section format.
Context `{KleeSolver} `{ExprBuilder} `{QueryParser}.
(** The results of [rand()]. *)
Context (rand : nat -> Z).
#[local] Open Scope sm_scope.

(** While it is constructed: the context, and the environment of the fields seen so far. *)
Abbreviation FormatM := (SM (SymbolicContext * gmap string expr) exn).
Definition on_context {A} (m : SM SymbolicContext exn A) : FormatM A :=
  fun s => let '(r, c) := m s.1 in (r, (c, s.2)).
Definition format_asserted {A} (o : option A) : FormatM A :=
  match o with Some a => sm_ret a | None => sm_throw Iss.AssertionFailed end.
Definition context_bytes (name : string) (size : nat) : FormatM (option ConcolicValue) :=
  r <-- sm_gets (fun s => getSymbolicBytes rand name size (ctx s.1)) ;;
  r <-- format_asserted r ;;
  sm_modify (fun s => (set_ctx (snd r) s.1, s.2)) ;;; sm_ret (fst r).

(** [make_symbolic]; [AssertionFailed] stands for the null pointer a size of zero gives. *)
Definition make_symbolic (name : string) (bitsize bytesize : Z) : FormatM ConcolicValue :=
  idx <-- on_context current_index ;;
  symbolic_value <-- context_bytes (field_name idx name) (Z.to_nat bytesize) ;;
  symbolic_value <-- format_asserted symbolic_value ;;
  let symbolic_value := if HAS_PADDING bitsize then cv_extract symbolic_value 0 (u32 bitsize)
                        else symbolic_value in
  e <-- format_asserted (symbolic symbolic_value) ;;
  sm_modify (fun s => (s.1, <[name := e]> s.2)) ;;;
  sm_ret symbolic_value.

Definition is_string (elem : data) : bool := match elem with DString _ => true | _ => false end.

(** The loop of [get_value], with [is_symbolic] (-1 is [None]), [symbolic_value] and
    [concrete_value]; the inner [None] is [return nullptr]. *)
Fixpoint get_value_loop (name : string) (bitsize bytesize : Z) (elems : list data)
    (is_symbolic : option bool) (symbolic_value : option ConcolicValue) (concrete_value : list Z) :
    FormatM (option (option bool * option ConcolicValue * list Z)) :=
  match elems with
  | [] => sm_ret (Some (is_symbolic, symbolic_value, concrete_value))
  | elem :: elems =>
      p <--
        (match is_symbolic with
         | Some b => sm_ret (b, symbolic_value)
         | None =>
             if is_string elem then v <-- make_symbolic name bitsize bytesize ;; sm_ret (true, Some v)
             else sm_ret (false, symbolic_value)
         end) ;;
      let '(symb, symbolic_value) := p in
      if symb : bool then
        match elem with
        | DString constraint =>
            bv <-- sm_gets (fun s => fromString s.2 constraint) ;;
            bv <-- format_asserted bv ;;
            on_context (assume bv) ;;;
            get_value_loop name bitsize bytesize elems (Some true) symbolic_value concrete_value
        | _ => sm_ret None
        end
      else
        match elem with
        | DInteger intval =>
            if (intval <? 0) || (255 <? intval) then sm_ret None
            else get_value_loop name bitsize bytesize elems (Some false) symbolic_value
                   (concrete_value ++ [u8 intval])
        | _ => sm_ret None
        end
  end.
(** [get_value]; [None] is the null pointer. *)
Definition get_value (elems : list data) (name : string) (bitsize : Z) : FormatM (option ConcolicValue) :=
  let bytesize := to_byte_size bitsize in
  r <-- get_value_loop name bitsize bytesize elems None None [] ;;
  match r with
  | None => sm_ret None
  | Some (None, _, _) => v <-- make_symbolic name bitsize bytesize ;; sm_ret (Some v)
  | Some (Some true, symbolic_value, _) => sm_ret symbolic_value
  | Some (Some false, _, concrete_value) =>
      if negb (Z.of_nat (length concrete_value) =? bytesize) then sm_ret None
      else
        bvc <-- format_asserted (BVC_bytes concrete_value true) ;;
        bvc <-- format_asserted bvc ;;
        sm_ret (Some (if HAS_PADDING bitsize then cv_extract bvc 0 (u32 bitsize) else bvc))
  end.

(** [std::get] *)
Definition get_list (d : data) : FormatM (list data) :=
  match d with DList l => sm_ret l | _ => sm_throw bad_variant_access end.
Definition get_string (d : data) : FormatM string :=
  match d with DString s => sm_ret s | _ => sm_throw bad_variant_access end.
Definition get_integer (d : data) : FormatM Z :=
  match d with DInteger i => sm_ret i | _ => sm_throw bad_variant_access end.

(** The loop of [get_input] over the fields. *)
Fixpoint get_fields (fields : list data) (r : option ConcolicValue) : FormatM (option ConcolicValue) :=
  match fields with
  | [] => sm_ret r
  | elem :: fields =>
      field <-- get_list elem ;;
      match field with
      | [name; size; value] =>
          name <-- get_string name ;;
          size <-- get_integer size ;;
          value <-- get_list value ;;
          v <-- get_value value name (u64 size) ;;
          match v with
          | None => sm_throw invalid_argument
          | Some v => get_fields fields (Some match r with None => v | Some r => cv_concat r v end)
          end
      | _ => sm_throw invalid_argument
      end
  end.
Definition get_input (d : data) : FormatM ConcolicValue :=
  fields <-- get_list d ;;
  r <-- get_fields fields None ;;
  r <-- format_asserted r ;;
  w <-- format_asserted (cv_getWidth r) ;;
  if w mod 8 =? 0 then sm_ret r else sm_throw Iss.AssertionFailed.

(** The constructor, from the data decoded to the object. *)
Definition format_of (d : data) : SM SymbolicContext exn SymbolicFormat :=
  fun s =>
    match (input <-- get_input d ;;
           w <-- format_asserted (cv_getWidth input) ;;
           sm_ret (mkFormat input w)) (s, ∅) with
    | (r, s) => (r, s.1)
    end.

(** [next_byte]; [None] is the null pointer. *)
Definition next_byte : SM SymbolicFormat exn (option ConcolicValue) :=
  f <-- sm_gets (fun f => f) ;;
  if offset f =? 0 then sm_ret None
  else if negb (offset f mod 8 =? 0) then sm_throw Iss.AssertionFailed
  else
    sm_modify (fun f => mkFormat (input f) (u32 (offset f - 8))) ;;;
    byte <-- sm_gets (fun f => cv_extract (input f) (offset f) 8) ;;
    match cv_getWidth byte with
    | Some 8 => sm_ret (Some byte)
    | _ => sm_throw Iss.AssertionFailed
    end.
(** [remaining_bytes]; [None] is a failed assertion. *)
Definition remaining_bytes (f : SymbolicFormat) : option Z :=
  if offset f =? 0 then Some 0
  else
    width ← cv_getWidth (input f);
    if width mod 8 =? 0 then Some (u32 (width - u32 (width - offset f)) / 8) else None.
End format.

(** * Messages *)

Inductive field_value := Concrete (bytes : list Z) | Symbolic (constraints : list string).
Record field := mkField { f_name : string; f_bits : Z; f_value : field_value }.
(** How the server sends a field, and a message. *)
Definition field_data (f : field) : data :=
  DList [DString (f_name f); DInteger (f_bits f);
         DList match f_value f with
               | Concrete bytes => map DInteger bytes
               | Symbolic constraints => map DString constraints
               end].
Definition message (fs : list field) : data := DList (map field_data fs).

Definition field_ok (f : field) : Prop :=
  0 < f_bits f < 2 ^ 32 /\
  match f_value f with
  | Concrete bytes => bytes <> [] /\ Forall byte_ok bytes /\ Z.of_nat (length bytes) = to_byte_size (f_bits f)
  | Symbolic _ => True
  end.
Definition total_bits (fs : list field) : Z := foldr (fun f n => f_bits f + n) 0 fs.

(** The bytes of a field, the lowest first: given by the message, or handed out. *)
Definition field_bytes (f : field) (bytes : list Z) : Prop :=
  match f_value f with
  | Concrete l => bytes = rev l
  | Symbolic _ => Z.of_nat (length bytes) = to_byte_size (f_bits f) /\ Forall byte_ok bytes
  end.
Definition recorded (idx : Z) (st : ConcreteStore) (f : field) (bytes : list Z) : Prop :=
  match f_value f with
  | Concrete _ => True
  | Symbolic _ => forall j b, bytes !! j = Some b -> st !! byte_name (field_name idx (f_name f)) j = Some (U8 b)
  end.
(** The number a message stands for: the fields in order, the first one the most
    significant; of each the lowest bits. *)
Fixpoint number (x : Z) (fs : list field) (bss : list (list Z)) : Z :=
  match fs, bss with
  | f :: fs, bytes :: bss => number (x * 2 ^ f_bits f + wrap (f_bits f) (le_value bytes)) fs bss
  | _, _ => x
  end.

(** ** Sizes and names *)

Lemma to_byte_size_ceil b : 0 < b < 2 ^ 32 -> to_byte_size b = (b + 7) / 8.
Proof.
  intros Hb. unfold to_byte_size. destruct (Z.eqb_spec (b mod 8) 0) as [E|E].
  - Z.to_euclidean_division_equations. lia.
  - unfold wrap. rewrite Z.mod_small by (Z.to_euclidean_division_equations; lia).
    Z.to_euclidean_division_equations. lia.
Qed.
Lemma to_byte_size_pos b : 0 < b < 2 ^ 32 -> 0 < to_byte_size b /\ b <= 8 * to_byte_size b < b + 8.
Proof. intros Hb. rewrite to_byte_size_ceil by done. Z.to_euclidean_division_equations. lia. Qed.

Fixpoint has_char (c : ascii) (s : string) : bool :=
  match s with "" => false | String c' s => bool_decide (c' = c) || has_char c s end.
Lemma has_char_app c s1 s2 : has_char c (s1 +:+ s2) = has_char c s1 || has_char c s2.
Proof.
  induction s1 as [|c' s1 IH]; [done|]. change (String c' s1 +:+ s2) with (String c' (s1 +:+ s2)).
  cbn [has_char]. by rewrite IH, orb_assoc.
Qed.
Lemma split_last c s1 s2 d1 d2 : has_char c d1 = false -> has_char c d2 = false ->
  s1 +:+ String c d1 = s2 +:+ String c d2 -> s1 = s2 /\ d1 = d2.
Proof.
  intros H1 H2. revert s2. induction s1 as [|x s1 IH]; intros [|y s2] He.
  - by injection He.
  - exfalso. change (String y s2 +:+ ?z) with (String y (s2 +:+ z)) in He.
    change ("" +:+ ?z) with z in He. injection He as -> Hd. rewrite Hd in H1.
    rewrite has_char_app in H1. cbn [has_char] in H1. rewrite bool_decide_eq_true_2 in H1 by done.
    by rewrite orb_true_r in H1.
  - exfalso. change (String x s1 +:+ ?z) with (String x (s1 +:+ z)) in He.
    change ("" +:+ ?z) with z in He. injection He as <- Hd. rewrite <- Hd in H2.
    rewrite has_char_app in H2. cbn [has_char] in H2. rewrite bool_decide_eq_true_2 in H2 by done.
    by rewrite orb_true_r in H2.
  - change (String x s1 +:+ ?z) with (String x (s1 +:+ z)) in He.
    change (String y s2 +:+ ?z) with (String y (s2 +:+ z)) in He. injection He as -> He.
    destruct (IH _ He) as [-> ->]. done.
Qed.
Lemma digits_no_colon ds : Forall digit ds -> has_char ":" (of_digits ds "") = false.
Proof.
  induction 1 as [|d ds [Hc _]%digit_char _ IH]; [done|].
  change (of_digits (d :: ds) "") with (String (pretty_N_char (Z.to_N d)) (of_digits ds "")).
  cbn [has_char]. rewrite IH, orb_false_r.
  apply bool_decide_eq_false. intros E. by rewrite E in Hc.
Qed.
Lemma pretty_no_colon (n : N) : has_char ":" (pretty n) = false.
Proof.
  unfold pretty, pretty_N. case_decide; [done|].
  destruct (pretty_go_digits n ltac:(lia)) as (ds & Hs & Hds & _).
  specialize (Hs "" ""). pose proof (digits_no_colon ds Hds) as Hc. change ("" +:+ "") with "" in Hs.
  rewrite <- Hs, has_char_app in Hc. by apply orb_false_iff in Hc as [? _].
Qed.
Lemma byte_name_both name i name' j : byte_name name i = byte_name name' j -> name = name' /\ i = j.
Proof.
  unfold byte_name. change (":byte" +:+ ?s) with (String ":" ("byte" +:+ s)). intros He.
  apply split_last in He as [-> He].
  - split; [done|]. apply (inj _) in He. apply (inj pretty) in He. lia.
  - by rewrite has_char_app, pretty_no_colon.
  - by rewrite has_char_app, pretty_no_colon.
Qed.
Lemma field_name_inj idx n1 n2 : field_name idx n1 = field_name idx n2 -> n1 = n2.
Proof. unfold field_name. intros H. by do 3 apply (inj _) in H. Qed.

(** * What is read from a message *)

Section values.
Context `{KleeSolver} `{Laws : BuilderLaws} `{QueryParser}.
Context (rand : nat -> Z).
Abbreviation state := (SymbolicContext * gmap string expr)%type.

(** What assuming changes. *)
Lemma assume_frame e s :
  match assume e s with
  | (Ok _, s') => s' = s
  | (Err x, _) => x = AssumeNotification \/ x = Iss.AssertionFailed
  end.
Proof.
  unfold assume, sm_bind, sm_gets. case_bool_decide; [done|]. cbn [negb sm_when].
  destruct (Trace_assume (trace s) (eqTrue e)); cbn; [by left|by right].
Qed.

(** ** Bytes handed out have a symbolic part *)

Lemma cv_concat_symbolic a b : is_Some (symbolic b) -> is_Some (symbolic (cv_concat a b)).
Proof. unfold cv_concat, binary_operator. intros [s Hs]. rewrite Hs. destruct (symbolic a); by eexists. Qed.
Lemma getSymbolicByte_symbolic name s c s' :
  getSymbolicByte rand name s = Some (c, s') -> is_Some (symbolic c).
Proof.
  unfold getSymbolicByte. destruct (findRemoveOrRandom rand uint8 name s) as [[v s1]|]; [|done].
  cbn [mbind option_bind]. unfold BVC. destruct (BitVector_int v); [|done]. cbn [mbind option_bind].
  destruct (BitVector_array _) as [arr|]; [|done]. cbn. intros [= <- _]. by eexists.
Qed.
Lemma getSymbolicBytes_from_symbolic name n : forall i r s c s',
  match r with Some c => is_Some (symbolic c) | None => True end ->
  getSymbolicBytes_from rand name i n r s = Some (Some c, s') -> is_Some (symbolic c).
Proof.
  induction n as [|n IH]; intros i r s c s' Hr; cbn [getSymbolicBytes_from].
  { intros [= -> _]. done. }
  destruct (getSymbolicByte rand (byte_name name i) s) as [[b s1]|] eqn:Hb; [|done].
  cbn [mbind option_bind]. apply IH. apply getSymbolicByte_symbolic in Hb.
  destruct r as [r|]; [by apply cv_concat_symbolic|done].
Qed.

(** All prepared values of message fields are bytes in range. *)
Definition prepared_ok (s : SymbolicContext) : Prop :=
  store_ok (next_run (ctx s)) /\
  forall name j, type_ok (ctx s) uint8 (byte_name (field_name (current_packet_index s) name) j).
(** The stored values [σ] must give to the bytes of a field. *)
Definition agrees (σ : assignment) (idx : Z) (f : field) (bytes : list Z) : Prop :=
  match f_value f with
  | Concrete _ => True
  | Symbolic _ => forall j b, bytes !! j = Some b -> assigns σ (byte_name (field_name idx (f_name f)) j) (U8 b)
  end.
(** A context after fields: nothing prepared is added, the other names are not touched. *)
Definition only_fields (names : list string) (s s' : SymbolicContext) : Prop :=
  current_packet_index s' = current_packet_index s /\
  next_run (ctx s') ⊆ next_run (ctx s) /\
  forall m, (forall name j, name ∈ names -> m <> byte_name (field_name (current_packet_index s) name) j) ->
    last_run (ctx s') !! m = last_run (ctx s) !! m.

Lemma only_fields_refl s : only_fields [] s s.
Proof. by split_and!. Qed.
Lemma only_fields_trans l1 l2 s1 s2 s3 :
  only_fields l1 s1 s2 -> only_fields l2 s2 s3 -> only_fields (l1 ++ l2) s1 s3.
Proof.
  intros (Hi1 & Hn1 & Hl1) (Hi2 & Hn2 & Hl2). split; [congruence|]. split; [by etrans|].
  intros m Hm. rewrite Hl2, Hl1; [done| |].
  - intros name j Hin. apply Hm. apply elem_of_app. by left.
  - intros name j Hin. rewrite Hi1. apply Hm. apply elem_of_app. by right.
Qed.
Lemma prepared_ok_frame l s s' : only_fields l s s' -> prepared_ok s -> prepared_ok s'.
Proof.
  intros (Hi & Hn & _) [Hok Ht]. split.
  - intros n v Hv. by apply (Hok n), (lookup_weaken _ _ _ _ Hv).
  - intros name j v Hv. rewrite Hi in Hv. by apply (Ht name j), (lookup_weaken _ _ _ _ Hv).
Qed.

(** The lowest bits of a value of whole bytes. *)
Lemma padding_cval σ c bytes bits : 0 < bits < 2 ^ 32 -> Forall byte_ok bytes ->
  Z.of_nat (length bytes) = to_byte_size bits ->
  cval σ c (AP (8 * Z.of_nat (length bytes)) (le_value bytes)) ->
  cval σ (if HAS_PADDING bits then cv_extract c 0 (u32 bits) else c)
    (AP bits (wrap bits (le_value bytes))).
Proof.
  intros Hb Hbytes Hlen Hc. destruct (to_byte_size_pos bits Hb) as [Hpos Hsz].
  unfold HAS_PADDING. destruct (Z.eqb_spec (bits mod 8) 0) as [E|E]; cbn [negb].
  - assert (8 * Z.of_nat (length bytes) = bits) as Hw.
    { rewrite Hlen, to_byte_size_ceil by done. Z.to_euclidean_division_equations. lia. }
    pose proof (le_value_bound bytes Hbytes) as Hv. rewrite Hw in Hc, Hv.
    by rewrite wrap_small.
  - rewrite (wrap_small 32) by lia.
    pose proof (cv_extract_cval σ c _ 0 bits Hc) as He. rewrite Hlen in He.
    unfold extract_spec in He. cbn [ap_val ap_width] in He. rewrite Z.shiftr_0_r in He.
    apply He. apply extract_ok_spec. cbn. lia.
Qed.

(** ** A symbolic field *)

Lemma make_symbolic_spec f cs s env :
  field_ok f -> f_value f = Symbolic cs -> prepared_ok s ->
  exists v s' env' bytes,
    make_symbolic rand (f_name f) (f_bits f) (to_byte_size (f_bits f)) (s, env) = (Ok v, (s', env')) /\
    only_fields [f_name f] s s' /\ field_bytes f bytes /\
    recorded (current_packet_index s) (last_run (ctx s')) f bytes /\
    forall σ, agrees σ (current_packet_index s) f bytes ->
      cval σ v (AP (f_bits f) (wrap (f_bits f) (le_value bytes))).
Proof.
  intros [Hb _] Hv [Hok Ht]. destruct (to_byte_size_pos _ Hb) as [Hpos _].
  set (n := Z.to_nat (to_byte_size (f_bits f))).
  set (full := field_name (current_packet_index s) (f_name f)).
  destruct (getSymbolicBytes_from_spec rand full n 0 None (ctx s) (fun j _ => Ht (f_name f) j) Hok)
    as (r & c' & bytes & Hr & Hlen & Hbytes & Hsub & Hother & Hrec & Hcol).
  destruct r as [c|]; [|exfalso].
  2:{ set (σ := (fun m i => match last_run c' !! m with
        | Some v => Z.shiftr (intToUint v) (8 * i) | None => 0 end) : assignment).
      assert (bytes = []) as ->; [|cbn in Hlen; unfold n in Hlen; lia].
      apply (Hcol σ []); [|done]. intros j b Hj i _. unfold σ. by rewrite (Hrec j b Hj). }
  pose proof (getSymbolicBytes_from_symbolic full n 0 None (ctx s) c c' I Hr) as [e He].
  set (v := if HAS_PADDING (f_bits f) then cv_extract c 0 (u32 (f_bits f)) else c).
  assert (exists e', symbolic v = Some e') as [e' He'].
  { unfold v. destruct (HAS_PADDING (f_bits f)); [|by exists e]. cbn. rewrite He. by eexists. }
  assert (Z.of_nat (length bytes) = to_byte_size (f_bits f)) as Hsize by (unfold n in Hlen; lia).
  exists v, (set_ctx c' s), (<[f_name f := e']> env), bytes. split_and!.
  - unfold make_symbolic, on_context, current_index, context_bytes, getSymbolicBytes, format_asserted.
    unfold sm_bind, sm_gets, sm_modify, sm_ret. cbn [fst snd]. fold full n. rewrite Hr. cbn [fst snd].
    fold v. by rewrite He'.
  - split; [done|]. split; [done|]. intros m Hm. apply Hother. intros j _. apply (Hm (f_name f) j). by left.
  - unfold field_bytes. by rewrite Hv.
  - unfold recorded. rewrite Hv. intros j b Hj. exact (Hrec j b Hj).
  - intros σ Ha. unfold agrees in Ha. rewrite Hv in Ha.
    apply (padding_cval σ c); [done|done|done|]. by apply (Hcol σ []).
Qed.

(** ** The loop over the elements of a field *)

(** How reading constraints may fail. *)
Definition stops (e : exn) : Prop := e = AssumeNotification \/ e = Iss.AssertionFailed.

Lemma loop_symbolic name bits size cs v : forall s env,
  match get_value_loop rand name bits size (map DString cs) (Some true) (Some v) [] (s, env) with
  | (Ok r, s') => r = Some (Some true, Some v, []) /\ s' = (s, env)
  | (Err e, _) => cs <> [] /\ stops e
  end.
Proof.
  induction cs as [|c cs IH]; intros s env; [done|]. cbn [map get_value_loop].
  unfold sm_bind at 1, sm_ret at 1. unfold sm_bind at 1, sm_gets. cbn [snd].
  destruct (fromString env c) as [e|]; [|by split; [|right]].
  unfold format_asserted. unfold sm_bind at 1, sm_ret at 1. unfold sm_bind, on_context. cbn [fst snd].
  pose proof (assume_frame e s) as Hf. destruct (assume e s) as [[[]|x] s1]; [|by split].
  subst s1. specialize (IH s env). destruct (get_value_loop _ _ _ _ _ _ _ _ _) as [[r|x] s']; [done|].
  split; [done|apply IH].
Qed.
Lemma loop_first name bits size c elems sv conc s :
  get_value_loop rand name bits size (DString c :: elems) None sv conc s =
    sm_bind (make_symbolic rand name bits size)
      (fun v => get_value_loop rand name bits size (DString c :: elems) (Some true) (Some v) conc) s.
Proof.
  cbn [get_value_loop is_string]. unfold sm_bind, sm_ret.
  by destruct (make_symbolic rand name bits size s) as [[v|e] s1].
Qed.
Lemma loop_concrete name bits size sv bytes : forall conc s,
  Forall byte_ok bytes ->
  get_value_loop rand name bits size (map DInteger bytes) (Some false) sv conc s =
    (Ok (Some (Some false, sv, conc ++ bytes)), s).
Proof.
  induction bytes as [|b bytes IH]; intros conc s Hb; [by rewrite app_nil_r|].
  apply Forall_cons in Hb as [Hb Hbytes]. unfold byte_ok in Hb. cbn [map get_value_loop].
  unfold sm_bind, sm_ret at 1.
  destruct (Z.ltb_spec b 0), (Z.ltb_spec 255 b); try lia. cbn [orb].
  rewrite IH by done. rewrite <- app_assoc. cbn [app]. by rewrite (wrap_small 8) by lia.
Qed.

(** ** A field, and all fields *)

Definition value_data (f : field) : list data :=
  match f_value f with Concrete bytes => map DInteger bytes | Symbolic cs => map DString cs end.
(** A field that may stop the run: a symbolic one with constraints. *)
Definition constrained (f : field) : Prop :=
  match f_value f with Concrete _ => False | Symbolic cs => cs <> [] end.

Lemma get_value_spec f s env : field_ok f -> prepared_ok s ->
  match get_value rand (value_data f) (f_name f) (f_bits f) (s, env) with
  | (Ok r, (s', _)) => exists v bytes, r = Some v /\
      only_fields [f_name f] s s' /\ field_bytes f bytes /\
      recorded (current_packet_index s) (last_run (ctx s')) f bytes /\
      forall σ, agrees σ (current_packet_index s) f bytes ->
        cval σ v (AP (f_bits f) (wrap (f_bits f) (le_value bytes)))
  | (Err e, _) => constrained f /\ stops e
  end.
Proof.
  intros Hf Hs. pose proof Hf as [Hb Hv]. unfold get_value, value_data, constrained.
  destruct (f_value f) as [bytes|cs] eqn:Hval.
  - destruct Hv as (Hne & Hbytes & Hlen).
    destruct bytes as [|b bytes]; [done|]. pose proof Hbytes as [Hb0 Hbs]%Forall_cons.
    cbn [map]. unfold sm_bind at 1. cbn [get_value_loop is_string].
    unfold sm_bind at 1, sm_ret at 1. unfold sm_bind at 1, sm_ret at 1.
    unfold byte_ok in Hb0. destruct (Z.ltb_spec b 0), (Z.ltb_spec 255 b); try lia. cbn [orb].
    rewrite loop_concrete by done. cbn [app]. rewrite (wrap_small 8) by lia.
    rewrite (proj2 (Z.eqb_eq _ _) Hlen). cbn [negb].
    destruct (BVC_bytes_spec (fun _ _ => 0) (b :: bytes) true ltac:(done) Hbytes) as (c & Hc & _).
    rewrite Hc. unfold format_asserted, sm_bind, sm_ret. exists
      (if HAS_PADDING (f_bits f) then cv_extract c 0 (u32 (f_bits f)) else c), (rev (b :: bytes)).
    split; [done|]. split.
    { split; [done|]. by split. }
    unfold field_bytes, recorded, agrees. rewrite Hval. split; [done|]. split; [done|]. intros σ _.
    destruct (BVC_bytes_spec σ (b :: bytes) true ltac:(done) Hbytes) as (c' & Hc' & Hcv).
    assert (c' = c) as -> by congruence.
    apply padding_cval; [done|by apply Forall_rev|by rewrite length_rev|by rewrite length_rev].
  - destruct (make_symbolic_spec f cs s env Hf Hval Hs) as (v & s' & env' & bytes & Hm & Ho & Hfb & Hrec & Hcv).
    destruct cs as [|c cs].
    + cbn [map get_value_loop]. unfold sm_bind at 1, sm_ret at 1. rewrite (sm_bind_ok _ _ _ _ _ Hm).
      by exists v, bytes.
    + cbn [map]. unfold sm_bind at 1. rewrite loop_first, (sm_bind_ok _ _ _ _ _ Hm).
      pose proof (loop_symbolic (f_name f) (f_bits f) (to_byte_size (f_bits f)) (c :: cs) v s' env') as Hl.
      cbn [map] in Hl. destruct (get_value_loop _ _ _ _ _ _ _ _ _) as [[r|e] s1]; [|done].
      destruct Hl as [-> ->]. by exists v, bytes.
Qed.

(** ** All fields *)

Definition acc_view (σ : assignment) (r : option ConcolicValue) (w x : Z) : Prop :=
  match r with None => w = 0 /\ x = 0 | Some c => cval σ c (AP w x) end.
Lemma acc_view_step σ r w x v b y : 0 < b -> acc_view σ r w x -> cval σ v (AP b y) ->
  acc_view σ (Some match r with None => v | Some r => cv_concat r v end) (w + b) (x * 2 ^ b + y).
Proof.
  intros Hb Hr Hv. destruct r as [r|]; cbn in *.
  - pose proof (cv_concat_cval σ _ _ _ _ Hr Hv) as Hc.
    rewrite concat_val in Hc by (by eapply cval_wf). cbn [ap_width ap_val] in Hc.
    by replace (x * 2 ^ b + y) with (y + 2 ^ b * x) by lia.
  - destruct Hr as [-> ->]. by rewrite Z.mul_0_l, !Z.add_0_l.
Qed.

Lemma recorded_frame idx st st' f bytes :
  (forall j, st' !! byte_name (field_name idx (f_name f)) j = st !! byte_name (field_name idx (f_name f)) j) ->
  recorded idx st f bytes -> recorded idx st' f bytes.
Proof. unfold recorded. intros Hst. destruct (f_value f); [done|]. intros Hr j b Hj. rewrite Hst. by apply Hr. Qed.

Lemma get_fields_spec fs : forall r s env,
  Forall field_ok fs -> NoDup (f_name <$> fs) -> prepared_ok s ->
  match get_fields rand (map field_data fs) r (s, env) with
  | (Ok r', (s', _)) => exists bss,
      only_fields (f_name <$> fs) s s' /\ Forall2 field_bytes fs bss /\
      Forall2 (recorded (current_packet_index s) (last_run (ctx s'))) fs bss /\
      (r' = None -> r = None /\ fs = []) /\
      forall σ w x, Forall2 (agrees σ (current_packet_index s)) fs bss -> acc_view σ r w x ->
        acc_view σ r' (w + total_bits fs) (number x fs bss)
  | (Err e, _) => Exists constrained fs /\ stops e
  end.
Proof.
  induction fs as [|f fs IH]; intros r s env Hfs Hnd Hs.
  { exists []. split; [apply only_fields_refl|]. split; [done|]. split; [done|]. split; [done|].
    intros σ w x _ Hr. cbn. by rewrite Z.add_0_r. }
  apply Forall_cons in Hfs as [Hf Hfs]. apply NoDup_cons in Hnd as [Hnew Hnd].
  pose proof (get_value_spec f s env Hf Hs) as Hval. destruct Hf as [Hb _].
  cbn [map get_fields]. do 4 (run; cbv iota). fold (value_data f). rewrite (wrap_small 64) by lia.
  unfold sm_bind at 1.
  destruct (get_value rand (value_data f) (f_name f) (f_bits f) (s, env)) as [[o|e] [s1 env1]];
    [|destruct Hval; split; [by left|done]].
  destruct Hval as (v & bytes & -> & Ho & Hbytes & Hrec & Hcv).
  specialize (IH (Some match r with None => v | Some r => cv_concat r v end) s1 env1 Hfs Hnd
    (prepared_ok_frame _ _ _ Ho Hs)).
  destruct (get_fields _ _ _ _) as [[r'|e] [s' env']]; [|destruct IH; split; [by right|done]].
  destruct IH as (bss & Ho' & Hbss & Hrecs & Hne & Hview). pose proof Ho as (Hi & _). rewrite Hi in *.
  exists (bytes :: bss). split; [by apply (only_fields_trans [f_name f] _ s s1)|].
  split; [by constructor|]. split; [|split].
  - constructor; [|done]. eapply recorded_frame; [|exact Hrec]. intros j. apply Ho'.
    intros name j' Hin Heq%byte_name_both. rewrite Hi in Heq. destruct Heq as [Hn%field_name_inj _]. by subst.
  - intros [? _]%Hne. done.
  - intros σ w x [Ha Has]%Forall2_cons Hr. cbn [total_bits foldr number]. rewrite Z.add_assoc.
    apply Hview; [done|]. apply acc_view_step; [lia|done|by apply Hcv].
Qed.

(** ** The object *)

(** An input that gives the recorded values. *)
Definition store_input (st : ConcreteStore) : assignment := fun m i =>
  match st !! m with Some v => Z.shiftr (intToUint v) (8 * i) | None => 0 end.
Definition consistent (σ : assignment) (st : ConcreteStore) : Prop :=
  forall name v, st !! name = Some v -> assigns σ name v.
Lemma store_input_consistent st : consistent (store_input st) st.
Proof. intros name v Hv i _. unfold store_input. by rewrite Hv. Qed.
Lemma recorded_agrees σ idx st fs bss : consistent σ st ->
  Forall2 (recorded idx st) fs bss -> Forall2 (agrees σ idx) fs bss.
Proof.
  intros Hc Hrec. eapply Forall2_impl; [exact Hrec|]. intros f bytes. unfold recorded, agrees.
  destruct (f_value f); [done|]. intros Hr j b Hj. by apply Hc, Hr.
Qed.

Lemma format_of_spec fs s :
  fs <> [] -> Forall field_ok fs -> NoDup (f_name <$> fs) -> total_bits fs mod 8 = 0 -> prepared_ok s ->
  match format_of rand (message fs) s with
  | (Ok f, s') => offset f = total_bits fs /\ exists bss,
      only_fields (f_name <$> fs) s s' /\ Forall2 field_bytes fs bss /\
      Forall2 (recorded (current_packet_index s) (last_run (ctx s'))) fs bss /\
      forall σ, consistent σ (last_run (ctx s')) ->
        cval σ (input f) (AP (total_bits fs) (number 0 fs bss))
  | (Err e, _) => Exists constrained fs /\ stops e
  end.
Proof.
  intros Hne Hfs Hnd Hw Hs. unfold format_of, get_input, message, get_list.
  pose proof (get_fields_spec fs None s ∅ Hfs Hnd Hs) as Hg.
  unfold sm_bind, sm_ret. destruct (get_fields rand (map field_data fs) None (s, ∅)) as [[r|e] [s' env']]; [|done].
  destruct Hg as (bss & Ho & Hbss & Hrec & Hnone & Hview).
  destruct r as [r|]; [|by destruct Hnone]. cbn [format_asserted].
  assert (forall σ, consistent σ (last_run (ctx s')) -> cval σ r (AP (total_bits fs) (number 0 fs bss))) as Hcv.
  { intros σ Hc. specialize (Hview σ 0 0 (recorded_agrees _ _ _ _ _ Hc Hrec) (conj eq_refl eq_refl)).
    by rewrite Z.add_0_l in Hview. }
  pose proof (cv_getWidth_spec _ _ _ (Hcv _ (store_input_consistent _))) as Hwidth. cbn [ap_width] in Hwidth.
  cbn [sm_ret]. unfold sm_ret. rewrite Hwidth. cbn [format_asserted]. unfold sm_ret.
  rewrite (proj2 (Z.eqb_eq _ _) Hw), Hwidth. cbn.
  split; [done|]. by exists bss.
Qed.
End values.

(** * Byte by byte *)

Section delivery.
Context `{Laws : BuilderLaws}.

(** The bytes a reader gets from at most [n] calls. *)
Fixpoint next_bytes (n : nat) : SM SymbolicFormat exn (list ConcolicValue) :=
  match n with
  | O => sm_ret []
  | S n =>
      b <-- next_byte ;;
      match b with None => sm_ret [] | Some b => bs <-- next_bytes n ;; sm_ret (b :: bs) end
  end%sm.

Definition be_bytes (n : nat) (x : Z) : list Z := rev (le_bytes n x).
Lemma be_bytes_S n x : be_bytes (S n) x = wrap 8 (Z.shiftr x (8 * Z.of_nat n)) :: be_bytes n x.
Proof.
  unfold be_bytes. rewrite !le_bytes_lookup, seq_S, fmap_app, rev_app_distr. cbn.
  by replace (Z.of_nat n * 8) with (8 * Z.of_nat n) by lia.
Qed.

Lemma next_byte_spec σ c w x n : cval σ c (AP w x) -> 8 * Z.of_nat (S n) <= w -> w < 2 ^ 32 ->
  exists b, next_byte (mkFormat c (8 * Z.of_nat (S n))) = (Ok (Some b), mkFormat c (8 * Z.of_nat n)) /\
    cval σ b (AP 8 (wrap 8 (Z.shiftr x (8 * Z.of_nat n)))).
Proof.
  intros Hc Hn Hw. unfold next_byte, sm_bind, sm_gets, sm_modify. cbn [offset input].
  destruct (Z.eqb_spec (8 * Z.of_nat (S n)) 0); [lia|].
  rewrite (Z.mul_comm 8 (Z.of_nat (S n))), Z_mod_mult. cbn [Z.eqb negb offset input].
  replace (u32 (Z.of_nat (S n) * 8 - 8)) with (8 * Z.of_nat n) by (rewrite wrap_small; lia).
  pose proof (cv_extract_cval σ c _ (8 * Z.of_nat n) 8 Hc) as He.
  assert (extract_ok (AP w x) (8 * Z.of_nat n) 8) as Hok by (apply extract_ok_spec; cbn; lia).
  specialize (He Hok). pose proof (cv_getWidth_spec _ _ _ He) as Hwidth. cbn in Hwidth.
  rewrite Hwidth. by eexists.
Qed.
Lemma next_bytes_spec σ c w x n : cval σ c (AP w x) -> 8 * Z.of_nat n <= w -> w < 2 ^ 32 ->
  exists bs, next_bytes (S n) (mkFormat c (8 * Z.of_nat n)) = (Ok bs, mkFormat c 0) /\
    Forall2 (fun b v => cval σ b (AP 8 v)) bs (be_bytes n x).
Proof.
  intros Hc. induction n as [|n IH]; intros Hn Hw; [by exists []|].
  destruct (next_byte_spec σ c w x n Hc Hn Hw) as (b & Hb & Hv).
  destruct IH as (bs & Hbs & Hvs); [lia|done|]. exists (b :: bs).
  change (next_bytes (S (S n))) with (b <-- next_byte ;;
    match b with None => sm_ret [] | Some b => bs <-- next_bytes (S n) ;; sm_ret (b :: bs) end)%sm.
  rewrite (sm_bind_ok _ _ _ _ _ Hb), (sm_bind_ok _ _ _ _ _ Hbs). split; [done|].
  rewrite be_bytes_S. by constructor.
Qed.
Lemma remaining_bytes_spec σ c w x n : cval σ c (AP w x) -> w mod 8 = 0 -> 8 * Z.of_nat n <= w -> w < 2 ^ 32 ->
  remaining_bytes (mkFormat c (8 * Z.of_nat n)) = Some (Z.of_nat n).
Proof.
  intros Hc Hm Hn Hw. unfold remaining_bytes. cbn [offset input].
  destruct (Z.eqb_spec (8 * Z.of_nat n) 0); [f_equal; lia|].
  rewrite (cv_getWidth_spec _ _ _ Hc). cbn [mbind option_bind ap_width].
  rewrite (proj2 (Z.eqb_eq _ _) Hm). rewrite (wrap_small 32 (w - 8 * Z.of_nat n)) by lia.
  replace (w - (w - 8 * Z.of_nat n)) with (Z.of_nat n * 8) by lia. rewrite wrap_small by lia.
  by rewrite Z.div_mul.
Qed.

(** ** Fields of whole bytes *)

Definition be_value (l : list Z) : Z := le_value (rev l).
Lemma be_bytes_value l : Forall byte_ok l -> be_bytes (length l) (be_value l) = l.
Proof.
  intros Hl. unfold be_bytes, be_value. rewrite <- length_rev, le_bytes_value by (by apply Forall_rev).
  apply rev_involutive.
Qed.
Lemma field_bytes_ok f bytes : field_ok f -> field_bytes f bytes ->
  Forall byte_ok bytes /\ Z.of_nat (length bytes) = to_byte_size (f_bits f).
Proof.
  intros [_ Hv] Hb. unfold field_bytes in Hb. destruct (f_value f); [|by destruct Hb].
  subst. destruct Hv as (_ & ? & ?). split; [by apply Forall_rev|by rewrite length_rev].
Qed.
Lemma number_aligned fs : forall bss p, Forall field_ok fs -> Forall2 field_bytes fs bss ->
  Forall (fun f => f_bits f mod 8 = 0) fs ->
  number (be_value p) fs bss = be_value (p ++ concat (map (@rev Z) bss)).
Proof.
  induction fs as [|f fs IH]; intros bss p Hok Hb Ha; [apply Forall2_nil_inv_l in Hb|apply Forall2_cons_inv_l in Hb].
  - subst. cbn. by rewrite app_nil_r.
  - destruct Hb as (bytes & bss' & Hf & Hfs & ->). apply Forall_cons in Hok as [Hfok Hok].
    apply Forall_cons in Ha as [Hal Ha]. destruct (field_bytes_ok f bytes Hfok Hf) as [Hbytes Hlen].
    destruct Hfok as [Hbits _].
    assert (f_bits f = 8 * Z.of_nat (length bytes)) as Hw.
    { rewrite Hlen, to_byte_size_ceil by done. Z.to_euclidean_division_equations. lia. }
    cbn [number map concat]. rewrite app_assoc, <- IH by done. f_equal.
    pose proof (le_value_bound bytes Hbytes). rewrite Hw, wrap_small by lia.
    unfold be_value. rewrite rev_app_distr, rev_involutive, le_value_app. lia.
Qed.
End delivery.

(** A message reaches the program as it was sent: from the fields of a message the
    object is built (or, only if a field has constraints, the run is stopped to enforce
    them, or an unreadable or contradictory constraint fails an assertion); it offers as
    many bytes as the fields have; reading them gives, and then no more, concolic views of
    the bytes of the number the fields make up, the first field the most significant, in
    which a symbolic field has the values handed out and recorded for the run; where all
    fields are of whole bytes these are the bytes of the fields in order, those of a
    concrete field as they were sent. *)
Theorem message_delivered `{KleeSolver} `{BuilderLaws} `{QueryParser} rand fs s n :
  fs <> [] -> Forall field_ok fs -> NoDup (f_name <$> fs) ->
  total_bits fs = 8 * Z.of_nat n -> total_bits fs < 2 ^ 32 -> prepared_ok s ->
  match format_of rand (message fs) s with
  | (Ok f, s') =>
      remaining_bytes f = Some (Z.of_nat n) /\
      exists bss bs, Forall2 field_bytes fs bss /\
        Forall2 (recorded (current_packet_index s) (last_run (ctx s'))) fs bss /\
        next_bytes (S n) f = (Ok bs, mkFormat (input f) 0) /\
        (forall σ, consistent σ (last_run (ctx s')) ->
           Forall2 (fun b v => cval σ b (AP 8 v)) bs (be_bytes n (number 0 fs bss))) /\
        (Forall (fun f => f_bits f mod 8 = 0) fs ->
           be_bytes n (number 0 fs bss) = concat (map (@rev Z) bss))
  | (Err e, _) => Exists constrained fs /\ stops e
  end.
Proof.
  intros Hne Hfs Hnd Hw Hlt Hs. assert (total_bits fs mod 8 = 0) as Hm by (rewrite Hw, Z.mul_comm; apply Z_mod_mult).
  pose proof (format_of_spec rand fs s Hne Hfs Hnd Hm Hs) as Hf.
  destruct (format_of rand (message fs) s) as [[[c o]|e] s']; [|done]. cbn [input offset] in *.
  destruct Hf as (-> & bss & _ & Hbss & Hrec & Hcv). rewrite Hw in *.
  pose proof (Hcv _ (store_input_consistent _)) as Hc0. split.
  { by apply (remaining_bytes_spec _ _ _ _ _ Hc0). }
  destruct (next_bytes_spec _ _ _ _ n Hc0) as (bs & Hbs & _); [done|done|].
  exists bss, bs. split; [done|]. split; [done|]. split; [done|]. split.
  - intros σ Hσ. destruct (next_bytes_spec σ c _ _ n (Hcv σ Hσ)) as (bs' & Hbs' & Hv); [done|done|].
    by assert (bs' = bs) as -> by congruence.
  - intros Ha. pose proof (number_aligned fs bss [] Hfs Hbss Ha) as Hn. cbn [app] in Hn.
    change (be_value []) with 0 in Hn. rewrite Hn.
    assert (length (concat (map (@rev Z) bss)) = n /\ Forall byte_ok (concat (map (@rev Z) bss))) as [Hlen Hok].
    { assert (8 * Z.of_nat (length (concat (map (@rev Z) bss))) = total_bits fs /\
        Forall byte_ok (concat (map (@rev Z) bss))) as [Ht Hok]; [|split; [lia|done]].
      clear - Hfs Hbss Ha. induction Hbss as [|f bytes fs bss Hb _ IH]; [done|].
      apply Forall_cons in Hfs as [Hf Hfs]. apply Forall_cons in Ha as [Hal Ha].
      destruct (IH Hfs Ha) as [Ht Hok]. destruct (field_bytes_ok f bytes Hf Hb) as [Hbytes Hlen].
      destruct Hf as [Hbits _]. rewrite to_byte_size_ceil in Hlen by done. cbn [map concat total_bits foldr].
      rewrite length_app, length_rev. split; [|apply Forall_app; split; [by apply Forall_rev|done]].
      unfold total_bits in Ht. Z.to_euclidean_division_equations. lia. }
    rewrite <- Hlen. by apply be_bytes_value.
Qed.

(** A type of two bytes, a byte of padding bits the program must not rely on split over two
    fields, and a symbolic payload. *)
Definition sample_message : list field :=
  [mkField "type" 16 (Concrete [0x12; 0x34]); mkField "flags" 4 (Concrete [0xf7]);
   mkField "len" 4 (Symbolic []); mkField "payload" 16 (Symbolic [])].
#[local] Instance witness_builder : ExprBuilder := solver_builder.
#[local] Instance no_parser : QueryParser := {| fromString _ _ := None |}.
#[local] Instance no_solver : KleeSolver := search_solver [].

Lemma message_delivered_witness : exists f s' bs,
  format_of (fun i => Z.of_nat i + 1) (message sample_message) SymbolicContext_new = (Ok f, s') /\
  next_bytes 6 f = (Ok bs, mkFormat (input f) 0) /\
  forall σ, consistent σ (last_run (ctx s')) ->
    Forall2 (fun b v => cval σ b (AP 8 v)) bs [0x12; 0x34; 0x71; 3; 2].
Proof.
  assert (prepared_ok SymbolicContext_new) as Hs by (split; [intros ? ? Hv|intros ? ? ? Hv]; discriminate Hv).
  assert (Forall field_ok sample_message) as Hfs by (repeat constructor; done).
  assert (NoDup (f_name <$> sample_message)) as Hnd by exact (bool_decide_eq_true_1 (NoDup (f_name <$> sample_message)) eq_refl).
  pose proof (message_delivered (H1 := solver_builder_laws) (fun i => Z.of_nat i + 1) sample_message SymbolicContext_new 5 ltac:(done)
    Hfs Hnd eq_refl eq_refl Hs) as Hm.
  destruct (format_of (fun i => Z.of_nat i + 1) (message sample_message) SymbolicContext_new) as [[f|e] s'] eqn:Hf;
    [|vm_compute in Hf; discriminate].
  destruct Hm as (_ & bss & bs & Hb & Hrec & Hbs & Hv & _). exists f, s', bs. split; [done|]. split; [done|].
  intros σ Hσ. specialize (Hv σ Hσ). clear Hbs Hσ. apply (f_equal snd) in Hf. cbn [snd] in Hf. subst s'.
  set (st := last_run _) in Hrec. change (current_packet_index SymbolicContext_new) with 0 in Hrec.
  assert (st !! byte_name (field_name 0 "len") 0 = Some (U8 1) /\
    st !! byte_name (field_name 0 "payload") 0 = Some (U8 2) /\
    st !! byte_name (field_name 0 "payload") 1 = Some (U8 3)) as (Hx & Hy & Hz)
    by (split_and!; vm_compute; reflexivity).
  clearbody st. apply Forall2_cons_inv_l in Hb as (b0 & ? & -> & Hb & ->).
  apply Forall2_cons_inv_l in Hb as (b1 & ? & -> & Hb & ->).
  apply Forall2_cons_inv_l in Hb as (b2 & ? & [Hl2 _] & Hb & ->).
  apply Forall2_cons_inv_l in Hb as (b3 & ? & [Hl3 _] & ->%Forall2_nil_inv_l & ->).
  do 2 (apply Forall2_cons in Hrec as [_ Hrec]). apply Forall2_cons in Hrec as [Hr2 Hrec].
  apply Forall2_cons in Hrec as [Hr3 _].
  assert (length b2 = 1%nat /\ length b3 = 2%nat) as [Hn2 Hn3] by (split; apply Nat2Z.inj; assumption).
  destruct b2 as [|x [|]]; try discriminate Hn2. destruct b3 as [|y [|z [|]]]; try discriminate Hn3.
  pose proof (Hr2 0%nat x eq_refl) as Hx'. pose proof (Hr3 0%nat y eq_refl) as Hy'.
  pose proof (Hr3 1%nat z eq_refl) as Hz'. cbn [f_name] in *.
  assert (x = 1 /\ y = 2 /\ z = 3) as (-> & -> & ->) by (split_and!; congruence).
  exact Hv.
Defined.
