(* ===== verification/Sps.v ===== *)
(** The client of the server of symbolic protocol states (symex/symbolic_protocol_states.cpp):
    packets of the program go to the server, which answers each with a message of fields. *)
From Stdlib Require Import Ascii.
From S2P Require Import Prelude APInt KExpr KBuilder KBuilderSound Concolic PathTrace ExecContext Iss Bencode SymContext SymFormat.

Definition SPS_DATA : Z := 0.
Definition SPS_RST : Z := 1.

(** The other end of the socket: what it sends for the bytes written by a flush; [None] is
    a failure to write. *)
Class SpsServer (S : Type) := { server_receive : string -> S -> option (string * S) }.

(** [sockin] is what has been sent and not been read.  The context is the one the client
    refers to. *)
Record ProtocolStates (S : Type) := mkSps {
  server : S;
  sockin : string;
  lastMsg : option SymbolicFormat;
  sps_ctx : SymbolicContext;
}.
Arguments mkSps {S}.
Arguments server {S}.
Arguments sockin {S}.
Arguments lastMsg {S}.
Arguments sps_ctx {S}.
Definition set_lastMsg {S} v (s : ProtocolStates S) := mkSps (server s) (sockin s) v (sps_ctx s).
Definition set_sps_ctx {S} v (s : ProtocolStates S) := mkSps (server s) (sockin s) (lastMsg s) v.
Definition set_sockin {S} v (s : ProtocolStates S) := mkSps (server s) v (lastMsg s) (sps_ctx s).

(** The bytes of a buffer as the characters of a string. *)
Fixpoint string_of_bytes (buf : list Z) : string :=
  match buf with [] => "" | b :: buf => String (ascii_of_N (Z.to_N b)) (string_of_bytes buf) end.

Section sps.
Context {S : Type} `{SpsServer S} `{KleeSolver} `{ExprBuilder} `{QueryParser}.
(** The results of [rand()], and the longest string the host can allocate. *)
Context (rand : nat -> Z) (max_size : Z).
#[local] Open Scope sm_scope.
Abbreviation SpsM := (SM (ProtocolStates S) exn).

(** [encode], [flush] and the test of the stream. *)
Definition transmit (d : data) : SpsM unit :=
  r <-- sm_gets (fun s => server_receive (encode d) (server s)) ;;
  match r with
  | None => sm_throw RuntimeError
  | Some (reply, srv) => sm_modify (fun s => mkSps srv (sockin s +:+ reply) (lastMsg s) (sps_ctx s))
  end.

Definition reset : SpsM unit :=
  transmit (DList [DInteger SPS_RST; DInteger 0]) ;;; sm_modify (set_lastMsg None).

(** [SymbolicFormat(ctx, *sockin)] *)
Definition read_message : SpsM SymbolicFormat :=
  r <-- sm_gets (fun s => decode max_size (sockin s)) ;;
  match r with
  | None => sm_throw Iss.AssertionFailed
  | Some (d, rest) =>
      sm_modify (set_sockin rest) ;;;
      match d with
      | Err _ => sm_throw invalid_argument
      | Ok d => fun s => let '(r, c) := format_of rand d (sps_ctx s) in (r, set_sps_ctx c s)
      end
  end.

Definition sps_remaining_bytes : SpsM Z :=
  msg <-- sm_gets lastMsg ;;
  match msg with
  | None => sm_ret 0
  | Some f => match remaining_bytes f with Some n => sm_ret n | None => sm_throw Iss.AssertionFailed end
  end.
Definition sps_empty : SpsM bool := n <-- sps_remaining_bytes ;; sm_ret (n =? 0).

Definition send_message (buf : list Z) : SpsM unit :=
  e <-- sps_empty ;;
  sm_when (negb e) (sm_throw RuntimeError) ;;;
  transmit (DList [DInteger SPS_DATA; DString (string_of_bytes buf)]) ;;;
  f <-- read_message ;;
  sm_modify (set_lastMsg (Some f)).

Definition sps_next_byte : SpsM (option ConcolicValue) :=
  msg <-- sm_gets lastMsg ;;
  match msg with
  | None => sm_throw invalid_argument
  | Some f =>
      match next_byte f with
      | (Ok b, f) => sm_modify (set_lastMsg (Some f)) ;;; sm_ret b
      | (Err e, f) => sm_modify (set_lastMsg (Some f)) ;;; sm_throw e
      end
  end.
(** Reading until the message is empty, in at most so many steps. *)
Fixpoint sps_next_bytes (n : nat) : SpsM (list ConcolicValue) :=
  match n with
  | O => sm_ret []
  | Datatypes.S n =>
      b <-- sps_next_byte ;;
      match b with None => sm_ret [] | Some b => bs <-- sps_next_bytes n ;; sm_ret (b :: bs) end
  end.
End sps.

(** * The exchange *)

Lemma string_of_bytes_length buf : String.length (string_of_bytes buf) = length buf.
Proof. induction buf as [|b buf IH]; [done|]. cbn. by rewrite IH. Qed.
Lemma str_app_nil s : s +:+ "" = s.
Proof. induction s as [|c s IH]; [done|]. exact (f_equal (String c) IH). Qed.

Section exchange.
Context {S : Type} `{SpsServer S} `{KleeSolver} `{Laws : BuilderLaws} `{QueryParser}.
Context (rand : nat -> Z) (max_size : Z).

(** The fields of a message the server may send: what the encoding carries and the client
    can take. *)
Definition sendable (fs : list field) : Prop :=
  fs <> [] /\ Forall field_ok fs /\ NoDup (f_name <$> fs) /\
  total_bits fs mod 8 = 0 /\ total_bits fs < 2 ^ 32 /\ data_ok max_size (message fs) = true.

(** A client whose last message has been read, or that had none. *)
Definition idle (s : ProtocolStates S) : Prop :=
  sps_remaining_bytes s = (Ok 0, s).

Lemma send_message_busy buf s n : sps_remaining_bytes s = (Ok n, s) -> n <> 0 ->
  send_message rand max_size buf s = (Err RuntimeError, s).
Proof.
  intros Hn Hne. unfold send_message, sps_empty, sm_bind. rewrite Hn.
  unfold sm_ret. by destruct (Z.eqb_spec n 0).
Qed.
Lemma transmit_step d s reply srv : server_receive (encode d) (server s) = Some (reply, srv) ->
  transmit d s = (Ok tt, mkSps srv (sockin s +:+ reply) (lastMsg s) (sps_ctx s)).
Proof. intros Hr. unfold transmit, sm_bind, sm_gets. by rewrite Hr. Qed.

Lemma send_message_idle buf s reply rest srv d : idle s ->
  server_receive (encode (DList [DInteger SPS_DATA; DString (string_of_bytes buf)])) (server s) =
    Some (reply, srv) ->
  sockin s +:+ reply = encode d +:+ rest -> max_size < 2 ^ 64 -> data_ok max_size d = true ->
  send_message rand max_size buf s =
    match format_of rand d (sps_ctx s) with
    | (Ok f, c) => (Ok tt, mkSps srv rest (Some f) c)
    | (Err e, c) => (Err e, mkSps srv rest (lastMsg s) c)
    end.
Proof.
  intros Hi Hr Hs Hmax Hok. unfold send_message, sps_empty.
  erewrite sm_bind_ok by (unfold sm_bind; rewrite Hi; reflexivity). cbn [Z.eqb negb sm_when].
  rewrite (sm_bind_ok _ _ _ tt s) by done. rewrite (sm_bind_ok _ _ _ _ _ (transmit_step _ _ _ _ Hr)).
  unfold read_message, sm_bind, sm_gets, sm_modify. cbn [sockin]. rewrite Hs.
  rewrite decode_encode by done. cbn [set_sockin sps_ctx]. 
  by destruct (format_of rand d (sps_ctx s)) as [[f|e] c].
Qed.

Lemma sps_next_bytes_spec n : forall (s : ProtocolStates S) f bs f',
  lastMsg s = Some f -> next_bytes n f = (Ok bs, f') ->
  sps_next_bytes n s = (Ok bs, set_lastMsg (Some f') s).
Proof.
  induction n as [|n IH]; intros s f bs f' Hf Hn.
  { injection Hn as <- <-. destruct s. cbn in *. by subst. }
  cbn [next_bytes sps_next_bytes] in *. unfold sm_bind in Hn at 1. unfold sm_bind at 1, sps_next_byte.
  unfold sm_bind at 1, sm_gets. rewrite Hf. destruct (next_byte f) as [[[b|]|e] f1]; [|by injection Hn as <- <-|done].
  unfold sm_bind at 1, sm_modify, sm_ret. unfold sm_bind in Hn |- *.
  destruct (next_bytes n f1) as [[bs1|e] f2] eqn:Hn1; [|done]. injection Hn as <- <-.
  by rewrite (IH (set_lastMsg (Some f1) s) f1 bs1 f2).
Qed.

(** The client holds an answer of the fields [fs], of which all [n] bytes are left. *)
Definition delivered (fs : list field) (n : nat) (s : ProtocolStates S) : Prop :=
  sps_remaining_bytes s = (Ok (Z.of_nat n), s) /\
  exists c w x bss, lastMsg s = Some (mkFormat c (8 * Z.of_nat n)) /\ 8 * Z.of_nat n <= w < 2 ^ 32 /\
    w mod 8 = 0 /\ Forall2 field_bytes fs bss /\ x = number 0 fs bss /\
    forall σ, consistent σ (last_run (ctx (sps_ctx s))) -> cval σ c (AP w x).

Lemma send_message_spec buf (s : ProtocolStates S) fs srv n : max_size < 2 ^ 64 -> sendable fs ->
  total_bits fs = 8 * Z.of_nat n -> sockin s = "" -> prepared_ok (sps_ctx s) -> idle s ->
  server_receive (encode (DList [DInteger SPS_DATA; DString (string_of_bytes buf)])) (server s) =
    Some (encode (message fs), srv) ->
  match send_message rand max_size buf s with
  | (Ok _, s') => sockin s' = "" /\ server s' = srv /\ delivered fs n s'
  | (Err e, s') => Exists constrained fs /\ stops e /\ sockin s' = "" /\ idle s'
  end.
Proof.
  intros Hmax (Hne & Hfs & Hnd & Hal & Hlt & Hok) Hw Hin Hs Hi Hrecv.
  erewrite (send_message_idle buf s (encode (message fs)) "" srv (message fs)) by
    (done || by rewrite Hin, str_app_nil).
  pose proof (format_of_spec rand fs (sps_ctx s) Hne Hfs Hnd Hal Hs) as Hf.
  destruct (format_of rand (message fs) (sps_ctx s)) as [[[c o]|e] s']; cbn [input offset] in Hf.
  - destruct Hf as (-> & bss & _ & Hbss & _ & Hcv). rewrite Hw in *.
    pose proof (Hcv _ (store_input_consistent _)) as Hc0. split; [done|]. split; [done|]. split.
    { unfold sps_remaining_bytes, sm_bind, sm_gets. cbn [lastMsg].
      by rewrite (remaining_bytes_spec _ _ _ _ n Hc0). }
    exists c, (8 * Z.of_nat n), (number 0 fs bss), bss. split_and!; done.
  - destruct Hf as [Hex Hst]. split; [done|]. split; [done|]. split; [done|].
    unfold idle, sps_remaining_bytes, sm_bind, sm_gets in Hi |- *. cbn [lastMsg].
    destruct (lastMsg s) as [f|]; [|done]. destruct (remaining_bytes f); [|done]. injection Hi as ->. done.
Qed.

(** C39 The exchange with the server: with the last message read, a packet of the program
    goes out as an encoding the server can read back; when the server answers with a
    message of fields, the answer is taken from the socket, no more and no less, and its
    bytes are what the program reads next, after which the client is ready for the next
    packet; or the run is stopped for a constraint of the message.  With bytes of the last
    message left the packet is refused and nothing is written; a reset forgets them. *)
Theorem sps_exchange buf (s : ProtocolStates S) fs srv n : max_size < 2 ^ 64 -> sendable fs ->
  total_bits fs = 8 * Z.of_nat n -> Z.of_nat (length buf) <= max_size ->
  sockin s = "" -> prepared_ok (sps_ctx s) ->
  let request := DList [DInteger SPS_DATA; DString (string_of_bytes buf)] in
  server_receive (encode request) (server s) = Some (encode (message fs), srv) ->
  decode max_size (encode request) = Some (Ok request, "") /\
  (forall k, sps_remaining_bytes s = (Ok k, s) -> k <> 0 ->
     send_message rand max_size buf s = (Err RuntimeError, s)) /\
  (idle s ->
     match send_message rand max_size buf s with
     | (Ok _, s') => sockin s' = "" /\ server s' = srv /\ sps_remaining_bytes s' = (Ok (Z.of_nat n), s') /\
         exists bss bs s'', Forall2 field_bytes fs bss /\
           sps_next_bytes (Datatypes.S n) s' = (Ok bs, s'') /\ idle s'' /\ sps_ctx s'' = sps_ctx s' /\
           forall σ, consistent σ (last_run (ctx (sps_ctx s'))) ->
             Forall2 (fun b v => cval σ b (AP 8 v)) bs (be_bytes n (number 0 fs bss))
     | (Err e, s') => Exists constrained fs /\ stops e /\ sockin s' = "" /\ idle s'
     end) /\
  (forall reply srv', server_receive (encode (DList [DInteger SPS_RST; DInteger 0])) (server s) = Some (reply, srv') ->
     exists s', reset s = (Ok tt, s') /\ idle s').
Proof.
  intros Hmax (Hne & Hfs & Hnd & Hal & Hlt & Hok) Hw Hbuf Hin Hs request Hrecv.
  assert (data_ok max_size request = true) as Hreq.
  { unfold request. cbn [data_ok forallb]. rewrite string_of_bytes_length. unfold SPS_DATA.
    cbn [limits_min limits_max long_long]. lia. }
  split; [|split; [|split]].
  - pose proof (decode_encode max_size request "" Hmax Hreq) as Hd. by rewrite str_app_nil in Hd.
  - intros k Hk Hk0. by eapply send_message_busy.
  - intros Hi. pose proof (send_message_spec buf s fs srv n Hmax (conj Hne (conj Hfs (conj Hnd (conj Hal (conj Hlt Hok)))))
      Hw Hin Hs Hi Hrecv) as Hm.
    destruct (send_message rand max_size buf s) as [[[]|e] s']; [|done].
    destruct Hm as (Hin' & Hsrv & Hrem & c & w & x & bss & Hlast & Hn & _ & Hbss & -> & Hcv).
    pose proof (Hcv _ (store_input_consistent _)) as Hc0.
    destruct (next_bytes_spec _ _ _ _ n Hc0) as (bs & Hbs & _); [lia..|].
    split; [done|]. split; [done|]. split; [done|]. exists bss, bs, (set_lastMsg (Some (mkFormat c 0)) s').
    split; [done|]. split; [exact (sps_next_bytes_spec _ _ _ _ _ Hlast Hbs)|]. split; [done|]. split; [done|].
    intros σ Hσ. destruct (next_bytes_spec σ c _ _ n (Hcv σ Hσ)) as (bs' & Hbs' & Hv); [lia..|].
    by assert (bs' = bs) as -> by congruence.
  - intros reply srv' Hr. eexists. split.
    + unfold reset. rewrite (sm_bind_ok _ _ _ _ _ (transmit_step _ _ _ _ Hr)). reflexivity.
    + done.
Qed.
End exchange.

(** A server that answers every packet with the sample message. *)
#[local] Instance sample_server : SpsServer unit :=
  {| server_receive _ _ := Some (encode (message sample_message), tt) |}.
#[local] Instance sps_builder : ExprBuilder := solver_builder.
#[local] Instance sps_no_parser : QueryParser := {| fromString _ _ := None |}.
#[local] Instance sps_no_solver : KleeSolver := search_solver [].
Definition sample_client : ProtocolStates unit := mkSps tt "" None SymbolicContext_new.

Lemma sps_exchange_witness : exists s' bs s'',
  send_message (fun i => Z.of_nat i + 1) 1000 [0x41; 0xff] sample_client = (Ok tt, s') /\
  sockin s' = "" /\ sps_remaining_bytes s' = (Ok 5, s') /\
  sps_next_bytes 6 s' = (Ok bs, s'') /\ idle s''.
Proof.
  assert (prepared_ok SymbolicContext_new) as Hs by (split; [intros ? ? Hv|intros ? ? ? Hv]; discriminate Hv).
  assert (sendable 1000 sample_message) as Hm.
  { split; [done|]. split; [repeat constructor; done|].
    split; [exact (bool_decide_eq_true_1 (NoDup (f_name <$> sample_message)) eq_refl)|]. done. }
  pose proof (sps_exchange (Laws := solver_builder_laws) (fun i => Z.of_nat i + 1) 1000 [0x41; 0xff] sample_client
    sample_message tt 5 ltac:(done) Hm eq_refl ltac:(done) eq_refl Hs eq_refl) as (_ & _ & Hx & _).
  specialize (Hx eq_refl).
  destruct (send_message (fun i => Z.of_nat i + 1) 1000 [0x41; 0xff] sample_client) as [[[]|e] s'] eqn:Hf;
    [|vm_compute in Hf; discriminate].
  destruct Hx as (Hin & _ & Hr & _ & bs & s'' & _ & Hb & Hi & _). exists s', bs, s''.
  split; [reflexivity|]. split; [exact Hin|]. split; [exact Hr|]. split; [exact Hb|exact Hi].
Defined.
