(* ===== verification/SymUart.v ===== *)
(** The UART of the symbolic platform (platform/hifive/symbolic_uart.cpp): packets the
    program sends in SLIP frames go to the server of protocol states, the answers are read
    byte by byte as concolic values. *)
From S2P Require Import Prelude Bits APInt KExpr KBuilder KBuilderSound Concolic ConcMem PathTrace ExecContext Iss Bus RegMap TlmMap Uart Slip Bencode SymContext SymFormat Sps.

(** The packet buffer grows by so many bytes. *)
Definition SLIP_SNDBUF_STEP : Z := 1500.
(** The undefined behaviour of an access past the end of the buffer. *)
Definition buffer_overflow : exn := OtherException 7.

(** The registers are those of the other UART.  [sndbuf] is the part of the buffer in use,
    of [sndsiz] bytes, [capacity] the size allocated; [async_notified] is the delay in
    milliseconds of a notification of [asyncEvent] not yet processed. *)
Record SymbolicUART (S : Type) := mkSymUart {
  suart_regs : uart_reg -> Z;
  sps : ProtocolStates S;
  sndbuf : list Z;
  capacity : Z;
  pktCnt : Z;
  async_notified : option Z;
  suart_irqs : nat;
}.
Arguments mkSymUart {S}.
Arguments suart_regs {S}.
Arguments sps {S}.
Arguments sndbuf {S}.
Arguments capacity {S}.
Arguments pktCnt {S}.
Arguments async_notified {S}.
Arguments suart_irqs {S}.

Section state.
Context {S : Type}.
Definition set_suart_regs v (u : SymbolicUART S) := mkSymUart v (sps u) (sndbuf u) (capacity u) (pktCnt u) (async_notified u) (suart_irqs u).
Definition set_sps (v : ProtocolStates S) (u : SymbolicUART S) := mkSymUart (suart_regs u) v (sndbuf u) (capacity u) (pktCnt u) (async_notified u) (suart_irqs u).
Definition set_sndbuf v (u : SymbolicUART S) := mkSymUart (suart_regs u) (sps u) v (capacity u) (pktCnt u) (async_notified u) (suart_irqs u).
Definition set_capacity v (u : SymbolicUART S) := mkSymUart (suart_regs u) (sps u) (sndbuf u) v (pktCnt u) (async_notified u) (suart_irqs u).
Definition set_pktCnt v (u : SymbolicUART S) := mkSymUart (suart_regs u) (sps u) (sndbuf u) (capacity u) v (async_notified u) (suart_irqs u).
Definition set_async_notified v (u : SymbolicUART S) := mkSymUart (suart_regs u) (sps u) (sndbuf u) (capacity u) (pktCnt u) v (suart_irqs u).
Definition set_suart_irqs v (u : SymbolicUART S) := mkSymUart (suart_regs u) (sps u) (sndbuf u) (capacity u) (pktCnt u) (async_notified u) v.

#[export] Instance suart_registers : Registers (SymbolicUART S) uart_reg := {|
  reg_value r u := suart_regs u r;
  reg_assign r v u := set_suart_regs (fun k => if decide (k = r) then v else suart_regs u k) u;
|}.
End state.

Section suart.
Context {S : Type} `{SpsServer S} `{KleeSolver} `{ExprBuilder} `{QueryParser}.
Context (rand : nat -> Z) (max_size : Z).
#[local] Open Scope sm_scope.
Abbreviation SUart := (SymbolicUART S).
Abbreviation UartM := (SM SUart exn).

(** The constructor, with the constants [slip_end] and [slip_esc_esc] the tests of the
    received bytes compare with. *)
Definition SymbolicUART_new (s : ProtocolStates S) : SUart :=
  mkSymUart (fun _ => 0) s [] SLIP_SNDBUF_STEP 0 None 0.

Definition on_sps {A} (m : SM (ProtocolStates S) exn A) : UartM A :=
  fun u => let '(r, s) := m (sps u) in (r, set_sps s u).
Definition get_reg (r : uart_reg) : UartM Z := sm_gets (reg_value r).
Definition put_reg (r : uart_reg) (v : Z) : UartM unit := sm_modify (reg_assign r v).
Definition asserted_value {A} (o : option A) : SM (SUart * payload) exn A :=
  match o with Some a => sm_ret a | None => sm_throw Iss.AssertionFailed end.
Definition notify_after (ms : Z) : UartM unit := sm_modify (set_async_notified (Some ms)).

(** ** Reading *)

(** A byte that would read as a control byte of SLIP is replaced. *)
Definition unslip (reg slip_end slip_esc_esc : ConcolicValue) : ConcolicValue :=
  cv_select (cv_arith Kind.And (cv_cmp Kind.Uge reg slip_end) (cv_cmp Kind.Ule reg slip_esc_esc))
    (cv_arith Kind.URem reg slip_end) reg.

(** A read of [rxdata] with a byte of the message left, and without. *)
Definition receive_byte : Handler (S := SUart) :=
  reg <-- on_device (on_sps sps_next_byte) ;;
  reg <-- asserted_value reg ;;
  slip_end <-- asserted_value (BVC None (U8 SLIP_END)) ;;
  slip_esc_esc <-- asserted_value (BVC None (U8 SLIP_ESC_ESC)) ;;
  let reg := cv_zext (unslip reg slip_end slip_esc_esc) 32 in
  v <-- asserted_value (getValue 32 (concrete reg)) ;;
  on_device (put_reg rxdata v) ;;;
  sm_modify (fun s => (s.1, Bus.set_extension (Some reg) s.2)).
Definition receive_end : UartM unit :=
  rx <-- get_reg rxdata ;;
  if rx =? SLIP_END then put_reg rxdata (Z.shiftl 1 31)
  else sm_modify (fun u => set_pktCnt (pktCnt u + 1) u) ;;; put_reg rxdata SLIP_END.

(** What a read does to the register before its value is fetched; the registers without a
    case only print a message. *)
Definition suart_read (r : uart_reg) : Handler (S := SUart) :=
  match r with
  | txdata => on_device (put_reg txdata 0)
  | rxdata =>
      ie <-- on_device (get_reg ie) ;;
      if Z.land ie UART_RXWM =? 0 then on_device (put_reg rxdata (Z.shiftl 1 31))
      else
        e <-- on_device (on_sps sps_empty) ;;
        if e : bool then on_device receive_end else receive_byte
  | ip =>
      on_device
        (n <-- on_sps sps_remaining_bytes ;;
         rxctrl <-- get_reg rxctrl ;;
         put_reg ip (if UART_CTRL_CNT rxctrl <? n then Z.lor UART_TXWM UART_RXWM else UART_TXWM))
  | _ => sm_ret tt
  end.

(** ** Writing *)

Definition sndsiz (u : SUart) : Z := Z.of_nat (length (sndbuf u)).

(** The [tx_callback] of the constructor, and [run_tx_callback]. *)
Definition tx_callback (buf : list Z) : UartM unit :=
  on_sps (send_message rand max_size buf) ;;; notify_after 0.
Definition run_tx_callback : UartM unit :=
  buf <-- sm_gets sndbuf ;;
  tx_callback buf ;;;
  siz <-- sm_gets sndsiz ;;
  sm_when (SLIP_SNDBUF_STEP <? siz) (sm_modify (set_capacity SLIP_SNDBUF_STEP)) ;;;
  sm_modify (set_sndbuf []).

(** [sndbuf[sndsiz++] = data], with the [realloc] before it. *)
Definition push_sndbuf (data : Z) : UartM unit :=
  siz <-- sm_gets sndsiz ;;
  sm_when (negb (siz =? 0) && (siz mod SLIP_SNDBUF_STEP =? 0)) (sm_modify (set_capacity (siz + SLIP_SNDBUF_STEP))) ;;;
  cap <-- sm_gets capacity ;;
  if siz <? cap then sm_modify (fun u => set_sndbuf (sndbuf u ++ [data]) u)
  else sm_throw buffer_overflow.
(** [sndbuf[sndsiz - 1] = data] *)
Definition replace_sndbuf (data : Z) : UartM unit :=
  sm_modify (fun u => set_sndbuf (removelast (sndbuf u) ++ [data]) u).

(** A write of [txdata], before the register is assigned; [true] if the handler returns
    without assigning it. *)
Definition transmit_byte (data : Z) : UartM bool :=
  buf <-- sm_gets sndbuf ;;
  if data =? SLIP_END then sm_when (negb (bool_decide (buf = []))) run_tx_callback ;;; sm_ret false
  else
    let escaped := bool_decide (last buf = Some SLIP_ESC) in
    if escaped && (data =? SLIP_ESC_END) then replace_sndbuf SLIP_END ;;; sm_ret true
    else if escaped && (data =? SLIP_ESC_ESC) then replace_sndbuf SLIP_ESC ;;; sm_ret true
    else push_sndbuf data ;;; sm_ret false.

(** A write that lowers a watermark. *)
Definition lowers_count (r : uart_reg) (nv : Z) (u : SUart) : bool :=
  match r with
  | txctrl | rxctrl => UART_CTRL_CNT nv <? UART_CTRL_CNT (suart_regs u r)
  | _ => false
  end.

Definition suart_callback (r : register_access_t (S := SUart) (R := uart_reg)) : Handler (S := SUart) :=
  sm_when (acc_read r) (suart_read (acc_vptr r)) ;;;
  returned <-- on_device
    (if acc_write r && bool_decide (acc_vptr r = txdata) then transmit_byte (u8 (acc_nv r)) else sm_ret false) ;;
  if returned : bool then sm_ret tt
  else
    lowers <-- on_device (sm_gets (lowers_count (acc_vptr r) (acc_nv r))) ;;
    enabled <-- on_device (get_reg ie) ;;
    let notify := (acc_write r && lowers) || negb (Z.land enabled UART_TXWM =? 0) in
    acc_fn r ;;;
    on_device
      (if acc_write r && bool_decide (acc_vptr r = ie) then notify_after 100
       else sm_when notify (notify_after 0)).

(** [SymbolicUART::transport] *)
Definition suart_transport (beyond : list Z) : Handler (S := SUart) :=
  router_transport [bank_try_handle uart_bank suart_callback beyond].

(** The method sensitive to [asyncEvent]. *)
Definition suart_interrupt : UartM unit :=
  sm_modify (set_async_notified None) ;;;
  ie <-- get_reg ie ;;
  n <-- on_sps sps_remaining_bytes ;;
  rxctrl <-- get_reg rxctrl ;;
  let trigger := (negb (Z.land ie UART_RXWM =? 0) && (UART_CTRL_CNT rxctrl <? n)) ||
                 negb (Z.land ie UART_TXWM =? 0) in
  sm_when trigger (sm_modify (fun u => set_suart_irqs (Datatypes.S (suart_irqs u)) u)).

(** ** What a driver does *)

(** A read and a write of a register, by a load and a store of a word.  A load has the value
    of the extension if there is one. *)
Definition bus_load (addr : Z) : UartM (Z * option ConcolicValue) :=
  fun u =>
    match suart_transport [] (u, mkPayload TLM_READ_COMMAND addr [0; 0; 0; 0] None TLM_OK_RESPONSE) with
    | (Ok _, (u, trans)) => (Ok (le_value (data_ptr trans), extension trans), u)
    | (Err e, (u, _)) => (Err e, u)
    end.
Definition bus_store (addr value : Z) : UartM unit :=
  fun u =>
    match suart_transport [] (u, mkPayload TLM_WRITE_COMMAND addr (le_bytes 4 value) None TLM_OK_RESPONSE) with
    | (r, (u, _)) => (r, u)
    end.
Fixpoint load_rxdata (n : nat) : UartM (list (Z * option ConcolicValue)) :=
  match n with
  | O => sm_ret []
  | Datatypes.S n => x <-- bus_load 0x4 ;; xs <-- load_rxdata n ;; sm_ret (x :: xs)
  end.
Fixpoint store_txdata (bytes : list Z) : UartM unit :=
  match bytes with
  | [] => sm_ret tt
  | b :: bytes => bus_store 0x0 b ;;; store_txdata bytes
  end.
End suart.

(** * Register accesses *)

Section access.
Context {S : Type} `{SpsServer S} `{KleeSolver} `{ExprBuilder} `{QueryParser}.
Context (rand : nat -> Z) (max_size : Z).
Abbreviation SUart := (SymbolicUART S).

(** The transmit interrupt that is signalled at the end of every access. *)
Definition signal (u : SUart) : SUart :=
  if Z.land (suart_regs u ie) UART_TXWM =? 0 then u else set_async_notified (Some 0) u.
Definition put (r : uart_reg) (v : Z) (u : SUart) : SUart := reg_assign r v u.

Definition load_trans (a : Z) (e : option ConcolicValue) : payload :=
  mkPayload TLM_READ_COMMAND a [0; 0; 0; 0] e TLM_OK_RESPONSE.
Definition store_trans (a v : Z) : payload :=
  mkPayload TLM_WRITE_COMMAND a (le_bytes 4 v) None TLM_OK_RESPONSE.
Definition mapped (a : Z) (r : uart_reg) : Prop :=
  find_register uart_bank a = Some (reg_new a r) /\ a mod 4 = 0.

Lemma access_fn_load a r (u : SUart) e : mapped a r ->
  access_fn (reg_new a r) (u, load_trans a e) =
    (Ok tt, (u, set_data (le_bytes 4 (suart_regs u r)) (load_trans a e))).
Proof.
  intros [_ Ha]. unfold access_fn, sm_bind, get_trans, on_device, sm_gets, bus_read, set_trans_data, sm_modify, sm_ret, dev_assert.
  cbn. by rewrite Ha.
Qed.

Lemma try_handle_load a r (u : SUart) handler : mapped a r ->
  bank_try_handle uart_bank handler [] (u, load_trans a None) =
    (handler (mkAccess true false r 0 (access_fn (reg_new a r))) ;;; sm_ret true)%sm (u, load_trans a None).
Proof.
  intros [Hf Ha]. unfold bank_try_handle. run. cbn [snd address load_trans]. rewrite Hf.
  change (data_length (snd (u, load_trans a None))) with 4. cbn [snd load_trans address]. rewrite Ha.
  by do 4 run.
Qed.
Lemma new_value_store a v : new_value [] (store_trans a v) = u32 v.
Proof.
  unfold new_value, store_trans. cbn [data_ptr]. rewrite app_nil_r, take_ge by (by rewrite length_le_bytes).
  by rewrite le_value_bytes.
Qed.
Lemma try_handle_store a r (u : SUart) handler v : mapped a r ->
  bank_try_handle uart_bank handler [] (u, store_trans a v) =
    (handler (mkAccess false true r (u32 v) (access_fn (reg_new a r))) ;;; sm_ret true)%sm (u, store_trans a v).
Proof.
  intros [Hf Ha]. unfold bank_try_handle. run. cbn [snd address store_trans]. rewrite Hf.
  change (data_length (snd (u, store_trans a v))) with 4. cbn [snd store_trans address]. rewrite Ha.
  do 4 run. fold (store_trans a v). by rewrite new_value_store.
Qed.

Lemma signal_eq (u : SUart) (p : payload) :
  on_device (sm_when (negb (Z.land (suart_regs u ie) UART_TXWM =? 0)) (notify_after 0)) (u, p) = (Ok tt, (signal u, p)).
Proof. unfold signal. by destruct (Z.land (suart_regs u ie) UART_TXWM =? 0). Qed.

Lemma callback_load a r (u u1 : SUart) e : mapped a r ->
  suart_read r (u, load_trans a None) = (Ok tt, (u1, load_trans a e)) ->
  suart_callback rand max_size (mkAccess true false r 0 (access_fn (reg_new a r))) (u, load_trans a None) =
    (Ok tt, (signal u1, set_data (le_bytes 4 (suart_regs u1 r)) (load_trans a e))).
Proof.
  intros Hm Hr. unfold suart_callback. cbn [acc_read acc_write acc_vptr acc_nv acc_fn sm_when andb orb].
  rewrite (sm_bind_ok _ _ _ _ _ Hr). run. cbv iota. do 2 run. cbv zeta.
  rewrite (sm_bind_ok _ _ _ _ _ (access_fn_load a r u1 e Hm)). apply signal_eq.
Qed.
Lemma bus_load_run a r (u u1 : SUart) e : mapped a r ->
  suart_read r (u, load_trans a None) = (Ok tt, (u1, load_trans a e)) ->
  bus_load rand max_size a u = (Ok (u32 (suart_regs u1 r), e), signal u1).
Proof.
  intros Hm Hr. unfold bus_load, suart_transport, router_transport.
  change (mkPayload TLM_READ_COMMAND a [0; 0; 0; 0] None TLM_OK_RESPONSE) with (load_trans a None).
  unfold sm_bind at 1. rewrite (try_handle_load a r) by done.
  rewrite (sm_bind_ok _ _ _ _ _ (callback_load a r u u1 e Hm Hr)). unfold sm_ret.
  cbn [data_ptr set_data extension load_trans]. by rewrite le_value_bytes.
Qed.

Lemma on_device_run {A} (m : SM SUart exn A) u (p : payload) r u1 :
  m u = (r, u1) -> on_device m (u, p) = (r, (u1, p)).
Proof. intros Hm. unfold on_device. cbn. by rewrite Hm. Qed.
Lemma access_fn_store a r v (u : SUart) : mapped a r ->
  access_fn (reg_new a r) (u, store_trans a v) = (Ok tt, (put r (u32 v) u, store_trans a v)).
Proof.
  intros [_ Ha]. unfold access_fn. run. cbn [snd address store_trans command data_ptr]. rewrite Ha. run.
  unfold bus_write. apply on_device_run. run. unfold sm_modify, put. do 3 f_equal.
  assert (splice 0 (le_bytes 4 v) (le_bytes 4 (suart_regs u r)) = le_bytes 4 v) as Hs by
    (cbn; by rewrite ?app_nil_r).
  change (splice _ _ _) with (splice 0 (le_bytes 4 v) (le_bytes 4 (suart_regs u r))). rewrite Hs, le_value_bytes.
  change (reg_mask (reg_new a r)) with (Z.ones 32). rewrite Z.land_ones by lia. exact (wrap_wrap 32 v).
Qed.

Abbreviation stored := (fun b => mkAccess false true txdata (u32 b) (access_fn (reg_new 0 txdata))).
Lemma callback_store b (u : SUart) :
  suart_callback rand max_size (stored b) (u, store_trans 0 b) =
    match transmit_byte rand max_size (u8 (u32 b)) u with
    | (Ok true, u) => (Ok tt, (u, store_trans 0 b))
    | (Ok false, u) => (Ok tt, (signal (put txdata (u32 b) u), store_trans 0 b))
    | (Err e, u) => (Err e, (u, store_trans 0 b))
    end.
Proof.
  unfold suart_callback. cbn [acc_read acc_write acc_vptr acc_nv acc_fn sm_when andb]. run.
  destruct (transmit_byte rand max_size (u8 (u32 b)) u) as [[r|e] u1] eqn:Ht;
    apply (on_device_run _ _ (store_trans 0 b)) in Ht; [|by rewrite (sm_bind_err _ _ _ _ _ Ht)].
  rewrite (sm_bind_ok _ _ _ _ _ Ht). destruct r; [done|]. do 2 run. cbv zeta. cbn [lowers_count orb fst snd].
  rewrite (sm_bind_ok _ _ _ _ _ (access_fn_store 0 txdata b u1 ltac:(done))). exact (signal_eq (put txdata (u32 b) u1) _).
Qed.

(** A store to the transmit register, after what the handler does with the byte. *)
Lemma bus_store_txdata b (u : SUart) :
  bus_store rand max_size 0 b u =
    match transmit_byte rand max_size (u8 (u32 b)) u with
    | (Ok true, u) => (Ok tt, u)
    | (Ok false, u) => (Ok tt, signal (put txdata (u32 b) u))
    | (Err e, u) => (Err e, u)
    end.
Proof.
  unfold bus_store, suart_transport, router_transport. fold (store_trans 0 b). unfold sm_bind at 1.
  rewrite (try_handle_store 0 txdata) by done. unfold sm_bind at 1. rewrite callback_store.
  by destruct (transmit_byte rand max_size (u8 (u32 b)) u) as [[[|]|e] u1].
Qed.
End access.

(** * Receiving *)

(** What becomes of a byte of a message. *)
Definition unslipped (v : Z) : Z :=
  if (SLIP_END <=? v) && (v <=? SLIP_ESC_ESC) then v mod SLIP_END else v.
Definition control_byte (v : Z) : Prop := SLIP_END <= v <= SLIP_ESC_ESC.
Lemma unslipped_plain v : byte_ok v -> byte_ok (unslipped v) /\ ~ control_byte (unslipped v).
Proof.
  unfold byte_ok, unslipped, control_byte. unfold SLIP_END, SLIP_ESC_ESC.
  destruct (Z.leb_spec 0xc0 v); cbn [andb]; [|lia].
  destruct (Z.leb_spec v 0xdd); [|lia]. Z.to_euclidean_division_equations. lia.
Qed.

Section receive.
Context {S : Type} `{SpsServer S} `{KleeSolver} `{Laws : BuilderLaws} `{QueryParser}.
Context (rand : nat -> Z) (max_size : Z).
Abbreviation SUart := (SymbolicUART S).

Definition byte_const (b : Z) : ConcolicValue := Concolic (EConstant (AP 8 b)) None.
Lemma BVC_byte_const b : byte_ok b -> BVC None (U8 b) = Some (byte_const b).
Proof.
  intros Hb. unfold BVC. destruct (BitVector_int_spec (U8 b)) as [-> _]; [|done].
  apply int_ok_iff. exact Hb.
Qed.
Lemma byte_const_cval σ b : byte_ok b -> cval σ (byte_const b) (AP 8 b).
Proof. intros Hb. apply cval_intro; [done|by apply eval_constant, byte_wf|done]. Qed.

Definition received_value (reg : ConcolicValue) : ConcolicValue :=
  cv_zext (unslip reg (byte_const SLIP_END) (byte_const SLIP_ESC_ESC)) 32.
Lemma received_value_cval σ c v : cval σ c (AP 8 v) -> cval σ (received_value c) (AP 32 (unslipped v)).
Proof.
  intros Hc. pose proof (byte_const_cval σ SLIP_END ltac:(done)) as He.
  pose proof (byte_const_cval σ SLIP_ESC_ESC ltac:(done)) as Hs.
  pose proof (cv_cmp_cval σ Kind.Uge _ _ _ _ Hc He eq_refl) as H1'.
  pose proof (cv_cmp_cval σ Kind.Ule _ _ _ _ Hc Hs eq_refl) as H2'.
  pose proof (cv_arith_cval σ Kind.And _ _ _ _ H1' H2' I) as H3.
  pose proof (cv_arith_cval σ Kind.URem _ _ _ _ Hc He I) as H4.
  pose proof (cv_select_cval σ _ _ _ _ _ _ H3 H4 Hc eq_refl eq_refl) as H5.
  assert (cval σ (unslip c (byte_const SLIP_END) (byte_const SLIP_ESC_ESC)) (AP 8 (unslipped v))) as Hu.
  { unfold unslip, unslipped. revert H5. unfold arith_val, cmp_val, bool_ap. cbn [ap_width ap_val arith_spec cmp_spec].
    by destruct (SLIP_END <=? v), (v <=? SLIP_ESC_ESC). }
  exact (cv_zext_cval σ _ _ 32 Hu ltac:(done)).
Qed.

Definition rx_enabled (u : SUart) : Prop := Z.land (suart_regs u ie) UART_RXWM <> 0.

(** The device after a byte was read. *)
Definition after_byte (c : ConcolicValue) (n : nat) (v : Z) (u : SUart) : SUart :=
  signal (put rxdata v (set_sps (set_lastMsg (Some (mkFormat c (8 * Z.of_nat n))) (sps u)) u)).

Lemma load_byte (u : SUart) c w x n σ0 : rx_enabled u ->
  lastMsg (sps u) = Some (mkFormat c (8 * Z.of_nat (Datatypes.S n))) ->
  8 * Z.of_nat (Datatypes.S n) <= w < 2 ^ 32 -> w mod 8 = 0 -> cval σ0 c (AP w x) ->
  let v := wrap 8 (Z.shiftr x (8 * Z.of_nat n)) in
  exists b, bus_load rand max_size 0x4 u = (Ok (unslipped v, Some (received_value b)), after_byte c n (unslipped v) u) /\
    forall σ, cval σ c (AP w x) -> cval σ b (AP 8 v).
Proof.
  intros Hen Hlast [Hn Hw] Hm Hc v.
  destruct (next_byte_spec σ0 c w x n Hc Hn Hw) as (b & Hb & Hv). exists b.
  assert (byte_ok v) as Hbyte by (apply wrap_range; lia).
  assert (sps_next_byte (sps u) =
    (Ok (Some b), set_lastMsg (Some (mkFormat c (8 * Z.of_nat n))) (sps u))) as Hnext.
  { unfold sps_next_byte. run. rewrite Hlast, Hb. by run. }
  assert (sps_empty (sps u) = (Ok false, sps u)) as Hempty.
  { unfold sps_empty, sps_remaining_bytes, sm_bind, sm_gets. rewrite Hlast.
    by rewrite (remaining_bytes_spec _ _ _ _ _ Hc). }
  assert (on_sps sps_next_byte u =
    (Ok (Some b), set_sps (set_lastMsg (Some (mkFormat c (8 * Z.of_nat n))) (sps u)) u)) as Hon
    by (unfold on_sps; by rewrite Hnext).
  split.
  - destruct (unslipped_plain v Hbyte) as [Hu _]. rewrite (bus_load_run rand max_size 0x4 rxdata u
      (put rxdata (unslipped v) (set_sps (set_lastMsg (Some (mkFormat c (8 * Z.of_nat n))) (sps u)) u))
      (Some (received_value b)) ltac:(done)).
    + cbn [suart_regs put reg_assign suart_registers set_suart_regs]. rewrite decide_True by done.
      rewrite wrap_small by (unfold byte_ok in Hu; lia). done.
    + cbn [suart_read]. run. cbn [fst reg_value suart_registers].
      apply Z.eqb_neq in Hen. rewrite Hen.
      rewrite (sm_bind_ok _ _ _ false (u, load_trans 4 None)) by
        (apply on_device_run; unfold on_sps; rewrite Hempty; by destruct u).
      unfold receive_byte. rewrite (sm_bind_ok _ _ _ _ _ (on_device_run (on_sps sps_next_byte) u _ _ _ Hon)). run.
      rewrite (BVC_byte_const SLIP_END), (BVC_byte_const SLIP_ESC_ESC) by done. do 2 run. fold (received_value b). cbv zeta.
      rewrite (getValue_spec σ0 32 _ _ (received_value_cval σ0 b _ Hv)) by done. do 2 run. done.
  - intros σ Hσ. destruct (next_byte_spec σ c w x n Hσ Hn Hw) as (b' & Hb' & Hv').
    by assert (b' = b) as -> by congruence.
Qed.
(** What reading bytes leaves alone. *)
Definition rx_frame (u u' : SUart) : Prop :=
  (forall r, r <> rxdata -> suart_regs u' r = suart_regs u r) /\
  sndbuf u' = sndbuf u /\ capacity u' = capacity u /\ suart_irqs u' = suart_irqs u /\
  sps u' = set_lastMsg (lastMsg (sps u')) (sps u).
Lemma rx_frame_refl u : rx_frame u u.
Proof. split_and!; try done. by destruct (sps u). Qed.
Lemma rx_frame_trans u1 u2 u3 : rx_frame u1 u2 -> rx_frame u2 u3 -> rx_frame u1 u3.
Proof.
  intros (R1 & B1 & C1 & I1 & E1) (R2 & B2 & C2 & I2 & E2). split_and!; try congruence.
  - intros r Hr. by rewrite R2, R1.
  - rewrite E2 at 1. by rewrite E1 at 1.
Qed.
Lemma rx_frame_enabled u u' : rx_frame u u' -> rx_enabled u -> rx_enabled u'.
Proof. intros (R & _) Hen. unfold rx_enabled. by rewrite R. Qed.
Lemma signal_state (u : SUart) : suart_regs (signal u) = suart_regs u /\ sndbuf (signal u) = sndbuf u /\
  capacity (signal u) = capacity u /\ suart_irqs (signal u) = suart_irqs u /\ sps (signal u) = sps u /\
  pktCnt (signal u) = pktCnt u.
Proof. unfold signal. by destruct (Z.land (suart_regs u ie) UART_TXWM =? 0). Qed.

Lemma after_byte_state c n v u : rx_frame u (after_byte c n v u) /\
  lastMsg (sps (after_byte c n v u)) = Some (mkFormat c (8 * Z.of_nat n)) /\
  suart_regs (after_byte c n v u) rxdata = v /\ pktCnt (after_byte c n v u) = pktCnt u.
Proof.
  unfold after_byte, rx_frame. destruct (signal_state (put rxdata v
    (set_sps (set_lastMsg (Some (mkFormat c (8 * Z.of_nat n))) (sps u)) u))) as (-> & -> & -> & -> & -> & ->).
  split_and!; try done. intros r Hr. by destruct r.
Qed.

(** The word a load of a byte [v] gives: the number and its concolic view. *)
Definition word_of (P : assignment -> Prop) (o : Z * option ConcolicValue) (v : Z) : Prop :=
  exists e, o = (unslipped v, Some e) /\ forall σ, P σ -> cval σ e (AP 32 (unslipped v)).

Lemma load_message c w x σ0 n : cval σ0 c (AP w x) -> w mod 8 = 0 -> forall u : SUart, rx_enabled u ->
  lastMsg (sps u) = Some (mkFormat c (8 * Z.of_nat n)) -> 8 * Z.of_nat n <= w < 2 ^ 32 ->
  exists outs u', load_rxdata rand max_size n u = (Ok outs, u') /\ rx_frame u u' /\
    lastMsg (sps u') = Some (mkFormat c 0) /\ pktCnt u' = pktCnt u /\
    (n <> O -> suart_regs u' rxdata <> SLIP_END) /\
    Forall2 (word_of (fun σ => cval σ c (AP w x))) outs (be_bytes n x).
Proof.
  intros Hc Hm. induction n as [|n IH]; intros u Hen Hlast Hn.
  { exists [], u. split_and!; try done. apply rx_frame_refl. }
  destruct (load_byte u c w x n σ0 Hen Hlast Hn Hm Hc) as (b & Hb & Hv).
  set (v := wrap 8 (Z.shiftr x (8 * Z.of_nat n))) in *.
  destruct (after_byte_state c n (unslipped v) u) as (Hf & Hl & Hrx & Hp).
  destruct (IH (after_byte c n (unslipped v) u)) as (outs & u' & Hr & Hf' & Hl' & Hp' & Hend & Hvs);
    [by eapply rx_frame_enabled|done|lia|].
  exists ((unslipped v, Some (received_value b)) :: outs), u'. cbn [load_rxdata].
  rewrite (sm_bind_ok _ _ _ _ _ Hb), (sm_bind_ok _ _ _ _ _ Hr).
  split; [done|]. split; [by eapply rx_frame_trans|]. split; [done|]. split; [congruence|]. split.
  - intros _. destruct n as [|n]; [|by apply Hend]. injection Hr as <- <-. rewrite Hrx.
    destruct (unslipped_plain v) as [_ Hnc]; [apply wrap_range; lia|]. intros He. apply Hnc. rewrite He.
    unfold control_byte, SLIP_END, SLIP_ESC_ESC. lia.
  - rewrite be_bytes_S. constructor; [|done]. exists (received_value b). split; [done|].
    intros σ Hσ. by apply received_value_cval, Hv.
Qed.

(** Without bytes left, an end of frame and an empty register alternate. *)
Lemma load_end (u : SUart) : rx_enabled u -> idle (sps u) ->
  bus_load rand max_size 0x4 u =
    if suart_regs u rxdata =? SLIP_END then (Ok (2 ^ 31, None), signal (put rxdata (2 ^ 31) u))
    else (Ok (SLIP_END, None), signal (put rxdata SLIP_END (set_pktCnt (pktCnt u + 1) u))).
Proof.
  intros Hen Hi. assert (on_sps sps_empty u = (Ok true, u)) as He.
  { unfold on_sps, sps_empty, sm_bind. rewrite Hi. by destruct u. }
  assert (suart_read rxdata (u, load_trans 4 None) = on_device receive_end (u, load_trans 4 None)) as Hread.
  { cbn [suart_read]. run. cbn [fst reg_value suart_registers]. apply Z.eqb_neq in Hen. rewrite Hen.
    by rewrite (sm_bind_ok _ _ _ _ _ (on_device_run _ _ (load_trans 4 None) _ _ He)). }
  destruct (suart_regs u rxdata =? SLIP_END) eqn:Hrx;
    [rewrite (bus_load_run rand max_size 4 rxdata u (put rxdata (2 ^ 31) u) None)
    |rewrite (bus_load_run rand max_size 4 rxdata u (put rxdata SLIP_END (set_pktCnt (pktCnt u + 1) u)) None)];
    try done; rewrite Hread; apply on_device_run; unfold receive_end; run; cbn [reg_value suart_registers];
    rewrite Hrx; done.
Qed.
End receive.

(** * Transmitting *)

(** The buffer holds what it has to, and is no larger than its steps make it. *)
Definition buffer_ok {S} (u : SymbolicUART S) : Prop :=
  sndsiz u <= capacity u <= Z.max SLIP_SNDBUF_STEP (sndsiz u + SLIP_SNDBUF_STEP - 1) /\
  SLIP_SNDBUF_STEP <= capacity u /\ capacity u mod SLIP_SNDBUF_STEP = 0.

Section transmit.
Context {S : Type} `{SpsServer S} `{KleeSolver} `{ExprBuilder} `{QueryParser}.
Context (rand : nat -> Z) (max_size : Z).
Abbreviation SUart := (SymbolicUART S).

(** What collecting the bytes of a packet leaves alone. *)
Definition tx_frame (u u' : SUart) : Prop :=
  (forall r, r <> txdata -> suart_regs u' r = suart_regs u r) /\
  sps u' = sps u /\ pktCnt u' = pktCnt u /\ suart_irqs u' = suart_irqs u.
Lemma tx_frame_refl u : tx_frame u u.
Proof. by split_and!. Qed.
Lemma tx_frame_trans u1 u2 u3 : tx_frame u1 u2 -> tx_frame u2 u3 -> tx_frame u1 u3.
Proof. intros (R1 & ?) (R2 & ?). split; [|intuition congruence]. intros r Hr. by rewrite R2, R1. Qed.

Lemma push_sndbuf_run d (u : SUart) : buffer_ok u -> exists c,
  push_sndbuf d u = (Ok tt, set_sndbuf (sndbuf u ++ [d]) (set_capacity c u)) /\
  buffer_ok (set_sndbuf (sndbuf u ++ [d]) (set_capacity c u)).
Proof.
  unfold buffer_ok, push_sndbuf, sndsiz. cbn [sndbuf capacity set_sndbuf set_capacity].
  rewrite length_app. cbn [length]. set (n := length (sndbuf u)). intros (Hc & Hs & Hm). run. fold n.
  unfold SLIP_SNDBUF_STEP in *. clearbody n.
  destruct (Z.eqb_spec (Z.of_nat n) 0); [|destruct (Z.eqb_spec (Z.of_nat n mod 1500) 0)];
    cbn [negb andb sm_when]; do 2 run; cbn [capacity set_capacity].
  1,3: exists (capacity u); rewrite (proj2 (Z.ltb_lt _ _)) by (Z.to_euclidean_division_equations; lia).
  3: exists (Z.of_nat n + 1500); rewrite (proj2 (Z.ltb_lt _ _)) by lia.
  all: split; [by destruct u|]; Z.to_euclidean_division_equations; lia.
Qed.

Lemma buffer_ok_length (u u' : SUart) : length (sndbuf u') = length (sndbuf u) -> capacity u' = capacity u ->
  buffer_ok u -> buffer_ok u'.
Proof. unfold buffer_ok, sndsiz. by intros -> ->. Qed.
Lemma buffer_ok_signal r v (u : SUart) : buffer_ok u -> buffer_ok (signal (put r v u)).
Proof. apply buffer_ok_length; unfold signal; by destruct (_ =? 0). Qed.

Lemma transmit_byte_run d (u : SUart) : d <> SLIP_END -> buffer_ok u -> exists b c,
  transmit_byte rand max_size d u = (Ok b, set_sndbuf (received (sndbuf u) d) (set_capacity c u)) /\
  buffer_ok (set_sndbuf (received (sndbuf u) d) (set_capacity c u)).
Proof.
  intros Hd Hok. unfold transmit_byte. run. apply Z.eqb_neq in Hd. rewrite Hd.
  destruct (confused (last (sndbuf u)) d) eqn:Hconf.
  - assert (received (sndbuf u) d = removelast (sndbuf u) ++ [if d =? SLIP_ESC_END then SLIP_END else SLIP_ESC]) as Hr
      by (unfold received; by rewrite Hconf).
    pose proof (received_length _ _ Hconf) as Hlen. rewrite Hr in *. clear Hr.
    unfold confused in Hconf. destruct (bool_decide _); [|done]. cbn [andb] in *.
    exists true, (capacity u). split; [|by apply (buffer_ok_length u)].
    destruct (d =? SLIP_ESC_END); cbn [orb] in Hconf; [|rewrite Hconf]; run; by destruct u.
  - destruct (push_sndbuf_run d u Hok) as (c & Hpush & Hc). exists false, c.
    rewrite received_plain by done. split; [|done]. unfold confused in Hconf.
    destruct (bool_decide _); cbn [andb] in *; [|by rewrite (sm_bind_ok _ _ _ _ _ Hpush)].
    apply orb_false_iff in Hconf as [-> ->]. by rewrite (sm_bind_ok _ _ _ _ _ Hpush).
Qed.

Lemma store_byte b (u : SUart) : byte_ok b -> b <> SLIP_END -> buffer_ok u -> exists u',
  bus_store rand max_size 0 b u = (Ok tt, u') /\ sndbuf u' = received (sndbuf u) b /\ buffer_ok u' /\ tx_frame u u'.
Proof.
  intros Hb Hd Hok. rewrite bus_store_txdata.
  replace (u8 (u32 b)) with b by (unfold byte_ok in Hb; by rewrite !wrap_small by (rewrite ?wrap_small by lia; lia)).
  destruct (transmit_byte_run b u Hd Hok) as (r & c & -> & Hok'). destruct r; eexists; (split; [done|]).
  - by split_and!.
  - unfold tx_frame. destruct (signal_state (put txdata (u32 b) (set_sndbuf (received (sndbuf u) b) (set_capacity c u))))
      as (-> & -> & _ & -> & -> & ->).
    split_and!; [done|by apply buffer_ok_signal| |done..]. intros r Hr. by destruct r.
Qed.
Lemma store_bytes bytes : forall u : SUart, Forall byte_ok bytes -> SLIP_END ∉ bytes -> buffer_ok u -> exists u',
  store_txdata rand max_size bytes u = (Ok tt, u') /\ sndbuf u' = foldl received (sndbuf u) bytes /\
  buffer_ok u' /\ tx_frame u u'.
Proof.
  induction bytes as [|b bytes IH]; intros u Hb Hend Hok.
  { exists u. by split_and!. }
  apply Forall_cons in Hb as [Hb Hbs]. apply not_elem_of_cons in Hend as [Hd Hend].
  destruct (store_byte b u Hb (not_eq_sym Hd) Hok) as (u1 & Hs & Hbuf & Hok1 & Hf).
  destruct (IH u1 Hbs Hend Hok1) as (u2 & Hs2 & Hbuf2 & Hok2 & Hf2). exists u2.
  cbn [store_txdata foldl]. rewrite (sm_bind_ok _ _ _ _ _ Hs), <- Hbuf. split_and!; try done.
  by eapply tx_frame_trans.
Qed.
Lemma store_app l1 l2 (u u' : SUart) : store_txdata rand max_size l1 u = (Ok tt, u') ->
  store_txdata rand max_size (l1 ++ l2) u = store_txdata rand max_size l2 u'.
Proof.
  revert u. induction l1 as [|d l1 IH]; intros u; cbn; [by intros [= ->]|].
  unfold sm_bind. destruct (bus_store rand max_size 0 d u) as [[[]|?] s1]; [apply IH|done].
Qed.

Lemma foldl_escape buf packet : foldl received buf (flat_map escape packet) = foldl received buf packet.
Proof.
  revert buf. induction packet as [|b packet IH]; intros buf; [done|].
  cbn [flat_map foldl]. rewrite foldl_app, <- IH. f_equal. unfold escape.
  destruct (Z.eqb_spec b SLIP_END) as [->|Hend]; [|destruct (Z.eqb_spec b SLIP_ESC) as [->|Hesc]]; [..|done];
    cbn [foldl]; rewrite (received_plain buf SLIP_ESC) by (by apply confused_other);
    rewrite received_escaped by done; by rewrite ?received_plain by (by apply confused_other).
Qed.
Lemma escape_bytes packet : Forall byte_ok packet ->
  Forall byte_ok (flat_map escape packet) /\ SLIP_END ∉ flat_map escape packet.
Proof.
  induction 1 as [|b packet Hb _ [IH1 IH2]]; [split; [done|by inversion 1]|]. cbn [flat_map].
  assert (Forall byte_ok (escape b) /\ SLIP_END ∉ escape b) as [H1' H2'].
  { unfold escape. destruct (Z.eqb_spec b SLIP_END); [|destruct (Z.eqb_spec b SLIP_ESC)];
      (split; [repeat (apply Forall_cons; split; [done|]); by apply Forall_nil|]); rewrite ?elem_of_cons, elem_of_nil; unfold SLIP_END, SLIP_ESC in *;
      intros Hin; repeat destruct Hin as [Hin|Hin]; try done; congruence. }
  split; [by apply Forall_app|]. by rewrite elem_of_app; intros [?|?].
Qed.

(** The byte that ends a frame. *)
Lemma store_end (u : SUart) : sndbuf u <> [] -> buffer_ok u ->
  match send_message rand max_size (sndbuf u) (sps u) with
  | (Ok _, s) => exists u', bus_store rand max_size 0 SLIP_END u = (Ok tt, u') /\ sps u' = s /\ sndbuf u' = [] /\
      capacity u' = SLIP_SNDBUF_STEP /\ async_notified u' = Some 0 /\ pktCnt u' = pktCnt u /\
      (forall r, r <> txdata -> suart_regs u' r = suart_regs u r)
  | (Err e, s) => bus_store rand max_size 0 SLIP_END u = (Err e, set_sps s u)
  end.
Proof.
  intros Hne (Hc & Hs & Hm). rewrite bus_store_txdata. change (u8 (u32 SLIP_END)) with SLIP_END.
  unfold transmit_byte. run. rewrite bool_decide_eq_false_2 by done. cbn [Z.eqb negb sm_when]. cbn -[send_message].
  unfold run_tx_callback, tx_callback, sm_bind, sm_gets, on_sps, notify_after, sm_modify, sm_ret.
  destruct (send_message rand max_size (sndbuf u) (sps u)) as [[[]|e] s] eqn:Hsend; [|done].
  assert (forall u1 : SUart, sps u1 = s -> sndbuf u1 = [] -> capacity u1 = SLIP_SNDBUF_STEP -> async_notified u1 = Some 0 ->
    pktCnt u1 = pktCnt u -> (forall r, r <> txdata -> suart_regs u1 r = suart_regs u r) ->
    exists u', (Ok (E := exn) tt, signal (put txdata (u32 SLIP_END) u1)) = (Ok tt, u') /\ sps u' = s /\ sndbuf u' = [] /\
      capacity u' = SLIP_SNDBUF_STEP /\ async_notified u' = Some 0 /\ pktCnt u' = pktCnt u /\
      (forall r, r <> txdata -> suart_regs u' r = suart_regs u r)) as Hgo.
  { intros u1 ? ? ? ? ? Hr. eexists. split; [done|].
    destruct (signal_state (put txdata (u32 SLIP_END) u1)) as (-> & -> & -> & _ & -> & ->).
    split_and!; try done; [unfold signal; by destruct (_ =? 0)|]. intros r Hne'. rewrite <- Hr by done. by destruct r. }
  unfold sndsiz. cbn [sndbuf set_async_notified set_sps]. fold (sndsiz u).
  destruct (Z.ltb_spec SLIP_SNDBUF_STEP (sndsiz u)); cbn [sm_when]; unfold sm_modify, sm_ret; apply Hgo; try done.
  cbn [capacity set_sndbuf set_async_notified set_sps]. unfold SLIP_SNDBUF_STEP in *. Z.to_euclidean_division_equations. lia.
Qed.
End transmit.

(** * The buffer is never left *)

(** [m] does not throw [e]. *)
Definition never {S A} (e : exn) (m : SM S exn A) : Prop := forall s, (m s).1 <> Err e.
Section never.
Context {S : Type} (e : exn).
Lemma never_ret {A} (a : A) : never e (sm_ret (S := S) a).
Proof. done. Qed.
Lemma never_throw {A} e' : e' <> e -> never e (sm_throw (S := S) (A := A) e').
Proof. intros Hne s. cbn. by intros [= ->]. Qed.
Lemma never_gets {A} (f : S -> A) : never e (sm_gets f).
Proof. done. Qed.
Lemma never_modify (f : S -> S) : never e (sm_modify f).
Proof. done. Qed.
Lemma never_bind {A B} (m : SM S exn A) (k : A -> SM S exn B) :
  never e m -> (forall a, never e (k a)) -> never e (sm_bind m k).
Proof.
  intros Hm Hk s. unfold sm_bind. specialize (Hm s). destruct (m s) as [[a|e'] s']; [apply Hk|].
  cbn in *. congruence.
Qed.
Lemma never_when b m : never e m -> never e (sm_when (S := S) b m).
Proof. by destruct b. Qed.
End never.
Create HintDb never discriminated.
#[export] Hint Resolve never_ret never_gets never_modify : never.
(** Walks down a computation whose every [throw] is of another exception. *)
Ltac never_solve :=
  repeat (cbv beta zeta; lazymatch goal with
  | |- never _ (sm_bind _ _) => apply never_bind; [|intros ?]
  | |- never _ (sm_when _ _) => apply never_when
  | |- never _ (sm_throw _) => apply never_throw; discriminate
  | |- never _ (let '(_, _) := ?x in _) => destruct x
  | |- never _ (match ?x with _ => _ end) => destruct x
  | |- never _ _ => solve [eauto with never]
  end).

Section client_never.
Context {S : Type} `{SpsServer S} `{KleeSolver} `{ExprBuilder} `{QueryParser}.
Context (rand : nat -> Z) (max_size : Z).
#[local] Abbreviation quiet := (never buffer_overflow).

Lemma on_context_never {A} (m : SM SymbolicContext exn A) : quiet m -> quiet (on_context m).
Proof. intros Hm s. unfold on_context. specialize (Hm s.1). by destruct (m s.1). Qed.
Lemma format_asserted_never {A} (o : option A) : quiet (format_asserted o).
Proof. unfold format_asserted. never_solve. Qed.
#[local] Hint Resolve format_asserted_never : never.
Lemma make_symbolic_never name b n : quiet (make_symbolic rand name b n).
Proof. unfold make_symbolic, context_bytes. never_solve. apply on_context_never. by unfold current_index. Qed.
Lemma assume_never e : quiet (assume e).
Proof. unfold assume, stop_assume, asserted. never_solve. Qed.
#[local] Hint Resolve make_symbolic_never assume_never on_context_never : never.
Lemma get_value_loop_never name b n elems : forall o v cs, quiet (get_value_loop rand name b n elems o v cs).
Proof. induction elems as [|x elems IH]; intros o v cs; cbn [get_value_loop]; never_solve. Qed.
#[local] Hint Resolve get_value_loop_never : never.
Lemma get_fields_never fs : forall r, quiet (get_fields rand fs r).
Proof.
  induction fs as [|x fs IH]; intros r; cbn [get_fields]; unfold get_list, get_string, get_integer, get_value;
    never_solve.
Qed.
#[local] Hint Resolve get_fields_never : never.
Lemma format_of_never d : quiet (format_of rand d).
Proof.
  intros s. unfold format_of. set (m := sm_bind _ _). assert (quiet m) as Hm.
  { unfold m, get_input, get_list. never_solve. }
  specialize (Hm (s, ∅)). by destruct (m (s, ∅)) as [r s'].
Qed.
Lemma read_message_never : quiet (read_message (S := S) rand max_size).
Proof.
  unfold read_message. apply never_bind; [done|]. intros [[[d|e] rest]|]; never_solve.
  intros c. pose proof (format_of_never d (sps_ctx c)) as Hf. by destruct (format_of rand d (sps_ctx c)).
Qed.
#[local] Hint Resolve read_message_never : never.
Lemma send_message_never buf : quiet (send_message rand max_size buf).
Proof.
  unfold send_message, sps_empty, sps_remaining_bytes, transmit. never_solve.
Qed.
Lemma sps_next_byte_never : quiet (sps_next_byte (S := S)).
Proof.
  unfold sps_next_byte. apply never_bind; [done|]. intros [f|]; [|never_solve].
  destruct (next_byte f) as [[b|e] f'] eqn:Hn; [never_solve|].
  apply never_bind; [done|]. intros _. apply never_throw. intros ->.
  assert (quiet next_byte) as Hb by (unfold next_byte; never_solve). by apply (Hb _ (f_equal fst Hn)).
Qed.
Lemma sps_empty_never : quiet (sps_empty (S := S)).
Proof. unfold sps_empty, sps_remaining_bytes. never_solve. Qed.
End client_never.

Section buffer.
Context {S : Type} `{SpsServer S} `{KleeSolver} `{ExprBuilder} `{QueryParser}.
Context (rand : nat -> Z) (max_size : Z).
Abbreviation SUart := (SymbolicUART S).

(** The invariant is kept, whatever is thrown, and no access is past the end. *)
Definition safely {T A} (I : T -> Prop) (m : SM T exn A) : Prop :=
  triple I m (fun _ => I) (fun e s => I s /\ e <> buffer_overflow).
Definition device_ok (s : SUart * payload) : Prop := buffer_ok s.1.

Lemma safely_bind {T A B} (I : T -> Prop) (m : SM T exn A) (k : A -> SM T exn B) :
  safely I m -> (forall a, safely I (k a)) -> safely I (sm_bind m k).
Proof. intros Hm Hk. eapply triple_bind; [exact Hm|done]. Qed.
Lemma safely_ret {T A} (I : T -> Prop) (a : A) : safely I (sm_ret a).
Proof. by intros s Hs. Qed.
Lemma safely_gets {T A} (I : T -> Prop) (f : T -> A) : safely I (sm_gets f).
Proof. by intros s Hs. Qed.
Lemma safely_when {T} (I : T -> Prop) b m : safely I m -> safely I (sm_when b m).
Proof. destruct b; [done|]. intros _. apply safely_ret. Qed.
Lemma safely_throw {T A} (I : T -> Prop) e : e <> buffer_overflow -> safely I (sm_throw (A := A) e).
Proof. by intros ? s Hs. Qed.
Lemma safely_device {A} (m : SM SUart exn A) : safely buffer_ok m -> safely device_ok (on_device m).
Proof. intros Hm [u p] Hu. specialize (Hm u Hu). unfold on_device. cbn. by destruct (m u) as [[a|e] u']. Qed.
Lemma safely_sps {A} (m : SM (ProtocolStates S) exn A) : never buffer_overflow m -> safely buffer_ok (on_sps m).
Proof.
  intros Hm u Hu. specialize (Hm (sps u)). unfold on_sps. destruct (m (sps u)) as [[a|e] s]; [exact Hu|].
  split; [exact Hu|]. cbn in Hm. congruence.
Qed.
Lemma safely_modify (f : SUart -> SUart) : (forall u, sndbuf (f u) = sndbuf u /\ capacity (f u) = capacity u) ->
  safely buffer_ok (sm_modify f).
Proof. intros Hf u Hu. destruct (Hf u) as [Hb Hc]. apply (buffer_ok_length u); [by rewrite Hb|done|done]. Qed.
Lemma safely_modify_device (f : SUart * payload -> SUart * payload) : (forall s, (f s).1 = s.1) ->
  safely device_ok (sm_modify f).
Proof. intros Hf s Hs. unfold device_ok. cbn. by rewrite Hf. Qed.

Lemma put_reg_safely r v : safely buffer_ok (put_reg (S := S) r v).
Proof. by apply safely_modify. Qed.
Lemma asserted_value_safely {A} (o : option A) : safely device_ok (asserted_value (S := S) o).
Proof. destruct o; [apply safely_ret|by apply safely_throw]. Qed.
Lemma notify_after_safely ms : safely buffer_ok (notify_after (S := S) ms).
Proof. by apply safely_modify. Qed.
Lemma dev_assert_safely {T} (I : T -> Prop) b : safely I (dev_assert b).
Proof. destruct b; [apply safely_ret|by apply safely_throw]. Qed.
Create HintDb safely discriminated.
#[local] Hint Resolve safely_ret safely_gets put_reg_safely asserted_value_safely notify_after_safely dev_assert_safely
  sps_next_byte_never sps_empty_never send_message_never : safely.
#[local] Ltac safely_solve :=
  repeat (cbv beta zeta; lazymatch goal with
  | |- safely _ (sm_bind _ _) => apply safely_bind; [|intros ?]
  | |- safely _ (sm_when _ _) => apply safely_when
  | |- safely _ (sm_throw _) => apply safely_throw; discriminate
  | |- safely _ (on_device _) => apply safely_device
  | |- safely _ (on_sps _) => apply safely_sps
  | |- safely buffer_ok (sm_modify _) => by apply safely_modify
  | |- safely device_ok (sm_modify _) => by apply safely_modify_device
  | |- safely _ (match ?x with _ => _ end) => destruct x
  | |- _ => solve [eauto with safely]
  end).

Lemma sps_remaining_never : never buffer_overflow (sps_remaining_bytes (S := S)).
Proof. unfold sps_remaining_bytes. never_solve. Qed.
#[local] Hint Resolve sps_remaining_never : safely.
Lemma suart_read_safely r : safely device_ok (suart_read (S := S) r).
Proof. unfold suart_read, receive_byte, receive_end, get_reg. safely_solve. Qed.
Lemma run_tx_callback_safely : safely buffer_ok (run_tx_callback rand max_size).
Proof.
  unfold run_tx_callback. apply safely_bind; [apply safely_gets|]. intros buf.
  apply safely_bind; [unfold tx_callback; safely_solve|]. intros _ u Hu. pose proof Hu as (Hc & Hs & Hm).
  unfold sm_bind, sm_gets. destruct (Z.ltb_spec SLIP_SNDBUF_STEP (sndsiz u)); cbn [sm_when]; unfold sm_modify, sm_ret;
    cbn; unfold buffer_ok, sndsiz in *; cbn [sndbuf capacity set_sndbuf set_capacity length]; unfold SLIP_SNDBUF_STEP in *;
    Z.to_euclidean_division_equations; lia.
Qed.
Lemma transmit_byte_safely d : safely buffer_ok (transmit_byte rand max_size d).
Proof.
  destruct (Z.eqb_spec d SLIP_END) as [->|Hd].
  - unfold transmit_byte. cbn [Z.eqb]. apply safely_bind; [apply safely_gets|]. intros buf.
    change (SLIP_END =? SLIP_END) with true. cbv iota.
    apply safely_bind; [|intros _; apply safely_ret]. apply safely_when, run_tx_callback_safely.
  - intros u Hu. destruct (transmit_byte_run rand max_size d u Hd Hu) as (b & c & -> & Hok). exact Hok.
Qed.
Lemma access_fn_safely a r : safely device_ok (access_fn (S := SUart) (reg_new a r)).
Proof.
  unfold access_fn, get_trans, bus_read, bus_write, set_trans_data. safely_solve.
Qed.
#[local] Hint Resolve suart_read_safely transmit_byte_safely access_fn_safely : safely.
Lemma suart_callback_safely r : safely device_ok (acc_fn r) -> safely device_ok (suart_callback rand max_size r).
Proof. intros Hr. unfold suart_callback, get_reg. safely_solve. Qed.

(** The buffer of the transmitted packet is never left: it starts right, and whatever
    transaction reaches the device, at any length the buffer has grown to and also if the
    server or the solver throws, the bytes in use fit the size allocated, which stays a
    multiple of the step, at most one step more than is needed, and no byte is stored past
    its end. *)
Theorem suart_buffer beyond (u : SUart) trans (s : ProtocolStates S) :
  buffer_ok (SymbolicUART_new s) /\
  (buffer_ok u ->
   buffer_ok (suart_transport rand max_size beyond (u, trans)).2.1 /\
   (suart_transport rand max_size beyond (u, trans)).1 <> Err buffer_overflow /\
   buffer_ok (suart_interrupt u).2).
Proof.
  split; [done|]. intros Hu.
  assert (safely device_ok (suart_transport rand max_size beyond)) as Ht.
  { unfold suart_transport, router_transport. apply safely_bind; [|intros [|]; [apply safely_ret|by apply safely_throw]].
    unfold bank_try_handle, get_trans. apply safely_bind; [apply safely_gets|]. intros t.
    destruct (find_register uart_bank (address t)) as [m|] eqn:Hf; [|apply safely_ret].
    apply find_some in Hf as [Hin _]. assert (exists a r, m = reg_new a r) as (a & r & ->).
    { unfold uart_bank in Hin. cbn in Hin. repeat destruct Hin as [<-|Hin]; [by do 2 eexists..|done]. }
    do 4 (apply safely_bind; [auto with safely|intros _]). apply safely_bind; [|intros _; apply safely_ret].
    apply suart_callback_safely, access_fn_safely. }
  assert (safely buffer_ok (suart_interrupt (S := S))) as Hi by (unfold suart_interrupt, get_reg; safely_solve).
  specialize (Ht (u, trans) Hu). specialize (Hi u Hu).
  destruct (suart_transport rand max_size beyond (u, trans)) as [[[]|e] [u' p']], (suart_interrupt u) as [[[]|e'] u2];
    cbn in *; intuition congruence.
Qed.
End buffer.

(** * A packet and its answer *)

Section exchange.
Context {S : Type} `{SpsServer S} `{KleeSolver} `{Laws : BuilderLaws} `{QueryParser}.
Context (rand : nat -> Z) (max_size : Z).
Abbreviation SUart := (SymbolicUART S).

Lemma sps_frame_idle (s : ProtocolStates S) c : lastMsg s = Some (mkFormat c 0) -> idle s.
Proof. intros Hl. unfold idle, sps_remaining_bytes, sm_bind, sm_gets. by rewrite Hl. Qed.

Lemma load_app l : forall k (u u' : SUart), load_rxdata rand max_size l u = (Ok k, u') -> forall m,
  load_rxdata rand max_size (l + m) u =
    match load_rxdata rand max_size m u' with (Ok ks, u'') => (Ok (k ++ ks), u'') | (Err e, u'') => (Err e, u'') end.
Proof.
  induction l as [|l IH]; intros k u u' Hk m.
  { injection Hk as <- <-. cbn [Nat.add]. by destruct (load_rxdata rand max_size m u) as [[ks|e] u'']. }
  cbn [load_rxdata Nat.add] in *. unfold sm_bind in Hk |- *.
  destruct (bus_load rand max_size 4 u) as [[y|e] u1]; [|done].
  destruct (load_rxdata rand max_size l u1) as [[ys|e] u2] eqn:Hys; [|done]. injection Hk as <- <-.
  rewrite (IH _ _ _ Hys). by destruct (load_rxdata rand max_size m u2) as [[ks|e] u3].
Qed.

(** What the driver reads of an answer: its bytes, then the end of a frame and an empty
    register. *)
Lemma load_answer (u : SUart) fs n : rx_enabled u -> delivered fs n (sps u) -> n <> O ->
  exists bss outs u', load_rxdata rand max_size (n + 2) u = (Ok (outs ++ [(SLIP_END, None); (2 ^ 31, None)]), u') /\
    Forall2 field_bytes fs bss /\
    Forall2 (word_of (fun σ => consistent σ (last_run (ctx (sps_ctx (sps u)))))) outs (be_bytes n (number 0 fs bss)) /\
    pktCnt u' = pktCnt u + 1 /\ idle (sps u') /\ sps_ctx (sps u') = sps_ctx (sps u).
Proof.
  intros Hen (Hrem & c & w & x & bss & Hlast & Hn & Hm & Hbss & -> & Hcv) Hn0.
  pose proof (Hcv _ (store_input_consistent _)) as Hc0.
  destruct (load_message rand max_size c w _ _ n Hc0 Hm u Hen Hlast Hn) as (outs & u1 & Hload & Hf & Hl & Hp & Hend & Hv).
  exists bss, outs. pose proof Hf as (Hregs & _ & _ & _ & Hsps).
  pose proof (sps_frame_idle _ _ Hl) as Hidle. pose proof (rx_frame_enabled _ _ Hf Hen) as Hen1.
  pose proof (load_end rand max_size u1 Hen1 Hidle) as He1. rewrite (proj2 (Z.eqb_neq _ _) (Hend Hn0)) in He1.
  set (u2 := signal (put rxdata SLIP_END (set_pktCnt (pktCnt u1 + 1) u1))) in *.
  destruct (signal_state (put rxdata SLIP_END (set_pktCnt (pktCnt u1 + 1) u1))) as (R2 & _ & _ & _ & P2 & K2).
  fold u2 in R2, P2, K2.
  assert (rx_enabled u2) as Hen2 by (unfold rx_enabled; by rewrite R2).
  assert (idle (sps u2)) as Hidle2 by (by rewrite P2).
  pose proof (load_end rand max_size u2 Hen2 Hidle2) as He2.
  assert ((suart_regs u2 rxdata =? SLIP_END) = true) as Hrx by (rewrite R2; done). rewrite Hrx in He2.
  set (u3 := signal (put rxdata (2 ^ 31) u2)) in *.
  destruct (signal_state (put rxdata (2 ^ 31) u2)) as (_ & _ & _ & _ & P3 & K3). fold u3 in P3, K3.
  exists u3. split; [|split; [done|split; [|split; [|split]]]].
  - rewrite (load_app _ _ _ _ Hload). cbn [load_rxdata].
    by rewrite (sm_bind_ok _ _ _ _ _ He1), (sm_bind_ok _ _ _ _ _ (sm_bind_ok _ _ _ _ _ He2)).
  - eapply Forall2_impl; [exact Hv|]. intros o v (e & -> & He). exists e. split; [done|].
    intros σ Hσ. by apply He, Hcv.
  - rewrite K3. cbn [pktCnt put reg_assign suart_registers set_suart_regs]. rewrite K2, <- Hp. done.
  - rewrite P3. exact Hidle2.
  - rewrite P3. cbn [sps put reg_assign suart_registers set_suart_regs]. rewrite P2.
    cbn [sps put reg_assign suart_registers set_suart_regs set_pktCnt]. by rewrite Hsps.
Qed.

(** The method raises the interrupt for an answer longer than the watermark. *)
Lemma interrupt_answer (u : SUart) n : rx_enabled u -> sps_remaining_bytes (sps u) = (Ok (Z.of_nat n), sps u) ->
  UART_CTRL_CNT (suart_regs u rxctrl) < Z.of_nat n ->
  exists u', suart_interrupt u = (Ok tt, u') /\ suart_irqs u' = Datatypes.S (suart_irqs u).
Proof.
  intros Hen Hrem Hcnt. unfold suart_interrupt. do 2 run. cbn [reg_value suart_registers suart_regs set_async_notified].
  assert (on_sps sps_remaining_bytes (set_async_notified None u) = (Ok (Z.of_nat n), set_async_notified None u)) as Hr.
  { unfold on_sps. cbn [sps set_async_notified]. rewrite Hrem. by destruct u. }
  rewrite (sm_bind_ok _ _ _ _ _ Hr). run. cbn [reg_value suart_registers suart_regs set_async_notified].
  apply Z.eqb_neq in Hen. rewrite Hen. apply Z.ltb_lt in Hcnt. rewrite Hcnt. by eexists.
Qed.

(** A packet and its answer: the driver stores the bytes of a packet in a SLIP frame, the
    server is sent the packet and answers with the fields of a message.  Then the buffer is
    empty again and the interrupt is notified, and raised if the answer is longer than the
    receive watermark; the driver loads, one word per byte, concolic views of the bytes of
    the answer, none of which is a control byte of SLIP as those that were are replaced; the
    next load is the end of the frame and the one after it the mark of an empty register;
    the packet is counted and the client is ready for the next one.  Otherwise the run is
    stopped for a constraint of the answer. *)
Theorem suart_exchange packet (u : SUart) fs srv n :
  max_size < 2 ^ 64 -> sendable max_size fs -> total_bits fs = 8 * Z.of_nat n -> n <> O ->
  Forall byte_ok packet -> packet <> [] -> unambiguous packet = true ->
  buffer_ok u -> sndbuf u = [] -> sockin (sps u) = "" -> prepared_ok (sps_ctx (sps u)) -> idle (sps u) -> rx_enabled u ->
  server_receive (encode (DList [DInteger SPS_DATA; DString (string_of_bytes packet)])) (server (sps u)) =
    Some (encode (message fs), srv) ->
  match store_txdata rand max_size (slip_input packet) u with
  | (Ok _, u1) =>
      sndbuf u1 = [] /\ capacity u1 = SLIP_SNDBUF_STEP /\ async_notified u1 = Some 0 /\ server (sps u1) = srv /\
      (UART_CTRL_CNT (suart_regs u rxctrl) < Z.of_nat n ->
         exists u', suart_interrupt u1 = (Ok tt, u') /\ suart_irqs u' = Datatypes.S (suart_irqs u1)) /\
      exists bss outs u2,
        load_rxdata rand max_size (n + 2) u1 = (Ok (outs ++ [(SLIP_END, None); (2 ^ 31, None)]), u2) /\
        Forall2 field_bytes fs bss /\
        Forall2 (word_of (fun σ => consistent σ (last_run (ctx (sps_ctx (sps u1)))))) outs (be_bytes n (number 0 fs bss)) /\
        Forall (fun o => byte_ok o.1 /\ ~ control_byte o.1) outs /\
        pktCnt u2 = pktCnt u + 1 /\ idle (sps u2)
  | (Err e, _) => Exists constrained fs /\ stops e
  end.
Proof.
  intros Hmax Hfs Hw Hn Hp Hne Hun Hok Hbuf Hin Hprep Hidle Hen Hrecv.
  destruct (escape_bytes packet Hp) as [Hbytes Hend].
  destruct (store_bytes rand max_size _ u Hbytes Hend Hok) as (u0 & Hs & Hbuf0 & Hok0 & Hr0 & Hsps0 & Hp0 & _).
  rewrite Hbuf, foldl_escape in Hbuf0. rewrite (proj1 (foldl_received [] packet) Hun) in Hbuf0. cbn [app] in Hbuf0.
  unfold slip_input. rewrite (store_app rand max_size _ _ _ _ Hs). cbn [store_txdata].
  assert (sndbuf u0 <> []) as Hne0 by (by rewrite Hbuf0).
  pose proof (store_end rand max_size u0 Hne0 Hok0) as Hst. rewrite Hbuf0, Hsps0 in Hst.
  pose proof (send_message_spec rand max_size packet (sps u) fs srv n Hmax Hfs Hw Hin Hprep Hidle Hrecv) as Hm.
  destruct (send_message rand max_size packet (sps u)) as [[[]|e] s'].
  - destruct Hst as (u1 & Hst & Hs1 & Hb1 & Hc1 & Ha1 & Hp1 & Hr1). rewrite (sm_bind_ok _ _ _ _ _ Hst). unfold sm_ret.
    destruct Hm as (_ & Hsrv & Hdel). rewrite <- Hs1 in Hdel, Hsrv.
    assert (rx_enabled u1) as Hen1 by (unfold rx_enabled; by rewrite Hr1, Hr0).
    split; [done|]. split; [done|]. split; [done|]. split; [done|]. split.
    { intros Hcnt. apply (interrupt_answer u1 n Hen1); [exact (proj1 Hdel)|]. by rewrite Hr1, Hr0. }
    destruct (load_answer u1 fs n Hen1 Hdel Hn) as (bss & outs & u2 & Hl & Hbss & Hv & Hcnt & Hi & _).
    exists bss, outs, u2. split; [done|]. split; [done|]. split; [done|]. split; [|split; [congruence|done]].
    assert (Forall byte_ok (be_bytes n (number 0 fs bss))) as Hb by (apply Forall_rev, le_bytes_ok).
    clear - Hv Hb. induction Hv as [|o v outs vs (e & -> & _) _ IH]; [done|]. apply Forall_cons in Hb as [Hb Hbs].
    apply Forall_cons. split; [exact (unslipped_plain v Hb)|by apply IH].
  - rewrite (sm_bind_err _ _ _ _ _ Hst). by destruct Hm as (? & ? & _).
Qed.
End exchange.

(** ** A witness *)

#[local] Instance suart_builder : ExprBuilder := solver_builder.
#[local] Instance suart_no_parser : QueryParser := {| fromString _ _ := None |}.
#[local] Instance suart_no_solver : KleeSolver := search_solver [].
#[local] Instance suart_server : SpsServer unit :=
  {| server_receive _ _ := Some (encode (message sample_message), tt) |}.
(** The driver has enabled the receive interrupt. *)
Definition sample_uart : SymbolicUART unit :=
  put ie UART_RXWM (SymbolicUART_new (mkSps tt "" None SymbolicContext_new)).

Lemma suart_exchange_witness : exists u1 outs u2,
  store_txdata (fun i => Z.of_nat i + 1) 1000 (slip_input [0xc0; 0x41]) sample_uart = (Ok tt, u1) /\
  suart_irqs u1 = O /\ (exists u', suart_interrupt u1 = (Ok tt, u') /\ suart_irqs u' = 1%nat) /\
  load_rxdata (fun i => Z.of_nat i + 1) 1000 7 u1 = (Ok (outs ++ [(SLIP_END, None); (2 ^ 31, None)]), u2) /\
  Forall (fun o => byte_ok o.1 /\ ~ control_byte o.1) outs /\ pktCnt u2 = 1.
Proof.
  assert (prepared_ok SymbolicContext_new) as Hs by (split; [intros ? ? Hv|intros ? ? ? Hv]; discriminate Hv).
  assert (sendable 1000 sample_message) as Hm.
  { split; [done|]. split; [repeat constructor; done|].
    split; [exact (bool_decide_eq_true_1 (NoDup (f_name <$> sample_message)) eq_refl)|]. done. }
  assert (Forall byte_ok [0xc0; 0x41]) as Hp by (repeat (apply Forall_cons; split; [done|]); by apply Forall_nil).
  pose proof (suart_exchange (Laws := solver_builder_laws) (fun i => Z.of_nat i + 1) 1000 [0xc0; 0x41] sample_uart
    sample_message tt 5 ltac:(done) Hm eq_refl ltac:(done) Hp ltac:(done) eq_refl ltac:(done) eq_refl eq_refl Hs eq_refl
    ltac:(done) eq_refl) as Hx.
  destruct (store_txdata (fun i => Z.of_nat i + 1) 1000 (slip_input [0xc0; 0x41]) sample_uart) as [[[]|e] u1] eqn:Hst;
    [|vm_compute in Hst; discriminate].
  assert (suart_irqs u1 = O) as Hirq.
  { pose proof (f_equal (fun r => suart_irqs r.2) Hst) as Hi. etransitivity; [symmetry; exact Hi|]. vm_compute. reflexivity. }
  destruct Hx as (_ & _ & _ & _ & Hint & bss & outs & u2 & Hl & _ & _ & Hc & Hk & _).
  exists u1, outs, u2. split; [reflexivity|]. split; [exact Hirq|]. split.
  { destruct (Hint eq_refl) as (u' & Hu & Hi). exists u'. split; [exact Hu|]. rewrite Hi, Hirq. reflexivity. }
  split; [exact Hl|]. split; [exact Hc|exact Hk].
Defined.
Lemma suart_buffer_witness :
  buffer_ok (suart_transport (fun i => Z.of_nat i + 1) 1000 [] (sample_uart, store_trans 0 0x41)).2.1.
Proof. apply (proj2 (suart_buffer (fun i => Z.of_nat i + 1) 1000 [] sample_uart (store_trans 0 0x41) (sps sample_uart))). done. Defined.
