(* ===== verification/ElfLoader.v ===== *)
(** The loader of program images (core/common/elf_loader.h, core/rv32/elf_loader.h): headers
    read in place from the mapped file, segments copied to memory, sections and symbols
    looked up by name. *)
From S2P Require Import Prelude Bits APInt KExpr KBuilder KBuilderSound Concolic ConcMem Iss Bus.

(** * The structures of a file: the members the loader reads *)

Record Elf32_Ehdr := mkEhdr {
  e_entry : Z; e_phoff : Z; e_shoff : Z;
  e_phentsize : Z; e_phnum : Z; e_shentsize : Z; e_shnum : Z; e_shstrndx : Z }.
Record Elf32_Phdr := mkPhdr {
  p_type : Z; p_offset : Z; p_vaddr : Z; p_paddr : Z; p_filesz : Z; p_memsz : Z }.
Record Elf32_Shdr := mkShdr {
  sh_name : Z; sh_type : Z; sh_flags : Z; sh_addr : Z; sh_offset : Z; sh_size : Z }.
Record Elf32_Sym := mkSym { st_name : Z; st_value : Z; st_size : Z }.
(** [sizeof], and the size of the leading [e_ident]. *)
Definition sizeof_Ehdr : Z := 52.
Definition sizeof_Phdr : Z := 32.
Definition sizeof_Shdr : Z := 40.
Definition sizeof_Sym : Z := 16.
Definition ELF_NIDENT : Z := 16.
Definition PT_LOAD : Z := 1.

(** The undefined behaviour of reading past the end of the mapped file. *)
Definition file_overrun : exn := OtherException 8.

Section loader.
(** The bytes of the file. *)
Context (elf : list Z).
#[local] Open Scope sm_scope.

Section read.
Context {S : Type}.
Abbreviation ElfM := (SM S exn).

(** The bytes at an offset of [elf.data()]. *)
Definition file_bytes (off n : Z) : ElfM (list Z) :=
  if (n =? 0) || ((0 <=? off) && (off + n <=? Z.of_nat (length elf)))
  then sm_ret (take (Z.to_nat n) (drop (Z.to_nat off) elf))
  else sm_throw file_overrun.
(** A member of a structure: so many bytes of it from an offset. *)
Definition member (bytes : list Z) (off n : nat) : Z := le_value (take n (drop off bytes)).

Definition hdr : ElfM Elf32_Ehdr :=
  b <-- file_bytes 0 sizeof_Ehdr ;;
  sm_ret (mkEhdr (member b 24 4) (member b 28 4) (member b 32 4)
            (member b 42 2) (member b 44 2) (member b 46 2) (member b 48 2) (member b 50 2)).
Definition phdr_at (off : Z) : ElfM Elf32_Phdr :=
  b <-- file_bytes off sizeof_Phdr ;;
  sm_ret (mkPhdr (member b 0 4) (member b 4 4) (member b 8 4) (member b 12 4) (member b 16 4) (member b 20 4)).
Definition shdr_at (off : Z) : ElfM Elf32_Shdr :=
  b <-- file_bytes off sizeof_Shdr ;;
  sm_ret (mkShdr (member b 0 4) (member b 4 4) (member b 8 4) (member b 12 4) (member b 16 4) (member b 20 4)).
Definition sym_at (off : Z) : ElfM Elf32_Sym :=
  b <-- file_bytes off sizeof_Sym ;; sm_ret (mkSym (member b 0 4) (member b 4 4) (member b 8 4)).
Definition elf_assert (b : bool) : ElfM unit := sm_when (negb b) (sm_throw AssertionFailed).

(** A loop that reads so many structures. *)
Fixpoint read_all {A} (at_index : Z -> ElfM A) (i : Z) (n : nat) : ElfM (list A) :=
  match n with
  | O => sm_ret []
  | Datatypes.S n => x <-- at_index i ;; xs <-- read_all at_index (i + 1) n ;; sm_ret (x :: xs)
  end.

Definition loadable (p : Elf32_Phdr) : bool :=
  (p_type p =? PT_LOAD) && negb ((p_filesz p =? 0) && (p_memsz p =? 0)).
Definition get_load_sections : ElfM (list Elf32_Phdr) :=
  h <-- hdr ;;
  ps <-- read_all (fun i => phdr_at (e_phoff h + e_phentsize h * i)) 0 (Z.to_nat (e_phnum h)) ;;
  sm_ret (List.filter loadable ps).

Definition get_memory_end : ElfM Z :=
  h <-- hdr ;;
  last <-- phdr_at (e_phoff h + e_phentsize h * (e_phnum h - 1)) ;;
  sm_ret (u32 (p_vaddr last + p_memsz last)).
Definition get_heap_addr : ElfM Z := s <-- get_memory_end ;; sm_ret (u32 (s + s mod 8)).
Definition get_entrypoint : ElfM Z := h <-- hdr ;; sm_ret (e_entry h).

(** ** Sections and symbols *)

Definition get_sections : ElfM (list Elf32_Shdr) :=
  h <-- hdr ;;
  sm_when (e_shoff h =? 0) (sm_throw RuntimeError) ;;;
  read_all (fun i => shdr_at (e_shoff h + u32 (e_shentsize h * i))) 0 (Z.to_nat (e_shnum h)).
(** A string table is the offset of its first byte. *)
Definition get_section_string_table : ElfM Z :=
  h <-- hdr ;;
  elf_assert (negb (e_shoff h =? 0)) ;;;
  s <-- shdr_at (e_shoff h + e_shentsize h * e_shstrndx h) ;;
  sm_ret (sh_offset s).

(** [!strcmp] of the string at an offset and one without a null byte. *)
Fixpoint string_is (off : Z) (name : list Z) : ElfM bool :=
  b <-- file_bytes off 1 ;;
  match name with
  | [] => sm_ret (bool_decide (b = [0]))
  | c :: name => if bool_decide (b = [c]) then string_is (off + 1) name else sm_ret false
  end.
(** The first structure of the given name. *)
Fixpoint find_named {A} (name_offset : A -> Z) (name : list Z) (l : list A) : ElfM A :=
  match l with
  | [] => sm_throw RuntimeError
  | x :: l =>
      found <-- string_is (name_offset x) name ;;
      if found : bool then sm_ret x else find_named name_offset name l
  end.
Definition get_section (section_name : list Z) : ElfM Elf32_Shdr :=
  strings <-- get_section_string_table ;;
  sections <-- get_sections ;;
  find_named (fun s => strings + sh_name s) section_name sections.

Definition dot_strtab : list Z := [0x2e; 0x73; 0x74; 0x72; 0x74; 0x61; 0x62].
Definition dot_symtab : list Z := [0x2e; 0x73; 0x79; 0x6d; 0x74; 0x61; 0x62].
Definition get_symbol_string_table : ElfM Z :=
  s <-- get_section dot_strtab ;; sm_ret (sh_offset s).
(** The symbols are read one by one until the name is found. *)
Fixpoint find_symbol (table strings : Z) (name : list Z) (i : Z) (n : nat) : ElfM Elf32_Sym :=
  match n with
  | O => sm_throw RuntimeError
  | Datatypes.S n =>
      p <-- sym_at (table + i * sizeof_Sym) ;;
      found <-- string_is (strings + st_name p) name ;;
      if found : bool then sm_ret p else find_symbol table strings name (i + 1) n
  end.
Definition get_symbol (symbol_name : list Z) : ElfM Elf32_Sym :=
  s <-- get_section dot_symtab ;;
  strings <-- get_symbol_string_table ;;
  elf_assert (sh_size s mod sizeof_Sym =? 0) ;;;
  find_symbol (sh_offset s) strings symbol_name 0 (Z.to_nat (sh_size s / sizeof_Sym)).
End read.

(** ** The image *)

Section image.
Context `{ExprBuilder}.
Abbreviation ImageM := (SM ConcolicMemory exn).
Definition image_store (f : ConcolicMemory -> option ConcolicMemory) : ImageM unit :=
  m <-- sm_gets f ;; match m with Some m => sm_modify (fun _ => m) | None => sm_throw AssertionFailed end.

(** The body of the loop of [load_executable_image]; addresses are [uint32_t]. *)
Definition segment_addr (use_vaddr : bool) (p : Elf32_Phdr) : Z := if use_vaddr then p_vaddr p else p_paddr p.
Definition in_target (size offset addr : Z) : bool := (offset <=? addr) && (addr <? u32 (offset + size)).
Definition load_segment (size offset : Z) (use_vaddr : bool) (p : Elf32_Phdr) : ImageM unit :=
  let addr := segment_addr use_vaddr p in
  if negb (in_target size offset addr) then sm_ret tt
  else
    elf_assert (offset <=? addr) ;;;
    elf_assert (u32 (addr + p_memsz p) <? u32 (offset + size)) ;;;
    let idx := u32 (addr - offset) in
    src <-- file_bytes (p_offset p) (p_filesz p) ;;
    image_store (load_data src idx) ;;;
    elf_assert (p_filesz p <=? p_memsz p) ;;;
    image_store (load_zero (u32 (idx + p_filesz p)) (Z.to_nat (u32 (p_memsz p - p_filesz p)))).
Fixpoint load_segments (size offset : Z) (use_vaddr : bool) (ps : list Elf32_Phdr) : ImageM unit :=
  match ps with
  | [] => sm_ret tt
  | p :: ps => load_segment size offset use_vaddr p ;;; load_segments size offset use_vaddr ps
  end.
Definition load_executable_image (size offset : Z) (use_vaddr : bool) : ImageM unit :=
  ps <-- get_load_sections ;; load_segments size offset use_vaddr ps.
End image.
End loader.

(** * What the image leaves in memory *)

Section loaded.
Context `{Laws : BuilderLaws} (σ : assignment) (elf : list Z) (size offset : Z) (use_vaddr : bool).

(** The memory a segment makes up: its bytes of the file, then zeros. *)
Definition segment_bytes (p : Elf32_Phdr) : list Z :=
  take (Z.to_nat (p_filesz p)) (drop (Z.to_nat (p_offset p)) elf) ++
  replicate (Z.to_nat (p_memsz p - p_filesz p)) 0.
Abbreviation start := (fun p => segment_addr use_vaddr p - offset).

(** A segment the loader takes: inside the file, and before the last byte of the target. *)
Definition segment_ok (p : Elf32_Phdr) : Prop :=
  0 <= p_filesz p <= p_memsz p /\ 0 <= p_offset p /\ p_offset p + p_filesz p <= Z.of_nat (length elf) /\
  offset <= segment_addr use_vaddr p /\ segment_addr use_vaddr p + p_memsz p < offset + size.
Definition apart (p q : Elf32_Phdr) : Prop :=
  start p + p_memsz p <= start q \/ start q + p_memsz q <= start p.

Lemma write_bytes_app l1 l2 f a :
  write_bytes f a (l1 ++ l2) = write_bytes (write_bytes f a l1) (a + Z.of_nat (length l1)) l2.
Proof.
  revert f a. induction l1 as [|b l1 IH]; intros f a; cbn [app write_bytes length]; [by rewrite Z.add_0_r|].
  rewrite IH. f_equal. lia.
Qed.
Lemma load_data_run src : forall m f a, Forall byte_ok src -> mem_view σ m f ->
  exists m', load_data src a m = Some m' /\ mem_view σ m' (write_bytes f a src).
Proof.
  induction src as [|b src IH]; intros m f a Hb Hm; [by exists m|]. apply Forall_cons in Hb as [Hb Hsrc].
  cbn [load_data write_bytes]. destruct (BVC_byte σ (u8 b)) as (c & Hc & Hv); [apply wrap_range; lia|].
  rewrite Hc. cbn [mbind option_bind].
  destruct (store_spec σ m f a c _ 1 Hm Hv) as (m1 & Hst & Hm1). cbn [ap_val] in Hm1.
  replace (u8 b) with b in Hm1 by (unfold byte_ok in Hb; by rewrite wrap_small).
  assert (le_bytes 1 b = [b]) as Hle by (cbn; unfold byte_ok in Hb; by rewrite wrap_small).
  rewrite Hle in Hm1.
  rewrite Hst. exact (IH m1 _ (a + 1) Hsrc Hm1).
Qed.
Lemma load_zero_run n : forall m f a, mem_view σ m f ->
  exists m', load_zero a n m = Some m' /\ mem_view σ m' (write_bytes f a (replicate n 0)).
Proof. intros m f a. apply load_data_run. apply Forall_replicate. done. Qed.

Lemma length_segment p : segment_ok p -> length (segment_bytes p) = Z.to_nat (p_memsz p).
Proof.
  intros (Hf & Ho & Hl & _). unfold segment_bytes. rewrite length_app, length_take, length_drop, length_replicate. lia.
Qed.

Context (Helf : Forall byte_ok elf) (Hoff : 0 <= offset) (Hsize : offset + size < 2 ^ 32).

Lemma load_segment_run p m f : segment_ok p -> mem_view σ m f ->
  exists m', load_segment elf size offset use_vaddr p m = (Ok tt, m') /\
    mem_view σ m' (write_bytes f (start p) (segment_bytes p)).
Proof.
  intros ([Hf0 Hf] & Ho & Hl & Ha & Hend) Hm. unfold load_segment, in_target, image_store, elf_assert, file_bytes, sm_gets.
  set (addr := segment_addr use_vaddr p) in *. rewrite !(wrap_small 32) by lia.
  rewrite (proj2 (Z.leb_le _ _) Ha). rewrite (proj2 (Z.ltb_lt addr (offset + size))) by lia.
  rewrite (proj2 (Z.ltb_lt (addr + p_memsz p) (offset + size))) by lia. cbn [negb andb sm_when].
  set (src := take (Z.to_nat (p_filesz p)) (drop (Z.to_nat (p_offset p)) elf)).
  assert (Forall byte_ok src) as Hsrc by (by apply Forall_take, Forall_drop).
  assert ((if (p_filesz p =? 0) || ((0 <=? p_offset p) && (p_offset p + p_filesz p <=? Z.of_nat (length elf)))
    then sm_ret src else sm_throw file_overrun) m = (Ok src, m)) as Hread.
  { rewrite (proj2 (Z.leb_le 0 (p_offset p)) Ho), (proj2 (Z.leb_le _ _) Hl), orb_true_r. done. }
  destruct (load_data_run src m f (addr - offset) Hsrc Hm) as (m1 & Hm1 & Hv1).
  destruct (load_zero_run (Z.to_nat (p_memsz p - p_filesz p)) m1 _ (addr - offset + p_filesz p) Hv1) as (m2 & Hm2 & Hv2).
  assert (Z.of_nat (length src) = p_filesz p) as Hlen by (unfold src; rewrite length_take, length_drop; lia).
  exists m2. split.
  - unfold sm_bind at 1 2 3, sm_ret at 1 2. fold src. rewrite Hread. unfold sm_bind, sm_ret, sm_modify. rewrite Hm1.
    rewrite (proj2 (Z.leb_le _ _) Hf). cbn [negb sm_when]. unfold sm_ret. by rewrite Hm2.
  - unfold segment_bytes. rewrite write_bytes_app. fold src. by rewrite Hlen.
Qed.

Abbreviation wanted := (fun p => in_target size offset (segment_addr use_vaddr p)).
Definition overlay (f : bytemem) (p : Elf32_Phdr) : bytemem := write_bytes f (start p) (segment_bytes p).
Lemma load_segments_run ps : forall m f, Forall segment_ok (List.filter wanted ps) -> mem_view σ m f ->
  exists m', load_segments elf size offset use_vaddr ps m = (Ok tt, m') /\
    mem_view σ m' (foldl overlay f (List.filter wanted ps)).
Proof.
  induction ps as [|p ps IH]; intros m f Hps Hm; [by exists m|]. cbn [load_segments List.filter] in *.
  destruct (in_target size offset (segment_addr use_vaddr p)) eqn:Hin.
  - apply Forall_cons in Hps as [Hp Hps]. destruct (load_segment_run p m f Hp Hm) as (m1 & Hl & Hv).
    destruct (IH m1 _ Hps Hv) as (m2 & Hl2 & Hv2). exists m2. by rewrite (sm_bind_ok _ _ _ _ _ Hl).
  - destruct (IH m f Hps Hm) as (m2 & Hl2 & Hv2). exists m2. split; [|done].
    rewrite (sm_bind_ok _ _ m tt m); [done|]. unfold load_segment. by rewrite Hin.
Qed.

(** Where a segment ends up, and what it leaves alone. *)
Lemma overlay_outside f p a : segment_ok p -> ~ (start p <= a < start p + p_memsz p) -> overlay f p a = f a.
Proof.
  intros Hp Ha. apply write_bytes_outside. intros i Hi. rewrite length_segment in Hi by done.
  destruct Hp as (Hf & _ & _ & Hs & Hend). cbn beta in *. rewrite wrap_small by lia. lia.
Qed.
Lemma overlay_read f p : segment_ok p -> read_bytes (overlay f p) (start p) (Z.to_nat (p_memsz p)) = segment_bytes p.
Proof.
  intros Hp. pose proof (length_segment p Hp) as Hlen. rewrite <- Hlen. apply read_write_bytes. rewrite Hlen.
  destruct Hp as (Hf & _ & _ & Hs & Hend). lia.
Qed.
Lemma foldl_overlay_outside ps a : forall f, Forall segment_ok ps ->
  Forall (fun p => ~ (start p <= a < start p + p_memsz p)) ps -> foldl overlay f ps a = f a.
Proof.
  induction ps as [|p ps IH]; intros f Hok Ha; [done|]. apply Forall_cons in Hok as [Hp Hps].
  apply Forall_cons in Ha as [Ha Has]. cbn [foldl]. rewrite IH by done. by apply overlay_outside.
Qed.
Lemma foldl_overlay_read p ps f : segment_ok p -> Forall segment_ok ps -> Forall (apart p) ps ->
  read_bytes (foldl overlay (overlay f p) ps) (start p) (Z.to_nat (p_memsz p)) = segment_bytes p.
Proof.
  intros Hp Hps Ha. rewrite <- (overlay_read f p Hp). apply read_bytes_ext. intros i Hi.
  pose proof Hp as (Hf & _ & _ & Hs & Hend). rewrite wrap_small by lia. apply foldl_overlay_outside; [done|].
  eapply Forall_impl; [exact Ha|]. intros q Hq. unfold apart in Hq. cbn beta in *. lia.
Qed.
Lemma foldl_overlay_segments ps : forall f, Forall segment_ok ps -> ForallOrdPairs apart ps ->
  Forall (fun p => read_bytes (foldl overlay f ps) (start p) (Z.to_nat (p_memsz p)) = segment_bytes p) ps.
Proof.
  induction ps as [|p ps IH]; intros f Hok Ha; [done|]. apply Forall_cons in Hok as [Hp Hps].
  inversion Ha as [|? ? Hap Haps]; subst. apply Forall_cons. split; [by apply foldl_overlay_read|by apply IH].
Qed.
End loaded.

(** The image of a program in memory: if the segments to load that start inside the
    target lie in the file and the target and do not overlap, loading succeeds; then every
    segment stands at its address, its bytes of the file first and zeros up to its size in
    memory, and every other byte of the memory is what it was. *)
Theorem image_loaded `{Laws : BuilderLaws} σ elf size offset use_vaddr m f ps :
  Forall byte_ok elf -> mem_view σ m f -> 0 <= offset -> offset + size < 2 ^ 32 ->
  get_load_sections elf m = (Ok ps, m) ->
  let ts := List.filter (fun p => in_target size offset (segment_addr use_vaddr p)) ps in
  Forall (segment_ok elf size offset use_vaddr) ts -> ForallOrdPairs (apart offset use_vaddr) ts ->
  exists m' f', load_executable_image elf size offset use_vaddr m = (Ok tt, m') /\ mem_view σ m' f' /\
    Forall (fun p => read_bytes f' (segment_addr use_vaddr p - offset) (Z.to_nat (p_memsz p)) = segment_bytes elf p) ts /\
    (forall a, Forall (fun p => ~ (offset + a < segment_addr use_vaddr p + p_memsz p /\ segment_addr use_vaddr p <= offset + a)) ts ->
       f' a = f a).
Proof.
  intros Helf Hm Hoff Hsize Hps ts Hok Hap.
  destruct (load_segments_run σ elf size offset use_vaddr Helf Hoff Hsize ps m f Hok Hm) as (m' & Hl & Hv).
  exists m', (foldl (overlay elf offset use_vaddr) f ts). unfold load_executable_image.
  rewrite (sm_bind_ok _ _ _ _ _ Hps). split; [done|]. split; [done|]. split.
  - by apply (foldl_overlay_segments elf size offset use_vaddr).
  - intros a Ha. apply (foldl_overlay_outside elf size offset use_vaddr); [done..|].
    eapply Forall_impl; [exact Ha|]. intros p Hp. cbn beta in Hp |- *. lia.
Qed.

(** The loader refuses a segment that fills the target up to its last byte, which fits. *)
Lemma full_target_refused `{ExprBuilder} elf size offset use_vaddr p m : 0 <= offset -> offset + size < 2 ^ 32 ->
  offset <= segment_addr use_vaddr p < offset + size -> segment_addr use_vaddr p + p_memsz p = offset + size ->
  load_segment elf size offset use_vaddr p m = (Err AssertionFailed, m).
Proof.
  intros Hoff Hsize [Ha Hlt] Hend. unfold load_segment, in_target. rewrite !(wrap_small 32) by lia.
  rewrite (proj2 (Z.leb_le _ _) Ha), (proj2 (Z.ltb_lt _ _) Hlt), Hend, Z.ltb_irrefl. done.
Qed.
(** The address of the heap is not a multiple of eight in general. *)
Lemma heap_alignment elf {S} (s s' : S) e : get_memory_end elf s = (Ok e, s') ->
  exists h, get_heap_addr elf s = (Ok h, s') /\ (h mod 8 = 0 <-> e mod 8 = 0 \/ e mod 8 = 4).
Proof.
  intros He. exists (u32 (e + e mod 8)). unfold get_heap_addr. rewrite (sm_bind_ok _ _ _ _ _ He). split; [done|].
  unfold wrap. change (2 ^ 32) with (8 * 2 ^ 29). Z.to_euclidean_division_equations. lia.
Qed.

(** ** A witness: a file with two segments, the second with a byte of the file and three of
    zeros *)

Definition sample_elf : list Z :=
  [0x7f; 0x45; 0x4c; 0x46; 1; 1; 1; 0; 0; 0; 0; 0; 0; 0; 0; 0] ++ le_bytes 2 2 ++ le_bytes 2 243 ++ le_bytes 4 1 ++
  le_bytes 4 0x1000 ++ le_bytes 4 52 ++ le_bytes 4 0 ++ le_bytes 4 0 ++ le_bytes 2 52 ++ le_bytes 2 32 ++ le_bytes 2 2 ++
  le_bytes 2 40 ++ le_bytes 2 0 ++ le_bytes 2 0 ++
  concat (map (le_bytes 4) [1; 116; 0x1000; 0x1000; 4; 4; 5; 4]) ++
  concat (map (le_bytes 4) [1; 120; 0x1010; 0x1010; 1; 4; 6; 4]) ++ [0x13; 0; 0; 0; 0x2a].
#[local] Instance elf_builder : ExprBuilder := solver_builder.
Lemma image_loaded_witness : exists m' f', load_executable_image sample_elf 0x100 0x1000 false mem_empty = (Ok tt, m') /\
  mem_view sample_input m' f' /\ read_bytes f' 0x10 4 = [0x2a; 0; 0; 0] /\ f' 0x20 = 0.
Proof.
  destruct (image_loaded (Laws := solver_builder_laws) sample_input sample_elf 0x100 0x1000 false mem_empty (fun _ => 0)
    [mkPhdr 1 116 0x1000 0x1000 4 4; mkPhdr 1 120 0x1010 0x1010 1 4]) as (m' & f' & Hl & Hv & Hs & Ho).
  - apply (bool_decide_eq_true_1 (Forall (fun b => 0 <= b < 256) sample_elf)). vm_compute. reflexivity.
  - apply mem_view_empty.
  - done.
  - done.
  - vm_compute. reflexivity.
  - cbn. repeat (apply Forall_cons; split; [by vm_compute|]). by apply Forall_nil.
  - apply FOP_cons; [apply Forall_cons; split; [left; by vm_compute|by apply Forall_nil]|].
    apply FOP_cons; [by apply Forall_nil|apply FOP_nil].
  - exists m', f'. split; [exact Hl|]. split; [exact Hv|]. cbn [List.filter in_target segment_addr p_paddr] in Hs, Ho.
    change (in_target 0x100 0x1000 0x1000) with true in *. change (in_target 0x100 0x1000 0x1010) with true in *.
    split.
    + apply Forall_cons in Hs as [_ Hs]. apply Forall_cons in Hs as [Hs _]. exact Hs.
    + apply Ho. cbv iota. repeat (apply Forall_cons; split; [cbn; lia|]). by apply Forall_nil.
Defined.
