(* ===== verification/Coverage.v ===== *)
(** Coverage of the program under test (core/rv32/coverage.cpp, core/rv32/textaddrparser.cpp):
    the instructions of the executable sections, and which of them, and which directions of
    the branches, have been executed in any of the runs. *)
From Stdlib Require Import Ascii.
From S2P Require Import Prelude Bits Instr Decode Compressed APInt KExpr Concolic Iss ElfLoader.

(** * The addresses to cover *)

(** [Coverage::TextAddrParser]: the segments, as pairs of addresses. *)
Definition segment : Type := Z * Z.
Definition is_included (segments : list segment) (addr : Z) : bool :=
  match segments with
  | [] => true
  | _ => existsb (fun s => (s.1 <=? addr) && (addr <? s.2)) segments
  end.

(** ** Parsing a line: [0x<start> 0x<end>] somewhere in it *)

Definition code (c : ascii) : Z := Z.of_N (N_of_ascii c).
Definition is_alnum (c : ascii) : bool :=
  ((48 <=? code c) && (code c <=? 57)) || ((65 <=? code c) && (code c <=? 90)) || ((97 <=? code c) && (code c <=? 122)).
(** A digit of [sscanf]'s [%x]. *)
Definition hex_digit (c : ascii) : option Z :=
  if (48 <=? code c) && (code c <=? 57) then Some (code c - 48)
  else if (65 <=? code c) && (code c <=? 70) then Some (code c - 55)
  else if (97 <=? code c) && (code c <=? 102) then Some (code c - 87)
  else None.
Fixpoint hex_value (v : Z) (s : string) : Z :=
  match s with
  | String c s' => match hex_digit c with Some d => hex_value (v * 16 + d) s' | None => v end
  | EmptyString => v
  end.
(** [parseAddr] of letters and digits: a second prefix is skipped, the digits are read up to
    the first other letter, and a value that does not fit gives the largest one. *)
Definition skip_prefix (s : string) : string :=
  match s with
  | String a (String b s') => if (code a =? 48) && ((code b =? 120) || (code b =? 88)) then s' else s
  | _ => s
  end.
Definition parseAddr (str : string) : option Z :=
  match skip_prefix str with
  | String c s => match hex_digit c with
                  | Some d => Some (Z.min (hex_value d s) (2 ^ 64 - 1))
                  | None => None
                  end
  | EmptyString => None
  end.

(** The longest run of letters and digits, and what comes after. *)
Fixpoint alnum_run (s : string) : string * string :=
  match s with
  | String c s' => if is_alnum c then let '(r, rest) := alnum_run s' in (String c r, rest) else ("", s)
  | EmptyString => ("", "")
  end.
(** [0x] and a run that is not empty. *)
Definition match_number (s : string) : option (string * string) :=
  match s with
  | String "0"%char (String "x"%char s') =>
      match alnum_run s' with ("", _) => None | (r, rest) => Some (r, rest) end
  | _ => None
  end.
Definition match_here (s : string) : option (string * string) :=
  '(start, rest) ← match_number s;
  match rest with
  | String " "%char rest' => '(end_, _) ← match_number rest'; Some (start, end_)
  | _ => None
  end.
(** [regex_search]: the first position with a match. *)
Fixpoint regex_search (line : string) : option (string * string) :=
  match match_here line with
  | Some m => Some m
  | None => match line with String _ line' => regex_search line' | EmptyString => None end
  end.
Definition parseSegment (line : string) : option segment :=
  '(start, end_) ← regex_search line;
  a ← parseAddr start; b ← parseAddr end_; Some (a, b).
(** The constructor, from the lines of the file; [None] if one cannot be parsed. *)
Definition TextAddrParser_new (lines : list string) : option (list segment) := mapM parseSegment lines.

Example parse_line : parseSegment "main: 0x20400000 0x2040FfFFzz" = Some (0x20400000, 0x2040ffff).
Proof. vm_compute. reflexivity. Qed.
Example parse_none : parseSegment "0x 0x2000" = None /\ parseSegment "0x10  0x20" = None.
Proof. vm_compute. done. Qed.

(** * The coverage *)

Record Coverage := mkCoverage { branch_instrs : gmap Z (bool * bool); instrs : gmap Z bool }.
Definition Coverage_new : Coverage := mkCoverage ∅ ∅.
Definition set_branch_instrs v (c : Coverage) := mkCoverage v (instrs c).
Definition set_instrs v (c : Coverage) := mkCoverage (branch_instrs c) v.

(** [cover_instr] and [cover_branch], called for every instruction and branch executed. *)
Definition cover_instr (addr : Z) (c : Coverage) : Coverage :=
  match instrs c !! addr with
  | None => c
  | Some _ => set_instrs (<[addr := true]> (instrs c)) c
  end.
Definition cover_branch (addr : Z) (condition : bool) (c : Coverage) : Coverage :=
  match branch_instrs c !! addr with
  | None => c
  | Some (taken, untaken) =>
      set_branch_instrs (<[addr := if condition then (true, untaken) else (taken, true)]> (branch_instrs c)) c
  end.

Definition directions (bc : bool * bool) : Z := (if bc.1 then 1 else 0) + (if bc.2 then 1 else 0).
Definition executed_branches (c : Coverage) : Z := map_fold (fun _ bc n => directions bc + n) 0 (branch_instrs c).
(** The counts whose quotient [dump_branch_coverage] and [dump_instr_coverage] report. *)
Definition dump_branch_coverage (c : Coverage) : Z * Z :=
  (executed_branches c, Z.of_nat (size (branch_instrs c)) * 2).
Definition dump_instr_coverage (c : Coverage) : Z * Z :=
  (map_fold (fun _ (executed : bool) n => (if executed then 1 else 0) + n) 0 (instrs c), Z.of_nat (size (instrs c))).

(** ** Initialisation *)

(** The memory instructions are loaded from. *)
Class InstrMem (M : Type) := { im_load_instr : Z -> SM M exn Z }.
#[export] Instance env_instr_mem `{Env E} : InstrMem (Shared E) := {| im_load_instr := env_load_instr |}.

Definition SHF_EXECINSTR : Z := 4.

(** An instruction word decoded as far as the coverage needs it: its size and the opcode,
    after expansion.  [None]: the decoder throws. *)
Definition decode_word (mem_word : Z) : option (Z * Z) :=
  let i := Instr mem_word in
  if is_compressed i then
    '(_, i') ← decode_and_expand_compressed i RV32; Some (2, opcode i')
  else Some (4, opcode i).

Section init.
Context {M : Type} `{InstrMem M}.
Context (segments : list segment).
#[local] Open Scope sm_scope.
Abbreviation CovM := (SM (Coverage * M) exn).

Definition cov_load (addr : Z) : CovM Z :=
  fun s => let '(r, m) := im_load_instr addr s.2 in (r, (s.1, m)).
(** An instruction of a section is recorded; [addr] is that of the next one. *)
Definition record_instr (last_addr addr opc : Z) (c : Coverage) : Coverage :=
  if is_included segments addr then
    let c := set_instrs (<[addr := false]> (instrs c)) c in
    if opc =? OP_BEQ then set_branch_instrs (<[last_addr := (false, false)]> (branch_instrs c)) c else c
  else c.
(** The loop of [init_section] for a number of rounds; [false] when they do not suffice. *)
Fixpoint init_section_loop (n : nat) (addr end_addr : Z) : CovM bool :=
  if addr <? end_addr then
    match n with
    | O => sm_ret false
    | S n =>
        mem_word <-- cov_load addr ;;
        match decode_word mem_word with
        | None => sm_throw RuntimeError
        | Some (sz, opc) =>
            sm_modify (fun s => (record_instr addr (addr + sz) opc s.1, s.2)) ;;;
            init_section_loop n (addr + sz) end_addr
        end
    end
  else sm_ret true.
Definition init_section (section : Elf32_Shdr) : CovM bool :=
  init_section_loop (Z.to_nat (sh_size section)) (sh_addr section) (sh_addr section + sh_size section).
Fixpoint init_sections (sections : list Elf32_Shdr) : CovM bool :=
  match sections with
  | [] => sm_ret true
  | section :: sections =>
      done <-- (if negb (Z.land (sh_flags section) SHF_EXECINSTR =? 0) then init_section section else sm_ret true) ;;
      if done : bool then init_sections sections else sm_ret false
  end.
(** [Coverage::init] *)
Definition init (elf : list Z) : CovM bool :=
  sections <-- get_sections elf ;; init_sections sections.
End init.

(** * Counting *)

Section weight.
Context {A : Type} (g : A -> Z) (k : Z).
Definition weight (m : gmap Z A) : Z := map_fold (fun _ x n => g x + n) 0 m.
Lemma weight_delete (m : gmap Z A) i x : m !! i = Some x -> weight m = g x + weight (delete i m).
Proof. intros Hi. unfold weight. apply (map_fold_delete_L (fun _ x n => g x + n) 0 i x m); [intros; lia|done]. Qed.
Lemma weight_insert (m : gmap Z A) i x : m !! i = None -> weight (<[i := x]> m) = g x + weight m.
Proof. intros Hi. unfold weight. apply (map_fold_insert_L (fun _ x n => g x + n) 0 i x m); [intros; lia|done]. Qed.
Lemma weight_update (m : gmap Z A) i x y : m !! i = Some x -> weight (<[i := y]> m) = weight m - g x + g y.
Proof.
  intros Hi. rewrite (weight_delete m i x Hi), <- insert_delete_eq, weight_insert by apply lookup_delete_eq. lia.
Qed.
Context (Hg : forall x, 0 <= g x <= k).
Lemma weight_bounds (m : gmap Z A) : 0 <= weight m <= k * Z.of_nat (size m).
Proof.
  induction m as [|i x m Hi IH] using map_ind.
  { unfold weight. rewrite map_fold_empty, map_size_empty. lia. }
  rewrite weight_insert, map_size_insert_None by done. specialize (Hg x). lia.
Qed.
Lemma weight_strict (m : gmap Z A) i x : m !! i = Some x -> g x < k -> weight m < k * Z.of_nat (size m).
Proof.
  intros Hi Hx. rewrite (weight_delete m i x Hi). pose proof (weight_bounds (delete i m)) as Hb.
  pose proof (map_size_delete_Some i m) as Hs. rewrite Hs in Hb by by exists x.
  assert (size m <> 0%nat) by (rewrite map_size_ne_0_lookup; by exists i; exists x).
  assert (Z.of_nat (Nat.pred (size m)) = Z.of_nat (size m) - 1) as E by lia. rewrite E in Hb. lia.
Qed.
End weight.

Lemma directions_bounds bc : 0 <= directions bc <= 2.
Proof. by destruct bc as [[] []]. Qed.
Lemma cover_branch_dom addr cond c : dom (branch_instrs (cover_branch addr cond c)) = dom (branch_instrs c) /\
  instrs (cover_branch addr cond c) = instrs c.
Proof.
  unfold cover_branch. destruct (branch_instrs c !! addr) as [[t u]|] eqn:Ha; [|done]. split; [|done].
  cbn. apply dom_insert_lookup_L. by eexists.
Qed.
Lemma cover_instr_dom addr c : dom (instrs (cover_instr addr c)) = dom (instrs c) /\
  branch_instrs (cover_instr addr c) = branch_instrs c.
Proof.
  unfold cover_instr. destruct (instrs c !! addr) eqn:Ha; [|done]. split; [|done]. cbn.
  apply dom_insert_lookup_L. by eexists.
Qed.

(** What the simulation reports. *)
Inductive event := Executed (addr : Z) | Branched (addr : Z) (condition : bool).
Definition report (e : event) (c : Coverage) : Coverage :=
  match e with Executed addr => cover_instr addr c | Branched addr condition => cover_branch addr condition c end.
(** The direction of a branch is known to have been executed, or is not counted. *)
Definition known (addr : Z) (condition : bool) (c : Coverage) : bool :=
  match branch_instrs c !! addr with None => true | Some bc => if condition then bc.1 else bc.2 end.

Lemma report_branches e c :
  executed_branches (report e c) = executed_branches c +
    match e with Branched addr condition => if known addr condition c then 0 else 1 | _ => 0 end.
Proof.
  destruct e as [addr|addr cond]; cbn [report].
  { unfold executed_branches. rewrite (proj2 (cover_instr_dom addr c)). lia. }
  unfold cover_branch, known. destruct (branch_instrs c !! addr) as [[t u]|] eqn:Ha; [|lia].
  unfold executed_branches. cbn [branch_instrs set_branch_instrs].
  fold (weight directions (<[addr := if cond then (true, u) else (t, true)]> (branch_instrs c))).
  fold (weight directions (branch_instrs c)). rewrite (weight_update directions _ _ (t, u)) by done.
  destruct cond, t, u; unfold directions; cbn [fst snd]; lia.
Qed.
Lemma report_size e c : size (branch_instrs (report e c)) = size (branch_instrs c).
Proof.
  rewrite <- !size_dom. f_equal. destruct e as [addr|addr cond]; cbn [report].
  - by rewrite (proj2 (cover_instr_dom addr c)).
  - by rewrite (proj1 (cover_branch_dom addr cond c)).
Qed.

Lemma known_report addr cond e c : known addr cond c = true -> known addr cond (report e c) = true.
Proof.
  unfold known. destruct e as [a|a b]; cbn [report]; [by rewrite (proj2 (cover_instr_dom a c))|].
  unfold cover_branch. destruct (branch_instrs c !! a) as [[t u]|] eqn:Ha; [|done]. cbn [branch_instrs set_branch_instrs].
  destruct (decide (addr = a)) as [->|Hne]; [|by rewrite lookup_insert_ne].
  rewrite Ha, lookup_insert_eq. by destruct b, cond, t, u.
Qed.
Lemma known_reported addr cond c : known addr cond (report (Branched addr cond) c) = true.
Proof.
  unfold known, report, cover_branch. destruct (branch_instrs c !! addr) as [[t u]|] eqn:Ha; [|by rewrite Ha].
  cbn [branch_instrs set_branch_instrs]. rewrite lookup_insert_eq. by destruct cond.
Qed.
Lemma known_foldl addr cond es : forall c, known addr cond c = true \/ Branched addr cond ∈ es ->
  known addr cond (foldl (fun c e => report e c) c es) = true.
Proof.
  induction es as [|e es IH]; intros c [Hk|Hin]; cbn [foldl]; [done|by apply elem_of_nil in Hin|..].
  - apply IH. left. by apply known_report.
  - apply IH. apply elem_of_cons in Hin as [<-|Hin]; [left; apply known_reported|by right].
Qed.

(** Progress of the branch coverage: it counts directions, at most two per branch
    recorded; whatever the simulation reports, in any order, the branches recorded stay the
    same, the count grows by exactly the number of directions reported for the first time,
    and reporting again what was reported adds nothing. *)
Theorem coverage_progress c es :
  let c' := foldl (fun c e => report e c) c es in
  0 <= executed_branches c <= executed_branches c' /\
  executed_branches c' <= 2 * Z.of_nat (size (branch_instrs c)) /\
  size (branch_instrs c') = size (branch_instrs c) /\
  (forall e, e ∈ es -> executed_branches (report e c') = executed_branches c').
Proof.
  assert (forall c, 0 <= executed_branches c <= 2 * Z.of_nat (size (branch_instrs c))) as Hb
    by (intros; apply (weight_bounds directions 2), directions_bounds).
  cbv zeta. split; [|split; [|split]].
  - split; [apply Hb|]. revert c. induction es as [|e es IH]; intros c; cbn [foldl]; [lia|].
    specialize (IH (report e c)). rewrite report_branches in IH. destruct e; [lia|]. destruct (known _ _ _); lia.
  - assert (size (branch_instrs (foldl (fun c e => report e c) c es)) = size (branch_instrs c)) as <-; [|apply Hb].
    revert c. induction es as [|e es IH]; intros c; cbn [foldl]; [done|]. by rewrite IH, report_size.
  - revert c. induction es as [|e es IH]; intros c; cbn [foldl]; [done|]. by rewrite IH, report_size.
  - intros e He. rewrite report_branches. destruct e as [a|a b]; [lia|].
    rewrite (known_foldl a b es c) by (by right). lia.
Qed.

(** * The sweep over a section *)

Section sweep.
Context {M : Type} `{InstrMem M}.
(** The words in memory, and the segments to cover. *)
Context (word : Z -> Z) (segments : list segment).
Context (Hword : forall a m, im_load_instr a m = (Ok (word a), m)).

(** The addresses the sweep visits from [a] on, taking everything for instructions. *)
Inductive swept (e a : Z) : Z -> Prop :=
| swept_here : a < e -> swept e a a
| swept_next sz opc b : a < e -> decode_word (word a) = Some (sz, opc) -> swept e (a + sz) b -> swept e a b.

Lemma decode_word_size w sz opc : decode_word w = Some (sz, opc) -> sz = 2 \/ sz = 4.
Proof.
  unfold decode_word. destruct (is_compressed _); [|intros [= <- <-]; by right].
  destruct (decode_and_expand_compressed _ _) as [[? ?]|]; cbn; [|done]. intros [= <- <-]. by left.
Qed.
Lemma swept_range e a b : swept e a b -> a <= b < e.
Proof. induction 1 as [a Ha|a sz opc b Ha Hd _ IH]; [lia|]. apply decode_word_size in Hd. lia. Qed.

(** What the sweep has recorded of the instruction at [a]. *)
Definition counted (a b : Z) : Prop :=
  exists sz opc, decode_word (word a) = Some (sz, opc) /\ b = a + sz /\ is_included segments b = true.
Definition branch_at (a : Z) : Prop :=
  exists sz, decode_word (word a) = Some (sz, OP_BEQ) /\ is_included segments (a + sz) = true.

Lemma record_branch a sz opc c b : decode_word (word a) = Some (sz, opc) ->
  b ∈ dom (branch_instrs (record_instr segments a (a + sz) opc c)) <->
  b ∈ dom (branch_instrs c) \/ (b = a /\ branch_at a).
Proof.
  intros Hd. unfold record_instr, branch_at. rewrite Hd. destruct (is_included segments (a + sz)) eqn:Hi.
  - destruct (Z.eqb_spec opc OP_BEQ) as [->|Hne]; cbn [branch_instrs set_branch_instrs set_instrs].
    + rewrite dom_insert, elem_of_union, elem_of_singleton. split; [intros [->|?]; [right; split; [done|by exists sz]|by left]|].
      intros [?|[-> _]]; [by right|by left].
    + split; [by left|]. intros [?|[_ (sz' & [= <- ->] & _)]]; [done|]. done.
  - split; [by left|]. intros [?|[_ (sz' & [= <- ->] & Hi')]]; [done|]. congruence.
Qed.
Lemma record_instrs a sz opc c b : decode_word (word a) = Some (sz, opc) ->
  b ∈ dom (instrs (record_instr segments a (a + sz) opc c)) <-> b ∈ dom (instrs c) \/ counted a b.
Proof.
  intros Hd. unfold record_instr, counted. rewrite Hd. destruct (is_included segments (a + sz)) eqn:Hi.
  - assert (forall c', instrs c' = <[a + sz := false]> (instrs c) ->
      b ∈ dom (instrs c') <-> b ∈ dom (instrs c) \/ exists sz' opc', Some (sz, opc) = Some (sz', opc') /\
        b = a + sz' /\ is_included segments b = true) as Hgo; [|apply Hgo; by destruct (opc =? OP_BEQ)].
    intros c' ->. rewrite dom_insert, elem_of_union, elem_of_singleton. split.
    + intros [->|?]; [right; by exists sz, opc|by left].
    + intros [?|(? & ? & [= <- <-] & -> & _)]; [by right|by left].
  - split; [by left|]. intros [?|(? & ? & [= <- <-] & -> & Hi')]; [done|]. congruence.
Qed.

(** Nothing has been executed yet. *)
Definition fresh (c : Coverage) : Prop := forall b v, instrs c !! b = Some v -> v = false.
Lemma record_fresh a b opc c : fresh c -> fresh (record_instr segments a b opc c).
Proof.
  intros Hc. unfold record_instr. destruct (is_included segments b); [|done].
  assert (forall c', instrs c' = <[b := false]> (instrs c) -> fresh c') as Hgo; [|apply Hgo; by destruct (opc =? OP_BEQ)].
  intros c' Hi x v. rewrite Hi. destruct (decide (x = b)) as [->|Hne].
  - rewrite lookup_insert_eq. by intros [= <-].
  - rewrite lookup_insert_ne by done. apply Hc.
Qed.

Lemma init_section_loop_spec n : forall a e c m, e - a <= Z.of_nat n ->
  (forall b, swept e a b -> decode_word (word b) <> None) ->
  exists c', init_section_loop segments n a e (c, m) = (Ok true, (c', m)) /\
    (forall b, b ∈ dom (branch_instrs c') <-> b ∈ dom (branch_instrs c) \/ (swept e a b /\ branch_at b)) /\
    (forall b, b ∈ dom (instrs c') <-> b ∈ dom (instrs c) \/ exists x, swept e a x /\ counted x b) /\
    (fresh c -> fresh c').
Proof.
  assert (forall a e c m k, e <= a -> exists c', init_section_loop segments k a e (c, m) = (Ok true, (c', m)) /\
    (forall b, b ∈ dom (branch_instrs c') <-> b ∈ dom (branch_instrs c) \/ (swept e a b /\ branch_at b)) /\
    (forall b, b ∈ dom (instrs c') <-> b ∈ dom (instrs c) \/ exists x, swept e a x /\ counted x b) /\
    (fresh c -> fresh c')) as Hend.
  { intros a e c m k Ha. exists c. split.
    - destruct k; cbn [init_section_loop]; by rewrite (proj2 (Z.ltb_ge a e) Ha).
    - split; [|split; [|done]]; intros b; (split; [by left|]); [intros [?|[Hs _]]|intros [?|(x & Hs & _)]]; try done;
        apply swept_range in Hs; lia. }
  induction n as [|n IH]; intros a e c m Hn Hd; [apply Hend; lia|].
  destruct (Z.ltb_spec a e) as [Ha|Ha]; [|by apply Hend].
  cbn [init_section_loop]. rewrite (proj2 (Z.ltb_lt a e) Ha).
  assert (cov_load a (c, m) = (Ok (word a), (c, m))) as Hl by (unfold cov_load; cbn; by rewrite Hword).
  rewrite (sm_bind_ok _ _ _ _ _ Hl).
  destruct (decode_word (word a)) as [[sz opc]|] eqn:Hw; [|by destruct (Hd a (swept_here e a Ha))].
  pose proof (decode_word_size _ _ _ Hw) as Hsz. cbn [mbind]. unfold sm_bind, sm_modify. cbn [fst snd].
  destruct (IH (a + sz) e (record_instr segments a (a + sz) opc c) m) as (c' & Hc & Hb & Hi & Hf); [lia| |].
  { intros b Hb. apply Hd. by eapply swept_next. }
  exists c'. split; [exact Hc|]. split; [intros b|split; [intros b|intros ?; by apply Hf, record_fresh]].
  - rewrite Hb, record_branch by done. split.
    + intros [[?|[-> ?]]|[? ?]]; [by left|right; split; [by apply swept_here|done]|
        right; split; [by eapply swept_next|done]].
    + intros [?|[Hs Hbr]]; [by do 2 left|]. inversion Hs as [|? ? ? ? Hd' Hs']; subst; [left; by right|].
      right. rewrite Hw in Hd'. by injection Hd' as <- <-.
  - rewrite Hi, record_instrs by done. split.
    + intros [[?|?]|(x & ? & ?)]; [by left|right; exists a; split; [by apply swept_here|done]|
        right; exists x; split; [by eapply swept_next|done]].
    + intros [?|(x & Hs & Hc')]; [by do 2 left|]. inversion Hs as [|? ? ? ? Hd' Hs']; subst; [left; by right|].
      right. exists x. rewrite Hw in Hd'. by injection Hd' as <- <-.
Qed.

(** The sweep ends with an instruction that reaches the end of the section. *)
Lemma swept_last n : forall e a, e - a <= Z.of_nat n -> a < e -> (forall b, swept e a b -> decode_word (word b) <> None) ->
  exists x sz opc, swept e a x /\ decode_word (word x) = Some (sz, opc) /\ e <= x + sz.
Proof.
  induction n as [|n IH]; intros e a Hn Ha Hd; [lia|].
  destruct (decode_word (word a)) as [[sz opc]|] eqn:Hw; [|by destruct (Hd a (swept_here e a Ha))].
  pose proof (decode_word_size _ _ _ Hw) as Hsz. destruct (Z.leb_spec e (a + sz)) as [He|He].
  { exists a, sz, opc. split; [by apply swept_here|done]. }
  destruct (IH e (a + sz)) as (x & sz' & opc' & Hs & Hw' & Hx); [lia..| |].
  { intros b Hb. apply Hd. by eapply swept_next. }
  exists x, sz', opc'. split; [by eapply swept_next|done].
Qed.
Lemma cover_instrs_other es b c : b ∉ es -> instrs (foldl (fun c a => cover_instr a c) c es) !! b = instrs c !! b.
Proof.
  revert c. induction es as [|a es IH]; intros c Hb; [done|]. apply not_elem_of_cons in Hb as [Hne Hb].
  cbn [foldl]. rewrite IH by done. unfold cover_instr. destruct (instrs c !! a); [|done].
  cbn. by rewrite lookup_insert_ne.
Qed.

(** Initialisation over a section: the sweep, which takes everything for instructions,
    ends; a branch is recorded for exactly the visited addresses with a branch opcode (also
    of an expanded compressed instruction), an instruction for exactly the addresses after a
    visited one, of those to cover.  As it is the next address that is recorded, whatever
    instructions of the section are executed, the instruction coverage of a single section
    never becomes complete. *)
Theorem init_section_sweep section c m :
  let start := sh_addr section in let e := start + sh_size section in
  (forall b, swept e start b -> decode_word (word b) <> None) ->
  exists c', init_section segments section (c, m) = (Ok true, (c', m)) /\
    (forall b, b ∈ dom (branch_instrs c') <-> b ∈ dom (branch_instrs c) \/ (swept e start b /\ branch_at b)) /\
    (forall b, b ∈ dom (instrs c') <-> b ∈ dom (instrs c) \/ exists x, swept e start x /\ counted x b) /\
    (segments = [] -> c = Coverage_new -> 0 < sh_size section -> forall es, Forall (swept e start) es ->
       let '(n, total) := dump_instr_coverage (foldl (fun c a => cover_instr a c) c' es) in n < total).
Proof.
  intros start e Hd. destruct (init_section_loop_spec (Z.to_nat (sh_size section)) start e c m) as (c' & Hc & Hb & Hi & Hf);
    [unfold e; lia|done|]. exists c'. split; [exact Hc|]. split; [done|]. split; [done|].
  intros Hseg -> Hsize es Hes. unfold dump_instr_coverage. set (c'' := foldl _ c' es).
  destruct (swept_last (Z.to_nat (sh_size section)) e start) as (x & sz & opc & Hx & Hw & He); [unfold e; lia..|done|].
  assert (instrs c'' !! (x + sz) = Some false) as Hlast.
  { unfold c''. rewrite cover_instrs_other.
    - assert (x + sz ∈ dom (instrs c')) as [v Hv]%elem_of_dom.
      { apply Hi. right. exists x. split; [done|]. exists sz, opc. by rewrite Hseg. }
      rewrite Hv. f_equal. by eapply Hf.
    - intros Hin. rewrite Forall_forall in Hes. specialize (Hes _ Hin). apply swept_range in Hes. lia. }
  change (weight (fun executed : bool => if executed then 1 else 0) (instrs c'') < Z.of_nat (size (instrs c''))).
  pose proof (weight_strict (fun executed : bool => if executed then 1 else 0) 1 ltac:(by intros []; lia) _ _ _ Hlast ltac:(lia)).
  lia.
Qed.
End sweep.

(** ** A witness: a branch, a compressed instruction, and an instruction *)

Definition sample_words (a : Z) : Z := if a =? 0 then 0x00000063 else if a =? 4 then 0x00130001 else 0x00000013.
#[local] Instance sample_instr_mem : InstrMem unit := {| im_load_instr a := sm_ret (sample_words a) |}.
Definition sample_section : Elf32_Shdr := mkShdr 0 1 6 0 0 10.
Lemma init_section_sweep_witness : exists c', init_section [] sample_section (Coverage_new, tt) = (Ok true, (c', tt)) /\
  dom (branch_instrs c') = {[0]} /\ dom (instrs c') = {[4; 6; 10]} /\
  (0 < sh_size sample_section -> let '(n, total) := dump_instr_coverage (foldl (fun c a => cover_instr a c) c' [0; 4; 6]) in n < total).
Proof.
  assert (forall b, swept sample_words 10 0 b -> b = 0 \/ b = 4 \/ b = 6) as Hs.
  { intros b Hb. inversion Hb as [|? ? ? ? Hd Hb']; subst; [by left|]. vm_compute in Hd. injection Hd as <- <-.
    inversion Hb' as [|? ? ? ? Hd Hb'']; subst; [by right; left|]. vm_compute in Hd. injection Hd as <- <-.
    inversion Hb'' as [|? ? ? ? Hd Hb3]; subst; [by right; right|]. vm_compute in Hd. injection Hd as <- <-.
    apply swept_range in Hb3. lia. }
  assert (forall a (m : unit), im_load_instr a m = (Ok (sample_words a), m)) as Hw by (intros; reflexivity).
  destruct (init_section_sweep sample_words [] Hw sample_section Coverage_new tt) as (c' & Hc & _ & _ & Hn).
  { intros b Hb. destruct (Hs b Hb) as [->|[->| ->]]; vm_compute; discriminate. }
  exists c'. split; [exact Hc|]. vm_compute in Hc. injection Hc as Hc. split; [|split].
  - rewrite <- Hc. vm_compute. reflexivity.
  - rewrite <- Hc. vm_compute. reflexivity.
  - intros Hsize. apply (Hn eq_refl eq_refl Hsize). repeat (apply Forall_cons; split).
    + by apply swept_here.
    + eapply (swept_next _ _ _ 4); [done|reflexivity|]. by apply swept_here.
    + eapply (swept_next _ _ _ 4); [done|reflexivity|]. eapply (swept_next _ _ _ 2); [done|vm_compute; reflexivity|].
      by apply swept_here.
    + by apply Forall_nil.
Defined.
