(* ===== verification/Explore.v ===== *)
(** The exploration (symex/symbolic_explore.cpp): runs of the software, one per new path of
    the execution tree, for packet sequences of growing length. *)
From S2P Require Import Prelude Bits APInt KExpr Concolic PathTrace ExecContext Iss SymContext ElfLoader Coverage.

(** A run of the simulation, from elaboration to the end: code of the platform and of
    SystemC.  It is a function, so that a run that does not end is not represented.  [world] is what outlasts it, with the coverage. *)
Class Simulation (W : Type) := {
  sc_elab_and_sim : SymbolicContext -> W -> Z * SymbolicContext * W;
  world_branches : W -> Z;
}.

Record Exploration (W : Type) := mkExploration {
  symbolic_context : SymbolicContext;
  world : W;
  paths_found : Z;
  maxpktseq : Z;
  pktseqlen : Z;
  prev_executed_branches : Z;
  no_new_branch : Z;
}.
Arguments mkExploration {W}.
Arguments symbolic_context {W}.
Arguments world {W}.
Arguments paths_found {W}.
Arguments maxpktseq {W}.
Arguments pktseqlen {W}.
Arguments prev_executed_branches {W}.
Arguments no_new_branch {W}.

(** How a loop ends: [return], [break] or the condition, or the rounds do not suffice. *)
Inductive loop_end := Returns (ret : Z) | Falls | Unfinished.

Section explore.
Context {W : Type} `{Simulation W} `{KleeSolver}.
(** The results of [rand()]: for the choice of a partially explored path and for the walk
    through the execution tree. *)
Context (rand : nat -> Z) (rnd : nat -> bool).
#[local] Open Scope sm_scope.
Abbreviation Expl := (Exploration W).
Abbreviation ExploreM := (SM Expl exn).

Definition set_symbolic_context v (s : Expl) := mkExploration v (world s) (paths_found s) (maxpktseq s) (pktseqlen s) (prev_executed_branches s) (no_new_branch s).
Definition set_run v (w : W) (s : Expl) := mkExploration v w (paths_found s) (maxpktseq s) (pktseqlen s) (prev_executed_branches s) (no_new_branch s).
Definition set_paths_found v (s : Expl) := mkExploration (symbolic_context s) (world s) v (maxpktseq s) (pktseqlen s) (prev_executed_branches s) (no_new_branch s).
Definition set_maxpktseq v (s : Expl) := mkExploration (symbolic_context s) (world s) (paths_found s) v (pktseqlen s) (prev_executed_branches s) (no_new_branch s).
Definition set_pktseqlen v (s : Expl) := mkExploration (symbolic_context s) (world s) (paths_found s) (maxpktseq s) v (prev_executed_branches s) (no_new_branch s).
Definition set_stuck prev n (s : Expl) := mkExploration (symbolic_context s) (world s) (paths_found s) (maxpktseq s) (pktseqlen s) prev n.

Definition with_context {A} (m : SM SymbolicContext exn A) : ExploreM A :=
  fun s => let '(r, c) := m (symbolic_context s) in (r, set_symbolic_context c s).

(** [sc_core::sc_elab_and_sim] *)
Definition simulate : ExploreM Z :=
  fun s => let '(ret, c, w) := sc_elab_and_sim (symbolic_context s) (world s) in (Ok ret, set_run c w s).

(** [explore_path]: zero, or the result of a run that failed by itself. *)
Definition explore_path : ExploreM Z :=
  with_context (sm_modify (fun c => set_sym_trace (Trace_reset (trace c)) c)) ;;;
  with_context (sm_modify (set_stopped false)) ;;;
  ret <-- simulate ;;
  halted <-- with_context (sm_gets stopped) ;;
  if negb (ret =? 0) && negb halted then sm_ret ret
  else
    sm_when (negb halted) (sm_modify (fun s => set_paths_found (paths_found s + 1) s)) ;;;
    sm_ret 0.

(** [is_stuck]: fifty times in a row no new direction of a branch has been executed. *)
Definition STUCK_LIMIT : Z := 50.
Definition is_stuck_reset : ExploreM unit := sm_modify (set_stuck 0 0).
Definition is_stuck : ExploreM bool :=
  branches <-- sm_gets (fun s => world_branches (world s)) ;;
  sm_modify (fun s => set_stuck branches
    (if branches =? prev_executed_branches s then u64 (no_new_branch s + 1) else 0) s) ;;;
  ret <-- sm_gets (fun s => STUCK_LIMIT <=? no_new_branch s) ;;
  sm_when ret (sm_modify (fun s => set_stuck (prev_executed_branches s) 0 s)) ;;;
  sm_ret ret.

(** The inner loop over the execution tree, and the one over the partially explored paths. *)
Fixpoint explore_tree (n : nat) : ExploreM loop_end :=
  match n with
  | O => sm_ret Unfinished
  | S n =>
      k <-- sm_gets pktseqlen ;;
      with_context (prepare_packet_sequence k) ;;;
      ret <-- explore_path ;;
      if negb (ret =? 0) then sm_ret (Returns ret)
      else
        stuck <-- is_stuck ;;
        if stuck : bool then sm_ret Falls
        else
          found <-- with_context (SymContext.setupNewValues rnd) ;;
          if found : bool then explore_tree n else sm_ret Falls
  end.
Fixpoint explore_partial (n : nat) : ExploreM loop_end :=
  match n with
  | O => sm_ret Unfinished
  | S n =>
      k <-- sm_gets pktseqlen ;;
      store <-- with_context (random_partial rand k) ;;
      match store with
      | None => sm_ret Falls
      | Some store =>
          with_context (sm_modify (fun c => set_ctx (ExecContext.setupNewValues store (ctx c)) c)) ;;;
          stuck <-- is_stuck ;;
          if stuck : bool then with_context clear_partial ;;; sm_ret Falls
          else
            with_context (prepare_packet_sequence k) ;;;
            ret <-- explore_path ;;
            if negb (ret =? 0) then sm_ret (Returns ret) else explore_partial n
      end
  end.

(** The outer loop of [explore_paths]; [n] bounds the rounds of the inner ones. *)
Fixpoint explore_lengths (rounds n : nat) (foundAssig : bool) : ExploreM loop_end :=
  match rounds with
  | O => sm_ret Unfinished
  | S rounds =>
      r <-- (if foundAssig then explore_tree n else sm_ret Falls) ;;
      match r with
      | Returns ret => sm_ret (Returns ret)
      | Unfinished => sm_ret Unfinished
      | Falls =>
          sm_modify (fun s => set_pktseqlen (u32 (pktseqlen s + 1)) s) ;;;
          done <-- sm_gets (fun s => negb (maxpktseq s =? 0) && (maxpktseq s <? pktseqlen s)) ;;
          if done : bool then sm_ret Falls
          else
            r <-- explore_partial n ;;
            match r with
            | Falls =>
                found <-- with_context (SymContext.setupNewValues rnd) ;;
                is_stuck_reset ;;;
                explore_lengths rounds n found
            | r => sm_ret r
            end
      end
  end.
(** [explore_paths], with the value of [get_maxpktseq]. *)
Definition explore_paths (maxseq : Z) (rounds n : nat) : ExploreM loop_end :=
  sm_modify (set_maxpktseq maxseq) ;;;
  sm_modify (set_pktseqlen 1) ;;;
  explore_lengths rounds n true.
End explore.

(** * The exploration ends *)

Section termination.
Context {W : Type} `{Simulation W} `{Laws : KleeSolverLaws}.
Context (rand : nat -> Z) (rnd : nat -> bool).
Abbreviation Expl := (Exploration W).

(** What holds whenever a run is started: the packet sequence is at its beginning and has a
    length to explore, the walk through the execution tree is at the root, and no stop is
    pending. *)
Definition started (maxseq : Z) (c : SymbolicContext) : Prop :=
  current_packet_index c = 0 /\ 1 <= packet_sequence_length c <= maxseq /\
  stopped c = false /\ pathCondsCurrent (trace c) = None /\ cs (trace c) = [].

(** What the runs keep: an invariant [J] of what outlasts them, under which the directions
    executed only grow, to no more than [B]. *)
Context (J : W -> Prop) (B maxseq : Z).
Context (Hrun : forall c w, context_ok c -> started maxseq c -> J w ->
  let '(_, c', w') := sc_elab_and_sim c w in
  context_ok c' /\ J w' /\ world_branches w <= world_branches w').
Context (Hbound : forall w, J w -> 0 <= world_branches w <= B).
Context (Hmax : 0 < maxseq < 2 ^ 32 - 1).

Definition explore_ok (s : Expl) : Prop :=
  context_ok (symbolic_context s) /\ J (world s) /\ maxpktseq s = maxseq /\ 1 <= pktseqlen s <= maxseq /\
  0 <= prev_executed_branches s <= world_branches (world s) /\ 0 <= no_new_branch s < STUCK_LIMIT.

(** Each test of [is_stuck] that does not end a loop makes this smaller. *)
Definition patience (s : Expl) : Z := (B - prev_executed_branches s) * 51 + (STUCK_LIMIT - no_new_branch s).
Lemma patience_bounds s : explore_ok s -> 0 < patience s <= 51 * B + 50.
Proof.
  intros (_ & HJ & _ & _ & Hp & Hn). pose proof (Hbound _ HJ). unfold patience, STUCK_LIMIT in *. lia.
Qed.

Lemma is_stuck_run s : explore_ok s -> exists b s', is_stuck s = (Ok b, s') /\ explore_ok s' /\
  symbolic_context s' = symbolic_context s /\ pktseqlen s' = pktseqlen s /\ (b = false -> patience s' < patience s).
Proof.
  intros (Hc & HJ & Hm & Hk & Hp & Hn). pose proof (Hbound _ HJ) as Hb. unfold is_stuck, sm_bind, sm_gets, sm_modify, STUCK_LIMIT in *.
  cbn [world no_new_branch prev_executed_branches set_stuck].
  destruct (Z.eqb_spec (world_branches (world s)) (prev_executed_branches s)) as [He|He].
  - rewrite wrap_small by lia. destruct (Z.leb_spec 50 (no_new_branch s + 1)); cbn [sm_when]; do 2 eexists;
      (split; [reflexivity|]); unfold explore_ok, patience, STUCK_LIMIT; cbn; split_and!; (done || lia).
  - cbn [Z.leb sm_when]. do 2 eexists. split; [reflexivity|].
    unfold explore_ok, patience, STUCK_LIMIT; cbn; split_and!; (done || lia).
Qed.

(** A computation on the context alone. *)
Lemma with_context_run {A} (m : SM SymbolicContext exn A) s :
  (context_ok (symbolic_context s) -> context_ok (m (symbolic_context s)).2) -> explore_ok s ->
  exists r s', with_context m s = (r, s') /\ r = (m (symbolic_context s)).1 /\ explore_ok s' /\
    symbolic_context s' = (m (symbolic_context s)).2 /\ world s' = world s /\ patience s' = patience s /\ pktseqlen s' = pktseqlen s.
Proof.
  intros Hm (Hc & Hs). specialize (Hm Hc). unfold with_context. destruct (m (symbolic_context s)) as [r c]. cbn in *.
  exists r, (set_symbolic_context c s). split_and!; done.
Qed.

(** A run, from the preparation of the sequence on. *)
Lemma explore_path_run s c k : explore_ok s -> 1 <= k <= maxseq ->
  symbolic_context s = (prepare_packet_sequence k c).2 ->
  exists ret s', explore_path s = (Ok ret, s') /\ explore_ok s' /\ patience s' = patience s /\ pktseqlen s' = pktseqlen s.
Proof.
  intros (Hc & HJ & Hm & Hk & Hp & Hn) Hk' Hprep. unfold explore_path, with_context, simulate, sm_bind, sm_modify, sm_gets.
  cbn [symbolic_context set_symbolic_context world set_run].
  set (c0 := set_stopped false _).
  assert (context_ok c0) as Hc0 by exact Hc.
  assert (started maxseq c0) as Hst by (unfold started, c0; rewrite Hprep; cbn; split_and!; (done || lia)).
  pose proof (Hrun c0 (world s) Hc0 Hst HJ) as Hr.
  destruct (sc_elab_and_sim c0 (world s)) as [[ret c'] w']. destruct Hr as (Hc' & HJ' & Hmono).
  assert (explore_ok (set_run c' w' s)) as Hok.
  { unfold explore_ok in *. cbn. split_and!; (done || lia). }
  cbn [symbolic_context set_run]. destruct (negb (ret =? 0) && negb (stopped c')); [by do 2 eexists|].
  destruct (negb (stopped c')); by do 2 eexists.
Qed.

(** The loops return, with a number of rounds that covers the patience left. *)
Definition ends (k : Z) (r : result exn loop_end * Expl) : Prop :=
  match r with
  | (Ok Unfinished, _) => False
  | (Ok (Returns ret), s) => ret <> 0 /\ explore_ok s
  | (_, s) => explore_ok s /\ pktseqlen s = k
  end.

Lemma explore_tree_ends n : forall s, explore_ok s -> patience s <= Z.of_nat n -> ends (pktseqlen s) (explore_tree rnd n s).
Proof.
  induction n as [|n IH]; intros s Hs Hp; [pose proof (patience_bounds s Hs); lia|]. cbn [explore_tree].
  unfold sm_bind at 1, sm_gets. remember (pktseqlen s) as k eqn:Hkdef.
  assert (1 <= k <= maxseq) as Hk by (rewrite Hkdef; apply Hs).
  destruct (with_context_run (prepare_packet_sequence k) s (fun Hc => Hc) Hs) as (r1 & s1 & E1 & -> & H1 & C1 & _ & P1 & K1).
  change (prepare_packet_sequence k (symbolic_context s)).1 with (Ok (E := exn) tt) in E1.
  rewrite (sm_bind_ok _ _ _ _ _ E1).
  destruct (explore_path_run s1 _ k H1 Hk C1) as (ret & s2 & E2 & H2 & P2 & K2). rewrite (sm_bind_ok _ _ _ _ _ E2).
  destruct (Z.eqb_spec ret 0) as [->|Hret]; cbn [negb]; [|split; done].
  destruct (is_stuck_run s2 H2) as (b & s3 & E3 & H3 & _ & K3 & P3). rewrite (sm_bind_ok _ _ _ _ _ E3).
  destruct b; [split; [exact H3|congruence]|].
  destruct (with_context_run (SymContext.setupNewValues rnd) s3 (setupNewValues_ok rnd _) H3)
    as ([found|e] & s4 & E4 & _ & H4 & _ & _ & P4 & K4);
    [|rewrite (sm_bind_err _ _ _ _ _ E4); split; [exact H4|congruence]].
  rewrite (sm_bind_ok _ _ _ _ _ E4). destruct found; [|split; [exact H4|congruence]].
  replace k with (pktseqlen s4) by congruence. apply IH; [done|].
  specialize (P3 eq_refl). lia.
Qed.

Lemma random_partial_keeps k c : context_ok c -> context_ok (random_partial rand k c).2.
Proof.
  unfold random_partial, sm_bind, sm_modify, sm_gets. intros Hc.
  destruct (partial k (put_partial k (partial k c) c)); [exact Hc|]. by destruct (_ !! _).
Qed.
Lemma random_partial_returns k c : exists o, (random_partial rand k c).1 = Ok o.
Proof.
  unfold random_partial, sm_bind, sm_modify, sm_gets.
  destruct (partial k (put_partial k (partial k c) c)) as [|x l] eqn:Hl; [by eexists|].
  set (i := Z.to_nat _). assert (i < length (x :: l))%nat as Hi.
  { unfold i. cbn [length]. set (r := u64 _).
    pose proof (Z.mod_pos_bound r (Z.of_nat (Datatypes.S (length l))) ltac:(lia)). lia. }
  destruct (lookup_lt_is_Some_2 _ _ Hi) as [store ->]. by eexists.
Qed.
Lemma explore_partial_ends n : forall s, explore_ok s -> patience s <= Z.of_nat n -> ends (pktseqlen s) (explore_partial rand n s).
Proof.
  induction n as [|n IH]; intros s Hs Hp; [pose proof (patience_bounds s Hs); lia|]. cbn [explore_partial].
  unfold sm_bind at 1, sm_gets. remember (pktseqlen s) as k eqn:Hkdef.
  assert (1 <= k <= maxseq) as Hk by (rewrite Hkdef; apply Hs).
  destruct (with_context_run (random_partial rand k) s (random_partial_keeps k _) Hs) as (r1 & s1 & E1 & -> & H1 & C1 & _ & P1 & K1).
  destruct (random_partial_returns k (symbolic_context s)) as [o Ho]. rewrite Ho in E1. rewrite (sm_bind_ok _ _ _ _ _ E1).
  destruct o as [store|]; [|split; [exact H1|congruence]].
  destruct (with_context_run (sm_modify (fun c => set_ctx (ExecContext.setupNewValues store (ctx c)) c)) s1 (fun Hc => Hc) H1)
    as (r2 & s2 & E2 & -> & H2 & _ & _ & P2 & K2). cbn [sm_modify fst] in E2. rewrite (sm_bind_ok _ _ _ _ _ E2).
  destruct (is_stuck_run s2 H2) as (b & s3 & E3 & H3 & _ & K3 & P3). rewrite (sm_bind_ok _ _ _ _ _ E3).
  destruct b.
  { destruct (with_context_run clear_partial s3 (fun Hc => Hc) H3) as (r4 & s4 & E4 & -> & H4 & _ & _ & _ & K4).
    cbn [clear_partial sm_modify fst] in E4. rewrite (sm_bind_ok _ _ _ _ _ E4). split; [exact H4|congruence]. }
  specialize (P3 eq_refl).
  destruct (with_context_run (prepare_packet_sequence k) s3 (fun Hc => Hc) H3) as (r4 & s4 & E4 & -> & H4 & C4 & _ & P4 & K4).
  change (prepare_packet_sequence k (symbolic_context s3)).1 with (Ok (E := exn) tt) in E4.
  rewrite (sm_bind_ok _ _ _ _ _ E4).
  destruct (explore_path_run s4 _ k H4 Hk C4) as (ret & s5 & E5 & H5 & P5 & K5). rewrite (sm_bind_ok _ _ _ _ _ E5).
  destruct (Z.eqb_spec ret 0) as [->|Hret]; cbn [negb]; [|split; done].
  replace k with (pktseqlen s5) by congruence. apply IH; [done|lia].
Qed.

(** What the whole exploration leaves. *)
Definition finishes (r : result exn loop_end * Expl) : Prop :=
  let kept s := context_ok (symbolic_context s) /\ J (world s) in
  match r with
  | (Ok Unfinished, _) => False
  | (Ok (Returns ret), s) => ret <> 0 /\ kept s
  | (Ok Falls, s) => pktseqlen s = maxseq + 1 /\ kept s
  | (Err _, s) => kept s
  end.
Lemma explore_lengths_finish n : 51 * B + 50 <= Z.of_nat n -> forall rounds s found,
  explore_ok s -> maxseq - pktseqlen s < Z.of_nat rounds -> finishes (explore_lengths rand rnd rounds n found s).
Proof.
  intros Hn. assert (forall s, explore_ok s -> context_ok (symbolic_context s) /\ J (world s)) as Hkept by (intros s Hs; split; apply Hs).
  assert (forall s, explore_ok s -> patience s <= Z.of_nat n) as Hpat by (intros s Hs; pose proof (patience_bounds s Hs); lia).
  induction rounds as [|rounds IH]; intros s found Hs Hr.
  { destruct Hs as (_ & _ & _ & Hk & _). lia. }
  cbn [explore_lengths]. unfold sm_bind at 1.
  assert (ends (pktseqlen s) ((if found then explore_tree rnd n else sm_ret Falls) s)) as Htree.
  { destruct found; [apply explore_tree_ends; auto|by split]. }
  destruct ((if found then explore_tree rnd n else sm_ret Falls) s) as [[[ret| |]|e] s1]; cbn [ends] in Htree;
    [destruct Htree as [? ?]; split; auto| |done|destruct Htree; cbn; auto].
  destruct Htree as [H1 K1]. unfold sm_bind at 1 2, sm_modify, sm_gets. cbn [maxpktseq pktseqlen set_pktseqlen].
  pose proof H1 as (Hc & HJ & Hm & Hk & Hp & Hnb). rewrite Hm, (wrap_small 32) by lia.
  destruct (Z.eqb_spec maxseq 0); [lia|]. cbn [negb andb].
  destruct (Z.ltb_spec maxseq (pktseqlen s1 + 1)) as [Hlt|Hge].
  { split; [cbn; lia|done]. }
  assert (explore_ok (set_pktseqlen (pktseqlen s1 + 1) s1)) as H2.
  { unfold explore_ok. cbn. split_and!; (done || lia). }
  pose proof (explore_partial_ends n _ H2 (Hpat _ H2)) as Hpart. unfold sm_bind at 1.
  destruct (explore_partial rand n (set_pktseqlen (pktseqlen s1 + 1) s1)) as [[[ret| |]|e] s3]; cbn [ends] in Hpart;
    [destruct Hpart as [? ?]; split; auto| |done|destruct Hpart; cbn; auto].
  destruct Hpart as [H3 K3]. cbn [pktseqlen set_pktseqlen] in K3.
  destruct (with_context_run (SymContext.setupNewValues rnd) s3 (setupNewValues_ok rnd _) H3)
    as ([found'|e] & s4 & E4 & _ & H4 & _ & _ & _ & K4); [|rewrite (sm_bind_err _ _ _ _ _ E4); cbn; auto].
  rewrite (sm_bind_ok _ _ _ _ _ E4). unfold sm_bind at 1, is_stuck_reset, sm_modify. apply IH.
  - destruct H4 as (? & HJ4 & ? & ? & ? & ?). pose proof (Hbound _ HJ4). unfold explore_ok, STUCK_LIMIT. cbn. split_and!; (done || lia).
  - cbn [pktseqlen set_stuck]. lia.
Qed.
End termination.

(** C40 The exploration ends if a longest packet sequence is set and each run of the software
    ends (a run is a function of the interface [Simulation], which returns): with runs under which the executed directions of branches, of which there are at
    most [B], only grow, no loop has more than [51 * B + 50] rounds.  All lengths have been
    explored then, or a run has failed by itself and its result is returned, or setting up
    the values of the next run has thrown.  Every run is started with a sequence of one of
    these lengths at its beginning, at the root of the execution tree and without a pending
    stop: what such runs keep is kept. *)
Theorem exploration_ends {W} `{Simulation W} `{Laws : KleeSolverLaws} rand rnd (J : W -> Prop) B maxseq rounds n (s : Exploration W) :
  (forall c w, context_ok c -> started maxseq c -> J w ->
     let '(_, c', w') := sc_elab_and_sim c w in context_ok c' /\ J w' /\ world_branches w <= world_branches w') ->
  (forall w, J w -> 0 <= world_branches w <= B) ->
  0 < maxseq < 2 ^ 32 - 1 -> maxseq <= Z.of_nat rounds -> 51 * B + 50 <= Z.of_nat n ->
  context_ok (symbolic_context s) -> J (world s) -> prev_executed_branches s = 0 -> no_new_branch s = 0 ->
  match explore_paths rand rnd maxseq rounds n s with
  | (Ok Unfinished, _) => False
  | (Ok (Returns ret), s') => ret <> 0 /\ context_ok (symbolic_context s') /\ J (world s')
  | (Ok Falls, s') => pktseqlen s' = maxseq + 1 /\ context_ok (symbolic_context s') /\ J (world s')
  | (Err _, s') => context_ok (symbolic_context s') /\ J (world s')
  end.
Proof.
  intros Hrun Hbound Hmax Hr Hn Hc HJ Hp Hnb. unfold explore_paths, sm_bind, sm_modify.
  pose proof (Hbound _ HJ) as Hb.
  apply (explore_lengths_finish rand rnd J B maxseq Hrun Hbound Hmax n Hn); [|cbn; lia].
  unfold explore_ok, STUCK_LIMIT. cbn. rewrite Hp, Hnb. split_and!; (done || lia).
Qed.

(** ** A witness: every run takes the branch at 4, whose directions the coverage counts *)

#[local] Instance explore_solver : KleeSolver := search_solver [].
#[local] Instance sample_simulation : Simulation Coverage := {|
  sc_elab_and_sim c w := (0, c, report (Branched 4 true) w);
  world_branches := executed_branches;
|}.
Definition sample_exploration : Exploration Coverage :=
  mkExploration SymbolicContext_new (mkCoverage {[4 := (false, false)]} ∅) 0 0 0 0 0.
Lemma exploration_ends_witness : exists s',
  explore_paths (fun _ => 0) (fun _ => true) 2 2 152 sample_exploration = (Ok Falls, s') /\
  pktseqlen s' = 3 /\ size (branch_instrs (world s')) = 1%nat.
Proof.
  assert (forall w : Coverage, 0 <= executed_branches w <= 2 * Z.of_nat (size (branch_instrs w))) as Hb
    by (intros; apply (weight_bounds directions 2), directions_bounds).
  pose proof (exploration_ends (Laws := search_solver_laws []) (fun _ => 0) (fun _ => true)
    (fun w : Coverage => size (branch_instrs w) = 1%nat) 2 2 2 152 sample_exploration) as He.
  destruct (explore_paths (fun _ => 0) (fun _ => true) 2 2 152 sample_exploration) as [[[r| |]|e] s'] eqn:Hx;
    try (vm_compute in Hx; discriminate).
  exists s'. split; [reflexivity|]. destruct He as (Hk & _ & HJ).
  - intros c w Hc _ HJ. cbn [sc_elab_and_sim sample_simulation world_branches]. split; [exact Hc|].
    rewrite report_size, report_branches. split; [exact HJ|]. destruct (known 4 true w); lia.
  - intros w HJ. specialize (Hb w). cbn [world_branches sample_simulation]. lia.
  - lia.
  - lia.
  - lia.
  - repeat split; try constructor. by intros σ Hr%Exists_nil.
  - vm_compute. reflexivity.
  - reflexivity.
  - reflexivity.
  - split; [exact Hk|exact HJ].
Defined.
