(* ===== verification/SymDevices.v ===== *)
(** Two peripherals of the symbolic platform: the sensor, whose readings are symbolic within
    bounds (platform/symex/symex_sensor.cpp), and the control device, by which the software
    marks memory as symbolic and ends its runs (symex/symbolic_ctrl.cpp). *)
From stdpp Require Import pretty.
From S2P Require Import Prelude Bits APInt KExpr KBuilder KBuilderSound Concolic ConcMem PathTrace ExecContext Iss Bus RegMap.

(** * The sensor *)

Definition LOWER_REG_ADDR : Z := 0x0.
Definition UPPER_REG_ADDR : Z := 0x4.
Definition VALUE_REG_ADDR : Z := 0x8.

(** With the execution context it refers to. *)
Record SymbolicSensor := mkSensor {
  nread : Z; lower_bound : Z; upper_bound : Z; sensor_ctx : ExecutionContext }.
Definition set_nread v (s : SymbolicSensor) := mkSensor v (lower_bound s) (upper_bound s) (sensor_ctx s).
Definition set_lower v (s : SymbolicSensor) := mkSensor (nread s) v (upper_bound s) (sensor_ctx s).
Definition set_upper v (s : SymbolicSensor) := mkSensor (nread s) (lower_bound s) v (sensor_ctx s).
Definition set_sensor_ctx v (s : SymbolicSensor) := mkSensor (nread s) (lower_bound s) (upper_bound s) v.
Definition SymbolicSensor_new (ctx : ExecutionContext) : SymbolicSensor := mkSensor 0 0 0 ctx.

(** [addr2register]: how the register of an address is assigned. *)
Definition addr2register (addr : Z) : option (Z -> SymbolicSensor -> SymbolicSensor) :=
  if addr =? LOWER_REG_ADDR then Some set_lower
  else if addr =? UPPER_REG_ADDR then Some set_upper
  else None.

Section sensor.
Context `{ExprBuilder} (rand : nat -> Z).
#[local] Open Scope sm_scope.
Abbreviation SensorM := (SM SymbolicSensor exn).

Definition sensor_asserted {A} (o : option A) : SensorM A :=
  match o with Some a => sm_ret a | None => sm_throw AssertionFailed end.
Definition reading_name (n : Z) : string := "SymbolicSensorValue" +:+ pretty n.

(** The value of a reading. *)
Definition sensor_value : SensorM ConcolicValue :=
  s <-- sm_gets (fun s => s) ;;
  sm_modify (set_nread (u64 (nread s + 1))) ;;;
  r <-- sensor_asserted (getSymbolicWord rand (reading_name (nread s)) (sensor_ctx s)) ;;
  sm_modify (set_sensor_ctx (snd r)) ;;;
  range <-- sensor_asserted (BVC None (U32 (u32 (upper_bound s - lower_bound s)))) ;;
  base <-- sensor_asserted (BVC None (U32 (lower_bound s))) ;;
  sm_ret (cv_arith Kind.Add (cv_arith Kind.URem (fst r) range) base).

(** [SymbolicSensor::transport]; a command that is neither is answered as one that is done. *)
Definition sensor_transport (trans : payload) : SensorM payload :=
  let refuse := sm_ret (set_response TLM_ADDRESS_ERROR_RESPONSE trans) in
  if negb (data_length trans =? 4) then refuse
  else
    match command trans with
    | TLM_READ_COMMAND =>
        s <-- sm_gets (fun s => s) ;;
        if negb (address trans =? VALUE_REG_ADDR) || (upper_bound s <=? lower_bound s) then refuse
        else
          sval <-- sensor_value ;;
          cval <-- sensor_asserted (getValue 32 (concrete sval)) ;;
          sm_ret (set_response TLM_OK_RESPONSE
                    (set_data (le_bytes 4 cval) (Bus.set_extension (Some sval) trans)))
    | TLM_WRITE_COMMAND =>
        match addr2register (address trans) with
        | None => refuse
        | Some assign =>
            sm_modify (assign (le_value (data_ptr trans))) ;;; sm_ret (set_response TLM_OK_RESPONSE trans)
        end
    | TLM_IGNORE_COMMAND => sm_ret (set_response TLM_OK_RESPONSE trans)
    end.
End sensor.

(** * The control device *)

Definition CTRL_ERROR : Z := Z.shiftl 1 31.
Definition CTRL_EXIT : Z := Z.shiftl 1 30.
Definition CTRL_EXIT_PKT : Z := Z.shiftl 1 29.

(** What it calls: the interface of the core, and the report of an error found. *)
Class SymbolicIss (E : Type) := {
  if_make_symbolic : Z -> Z -> SM E exn unit;
  if_sys_exit : SM E exn unit;
  if_sys_processed_packet : SM E exn unit;
  report_host_error : SM E exn unit;
}.
Record SymbolicCTRL (E : Type) := mkCtrl {
  make_symbolic_addr : list Z; make_symbolic_size : list Z; symbolic_ctrl : list Z; symif : E }.
Arguments mkCtrl {E}.
Arguments make_symbolic_addr {E}.
Arguments make_symbolic_size {E}.
Arguments symbolic_ctrl {E}.
Arguments symif {E}.

Section ctrl.
Context {E : Type} `{SymbolicIss E}.
#[local] Open Scope sm_scope.
Abbreviation CtrlM := (SM (SymbolicCTRL E) exn).
Definition put_addr v (s : SymbolicCTRL E) := mkCtrl v (make_symbolic_size s) (symbolic_ctrl s) (symif s).
Definition put_size v (s : SymbolicCTRL E) := mkCtrl (make_symbolic_addr s) v (symbolic_ctrl s) (symif s).
Definition put_ctrl v (s : SymbolicCTRL E) := mkCtrl (make_symbolic_addr s) (make_symbolic_size s) v (symif s).
Definition SymbolicCTRL_new (e : E) : SymbolicCTRL E := mkCtrl (replicate 4 0) (replicate 4 0) (replicate 4 0) e.

Definition on_iss {A} (m : SM E exn A) : CtrlM A :=
  fun s => let '(r, e) := m (symif s) in
           (r, mkCtrl (make_symbolic_addr s) (make_symbolic_size s) (symbolic_ctrl s) e).
Definition write_size : CtrlM unit :=
  addr <-- sm_gets (fun s => view 4 0 (make_symbolic_addr s)) ;;
  size <-- sm_gets (fun s => view 4 0 (make_symbolic_size s)) ;;
  on_iss (if_make_symbolic addr size).
Definition write_ctrl : CtrlM unit :=
  val <-- sm_gets (fun s => view 4 0 (symbolic_ctrl s)) ;;
  sm_when (negb (Z.land val CTRL_ERROR =? 0)) (on_iss report_host_error ;;; on_iss if_sys_exit) ;;;
  sm_when (negb (Z.land val CTRL_EXIT_PKT =? 0)) (on_iss if_sys_processed_packet) ;;;
  sm_when (negb (Z.land val CTRL_EXIT =? 0)) (on_iss if_sys_exit) ;;;
  sm_modify (fun s => put_ctrl (set_view 4 0 0 (symbolic_ctrl s)) s).

Definition reg_addr : RegisterRange (SymbolicCTRL E) := RegisterRange_new 0x0 4 make_symbolic_addr put_addr.
Definition reg_size : RegisterRange (SymbolicCTRL E) :=
  mkRange 0x4 4 make_symbolic_size put_size false 1 no_pre_callback (fun _ _ _ => write_size) no_pre_callback no_post_callback.
Definition reg_ctrl : RegisterRange (SymbolicCTRL E) :=
  mkRange 0x8 4 symbolic_ctrl put_ctrl false 1 no_pre_callback (fun _ _ _ => write_ctrl) no_pre_callback no_post_callback.
(** [SymbolicCTRL::transport]: the transaction and the delay after it. *)
Definition ctrl_transport (trans : payload) (delay : Z) : CtrlM (payload * Z) :=
  trans <-- route [reg_addr; reg_size; reg_ctrl] trans (delay + 10) ;; sm_ret (trans, delay + 10).
End ctrl.

(** * Lemmas *)

Section sensor_lemmas.
Context `{Laws : BuilderLaws} (rand : nat -> Z).

(** No two readings share a name. *)
Lemma reading_name_inj m n : 0 <= m -> 0 <= n -> reading_name m = reading_name n -> m = n.
Proof. unfold reading_name. intros _ _ Heq%(inj _). by apply (inj _) in Heq. Qed.

(** What a reading is, from the value [v] its variable has. *)
Definition in_bounds (s : SymbolicSensor) (v : Z) : Z := lower_bound s + v mod (upper_bound s - lower_bound s).
Lemma in_bounds_range s v : lower_bound s < upper_bound s -> lower_bound s <= in_bounds s v < upper_bound s.
Proof. intros Hb. unfold in_bounds. pose proof (Z.mod_pos_bound v (upper_bound s - lower_bound s)). lia. Qed.

Lemma constant_word z : 0 <= z < 2 ^ 32 ->
  exists c, BVC None (U32 z) = Some c /\ forall σ, cval σ c (AP 32 z).
Proof.
  intros Hz. destruct (BVC_concrete (fun _ _ => 0) (U32 z)) as (c & Hc & _ & _); [by apply int_ok_iff|].
  exists c. split; [done|]. intros σ.
  destruct (BVC_concrete σ (U32 z)) as (c' & Hc' & _ & Hv); [by apply int_ok_iff|]. rewrite Hc in Hc'.
  injection Hc' as <-. exact Hv.
Qed.

(** The remainder and the sum do not overflow. *)
Lemma bounded_cval σ s c v crange cbase : 0 <= lower_bound s < upper_bound s -> upper_bound s < 2 ^ 32 ->
  cval σ c (AP 32 v) -> cval σ crange (AP 32 (upper_bound s - lower_bound s)) -> cval σ cbase (AP 32 (lower_bound s)) ->
  cval σ (cv_arith Kind.Add (cv_arith Kind.URem c crange) cbase) (AP 32 (in_bounds s v)).
Proof.
  intros Hb Hu Hc Hr Hl. pose proof (in_bounds_range s v ltac:(lia)) as Hx.
  assert (cval σ (cv_arith Kind.URem c crange) (AP 32 (v mod (upper_bound s - lower_bound s)))) as Hrem.
  { apply (cv_arith_cval σ Kind.URem c crange _ _ Hc Hr). unfold arith_ok. cbn.
    by destruct (Z.eqb_spec (upper_bound s - lower_bound s) 0); [lia|]. }
  pose proof (cv_arith_cval σ Kind.Add _ cbase _ _ Hrem Hl I) as Hadd.
  unfold arith_val in Hadd. cbn in Hadd. unfold in_bounds in *. by rewrite wrap_small, Z.add_comm in Hadd by lia.
Qed.

Lemma sensor_value_spec s : 0 <= lower_bound s < upper_bound s -> upper_bound s < 2 ^ 32 ->
  type_ok (sensor_ctx s) uint32 (reading_name (nread s)) -> store_ok (next_run (sensor_ctx s)) ->
  let v := handed_out rand uint32 (reading_name (nread s)) (sensor_ctx s) in
  exists c ctx', sensor_value rand s = (Ok c, set_nread (u64 (nread s + 1)) (set_sensor_ctx ctx' s)) /\
    next_run ctx' = delete (reading_name (nread s)) (next_run (sensor_ctx s)) /\
    last_run ctx' = <[reading_name (nread s) := v]> (last_run (sensor_ctx s)) /\
    forall σ, assigns σ (reading_name (nread s)) v -> cval σ c (AP 32 (in_bounds s (intToUint v))).
Proof.
  intros Hb Hu Hty Hok v.
  destruct (getSymbolicWord_spec rand _ _ Hty Hok) as (c & ctx' & Hc & Hvok & Hvty & Hn & Hl & Hcv). fold v in Hvok, Hvty, Hl, Hcv.
  destruct (constant_word (upper_bound s - lower_bound s)) as (cr & Hcr & Hcrv); [lia|].
  destruct (constant_word (lower_bound s)) as (cb & Hcb & Hcbv); [lia|].
  exists (cv_arith Kind.Add (cv_arith Kind.URem c cr) cb), ctx'. split; [|split; [done|split; [done|]]].
  - unfold sensor_value. rewrite (sm_bind_ok _ _ _ _ _ (eq_refl : sm_gets _ s = _)).
    rewrite (sm_bind_ok _ _ _ _ _ (eq_refl : sm_modify _ s = _)), Hc.
    assert (u32 (upper_bound s - lower_bound s) = upper_bound s - lower_bound s) as Hw by (by apply wrap_small; lia).
    rewrite Hw, Hcr, Hcb. done.
  - intros σ Ha. specialize (Hcv σ Ha). apply bounded_cval; [done|done| |by apply Hcrv|by apply Hcbv].
    destruct v as [?|w]; [done|exact Hcv].
Qed.

(** A reading of the sensor is symbolic and within its bounds: a read of the value register gives
    the bytes of a value of the interval, which the attached concolic value is under every input
    that gives the reading's variable the value the run gave it; the variable is a new one. *)
Theorem sensor_reading s trans : 0 <= lower_bound s < upper_bound s -> upper_bound s < 2 ^ 32 ->
  type_ok (sensor_ctx s) uint32 (reading_name (nread s)) -> store_ok (next_run (sensor_ctx s)) ->
  command trans = TLM_READ_COMMAND -> address trans = VALUE_REG_ADDR -> data_length trans = 4 ->
  let v := handed_out rand uint32 (reading_name (nread s)) (sensor_ctx s) in
  let x := in_bounds s (intToUint v) in
  lower_bound s <= x < upper_bound s /\
  exists c ctx',
    sensor_transport rand trans s =
      (Ok (set_response TLM_OK_RESPONSE (set_data (le_bytes 4 x) (Bus.set_extension (Some c) trans))),
       set_nread (u64 (nread s + 1)) (set_sensor_ctx ctx' s)) /\
    getPrevStore ctx' = <[reading_name (nread s) := v]> (getPrevStore (sensor_ctx s)) /\
    forall σ, assigns σ (reading_name (nread s)) v -> cval σ c (AP 32 x).
Proof.
  intros Hb Hu Hty Hok Hcmd Ha Hlen v x. split; [apply in_bounds_range; lia|].
  destruct (sensor_value_spec s Hb Hu Hty Hok) as (c & ctx' & Hc & _ & Hl & Hcv). fold v in Hl, Hcv. fold x in Hcv.
  exists c, ctx'. split; [|done].
  pose proof (Hcv (fun _ i => Z.shiftr (intToUint v) (8 * i)) (fun i _ => eq_refl)) as H0.
  pose proof (getValue_spec _ 32 _ _ H0 ltac:(done)) as Hget. cbn [ap_val] in Hget.
  unfold sensor_transport. rewrite Hlen, Hcmd, Ha. cbn [negb Z.eqb Pos.eqb VALUE_REG_ADDR orb].
  rewrite (sm_bind_ok _ _ _ _ _ (eq_refl : sm_gets _ s = _)), (proj2 (Z.leb_gt _ _)) by lia.
  cbn [orb]. rewrite (sm_bind_ok _ _ _ _ _ Hc), Hget. done.
Qed.

(** Everything else that is not a word of a bound is refused, and changes nothing. *)
Lemma sensor_refuses s trans :
  data_length trans <> 4 \/
  (command trans = TLM_READ_COMMAND /\ (address trans <> VALUE_REG_ADDR \/ upper_bound s <= lower_bound s)) \/
  (command trans = TLM_WRITE_COMMAND /\ address trans <> LOWER_REG_ADDR /\ address trans <> UPPER_REG_ADDR) ->
  sensor_transport rand trans s = (Ok (set_response TLM_ADDRESS_ERROR_RESPONSE trans), s).
Proof.
  intros Hr. unfold sensor_transport. destruct (Z.eqb_spec (data_length trans) 4) as [Hl|Hl]; [|done].
  destruct Hr as [?|[[-> Hr]|(-> & Hlo & Hup)]]; [done| |].
  - cbn [negb]. rewrite (sm_bind_ok _ _ _ _ _ (eq_refl : sm_gets _ s = _)).
    destruct (Z.eqb_spec (address trans) VALUE_REG_ADDR), (Z.leb_spec (upper_bound s) (lower_bound s)); try done.
    destruct Hr; [done|lia].
  - cbn [negb]. unfold addr2register.
    by rewrite (proj2 (Z.eqb_neq _ _) Hlo), (proj2 (Z.eqb_neq _ _) Hup).
Qed.
(** A word written to a bound is the bound. *)
Lemma sensor_configured s trans z : data_ptr trans = le_bytes 4 z -> 0 <= z < 2 ^ 32 -> command trans = TLM_WRITE_COMMAND ->
  (address trans = LOWER_REG_ADDR -> sensor_transport rand trans s = (Ok (set_response TLM_OK_RESPONSE trans), set_lower z s)) /\
  (address trans = UPPER_REG_ADDR -> sensor_transport rand trans s = (Ok (set_response TLM_OK_RESPONSE trans), set_upper z s)).
Proof.
  intros Hd Hz Hc. assert (data_length trans = 4) as Hl by (unfold data_length; by rewrite Hd).
  assert (le_value (data_ptr trans) = z) as Hv by (rewrite Hd, le_value_bytes; by apply wrap_small).
  unfold sensor_transport. rewrite Hl, Hc, Hv. split; by intros ->.
Qed.
End sensor_lemmas.

(** ** The control device *)

Section ctrl_lemmas.
Context {E : Type} `{SymbolicIss E}.
#[local] Open Scope sm_scope.

Definition ctrl_ok (s : SymbolicCTRL E) : Prop :=
  length (make_symbolic_addr s) = 4%nat /\ length (make_symbolic_size s) = 4%nat /\ length (symbolic_ctrl s) = 4%nat.

(** The commands of a word: what its bits stand for, in this order. *)
Definition ctrl_commands (w : Z) : SM E exn unit :=
  sm_when (Z.testbit w 31) (report_host_error ;;; if_sys_exit) ;;;
  sm_when (Z.testbit w 29) if_sys_processed_packet ;;;
  sm_when (Z.testbit w 30) if_sys_exit.

Lemma bit_mask w k : 0 <= k -> negb (Z.land w (Z.shiftl 1 k) =? 0) = Z.testbit w k.
Proof.
  intros Hk. rewrite Z.shiftl_1_l. destruct (Z.eqb_spec (Z.land w (2 ^ k)) 0) as [H0|Hn]; cbn.
  - pose proof (f_equal (fun x => Z.testbit x k) H0) as Hb. cbn in Hb.
    by rewrite Z.land_spec, Z.pow2_bits_true, andb_true_r, Z.bits_0 in Hb by done.
  - destruct (Z.testbit w k) eqn:Hb; [done|]. exfalso. apply Hn, Z.bits_inj'. intros i _.
    rewrite Z.land_spec, Z.bits_0, Z.pow2_bits_eqb by done.
    destruct (Z.eqb_spec k i) as [<-|]; [by rewrite Hb|apply andb_false_r].
Qed.

(** The callback performs the commands, and forgets them when they return. *)
Lemma write_ctrl_run s :
  write_ctrl s =
    match ctrl_commands (view 4 0 (symbolic_ctrl s)) (symif s) with
    | (Ok _, e) => (Ok tt, mkCtrl (make_symbolic_addr s) (make_symbolic_size s) (set_view 4 0 0 (symbolic_ctrl s)) e)
    | (Err x, e) => (Err x, mkCtrl (make_symbolic_addr s) (make_symbolic_size s) (symbolic_ctrl s) e)
    end.
Proof.
  unfold write_ctrl, ctrl_commands, CTRL_ERROR, CTRL_EXIT, CTRL_EXIT_PKT, on_iss, sm_bind, sm_gets, sm_when, sm_ret.
  rewrite !bit_mask by done. destruct s as [a z c e]. cbn [make_symbolic_addr make_symbolic_size symbolic_ctrl symif].
  generalize (view 4 0 c) as w. intros w. destruct (Z.testbit w 31), (Z.testbit w 29), (Z.testbit w 30); cbn;
    repeat match goal with
      | |- context [match ?f ?x with _ => _ end] => is_var x; destruct (f x) as [[[]|?] ?]; cbn; try done
      end; done.
Qed.

(** A word written to a register of the device: it is copied, then the callback runs. *)
Definition stored (a : Z) (w : Z) (s : SymbolicCTRL E) : SymbolicCTRL E :=
  if a =? 0x0 then put_addr (le_bytes 4 w) s
  else if a =? 0x4 then put_size (le_bytes 4 w) s else put_ctrl (le_bytes 4 w) s.
Definition callback (a : Z) : SM (SymbolicCTRL E) exn unit :=
  if a =? 0x0 then sm_ret tt else if a =? 0x4 then write_size else write_ctrl.

Lemma splice_all mem src : length mem = length src -> splice 0 src mem = src.
Proof. intros Hl. unfold splice. cbn. by rewrite <- Hl, drop_all, app_nil_r. Qed.

Lemma ctrl_store s trans w delay : ctrl_ok s ->
  command trans = TLM_WRITE_COMMAND -> data_ptr trans = le_bytes 4 w ->
  address trans = 0x0 \/ address trans = 0x4 \/ address trans = 0x8 ->
  ctrl_transport trans delay s =
    match callback (address trans) (stored (address trans) w s) with
    | (Ok _, s') => (Ok (trans, delay + 10), s')
    | (Err x, s') => (Err x, s')
    end.
Proof.
  intros (Ha & Hz & Hc) Hcmd Hd Haddr. unfold ctrl_transport.
  assert (forall r, In r [reg_addr; reg_size; reg_ctrl] -> address trans = rr_start r ->
    route [reg_addr; reg_size; reg_ctrl] trans (delay + 10) s = process r trans (delay + 10) s) as Hroute.
  { intros r Hr Hs. unfold route, rr_contains. rewrite Hs.
    destruct Hr as [<-|[<-|[<-|[]]]]; reflexivity. }
  assert (forall r, In r [reg_addr; reg_size; reg_ctrl] -> address trans = rr_start r ->
    process r trans (delay + 10) s =
    match callback (address trans) (stored (address trans) w s) with
    | (Ok _, s') => (Ok trans, s') | (Err x, s') => (Err x, s') end) as Hproc.
  { intros r Hr Hs. destruct (callback (address trans) (stored (address trans) w s)) as [o s'] eqn:Hcb.
    erewrite (process_write r trans (delay + 10) s o s' Hcmd); [by destruct o|..].
    - by destruct Hr as [<-|[<-|[<-|[]]]].
    - by destruct Hr as [<-|[<-|[<-|[]]]]; cbn [alignment reg_addr reg_size reg_ctrl RegisterRange_new]; rewrite Z.mod_1_r.
    - by destruct Hr as [<-|[<-|[<-|[]]]]; cbn [alignment reg_addr reg_size reg_ctrl RegisterRange_new]; rewrite Z.mod_1_r.
    - rewrite rr_write_run.
      + rewrite <- Hcb, Hs, Hd. unfold copied.
        destruct Hr as [<-|[<-|[<-|[]]]]; cbn; rewrite splice_all by done; reflexivity.
      + rewrite Hs, Hd. unfold inside. destruct Hr as [<-|[<-|[<-|[]]]]; cbn; lia.
      + by destruct Hr as [<-|[<-|[<-|[]]]]. }
  assert (exists r, In r [reg_addr; reg_size; reg_ctrl] /\ address trans = rr_start r) as (r & Hr & Hs).
  { destruct Haddr as [Hx|[Hx|Hx]]; [exists reg_addr|exists reg_size|exists reg_ctrl]; (split; [cbn; tauto|exact Hx]). }
  specialize (Hroute r Hr Hs). specialize (Hproc r Hr Hs). unfold sm_bind. rewrite Hroute, Hproc.
  by destruct (callback _ _) as [[] ?].
Qed.

(** The three registers of the control device: a word is kept as the address, or makes the
    memory at the kept address symbolic for so many bytes, or is a set of commands, which are
    performed in the order error, packet, exit and then forgotten. *)
Theorem ctrl_words s trans w delay : ctrl_ok s -> 0 <= w < 2 ^ 32 ->
  command trans = TLM_WRITE_COMMAND -> data_ptr trans = le_bytes 4 w ->
  (address trans = 0x0 ->
     ctrl_transport trans delay s = (Ok (trans, delay + 10), put_addr (le_bytes 4 w) s)) /\
  (address trans = 0x4 ->
     ctrl_transport trans delay s =
       let '(r, e) := if_make_symbolic (view 4 0 (make_symbolic_addr s)) w (symif s) in
       (match r with Ok _ => Ok (trans, delay + 10) | Err x => Err x end,
        mkCtrl (make_symbolic_addr s) (le_bytes 4 w) (symbolic_ctrl s) e)) /\
  (address trans = 0x8 ->
     ctrl_transport trans delay s =
       let '(r, e) := ctrl_commands w (symif s) in
       match r with
       | Ok _ => (Ok (trans, delay + 10), mkCtrl (make_symbolic_addr s) (make_symbolic_size s) [0; 0; 0; 0] e)
       | Err x => (Err x, mkCtrl (make_symbolic_addr s) (make_symbolic_size s) (le_bytes 4 w) e)
       end).
Proof.
  intros Hs Hw Hc Hd.
  assert (view 4 0 (le_bytes 4 w) = w) as Hv.
  { change (view 4 0 (le_bytes 4 w)) with (le_value (le_bytes 4 w)). by rewrite le_value_bytes, wrap_small. }
  split; [|split]; intros Ha; rewrite (ctrl_store s trans w delay Hs Hc Hd) by tauto; rewrite Ha.
  - done.
  - unfold callback, stored. cbn [Z.eqb Pos.eqb]. unfold write_size, on_iss.
    rewrite (sm_bind_ok _ _ _ _ _ (eq_refl : sm_gets _ _ = _)), (sm_bind_ok _ _ _ _ _ (eq_refl : sm_gets _ _ = _)).
    cbn [put_size make_symbolic_addr make_symbolic_size symbolic_ctrl symif]. rewrite Hv.
    by destruct (if_make_symbolic _ _ _) as [[] ?].
  - unfold callback, stored. cbn [Z.eqb Pos.eqb]. rewrite write_ctrl_run.
    cbn [put_ctrl make_symbolic_addr make_symbolic_size symbolic_ctrl symif]. rewrite Hv.
    by destruct (ctrl_commands w (symif s)) as [[] ?].
Qed.
End ctrl_lemmas.

(** ** Witnesses *)

#[local] Instance devices_builder : ExprBuilder := solver_builder.
Definition sample_sensor : SymbolicSensor := mkSensor 7 20 30 (mkContext ∅ ∅ 0).
Definition read_value : payload := mkPayload TLM_READ_COMMAND VALUE_REG_ADDR [0; 0; 0; 0] None TLM_OK_RESPONSE.
Lemma sensor_reading_witness : exists c ctx',
  sensor_transport (fun _ => 0x1234) read_value sample_sensor =
    (Ok (mkPayload TLM_READ_COMMAND 8 [20; 0; 0; 0] (Some c) TLM_OK_RESPONSE), mkSensor 8 20 30 ctx') /\
  getPrevStore ctx' !! "SymbolicSensorValue7" = Some (U32 0x1234).
Proof.
  destruct (sensor_reading (Laws := solver_builder_laws) (fun _ => 0x1234) sample_sensor read_value)
    as (_ & c & ctx' & Ht & Hp & _).
  - cbn. lia.
  - cbn. lia.
  - intros v Hv. discriminate Hv.
  - intros n v Hv. discriminate Hv.
  - reflexivity.
  - reflexivity.
  - reflexivity.
  - exists c, ctx'. split; [exact Ht|]. rewrite Hp. reflexivity.
Defined.

(** A core that counts what it is asked for; the second field is set when it is to exit. *)
#[local] Instance counting_iss : SymbolicIss (list (Z * Z) * bool) := {|
  if_make_symbolic addr size := sm_modify (fun e => ((addr, size) :: e.1, e.2));
  if_sys_exit := sm_modify (fun e => (e.1, true));
  if_sys_processed_packet := sm_ret tt;
  report_host_error := sm_throw RuntimeError |}.
Definition word_write (a w : Z) : payload := mkPayload TLM_WRITE_COMMAND a (le_bytes 4 w) None TLM_OK_RESPONSE.
Lemma ctrl_words_witness :
  let s := mkCtrl (le_bytes 4 0x80001000) [0; 0; 0; 0] [0; 0; 0; 0] (@nil (Z * Z), false) in
  (ctrl_transport (word_write 0x4 16) 0 s).2 = mkCtrl (le_bytes 4 0x80001000) (le_bytes 4 16) [0; 0; 0; 0] ([(0x80001000, 16)], false) /\
  (ctrl_transport (word_write 0x8 (2 ^ 30)) 0 s).2 = mkCtrl (le_bytes 4 0x80001000) [0; 0; 0; 0] [0; 0; 0; 0] ([], true) /\
  (ctrl_transport (word_write 0x8 (2 ^ 31)) 0 s).1 = Err RuntimeError.
Proof.
  intros s. assert (ctrl_ok s) as Hs by (split; [|split]; reflexivity).
  destruct (ctrl_words s (word_write 0x4 16) 16 0 Hs ltac:(lia) eq_refl eq_refl) as (_ & Hsize & _).
  destruct (ctrl_words s (word_write 0x8 (2 ^ 30)) (2 ^ 30) 0 Hs ltac:(lia) eq_refl eq_refl) as (_ & _ & Hexit).
  destruct (ctrl_words s (word_write 0x8 (2 ^ 31)) (2 ^ 31) 0 Hs ltac:(lia) eq_refl eq_refl) as (_ & _ & Herr).
  split; [rewrite (Hsize eq_refl); reflexivity|]. split; [rewrite (Hexit eq_refl); reflexivity|].
  rewrite (Herr eq_refl). reflexivity.
Defined.
