(* ===== verification/KReads.v ===== *)
(** The reads and the arrays of an expression (klee/lib/Expr/ExprUtil.cpp): the traversals that
    collect them, and that the value of an expression depends on nothing else. *)
From S2P Require Import Prelude Bits APInt KExpr KBuilder KType KCreate KVisitor.

(** * The traversals *)

#[export] Instance array_countable : Countable Array.
Proof. by apply (inj_countable' (fun a => (arr_name a, arr_size a)) (fun p => mkArray p.1 p.2)); intros []. Defined.

(** The pushes of one iteration of [findReads]: the operands that are not constants and not yet
    visited. *)
Fixpoint push_kids (kids stack visited : list expr) : list expr * list expr :=
  match kids with
  | [] => (stack, visited)
  | k :: kids =>
      if is_const k || bool_decide (k ∈ visited) then push_kids kids stack visited
      else push_kids kids (k :: stack) (k :: visited)
  end.
Definition read_of (e : expr) : list (Array * expr) := match e with ERead a i => [(a, i)] | _ => [] end.
(** The loop of [findReads]; the top of the stack is the head of the list.  A read in [results]
    is its array and its index. *)
Fixpoint findReads_loop (fuel : nat) (stack visited : list expr) (results : list (Array * expr)) :
    option (list (Array * expr)) :=
  match stack, fuel with
  | [], _ => Some results
  | _, O => None
  | top :: stack, S fuel =>
      let '(stack, visited) := push_kids (getKids top) stack visited in
      findReads_loop fuel stack visited (results ++ read_of top)
  end.
(** [findReads]; the default is not reached ([findReads_spec]). *)
Definition findReads (e : expr) : list (Array * expr) :=
  if is_const e then [] else default [] (findReads_loop (expr_size e) [e] [e] []).

(** [SymbolicObjectFinder]: the expressions visited, the arrays found by this visitor, and the
    list it appends to. *)
Record object_finder := mkFinder { of_visited : list expr; of_results : list Array; of_objects : list Array }.
Definition found_object (e : expr) (s : object_finder) : object_finder :=
  match e with
  | ERead a _ => if bool_decide (a ∈ of_results s) then s
                 else mkFinder (of_visited s) (a :: of_results s) (of_objects s ++ [a])
  | _ => s
  end.
Fixpoint visit_objects (e : expr) (s : object_finder) : object_finder :=
  if is_const e || bool_decide (e ∈ of_visited s) then s else
  let s := found_object e s in
  let s := match e with
           | EConstant _ => s
           | ERead _ k | EExtract k _ _ | EZExt k _ | ESExt k _ | ENot k => visit_objects k s
           | EConcat l r | EArith _ l r | ECmp _ l r => visit_objects r (visit_objects l s)
           | ESelect c t f => visit_objects f (visit_objects t (visit_objects c s))
           end in
  mkFinder (e :: of_visited s) (of_results s) (of_objects s).
(** [findSymbolicObjects] over a sequence of expressions, and of one expression. *)
Definition findSymbolicObjects (es : list expr) (objects : list Array) : list Array :=
  of_objects (foldl (fun s e => visit_objects e s) (mkFinder [] [] objects) es).

(** * What they find *)

Fixpoint all_reads (e : expr) : list (Array * expr) :=
  match e with
  | EConstant _ => []
  | ERead a i => (a, i) :: all_reads i
  | EExtract k _ _ | EZExt k _ | ESExt k _ | ENot k => all_reads k
  | EConcat l r | EArith _ l r | ECmp _ l r => all_reads l ++ all_reads r
  | ESelect c t f => all_reads c ++ all_reads t ++ all_reads f
  end.
Definition arrays (e : expr) : list Array := (all_reads e).*1.

Lemma all_reads_kids e r : r ∈ all_reads e <-> r ∈ read_of e \/ Exists (fun k => r ∈ all_reads k) (getKids e).
Proof.
  destruct e; cbn [all_reads read_of getKids]; rewrite ?Exists_cons, ?Exists_nil, ?elem_of_cons, ?elem_of_app, ?elem_of_nil;
    tauto.
Qed.
Lemma const_reads e : is_const e = true -> all_reads e = [].
Proof. by destruct e. Qed.

(** ** The value of an expression depends on its reads *)

(** Two inputs agree on what a read looks at. *)
Definition reads_at (i : expr) (j : Z) : Prop := match i with EConstant v => j = ap_val v | _ => True end.
Definition agree (σ σ' : assignment) (r : Array * expr) : Prop :=
  forall j, reads_at r.2 j -> wrap 8 (σ (arr_name r.1) j) = wrap 8 (σ' (arr_name r.1) j).

Lemma eval_agree σ σ' e : Forall (agree σ σ') (all_reads e) -> eval σ e = eval σ' e.
Proof.
  induction e; cbn [all_reads eval]; rewrite ?Forall_app, ?Forall_cons; intros Ha;
    repeat match goal with H : _ /\ _ |- _ => destruct H end; try congruence.
  - destruct (is_const e) eqn:Hc.
    + destruct e; try done. rewrite <- (IHe ltac:(constructor)).
      cbn [eval]. destruct (ap_wf value); [|done]. unfold ev_read. cbn.
      destruct (_ <? _); [|done]. do 2 f_equal. by apply H.
    + rewrite <- IHe by done. unfold ev_read. destruct (eval σ e) as [v|]; [|done]. cbn.
      destruct (_ <? _); [|done]. do 2 f_equal. apply H. by destruct e.
  - by rewrite IHe1, IHe2, IHe3.
  - by rewrite IHe1, IHe2.
  - by rewrite IHe.
  - by rewrite IHe.
  - by rewrite IHe.
  - by rewrite IHe.
  - by rewrite IHe1, IHe2.
  - by rewrite IHe1, IHe2.
Qed.

(** ** [findReads] returns the reads *)

Fixpoint subterms (e : expr) : list expr :=
  e :: match e with
       | EConstant _ => []
       | ERead _ k | EExtract k _ _ | EZExt k _ | ESExt k _ | ENot k => subterms k
       | EConcat l r | EArith _ l r | ECmp _ l r => subterms l ++ subterms r
       | ESelect c t f => subterms c ++ subterms t ++ subterms f
       end.
Lemma length_subterms e : length (subterms e) = expr_size e.
Proof. induction e; cbn; rewrite ?length_app; lia. Qed.
Lemma subterms_self e : e ∈ subterms e.
Proof. destruct e; apply elem_of_cons; by left. Qed.
Lemma subterms_kids e x k : x ∈ subterms e -> k ∈ getKids x -> k ∈ subterms e.
Proof.
  intros Hx Hk. induction e; cbn [subterms] in *; apply elem_of_cons in Hx as [->|Hx];
    try rewrite ?elem_of_app, ?elem_of_nil in Hx; apply elem_of_cons; right; rewrite ?elem_of_app;
    try (cbn [getKids] in Hk; rewrite ?elem_of_cons, ?elem_of_nil in Hk);
    intuition (subst; auto using subterms_self).
Qed.

(** What an iteration of the loop keeps. *)
Record traversal (e : expr) (stack visited : list expr) (results : list (Array * expr)) : Prop := {
  t_nodup : NoDup visited;
  t_sub : forall x, x ∈ visited -> x ∈ subterms e;
  t_stack : forall x, x ∈ stack -> x ∈ visited;
  t_done : forall x, x ∈ visited -> x ∈ stack \/
    (forall r, r ∈ read_of x -> r ∈ results) /\ (forall k, k ∈ getKids x -> is_const k = false -> k ∈ visited);
  t_results : forall r, r ∈ results -> exists x, x ∈ subterms e /\ r ∈ read_of x;
}.
(** The iterations left. *)
Definition left_to_do (e : expr) (stack visited : list expr) : nat := expr_size e - length visited + length stack.

Lemma visited_bound e visited : NoDup visited -> (forall x, x ∈ visited -> x ∈ subterms e) ->
  (length visited <= expr_size e)%nat.
Proof.
  intros Hn Hs. rewrite <- length_subterms. apply submseteq_length. by apply NoDup_submseteq.
Qed.

Lemma push_kids_spec e kids : forall stack visited stack' visited',
  push_kids kids stack visited = (stack', visited') ->
  NoDup visited -> (forall x, x ∈ visited -> x ∈ subterms e) -> (forall k, k ∈ kids -> k ∈ subterms e) ->
  NoDup visited' /\ (forall x, x ∈ visited' -> x ∈ subterms e) /\
  (forall x, x ∈ visited -> x ∈ visited') /\ (forall x, x ∈ stack -> x ∈ stack') /\
  (forall x, x ∈ visited' -> x ∈ visited \/ x ∈ stack') /\ (forall x, x ∈ stack' -> x ∈ stack \/ x ∈ visited') /\
  (forall k, k ∈ kids -> is_const k = false -> k ∈ visited') /\
  (length visited' + length stack = length visited + length stack')%nat.
Proof.
  induction kids as [|k kids IH]; intros stack visited stack' visited' Hp Hn Hs Hk; cbn [push_kids] in Hp.
  { injection Hp as <- <-. split_and!; try tauto. by intros k Hk'%elem_of_nil. }
  assert (forall k, k ∈ kids -> k ∈ subterms e) as Hks by (intros; apply Hk, elem_of_cons; by right).
  destruct (is_const k || bool_decide (k ∈ visited)) eqn:Hb.
  - destruct (IH _ _ _ _ Hp Hn Hs Hks) as (? & ? & Hv & ? & ? & ? & Hkid & ?). split_and!; try done.
    intros x Hx Hc. apply elem_of_cons in Hx as [->|Hx]; [|by apply Hkid].
    rewrite Hc in Hb. apply Hv. by apply bool_decide_eq_true_1 in Hb.
  - apply orb_false_iff in Hb as [Hc Hb%bool_decide_eq_false_1].
    destruct (IH _ _ _ _ Hp) as (? & ? & Hv & Hst & Hvs & Hsv & Hkid & Hlen); [by constructor| |done|].
    { intros x [->|Hx]%elem_of_cons; [apply Hk, elem_of_cons; by left|by apply Hs]. }
    split_and!; try done.
    + intros x Hx. apply Hv, elem_of_cons. by right.
    + intros x Hx. apply Hst, elem_of_cons. by right.
    + intros x Hx. destruct (Hvs x Hx) as [[->|?]%elem_of_cons|?]; [|by left|by right].
      right. apply Hst, elem_of_cons. by left.
    + intros x Hx. destruct (Hsv x Hx) as [[->|?]%elem_of_cons|?]; [|by left|by right].
      right. apply Hv, elem_of_cons. by left.
    + intros x Hx Hcx. apply elem_of_cons in Hx as [->|Hx]; [|by apply Hkid]. apply Hv, elem_of_cons. by left.
    + cbn in Hlen. lia.
Qed.

Lemma traversal_step e top stack visited results stack' visited' :
  traversal e (top :: stack) visited results -> push_kids (getKids top) stack visited = (stack', visited') ->
  traversal e stack' visited' (results ++ read_of top) /\
  (left_to_do e stack' visited' < left_to_do e (top :: stack) visited)%nat.
Proof.
  intros [Hn Hsub Hst Hdone Hres] Hp.
  assert (top ∈ visited) as Htop by (apply Hst, elem_of_cons; by left).
  destruct (push_kids_spec e _ _ _ _ _ Hp Hn Hsub) as (Hn' & Hsub' & Hv & Hs & Hvs & Hsv & Hk & Hlen).
  { intros k. by apply subterms_kids, Hsub. }
  pose proof (visited_bound e visited' Hn' Hsub') as Hb. split; [split|].
  - done.
  - done.
  - intros x Hx. destruct (Hsv x Hx) as [Hx'|]; [|done]. apply Hv, Hst, elem_of_cons. by right.
  - intros x Hx. destruct (Hvs x Hx) as [Hx'|]; [|by left].
    destruct (Hdone x Hx') as [[->|Hin]%elem_of_cons|[Hr Hkk]].
    + right. split; [|by apply Hk]. intros r Hr. apply elem_of_app. by right.
    + left. by apply Hs.
    + right. split; [intros r Hr'; apply elem_of_app; left; auto|]. intros k Hk' Hc. by apply Hv, (Hkk k).
  - intros r [Hr|Hr]%elem_of_app; [by apply Hres|]. exists top. split; [by apply Hsub|done].
  - unfold left_to_do. cbn [length]. lia.
Qed.

Lemma findReads_loop_spec e : forall fuel stack visited results,
  traversal e stack visited results -> (left_to_do e stack visited <= fuel)%nat ->
  exists results' visited', findReads_loop fuel stack visited results = Some results' /\
    traversal e [] visited' results' /\ (forall x, x ∈ visited -> x ∈ visited').
Proof.
  induction fuel as [|fuel IH]; intros [|top stack] visited results Ht Hf.
  - by exists results, visited.
  - unfold left_to_do in Hf. cbn in Hf. lia.
  - by exists results, visited.
  - cbn [findReads_loop]. destruct (push_kids (getKids top) stack visited) as [stack' visited'] eqn:Hp.
    destruct (traversal_step e top stack visited results stack' visited' Ht Hp) as [Ht' Hlt].
    destruct (IH stack' visited' _ Ht') as (rs & vs & -> & ? & Hvs); [lia|]. exists rs, vs. split; [done|]. split; [done|].
    intros x Hx. apply Hvs.
    destruct (push_kids_spec e _ _ _ _ _ Hp (t_nodup _ _ _ _ Ht) (t_sub _ _ _ _ Ht)) as (_ & _ & Hv & _); [|by apply Hv].
    intros k. apply subterms_kids, (t_sub _ _ _ _ Ht), (t_stack _ _ _ _ Ht), elem_of_cons. by left.
Qed.

Lemma subterms_reads e x r : x ∈ subterms e -> r ∈ all_reads x -> r ∈ all_reads e.
Proof.
  intros Hx Hr. induction e; cbn [subterms] in Hx; (apply elem_of_cons in Hx as [->|Hx]; [done|]);
    try rewrite ?elem_of_app, ?elem_of_nil in Hx; cbn [all_reads]; rewrite ?elem_of_cons, ?elem_of_app; tauto.
Qed.

(** The fuel is enough, and the result is the reads of the expression. *)
Lemma findReads_spec e r : r ∈ findReads e <-> r ∈ all_reads e.
Proof.
  unfold findReads. destruct (is_const e) eqn:Hc; [by rewrite const_reads|].
  destruct (findReads_loop_spec e (expr_size e) [e] [e] []) as (rs & vs & -> & Ht & Hv).
  - split.
    + apply NoDup_singleton.
    + intros x ->%list_elem_of_singleton. apply subterms_self.
    + done.
    + by left.
    + by intros ? ?%elem_of_nil.
  - unfold left_to_do. cbn. destruct e; cbn; lia.
  - cbn [default]. destruct Ht as [_ _ _ Hdone Hres]. split.
    + intros Hr. destruct (Hres r Hr) as (x & Hx & Hrx). apply (subterms_reads e x); [done|].
      apply all_reads_kids. by left.
    + assert (e ∈ vs) as He by (apply Hv, elem_of_cons; by left). clear -Hdone He. revert r.
      assert (forall x, x ∈ vs -> forall r, r ∈ all_reads x -> r ∈ rs) as Hall; [|by apply Hall].
      induction x as [x IH] using (induction_ltof1 _ expr_size). intros Hx r Hr.
      destruct (Hdone x Hx) as [?%elem_of_nil|[Hrd Hk]]; [done|].
      apply all_reads_kids in Hr as [Hr|(k & Hin & Hr)%Exists_exists]; [by apply Hrd|].
      destruct (is_const k) eqn:Hck; [rewrite (const_reads k Hck) in Hr; by apply elem_of_nil in Hr|].
      apply (IH k); [by apply kid_size|by apply Hk|done].
Qed.

(** ** [findSymbolicObjects] returns the arrays *)

(** What a visitor knows: the arrays of what it visited are in its results, and those are in the
    list with what was there. *)
Definition finder_ok (objects : list Array) (s : object_finder) : Prop :=
  (forall x a, x ∈ of_visited s -> a ∈ arrays x -> a ∈ of_results s) /\
  (forall a, a ∈ of_objects s <-> a ∈ objects \/ a ∈ of_results s).

Lemma found_object_spec objects e s : finder_ok objects s ->
  finder_ok objects (found_object e s) /\ of_visited (found_object e s) = of_visited s /\
  forall a, a ∈ of_results (found_object e s) <-> a ∈ of_results s \/ a ∈ (read_of e).*1.
Proof.
  intros [Hv Ho]. destruct e; cbn [found_object read_of fmap list_fmap fst];
    try (split; [done|]; split; [done|]; intros; rewrite elem_of_nil; tauto).
  destruct (bool_decide_reflect (root ∈ of_results s)) as [Hin|Hn].
  { split; [done|]. split; [done|]. intros b. rewrite list_elem_of_singleton. split; [tauto|]. by intros [?| ->]. }
  split; [|split; [done|]].
  - split; cbn.
    + intros x b Hx Hb. apply elem_of_cons. right. by eapply Hv.
    + intros b. rewrite elem_of_app, elem_of_cons, elem_of_nil, elem_of_cons, Ho. tauto.
  - cbn. intros b. rewrite !elem_of_cons, elem_of_nil. tauto.
Qed.

Lemma arrays_kids e a : a ∈ arrays e <-> a ∈ (read_of e).*1 \/ Exists (fun k => a ∈ arrays k) (getKids e).
Proof.
  unfold arrays. rewrite list_elem_of_fmap. split.
  - intros (r & -> & [Hr|(k & Hk & Hr)%Exists_exists]%all_reads_kids).
    + left. by apply list_elem_of_fmap_2.
    + right. apply Exists_exists. exists k. split; [done|]. by apply list_elem_of_fmap_2.
  - intros [(r & -> & Hr)%list_elem_of_fmap|(k & Hk & (r & -> & Hr)%list_elem_of_fmap)%Exists_exists];
      exists r; (split; [done|]); apply all_reads_kids; [by left|right].
    apply Exists_exists. by exists k.
Qed.

(** A visit adds the arrays of what it visits. *)
Definition visits_arrays (objects : list Array) (e : expr) (s s' : object_finder) : Prop :=
  finder_ok objects s' /\ forall a, a ∈ of_results s' <-> a ∈ of_results s \/ a ∈ arrays e.
Lemma visit_objects_spec objects e : forall s, finder_ok objects s -> visits_arrays objects e s (visit_objects e s).
Proof.
  assert (forall e s s', is_const e || bool_decide (e ∈ of_visited s) = false ->
    finder_ok objects s -> finder_ok objects s' ->
    (forall a, a ∈ of_results s' <-> a ∈ of_results (found_object e s) \/ Exists (fun k => a ∈ arrays k) (getKids e)) ->
    visits_arrays objects e s (mkFinder (e :: of_visited s') (of_results s') (of_objects s'))) as Hstep.
  { intros x s s' _ Hs [Hv Ho] Hr. destruct (found_object_spec objects x s Hs) as (_ & _ & Hf).
    assert (forall a, a ∈ of_results s' <-> a ∈ of_results s \/ a ∈ arrays x) as Hall.
    { intros a. rewrite Hr, Hf, arrays_kids. tauto. }
    split; [|done]. split; [|done]. cbn. intros y a [->|Hy]%elem_of_cons Ha; [apply Hall; by right|by eapply Hv]. }
  assert (forall e s, finder_ok objects s -> is_const e || bool_decide (e ∈ of_visited s) = true ->
    visits_arrays objects e s s) as Hskip.
  { intros x s Hs Hb. split; [done|]. intros a. split; [tauto|]. intros [?|Ha]; [done|].
    apply orb_true_iff in Hb as [Hc|Hb%bool_decide_eq_true_1]; [|by eapply (proj1 Hs)].
    unfold arrays in Ha. rewrite (const_reads x Hc) in Ha. by apply elem_of_nil in Ha. }
  induction e; intros s Hs; cbn [visit_objects];
    match goal with |- visits_arrays _ ?e _ (if ?b then _ else _) => destruct b eqn:Hb; [by apply Hskip|]; cbv zeta;
      destruct (found_object_spec objects e s Hs) as (Hf & _ & _) end;
    repeat match goal with IH : forall s, finder_ok _ s -> visits_arrays _ ?e _ _ |- context [visit_objects ?e ?s0] =>
      lazymatch goal with H : visits_arrays _ e s0 _ |- _ => fail | _ => idtac end;
      let H := fresh "Hvis" in assert (visits_arrays objects e s0 (visit_objects e s0)) as H
        by (apply IH; first [done|match goal with H' : visits_arrays _ _ _ s0 |- _ => exact (proj1 H') end]) end;
    (apply Hstep; [done|done|first [done|match goal with |- finder_ok _ (visit_objects ?e ?s0) =>
        match goal with H : visits_arrays _ e s0 _ |- _ => exact (proj1 H) end end]|]);
    intros a; cbn [getKids]; rewrite ?Exists_cons, ?Exists_nil;
    repeat match goal with H : visits_arrays _ _ _ _ |- _ => destruct H as [_ H]; specialize (H a) end; tauto.
Qed.

Lemma findSymbolicObjects_spec es objects a :
  a ∈ findSymbolicObjects es objects <-> a ∈ objects \/ Exists (fun e => a ∈ arrays e) es.
Proof.
  unfold findSymbolicObjects.
  assert (forall s, finder_ok objects s ->
    let s' := foldl (fun s e => visit_objects e s) s es in
    finder_ok objects s' /\ forall a, a ∈ of_results s' <-> a ∈ of_results s \/ Exists (fun e => a ∈ arrays e) es) as Hfold.
  { clear a. induction es as [|e es IH]; intros s Hs; cbn [foldl].
    - split; [done|]. intros a. rewrite Exists_nil. tauto.
    - destruct (visit_objects_spec objects e s Hs) as [Hs1 Hr1]. destruct (IH _ Hs1) as [Hs2 Hr2].
      split; [done|]. intros a. rewrite (Hr2 a), Hr1, Exists_cons. tauto. }
  destruct (Hfold (mkFinder [] [] objects)) as [[_ Ho] Hr].
  - split; cbn; [by intros ? ? ?%elem_of_nil|]. intros b. rewrite elem_of_nil. tauto.
  - rewrite Ho, Hr. cbn. rewrite elem_of_nil. tauto.
Qed.
