(* ===== verification/RangeBounds.v ===== *)
(** The bounds of bitwise operations on intervals (klee/lib/Solver/FastCexSolver.cpp: minOR, maxOR,
    minAND, maxAND, after Hacker's Delight): the scans, and that they return the least and the greatest
    value. *)
From S2P Require Import Prelude Bits APInt KExpr KBuilder KType.

(** * Bounds of bitwise operations *)

(** The scans of Hacker's Delight; [n] is one more than the position of the mask [m]. *)
Definition both_in (u v m : Z) : bool := negb (Z.land (Z.land u v) m =? 0).
Definition raise (a m : Z) : Z := Z.land (Z.lor a m) (u64 (- m)).
Fixpoint minOR_loop (n : nat) (a b c d : Z) : Z :=
  match n with
  | O => Z.lor a c
  | S n =>
      let m := Z.shiftl 1 (Z.of_nat n) in
      if both_in (Z.lnot a) c m then
        if raise a m <=? b then Z.lor (raise a m) c else minOR_loop n a b c d
      else if both_in a (Z.lnot c) m then
        if raise c m <=? d then Z.lor a (raise c m) else minOR_loop n a b c d
      else minOR_loop n a b c d
  end.
Definition minOR (a b c d : Z) : Z := minOR_loop 64 a b c d.
Fixpoint maxOR_loop (n : nat) (a b c d : Z) : Z :=
  match n with
  | O => Z.lor b d
  | S n =>
      let m := Z.shiftl 1 (Z.of_nat n) in
      if both_in b d m then
        if a <=? Z.lor (b - m) (m - 1) then Z.lor (Z.lor (b - m) (m - 1)) d
        else if c <=? Z.lor (d - m) (m - 1) then Z.lor b (Z.lor (d - m) (m - 1))
        else maxOR_loop n a b c d
      else maxOR_loop n a b c d
  end.
Definition maxOR (a b c d : Z) : Z := maxOR_loop 64 a b c d.
Fixpoint minAND_loop (n : nat) (a b c d : Z) : Z :=
  match n with
  | O => Z.land a c
  | S n =>
      let m := Z.shiftl 1 (Z.of_nat n) in
      if both_in (Z.lnot a) (Z.lnot c) m then
        if raise a m <=? b then Z.land (raise a m) c
        else if raise c m <=? d then Z.land a (raise c m)
        else minAND_loop n a b c d
      else minAND_loop n a b c d
  end.
Definition minAND (a b c d : Z) : Z := minAND_loop 64 a b c d.
Definition lower (b m : Z) : Z := Z.lor (Z.land b (Z.lnot m)) (m - 1).
Fixpoint maxAND_loop (n : nat) (a b c d : Z) : Z :=
  match n with
  | O => Z.land b d
  | S n =>
      let m := Z.shiftl 1 (Z.of_nat n) in
      if both_in b (Z.lnot d) m then
        if a <=? lower b m then Z.land (lower b m) d else maxAND_loop n a b c d
      else if both_in (Z.lnot b) d m then
        if c <=? lower d m then Z.land b (lower d m) else maxAND_loop n a b c d
      else maxAND_loop n a b c d
  end.
Definition maxAND (a b c d : Z) : Z := maxAND_loop 64 a b c d.

(** ** They bound *)

Lemma shr_step x k : 0 <= k -> Z.shiftr x k = 2 * Z.shiftr x (k + 1) + Z.b2z (Z.testbit x k).
Proof.
  intros Hk. rewrite (Z.testbit_spec' x k) by done. rewrite !Z.shiftr_div_pow2, Z.pow_add_r, <- Z.div_div by lia.
  change (2 ^ 1) with 2. pose proof (Z.div_mod (x / 2 ^ k) 2). lia.
Qed.
Lemma lor_step x y k : 0 <= k ->
  Z.shiftr (Z.lor x y) k = 2 * Z.lor (Z.shiftr x (k + 1)) (Z.shiftr y (k + 1)) + Z.b2z (Z.testbit x k || Z.testbit y k).
Proof. intros Hk. by rewrite (shr_step (Z.lor x y)), Z.lor_spec, Z.shiftr_lor. Qed.
Lemma land_step x y k : 0 <= k ->
  Z.shiftr (Z.land x y) k = 2 * Z.land (Z.shiftr x (k + 1)) (Z.shiftr y (k + 1)) + Z.b2z (Z.testbit x k && Z.testbit y k).
Proof. intros Hk. by rewrite (shr_step (Z.land x y)), Z.land_spec, Z.shiftr_land. Qed.
Lemma shr_mono x y k : 0 <= k -> x <= y -> Z.shiftr x k <= Z.shiftr y k.
Proof. intros Hk Hxy. rewrite !Z.shiftr_div_pow2 by done. apply Z.div_le_mono; [lia|done]. Qed.
Lemma shr_lt x y k : 0 <= k -> Z.shiftr x k < Z.shiftr y k -> x < y.
Proof. intros Hk Hs. destruct (Z.lt_ge_cases x y) as [|Hle]; [done|]. pose proof (shr_mono y x k Hk Hle). lia. Qed.
Lemma shr_le x y k : 0 <= k -> Z.shiftr x k = Z.shiftr y k -> x mod 2 ^ k <= y mod 2 ^ k -> x <= y.
Proof.
  intros Hk Hs Hm. rewrite !Z.shiftr_div_pow2 in Hs by done.
  rewrite (Z.div_mod x (2 ^ k)), (Z.div_mod y (2 ^ k)) by lia. rewrite Hs. lia.
Qed.
Lemma lor_ge x y : 0 <= x -> 0 <= y -> y <= Z.lor x y.
Proof.
  intros Hx Hy. apply (Z.ldiff_le y (Z.lor x y)); [by apply Z.lor_nonneg|]. apply Z.bits_inj'. intros i Hi.
  rewrite Z.ldiff_spec, Z.lor_spec, Z.bits_0. by destruct (Z.testbit x i), (Z.testbit y i).
Qed.
Lemma land_le x y : 0 <= y -> Z.land x y <= y.
Proof.
  intros Hy. apply (Z.ldiff_le (Z.land x y) y); [done|]. apply Z.bits_inj'. intros i Hi.
  rewrite Z.ldiff_spec, Z.land_spec, Z.bits_0. by destruct (Z.testbit x i), (Z.testbit y i).
Qed.
Lemma lor_mod x y k : 0 <= k -> Z.lor x y mod 2 ^ k = Z.lor (x mod 2 ^ k) (y mod 2 ^ k).
Proof. intros Hk. rewrite <- !Z.land_ones by done. apply Z.land_lor_distr_l. Qed.
Lemma land_mod x y k : 0 <= k -> Z.land x y mod 2 ^ k = Z.land (x mod 2 ^ k) (y mod 2 ^ k).
Proof. intros Hk. rewrite <- !Z.land_ones by done. apply Z.bits_inj'. intros i Hi. rewrite !Z.land_spec. by destruct (Z.testbit x i), (Z.testbit y i), (Z.testbit _ i). Qed.

(** The bit the mask selects. *)
Lemma both_in_spec u v k : 0 <= k -> both_in u v (Z.shiftl 1 k) = Z.testbit u k && Z.testbit v k.
Proof.
  intros Hk. unfold both_in. rewrite Z.shiftl_1_l. destruct (Z.eqb_spec (Z.land (Z.land u v) (2 ^ k)) 0) as [H0|Hn]; cbn.
  - assert (Z.testbit (Z.land (Z.land u v) (2 ^ k)) k = false) as Hb by by rewrite H0, Z.bits_0.
    by rewrite !Z.land_spec, Z.pow2_bits_true, andb_true_r in Hb.
  - destruct (Z.testbit u k && Z.testbit v k) eqn:Hb; [done|]. exfalso. apply Hn. apply Z.bits_inj'. intros i Hi.
    rewrite !Z.land_spec, Z.bits_0, Z.pow2_bits_eqb by done. destruct (Z.eqb_spec k i) as [->|]; [by rewrite Hb|by rewrite andb_false_r].
Qed.
Lemma raise_spec a k : 0 <= a < 2 ^ 64 -> 0 <= k < 64 -> Z.testbit a k = false ->
  let t := raise a (Z.shiftl 1 k) in
  0 <= t < 2 ^ 64 /\ Z.testbit t k = true /\ Z.shiftr t (k + 1) = Z.shiftr a (k + 1) /\ t mod 2 ^ k = 0.
Proof.
  intros Ha Hk Hbit t.
  assert (forall i, 0 <= i -> Z.testbit t i = (k <=? i) && (Z.testbit a i || (i =? k))) as Ht.
  { intros i Hi. unfold t, raise. rewrite Z.land_spec, Z.lor_spec, wrap_spec by lia. rewrite Z.shiftl_1_l.
    replace (- 2 ^ k) with (Z.lnot (Z.ones k)) by (rewrite Z.ones_equiv; unfold Z.lnot; lia).
    rewrite Z.lnot_spec, Z.pow2_bits_eqb, (Z.eqb_sym k i) by lia.
    destruct (Z.ltb_spec i 64) as [Hlt|Hge].
    - destruct (Z.leb_spec k i); [rewrite Z.ones_spec_high by lia; cbn; by rewrite andb_true_r|].
      rewrite Z.ones_spec_low by lia. cbn. by rewrite ?andb_false_r.
    - rewrite (testbit_high 64 a i Ha Hge). destruct (Z.eqb_spec i k); [lia|]. cbn. by rewrite ?andb_false_r. }
  split_and!.
  - unfold t, raise. apply Z.land_nonneg. right. apply wrap_range. lia.
  - apply (bit_op_range 64); [lia|unfold t, raise; apply Z.land_nonneg; right; apply wrap_range; lia|].
    intros i Hi. rewrite Ht, (testbit_high 64 a i Ha Hi) by lia. destruct (Z.eqb_spec i k); [lia|]. cbn. by rewrite ?andb_false_r.
  - rewrite Ht by lia. by rewrite Z.leb_refl, Z.eqb_refl, orb_true_r.
  - apply Z.bits_inj'. intros i Hi. rewrite !Z.shiftr_spec, Ht by lia.
    replace (k <=? i + (k + 1)) with true by lia. replace (i + (k + 1) =? k) with false by lia. by rewrite orb_false_r.
  - rewrite <- Z.land_ones by lia. apply Z.bits_inj'. intros i Hi. rewrite Z.land_spec, Ht, Z.bits_0 by done.
    destruct (Z.leb_spec k i); [rewrite Z.ones_spec_high by lia; by rewrite andb_false_r|done].
Qed.
Lemma lower_spec b k : 0 <= b < 2 ^ 64 -> 0 <= k < 64 ->
  let t := lower b (Z.shiftl 1 k) in
  0 <= t < 2 ^ 64 /\ Z.testbit t k = false /\ Z.shiftr t (k + 1) = Z.shiftr b (k + 1) /\ t mod 2 ^ k = 2 ^ k - 1.
Proof.
  intros Hb Hk t.
  assert (forall i, 0 <= i -> Z.testbit t i = (i <? k) || (Z.testbit b i && negb (i =? k))) as Ht.
  { intros i Hi. unfold t, lower. rewrite Z.lor_spec, Z.land_spec, Z.lnot_spec, Z.shiftl_1_l, Z.pow2_bits_eqb by lia.
    replace (2 ^ k - 1) with (Z.ones k) by (rewrite Z.ones_equiv; lia). rewrite (Z.eqb_sym k i), orb_comm.
    destruct (Z.ltb_spec i k); [by rewrite Z.ones_spec_low by lia|by rewrite Z.ones_spec_high by lia]. }
  assert (0 <= t) as H0.
  { unfold t, lower. rewrite Z.shiftl_1_l. apply Z.lor_nonneg. pose proof (Z.pow_pos_nonneg 2 k). split; [apply Z.land_nonneg; left; lia|lia]. }
  split_and!; [done| | | |].
  - apply (bit_op_range 64); [lia|done|]. intros i Hi. rewrite Ht, (testbit_high 64 b i Hb Hi) by lia.
    by replace (i <? k) with false by lia.
  - rewrite Ht by lia. by rewrite Z.ltb_irrefl, Z.eqb_refl, andb_false_r.
  - apply Z.bits_inj'. intros i Hi. rewrite !Z.shiftr_spec, Ht by lia.
    replace (i + (k + 1) <? k) with false by lia. replace (i + (k + 1) =? k) with false by lia. by rewrite andb_true_r.
  - replace (2 ^ k - 1) with (Z.ones k) by (rewrite Z.ones_equiv; lia). rewrite <- Z.land_ones by lia.
    apply Z.bits_inj'. intros i Hi. rewrite Z.land_spec, Ht by done.
    destruct (Z.ltb_spec i k); [by rewrite Z.ones_spec_low by lia|rewrite Z.ones_spec_high by lia; by rewrite andb_false_r].
Qed.
Lemma sub_mask b k : 0 <= k -> Z.testbit b k = true -> Z.lor (b - Z.shiftl 1 k) (Z.shiftl 1 k - 1) = lower b (Z.shiftl 1 k).
Proof.
  intros Hk Hb. unfold lower. f_equal. rewrite <- Z.ldiff_land. apply Z.sub_nocarry_ldiff. rewrite Z.shiftl_1_l.
  apply Z.bits_inj'. intros i Hi. rewrite Z.ldiff_spec, Z.pow2_bits_eqb, Z.bits_0 by done.
  destruct (Z.eqb_spec k i) as [<-|]; [by rewrite Hb|done].
Qed.

(** The bits above the mask do not change. *)
Lemma minOR_hi n : forall a b c d, (n <= 64)%nat -> 0 <= a < 2 ^ 64 -> 0 <= c < 2 ^ 64 ->
  Z.shiftr (minOR_loop n a b c d) (Z.of_nat n) = Z.shiftr (Z.lor a c) (Z.of_nat n).
Proof.
  induction n as [|n IH]; intros a b c d Hn Ha Hc; [done|]. cbn [minOR_loop].
  replace (Z.of_nat (S n)) with (Z.of_nat n + 1) by lia. rewrite !both_in_spec by lia. rewrite !Z.lnot_spec by lia.
  assert (Z.shiftr (minOR_loop n a b c d) (Z.of_nat n + 1) = Z.shiftr (Z.lor a c) (Z.of_nat n + 1)) as Hrec.
  { rewrite <- !Z.shiftr_shiftr by lia. by rewrite IH by lia. }
  rewrite !Z.shiftr_lor in *. destruct (Z.testbit a _) eqn:Hba, (Z.testbit c _) eqn:Hbc; cbn; try done.
  - destruct (_ <=? d); [|done]. rewrite Z.shiftr_lor. by rewrite (proj1 (proj2 (proj2 (raise_spec c (Z.of_nat n) Hc ltac:(lia) Hbc)))).
  - destruct (_ <=? b); [|done]. rewrite Z.shiftr_lor. by rewrite (proj1 (proj2 (proj2 (raise_spec a (Z.of_nat n) Ha ltac:(lia) Hba)))).
Qed.
(** What is known of [x] in the range from [a] with the same bits above position [k]. *)
Lemma above_cases a x k : 0 <= k -> a <= x -> Z.shiftr x (k + 1) = Z.shiftr a (k + 1) ->
  (Z.testbit a k = true -> Z.testbit x k = true) /\
  (Z.testbit x k = Z.testbit a k -> Z.shiftr x k = Z.shiftr a k).
Proof.
  intros Hk Hax Hs. pose proof (shr_mono a x k Hk Hax) as Hm. rewrite !(shr_step _ k) in Hm by done. rewrite Hs in Hm. split.
  - intros Ha. rewrite Ha in Hm. by destruct (Z.testbit x k); [|cbn in Hm; lia].
  - intros Heq. rewrite !(shr_step _ k) by done. by rewrite Hs, Heq.
Qed.
(** Short of the raised operand, the bit stays clear. *)
Lemma not_raised u x k : 0 <= u < 2 ^ 64 -> 0 <= k < 64 -> Z.testbit u k = false -> Z.shiftr x (k + 1) = Z.shiftr u (k + 1) ->
  x < raise u (Z.shiftl 1 k) -> Z.testbit x k = false.
Proof.
  intros Hu Hk Hb Hs Hlt. destruct (raise_spec u k Hu Hk Hb) as (H1 & H2 & H3 & H4).
  destruct (Z.testbit x k) eqn:Hx; [|done]. exfalso. enough (raise u (Z.shiftl 1 k) <= x) by lia.
  apply (shr_le _ _ k); [lia| |rewrite H4; pose proof (Z.mod_pos_bound x (2 ^ k)); pose proof (Z.pow_pos_nonneg 2 k); lia].
  rewrite !(shr_step _ k) by lia. by rewrite H2, H3, Hx, Hs.
Qed.
(** Raising an operand whose bit is clear where the other's is set. *)
Lemma lor_raise u u' v v' k : 0 <= k < 64 -> 0 <= u < 2 ^ 64 -> 0 <= u' -> 0 <= v <= v' ->
  Z.testbit u k = false -> Z.testbit v k = true -> Z.testbit v' k = true ->
  Z.shiftr v' (k + 1) = Z.shiftr v (k + 1) -> Z.shiftr u' (k + 1) = Z.shiftr u (k + 1) ->
  Z.lor (raise u (Z.shiftl 1 k)) v <= Z.lor u' v'.
Proof.
  intros Hk Hu Hu' Hv Hbu Hbv Hbv' Hs1 Hs2. destruct (raise_spec u k Hu Hk Hbu) as (H1 & H2 & H3 & H4).
  apply (shr_le _ _ k); [lia| |].
  - rewrite !lor_step by lia. by rewrite H2, Hbv', orb_true_r, H3, Hs1, Hs2.
  - rewrite !lor_mod by lia. rewrite H4, Z.lor_0_l.
    assert (Z.shiftr v k = Z.shiftr v' k) as Hs by (rewrite !(shr_step _ k) by lia; by rewrite Hbv, Hbv', Hs1).
    assert (v mod 2 ^ k <= v' mod 2 ^ k) by (rewrite !Z.shiftr_div_pow2 in Hs by lia; rewrite !Z.mod_eq by lia; rewrite Hs; lia).
    pose proof (Z.pow_pos_nonneg 2 k). pose proof (Z.mod_pos_bound u' (2 ^ k)). pose proof (Z.mod_pos_bound v' (2 ^ k)).
    pose proof (lor_ge (u' mod 2 ^ k) (v' mod 2 ^ k)). lia.
Qed.
Lemma minOR_le n : forall a b c d x y, (n <= 64)%nat -> 0 <= a <= x -> x <= b < 2 ^ 64 -> 0 <= c <= y -> y <= d < 2 ^ 64 ->
  Z.shiftr x (Z.of_nat n) = Z.shiftr a (Z.of_nat n) -> Z.shiftr y (Z.of_nat n) = Z.shiftr c (Z.of_nat n) ->
  minOR_loop n a b c d <= Z.lor x y.
Proof.
  induction n as [|n IH]; intros a b c d x y Hn Ha Hx Hc Hy Hsx Hsy.
  { rewrite !Z.shiftr_0_r in *. subst. cbn. lia. }
  replace (Z.of_nat (S n)) with (Z.of_nat n + 1) in * by lia. set (k := Z.of_nat n) in *.
  destruct (above_cases a x k ltac:(lia) ltac:(lia) Hsx) as [Hxa Hxs], (above_cases c y k ltac:(lia) ltac:(lia) Hsy) as [Hyc Hys].
  cbn [minOR_loop]. fold k. rewrite !both_in_spec, !Z.lnot_spec by lia.
  assert (Z.testbit x k = Z.testbit a k -> Z.testbit y k = Z.testbit c k -> minOR_loop n a b c d <= Z.lor x y) as Hrec
    by (intros; apply IH; try lia; auto).
  destruct (Z.testbit a k) eqn:Hba, (Z.testbit c k) eqn:Hbc; cbn [negb andb].
  - auto.
  - destruct (Z.leb_spec (raise c (Z.shiftl 1 k)) d) as [Hle|Hgt].
    + rewrite (Z.lor_comm a), (Z.lor_comm x). apply lor_raise; auto with lia.
    + apply Hrec; [auto|]. apply (not_raised c); auto with lia.
  - destruct (Z.leb_spec (raise a (Z.shiftl 1 k)) b) as [Hle|Hgt].
    + apply lor_raise; auto with lia.
    + apply Hrec; [|auto]. apply (not_raised a); auto with lia.
  - destruct (Z.testbit x k || Z.testbit y k) eqn:Hor; [|apply orb_false_iff in Hor as [? ?]; auto].
    apply Z.lt_le_incl, (shr_lt _ _ k); [lia|]. subst k. rewrite (minOR_hi n) by lia.
    rewrite !lor_step by lia. rewrite Hor, Hba, Hbc, Hsx, Hsy. cbn. lia.
Qed.

(** The same from above. *)
Lemma below_cases b x k : 0 <= k -> x <= b -> Z.shiftr x (k + 1) = Z.shiftr b (k + 1) ->
  (Z.testbit b k = false -> Z.testbit x k = false) /\
  (Z.testbit x k = Z.testbit b k -> Z.shiftr x k = Z.shiftr b k).
Proof.
  intros Hk Hxb Hs. pose proof (shr_mono x b k Hk Hxb) as Hm. rewrite !(shr_step _ k) in Hm by done. rewrite Hs in Hm. split.
  - intros Hb. rewrite Hb in Hm. by destruct (Z.testbit x k); [cbn in Hm; lia|].
  - intros Heq. rewrite !(shr_step _ k) by done. by rewrite Hs, Heq.
Qed.
Lemma not_lowered b x k : 0 <= b < 2 ^ 64 -> 0 <= k < 64 -> Z.testbit b k = true -> Z.shiftr x (k + 1) = Z.shiftr b (k + 1) ->
  lower b (Z.shiftl 1 k) < x -> Z.testbit x k = true.
Proof.
  intros Hb Hk Hbit Hs Hlt. destruct (lower_spec b k Hb Hk) as (H1 & H2 & H3 & H4).
  destruct (Z.testbit x k) eqn:Hx; [done|]. exfalso. enough (x <= lower b (Z.shiftl 1 k)) by lia.
  apply (shr_le _ _ k); [lia| |rewrite H4; pose proof (Z.pow_pos_nonneg 2 k); pose proof (Z.mod_pos_bound x (2 ^ k)); lia].
  rewrite !(shr_step _ k) by lia. by rewrite H2, H3, Hx, Hs.
Qed.
Lemma maxOR_hi n : forall a b c d, (n <= 64)%nat -> 0 <= b < 2 ^ 64 -> 0 <= d < 2 ^ 64 ->
  Z.shiftr (maxOR_loop n a b c d) (Z.of_nat n) = Z.shiftr (Z.lor b d) (Z.of_nat n).
Proof.
  induction n as [|n IH]; intros a b c d Hn Hb Hd; [done|]. cbn [maxOR_loop].
  replace (Z.of_nat (S n)) with (Z.of_nat n + 1) by lia. rewrite !both_in_spec by lia.
  assert (Z.shiftr (maxOR_loop n a b c d) (Z.of_nat n + 1) = Z.shiftr (Z.lor b d) (Z.of_nat n + 1)) as Hrec.
  { rewrite <- !Z.shiftr_shiftr by lia. by rewrite IH by lia. }
  destruct (Z.testbit b _) eqn:Hbb, (Z.testbit d _) eqn:Hbd; cbn; try done. rewrite !sub_mask by (done || lia).
  destruct (_ <=? _); [|destruct (_ <=? _); [|done]]; rewrite !Z.shiftr_lor in *.
  - by rewrite (proj1 (proj2 (proj2 (lower_spec b (Z.of_nat n) Hb ltac:(lia))))).
  - by rewrite (proj1 (proj2 (proj2 (lower_spec d (Z.of_nat n) Hd ltac:(lia))))).
Qed.
Lemma lor_lower b x d y k : 0 <= k < 64 -> 0 <= b < 2 ^ 64 -> 0 <= d < 2 ^ 64 -> 0 <= x -> 0 <= y -> Z.testbit d k = true ->
  Z.shiftr x (k + 1) = Z.shiftr b (k + 1) -> Z.shiftr y (k + 1) = Z.shiftr d (k + 1) ->
  Z.lor x y <= Z.lor (lower b (Z.shiftl 1 k)) d.
Proof.
  intros Hk Hb Hd Hx Hy Hbit Hs1 Hs2. destruct (lower_spec b k Hb Hk) as (H1 & H2 & H3 & H4).
  destruct (Z.testbit x k || Z.testbit y k) eqn:Hor.
  - apply (shr_le _ _ k); [lia|rewrite !lor_step by lia; by rewrite Hor, Hbit, orb_true_r, H3, Hs1, Hs2|].
    rewrite (lor_mod _ d), H4, (Z.lor_comm (2 ^ k - 1)) by lia. pose proof (Z.pow_pos_nonneg 2 k). pose proof (Z.mod_pos_bound (Z.lor x y) (2 ^ k)).
    pose proof (Z.mod_pos_bound d (2 ^ k)). pose proof (lor_ge (d mod 2 ^ k) (2 ^ k - 1)). lia.
  - apply Z.lt_le_incl, (shr_lt _ _ k); [lia|]. rewrite !lor_step by lia. rewrite Hor, Hbit, orb_true_r, H3, Hs1, Hs2. cbn. lia.
Qed.
Lemma maxOR_ge n : forall a b c d x y, (n <= 64)%nat -> 0 <= a <= x -> x <= b < 2 ^ 64 -> 0 <= c <= y -> y <= d < 2 ^ 64 ->
  Z.shiftr x (Z.of_nat n) = Z.shiftr b (Z.of_nat n) -> Z.shiftr y (Z.of_nat n) = Z.shiftr d (Z.of_nat n) ->
  Z.lor x y <= maxOR_loop n a b c d.
Proof.
  induction n as [|n IH]; intros a b c d x y Hn Ha Hx Hc Hy Hsx Hsy.
  { rewrite !Z.shiftr_0_r in *. subst. cbn. lia. }
  replace (Z.of_nat (S n)) with (Z.of_nat n + 1) in * by lia. set (k := Z.of_nat n) in *.
  destruct (below_cases b x k ltac:(lia) ltac:(lia) Hsx) as [Hxb Hxs], (below_cases d y k ltac:(lia) ltac:(lia) Hsy) as [Hyd Hys].
  cbn [maxOR_loop]. fold k. rewrite !both_in_spec by lia.
  assert (Z.testbit x k = Z.testbit b k -> Z.testbit y k = Z.testbit d k -> Z.lor x y <= maxOR_loop n a b c d) as Hrec
    by (intros; apply IH; try lia; auto).
  destruct (Z.testbit b k && Z.testbit d k) eqn:Hand.
  - apply andb_true_iff in Hand as [Hbb Hbd]. rewrite !sub_mask by (done || lia).
    destruct (Z.leb_spec a (lower b (Z.shiftl 1 k))) as [Hle|Hgt]; [apply lor_lower; auto with lia|].
    destruct (Z.leb_spec c (lower d (Z.shiftl 1 k))) as [Hle'|Hgt'].
    + rewrite (Z.lor_comm x), (Z.lor_comm b). apply lor_lower; auto with lia.
    + apply Hrec; [rewrite Hbb; apply (not_lowered b)|rewrite Hbd; apply (not_lowered d)]; auto with lia.
  - destruct (Z.testbit x k || Z.testbit y k) eqn:Hor.
    + apply Hrec; destruct (Z.testbit b k), (Z.testbit d k), (Z.testbit x k), (Z.testbit y k); cbn in *; intuition congruence.
    + destruct (Z.testbit b k || Z.testbit d k) eqn:Hor'.
      * apply Z.lt_le_incl, (shr_lt _ _ k); [lia|]. subst k. rewrite (maxOR_hi n) by lia. rewrite !lor_step by lia.
        rewrite Hor, Hor', Hsx, Hsy. cbn. lia.
      * apply Hrec; destruct (Z.testbit b k), (Z.testbit d k), (Z.testbit x k), (Z.testbit y k); cbn in *; congruence.
Qed.

Lemma minAND_hi n : forall a b c d, (n <= 64)%nat -> 0 <= a < 2 ^ 64 -> 0 <= c < 2 ^ 64 ->
  Z.shiftr (minAND_loop n a b c d) (Z.of_nat n) = Z.shiftr (Z.land a c) (Z.of_nat n).
Proof.
  induction n as [|n IH]; intros a b c d Hn Ha Hc; [done|]. cbn [minAND_loop].
  replace (Z.of_nat (S n)) with (Z.of_nat n + 1) by lia. rewrite !both_in_spec, !Z.lnot_spec by lia.
  assert (Z.shiftr (minAND_loop n a b c d) (Z.of_nat n + 1) = Z.shiftr (Z.land a c) (Z.of_nat n + 1)) as Hrec.
  { rewrite <- !Z.shiftr_shiftr by lia. by rewrite IH by lia. }
  destruct (Z.testbit a _) eqn:Hba, (Z.testbit c _) eqn:Hbc; cbn; try done.
  destruct (_ <=? b); [|destruct (_ <=? d); [|done]]; rewrite !Z.shiftr_land in *.
  - by rewrite (proj1 (proj2 (proj2 (raise_spec a (Z.of_nat n) Ha ltac:(lia) Hba)))).
  - by rewrite (proj1 (proj2 (proj2 (raise_spec c (Z.of_nat n) Hc ltac:(lia) Hbc)))).
Qed.
Lemma land_raise u u' v v' k : 0 <= k < 64 -> 0 <= u < 2 ^ 64 -> 0 <= u' -> 0 <= v' -> Z.testbit u k = false -> Z.testbit v k = false ->
  Z.shiftr v' (k + 1) = Z.shiftr v (k + 1) -> Z.shiftr u' (k + 1) = Z.shiftr u (k + 1) ->
  Z.land (raise u (Z.shiftl 1 k)) v <= Z.land u' v'.
Proof.
  intros Hk Hu Hu' Hv' Hbu Hbv Hs1 Hs2. destruct (raise_spec u k Hu Hk Hbu) as (H1 & H2 & H3 & H4).
  destruct (Z.testbit u' k && Z.testbit v' k) eqn:Hand.
  - apply Z.lt_le_incl, (shr_lt _ _ k); [lia|]. rewrite !land_step by lia. rewrite Hand, Hbv, andb_false_r, H3, Hs1, Hs2. cbn. lia.
  - apply (shr_le _ _ k); [lia|rewrite !land_step by lia; by rewrite Hand, Hbv, andb_false_r, H3, Hs1, Hs2|].
    rewrite (land_mod _ v), H4, Z.land_0_l by lia. apply Z.mod_pos_bound. lia.
Qed.
Lemma minAND_le n : forall a b c d x y, (n <= 64)%nat -> 0 <= a <= x -> x <= b < 2 ^ 64 -> 0 <= c <= y -> y <= d < 2 ^ 64 ->
  Z.shiftr x (Z.of_nat n) = Z.shiftr a (Z.of_nat n) -> Z.shiftr y (Z.of_nat n) = Z.shiftr c (Z.of_nat n) ->
  minAND_loop n a b c d <= Z.land x y.
Proof.
  induction n as [|n IH]; intros a b c d x y Hn Ha Hx Hc Hy Hsx Hsy.
  { rewrite !Z.shiftr_0_r in *. subst. cbn. lia. }
  replace (Z.of_nat (S n)) with (Z.of_nat n + 1) in * by lia. set (k := Z.of_nat n) in *.
  destruct (above_cases a x k ltac:(lia) ltac:(lia) Hsx) as [Hxa Hxs], (above_cases c y k ltac:(lia) ltac:(lia) Hsy) as [Hyc Hys].
  cbn [minAND_loop]. fold k. rewrite !both_in_spec, !Z.lnot_spec by lia.
  assert (Z.testbit x k = Z.testbit a k -> Z.testbit y k = Z.testbit c k -> minAND_loop n a b c d <= Z.land x y) as Hrec
    by (intros; apply IH; try lia; auto).
  destruct (negb (Z.testbit a k) && negb (Z.testbit c k)) eqn:Hnor.
  - apply andb_true_iff in Hnor as [Hba%negb_true_iff Hbc%negb_true_iff].
    destruct (Z.leb_spec (raise a (Z.shiftl 1 k)) b) as [Hle|Hgt]; [apply land_raise; auto with lia|].
    destruct (Z.leb_spec (raise c (Z.shiftl 1 k)) d) as [Hle'|Hgt'].
    + rewrite (Z.land_comm a), (Z.land_comm x). apply land_raise; auto with lia.
    + apply Hrec; [rewrite Hba; apply (not_raised a)|rewrite Hbc; apply (not_raised c)]; auto with lia.
  - destruct (Z.testbit x k && Z.testbit y k) eqn:Hxy, (Z.testbit a k && Z.testbit c k) eqn:Hac.
    + apply Hrec; destruct (Z.testbit a k), (Z.testbit c k), (Z.testbit x k), (Z.testbit y k); cbn in *; congruence.
    + apply Z.lt_le_incl, (shr_lt _ _ k); [lia|]. subst k. rewrite (minAND_hi n) by lia. rewrite !land_step by lia.
      rewrite Hxy, Hac, Hsx, Hsy. cbn. lia.
    + apply Hrec; destruct (Z.testbit a k), (Z.testbit c k), (Z.testbit x k), (Z.testbit y k); cbn in *; intuition congruence.
    + apply Hrec; destruct (Z.testbit a k), (Z.testbit c k), (Z.testbit x k), (Z.testbit y k); cbn in *; intuition congruence.
Qed.
Lemma maxAND_hi n : forall a b c d, (n <= 64)%nat -> 0 <= b < 2 ^ 64 -> 0 <= d < 2 ^ 64 ->
  Z.shiftr (maxAND_loop n a b c d) (Z.of_nat n) = Z.shiftr (Z.land b d) (Z.of_nat n).
Proof.
  induction n as [|n IH]; intros a b c d Hn Hb Hd; [done|]. cbn [maxAND_loop].
  replace (Z.of_nat (S n)) with (Z.of_nat n + 1) by lia. rewrite !both_in_spec, !Z.lnot_spec by lia.
  assert (Z.shiftr (maxAND_loop n a b c d) (Z.of_nat n + 1) = Z.shiftr (Z.land b d) (Z.of_nat n + 1)) as Hrec.
  { rewrite <- !Z.shiftr_shiftr by lia. by rewrite IH by lia. }
  destruct (Z.testbit b _) eqn:Hbb, (Z.testbit d _) eqn:Hbd; cbn; try done; (destruct (_ <=? _); [|done]); rewrite !Z.shiftr_land in *.
  - by rewrite (proj1 (proj2 (proj2 (lower_spec b (Z.of_nat n) Hb ltac:(lia))))).
  - by rewrite (proj1 (proj2 (proj2 (lower_spec d (Z.of_nat n) Hd ltac:(lia))))).
Qed.
Lemma land_lower b x d y k : 0 <= k < 64 -> 0 <= b < 2 ^ 64 -> 0 <= x -> 0 <= y <= d -> Z.testbit d k = false -> Z.testbit y k = false ->
  Z.shiftr x (k + 1) = Z.shiftr b (k + 1) -> Z.shiftr y (k + 1) = Z.shiftr d (k + 1) ->
  Z.land x y <= Z.land (lower b (Z.shiftl 1 k)) d.
Proof.
  intros Hk Hb Hx Hy Hbd Hby Hs1 Hs2. destruct (lower_spec b k Hb Hk) as (H1 & H2 & H3 & H4).
  apply (shr_le _ _ k); [lia|rewrite !land_step by lia; by rewrite Hbd, Hby, !andb_false_r, H3, Hs1, Hs2|].
  rewrite !land_mod by lia. rewrite H4. replace (2 ^ k - 1) with (Z.ones k) by (rewrite Z.ones_equiv; lia).
  rewrite (Z.land_comm (Z.ones k)), Z.land_ones, Z.mod_mod by lia.
  assert (Z.shiftr y k = Z.shiftr d k) as Hs by (rewrite !(shr_step _ k) by lia; by rewrite Hbd, Hby, Hs2).
  assert (y mod 2 ^ k <= d mod 2 ^ k) by (rewrite !Z.shiftr_div_pow2 in Hs by lia; rewrite !Z.mod_eq by lia; rewrite Hs; lia).
  pose proof (Z.pow_pos_nonneg 2 k). pose proof (Z.mod_pos_bound y (2 ^ k)). pose proof (land_le (x mod 2 ^ k) (y mod 2 ^ k)). lia.
Qed.
Lemma maxAND_ge n : forall a b c d x y, (n <= 64)%nat -> 0 <= a <= x -> x <= b < 2 ^ 64 -> 0 <= c <= y -> y <= d < 2 ^ 64 ->
  Z.shiftr x (Z.of_nat n) = Z.shiftr b (Z.of_nat n) -> Z.shiftr y (Z.of_nat n) = Z.shiftr d (Z.of_nat n) ->
  Z.land x y <= maxAND_loop n a b c d.
Proof.
  induction n as [|n IH]; intros a b c d x y Hn Ha Hx Hc Hy Hsx Hsy.
  { rewrite !Z.shiftr_0_r in *. subst. cbn. lia. }
  replace (Z.of_nat (S n)) with (Z.of_nat n + 1) in * by lia. set (k := Z.of_nat n) in *.
  destruct (below_cases b x k ltac:(lia) ltac:(lia) Hsx) as [Hxb Hxs], (below_cases d y k ltac:(lia) ltac:(lia) Hsy) as [Hyd Hys].
  cbn [maxAND_loop]. fold k. rewrite !both_in_spec, !Z.lnot_spec by lia.
  assert (Z.testbit x k = Z.testbit b k -> Z.testbit y k = Z.testbit d k -> Z.land x y <= maxAND_loop n a b c d) as Hrec
    by (intros; apply IH; try lia; auto).
  destruct (Z.testbit b k) eqn:Hbb, (Z.testbit d k) eqn:Hbd; cbn [negb andb].
  - destruct (Z.testbit x k && Z.testbit y k) eqn:Hxy; [apply andb_true_iff in Hxy as [? ?]; auto|].
    apply Z.lt_le_incl, (shr_lt _ _ k); [lia|]. subst k. rewrite (maxAND_hi n) by lia. rewrite !land_step by lia.
    rewrite Hxy, Hbb, Hbd, Hsx, Hsy. cbn. lia.
  - destruct (Z.leb_spec a (lower b (Z.shiftl 1 k))) as [Hle|Hgt]; [apply land_lower; auto with lia|].
    apply Hrec; [apply (not_lowered b); auto with lia|auto].
  - destruct (Z.leb_spec c (lower d (Z.shiftl 1 k))) as [Hle|Hgt].
    + rewrite (Z.land_comm x), (Z.land_comm b). apply land_lower; auto with lia.
    + apply Hrec; [auto|apply (not_lowered d); auto with lia].
  - auto.
Qed.

(** ** They are reached *)

Lemma raise_ge a k : 0 <= a < 2 ^ 64 -> 0 <= k < 64 -> Z.testbit a k = false -> a <= raise a (Z.shiftl 1 k).
Proof.
  intros Ha Hk Hb. destruct (raise_spec a k Ha Hk Hb) as (H1 & H2 & H3 & _).
  apply Z.lt_le_incl, (shr_lt _ _ k); [lia|]. rewrite !(shr_step _ k) by lia. rewrite H2, H3, Hb. cbn. lia.
Qed.
Lemma lower_le b k : 0 <= b < 2 ^ 64 -> 0 <= k < 64 -> Z.testbit b k = true -> lower b (Z.shiftl 1 k) <= b.
Proof.
  intros Hb Hk Hbit. destruct (lower_spec b k Hb Hk) as (H1 & H2 & H3 & _).
  apply Z.lt_le_incl, (shr_lt _ _ k); [lia|]. rewrite !(shr_step _ k) by lia. rewrite H2, H3, Hbit. cbn. lia.
Qed.
(** [z] is the operation's value on some operands of the intervals. *)
Definition reached (op : Z -> Z -> Z) (a b c d z : Z) : Prop := exists x y, a <= x <= b /\ c <= y <= d /\ z = op x y.
Lemma reached_intro (op : Z -> Z -> Z) a b c d x y : a <= x <= b -> c <= y <= d -> reached op a b c d (op x y).
Proof. intros Hx Hy. by exists x, y. Qed.

Section reached.
Context (a b c d : Z) (Hab : 0 <= a <= b) (Hb : b < 2 ^ 64) (Hcd : 0 <= c <= d) (Hd : d < 2 ^ 64).
Ltac scan_step IH n :=
  cbn [minOR_loop maxOR_loop minAND_loop maxAND_loop]; replace (Z.of_nat (S n)) with (Z.of_nat n + 1) by lia;
  rewrite !both_in_spec, ?Z.lnot_spec by lia; specialize (IH ltac:(lia)).
Lemma minOR_reached n : (n <= 64)%nat -> reached Z.lor a b c d (minOR_loop n a b c d).
Proof.
  induction n as [|n IH]; intros Hn; [cbn; apply reached_intro; lia|]. scan_step IH n.
  destruct (Z.testbit a _) eqn:Hba, (Z.testbit c _) eqn:Hbc; cbn; try done.
  - destruct (Z.leb_spec (raise c (Z.shiftl 1 (Z.of_nat n))) d); [|done]. pose proof (raise_ge c (Z.of_nat n) ltac:(lia) ltac:(lia) ltac:(done)). apply reached_intro; lia.
  - destruct (Z.leb_spec (raise a (Z.shiftl 1 (Z.of_nat n))) b); [|done]. pose proof (raise_ge a (Z.of_nat n) ltac:(lia) ltac:(lia) ltac:(done)). apply reached_intro; lia.
Qed.
Lemma maxOR_reached n : (n <= 64)%nat -> reached Z.lor a b c d (maxOR_loop n a b c d).
Proof.
  induction n as [|n IH]; intros Hn; [cbn; apply reached_intro; lia|]. scan_step IH n.
  destruct (Z.testbit b _) eqn:Hbb, (Z.testbit d _) eqn:Hbd; cbn; try done. rewrite !sub_mask by (done || lia).
  destruct (Z.leb_spec a (lower b (Z.shiftl 1 (Z.of_nat n)))).
  { pose proof (lower_le b (Z.of_nat n) ltac:(lia) ltac:(lia) ltac:(done)). apply reached_intro; lia. }
  destruct (Z.leb_spec c (lower d (Z.shiftl 1 (Z.of_nat n)))); [|done].
  pose proof (lower_le d (Z.of_nat n) ltac:(lia) ltac:(lia) ltac:(done)). apply reached_intro; lia.
Qed.
Lemma minAND_reached n : (n <= 64)%nat -> reached Z.land a b c d (minAND_loop n a b c d).
Proof.
  induction n as [|n IH]; intros Hn; [cbn; apply reached_intro; lia|]. scan_step IH n.
  destruct (Z.testbit a _) eqn:Hba, (Z.testbit c _) eqn:Hbc; cbn; try done.
  destruct (Z.leb_spec (raise a (Z.shiftl 1 (Z.of_nat n))) b).
  { pose proof (raise_ge a (Z.of_nat n) ltac:(lia) ltac:(lia) ltac:(done)). apply reached_intro; lia. }
  destruct (Z.leb_spec (raise c (Z.shiftl 1 (Z.of_nat n))) d); [|done].
  pose proof (raise_ge c (Z.of_nat n) ltac:(lia) ltac:(lia) ltac:(done)). apply reached_intro; lia.
Qed.
Lemma maxAND_reached n : (n <= 64)%nat -> reached Z.land a b c d (maxAND_loop n a b c d).
Proof.
  induction n as [|n IH]; intros Hn; [cbn; apply reached_intro; lia|]. scan_step IH n.
  destruct (Z.testbit b _) eqn:Hbb, (Z.testbit d _) eqn:Hbd; cbn; try done.
  - destruct (Z.leb_spec a (lower b (Z.shiftl 1 (Z.of_nat n)))); [|done]. pose proof (lower_le b (Z.of_nat n) ltac:(lia) ltac:(lia) ltac:(done)). apply reached_intro; lia.
  - destruct (Z.leb_spec c (lower d (Z.shiftl 1 (Z.of_nat n)))); [|done]. pose proof (lower_le d (Z.of_nat n) ltac:(lia) ltac:(lia) ltac:(done)). apply reached_intro; lia.
Qed.
End reached.

Definition least (op : Z -> Z -> Z) (a b c d z : Z) : Prop :=
  reached op a b c d z /\ forall x y, a <= x <= b -> c <= y <= d -> z <= op x y.
Definition greatest (op : Z -> Z -> Z) (a b c d z : Z) : Prop :=
  reached op a b c d z /\ forall x y, a <= x <= b -> c <= y <= d -> op x y <= z.
Lemma shr_64 x : 0 <= x < 2 ^ 64 -> Z.shiftr x 64 = 0.
Proof. intros Hx. rewrite Z.shiftr_div_pow2 by lia. by apply Z.div_small. Qed.

Lemma scans_exact a b c d : 0 <= a <= b -> b < 2 ^ 64 -> 0 <= c <= d -> d < 2 ^ 64 ->
  least Z.lor a b c d (minOR a b c d) /\ greatest Z.lor a b c d (maxOR a b c d) /\
  least Z.land a b c d (minAND a b c d) /\ greatest Z.land a b c d (maxAND a b c d).
Proof.
  intros Hab Hb Hcd Hd.
  split_and!; (split; [first [by apply minOR_reached|by apply maxOR_reached|by apply minAND_reached|by apply maxAND_reached]|];
    intros x y Hx Hy); [apply minOR_le|apply maxOR_ge|apply minAND_le|apply maxAND_ge];
    first [lia|rewrite !shr_64 by lia; done].
Qed.
(** C14 The scans are exact: on intervals of 64-bit words, minOR and maxOR return the least and the greatest
    disjunction, minAND and maxAND the least and the greatest conjunction, of a word of the one and a
    word of the other. *)
Theorem bounds_exact a b c d : 0 <= a <= b -> b < 2 ^ 64 -> 0 <= c <= d -> d < 2 ^ 64 ->
  least Z.lor a b c d (minOR a b c d) /\ greatest Z.lor a b c d (maxOR a b c d) /\
  least Z.land a b c d (minAND a b c d) /\ greatest Z.land a b c d (maxAND a b c d).
Proof. apply scans_exact. Qed.
Lemma bounds_exact_witness :
  minOR 5 9 3 6 = 5 /\ (forall x y, 5 <= x <= 9 -> 3 <= y <= 6 -> 5 <= Z.lor x y).
Proof.
  split; [vm_compute; reflexivity|]. intros x y Hx Hy.
  refine (proj2 (proj1 (bounds_exact 5 9 3 6 _ _ _ _)) x y Hx Hy); lia.
Defined.
