(* ===== verification/KRange.v ===== *)
(** Ranges of values (klee/lib/Solver/FastCexSolver.cpp: ValueRange; klee/Expr/ExprRangeEvaluator.h):
    intervals of 64-bit integers, their operations, and the interval of an expression.  The interval of
    an expression contains its values, unless it concatenates to more than a byte on the right. *)
From S2P Require Import Prelude Bits APInt KExpr KBuilder KBuilderSound KType RangeBounds.

(** * Machine integers (klee/ADT/Bits.h, klee/Support/IntEvaluation.h) *)

Definition maxValueOfNBits (N : Z) : option Z :=
  if N <=? 64 then Some (if N =? 0 then 0 else Z.shiftr (2 ^ 64 - 1) (64 - N)) else None.
Definition withoutRightmostBit (x : Z) : Z := Z.land x (u64 (x - 1)).
Definition isPowerOfTwo (x : Z) : bool := if x =? 0 then false else withoutRightmostBit x =? 0.
(** [ints::sext], for input widths up to 64. *)
Definition ints_sext (l outWidth inWidth : Z) : Z :=
  wrap outWidth (Z.shiftr (swrap 64 (Z.shiftl l (64 - inWidth))) (64 - inWidth)).

(** * ValueRange *)

Record ValueRange := VR { m_min : Z; m_max : Z }.
#[export] Instance ValueRange_eq_dec : EqDecision ValueRange.
Proof. solve_decision. Defined.
Definition VR_new : ValueRange := VR 1 0.
Definition VR_value (v : Z) : ValueRange := VR v v.
(** [getLimitedValue] of the constant. *)
Definition VR_constant (ce : apint) : ValueRange := VR_value (Z.min (ap_val ce) (2 ^ 64 - 1)).

Definition isEmpty (r : ValueRange) : bool := m_max r <? m_min r.
Definition isFixed (r : ValueRange) : bool := m_min r =? m_max r.
Definition set_intersection (r b : ValueRange) : ValueRange := VR (Z.max (m_min r) (m_min b)) (Z.min (m_max r) (m_max b)).
Definition set_union (r b : ValueRange) : ValueRange := VR (Z.min (m_min r) (m_min b)) (Z.max (m_max r) (m_max b)).
Definition set_difference (r b : ValueRange) : ValueRange :=
  if isEmpty b || (m_max r <? m_min b) || (m_max b <? m_min r) then r
  else if (m_min b <=? m_min r) && (m_max r <=? m_max b) then VR 1 0
  else if m_min b <=? m_min r then VR (u64 (m_max b + 1)) (m_max r)
  else if m_max r <=? m_max b then VR (m_min r) (u64 (m_min b - 1))
  else VR (m_min r) (u64 (m_min b - 1)).
Definition intersects (r b : ValueRange) : bool := negb (isEmpty (set_intersection r b)).
Definition mustEqual_value (r : ValueRange) (b : Z) : bool := (m_min r =? m_max r) && (m_min r =? b).
Definition mustEqual (r b : ValueRange) : bool := isFixed r && isFixed b && (m_min r =? m_min b).
Definition mayEqual (r b : ValueRange) : bool := intersects r b.

(** The operations that assert: [None] is a failed assertion. *)
Definition range_assert (b : bool) : option unit := if b then Some tt else None.
Definition range_min (r : ValueRange) : option Z := _ ← range_assert (negb (isEmpty r)); Some (m_min r).
Definition range_max (r : ValueRange) : option Z := _ ← range_assert (negb (isEmpty r)); Some (m_max r).
Definition binaryAnd (r b : ValueRange) : option ValueRange :=
  _ ← range_assert (negb (isEmpty r) && negb (isEmpty b));
  Some (if isFixed r && isFixed b then VR_value (Z.land (m_min r) (m_min b))
        else VR (minAND (m_min r) (m_max r) (m_min b) (m_max b)) (maxAND (m_min r) (m_max r) (m_min b) (m_max b))).
Definition binaryOr (r b : ValueRange) : option ValueRange :=
  _ ← range_assert (negb (isEmpty r) && negb (isEmpty b));
  Some (if isFixed r && isFixed b then VR_value (Z.lor (m_min r) (m_min b))
        else VR (minOR (m_min r) (m_max r) (m_min b) (m_max b)) (maxOR (m_min r) (m_max r) (m_min b) (m_max b))).
(** The loop of [binaryXor] clears a bit of a 64-bit word at a time; it does not end at 0. *)
Fixpoint highest_bit (fuel : nat) (t : Z) : option Z :=
  if isPowerOfTwo t then Some t
  else match fuel with O => None | S fuel => highest_bit fuel (withoutRightmostBit t) end.
Definition binaryXor (r b : ValueRange) : option ValueRange :=
  if isFixed r && isFixed b then Some (VR_value (Z.lxor (m_min r) (m_min b)))
  else t ← highest_bit 64 (Z.lor (m_max r) (m_max b)); Some (VR 0 (u64 (u64 (Z.shiftl t 1) - 1))).
(** Shifts by less than 64. *)
Definition binaryShiftLeft (r : ValueRange) (bits : Z) : option ValueRange :=
  if bits <? 64 then Some (VR (u64 (Z.shiftl (m_min r) bits)) (u64 (Z.shiftl (m_max r) bits))) else None.
Definition binaryShiftRight (r : ValueRange) (bits : Z) : option ValueRange :=
  if bits <? 64 then Some (VR (Z.shiftr (m_min r) bits) (Z.shiftr (m_max r) bits)) else None.
Definition range_concat (r b : ValueRange) (bits : Z) : option ValueRange := s ← binaryShiftLeft r bits; binaryOr s b.
Definition range_extract (r : ValueRange) (lowBit maxBit : Z) : option ValueRange :=
  s ← binaryShiftRight r lowBit; m ← maxValueOfNBits (maxBit - lowBit); binaryAnd s (VR_value m).
(** [add], [sub], [mul], [udiv], [sdiv], [urem], [srem]: all values of the width. *)
Definition range_arith (width : Z) : option ValueRange := m ← maxValueOfNBits width; Some (VR 0 m).
(** The bounds as signed integers; the width is less than 64. *)
Definition fits_bits (r : ValueRange) (bits : Z) : option unit :=
  range_assert ((bits <? 64) && (Z.shiftr (m_min r) bits =? 0) && (Z.shiftr (m_max r) bits =? 0)).
Definition minSigned (r : ValueRange) (bits : Z) : option Z :=
  _ ← fits_bits r bits;
  let smallest := Z.shiftl 1 (bits - 1) in
  Some (swrap 64 (if smallest <=? m_max r then ints_sext smallest 64 bits else m_min r)).
Definition maxSigned (r : ValueRange) (bits : Z) : option Z :=
  _ ← fits_bits r bits;
  let smallest := Z.shiftl 1 (bits - 1) in
  Some (swrap 64 (if (m_min r <? smallest) && (smallest <=? m_max r) then smallest - 1 else ints_sext (m_max r) 64 bits)).

(** * The range of an expression *)

(** The last return of [evaluate]: all values of the width. *)
Definition full_range (e : expr) : option ValueRange := m ← maxValueOfNBits (getWidth e); Some (VR 0 m).
(** A comparison whose outcome the bounds may tell. *)
Definition decided (yes no : bool) (e : expr) : option ValueRange :=
  if yes then Some (VR_value 1) else if no then Some (VR_value 0) else full_range e.
Definition evaluate_cmp (k : Kind.cmp) (e : expr) (width : Z) (left right : ValueRange) : option ValueRange :=
  match k with
  | Kind.Eq => decided (mustEqual left right) (negb (mayEqual left right)) e
  | Kind.Ult =>
      lmax ← range_max left; rmin ← range_min right; lmin ← range_min left; rmax ← range_max right;
      decided (lmax <? rmin) (rmax <=? lmin) e
  | Kind.Ule =>
      lmax ← range_max left; rmin ← range_min right; lmin ← range_min left; rmax ← range_max right;
      decided (lmax <=? rmin) (rmax <? lmin) e
  | Kind.Slt =>
      lmax ← maxSigned left width; rmin ← minSigned right width; lmin ← minSigned left width; rmax ← maxSigned right width;
      decided (lmax <? rmin) (rmax <=? lmin) e
  | Kind.Sle =>
      lmax ← maxSigned left width; rmin ← minSigned right width; lmin ← minSigned left width; rmax ← maxSigned right width;
      decided (lmax <=? rmin) (rmax <? lmin) e
  | Kind.Ne | Kind.Ugt | Kind.Uge | Kind.Sgt | Kind.Sge => None
  end.
(** [getInitialReadRange] of an array that is not constant. *)
Definition getInitialReadRange (a : Array) (index : ValueRange) : ValueRange := VR 0 255.
Fixpoint evaluate_range (e : expr) : option ValueRange :=
  match e with
  | EConstant v => Some (VR_constant v)
  | ERead a i => index ← evaluate_range i; Some (set_union VR_new (getInitialReadRange a index))
  | ESelect c t f =>
      cond ← evaluate_range c;
      if mustEqual_value cond 1 then evaluate_range t
      else if mustEqual_value cond 0 then evaluate_range f
      else t ← evaluate_range t; f ← evaluate_range f; Some (set_union t f)
  | EConcat l r =>
      l ← evaluate_range l; res ← range_concat (VR_value 0) l 8;
      r ← evaluate_range r; range_concat res r 8
  | EArith k l r =>
      match k with
      | Kind.Add | Kind.Sub | Kind.Mul | Kind.UDiv | Kind.SDiv | Kind.URem | Kind.SRem =>
          _ ← evaluate_range l; _ ← evaluate_range r; range_arith (getWidth l)
      | Kind.And => a ← evaluate_range l; b ← evaluate_range r; binaryAnd a b
      | Kind.Or => a ← evaluate_range l; b ← evaluate_range r; binaryOr a b
      | Kind.Xor => a ← evaluate_range l; b ← evaluate_range r; binaryXor a b
      | Kind.Shl | Kind.LShr | Kind.AShr => full_range e
      end
  | ECmp k l r => a ← evaluate_range l; b ← evaluate_range r; evaluate_cmp k e (getWidth l) a b
  | EExtract _ _ _ | EZExt _ _ | ESExt _ _ | ENot _ => full_range e
  end.

(** * The operations are right *)

(** A range of integers of [w] bits, and what is in it. *)
Definition range_ok (w : Z) (r : ValueRange) : Prop := 0 <= m_min r <= m_max r /\ m_max r < 2 ^ w.
Definition in_range (x : Z) (r : ValueRange) : Prop := m_min r <= x <= m_max r.
#[local] Notation "x ∈ᵣ r" := (in_range x r) (at level 70).

Lemma pow_le_64 w : w <= 64 -> 2 ^ w <= 2 ^ 64.
Proof. intros Hw. destruct (Z.neg_nonneg_cases w); [rewrite Z.pow_neg_r by lia; lia|]. apply Z.pow_le_mono_r; lia. Qed.
Lemma range_ok_not_empty w r : range_ok w r -> isEmpty r = false.
Proof. intros [? _]. unfold isEmpty. lia. Qed.
Lemma range_ok_bound w x r : range_ok w r -> x ∈ᵣ r -> 0 <= x < 2 ^ w.
Proof. unfold range_ok, in_range. lia. Qed.
Lemma range_ok_weaken w w' r : range_ok w r -> 0 <= w <= w' -> range_ok w' r.
Proof. intros [Hm Hx] Hw. split; [done|]. pose proof (Z.pow_le_mono_r 2 w w'). lia. Qed.
Lemma fixed_in x r : isFixed r = true -> x ∈ᵣ r -> x = m_min r.
Proof. unfold isFixed, in_range. lia. Qed.
Lemma range_min_some w r : range_ok w r -> range_min r = Some (m_min r).
Proof. intros Hr. unfold range_min. by rewrite (range_ok_not_empty w r Hr). Qed.
Lemma range_max_some w r : range_ok w r -> range_max r = Some (m_max r).
Proof. intros Hr. unfold range_max. by rewrite (range_ok_not_empty w r Hr). Qed.

Lemma maxValueOfNBits_spec N : 0 <= N <= 64 -> maxValueOfNBits N = Some (2 ^ N - 1).
Proof.
  intros HN. unfold maxValueOfNBits. rewrite (proj2 (Z.leb_le N 64)) by lia. f_equal.
  destruct (Z.eqb_spec N 0) as [->|]; [done|]. replace (2 ^ 64 - 1) with (Z.ones 64) by done.
  rewrite Z.shiftr_div_pow2, Z.ones_div_pow2, Z.ones_equiv by lia. replace (64 - (64 - N)) with N by lia. lia.
Qed.
Lemma full_range_spec e w : type_of e = Some w -> w <= 64 ->
  exists r, full_range e = Some r /\ range_ok w r /\ forall σ v, eval σ e = Some v -> ap_val v ∈ᵣ r.
Proof.
  intros Hw Hle. destruct (type_width e w Hw) as [Hg Hpos]. unfold full_range. rewrite Hg, maxValueOfNBits_spec by lia.
  eexists. split; [done|]. pose proof (Z.pow_pos_nonneg 2 w). split; [split; cbn; lia|].
  intros σ v Hv. pose proof (eval_type _ _ _ Hv) as Ht. pose proof (wf_range v (eval_wf _ _ _ Hv)).
  assert (ap_width v = w) as <- by congruence. unfold in_range. cbn. lia.
Qed.

Definition range_ok_op (w : Z) (op : Z -> Z -> Z) (r b : ValueRange) (o : option ValueRange) : Prop :=
  exists s, o = Some s /\ range_ok w s /\ forall x y, x ∈ᵣ r -> y ∈ᵣ b -> op x y ∈ᵣ s.
(** An operation with exact bounds. *)
Lemma exact_range w op r b (fixed : bool) lo hi : range_ok w r -> range_ok w b -> fixed = isFixed r && isFixed b ->
  (forall x y, 0 <= x < 2 ^ w -> 0 <= y < 2 ^ w -> 0 <= op x y < 2 ^ w) ->
  least op (m_min r) (m_max r) (m_min b) (m_max b) lo -> greatest op (m_min r) (m_max r) (m_min b) (m_max b) hi ->
  range_ok_op w op r b (Some (if fixed then VR_value (op (m_min r) (m_min b)) else VR lo hi)).
Proof.
  intros Hr Hb -> Hop [(xl & yl & Hxl & Hyl & ->) Hlo] [(xh & yh & Hxh & Hyh & ->) Hhi]. eexists. split; [done|].
  pose proof Hr as [Hr1 Hr2]. pose proof Hb as [Hb1 Hb2]. pose proof (Hop xl yl). pose proof (Hop xh yh).
  destruct (isFixed r && isFixed b) eqn:Hf.
  - apply andb_true_iff in Hf as [Hfr Hfb]. pose proof (Hop (m_min r) (m_min b)). split; [split; cbn; lia|].
    intros x y Hx Hy. rewrite (fixed_in x r Hfr Hx), (fixed_in y b Hfb Hy). unfold in_range. cbn. lia.
  - pose proof (Hlo xh yh Hxh Hyh). split; [split; cbn; lia|]. intros x y Hx Hy.
    pose proof (Hlo x y Hx Hy). pose proof (Hhi x y Hx Hy). unfold in_range. cbn. lia.
Qed.
Lemma bit_op_bound w op x y : 0 < w -> op = Z.land \/ op = Z.lor \/ op = Z.lxor ->
  0 <= x < 2 ^ w -> 0 <= y < 2 ^ w -> 0 <= op x y < 2 ^ w.
Proof.
  intros Hw Hop Hx Hy. assert (0 <= op x y) as H0.
  { destruct Hop as [->|[->| ->]]; [apply Z.land_nonneg|apply Z.lor_nonneg|apply Z.lxor_nonneg]; lia. }
  apply (bit_op_range w); [done..|]. intros i Hi. pose proof (testbit_high w x i Hx Hi) as Hbx. pose proof (testbit_high w y i Hy Hi) as Hby.
  destruct Hop as [->|[->| ->]]; rewrite ?Z.land_spec, ?Z.lor_spec, ?Z.lxor_spec, Hbx, Hby; done.
Qed.
Lemma land_bound w x y : 0 < w -> 0 <= x < 2 ^ w -> 0 <= y < 2 ^ w -> 0 <= Z.land x y < 2 ^ w.
Proof. intros Hw. apply bit_op_bound; [done|by left]. Qed.
Lemma lor_bound w x y : 0 < w -> 0 <= x < 2 ^ w -> 0 <= y < 2 ^ w -> 0 <= Z.lor x y < 2 ^ w.
Proof. intros Hw. apply bit_op_bound; [done|by right; left]. Qed.
Lemma lxor_bound w x y : 0 < w -> 0 <= x < 2 ^ w -> 0 <= y < 2 ^ w -> 0 <= Z.lxor x y < 2 ^ w.
Proof. intros Hw. apply bit_op_bound; [done|by right; right]. Qed.

Section bitops.
Context (w : Z) (Hw : 0 < w <= 64) (r b : ValueRange) (Hr : range_ok w r) (Hb : range_ok w b).
Lemma operands_exact :
  least Z.lor (m_min r) (m_max r) (m_min b) (m_max b) (minOR (m_min r) (m_max r) (m_min b) (m_max b)) /\
  greatest Z.lor (m_min r) (m_max r) (m_min b) (m_max b) (maxOR (m_min r) (m_max r) (m_min b) (m_max b)) /\
  least Z.land (m_min r) (m_max r) (m_min b) (m_max b) (minAND (m_min r) (m_max r) (m_min b) (m_max b)) /\
  greatest Z.land (m_min r) (m_max r) (m_min b) (m_max b) (maxAND (m_min r) (m_max r) (m_min b) (m_max b)).
Proof. destruct Hr, Hb. pose proof (pow_le_64 w). apply scans_exact; lia. Qed.
Lemma operands_asserted {A} (o : option A) : (_ ← range_assert (negb (isEmpty r) && negb (isEmpty b)); o) = o.
Proof. by rewrite (range_ok_not_empty w r Hr), (range_ok_not_empty w b Hb). Qed.
Lemma binaryAnd_spec : range_ok_op w Z.land r b (binaryAnd r b).
Proof.
  destruct operands_exact as (_ & _ & Hlo & Hhi). unfold binaryAnd. rewrite operands_asserted.
  apply exact_range; [done..| |exact Hlo|exact Hhi]. intros x y. apply land_bound. lia.
Qed.
Lemma binaryOr_spec : range_ok_op w Z.lor r b (binaryOr r b).
Proof.
  destruct operands_exact as (Hlo & Hhi & _). unfold binaryOr. rewrite operands_asserted.
  apply exact_range; [done..| |exact Hlo|exact Hhi]. intros x y. apply lor_bound. lia.
Qed.
End bitops.

(** The number of bits that are set. *)
Fixpoint popcount (p : positive) : nat :=
  match p with xH => 1 | xO p => popcount p | xI p => S (popcount p) end.
Lemma popcount_log2 p : 1 <= Z.of_nat (popcount p) <= Z.log2 (Z.pos p) + 1.
Proof.
  induction p as [p IH|p IH|]; cbn [popcount]; [rewrite Pos2Z.inj_xI, Z.log2_succ_double|rewrite Pos2Z.inj_xO, Z.log2_double|cbn]; lia.
Qed.
Lemma clear_odd z : Z.land (2 * z + 1) (2 * z + 1 - 1) = 2 * z.
Proof.
  replace (2 * z + 1 - 1) with (2 * z) by lia. apply Z.bits_inj'. intros i Hi. rewrite Z.land_spec.
  destruct (Z.eq_dec i 0) as [->|]; [by rewrite Z.testbit_odd_0, Z.testbit_even_0|].
  replace i with (Z.succ (i - 1)) by lia. rewrite Z.testbit_odd_succ, Z.testbit_even_succ by lia. apply andb_diag.
Qed.
Lemma clear_even z : Z.land (2 * z) (2 * z - 1) = 2 * Z.land z (z - 1).
Proof.
  replace (2 * z - 1) with (2 * (z - 1) + 1) by lia. apply Z.bits_inj'. intros i Hi. rewrite Z.land_spec.
  destruct (Z.eq_dec i 0) as [->|]; [by rewrite !Z.testbit_even_0|].
  replace i with (Z.succ (i - 1)) by lia. rewrite Z.testbit_odd_succ, !Z.testbit_even_succ, Z.land_spec by lia. done.
Qed.
Lemma clear_bit p :
  (Z.land (Z.pos p) (Z.pos p - 1) = 0 /\ Z.pos p = 2 ^ Z.log2 (Z.pos p)) \/
  exists q, Z.land (Z.pos p) (Z.pos p - 1) = Z.pos q /\ popcount p = S (popcount q) /\ Z.log2 (Z.pos q) = Z.log2 (Z.pos p).
Proof.
  induction p as [p IH|p IH|]; [| |by left].
  - right. exists (xO p). rewrite (Pos2Z.inj_xI p), clear_odd, (Pos2Z.inj_xO p), Z.log2_succ_double, Z.log2_double by lia. done.
  - rewrite (Pos2Z.inj_xO p), clear_even, Z.log2_double by lia. destruct IH as [[-> Hp]|(q & -> & Hq & Hl)].
    + left. split; [done|]. rewrite Z.pow_succ_r by apply Z.log2_nonneg. lia.
    + right. exists (xO q). rewrite (Pos2Z.inj_xO q), Z.log2_double by lia. split; [done|]. cbn [popcount]. split; [done|lia].
Qed.
(** The loop ends at the highest bit, on a word that is not 0. *)
Lemma highest_bit_spec fuel : forall p, Z.pos p < 2 ^ 64 -> (popcount p <= S fuel)%nat ->
  highest_bit fuel (Z.pos p) = Some (2 ^ Z.log2 (Z.pos p)).
Proof.
  induction fuel as [|fuel IH]; intros p Hp Hf; cbn [highest_bit]; unfold isPowerOfTwo, withoutRightmostBit;
    rewrite wrap_small by lia; cbn [Z.eqb]; destruct (clear_bit p) as [[-> Hpow]|(q & -> & Hq & Hl)]; cbn [Z.eqb];
    try (by rewrite Hpow at 1).
  - pose proof (popcount_log2 q). lia.
  - rewrite IH, Hl; [done| |lia]. apply Z.log2_lt_pow2; [lia|]. rewrite Hl. apply Z.log2_lt_pow2; lia.
Qed.
Lemma highest_bit_ok t : 0 < t < 2 ^ 64 -> highest_bit 64 t = Some (2 ^ Z.log2 t).
Proof.
  intros Ht. destruct t as [|p|p]; [lia| |lia]. apply highest_bit_spec; [lia|].
  pose proof (popcount_log2 p). assert (Z.log2 (Z.pos p) < 64) by (apply Z.log2_lt_pow2; lia). lia.
Qed.

Lemma binaryXor_spec w r b : 0 < w <= 64 -> range_ok w r -> range_ok w b -> range_ok_op w Z.lxor r b (binaryXor r b).
Proof.
  intros Hw Hr Hb. unfold binaryXor. destruct (isFixed r && isFixed b) eqn:Hf.
  { apply andb_true_iff in Hf as [Hfr Hfb]. eexists. split; [done|]. pose proof Hr as [? ?]. pose proof Hb as [? ?].
    pose proof (lxor_bound w (m_min r) (m_min b)). split; [split; cbn; lia|]. intros x y Hx Hy.
    rewrite (fixed_in x r Hfr Hx), (fixed_in y b Hfb Hy). unfold in_range. cbn. lia. }
  set (t := Z.lor (m_max r) (m_max b)). pose proof Hr as [Hr1 Hr2]. pose proof Hb as [Hb1 Hb2]. pose proof (pow_le_64 w).
  assert (0 < t < 2 ^ w) as Ht.
  { assert (0 <= t < 2 ^ w) by (apply lor_bound; lia). enough (t <> 0) by lia.
    intros [? ?]%Z.lor_eq_0_iff. unfold isFixed in Hf. lia. }
  rewrite highest_bit_ok by lia. cbn [mbind option_bind]. set (k := Z.log2 t).
  assert (0 <= k < w) as Hk by (split; [apply Z.log2_nonneg|apply Z.log2_lt_pow2; lia]).
  assert (u64 (u64 (Z.shiftl (2 ^ k) 1) - 1) = 2 ^ (k + 1) - 1) as ->.
  { rewrite Z.shiftl_mul_pow2, <- Z.pow_add_r by lia. unfold wrap. rewrite Zminus_mod_idemp_l.
    apply Z.mod_small. pose proof (Z.pow_pos_nonneg 2 (k + 1)). pose proof (pow_le_64 (k + 1)). lia. }
  eexists. split; [done|]. pose proof (Z.pow_pos_nonneg 2 (k + 1)). pose proof (Z.pow_le_mono_r 2 (k + 1) w). split; [split; cbn; lia|].
  intros x y Hx Hy. assert (t < 2 ^ (k + 1)) as Htk by (apply Z.log2_lt_pow2; lia).
  assert (m_max r <= t) by (unfold t; rewrite Z.lor_comm; apply lor_ge; lia).
  assert (m_max b <= t) by (apply lor_ge; lia).
  unfold in_range in *. cbn. pose proof (lxor_bound (k + 1) x y). lia.
Qed.

Lemma range_concat_spec W r b bits : 0 < W <= 64 -> 0 <= bits < 64 ->
  range_ok W (VR (Z.shiftl (m_min r) bits) (Z.shiftl (m_max r) bits)) -> range_ok W b ->
  range_ok_op W (fun x y => Z.lor (Z.shiftl x bits) y) r b (range_concat r b bits).
Proof.
  intros HW Hbits Hs Hb. unfold range_concat, binaryShiftLeft. rewrite (proj2 (Z.ltb_lt bits 64)) by lia.
  pose proof Hs as [Hs1 Hs2]. pose proof (pow_le_64 W). cbn [m_min m_max] in *. rewrite !wrap_small by lia. cbn [mbind option_bind].
  destruct (binaryOr_spec W ltac:(lia) _ b Hs Hb) as (s & -> & Hs' & Hin). exists s. split; [done|]. split; [done|].
  intros x y [Hx1 Hx2] Hy. apply Hin; [|done]. rewrite !Z.shiftl_mul_pow2 in * by lia. split; cbn; nia.
Qed.
Lemma shiftl_range_ok w bits r : 0 <= w -> 0 <= bits -> range_ok w r -> range_ok (w + bits) (VR (Z.shiftl (m_min r) bits) (Z.shiftl (m_max r) bits)).
Proof.
  intros Hw Hb [H1 H2]. rewrite !Z.shiftl_mul_pow2 by lia. pose proof (Z.pow_pos_nonneg 2 bits). split; cbn; [nia|].
  rewrite Z.pow_add_r by lia. nia.
Qed.

(** ** Signed bounds *)

Lemma ints_sext_spec l w : 0 < w <= 64 -> swrap 64 (ints_sext l 64 w) = swrap w l.
Proof.
  intros Hw. unfold ints_sext. rewrite swrap_wrap by lia.
  assert (swrap 64 (Z.shiftl l (64 - w)) = swrap w l * 2 ^ (64 - w)) as ->.
  { rewrite Z.shiftl_mul_pow2 by lia. unfold swrap. replace (2 ^ 64) with (2 ^ w * 2 ^ (64 - w)) by (rewrite <- Z.pow_add_r by lia; f_equal; lia).
    replace (2 ^ (64 - 1)) with (2 ^ (w - 1) * 2 ^ (64 - w)) by (rewrite <- Z.pow_add_r by lia; f_equal; lia).
    rewrite <- Z.mul_add_distr_r, Z.mul_mod_distr_r by lia. lia. }
  rewrite Z.shiftr_div_pow2, Z.div_mul by lia. apply swrap_small; [lia|].
  pose proof (swrap_range w l ltac:(lia)). pose proof (Z.pow_le_mono_r 2 (w - 1) (64 - 1)). lia.
Qed.
Definition signed_bounds (w : Z) (r : ValueRange) (lo hi : Z) : Prop := forall x, x ∈ᵣ r -> lo <= swrap w x <= hi.
Lemma signed_spec w r : 0 < w < 64 -> range_ok w r ->
  exists lo hi, minSigned r w = Some lo /\ maxSigned r w = Some hi /\ signed_bounds w r lo hi.
Proof.
  intros Hw Hr. pose proof Hr as [H1 H2]. unfold minSigned, maxSigned, fits_bits.
  rewrite (proj2 (Z.ltb_lt w 64)), !Z.shiftr_div_pow2, !Z.div_small by lia. cbn [andb Z.eqb range_assert mbind option_bind].
  eexists _, _. split; [done|]. split; [done|]. rewrite Z.shiftl_1_l.
  pose proof (Z.pow_le_mono_r 2 (w - 1) 62 ltac:(lia) ltac:(lia)) as Hp. pose proof (Z.pow_pos_nonneg 2 (w - 1)).
  assert (2 ^ w = 2 * 2 ^ (w - 1)) as Hd by (rewrite <- Z.pow_succ_r by lia; f_equal; lia).
  intros x Hx. pose proof (range_ok_bound w x r Hr Hx) as Hxw. unfold in_range in Hx.
  rewrite (swrap_unsigned w x) by lia.
  destruct (Z.leb_spec (2 ^ (w - 1)) (m_max r)) as [Hle|Hlt].
  - rewrite ints_sext_spec, (swrap_unsigned w (2 ^ (w - 1))) by lia. destruct (Z.ltb_spec (m_min r) (2 ^ (w - 1))); cbn [andb].
    + rewrite (swrap_small 64) by lia. repeat case_match; lia.
    + rewrite ints_sext_spec, swrap_unsigned by lia. repeat case_match; lia.
  - rewrite andb_false_r. rewrite (swrap_small 64), ints_sext_spec, swrap_unsigned by lia. repeat case_match; lia.
Qed.

(** * The range of an expression is right *)

(** The expressions whose range is computed without a failed assertion: of at most 64 bits, with the
    comparisons that the documentation of [Expr] allows, signed ones of less than 64 bits, and at least a byte
    on the right of a concatenation. *)
Definition narrow_cmp (k : Kind.cmp) (w : Z) : bool :=
  canonical_cmp k && match k with Kind.Slt | Kind.Sle => w <? 64 | _ => true end.
Fixpoint narrow (e : expr) : bool :=
  (getWidth e <=? 64) &&
  match e with
  | EConstant _ => true
  | ERead _ k | EExtract k _ _ | EZExt k _ | ESExt k _ | ENot k => narrow k
  | EConcat l r => (8 <=? getWidth r) && narrow l && narrow r
  | ESelect c t f => narrow c && narrow t && narrow f
  | EArith _ l r => narrow l && narrow r
  | ECmp k l r => narrow_cmp k (getWidth l) && narrow l && narrow r
  end.
(** The concatenations that the ranges are right for. *)
Fixpoint byte_concats (e : expr) : bool :=
  match e with
  | EConstant _ => true
  | ERead _ k | EExtract k _ _ | EZExt k _ | ESExt k _ | ENot k => byte_concats k
  | EConcat l r => (getWidth r =? 8) && byte_concats l && byte_concats r
  | ESelect c t f => byte_concats c && byte_concats t && byte_concats f
  | EArith _ l r | ECmp _ l r => byte_concats l && byte_concats r
  end.

(** What is proved of the range of an expression of [w] bits. *)
Definition range_right (e : expr) (w : Z) (o : option ValueRange) : Prop :=
  exists r, o = Some r /\ range_ok w r /\
    (byte_concats e = true -> forall σ v, eval σ e = Some v -> ap_val v ∈ᵣ r).

Lemma narrow_width e w : narrow e = true -> type_of e = Some w -> 0 < w <= 64.
Proof.
  intros Hn Hw. destruct (type_width e w Hw) as [<- Hpos]. split; [done|].
  destruct e; cbn [narrow] in Hn; apply andb_true_iff in Hn as [Hn _]; by apply Z.leb_le.
Qed.
Lemma full_range_right e w : type_of e = Some w -> w <= 64 -> range_right e w (full_range e).
Proof. intros Hw Hle. destruct (full_range_spec e w Hw Hle) as (r & Hr & Hok & Hv). exists r. auto. Qed.
Lemma set_union_l w r b : range_ok w r -> range_ok w b -> range_ok w (set_union r b) /\
  (forall x, x ∈ᵣ r -> x ∈ᵣ set_union r b) /\ (forall x, x ∈ᵣ b -> x ∈ᵣ set_union r b).
Proof. unfold range_ok, in_range, set_union. cbn. intros. split_and!; intros; lia. Qed.

Lemma select_right c t f w (oc ot oe : option ValueRange) : type_of (ESelect c t f) = Some w ->
  range_right c Bool oc -> range_right t w ot -> range_right f w oe ->
  range_right (ESelect c t f) w
    (cond ← oc; if mustEqual_value cond 1 then ot else if mustEqual_value cond 0 then oe
     else t ← ot; f ← oe; Some (set_union t f)).
Proof.
  intros Hw (rc & -> & Hrc & Hvc) (rt & -> & Hrt & Hvt) (rf & -> & Hrf & Hvf). cbn [mbind option_bind].
  assert (byte_concats (ESelect c t f) = true -> forall σ v, eval σ (ESelect c t f) = Some v -> exists cv,
    ap_val cv ∈ᵣ rc /\ if ap_val cv =? 0 then ap_val v ∈ᵣ rf else ap_val v ∈ᵣ rt) as Hsel.
  { intros [[Hbc Hbt]%andb_true_iff Hbf]%andb_true_iff σ v Hv. cbn [eval] in Hv.
    apply ev_select_inv in Hv as (cv & tv & fv & Hc & Ht & Hf & _ & _ & ->). exists cv. split; [by eapply Hvc|].
    destruct (ap_val cv =? 0); [by eapply Hvf|by eapply Hvt]. }
  unfold mustEqual_value. destruct (Z.eqb_spec (m_min rc) (m_max rc)) as [Hfix|]; cbn [andb].
  1: destruct (Z.eqb_spec (m_min rc) 1) as [H1|]; [|destruct (Z.eqb_spec (m_min rc) 0) as [H0|]].
  - exists rt. split_and!; [done..|]. intros Hb σ v Hv. destruct (Hsel Hb σ v Hv) as (cv & Hc & Hin).
    unfold in_range in Hc. by replace (ap_val cv =? 0) with false in Hin by lia.
  - exists rf. split_and!; [done..|]. intros Hb σ v Hv. destruct (Hsel Hb σ v Hv) as (cv & Hc & Hin).
    unfold in_range in Hc. by replace (ap_val cv =? 0) with true in Hin by lia.
  - destruct (set_union_l w rt rf Hrt Hrf) as (? & Ht & Hf). eexists. split_and!; [done..|]. intros Hb σ v Hv.
    destruct (Hsel Hb σ v Hv) as (cv & _ & Hin). destruct (ap_val cv =? 0); auto.
  - destruct (set_union_l w rt rf Hrt Hrf) as (? & Ht & Hf). eexists. split_and!; [done..|]. intros Hb σ v Hv.
    destruct (Hsel Hb σ v Hv) as (cv & _ & Hin). destruct (ap_val cv =? 0); auto.
Qed.

Lemma bit_arith_right k (op : Z -> Z -> Z) (f : ValueRange -> ValueRange -> option ValueRange) l r w ol or :
  (forall a b, arith_spec w k a b = op a b) ->
  (forall a b, range_ok w a -> range_ok w b -> range_ok_op w op a b (f a b)) ->
  range_right l w ol -> range_right r w or -> type_of l = Some w ->
  range_right (EArith k l r) w (a ← ol; b ← or; f a b).
Proof.
  intros Hop Hf (a & -> & Ha & Hva) (b & -> & Hb & Hvb) Hl. cbn [mbind option_bind].
  destruct (Hf a b Ha Hb) as (s & Hs & Hok & Hin). exists s. split_and!; [done..|].
  intros [Hbl Hbr]%andb_true_iff σ v Hv. cbn [eval] in Hv. apply ev_arith_inv in Hv as (x & y & Hx & Hy & _ & ->).
  assert (ap_width x = w) as -> by (apply eval_type in Hx; congruence). cbn [ap_val]. rewrite Hop. apply Hin; [by eapply Hva|by eapply Hvb].
Qed.

Lemma decided_right k l r yes no : type_of (ECmp k l r) = Some Bool ->
  (byte_concats (ECmp k l r) = true -> forall σ a b, eval σ l = Some a -> eval σ r = Some b -> ap_width a = ap_width b ->
     (yes = true -> cmp_spec (ap_width a) k (ap_val a) (ap_val b) = true) /\
     (no = true -> cmp_spec (ap_width a) k (ap_val a) (ap_val b) = false)) ->
  range_right (ECmp k l r) Bool (decided yes no (ECmp k l r)).
Proof.
  intros Hw Hd. unfold decided.
  assert (byte_concats (ECmp k l r) = true -> forall σ v, eval σ (ECmp k l r) = Some v -> exists c : bool,
    v = bool_ap c /\ (yes = true -> c = true) /\ (no = true -> c = false)) as Hval.
  { intros Hb σ v Hv. cbn [eval] in Hv. apply ev_cmp_inv in Hv as (a & b & Ha & Hb' & Hab & ->).
    eexists. split; [done|]. by apply (Hd Hb σ a b). }
  destruct yes; [|destruct no; [|by apply full_range_right]].
  - eexists. split; [done|]. split; [by repeat split|]. intros Hb σ v Hv. destruct (Hval Hb σ v Hv) as (c & -> & Hy & _).
    rewrite Hy by done. unfold in_range. cbn. lia.
  - eexists. split; [done|]. split; [by repeat split|]. intros Hb σ v Hv. destruct (Hval Hb σ v Hv) as (c & -> & _ & Hn).
    rewrite Hn by done. unfold in_range. cbn. lia.
Qed.
Lemma cmp_right k l r u ol or : type_of l = Some u -> type_of r = Some u -> 0 < u <= 64 -> narrow_cmp k u = true ->
  range_right l u ol -> range_right r u or ->
  range_right (ECmp k l r) Bool (a ← ol; b ← or; evaluate_cmp k (ECmp k l r) u a b).
Proof.
  intros Hl Hr Hu Hk (a & -> & Ha & Hva) (b & -> & Hb & Hvb). cbn [mbind option_bind].
  assert (type_of (ECmp k l r) = Some Bool) as Hw by (by eapply type_cmp).
  apply andb_true_iff in Hk as [Hcan Hsig].
  assert (byte_concats (ECmp k l r) = true -> forall σ x y, eval σ l = Some x -> eval σ r = Some y ->
    ap_width x = u /\ ap_val x ∈ᵣ a /\ ap_val y ∈ᵣ b) as Hxy.
  { intros [Hbl Hbr]%andb_true_iff σ x y Hx Hy. split_and!; [apply eval_type in Hx; congruence|by eapply Hva|by eapply Hvb]. }
  destruct k; try done; cbn [evaluate_cmp]; cbv beta iota in Hsig; rewrite ?(range_min_some u a), ?(range_min_some u b), ?(range_max_some u a), ?(range_max_some u b) by done;
    cbn [mbind option_bind].
  1-3: apply decided_right; [done|]; intros Hbc σ x y Hx Hy _; destruct (Hxy Hbc σ x y Hx Hy) as (_ & Hxa & Hyb);
    unfold mustEqual, mayEqual, intersects, isEmpty, isFixed, set_intersection, in_range in *; cbn [cmp_spec m_min m_max]; lia.
  all: destruct (signed_spec u a ltac:(lia) Ha) as (amin & amax & -> & -> & Has), (signed_spec u b ltac:(lia) Hb) as (bmin & bmax & -> & -> & Hbs);
    cbn [mbind option_bind]; apply decided_right; [done|]; intros Hbc σ x y Hx Hy _; destruct (Hxy Hbc σ x y Hx Hy) as (-> & Hxa & Hyb);
    specialize (Has _ Hxa); specialize (Hbs _ Hyb); cbn [cmp_spec]; lia.
Qed.
Lemma concat_right l r wl wr ol or : type_of l = Some wl -> type_of r = Some wr -> 0 < wl -> 8 <= wr -> wl + wr <= 64 ->
  range_right l wl ol -> range_right r wr or ->
  range_right (EConcat l r) (wl + wr) (l ← ol; res ← range_concat (VR_value 0) l 8; r ← or; range_concat res r 8).
Proof.
  intros Hl Hr Hwl Hwr Hw (a & -> & Ha & Hva) (b & -> & Hb & Hvb). cbn [mbind option_bind].
  destruct (range_concat_spec wl (VR_value 0) a 8) as (res & -> & Hres & Hin); [lia..| |done|].
  { unfold range_ok, VR_value. cbn [m_min m_max]. rewrite Z.shiftl_0_l. pose proof (Z.pow_pos_nonneg 2 wl). lia. }
  cbn [mbind option_bind].
  destruct (range_concat_spec (wl + wr) res b 8) as (s & -> & Hs & Hins); [lia..| | |].
  { eapply range_ok_weaken; [apply shiftl_range_ok; [|lia|exact Hres]|]; lia. }
  { eapply range_ok_weaken; [exact Hb|lia]. }
  exists s. split_and!; [done..|]. cbn [byte_concats]. intros [[H8 Hbl]%andb_true_iff Hbr]%andb_true_iff σ v Hv.
  apply Z.eqb_eq in H8. cbn [eval] in Hv. apply ev_concat_inv in Hv as (x & y & Hx & Hy & ->). cbn [concat_spec ap_val].
  assert (ap_width y = 8) as ->.
  { pose proof (eval_type _ _ _ Hy). destruct (type_width r wr Hr). congruence. }
  apply Hins; [|by eapply Hvb]. specialize (Hin 0 (ap_val x)). rewrite Z.shiftl_0_l, Z.lor_0_l in Hin. apply Hin; [|by eapply Hva].
  unfold in_range. cbn. lia.
Qed.

Lemma range_evaluated e : forall w, type_of e = Some w -> narrow e = true ->
  exists r, evaluate_range e = Some r /\ range_ok w r /\
    (byte_concats e = true -> forall σ v, eval σ e = Some v -> ap_val v ∈ᵣ r).
Proof.
  change (forall w, type_of e = Some w -> narrow e = true -> range_right e w (evaluate_range e)).
  induction e; intros w Hw Hn; pose proof (narrow_width _ w Hn Hw) as H64; cbn [evaluate_range];
    cbn [narrow] in Hn; rewrite ?andb_true_iff in Hn;
    repeat match goal with H : _ /\ _ |- _ => destruct H end; try (apply full_range_right; [done|lia]).
  - apply type_constant in Hw as [Hwf <-]. pose proof (wf_range value Hwf). pose proof (pow_le_64 (ap_width value)).
    eexists. split; [done|]. unfold VR_constant. rewrite Z.min_l by lia. split; [split; cbn; lia|]. intros _ σ v [<- _]%eval_constant_inv.
    unfold in_range. cbn. lia.
  - apply type_read_inv in Hw as [-> (u & Hu)]. destruct (IHe u Hu) as (ri & -> & _); [done|]. cbn [mbind option_bind].
    eexists. split; [done|]. split; [by repeat split|]. intros _ σ v Hv. pose proof (wf_range v (eval_wf _ _ _ Hv)) as Hr.
    apply eval_type in Hv. cbn in Hv. rewrite Hu in Hv. cbn in Hv. injection Hv as Hv. rewrite <- Hv in Hr. unfold in_range. cbn. change (2 ^ Int8) with 256 in Hr. lia.
  - pose proof Hw as (Hc & Ht & Hf)%type_select_inv. apply select_right; auto.
  - apply type_concat_inv in Hw as (a & b & Ha & Hb & ->). destruct (type_width e1 a Ha), (type_width e2 b Hb).
    apply concat_right; auto; lia.
  - pose proof Hw as [Hl Hr]%type_arith_inv. destruct (type_width e1 w Hl) as [Hgl _].
    assert (range_right (EArith k e1 e2) w (_ ← evaluate_range e1; _ ← evaluate_range e2; range_arith (getWidth e1))) as Hall.
    { destruct (IHe1 w Hl) as (? & -> & _); [done|]. destruct (IHe2 w Hr) as (? & -> & _); [done|]. cbn [mbind option_bind].
      apply (full_range_right (EArith k e1 e2)); [done|lia]. }
    destruct k; try exact Hall; try (apply full_range_right; [done|lia]);
      (eapply bit_arith_right; [| |by apply IHe1|by apply IHe2|done]); try done; intros;
      [by apply binaryAnd_spec|by apply binaryOr_spec|by apply binaryXor_spec].
  - pose proof Hw as (-> & u & Hl & Hr)%type_cmp_inv. destruct (type_width e1 u Hl) as [Hgl _]. rewrite Hgl in *.
    apply cmp_right; auto. by apply (narrow_width e1).
Qed.
(** C13 The range of an expression is found, and right: of a typed expression whose parts
    have at most 64 bits, whose concatenations have at least a byte on the right, and whose comparisons are those
    that [Expr] keeps, signed ones of less than 64 bits, no assertion fails and every loop ends; the range is not
    empty and within the width; and if only bytes are concatenated on the right, it contains every value
    of the expression. *)
Theorem evaluate_range_right e : forall w, type_of e = Some w -> narrow e = true ->
  exists r, evaluate_range e = Some r /\ range_ok w r /\
    (byte_concats e = true -> forall σ v, eval σ e = Some v -> ap_val v ∈ᵣ r).
Proof. apply range_evaluated. Qed.

(** ** Witnesses: a byte with its low bits masked, above a byte; the word of a symbolic variable *)

Definition masked_word : expr :=
  EConcat (EArith Kind.And (EConstant (CE_alloc 240 8)) (read_byte (mkArray "x" 2) 1)) (read_byte (mkArray "x" 2) 0).
Lemma evaluate_range_right_witness :
  evaluate_range masked_word = Some (VR 0 61695) /\
  (forall σ v, eval σ masked_word = Some v -> 0 <= ap_val v <= 61695).
Proof.
  assert (evaluate_range masked_word = Some (VR 0 61695)) as He by (vm_compute; reflexivity). split; [exact He|].
  destruct (evaluate_range_right masked_word 16 eq_refl eq_refl) as (r & Hr & _ & Hin).
  intros σ v Hv. specialize (Hin eq_refl σ v Hv). rewrite He in Hr. injection Hr as <-. exact Hin.
Defined.

(** The range of the word of a symbolic variable is not right: its concatenations put three bytes on the
    right of one, the evaluator shifts by 8 bits, and the values above 65535 are left out. *)
Theorem symbolic_word_range : forall name, exists e σ v,
  createTempRead (mkArray name 4) Int32 = Some e /\ evaluate_range e = Some (VR 0 65535) /\
  eval σ e = Some v /\ 65535 < ap_val v.
Proof.
  intros name. eexists _, (fun _ _ => 255), _. split; [reflexivity|]. split; [vm_compute; reflexivity|].
  split; [vm_compute; reflexivity|]. done.
Qed.
