(* ===== verification/KSolver.v ===== *)
(** KLEE's solvers (klee/Solver/Solver.h, SolverImpl.h, Solver.cpp, SolverImpl.cpp,
    IncompleteSolver.cpp): the interface of an implementation, what an implementation promises,
    and the questions a client of one asks. *)
From S2P Require Import Prelude Bits APInt KExpr KBuilder KBuilderSound KType KCreate KCreateShape KCreateSound KVisitor KConstraints KReads RangeBounds KRange Concolic PathTrace.

(** * Implementations *)

(** [Solver::Validity] *)
Inductive Validity := ValidTrue | ValidFalse | ValidUnknown.
Definition validity_to_str (v : Validity) : string :=
  match v with ValidTrue => "True" | ValidFalse => "False" | ValidUnknown => "Unknown" end.

(** A computation that returns false, or that fails an assertion. *)
Inductive solver_error := Failed | AssertFailed.

(** [SolverImpl], with a state: its caches, and the state of the solvers it calls.  The answer of
    [computeInitialValues] is [None] when [hasSolution] is false. *)
Record SolverImpl (S : Type) := mkSolverImpl {
  computeTruth : Query -> SM S solver_error bool;
  computeValidity : Query -> SM S solver_error Validity;
  computeValue : Query -> SM S solver_error expr;
  computeInitialValues : Query -> list Array -> SM S solver_error (option (list (list Z)));
}.
Arguments mkSolverImpl {S}.
Arguments computeTruth {S}.
Arguments computeValidity {S}.
Arguments computeValue {S}.
Arguments computeInitialValues {S}.

Definition withExpr (q : Query) (e : expr) : Query := mkQuery (q_constraints q) e.
Definition expr_false : expr := EConstant (CE_alloc 0 Bool).
Definition withFalse (q : Query) : Query := withExpr q expr_false.
Definition solver_assert {S} (b : bool) : SM S solver_error unit := if b then sm_ret tt else sm_throw AssertFailed.

Section solver.
Context `{APInt} {S : Type} (impl : SolverImpl S).
#[local] Open Scope sm_scope.
Abbreviation M := (SM S solver_error).

Definition Query_negateExpr (q : Query) : Query := withExpr q (Expr_createIsZero (q_expr q)).

(** [SolverImpl::computeValidity], for a class that does not override it; [truth] is its
    [computeTruth]. *)
Definition default_computeValidity (truth : Query -> M bool) (query : Query) : M Validity :=
  isTrue <-- truth query ;;
  if isTrue : bool then sm_ret ValidTrue
  else
    isFalse <-- truth (Query_negateExpr query) ;;
    sm_ret (if isFalse : bool then ValidFalse else ValidUnknown).

(** * Solver *)

Definition Solver_evaluate (query : Query) : M Validity :=
  solver_assert (getWidth (q_expr query) =? Bool) ;;;
  match as_constant (q_expr query) with
  | Some CE => sm_ret (if isTrue CE then ValidTrue else ValidFalse)
  | None => computeValidity impl query
  end.
Definition mustBeTrue (query : Query) : M bool :=
  solver_assert (getWidth (q_expr query) =? Bool) ;;;
  match as_constant (q_expr query) with
  | Some CE => sm_ret (isTrue CE)
  | None => computeTruth impl query
  end.
Definition mustBeFalse (query : Query) : M bool := mustBeTrue (Query_negateExpr query).
Definition mayBeTrue (query : Query) : M bool := res <-- mustBeFalse query ;; sm_ret (negb res).
Definition mayBeFalse (query : Query) : M bool := res <-- mustBeTrue query ;; sm_ret (negb res).
(** The cast of the value to a constant is checked. *)
Definition Solver_getValue (query : Query) : M apint :=
  match as_constant (q_expr query) with
  | Some CE => sm_ret CE
  | None =>
      tmp <-- computeValue impl query ;;
      match as_constant tmp with Some CE => sm_ret CE | None => sm_throw AssertFailed end
  end.
(** [None] is false: there is no solution, or the computation has failed. *)
Definition Solver_getInitialValues (query : Query) (objects : list Array) : M (option (list (list Z))) :=
  sm_catch (computeInitialValues impl query objects)
    (fun e => match e with Failed => sm_ret None | AssertFailed => sm_throw AssertFailed end).
End solver.

(** * What an implementation promises

    The expressions of a query are partial: one that divides by zero, or reads out of an array,
    has no value.  A solver may give such an expression the value it likes, so that an input it
    finds _allows_ an expression: it does not refute it.  An input under which the expression has a
    value then makes it hold ([allows_boolean]). *)

Definition allows (σ : assignment) (e : expr) : Prop := ~ refuted σ e.
Lemma allows_boolean σ e : allows σ e -> boolean σ e -> holds σ e.
Proof. intros Ha [[] Hb]; [done|by destruct Ha]. Qed.
Lemma holds_allows σ e : holds σ e -> allows σ e.
Proof. intros Hh Hr. by apply (not_both σ e). Qed.
Lemma holds_allow σ L : Forall (holds σ) L -> Forall (allows σ) L.
Proof. intros HL. eapply Forall_impl; [exact HL|apply holds_allows]. Qed.

(** Where the core solver's terms have a meaning, the one KLEE gives the expression: single bits are
    neither concatenated, extracted from, compared nor calculated with, extensions widen, and an
    arithmetic shift is by less than the width. *)
Definition shift_core_ok (k : Kind.arith) (l r : expr) : Prop :=
  getWidth l < 2 ^ 32 /\
  match r with EConstant v => ap_val v < 2 ^ 32 | _ => True end /\
  (k = Kind.AShr -> forall σ v, eval σ r = Some v -> ap_val v < getWidth l).
Definition arith_core_ok (k : Kind.arith) (l r : expr) : Prop :=
  match k with
  | Kind.And | Kind.Or | Kind.Xor => True
  | Kind.Shl | Kind.LShr | Kind.AShr => getWidth l <> Bool /\ shift_core_ok k l r
  | _ => getWidth l <> Bool
  end.
Definition cmp_core_ok (k : Kind.cmp) (l : expr) : Prop :=
  match k with
  | Kind.Eq => True
  | Kind.Ult | Kind.Ule | Kind.Slt | Kind.Sle => getWidth l <> Bool
  | _ => False
  end.
Definition node_core_ok (e : expr) : Prop :=
  match e with
  | EConcat l r => getWidth l <> Bool /\ getWidth r <> Bool
  | EExtract s _ _ => getWidth s <> Bool
  | EZExt s w | ESExt s w => getWidth s < w
  | EArith k l r => arith_core_ok k l r
  | ECmp k l _ => cmp_core_ok k l
  | _ => True
  end.
Fixpoint core_ok (e : expr) : Prop :=
  node_core_ok e /\
  match e with
  | EConstant _ => True
  | ERead _ k | EExtract k _ _ | EZExt k _ | ESExt k _ | ENot k => core_ok k
  | EConcat l r | EArith _ l r | ECmp _ l r => core_ok l /\ core_ok r
  | ESelect c t f => core_ok c /\ core_ok t /\ core_ok f
  end.

(** The expressions a solver is asked about: boolean ones, with indices of the width of the
    domain of an array, whose range of values is computed right, in the range of the array when they are
    constant, one array to a name, and with a meaning in the core solver. *)
Section admissible.
Context (sizes : string -> Z).

Definition array_ok (a : Array) : Prop := arr_size a = sizes (arr_name a) /\ 0 <= arr_size a < 2 ^ 32.
Definition index_ok (i : expr) : Prop := type_of i = Some Int32 /\ narrow i = true /\ byte_concats i = true.
Definition read_ok (r : Array * expr) : Prop :=
  array_ok r.1 /\ index_ok r.2 /\ match r.2 with EConstant v => ap_val v < arr_size r.1 | _ => True end.
Definition parts_ok (e : expr) : Prop := Forall read_ok (all_reads e) /\ core_ok e.
Definition expr_ok (e : expr) : Prop := well_typed e /\ parts_ok e.
Definition query_ok (q : Query) : Prop := Forall expr_ok (q_expr q :: q_constraints q).
(** A query for a value may have an expression of any width. *)
Definition value_query_ok (q : Query) : Prop :=
  (exists w, type_of (q_expr q) = Some w) /\ parts_ok (q_expr q) /\ Forall expr_ok (q_constraints q).
(** The arrays of a query's constraints and of its negated expression are among those whose values are
    asked for. *)
Definition covers_arrays `{APInt} (objects : list Array) (q : Query) : Prop :=
  Forall array_ok objects /\
  Forall (fun e => forall a, a ∈ arrays e -> a ∈ objects) (Expr_createIsZero (q_expr q) :: q_constraints q).
End admissible.

Definition consistent (q : Query) : Prop := exists σ, Forall (holds σ) (q_constraints q).
(** The expression has a value where the constraints are allowed. *)
Definition defined (q : Query) : Prop :=
  forall σ, Forall (allows σ) (q_constraints q) -> exists v, eval σ (q_expr q) = Some v.

Definition must_be_true (q : Query) : Prop :=
  forall σ, Forall (holds σ) (q_constraints q) -> ~ refuted σ (q_expr q).
Definition must_be_false (q : Query) : Prop :=
  forall σ, Forall (holds σ) (q_constraints q) -> ~ holds σ (q_expr q).
Definition may_be_false (q : Query) : Prop :=
  exists σ, Forall (allows σ) (q_constraints q) /\ ~ holds σ (q_expr q).
Definition may_be_true (q : Query) : Prop :=
  exists σ, Forall (allows σ) (q_constraints q) /\ ~ refuted σ (q_expr q).

(** No input satisfies the constraints and the negation. *)
Definition never_false `{APInt} (q : Query) : Prop :=
  forall σ, Forall (holds σ) (q_constraints q) -> ~ holds σ (Expr_createIsZero (q_expr q)).

Definition truth_ok (q : Query) (b : bool) : Prop :=
  if b then must_be_true q else may_be_false q.
Definition validity_ok (q : Query) (v : Validity) : Prop :=
  match v with
  | ValidTrue => must_be_true q
  | ValidFalse => must_be_false q
  | ValidUnknown => may_be_true q /\ may_be_false q
  end.
Definition value_ok (q : Query) (r : expr) : Prop :=
  exists σ v, Forall (allows σ) (q_constraints q) /\ eval σ (q_expr q) = Some v /\ r = EConstant v.
(** The values of an array: its bytes. *)
Definition values_of (a : Array) (bytes : list Z) : Prop :=
  Z.of_nat (length bytes) = arr_size a /\ Forall byte_ok bytes.
Definition initial_ok `{APInt} (q : Query) (objects : list Array) (o : option (list (list Z))) : Prop :=
  match o with
  | None => never_false q
  | Some values =>
      Forall2 values_of objects values /\
      Forall (allows (input_of (zip objects values))) (q_constraints q) /\
      allows (input_of (zip objects values)) (Expr_createIsZero (q_expr q))
  end.

(** Whether a solver may end in a failed assertion: the incomplete solver does ([FastCex]). *)
Class AssertPolicy := may_assert : Prop.
Definition no_asserts : AssertPolicy := False.
Definition with_asserts : AssertPolicy := True.

Section promises.
Context `{AssertPolicy}.
Definition allowed_error (e : solver_error) : Prop := match e with Failed => True | AssertFailed => may_assert end.
(** [m] keeps [I] and returns a value with [P], or fails; no assertion fails unless the policy lets it. *)
Definition promises {S A} (I : S -> Prop) (m : SM S solver_error A) (P : A -> Prop) : Prop :=
  triple I m (fun a s => I s /\ P a) (fun e s => I s /\ allowed_error e).

Lemma promises_ret {S A} (I : S -> Prop) (a : A) (P : A -> Prop) : P a -> promises I (sm_ret a) P.
Proof. intros Hp s Hs. by split. Qed.
Lemma promises_bind {S A B} (I : S -> Prop) (m : SM S solver_error A) (k : A -> SM S solver_error B) P Q :
  promises I m P -> (forall a, P a -> promises I (k a) Q) -> promises I (sm_bind m k) Q.
Proof. intros Hm Hk. eapply triple_bind; [exact Hm|]. intros a s [Hs Ha]. by apply (Hk a Ha). Qed.
Lemma promises_weaken {S A} (I : S -> Prop) (m : SM S solver_error A) (P Q : A -> Prop) :
  promises I m P -> (forall a, P a -> Q a) -> promises I m Q.
Proof. intros Hm HPQ. eapply triple_conseq; [exact Hm|done| |done]. intros a s [? ?]. auto. Qed.
Lemma promises_assert {S A} (I : S -> Prop) b (m : SM S solver_error A) P :
  b = true -> promises I m P -> promises I (sm_bind (solver_assert b) (fun _ => m)) P.
Proof. intros -> Hm. by eapply promises_bind; [apply (promises_ret I tt (fun _ => True))|]. Qed.
(** A computation that looks at the state: the value it gets is one the invariant allows. *)
Lemma promises_gets {S A B} (I : S -> Prop) (f : S -> A) (k : A -> SM S solver_error B) P :
  (forall s0, I s0 -> triple (fun s => s = s0) (k (f s0)) (fun a s => I s /\ P a) (fun e s => I s /\ allowed_error e)) ->
  promises I (sm_bind (sm_gets f) k) P.
Proof. intros Hk s Hs. exact (Hk s Hs s eq_refl). Qed.

(** What the solvers that use an implementation rely on. *)
Record impl_ok `{APInt} {S} (sizes : string -> Z) (impl : SolverImpl S) (I : S -> Prop) : Prop := {
  truth_promise q : query_ok sizes q -> consistent q -> defined q -> promises I (computeTruth impl q) (truth_ok q);
  validity_promise q : query_ok sizes q -> consistent q -> defined q ->
    promises I (computeValidity impl q) (validity_ok q);
  value_promise q : value_query_ok sizes q -> consistent q -> defined q ->
    promises I (computeValue impl q) (value_ok q);
  initial_promise q objects : query_ok sizes q -> covers_arrays sizes objects q ->
    promises I (computeInitialValues impl q objects) (initial_ok q objects);
}.
End promises.

(** * Negation *)

Section negation.
Context `{Laws : APIntLaws, AssertPolicy}.

Lemma isZero_evals σ e b : evals σ e b -> evals σ (Expr_createIsZero e) (negb b).
Proof. apply evals_isZero. Qed.
Lemma allows_isZero σ e : allows σ (Expr_createIsZero e) -> ~ holds σ e.
Proof. intros Ha Hh. apply Ha, (isZero_evals σ e true Hh). Qed.
Lemma not_holds_isZero σ e : ~ holds σ (Expr_createIsZero e) -> allows σ e.
Proof. intros Hn Hr. apply Hn, (isZero_evals σ e false Hr). Qed.
Lemma isZero_boolean σ e : (exists v, eval σ e = Some v) -> exists v, eval σ (Expr_createIsZero e) = Some v.
Proof. intros [v Hv]. eexists. by apply isZero_sound. Qed.

(** What a negation inherits from what is negated: conditions on the parts of an expression. *)
Section hereditary.
Context (P : expr -> Prop).
Hypothesis P_constant : forall v, P (EConstant v).
Hypothesis P_and : forall l r, P l -> P r -> P (EArith Kind.And l r).
Hypothesis P_eq : forall l r, P l -> P r -> P (ECmp Kind.Eq l r).
Hypothesis P_kids : forall e, P e -> Forall P (getKids e).

Lemma And_hereditary l r : P l -> P r -> P (AndExpr_create l r).
Proof.
  intros Hl Hr. unfold AndExpr_create, specialize2, AndExpr_createPartialR.
  assert (forall l c, P l -> P (AndExpr_createPartial l c)) as Hp.
  { intros l' c Hl'. unfold AndExpr_createPartial. destruct (isAllOnes c); [done|]. destruct (isZero c); auto. }
  destruct l, r; auto; apply P_constant.
Qed.
Lemma EqExpr_alloc_hereditary l r : P l -> P r -> P (EqExpr_alloc l r).
Proof. intros Hl Hr. unfold EqExpr_alloc. destruct (decide _); auto. Qed.
Lemma EqPartialR_hereditary r : forall cl, P r -> P (EqExpr_createPartialR cl r).
Proof.
  assert (forall f e c, P (f c e) -> P (eq_constant f e c)) as Hconst by (intros f e c Hf; destruct e; auto; apply P_constant).
  induction r; intros cl Hr; cbn [EqExpr_createPartialR];
    pose proof (EqExpr_alloc_hereditary (EConstant cl) _ (P_constant cl) Hr) as Hother;
    pose proof (P_kids _ Hr) as Hk; cbn [getKids] in Hk; rewrite ?Forall_cons in Hk; destruct_and?;
    (destruct (ap_width cl =? Bool); [destruct (isTrue cl); [exact Hr|]|]); try exact Hother.
  - destruct (decide _); [|auto]. by apply Hconst, IHr.
  - destruct (decide _); [|auto]. by apply Hconst, IHr.
  - destruct k; try exact Hother. apply And_hereditary; apply Hconst; [by apply IHr1|by apply IHr2].
  - destruct k; try exact Hother; (destruct r1; try exact Hother); by apply IHr2.
  - destruct k; try exact Hother. destruct r1; try exact Hother. destruct (is_false_bool value); [done|exact Hother].
Qed.
Lemma isZero_hereditary e : P e -> P (Expr_createIsZero e).
Proof.
  intros He. unfold Expr_createIsZero, EqExpr_create. pose proof (EqPartialR_hereditary e (CE_alloc 0 (getWidth e)) He) as H0.
  destruct e; first [exact H0|apply P_constant].
Qed.
End hereditary.

(** Its reads are among those of what is negated. *)
Lemma isZero_reads e r : r ∈ all_reads (Expr_createIsZero e) -> r ∈ all_reads e.
Proof.
  set (L := all_reads e). revert r. apply (isZero_hereditary (fun e => forall r, r ∈ all_reads e -> r ∈ L)); [| | | |done].
  - by intros v r ?%elem_of_nil.
  - intros a b Ha Hb r [?|?]%elem_of_app; auto.
  - intros a b Ha Hb r [?|?]%elem_of_app; auto.
  - intros k Hk. destruct k; repeat (apply Forall_cons; split); try (by apply Forall_nil); intros r Hr; apply Hk; cbn [all_reads]; set_solver.
Qed.
Lemma isZero_core_ok e : core_ok e -> core_ok (Expr_createIsZero e).
Proof.
  apply isZero_hereditary; [done|by repeat split..|].
  intros k Hk. destruct k; destruct Hk as [_ Hk]; repeat (apply Forall_cons; split); try (by apply Forall_nil); tauto.
Qed.
Lemma isZero_expr_ok sizes e : expr_ok sizes e -> expr_ok sizes (Expr_createIsZero e).
Proof.
  intros [Ht [Hr Hc]]. split; [exact (proj1 (isZero_shape e Bool Ht))|]. split; [|by apply isZero_core_ok].
  apply Forall_forall. intros r Hin. apply (proj1 (Forall_forall _ _) Hr), (isZero_reads e r Hin).
Qed.

Lemma never_false_true q : never_false q -> must_be_true q.
Proof. intros Hn σ Hc Hr. apply (Hn σ Hc), (isZero_evals σ _ false Hr). Qed.

(** The negation of a query. *)
Lemma negate_must_true q : must_be_true (Query_negateExpr q) -> must_be_false q.
Proof. intros Hm σ Hc Hh. apply (Hm σ Hc), (isZero_evals σ _ true Hh). Qed.
Lemma negate_must_false q : must_be_false (Query_negateExpr q) -> must_be_true q.
Proof. intros Hm σ Hc Hr. apply (Hm σ Hc), (isZero_evals σ _ false Hr). Qed.
Lemma negate_may_false q : may_be_false (Query_negateExpr q) -> may_be_true q.
Proof. intros (σ & Hc & Hn). exists σ. split; [done|]. by apply not_holds_isZero. Qed.
Lemma negate_may_true q : may_be_true (Query_negateExpr q) -> may_be_false q.
Proof. intros (σ & Hc & Hn). exists σ. split; [done|]. by apply allows_isZero. Qed.
Lemma negate_defined q : defined q -> defined (Query_negateExpr q).
Proof. intros Hd σ Hc. by apply isZero_boolean, Hd. Qed.
(** Where the expression has a value, the negation is the opposite. *)
Lemma typed_boolean σ e : well_typed e -> (exists v, eval σ e = Some v) -> holds σ e \/ refuted σ e.
Proof.
  intros Ht [v Hv]. pose proof (eval_type _ _ _ Hv) as Hw. assert (ap_width v = Bool) as Hb by (unfold well_typed in Ht; congruence).
  destruct (bool_eval σ e v Hv Hb) as [[] ->]; [by left|by right].
Qed.
Lemma defined_cases q σ : well_typed (q_expr q) -> defined q -> Forall (allows σ) (q_constraints q) ->
  holds σ (q_expr q) \/ refuted σ (q_expr q).
Proof. intros Ht Hd Hc. apply typed_boolean; [done|by apply Hd]. Qed.
Section defined_negation.
Context (q : Query) (Ht : well_typed (q_expr q)) (Hd : defined q).
Lemma defined_must_true : must_be_true q -> must_be_false (Query_negateExpr q).
Proof.
  intros Hm σ Hc Hh. destruct (defined_cases q σ Ht Hd (holds_allow _ _ Hc)) as [He|He]; [|by apply (Hm σ Hc)].
  by apply (not_both _ _ Hh), (isZero_evals σ _ true).
Qed.
Lemma defined_must_false : must_be_false q -> must_be_true (Query_negateExpr q).
Proof.
  intros Hm σ Hc Hr. destruct (defined_cases q σ Ht Hd (holds_allow _ _ Hc)) as [He|He]; [by apply (Hm σ Hc)|].
  apply (fun H => not_both _ _ H Hr). by apply (isZero_evals σ _ false).
Qed.
Lemma defined_may_true : may_be_true q -> may_be_false (Query_negateExpr q).
Proof.
  intros (σ & Hc & Hn). exists σ. split; [done|]. destruct (defined_cases q σ Ht Hd Hc) as [He|He]; [|done].
  intros Hh. by apply (not_both _ _ Hh), (isZero_evals σ _ true).
Qed.
Lemma defined_may_false : may_be_false q -> may_be_true (Query_negateExpr q).
Proof.
  intros (σ & Hc & Hn). exists σ. split; [done|]. destruct (defined_cases q σ Ht Hd Hc) as [He|He]; [done|].
  apply not_both. by apply (isZero_evals σ _ false).
Qed.
End defined_negation.
Lemma negate_ok sizes q : query_ok sizes q -> query_ok sizes (Query_negateExpr q).
Proof. intros [He Hc]%Forall_cons. apply Forall_cons. split; [by apply isZero_expr_ok|done]. Qed.
Lemma false_ok sizes q : query_ok sizes q -> query_ok sizes (withFalse q).
Proof.
  intros [He Hc]%Forall_cons. apply Forall_cons. split; [|done]. split; [reflexivity|]. split; [by apply Forall_nil|done].
Qed.

(** The default of [computeValidity] keeps the promise, by the promise of [computeTruth]. *)
Lemma default_validity_promise {S} (I : S -> Prop) sizes (truth : Query -> SM S solver_error bool) q :
  (forall q, query_ok sizes q -> consistent q -> defined q -> promises I (truth q) (truth_ok q)) ->
  query_ok sizes q -> consistent q -> defined q -> promises I (default_computeValidity truth q) (validity_ok q).
Proof.
  intros Ht Hq Hc Hd. eapply promises_bind; [by apply Ht|]. intros [] Htrue; [by apply promises_ret|].
  eapply promises_bind; [by apply Ht; [apply negate_ok| |apply negate_defined]|].
  intros [] Hfalse; apply promises_ret; [by apply negate_must_true|]. split; [by apply negate_may_false|done].
Qed.
End negation.

(** * An implementation that tries inputs *)

(** For the witnesses: it answers by an input among the candidates, or fails. *)
Section search.
Context `{Laws : APIntLaws, AssertPolicy} (candidates : list Assignment).

Definition evalsb (σ : assignment) (e : expr) (b : bool) : bool := bool_decide (eval σ e = Some (bool_ap b)).
Definition modelb (q : Query) (b : bool) (a : Assignment) : bool :=
  forallb (fun c => evalsb (input_of a) c true) (q_constraints q) && evalsb (input_of a) (q_expr q) b.
Definition bytesb (a : Array) (bytes : list Z) : bool :=
  (Z.of_nat (length bytes) =? arr_size a) && forallb (fun b => (0 <=? b) && (b <? 256)) bytes.
Fixpoint values_in (a : Array) (cand : Assignment) : list Z :=
  match cand with
  | [] => replicate (Z.to_nat (arr_size a)) 0
  | (a', bytes) :: cand => if decide (a = a') then bytes else values_in a cand
  end.
Definition search_values (q : Query) (objects : list Array) (cand : Assignment) : option (list (list Z)) :=
  let values := (fun a => values_in a cand) <$> objects in
  if forallb (fun p => bytesb p.1 p.2) (zip objects values) && modelb q false (zip objects values) then Some values else None.
Fixpoint first_of {A} (f : Assignment -> option A) (l : list Assignment) : option A :=
  match l with [] => None | a :: l => match f a with Some r => Some r | None => first_of f l end end.
Definition found {A} (o : option A) : SM unit solver_error A :=
  match o with Some a => sm_ret a | None => sm_throw Failed end.
Definition test_model (q : Query) (b : bool) : option unit :=
  first_of (fun a => if modelb q b a then Some tt else None) candidates.

Definition search_impl : SolverImpl unit := mkSolverImpl
  (fun q => found ((fun _ => false) <$> test_model q false))
  (fun q => found (match test_model q false, test_model q true with Some _, Some _ => Some ValidUnknown | _, _ => None end))
  (fun q => found (first_of (fun a =>
     if forallb (fun c => evalsb (input_of a) c true) (q_constraints q) then EConstant <$> eval (input_of a) (q_expr q) else None)
     candidates))
  (fun q objects => found (Some <$> first_of (search_values q objects) candidates)).

Lemma first_of_Some {A} (f : Assignment -> option A) l r : first_of f l = Some r -> exists a, f a = Some r.
Proof. induction l as [|a l IH]; [done|]. cbn. destruct (f a) eqn:Hf; [intros [= <-]; by exists a|done]. Qed.
Lemma holdsb_spec σ L : forallb (fun c => evalsb σ c true) L = true -> Forall (holds σ) L.
Proof.
  intros Hf. apply Forall_forall. intros c Hc. rewrite forallb_forall in Hf.
  exact (bool_decide_eq_true_1 _ (Hf c (proj1 (list_elem_of_In _ _) Hc))).
Qed.
Lemma modelb_spec q b a : modelb q b a = true ->
  Forall (holds (input_of a)) (q_constraints q) /\ evals (input_of a) (q_expr q) b.
Proof. intros [Hc He]%andb_true_iff. split; [by apply holdsb_spec|exact (bool_decide_eq_true_1 _ He)]. Qed.
Lemma test_model_spec q b u : test_model q b = Some u ->
  exists σ, Forall (holds σ) (q_constraints q) /\ evals σ (q_expr q) b.
Proof.
  intros (a & Ha)%first_of_Some. destruct (modelb q b a) eqn:Hm; [|done]. exists (input_of a). by apply modelb_spec.
Qed.
Lemma found_promise {A} (o : option A) (P : A -> Prop) :
  (forall a, o = Some a -> P a) -> promises (fun _ => True) (found o) P.
Proof. intros Ho s _. destruct o; cbn; auto. Qed.
Lemma bytesb_spec objects values : length values = length objects ->
  forallb (fun p => bytesb p.1 p.2) (zip objects values) = true -> Forall2 values_of objects values.
Proof.
  revert values. induction objects as [|a objects IH]; intros [|bytes values]; try done. cbn. intros [= Hl] [Ha Hb]%andb_true_iff.
  constructor; [|by apply IH]. apply andb_true_iff in Ha as [Hlen%Z.eqb_eq Hbs]. split; [done|].
  apply Forall_forall. intros b Hin. rewrite forallb_forall in Hbs.
  specialize (Hbs b (proj1 (list_elem_of_In _ _) Hin)). unfold byte_ok. lia.
Qed.

Lemma search_impl_ok sizes : impl_ok sizes search_impl (fun _ => True).
Proof.
  split; intros q; intros; apply found_promise.
  - intros b Hb. destruct (test_model q false) as [u|] eqn:Hm; [|done]. injection Hb as <-.
    destruct (test_model_spec q false u Hm) as (σ & Hc & He). exists σ. split; [by apply holds_allow|].
    intros Hh. by apply (not_both _ _ Hh).
  - intros v Hv. destruct (test_model q false) as [u|] eqn:Hf; [|done].
    destruct (test_model q true) as [u'|] eqn:Ht; [|done]. injection Hv as <-.
    destruct (test_model_spec q false u Hf) as (σ & Hc & He), (test_model_spec q true u' Ht) as (σ' & Hc' & He').
    split; [exists σ'|exists σ]; (split; [by apply holds_allow|]); [by apply not_both|].
    intros Hh. by apply (not_both _ _ Hh).
  - intros r (a & Ha)%first_of_Some. destruct (forallb _ _) eqn:Hc; [|done].
    destruct (eval (input_of a) (q_expr q)) as [v|] eqn:Hv; [|done]. injection Ha as <-.
    exists (input_of a), v. split; [by apply holds_allow, holdsb_spec|done].
  - intros o Ho. destruct (first_of _ _) as [values|] eqn:Hf; [|done]. injection Ho as <-.
    apply first_of_Some in Hf as (cand & Hs). unfold search_values in Hs.
    destruct (_ && _) eqn:Hb; [|done]. injection Hs as <-. apply andb_true_iff in Hb as [Hb Hm].
    split; [apply bytesb_spec; [apply length_fmap|done]|].
    apply modelb_spec in Hm as [Hc He]. split; [by apply holds_allow|].
    apply holds_allows. by apply (isZero_evals _ _ false).
Qed.
End search.
