(* ===== verification/KEval.v ===== *)
(** KLEE's assignments (klee/Expr/Assignment.h, ExprEvaluator.cpp): the bytes of some arrays, and
    the evaluation of an expression under them, a visitor that folds what it can.  Where the
    expression has a value, the result is the constant. *)
From S2P Require Import Prelude Bits APInt KExpr KBuilder KBuilderSound KType KCreate KCreateShape KCreateSound KVisitor KConstraints KReads RangeBounds KRange Concolic PathTrace KSolver.

(** * The evaluator *)

Section evaluator.
Context `{APInt} (getInitialValue : Array -> Z -> expr).

(** [ExprEvaluator::visitExpr]: whether all operands are constants. *)
Definition constant_kids (e : expr) : bool :=
  match e with
  | EConstant _ | ERead _ _ => false
  | _ => forallb is_const (getKids e)
  end.
(** The visit of the operands when an action is [DoChildren]; the visitor is not recursive. *)
Definition do_children (visit : expr -> visited_ty -> option (expr * visited_ty)) (e : expr) (visited : visited_ty) :
    option (expr * visited_ty) :=
  '(kids, visited) ← visit_kids visit (getKids e) visited;
  Some (if decide (kids = getKids e) then e else rebuild e kids, visited).
(** [visitRead]; [None] is the failed assertion of [getZExtValue]. *)
Definition eval_visitRead (visit : expr -> visited_ty -> option (expr * visited_ty)) (a : Array) (index : expr)
    (visited : visited_ty) : option (expr * visited_ty) :=
  '(v, visited) ← visit index visited;
  match v with
  | EConstant CE => i ← getZExtValue CE 64; Some (getInitialValue a (u32 i), visited)
  | _ => do_children visit (ERead a index) visited
  end.
(** [protectedDivOperation] *)
Definition protectedDivOperation (visit : expr -> visited_ty -> option (expr * visited_ty)) (k : Kind.arith) (l r : expr)
    (visited : visited_ty) : option (expr * visited_ty) :=
  '(kid0, visited) ← visit l visited;
  '(kid1, visited) ← visit r visited;
  let kid1 := match kid1 with EConstant CE => if isZero CE then r else kid1 | _ => kid1 end in
  Some (if decide (kid0 = l /\ kid1 = r) then EArith k l r else rebuild (EArith k l r) [kid0; kid1], visited).
(** [visitActual] on an expression that is not constant. *)
Definition eval_visitActual (visit : expr -> visited_ty -> option (expr * visited_ty)) (e : expr) (visited : visited_ty) :
    option (expr * visited_ty) :=
  if constant_kids e then Some (rebuild e (getKids e), visited) else
  match e with
  | ERead a i => eval_visitRead visit a i visited
  | EArith k l r => if Kind.is_div k then protectedDivOperation visit k l r visited else do_children visit e visited
  | _ => do_children visit e visited
  end.
(** [visit]; the size of the expression is fuel enough ([eval_visit_spec]). *)
Fixpoint eval_visit (fuel : nat) (e : expr) (visited : visited_ty) : option (expr * visited_ty) :=
  match fuel with
  | O => None
  | S fuel =>
      if is_const e then Some (e, visited) else
      match find e visited with
      | Some r => Some (r, visited)
      | None =>
          '(r, visited) ← eval_visitActual (eval_visit fuel) e visited;
          Some (r, insert_pair e r visited)
      end
  end.
End evaluator.

(** * Assignments *)

Abbreviation bindings_ty := (gmap Array (list Z)).
Record KAssignment := mkAssignment { allowFreeValues : bool; bindings : bindings_ty }.
(** The constructor; [insert] keeps the first binding of an array. *)
Definition Assignment_new (objects : list Array) (values : list (list Z)) (allow : bool) : KAssignment :=
  mkAssignment allow (list_to_map (zip objects values)).

Section assignment.
Context `{APInt} (a : KAssignment).

Definition evaluate_byte (array : Array) (index : Z) : expr :=
  let other := if allowFreeValues a then ERead array (EConstant (CE_alloc index Int32)) else EConstant (CE_alloc 0 Int8) in
  match bindings a !! array with
  | Some bytes => match bytes !! Z.to_nat index with Some b => EConstant (CE_alloc b Int8) | None => other end
  | None => other
  end.
(** [Assignment::evaluate(ref<Expr>)], of one visitor. *)
Definition evaluate_in (e : expr) (visited : visited_ty) : option (expr * visited_ty) :=
  eval_visit evaluate_byte (expr_size e) e visited.
Definition evaluate (e : expr) : option expr := fst <$> evaluate_in e [].
(** [Expr::isTrue] and [isFalse] *)
Definition expr_isTrue (e : expr) : bool := match e with EConstant c => isTrue c | _ => false end.
Definition expr_isFalse (e : expr) : bool := match e with EConstant c => isFalse c | _ => false end.
(** [satisfies]: one visitor for all expressions. *)
Fixpoint satisfies_from (es : list expr) (visited : visited_ty) : option bool :=
  match es with
  | [] => Some true
  | e :: es => '(r, visited) ← evaluate_in e visited; if expr_isTrue r then satisfies_from es visited else Some false
  end.
Definition satisfies_all (es : list expr) : option bool := satisfies_from es [].
(** [createConstraintsFromAssignment], with the equalities of one array; [None] is an index out of
    the values. *)
Definition array_constraints (array : Array) (values : list Z) : option ConstraintSet :=
  mapM (fun i => v ← values !! i;
                 Some (EqExpr_create (ERead array (EConstant (CE_alloc (Z.of_nat i) Int32))) (EConstant (CE_alloc v Int8))))
       (seq 0 (Z.to_nat (arr_size array))).
Definition createConstraintsFromAssignment : option ConstraintSet :=
  @concat expr <$> mapM (fun b : Array * list Z => array_constraints b.1 b.2) (map_to_list (bindings a)).
End assignment.

(** * Lemmas *)

Section types.
Context `{Laws : APIntLaws}.
Ltac kid_types :=
  repeat match goal with
  | H : type_of ?x = type_of ?y, H' : type_of ?y = Some _ |- _ => rewrite H' in H
  end.
Lemma rebuild_type e kids w : type_of e = Some w -> Forall2 same_type (getKids e) kids ->
  type_of (rebuild e kids) = Some w.
Proof.
  intros He Hk. unfold same_type in Hk.
  destruct e; cbn [getKids] in *;
    repeat match goal with
    | H : Forall2 _ (_ :: _) _ |- _ => apply Forall2_cons_inv_l in H as (? & ? & ? & ? & ->)
    | H : Forall2 _ [] _ |- _ => apply Forall2_nil_inv_l in H as ->
    end; cbn [rebuild].
  - done.
  - apply type_read_inv in He as (-> & u & Hu). kid_types. by eapply type_read.
  - apply type_select_inv in He as (? & ? & ?). kid_types. by eapply Select_shape.
  - apply type_concat_inv in He as (? & ? & ? & ? & ->). kid_types. by eapply Concat_shape.
  - apply type_extract_inv in He as (-> & ? & ? & ? & ? & ?). kid_types. by eapply Extract_shape.
  - apply type_zext_inv in He as (-> & ? & ? & ?). kid_types. by eapply ZExt_shape.
  - apply type_sext_inv in He as (-> & ? & ? & ?). kid_types. by eapply SExt_shape.
  - cbn [type_of] in He. kid_types. by eapply Not_shape.
  - apply type_arith_inv in He as [? ?]. kid_types. by eapply arith_create_shape.
  - apply type_cmp_inv in He as (-> & ? & ? & ?). kid_types. by eapply cmp_create_shape.
Qed.

(** Rebuilding with constants folds. *)
Lemma rebuild_const e kids : (forall a i, e <> ERead a i) -> is_const e = false ->
  length kids = length (getKids e) -> Forall (fun k => is_const k = true) kids -> is_const (rebuild e kids) = true.
Proof.
  intros He Hne Hlen Hk. pose proof create_builder_laws as HL. apply Is_true_true.
  assert (forall k, is_const k = true -> is_const k) as Hc by (intros k ->; done).
  destruct e; cbn [getKids length] in Hlen;
    repeat (destruct kids as [|? kids]; [discriminate Hlen|cbn in Hlen]); try (destruct kids; [|discriminate Hlen]);
    cbn [rebuild]; rewrite ?Forall_cons in Hk; repeat match goal with H : _ /\ _ |- _ => destruct H end; auto.
  - by edestruct He.
  - apply (bSelect_const (BuilderLaws := HL)); auto.
  - apply (bConcat_const (BuilderLaws := HL)); auto.
  - apply (bExtract_const (BuilderLaws := HL)); auto.
  - apply (bZExt_const (BuilderLaws := HL)); auto.
  - apply (bSExt_const (BuilderLaws := HL)); auto.
  - apply (bNot_const (BuilderLaws := HL)); auto.
  - apply (bArith_const (BuilderLaws := HL)); auto.
  - apply (bCmp_const (BuilderLaws := HL)); auto.
Qed.
End types.

Section evaluation.
Context `{Laws : APIntLaws} (σ : assignment) (getInitialValue : Array -> Z -> expr) (known : Array -> Prop).
Hypothesis init_type : forall a i, type_of (getInitialValue a i) = Some Int8.
Hypothesis init_value : forall a i, known a -> 0 <= i < arr_size a -> i < 2 ^ 32 ->
  getInitialValue a i = EConstant (AP 8 (wrap 8 (σ (arr_name a) i))).

Definition indices_ok (e : expr) : Prop := Forall (fun r => type_of r.2 = Some Int32) (all_reads e).
(** What the evaluation of [e] may return. *)
Definition evaluates (e r : expr) : Prop :=
  forall w, type_of e = Some w -> indices_ok e ->
    type_of r = Some w /\ forall v, Forall known (arrays e) -> eval σ e = Some v -> r = EConstant v.
Definition evaluator_ok (visit : expr -> visited_ty -> option (expr * visited_ty)) (e : expr) : Prop :=
  forall w, type_of e = Some w -> indices_ok e ->
  forall visited, Forall (fun p => evaluates p.1 p.2) visited ->
    exists r visited', visit e visited = Some (r, visited') /\ evaluates e r /\
      Forall (fun p => evaluates p.1 p.2) visited'.

Lemma kids_idx (P : Array * expr -> Prop) e : Forall P (all_reads e) -> Forall (fun k => Forall P (all_reads k)) (getKids e).
Proof.
  intros He. apply Forall_forall. intros k Hk. apply Forall_forall. intros r Hr.
  apply (proj1 (Forall_forall _ _) He), all_reads_kids. right. apply Exists_exists. by exists k.
Qed.
Lemma kids_known e : Forall known (arrays e) -> Forall (fun k => Forall known (arrays k)) (getKids e).
Proof.
  unfold arrays. rewrite Forall_fmap. intros He. apply kids_idx in He. eapply Forall_impl; [exact He|].
  intros k Hk. by rewrite Forall_fmap.
Qed.

(** The constants the operands of an expression with a value become. *)
Lemma kids_folded e kids v : Forall2 evaluates (getKids e) kids -> (exists w, type_of e = Some w) ->
  indices_ok e -> Forall known (arrays e) -> eval σ e = Some v ->
  Forall2 (fun k r => exists u, eval σ k = Some u /\ r = EConstant u) (getKids e) kids.
Proof.
  intros Hk [w Hw] Hi Hn Hv. pose proof (kids_typed e w Hw) as Ht. pose proof (kids_have_values σ e v Hv) as Hval.
  apply kids_idx in Hi. apply kids_known in Hn.
  induction Hk as [|k r ks rs Hkr _ IH]; [constructor|].
  apply Forall_cons in Ht as [[u Hu] Ht], Hval as [[x Hx] Hval], Hi as [Hi His], Hn as [Hn Hns].
  constructor; [|by apply IH]. exists x. split; [done|]. by apply (Hkr u Hu Hi).
Qed.
Lemma kids_typed_alike e kids w : Forall2 evaluates (getKids e) kids -> type_of e = Some w -> indices_ok e ->
  Forall2 same_type (getKids e) kids.
Proof.
  intros Hk Hw Hi. pose proof (kids_typed e w Hw) as Ht. apply kids_idx in Hi.
  induction Hk as [|k r ks rs Hkr _ IH]; [constructor|].
  apply Forall_cons in Ht as [[u Hu] Ht], Hi as [Hi His]. constructor; [|by apply IH].
  unfold same_type. rewrite Hu. by apply (Hkr u Hu Hi).
Qed.
Lemma folded_rebuild e kids v : (forall a i, e <> ERead a i) -> is_const e = false ->
  Forall2 (fun k r => exists u, eval σ k = Some u /\ r = EConstant u) (getKids e) kids -> eval σ e = Some v ->
  rebuild e kids = EConstant v /\ (kids = getKids e -> constant_kids e = true).
Proof.
  intros Hr Hc Hk Hv.
  assert (Forall (fun k => is_const k = true) kids) as Hconst.
  { clear -Hk. induction Hk as [|k r ks rs (u & _ & ->) _ IH]; by constructor. }
  assert (Forall2 (same_value σ) (getKids e) kids) as Hsame.
  { clear -Hk. induction Hk as [|k r ks rs (u & Hu & ->) _ IH]; constructor; [|done].
    intros v Hv. rewrite Hu in Hv. injection Hv as <-. apply eval_constant. by eapply eval_wf. }
  split.
  - pose proof (rebuild_const e kids Hr Hc (eq_sym (Forall2_length _ _ _ Hk)) Hconst) as Hrc.
    apply (const_value σ); [by rewrite Hrc|by apply (rebuild_sound σ e kids Hsame)].
  - intros ->. assert (forallb is_const (getKids e) = true) as Hall.
    { apply forallb_forall. intros k Hin. apply (proj1 (Forall_forall _ _) Hconst). by apply list_elem_of_In. }
    destruct e; try done. by edestruct Hr.
Qed.

Lemma visit_kids_evaluates visit es : Forall (evaluator_ok visit) es ->
  Forall (fun k => exists u, type_of k = Some u) es -> Forall indices_ok es -> forall visited,
  Forall (fun p => evaluates p.1 p.2) visited ->
  exists rs visited', visit_kids visit es visited = Some (rs, visited') /\ Forall2 evaluates es rs /\
    Forall (fun p => evaluates p.1 p.2) visited'.
Proof.
  induction 1 as [|e es He _ IH]; intros Ht Hi visited Hc; cbn [visit_kids].
  { by exists [], visited. }
  apply Forall_cons in Ht as [[w Hw] Ht], Hi as [Hi His].
  destruct (He w Hw Hi visited Hc) as (r & visited1 & -> & Hr & Hc1). cbn.
  destruct (IH Ht His visited1 Hc1) as (rs & visited2 & -> & Hrs & Hc2). cbn.
  eexists _, _. split; [done|]. by split; [constructor|].
Qed.

Lemma do_children_evaluates visit e : is_const e = false -> constant_kids e = false ->
  (forall a i, e = ERead a i -> exists visited r visited', visit i visited = Some (r, visited') /\ evaluates i r /\ is_const r = false) ->
  Forall (evaluator_ok visit) (getKids e) -> evaluator_ok (do_children visit) e.
Proof.
  intros Hc Hck Hread Hk w0 Hw0 Hi0 visited Hv. unfold do_children.
  destruct (visit_kids_evaluates visit _ Hk (kids_typed e w0 Hw0) (kids_idx _ e Hi0) visited Hv) as (kids & visited' & -> & Hks & Hv'). cbn [mbind option_bind].
  eexists _, _. split; [done|]. split; [|done]. intros w Hw Hi. split.
  - destruct (decide _); [done|]. eapply rebuild_type; [done|]. by eapply kids_typed_alike.
  - intros v Hn Hev.
    assert (forall a i, e <> ERead a i) as Hnot.
    { intros a i ->. destruct (Hread a i eq_refl) as (? & r & ? & _ & Hr & Hrc).
      apply type_read_inv in Hw as (_ & u & Hu). apply kids_idx in Hi. apply kids_known in Hn.
      pose proof (kids_have_values σ _ v Hev) as Hval. cbn [getKids] in Hi, Hn, Hval.
      rewrite Forall_singleton in Hi, Hn, Hval. destruct Hval as [z Hz].
      by rewrite (proj2 (Hr u Hu Hi) z Hn Hz) in Hrc. }
    pose proof (kids_folded e kids v Hks (ex_intro _ w Hw) Hi Hn Hev) as Hf.
    destruct (folded_rebuild e kids v Hnot Hc Hf Hev) as [Hr Hsame].
    destruct (decide _) as [Heq|]; [|done]. by rewrite Hsame in Hck.
Qed.

Lemma visitRead_evaluates visit a i : evaluator_ok visit i ->
  evaluator_ok (fun _ visited => eval_visitRead getInitialValue visit a i visited) (ERead a i).
Proof.
  intros Hi w Hw Hx visited Hv. pose proof Hx as Hx'. unfold indices_ok in Hx'. cbn [all_reads] in Hx'.
  apply Forall_cons in Hx' as [Hidx Hidxs]. cbn in Hidx.
  destruct (Hi Int32 Hidx Hidxs visited Hv) as (r & visited1 & Hvis & Hr & Hv1).
  unfold eval_visitRead. rewrite Hvis. cbn [mbind option_bind]. destruct (Hr Int32 Hidx Hidxs) as [Hrt Hval].
  destruct (is_const r) eqn:Hrc.
  2: { assert (exists r0 visited', do_children visit (ERead a i) visited1 = Some (r0, visited') /\
         evaluates (ERead a i) r0 /\ Forall (fun p => evaluates p.1 p.2) visited') as Hd.
       { eapply (do_children_evaluates visit (ERead a i)); [done|done| |by constructor|exact Hw|done|done].
         intros ? ? [= <- <-]. by exists visited, r, visited1. }
       by destruct r. }
  destruct r as [c| | | | | | | | |]; try done. apply type_constant in Hrt as [Hwf Hcw].
  assert (0 <= ap_val c < 2 ^ 32) as Hrange by (pose proof (wf_range c Hwf) as Hcr; by rewrite Hcw in Hcr).
  unfold getZExtValue. rewrite Hcw. cbn [mbind option_bind].
  change (Int32 <=? 64) with true. cbn [mbind option_bind]. rewrite wrap_small by done.
  eexists _, _. split; [done|]. split; [|done].
  intros w' Hw' _. apply type_read_inv in Hw' as [-> _]. split; [apply init_type|].
  intros v Hk Hev. unfold arrays in Hk. cbn in Hk. apply Forall_cons in Hk as [Hk Hks].
  cbn [eval] in Hev. unfold ev_read in Hev. destruct (eval σ i) as [u|] eqn:Hu; [|done]. cbn in Hev.
  specialize (Hval u Hks eq_refl). injection Hval as ->.
  destruct (Z.ltb_spec (ap_val u) (arr_size a)); [|done]. injection Hev as <-.
  rewrite init_value by (done || lia). done.
Qed.

Lemma protectedDiv_evaluates visit k l r : Kind.is_div k = true -> constant_kids (EArith k l r) = false ->
  Forall (evaluator_ok visit) [l; r] ->
  evaluator_ok (fun _ visited => protectedDivOperation visit k l r visited) (EArith k l r).
Proof.
  intros Hdiv Hck Hk w Hw Hx visited Hv. set (e := EArith k l r) in *.
  destruct (visit_kids_evaluates visit _ Hk (kids_typed e w Hw) (kids_idx _ e Hx) visited Hv)
    as (kids & visited' & Hvis & Hks & Hv'). cbn [visit_kids] in Hvis.
  unfold protectedDivOperation. destruct (visit l visited) as [[kid0 visited1]|]; [|done]. cbn [mbind option_bind] in *.
  destruct (visit r visited1) as [[kid1 visited2]|]; [|done]. cbn [mbind option_bind] in *. injection Hvis as <- <-.
  set (kid1' := match kid1 with EConstant CE => if isZero CE then r else kid1 | _ => kid1 end).
  eexists _, _. split; [done|]. split; [|done].
  assert (forall w, type_of e = Some w -> indices_ok e -> Forall2 same_type (getKids e) [kid0; kid1']) as Htypes.
  { intros w' Hw' _. pose proof (kids_typed_alike e _ w' Hks Hw' Hx) as Ha. cbn [getKids e] in *.
    apply Forall2_cons in Ha as [Ha Hb]. apply Forall2_cons in Hb as [Hb _]. constructor; [done|]. constructor; [|done].
    subst kid1'. destruct kid1; try done. by destruct (isZero value). }
  intros w' Hw' _. split.
  - destruct (decide _); [done|]. eapply rebuild_type; [done|by eapply Htypes].
  - intros v Hn Hev. pose proof (kids_folded e _ v Hks (ex_intro _ w' Hw') Hx Hn Hev) as Hf. cbn [getKids e] in Hf.
    assert (kid1' = kid1) as Hsame.
    { apply Forall2_cons in Hf as [_ Hf]. apply Forall2_cons in Hf as [(u & Hu & Hku) _]. subst kid1' kid1.
      cbn [eval e] in Hev. unfold ev_arith in Hev. rewrite Hu in Hev. destruct (eval σ l); [|done]. cbn in Hev.
      unfold arith_ok in Hev. rewrite Hdiv in Hev. unfold isZero. destruct (ap_val u =? 0); [|done].
      by rewrite andb_false_r in Hev. }
    rewrite Hsame. destruct (folded_rebuild e [kid0; kid1] v ltac:(done) eq_refl Hf Hev) as [Hr Hall].
    destruct (decide _) as [[-> ->]|]; [|done]. by rewrite Hall in Hck.
Qed.

Lemma const_kids_evaluates e : constant_kids e = true -> evaluates e (rebuild e (getKids e)).
Proof.
  intros Hck w Hw Hi. assert (Forall2 evaluates (getKids e) (getKids e)) as Hk.
  { assert (forallb is_const (getKids e) = true) as Hall by (by destruct e).
    rewrite forallb_forall in Hall. assert (Forall (fun k => is_const k = true) (getKids e)) as Hc.
    { apply Forall_forall. intros k Hin. by apply Hall, list_elem_of_In. }
    clear -Hc. induction Hc as [|k ks Hk _ IH]; constructor; [|done]. intros w Hw _. split; [done|].
    intros v _ Hv. destruct k; try done. by apply eval_constant_inv in Hv as [-> _]. }
  split; [eapply rebuild_type; [done|by eapply kids_typed_alike]|].
  intros v Hn Hev. apply (folded_rebuild e _ v); [by destruct e|by destruct e| |done]. by eapply kids_folded; [|exists w|..].
Qed.

(** Every evaluation of a typed expression returns: no assertion fails, and the fuel is enough. *)
Lemma eval_visit_spec fuel : forall e, (expr_size e <= fuel)%nat -> evaluator_ok (eval_visit getInitialValue fuel) e.
Proof.
  induction fuel as [|fuel IH]; intros e Hf w Hw Hi visited Hv; [destruct e; cbn in Hf; lia|]. cbn [eval_visit].
  destruct (is_const e) eqn:Hc.
  { eexists _, _. split; [done|]. split; [|done]. intros w' Hw' _. split; [done|]. intros v _ Hev.
    destruct e; try done. by apply eval_constant_inv in Hev as [-> _]. }
  destruct (find e visited) as [r|] eqn:Hfind.
  { eexists _, _. split; [done|]. split; [|done].
    clear -Hfind Hv. induction Hv as [|[k r'] m Hk _ IH]; [done|]. cbn in Hfind.
    destruct (decide (e = k)) as [->|]; [by injection Hfind as <-|by apply IH]. }
  assert (Forall (evaluator_ok (eval_visit getInitialValue fuel)) (getKids e)) as Hkids.
  { apply Forall_forall. intros k Hin. apply IH. pose proof (kid_size e k Hin). lia. }
  assert (exists r visited', eval_visitActual getInitialValue (eval_visit getInitialValue fuel) e visited = Some (r, visited') /\
    evaluates e r /\ Forall (fun p => evaluates p.1 p.2) visited') as (r & visited' & -> & Hr & Hv').
  { unfold eval_visitActual. destruct (constant_kids e) eqn:Hck.
    { eexists _, _. split; [done|]. split; [by apply const_kids_evaluates|done]. }
    destruct e; try done; try (by eapply do_children_evaluates; [..|exact Hw|done|done]).
    - apply (visitRead_evaluates _ _ _ (proj1 (proj1 (Forall_cons _ _ _) Hkids)) w Hw Hi visited Hv).
    - destruct (Kind.is_div k) eqn:Hd; [|by eapply do_children_evaluates; [..|exact Hw|done|done]].
      by apply (protectedDiv_evaluates _ _ _ _ Hd Hck Hkids w Hw Hi visited Hv). }
  cbn. eexists _, _. split; [done|]. split; [done|].
  unfold insert_pair. destruct (find e visited'); [done|by constructor].
Qed.
End evaluation.

(** ** Evaluation under an assignment *)

Section values.
Context `{Laws : APIntLaws} (sizes : string -> Z).

(** The input that bindings describe: bytes without a binding are zero. *)
Definition input_of_bindings (b : bindings_ty) : assignment := fun name i =>
  default 0 (default [] (b !! mkArray name (sizes name)) !! Z.to_nat i).
Definition bindings_ok (b : bindings_ty) : Prop := map_Forall values_of b.
(** The arrays of the expression are bound, unless free values are zeros. *)
Definition bound (A : KAssignment) (e : expr) : Prop :=
  allowFreeValues A = true -> forall a, a ∈ arrays e -> is_Some (bindings A !! a).

Lemma array_ok_eq a : array_ok sizes a -> mkArray (arr_name a) (sizes (arr_name a)) = a.
Proof. intros [Hs _]. destruct a as [n s]. cbn in *. by rewrite Hs. Qed.

Lemma evaluate_byte_type A a i : type_of (evaluate_byte A a i) = Some Int8.
Proof.
  unfold evaluate_byte. destruct (bindings A !! a) as [bytes|]; [destruct (bytes !! _)|];
    try (destruct (allowFreeValues A)); by first [apply type_alloc|eapply type_read, type_alloc].
Qed.
Lemma evaluate_byte_value A a i : bindings_ok (bindings A) -> array_ok sizes a ->
  (allowFreeValues A = true -> is_Some (bindings A !! a)) -> 0 <= i < arr_size a ->
  evaluate_byte A a i = EConstant (AP 8 (wrap 8 (input_of_bindings (bindings A) (arr_name a) i))).
Proof.
  intros Hb Ha Hfree Hi. unfold evaluate_byte, input_of_bindings. rewrite (array_ok_eq a Ha).
  destruct (bindings A !! a) as [bytes|] eqn:Hl; cbn.
  - destruct (Hb a bytes Hl) as [Hlen _]. destruct (lookup_lt_is_Some_2 bytes (Z.to_nat i)) as [b Hbyte]; [lia|].
    rewrite Hbyte. reflexivity.
  - destruct (allowFreeValues A); [by destruct (Hfree eq_refl)|]. reflexivity.
Qed.

Lemma parts_ok_indices e : parts_ok sizes e -> indices_ok e.
Proof. intros [Hr _]. eapply Forall_impl; [exact Hr|]. by intros r (_ & [? _] & _). Qed.
Lemma parts_ok_arrays e : parts_ok sizes e -> Forall (array_ok sizes) (arrays e).
Proof. intros [Hr _]. unfold arrays. rewrite Forall_fmap. eapply Forall_impl; [exact Hr|]. by intros r (? & _). Qed.

(** The visits of one evaluator under the assignment. *)
Definition evaluated (A : KAssignment) (e r : expr) : Prop :=
  evaluates (input_of_bindings (bindings A))
    (fun a => array_ok sizes a /\ (allowFreeValues A = true -> is_Some (bindings A !! a))) e r.
Lemma evaluate_in_spec A e w visited : bindings_ok (bindings A) -> type_of e = Some w -> parts_ok sizes e ->
  Forall (fun p => evaluated A p.1 p.2) visited ->
  exists r visited', evaluate_in A e visited = Some (r, visited') /\ evaluated A e r /\
    Forall (fun p => evaluated A p.1 p.2) visited'.
Proof.
  intros Hb Hw Hr Hv. unfold evaluate_in.
  eapply eval_visit_spec; [apply evaluate_byte_type| |reflexivity|exact Hw|by apply parts_ok_indices|exact Hv].
  intros a i [Ha Hf] Hi _. by apply evaluate_byte_value.
Qed.
Lemma evaluated_value A e r w : evaluated A e r -> type_of e = Some w -> parts_ok sizes e -> bound A e ->
  type_of r = Some w /\ forall v, eval (input_of_bindings (bindings A)) e = Some v -> r = EConstant v.
Proof.
  intros He Hw Hr Hbd. destruct (He w Hw (parts_ok_indices e Hr)) as [Ht Hv]. split; [done|]. intros v Hev.
  apply Hv; [|done]. apply Forall_forall. intros a Ha. split; [|intros Hf; by apply Hbd].
  by apply (proj1 (Forall_forall _ _) (parts_ok_arrays e Hr)).
Qed.

(** Evaluation under an assignment is the value: of a typed expression it returns an expression
    of the same type, which is the constant wherever the expression has a value under the bytes
    bound (and, unless free values are allowed, zeros elsewhere), divisions that it protects
    included. *)
Theorem evaluate_correct A e w : bindings_ok (bindings A) -> type_of e = Some w -> parts_ok sizes e -> bound A e ->
  exists r, evaluate A e = Some r /\ type_of r = Some w /\
    forall v, eval (input_of_bindings (bindings A)) e = Some v -> r = EConstant v.
Proof.
  intros Hb Hw Hr Hbd. destruct (evaluate_in_spec A e w [] Hb Hw Hr) as (r & vs & He & Hev & _); [constructor|].
  exists r. unfold evaluate. rewrite He. split; [done|]. by apply evaluated_value.
Qed.

Lemma isTrue_iff (c : apint) b : c = bool_ap b -> isTrue c = b.
Proof. intros ->. by destruct b. Qed.
(** [satisfies] answers; a true answer is an input that allows all, a false one is not an input
    under which all hold. *)
Lemma satisfies_from_spec A es : forall visited, bindings_ok (bindings A) -> Forall (expr_ok sizes) es -> Forall (bound A) es ->
  Forall (fun p => evaluated A p.1 p.2) visited ->
  exists b, satisfies_from A es visited = Some b /\
    (b = true -> Forall (allows (input_of_bindings (bindings A))) es) /\
    (b = false -> ~ Forall (holds (input_of_bindings (bindings A))) es).
Proof.
  induction es as [|e es IH]; intros visited Hb Hes Hbd Hv; cbn [satisfies_from].
  { exists true. split; [done|]. split; [constructor|done]. }
  apply Forall_cons in Hes as [[Ht Hr] Hes], Hbd as [Hbd Hbds].
  destruct (evaluate_in_spec A e Bool visited Hb Ht Hr Hv) as (r & vs & -> & He & Hvs). cbn [mbind option_bind].
  destruct (evaluated_value A e r Bool He Ht Hr Hbd) as [_ Hval]. destruct (expr_isTrue r) eqn:Htrue.
  - destruct (IH vs Hb Hes Hbds Hvs) as (b & -> & H1 & H2). exists b. split; [done|]. split.
    + intros Hbt. constructor; [|by apply H1]. intros Href. by rewrite (Hval _ Href) in Htrue.
    + intros Hbf [_ Hh]%Forall_cons. by apply H2.
  - exists false. split; [done|]. split; [done|]. intros _ [Hh _]%Forall_cons. by rewrite (Hval _ Hh) in Htrue.
Qed.
Lemma satisfies_spec A es : bindings_ok (bindings A) -> Forall (expr_ok sizes) es -> Forall (bound A) es ->
  exists b, satisfies_all A es = Some b /\
    (b = true -> Forall (allows (input_of_bindings (bindings A))) es) /\
    (b = false -> ~ Forall (holds (input_of_bindings (bindings A))) es).
Proof. intros Hb Hes Hbd. apply satisfies_from_spec; [done..|constructor]. Qed.

(** The bindings of objects and their values describe the input of the pairs. *)
Lemma input_of_zip objects : forall values, Forall (array_ok sizes) objects ->
  forall name i, input_of (zip objects values) name i = input_of_bindings (list_to_map (zip objects values)) name i.
Proof.
  induction objects as [|a objects IH]; intros values Ho name i; [by unfold input_of_bindings; cbn; rewrite lookup_empty|].
  destruct values as [|bytes values]; [by unfold input_of_bindings; cbn; rewrite lookup_empty|].
  apply Forall_cons in Ho as [Ha Ho]. cbn [zip zip_with input_of]. specialize (IH values Ho name i).
  unfold input_of_bindings in *. cbn [list_to_map foldr]. destruct (String.eqb_spec name (arr_name a)) as [->|Hne].
  - rewrite (array_ok_eq a Ha). cbn. by rewrite lookup_insert_eq.
  - cbn. rewrite lookup_insert_ne; [exact IH|]. intros Heq. apply Hne. by rewrite Heq.
Qed.
Lemma eval_ext σ σ' e : (forall name i, σ name i = σ' name i) -> eval σ e = eval σ' e.
Proof. intros Heq. apply eval_agree, Forall_forall. intros r _ j _. by rewrite Heq. Qed.
(** Objects with the bytes a function gives them. *)
Lemma zip_lookup (f : Array -> list Z) objects a : a ∈ objects ->
  (list_to_map (zip objects (f <$> objects)) : bindings_ty) !! a = Some (f a).
Proof.
  induction objects as [|b objects IH]; [by intros ?%elem_of_nil|]. intros Hb. cbn. destruct (decide (b = a)) as [->|Hne].
  - by rewrite lookup_insert_eq.
  - rewrite lookup_insert_ne by done. apply IH. by apply elem_of_cons in Hb as [->|].
Qed.
Definition input_of_bytes (f : Array -> list Z) : assignment := fun name i => default 0 (f (mkArray name (sizes name)) !! Z.to_nat i).
Lemma input_of_zip_bytes f objects a i : Forall (array_ok sizes) objects -> a ∈ objects ->
  input_of (zip objects (f <$> objects)) (arr_name a) i = input_of_bytes f (arr_name a) i.
Proof.
  intros Ho Ha. rewrite (input_of_zip objects _ Ho). unfold input_of_bindings, input_of_bytes.
  by rewrite (array_ok_eq a (proj1 (Forall_forall _ _) Ho a Ha)), (zip_lookup f objects a Ha).
Qed.
Lemma eval_zip f objects e : Forall (array_ok sizes) objects -> (forall a, a ∈ arrays e -> a ∈ objects) ->
  eval (input_of (zip objects (f <$> objects))) e = eval (input_of_bytes f) e.
Proof.
  intros Ho He. apply eval_agree, Forall_forall. intros [a i] Hin j _. cbn. f_equal. apply input_of_zip_bytes; [done|].
  apply He. unfold arrays. by apply (list_elem_of_fmap_2 fst _ (a, i)).
Qed.
Lemma bindings_of_values objects values : Forall2 values_of objects values -> bindings_ok (list_to_map (zip objects values)).
Proof.
  induction 1 as [|a bytes objects values Ha _ IH]; cbn; [apply map_Forall_empty|].
  intros b bs [[<- <-]|[_ Hl]]%lookup_insert_Some; [done|by apply (IH b bs)].
Qed.
End values.

(** ** A witness: the second byte of a word divided by the first *)

Definition sample_array : Array := mkArray "word" 4.
Definition sample_division : expr := EArith Kind.UDiv (read_byte sample_array 1) (read_byte sample_array 0).
Lemma evaluate_correct_witness : exists r,
  evaluate (mkAssignment true {[sample_array := [6; 42; 0; 0]]}) sample_division = Some r /\ r = EConstant (AP 8 7).
Proof.
  destruct (evaluate_correct (fun _ => 4) (mkAssignment true {[sample_array := [6; 42; 0; 0]]}) sample_division 8)
    as (r & He & _ & Hv).
  - intros a bytes Hl. cbn [bindings] in Hl. apply lookup_singleton_Some in Hl as [<- <-]. split; [reflexivity|].
    repeat (apply Forall_cons; split; [done|]). by apply Forall_nil.
  - reflexivity.
  - split; [|by repeat split]. repeat (apply Forall_cons; split; [done|]). by apply Forall_nil.
  - intros _ a Ha. change (a ∈ [sample_array; sample_array]) in Ha.
    rewrite !elem_of_cons, elem_of_nil in Ha. exists [6; 42; 0; 0]. by destruct Ha as [->|[->|[]]].
  - exists r. split; [exact He|]. apply Hv. vm_compute. reflexivity.
Defined.
