(* ===== verification/KCompare.v ===== *)
(** The order of expressions (klee/lib/Expr/Expr.cpp, Updates.cpp): hash values, and the
    comparison of kinds, hash values, attributes and operands that sets and maps of
    expressions use; that it is a total order in which only equal expressions are equal. *)
From Stdlib Require Import Ascii.
From S2P Require Import Prelude Bits APInt KExpr KBuilder KCreate KReads.

(** * Orders *)

(** The interface of a comparison that sorted containers rely on: it is a strict total order. *)
Class Ordered (K : Type) (cmp : K -> K -> comparison) : Prop := {
  cmp_eq a b : cmp a b = Eq <-> a = b;
  cmp_opp a b : cmp b a = CompOpp (cmp a b);
  cmp_trans a b c : cmp a b = Lt -> cmp b c = Lt -> cmp a c = Lt;
}.
Lemma cmp_refl {K cmp} `{!Ordered K cmp} a : cmp a a = Eq.
Proof. by apply cmp_eq. Qed.

(** Where two are equal, the next comparison decides. *)
Definition and_then (c d : comparison) : comparison := match c with Eq => d | _ => c end.
Lemma and_then_assoc a b c : and_then (and_then a b) c = and_then a (and_then b c).
Proof. by destruct a. Qed.
Lemma and_then_eq a b : and_then a b = Eq <-> a = Eq /\ b = Eq.
Proof. by destruct a; split; [|intros []|..]; try done; intros []. Qed.

(** Lexicographic order of lists of integers. *)
Fixpoint lex (l m : list Z) : comparison :=
  match l, m with
  | [], [] => Eq
  | [], _ :: _ => Lt
  | _ :: _, [] => Gt
  | x :: l, y :: m => and_then (x ?= y) (lex l m)
  end.
#[export] Instance lex_ordered : Ordered (list Z) lex.
Proof.
  split.
  - induction a as [|x l IH]; intros [|y m]; cbn; try done. rewrite and_then_eq, Z.compare_eq_iff, IH.
    split; [by intros [-> ->]|by intros [= -> ->]].
  - induction a as [|x l IH]; intros [|y m]; cbn; try done. rewrite IH, Z.compare_antisym. by destruct (x ?= y).
  - induction a as [|x l IH]; intros [|y m] [|z n]; cbn; try done. intros H1 H2.
    destruct (Z.compare_spec x y) as [->|Hxy|Hxy], (Z.compare_spec y z) as [->|Hyz|Hyz]; cbn in *; try done.
    1: by eapply IH.
    all: assert (x < z) as Hxz by lia; by rewrite (proj2 (Z.compare_lt_iff _ _) Hxz).
Qed.

(** * Hash values *)

(** What is not determined by the contents: the address of an array, and LLVM's hash of a constant
    of more than 64 bits. *)
Class ExprIdentity := { array_address : Array -> Z; hash_value : apint -> Z }.
Class ExprIdentityLaws `{ExprIdentity} : Prop := { array_address_inj a b : array_address a = array_address b -> a = b }.

Definition MAGIC_HASH_CONSTANT : Z := 39.
Definition arith_kind (k : Kind.arith) : Z :=
  match k with
  | Kind.Add => 10 | Kind.Sub => 11 | Kind.Mul => 12 | Kind.UDiv => 13 | Kind.SDiv => 14 | Kind.URem => 15
  | Kind.SRem => 16 | Kind.And => 17 | Kind.Or => 18 | Kind.Xor => 19 | Kind.Shl => 20 | Kind.LShr => 21 | Kind.AShr => 22
  end.
Definition cmp_kind (k : Kind.cmp) : Z :=
  match k with
  | Kind.Eq => 23 | Kind.Ne => 24 | Kind.Ult => 25 | Kind.Ule => 26 | Kind.Ugt => 27 | Kind.Uge => 28
  | Kind.Slt => 29 | Kind.Sle => 30 | Kind.Sgt => 31 | Kind.Sge => 32
  end.
(** [getKind] *)
Definition getKind (e : expr) : Z :=
  match e with
  | EConstant _ => 0 | ERead _ _ => 3 | ESelect _ _ _ => 4 | EConcat _ _ => 5 | EExtract _ _ _ => 6
  | EZExt _ _ => 7 | ESExt _ _ => 8 | ENot _ => 9 | EArith k _ _ => arith_kind k | ECmp k _ _ => cmp_kind k
  end.

(** The characters of a string, which are signed. *)
Definition char_code (c : ascii) : Z := swrap 8 (Z.of_N (N_of_ascii c)).
Fixpoint name_hash (res : Z) (s : string) : Z :=
  match s with
  | EmptyString => res
  | String c s => name_hash (u32 (res * MAGIC_HASH_CONSTANT + char_code c)) s
  end.
(** [UpdateList::hash] of a list without updates. *)
Definition updates_hash (root : Array) : Z := name_hash 0 (arr_name root).

Section hash.
Context `{ExprIdentity}.

Definition constant_hash (v : apint) : Z :=
  let w := ap_width v in
  if w <=? 64 then u32 (Z.lxor (ap_val v) (u32 (w * MAGIC_HASH_CONSTANT)))
  else u32 (Z.lxor (hash_value v) (u32 (w * MAGIC_HASH_CONSTANT))).
(** One operand of [Expr::computeHash]. *)
Definition kid_hash (res h : Z) : Z := Z.lxor (u32 (Z.shiftl res 1)) (u32 (h * MAGIC_HASH_CONSTANT)).
Definition kids_hash (kind : Z) (kids : list Z) : Z := foldl kid_hash (u32 (kind * MAGIC_HASH_CONSTANT)) kids.
(** The [computeHash] of each class. *)
Fixpoint hash (e : expr) : Z :=
  match e with
  | EConstant v => constant_hash v
  | ERead a i => Z.lxor (u32 (hash i * MAGIC_HASH_CONSTANT)) (updates_hash a)
  | EExtract k off w =>
      Z.lxor (Z.lxor (u32 (off * MAGIC_HASH_CONSTANT)) (u32 (w * MAGIC_HASH_CONSTANT))) (u32 (hash k * MAGIC_HASH_CONSTANT))
  | EZExt k w | ESExt k w => Z.lxor (u32 (w * MAGIC_HASH_CONSTANT)) (u32 (hash k * MAGIC_HASH_CONSTANT))
  | ENot k => u32 (hash k * MAGIC_HASH_CONSTANT * 9)
  | ESelect c t f => kids_hash (getKind e) [hash c; hash t; hash f]
  | EConcat l r | EArith _ l r | ECmp _ l r => kids_hash (getKind e) [hash l; hash r]
  end.

(** * The comparison *)

(** [UpdateList::compare] of lists without updates. *)
Definition updates_compare (a b : Array) : comparison :=
  and_then (String.compare (arr_name a) (arr_name b)) (array_address a ?= array_address b).
(** The attributes of two expressions of one kind. *)
Definition compareContents (a b : expr) : comparison :=
  match a, b with
  | EConstant v, EConstant w => and_then (ap_width v ?= ap_width w) (ap_val v ?= ap_val w)
  | ERead r _, ERead s _ => updates_compare r s
  | EConcat _ _, EConcat _ _ => getWidth a ?= getWidth b
  | EExtract _ off w, EExtract _ off' w' => and_then (off ?= off') (w ?= w')
  | EZExt _ w, EZExt _ w' | ESExt _ w, ESExt _ w' => w ?= w'
  | _, _ => Eq
  end.
(** [compare].  Its memo and the comparison of addresses only cut short what is equal. *)
Fixpoint compare (a b : expr) : comparison :=
  and_then (getKind a ?= getKind b)
    (and_then (hash a ?= hash b)
      (and_then (compareContents a b)
        (match a, b with
         | ERead _ k, ERead _ k' | EExtract k _ _, EExtract k' _ _ | EZExt k _, EZExt k' _ | ESExt k _, ESExt k' _
         | ENot k, ENot k' => compare k k'
         | EConcat l r, EConcat l' r' | EArith _ l r, EArith _ l' r' | ECmp _ l r, ECmp _ l' r' =>
             and_then (compare l l') (compare r r')
         | ESelect c t f, ESelect c' t' f' => and_then (compare c c') (and_then (compare t t') (compare f f'))
         | _, _ => Eq
         end))).

(** * It is an order *)

(** A sequence of integers that determines the order. *)
Fixpoint name_key (s : string) : list Z :=
  match s with EmptyString => [-1] | String c s => Z.of_N (N_of_ascii c) :: name_key s end.
Definition contents_key (e : expr) : list Z :=
  match e with
  | EConstant v => [ap_width v; ap_val v]
  | ERead a _ => name_key (arr_name a) ++ [array_address a]
  | EConcat _ _ => [getWidth e]
  | EExtract _ off w => [off; w]
  | EZExt _ w | ESExt _ w => [w]
  | _ => []
  end.
Fixpoint key (e : expr) : list Z :=
  getKind e :: hash e :: contents_key e ++
  match e with
  | EConstant _ => []
  | ERead _ k | EExtract k _ _ | EZExt k _ | ESExt k _ | ENot k => key k
  | EConcat l r | EArith _ l r | ECmp _ l r => key l ++ key r
  | ESelect c t f => key c ++ key t ++ key f
  end.

Lemma lex_name s t k k' : lex (name_key s ++ k) (name_key t ++ k') = and_then (String.compare s t) (lex k k').
Proof.
  revert t. induction s as [|c s IH]; intros [|d t]; cbn; try done;
    [by destruct (N_of_ascii d)|by destruct (N_of_ascii c)|].
  rewrite IH. unfold Ascii.compare. rewrite <- N2Z.inj_compare. by destruct (Z.of_N (N_of_ascii c) ?= Z.of_N (N_of_ascii d)).
Qed.
Lemma arith_kind_eq k k' : (arith_kind k ?= arith_kind k') = Eq -> k = k'.
Proof. by destruct k, k'. Qed.
Lemma cmp_kind_eq k k' : (cmp_kind k ?= cmp_kind k') = Eq -> k = k'.
Proof. by destruct k, k'. Qed.

Lemma lex_key a : forall b k k', lex (key a ++ k) (key b ++ k') = and_then (compare a b) (lex k k').
Proof.
  induction a; intros b0 m m'; destruct b0; cbn [key compare getKind contents_key compareContents app];
    cbn [lex]; rewrite ?and_then_assoc; try reflexivity;
    try (by destruct k); try (by match goal with k : Kind.cmp |- _ => destruct k end);
    try (by match goal with k : Kind.arith, k' : Kind.cmp |- _ => destruct k, k' end).
  all: f_equal; f_equal; unfold updates_compare; rewrite <- ?app_assoc, ?lex_name, ?and_then_assoc; cbn [app lex]; rewrite ?and_then_assoc.
  all: rewrite <- ?app_assoc; repeat match goal with IH : forall b k k', lex (key ?e ++ k) _ = _ |- _ => rewrite IH end;
    rewrite ?and_then_assoc; try reflexivity.
Qed.

Lemma compare_lex a b : compare a b = lex (key a) (key b).
Proof.
  pose proof (lex_key a b [] []) as Hk. rewrite !app_nil_r in Hk. rewrite Hk. cbn. by destruct (compare a b).
Qed.
End hash.

Lemma string_compare_eq s t : String.compare s t = Eq -> s = t.
Proof. apply String.compare_eq_iff. Qed.

Lemma compare_equal `{ExprIdentityLaws} a : forall b, compare a b = Eq -> a = b.
Proof.
  induction a; intros b0; destruct b0; cbn [compare getKind compareContents]; intros Hc;
    repeat match goal with H : and_then _ _ = Eq |- _ => apply and_then_eq in H as [? ?] end; try done;
    try (by destruct k); try (by match goal with k : Kind.cmp |- _ => destruct k end);
    try (by match goal with k : Kind.arith, k' : Kind.cmp |- _ => destruct k, k' end);
    repeat match goal with
    | H : (arith_kind _ ?= arith_kind _) = Eq |- _ => apply arith_kind_eq in H as ->
    | H : (cmp_kind _ ?= cmp_kind _) = Eq |- _ => apply cmp_kind_eq in H as ->
    | H : updates_compare _ _ = Eq |- _ => apply and_then_eq in H as [_ H]; apply Z.compare_eq, array_address_inj in H as ->
    | H : (_ ?= _) = Eq |- _ => apply Z.compare_eq in H
    | IH : forall b, compare ?e b = Eq -> _, H : compare ?e _ = Eq |- _ => apply IH in H
    end; subst; try done.
  f_equal. destruct value, value0. cbn in *. by subst.
Qed.

(** The comparison of expressions is a strict total order, in which only equal expressions are
    equal, whatever the addresses of the arrays and LLVM's hash of wide constants are: what the
    sets and maps of expressions, and the choice of a canonical query, rely on. *)
#[export] Instance compare_ordered `{ExprIdentityLaws} : Ordered expr compare.
Proof.
  split.
  - intros a b. split; [apply compare_equal|]. intros ->. rewrite compare_lex. apply cmp_refl.
  - intros a b. rewrite !compare_lex. apply cmp_opp.
  - intros a b c. rewrite !compare_lex. apply cmp_trans.
Qed.

(** Addresses that distinguish the arrays. *)
Definition sample_identity : ExprIdentity := {| array_address a := Zpos (encode a); hash_value _ := 0 |}.
Lemma sample_identity_laws : ExprIdentityLaws (H := sample_identity).
Proof. split. intros a b [= Heq]. by apply (inj encode). Qed.
