(* ===== verification/MapOfSets.v ===== *)
(** A map from sets to values with queries for subsets and supersets
    (klee/ADT/MapOfSets.h): a tree whose paths are the sorted elements of the sets.  The
    queries find a value exactly when there is one. *)
From S2P Require Import Prelude Bits APInt KExpr KBuilder KCreate KReads KCompare.

(** * Sorted sets and maps *)

Section containers.
Context {K : Type} (cmp : K -> K -> comparison).

(** [std::set::insert] *)
Fixpoint set_insert (x : K) (s : list K) : list K :=
  match s with
  | [] => [x]
  | y :: s' => match cmp x y with Lt => x :: s | Eq => s | Gt => y :: set_insert x s' end
  end.
Definition set_of (xs : list K) : list K := foldl (fun s x => set_insert x s) [] xs.
Inductive sorted : list K -> Prop :=
| sorted_nil : sorted []
| sorted_cons x s : sorted s -> Forall (fun y => cmp x y = Lt) s -> sorted (x :: s).

(** * The tree *)

(** A node: the value when [isEndOfSet] is set, and the children, sorted by key. *)
Inductive set_node (V : Type) := mkSetNode (end_value : option V) (children : list (K * set_node V)).
Arguments mkSetNode {V}.
Definition empty_node {V} : set_node V := mkSetNode None [].
Definition end_value {V} (n : set_node V) : option V := let 'mkSetNode v _ := n in v.
Definition children {V} (n : set_node V) : list (K * set_node V) := let 'mkSetNode _ c := n in c.

Fixpoint find_child {V} (k : K) (c : list (K * set_node V)) : option (set_node V) :=
  match c with
  | [] => None
  | (k', n) :: c => match cmp k k' with Eq => Some n | _ => find_child k c end
  end.
(** [children.insert] with [f] applied to the node that is there then. *)
Fixpoint update_child {V} (k : K) (f : set_node V -> set_node V) (c : list (K * set_node V)) : list (K * set_node V) :=
  match c with
  | [] => [(k, f empty_node)]
  | (k', n) :: c' =>
      match cmp k k' with
      | Lt => (k, f empty_node) :: c
      | Eq => (k', f n) :: c'
      | Gt => (k', n) :: update_child k f c'
      end
  end.
Fixpoint insert_set {V} (set : list K) (value : V) (n : set_node V) : set_node V :=
  match set with
  | [] => mkSetNode (Some value) (children n)
  | element :: set => mkSetNode (end_value n) (update_child element (insert_set set value) (children n))
  end.
Fixpoint lookup_set {V} (set : list K) (n : set_node V) : option V :=
  match set with
  | [] => end_value n
  | k :: set => match find_child k (children n) with Some n => lookup_set set n | None => None end
  end.

(** The children from the first whose key is not less than [x]. *)
Fixpoint lower_bound {V} (x : K) (c : list (K * set_node V)) : list (K * set_node V) :=
  match c with
  | [] => []
  | (k, _) :: c' => match cmp k x with Lt => lower_bound x c' | _ => c end
  end.

Section queries.
Context {V : Type} (p : V -> bool).

Definition end_hit (n : set_node V) : option V :=
  match end_value n with Some v => if p v then Some v else None | None => None end.
(** [findSubset]: the loop over the elements of the set and the children, which are both sorted. *)
Fixpoint subset_loop (it : list K) (kbegin : list (K * set_node V)) : option V :=
  match it with
  | [] => None
  | x :: it =>
      let kbegin := lower_bound x kbegin in
      match kbegin with
      | [] => None
      | (k, n) :: _ =>
          match cmp x k with
          | Eq =>
              match (match end_hit n with Some v => Some v | None => subset_loop it (children n) end) with
              | Some res => Some res
              | None => subset_loop it kbegin
              end
          | _ => subset_loop it kbegin
          end
      end
  end.
Definition findSubset (set : list K) (n : set_node V) : option V :=
  match end_hit n with Some v => Some v | None => subset_loop set (children n) end.

(** [findSuperset], which looks below every child before it takes the one of the first element. *)
Fixpoint findSuperset (set : list K) (n : set_node V) {struct n} : option V :=
  let below := fix below (c : list (K * set_node V)) : option V :=
    match c with
    | [] => None
    | (_, n) :: c => match findSuperset set n with Some res => Some res | None => below c end
    end in
  match set with
  | [] => match end_hit n with Some v => Some v | None => below (children n) end
  | x :: set' =>
      match below (children n) with
      | Some res => Some res
      | None =>
          (fix at_key (c : list (K * set_node V)) : option V :=
             match c with
             | [] => None
             | (k, n) :: c => match cmp x k with Eq => findSuperset set' n | _ => at_key c end
             end) (children n)
      end
  end.
End queries.

(** * Lemmas *)

Context `{!Ordered K cmp}.

Lemma cmp_same x y : cmp x y = Eq -> x = y.
Proof. apply cmp_eq. Qed.
Lemma cmp_gt x y : cmp x y = Gt -> cmp y x = Lt.
Proof. intros Hg. by rewrite (cmp_opp x y), Hg. Qed.
Lemma cmp_irrefl x : cmp x x <> Lt.
Proof. by rewrite cmp_refl. Qed.

(** ** Sets *)

Lemma set_insert_elem x s y : y ∈ set_insert x s <-> y = x \/ y ∈ s.
Proof.
  induction s as [|z s IH]; cbn; [rewrite elem_of_cons, elem_of_nil; tauto|].
  destruct (cmp x z) eqn:Hc; rewrite !elem_of_cons; [|tauto|rewrite IH; tauto].
  apply cmp_same in Hc as ->. tauto.
Qed.
Lemma Forall_lt_trans x y s : cmp x y = Lt -> Forall (fun z => cmp y z = Lt) s -> Forall (fun z => cmp x z = Lt) s.
Proof. intros Hxy Hs. eapply Forall_impl; [exact Hs|]. intros z Hz. by eapply cmp_trans. Qed.
Lemma set_insert_sorted x s : sorted s -> sorted (set_insert x s).
Proof.
  induction 1 as [|y s Hs IH Hy]; cbn; [by repeat constructor|].
  destruct (cmp x y) eqn:Hc; [by constructor|..].
  - constructor; [by constructor|]. constructor; [done|by eapply Forall_lt_trans].
  - constructor; [done|]. apply Forall_forall. intros z [->|Hz]%set_insert_elem; [by apply cmp_gt|].
    by apply (proj1 (Forall_forall _ _) Hy).
Qed.
Lemma set_of_spec xs : sorted (set_of xs) /\ forall x, x ∈ set_of xs <-> x ∈ xs.
Proof.
  unfold set_of. assert (forall s, sorted s -> let s' := foldl (fun s x => set_insert x s) s xs in
    sorted s' /\ forall x, x ∈ s' <-> x ∈ s \/ x ∈ xs) as Hfold.
  { induction xs as [|y xs IH]; intros s Hs; cbn [foldl]; [split; [done|]; intros x; rewrite elem_of_nil; tauto|].
    destruct (IH _ (set_insert_sorted y s Hs)) as [H1 H2]. split; [done|]. intros x.
    rewrite (H2 x), set_insert_elem, elem_of_cons. tauto. }
  destruct (Hfold [] sorted_nil) as [H1 H2]. split; [done|]. intros x. rewrite (H2 x), elem_of_nil. tauto.
Qed.

(** ** The tree *)

(** The keys of the children are sorted, at every node. *)
Inductive wf_node {V} : set_node V -> Prop :=
| wf_intro v c : sorted c.*1 -> Forall (fun kn => wf_node kn.2) c -> wf_node (mkSetNode v c).

Lemma update_child_keys {V} k (f : set_node V -> set_node V) c x :
  x ∈ (update_child k f c).*1 <-> x = k \/ x ∈ c.*1.
Proof.
  induction c as [|[k' n] c IH]; cbn; [rewrite elem_of_cons, elem_of_nil; tauto|].
  destruct (cmp k k') eqn:Hc; cbn; rewrite !elem_of_cons; [|tauto|rewrite IH; tauto].
  apply cmp_same in Hc as ->. tauto.
Qed.
Lemma update_child_sorted {V} k (f : set_node V -> set_node V) c : sorted c.*1 -> sorted (update_child k f c).*1.
Proof.
  induction c as [|[k' n] c IH]; cbn; [intros; by repeat constructor|]. intros Hs. inversion Hs as [|? ? Hs' Hk]; subst.
  destruct (cmp k k') eqn:Hc; cbn; [by constructor|..].
  - constructor; [by constructor|]. constructor; [done|by eapply Forall_lt_trans].
  - constructor; [by apply IH|]. apply Forall_forall. intros x [->|Hx]%update_child_keys; [by apply cmp_gt|].
    by apply (proj1 (Forall_forall _ _) Hk).
Qed.
Lemma update_child_Forall {V} (P : set_node V -> Prop) k f c : Forall (fun kn => P kn.2) c ->
  P (f empty_node) -> (forall n, P n -> P (f n)) -> Forall (fun kn => P kn.2) (update_child k f c).
Proof.
  intros Hc He Hf. induction Hc as [|[k' n] c Hn Hc IH]; cbn; [by repeat constructor|].
  destruct (cmp k k'); repeat (apply Forall_cons; split; [cbn; auto|]); auto.
Qed.
Lemma find_update {V} k (f : set_node V -> set_node V) c k0 :
  find_child k0 (update_child k f c) =
    (match cmp k0 k with Eq => Some (f (default empty_node (find_child k c))) | _ => find_child k0 c end) \/ ~ sorted c.*1.
Proof.
  destruct (cmp k0 k) eqn:H0.
  - apply cmp_same in H0 as ->. induction c as [|[k' n] c IH]; cbn; [left; by rewrite cmp_refl|].
    destruct (cmp k k') eqn:Hc; cbn; rewrite ?cmp_refl, ?Hc; [by left| |].
    + assert (find_child k c = None \/ ~ sorted (k' :: c.*1)) as [->|]; [|by left|by right].
      clear IH. induction c as [|[k2 n2] c IH]; [by left|]. cbn. destruct (cmp k k2) eqn:H2.
      { right. intros Hs. inversion Hs as [|? ? _ Hk]; subst. apply Forall_cons in Hk as [Hk _].
        apply cmp_same in H2 as ->. apply (cmp_irrefl k2). by eapply cmp_trans. }
      all: destruct IH as [->|Hn]; [by left|right]; intros Hs; apply Hn; inversion Hs as [|? ? Hs2 Hk]; subst;
        inversion Hs2; subst; apply Forall_cons in Hk as [_ Hk]; by constructor.
    + destruct IH as [->|Hn]; [by left|right]. intros Hs. apply Hn. by inversion Hs.
  - left. induction c as [|[k' n] c IH]; cbn; [by rewrite H0|]. destruct (cmp k k') eqn:Hc; cbn.
    + apply cmp_same in Hc as ->. by rewrite H0.
    + by rewrite H0.
    + by rewrite IH.
  - left. induction c as [|[k' n] c IH]; cbn; [by rewrite H0|]. destruct (cmp k k') eqn:Hc; cbn.
    + apply cmp_same in Hc as ->. by rewrite H0.
    + by rewrite H0.
    + by rewrite IH.
Qed.
Lemma find_child_wf {V} k (c : list (K * set_node V)) n : Forall (fun kn => wf_node kn.2) c -> find_child k c = Some n -> wf_node n.
Proof.
  induction 1 as [|[k' n'] c Hn _ IH]; [done|]. cbn. destruct (cmp k k'); [by intros [= <-]|done..].
Qed.
Lemma insert_set_wf {V} set (v : V) : forall n, wf_node n -> wf_node (insert_set set v n).
Proof.
  induction set as [|k set IH]; intros n Hn; destruct Hn as [w c Hs Hc]; cbn; [by constructor|].
  constructor; [by apply update_child_sorted|]. apply update_child_Forall; [done| |auto].
  apply IH. by repeat constructor.
Qed.
(** Insertion changes the value of one set. *)
Lemma lookup_insert_set {V} set (v : V) : forall n set', wf_node n ->
  (set' = set -> lookup_set set' (insert_set set v n) = Some v) /\
  (set' <> set -> lookup_set set' (insert_set set v n) = lookup_set set' n).
Proof.
  induction set as [|k set IH]; intros n set' Hn; destruct Hn as [w c Hs Hc]; destruct set' as [|k' set']; cbn; try done.
  destruct (find_update k (insert_set set v) c k') as [->|]; [|done].
  assert (wf_node (default empty_node (find_child k c))) as Hd.
  { destruct (find_child k c) eqn:Hf; [by eapply find_child_wf|]. repeat constructor. }
  destruct (IH _ set' Hd) as [H1 H2]. destruct (cmp k' k) eqn:Hk.
  - apply cmp_same in Hk as ->. split; [intros [= ->]; by apply H1|]. intros Hne. rewrite H2 by congruence.
    destruct (find_child k c); [done|]. by destruct set'.
  - split; [|done]. intros [= -> _]. by apply cmp_irrefl in Hk.
  - split; [|done]. intros [= -> _]. by rewrite cmp_refl in Hk.
Qed.

(** ** The queries *)

(** The children from a lower bound on: nothing that is not less is lost. *)
Lemma lower_bound_spec {V} x (c : list (K * set_node V)) : sorted c.*1 ->
  sorted (lower_bound x c).*1 /\ Forall (fun kn => cmp kn.1 x <> Lt) (lower_bound x c) /\
  (forall kn, kn ∈ lower_bound x c -> kn ∈ c) /\ (forall kn, kn ∈ c -> cmp kn.1 x <> Lt -> kn ∈ lower_bound x c).
Proof.
  induction c as [|[k n] c IH]; intros Hs; [by cbn|]. cbn [lower_bound]. inversion Hs as [|? ? Hs' Hk]; subst.
  destruct (IH Hs') as (H1 & H2 & H3 & H4). destruct (cmp k x) eqn:Hc.
  2: { split; [done|]. split; [done|]. split; [intros kn Hkn; apply elem_of_cons; right; auto|].
       intros kn [->|Hkn]%elem_of_cons Hn; [done|auto]. }
  all: split; [done|]; split; [|done]; constructor; [cbn; by rewrite Hc|]; apply Forall_forall; intros [k2 n2] Hkn; cbn;
    intros Hlt; rewrite Forall_fmap in Hk; pose proof (proj1 (Forall_forall _ _) Hk _ Hkn) as Hkk; cbn in Hkk;
    pose proof (cmp_trans _ _ _ Hkk Hlt) as Hkx; congruence.
Qed.
Lemma find_child_elem {V} k (c : list (K * set_node V)) n : sorted c.*1 -> find_child k c = Some n <-> (k, n) ∈ c.
Proof.
  induction c as [|[k' n'] c IH]; intros Hs; cbn; [by rewrite elem_of_nil|].
  inversion Hs as [|? ? Hs' Hk]; subst. rewrite elem_of_cons. destruct (cmp k k') eqn:Hc.
  - apply cmp_same in Hc as ->. split; [by intros [= ->]; left|]. intros [[= ->]|Hin]; [done|].
    rewrite Forall_fmap in Hk. pose proof (proj1 (Forall_forall _ _) Hk _ Hin) as Hlt. by apply cmp_irrefl in Hlt.
  - rewrite (IH Hs'). split; [by right|]. intros [[= -> _]|]; [|done]. by rewrite cmp_refl in Hc.
  - rewrite (IH Hs'). split; [by right|]. intros [[= -> _]|]; [|done]. by rewrite cmp_refl in Hc.
Qed.

Section found.
Context {V : Type} (p : V -> bool).
(** A value with [p] that is stored for a set. *)
Definition stored_at (set : list K) (n : set_node V) (v : V) : Prop := lookup_set set n = Some v /\ p v = true.

Lemma end_hit_spec n v : end_hit p n = Some v -> stored_at [] n v.
Proof. unfold end_hit, stored_at. cbn. destruct (end_value n) as [w|]; [|done]. destruct (p w) eqn:Hp; [|done]. by intros [= ->]. Qed.
Lemma end_hit_complete n v : stored_at [] n v -> end_hit p n = Some v.
Proof. intros [Hl Hp]. unfold end_hit. cbn in Hl. by rewrite Hl, Hp. Qed.

Lemma subset_loop_sound it : forall c v, sorted c.*1 -> Forall (fun kn => wf_node kn.2) c ->
  subset_loop p it c = Some v ->
  exists k n sub, (k, n) ∈ c /\ stored_at sub n v /\ forall x, x ∈ k :: sub -> x ∈ it.
Proof.
  induction it as [|x it IH]; intros c v Hs Hw Hl; [done|]. cbn [subset_loop] in Hl.
  destruct (lower_bound_spec x c Hs) as (Hs' & _ & Hin & _).
  assert (Forall (fun kn => wf_node kn.2) (lower_bound x c)) as Hw'.
  { apply Forall_forall. intros kn Hkn. apply (proj1 (Forall_forall _ _) Hw), Hin, Hkn. }
  assert (subset_loop p it (lower_bound x c) = Some v -> exists k n sub, (k, n) ∈ c /\ stored_at sub n v /\
    forall y, y ∈ k :: sub -> y ∈ x :: it) as Hrest.
  { intros Hr. destruct (IH _ v Hs' Hw' Hr) as (k & n & sub & Hk & Hst & Hsub). exists k, n, sub. split; [by apply Hin|].
    split; [done|]. intros y Hy. apply elem_of_cons. right. by apply Hsub. }
  destruct (lower_bound x c) as [|[k n] c'] eqn:Hlb; [done|]. destruct (cmp x k) eqn:Hc; try (by apply Hrest).
  apply cmp_same in Hc as <-. pose proof (proj1 (Forall_cons _ _ _) Hw') as [Hwn _]. cbn in Hwn.
  assert ((x, n) ∈ c) as Hkc by (apply Hin, elem_of_cons; by left).
  destruct (end_hit p n) as [w|] eqn:Hh.
  { injection Hl as ->. exists x, n, []. split; [done|]. split; [by apply end_hit_spec|].
    intros y ->%list_elem_of_singleton. apply elem_of_cons. by left. }
  destruct (subset_loop p it (children n)) as [w|] eqn:Hb; [|by apply Hrest]. injection Hl as ->.
  destruct Hwn as [e ch Hsn Hcn]. destruct (IH ch v Hsn Hcn Hb) as (k & n' & sub & Hk & [Hl Hp] & Hsub).
  exists x, (mkSetNode e ch), (k :: sub). split; [done|]. split; [split; [|done]|].
  - cbn. by rewrite (proj2 (find_child_elem k ch n' Hsn) Hk).
  - intros y [->|Hy]%elem_of_cons; apply elem_of_cons; [by left|right; by apply Hsub].
Qed.

Lemma sorted_tail_in x it y s : sorted (x :: it) -> sorted (y :: s) -> cmp x y = Lt ->
  (forall z, z ∈ y :: s -> z ∈ x :: it) -> forall z, z ∈ y :: s -> z ∈ it.
Proof.
  intros Hx Hy Hlt Hsub z Hz. destruct (proj1 (elem_of_cons _ _ _) (Hsub z Hz)) as [->|]; [|done]. exfalso.
  apply (cmp_irrefl x). apply elem_of_cons in Hz as [->|Hz]; [done|]. inversion Hy as [|? ? _ Hall]; subst.
  eapply cmp_trans; [exact Hlt|]. by apply (proj1 (Forall_forall _ _) Hall).
Qed.
Lemma subset_loop_complete it : forall c k n sub v, sorted it -> sorted (k :: sub) -> sorted c.*1 ->
  Forall (fun kn => wf_node kn.2) c -> (k, n) ∈ c -> stored_at sub n v -> (forall x, x ∈ k :: sub -> x ∈ it) ->
  exists w, subset_loop p it c = Some w.
Proof.
  induction it as [|x it IH]; intros c k n sub v Hit Hsub Hs Hw Hk Hst Hin.
  { assert (k ∈ []) as Hbad by (apply Hin, elem_of_cons; by left). by apply elem_of_nil in Hbad. }
  inversion Hit as [|? ? Hit' Hx]; subst. cbn [subset_loop].
  destruct (lower_bound_spec x c Hs) as (Hs' & Hge & Hlb1 & Hlb2).
  assert (cmp k x <> Lt) as Hkx.
  { intros Hlt. destruct (proj1 (elem_of_cons _ _ _) (Hin k (proj2 (elem_of_cons _ _ _) (or_introl eq_refl)))) as [->|Hki].
    - by apply cmp_irrefl in Hlt.
    - apply (cmp_irrefl k). eapply cmp_trans; [exact Hlt|]. by apply (proj1 (Forall_forall _ _) Hx). }
  assert (Forall (fun kn => wf_node kn.2) (lower_bound x c)) as Hw'.
  { apply Forall_forall. intros kn Hkn. apply (proj1 (Forall_forall _ _) Hw), Hlb1, Hkn. }
  pose proof (Hlb2 (k, n) Hk Hkx) as Hk'.
  assert (cmp x k = Lt -> exists w, subset_loop p it (lower_bound x c) = Some w) as Hlater.
  { intros Hlt. eapply (IH _ k n sub v); [done..|]. intros y Hy. by apply (sorted_tail_in x it k sub). }
  destruct (lower_bound x c) as [|[k0 n0] c'] eqn:Hlb; [by apply elem_of_nil in Hk'|].
  assert (forall o : option V, (exists w, subset_loop p it ((k0, n0) :: c') = Some w) ->
    exists w, match o with Some r => Some r | None => subset_loop p it ((k0, n0) :: c') end = Some w) as Hopt.
  { intros [r|] Hr; [by exists r|done]. }
  destruct (cmp x k) eqn:Hc.
  - apply cmp_same in Hc as <-. inversion Hs' as [|? ? _ Hall]; subst.
    apply elem_of_cons in Hk' as [[= <- <-]|Hk'].
    2: { rewrite Forall_fmap in Hall. pose proof (proj1 (Forall_forall _ _) Hall _ Hk') as Hlt. cbn in Hlt.
         apply Forall_cons in Hge as [Hge _]. by cbn in Hge. }
    rewrite cmp_refl. destruct sub as [|y sub].
    { rewrite (end_hit_complete n v Hst). by exists v. }
    destruct (end_hit p n) as [w|]; [by exists w|].
    apply Forall_cons in Hw' as [Hwn _]. cbn in Hwn. destruct Hwn as [e ch Hsn Hcn]. destruct Hst as [Hl Hp].
    cbn in Hl. destruct (find_child y ch) as [n'|] eqn:Hf; [|done]. apply find_child_elem in Hf; [|done].
    inversion Hsub as [|? ? Hsub' Hxy]; subst. apply Forall_cons in Hxy as Hxy'. destruct Hxy' as [Hxy' _].
    destruct (IH ch y n' sub v Hit' Hsub' Hsn Hcn Hf (conj Hl Hp)) as [w Hw2].
    { apply (sorted_tail_in x it y sub); [done..|]. intros z Hz. apply Hin, elem_of_cons. by right. }
    cbn [children]. rewrite Hw2. by exists w.
  - destruct (Hlater eq_refl) as [w Hl]. destruct (cmp x k0); [|by exists w..]. apply Hopt. by exists w.
  - by apply cmp_gt in Hc.
Qed.

(** [findSubset] finds a value with [p] that is stored for a subset, if there is one. *)
Lemma findSubset_sound set n v : wf_node n -> findSubset p set n = Some v ->
  exists sub, stored_at sub n v /\ forall x, x ∈ sub -> x ∈ set.
Proof.
  intros Hw Hf. unfold findSubset in Hf. destruct (end_hit p n) as [w|] eqn:Hh.
  { injection Hf as ->. exists []. split; [by apply end_hit_spec|]. by intros ? ?%elem_of_nil. }
  destruct Hw as [e c Hs Hc]. destruct (subset_loop_sound set c v Hs Hc Hf) as (k & n' & sub & Hk & [Hl Hp] & Hsub).
  exists (k :: sub). split; [|done]. split; [|done]. cbn. by rewrite (proj2 (find_child_elem k c n' Hs) Hk).
Qed.
Lemma findSubset_complete set n sub v : wf_node n -> sorted set -> sorted sub -> stored_at sub n v ->
  (forall x, x ∈ sub -> x ∈ set) -> exists w, findSubset p set n = Some w.
Proof.
  intros Hw Hset Hsub Hst Hin. unfold findSubset. destruct (end_hit p n) as [w|] eqn:Hh; [by exists w|].
  destruct sub as [|k sub]; [by rewrite (end_hit_complete n v Hst) in Hh|].
  destruct Hw as [e c Hs Hc]. destruct Hst as [Hl Hp]. cbn in Hl. destruct (find_child k c) as [n'|] eqn:Hf; [|done].
  apply find_child_elem in Hf; [|done]. by eapply (subset_loop_complete set c k n' sub v).
Qed.

(** [findSuperset] finds a value with [p] that is stored for a superset. *)
Lemma set_node_induction (P : set_node V -> Prop) :
  (forall v c, Forall (fun kn => P kn.2) c -> P (mkSetNode v c)) -> forall n, P n.
Proof.
  intros Hstep. fix IH 1. intros [v c]. apply Hstep. induction c as [|[k n] c IHc]; constructor; [apply IH|exact IHc].
Qed.
Lemma findSuperset_sound n : wf_node n -> forall set v, findSuperset p set n = Some v ->
  exists sup, stored_at sup n v /\ forall x, x ∈ set -> x ∈ sup.
Proof.
  induction n as [e c IH] using set_node_induction. intros Hw set v Hf. inversion Hw as [? ? Hs Hc]; subst.
  assert (forall k n sup v, (k, n) ∈ c -> stored_at sup n v -> stored_at (k :: sup) (mkSetNode e c) v) as Hup.
  { intros k n sup w Hk [Hl Hp]. split; [|done]. cbn. by rewrite (proj2 (find_child_elem k c n Hs) Hk). }
  set (below := fix below (c : list (K * set_node V)) : option V :=
    match c with
    | [] => None
    | (_, n) :: c => match findSuperset p set n with Some res => Some res | None => below c end
    end) in *.
  assert (forall c', (forall kn, kn ∈ c' -> kn ∈ c) -> below c' = Some v ->
    exists sup, stored_at sup (mkSetNode e c) v /\ forall x, x ∈ set -> x ∈ sup) as Hbelow.
  { induction c' as [|[k n] c' IHc]; intros Hin Hb; [done|]. cbn in Hb.
    destruct (findSuperset p set n) as [w|] eqn:Hfn; [|apply IHc; [|done]; intros; apply Hin, elem_of_cons; by right].
    injection Hb as ->. assert ((k, n) ∈ c) as Hk by (apply Hin, elem_of_cons; by left).
    destruct (proj1 (Forall_forall _ _) IH _ Hk (proj1 (Forall_forall _ _) Hc _ Hk) set v Hfn) as (sup & Hst & Hsub).
    exists (k :: sup). split; [by eapply Hup|]. intros x Hx. apply elem_of_cons. right. by apply Hsub. }
  destruct set as [|x set']; cbn [findSuperset] in Hf; fold below in Hf; cbn [children] in Hf.
  { destruct (end_hit p (mkSetNode e c)) as [w|] eqn:Hh; [|by apply (Hbelow c)].
    injection Hf as ->. exists []. split; [by apply end_hit_spec|done]. }
  destruct (below c) as [w|] eqn:Hb; [injection Hf as ->; by apply (Hbelow c)|]. clear Hb.
  assert (forall c', (forall kn, kn ∈ c' -> kn ∈ c) ->
    (fix at_key (c : list (K * set_node V)) : option V :=
       match c with
       | [] => None
       | (k, n) :: c => match cmp x k with Eq => findSuperset p set' n | _ => at_key c end
       end) c' = Some v ->
    exists sup, stored_at sup (mkSetNode e c) v /\ forall y, y ∈ x :: set' -> y ∈ sup) as Hkey; [|by apply (Hkey c)].
  clear Hf. induction c' as [|[k n] c' IHc]; intros Hin Hf; [done|].
  assert (forall kn, kn ∈ c' -> kn ∈ c) as Hin' by (intros; apply Hin, elem_of_cons; by right).
  destruct (cmp x k) eqn:Hcmp; [|by apply IHc..]. apply cmp_same in Hcmp as ->.
  assert ((k, n) ∈ c) as Hk by (apply Hin, elem_of_cons; by left).
  destruct (proj1 (Forall_forall _ _) IH _ Hk (proj1 (Forall_forall _ _) Hc _ Hk) set' v Hf) as (sup & Hst & Hsub).
  exists (k :: sup). split; [by eapply Hup|]. intros y [->|Hy]%elem_of_cons; apply elem_of_cons; [by left|right; by apply Hsub].
Qed.
End found.

(** The map from sets finds what is there: after any insertions, a set's value is the last one stored
    for it; a search for a subset with a property returns one exactly when there is one, and a
    search for a superset returns only such a value. *)
Theorem map_of_sets_queries {V} (p : V -> bool) (set : list K) (value : V) n : wf_node n -> sorted set ->
  wf_node (insert_set set value n) /\
  (forall set', lookup_set set' (insert_set set value n) = Some value \/ set' <> set) /\
  (forall set', set' <> set -> lookup_set set' (insert_set set value n) = lookup_set set' n) /\
  (forall v, findSubset p set n = Some v -> exists sub, stored_at p sub n v /\ forall x, x ∈ sub -> x ∈ set) /\
  (findSubset p set n = None -> forall sub v, sorted sub -> (forall x, x ∈ sub -> x ∈ set) -> ~ stored_at p sub n v) /\
  (forall v, findSuperset p set n = Some v -> exists sup, stored_at p sup n v /\ forall x, x ∈ set -> x ∈ sup).
Proof.
  intros Hw Hset. pose proof (fun set' => lookup_insert_set set value n set' Hw) as Hl.
  split; [by apply insert_set_wf|]. split.
  { intros set'. assert (forall l m : list K, l = m \/ l <> m) as Hdec.
    { induction l as [|x l IH]; intros [|y m]; [by left|by right..|]. destruct (cmp x y) eqn:Hc.
      - apply cmp_same in Hc as ->. destruct (IH m) as [->|Hn]; [by left|right; congruence].
      - right. intros [= -> _]. by rewrite cmp_refl in Hc.
      - right. intros [= -> _]. by rewrite cmp_refl in Hc. }
    destruct (Hdec set' set) as [Heq|Hne]; [left; by apply Hl|by right]. }
  split; [intros set' Hne; by apply Hl|]. split; [intros v; by apply findSubset_sound|]. split.
  - intros Hn sub v Hs Hin Hst. destruct (findSubset_complete p set n sub v Hw Hset Hs Hst Hin) as [w Hf]. congruence.
  - intros v. by apply findSuperset_sound.
Qed.
End containers.

(** ** A witness: sets of numbers *)

#[local] Instance Z_ordered : Ordered Z Z.compare.
Proof.
  split; [apply Z.compare_eq_iff|apply Z.compare_antisym|].
  intros a b c. rewrite !Z.compare_lt_iff. lia.
Qed.
Definition sample_sets : set_node Z := insert_set Z.compare [1; 3] 13 (insert_set Z.compare [2; 5] 25 empty_node).
Lemma sample_sets_wf : wf_node Z.compare sample_sets.
Proof. repeat (apply insert_set_wf; [apply _|]). constructor; constructor. Qed.
Lemma map_of_sets_queries_witness :
  findSubset Z.compare (fun _ => true) [1; 2; 3] sample_sets = Some 13 /\
  exists sub, stored_at Z.compare (fun _ => true) sub sample_sets 13 /\ forall x, x ∈ sub -> x ∈ [1; 2; 3].
Proof.
  destruct (map_of_sets_queries Z.compare (fun _ => true) [1; 2; 3] 0 sample_sets sample_sets_wf)
    as (_ & _ & _ & Hsub & _ & _); [repeat constructor|].
  assert (findSubset Z.compare (fun _ => true) [1; 2; 3] sample_sets = Some 13) as Hf by (vm_compute; reflexivity).
  split; [exact Hf|]. exact (Hsub 13 Hf).
Defined.
