(* ===== verification/KCaching.v ===== *)
(** Two solvers in front of another: the staged solver, which asks an incomplete one first
    (klee/lib/Solver/IncompleteSolver.cpp), and the cache of validity results
    (CachingSolver.cpp).  Each keeps what the solver it calls promises. *)
From S2P Require Import Prelude Bits APInt KExpr KBuilder KBuilderSound KType KCreate KCreateShape KCreateSound KConstraints KReads Concolic PathTrace KSolver KCompare.

(** * Partial validity *)

Inductive PartialValidity := MustBeTrue | MustBeFalse | MayBeTrue | MayBeFalse | TrueOrFalse | PVNone.
#[export] Instance PartialValidity_eq_dec : EqDecision PartialValidity.
Proof. solve_decision. Defined.
(** [negatePartialValidity]; [None] is the failed assertion. *)
Definition negatePartialValidity (pv : PartialValidity) : option PartialValidity :=
  match pv with
  | MustBeTrue => Some MustBeFalse
  | MustBeFalse => Some MustBeTrue
  | MayBeTrue => Some MayBeFalse
  | MayBeFalse => Some MayBeTrue
  | TrueOrFalse => Some TrueOrFalse
  | PVNone => None
  end.

(** [IncompleteSolver]: it has no state, and may fail an assertion; [None] of the last two is the
    result false. *)
Record IncompleteSolver := mkIncomplete {
  inc_computeTruth : Query -> result solver_error PartialValidity;
  inc_computeValue : Query -> result solver_error (option expr);
  inc_computeInitialValues : Query -> list Array -> result solver_error (option (option (list (list Z))));
}.

Section staged.
Context `{APInt} (primary : IncompleteSolver) {S : Type} (secondary : SolverImpl S).
#[local] Open Scope sm_scope.
Abbreviation M := (SM S solver_error).

(** A call of the incomplete solver, which leaves the state alone. *)
Definition call_primary {A} (r : result solver_error A) : M A := match r with Ok a => sm_ret a | Err e => sm_throw e end.
(** [IncompleteSolver::computeValidity] *)
Definition inc_computeValidity (query : Query) : M PartialValidity :=
  trueResult <-- call_primary (inc_computeTruth primary query) ;;
  if decide (trueResult = MustBeTrue) then sm_ret MustBeTrue
  else
    falseResult <-- call_primary (inc_computeTruth primary (Query_negateExpr query)) ;;
    if decide (falseResult = MustBeTrue) then sm_ret MustBeFalse
    else
      let trueCorrect := negb (bool_decide (trueResult = PVNone)) in
      let falseCorrect := negb (bool_decide (falseResult = PVNone)) in
      sm_ret (if trueCorrect && falseCorrect then TrueOrFalse
              else if trueCorrect then MayBeFalse
              else if falseCorrect then MayBeTrue
              else PVNone).

Definition staged_computeTruth (query : Query) : M bool :=
  trueResult <-- call_primary (inc_computeTruth primary query) ;;
  if decide (trueResult = PVNone) then computeTruth secondary query
  else sm_ret (bool_decide (trueResult = MustBeTrue)).
Definition staged_computeValidity (query : Query) : M Validity :=
  tmp <-- inc_computeValidity query ;;
  match tmp with
  | MustBeTrue => sm_ret ValidTrue
  | MustBeFalse => sm_ret ValidFalse
  | TrueOrFalse => sm_ret ValidUnknown
  | MayBeTrue =>
      tmp <-- computeTruth secondary query ;; sm_ret (if tmp : bool then ValidTrue else ValidUnknown)
  | MayBeFalse =>
      tmp <-- computeTruth secondary (Query_negateExpr query) ;;
      sm_ret (if tmp : bool then ValidFalse else ValidUnknown)
  | PVNone => computeValidity secondary query
  end.
Definition staged_computeValue (query : Query) : M expr :=
  value <-- call_primary (inc_computeValue primary query) ;;
  match value with
  | Some result => sm_ret result
  | None => computeValue secondary query
  end.
Definition staged_computeInitialValues (query : Query) (objects : list Array) : M (option (list (list Z))) :=
  values <-- call_primary (inc_computeInitialValues primary query objects) ;;
  match values with
  | Some result => sm_ret result
  | None => computeInitialValues secondary query objects
  end.
Definition StagedSolverImpl : SolverImpl S :=
  mkSolverImpl staged_computeTruth staged_computeValidity staged_computeValue staged_computeInitialValues.
End staged.

(** * The cache of validity results *)

(** A [CacheEntry] and its result. *)
Definition cache_entry : Type := (ConstraintSet * expr) * PartialValidity.
Record CachingState (S : Type) := mkCaching { caching_solver : S; cache : list cache_entry }.
Arguments mkCaching {S}.
Arguments caching_solver {S}.
Arguments cache {S}.

Fixpoint cache_find (k : ConstraintSet * expr) (m : list cache_entry) : option PartialValidity :=
  match m with
  | [] => None
  | (k', pv) :: m => if decide (k = k') then Some pv else cache_find k m
  end.

Section caching.
Context `{APInt, ExprIdentity} {S : Type} (solver : SolverImpl S).
#[local] Open Scope sm_scope.
Abbreviation M := (SM (CachingState S) solver_error).

(** A call of the solver behind the cache. *)
Definition call_solver {A} (m : SM S solver_error A) : M A :=
  fun s => let '(r, s') := m (caching_solver s) in (r, mkCaching s' (cache s)).
Definition pv_asserted {A} (o : option A) : M A := match o with Some a => sm_ret a | None => sm_throw AssertFailed end.

(** [canonicalizeQuery]: the canonical query, and whether it is the negation. *)
Definition canonicalizeQuery (originalQuery : expr) : expr * bool :=
  let negatedQuery := Expr_createIsZero originalQuery in
  match compare originalQuery negatedQuery with
  | Lt => (originalQuery, false)
  | _ => (negatedQuery, true)
  end.
Definition cacheLookup (query : Query) : M (option PartialValidity) :=
  let '(canonicalQuery, negationUsed) := canonicalizeQuery (q_expr query) in
  m <-- sm_gets cache ;;
  match cache_find (q_constraints query, canonicalQuery) m with
  | None => sm_ret None
  | Some pv =>
      pv <-- pv_asserted (if negationUsed : bool then negatePartialValidity pv else Some pv) ;; sm_ret (Some pv)
  end.
(** [insert] of a key that is there changes nothing. *)
Definition cacheInsert (query : Query) (result : PartialValidity) : M unit :=
  let '(canonicalQuery, negationUsed) := canonicalizeQuery (q_expr query) in
  cachedResult <-- pv_asserted (if negationUsed : bool then negatePartialValidity result else Some result) ;;
  sm_modify (fun s =>
    match cache_find (q_constraints query, canonicalQuery) (cache s) with
    | Some _ => s
    | None => mkCaching (caching_solver s) (((q_constraints query, canonicalQuery), cachedResult) :: cache s)
    end).

Definition caching_computeValidity (query : Query) : M Validity :=
  cacheHit <-- cacheLookup query ;;
  match cacheHit with
  | Some MustBeTrue => sm_ret ValidTrue
  | Some MustBeFalse => sm_ret ValidFalse
  | Some TrueOrFalse => sm_ret ValidUnknown
  | Some MayBeTrue =>
      tmp <-- call_solver (computeTruth solver query) ;;
      if tmp : bool then cacheInsert query MustBeTrue ;;; sm_ret ValidTrue
      else cacheInsert query TrueOrFalse ;;; sm_ret ValidUnknown
  | Some MayBeFalse =>
      tmp <-- call_solver (computeTruth solver (Query_negateExpr query)) ;;
      if tmp : bool then cacheInsert query MustBeFalse ;;; sm_ret ValidFalse
      else cacheInsert query TrueOrFalse ;;; sm_ret ValidUnknown
  | Some PVNone => sm_throw AssertFailed
  | None =>
      result <-- call_solver (computeValidity solver query) ;;
      cacheInsert query
        (match result with ValidTrue => MustBeTrue | ValidFalse => MustBeFalse | ValidUnknown => TrueOrFalse end) ;;;
      sm_ret result
  end.
Definition caching_computeTruth (query : Query) : M bool :=
  cacheHit <-- cacheLookup query ;;
  let miss :=
    isValid <-- call_solver (computeTruth solver query) ;;
    cachedResult <--
      (if isValid : bool then sm_ret MustBeTrue
       else match cacheHit with
            | Some pv => solver_assert (bool_decide (pv = MayBeTrue)) ;;; sm_ret TrueOrFalse
            | None => sm_ret MayBeFalse
            end) ;;
    cacheInsert query cachedResult ;;; sm_ret isValid in
  match cacheHit with
  | Some pv => if decide (pv = MayBeTrue) then miss else sm_ret (bool_decide (pv = MustBeTrue))
  | None => miss
  end.
Definition caching_computeValue (query : Query) : M expr := call_solver (computeValue solver query).
Definition caching_computeInitialValues (query : Query) (objects : list Array) : M (option (list (list Z))) :=
  call_solver (computeInitialValues solver query objects).
Definition CachingSolver : SolverImpl (CachingState S) :=
  mkSolverImpl caching_computeTruth caching_computeValidity caching_computeValue caching_computeInitialValues.
End caching.

(** * What they promise *)

Definition partial_ok (q : Query) (pv : PartialValidity) : Prop :=
  match pv with
  | MustBeTrue => must_be_true q
  | MustBeFalse => must_be_false q
  | MayBeTrue => may_be_true q
  | MayBeFalse => may_be_false q
  | TrueOrFalse => may_be_true q /\ may_be_false q
  | PVNone => False
  end.

(** A result is right, or an error the policy lets be. *)
Definition right_result `{AssertPolicy} {A} (r : result solver_error A) (P : A -> Prop) : Prop :=
  match r with Ok a => P a | Err e => allowed_error e end.
(** What an incomplete solver answers to a question of truth. *)
Definition half_truth (q : Query) (pv : PartialValidity) : Prop :=
  match pv with
  | MustBeTrue => must_be_true q
  | MayBeFalse => may_be_false q
  | PVNone => True
  | _ => False
  end.
(** What an incomplete solver promises: it may not know. *)
Record incomplete_ok `{APInt, AssertPolicy} (sizes : string -> Z) (inc : IncompleteSolver) : Prop := {
  inc_truth q : query_ok sizes q -> consistent q -> defined q -> right_result (inc_computeTruth inc q) (half_truth q);
  inc_value q : value_query_ok sizes q -> consistent q -> defined q ->
    right_result (inc_computeValue inc q) (fun o => match o with Some r => value_ok q r | None => True end);
  inc_initial q objects : query_ok sizes q -> covers_arrays sizes objects q ->
    right_result (inc_computeInitialValues inc q objects) (fun o => match o with Some r => initial_ok q objects r | None => True end);
}.

Section promises.
Context `{Laws : APIntLaws, ExprIdentity, AssertPolicy} (sizes : string -> Z).

Lemma validity_of_truth q (b : bool) : may_be_true q -> truth_ok q b -> validity_ok q (if b then ValidTrue else ValidUnknown).
Proof. by destruct b. Qed.
Lemma validity_of_falsity q (b : bool) : may_be_false q -> truth_ok (Query_negateExpr q) b ->
  validity_ok q (if b then ValidFalse else ValidUnknown).
Proof. destruct b; intros Hm Hb; [by apply negate_must_true|]. split; [by apply negate_may_false|done]. Qed.

Lemma primary_promise {S A} (I : S -> Prop) (r : result solver_error A) P : right_result r P -> promises I (call_primary r) P.
Proof. intros Hr s Hs. by destruct r. Qed.
(** Asking an incomplete solver first keeps the promise: where it knows the answer is right, where
    it knows half the other solver decides the rest, and where it does not know the other answers. *)
Theorem staged_promise primary {S} (secondary : SolverImpl S) I :
  incomplete_ok sizes primary -> impl_ok sizes secondary I -> impl_ok sizes (StagedSolverImpl primary secondary) I.
Proof.
  intros [Ht Hv Hi] [Pt Pv Pval Pi]. split; cbn.
  - intros q Hq Hc Hd. unfold staged_computeTruth. eapply promises_bind; [by apply primary_promise, Ht|]. intros pv Hpv.
    destruct (decide _); [by apply Pt|]. apply promises_ret. by destruct pv.
  - intros q Hq Hc Hd. unfold staged_computeValidity, inc_computeValidity.
    pose proof (Pt _ (negate_ok _ _ Hq) Hc (negate_defined _ Hd)) as Pn.
    eapply (promises_bind _ _ _ (fun pv => match pv with PVNone => True | _ => partial_ok q pv end)).
    { eapply promises_bind; [by apply primary_promise, Ht|]. intros t H1.
      destruct (decide _) as [->|]; [by apply promises_ret|].
      eapply promises_bind; [by apply primary_promise, Ht; [apply negate_ok| |apply negate_defined]|]. intros f H2.
      destruct (decide _) as [->|]; [by apply promises_ret, negate_must_true|]. apply promises_ret.
      destruct t, f; try done; cbn; [split; [by apply negate_may_false|done]|by apply negate_may_false]. }
    intros [] Hpv; try (by apply promises_ret); [| |by apply Pv].
    + eapply promises_bind; [by apply Pt|]. intros b Hb. by apply promises_ret, validity_of_truth.
    + eapply promises_bind; [exact Pn|]. intros b Hb. by apply promises_ret, validity_of_falsity.
  - intros q Hq Hc Hd. unfold staged_computeValue. eapply promises_bind; [by apply primary_promise, Hv|].
    intros [r|] Hr; [by apply promises_ret|by apply Pval].
  - intros q objects Hq Hc. unfold staged_computeInitialValues. eapply promises_bind; [by apply primary_promise, Hi|].
    intros [r|] Hr; [by apply promises_ret|by apply Pi].
Qed.

(** ** The cache *)

(** Every entry is right about its query. *)
Definition cache_right (m : list cache_entry) : Prop := Forall (fun e => partial_ok (mkQuery e.1.1 e.1.2) e.2) m.
Definition caching_inv {S} (I : S -> Prop) (s : CachingState S) : Prop := I (caching_solver s) /\ cache_right (cache s).

Lemma cache_find_right k pv m : cache_right m -> cache_find k m = Some pv -> partial_ok (mkQuery k.1 k.2) pv.
Proof.
  induction 1 as [|[k' pv'] m Hk _ IH]; [done|]. cbn. destruct (decide (k = k')) as [->|]; [by intros [= <-]|done].
Qed.
Lemma negate_partial q pv : partial_ok (Query_negateExpr q) pv ->
  exists pv', negatePartialValidity pv = Some pv' /\ partial_ok q pv'.
Proof.
  intros Hp. destruct pv; try done; eexists; (split; [reflexivity|]); cbn in *;
    [by apply negate_must_true|by apply negate_must_false|by apply negate_may_true|by apply negate_may_false|].
  destruct Hp. split; [by apply negate_may_false|by apply negate_may_true].
Qed.
Lemma negated_partial q pv : well_typed (q_expr q) -> defined q -> partial_ok q pv ->
  exists pv', negatePartialValidity pv = Some pv' /\ partial_ok (Query_negateExpr q) pv'.
Proof.
  intros Ht Hd Hp. destruct pv; try done; eexists; (split; [reflexivity|]); cbn in *;
    [by apply defined_must_true|by apply defined_must_false|by apply defined_may_true|by apply defined_may_false|].
  destruct Hp. split; [by apply defined_may_false|by apply defined_may_true].
Qed.
Lemma canonicalize_cases q : let c := canonicalizeQuery (q_expr q) in
  c = (q_expr q, false) \/ c = (q_expr (Query_negateExpr q), true).
Proof. cbn. unfold canonicalizeQuery. destruct (compare _ _); auto. Qed.

Lemma call_promise {S A} (I : S -> Prop) (m : SM S solver_error A) P : promises I m P ->
  promises (caching_inv I) (call_solver m) P.
Proof.
  intros Hm s [Hs Hc]. specialize (Hm (caching_solver s) Hs). unfold call_solver.
  destruct (m (caching_solver s)) as [[a|e] s']; destruct Hm as [? ?]; by repeat split.
Qed.
Lemma pv_asserted_promise {S} (I : CachingState S -> Prop) (pv : PartialValidity) :
  promises I (pv_asserted (Some pv)) (fun r => r = pv).
Proof. by apply promises_ret. Qed.
Lemma lookup_promise {S} (I : S -> Prop) q :
  promises (caching_inv I) (cacheLookup q) (fun o => match o with Some pv => partial_ok q pv | None => True end).
Proof.
  unfold cacheLookup. pose proof (canonicalize_cases q) as Hcan. destruct (canonicalizeQuery (q_expr q)) as [c neg].
  cbv zeta in Hcan. apply promises_gets. intros s0 [Hi Hr] s ->.
  destruct (cache_find (q_constraints q, c) (cache s0)) as [pv|] eqn:Hf; [|by repeat split].
  apply cache_find_right in Hf; [|done]. cbn in Hf. destruct Hcan as [[= -> ->]|[= -> ->]].
  - by destruct q.
  - by destruct (negate_partial q pv Hf) as (pv' & -> & Hp).
Qed.
Lemma insert_promise {S} (I : S -> Prop) q pv : well_typed (q_expr q) -> defined q -> partial_ok q pv ->
  promises (caching_inv I) (cacheInsert q pv) (fun _ => True).
Proof.
  intros Ht Hd Hp. unfold cacheInsert. pose proof (canonicalize_cases q) as Hcan.
  destruct (canonicalizeQuery (q_expr q)) as [c neg]. cbv zeta in Hcan.
  assert (exists pv', (if neg then negatePartialValidity pv else Some pv) = Some pv' /\
    partial_ok (mkQuery (q_constraints q) c) pv') as (pv' & -> & Hp').
  { destruct Hcan as [[= -> ->]|[= -> ->]]; [exists pv; by destruct q|]. by apply negated_partial. }
  eapply promises_bind; [apply pv_asserted_promise|]. intros _ -> s [Hi Hr].
  cbn. destruct (cache_find _ _); [by repeat split|]. split; [|done]. split; [done|]. by constructor.
Qed.
Lemma insert_then {S A} (I : S -> Prop) q pv (a : A) (P : A -> Prop) : well_typed (q_expr q) -> defined q ->
  partial_ok q pv -> P a -> promises (caching_inv I) (sm_bind (cacheInsert q pv) (fun _ => sm_ret a)) P.
Proof. intros Ht Hd Hp Ha. eapply promises_bind; [by apply insert_promise|]. intros _ _. by apply promises_ret. Qed.

Definition full_pv (v : Validity) : PartialValidity :=
  match v with ValidTrue => MustBeTrue | ValidFalse => MustBeFalse | ValidUnknown => TrueOrFalse end.
Lemma full_partial q v : validity_ok q v -> partial_ok q (full_pv v).
Proof. by destruct v. Qed.

(** The cache of validity results keeps the promise: whatever was asked before, an answer taken from
    the cache, directly or as the negation of one, is right, and so is every answer that one half
    known completes; the entries stay right. *)
Theorem caching_promise {S} (solver : SolverImpl S) I : impl_ok sizes solver I ->
  impl_ok sizes (CachingSolver solver) (caching_inv I).
Proof.
  intros [Pt Pv Pval Pi]. split; cbn.
  - intros q Hq Hc Hd. pose proof (proj1 (proj1 (Forall_cons _ _ _) Hq)) as [Ht _].
    unfold caching_computeTruth. eapply promises_bind; [apply lookup_promise|]. intros hit Hhit.
    assert (forall hit, match hit with Some pv => pv = MayBeTrue /\ may_be_true q | None => True end ->
      promises (caching_inv I)
        (sm_bind (call_solver (computeTruth solver q)) (fun isValid => sm_bind
          (if isValid : bool then sm_ret MustBeTrue
           else match hit with
                | Some pv => sm_bind (solver_assert (bool_decide (pv = MayBeTrue))) (fun _ => sm_ret TrueOrFalse)
                | None => sm_ret MayBeFalse
                end)
          (fun r => sm_bind (cacheInsert q r) (fun _ => sm_ret isValid)))) (truth_ok q)) as Hmiss.
    { intros h Hh. eapply promises_bind; [by apply call_promise, Pt|]. intros b Hb.
      eapply (promises_bind _ _ _ (partial_ok q)); [|intros pv Hp; by apply insert_then].
      destruct b; [by apply promises_ret|]. destruct h as [pv|]; [|by apply promises_ret].
      destruct Hh as [-> Hm]. by apply promises_assert, promises_ret. }
    destruct hit as [pv|]; [|exact (Hmiss None Hhit)].
    destruct (decide (pv = MayBeTrue)) as [->|Hne]; [exact (Hmiss (Some MayBeTrue) (conj eq_refl Hhit))|].
    apply promises_ret. destruct pv; try done; cbn in *; [|by destruct Hhit].
    destruct Hc as [σ Hσ]. exists σ. split; [by apply holds_allow|by apply Hhit].
  - intros q Hq Hc Hd. pose proof (proj1 (proj1 (Forall_cons _ _ _) Hq)) as [Ht _].
    unfold caching_computeValidity. eapply promises_bind; [apply lookup_promise|].
    intros [pv|] Hhit; [destruct pv; try (by apply promises_ret); [|]|].
    + eapply promises_bind; [by apply call_promise, Pt|]. intros [] Hb; by apply insert_then.
    + eapply promises_bind; [by apply call_promise, Pt; [apply negate_ok| |apply negate_defined]|].
      intros [] Hb; apply insert_then; try done; try by apply negate_must_true.
      * split; [by apply negate_may_false|done].
      * split; [by apply negate_may_false|done].
    + eapply promises_bind; [by apply call_promise, Pv|]. intros v Hv. apply insert_then; [done|done| |done].
      apply (full_partial q v Hv).
  - intros q Hq Hc Hd. by apply call_promise, Pval.
  - intros q objects Hq Hc. by apply call_promise, Pi.
Qed.
End promises.

(** ** Witnesses: a solver that tries inputs, behind a cache and an incomplete solver *)

Definition sample_candidates : list Assignment := [[(sample_byte, [7])]; [(sample_byte, [8])]].
(** It knows of two inputs when one of them refutes a query without constraints. *)
Definition sample_incomplete : IncompleteSolver := {|
  inc_computeTruth q :=
    match q_constraints q with
    | [] => Ok (if evalsb (input_of [(sample_byte, [7])]) (q_expr q) false then MayBeFalse else PVNone)
    | _ => Ok PVNone
    end;
  inc_computeValue _ := Ok None;
  inc_computeInitialValues _ _ := Ok None |}.
Lemma sample_incomplete_ok `{AssertPolicy} sizes : incomplete_ok sizes sample_incomplete.
Proof.
  split; [|done|done]. intros q _ _ _. cbn. destruct (q_constraints q) eqn:Hq; [|done]. cbn.
  destruct (evalsb _ _ _) eqn:He; [|done]. exists (input_of [(sample_byte, [7])]). rewrite Hq. split; [constructor|].
  intros Hh. apply (not_both _ _ Hh), (bool_decide_eq_true_1 _ He).
Qed.
#[local] Existing Instance no_asserts.
Lemma staged_promise_witness :
  impl_ok (fun _ => 1) (StagedSolverImpl sample_incomplete (search_impl sample_candidates)) (fun _ => True).
Proof. apply staged_promise; [apply sample_incomplete_ok|apply search_impl_ok]. Defined.
Lemma caching_promise_witness :
  impl_ok (fun _ => 1) (CachingSolver (H0 := sample_identity) (search_impl sample_candidates)) (caching_inv (fun _ => True)).
Proof. apply caching_promise, search_impl_ok. Defined.
