(* ===== verification/KNegation.v ===== *)
(** What the negation of an expression says of it: the other direction of [isZero_evals].  An
    expression whose negation holds is refuted; one whose negation is refuted holds, or is a
    disjunction that a constant makes true. *)
From S2P Require Import Prelude Bits APInt KExpr KBuilder KBuilderSound KType KCreate KCreateShape KCreateSound KVisitor KConstraints KSolver.

Section negated.
Context `{Laws : APIntLaws} (σ : assignment).
Lemma typed_value e v : well_typed e -> eval σ e = Some v -> exists b, v = bool_ap b /\ evals σ e b.
Proof.
  intros Ht Hv. assert (ap_width v = Bool) as Hw by (apply eval_type in Hv; unfold well_typed in Ht; congruence).
  destruct (bool_eval σ e v Hv Hw) as [b ->]. by exists b.
Qed.
Lemma const_typed c : well_typed (EConstant c) -> exists b, c = bool_ap b.
Proof. intros [Hc Hw]%type_constant. destruct (bool_eval σ (EConstant c) c) as [b ->]; [by apply eval_constant|done|by exists b]. Qed.
(** A conjunction that holds. *)
Lemma And_holds l r : well_typed l -> well_typed r -> holds σ (AndExpr_create l r) -> holds σ l /\ holds σ r.
Proof.
  intros Hl Hr. unfold AndExpr_create, AndExpr_createPartialR.
  assert (forall e c, well_typed (EConstant c) -> holds σ (AndExpr_createPartial e c) -> holds σ e /\ holds σ (EConstant c)) as Hp.
  { intros e c [[] ->]%const_typed He; [by split|]. by apply eval_constant_inv in He as [? _]. }
  assert (holds σ (EArith Kind.And l r) -> holds σ l /\ holds σ r) as Hn.
  { intros He. unfold holds, evals in He. cbn [eval] in He. apply ev_arith_inv in He as (a & b & Ha & Hb & _ & Hv).
    destruct (typed_value l a Hl Ha) as (x & -> & Hx), (typed_value r b Hr Hb) as (y & -> & Hy).
    destruct x, y; try done; by injection Hv. }
  destruct l as [a| | | | | | | | |], r as [b| | | | | | | | |]; cbn [specialize2]; try exact Hn;
    try (intros He; destruct (Hp _ _ Hl He); by split); try (intros He; by apply Hp).
  intros He. apply Hn. destruct (const_typed a Hl) as [x ->], (const_typed b Hr) as [y ->]. revert He. unfold fold_arith, CE_arith.
  rewrite ap_arith_law by (apply bool_ap_wf || done). by destruct x, y.
Qed.
End negated.

Section trivial.
Context `{Laws : APIntLaws}.

(** Disjunctions that are true for a constant. *)
Fixpoint trivially_true (e : expr) : bool :=
  match e with
  | EConstant c => isTrue c
  | EArith Kind.Or l r => trivially_true l || trivially_true r
  | ECmp Kind.Eq (EConstant c) (EConstant d) => bool_decide (c = d)
  | _ => false
  end.
(** A conjunction that is refuted. *)
Lemma And_refuted σ l r : well_typed l -> well_typed r -> refuted σ (AndExpr_create l r) ->
  l = EConstant (bool_ap false) \/ r = EConstant (bool_ap false) \/
  exists x y, evals σ l x /\ evals σ r y /\ x && y = false.
Proof.
  intros Hl Hr. unfold AndExpr_create, AndExpr_createPartialR.
  assert (forall e c, well_typed (EConstant c) -> refuted σ (AndExpr_createPartial e c) ->
    c = bool_ap false \/ evals σ (EConstant c) true /\ refuted σ e) as Hp.
  { intros e c [[] ->]%(const_typed σ) He; [by right|by left]. }
  assert (refuted σ (EArith Kind.And l r) -> exists x y, evals σ l x /\ evals σ r y /\ x && y = false) as Hn.
  { intros He. unfold refuted, evals in He. cbn [eval] in He. apply ev_arith_inv in He as (a & b & Ha & Hb & _ & Hv).
    destruct (typed_value σ l a Hl Ha) as (x & -> & Hx), (typed_value σ r b Hr Hb) as (y & -> & Hy).
    exists x, y. split_and!; [done..|]. by destruct x, y. }
  destruct l as [a| | | | | | | | |], r as [b| | | | | | | | |]; cbn [specialize2]; try (intros He; right; right; by apply Hn);
    try (intros He; destruct (Hp _ _ Hl He) as [-> |[Hc Hr']]; [by left|right; right; by exists true, false]);
    try (intros He; destruct (Hp _ _ Hr He) as [-> |[Hc Hl']]; [by right; left|right; right; by exists false, true]).
  intros He. destruct (const_typed σ a Hl) as [x ->], (const_typed σ b Hr) as [y ->]. right. right. exists x, y. split_and!; [by destruct x|by destruct y|].
  revert He. unfold fold_arith, CE_arith. rewrite ap_arith_law by (apply bool_ap_wf || done). by destruct x, y.
Qed.
Lemma And_false l r : well_typed l -> well_typed r -> AndExpr_create l r = EConstant (bool_ap false) ->
  l = EConstant (bool_ap false) \/ r = EConstant (bool_ap false).
Proof.
  intros Hl Hr. unfold AndExpr_create, AndExpr_createPartialR.
  assert (forall e c, well_typed (EConstant c) -> AndExpr_createPartial e c = EConstant (bool_ap false) ->
    c = bool_ap false \/ e = EConstant (bool_ap false)) as Hp.
  { intros e c [[] ->]%(const_typed (fun _ _ => 0)) He; [by right|by left]. }
  destruct l as [a| | | | | | | | |], r as [b| | | | | | | | |]; cbn [specialize2]; try (by intros He);
    try (intros He; destruct (Hp _ _ Hl He) as [-> |?]; auto); try (intros He; destruct (Hp _ _ Hr He) as [-> |?]; auto).
  destruct (const_typed (fun _ _ => 0) a Hl) as [x ->], (const_typed (fun _ _ => 0) b Hr) as [y ->].
  unfold fold_arith, CE_arith. rewrite ap_arith_law by (apply bool_ap_wf || done). destruct x, y; auto.
Qed.
(** [n] is a negation of [e], where its outcome matters. *)
Definition negation_says σ (e n : expr) : Prop :=
  (holds σ n -> refuted σ e) /\ (refuted σ n -> holds σ e \/ trivially_true e = true) /\
  (n = EConstant (bool_ap false) -> trivially_true e = true).
Lemma alloc_says σ e : well_typed e -> negation_says σ e (EqExpr_alloc (EConstant (bool_ap false)) e).
Proof.
  intros Hw. unfold EqExpr_alloc. destruct (decide _) as [<-|_]; [done|].
  assert (forall b, evals σ (ECmp Kind.Eq (EConstant (bool_ap false)) e) b -> evals σ e (negb b)) as He.
  { intros b Hb. unfold evals in Hb. cbn [eval] in Hb. apply ev_cmp_inv in Hb as (x & y & Hx & Hy & _ & Hv). injection Hx as <-.
    destruct (typed_value σ e y Hw Hy) as (c & -> & Hc). by destruct b, c. }
  split_and!; [apply (He true)|intros Hr; left; by apply (He false)|done].
Qed.
Lemma const_says σ c : well_typed (EConstant c) -> negation_says σ (EConstant c) (fold_cmp Kind.Eq c (bool_ap false)).
Proof.
  intros [b ->]%(const_typed σ). unfold fold_cmp, CE_cmp. rewrite ap_cmp_law by (apply bool_ap_wf || done).
  split_and!; [| |]; destruct b; cbn; try done; by left.
Qed.
Lemma eq_constant_typed x : well_typed x -> well_typed (eq_constant EqExpr_createPartialR x (bool_ap false)).
Proof.
  intros Hx. pose proof (proj1 (isZero_shape x Bool Hx)) as Hz. unfold Expr_createIsZero in Hz.
  rewrite (proj1 (type_width x _ Hx)) in Hz. by destruct x.
Qed.
Lemma negation_says_isZero σ e : well_typed e -> negation_says σ e (eq_constant EqExpr_createPartialR e (bool_ap false)).
Proof.
  intros Ht. assert (negation_says σ e (EqExpr_createPartialR (bool_ap false) e)) as Hp.
  2: { destruct e; try exact Hp. by apply const_says. }
  induction e; cbn [EqExpr_createPartialR bool_ap ap_width]; change (Bool =? Bool) with true;
    change (isTrue (bool_ap false)) with false; cbv iota; try (by apply alloc_says).
  - destruct k; try (by apply alloc_says). pose proof Ht as [H1 H2]%type_arith_inv.
    rewrite (proj1 (type_width e1 _ H1)), (proj1 (type_width e2 _ H2)). change (CE_alloc 0 Bool) with (bool_ap false).
    assert (forall x, well_typed x -> negation_says σ x (EqExpr_createPartialR (bool_ap false) x) ->
      negation_says σ x (eq_constant EqExpr_createPartialR x (bool_ap false))) as Hc by (intros [] Hx ?; try done; by apply const_says).
    destruct (Hc e1 H1 (IHe1 H1)) as (Ha1 & Ha2 & Ha3), (Hc e2 H2 (IHe2 H2)) as (Hb1 & Hb2 & Hb3).
    set (n1 := eq_constant _ e1 _) in *. set (n2 := eq_constant _ e2 _) in *.
    assert (well_typed n1 /\ well_typed n2) as [Hn1 Hn2] by (split; by apply eq_constant_typed).
    assert (forall x y, evals σ e1 x -> evals σ e2 y -> evals σ (EArith Kind.Or e1 e2) (x || y)) as Hor.
    { intros x y Hx Hy. unfold evals in *. cbn [eval]. rewrite Hx, Hy. by destruct x, y. }
    assert (forall x, evals σ n1 x -> trivially_true e1 = true \/ evals σ e1 (negb x)) as Hv1
      by (intros [] Hx; [right; by apply Ha1|destruct (Ha2 Hx); [by right|by left]]).
    assert (forall x, evals σ n2 x -> trivially_true e2 = true \/ evals σ e2 (negb x)) as Hv2
      by (intros [] Hx; [right; by apply Hb1|destruct (Hb2 Hx); [by right|by left]]).
    split_and!.
    + intros [Hx Hy]%And_holds; [|done..]. apply (Hor false false); [by apply Ha1|by apply Hb1].
    + intros [Hx|[Hx|(x & y & Hx & Hy & Hxy)]]%And_refuted; [| | |done..]; cbn [trivially_true].
      * right. by rewrite (Ha3 Hx).
      * right. rewrite (Hb3 Hx). apply orb_true_r.
      * destruct (Hv1 x Hx) as [->|He1]; [by right|]. destruct (Hv2 y Hy) as [->|He2]; [right; apply orb_true_r|].
        left. pose proof (Hor _ _ He1 He2) as H. by destruct x, y.
    + cbn [trivially_true]. intros [Hf|Hf]%And_false; [| |done..]; [by rewrite (Ha3 Hf)|rewrite (Hb3 Hf); apply orb_true_r].
  - destruct k; try (by apply alloc_says). destruct e1 as [c| | | | | | | | |]; try (by apply alloc_says).
    destruct (is_false_bool c) eqn:Hf; [|by apply alloc_says]. apply andb_true_iff in Hf as [Hcw%Z.eqb_eq Hcf].
    pose proof Ht as (_ & u & Hc & He)%type_cmp_inv. pose proof Hc as [Hcwf Hcu]%type_constant.
    destruct (const_typed σ c) as [b ->]; [unfold well_typed; congruence|]. destruct b; [done|].
    split_and!.
    + intros Hh. unfold refuted, holds, evals in *. cbn [eval]. by rewrite Hh.
    + intros Hh. left. unfold refuted, holds, evals in *. cbn [eval]. by rewrite Hh.
    + intros ->. done.
Qed.

Lemma isZero_says σ e : well_typed e -> negation_says σ e (Expr_createIsZero e).
Proof.
  intros Ht. unfold Expr_createIsZero. rewrite (proj1 (type_width e _ Ht)). change (CE_alloc 0 Bool) with (bool_ap false).
  by apply negation_says_isZero.
Qed.
Lemma isZero_holds σ e : well_typed e -> holds σ (Expr_createIsZero e) -> refuted σ e.
Proof. intros Ht. by apply isZero_says. Qed.
End trivial.
