(* ===== verification/KValidating.v ===== *)
(** The solvers that check another's answers (klee/lib/Solver/ValidatingSolver.cpp,
    AssignmentValidatingSolver.cpp), by an oracle and by evaluation: they keep the answers, and of right answers no check
    fails. *)
From S2P Require Import Prelude Bits APInt KExpr KBuilder KBuilderSound KType KCreate KCreateShape KCreateSound KVisitor KConstraints KReads RangeBounds KRange Concolic PathTrace KSolver KEval.

#[local] Open Scope sm_scope.

(** * By an oracle *)

Section validating.
Context `{APInt} {S T : Type} (solver : SolverImpl S) (oracle : SolverImpl T).
Abbreviation M := (SM (S * T) solver_error).

Definition in_solver {A} (m : SM S solver_error A) : M A := fun s => let (r, s') := m s.1 in (r, (s', s.2)).
Definition in_oracle {A} (m : SM T solver_error A) : M A := fun s => let (r, t') := m s.2 in (r, (s.1, t')).
(** An access out of a vector stops it. *)
Definition in_bounds {A} (o : option A) : M A := match o with Some a => sm_ret a | None => sm_throw AssertFailed end.

Definition validating_computeTruth (query : Query) : M bool :=
  isValid <-- in_solver (computeTruth solver query) ;; answer <-- in_oracle (computeTruth oracle query) ;;
  solver_assert (Bool.eqb isValid answer) ;;; sm_ret isValid.
#[export] Instance Validity_eq_dec : EqDecision Validity.
Proof. solve_decision. Defined.
Definition validating_computeValidity (query : Query) : M Validity :=
  result <-- in_solver (computeValidity solver query) ;; answer <-- in_oracle (computeValidity oracle query) ;;
  solver_assert (bool_decide (result = answer)) ;;; sm_ret result.
Definition validating_computeValue (query : Query) : M expr :=
  result <-- in_solver (computeValue solver query) ;;
  answer <-- in_oracle (computeTruth oracle (withExpr query (cmp_create Kind.Ne (q_expr query) result))) ;;
  solver_assert (negb answer) ;;; sm_ret result.
(** The bytes found as equalities; a missing object or byte is an access out of the vectors. *)
Definition binding_constraints (objects : list Array) (values : list (list Z)) : option ConstraintSet :=
  if (length values <=? length objects)%nat
  then @concat expr <$> mapM (fun b : Array * list Z => array_constraints b.1 b.2) (zip objects values) else None.
Definition conjunction (query : Query) : expr := foldl AndExpr_create (Expr_createIsZero (q_expr query)) (q_constraints query).
Definition validating_computeInitialValues (query : Query) (objects : list Array) : M (option (list (list Z))) :=
  solution <-- in_solver (computeInitialValues solver query objects) ;;
  match solution with
  | Some values =>
      bindings <-- in_bounds (binding_constraints objects values) ;;
      answer <-- in_oracle (computeTruth oracle (mkQuery bindings (conjunction query))) ;;
      solver_assert answer ;;; sm_ret (Some values)
  | None => answer <-- in_oracle (computeTruth oracle query) ;; solver_assert answer ;;; sm_ret None
  end.
Definition ValidatingSolver : SolverImpl (S * T) :=
  mkSolverImpl validating_computeTruth validating_computeValidity validating_computeValue validating_computeInitialValues.
End validating.

(** * By evaluation *)

Section assignment.
Context `{APInt} {S : Type} (solver : SolverImpl S).
Abbreviation M := (SM S solver_error).

(** A missing constant is an [abort()], as is one of the wrong truth.  Where the solver fails, its
    [hasSolution] counts as false. *)
Definition check_evaluated (A : KAssignment) (ok : apint -> bool) (e : expr) : M unit :=
  solver_assert (match evaluate A e with Some (EConstant CE) => ok CE | _ => false end).
Fixpoint check_constraints (A : KAssignment) (cs : list expr) : M unit :=
  match cs with [] => sm_ret tt | c :: cs => check_evaluated A (fun CE => negb (isFalse CE)) c ;;; check_constraints A cs end.
Definition assignment_computeInitialValues (query : Query) (objects : list Array) : M (option (list (list Z))) :=
  solution <-- computeInitialValues solver query objects ;;
  match solution with
  | None => sm_ret None
  | Some values =>
      let assignment := Assignment_new objects values true in
      check_constraints assignment (q_constraints query) ;;;
      check_evaluated assignment (fun CE => negb (isTrue CE)) (q_expr query) ;;;
      sm_ret (Some values)
  end.
Definition AssignmentValidatingSolver : SolverImpl S :=
  mkSolverImpl (computeTruth solver) (computeValidity solver) (computeValue solver) assignment_computeInitialValues.
End assignment.

(** * Right answers *)

(** The constraints have a value wherever they are not refuted. *)
Definition firm (q : Query) : Prop := forall σ, Forall (allows σ) (q_constraints q) -> Forall (holds σ) (q_constraints q).

Section right.
Context `{Laws : APIntLaws, AssertPolicy} (sizes : string -> Z).

(** ** Answers are unique *)

Section unique.
Context (q : Query) (Ht : well_typed (q_expr q)) (Hd : defined q) (Hf : firm q).
Lemma not_both_ways σ : Forall (allows σ) (q_constraints q) -> ~ (~ holds σ (q_expr q) /\ ~ refuted σ (q_expr q)).
Proof. intros Hc [Hh Hr]. by destruct (defined_cases q σ Ht Hd Hc). Qed.
Lemma true_unique : must_be_true q -> ~ may_be_false q.
Proof. intros Hm (σ & Hc & Hn). apply (not_both_ways σ Hc). split; [done|by apply Hm, Hf]. Qed.
Lemma false_unique : must_be_false q -> ~ may_be_true q.
Proof. intros Hm (σ & Hc & Hn). apply (not_both_ways σ Hc). split; [by apply Hm, Hf|done]. Qed.
Lemma truth_unique a b : truth_ok q a -> truth_ok q b -> a = b.
Proof. destruct a, b; cbn; try done; intros H1 H2; first [by destruct (true_unique H1 H2)|by destruct (true_unique H2 H1)]. Qed.
Lemma validity_unique a b : consistent q -> validity_ok q a -> validity_ok q b -> a = b.
Proof.
  intros [σ Hσ]. assert (must_be_true q -> must_be_false q -> False) as Hboth.
  { intros H1 H2. apply (not_both_ways σ (holds_allow _ _ Hσ)). split; [by apply H2|by apply H1]. }
  destruct a, b; cbn; try done; intros H1 H2; exfalso; first
    [exact (Hboth H1 H2)|exact (Hboth H2 H1)|exact (true_unique H1 (proj2 H2))|exact (false_unique H1 (proj1 H2))
    |exact (true_unique H2 (proj2 H1))|exact (false_unique H2 (proj1 H1))].
Qed.
End unique.

(** ** What the oracle is asked *)

Lemma EqExpr_create_hereditary (P : expr -> Prop) l r : (forall v, P (EConstant v)) -> (forall l r, P l -> P r -> P (EArith Kind.And l r)) ->
  (forall l r, P l -> P r -> P (ECmp Kind.Eq l r)) -> (forall e, P e -> Forall P (getKids e)) -> P l -> P r -> P (EqExpr_create l r).
Proof.
  intros Hc Ha He Hk Hl Hr. unfold EqExpr_create. apply specialize2_cases; intros; subst.
  - apply Hc.
  - by apply (EqPartialR_hereditary P).
  - by apply (EqPartialR_hereditary P).
  - by apply (EqExpr_alloc_hereditary P).
Qed.
(** The reads of what is built are among those given. *)
Lemma reads_kids (L : list (Array * expr)) e : (forall r, r ∈ all_reads e -> r ∈ L) -> Forall (fun k => forall r, r ∈ all_reads k -> r ∈ L) (getKids e).
Proof.
  intros He. destruct e; repeat (apply Forall_cons; split); try (by apply Forall_nil); intros r Hr; apply He; cbn [all_reads]; set_solver.
Qed.
Lemma Eq_parts l r : parts_ok sizes l -> parts_ok sizes r -> parts_ok sizes (EqExpr_create l r).
Proof.
  intros [Hl Hcl] [Hr Hcr]. split.
  - apply Forall_forall. intros x Hx. assert (x ∈ all_reads l ++ all_reads r) as Hin.
    { revert x Hx. set (L := all_reads l ++ all_reads r). apply (EqExpr_create_hereditary (fun e => forall x, x ∈ all_reads e -> x ∈ L)).
      - by intros v x ?%elem_of_nil.
      - intros a b Ha Hb x [?|?]%elem_of_app; auto.
      - intros a b Ha Hb x [?|?]%elem_of_app; auto.
      - intros e. apply reads_kids.
      - intros x Hx. apply elem_of_app. by left.
      - intros x Hx. apply elem_of_app. by right. }
    apply elem_of_app in Hin as [Hin|Hin]; [by apply (proj1 (Forall_forall _ _) Hl)|by apply (proj1 (Forall_forall _ _) Hr)].
  - apply EqExpr_create_hereditary; [by repeat split..| |done|done].
    intros e He. destruct e; destruct He as [_ He]; repeat (apply Forall_cons; split); try (by apply Forall_nil); tauto.
Qed.
Lemma And_parts l r : parts_ok sizes l -> parts_ok sizes r -> parts_ok sizes (AndExpr_create l r).
Proof.
  intros Hl Hr. apply And_hereditary; [|intros a b [Ha Hca] [Hb Hcb]|done|done].
  - intros v. by split; [apply Forall_nil|].
  - split; [by apply Forall_app|by repeat split].
Qed.
Lemma Eq_typed l r w : type_of l = Some w -> type_of r = Some w -> well_typed (EqExpr_create l r).
Proof. intros Hl Hr. exact (proj1 (Eq_shape l r w Hl Hr)). Qed.
Lemma constant_parts v : parts_ok sizes (EConstant v).
Proof. by split; [apply Forall_nil|]. Qed.
Lemma false_typed : type_of (EConstant (CE_alloc 0 Bool)) = Some Bool.
Proof. by apply type_alloc. Qed.

(** That the value is another one. *)
Lemma Ne_ok e w v : type_of e = Some w -> parts_ok sizes e -> ap_wf v -> ap_width v = w -> expr_ok sizes (cmp_create Kind.Ne e (EConstant v)).
Proof.
  intros He Hp Hv Hw. assert (type_of (EConstant v) = Some w) as Hvt by (by apply type_constant).
  split; [eapply Eq_typed; [apply false_typed|by eapply Eq_typed]|]. apply Eq_parts, Eq_parts; [apply constant_parts|done|apply constant_parts].
Qed.
Lemma Eq_value σ l r a b : eval σ l = Some a -> eval σ r = Some b -> ap_width a = ap_width b ->
  evals σ (EqExpr_create l r) (ap_val a =? ap_val b).
Proof.
  intros Ha Hb Hw. apply Eq_sound. rewrite Ha, Hb. unfold ev_cmp. cbn. by rewrite Hw, Z.eqb_refl.
Qed.
Lemma Ne_value σ e u v : eval σ e = Some u -> ap_wf v -> ap_width v = ap_width u ->
  evals σ (cmp_create Kind.Ne e (EConstant v)) (negb (ap_val u =? ap_val v)).
Proof.
  intros Hu Hv Hw. assert (evals σ (EqExpr_create e (EConstant v)) (ap_val u =? ap_val v)) as He.
  { apply Eq_value; [done|by apply eval_constant|done]. }
  pose proof (Eq_value σ (EConstant (CE_alloc 0 Bool)) _ (CE_alloc 0 Bool) _ ltac:(by vm_compute) He) as Hn.
  assert (ap_val (CE_alloc 0 Bool) = 0) as Hz by done. unfold cmp_create. destruct (ap_val u =? ap_val v); by apply Hn.
Qed.

(** ** The bytes as equalities *)

Definition binding (a : Array) (j : nat) (v : Z) : expr :=
  EqExpr_create (ERead a (EConstant (CE_alloc (Z.of_nat j) Int32))) (EConstant (CE_alloc v Int8)).
Definition bound_byte (objects : list Array) (values : list (list Z)) (a : Array) (j : nat) (v : Z) : Prop :=
  exists bytes, (a, bytes) ∈ zip objects values /\ bytes !! j = Some v /\ Z.of_nat j < arr_size a.
Lemma array_constraints_spec a bytes : values_of a bytes ->
  exists bs, array_constraints a bytes = Some bs /\ forall e, e ∈ bs <-> exists j v, bytes !! j = Some v /\ Z.of_nat j < arr_size a /\ e = binding a j v.
Proof.
  intros [Hlen _]. unfold array_constraints. set (f := fun i : nat => v ← bytes !! i; Some (binding a i v)).
  change (fun i : nat => v ← bytes !! i; _) with f.
  assert (forall L, Forall (fun i => (i < length bytes)%nat) L -> exists bs, mapM f L = Some bs /\
    forall e, e ∈ bs <-> exists j v, j ∈ L /\ bytes !! j = Some v /\ e = binding a j v) as Hm.
  { induction 1 as [|i L Hi _ (bs & Hbs & Hin)].
    { exists []. split; [done|]. intros e. rewrite elem_of_nil. split; [done|]. by intros (j & v & ?%elem_of_nil & _). }
    destruct (lookup_lt_is_Some_2 bytes i Hi) as [v Hv]. exists (binding a i v :: bs). assert (f i = Some (binding a i v)) as Hfi by (unfold f; by rewrite Hv).
    cbn. rewrite Hfi. cbn. change (mapM f L) with (mapM f L) in Hbs. rewrite Hbs. split; [done|]. intros e. rewrite elem_of_cons, Hin. setoid_rewrite elem_of_cons. split.
    - intros [->|(j & v' & Hj & Hl & ->)]; [exists i, v; auto|exists j, v'; auto].
    - intros (j & v' & [->|Hj] & Hl & ->); [left; congruence|right; by exists j, v']. }
  destruct (Hm (seq 0 (Z.to_nat (arr_size a)))) as (bs & Hbs & Hin); [apply Forall_forall; intros i Hi%elem_of_seq; lia|].
  exists bs. split; [done|]. intros e. rewrite Hin. setoid_rewrite elem_of_seq.
  split; intros (j & v & H1 & H2 & H3); exists j, v; split_and!; try done; try lia.
Qed.
Lemma binding_constraints_spec objects values : Forall2 values_of objects values ->
  exists bs, binding_constraints objects values = Some bs /\ forall e, e ∈ bs <-> exists a j v, bound_byte objects values a j v /\ e = binding a j v.
Proof.
  unfold binding_constraints. intros Hv. rewrite (proj2 (Nat.leb_le _ _)) by (by rewrite (Forall2_length _ _ _ Hv)).
  induction Hv as [|a bytes objects values Ha _ (bs & Hbs & Hin)].
  { exists []. split; [done|]. intros e. rewrite elem_of_nil. split; [done|]. by intros (a & j & v & (bytes & ?%elem_of_nil & _) & _). }
  destruct (array_constraints_spec a bytes Ha) as (b1 & Hb1 & Hin1). apply fmap_Some in Hbs as (rest & Hrest & ->).
  cbn -[array_constraints concat binding]. rewrite Hb1. cbn -[array_constraints concat binding]. rewrite (Hrest : mapM _ (zip_with pair objects values) = _). exists (b1 ++ concat rest). split; [done|].
  intros e. rewrite elem_of_app, Hin1, Hin. unfold bound_byte. setoid_rewrite elem_of_cons. split.
  - intros [(j & v & H1 & H2 & ->)|(a' & j & v & (bytes' & H1 & H2 & H3) & ->)]; [exists a, j, v|exists a', j, v]; (split; [|done]); [exists bytes|exists bytes']; auto.
  - intros (a' & j & v & (bytes' & [[= -> ->]|H1] & H2 & H3) & ->); [left; by exists j, v|right; exists a', j, v; split; [by exists bytes'|done]].
Qed.

(** The value of an expression depends on the bytes inside of its arrays. *)
Lemma eval_within σ σ' e : (forall a, a ∈ arrays e -> forall j, 0 <= j < arr_size a -> wrap 8 (σ (arr_name a) j) = wrap 8 (σ' (arr_name a) j)) ->
  eval σ e = eval σ' e.
Proof.
  unfold arrays. induction e; cbn [all_reads eval fmap list_fmap]; rewrite ?fmap_app; intros Ha;
    try (rewrite IHe by (intros a' Ha'; apply Ha; by try right); try done);
    try (rewrite IHe1, IHe2 by (intros a' Ha'; apply Ha; apply elem_of_app; auto); done); try done.
  - destruct (eval σ' e) as [v|] eqn:Hv; [|done]. unfold ev_read. cbn. pose proof (wf_range v (eval_wf _ _ _ Hv)).
    destruct (Z.ltb_spec (ap_val v) (arr_size root)); [|done]. do 2 f_equal. apply Ha; [by left|lia].
  - by rewrite IHe1, IHe2, IHe3 by (intros a' Ha'; apply Ha; rewrite !elem_of_app; auto).
Qed.

Section bindings.
Context (objects : list Array) (values : list (list Z)) (Ho : Forall (array_ok sizes) objects) (Hv : Forall2 values_of objects values)
  (Hnd : NoDup objects).
Abbreviation input := (input_of (zip objects values)).

Lemma bound_array a j v : bound_byte objects values a j v -> array_ok sizes a /\ byte_ok v.
Proof.
  intros (bytes & Hin & Hj & _). split.
  - apply (proj1 (Forall_forall _ _) Ho). by apply elem_of_zip_l in Hin.
  - clear -Hv Hin Hj. revert Hin. induction Hv as [|b bs os vs [_ Hb] _ IH]; cbn; [by intros ?%elem_of_nil|].
    intros [[= -> ->]|Hin]%elem_of_cons; [by eapply Forall_lookup_1|]. by apply IH; [inversion Hv|].
Qed.
Lemma binding_value σ a j v : bound_byte objects values a j v -> evals σ (binding a j v) (wrap 8 (σ (arr_name a) (Z.of_nat j)) =? v).
Proof.
  intros Hb. pose proof Hb as (bytes & _ & _ & Hj). destruct (bound_array a j v Hb) as [[_ Ha] Hv8].
  assert (ap_val (CE_alloc (Z.of_nat j) Int32) = Z.of_nat j) as Hjv by (apply wrap_small; unfold Int32; lia).
  unfold byte_ok in Hv8. assert (ap_val (CE_alloc v Int8) = v) as Hvv by (apply wrap_small; unfold Int8; lia).
  rewrite <- Hvv at 2. apply (Eq_value σ _ _ (AP 8 (wrap 8 (σ (arr_name a) (Z.of_nat j))))); [|apply eval_constant; by apply ap_wf_wrap|done].
  change (eval σ (ERead a ?i)) with (ev_read σ a (eval σ i)). rewrite (eval_constant σ) by (by apply ap_wf_wrap). unfold ev_read. cbn [mbind option_bind]. rewrite Hjv.
  by rewrite (proj2 (Z.ltb_lt _ _)).
Qed.
Lemma binding_input a j v : bound_byte objects values a j v -> input (arr_name a) (Z.of_nat j) = v.
Proof.
  intros Hb. pose proof (bound_array a j v Hb) as [Ha _]. destruct Hb as (bytes & Hin & Hj & _).
  rewrite (input_of_zip sizes objects values Ho). unfold input_of_bindings. rewrite (array_ok_eq sizes a Ha).
  assert ((list_to_map (zip objects values) : bindings_ty) !! a = Some bytes) as ->.
  { apply elem_of_list_to_map_1; [|done]. by rewrite fst_zip by (by rewrite (Forall2_length _ _ _ Hv)). }
  cbn. by rewrite Nat2Z.id, Hj.
Qed.
(** An input of the bindings agrees with the values on the bytes of the objects. *)
Lemma bindings_agree σ e : (forall a j v, bound_byte objects values a j v -> allows σ (binding a j v)) ->
  (forall a, a ∈ arrays e -> a ∈ objects) -> eval σ e = eval input e.
Proof.
  intros Hσ He. apply eval_within. intros a Ha%He j Hj. pose proof (proj1 (list_elem_of_lookup _ _) Ha) as [k Hk].
  destruct (Forall2_lookup_l _ _ _ _ _ Hv Hk) as (bytes & Hb & Hlen & _).
  destruct (lookup_lt_is_Some_2 bytes (Z.to_nat j)) as [v Hl]; [lia|].
  assert (bound_byte objects values a (Z.to_nat j) v) as Hbb.
  { exists bytes. split_and!; [|done|lia]. apply list_elem_of_lookup. exists k. apply lookup_zip_with_Some. eauto. }
  pose proof (Hσ _ _ _ Hbb) as Hal. pose proof (binding_value σ _ _ _ Hbb) as Hval. rewrite (Z2Nat.id j) in * by lia.
  pose proof (binding_input _ _ _ Hbb) as Hin. rewrite (Z2Nat.id j) in Hin by lia. rewrite Hin.
  destruct (Z.eqb_spec (wrap 8 (σ (arr_name a) j)) v) as [->|Hne]; [|by destruct (Hal Hval)].
  symmetry. apply wrap_small. pose proof (bound_array _ _ _ Hbb) as [_ Hbyte]. unfold byte_ok in Hbyte. lia.
Qed.
Lemma binding_holds a j v : bound_byte objects values a j v -> holds input (binding a j v).
Proof.
  intros Hb. pose proof (binding_value input a j v Hb) as Hval. rewrite (binding_input _ _ _ Hb) in Hval.
  pose proof (bound_array _ _ _ Hb) as [_ Hbyte]. unfold byte_ok in Hbyte. rewrite wrap_small in Hval by lia.
  by rewrite Z.eqb_refl in Hval.
Qed.
Lemma binding_ok a j v : bound_byte objects values a j v -> expr_ok sizes (binding a j v).
Proof.
  intros Hb. pose proof (bound_array a j v Hb) as [Ha _]. destruct Hb as (bytes & _ & _ & Hj).
  assert (type_of (EConstant (CE_alloc (Z.of_nat j) Int32)) = Some Int32) as Hi by (by apply type_alloc).
  split; [apply (Eq_typed _ _ Int8); [by eapply type_read|by apply type_alloc]|].
  apply Eq_parts, constant_parts. split; [|done]. apply Forall_cons. split; [|apply Forall_nil; done].
  split; [done|]. split; [by split|]. cbn. destruct Ha as [_ Ha]. unfold wrap. rewrite Z.mod_small; unfold Int32; lia.
Qed.

(** ** The conjunction *)

Lemma conjunction_hereditary (P : expr -> Prop) q : (forall l r, P l -> P r -> P (AndExpr_create l r)) -> P (Expr_createIsZero (q_expr q)) ->
  Forall P (q_constraints q) -> P (conjunction q).
Proof.
  intros Ha. unfold conjunction. generalize (Expr_createIsZero (q_expr q)). induction (q_constraints q) as [|c cs IH]; intros e He Hcs; [done|].
  apply Forall_cons in Hcs as [Hc Hcs]. cbn. apply IH; auto.
Qed.
Lemma conjunction_ok q : query_ok sizes q -> expr_ok sizes (conjunction q).
Proof.
  intros [He Hc]%Forall_cons. apply conjunction_hereditary; [|by apply isZero_expr_ok|done].
  intros l r [Hl Hpl] [Hr Hpr]. split; [exact (proj1 (And_shape l r Bool Hl Hr))|by apply And_parts].
Qed.
Lemma And_value σ l r : holds σ l -> holds σ r -> holds σ (AndExpr_create l r).
Proof. intros Hl Hr. apply And_sound. rewrite Hl, Hr. done. Qed.
(** Under an input of the bindings it holds. *)
Lemma conjunction_holds σ q : query_ok sizes q -> defined q -> firm q -> initial_ok q objects (Some values) -> covers_arrays sizes objects q ->
  (forall a j v, bound_byte objects values a j v -> allows σ (binding a j v)) -> holds σ (conjunction q).
Proof.
  intros [[Ht _] _]%Forall_cons Hd Hf (_ & Hc & He) [_ [Hz Hcs]%Forall_cons] Hσ.
  assert (forall e, (forall a, a ∈ arrays e -> a ∈ objects) -> holds input e -> holds σ e) as Hin.
  { intros e Harr He'. unfold holds, evals. by rewrite (bindings_agree σ e Hσ Harr). }
  apply conjunction_hereditary; [apply And_value|apply Hin; [done|]|].
  - destruct (defined_cases q input Ht Hd Hc) as [Hh|Hr]; [by destruct (allows_isZero _ _ He)|]. by apply (isZero_evals _ _ false).
  - apply Forall_forall. intros c Hci. apply Hin; [by apply (proj1 (Forall_forall _ _) Hcs)|]. by apply (proj1 (Forall_forall _ _) (Hf _ Hc)).
Qed.
End bindings.

(** ** What they promise *)

(** As [impl_ok], of queries whose constraints are firm, and of values asked for once, of the expression's arrays too. *)
Definition asks_values (objects : list Array) (q : Query) : Prop :=
  covers_arrays sizes objects q /\ NoDup objects /\ forall a, a ∈ arrays (q_expr q) -> a ∈ objects.
Record checked_ok {S} (impl : SolverImpl S) (I : S -> Prop) : Prop := {
  checked_truth q : query_ok sizes q -> consistent q -> defined q -> firm q -> promises I (computeTruth impl q) (truth_ok q);
  checked_validity q : query_ok sizes q -> consistent q -> defined q -> firm q -> promises I (computeValidity impl q) (validity_ok q);
  checked_value q : value_query_ok sizes q -> consistent q -> defined q -> firm q -> promises I (computeValue impl q) (value_ok q);
  checked_initial q objects : query_ok sizes q -> consistent q -> defined q -> firm q -> asks_values objects q ->
    promises I (computeInitialValues impl q objects) (initial_ok q objects);
}.

Section by_oracle.
Context {S T : Type} (solver : SolverImpl S) (oracle : SolverImpl T) (I : S -> Prop) (J : T -> Prop).
Definition both (s : S * T) : Prop := I s.1 /\ J s.2.
Lemma in_solver_promises {A} (m : SM S solver_error A) P : promises I m P -> promises both (in_solver m) P.
Proof. intros Hm [s t] [Hs Ht]. specialize (Hm s Hs). unfold in_solver. cbn in *. destruct (m s) as [[a|e] s']; cbn in *; unfold both; cbn; tauto. Qed.
Lemma in_oracle_promises {A} (m : SM T solver_error A) P : promises J m P -> promises both (in_oracle m) P.
Proof. intros Hm [s t] [Hs Ht]. specialize (Hm t Ht). unfold in_oracle. cbn in *. destruct (m t) as [[a|e] t']; cbn in *; unfold both; cbn; tauto. Qed.
Context (Hs : impl_ok sizes solver I) (Ho : impl_ok sizes oracle J).

Lemma validating_value q : value_query_ok sizes q -> consistent q -> defined q -> firm q ->
  promises both (validating_computeValue solver oracle q) (value_ok q).
Proof.
  intros Hq Hc Hd Hf. eapply promises_bind; [by apply in_solver_promises, (value_promise _ _ _ Hs)|].
  intros r (σ & v & Hσ & Hv & ->). destruct Hq as ([w Hw] & Hp & Hcs). set (ne := cmp_create Kind.Ne (q_expr q) (EConstant v)).
  pose proof (eval_wf _ _ _ Hv) as Hwf. assert (forall σ u, eval σ (q_expr q) = Some u -> ap_width u = ap_width v) as Hwidth.
  { intros σ' u Hu. apply eval_type in Hu, Hv. congruence. }
  eapply promises_bind.
  { apply in_oracle_promises, (truth_promise _ _ _ Ho (withExpr q ne)); [|done|].
    - apply Forall_cons. split; [|done]. apply (Ne_ok _ w); try done. apply eval_type in Hv. congruence.
    - intros σ' Hσ'. destruct (Hd σ' Hσ') as [u Hu]. eexists. apply Ne_value; [exact Hu|done|by rewrite (Hwidth σ' u)]. }
  intros [] Hne; [|apply promises_assert; [done|apply promises_ret; by exists σ, v]].
  destruct (Hne σ (Hf σ Hσ)). pose proof (Ne_value σ _ v v Hv Hwf eq_refl) as Hn. by rewrite Z.eqb_refl in Hn.
Qed.
Lemma validating_initial q objects : query_ok sizes q -> consistent q -> defined q -> firm q -> asks_values objects q ->
  promises both (validating_computeInitialValues solver oracle q objects) (initial_ok q objects).
Proof.
  intros Hq Hc Hd Hf (Hcov & Hnd & _). eapply promises_bind; [by apply in_solver_promises, (initial_promise _ _ _ Hs)|].
  intros [values|] Hi.
  - pose proof Hcov as [Hobj _]. pose proof Hi as [Hv _]. destruct (binding_constraints_spec objects values Hv) as (bs & -> & Hbs).
    eapply promises_bind; [by apply (promises_ret both bs (fun b => b = bs))|]. intros ? ->. set (ask := mkQuery bs (conjunction q)).
    assert (forall σ, Forall (allows σ) bs -> holds σ (conjunction q)) as Hconj.
    { intros σ Hσ. eapply conjunction_holds; try done. intros a j v Hb. apply (proj1 (Forall_forall _ _) Hσ), Hbs. by exists a, j, v. }
    eapply promises_bind.
    { apply in_oracle_promises, (truth_promise _ _ _ Ho ask).
      - apply Forall_cons. split; [by apply conjunction_ok|]. apply Forall_forall. intros e (a & j & v & Hb & ->)%Hbs. by apply (binding_ok objects values).
      - exists (input_of (zip objects values)). apply Forall_forall. intros e (a & j & v & Hb & ->)%Hbs. by apply binding_holds.
      - intros σ Hσ. eexists. by apply Hconj. }
    intros [] Ht; [by apply promises_assert, promises_ret|]. destruct Ht as (σ & Hσ & Hn). destruct Hn. by apply Hconj.
  - eapply promises_bind; [by apply in_oracle_promises, (truth_promise _ _ _ Ho)|].
    intros [] Ht; [by apply promises_assert, promises_ret|]. apply Forall_cons in Hq as [[Hty _] _].
    destruct (true_unique q Hty Hd Hf (never_false_true q Hi) Ht).
Qed.
Lemma validating_ok : checked_ok (ValidatingSolver solver oracle) both.
Proof.
  split; [..|apply validating_value|apply validating_initial]; intros q Hq Hc Hd Hf; pose proof Hq as [[Ht _] _]%Forall_cons.
  - eapply promises_bind; [by apply in_solver_promises, (truth_promise _ _ _ Hs)|]. intros a Ha.
    eapply promises_bind; [by apply in_oracle_promises, (truth_promise _ _ _ Ho)|]. intros b Hb.
    rewrite (truth_unique q Ht Hd Hf a b Ha Hb) in *. by apply promises_assert, promises_ret; [apply eqb_reflx|].
  - eapply promises_bind; [by apply in_solver_promises, (validity_promise _ _ _ Hs)|]. intros a Ha.
    eapply promises_bind; [by apply in_oracle_promises, (validity_promise _ _ _ Ho)|]. intros b Hb.
    rewrite (validity_unique q Ht Hd Hf a b Hc Ha Hb) in *. by apply promises_assert, promises_ret; [apply bool_decide_eq_true|].
Qed.
End by_oracle.

Section by_evaluation.
Context (A : KAssignment) (Hb : bindings_ok (bindings A)).
Abbreviation input := (input_of_bindings sizes (bindings A)).
Lemma evaluate_value e w : type_of e = Some w -> parts_ok sizes e -> bound A e ->
  exists r, evaluate A e = Some r /\ forall v, eval input e = Some v -> r = EConstant v.
Proof.
  intros Hw Hp Hbd. destruct (evaluate_in_spec sizes A e w [] Hb Hw Hp) as (r & vs & He & Hev & _); [by apply Forall_nil|].
  exists r. unfold evaluate. rewrite He. split; [done|]. apply (evaluated_value sizes A e r w Hev Hw Hp Hbd).
Qed.
(** A check passes on an expression of the right value, and stops one of the other. *)
Lemma check_passes {S} (I : S -> Prop) ok e b : expr_ok sizes e -> bound A e -> evals input e b -> ok (bool_ap b) = true ->
  promises I (check_evaluated A ok e) (fun _ => True).
Proof.
  intros [Ht Hp] Hbd He Hok. destruct (evaluate_value e Bool Ht Hp Hbd) as (r & Hr & Hval).
  unfold check_evaluated. rewrite Hr, (Hval _ He), Hok. by apply promises_ret.
Qed.
Lemma check_stops {S} (s : S) ok e b s' : expr_ok sizes e -> bound A e -> check_evaluated A ok e s = (Ok tt, s') ->
  ok (bool_ap b) = false -> ~ evals input e b.
Proof.
  intros [Ht Hp] Hbd Hc Hok He. destruct (evaluate_value e Bool Ht Hp Hbd) as (r & Hr & Hval).
  unfold check_evaluated in Hc. by rewrite Hr, (Hval _ He), Hok in Hc.
Qed.
Lemma constraints_pass {S} (I : S -> Prop) cs : Forall (expr_ok sizes) cs -> Forall (bound A) cs -> Forall (holds input) cs ->
  promises I (check_constraints A cs) (fun _ => True).
Proof.
  induction 1 as [|c cs Hc _ IH]; intros Hbd Hh; [by apply promises_ret|]. apply Forall_cons in Hbd as [Hbd Hbds], Hh as [Hh Hhs].
  eapply promises_bind; [by apply (check_passes I _ c true)|]. intros _ _. by apply IH.
Qed.
Lemma constraints_checked {S} (s : S) cs : forall s', Forall (expr_ok sizes) cs -> Forall (bound A) cs -> check_constraints A cs s = (Ok tt, s') ->
  s' = s /\ Forall (allows input) cs.
Proof.
  induction cs as [|c cs IH]; intros s' Hcs Hbd Hc; cbn in Hc; [by injection Hc as <-|].
  apply Forall_cons in Hcs as [He Hcs], Hbd as [Hbd Hbds]. unfold sm_bind in Hc. destruct (check_evaluated A _ c s) as [[[]|] s1] eqn:H1; [|done].
  assert (s1 = s) as -> by (revert H1; unfold check_evaluated, solver_assert; destruct (match evaluate A c with Some _ => _ | _ => _ end); by intros [= <-]).
  destruct (IH s' Hcs Hbds Hc) as [-> Hal]. split; [done|]. apply Forall_cons. split; [|done]. by eapply check_stops.
Qed.
End by_evaluation.

Section by_values.
Context (objects : list Array) (values : list (list Z)) (Ho : Forall (array_ok sizes) objects)
  (Hv : Forall2 values_of objects values).
Abbreviation found_assignment := (Assignment_new objects values true).
Lemma objects_bound e : (forall a, a ∈ arrays e -> a ∈ objects) -> bound found_assignment e.
Proof.
  intros He _ a Ha%He. cbn. clear -Hv Ha. induction Hv as [|b bytes os vs _ _ IH]; [by apply elem_of_nil in Ha|]. cbn.
  destruct (decide (b = a)) as [->|Hne]; [rewrite lookup_insert_eq; by eexists|]. rewrite lookup_insert_ne by done.
  apply IH; [by inversion Hv|].
  by apply elem_of_cons in Ha as [->|].
Qed.
Lemma found_input e b : evals (input_of (zip objects values)) e b <-> evals (input_of_bindings sizes (bindings found_assignment)) e b.
Proof. unfold evals. by rewrite (eval_ext _ _ e (input_of_zip sizes objects values Ho)). Qed.
Lemma found_ok : bindings_ok (bindings found_assignment).
Proof. by apply bindings_of_values. Qed.
End by_values.

Section evaluating.
Context {S : Type} (solver : SolverImpl S).
Lemma assignment_initial (I : S -> Prop) q objects : impl_ok sizes solver I ->
  query_ok sizes q -> consistent q -> defined q -> firm q -> asks_values objects q ->
  promises I (assignment_computeInitialValues solver q objects) (initial_ok q objects).
Proof.
  intros Hs Hq Hc Hd Hf (Hcov & _ & He). pose proof Hcov as [Ho [Hz Hcs]%Forall_cons]. eapply promises_bind; [by apply (initial_promise _ _ _ Hs)|].
  intros [values|] Hi; [|by apply promises_ret]. pose proof Hi as (Hv & Hal & Hn). pose proof Hq as [[Ht Hp] Hqs]%Forall_cons.
  pose proof (found_ok objects values Hv) as Hb. assert (Forall (bound (Assignment_new objects values true)) (q_constraints q)) as Hbd.
  { eapply Forall_impl; [exact Hcs|]. intros c. by apply objects_bound. }
  eapply promises_bind; [apply (constraints_pass _ Hb)|intros _ _]; [done..| |].
  { eapply Forall_impl; [exact (Hf _ Hal)|]. intros c. by apply found_input. }
  eapply promises_bind; [apply (check_passes _ Hb _ _ _ false); [done|by apply objects_bound| |done]|intros _ _; by apply promises_ret].
  apply found_input; [done|]. destruct (defined_cases q _ Ht Hd Hal) as [Hh|Hr]; [by destruct (allows_isZero _ _ Hn)|done].
Qed.
Lemma assignment_ok (I : S -> Prop) : impl_ok sizes solver I -> checked_ok (AssignmentValidatingSolver solver) I.
Proof.
  intros Hs. split; [by intros; apply (truth_promise _ _ _ Hs)|by intros; apply (validity_promise _ _ _ Hs)|by intros; apply (value_promise _ _ _ Hs)|].
  intros q objects. by apply assignment_initial.
Qed.

(** Whatever the solver: bytes that pass are bytes of an input that refutes no constraint, and under which the expression does not hold. *)
Lemma assignment_checks q objects s s' values : query_ok sizes q -> asks_values objects q -> 
  assignment_computeInitialValues solver q objects s = (Ok (Some values), s') -> Forall2 values_of objects values ->
  Forall (allows (input_of (zip objects values))) (q_constraints q) /\ ~ holds (input_of (zip objects values)) (q_expr q).
Proof.
  intros [He Hqs]%Forall_cons ([Ho [_ Hcs]%Forall_cons] & _ & Hin) Hrun Hv. unfold assignment_computeInitialValues, sm_bind in Hrun.
  destruct (computeInitialValues solver q objects s) as [[[vs|]|] s1]; [|done..].
  destruct (check_constraints _ _ s1) as [[[]|] s2] eqn:H2; [|done].
  destruct (check_evaluated _ _ _ s2) as [[[]|] s3] eqn:H3; [|done]. injection Hrun as -> ->.
  pose proof (found_ok objects values Hv) as Hb. split.
  - assert (Forall (bound (Assignment_new objects values true)) (q_constraints q)) as Hbd.
    { eapply Forall_impl; [exact Hcs|]. intros c. by apply objects_bound. }
    destruct (constraints_checked _ Hb s1 _ s2 Hqs Hbd H2) as [_ Hal]. eapply Forall_impl; [exact Hal|]. intros c Hc Hr.
    by apply Hc, (found_input objects values Ho).
  - intros Hh. apply (check_stops _ Hb s2 (fun CE => negb (isTrue CE)) _ true s' He); [by apply objects_bound|exact H3|done|]. by apply found_input.
Qed.
End evaluating.

(** C18 The solvers that check another's answers keep its promises: of an implementation's right answers, and an oracle's, no check fails, so
    that a failed check shows a wrong one; and values that the evaluation lets through refute no constraint and do not make the expression
    hold, whatever the solver that found them. *)
Theorem solvers_validate {S T} (solver : SolverImpl S) (oracle : SolverImpl T) (I : S -> Prop) (J : T -> Prop) :
  impl_ok sizes solver I -> impl_ok sizes oracle J ->
  checked_ok (ValidatingSolver solver oracle) (both I J) /\ checked_ok (AssignmentValidatingSolver solver) I /\
  forall (any : SolverImpl S) q objects s s' values, query_ok sizes q -> asks_values objects q ->
    computeInitialValues (AssignmentValidatingSolver any) q objects s = (Ok (Some values), s') -> Forall2 values_of objects values ->
    Forall (allows (input_of (zip objects values))) (q_constraints q) /\ ~ holds (input_of (zip objects values)) (q_expr q).
Proof.
  intros Hs Ho. split_and!; [by apply validating_ok|by apply assignment_ok|]. intros any q objects s s' values. apply assignment_checks.
Qed.
End right.

(** ** A witness: candidates, checked by the solver that tries every value of one byte *)

Section every_byte.
Context `{Laws : APIntLaws, AssertPolicy} (a : Array) (sizes : string -> Z) (Hone : arr_size a = 1).
Definition byte_inputs : list assignment := (fun v _ _ => v) <$> seqZ 0 256.
Definition models (q : Query) (b : bool) (σ : assignment) : bool :=
  forallb (fun c => evalsb σ c true) (q_constraints q) && evalsb σ (q_expr q) b.
Definition only_array (q : Query) : bool := forallb (fun e => forallb (fun x => bool_decide (x = a)) (arrays e)) (q_expr q :: q_constraints q).
Definition no_such {A} (n : bool) (r : A) : SM unit solver_error A := if n then sm_ret r else sm_throw Failed.
Definition every_truth (q : Query) : SM unit solver_error bool :=
  if existsb (models q false) byte_inputs then sm_ret false else no_such (only_array q) true.
Definition every_byte_impl : SolverImpl unit :=
  mkSolverImpl every_truth (default_computeValidity every_truth) (fun _ => sm_throw Failed) (fun _ _ => sm_throw Failed).

Lemma models_spec q b σ : models q b σ = true <-> Forall (holds σ) (q_constraints q) /\ evals σ (q_expr q) b.
Proof.
  unfold models. rewrite andb_true_iff, forallb_forall, Forall_forall. unfold evalsb. rewrite bool_decide_eq_true.
  split; intros [Hc He]; (split; [|done]); intros c Hin%list_elem_of_In; [exact (bool_decide_eq_true_1 _ (Hc c Hin))|].
  by apply bool_decide_eq_true_2, Hc.
Qed.
Lemma every_input q σ e : only_array q = true -> e ∈ q_expr q :: q_constraints q -> eval (fun _ _ => wrap 8 (σ (arr_name a) 0)) e = eval σ e.
Proof.
  intros Ho He. apply eval_within. intros x Hx j Hj. unfold only_array in Ho. rewrite forallb_forall in Ho.
  specialize (Ho e (proj1 (list_elem_of_In _ _) He)). rewrite forallb_forall in Ho.
  pose proof (Ho x (proj1 (list_elem_of_In _ _) Hx)) as ->%bool_decide_eq_true. assert (j = 0) as -> by lia.
  apply wrap_small, wrap_range. lia.
Qed.
Lemma every_truth_promise q : promises (fun _ => True) (every_truth q) (truth_ok q).
Proof.
  unfold every_truth. destruct (existsb _ _) eqn:Hex.
  - apply promises_ret. apply existsb_exists in Hex as (σ & _ & [Hc He]%models_spec). exists σ. split; [by apply holds_allow|].
    intros Hh. by apply (not_both _ _ Hh).
  - destruct (only_array q) eqn:Ho; [|by intros s _]. apply promises_ret. intros σ Hc Hr. set (σ' := (fun _ _ => wrap 8 (σ (arr_name a) 0)) : assignment).
    assert (models q false σ' = true) as Hm.
    { apply models_spec. split; [|unfold evals; rewrite (every_input q σ) by (done || by left); done].
      apply Forall_forall. intros c Hin. unfold holds, evals. rewrite (every_input q σ) by (done || by right).
      exact (proj1 (Forall_forall _ _) Hc c Hin). }
    assert (existsb (models q false) byte_inputs = true) as Hyes; [|congruence]. apply existsb_exists. exists σ'. split; [|done].
    apply list_elem_of_In, list_elem_of_fmap. exists (wrap 8 (σ (arr_name a) 0)). split; [done|]. apply elem_of_seqZ.
    pose proof (wrap_range 8 (σ (arr_name a) 0)). lia.
Qed.
Lemma every_byte_ok : impl_ok sizes every_byte_impl (fun _ => True).
Proof.
  split; intros q; intros; [apply every_truth_promise| |by intros s _..].
  apply (default_validity_promise _ sizes); try done. intros q' _ _ _. apply every_truth_promise.
Qed.
End every_byte.

#[local] Existing Instance no_asserts.
Definition is_byte (v : Z) : expr := ECmp Kind.Eq (EConstant (AP 8 v)) (read_byte sample_byte 0).
(** The byte is seven; is it nine? *)
Definition seven_query : Query := mkQuery [is_byte 7] (is_byte 9).
Definition byte_candidates : list Assignment := [[(sample_byte, [7])]; [(sample_byte, [8])]].
Definition checked_search := ValidatingSolver (search_impl byte_candidates) (every_byte_impl sample_byte).
Definition evaluated_search := AssignmentValidatingSolver (search_impl byte_candidates).
(** A solver that finds the byte eight. *)
Definition eight_impl : SolverImpl unit :=
  mkSolverImpl (fun _ => sm_ret true) (fun _ => sm_ret ValidTrue) (fun q => sm_ret (EConstant (AP 8 8))) (fun _ _ => sm_ret (Some [[8]])).
Lemma is_byte_ok v : ap_wf (AP 8 v) -> expr_ok (fun _ => 1) (is_byte v).
Proof.
  intros Hv%Is_true_true. split; [unfold well_typed; cbn; by rewrite Hv|]. split; [|by repeat split]. constructor; [|by apply Forall_nil].
  split; [split; cbn; [done|lia]|]. split; [done|reflexivity].
Qed.
Lemma is_byte_eval σ v : ap_wf (AP 8 v) -> eval σ (is_byte v) = Some (bool_ap (v =? wrap 8 (σ "x" 0))).
Proof. intros Hv%Is_true_true. cbn. rewrite Hv. unfold ev_read. cbn. reflexivity. Qed.
Lemma seven_right : query_ok (fun _ => 1) seven_query /\ consistent seven_query /\ defined seven_query /\ firm seven_query /\
  asks_values (fun _ => 1) [sample_byte] seven_query.
Proof.
  split_and!.
  - repeat (apply Forall_cons; split; [by apply is_byte_ok|]). by apply Forall_nil.
  - exists (fun _ _ => 7). repeat (apply Forall_cons; split; [by vm_compute|]). by apply Forall_nil.
  - intros σ _. eexists. by apply is_byte_eval.
  - intros σ [Ha _]%Forall_cons. apply Forall_cons. split; [|by apply Forall_nil]. apply allows_boolean; [done|].
    eexists. by apply is_byte_eval.
  - split; [split|split].
    + repeat constructor; cbn; lia.
    + repeat (apply Forall_cons; split; [intros b; vm_compute; by intros [->|?%elem_of_nil]%elem_of_cons; [left|]|]). by apply Forall_nil.
    + apply NoDup_singleton.
    + intros b. by intros [->|?%elem_of_nil]%elem_of_cons; [left|].
Qed.
Lemma solvers_validate_witness :
  (promises (both (fun _ => True) (fun _ => True)) (computeInitialValues checked_search seven_query [sample_byte])
     (initial_ok seven_query [sample_byte]) /\
   computeInitialValues checked_search seven_query [sample_byte] (tt, tt) = (Ok (Some [[7]]), (tt, tt))) /\
  (promises (fun _ => True) (computeInitialValues evaluated_search seven_query [sample_byte]) (initial_ok seven_query [sample_byte]) /\
   ~ holds (input_of [(sample_byte, [7])]) (is_byte 9)) /\
  fst (computeInitialValues (ValidatingSolver eight_impl (every_byte_impl sample_byte)) seven_query [sample_byte] (tt, tt)) = Err AssertFailed /\
  fst (computeInitialValues (AssignmentValidatingSolver eight_impl) seven_query [sample_byte] tt) = Err AssertFailed.
Proof.
  destruct seven_right as (Hq & Hc & Hd & Hf & Ha).
  destruct (solvers_validate (fun _ => 1) (search_impl byte_candidates) (every_byte_impl sample_byte) (fun _ => True) (fun _ => True)
    (search_impl_ok _ _) (every_byte_ok sample_byte _ eq_refl)) as (H1 & H2 & H3).
  split; [split; [by apply (checked_initial _ _ _ H1)|vm_compute; reflexivity]|]. split; [split; [by apply (checked_initial _ _ _ H2)|]|split; vm_compute; reflexivity].
  apply (H3 (search_impl byte_candidates) seven_query [sample_byte] tt tt [[7]] Hq Ha); [vm_compute; reflexivity|].
  constructor; [|by constructor]. split; [done|]. repeat constructor; lia.
Defined.
