(* ===== verification/FastCex.v ===== *)
(** KLEE's fast counterexample solver (klee/lib/Solver/FastCexSolver.cpp): possible and exact ranges
    of the bytes of arrays, their propagation from the constraints of a query, and the answers
    taken from them, which are right. *)
From S2P Require Import Prelude Bits APInt KExpr KBuilder KBuilderSound KType KCreate KCreateShape KCreateSound KVisitor KConstraints KReads Concolic PathTrace KSolver KEval KCompare KCaching KNegation RangeBounds KRange.

(** * The state *)

Record CexObjectData := mkCexObject { possibleContents : list ValueRange; exactContents : list ValueRange }.
Definition CexObjectData_new (size : Z) : CexObjectData :=
  mkCexObject (replicate (Z.to_nat size) (VR 0 255)) (replicate (Z.to_nat size) (VR 0 255)).
Abbreviation CexData := (gmap Array CexObjectData).

Definition set_possible (index : Z) (values : ValueRange) (cod : CexObjectData) : CexObjectData :=
  mkCexObject (<[Z.to_nat index := values]> (possibleContents cod)) (exactContents cod).
Definition set_exact (index : Z) (values : ValueRange) (cod : CexObjectData) : CexObjectData :=
  mkCexObject (possibleContents cod) (<[Z.to_nat index := values]> (exactContents cod)).
(** [setPossibleValue]: an unsigned char. *)
Definition set_possible_value (index value : Z) : CexObjectData -> CexObjectData := set_possible index (VR_value (u8 value)).
(** [getPossibleValue]: an unsigned char between the bounds. *)
Definition range_middle (cvd : ValueRange) : option Z :=
  lo ← range_min cvd; hi ← range_max cvd; Some (u8 (u64 (lo + u64 (hi - lo) / 2))).
Definition getPossibleValue (cod : CexObjectData) (index : Z) : option Z :=
  cvd ← possibleContents cod !! Z.to_nat index; range_middle cvd.

Section fast_cex.
Context `{APInt}.
#[local] Open Scope sm_scope.
Abbreviation M := (SM CexData solver_error).

Definition initial_read (a : Array) (index : Z) : expr := ERead a (EConstant (CE_alloc index Int32)).
(** [CexPossibleEvaluator::getInitialValue]; a possible range is not empty ([possible_ok]), so that
    the last default is not reached. *)
Definition possible_getInitialValue (objects : CexData) (a : Array) (index : Z) : expr :=
  if arr_size a <=? index then initial_read a index
  else match objects !! a with
       | None => EConstant (CE_alloc 127 Int8)
       | Some cod => match getPossibleValue cod index with
                     | Some v => EConstant (CE_alloc v Int8)
                     | None => initial_read a index
                     end
       end.
(** [CexExactEvaluator::getInitialValue] *)
Definition exact_getInitialValue (objects : CexData) (a : Array) (index : Z) : expr :=
  if arr_size a <=? index then initial_read a index
  else match objects !! a with
       | None => initial_read a index
       | Some cod =>
           match exactContents cod !! Z.to_nat index with
           | Some cvd => if isFixed cvd then EConstant (CE_alloc (m_min cvd) Int8) else initial_read a index
           | None => initial_read a index
           end
       end.

(** * CexData *)

Definition asserted {A} (o : option A) : M A := match o with Some a => sm_ret a | None => sm_throw AssertFailed end.
Definition getObjectData (a : Array) : M CexObjectData :=
  objects <-- sm_gets id ;;
  match objects !! a with
  | Some cod => sm_ret cod
  | None => sm_modify <[a := CexObjectData_new (arr_size a)]> ;;; sm_ret (CexObjectData_new (arr_size a))
  end.
Definition putObjectData (a : Array) (cod : CexObjectData) : M unit := sm_modify <[a := cod]>.
Definition evalRangeForExpr (e : expr) : M ValueRange := asserted (evaluate_range e).
Definition evaluatePossible (e : expr) : M expr :=
  objects <-- sm_gets id ;; asserted (fst <$> eval_visit (possible_getInitialValue objects) (expr_size e) e []).
Definition evaluateExact (e : expr) : M expr :=
  objects <-- sm_gets id ;; asserted (fst <$> eval_visit (exact_getInitialValue objects) (expr_size e) e []).

(** ** propogatePossibleValues *)

(** The initial read of an array. *)
Definition possible_read (a : Array) (i : expr) (range : ValueRange) : M unit :=
  cod <-- getObjectData a ;;
  match as_constant i with
  | None => sm_ret tt
  | Some CE =>
      index <-- asserted (getZExtValue CE 64) ;;
      if index <? arr_size a then
        if isFixed range then v <-- asserted (range_min range) ;; putObjectData a (set_possible_value index v cod)
        else
          cvd <-- asserted (possibleContents cod !! Z.to_nat index) ;;
          let tmp := set_intersection cvd range in
          if isEmpty tmp then sm_ret tt else putObjectData a (set_possible index tmp cod)
      else sm_ret tt
  end.
(** The input range of a sign extension: [1 << (inBits - 1)] is an int. *)
Definition sext_input (range : ValueRange) (inBits outBits : Z) : option ValueRange :=
  low ← (if inBits <=? 32 then Some (u64 (s32 (Z.shiftl 1 (inBits - 1)))) else None);
  out ← maxValueOfNBits outBits; half ← maxValueOfNBits (inBits - 1); full ← maxValueOfNBits inBits;
  binaryAnd (set_difference range (VR low (u64 (out - half - 1)))) (VR_value full).
(** The range of the right operand of a sum with a constant. *)
Definition add_input (range : ValueRange) (CE : apint) : option ValueRange :=
  lo ← range_min range; hi ← range_max range;
  lo ← getZExtValue (CE_arith Kind.Sub (CE_alloc lo (ap_width CE)) CE) 64;
  hi ← getZExtValue (CE_arith Kind.Sub (CE_alloc hi (ap_width CE)) CE) 64;
  Some (VR lo hi).
(** The range of the right operand of an equality that is false. *)
Definition unequal_range (value width : Z) : option ValueRange :=
  if value =? 0 then m ← maxValueOfNBits width; Some (VR 1 m) else Some (VR 0 (u64 (value - 1))).

(** The two sides of a boolean conjunction or disjunction; [b] is the value that decides it. *)
Definition propagate_bool (propagate : expr -> ValueRange -> M unit) (l r : expr) (range : ValueRange) (b : Z) : M unit :=
  if isFixed range then
    left <-- evalRangeForExpr l ;;
    right <-- evalRangeForExpr r ;;
    v <-- asserted (range_min range) ;;
    if Z.b2z (negb (v =? 0)) =? b then
      if mustEqual_value left b || mustEqual_value right b then sm_ret tt
      else
        propagate l (VR_value b) ;;;
        left <-- evalRangeForExpr l ;;
        if negb (mustEqual_value left 1) then propagate r (VR_value b) else sm_ret tt
    else
      sm_when (negb (mustEqual_value left (1 - b))) (propagate l (VR_value (1 - b))) ;;;
      sm_when (negb (mustEqual_value right (1 - b))) (propagate r (VR_value (1 - b)))
  else sm_ret tt.
(** An ordering of words: the bounds it gives the right operand, when the left is known to be [x], and
    the left, when the right is known, where the comparison is true or false. *)
Definition propagate_order (propagate : expr -> ValueRange -> M unit) (l r : expr) (range : ValueRange)
    (right_range left_range : bool -> Z -> Z -> ValueRange) : M unit :=
  if isFixed range then
    left <-- evalRangeForExpr l ;;
    right <-- evalRangeForExpr r ;;
    maxValue <-- asserted (maxValueOfNBits (getWidth r)) ;;
    if isFixed left then
      v <-- asserted (range_min range) ;; x <-- asserted (range_min left) ;;
      propagate r (right_range (negb (v =? 0)) x maxValue)
    else if isFixed right then
      v <-- asserted (range_min range) ;; x <-- asserted (range_min right) ;;
      propagate l (left_range (negb (v =? 0)) x maxValue)
    else sm_ret tt
  else sm_ret tt.
Definition ult_right (b : bool) (x maxValue : Z) : ValueRange := if b then VR (u64 (x + 1)) maxValue else VR 0 x.
Definition ult_left (b : bool) (x maxValue : Z) : ValueRange := if b then VR 0 (u64 (x - 1)) else VR x maxValue.
Definition ule_right (b : bool) (x maxValue : Z) : ValueRange := if b then VR x maxValue else VR 0 (u64 (x - 1)).
Definition ule_left (b : bool) (x maxValue : Z) : ValueRange := if b then VR 0 x else VR (u64 (x + 1)) maxValue.

Fixpoint propogatePossibleValues (e : expr) (range : ValueRange) : M unit :=
  match e with
  | EConstant _ | EExtract _ _ _ => sm_ret tt
  | ERead a i => possible_read a i range
  | ESelect c t f =>
      cond <-- evalRangeForExpr c ;;
      if isFixed cond then
        v <-- asserted (range_min cond) ;;
        if negb (v =? 0) then propogatePossibleValues t range else propogatePossibleValues f range
      else propogatePossibleValues t range ;;; propogatePossibleValues f range
  | EConcat l r =>
      let LSBWidth := getWidth r in
      let MSBWidth := getWidth r in
      high <-- asserted (range_extract range LSBWidth (LSBWidth + MSBWidth)) ;;
      propogatePossibleValues l high ;;;
      low <-- asserted (range_extract range 0 LSBWidth) ;;
      propogatePossibleValues r low
  | EZExt src _ =>
      m <-- asserted (maxValueOfNBits (getWidth src)) ;;
      propogatePossibleValues src (set_intersection range (VR 0 m))
  | ESExt src width =>
      input <-- asserted (sext_input range (getWidth src) width) ;; propogatePossibleValues src input
  | ENot k =>
      if (getWidth e =? Bool) && isFixed range then
        v <-- asserted (range_min range) ;; propogatePossibleValues k (VR_value (Z.b2z (v =? 0)))
      else sm_ret tt
  | EArith Kind.Add l r =>
      match as_constant l with
      | Some CE =>
          if (ap_width CE <=? 64) && negb (isEmpty range) then
            nrange <-- asserted (add_input range CE) ;;
            if isEmpty nrange then sm_ret tt else propogatePossibleValues r nrange
          else sm_ret tt
      | None => sm_ret tt
      end
  | EArith Kind.And l r =>
      if getWidth e =? Bool then propagate_bool propogatePossibleValues l r range 0 else sm_ret tt
  | EArith Kind.Or l r =>
      if getWidth e =? Bool then propagate_bool propogatePossibleValues l r range 1 else sm_ret tt
  | EArith _ _ _ => sm_ret tt
  | ECmp Kind.Eq l r =>
      if isFixed range then
        match as_constant l with
        | Some CE =>
            if ap_width CE <=? 64 then
              value <-- asserted (getZExtValue CE 64) ;;
              v <-- asserted (range_min range) ;;
              if negb (v =? 0) then propogatePossibleValues r (VR_value value)
              else other <-- asserted (unequal_range value (ap_width CE)) ;; propogatePossibleValues r other
            else sm_ret tt
        | None => sm_ret tt
        end
      else sm_ret tt
  | ECmp Kind.Ult l r => propagate_order propogatePossibleValues l r range ult_right ult_left
  | ECmp Kind.Ule l r => propagate_order propogatePossibleValues l r range ule_right ule_left
  | ECmp (Kind.Slt | Kind.Sle) _ _ => sm_ret tt
  | ECmp _ _ _ => sm_throw AssertFailed
  end.
Definition propogatePossibleValue (e : expr) (value : Z) : M unit := propogatePossibleValues e (VR_value value).

(** ** propogateExactValues *)

(** A bound of the range narrows the exact range. *)
Definition narrow_min (range cvd : ValueRange) : option ValueRange :=
  lo ← range_min range; clo ← range_min cvd;
  if clo <? lo then chi ← range_max cvd; _ ← range_assert (lo <=? chi); Some (VR lo chi) else Some cvd.
Definition narrow_max (range cvd : ValueRange) : option ValueRange :=
  hi ← range_max range; chi ← range_max cvd;
  if hi <? chi then clo ← range_min cvd; _ ← range_assert (clo <=? hi); Some (VR clo hi) else Some cvd.
(** The index is not compared with the size of the array. *)
Definition exact_read (a : Array) (i : expr) (range : ValueRange) : M unit :=
  cod <-- getObjectData a ;;
  index <-- evalRangeForExpr i ;;
  if isFixed index then
    index <-- asserted (range_min index) ;;
    cvd <-- asserted (exactContents cod !! Z.to_nat index) ;;
    cvd <-- asserted (narrow_min range cvd) ;;
    cvd <-- asserted (narrow_max range cvd) ;;
    putObjectData a (set_exact index cvd cod)
  else sm_ret tt.
Fixpoint propogateExactValues (e : expr) (range : ValueRange) : M unit :=
  match e with
  | ERead a i => exact_read a i range
  | ECmp Kind.Eq l r =>
      if isFixed range then
        match as_constant l with
        | Some CE =>
            if ap_width CE <=? 64 then
              value <-- asserted (getZExtValue CE 64) ;;
              v <-- asserted (range_min range) ;;
              if negb (v =? 0) then propogateExactValues r (VR_value value)
              else if getWidth r =? Bool then propogateExactValues r (VR_value (Z.b2z (value =? 0)))
              else sm_ret tt
            else sm_ret tt
        | None => sm_ret tt
        end
      else sm_ret tt
  | ENot k =>
      if (getWidth e =? Bool) && isFixed range then
        v <-- asserted (range_min range) ;; propogateExactValues k (VR_value (Z.b2z (v =? 0)))
      else sm_ret tt
  | ECmp (Kind.Ne | Kind.Ugt | Kind.Uge | Kind.Sgt | Kind.Sge) _ _ => sm_throw AssertFailed
  | _ => sm_ret tt
  end.
Definition propogateExactValue (e : expr) (value : Z) : M unit := propogateExactValues e (VR_value value).

(** * FastCexSolver *)

Fixpoint propagate_constraints (cs : list expr) : M unit :=
  match cs with
  | [] => sm_ret tt
  | c :: cs => propogatePossibleValue c 1 ;;; propogateExactValue c 1 ;;; propagate_constraints cs
  end.
Fixpoint check_constraints (cs : list expr) (hasSatisfyingAssignment : bool) : M (option bool) :=
  match cs with
  | [] => sm_ret (if hasSatisfyingAssignment then Some false else None)
  | c :: cs =>
      has <-- (if hasSatisfyingAssignment then v <-- evaluatePossible c ;; sm_ret (expr_isTrue v) else sm_ret false) ;;
      v <-- evaluateExact c ;;
      if expr_isFalse v then sm_ret (Some true) else check_constraints cs has
  end.
(** [propogateValues]: [None] is the result false, otherwise [isValid]. *)
Definition propogateValues (query : Query) (checkExpr : bool) : M (option bool) :=
  propagate_constraints (q_constraints query) ;;;
  sm_when checkExpr (propogatePossibleValue (q_expr query) 0 ;;; propogateExactValue (q_expr query) 0) ;;;
  if checkExpr then
    p <-- evaluatePossible (q_expr query) ;;
    x <-- evaluateExact (q_expr query) ;;
    if expr_isTrue x then sm_ret (Some true) else check_constraints (q_constraints query) (expr_isFalse p)
  else check_constraints (q_constraints query) true.

(** A computation on new data. *)
Definition with_data {A} (m : M A) : result solver_error A := fst (m ∅).
Definition fast_computeTruth (query : Query) : result solver_error PartialValidity :=
  with_data (
    success <-- propogateValues query true ;;
    sm_ret (match success with None => PVNone | Some isValid => if isValid : bool then MustBeTrue else MayBeFalse end)).
Definition fast_computeValue (query : Query) : result solver_error (option expr) :=
  with_data (
    success <-- propogateValues query false ;;
    match success with
    | None | Some true => sm_ret None
    | Some false => value <-- evaluatePossible (q_expr query) ;; sm_ret (if is_const value then Some value else None)
    end).
(** The bytes of an array, and of the arrays: [None] is a byte without a value. *)
Fixpoint possible_bytes (a : Array) (indices : list nat) : M (option (list Z)) :=
  match indices with
  | [] => sm_ret (Some [])
  | i :: indices =>
      value <-- evaluatePossible (ERead a (EConstant (CE_alloc (Z.of_nat i) Int32))) ;;
      match as_constant value with
      | None => sm_ret None
      | Some CE =>
          v <-- asserted (getZExtValue CE 8) ;;
          data <-- possible_bytes a indices ;; sm_ret (data ← data; Some (u8 v :: data))
      end
  end.
Fixpoint possible_values (objects : list Array) : M (option (list (list Z))) :=
  match objects with
  | [] => sm_ret (Some [])
  | a :: objects =>
      data <-- possible_bytes a (seq 0 (Z.to_nat (arr_size a))) ;;
      match data with
      | None => sm_ret None
      | Some data => values <-- possible_values objects ;; sm_ret (values ← values; Some (data :: values))
      end
  end.
Definition fast_computeInitialValues (query : Query) (objects : list Array) :
    result solver_error (option (option (list (list Z)))) :=
  with_data (
    success <-- propogateValues query true ;;
    match success with
    | None => sm_ret None
    | Some true => sm_ret (Some None)
    | Some false => values <-- possible_values objects ;; sm_ret (Some <$> values)
    end).
Definition FastCexSolver : IncompleteSolver := mkIncomplete fast_computeTruth fast_computeValue fast_computeInitialValues.
End fast_cex.


(** * What an evaluation keeps

    A relation between expressions that the visitor's steps keep relates an expression to the result
    of its evaluation. *)

Section kept.
Context `{APInt} (getInitialValue : Array -> Z -> expr) (R : expr -> expr -> Prop).
Hypothesis R_refl : forall e, R e e.
Hypothesis R_rebuild : forall e kids, Forall2 R (getKids e) kids -> R e (rebuild e kids).
Hypothesis R_read : forall a i c j, R i (EConstant c) -> getZExtValue c 64 = Some j -> R (ERead a i) (getInitialValue a (u32 j)).

Definition all_kept (visited : visited_ty) : Prop := Forall (fun p => R p.1 p.2) visited.
Definition keeper (visit : expr -> visited_ty -> option (expr * visited_ty)) (e : expr) : Prop :=
  forall visited r visited', all_kept visited -> visit e visited = Some (r, visited') -> R e r /\ all_kept visited'.

Lemma visit_kids_kept visit es : Forall (keeper visit) es -> forall visited rs visited',
  all_kept visited -> visit_kids visit es visited = Some (rs, visited') -> Forall2 R es rs /\ all_kept visited'.
Proof.
  induction 1 as [|e es He _ IH]; intros visited rs visited' Hv Hvis; cbn [visit_kids] in Hvis.
  { injection Hvis as <- <-. by split. }
  destruct (visit e visited) as [[r v1]|] eqn:H1; [|done]. cbn in Hvis.
  destruct (visit_kids visit es v1) as [[rs' v2]|] eqn:H2; [|done]. cbn in Hvis. injection Hvis as <- <-.
  destruct (He _ _ _ Hv H1) as [Hr Hv1]. destruct (IH _ _ _ Hv1 H2) as [Hrs Hv2]. split; [by constructor|done].
Qed.
Lemma do_children_kept visit e : Forall (keeper visit) (getKids e) -> keeper (do_children visit) e.
Proof.
  intros Hk visited r visited' Hv Hd. unfold do_children in Hd.
  destruct (visit_kids visit (getKids e) visited) as [[kids v1]|] eqn:Hvis; [|done]. cbn in Hd. injection Hd as <- <-.
  destruct (visit_kids_kept visit _ Hk _ _ _ Hv Hvis) as [Hks Hv1]. split; [|done].
  destruct (decide _); [apply R_refl|by apply R_rebuild].
Qed.
Lemma visitRead_kept visit a i : keeper visit i ->
  keeper (fun _ => eval_visitRead getInitialValue visit a i) (ERead a i).
Proof.
  intros Hi visited r visited' Hv Hr. unfold eval_visitRead in Hr.
  destruct (visit i visited) as [[x v1]|] eqn:Hx; [|done]. cbn [mbind option_bind] in Hr.
  destruct (Hi _ _ _ Hv Hx) as [Hxk Hv1].
  assert (forall v r v', all_kept v -> do_children visit (ERead a i) v = Some (r, v') -> R (ERead a i) r /\ all_kept v') as Hd
    by (intros v r0 v'; apply (do_children_kept visit (ERead a i)); by constructor).
  destruct x as [c| | | | | | | | |]; try (by apply (Hd v1)).
  destruct (getZExtValue c 64) as [j|] eqn:Hj; [|done]. cbn in Hr. injection Hr as <- <-. split; [|done].
  by eapply R_read.
Qed.
Lemma protectedDiv_kept visit k l r : Forall (keeper visit) [l; r] ->
  keeper (fun _ => protectedDivOperation visit k l r) (EArith k l r).
Proof.
  intros [Hl [Hr _]%Forall_cons]%Forall_cons visited x visited' Hv Hd. unfold protectedDivOperation in Hd.
  destruct (visit l visited) as [[kid0 v1]|] eqn:H0; [|done]. cbn [mbind option_bind] in Hd.
  destruct (visit r v1) as [[kid1 v2]|] eqn:H1; [|done]. cbn [mbind option_bind] in Hd. injection Hd as <- <-.
  destruct (Hl _ _ _ Hv H0) as [Hk0 Hv1], (Hr _ _ _ Hv1 H1) as [Hk1 Hv2]. split; [|done].
  destruct (decide _); [apply R_refl|]. refine (R_rebuild (EArith k l r) [kid0; _] _). constructor; [done|]. constructor; [|done].
  destruct kid1; try done. destruct (isZero value); [apply R_refl|done].
Qed.
Lemma eval_visit_kept fuel : forall e, keeper (eval_visit getInitialValue fuel) e.
Proof.
  induction fuel as [|fuel IH]; intros e visited r visited' Hv He; [done|]. cbn [eval_visit] in He.
  destruct (is_const e) eqn:Hc; [injection He as <- <-; split; [apply R_refl|done]|].
  destruct (find e visited) as [x|] eqn:Hf.
  { injection He as <- <-. split; [|done]. clear -Hf Hv. induction Hv as [|[k x'] m Hk _ IHm]; [done|]. cbn in Hf.
    destruct (decide (e = k)) as [->|]; [by injection Hf as <-|by apply IHm]. }
  destruct (eval_visitActual _ _ e visited) as [[x v1]|] eqn:Ha; [|done]. cbn in He. injection He as <- <-.
  enough (R e x /\ all_kept v1) as [Hk Hv1].
  { split; [done|]. unfold insert_pair. destruct (find e v1); [done|by constructor]. }
  assert (Forall (keeper (eval_visit getInitialValue fuel)) (getKids e)) as Hkids by (apply Forall_forall; intros k _; apply IH).
  unfold eval_visitActual in Ha. destruct (constant_kids e).
  { injection Ha as <- <-. split; [|done]. apply R_rebuild. clear -R_refl. induction (getKids e); constructor; [apply R_refl|done]. }
  destruct e; try (by eapply do_children_kept).
  - by eapply (visitRead_kept _ _ _ (IH e)).
  - destruct (Kind.is_div k); [by eapply (protectedDiv_kept _ k e1 e2)|by eapply do_children_kept].
Qed.
End kept.

(** ** Values *)

Section keeps_values.
Context `{Laws : APIntLaws} (σ : assignment) (getInitialValue : Array -> Z -> expr) (known : Array -> Prop).
Hypothesis known_size : forall a, known a -> arr_size a <= 2 ^ 32.
Hypothesis init_keeps : forall a i, known a -> 0 <= i < arr_size a ->
  eval σ (getInitialValue a i) = Some (AP 8 (wrap 8 (σ (arr_name a) i))).

Definition kept (e r : expr) : Prop := Forall known (arrays e) -> same_value σ e r.
Lemma eval_visit_keeps fuel e r visited' : eval_visit getInitialValue fuel e [] = Some (r, visited') -> kept e r.
Proof.
  intros He. refine (proj1 (eval_visit_kept getInitialValue kept _ _ _ fuel e [] r visited' _ He)).
  - by intros e' _ v.
  - intros e' kids Hk Hn. apply rebuild_sound. apply kids_known in Hn.
    induction Hk as [|k x ks rs Hkr _ IH]; [constructor|]. apply Forall_cons in Hn as [Hn Hns]. constructor; [by apply Hkr|by apply IH].
  - intros a i c j Hi Hj Hn v Hev. unfold arrays in Hn. cbn in Hn. apply Forall_cons in Hn as [Ha Hn].
    cbn [eval] in Hev. unfold ev_read in Hev. destruct (eval σ i) as [u|] eqn:Hu; [|done]. cbn in Hev.
    destruct (Z.ltb_spec (ap_val u) (arr_size a)) as [Hlt|]; [|done]. injection Hev as <-.
    pose proof (Hi Hn u Hu) as Hc. apply eval_constant_inv in Hc as [-> Hwf]. unfold getZExtValue in Hj.
    destruct (_ <=? 64); [|done]. injection Hj as <-. pose proof (wf_range _ Hwf). pose proof (known_size a Ha).
    rewrite wrap_small by lia. apply init_keeps; [done|lia].
  - constructor.
Qed.
End keeps_values.

(** ** Disjunctions that are true for a constant *)

Section trivial.
Context `{Laws : APIntLaws}.

Definition stays_true (e r : expr) : Prop :=
  (forall w, type_of e = Some w -> type_of r = Some w) /\ (is_const e = true -> r = e) /\
  (well_typed e -> trivially_true e = true -> trivially_true r = true).

Lemma Or_trivial l r : well_typed l -> well_typed r -> trivially_true l || trivially_true r = true ->
  trivially_true (OrExpr_create l r) = true.
Proof.
  intros Hl Hr Ht. unfold OrExpr_create, OrExpr_createPartialR.
  assert (forall e c, well_typed (EConstant c) -> isTrue c || trivially_true e = true -> trivially_true (OrExpr_createPartial e c) = true) as Hp.
  { intros e c [[] ->]%(const_typed (fun _ _ => 0)) He; [done|]. exact He. }
  destruct l as [a| | | | | | | | |], r as [b| | | | | | | | |]; cbn [specialize2]; try exact Ht;
    try (by apply Hp); try (apply Hp; [done|by rewrite orb_comm]).
  destruct (const_typed (fun _ _ => 0) a Hl) as [x ->], (const_typed (fun _ _ => 0) b Hr) as [y ->]. unfold fold_arith, CE_arith.
  rewrite ap_arith_law by (apply bool_ap_wf || done). by destruct x, y.
Qed.
Lemma rebuild_stays_true e kids : Forall2 stays_true (getKids e) kids -> stays_true e (rebuild e kids).
Proof.
  intros Hk. split; [|split].
  - intros w Hw. eapply rebuild_type; [done|]. pose proof (kids_typed e w Hw) as Ht.
    induction Hk as [|k r ks rs Hkr _ IH]; [constructor|]. apply Forall_cons in Ht as [[u Hu] Ht]. constructor; [|by apply IH].
    unfold same_type. rewrite Hu. by apply Hkr.
  - intros Hc. by destruct e.
  - intros Hw Ht. destruct e; try done; cbn [getKids] in Hk.
    + destruct k; try done. pose proof Hw as [H1 H2]%type_arith_inv.
      apply Forall2_cons_inv_l in Hk as (l & ? & Hl & Hk & ->). apply Forall2_cons_inv_l in Hk as (r & ? & Hr & Hk & ->).
      apply Forall2_nil_inv_l in Hk as ->. cbn [rebuild]. apply Or_trivial; [by apply Hl|by apply Hr|].
      cbn [trivially_true] in Ht. apply orb_true_iff in Ht as [Ht|Ht]; apply orb_true_iff; [left; by apply Hl|right; by apply Hr].
    + destruct k; try done. destruct e1 as [c| | | | | | | | |]; try done. destruct e2 as [d| | | | | | | | |]; try done.
      apply Forall2_cons_inv_l in Hk as (l & ? & (_ & Hl & _) & Hk & ->). apply Forall2_cons_inv_l in Hk as (r & ? & (_ & Hr & _) & Hk & ->).
      apply Forall2_nil_inv_l in Hk as ->. rewrite Hl, Hr by done. apply bool_decide_eq_true_1 in Ht as <-.
      pose proof Hw as (_ & u & Hc & _)%type_cmp_inv. apply type_constant in Hc as [Hwf _].
      cbn. unfold fold_cmp, CE_cmp. rewrite ap_cmp_law by done. cbn. by rewrite Z.eqb_refl.
Qed.
Lemma eval_visit_stays_true getInitialValue : (forall a i, type_of (getInitialValue a i) = Some Int8) ->
  forall fuel e r visited', eval_visit getInitialValue fuel e [] = Some (r, visited') -> stays_true e r.
Proof.
  intros Hinit fuel e r visited' He.
  refine (proj1 (eval_visit_kept getInitialValue stays_true _ rebuild_stays_true _ fuel e [] r visited' _ He)); [done| |constructor].
  intros a i c j _ _. split; [|done]. intros w [-> _]%type_read_inv. apply Hinit.
Qed.

End trivial.

(** * The ranges are right

    Possible ranges are not empty; the exact range of a byte contains its value under every input that the
    propagated expressions allow. *)

Definition byte_range (r : ValueRange) : Prop := 0 <= m_min r <= m_max r /\ m_max r <= 255.
Definition possible_ok (a : Array) (cod : CexObjectData) : Prop :=
  length (possibleContents cod) = Z.to_nat (arr_size a) /\ Forall byte_range (possibleContents cod).
Definition exact_ok (G : assignment -> Prop) (a : Array) (cod : CexObjectData) : Prop :=
  forall σ, G σ -> forall i cvd, exactContents cod !! i = Some cvd -> in_range (wrap 8 (σ (arr_name a) (Z.of_nat i))) cvd.
Definition data_ok (G : assignment -> Prop) (objects : CexData) : Prop :=
  map_Forall (fun a cod => possible_ok a cod /\ exact_ok G a cod) objects.

(** The indices of an expression are of the kind whose ranges are right. *)
Definition reads_indexed (e : expr) : Prop := Forall (fun r => index_ok r.2) (all_reads e).

Section propagation.
Context `{Laws : APIntLaws} (G : assignment -> Prop).

Lemma keeps_asserted {A} (o : option A) : keeps (data_ok G) (asserted o).
Proof. destruct o; [apply keeps_ret|apply keeps_throw]. Qed.
Lemma yields_asserted {A} (o : option A) (P : A -> Prop) : (forall a, o = Some a -> P a) -> yields (data_ok G) (asserted o) P.
Proof. intros Ho. destruct o; [by apply yields_ret, Ho|apply yields_throw]. Qed.
Lemma byte_in_full (σ : assignment) (name : string) i : in_range (wrap 8 (σ name i)) (VR 0 255).
Proof. pose proof (wrap_range 8 (σ name i)). unfold in_range. cbn. lia. Qed.
Lemma new_ok a : possible_ok a (CexObjectData_new (arr_size a)) /\ exact_ok G a (CexObjectData_new (arr_size a)).
Proof.
  split; [split|]; cbn.
  - apply length_replicate.
  - apply Forall_replicate. unfold byte_range. cbn. lia.
  - intros σ _ i cvd [-> _]%lookup_replicate. apply byte_in_full.
Qed.
Lemma getObjectData_yields a : yields (data_ok G) (getObjectData a) (fun cod => possible_ok a cod /\ exact_ok G a cod).
Proof.
  intros s Hs. unfold getObjectData, sm_bind, sm_gets, sm_modify, sm_ret, id. cbn.
  destruct (s !! a) as [cod|] eqn:Hl; [by split; [|apply (Hs a)]|]. split; [|apply new_ok].
  apply map_Forall_insert_2; [apply new_ok|done].
Qed.
Lemma putObjectData_keeps a cod : possible_ok a cod -> exact_ok G a cod -> keeps (data_ok G) (putObjectData a cod).
Proof. intros Hp He. apply keeps_modify. intros s Hs. by apply map_Forall_insert_2. Qed.
Lemma intersection_byte r r' : byte_range r -> isEmpty (set_intersection r r') = false -> byte_range (set_intersection r r').
Proof. unfold byte_range, isEmpty, set_intersection. cbn. lia. Qed.
Lemma set_possible_ok a i r cod : byte_range r -> possible_ok a cod -> possible_ok a (set_possible i r cod).
Proof. intros Hr [Hl Hf]. split; cbn; [by rewrite length_insert|by apply Forall_insert]. Qed.
Lemma set_exact_ok a i r cod : (forall σ, G σ -> 0 <= i /\ in_range (wrap 8 (σ (arr_name a) i)) r) -> exact_ok G a cod ->
  exact_ok G a (set_exact i r cod).
Proof.
  intros Hin He σ Hσ j cvd Hj. destruct (Hin σ Hσ) as [Hi Hr]. cbn in Hj. destruct (decide (Z.to_nat i = j)) as [<-|Hne].
  - destruct (decide (Z.to_nat i < length (exactContents cod))%nat); [|by rewrite list_insert_ge in Hj by lia; apply (He σ Hσ _ _ Hj)].
    rewrite list_lookup_insert_eq in Hj by done. injection Hj as <-. by rewrite Z2Nat.id.
  - rewrite list_lookup_insert_ne in Hj by done. by apply (He σ Hσ _ _ Hj).
Qed.

Lemma possible_read_keeps a i range : keeps (data_ok G) (possible_read a i range).
Proof.
  unfold possible_read. eapply keeps_bind_yields; [apply getObjectData_yields|]. intros cod [Hp He]. cbv zeta.
  destruct (as_constant i); [|apply keeps_ret]. apply keeps_bind; [apply keeps_asserted|]. intros index.
  destruct (_ <? _); [|apply keeps_ret]. destruct (isFixed range); [apply keeps_bind; [apply keeps_asserted|]|].
  2: eapply keeps_bind_yields; [apply (yields_asserted _ byte_range); intros cvd; by apply Forall_lookup_1, Hp|].
  - intros v. apply putObjectData_keeps; [|done]. apply set_possible_ok; [|done].
    pose proof (wrap_range 8 v ltac:(lia)). unfold byte_range. cbn. lia.
  - intros cvd Hcvd. destruct (isEmpty _) eqn:Hemp; [apply keeps_ret|]. apply putObjectData_keeps; [|done].
    apply set_possible_ok; [|done]. by apply intersection_byte.
Qed.
Lemma propagate_bool_keeps f l r range b : (forall range, keeps (data_ok G) (f l range)) -> (forall range, keeps (data_ok G) (f r range)) ->
  keeps (data_ok G) (propagate_bool f l r range b).
Proof.
  intros Hl Hr. unfold propagate_bool, evalRangeForExpr. destruct (isFixed range); [|apply keeps_ret].
  repeat (first [apply keeps_asserted|apply keeps_ret|apply Hl|apply Hr|apply keeps_when|apply keeps_bind; [|intros ?]|case_match]).
Qed.
Lemma propagate_order_keeps f l r range fr fl : (forall range, keeps (data_ok G) (f l range)) -> (forall range, keeps (data_ok G) (f r range)) ->
  keeps (data_ok G) (propagate_order f l r range fr fl).
Proof.
  intros Hl Hr. unfold propagate_order, evalRangeForExpr. destruct (isFixed range); [|apply keeps_ret].
  repeat (first [apply keeps_asserted|apply keeps_ret|apply Hl|apply Hr|apply keeps_bind; [|intros ?]|case_match]).
Qed.
(** Whatever is propagated as possible, exact ranges stay right. *)
Lemma possible_keeps e : forall range, keeps (data_ok G) (propogatePossibleValues e range).
Proof.
  induction e; intros range; cbn [propogatePossibleValues]; cbv zeta;
    try (destruct k); unfold evalRangeForExpr;
    repeat (first [apply keeps_asserted|apply keeps_ret|apply keeps_throw|apply possible_read_keeps|done
      |apply propagate_bool_keeps; done|apply propagate_order_keeps; done|apply keeps_bind; [|intros ?]|case_match]).
Qed.

Lemma narrow_min_in x range cvd r : in_range x range -> in_range x cvd -> narrow_min range cvd = Some r -> in_range x r.
Proof.
  unfold narrow_min, range_min, range_max, range_assert, in_range. intros Hx Hc.
  repeat (case_match; cbn; try done); intros [= <-]; cbn; lia.
Qed.
Lemma narrow_max_in x range cvd r : in_range x range -> in_range x cvd -> narrow_max range cvd = Some r -> in_range x r.
Proof.
  unfold narrow_max, range_min, range_max, range_assert, in_range. intros Hx Hc.
  repeat (case_match; cbn; try done); intros [= <-]; cbn; lia.
Qed.
Lemma index_range σ i r u : index_ok i -> evaluate_range i = Some r -> eval σ i = Some u -> in_range (ap_val u) r.
Proof.
  intros (Ht & Hn & Hb) Hr Hu. destruct (range_evaluated i Int32 Ht Hn) as (r' & Hr' & _ & Hin). rewrite Hr in Hr'.
  injection Hr' as <-. by apply (Hin Hb σ u).
Qed.
(** The expression has a value in the range, under the inputs that matter. *)
Definition valued_in (e : expr) (range : ValueRange) : Prop :=
  forall σ, G σ -> exists v, eval σ e = Some v /\ in_range (ap_val v) range.
Lemma yields_min (r : ValueRange) : yields (data_ok G) (asserted (range_min r)) (fun x => x = m_min r).
Proof. apply yields_asserted. unfold range_min. intros x. destruct (range_assert _); [|done]. by intros [= <-]. Qed.
Lemma exact_read_keeps a i range : index_ok i -> valued_in (ERead a i) range -> keeps (data_ok G) (exact_read a i range).
Proof.
  intros Hi Hval. unfold exact_read, evalRangeForExpr.
  eapply keeps_bind_yields; [apply getObjectData_yields|]. intros cod [Hp He].
  eapply keeps_bind_yields; [by apply (yields_asserted _ (fun r => evaluate_range i = Some r))|]. intros index Hidx.
  destruct (isFixed index) eqn:Hfix; [|apply keeps_ret]. eapply keeps_bind_yields; [apply yields_min|]. intros x ->.
  set (x := m_min index).
  assert (forall σ, G σ -> 0 <= x /\ in_range (wrap 8 (σ (arr_name a) x)) range) as Hx.
  { intros σ Hσ. destruct (Hval σ Hσ) as (v & Hv & Hin). cbn [eval] in Hv. unfold ev_read in Hv.
    destruct (eval σ i) as [u|] eqn:Hu; [|done]. cbn in Hv. destruct (_ <? _); [|done]. injection Hv as <-.
    pose proof (wf_range u (eval_wf _ _ _ Hu)) as [Hu0 _].
    pose proof (fixed_in _ _ Hfix (index_range σ i index u Hi Hidx Hu)) as Hmin. unfold x. rewrite <- Hmin. by split. }
  set (right := fun r => forall σ, G σ -> in_range (wrap 8 (σ (arr_name a) x)) r).
  eapply (keeps_bind_yields _ _ _ right).
  { apply yields_asserted. intros cvd Hcvd σ Hσ. destruct (Hx σ Hσ) as [H0 _]. specialize (He σ Hσ _ _ Hcvd). by rewrite Z2Nat.id in He. }
  intros cvd Hcvd. eapply (keeps_bind_yields _ _ _ right).
  { apply yields_asserted. intros r Hr σ Hσ. eapply narrow_min_in; [by apply Hx|by apply Hcvd|done]. }
  intros r Hr. eapply (keeps_bind_yields _ _ _ right).
  { apply yields_asserted. intros r' Hr' σ Hσ. eapply narrow_max_in; [by apply Hx|by apply Hr|done]. }
  intros r' Hr'. apply putObjectData_keeps; [done|]. apply set_exact_ok; [|done]. intros σ Hσ. split; [exact (proj1 (Hx σ Hσ))|exact (Hr' σ Hσ)].
Qed.

(** The exact ranges of what an expression has the value for stay right. *)
Lemma exact_keeps e : forall range, reads_indexed e -> valued_in e range -> keeps (data_ok G) (propogateExactValues e range).
Proof.
  induction e; intros range Hr Hval; cbn [propogateExactValues]; try apply keeps_ret.
  - unfold reads_indexed in Hr. cbn in Hr. apply Forall_cons in Hr as [Hi _]. by apply exact_read_keeps.
  - destruct (_ && _) eqn:Hb; [|apply keeps_ret]. apply andb_true_iff in Hb as [Hw%Z.eqb_eq Hf].
    eapply keeps_bind_yields; [apply yields_min|]. intros x ->. apply IHe; [done|].
    intros σ Hσ. destruct (Hval σ Hσ) as (v & Hv & Hin). cbn [eval] in Hv. apply ev_not_inv in Hv as (u & Hu & ->).
    exists u. split; [done|]. rewrite <- (fixed_in _ _ Hf Hin).
    assert (exists b, u = bool_ap b) as [[] ->]; [|by vm_compute..].
    eexists. apply bool_value; [by eapply eval_wf|]. apply eval_type, type_width in Hu as [Hg _]. cbn in Hw. congruence.
  - destruct k; try apply keeps_throw; try apply keeps_ret. destruct (isFixed range) eqn:Hf; [|apply keeps_ret].
    destruct (as_constant e1) as [CE|] eqn:Hc; [|apply keeps_ret]. destruct (_ <=? 64); [|apply keeps_ret].
    destruct e1; try done. injection Hc as ->. unfold reads_indexed in Hr. cbn in Hr.
    eapply keeps_bind_yields; [apply (yields_asserted _ (fun x => x = ap_val CE))|].
    { unfold getZExtValue. intros x. destruct (_ <=? 64); [|done]. by intros [= <-]. }
    intros value ->. eapply keeps_bind_yields; [apply yields_min|]. intros x ->.
    assert (forall σ, G σ -> exists b, eval σ e2 = Some b /\ ap_wf CE /\ ap_width CE = ap_width b /\
      m_min range = Z.b2z (ap_val CE =? ap_val b)) as Heq.
    { intros σ Hσ. destruct (Hval σ Hσ) as (v & Hv & Hin). cbn [eval] in Hv. apply ev_cmp_inv in Hv as (a & b & Ha & Hb & Hab & ->).
      destruct (ap_wf CE) eqn:Hwf; [|done]. injection Ha as <-. exists b. split_and!; [done..|]. symmetry. by apply fixed_in. }
    destruct (m_min range =? 0) eqn:H0; cbn [negb].
    + destruct (Z.eqb_spec (getWidth e2) Bool) as [Hw|]; [|apply keeps_ret]. apply IHe2; [done|]. intros σ Hσ.
      destruct (Heq σ Hσ) as (b & Hb & Hwf & Hab & Hm). exists b. split; [done|].
      assert (ap_width b = Bool) as Hbw by (apply eval_type, type_width in Hb as [Hg _]; congruence).
      pose proof (bool_value b (eval_wf _ _ _ Hb) Hbw) as Hbb. pose proof (bool_value CE Hwf ltac:(congruence)) as Hcb.
      rewrite Hm in H0. revert H0 Hbb Hcb. clear.
      generalize (negb (ap_val b =? 0)) (negb (ap_val CE =? 0)). intros x y H0 -> ->. by destruct x, y.
    + apply IHe2; [done|]. intros σ Hσ. destruct (Heq σ Hσ) as (b & Hb & _ & _ & Hm). exists b. split; [done|].
      destruct (Z.eqb_spec (ap_val CE) (ap_val b)); [unfold in_range; cbn; lia|]. by rewrite Hm in H0.
Qed.
End propagation.

(** * The answers are right *)

Section answers.
Context `{Laws : APIntLaws} (sizes : string -> Z).

(** The input in the middle of the possible ranges; the range of a byte that no constraint is
    about is that of all bytes. *)
Definition possible_list (objects : CexData) (a : Array) : list Z :=
  match objects !! a with
  | None => replicate (Z.to_nat (arr_size a)) 127
  | Some cod => (fun r => (m_min r + m_max r) / 2) <$> possibleContents cod
  end.
Definition possible_input (objects : CexData) : assignment := fun name i =>
  default 0 (possible_list objects (mkArray name (sizes name)) !! Z.to_nat i).

Lemma range_middle_spec r : byte_range r -> range_middle r = Some ((m_min r + m_max r) / 2).
Proof.
  intros [Hlo Hhi]. unfold range_middle, range_min, range_max, isEmpty. rewrite (proj2 (Z.ltb_ge _ _)) by lia. cbn.
  rewrite (wrap_small 64 (_ - _)) by lia. assert (m_min r + m_max r = m_max r - m_min r + m_min r * 2) as -> by lia.
  rewrite Z.div_add by lia. pose proof (Z.div_le_upper_bound (m_max r - m_min r) 2 (m_max r - m_min r) ltac:(lia) ltac:(lia)).
  pose proof (Z.div_pos (m_max r - m_min r) 2 ltac:(lia) ltac:(lia)).
  rewrite (wrap_small 64), (wrap_small 8) by lia. f_equal. lia.
Qed.
Lemma length_possible_list G objects a : data_ok G objects -> length (possible_list objects a) = Z.to_nat (arr_size a).
Proof.
  intros Hd. unfold possible_list. destruct (objects !! a) as [cod|] eqn:Hl; [|apply length_replicate].
  rewrite length_fmap. by apply (Hd a cod Hl).
Qed.
Lemma possible_init_type objects a i : type_of (possible_getInitialValue objects a i) = Some Int8.
Proof.
  unfold possible_getInitialValue, initial_read. repeat case_match; first [by apply type_alloc|by eapply type_read, type_alloc].
Qed.
Lemma possible_init_value G objects a i : data_ok G objects -> array_ok sizes a -> 0 <= i < arr_size a ->
  possible_getInitialValue objects a i = EConstant (AP 8 (wrap 8 (possible_input objects (arr_name a) i))).
Proof.
  intros Hd Ha Hi. unfold possible_getInitialValue, possible_input. rewrite (proj2 (Z.leb_gt _ _)), (array_ok_eq sizes a Ha) by lia.
  unfold possible_list, getPossibleValue. destruct (objects !! a) as [cod|] eqn:Hl.
  - destruct (Hd a cod Hl) as [[Hlen Hne] _]. rewrite list_lookup_fmap.
    destruct (lookup_lt_is_Some_2 (possibleContents cod) (Z.to_nat i)) as [r Hr]; [lia|]. rewrite Hr. cbn.
    by rewrite (range_middle_spec r (proj1 (Forall_lookup _ _) Hne _ _ Hr)).
  - rewrite lookup_replicate_2 by lia. done.
Qed.
Lemma exact_init_type objects a i : type_of (exact_getInitialValue objects a i) = Some Int8.
Proof.
  unfold exact_getInitialValue, initial_read. repeat case_match; first [by apply type_alloc|by eapply type_read, type_alloc].
Qed.
Lemma initial_read_value σ a i : 0 <= i < arr_size a -> arr_size a <= 2 ^ 32 ->
  eval σ (initial_read a i) = Some (AP 8 (wrap 8 (σ (arr_name a) i))).
Proof.
  intros Hi Ha. unfold initial_read. change (eval σ (ERead a ?i)) with (ev_read σ a (eval σ i)). rewrite eval_constant by by apply ap_wf_wrap.
  unfold ev_read. cbn. rewrite (wrap_small 32) by lia. by rewrite (proj2 (Z.ltb_lt i (arr_size a))) by lia.
Qed.
Lemma exact_init_keeps (G : assignment -> Prop) σ objects a i : data_ok G objects -> G σ -> array_ok sizes a -> 0 <= i < arr_size a ->
  eval σ (exact_getInitialValue objects a i) = Some (AP 8 (wrap 8 (σ (arr_name a) i))).
Proof.
  intros Hd Hσ [_ Ha] Hi. unfold exact_getInitialValue. rewrite (proj2 (Z.leb_gt _ _)) by lia.
  destruct (objects !! a) as [cod|] eqn:Hl; [|apply initial_read_value; lia].
  destruct (exactContents cod !! Z.to_nat i) as [cvd|] eqn:Hc; [|apply initial_read_value; lia].
  destruct (isFixed cvd) eqn:Hf; [|apply initial_read_value; lia].
  pose proof (proj2 (Hd a cod Hl) σ Hσ _ _ Hc) as Hin. rewrite Z2Nat.id in Hin by lia.
  rewrite <- (fixed_in _ _ Hf Hin). unfold CE_alloc. rewrite (wrap_small 8 (wrap 8 _)) by (apply wrap_range; lia).
  apply eval_constant, ap_wf_wrap. done.
Qed.

(** ** Evaluations *)

Lemma evaluatePossible_spec G objects e w : data_ok G objects -> type_of e = Some w -> parts_ok sizes e ->
  exists r, evaluatePossible e objects = (Ok r, objects) /\
    forall v, eval (possible_input objects) e = Some v -> r = EConstant v.
Proof.
  intros Hd Hw Hr. unfold evaluatePossible.
  destruct (eval_visit_spec (possible_input objects) (possible_getInitialValue objects) (array_ok sizes)
    (possible_init_type objects)) with (fuel := expr_size e) (e := e) (w := w) (visited := @nil (expr * expr)) as (r & vs & He & Hev & _);
    [by intros a i Ha Hi _; eapply possible_init_value|done|done|by eapply parts_ok_indices|constructor|].
  exists r. unfold sm_bind, sm_gets, id. rewrite He. split; [done|]. intros v. apply (Hev w Hw).
  - by eapply parts_ok_indices.
  - by apply parts_ok_arrays.
Qed.
Lemma evaluateExact_spec G objects e w : data_ok G objects -> type_of e = Some w -> parts_ok sizes e ->
  exists r, evaluateExact e objects = (Ok r, objects) /\ forall σ, G σ -> same_value σ e r.
Proof.
  intros Hd Hw Hr. unfold evaluateExact.
  destruct (eval_visit_spec (fun _ _ => 0) (exact_getInitialValue objects) (fun _ => False)
    (exact_init_type objects)) with (fuel := expr_size e) (e := e) (w := w) (visited := @nil (expr * expr)) as (r & vs & He & _ & _);
    [done|done|done|by eapply parts_ok_indices|constructor|].
  exists r. unfold sm_bind, sm_gets, id. rewrite He. split; [done|]. intros σ Hσ.
  assert (forall a, array_ok sizes a -> arr_size a <= 2 ^ 32) as Hsz by (intros a [_ ?]; lia).
  apply (eval_visit_keeps σ (exact_getInitialValue objects) (array_ok sizes) Hsz
    (fun a i => exact_init_keeps G σ objects a i Hd Hσ) (expr_size e) e r vs He).
  by apply parts_ok_arrays.
Qed.
(** A false result: the negation is not refuted. *)
Lemma isFalse_allows G objects e p : data_ok G objects -> well_typed e -> parts_ok sizes e ->
  evaluatePossible e objects = (Ok p, objects) -> expr_isFalse p = true -> allows (possible_input objects) (Expr_createIsZero e).
Proof.
  intros Hd Hw Hr Hp Hf Href. destruct (evaluatePossible_spec G objects e Bool Hd Hw Hr) as (p' & Hp' & Hv).
  rewrite Hp in Hp'. injection Hp' as <-.
  assert (refuted (possible_input objects) (eq_constant EqExpr_createPartialR e (bool_ap false))) as Href'.
  { unfold Expr_createIsZero in Href. rewrite (proj1 (type_width e _ Hw)) in Href. by destruct e. }
  destruct (proj1 (proj2 (negation_says_isZero _ e Hw)) Href') as [Hh|Ht]; [by rewrite (Hv _ Hh) in Hf|].
  unfold evaluatePossible, sm_bind, sm_gets, id in Hp. destruct (eval_visit _ _ e []) as [[x vs]|] eqn:He; [|done].
  injection Hp as <-. apply (eval_visit_stays_true _ (possible_init_type objects)) in He as (_ & _ & Htrue). specialize (Htrue Hw Ht).
  destruct x as [c| | | | | | | | |]; try done. cbn in Htrue, Hf. unfold isTrue, isFalse in *. by destruct (_ =? _), (_ =? 0).
Qed.
Lemma isTrue_not_refuted σ e r : same_value σ e r -> expr_isTrue r = true -> ~ refuted σ e.
Proof.
  intros Hs Ht Hr. specialize (Hs _ Hr). destruct r as [c| | | | | | | | |]; try done.
  apply eval_constant_inv in Hs as [<- _]. by cbn in Ht.
Qed.
Lemma isFalse_not_holds σ e r : same_value σ e r -> expr_isFalse r = true -> ~ holds σ e.
Proof.
  intros Hs Ht Hr. specialize (Hs _ Hr). destruct r as [c| | | | | | | | |]; try done.
  apply eval_constant_inv in Hs as [<- _]. by cbn in Ht.
Qed.

(** ** Propagation *)

Lemma parts_ok_indexed e : parts_ok sizes e -> reads_indexed e.
Proof. intros [Hr _]. eapply Forall_impl; [exact Hr|]. by intros r (_ & ? & _). Qed.
Lemma propagate_value_keeps G e b : parts_ok sizes e -> (forall σ, G σ -> evals σ e b) ->
  keeps (data_ok G) (sm_bind (propogatePossibleValue e (Z.b2z b)) (fun _ => propogateExactValue e (Z.b2z b))).
Proof.
  intros Hr He. apply keeps_bind; [apply possible_keeps|]. intros _. apply exact_keeps; [by apply parts_ok_indexed|].
  intros σ Hσ. exists (bool_ap b). split; [by apply He|]. unfold in_range. cbn. lia.
Qed.
Lemma propagate_constraints_keeps G cs : Forall (parts_ok sizes) cs -> (forall σ, G σ -> Forall (holds σ) cs) ->
  keeps (data_ok G) (propagate_constraints cs).
Proof.
  induction cs as [|c cs IH]; intros Hr Hc; cbn [propagate_constraints]; [apply keeps_ret|].
  apply Forall_cons in Hr as [Hr Hrs]. apply keeps_bind; [apply possible_keeps|]. intros _. apply keeps_bind.
  - apply exact_keeps; [by apply parts_ok_indexed|]. intros σ Hσ. exists (bool_ap true). specialize (Hc σ Hσ).
    apply Forall_cons in Hc as [Hc _]. split; [done|]. unfold in_range. cbn. lia.
  - intros _. apply IH; [done|]. intros σ Hσ. specialize (Hc σ Hσ). by apply Forall_cons in Hc as [_ ?].
Qed.

(** What the check of the constraints says, of the inputs [G] and of the one of the possible ranges. *)
Lemma check_constraints_spec G objects cs : data_ok G objects -> Forall (expr_ok sizes) cs -> forall has,
  exists o, check_constraints cs has objects = (Ok o, objects) /\
    match o with
    | Some true => forall σ, G σ -> ~ Forall (holds σ) cs
    | Some false => has = true /\ Forall (allows (possible_input objects)) cs
    | None => True
    end.
Proof.
  intros Hd. induction cs as [|c cs IH]; intros Hc has; cbn [check_constraints].
  { eexists. split; [done|]. by destruct has. }
  apply Forall_cons in Hc as [[Hw Hr] Hc].
  destruct (evaluatePossible_spec G objects c Bool Hd Hw Hr) as (p & Hp & Hpv).
  destruct (evaluateExact_spec G objects c Bool Hd Hw Hr) as (x & Hx & Hxv).
  set (has' := has && expr_isTrue p).
  assert ((if has then sm_bind (evaluatePossible c) (fun v => sm_ret (expr_isTrue v)) else sm_ret false) objects = (Ok has', objects)) as Hh.
  { destruct has; [|done]. unfold sm_bind. by rewrite Hp. }
  unfold sm_bind at 1. rewrite Hh. unfold sm_bind at 1. rewrite Hx. destruct (expr_isFalse x) eqn:Hf.
  - eexists. split; [done|]. intros σ Hσ [Hh' _]%Forall_cons. by apply (isFalse_not_holds σ c x (Hxv σ Hσ) Hf).
  - destruct (IH Hc has') as (o & -> & Ho). exists o. split; [done|]. destruct o as [[]|]; [| |done].
    + intros σ Hσ [_ Hcs]%Forall_cons. by apply (Ho σ Hσ).
    + destruct Ho as [[Hhas Ht]%andb_true_iff Hall]. split; [done|]. constructor; [|done].
      intros Href. by rewrite (Hpv _ Href) in Ht.
Qed.

(** The inputs that satisfy what is propagated. *)
Definition propagated (q : Query) (checkExpr : bool) (σ : assignment) : Prop :=
  Forall (holds σ) (q_constraints q) /\ (checkExpr = true -> refuted σ (q_expr q)).
Definition found_possible (q : Query) (checkExpr : bool) (objects : CexData) : Prop :=
  Forall (allows (possible_input objects)) (q_constraints q) /\
  (checkExpr = true -> ~ holds (possible_input objects) (q_expr q) /\
    allows (possible_input objects) (Expr_createIsZero (q_expr q))).
Lemma propogateValues_spec q checkExpr : (checkExpr = true -> well_typed (q_expr q)) -> parts_ok sizes (q_expr q) ->
  Forall (expr_ok sizes) (q_constraints q) ->
  match propogateValues q checkExpr ∅ with
  | (Ok o, objects) => data_ok (propagated q checkExpr) objects /\
      match o with
      | Some true => forall σ, ~ propagated q checkExpr σ
      | Some false => found_possible q checkExpr objects
      | None => True
      end
  | (Err _, _) => True
  end.
Proof.
  intros Hw Hr Hcs. set (G := propagated q checkExpr).
  assert (Forall (parts_ok sizes) (q_constraints q)) as Hrs by (eapply Forall_impl; [exact Hcs|]; by intros ? [_ ?]).
  pose proof (propagate_constraints_keeps G (q_constraints q) Hrs (fun σ Hσ => proj1 Hσ) ∅ (map_Forall_empty _)) as H1.
  unfold propogateValues. unfold sm_bind at 1. destruct (propagate_constraints (q_constraints q) ∅) as [[[]|e] s1]; [|done].
  assert (keeps (data_ok G) (sm_when checkExpr (sm_bind (propogatePossibleValue (q_expr q) 0) (fun _ => propogateExactValue (q_expr q) 0)))) as Hk.
  { destruct checkExpr; [|apply keeps_ret]. apply (propagate_value_keeps G (q_expr q) false); [done|]. intros σ [_ Hσ]. by apply Hσ. }
  specialize (Hk s1 H1). unfold sm_bind at 1. destruct (sm_when checkExpr _ s1) as [[[]|e] s2]; [|done].
  destruct checkExpr.
  - destruct (evaluatePossible_spec G s2 _ Bool Hk (Hw eq_refl) Hr) as (p & Hp & Hpv).
    destruct (evaluateExact_spec G s2 _ Bool Hk (Hw eq_refl) Hr) as (x & Hx & Hxv).
    unfold sm_bind at 1. rewrite Hp. unfold sm_bind at 1. rewrite Hx. destruct (expr_isTrue x) eqn:Ht.
    + split; [done|]. intros σ Hσ. apply (isTrue_not_refuted σ _ x (Hxv σ Hσ) Ht). by apply Hσ.
    + destruct (check_constraints_spec G s2 _ Hk Hcs (expr_isFalse p)) as (o & -> & Ho). split; [done|].
      destruct o as [[]|]; [| |done]; [intros σ Hσ; by apply (Ho σ Hσ), Hσ|]. destruct Ho as [Hf Hall]. split; [done|].
      intros _. split; [intros Hh; by rewrite (Hpv _ Hh) in Hf|]. by apply (isFalse_allows G s2 _ p Hk (Hw eq_refl) Hr Hp).
  - destruct (check_constraints_spec G s2 _ Hk Hcs true) as (o & -> & Ho). split; [done|].
    destruct o as [[]|]; [| |done]; [intros σ Hσ; by apply (Ho σ Hσ), Hσ|]. by destruct Ho.
Qed.

(** ** The values of arrays *)

Definition input_bytes (σ : assignment) (a : Array) : list Z :=
  (fun i => wrap 8 (σ (arr_name a) (Z.of_nat i))) <$> seq 0 (Z.to_nat (arr_size a)).
Lemma initial_read_ok a i : array_ok sizes a -> 0 <= i < arr_size a -> parts_ok sizes (initial_read a i).
Proof.
  intros Ha Hi. split; [|by repeat split]. constructor; [|by apply Forall_nil]. split; [done|]. split; [split; [by apply type_alloc|done]|].
  cbn [snd initial_read CE_alloc ap_val]. destruct Ha as [_ Ha]. change (wrap Int32 i < arr_size a). rewrite wrap_small by (unfold Int32; lia). lia.
Qed.
Lemma possible_bytes_spec G objects a indices : data_ok G objects -> array_ok sizes a ->
  Forall (fun i => Z.of_nat i < arr_size a) indices ->
  possible_bytes a indices objects =
    (Ok (Some ((fun i => wrap 8 (possible_input objects (arr_name a) (Z.of_nat i))) <$> indices)), objects).
Proof.
  intros Hd Ha. induction indices as [|i indices IH]; intros Hi; [done|]. apply Forall_cons in Hi as [Hi His]. cbn [possible_bytes].
  destruct (evaluatePossible_spec G objects (initial_read a (Z.of_nat i)) Int8 Hd) as (r & Hr & Hv);
    [by eapply type_read, type_alloc|apply initial_read_ok; [done|lia]|].
  rewrite (Hv _ (initial_read_value _ a (Z.of_nat i) ltac:(lia) ltac:(destruct Ha; lia))) in Hr.
  erewrite sm_bind_ok by exact Hr. cbn [as_constant]. erewrite sm_bind_ok by done.
  erewrite sm_bind_ok by exact (IH His). unfold sm_ret. cbn. by rewrite (wrap_small 8 (wrap 8 _)) by (apply wrap_range; lia).
Qed.
Lemma possible_values_spec G objects arrs : data_ok G objects -> Forall (array_ok sizes) arrs ->
  possible_values arrs objects = (Ok (Some (input_bytes (possible_input objects) <$> arrs)), objects).
Proof.
  intros Hd. induction arrs as [|a arrs IH]; intros Ha; [done|]. apply Forall_cons in Ha as [Ha Has]. cbn [possible_values].
  erewrite sm_bind_ok by (apply (possible_bytes_spec G); [done..|]; apply Forall_seq; intros; destruct Ha; lia). cbv beta iota.
  by erewrite sm_bind_ok by exact (IH Has).
Qed.
Lemma input_bytes_ok σ a : array_ok sizes a -> values_of a (input_bytes σ a).
Proof.
  intros [_ Ha]. unfold input_bytes. split; [rewrite length_fmap, length_seq; lia|]. apply Forall_fmap, Forall_true.
  intros i. unfold byte_ok. cbn. apply (wrap_range 8). lia.
Qed.
(** The bytes describe the input they are taken from. *)
Lemma input_bytes_agree G objects arrs a j : data_ok G objects -> Forall (array_ok sizes) arrs -> a ∈ arrs ->
  wrap 8 (input_of (zip arrs (input_bytes (possible_input objects) <$> arrs)) (arr_name a) j) =
  wrap 8 (possible_input objects (arr_name a) j).
Proof.
  intros Hd Has Hin. pose proof (proj1 (Forall_forall _ _) Has a Hin) as Ha.
  rewrite (input_of_zip_bytes sizes) by done. unfold input_of_bytes. rewrite (array_ok_eq sizes a Ha).
  unfold input_bytes. rewrite list_lookup_fmap. destruct (decide (Z.to_nat j < Z.to_nat (arr_size a))%nat) as [Hlt|Hge].
  - rewrite lookup_seq_lt by done. cbn. rewrite (wrap_small 8 (wrap 8 _)) by (apply wrap_range; lia).
    unfold possible_input. by rewrite Nat2Z.id.
  - rewrite lookup_seq_ge by lia. cbn. unfold possible_input. rewrite (array_ok_eq sizes a Ha), lookup_ge_None_2; [done|].
    rewrite (length_possible_list G) by done. lia.
Qed.

(** ** FastCexSolver *)

Context `{AssertPolicy} (Hmay : may_assert).
Lemma any_error e : allowed_error e.
Proof. by destruct e. Qed.
Lemma run_bind {A B} (m : SM CexData solver_error A) (k : A -> SM CexData solver_error B) P :
  (forall a objects, m ∅ = (Ok a, objects) -> right_result (fst (k a objects)) P) -> right_result (with_data (sm_bind m k)) P.
Proof.
  intros Hk. unfold with_data, sm_bind. destruct (m ∅) as [[a|e] objects] eqn:Hm; [by apply Hk|apply any_error].
Qed.
(** Each of its answers. *)
Lemma fast_cex_answers : incomplete_ok sizes FastCexSolver.
Proof.
  split; cbn [inc_computeTruth inc_computeValue inc_computeInitialValues FastCexSolver].
  - intros q Hq Hc Hd. apply Forall_cons in Hq as [[Hw Hr] Hcs]. apply run_bind. intros o objects Hrun.
    pose proof (propogateValues_spec q true (fun _ => Hw) Hr Hcs) as Hp. rewrite Hrun in Hp. destruct Hp as [_ Ho].
    destruct o as [[]|]; cbn; [| |done].
    + intros σ Hσ Href. by apply (Ho σ).
    + exists (possible_input objects). split; [apply Ho|by apply Ho].
  - intros q (Hw & Hr & Hcs) Hc Hd. apply run_bind. intros o objects Hrun.
    pose proof (propogateValues_spec q false ltac:(done) Hr Hcs) as Hp. rewrite Hrun in Hp. destruct Hp as [Hok Ho].
    destruct o as [[]|]; cbn; [done| |done]. destruct Hw as [w Hw].
    destruct (evaluatePossible_spec _ objects _ w Hok Hw Hr) as (r & Hev & Hv). unfold sm_bind. rewrite Hev. cbn.
    destruct (is_const r); [|done]. destruct (Hd (possible_input objects) (proj1 Ho)) as [v Hval].
    exists (possible_input objects), v. split; [apply Ho|]. split; [done|]. by apply Hv.
  - intros q arrs Hq [Hao Hcov]. apply Forall_cons in Hq as [[Hw Hr] Hcs]. apply run_bind. intros o objects Hrun.
    pose proof (propogateValues_spec q true (fun _ => Hw) Hr Hcs) as Hp. rewrite Hrun in Hp. destruct Hp as [Hok Ho].
    destruct o as [[]|]; [| |done].
    + cbn. intros σ Hσ Hh. apply (Ho σ). split; [done|]. intros _. by apply isZero_holds.
    + destruct Ho as [Hall Hn]. destruct (Hn eq_refl) as [_ Hz]. unfold sm_bind. rewrite (possible_values_spec _ objects arrs Hok Hao). cbn.
      set (σ := input_of _).
      assert (forall e, (forall a, a ∈ arrays e -> a ∈ arrs) -> eval σ e = eval (possible_input objects) e) as Hsame.
      { intros e He. apply eval_agree, Forall_forall. intros [a i] Hin j _. cbn. apply (input_bytes_agree _ objects arrs a j Hok Hao), He.
        unfold arrays. by apply (list_elem_of_fmap_2 fst _ (a, i)). }
      apply Forall_cons in Hcov as [Hce Hcc]. split_and!.
      * clear -Hao. induction Hao as [|a arrs Ha _ IH]; constructor; [by apply input_bytes_ok|done].
      * apply Forall_forall. intros c Hc Href. apply (proj1 (Forall_forall _ _) Hall c Hc). unfold refuted, evals in *.
        by rewrite <- Hsame by by apply (proj1 (Forall_forall _ _) Hcc c Hc).
      * unfold allows, refuted, evals. rewrite (Hsame _ Hce). exact Hz.
Qed.
(** The answers taken from the input in the middle of the ranges found by the propagation. *)
Record middle_answers : Prop := {
  mid_truth q : query_ok sizes q -> fast_computeTruth q = Ok MayBeFalse ->
    exists objects, propogateValues q true ∅ = (Ok (Some false), objects) /\ found_possible q true objects;
  mid_value q r : value_query_ok sizes q -> fast_computeValue q = Ok (Some r) ->
    exists objects, propogateValues q false ∅ = (Ok (Some false), objects) /\ found_possible q false objects /\
      forall v, eval (possible_input objects) (q_expr q) = Some v -> r = EConstant v;
  mid_initial q arrs values : query_ok sizes q -> Forall (array_ok sizes) arrs ->
    fast_computeInitialValues q arrs = Ok (Some (Some values)) ->
    exists objects, propogateValues q true ∅ = (Ok (Some false), objects) /\ found_possible q true objects /\
      values = input_bytes (possible_input objects) <$> arrs;
}.
Lemma fast_cex_middle : middle_answers.
Proof.
  split.
  - intros q Hq. apply Forall_cons in Hq as [[Hw Hr] Hcs]. unfold fast_computeTruth, with_data, sm_bind.
    pose proof (propogateValues_spec q true (fun _ => Hw) Hr Hcs) as Hp.
    destruct (propogateValues q true ∅) as [[[[]|]|] objects]; try done. intros _. exists objects. by split; [|apply Hp].
  - intros q r (Hw & Hr & Hcs). unfold fast_computeValue, with_data, sm_bind.
    pose proof (propogateValues_spec q false ltac:(done) Hr Hcs) as Hp.
    destruct (propogateValues q false ∅) as [[[[]|]|] objects]; try done. destruct Hp as [Hok Ho], Hw as [w Hw].
    destruct (evaluatePossible_spec _ objects _ w Hok Hw Hr) as (r' & -> & Hv). cbn. intros Heq.
    exists objects. split; [done|]. split; [done|]. intros v Hev. rewrite (Hv v Hev) in Heq. by injection Heq as <-.
  - intros q arrs values Hq Hao. apply Forall_cons in Hq as [[Hw Hr] Hcs]. unfold fast_computeInitialValues, with_data, sm_bind.
    pose proof (propogateValues_spec q true (fun _ => Hw) Hr Hcs) as Hp.
    destruct (propogateValues q true ∅) as [[[[]|]|] objects]; try done. destruct Hp as [Hok Ho].
    rewrite (possible_values_spec _ objects arrs Hok Hao). intros [= <-]. by exists objects.
Qed.

(** C12 FastCexSolver is right, on typed queries whose constraints can be satisfied and whose expression has a value
    then: whenever propagation ends without a failed assertion, a query it says must be true is false for no input
    that satisfies the constraints, one it says may be false is not true for some input that makes no constraint
    false, and a value or initial values it gives come from such an input.  That input gives each byte the middle
    of the range the propagation found possible for it, [(min + max) / 2], and 127 where it found nothing. *)
Theorem fast_cex_right : incomplete_ok sizes FastCexSolver /\ middle_answers.
Proof. split; [exact fast_cex_answers|exact fast_cex_middle]. Qed.
End answers.

(** ** Witnesses: a byte that is six; one that is not five, whose possible range is 0 to 4; the assertion that a
    contradiction fails *)

Definition six_byte : Array := mkArray "x" 1.
Definition byte_equal (v : Z) : expr := ECmp Kind.Eq (EConstant (AP 8 v)) (read_byte six_byte 0).
Definition six_query (e : expr) : Query := mkQuery [byte_equal 6] e.
Lemma byte_equal_ok v : ap_wf (AP 8 v) -> expr_ok (fun _ => 1) (byte_equal v).
Proof.
  intros Hv%Is_true_true. split; [unfold well_typed; cbn; by rewrite Hv|]. split; [|by repeat split]. constructor; [|by apply Forall_nil].
  split; [split; [done|cbn; lia]|]. split; [repeat split|reflexivity].
Qed.
Lemma byte_equal_value σ v : ap_wf (AP 8 v) -> eval σ (byte_equal v) = Some (bool_ap (v =? u8 (σ "x" 0))).
Proof. intros Hv%Is_true_true. cbn. by rewrite Hv. Qed.
Lemma byte_equal_eval σ v : ap_wf (AP 8 v) -> exists r, eval σ (byte_equal v) = Some r.
Proof. intros Hv. eexists. by apply byte_equal_value. Qed.
Lemma six_query_ok v : ap_wf (AP 8 v) -> query_ok (fun _ => 1) (six_query (byte_equal v)).
Proof. intros Hv. repeat (apply Forall_cons; split; [by apply byte_equal_ok|]). by apply Forall_nil. Qed.
#[local] Existing Instance with_asserts.
Lemma fast_cex_right_witness :
  (fast_computeTruth (six_query (byte_equal 6)) = Ok MustBeTrue /\ must_be_true (six_query (byte_equal 6))) /\
  (fast_computeTruth (six_query (byte_equal 5)) = Ok MayBeFalse /\ may_be_false (six_query (byte_equal 5))) /\
  fast_computeInitialValues (six_query (byte_equal 5)) [six_byte] = Ok (Some (Some [[6]])) /\
  exists objects, propogateValues (mkQuery [] (byte_equal 5)) true ∅ = (Ok (Some false), objects) /\
    input_bytes (possible_input (fun _ => 1) objects) six_byte = [2].
Proof.
  assert (forall e, consistent (six_query e)) as Hc.
  { intros e. exists (fun _ _ => 6). apply Forall_cons. split; [vm_compute; reflexivity|by apply Forall_nil]. }
  assert (forall v, ap_wf (AP 8 v) -> right_result (fast_computeTruth (six_query (byte_equal v))) (half_truth (six_query (byte_equal v)))) as Hr.
  { intros v Hv. refine (inc_truth _ _ (proj1 (fast_cex_right (fun _ => 1) _)) _ _ (Hc _) _); [exact I|by apply six_query_ok|].
    intros σ _. by apply byte_equal_eval. }
  assert (fast_computeTruth (six_query (byte_equal 6)) = Ok MustBeTrue) as H6 by (vm_compute; reflexivity).
  assert (fast_computeTruth (six_query (byte_equal 5)) = Ok MayBeFalse) as H5 by (vm_compute; reflexivity).
  pose proof (Hr 6 ltac:(by vm_compute)) as Hr6. rewrite H6 in Hr6. pose proof (Hr 5 ltac:(by vm_compute)) as Hr5. rewrite H5 in Hr5.
  split; [by split|]. split; [by split|]. split; [vm_compute; reflexivity|].
  destruct (mid_initial _ (proj2 (fast_cex_right (fun _ => 1) I)) (mkQuery [] (byte_equal 5)) [six_byte] [[2]])
    as (objects & Hrun & _ & Hv).
  - apply Forall_cons. split; [by apply byte_equal_ok|by apply Forall_nil].
  - apply Forall_cons. split; [|by apply Forall_nil]. split; [done|cbn; lia].
  - vm_compute. reflexivity.
  - exists objects. split; [exact Hrun|]. exact (eq_sym (f_equal (fun l => default [] (head l)) Hv)).
Defined.

(** FastCexSolver can fail an assertion on a query that has an answer: when a byte is six, it is not five, but the
    exact range that the negation gives the byte contradicts the one it has. *)
Theorem fast_cex_asserts : let q := six_query (Expr_createIsZero (byte_equal 5)) in
  query_ok (fun _ => 1) q /\ consistent q /\ defined q /\ must_be_true q /\ fast_computeTruth q = Err AssertFailed.
Proof.
  intros q. split_and!.
  - apply Forall_cons. split; [by apply isZero_expr_ok, byte_equal_ok|]. apply Forall_cons. split; [by apply byte_equal_ok|by apply Forall_nil].
  - exists (fun _ _ => 6). apply Forall_cons. split; [vm_compute; reflexivity|by apply Forall_nil].
  - intros σ _. by apply isZero_boolean, byte_equal_eval.
  - intros σ [H6 _]%Forall_cons Hr. unfold holds, refuted, evals in *. change (q_expr q) with (Expr_createIsZero (byte_equal 5)) in Hr.
    rewrite byte_equal_value in H6 by by vm_compute. rewrite (isZero_sound σ _ _ (byte_equal_value σ 5 ltac:(by vm_compute))) in Hr.
    revert H6 Hr. generalize (u8 (σ "x" 0)). intros y Hy. assert (6 = y) as <-; [|done].
    destruct (Z.eqb_spec 6 y) as [|Hne]; [done|discriminate Hy].
  - vm_compute. reflexivity.
Qed.
