(* ===== verification/KCexCaching.v ===== *)
(** The cache of counterexamples (klee/lib/Solver/CexCachingSolver.cpp): the assignments found
    for sets of constraints, an unsatisfiable set included, answer later queries about the same
    sets, their supersets and their subsets.  It keeps what the solver behind it promises. *)
From S2P Require Import Prelude Bits APInt KExpr KBuilder KBuilderSound KType KCreate KCreateShape KCreateSound KConstraints KReads Concolic PathTrace KSolver KEval KCompare MapOfSets.

(** The options of the command line. *)
Record cex_options := mkCexOptions {
  DebugCexCacheCheckBinding : bool; CexCacheTryAll : bool; CexCacheSuperSet : bool; CexCacheExperimental : bool }.
Definition default_options : cex_options := mkCexOptions false false false false.

(** A cached assignment is its bindings, with no free values; the null pointer is [None].  The table
    holds one assignment for equal bindings, ordered by addresses: the order of a walk over it is
    left open. *)
Record CexState (S : Type) := mkCex {
  cex_solver : S; cex_cache : @set_node expr (option bindings_ty); assignmentsTable : gset bindings_ty }.
Arguments mkCex {S}.
Arguments cex_solver {S}.
Arguments cex_cache {S}.
Arguments assignmentsTable {S}.

Section cex.
Context `{APInt, ExprIdentity} (opts : cex_options) {S : Type} (solver : SolverImpl S).
#[local] Open Scope sm_scope.
Abbreviation M := (SM (CexState S) solver_error).

Definition cex_call {A} (m : SM S solver_error A) : M A :=
  fun s => let '(r, s') := m (cex_solver s) in (r, mkCex s' (cex_cache s) (assignmentsTable s)).

(** [a->satisfies(key.begin(), key.end())]; the evaluation returns ([satisfies_spec]). *)
Definition satisfies_key (b : bindings_ty) (key : list expr) : bool :=
  default false (satisfies_all (mkAssignment false b) key).
Definition NullAssignment (a : option bindings_ty) : bool := match a with None => true | Some _ => false end.
Definition NonNullAssignment (a : option bindings_ty) : bool := match a with None => false | Some _ => true end.
Definition NullOrSatisfyingAssignment (key : list expr) (a : option bindings_ty) : bool :=
  match a with None => true | Some b => satisfies_key b key end.

Definition or_else {A} (o o' : option A) : option A := match o with Some a => Some a | None => o' end.
(** [searchForAssignment]: the outer [None] is false. *)
Definition searchForAssignment (key : list expr) (s : CexState S) : option (option bindings_ty) :=
  let superset := if CexCacheSuperSet opts then findSuperset compare NonNullAssignment key (cex_cache s) else None in
  or_else (lookup_set compare key (cex_cache s))
    (if CexCacheTryAll opts then
       or_else superset
         (or_else (findSubset compare NullAssignment key (cex_cache s))
            (Some <$> List.find (fun b => satisfies_key b key) (elements (assignmentsTable s))))
     else or_else superset (findSubset compare (NullOrSatisfyingAssignment key) key (cex_cache s))).
(** [lookupAssignment]: the key, and the result of a search that succeeds. *)
Definition query_key (query : Query) : list expr + list expr :=
  let key := set_of compare (q_constraints query) in
  let neg := Expr_createIsZero (q_expr query) in
  match as_constant neg with
  | Some CE => if isFalse CE then inl key else inr key
  | None => inr (set_insert compare neg key)
  end.
Definition lookupAssignment (query : Query) (s : CexState S) : list expr * option (option bindings_ty) :=
  match query_key query with
  | inl key => (key, Some None)
  | inr key => (key, searchForAssignment key s)
  end.
(** [getAssignment] *)
Definition cex_getAssignment (query : Query) : M (option bindings_ty) :=
  r <-- sm_gets (lookupAssignment query) ;;
  let '(key, found) := r in
  match found with
  | Some result => sm_ret result
  | None =>
      let objects := findSymbolicObjects key [] in
      values <-- cex_call (computeInitialValues solver query objects) ;;
      binding <--
        (match values with
         | Some values =>
             let b := bindings (Assignment_new objects values false) in
             sm_modify (fun s => mkCex (cex_solver s) (cex_cache s) ({[b]} ∪ assignmentsTable s)) ;;;
             solver_assert (negb (DebugCexCacheCheckBinding opts) || satisfies_key b key) ;;;
             sm_ret (Some b)
         | None => sm_ret None
         end) ;;
      sm_modify (fun s => mkCex (cex_solver s) (insert_set compare key binding (cex_cache s)) (assignmentsTable s)) ;;;
      sm_ret binding
  end.

(** [a->evaluate(e)] where the caller asserts that there is an assignment and that the result is a
    constant. *)
Definition cex_value (a : option bindings_ty) (e : expr) : M apint :=
  match a with
  | Some b =>
      match evaluate (mkAssignment false b) e with
      | Some (EConstant v) => sm_ret v
      | _ => sm_throw AssertFailed
      end
  | None => sm_throw AssertFailed
  end.
Definition cex_computeValidity (query : Query) : M Validity :=
  a <-- cex_getAssignment (withFalse query) ;;
  q <-- cex_value a (q_expr query) ;;
  if isTrue q then
    a <-- cex_getAssignment query ;; sm_ret (if a is Some _ then ValidUnknown else ValidTrue)
  else
    a <-- cex_getAssignment (Query_negateExpr query) ;; sm_ret (if a is Some _ then ValidUnknown else ValidFalse).
Definition cex_computeTruth (query : Query) : M bool :=
  known_false <--
    (if CexCacheExperimental opts then
       r <-- sm_gets (lookupAssignment (Query_negateExpr query)) ;; sm_ret (if r.2 is Some None then true else false)
     else sm_ret false) ;;
  if known_false : bool then sm_throw Failed
  else a <-- cex_getAssignment query ;; sm_ret (if a is Some _ then false else true).
Definition cex_computeValue (query : Query) : M expr :=
  a <-- cex_getAssignment (withFalse query) ;; v <-- cex_value a (q_expr query) ;; sm_ret (EConstant v).
Definition cex_computeInitialValues (query : Query) (objects : list Array) : M (option (list (list Z))) :=
  a <-- cex_getAssignment query ;;
  sm_ret (match a with
          | None => None
          | Some b => Some ((fun os => default (replicate (Z.to_nat (arr_size os)) 0) (b !! os)) <$> objects)
          end).
Definition CexCachingSolver : SolverImpl (CexState S) :=
  mkSolverImpl cex_computeTruth cex_computeValidity cex_computeValue cex_computeInitialValues.
End cex.

(** * What it promises *)

Section promises.
Context `{Laws : APIntLaws, Identity : ExprIdentityLaws, AssertPolicy} (sizes : string -> Z) (opts : cex_options).

(** An entry of the cache is right about its set. *)
Definition assignment_right (set : list expr) (a : option bindings_ty) : Prop :=
  match a with
  | Some b => bindings_ok b /\ Forall (allows (input_of_bindings sizes b)) set
  | None => forall σ, ~ Forall (holds σ) set
  end.
Definition cex_inv {S} (I : S -> Prop) (s : CexState S) : Prop :=
  I (cex_solver s) /\ wf_node compare (cex_cache s) /\
  (forall set a, lookup_set compare set (cex_cache s) = Some a -> assignment_right set a) /\
  (forall b, b ∈ assignmentsTable s -> bindings_ok b).
(** What an assignment says about a query. *)
Definition answers (q : Query) (a : option bindings_ty) : Prop :=
  match a with
  | Some b =>
      bindings_ok b /\ Forall (allows (input_of_bindings sizes b)) (q_constraints q) /\
      allows (input_of_bindings sizes b) (Expr_createIsZero (q_expr q))
  | None => never_false q
  end.

Lemma assignment_subset set set' a : (forall x, x ∈ set -> x ∈ set') ->
  match a with Some _ => assignment_right set' a | None => assignment_right set a end ->
  match a with Some _ => assignment_right set a | None => assignment_right set' a end.
Proof.
  intros Hs. destruct a as [b|]; cbn.
  - intros [Hb Ha]. split; [done|]. apply Forall_forall. intros x Hx. by apply (proj1 (Forall_forall _ _) Ha), Hs.
  - intros Hn σ Hh. apply (Hn σ), Forall_forall. intros x Hx. by apply (proj1 (Forall_forall _ _) Hh), Hs.
Qed.
Lemma satisfies_key_spec b key : bindings_ok b -> Forall (expr_ok sizes) key -> satisfies_key b key = true ->
  assignment_right key (Some b).
Proof.
  intros Hb Hk Hs. split; [done|]. unfold satisfies_key in Hs.
  destruct (satisfies_spec sizes (mkAssignment false b) key Hb Hk) as (r & Hr & Htrue & _).
  { apply Forall_forall. by intros. }
  rewrite Hr in Hs. cbn in Hs. subst r. by apply Htrue.
Qed.

(** ** Keys *)

Lemma key_exprs q : query_ok sizes q -> match query_key q with inl k | inr k => sorted compare k /\ Forall (expr_ok sizes) k end.
Proof.
  intros [He Hc]%Forall_cons. unfold query_key. destruct (set_of_spec compare (q_constraints q)) as [Hs Hin].
  assert (Forall (expr_ok sizes) (set_of compare (q_constraints q))) as Hk.
  { apply Forall_forall. intros x Hx. by apply (proj1 (Forall_forall _ _) Hc), Hin. }
  destruct (as_constant _) as [c|]; [by destruct (isFalse c)|]. split; [exact (set_insert_sorted compare _ _ Hs)|].
  apply Forall_forall. intros x Hx.
  destruct (proj1 (set_insert_elem compare _ _ _) Hx) as [->|Hx']; [by apply isZero_expr_ok|].
  by apply (proj1 (Forall_forall _ _) Hk).
Qed.
(** What is right about the key is an answer to the query. *)
Lemma key_answers q : well_typed (q_expr q) ->
  match query_key q with
  | inl _ => never_false q
  | inr key => forall a, assignment_right key a -> answers q a
  end.
Proof.
  intros Ht. unfold query_key. destruct (set_of_spec compare (q_constraints q)) as [_ Hin].
  assert (forall (P : expr -> Prop), Forall P (q_constraints q) <-> Forall P (set_of compare (q_constraints q))) as Hset.
  { intros P. rewrite !Forall_forall. split; intros HP x Hx; by apply HP, Hin. }
  pose proof (proj1 (isZero_shape (q_expr q) Bool Ht)) as Hnt.
  destruct (as_constant (Expr_createIsZero (q_expr q))) as [c|] eqn:Hneg.
  - destruct (Expr_createIsZero (q_expr q)) as [c'| | | | | | | | |] eqn:Hz; try done. injection Hneg as ->.
    apply type_constant in Hnt as [Hwf Hw]. pose proof (bool_value c Hwf Hw) as Hb.
    destruct (isFalse c) eqn:Hf.
    + intros σ _ Hh. rewrite Hz in Hh.
      apply eval_constant_inv in Hh as [Hc' _]. rewrite <- Hc' in Hf. discriminate Hf.
    + assert (c = bool_ap true) as ->.
      { destruct (negb (ap_val c =? 0)); [exact Hb|]. by rewrite Hb in Hf. }
      intros a Ha. destruct a as [b|]; cbn in *.
      * destruct Ha as [Hbind Ha]. split; [done|]. split; [by apply Hset|]. intros Hr.
        rewrite Hz in Hr. by apply eval_constant_inv in Hr as [? _].
      * intros σ Hh _. apply (Ha σ). by apply Hset.
  - intros a Ha. assert (forall P : expr -> Prop, Forall P (set_insert compare (Expr_createIsZero (q_expr q)) (set_of compare (q_constraints q)))
      <-> P (Expr_createIsZero (q_expr q)) /\ Forall P (q_constraints q)) as Hins.
    { intros P. rewrite Hset, !Forall_forall. setoid_rewrite (set_insert_elem compare). split.
      - intros HP. split; [apply HP; by left|]. intros x Hx. apply HP. by right.
      - intros [H1 H2] x [->|Hx]; auto. }
    destruct a as [b|]; cbn in *.
    + destruct Ha as [Hbind Ha]. apply Hins in Ha as [? ?]. done.
    + intros σ Hh Hr. by apply (Ha σ), Hins.
Qed.

(** ** The search *)

Lemma search_right {S} (I : S -> Prop) (s : CexState S) key a : cex_inv I s -> Forall (expr_ok sizes) key ->
  searchForAssignment opts key s = Some a -> assignment_right key a.
Proof.
  intros (_ & Hwf & Hright & Htab) Hk. unfold searchForAssignment.
  assert (forall p v, findSuperset compare p key (cex_cache s) = Some v -> (forall w, p w = true -> NonNullAssignment w = true) ->
    assignment_right key v) as Hsuper.
  { intros p v Hf Hp. destruct (findSuperset_sound compare p _ Hwf key v Hf) as (sup & [Hl Hpv] & Hsub).
    pose proof (assignment_subset key sup v Hsub) as Ha. destruct v as [b|]; [|by apply Hp in Hpv]. by apply Ha, Hright. }
  assert (forall p v, findSubset compare p key (cex_cache s) = Some v ->
    (forall w, p w = true -> NullOrSatisfyingAssignment key w = true) -> (forall b, v = Some b -> bindings_ok b) ->
    assignment_right key v) as Hsubset.
  { intros p v Hf Hp Hb. destruct (findSubset_sound compare p key _ v Hwf Hf) as (sub & [Hl Hpv] & Hsub).
    pose proof (assignment_subset sub key v Hsub) as Ha. apply Hright in Hl. destruct v as [b|]; [|by apply Ha].
    apply Hp in Hpv. cbn in Hpv. apply satisfies_key_spec; [by apply Hb|done|done]. }
  assert (forall p v, findSubset compare p key (cex_cache s) = Some v -> forall b, v = Some b -> bindings_ok b) as Hbind.
  { intros p v Hf b ->. destruct (findSubset_sound compare p key _ _ Hwf Hf) as (sub & [Hl _] & _).
    by apply Hright in Hl as [? _]. }
  unfold or_else. destruct (lookup_set compare key (cex_cache s)) as [v|] eqn:Hl; [intros [= <-]; by apply Hright|].
  destruct (CexCacheSuperSet opts).
  all: try (destruct (findSuperset compare NonNullAssignment key (cex_cache s)) as [v|] eqn:Hsp;
    [destruct (CexCacheTryAll opts); intros [= <-]; by eapply Hsuper|]).
  all: destruct (CexCacheTryAll opts);
    [|intros Hf; eapply Hsubset; [exact Hf|done|by eapply Hbind]].
  all: destruct (findSubset compare NullAssignment key (cex_cache s)) as [v|] eqn:Hsb;
    [intros [= <-]; eapply Hsubset; [exact Hsb|by intros []|by eapply Hbind]|].
  all: destruct (List.find _ _) as [b|] eqn:Hf; [|done]; intros [= <-]; apply List.find_some in Hf as [Hin Hsat];
    apply satisfies_key_spec; [|done|done]; by apply Htab, elem_of_elements, list_elem_of_In.
Qed.
Lemma cex_lookup_promise {S} (I : S -> Prop) q (s : CexState S) : query_ok sizes q -> cex_inv I s ->
  match lookupAssignment opts q s with
  | (_, Some a) => answers q a
  | (key, None) => query_key q = inr key
  end.
Proof.
  intros Hq Hs. pose proof (key_exprs q Hq) as Hk. pose proof (key_answers q (proj1 (proj1 (proj1 (Forall_cons _ _ _) Hq)))) as Ha.
  unfold lookupAssignment. destruct (query_key q) as [key|key]; [done|].
  destruct (searchForAssignment opts key s) as [a|] eqn:Hsr; [|done]. apply Ha. by eapply search_right; [..|by apply Hk|].
Qed.

(** ** The answers *)

Lemma key_arrays q key a : query_key q = inr key -> well_typed (q_expr q) ->
  a ∈ arrays (Expr_createIsZero (q_expr q)) \/ Exists (fun e => a ∈ arrays e) (q_constraints q) ->
  Exists (fun e => a ∈ arrays e) key.
Proof.
  intros Hk Ht Ha. unfold query_key in Hk. destruct (set_of_spec compare (q_constraints q)) as [_ Hin].
  assert (Exists (fun e => a ∈ arrays e) (q_constraints q) -> Exists (fun e => a ∈ arrays e) (set_of compare (q_constraints q))) as Hcs.
  { rewrite !Exists_exists. intros (e & He & Hae). exists e. split; [by apply Hin|done]. }
  destruct (as_constant (Expr_createIsZero (q_expr q))) as [c|] eqn:Hneg.
  - destruct (isFalse c); [done|]. injection Hk as <-. apply Hcs. destruct Ha as [Ha|]; [|done].
    destruct (Expr_createIsZero (q_expr q)); try done. by apply elem_of_nil in Ha.
  - injection Hk as <-. apply Exists_exists. destruct Ha as [Ha|Ha].
    + eexists. split; [apply (set_insert_elem compare); by left|done].
    + apply Hcs, Exists_exists in Ha as (e & He & Hae). exists e. split; [apply (set_insert_elem compare); by right|done].
Qed.
(** The arrays of the key are those whose values the solver is asked for. *)
Lemma key_covers q key : query_ok sizes q -> query_key q = inr key -> covers_arrays sizes (findSymbolicObjects key []) q.
Proof.
  intros Hq Hk. pose proof (key_exprs q Hq) as Hke. rewrite Hk in Hke. destruct Hke as [_ Hke].
  pose proof (proj1 (proj1 (proj1 (Forall_cons _ _ _) Hq))) as Ht. split.
  - apply Forall_forall. intros a [?%elem_of_nil|(e & He & Ha)%Exists_exists]%findSymbolicObjects_spec; [done|].
    apply (proj1 (Forall_forall _ _) (parts_ok_arrays sizes e (proj2 (proj1 (Forall_forall _ _) Hke e He)))), Ha.
  - apply Forall_forall. intros e He a Ha. apply findSymbolicObjects_spec. right. eapply key_arrays; [done|done|].
    apply elem_of_cons in He as [->|He]; [by left|right]. apply Exists_exists. by exists e.
Qed.
Lemma binding_right q key objects values : query_ok sizes q -> query_key q = inr key ->
  covers_arrays sizes objects q -> initial_ok q objects (Some values) ->
  let b := bindings (Assignment_new objects values false) in
  bindings_ok b /\ assignment_right key (Some b) /\ answers q (Some b).
Proof.
  intros Hq Hk [Ho _] (Hv & Hc & Hn) b. pose proof (proj1 (proj1 (proj1 (Forall_cons _ _ _) Hq))) as Ht.
  assert (bindings_ok b) as Hb by (by apply bindings_of_values).
  assert (forall e, allows (input_of (zip objects values)) e -> allows (input_of_bindings sizes b) e) as Hext.
  { intros e Ha Hr. apply Ha. unfold refuted, evals in *. rewrite <- Hr. apply eval_ext. intros name i.
    by apply input_of_zip. }
  assert (answers q (Some b)) as Hans.
  { split; [done|]. split; [|by apply Hext]. eapply Forall_impl; [exact Hc|done]. }
  split; [done|]. split; [|done]. split; [done|]. unfold query_key in Hk.
  destruct (set_of_spec compare (q_constraints q)) as [_ Hin]. destruct Hans as (_ & Hc' & Hn').
  assert (Forall (allows (input_of_bindings sizes b)) (set_of compare (q_constraints q))) as Hset.
  { apply Forall_forall. intros x Hx. by apply (proj1 (Forall_forall _ _) Hc'), Hin. }
  destruct (as_constant _) as [c|]; [by destruct (isFalse c); [|injection Hk as <-]|]. injection Hk as <-.
  apply Forall_forall. intros x Hx. destruct (proj1 (set_insert_elem compare _ _ _) Hx) as [->|Hx']; [done|].
  by apply (proj1 (Forall_forall _ _) Hset).
Qed.
Lemma none_right q key : query_key q = inr key -> never_false q -> well_typed (q_expr q) -> assignment_right key None.
Proof.
  intros Hk Hn Ht σ Hh. unfold query_key in Hk. destruct (set_of_spec compare (q_constraints q)) as [_ Hin].
  pose proof (proj1 (isZero_shape (q_expr q) Bool Ht)) as Hnt. destruct (as_constant _) as [c|] eqn:Hneg.
  - destruct (isFalse c) eqn:Hf; [done|]. injection Hk as <-. apply (Hn σ).
    + apply Forall_forall. intros x Hx. by apply (proj1 (Forall_forall _ _) Hh), Hin.
    + destruct (Expr_createIsZero (q_expr q)) as [c'| | | | | | | | |]; try done. injection Hneg as ->.
      apply type_constant in Hnt as [Hwf Hw]. pose proof (bool_value c Hwf Hw) as Hb.
      destruct (negb (ap_val c =? 0)); [|by rewrite Hb in Hf]. rewrite Hb. by apply eval_constant.
  - injection Hk as <-. apply (Hn σ).
    + apply Forall_forall. intros x Hx. apply (proj1 (Forall_forall _ _) Hh), (set_insert_elem compare). right. by apply Hin.
    + apply (proj1 (Forall_forall _ _) Hh), (set_insert_elem compare). by left.
Qed.

Lemma cex_call_promise {S A} (I : S -> Prop) (m : SM S solver_error A) P : promises I m P ->
  promises (cex_inv I) (cex_call m) P.
Proof.
  intros Hm s [Hs Hc]. specialize (Hm (cex_solver s) Hs). unfold cex_call.
  destruct (m (cex_solver s)) as [[a|e] s']; destruct Hm as [? ?]; (split; [split; [done|exact Hc]|done]).
Qed.
Lemma promises_modify {S A} (I : S -> Prop) f (k : SM S solver_error A) P : (forall s, I s -> I (f s)) ->
  promises I k P -> promises I (sm_bind (sm_modify f) (fun _ => k)) P.
Proof. intros Hf Hk s Hs. apply Hk. by apply Hf. Qed.
Lemma cache_insert_inv {S} (I : S -> Prop) key a (s : CexState S) : assignment_right key a -> cex_inv I s ->
  cex_inv I (mkCex (cex_solver s) (insert_set compare key a (cex_cache s)) (assignmentsTable s)).
Proof.
  intros Ha (Hi & Hw & Hr & Ht). split; [done|]. split; [by apply (insert_set_wf compare)|]. split; [|done].
  intros set a' Hl. cbn [cex_cache] in Hl. destruct (decide (set = key)) as [->|Hne].
  - rewrite (proj1 (lookup_insert_set compare key a _ key Hw) eq_refl) in Hl. by injection Hl as <-.
  - rewrite (proj2 (lookup_insert_set compare key a _ set Hw) Hne) in Hl. by apply Hr.
Qed.

Lemma getAssignment_promise {S} (solver : SolverImpl S) I q : impl_ok sizes solver I -> query_ok sizes q ->
  DebugCexCacheCheckBinding opts = false -> promises (cex_inv I) (cex_getAssignment opts solver q) (answers q).
Proof.
  intros Hs Hq Hdebug. unfold cex_getAssignment.
  assert (forall key, query_key q = inr key ->
    promises (cex_inv I) (sm_bind (cex_call (computeInitialValues solver q (findSymbolicObjects key []))) (fun values =>
      sm_bind (match values with
         | Some values =>
             sm_bind (sm_modify (fun s : CexState S => mkCex (cex_solver s) (cex_cache s)
               ({[bindings (Assignment_new (findSymbolicObjects key []) values false)]} ∪ assignmentsTable s))) (fun _ =>
             sm_bind (solver_assert (negb (DebugCexCacheCheckBinding opts) ||
               satisfies_key (bindings (Assignment_new (findSymbolicObjects key []) values false)) key)) (fun _ =>
             sm_ret (Some (bindings (Assignment_new (findSymbolicObjects key []) values false)))))
         | None => sm_ret None
         end) (fun binding =>
      sm_bind (sm_modify (fun s : CexState S => mkCex (cex_solver s) (insert_set compare key binding (cex_cache s)) (assignmentsTable s)))
        (fun _ => sm_ret binding)))) (answers q)) as Hmiss.
  { intros key Hk. pose proof (key_covers q key Hq Hk) as Hcov. pose proof (proj1 (proj1 (proj1 (Forall_cons _ _ _) Hq))) as Ht.
    eapply promises_bind; [by apply cex_call_promise, (initial_promise _ _ _ Hs)|]. intros values Hv.
    eapply (promises_bind _ _ _ (fun a => assignment_right key a /\ answers q a)).
    - destruct values as [values|]; [|apply promises_ret; split; [by apply (none_right q)|done]].
      destruct (binding_right q key _ values Hq Hk Hcov Hv) as (Hb & Hr & Ha).
      apply promises_modify; [|rewrite Hdebug; by apply promises_assert, promises_ret].
      intros s (? & ? & ? & Htab). split; [done|]. split; [done|]. split; [done|]. cbn.
      intros b [->%elem_of_singleton|?]%elem_of_union; [done|by apply Htab].
    - intros a [Hr Ha]. apply promises_modify; [|by apply promises_ret]. intros s. by apply cache_insert_inv. }
  apply promises_gets. intros s0 Hs0 s ->. pose proof (cex_lookup_promise I q s0 Hq Hs0) as Hl.
  destruct (lookupAssignment opts q s0) as [key [a|]]; [done|]. by apply (Hmiss key Hl).
Qed.

Lemma cex_value_promise {S} (I : CexState S -> Prop) q w a : type_of (q_expr q) = Some w -> parts_ok sizes (q_expr q) ->
  consistent q -> defined q -> answers (withFalse q) a ->
  promises I (cex_value a (q_expr q)) (fun v =>
    exists b, a = Some b /\ Forall (allows (input_of_bindings sizes b)) (q_constraints q) /\
      eval (input_of_bindings sizes b) (q_expr q) = Some v).
Proof.
  intros Ht Hr [σ Hσ] Hd Ha. destruct a as [b|].
  2: { exfalso. apply (Ha σ Hσ). apply (isZero_evals σ expr_false false). reflexivity. }
  destruct Ha as (Hb & Hc & _). destruct (Hd _ Hc) as [v Hv].
  destruct (evaluate_in_spec sizes (mkAssignment false b) (q_expr q) w [] Hb Ht Hr) as (r & vs & He & Hev & _); [constructor|].
  destruct (evaluated_value sizes _ _ r w Hev Ht Hr) as [_ Hval]; [done|].
  unfold cex_value, evaluate. rewrite He. cbn. rewrite (Hval v Hv). apply promises_ret. by exists b.
Qed.

(** The cache of counterexamples keeps the promise, with every choice of its options: an assignment
    reused for a query, whether it was found for the same set of constraints, for a superset, or for
    a subset it happens to satisfy, answers the query, and so does an unsatisfiable subset; no
    assertion fails, and the cache stays right. *)
Theorem cex_caching_promise {S} (solver : SolverImpl S) I : impl_ok sizes solver I -> DebugCexCacheCheckBinding opts = false ->
  impl_ok sizes (CexCachingSolver opts solver) (cex_inv I).
Proof.
  intros Hs Hdebug. pose proof (fun q Hq => getAssignment_promise solver I q Hs Hq Hdebug) as Hget. split; cbn.
  - intros q Hq Hc Hd. unfold cex_computeTruth. eapply (promises_bind _ _ _ (fun _ => True)).
    { destruct (CexCacheExperimental opts); [|by apply promises_ret]. apply promises_gets. by intros s0 ? s ->. }
    intros [] _; [intros s Hi; by split|]. eapply promises_bind; [by apply Hget|]. intros [b|] Ha; apply promises_ret.
    + destruct Ha as (_ & Ha & Hn). eexists. split; [exact Ha|]. by apply allows_isZero.
    + by apply never_false_true.
  - intros q Hq Hc Hd. pose proof (proj1 (proj1 (Forall_cons _ _ _) Hq)) as [Ht Hr]. unfold cex_computeValidity.
    eapply promises_bind; [by apply Hget, false_ok|]. intros a Ha.
    eapply promises_bind; [by eapply cex_value_promise|]. intros v (b & -> & Hall & Hv).
    pose proof (eval_type _ _ _ Hv) as Hw. unfold well_typed in Ht. rewrite Ht in Hw. injection Hw as Hw.
    destruct (bool_eval _ _ _ Hv (eq_sym Hw)) as [bv ->]. rewrite isTrue_bool. destruct bv.
    + eapply promises_bind; [by apply Hget|]. intros [b'|] Ha'; apply promises_ret; [|by apply never_false_true].
      split; [exists (input_of_bindings sizes b)|exists (input_of_bindings sizes b')].
      * split; [done|]. by apply holds_allows.
      * destruct Ha' as (_ & ? & ?). split; [done|by apply allows_isZero].
    + eapply promises_bind; [by apply Hget, negate_ok|]. intros [b'|] Ha'; apply promises_ret;
        [|by apply negate_must_true, never_false_true].
      split; [exists (input_of_bindings sizes b')|exists (input_of_bindings sizes b)].
      * destruct Ha' as (_ & ? & Hn). split; [done|]. apply not_holds_isZero. by apply allows_isZero.
      * split; [done|]. intros Hh. by apply (not_both _ _ Hh).
  - intros q ([w Ht] & Hr & Hcs) Hc Hd. unfold cex_computeValue.
    eapply promises_bind.
    { apply Hget. apply Forall_cons. split; [split; [reflexivity|by split; [apply Forall_nil|]]|exact Hcs]. }
    intros a Ha. eapply promises_bind; [by eapply cex_value_promise|]. intros v (b & -> & Hall & Hv).
    apply promises_ret. by exists (input_of_bindings sizes b), v.
  - intros q objects Hq Hcov. unfold cex_computeInitialValues. eapply promises_bind; [by apply Hget|].
    intros [b|] Ha; apply promises_ret; [|done]. destruct Ha as (Hb & Hc & Hn), Hcov as [Ho Hcov].
    set (values := (fun os => default (replicate (Z.to_nat (arr_size os)) 0) (b !! os)) <$> objects).
    assert (Forall2 values_of objects values) as Hv.
    { apply Forall2_fmap_r, Forall_Forall2_diag. eapply Forall_impl; [exact Ho|]. intros os [_ Hsz]. unfold compose.
      destruct (b !! os) as [bytes|] eqn:Hl; cbn; [exact (Hb os bytes Hl)|]. split; [rewrite length_replicate; lia|].
      apply Forall_replicate. done. }
    assert (forall e, (forall a, a ∈ arrays e -> a ∈ objects) -> allows (input_of_bindings sizes b) e ->
      allows (input_of (zip objects values)) e) as Htransfer.
    { intros e He Ha Href. apply Ha. unfold refuted, evals in *. unfold values in Href. rewrite (eval_zip sizes _ _ _ Ho He) in Href. rewrite <- Href.
      apply eval_ext. intros name i. unfold input_of_bytes, input_of_bindings.
      destruct (b !! mkArray name (sizes name)) as [bytes|]; cbn; [done|]. destruct (replicate _ _ !! _) as [x|] eqn:Hx; [|done].
      by apply lookup_replicate in Hx as [-> _]. }
    apply Forall_cons in Hcov as [Hce Hcc]. split; [done|]. split; [|by apply Htransfer].
    apply Forall_forall. intros e He. apply Htransfer; [by apply (proj1 (Forall_forall _ _) Hcc)|by apply (proj1 (Forall_forall _ _) Hc)].
Qed.
End promises.

(** ** A witness: a solver that tries inputs, behind the cache with all its searches *)

Definition searching_options : cex_options := mkCexOptions false true true true.
#[local] Existing Instance no_asserts.
Lemma cex_caching_promise_witness :
  impl_ok (fun _ => 1)
    (CexCachingSolver (H0 := sample_identity) searching_options (search_impl [[(sample_byte, [7])]; [(sample_byte, [8])]]))
    (cex_inv (H := sample_identity) (fun _ => 1) (fun _ => True)).
Proof.
  apply (cex_caching_promise (Identity := sample_identity_laws)); [apply search_impl_ok|reflexivity].
Defined.
