(* ===== verification/KIndependent.v ===== *)
(** The independent solver (klee/lib/Solver/IndependentSolver.cpp): a query is answered with the
    constraints only that share, directly or not, a part of an array with its expression; for an
    assignment, the constraints are split into factors that share nothing, which are solved one by
    one.  That nothing is lost by it. *)
From S2P Require Import Prelude Bits APInt KExpr KBuilder KBuilderSound KType KCreate KCreateShape KCreateSound KConstraints KReads Concolic PathTrace KSolver KEval.

(** * Sets of elements *)

Record IndependentElementSet := mkIES {
  ies_elements : gmap Array (gset Z); wholeObjects : gset Array; ies_exprs : list expr }.

(** One read of the constructor; [None] is the failed assertion of [getZExtValue]. *)
Definition ies_read (s : IndependentElementSet) (r : Array * expr) : option IndependentElementSet :=
  let '(array, index) := r in
  if bool_decide (array ∈ wholeObjects s) then Some s
  else
    match index with
    | EConstant CE =>
        i ← getZExtValue CE 32;
        Some (mkIES (<[array := {[i]} ∪ default ∅ (ies_elements s !! array)]> (ies_elements s)) (wholeObjects s) (ies_exprs s))
    | _ => Some (mkIES (delete array (ies_elements s)) ({[array]} ∪ wholeObjects s) (ies_exprs s))
    end.
Fixpoint ies_reads (s : IndependentElementSet) (rs : list (Array * expr)) : option IndependentElementSet :=
  match rs with [] => Some s | r :: rs => s ← ies_read s r; ies_reads s rs end.
Definition IndependentElementSet_new (e : expr) : option IndependentElementSet :=
  ies_reads (mkIES ∅ ∅ [e]) (findReads e).

(** [intersects] *)
Definition ies_intersects (s b : IndependentElementSet) : bool :=
  existsb (fun array => bool_decide (array ∈ wholeObjects b) || bool_decide (is_Some (ies_elements b !! array)))
    (elements (wholeObjects s)) ||
  existsb (fun it : Array * gset Z =>
    bool_decide (it.1 ∈ wholeObjects b) ||
    match ies_elements b !! it.1 with
    | Some it2 => existsb (fun i => bool_decide (i ∈ it2)) (elements it.2)
    | None => false
    end) (map_to_list (ies_elements s)).

(** [DenseSet::add], with whether the set has changed. *)
Definition dense_add (s b : gset Z) : gset Z * bool := (b ∪ s, negb (bool_decide (b ⊆ s))).
(** The two loops of [add]. *)
Definition add_whole (st : gmap Array (gset Z) * gset Array * bool) (array : Array) : gmap Array (gset Z) * gset Array * bool :=
  let '(els, whole, modified) := st in
  match els !! array with
  | Some _ => (delete array els, {[array]} ∪ whole, true)
  | None => if bool_decide (array ∈ whole) then (els, whole, modified) else (els, {[array]} ∪ whole, true)
  end.
Definition add_elements (whole : gset Array) (st : gmap Array (gset Z) * bool) (it : Array * gset Z) : gmap Array (gset Z) * bool :=
  let '(els, modified) := st in
  if bool_decide (it.1 ∈ whole) then st
  else
    match els !! it.1 with
    | None => (<[it.1 := it.2]> els, true)
    | Some it2 => let '(u, changed) := dense_add it2 it.2 in (<[it.1 := u]> els, modified || changed)
    end.
Definition ies_add (s b : IndependentElementSet) : IndependentElementSet * bool :=
  let '(els, whole, modified) := foldl add_whole (ies_elements s, wholeObjects s, false) (elements (wholeObjects b)) in
  let '(els, modified) := foldl (add_elements whole) (els, modified) (map_to_list (ies_elements b)) in
  (mkIES els whole (ies_exprs s ++ ies_exprs b), modified).

(** [calculateArrayReferences]; the order is that of the addresses, which is left open. *)
Definition calculateArrayReferences (s : IndependentElementSet) : list Array :=
  elements (dom (ies_elements s) ∪ wholeObjects s : gset Array).

(** * Factors *)

(** The innermost loop: what intersects [current], as it grows, is added to it. *)
Fixpoint absorb (current : IndependentElementSet) (factors keep : list IndependentElementSet) (doneLoop : bool) :
    IndependentElementSet * list IndependentElementSet * bool :=
  match factors with
  | [] => (current, keep, doneLoop)
  | compare :: factors =>
      if ies_intersects current compare then
        let '(current, modified) := ies_add current compare in
        absorb current factors keep (doneLoop && negb modified)
      else absorb current factors (keep ++ [compare]) doneLoop
  end.
(** One pass; the fuel is the number of factors. *)
Fixpoint merge_pass (fuel : nat) (factors done : list IndependentElementSet) (doneLoop : bool) :
    option (list IndependentElementSet * bool) :=
  match factors, fuel with
  | [], _ => Some (done, doneLoop)
  | _ :: _, O => None
  | current :: factors, S fuel =>
      let '(current, keep, doneLoop) := absorb current factors [] doneLoop in
      merge_pass fuel keep (done ++ [current]) doneLoop
  end.
Fixpoint merge_loop (fuel : nat) (factors : list IndependentElementSet) : option (list IndependentElementSet) :=
  match fuel with
  | O => None
  | S fuel =>
      '(factors, doneLoop) ← merge_pass (length factors) factors [] true;
      if doneLoop : bool then Some factors else merge_loop fuel factors
  end.
Section solver.
Context `{APInt}.
(** [getAllIndependentConstraintsSets]; [None] is a failed assertion, or fuel. *)
Definition getAllIndependentConstraintsSets (query : Query) : option (list IndependentElementSet) :=
  neg ← match as_constant (q_expr query) with
        | Some CE => if isFalse CE then Some [] else None
        | None => s ← IndependentElementSet_new (Expr_createIsZero (q_expr query)); Some [s]
        end;
  cs ← mapM IndependentElementSet_new (q_constraints query);
  merge_loop (S (length (neg ++ cs))) (neg ++ cs).

(** * Required constraints *)

Record closure_state := mkClosure {
  cl_closure : IndependentElementSet; cl_result : list expr;
  cl_worklist : list (expr * IndependentElementSet); cl_done : bool }.
(** The loop over the worklist. *)
Definition closure_step (s : closure_state) (it : expr * IndependentElementSet) : closure_state :=
  if ies_intersects it.2 (cl_closure s) then
    let '(closure, modified) := ies_add (cl_closure s) it.2 in
    mkClosure closure (cl_result s ++ [it.1]) (cl_worklist s) (cl_done s && negb modified)
  else mkClosure (cl_closure s) (cl_result s) (cl_worklist s ++ [it]) (cl_done s).
Fixpoint closure_loop (fuel : nat) (closure : IndependentElementSet) (result : list expr)
    (worklist : list (expr * IndependentElementSet)) : option closure_state :=
  match fuel with
  | O => None
  | S fuel =>
      let s := foldl closure_step (mkClosure closure result [] true) worklist in
      if cl_done s then Some s else closure_loop fuel (cl_closure s) (cl_result s) (cl_worklist s)
  end.
Definition constraint_pair (c : expr) : option (expr * IndependentElementSet) := s ← IndependentElementSet_new c; Some (c, s).
(** [getIndependentConstraints]: the state at the end, whose [result] are the required constraints. *)
Definition getIndependentConstraints (query : Query) : option closure_state :=
  closure ← IndependentElementSet_new (q_expr query);
  worklist ← mapM constraint_pair (q_constraints query);
  closure_loop (S (length worklist)) closure [] worklist.
End solver.

(** * The solver *)

Section independent.
Context `{APInt} {S : Type} (solver : SolverImpl S).
#[local] Open Scope sm_scope.
Abbreviation M := (SM S solver_error).

Definition ind_asserted {A} (o : option A) : M A := match o with Some a => sm_ret a | None => sm_throw AssertFailed end.
(** The query with the required constraints. *)
Definition required_query (query : Query) : M Query :=
  s <-- ind_asserted (getIndependentConstraints query) ;; sm_ret (mkQuery (cl_result s) (q_expr query)).
Definition independent_computeValidity (query : Query) : M Validity :=
  q <-- required_query query ;; computeValidity solver q.
Definition independent_computeTruth (query : Query) : M bool :=
  q <-- required_query query ;; computeTruth solver q.
Definition independent_computeValue (query : Query) : M expr :=
  q <-- required_query query ;; computeValue solver q.

(** [assertCreatedPointEvaluatesToTrue]; [None] is a failed assertion of its own. *)
Definition assigned_constant (assign : KAssignment) (e : expr) : option apint := r ← evaluate assign e; as_constant r.
Fixpoint none_false (assign : KAssignment) (cs : list expr) : option bool :=
  match cs with
  | [] => Some true
  | c :: cs => CE ← assigned_constant assign c; if isFalse CE then Some false else none_false assign cs
  end.
Definition assertCreatedPointEvaluatesToTrue (query : Query) (objects : list Array) (values : list (list Z))
    (retMap : bindings_ty) : option bool :=
  let assign := mkAssignment true (list_to_map (zip objects values) ∪ retMap) in
  ok ← none_false assign (q_constraints query);
  if ok : bool then CE ← assigned_constant assign (Expr_createIsZero (q_expr query)); Some (isTrue CE) else Some false.

(** The bytes of an array that is known already: those of the factor's elements are replaced.
    [None] is an index that is out of range. *)
Fixpoint put_bytes (indices : list Z) (from to : list Z) : option (list Z) :=
  match indices with
  | [] => Some to
  | i :: indices =>
      v ← from !! Z.to_nat i;
      if (i <? 0) || (Z.of_nat (length to) <=? i) then None else put_bytes indices from (<[Z.to_nat i := v]> to)
  end.
Definition put_answer (it : IndependentElementSet) (retMap : bindings_ty) (answer : Array * list Z) : option bindings_ty :=
  match retMap !! answer.1 with
  | None => Some (<[answer.1 := answer.2]> retMap)
  | Some bytes =>
      if Nat.eqb (length bytes) (length answer.2) then
        bytes ← put_bytes (elements (default ∅ (ies_elements it !! answer.1) : gset Z)) answer.2 bytes;
        Some (<[answer.1 := bytes]> retMap)
      else None
  end.
Fixpoint put_answers (it : IndependentElementSet) (retMap : bindings_ty) (answers : list (Array * list Z)) : option bindings_ty :=
  match answers with
  | [] => Some retMap
  | answer :: answers => retMap ← put_answer it retMap answer; put_answers it retMap answers
  end.
(** The loop over the factors; [None] is no solution. *)
Fixpoint solve_factors (factors : list IndependentElementSet) (retMap : bindings_ty) : M (option bindings_ty) :=
  match factors with
  | [] => sm_ret (Some retMap)
  | it :: factors =>
      let arraysInFactor := calculateArrayReferences it in
      solver_assert (Nat.leb 1 (length (ies_exprs it))) ;;;
      if Nat.eqb (length arraysInFactor) 0 then solve_factors factors retMap
      else
        answer <-- computeInitialValues solver (mkQuery (ies_exprs it) expr_false) arraysInFactor ;;
        match answer with
        | None => sm_ret None
        | Some tempValues =>
            solver_assert (Nat.eqb (length tempValues) (length arraysInFactor)) ;;;
            retMap <-- ind_asserted (put_answers it retMap (zip arraysInFactor tempValues)) ;;
            solve_factors factors retMap
        end
  end.
Definition values_for (retMap : bindings_ty) (arr : Array) : list Z :=
  default (replicate (Z.to_nat (arr_size arr)) 0) (retMap !! arr).
Definition independent_computeInitialValues (query : Query) (objects : list Array) : M (option (list (list Z))) :=
  factors <-- ind_asserted (getAllIndependentConstraintsSets query) ;;
  answer <-- solve_factors factors ∅ ;;
  match answer with
  | None => sm_ret None
  | Some retMap =>
      let values := values_for retMap <$> objects in
      ok <-- ind_asserted (assertCreatedPointEvaluatesToTrue query objects values retMap) ;;
      solver_assert ok ;;;
      sm_ret (Some values)
  end.
Definition IndependentSolver : SolverImpl S :=
  mkSolverImpl independent_computeTruth independent_computeValidity independent_computeValue independent_computeInitialValues.
End independent.

(** * Lemmas on sets of elements *)

(** The bytes of arrays a set stands for. *)
Definition covers (s : IndependentElementSet) (a : Array) (j : Z) : Prop :=
  a ∈ wholeObjects s \/ j ∈ (default ∅ (ies_elements s !! a) : gset Z).
#[export] Instance covers_dec s a j : Decision (covers s a j).
Proof. unfold covers. apply _. Defined.
Definition apart (s b : IndependentElementSet) : Prop := forall a j, covers s a j -> ~ covers b a j.
Definition same_sets (s b : IndependentElementSet) : Prop :=
  ies_elements s = ies_elements b /\ wholeObjects s = wholeObjects b.
(** A set knows some reads: it covers what they look at, and nothing else. *)
Record knows (s : IndependentElementSet) (R : Array * expr -> Prop) : Prop := {
  k_some a : is_Some (ies_elements s !! a) -> (a ∉ wholeObjects s) /\ exists j, covers s a j;
  k_covers r j : R r -> reads_at r.2 j -> covers s r.1 j;
  k_whole a : a ∈ wholeObjects s -> exists i, R (a, i);
  k_index a j : j ∈ (default ∅ (ies_elements s !! a) : gset Z) -> exists v, R (a, EConstant v) /\ ap_val v = j;
}.
Definition ies_reads_of (s : IndependentElementSet) (r : Array * expr) : Prop := exists e, e ∈ ies_exprs s /\ r ∈ all_reads e.
Definition ies_ok (s : IndependentElementSet) : Prop := ies_exprs s <> [] /\ knows s (ies_reads_of s).

Lemma apart_sym s b : apart s b -> apart b s.
Proof. intros H a j Hb Hs. by apply (H a j). Qed.
Lemma same_covers s s' a j : same_sets s s' -> covers s a j <-> covers s' a j.
Proof. unfold covers. by intros [-> ->]. Qed.
Lemma apart_same s s' b : same_sets s s' -> apart s b -> apart s' b.
Proof. intros Hs H a j Hc. apply H. by apply (same_covers s s'). Qed.
Lemma knows_ext s R R' : (forall r, R r <-> R' r) -> knows s R -> knows s R'.
Proof.
  intros HR [H1 H2 H3 H4]. split; [done| | |].
  - intros r j Hr. by apply H2, HR.
  - intros a [i Hi]%H3. exists i. by apply HR.
  - intros a j (v & Hv & ?)%H4. exists v. split; [by apply HR|done].
Qed.

Lemma existsb_false {A} (f : A -> bool) l x : existsb f l = false -> x ∈ l -> f x = false.
Proof.
  intros Hf Hx. destruct (f x) eqn:Hfx; [|done]. rewrite <- Hf. symmetry. apply existsb_exists. exists x.
  split; [by apply list_elem_of_In|done].
Qed.
Lemma default_some (m : gmap Array (gset Z)) a j : j ∈ (default ∅ (m !! a) : gset Z) <-> exists d, m !! a = Some d /\ j ∈ d.
Proof.
  destruct (m !! a) as [d|]; cbn; [|split; [by intros ?%elem_of_empty|by intros (? & [=] & _)]].
  split; [intros ?; by exists d|by intros (? & [= <-] & ?)].
Qed.
Lemma default_insert (m : gmap Array (gset Z)) a b d j :
  j ∈ (default ∅ (<[a := d]> m !! b) : gset Z) <-> (b = a /\ j ∈ d) \/ (b <> a /\ j ∈ (default ∅ (m !! b) : gset Z)).
Proof.
  destruct (decide (b = a)) as [->|Hne]; [rewrite lookup_insert_eq; cbn; tauto|].
  rewrite lookup_insert_ne by done. tauto.
Qed.
Lemma default_delete (m : gmap Array (gset Z)) a b j :
  j ∈ (default ∅ (delete a m !! b) : gset Z) <-> b <> a /\ j ∈ (default ∅ (m !! b) : gset Z).
Proof.
  destruct (decide (b = a)) as [->|Hne]; [rewrite lookup_delete_eq; cbn; rewrite elem_of_empty; tauto|].
  rewrite lookup_delete_ne by done. tauto.
Qed.
Lemma intersects_apart s b : ies_intersects s b = false -> apart s b.
Proof.
  unfold ies_intersects. intros [Hw He]%orb_false_iff a j [Hs|(d & Hd & Hj)%default_some] Hb.
  - pose proof (existsb_false _ _ a Hw (proj2 (elem_of_elements _ _) Hs)) as Hf. cbn in Hf.
    apply orb_false_iff in Hf as [Hf1%bool_decide_eq_false Hf2%bool_decide_eq_false].
    destruct Hb as [Hb|(d & Hd & _)%default_some]; [done|]. apply Hf2. by exists d.
  - pose proof (existsb_false _ _ (a, d) He (proj2 (elem_of_map_to_list _ _ _) Hd)) as Hf. cbn in Hf.
    apply orb_false_iff in Hf as [Hf1%bool_decide_eq_false Hf2].
    destruct Hb as [Hb|(d' & Hd' & Hj')%default_some]; [done|]. rewrite Hd' in Hf2.
    pose proof (existsb_false _ _ j Hf2 (proj2 (elem_of_elements _ _) Hj)) as Hf3. by apply bool_decide_eq_false in Hf3.
Qed.

(** ** The constructor *)

Lemma ies_read_spec s R r : knows s R -> type_of r.2 = Some Int32 ->
  exists s', ies_read s r = Some s' /\ knows s' (fun r' => R r' \/ r' = r) /\ ies_exprs s' = ies_exprs s.
Proof.
  intros [H1 H2 H3 H4] Ht. destruct r as [a i]. cbn in Ht. unfold ies_read.
  assert (forall b j, j ∈ (default ∅ (ies_elements s !! b) : gset Z) ->
    exists v, (R (b, EConstant v) \/ (b, EConstant v) = (a, i)) /\ ap_val v = j) as H4'
    by (intros b j (v & ? & ?)%H4; exists v; tauto).
  destruct (bool_decide_reflect (a ∈ wholeObjects s)) as [Hin|Hn].
  { exists s. split; [done|]. split; [|done]. split; [done| | |done].
    - intros r j [Hr| ->] Hj; [by eapply H2|by left].
    - intros b [i' ?]%H3. exists i'. by left. }
  destruct (is_const i) eqn:Hconst.
  - destruct i as [v| | | | | | | | |]; try done. apply type_constant in Ht as [_ Hw].
    unfold getZExtValue. rewrite Hw. change (Int32 <=? 32) with true. cbn [mbind option_bind].
    eexists. split; [done|]. split; [|done]. split; unfold covers; cbn.
    + intros b Hb%lookup_insert_is_Some. destruct (decide (b = a)) as [->|Hne].
      * split; [done|]. exists (ap_val v). right. apply default_insert. left. set_solver.
      * destruct (H1 b) as [? [j Hj]]; [by destruct Hb as [?|[_ ?]]|]. split; [done|]. exists j.
        destruct Hj as [?|Hj]; [by left|]. right. apply default_insert. by right.
    + intros r j Hr Hj. rewrite default_insert, elem_of_union, elem_of_singleton. destruct Hr as [Hr| ->].
      * destruct (H2 r j Hr Hj) as [?|?]; [by left|right]. destruct (decide (fst r = a)) as [Heq|?]; [left|by right].
        split; [done|]. right. by rewrite <- Heq.
      * right. left. split; [done|by left].
    + intros b [i ?]%H3. exists i. by left.
    + intros b j [[-> [->%elem_of_singleton|Hj]%elem_of_union]|[_ Hj]]%default_insert; [|by apply H4'..].
      exists v. split; [by right|done].
  - eexists. split; [by destruct i|]. split; [|done]. split; unfold covers; cbn.
    + intros b [Hne Hb]%lookup_delete_is_Some. destruct (H1 b Hb) as [? [j Hj]]. split; [set_solver|]. exists j.
      rewrite default_delete. destruct Hj; set_solver.
    + intros r j Hr Hj. rewrite default_delete, elem_of_union, elem_of_singleton. destruct Hr as [Hr| ->]; [|by left; left].
      destruct (H2 r j Hr Hj) as [?|?], (decide (fst r = a)); tauto.
    + intros b [->%elem_of_singleton|Hb]%elem_of_union; [exists i; by right|]. destruct (H3 b Hb) as [i' ?]. exists i'. tauto.
    + intros b j [_ Hj]%default_delete. by apply H4'.
Qed.
Lemma ies_reads_spec rs : forall s R, knows s R -> Forall (fun r => type_of r.2 = Some Int32) rs ->
  exists s', ies_reads s rs = Some s' /\ knows s' (fun r => R r \/ r ∈ rs) /\ ies_exprs s' = ies_exprs s.
Proof.
  induction rs as [|r rs IH]; intros s R Hs Ht; cbn [ies_reads].
  { exists s. split; [done|]. split; [|done]. apply (knows_ext s R); [|done]. intros r. rewrite elem_of_nil. tauto. }
  apply Forall_cons in Ht as [Hr Ht]. destruct (ies_read_spec s R r Hs Hr) as (s1 & -> & Hs1 & He1). cbn [mbind option_bind].
  destruct (IH s1 _ Hs1 Ht) as (s' & -> & Hs' & He'). exists s'. split; [done|]. split; [|congruence].
  eapply knows_ext; [|exact Hs']. intros r'. cbn. rewrite elem_of_cons. tauto.
Qed.
Lemma IES_new_spec sizes e : parts_ok sizes e ->
  exists s, IndependentElementSet_new e = Some s /\ ies_ok s /\ ies_exprs s = [e].
Proof.
  intros Hr. unfold IndependentElementSet_new.
  destruct (ies_reads_spec (findReads e) (mkIES ∅ ∅ [e]) (fun _ => False)) as (s & -> & Hs & He).
  - split; unfold covers; cbn.
    + intros a. rewrite lookup_empty. by intros [? ?].
    + done.
    + intros a. set_solver.
    + intros a j. rewrite lookup_empty. by intros ?%elem_of_empty.
  - apply Forall_forall. intros r Hin%findReads_spec. by apply (proj1 (Forall_forall _ _) (proj1 Hr)).
  - exists s. split; [done|]. split; [|done]. split; [by rewrite He|]. eapply knows_ext; [|exact Hs].
    intros r. cbn. unfold ies_reads_of. rewrite findReads_spec, He. split.
    + intros [[]|?]. exists e. split; [by apply list_elem_of_singleton|done].
    + intros (e' & ->%list_elem_of_singleton & ?). by right.
Qed.

(** ** Addition *)

Lemma add_whole_spec L : forall els whole m els' whole' m', foldl add_whole (els, whole, m) L = (els', whole', m') ->
  (forall a, a ∈ whole' <-> a ∈ whole \/ a ∈ L) /\ (forall a, els' !! a = if decide (a ∈ L) then None else els !! a) /\
  (m' = false -> m = false /\ els' = els /\ whole' = whole).
Proof.
  induction L as [|x L IH]; intros els whole m els' whole' m'; cbn [foldl].
  { intros [= -> -> ->]. split; [|split; [|done]].
    - intros a. rewrite elem_of_nil. tauto.
    - intros a. by destruct (decide (a ∈ [])) as [?%elem_of_nil|]. }
  destruct (add_whole (els, whole, m) x) as [[els1 whole1] m1] eqn:Hx. intros (H1 & H2 & H3)%IH.
  assert ((forall a, a ∈ whole1 <-> a = x \/ a ∈ whole) /\ (forall a, els1 !! a = if decide (a = x) then None else els !! a) /\
    (m1 = false -> m = false /\ els1 = els /\ whole1 = whole)) as (Hw & He & Hm).
  { unfold add_whole in Hx. destruct (els !! x) as [d|] eqn:Hl; [|destruct (bool_decide_reflect (x ∈ whole)) as [Hin|Hn]];
      injection Hx as <- <- <-; (split; [|split; [|done]]); intros a; rewrite ?elem_of_union, ?elem_of_singleton;
      try (by destruct (decide (a = x)) as [->|]; [|tauto]); try tauto.
    - destruct (decide (a = x)) as [->|Hne]; [apply lookup_delete_eq|by apply lookup_delete_ne].
    - split; [tauto|]. by intros [->|?]. }
  split; [|split].
  - intros a. rewrite H1, Hw, elem_of_cons. tauto.
  - intros a. rewrite H2, He. destruct (decide (a ∈ L)) as [Hin|Hn], (decide (a ∈ x :: L)) as [Hin'|Hn'];
      rewrite elem_of_cons in *; try tauto; destruct (decide (a = x)); tauto.
  - intros Hf. destruct (H3 Hf) as (-> & -> & ->). by apply Hm.
Qed.
Lemma add_elements_spec whole L : forall els m els' m', foldl (add_elements whole) (els, m) L = (els', m') ->
  (forall a j, j ∈ (default ∅ (els' !! a) : gset Z) <->
    j ∈ (default ∅ (els !! a) : gset Z) \/ (a ∉ whole) /\ exists d, (a, d) ∈ L /\ j ∈ d) /\
  (forall a, is_Some (els' !! a) <-> is_Some (els !! a) \/ (a ∉ whole) /\ a ∈ L.*1) /\
  (m' = false -> m = false /\ els' = els).
Proof.
  induction L as [|[x d] L IH]; intros els m els' m'; cbn [foldl].
  { intros [= -> ->]. split; [|split; [|done]].
    - intros a j. split; [by left|]. intros [?|(_ & d & ?%elem_of_nil & _)]; done.
    - intros a. cbn. rewrite elem_of_nil. tauto. }
  destruct (add_elements whole (els, m) (x, d)) as [els1 m1] eqn:Hx. intros (H1 & H2 & H3)%IH.
  assert ((forall a j, j ∈ (default ∅ (els1 !! a) : gset Z) <->
      j ∈ (default ∅ (els !! a) : gset Z) \/ (a ∉ whole) /\ a = x /\ j ∈ d) /\
    (forall a, is_Some (els1 !! a) <-> is_Some (els !! a) \/ (a ∉ whole) /\ a = x) /\
    (m1 = false -> m = false /\ els1 = els)) as (Hj & Hs & Hm).
  { unfold add_elements, dense_add in Hx. cbn in Hx. destruct (bool_decide_reflect (x ∈ whole)) as [Hin|Hn].
    - injection Hx as <- <-. split; [|split; [|done]].
      + intros a j. split; [by left|]. by intros [?|(? & -> & _)].
      + intros a. split; [by left|]. by intros [?|(? & ->)].
    - destruct (els !! x) as [d'|] eqn:Hl; injection Hx as <- <-; (split; [|split]).
      + intros a j. rewrite default_insert, elem_of_union. destruct (decide (a = x)) as [->|]; [|tauto].
        rewrite Hl. cbn. tauto.
      + intros a. rewrite lookup_insert_is_Some'. destruct (decide (a = x)) as [->|]; [|intuition congruence].
        rewrite Hl. intuition eauto.
      + intros [-> Hsub%negb_false_iff%bool_decide_eq_true]%orb_false_iff. split; [done|].
        apply insert_id. rewrite Hl. f_equal. set_solver.
      + intros a j. rewrite default_insert. destruct (decide (a = x)) as [->|]; [|tauto].
        rewrite Hl. cbn. rewrite elem_of_empty. tauto.
      + intros a. rewrite lookup_insert_is_Some'. destruct (decide (a = x)) as [->|]; intuition congruence.
      + done. }
  split; [|split].
  - intros a j. rewrite H1, Hj. split.
    + intros [[?|(? & -> & ?)]|(? & d' & ? & ?)]; [by left| |]; right; (split; [done|]).
      * exists d. split; [by left|done].
      * exists d'. split; [by right|done].
    + intros [?|(? & d' & [[= -> ->]|?]%elem_of_cons & ?)]; [tauto|tauto|]. right. split; [done|]. by exists d'.
  - intros a. rewrite H2, Hs. cbn. rewrite elem_of_cons. tauto.
  - intros Hf. destruct (H3 Hf) as [-> ->]. by apply Hm.
Qed.
Lemma ies_add_spec s b s' m : ies_add s b = (s', m) -> ies_ok s -> ies_ok b ->
  ies_ok s' /\ ies_exprs s' = ies_exprs s ++ ies_exprs b /\ (forall a j, covers s' a j <-> covers s a j \/ covers b a j) /\
  (m = false -> same_sets s s').
Proof.
  unfold ies_add. destruct (foldl add_whole _ _) as [[els1 whole1] m1] eqn:Hw.
  destruct (foldl (add_elements whole1) _ _) as [els2 m2] eqn:He. intros [= <- <-] [Hne Hs] [_ Hb].
  apply add_whole_spec in Hw as (Hw1 & Hw2 & Hw3). apply add_elements_spec in He as (He1 & He2 & He3).
  assert (forall a, a ∈ whole1 <-> a ∈ wholeObjects s \/ a ∈ wholeObjects b) as Hw by (intros a; by rewrite Hw1, elem_of_elements).
  assert (forall a j, j ∈ (default ∅ (els2 !! a) : gset Z) <->
    (a ∉ wholeObjects b) /\ j ∈ (default ∅ (ies_elements s !! a) : gset Z) \/
    (a ∉ whole1) /\ j ∈ (default ∅ (ies_elements b !! a) : gset Z)) as Hel.
  { intros a j. rewrite He1, Hw2. setoid_rewrite elem_of_map_to_list. rewrite <- default_some.
    destruct (decide (a ∈ elements (wholeObjects b))) as [Hin|Hn]; rewrite elem_of_elements in *; cbn; [rewrite elem_of_empty|]; tauto. }
  assert (forall a j, covers (mkIES els2 whole1 (ies_exprs s ++ ies_exprs b)) a j <-> covers s a j \/ covers b a j) as Hcov.
  { intros a j. unfold covers. cbn. rewrite Hel, Hw. destruct (decide (a ∈ wholeObjects b)), (decide (a ∈ wholeObjects s)); tauto. }
  split; [split; [|split]|split; [done|split; [exact Hcov|]]].
  - cbn. by destruct (ies_exprs s).
  - cbn. intros a Ha. apply He2 in Ha. rewrite Hw2 in Ha.
    assert ((a ∉ whole1) /\ (is_Some (ies_elements s !! a) \/ is_Some (ies_elements b !! a))) as [Hn Hsome].
    { destruct Ha as [Ha|[Hn Hin]].
      - destruct (decide _) as [?|Hn]; [by destruct Ha|]. rewrite elem_of_elements in Hn.
        split; [|by left]. rewrite Hw. intros [?|?]; [|done]. by apply (k_some _ _ Hs a).
      - split; [done|]. right. apply list_elem_of_fmap in Hin as ([a' d] & -> & Hin%elem_of_map_to_list). by exists d. }
    split; [done|]. destruct Hsome as [H|H]; [destruct (k_some _ _ Hs a H) as [_ [j Hj]]|destruct (k_some _ _ Hb a H) as [_ [j Hj]]];
      exists j; apply Hcov; tauto.
  - cbn. intros r j (e & [Hin|Hin]%elem_of_app & Hr) Hj; apply Hcov; [left; apply (k_covers _ _ Hs)|right; apply (k_covers _ _ Hb)];
      try done; by exists e.
  - cbn. intros a [Ha|Ha]%Hw; [destruct (k_whole _ _ Hs a Ha) as (i & e & ? & ?)|destruct (k_whole _ _ Hb a Ha) as (i & e & ? & ?)];
      exists i, e; (split; [apply elem_of_app; tauto|done]).
  - cbn. intros a j [[_ Hj]|[_ Hj]]%Hel;
      [destruct (k_index _ _ Hs a j Hj) as (v & (e & ? & ?) & ?)|destruct (k_index _ _ Hb a j Hj) as (v & (e & ? & ?) & ?)];
      exists v; (split; [|done]); exists e; (split; [apply elem_of_app; tauto|done]).
  - intros Hf. destruct (He3 Hf) as [-> ->]. destruct (Hw3 eq_refl) as (_ & -> & ->). by split.
Qed.

(** ** Factors *)

(** The same expressions, in other sets. *)
Definition same_exprs (fs fs' : list IndependentElementSet) : Prop :=
  forall e, (exists f, f ∈ fs /\ e ∈ ies_exprs f) <-> (exists f, f ∈ fs' /\ e ∈ ies_exprs f).
Lemma same_exprs_Exists fs fs' :
  (forall e, Exists (fun f => e ∈ ies_exprs f) fs <-> Exists (fun f => e ∈ ies_exprs f) fs') <-> same_exprs fs fs'.
Proof. unfold same_exprs. by setoid_rewrite Exists_exists. Qed.

Lemma absorb_spec fs : forall c keep d c' keep' d', absorb c fs keep d = (c', keep', d') ->
  ies_ok c -> Forall ies_ok fs ->
  exists kept, keep' = keep ++ kept /\ ies_ok c' /\ kept ⊆ fs /\ same_exprs (c' :: kept) (c :: fs) /\
    (length kept <= length fs)%nat /\ (d = true -> d' = false -> (length kept < length fs)%nat) /\
    (d' = true -> d = true /\ same_sets c c' /\ Forall (apart c') kept).
Proof.
  induction fs as [|f fs IH]; intros c keep d c' keep' d'; cbn [absorb].
  { intros [= <- <- <-] Hc _. exists []. rewrite app_nil_r. by split_and!; [..|congruence|]. }
  intros Ha Hc [Hf Hfs]%Forall_cons. destruct (ies_intersects c f) eqn:Hi.
  - destruct (ies_add c f) as [c1 m] eqn:Hadd. destruct (ies_add_spec c f c1 m Hadd Hc Hf) as (Hc1 & He1 & _ & Hsame).
    destruct (IH _ _ _ _ _ _ Ha Hc1 Hfs) as (kept & -> & Hc' & Hsub & Hex & Hlen & Hdec & Hd). exists kept. split; [done|].
    split; [done|]. split; [set_solver|]. split; [|split; [cbn; lia|split; [cbn; lia|]]].
    + apply same_exprs_Exists. intros e. rewrite (proj2 (same_exprs_Exists _ _) Hex e), !Exists_cons, He1, elem_of_app. tauto.
    + intros Hd'. destruct (Hd Hd') as ([-> Hm%negb_true_iff]%andb_true_iff & [H1 H2] & Hap). split; [done|]. split; [|done].
      destruct (Hsame Hm) as [H3 H4]. split; congruence.
  - destruct (IH _ _ _ _ _ _ Ha Hc Hfs) as (kept & -> & Hc' & Hsub & Hex & Hlen & Hdec & Hd). exists (f :: kept).
    split; [by rewrite <- app_assoc|]. split; [done|]. split; [set_solver|]. split; [|split; [cbn; lia|split]].
    + apply same_exprs_Exists. intros e. pose proof (proj2 (same_exprs_Exists _ _) Hex e) as He.
      rewrite !Exists_cons in He. rewrite !Exists_cons. tauto.
    + cbn. intros H1 H2. specialize (Hdec H1 H2). lia.
    + intros Hd'. destruct (Hd Hd') as (-> & Hss & Hap). split; [done|]. split; [done|]. constructor; [|done].
      eapply apart_same; [exact Hss|by apply intersects_apart].
Qed.
Lemma merge_pass_spec fuel : forall fs done_ d, (length fs <= fuel)%nat -> Forall ies_ok fs ->
  exists res d', merge_pass fuel fs done_ d = Some (done_ ++ res, d') /\ Forall ies_ok res /\ same_exprs res fs /\
    (length res <= length fs)%nat /\ (d = true -> d' = false -> (length res < length fs)%nat) /\
    (d' = true -> d = true /\ ForallOrdPairs apart res /\ Forall (fun f => exists k, k ∈ fs /\ same_sets k f) res).
Proof.
  induction fuel as [|fuel IH]; intros [|c fs] done_ d Hlen Hok; cbn [merge_pass]; try (cbn in Hlen; lia).
  1-2: exists [], d; rewrite app_nil_r; split_and!; try done; try congruence; intros ->; split_and!; try done; constructor.
  apply Forall_cons in Hok as [Hc Hfs]. destruct (absorb c fs [] d) as [[c1 keep] d1] eqn:Ha.
  destruct (absorb_spec _ _ _ _ _ _ _ Ha Hc Hfs) as (kept & -> & Hc1 & Hsub & Hex & Hl1 & Hdec1 & Hd1). cbn [app] in *.
  assert (Forall ies_ok kept) as Hkept by (apply Forall_forall; intros x Hx; by apply (proj1 (Forall_forall _ _) Hfs), Hsub).
  destruct (IH kept (done_ ++ [c1]) d1) as (res & d' & -> & Hres & Hex' & Hl2 & Hdec2 & Hd2); [cbn in Hlen; lia|done|].
  exists (c1 :: res), d'. split; [by rewrite <- app_assoc|]. split; [by constructor|]. split; [|split; [cbn; lia|split]].
  - apply same_exprs_Exists. intros e. rewrite <- (proj2 (same_exprs_Exists _ _) Hex e), !Exists_cons.
    by rewrite (proj2 (same_exprs_Exists _ _) Hex' e).
  - cbn. intros Hd Hd'. destruct d1; [specialize (Hdec2 eq_refl Hd'); lia|specialize (Hdec1 Hd eq_refl); lia].
  - intros Hd'. destruct (Hd2 Hd') as (-> & Hpairs & Hsame). destruct (Hd1 eq_refl) as (-> & Hss & Hap). split; [done|].
    assert (Forall (fun f => exists k, k ∈ kept /\ same_sets k f) res) as Hsame' by done.
    split; [constructor; [|done]|constructor].
    + apply List.Forall_forall. intros f Hf%list_elem_of_In. destruct (proj1 (Forall_forall _ _) Hsame f Hf) as (k & Hk & Hkf).
      apply apart_sym, (apart_same k); [done|]. apply apart_sym, (proj1 (Forall_forall _ _) Hap k Hk).
    + exists c. split; [by left|done].
    + eapply Forall_impl; [exact Hsame|]. intros f (k & Hk & ?). exists k. split; [by right; apply Hsub|done].
Qed.
Lemma merge_loop_spec fuel : forall fs, (length fs < fuel)%nat -> Forall ies_ok fs ->
  exists res, merge_loop fuel fs = Some res /\ Forall ies_ok res /\ same_exprs res fs /\ ForallOrdPairs apart res.
Proof.
  induction fuel as [|fuel IH]; intros fs Hlen Hok; [lia|]. cbn [merge_loop].
  destruct (merge_pass_spec (length fs) fs [] true (le_n _) Hok) as (res & d & -> & Hres & Hex & _ & Hdec & Hd).
  cbn [mbind option_bind app]. destruct d; [exists res; destruct (Hd eq_refl) as (_ & ? & _); done|].
  destruct (IH res) as (res' & -> & ? & Hex' & ?); [specialize (Hdec eq_refl eq_refl); lia|done|]. exists res'.
  repeat (split; [done|]). split; [|done]. intros e. by rewrite (Hex' e).
Qed.

(** ** Required constraints *)

(** A pair of the worklist. *)
Definition pair_ok (x : expr * IndependentElementSet) : Prop := ies_ok x.2 /\ ies_exprs x.2 = [x.1].
Record closure_ok (e0 : expr) (s : closure_state) : Prop := {
  co_ok : ies_ok (cl_closure s);
  co_exprs : ies_exprs (cl_closure s) = e0 :: cl_result s;
}.
Lemma closure_step_spec e0 s x : closure_ok e0 s -> pair_ok x -> let s1 := closure_step s x in
  closure_ok e0 s1 /\
  (cl_result s1 = cl_result s ++ [x.1] /\ cl_worklist s1 = cl_worklist s /\
     (cl_done s1 = true -> cl_done s = true /\ same_sets (cl_closure s) (cl_closure s1)) \/
   cl_result s1 = cl_result s /\ cl_worklist s1 = cl_worklist s ++ [x] /\ cl_done s1 = cl_done s /\
     cl_closure s1 = cl_closure s /\ apart (cl_closure s) x.2).
Proof.
  intros [Hc He] [Hx Hxe]. unfold closure_step. destruct (ies_intersects x.2 (cl_closure s)) eqn:Hi.
  - destruct (ies_add (cl_closure s) x.2) as [c1 m] eqn:Hadd. destruct (ies_add_spec _ _ _ _ Hadd Hc Hx) as (Hc1 & He1 & _ & Hsame).
    cbn. split; [split; cbn; [done|by rewrite He1, He, Hxe]|]. left. split_and!; [done..|].
    intros [-> Hm%negb_true_iff]%andb_true_iff. auto.
  - cbn. split; [by split|]. right. split_and!; try done. by apply apart_sym, intersects_apart.
Qed.
(** One pass over the worklist [L]. *)
Record closure_pass (s s' : closure_state) (L : list (expr * IndependentElementSet)) : Prop := {
  cp_parts : exists res kept, cl_result s' = cl_result s ++ res /\ cl_worklist s' = cl_worklist s ++ kept /\
    (forall x, x ∈ kept -> x ∈ L) /\ (forall c, c ∈ res \/ c ∈ kept.*1 <-> c ∈ L.*1) /\ (length kept <= length L)%nat /\
    (cl_done s = true -> cl_done s' = false -> (length kept < length L)%nat) /\
    (cl_done s' = true -> Forall (fun x => apart (cl_closure s') x.2) kept);
  cp_done : cl_done s' = true -> cl_done s = true /\ same_sets (cl_closure s) (cl_closure s');
}.
Lemma closure_fold_spec e0 L : forall s, closure_ok e0 s -> Forall pair_ok L ->
  closure_ok e0 (foldl closure_step s L) /\ closure_pass s (foldl closure_step s L) L.
Proof.
  induction L as [|x L IH]; intros s Hs HL; cbn [foldl].
  { split; [done|]. split; [|by split]. exists [], []. rewrite !app_nil_r. cbn. split_and!; try done; [|congruence].
    intros c. rewrite elem_of_nil. tauto. }
  apply Forall_cons in HL as [Hx HL]. destruct (closure_step_spec e0 s x Hs Hx) as [Hs1 Hcase].
  destruct (IH _ Hs1 HL) as [Hs' [(res & kept & Hr & Hw & Hin & Hel & Hlen & Hdec & Hap) Hdone]]. split; [done|].
  destruct Hcase as [(Hr1 & Hw1 & Hd1)|(Hr1 & Hw1 & Hd1 & Hc1 & Hap1)]; rewrite Hr1, Hw1 in *.
  - split; [|intros [Hdd [H1 H2]]%Hdone; destruct (Hd1 Hdd) as [? [H3 H4]]; by repeat split; congruence].
    exists (x.1 :: res), kept. rewrite Hr, <- app_assoc. cbn [app length]. split_and!; try done; try lia.
    + intros y Hy. right. by apply Hin.
    + intros c. cbn. rewrite !elem_of_cons, <- Hel. tauto.
  - rewrite Hd1, Hc1 in *. split; [|exact Hdone]. exists res, (x :: kept). rewrite Hw, <- app_assoc. cbn [app length].
    split_and!; try done; try lia.
    + intros y [->|Hy]%elem_of_cons; [by left|right; by apply Hin].
    + intros c. cbn. rewrite !elem_of_cons, <- Hel. tauto.
    + intros H1 H2. specialize (Hdec H1 H2). lia.
    + intros Hd. constructor; [|by apply Hap]. destruct (Hdone Hd) as [_ Hsame]. by eapply apart_same.
Qed.
Lemma closure_loop_spec fuel : forall e0 closure result L, (length L < fuel)%nat ->
  closure_ok e0 (mkClosure closure result [] true) -> Forall pair_ok L ->
  exists s, closure_loop fuel closure result L = Some s /\ closure_ok e0 s /\
    (forall c, c ∈ cl_result s \/ c ∈ (cl_worklist s).*1 <-> c ∈ result \/ c ∈ L.*1) /\
    Forall pair_ok (cl_worklist s) /\ Forall (fun x => apart (cl_closure s) x.2) (cl_worklist s).
Proof.
  induction fuel as [|fuel IH]; intros e0 closure result L Hlen Hc HL; [lia|]. cbn [closure_loop].
  destruct (closure_fold_spec e0 L _ Hc HL) as [Hs [(res & kept & Hr & Hw & Hin & Hel & _ & Hdec & Hap) _]].
  set (s := foldl closure_step _ L) in *. cbn in Hr, Hw.
  assert (Forall pair_ok kept) as Hk by (apply Forall_forall; intros x Hx; by apply (proj1 (Forall_forall _ _) HL), Hin).
  destruct (cl_done s) eqn:Hd.
  - exists s. rewrite Hr, Hw. split_and!; try done; [|by apply Hap]. intros c. rewrite elem_of_app, <- Hel. tauto.
  - destruct (IH e0 (cl_closure s) (cl_result s) kept) as (s' & Hl & Hok & Hels & Hp & Hq); [specialize (Hdec eq_refl eq_refl); lia| |done|].
    { destruct Hs as [? ?]. by split. }
    exists s'. rewrite Hw. split_and!; [exact Hl|done| |done..].
    intros c. rewrite Hels, Hr, elem_of_app, <- Hel. tauto.
Qed.

(** * Independence *)

Section independence.
Context `{Laws : APIntLaws, AssertPolicy} (sizes : string -> Z).

Definition set_ok (s : IndependentElementSet) : Prop := ies_ok s /\ Forall (parts_ok sizes) (ies_exprs s).
Lemma set_read s e r : set_ok s -> e ∈ ies_exprs s -> r ∈ all_reads e -> read_ok sizes r.
Proof. intros [_ Hr] He Hin. exact (proj1 (Forall_forall _ _) (proj1 (proj1 (Forall_forall _ _) Hr e He)) r Hin). Qed.
(** A set covers bytes of arrays of its expressions only. *)
Lemma covers_array s a j : set_ok s -> covers s a j -> array_ok sizes a.
Proof.
  intros Hs Hc. assert (exists i, ies_reads_of s (a, i)) as (i & e & He & Hin).
  { destruct (proj2 (proj1 Hs)) as [_ _ Hw Hi], Hc as [Hc|Hc]; [by apply Hw|]. destruct (Hi a j Hc) as (v & ? & _). by exists (EConstant v). }
  by apply (set_read s e (a, i) Hs He Hin).
Qed.
(** Inputs that agree on the bytes of a set give its expressions the same values. *)
Lemma covered_eval s σ σ' e : set_ok s -> e ∈ ies_exprs s ->
  (forall a j, covers s a j -> wrap 8 (σ (arr_name a) j) = wrap 8 (σ' (arr_name a) j)) -> eval σ e = eval σ' e.
Proof.
  intros Hs He Hag. apply eval_agree, Forall_forall. intros r Hr j Hj. apply Hag.
  apply (k_covers _ _ (proj2 (proj1 Hs))); [by exists e|done].
Qed.

(** The input that is [σ1] on the bytes of a set and [σ2] elsewhere. *)
Definition combine (s : IndependentElementSet) (σ1 σ2 : assignment) : assignment := fun name j =>
  if decide (covers s (mkArray name (sizes name)) j) then σ1 name j else σ2 name j.
Lemma combine_in s σ1 σ2 e : set_ok s -> e ∈ ies_exprs s -> eval (combine s σ1 σ2) e = eval σ1 e.
Proof.
  intros Hs He. apply (covered_eval s); [done..|]. intros a j Hc. unfold combine.
  rewrite (array_ok_eq sizes a (covers_array s a j Hs Hc)). by rewrite decide_True.
Qed.
Lemma combine_out s b σ1 σ2 e : set_ok b -> apart s b -> e ∈ ies_exprs b -> eval (combine s σ1 σ2) e = eval σ2 e.
Proof.
  intros Hb Hap He. apply (covered_eval b); [done..|]. intros a j Hc. unfold combine.
  rewrite (array_ok_eq sizes a (covers_array b a j Hb Hc)). rewrite decide_False; [done|]. intros Hs. by apply (Hap a j).
Qed.

(** What [getIndependentConstraints] leaves out shares nothing with the query. *)
Lemma constraint_pairs cs : Forall (parts_ok sizes) cs ->
  exists L, mapM constraint_pair cs = Some L /\ L.*1 = cs /\ Forall pair_ok L.
Proof.
  induction 1 as [|c cs Hc _ IH]; [by exists []|]. destruct IH as (L & HL & Hcs & Hp). destruct (IES_new_spec sizes c Hc) as (s & Hs & Hok & He).
  assert (constraint_pair c = Some (c, s)) as Hcp by (unfold constraint_pair; by rewrite Hs).
  exists ((c, s) :: L). cbn [mapM]. rewrite Hcp. cbn [mbind option_bind]. rewrite HL. split_and!; [done| |by constructor].
  cbn. by rewrite Hcs.
Qed.
Lemma required_spec q : parts_ok sizes (q_expr q) -> Forall (parts_ok sizes) (q_constraints q) ->
  exists st, getIndependentConstraints q = Some st /\ (forall c, c ∈ cl_result st -> c ∈ q_constraints q) /\
    forall σ1 σ2, exists σ, eval σ (q_expr q) = eval σ1 (q_expr q) /\
      (forall c, c ∈ cl_result st -> eval σ c = eval σ1 c) /\
      (forall c, c ∈ q_constraints q -> c ∈ cl_result st \/ eval σ c = eval σ2 c).
Proof.
  intros He Hcs. unfold getIndependentConstraints. destruct (IES_new_spec sizes _ He) as (s & -> & Hok & Hse).
  destruct (constraint_pairs _ Hcs) as (L & -> & HL & Hp). cbn [mbind option_bind].
  destruct (closure_loop_spec (S (length L)) (q_expr q) s [] L) as (st & -> & [Hc Hce] & Hel & Hwp & Hap);
    [lia|by split|done|]. rewrite HL in Hel. setoid_rewrite elem_of_nil in Hel.
  assert (forall c, c ∈ cl_result st -> c ∈ q_constraints q) as Hsub by (intros c Hin; destruct (proj1 (Hel c) (or_introl Hin)); done).
  exists st. split_and!; [done..|]. intros σ1 σ2. exists (combine (cl_closure st) σ1 σ2).
  assert (set_ok (cl_closure st)) as Hset.
  { split; [done|]. rewrite Hce. constructor; [done|]. apply Forall_forall. intros c Hin. by apply (proj1 (Forall_forall _ _) Hcs), Hsub. }
  split_and!.
  - apply combine_in; [done|]. rewrite Hce. by left.
  - intros c Hin. apply combine_in; [done|]. rewrite Hce. by right.
  - intros c Hin. destruct (proj2 (Hel c) (or_intror Hin)) as [?|Hw]; [by left|right].
    apply list_elem_of_fmap in Hw as ([c' b] & -> & Hw). destruct (proj1 (Forall_forall _ _) Hwp _ Hw) as [Hb Hbe].
    cbn [fst snd] in *.
    apply (combine_out _ b); [|by apply (proj1 (Forall_forall _ _) Hap _ Hw)|rewrite Hbe; by left].
    split; [done|]. rewrite Hbe. constructor; [|constructor]. by apply (proj1 (Forall_forall _ _) Hcs).
Qed.

(** A query with fewer constraints, that says as much about the expression. *)
Definition reduced (q q' : Query) : Prop :=
  q_expr q' = q_expr q /\ (forall c, c ∈ q_constraints q' -> c ∈ q_constraints q) /\
  forall σ1 σ2, exists σ, eval σ (q_expr q) = eval σ1 (q_expr q) /\
    (forall c, c ∈ q_constraints q' -> eval σ c = eval σ1 c) /\
    (forall c, c ∈ q_constraints q -> c ∈ q_constraints q' \/ eval σ c = eval σ2 c).
Lemma reduced_forall (P : expr -> Prop) q q' : reduced q q' -> Forall P (q_constraints q) -> Forall P (q_constraints q').
Proof. intros (_ & Hsub & _) HP. apply Forall_forall. intros c Hc. by apply (proj1 (Forall_forall _ _) HP), Hsub. Qed.
Lemma reduced_consistent q q' : reduced q q' -> consistent q -> consistent q'.
Proof. intros Hr (σ & Hσ). exists σ. by apply (reduced_forall _ q). Qed.
(** An input that allows the required constraints extends to all. *)
Lemma reduced_extend q q' σ1 : reduced q q' -> consistent q -> Forall (allows σ1) (q_constraints q') ->
  exists σ, Forall (allows σ) (q_constraints q) /\ eval σ (q_expr q) = eval σ1 (q_expr q).
Proof.
  intros (_ & _ & Hext) (σ2 & H2%holds_allow) H1. destruct (Hext σ1 σ2) as (σ & He & Hin & Hall). exists σ. split; [|done].
  apply Forall_forall. intros c Hc. unfold allows, refuted, evals. destruct (Hall c Hc) as [Hc'|Heq].
  - rewrite (Hin c Hc'). by apply (proj1 (Forall_forall _ _) H1).
  - rewrite Heq. by apply (proj1 (Forall_forall _ _) H2).
Qed.
Lemma reduced_defined q q' : reduced q q' -> consistent q -> defined q -> defined q'.
Proof.
  intros Hr Hc Hd σ1 H1. destruct (reduced_extend q q' σ1 Hr Hc H1) as (σ & Hσ & He). rewrite (proj1 Hr), <- He. by apply Hd.
Qed.
Lemma reduced_must_true q q' : reduced q q' -> must_be_true q' -> must_be_true q.
Proof. intros Hr Hm σ Hσ. rewrite <- (proj1 Hr). by apply Hm, (reduced_forall _ q). Qed.
Lemma reduced_must_false q q' : reduced q q' -> must_be_false q' -> must_be_false q.
Proof. intros Hr Hm σ Hσ. rewrite <- (proj1 Hr). by apply Hm, (reduced_forall _ q). Qed.
Lemma reduced_may_true q q' : reduced q q' -> consistent q -> may_be_true q' -> may_be_true q.
Proof.
  intros Hr Hc (σ1 & H1 & Hn). destruct (reduced_extend q q' σ1 Hr Hc H1) as (σ & Hσ & He). exists σ. split; [done|].
  unfold refuted, evals in *. by rewrite He, <- (proj1 Hr).
Qed.
Lemma reduced_may_false q q' : reduced q q' -> consistent q -> may_be_false q' -> may_be_false q.
Proof.
  intros Hr Hc (σ1 & H1 & Hn). destruct (reduced_extend q q' σ1 Hr Hc H1) as (σ & Hσ & He). exists σ. split; [done|].
  unfold holds, evals in *. by rewrite He, <- (proj1 Hr).
Qed.
Lemma reduced_truth q q' b : reduced q q' -> consistent q -> truth_ok q' b -> truth_ok q b.
Proof. intros Hr Hc. destruct b; [by apply reduced_must_true|by apply reduced_may_false]. Qed.
Lemma reduced_validity q q' v : reduced q q' -> consistent q -> validity_ok q' v -> validity_ok q v.
Proof.
  intros Hr Hc. destruct v; [by apply reduced_must_true|by apply reduced_must_false|].
  intros [Ht Hf]. split; [by eapply reduced_may_true|by eapply reduced_may_false].
Qed.
Lemma reduced_value q q' r : reduced q q' -> consistent q -> value_ok q' r -> value_ok q r.
Proof.
  intros Hr Hc (σ1 & v & H1 & Hv & ->). destruct (reduced_extend q q' σ1 Hr Hc H1) as (σ & Hσ & He). exists σ, v.
  by rewrite He, <- (proj1 Hr).
Qed.
Lemma constraints_reads cs : Forall (expr_ok sizes) cs -> Forall (parts_ok sizes) cs.
Proof. intros Hcs. eapply Forall_impl; [exact Hcs|]. by intros c [_ ?]. Qed.
Lemma required_promise {S} (I : S -> Prop) q : parts_ok sizes (q_expr q) -> Forall (expr_ok sizes) (q_constraints q) ->
  promises I (required_query q) (reduced q).
Proof.
  intros He Hcs. unfold required_query. destruct (required_spec q He (constraints_reads _ Hcs)) as (st & -> & Hsub & Hext).
  eapply promises_bind; [apply (promises_ret I st (fun st' => st' = st)); done|]. intros ? ->. by apply promises_ret.
Qed.
End independence.

(** The independent solver keeps the promise of the solver it calls with a part of the
    constraints only: for a query whose constraints can be satisfied and allow its expression a value,
    the constraints left out share no byte with those kept, so a truth, a validity or a value
    that is right for these is right for all. *)
Theorem independent_promise `{Laws : APIntLaws, AssertPolicy} {S} sizes (impl : SolverImpl S) (I : S -> Prop) q :
  impl_ok sizes impl I -> consistent q -> defined q ->
  (query_ok sizes q -> promises I (computeTruth (IndependentSolver impl) q) (truth_ok q) /\
                       promises I (computeValidity (IndependentSolver impl) q) (validity_ok q)) /\
  (value_query_ok sizes q -> promises I (computeValue (IndependentSolver impl) q) (value_ok q)).
Proof.
  intros Hi Hc Hd. cbn [computeTruth computeValidity computeValue IndependentSolver]. split.
  - intros [[Ht Hr] Hcs]%Forall_cons.
    assert (forall q', reduced q q' -> query_ok sizes q') as Hq'.
    { intros q' Hred. apply Forall_cons. rewrite (proj1 Hred). split; [done|by apply (reduced_forall _ q)]. }
    split; (eapply promises_bind; [by apply (required_promise sizes)|]); intros q' Hred;
      (eapply promises_weaken; [apply Hi; [by apply Hq'|by eapply reduced_consistent|by eapply reduced_defined]|]); intros r;
      [by apply reduced_truth|by apply reduced_validity].
  - intros (Hw & Hr & Hcs). eapply promises_bind; [by apply (required_promise sizes)|]. intros q' Hred.
    eapply promises_weaken; [apply Hi; [|by eapply reduced_consistent|by eapply reduced_defined]|intros r; by apply reduced_value].
    split_and!; [by rewrite (proj1 Hred)..|by apply (reduced_forall _ q)].
Qed.

(** * Initial values *)

Lemma refs_spec s R a : knows s R -> a ∈ calculateArrayReferences s <-> exists j, covers s a j.
Proof.
  intros Hk. unfold calculateArrayReferences. rewrite elem_of_elements, elem_of_union, elem_of_dom. split.
  - intros [Hs|Hw]; [by apply (k_some _ _ Hk)|exists 0; by left].
  - intros (j & [Hw|(d & Hd & _)%default_some]); [by right|left; by exists d].
Qed.

(** ** The answers are put together *)

Lemma put_bytes_spec indices : forall from to, length from = length to ->
  Forall (fun i => 0 <= i < Z.of_nat (length to)) indices ->
  exists bytes, put_bytes indices from to = Some bytes /\ length bytes = length to /\
    forall k, bytes !! k = if decide (Z.of_nat k ∈ indices) then from !! k else to !! k.
Proof.
  induction indices as [|i indices IH]; intros from to Hl Hi; cbn [put_bytes].
  { exists to. split_and!; [done..|]. intros k. by destruct (decide _) as [?%elem_of_nil|]. }
  apply Forall_cons in Hi as [Hi His]. destruct (lookup_lt_is_Some_2 from (Z.to_nat i)) as [v Hv]; [lia|].
  rewrite Hv. cbn [mbind option_bind]. replace ((i <? 0) || (Z.of_nat (length to) <=? i)) with false by lia.
  destruct (IH from (<[Z.to_nat i:=v]> to)) as (bytes & -> & Hlen & Hk); rewrite ?length_insert in *; [done..|].
  exists bytes. split_and!; [done..|]. intros k. rewrite Hk.
  destruct (decide (Z.of_nat k ∈ indices)) as [Hin|Hn], (decide (Z.of_nat k ∈ i :: indices)) as [Hin'|Hn'];
    rewrite elem_of_cons in *; [done|tauto|..].
  - assert (k = Z.to_nat i) as -> by (destruct Hin'; [lia|done]). rewrite list_lookup_insert_eq by lia. done.
  - apply list_lookup_insert_ne. intros <-. apply Hn'. left. lia.
Qed.

(** The byte of an array, and the input in terms of it. *)
Definition byte_of (b : bindings_ty) (a : Array) (j : Z) : Z := default 0 (default [] (b !! a) !! Z.to_nat j).
Lemma input_byte sizes b a j : array_ok sizes a -> input_of_bindings sizes b (arr_name a) j = byte_of b a j.
Proof. intros Ha. unfold input_of_bindings, byte_of. by rewrite (array_ok_eq sizes a Ha). Qed.

(** What the answers [m] of a factor do to the bytes known. *)
Record put_ok (it : IndependentElementSet) (m old new : bindings_ty) : Prop := {
  po_values : bindings_ok new;
  po_dom a : is_Some (new !! a) <-> is_Some (old !! a) \/ is_Some (m !! a);
  po_other a : m !! a = None -> new !! a = old !! a;
  po_fresh a : is_Some (m !! a) -> old !! a = None -> new !! a = m !! a;
  po_shared a j : is_Some (m !! a) -> is_Some (old !! a) -> 0 <= j ->
    byte_of new a j = if decide (j ∈ (default ∅ (ies_elements it !! a) : gset Z)) then byte_of m a j else byte_of old a j;
}.
(** The elements are indices of the array. *)
Definition indices_in (it : IndependentElementSet) : Prop := forall a j,
  j ∈ (default ∅ (ies_elements it !! a) : gset Z) -> 0 <= j < arr_size a.

Lemma put_answer_spec it old a bytes : bindings_ok old -> values_of a bytes -> indices_in it ->
  exists new, put_answer it old (a, bytes) = Some new /\ bindings_ok new /\ (forall b, b <> a -> new !! b = old !! b) /\
    is_Some (new !! a) /\ (old !! a = None -> new !! a = Some bytes) /\
    (is_Some (old !! a) -> forall j, 0 <= j -> byte_of new a j =
       if decide (j ∈ (default ∅ (ies_elements it !! a) : gset Z)) then default 0 (bytes !! Z.to_nat j) else byte_of old a j).
Proof.
  intros Hold [Hlen Hb] Hi. unfold put_answer. cbn. destruct (old !! a) as [ob|] eqn:Hl.
  - destruct (Hold a ob Hl) as [Hlen' Hob]. destruct (Nat.eqb_spec (length ob) (length bytes)) as [Heq|]; [|lia].
    destruct (put_bytes_spec (elements (default ∅ (ies_elements it !! a) : gset Z)) bytes ob) as (nb & -> & Hnl & Hnk); [done| |].
    { apply Forall_forall. intros i Hin%elem_of_elements. specialize (Hi a i Hin). lia. }
    exists (<[a:=nb]> old). cbn. rewrite lookup_insert_eq. split_and!; [done| |intros b Hne; by apply lookup_insert_ne|done|done|].
    + intros b bs [[<- <-]|[_ Hb']]%lookup_insert_Some; [|by apply (Hold b)]. split; [lia|].
      apply Forall_lookup. intros k x. rewrite Hnk. destruct (decide _); intros Hx; [by apply (Forall_lookup_1 _ bytes k)|by apply (Forall_lookup_1 _ ob k)].
    + intros _ j Hj. unfold byte_of at 1. rewrite lookup_insert_eq. cbn. rewrite Hnk, Z2Nat.id by done. unfold byte_of. rewrite Hl. cbn.
      destruct (decide (j ∈ elements _)) as [Hin|Hn]; rewrite elem_of_elements in *; by destruct (decide _).
  - exists (<[a:=bytes]> old). rewrite lookup_insert_eq. split_and!; [done| |intros b Hne; by apply lookup_insert_ne|done|done|by intros [? ?]].
    intros b bs [[<- <-]|[_ Hb']]%lookup_insert_Some; [done|by apply (Hold b)].
Qed.
Lemma put_answers_spec it : forall objects values old, NoDup objects -> Forall2 values_of objects values -> bindings_ok old -> indices_in it ->
  exists new, put_answers it old (zip objects values) = Some new /\ put_ok it (list_to_map (zip objects values)) old new.
Proof.
  induction objects as [|a objects IH]; intros values old Hnd Hv Hold Hi.
  { exists old. split; [done|]. cbn. split; [done|..]; intros a; rewrite ?lookup_empty; try done; try (by intros [? ?]).
    split; [by left|]. by intros [?|[? ?]]. }
  apply Forall2_cons_inv_l in Hv as (bytes & values' & Ha & Hv & ->). apply NoDup_cons in Hnd as [Hn Hnd].
  destruct (put_answer_spec it old a bytes Hold Ha Hi) as (new & Hp & Hnew & Hother & Hsome & Hfresh & Hshared).
  destruct (IH values' new Hnd Hv Hnew Hi) as (new' & Hps & [H1 H2 H3 H4 H5]). exists new'. cbn [zip zip_with put_answers].
  rewrite Hp. cbn [mbind option_bind]. split; [done|].
  set (m := list_to_map (zip objects values') : bindings_ty) in *.
  assert (m !! a = None) as Hma.
  { apply not_elem_of_list_to_map_1. intros Hin%list_elem_of_fmap. destruct Hin as ([b bs] & -> & Hin). by apply elem_of_zip_l in Hin. }
  assert (forall b, b <> a -> (<[a:=bytes]> m) !! b = m !! b) as Hmb by (intros b Hne; by apply lookup_insert_ne).
  cbn [list_to_map foldr]. fold m. change (list_to_map ((a, bytes) :: zip objects values') : bindings_ty) with (<[a:=bytes]> m).
  split; [done|..]; intros b; [|intros Hb..]; destruct (decide (b = a)) as [->|Hne].
  - rewrite H2, lookup_insert_eq, Hma. split; [intros _; right; by eexists|by left].
  - by rewrite H2, Hmb, Hother.
  - by rewrite lookup_insert_eq in Hb.
  - rewrite Hmb in Hb by done. rewrite H3 by done. by apply Hother.
  - intros Ho. rewrite H3, lookup_insert_eq by done. by apply Hfresh.
  - rewrite Hmb in Hb by done. rewrite Hmb by done. intros Ho. apply H4; [done|]. by rewrite Hother.
  - rename Hb into j. intros _ Ho Hj. unfold byte_of at 1 2. rewrite H3, lookup_insert_eq by done. cbn. by apply Hshared.
  - rename Hb into j. intros Hm Ho Hj. rewrite Hmb in Hm by done. unfold byte_of at 2. rewrite Hmb by done.
    rewrite <- Hother in Ho by done. rewrite H5 by done. unfold byte_of at 2. by rewrite Hother.
Qed.

(** ** The factors are solved one by one *)

Section factors.
Context `{Laws : APIntLaws, AssertPolicy} (sizes : string -> Z).

(** The bytes known satisfy the factors solved, and are those of their arrays. *)
Record known (D : list IndependentElementSet) (b : bindings_ty) : Prop := {
  kn_values : bindings_ok b;
  kn_dom a : is_Some (b !! a) <-> exists g, g ∈ D /\ exists j, covers g a j;
  kn_allows g : g ∈ D -> Forall (allows (input_of_bindings sizes b)) (ies_exprs g);
}.
Definition factor_ok (f : IndependentElementSet) : Prop := ies_ok f /\ Forall (expr_ok sizes) (ies_exprs f).
Lemma factor_set f : factor_ok f -> set_ok sizes f.
Proof. intros [Hf He]. split; [done|by apply constraints_reads]. Qed.
Lemma factor_indices f : factor_ok f -> indices_in f.
Proof.
  intros Hf a j Hj. destruct (k_index _ _ (proj2 (proj1 Hf)) a j Hj) as (v & (e & He & Hr) & <-).
  destruct (set_read sizes f e _ (factor_set f Hf) He Hr) as (_ & [Ht _] & Hlt). cbn in Ht, Hlt.
  apply type_constant in Ht as [Hw _]. apply wf_range in Hw. lia.
Qed.
Lemma answers_dom objects values a : Forall2 values_of objects values ->
  is_Some ((list_to_map (zip objects values) : bindings_ty) !! a) <-> a ∈ objects.
Proof.
  intros Hv. rewrite <- elem_of_dom, dom_list_to_map_L, elem_of_list_to_set, fst_zip; [done|].
  by rewrite (Forall2_length _ _ _ Hv).
Qed.
Lemma known_eval D b b' g e : set_ok sizes g -> e ∈ ies_exprs g ->
  (forall a j, covers g a j -> byte_of b' a j = byte_of b a j) ->
  known D b -> eval (input_of_bindings sizes b') e = eval (input_of_bindings sizes b) e.
Proof.
  intros Hg He Hb _. apply (covered_eval sizes g); [done..|]. intros a j Hc.
  pose proof (covers_array sizes g a j Hg Hc) as Ha. by rewrite !(input_byte sizes) by done; f_equal; apply Hb.
Qed.
Lemma known_step D (b : bindings_ty) f (values : list (list Z)) : known D b -> Forall factor_ok D -> factor_ok f -> Forall (fun g => apart g f) D ->
  Forall2 values_of (calculateArrayReferences f) values ->
  Forall (allows (input_of (zip (calculateArrayReferences f) values))) (ies_exprs f) ->
  exists new, put_answers f b (zip (calculateArrayReferences f) values) = Some new /\ known (D ++ [f]) new.
Proof.
  intros Hk HD Hf Hap Hv Hall. set (refs := calculateArrayReferences f) in *.
  assert (forall a, a ∈ refs <-> exists j, covers f a j) as Hrefs by (intros a; exact (refs_spec f _ a (proj2 (proj1 Hf)))).
  destruct (put_answers_spec f refs values b) as (new & Hp & [Hnew Hdom Hother Hfresh Hshared]);
    [exact (NoDup_elements (dom (ies_elements f) ∪ wholeObjects f : gset Array))|done|exact (kn_values _ _ Hk)|by apply factor_indices|].
  set (m := list_to_map (zip refs values) : bindings_ty) in *.
  assert (forall a, is_Some (m !! a) <-> exists j, covers f a j) as Hm by (intros a; rewrite <- Hrefs; by apply answers_dom).
  exists new. split; [done|]. split; [done| |].
  - intros a. rewrite Hdom, (kn_dom _ _ Hk), Hm. split; setoid_rewrite elem_of_app; setoid_rewrite list_elem_of_singleton.
    + intros [(g & ? & ?)|Hj]; [exists g; tauto|exists f; tauto].
    + intros (g & [Hg| ->] & Hj); [left; by exists g|by right].
  - assert (forall g a j, g ∈ D -> covers g a j -> covers f a j -> False) as Hno
      by (intros g a j Hg; apply (proj1 (Forall_forall _ _) Hap g Hg)).
    intros g [Hg| ->%list_elem_of_singleton]%elem_of_app.
    + pose proof (proj1 (Forall_forall _ _) HD g Hg) as Hgok. apply Forall_forall. intros e He.
      unfold allows, refuted, evals. rewrite (known_eval D b new g e (factor_set g Hgok) He); [|clear e He|done].
      { by apply (proj1 (Forall_forall _ _) (kn_allows _ _ Hk g Hg)). }
      intros a j Hc. destruct (m !! a) as [bytes|] eqn:Hma; [|unfold byte_of; by rewrite Hother].
      destruct (proj1 (Hm a) ltac:(by eexists)) as [j' Hj'].
      assert (j ∈ (default ∅ (ies_elements g !! a) : gset Z)) as Hj.
      { destruct Hc as [Hw|?]; [|done]. exfalso. apply (Hno g a j'); [done|by left|done]. }
      pose proof (factor_indices g Hgok a j Hj). rewrite Hshared; [|by eexists|apply (kn_dom _ _ Hk); by eauto|lia].
      rewrite decide_False; [done|]. intros Hjf. apply (Hno g a j Hg Hc). by right.
    + apply Forall_forall. intros e He. unfold allows, refuted, evals.
      rewrite (covered_eval sizes f _ (input_of (zip refs values)) e (factor_set f Hf) He).
      { by apply (proj1 (Forall_forall _ _) Hall). }
      intros a j Hc. pose proof (covers_array sizes f a j (factor_set f Hf) Hc) as Ha.
      rewrite (input_of_zip sizes); [|apply Forall_forall; intros a' [j' Hj']%Hrefs; by apply (covers_array sizes f a' j' (factor_set f Hf))].
      rewrite !(input_byte sizes) by done. fold m. f_equal.
      assert (is_Some (m !! a)) as Hsome by (apply Hm; by exists j). destruct (b !! a) as [old|] eqn:Hold; [|unfold byte_of; by rewrite Hfresh].
      destruct (proj1 (kn_dom _ _ Hk a) ltac:(by eexists)) as (g & Hg & j' & Hj').
      assert (j ∈ (default ∅ (ies_elements f !! a) : gset Z)) as Hj.
      { destruct Hc as [Hw|?]; [|done]. exfalso. apply (Hno g a j'); [done|done|by left]. }
      pose proof (factor_indices f Hf a j Hj). rewrite Hshared; [by rewrite decide_True|done|by eexists|lia].
Qed.

(** Factors without arrays are not solved. *)
Definition grounded_factor (f : IndependentElementSet) : Prop :=
  calculateArrayReferences f = [] -> forall e σ, e ∈ ies_exprs f -> allows σ e.
Lemma reads_at_some i : exists j, reads_at i j.
Proof. destruct i as [v| | | | | | | | |]; [by exists (ap_val v)|by exists 0..]. Qed.
Lemma factor_arrays f e a : factor_ok f -> e ∈ ies_exprs f -> a ∈ arrays e -> a ∈ calculateArrayReferences f.
Proof.
  intros [[_ Hk] _] He (r & -> & Hr)%list_elem_of_fmap. apply (refs_spec f _ _ Hk). destruct (reads_at_some (snd r)) as [j Hj].
  exists j. apply (k_covers _ _ Hk); [by exists e|done].
Qed.
Lemma factor_query f : factor_ok f -> query_ok sizes (mkQuery (ies_exprs f) expr_false) /\
  covers_arrays sizes (calculateArrayReferences f) (mkQuery (ies_exprs f) expr_false).
Proof.
  intros Hf. split; [|split].
  - apply (false_ok sizes (mkQuery (ies_exprs f) expr_false)), Forall_cons. split; [|exact (proj2 Hf)].
    split; [reflexivity|by split; [apply Forall_nil|]].
  - apply Forall_forall. intros a [j Hj]%(refs_spec f _ a (proj2 (proj1 Hf))). by apply (covers_array sizes f a j (factor_set f Hf)).
  - constructor; [intros a Ha; change (a ∈ []) in Ha; by apply elem_of_nil in Ha|]. apply Forall_forall. intros e He a. by apply factor_arrays.
Qed.
Lemma false_holds σ : holds σ (Expr_createIsZero expr_false).
Proof. apply (isZero_evals σ expr_false false). reflexivity. Qed.

Definition factors_answer (D F : list IndependentElementSet) (o : option bindings_ty) : Prop :=
  match o with
  | None => forall σ, ~ forall f, f ∈ F -> Forall (holds σ) (ies_exprs f)
  | Some b => known (D ++ F) b
  end.
Lemma factors_answer_cons D f F o : factors_answer (D ++ [f]) F o -> factors_answer D (f :: F) o.
Proof.
  destruct o as [b|]; cbn; [by rewrite <- app_assoc|]. intros Hn σ Hall. apply (Hn σ). intros g Hg. apply Hall. by right.
Qed.
Lemma solve_factors_promise {S} (impl : SolverImpl S) (I : S -> Prop) : impl_ok sizes impl I ->
  forall F D b, known D b -> Forall factor_ok D -> Forall factor_ok F ->
  (forall g f, g ∈ D -> f ∈ F -> apart g f) -> ForallOrdPairs apart F -> Forall grounded_factor F ->
  promises I (solve_factors impl F b) (factors_answer D F).
Proof.
  intros Hi. induction F as [|f F IH]; intros D b Hk HD HF Hap Hpairs Hg; cbn [solve_factors].
  { apply promises_ret. cbn. by rewrite app_nil_r. }
  apply Forall_cons in HF as [Hf HF], Hg as [Hgf Hg]. inversion Hpairs as [|? ? Hapf HpF]; subst.
  assert (forall new, known (D ++ [f]) new -> promises I (solve_factors impl F new) (factors_answer D (f :: F))) as Hrest.
  { intros new Hnew. eapply promises_weaken; [apply (IH (D ++ [f]) new Hnew)|intros o; by apply factors_answer_cons]; try done.
    - apply Forall_app. split; [done|by constructor].
    - intros g f' [Hin| ->%list_elem_of_singleton]%elem_of_app Hf'; [apply Hap; [done|by right]|].
      by apply (proj1 (List.Forall_forall _ _) Hapf), list_elem_of_In. }
  apply promises_assert; [by destruct Hf as [[Hne _] _], (ies_exprs f)|].
  destruct (Nat.eqb_spec (length (calculateArrayReferences f)) 0) as [Hnil%length_zero_iff_nil|_].
  - apply Hrest. destruct Hk as [H1 H2 H3]. split; [done| |].
    + intros a. rewrite H2. setoid_rewrite elem_of_app. setoid_rewrite list_elem_of_singleton. split; [intros (g & ? & ?); exists g; tauto|].
      intros (g & [?| ->] & Hj); [by exists g|]. apply (refs_spec f _ a (proj2 (proj1 Hf))) in Hj. rewrite Hnil in Hj. by apply elem_of_nil in Hj.
    + intros g [?| ->%list_elem_of_singleton]%elem_of_app; [by apply H3|]. apply Forall_forall. intros e He. by apply Hgf.
  - destruct (factor_query f Hf) as [Hq Hcov]. eapply promises_bind; [by apply Hi|]. intros [values|].
    + intros (Hv & Hall & _). apply promises_assert; [apply Nat.eqb_eq; symmetry; by apply (Forall2_length _ _ _ Hv)|].
      destruct (known_step D b f values Hk HD Hf) as (new & -> & Hnew); [|done|done|].
      { apply Forall_forall. intros g Hgin. apply Hap; [done|by left]. }
      eapply promises_bind; [apply (promises_ret I new (fun n => n = new)); done|]. intros ? ->. by apply Hrest.
    + intros Hnever. apply promises_ret. cbn. intros σ Hall. apply (Hnever σ); [|apply false_holds]. apply Hall. by left.
Qed.
End factors.

(** ** The values promised *)

(** The expressions an assignment is asked for. *)
Definition goals_of `{APInt} (q : Query) : list expr := Expr_createIsZero (q_expr q) :: q_constraints q.
(** Expressions without reads can hold; and an input that allows all expressions gives each a value
    (as it does when no division by zero or read out of an array is left open). *)
Record settled (L : list expr) : Prop := {
  st_grounded e σ : e ∈ L -> all_reads e = [] -> allows σ e;
  st_values σ : Forall (allows σ) L -> Forall (fun e => exists v, eval σ e = Some v) L;
}.
(** The expression of a query is not a true constant. *)
Definition not_true `{APInt} (q : Query) : Prop := forall CE, as_constant (q_expr q) = Some CE -> isFalse CE = true.

Section initial.
Context `{Laws : APIntLaws, AssertPolicy} (sizes : string -> Z).

Lemma goals_ok q : query_ok sizes q -> Forall (expr_ok sizes) (goals_of q).
Proof. intros [He Hc]%Forall_cons. constructor; [by apply isZero_expr_ok|done]. Qed.
Lemma new_sets cs : Forall (parts_ok sizes) cs ->
  exists fs, mapM IndependentElementSet_new cs = Some fs /\ Forall2 (fun c f => ies_ok f /\ ies_exprs f = [c]) cs fs.
Proof.
  induction 1 as [|c cs Hc _ (fs & Hfs & IH)]; [by exists []|]. destruct (IES_new_spec sizes c Hc) as (s & Hs & ? & ?).
  exists (s :: fs). cbn [mapM]. rewrite Hs. cbn [mbind option_bind]. rewrite Hfs. split; [done|by constructor].
Qed.
Lemma new_sets_exprs cs fs e : Forall2 (fun c f => ies_ok f /\ ies_exprs f = [c]) cs fs ->
  (exists f, f ∈ fs /\ e ∈ ies_exprs f) <-> e ∈ cs.
Proof.
  induction 1 as [|c f cs fs [_ Hf] _ IH]; [setoid_rewrite elem_of_nil; split; [by intros (? & [] & _)|done]|].
  rewrite elem_of_cons, <- IH. split.
  - intros (g & [->|Hg]%elem_of_cons & He); [left; rewrite Hf in He; by apply list_elem_of_singleton|right; by exists g].
  - intros [->|(g & Hg & He)]; [exists f; rewrite Hf; split; [by left|by apply list_elem_of_singleton]|exists g; split; [by right|done]].
Qed.
(** The factors have the expressions, but for a negation that is constant. *)
Lemma factors_spec q : query_ok sizes q -> not_true q -> settled (goals_of q) ->
  exists fs, getAllIndependentConstraintsSets q = Some fs /\ Forall (factor_ok sizes) fs /\ ForallOrdPairs apart fs /\
    Forall grounded_factor fs /\ (forall f e, f ∈ fs -> e ∈ ies_exprs f -> e ∈ goals_of q) /\
    (forall e, e ∈ goals_of q -> (exists f, f ∈ fs /\ e ∈ ies_exprs f) \/ forall σ, holds σ e).
Proof.
  intros Hq Hnt Hsv. pose proof (goals_ok q Hq) as Hok. pose proof (constraints_reads sizes _ Hok) as Hreads.
  assert (exists cs, (forall e, e ∈ cs -> e ∈ goals_of q) /\ (forall e, e ∈ goals_of q -> e ∈ cs \/ forall σ, holds σ e) /\
    exists neg fs, match as_constant (q_expr q) with
         | Some CE => if isFalse CE then Some [] else None
         | None => s ← IndependentElementSet_new (Expr_createIsZero (q_expr q)); Some [s]
         end = Some neg /\ mapM IndependentElementSet_new (q_constraints q) = Some fs /\
         Forall2 (fun c f => ies_ok f /\ ies_exprs f = [c]) cs (neg ++ fs)) as (cs & Hsub & Hall & neg & fs & Hneg & Hfs & Hnew).
  { apply Forall_cons in Hreads as [Hrn Hrc]. destruct (new_sets _ Hrc) as (fs & Hfs & Hnew).
    destruct (as_constant (q_expr q)) as [CE|] eqn:Hce.
    - exists (q_constraints q). split; [intros e; by right|]. split.
      + intros e [->|He]%elem_of_cons; [right|by left]. intros σ. apply (isZero_evals σ _ false).
        apply Forall_cons in Hq as [[Ht _] _].
        pose proof (Hnt CE Hce) as Hf. destruct (q_expr q) as [v| | | | | | | | |]; try done. injection Hce as ->.
        apply type_constant in Ht as [Hw Hwd]. unfold evals. rewrite eval_constant by done. f_equal.
        destruct CE as [w x]. cbn in Hwd. subst w. unfold isFalse in Hf.
        apply andb_true_iff in Hf as [_ Hx%Z.eqb_eq]. cbn in Hx. by subst x.
      + exists [], fs. by rewrite (Hnt CE Hce).
    - exists (goals_of q). split; [done|]. split; [by left|]. destruct (IES_new_spec sizes _ Hrn) as (s & Hs & Hsok & Hse).
      exists [s], fs. rewrite Hs. split; [done|]. split; [done|]. constructor; done. }
  unfold getAllIndependentConstraintsSets. rewrite Hneg, Hfs. cbn [mbind option_bind].
  destruct (merge_loop_spec (S (length (neg ++ fs))) (neg ++ fs)) as (res & -> & Hres & Hex & Hpairs); [lia| |].
  { clear -Hnew. induction Hnew as [|c f cs' fs' [? _] _ IH]; by constructor. }
  assert (forall e, (exists f, f ∈ res /\ e ∈ ies_exprs f) <-> e ∈ cs) as Hin by (intros e; rewrite (Hex e); by apply new_sets_exprs).
  assert (forall f e, f ∈ res -> e ∈ ies_exprs f -> e ∈ goals_of q) as Hgoal by (intros f e Hf He; apply Hsub, Hin; by exists f).
  assert (Forall (factor_ok sizes) res) as Hfok.
  { apply Forall_forall. intros f Hf. split; [by apply (proj1 (Forall_forall _ _) Hres)|]. apply Forall_forall. intros e He.
    apply (proj1 (Forall_forall _ _) Hok). by apply (Hgoal f). }
  exists res. split_and!; try done.
  - apply Forall_forall. intros f Hf Hnil e σ He. apply (st_grounded _ Hsv); [by apply (Hgoal f)|].
    destruct (all_reads e) as [|r l] eqn:Hr; [done|]. exfalso.
    pose proof (factor_arrays sizes f e (fst r) (proj1 (Forall_forall _ _) Hfok f Hf) He) as Ha. rewrite Hnil in Ha.
    apply elem_of_nil in Ha; [done|]. unfold arrays. rewrite Hr. by left.
  - intros e [He%Hin|He]%Hall; [by left|by right].
Qed.

(** The values are the bytes known on the objects. *)
Lemma values_bytes b objects a j : bindings_ok b -> Forall (array_ok sizes) objects -> a ∈ objects ->
  byte_of (list_to_map (zip objects (values_for b <$> objects))) a j = byte_of b a j.
Proof.
  intros _ Ho Ha. unfold byte_of. induction objects as [|o objects IH]; [by apply elem_of_nil in Ha|].
  apply Forall_cons in Ho as [Hok Ho]. cbn [fmap list_fmap zip zip_with list_to_map foldr].
  change (list_to_map ((o, values_for b o) :: zip objects (values_for b <$> objects)) : bindings_ty)
    with (<[o := values_for b o]> (list_to_map (zip objects (values_for b <$> objects)) : bindings_ty)).
  destruct (decide (a = o)) as [->|Hne].
  - rewrite lookup_insert_eq. unfold values_for. cbn. destruct (b !! o) as [bytes|] eqn:Hl; [done|]. cbn.
    destruct (replicate _ 0 !! _) as [x|] eqn:Hx; [|done]. by apply lookup_replicate in Hx as [-> _].
  - rewrite lookup_insert_ne by done. apply IH; [done|]. by apply elem_of_cons in Ha as [->|?].
Qed.
Lemma values_ok b objects : bindings_ok b -> Forall (array_ok sizes) objects -> Forall2 values_of objects (values_for b <$> objects).
Proof.
  intros Hb. induction 1 as [|a objects [_ Hsz] _ IH]; [constructor|]. constructor; [|done]. unfold values_for.
  destruct (b !! a) as [bytes|] eqn:Hl; [by apply Hb|]. cbn. split; [rewrite length_replicate; lia|].
  apply Forall_forall. intros x [-> _]%elem_of_replicate. unfold byte_ok. lia.
Qed.

Lemma bytes_eval b b' e : parts_ok sizes e -> (forall a j, a ∈ arrays e -> byte_of b a j = byte_of b' a j) ->
  eval (input_of_bindings sizes b) e = eval (input_of_bindings sizes b') e.
Proof.
  intros Hr Hb. apply eval_agree, Forall_forall. intros r Hin j _.
  pose proof (proj1 (proj1 (Forall_forall _ _) (proj1 Hr) r Hin)) as Ha. rewrite !(input_byte sizes) by done. f_equal. apply Hb.
  unfold arrays. by apply list_elem_of_fmap_2.
Qed.
(** The point created satisfies the query: no assertion fails, and the answer is as promised. *)
Lemma created_point q objects b : query_ok sizes q -> covers_arrays sizes objects q -> settled (goals_of q) -> bindings_ok b ->
  Forall (allows (input_of_bindings sizes b)) (goals_of q) ->
  let values := values_for b <$> objects in
  assertCreatedPointEvaluatesToTrue q objects values b = Some true /\ initial_ok q objects (Some values).
Proof.
  intros Hq [Hobj Hcov] Hsv Hb Hall values. pose proof (goals_ok q Hq) as Hok.
  set (m := list_to_map (zip objects values) : bindings_ty).
  assert (Forall2 values_of objects values) as Hvals by by apply values_ok.
  assert (forall e, e ∈ goals_of q -> forall a, a ∈ arrays e -> a ∈ objects) as Harr
    by (intros e He; exact (proj1 (Forall_forall _ _) Hcov e He)).
  assert (forall e, e ∈ goals_of q -> eval (input_of_bindings sizes b) e = Some (bool_ap true)) as Hholds.
  { intros e He. destruct (proj1 (Forall_forall _ _) Hok e He) as [Ht _].
    destruct (typed_boolean (input_of_bindings sizes b) e Ht) as [?|Hr]; [|done|].
    - by apply (proj1 (Forall_forall _ _) (st_values _ Hsv _ Hall)).
    - by destruct (proj1 (Forall_forall _ _) Hall e He). }
  assert (forall e, e ∈ goals_of q -> eval (input_of (zip objects values)) e = Some (bool_ap true)) as Hzip.
  { intros e He. rewrite (eval_ext _ (input_of_bindings sizes m)) by (by apply (input_of_zip sizes)).
    rewrite (bytes_eval m b e); [by apply Hholds|by apply (proj1 (Forall_forall _ _) Hok)|].
    intros a j Ha. apply values_bytes; [done..|by eapply Harr]. }
  split; [|split_and!; [done|apply Forall_forall; intros e He|]; apply holds_allows, Hzip; [by right|by left]].
  set (A := mkAssignment true (m ∪ b)).
  assert (forall e, e ∈ goals_of q -> assigned_constant A e = Some (bool_ap true)) as Hconst.
  { intros e He. destruct (proj1 (Forall_forall _ _) Hok e He) as [Ht Hr].
    assert (forall a, a ∈ arrays e -> is_Some (m !! a) /\ (m ∪ b) !! a = m !! a) as Hin.
    { intros a Ha. assert (is_Some (m !! a)) as [x Hx] by (apply answers_dom; [done|by eapply Harr]).
      split; [by exists x|]. rewrite Hx. by apply lookup_union_Some_l. }
    destruct (evaluate_in_spec sizes A e Bool []) as (r & vs & Hev & Hvd & _); [|done..|constructor|].
    - by apply map_Forall_union_2; [apply bindings_of_values|].
    - destruct (evaluated_value sizes A e r Bool Hvd Ht Hr) as [_ Hval].
      { intros _ a Ha. destruct (Hin a Ha) as [? Heq]. cbn. by rewrite Heq. }
      unfold assigned_constant, evaluate. rewrite Hev. cbn [mbind option_bind fmap option_fmap option_map fst].
      rewrite (Hval (bool_ap true)); [done|].
      cbn [bindings A]. rewrite (bytes_eval (m ∪ b) b e Hr); [by apply Hholds|]. intros a j Ha.
      transitivity (byte_of m a j); [unfold byte_of; by rewrite (proj2 (Hin a Ha))|].
      apply values_bytes; [done..|by eapply Harr]. }
  unfold assertCreatedPointEvaluatesToTrue. fold m A.
  assert (none_false A (q_constraints q) = Some true) as ->.
  { assert (forall e, e ∈ q_constraints q -> assigned_constant A e = Some (bool_ap true)) as Hcs by (intros e He; apply Hconst; by right).
    clear -Hcs. induction (q_constraints q) as [|c cs IH]; [done|]. cbn [none_false]. rewrite Hcs by by left.
    cbn [mbind option_bind]. apply IH. intros e He. apply Hcs. by right. }
  cbn [mbind option_bind]. rewrite Hconst by by left. reflexivity.
Qed.
End initial.

(** The initial values the independent solver puts together satisfy the whole query: solving factors
    that share no byte one by one and merging their answers, in an array several factors read by
    elements too, gives values under which every constraint and the negated expression can hold, no
    assertion on the way fails, and a factor without solution means that there is none. *)
Theorem independent_initial_values `{Laws : APIntLaws, AssertPolicy} {S} sizes (impl : SolverImpl S) (I : S -> Prop) q objects :
  impl_ok sizes impl I -> query_ok sizes q -> covers_arrays sizes objects q -> not_true q -> settled (goals_of q) ->
  promises I (computeInitialValues (IndependentSolver impl) q objects) (initial_ok q objects).
Proof.
  intros Hi Hq Hcov Hnt Hsv. cbn [computeInitialValues IndependentSolver]. unfold independent_computeInitialValues.
  destruct (factors_spec sizes q Hq Hnt Hsv) as (fs & -> & Hfs & Hpairs & Hg & Hgoal & Hall).
  eapply promises_bind; [apply (promises_ret I fs (fun f => f = fs)); done|]. intros ? ->.
  eapply promises_bind; [apply (solve_factors_promise sizes impl I Hi fs [] ∅); try done|].
  - split; [apply map_Forall_empty| |by intros g ?%elem_of_nil]. intros a. rewrite lookup_empty.
    split; [by intros [? ?]|by intros (g & ?%elem_of_nil & _)].
  - by intros g f ?%elem_of_nil.
  - intros [b|] Ha; cbn in Ha.
    + destruct (created_point sizes q objects b Hq Hcov Hsv (kn_values _ _ _ Ha)) as [Hass Hini].
      { apply Forall_forall. intros e He. destruct (Hall e He) as [(f & Hf & Hef)|Hh]; [|by apply holds_allows].
        by apply (proj1 (Forall_forall _ _) (kn_allows _ _ _ Ha f Hf)). }
      rewrite Hass. eapply promises_bind; [apply (promises_ret I true (fun ok => ok = true)); done|]. intros ? ->.
      apply promises_assert; [done|]. by apply promises_ret.
    + apply promises_ret. cbn. intros σ Hc Hn. apply (Ha σ). intros f Hf. apply Forall_forall. intros e He.
      specialize (Hgoal f e Hf He). apply elem_of_cons in Hgoal as [->|Hin]; [done|]. by apply (proj1 (Forall_forall _ _) Hc).
Qed.

(** ** Witnesses: two bytes that are apart *)

Definition byte_a : Array := mkArray "a" 1.
Definition byte_b : Array := mkArray "b" 1.
Definition byte_is (a : Array) (v : Z) : expr := ECmp Kind.Eq (EConstant (AP 8 v)) (read_byte a 0).
Definition two_bytes (e : expr) : Query := mkQuery [byte_is byte_a 7; byte_is byte_b 8] e.
Definition two_candidates : list Assignment := [[(byte_a, [7]); (byte_b, [8])]].

Lemma byte_is_ok sizes a v : sizes (arr_name a) = 1 -> arr_size a = 1 -> ap_wf (AP 8 v) -> expr_ok sizes (byte_is a v).
Proof.
  intros Hsz Ha Hv%Is_true_true. split; [unfold well_typed; cbn; by rewrite Hv|]. split; [|by repeat split]. constructor; [|by apply Forall_nil].
  split; [split; cbn; [by rewrite Hsz|rewrite Ha; lia]|]. split; [done|cbn; rewrite Ha; reflexivity].
Qed.
Lemma byte_is_eval σ a v : arr_size a = 1 -> ap_wf (AP 8 v) -> exists r, eval σ (byte_is a v) = Some r.
Proof. intros Ha Hv%Is_true_true. cbn. rewrite Hv. unfold ev_read. cbn. rewrite Ha. by eexists. Qed.
Lemma two_bytes_ok sizes e : sizes "a" = 1 -> sizes "b" = 1 -> expr_ok sizes e -> query_ok sizes (two_bytes e).
Proof. intros Ha Hb He. repeat (constructor; [first [exact He|by apply byte_is_ok]|]). constructor. Qed.

#[local] Existing Instance no_asserts.
Lemma independent_promise_witness :
  promises (fun _ => True) (computeTruth (IndependentSolver (search_impl two_candidates)) (two_bytes (byte_is byte_a 9)))
    (truth_ok (two_bytes (byte_is byte_a 9))) /\
  computeTruth (IndependentSolver (search_impl two_candidates)) (two_bytes (byte_is byte_a 9)) tt = (Ok false, tt).
Proof.
  split; [|vm_compute; reflexivity].
  refine (proj1 (proj1 (independent_promise (fun _ => 1) (search_impl two_candidates) (fun _ => True)
    (two_bytes (byte_is byte_a 9)) (search_impl_ok _ _) _ _) _)).
  - exists (input_of [(byte_a, [7]); (byte_b, [8])]). repeat (constructor; [vm_compute; reflexivity|]). constructor.
  - intros σ _. by apply byte_is_eval.
  - apply two_bytes_ok; [done..|by apply byte_is_ok].
Defined.

Lemma independent_initial_values_witness :
  promises (fun _ => True) (computeInitialValues (IndependentSolver (search_impl two_candidates)) (two_bytes expr_false) [byte_b; byte_a])
    (initial_ok (two_bytes expr_false) [byte_b; byte_a]) /\
  computeInitialValues (IndependentSolver (search_impl two_candidates)) (two_bytes expr_false) [byte_b; byte_a] tt
    = (Ok (Some [[8]; [7]]), tt).
Proof.
  split; [|vm_compute; reflexivity].
  apply (independent_initial_values (fun _ => 1) (search_impl two_candidates) (fun _ => True)).
  - apply search_impl_ok.
  - apply two_bytes_ok; [done..|]. split; [reflexivity|by split; [apply Forall_nil|]].
  - split; [repeat (constructor; [split; [done|cbn; lia]|]); constructor|].
    repeat (constructor; [intros a Ha; vm_compute in Ha; set_solver|]). constructor.
  - by intros CE [= <-].
  - split.
    + intros e σ [->|[->|[->|?%elem_of_nil]%elem_of_cons]%elem_of_cons]%elem_of_cons Hr; done.
    + intros σ _. constructor; [by eexists|]. repeat (constructor; [by apply byte_is_eval|]). constructor.
Defined.
