(* ===== verification/Z3Api.v ===== *)
(** Z3, the solver behind KLEE's, is not part of the repository: the part of its C interface that
    Z3Builder and Z3Solver use is an interface here, and what they rely on, the sorts and the SMT-LIB
    meaning of terms and the answers of a solver, are its laws.  [Z3_terms] is an implementation. *)
From S2P Require Import Prelude Bits APInt KExpr.

Inductive z3_sort := BoolSort | BVSort (w : Z) | ArraySort (domain range : Z).
#[export] Instance z3_sort_eq_dec : EqDecision z3_sort.
Proof. solve_decision. Defined.

(** [Z3_mk_bvadd] and the other functions of two bit-vectors, and the comparisons. *)
Inductive bv_op := bvadd | bvsub | bvmul | bvudiv | bvsdiv | bvurem | bvsrem | bvand | bvor | bvxor.
Inductive bv_rel := bvult | bvule | bvslt | bvsle.
Inductive bool_op := z3_and | z3_or | z3_iff.
Inductive z3_lbool (model : Type) := L_TRUE (m : model) | L_FALSE | L_UNDEF (reason : string).
Arguments L_TRUE {model}.
Arguments L_FALSE {model}.
Arguments L_UNDEF {model}.

(** A function that is used on other sorts than it is for calls the error handler: it has no result. *)
Class Z3Api := {
  Z3_ast : Type; Z3_model : Type; Z3_context : Type;
  Z3_get_sort : Z3_ast -> z3_sort;
  Z3_mk_true : Z3_ast; Z3_mk_false : Z3_ast;
  Z3_mk_const : string -> Z -> Z -> Z3_ast;   (* of the array sort between two bit-vector sorts *)
  Z3_mk_unsigned_int64 : Z -> Z -> Z3_ast;    (* of a bit-vector sort; Z3_mk_unsigned_int as well *)
  Z3_mk_int64 : Z -> Z -> Z3_ast;
  Z3_mk_not : Z3_ast -> option Z3_ast;
  Z3_mk_bool : bool_op -> Z3_ast -> Z3_ast -> option Z3_ast;
  Z3_mk_eq : Z3_ast -> Z3_ast -> option Z3_ast;
  Z3_mk_ite : Z3_ast -> Z3_ast -> Z3_ast -> option Z3_ast;
  Z3_mk_bvnot : Z3_ast -> option Z3_ast;
  Z3_mk_bv : bv_op -> Z3_ast -> Z3_ast -> option Z3_ast;
  Z3_mk_rel : bv_rel -> Z3_ast -> Z3_ast -> option Z3_ast;
  Z3_mk_concat : Z3_ast -> Z3_ast -> option Z3_ast;
  Z3_mk_extract : Z -> Z -> Z3_ast -> option Z3_ast;   (* high and low bit *)
  Z3_mk_sign_ext : Z -> Z3_ast -> option Z3_ast;
  Z3_mk_select : Z3_ast -> Z3_ast -> option Z3_ast;
  Z3_solver_check : list Z3_ast -> Z3_context -> z3_lbool Z3_model * Z3_context;
  Z3_model_eval : Z3_model -> Z3_ast -> option Z3_ast;   (* with model completion *)
  Z3_get_numeral_int : Z3_ast -> option Z;
  Z3_get_bool_value : Z3_ast -> option bool;
}.

(** * The documented meaning *)

(** SMT-LIB gives a division by zero a value. *)
Definition bv_spec (w : Z) (op : bv_op) (x y : Z) : Z :=
  match op with
  | bvadd => arith_spec w Kind.Add x y
  | bvsub => arith_spec w Kind.Sub x y
  | bvmul => arith_spec w Kind.Mul x y
  | bvudiv => if y =? 0 then wrap w (-1) else arith_spec w Kind.UDiv x y
  | bvurem => if y =? 0 then x else arith_spec w Kind.URem x y
  | bvsdiv => if y =? 0 then (if swrap w x <? 0 then 1 else wrap w (-1)) else arith_spec w Kind.SDiv x y
  | bvsrem => if y =? 0 then x else arith_spec w Kind.SRem x y
  | bvand => Z.land x y
  | bvor => Z.lor x y
  | bvxor => Z.lxor x y
  end.
Definition rel_spec (w : Z) (rel : bv_rel) (x y : Z) : bool :=
  match rel with
  | bvult => x <? y
  | bvule => x <=? y
  | bvslt => swrap w x <? swrap w y
  | bvsle => swrap w x <=? swrap w y
  end.
Definition bool_spec (op : bool_op) (x y : bool) : bool :=
  match op with z3_and => x && y | z3_or => x || y | z3_iff => Bool.eqb x y end.

(** An interpretation of the array constants by their names. *)
Abbreviation interpretation := (string -> Z -> Z).
Definition is_bv `{Z3Api} (w : Z) (a : Z3_ast) : Prop := Z3_get_sort a = BVSort w.
Definition is_bool `{Z3Api} (a : Z3_ast) : Prop := Z3_get_sort a = BoolSort.
(** A function that accepts its arguments, with its result. *)
Definition makes `{Z3Api} (o : option Z3_ast) (P : Z3_ast -> Prop) : Prop := exists c, o = Some c /\ P c.

Class Z3Laws `{API : Z3Api} := {
  (** The value of a bit-vector, of a boolean and of an array term. *)
  bv_of : interpretation -> Z3_ast -> Z;
  bool_of : interpretation -> Z3_ast -> bool;
  array_of : interpretation -> Z3_ast -> Z -> Z;
  bv_range_law I w a : 0 < w -> is_bv w a -> 0 <= bv_of I a < 2 ^ w;
  mk_true_law : is_bool Z3_mk_true /\ forall I, bool_of I Z3_mk_true = true;
  mk_false_law : is_bool Z3_mk_false /\ forall I, bool_of I Z3_mk_false = false;
  mk_const_law n d r : Z3_get_sort (Z3_mk_const n d r) = ArraySort d r /\
    forall I i, array_of I (Z3_mk_const n d r) i = I n i;
  mk_unsigned_law v w : 0 < w -> 0 <= v < 2 ^ 64 ->
    is_bv w (Z3_mk_unsigned_int64 v w) /\ forall I, bv_of I (Z3_mk_unsigned_int64 v w) = wrap w v;
  mk_int_law v w : 0 < w -> - 2 ^ 63 <= v < 2 ^ 63 ->
    is_bv w (Z3_mk_int64 v w) /\ forall I, bv_of I (Z3_mk_int64 v w) = wrap w v;
  mk_not_law a : is_bool a ->
    makes (Z3_mk_not a) (fun c => is_bool c /\ forall I, bool_of I c = negb (bool_of I a));
  mk_bool_law op a b : is_bool a -> is_bool b ->
    makes (Z3_mk_bool op a b) (fun c => is_bool c /\ forall I, bool_of I c = bool_spec op (bool_of I a) (bool_of I b));
  mk_eq_law w a b : is_bv w a -> is_bv w b ->
    makes (Z3_mk_eq a b) (fun c => is_bool c /\ forall I, bool_of I c = (bv_of I a =? bv_of I b));
  mk_ite_bool_law c a b : is_bool c -> is_bool a -> is_bool b ->
    makes (Z3_mk_ite c a b) (fun r => is_bool r /\ forall I, bool_of I r = if bool_of I c then bool_of I a else bool_of I b);
  mk_ite_bv_law w c a b : 0 < w -> is_bool c -> is_bv w a -> is_bv w b ->
    makes (Z3_mk_ite c a b) (fun r => is_bv w r /\ forall I, bv_of I r = if bool_of I c then bv_of I a else bv_of I b);
  mk_bvnot_law w a : 0 < w -> is_bv w a ->
    makes (Z3_mk_bvnot a) (fun c => is_bv w c /\ forall I, bv_of I c = wrap w (Z.lnot (bv_of I a)));
  mk_bv_law op w a b : 0 < w -> is_bv w a -> is_bv w b ->
    makes (Z3_mk_bv op a b) (fun c => is_bv w c /\ forall I, bv_of I c = bv_spec w op (bv_of I a) (bv_of I b));
  mk_rel_law rel w a b : 0 < w -> is_bv w a -> is_bv w b ->
    makes (Z3_mk_rel rel a b) (fun c => is_bool c /\ forall I, bool_of I c = rel_spec w rel (bv_of I a) (bv_of I b));
  mk_concat_law w u a b : 0 < w -> 0 < u -> is_bv w a -> is_bv u b ->
    makes (Z3_mk_concat a b) (fun c => is_bv (w + u) c /\ forall I, bv_of I c = Z.lor (Z.shiftl (bv_of I a) u) (bv_of I b));
  mk_concat_bool_law a b : is_bool a \/ is_bool b -> Z3_mk_concat a b = None;
  mk_extract_law w hi lo a : 0 <= lo <= hi -> hi < w -> is_bv w a ->
    makes (Z3_mk_extract hi lo a) (fun c => is_bv (hi - lo + 1) c /\ forall I, bv_of I c = wrap (hi - lo + 1) (Z.shiftr (bv_of I a) lo));
  mk_sign_ext_law w n a : 0 < w -> 0 <= n -> is_bv w a ->
    makes (Z3_mk_sign_ext n a) (fun c => is_bv (w + n) c /\ forall I, bv_of I c = wrap (w + n) (swrap w (bv_of I a)));
  mk_select_law d r a i : 0 < r -> Z3_get_sort a = ArraySort d r -> is_bv d i ->
    makes (Z3_mk_select a i) (fun c => is_bv r c /\ forall I, bv_of I c = wrap r (array_of I a (bv_of I i)));
  (** A model satisfies the assertions, and values are those under its interpretation; without a
      model no interpretation satisfies them. *)
  model_interp : Z3_model -> interpretation;
  check_true_law fs c m c' : Forall is_bool fs -> Z3_solver_check fs c = (L_TRUE m, c') ->
    Forall (fun f => bool_of (model_interp m) f = true) fs;
  check_false_law fs c c' I : Forall is_bool fs -> Z3_solver_check fs c = (L_FALSE, c') ->
    ~ Forall (fun f => bool_of I f = true) fs;
  model_eval_bv_law m w a : is_bv w a -> bv_of (model_interp m) a < 2 ^ 31 ->
    makes (Z3_model_eval m a) (fun v => Z3_get_numeral_int v = Some (bv_of (model_interp m) a));
  model_eval_bool_law m a : is_bool a ->
    makes (Z3_model_eval m a) (fun v => is_bool v /\ Z3_get_bool_value v = Some (bool_of (model_interp m) a));
}.

(** * An implementation: terms, and a search for a model *)

Inductive z3_term :=
| TBool (b : bool) | TConst (name : string) (d r : Z) | TNum (w v : Z)
| TNot (a : z3_term) | TBoolOp (op : bool_op) (a b : z3_term) | TEq (a b : z3_term) | TIte (c a b : z3_term)
| TBvNot (a : z3_term) | TBv (op : bv_op) (a b : z3_term) | TRel (rel : bv_rel) (a b : z3_term)
| TConcat (a b : z3_term) | TExtract (hi lo : Z) (a : z3_term) | TSignExt (n : Z) (a : z3_term) | TSelect (a i : z3_term).

Fixpoint sort_of (t : z3_term) : z3_sort :=
  match t with
  | TBool _ | TNot _ | TBoolOp _ _ _ | TEq _ _ | TRel _ _ _ => BoolSort
  | TConst _ d r => ArraySort d r
  | TNum w _ => BVSort w
  | TIte _ a _ | TBvNot a | TBv _ a _ => sort_of a
  | TConcat a b => match sort_of a, sort_of b with BVSort w, BVSort u => BVSort (w + u) | s, _ => s end
  | TExtract hi lo _ => BVSort (hi - lo + 1)
  | TSignExt n a => match sort_of a with BVSort w => BVSort (w + n) | s => s end
  | TSelect a _ => match sort_of a with ArraySort _ r => BVSort r | s => s end
  end.
Definition width_of (t : z3_term) : Z := match sort_of t with BVSort w => w | _ => 0 end.
(** A bit-vector is kept within its width. *)
Definition at_sort (s : z3_sort) (v : Z) : Z := match s with BVSort w => wrap w v | _ => v end.
Fixpoint term_value (I : interpretation) (t : z3_term) : Z :=
  at_sort (sort_of t)
    match t with
    | TBool b => Z.b2z b
    | TConst _ _ _ => 0
    | TNum w v => v
    | TNot a => Z.b2z (term_value I a =? 0)
    | TBoolOp op a b => Z.b2z (bool_spec op (negb (term_value I a =? 0)) (negb (term_value I b =? 0)))
    | TEq a b => Z.b2z (term_value I a =? term_value I b)
    | TIte c a b => if term_value I c =? 0 then term_value I b else term_value I a
    | TBvNot a => Z.lnot (term_value I a)
    | TBv op a b => bv_spec (width_of a) op (term_value I a) (term_value I b)
    | TRel rel a b => Z.b2z (rel_spec (width_of a) rel (term_value I a) (term_value I b))
    | TConcat a b => Z.lor (Z.shiftl (term_value I a) (width_of b)) (term_value I b)
    | TExtract hi lo a => Z.shiftr (term_value I a) lo
    | TSignExt n a => swrap (width_of a) (term_value I a)
    | TSelect a i => match a with TConst name _ r => I name (term_value I i) | _ => 0 end
    end.
Definition term_truth (I : interpretation) (t : z3_term) : bool := negb (term_value I t =? 0).
Definition term_array (I : interpretation) (t : z3_term) : Z -> Z := match t with TConst name _ _ => I name | _ => fun _ => 0 end.

Definition bv_term (t : z3_term) : bool := match sort_of t with BVSort _ => true | _ => false end.
Definition bool_term (t : z3_term) : bool := bool_decide (sort_of t = BoolSort).
Definition same_bv (a b : z3_term) : bool := bv_term a && bool_decide (sort_of a = sort_of b).
Definition when (b : bool) (t : z3_term) : option z3_term := if b then Some t else None.
(** A term without array constants means the same in every interpretation. *)
Fixpoint closed (t : z3_term) : bool :=
  match t with
  | TBool _ | TNum _ _ => true
  | TConst _ _ _ | TSelect _ _ => false
  | TNot a | TBvNot a | TExtract _ _ a | TSignExt _ a => closed a
  | TBoolOp _ a b | TEq a b | TBv _ a b | TRel _ a b | TConcat a b => closed a && closed b
  | TIte c a b => closed c && closed a && closed b
  end.
Lemma closed_value I J t : closed t = true -> term_value I t = term_value J t.
Proof.
  induction t; cbn [closed term_value]; rewrite ?andb_true_iff; intros; destruct_and?; try done;
    repeat match goal with IH : closed _ = true -> _ |- _ => rewrite IH by done; clear IH end; done.
Qed.

Definition search_check (candidates : list interpretation) (fs : list z3_term) : z3_lbool interpretation :=
  match List.find (fun I => forallb (term_truth I) fs) candidates with
  | Some J => L_TRUE J
  | None => if existsb (fun f => closed f && negb (term_truth (fun _ _ => 0) f)) fs then L_FALSE else L_UNDEF "unknown"
  end.
Definition term_eval (I : interpretation) (t : z3_term) : option z3_term :=
  match sort_of t with
  | BVSort w => Some (TNum w (term_value I t))
  | BoolSort => Some (TBool (term_truth I t))
  | ArraySort _ _ => None
  end.
Definition numeral_int (t : z3_term) : option Z :=
  match t with TNum w v => if wrap w v <? 2 ^ 31 then Some (wrap w v) else None | _ => None end.

Definition Z3_terms (candidates : list interpretation) : Z3Api := {|
  Z3_get_sort := sort_of; Z3_mk_true := TBool true; Z3_mk_false := TBool false; Z3_mk_const := TConst;
  Z3_mk_unsigned_int64 v w := TNum w v; Z3_mk_int64 v w := TNum w v;
  Z3_mk_not a := when (bool_term a) (TNot a);
  Z3_mk_bool op a b := when (bool_term a && bool_term b) (TBoolOp op a b);
  Z3_mk_eq a b := when (bool_decide (sort_of a = sort_of b)) (TEq a b);
  Z3_mk_ite c a b := when (bool_term c && bool_decide (sort_of a = sort_of b)) (TIte c a b);
  Z3_mk_bvnot a := when (bv_term a) (TBvNot a);
  Z3_mk_bv op a b := when (same_bv a b) (TBv op a b);
  Z3_mk_rel rel a b := when (same_bv a b) (TRel rel a b);
  Z3_mk_concat a b := when (bv_term a && bv_term b) (TConcat a b);
  Z3_mk_extract hi lo a := when (bv_term a && (0 <=? lo) && (lo <=? hi) && (hi <? width_of a)) (TExtract hi lo a);
  Z3_mk_sign_ext n a := when (bv_term a) (TSignExt n a);
  Z3_mk_select a i := when (match sort_of a with ArraySort d _ => bool_decide (sort_of i = BVSort d) | _ => false end) (TSelect a i);
  Z3_solver_check fs c := (search_check candidates fs, c : unit);
  Z3_model_eval := term_eval; Z3_get_numeral_int := numeral_int;
  Z3_get_bool_value t := match t with TBool b => Some b | _ => None end;
|}.

Section terms.
Context (candidates : list interpretation).
#[local] Existing Instance Z3_terms.
Abbreviation api := (Z3_terms candidates).

Lemma value_range I w t : 0 < w -> sort_of t = BVSort w -> 0 <= term_value I t < 2 ^ w.
Proof. intros Hw Hs. destruct t; cbn [term_value]; rewrite Hs; apply wrap_range; lia. Qed.
Lemma value_wrapped I w t : sort_of t = BVSort w -> wrap w (term_value I t) = term_value I t.
Proof. intros Hs. destruct t; cbn [term_value]; rewrite Hs; apply wrap_wrap. Qed.
Lemma bv_spec_range w op x y : 0 < w -> 0 <= x < 2 ^ w -> 0 <= y < 2 ^ w -> 0 <= bv_spec w op x y < 2 ^ w.
Proof.
  intros Hw Hx Hy. assert (forall k, arith_ok k (AP w x) (AP w y) -> 0 <= arith_spec w k x y < 2 ^ w) as Ha.
  { intros k Hk. apply (arith_spec_range k (AP w x) (AP w y)); [by apply ap_wf_iff..|done]. }
  assert (forall k, Kind.is_div k && (y =? 0) = false -> 0 <= arith_spec w k x y < 2 ^ w) as Hb.
  { intros k Hk. apply Ha. unfold arith_ok. cbn. by rewrite Z.eqb_refl, Hk. }
  assert (1 < 2 ^ w) by (apply Z.pow_gt_1; lia). pose proof (wrap_range w (-1) ltac:(lia)).
  destruct op; cbn [bv_spec]; try exact (Hb Kind.And eq_refl); try exact (Hb Kind.Or eq_refl); try exact (Hb Kind.Xor eq_refl);
    try (by apply Hb); (destruct (y =? 0) eqn:Hyz; [try done|by apply Hb]).
  destruct (_ <? 0); lia.
Qed.
Lemma bv_term_sort t : bv_term t = true <-> exists w, sort_of t = BVSort w.
Proof. unfold bv_term. destruct (sort_of t); naive_solver. Qed.
Lemma makes_when b (t : z3_term) (P : z3_term -> Prop) : b = true -> P t -> @makes api (when b t) P.
Proof. intros -> HP. by exists t. Qed.
Lemma truth_b2z (b : bool) : negb (Z.b2z b =? 0) = b.
Proof. by destruct b. Qed.
Lemma concat_bits_range w u x y : 0 < w -> 0 < u -> 0 <= x < 2 ^ w -> 0 <= y < 2 ^ u -> 0 <= Z.lor (Z.shiftl x u) y < 2 ^ (w + u).
Proof.
  intros Hw Hu Hx Hy. apply (fun H1 H2 => wf_range _ (concat_spec_wf (AP w x) (AP u y) H1 H2)); by apply ap_wf_iff.
Qed.

#[local] Ltac term_law :=
  repeat match goal with H : is_bv _ _ |- _ => unfold is_bv in H; cbn in H | H : is_bool _ |- _ => unfold is_bool in H; cbn in H end;
  apply makes_when;
  [unfold bool_term, same_bv, bv_term; repeat match goal with H : sort_of _ = _ |- _ => rewrite H end; rewrite ?bool_decide_eq_true_2 by done; try done
  |unfold is_bv, is_bool, term_truth; cbn; unfold width_of;
   repeat match goal with H : sort_of _ = _ |- _ => rewrite H end; cbn; (split; [try done|intros ρ; rewrite ?truth_b2z; try done])].

#[export] Instance Z3_terms_laws : @Z3Laws api.
Proof.
  refine (@Build_Z3Laws api term_value term_truth term_array _ _ _ _ _ _ _ _ _ _ _ _ _ _ _ _ _ _ _ (fun ρ => ρ) _ _ _ _).
  - intros ρ w a Hw Ha. by apply value_range.
  - by split.
  - by split.
  - by intros n d r.
  - by intros v w.
  - by intros v w.
  - intros a Ha. term_law. by rewrite negb_involutive.
  - intros op a b Ha Hb. term_law.
  - intros w a b Ha Hb. term_law.
  - intros c a b Hc Ha Hb. term_law. by destruct (term_value ρ c =? 0).
  - intros w c a b Hw Hc Ha Hb. term_law. destruct (term_value ρ c =? 0); apply wrap_small; by apply value_range.
  - intros w a Hw Ha. term_law.
  - intros op w a b Hw Ha Hb. term_law. apply wrap_small, bv_spec_range; [done|by apply value_range..].
  - intros rel w a b Hw Ha Hb. term_law.
  - intros w u a b Hw Hu Ha Hb. term_law. apply wrap_small, concat_bits_range; [done..|by apply value_range|by apply value_range].
  - intros a b Hab. cbn. unfold is_bool, bv_term in *. cbn in Hab. destruct Hab as [-> | ->]; [done|]. by rewrite andb_false_r.
  - intros w hi lo a Hlo Hhi Ha. term_law. unfold width_of. rewrite Ha. lia.
  - intros w n a Hw Hn Ha. term_law.
  - intros d r a i Hr Ha Hi. cbn in Ha. term_law. destruct a; cbn; try done; apply Zmod_0_l.
  - intros fs c m c' _. cbn. unfold search_check. destruct (List.find _ _) as [ρ|] eqn:Hf; [|by destruct (existsb _ _)].
    intros [= <- <-]. apply List.find_some in Hf as [_ Hf]. apply Forall_forall. intros f Hin. by apply (proj1 (forallb_forall _ _) Hf), list_elem_of_In.
  - intros fs c c' ρ _. cbn. unfold search_check. destruct (List.find _ _); [done|].
    destruct (existsb _ _) eqn:He; [|done]. intros _ Hall. apply existsb_exists in He as (f & Hin & [Hc Ht]%andb_true_iff).
    pose proof (proj1 (Forall_forall _ _) Hall f (proj2 (list_elem_of_In _ _) Hin)) as Hf. unfold term_truth in *.
    apply negb_true_iff in Ht. rewrite (closed_value (fun _ _ => 0) ρ f Hc) in Ht. congruence.
  - intros m w a Ha Hlt. unfold is_bv in Ha. cbn in Ha, Hlt |- *. unfold term_eval. rewrite Ha. eexists. split; [done|]. cbn. rewrite value_wrapped by done.
    by rewrite (proj2 (Z.ltb_lt _ _) Hlt).
  - intros m a Ha. unfold is_bool in Ha. cbn in Ha |- *. unfold term_eval. rewrite Ha. by eexists.
Defined.
End terms.
