(* ===== verification/Z3Builder.v ===== *)
(** The translation of expressions to terms of Z3 (klee/lib/Solver/Z3Builder.cpp, Z3Builder.h,
    Expr/ArrayExprHash.h): the terms have the value of the expressions, under every interpretation
    of the array constants. *)
From stdpp Require Import pretty.
From S2P Require Import Prelude Bits APInt KExpr KBuilder KBuilderSound KType KCreate KCreateShape KVisitor KReads KRange KSolver Z3Api.

Section builder.
Context `{APInt, Z3Api}.

(** * Terms *)

Definition assert_that (b : bool) : option unit := if b then Some tt else None.
Definition getTrue : Z3_ast := Z3_mk_true.
Definition getFalse : Z3_ast := Z3_mk_false.
Definition bvConst32 (width value : Z) : Z3_ast := Z3_mk_unsigned_int64 value width.
Definition bvConst64 (width value : Z) : Z3_ast := Z3_mk_unsigned_int64 value width.
(** The loop that prepends words of zeros; [fuel] is at least the number of rounds. *)
Fixpoint zext_words (fuel : nat) (width : Z) (expr : Z3_ast) : option Z3_ast :=
  match fuel with
  | O => None
  | S n =>
      if 64 <? width then expr ← Z3_mk_concat (bvConst64 64 0) expr; zext_words n (width - 64) expr
      else Z3_mk_concat (bvConst64 width 0) expr
  end.
Definition bvZExtConst (width value : Z) : option Z3_ast :=
  if width <=? 64 then Some (bvConst64 width value)
  else zext_words (Z.to_nat width) (width - 64) (bvConst64 64 value).
Definition bvSExtConst (width value : Z) : option Z3_ast :=
  if width <=? 64 then Some (bvConst64 width value)
  else if negb (Z.shiftr value 63 =? 0) then Z3_mk_concat (Z3_mk_int64 (-1) (width - 64)) (bvConst64 64 value)
  else Z3_mk_concat (Z3_mk_int64 0 (width - 64)) (bvConst64 64 value).
Definition bvOne (width : Z) : option Z3_ast := bvZExtConst width 1.
Definition bvZero (width : Z) : option Z3_ast := bvZExtConst width 0.
Definition bvMinusOne (width : Z) : option Z3_ast := bvSExtConst width (u64 (-1)).

Definition bvExtract (expr : Z3_ast) (top bottom : Z) : option Z3_ast := Z3_mk_extract top bottom expr.
Definition eqExpr (a b : Z3_ast) : option Z3_ast := Z3_mk_eq a b.
Definition bvBoolExtract (expr : Z3_ast) (bit : Z) : option Z3_ast :=
  x ← bvExtract expr bit bit; one ← bvOne 1; Z3_mk_eq x one.
(** [Z3_get_bv_sort_size]: an error for another sort. *)
Definition getBVLength (expr : Z3_ast) : option Z := match Z3_get_sort expr with BVSort w => Some w | _ => None end.

Definition bvRightShift (expr : Z3_ast) (shift : Z) : option Z3_ast :=
  width ← getBVLength expr;
  if shift =? 0 then Some expr
  else if width <=? shift then bvZero width
  else zero ← bvZero shift; x ← bvExtract expr (width - 1) shift; Z3_mk_concat zero x.
Definition bvLeftShift (expr : Z3_ast) (shift : Z) : option Z3_ast :=
  width ← getBVLength expr;
  if shift =? 0 then Some expr
  else if width <=? shift then bvZero width
  else x ← bvExtract expr (width - shift - 1) 0; zero ← bvZero shift; Z3_mk_concat x zero.

Definition notExpr (expr : Z3_ast) : option Z3_ast := Z3_mk_not expr.
Definition bvNotExpr (expr : Z3_ast) : option Z3_ast := Z3_mk_bvnot expr.
Definition andExpr (lhs rhs : Z3_ast) : option Z3_ast := Z3_mk_bool z3_and lhs rhs.
Definition orExpr (lhs rhs : Z3_ast) : option Z3_ast := Z3_mk_bool z3_or lhs rhs.
Definition bvAndExpr (lhs rhs : Z3_ast) : option Z3_ast := Z3_mk_bv bvand lhs rhs.
Definition bvOrExpr (lhs rhs : Z3_ast) : option Z3_ast := Z3_mk_bv bvor lhs rhs.
Definition bvXorExpr (lhs rhs : Z3_ast) : option Z3_ast := Z3_mk_bv bvxor lhs rhs.
Definition iffExpr (lhs rhs : Z3_ast) : option Z3_ast :=
  _ ← assert_that (bool_decide (Z3_get_sort lhs = Z3_get_sort rhs)); _ ← assert_that (bool_decide (Z3_get_sort lhs = BoolSort));
  Z3_mk_bool z3_iff lhs rhs.
Definition bvSignExtend (src : Z3_ast) (width : Z) : option Z3_ast :=
  src_width ← getBVLength src; _ ← assert_that (src_width <=? width); Z3_mk_sign_ext (width - src_width) src.
Definition readExpr (array index : Z3_ast) : option Z3_ast := Z3_mk_select array index.
Definition iteExpr (condition whenTrue whenFalse : Z3_ast) : option Z3_ast := Z3_mk_ite condition whenTrue whenFalse.
Definition bvLtExpr (lhs rhs : Z3_ast) : option Z3_ast := Z3_mk_rel bvult lhs rhs.
Definition bvLeExpr (lhs rhs : Z3_ast) : option Z3_ast := Z3_mk_rel bvule lhs rhs.
Definition sbvLtExpr (lhs rhs : Z3_ast) : option Z3_ast := Z3_mk_rel bvslt lhs rhs.
Definition sbvLeExpr (lhs rhs : Z3_ast) : option Z3_ast := Z3_mk_rel bvsle lhs rhs.

(** Shifts by an amount that is a term: one case for each amount below [n], then [res]. *)
Fixpoint shift_cases (shifted : Z -> option Z3_ast) (shift : Z3_ast) (width : Z) (n : nat) (res : Z3_ast) : option Z3_ast :=
  match n with
  | O => Some res
  | S n =>
      c ← eqExpr shift (bvConst32 width (Z.of_nat n)); x ← shifted (Z.of_nat n); res ← iteExpr c x res;
      shift_cases shifted shift width n res
  end.
(** Shifting as far as the width gives zero. *)
Definition overshift_zero (shift : Z3_ast) (width : Z) (res : Z3_ast) : option Z3_ast :=
  shift_width ← getBVLength shift; ex ← bvLtExpr shift (bvConst32 shift_width width); zero ← bvZero width; iteExpr ex res zero.
Definition bvVarLeftShift (expr shift : Z3_ast) : option Z3_ast :=
  width ← getBVLength expr; res ← bvZero width;
  res ← shift_cases (bvLeftShift expr) shift width (Z.to_nat width) res; overshift_zero shift width res.
Definition bvVarRightShift (expr shift : Z3_ast) : option Z3_ast :=
  width ← getBVLength expr; res ← bvZero width;
  res ← shift_cases (bvRightShift expr) shift width (Z.to_nat width) res; overshift_zero shift width res.
Definition constructAShrByConstant (expr : Z3_ast) (shift : Z) (isSigned : Z3_ast) : option Z3_ast :=
  width ← getBVLength expr;
  if shift =? 0 then Some expr
  else if width <=? shift then bvZero width
  else
    ones ← bvMinusOne shift; x ← bvExtract expr (width - 1) shift; signed ← Z3_mk_concat ones x;
    unsigned ← bvRightShift expr shift; iteExpr isSigned signed unsigned.
Definition bvVarArithRightShift (expr shift : Z3_ast) : option Z3_ast :=
  width ← getBVLength expr; signedBool ← bvBoolExtract expr (width - 1);
  res ← constructAShrByConstant expr (width - 1) signedBool;
  res ← shift_cases (fun i => constructAShrByConstant expr i signedBool) shift width (Z.to_nat (width - 1)) res;
  overshift_zero shift width res.

(** * The builder *)

(** Arrays have no updates here; the hash of terms finds equal expressions. *)
Record Z3Builder := mkZ3Builder { constructed : list (expr * (Z3_ast * Z)); array_hash : gmap Array Z3_ast }.
Definition put_constructed (c : list (expr * (Z3_ast * Z))) (b : Z3Builder) : Z3Builder := mkZ3Builder c (array_hash b).
Definition put_arrays (m : gmap Array Z3_ast) (b : Z3Builder) : Z3Builder := mkZ3Builder (constructed b) m.
Definition clearConstructCache (b : Z3Builder) : Z3Builder := put_constructed [] b.
Fixpoint lookup_term (e : expr) (m : list (expr * (Z3_ast * Z))) : option (Z3_ast * Z) :=
  match m with [] => None | (k, r) :: m => if decide (e = k) then Some r else lookup_term e m end.

#[local] Open Scope sm_scope.
Abbreviation M := (SM Z3Builder solver_error).
(** A failed assertion, or the error handler: [abort()]. *)
Definition z3 {A} (o : option A) : M A := match o with Some a => sm_ret a | None => sm_throw AssertFailed end.
Definition z3_assert (b : bool) : M unit := if b then sm_ret tt else sm_throw AssertFailed.

Definition buildArray (name : string) (indexWidth valueWidth : Z) : Z3_ast := Z3_mk_const name indexWidth valueWidth.
(** The name of the array with the number of arrays before it. *)
Definition unique_name (root : Array) (count : nat) : string := (arr_name root +:+ pretty (N.of_nat count))%string.
Definition getInitialArray (root : Array) : M Z3_ast :=
  hash <-- sm_gets array_hash ;;
  match hash !! root with
  | Some array_expr => sm_ret array_expr
  | None =>
      let array_expr := buildArray (unique_name root (size hash)) Int32 Int8 in
      sm_modify (put_arrays (<[root := array_expr]> hash)) ;;;
      sm_ret array_expr
  end.
Definition getInitialRead (root : Array) (index : Z) : M Z3_ast :=
  array <-- getInitialArray root ;; z3 (readExpr array (bvConst32 32 index)).

(** Constants wider than 64 bits, word by word from the low end. *)
Fixpoint constant_words (fuel : nat) (Tmp : apint) (Res : Z3_ast) : option Z3_ast :=
  if 64 <? ap_width Tmp then
    match fuel with
    | O => None
    | S n =>
        let Tmp := CE_Extract Tmp 64 (ap_width Tmp - 64) in
        let Width := Z.min 64 (ap_width Tmp) in
        v ← getZExtValue (CE_Extract Tmp 0 Width) 64; Res ← Z3_mk_concat (bvConst64 Width v) Res;
        constant_words n Tmp Res
    end
  else Some Res.
Definition construct_constant (CE : apint) : option Z3_ast :=
  if ap_width CE =? 1 then Some (if isTrue CE then getTrue else getFalse)
  else if ap_width CE <=? 32 then v ← getZExtValue CE 32; Some (bvConst32 (ap_width CE) v)
  else if ap_width CE <=? 64 then v ← getZExtValue CE 64; Some (bvConst64 (ap_width CE) v)
  else v ← getZExtValue (CE_Extract CE 0 64) 64; constant_words (Z.to_nat (ap_width CE)) CE (bvConst64 64 v).

(** [bits32::indexOfSingleBit] and [bits64::indexOfSingleBit] *)
Definition mask_bit (x mask bits : Z) : Z := if Z.land x mask =? 0 then 0 else bits.
Definition indexOfSingleBit32 (x : Z) : option Z :=
  _ ← assert_that (Z.land x (u32 (x - 1)) =? 0);
  let res := mask_bit x 0xFFFF0000 16 + mask_bit x 0xFF00FF00 8 + mask_bit x 0xF0F0F0F0 4
    + mask_bit x 0xCCCCCCCC 2 + mask_bit x 0xAAAAAAAA 1 in
  _ ← assert_that (res <? 32); _ ← assert_that (u32 (Z.shiftl 1 res) =? x); Some res.
Definition indexOfSingleBit (x : Z) : option Z :=
  _ ← assert_that (withoutRightmostBit x =? 0);
  res ← indexOfSingleBit32 (u32 (Z.lor x (Z.shiftr x 32)));
  let res := res + mask_bit x (Z.shiftl 0xFFFFFFFF 32) 32 in
  _ ← assert_that (res <? 64); _ ← assert_that (u64 (Z.shiftl 1 res) =? x); Some res.
(** The divisor, when it is a constant power of two of at most 64 bits. *)
Definition power_of_two (e : expr) : option Z :=
  CE ← as_constant e;
  if ap_width CE <=? 64 then divisor ← getZExtValue CE 64; if isPowerOfTwo divisor then Some divisor else None else None.
(** [(unsigned)CE->getLimitedValue()] *)
Definition shift_amount (CE : apint) : Z := u32 (Z.min (ap_val CE) (2 ^ 64 - 1)).
Definition bv_op_of (k : Kind.arith) : bv_op :=
  match k with
  | Kind.Add => bvadd | Kind.Sub => bvsub | Kind.Mul => bvmul | Kind.UDiv => bvudiv | Kind.SDiv => bvsdiv
  | Kind.URem => bvurem | _ => bvsrem
  end.
(** A term of an operator of Z3, whose width is asserted. *)
Definition arith_term (k : Kind.arith) (width_out : Z) (left right : Z3_ast) : option Z3_ast :=
  res ← Z3_mk_bv (bv_op_of k) left right;
  w ← getBVLength res; _ ← assert_that (w =? width_out); Some res.
Definition urem_power (left : Z3_ast) (width_out divisor : Z) : option Z3_ast :=
  bits ← indexOfSingleBit divisor;
  if bits =? 0 then bvZero width_out
  else
    _ ← assert_that (bits <? width_out);
    zero ← bvZero (width_out - bits); x ← bvExtract left (bits - 1) 0; Z3_mk_concat zero x.
Definition udiv_power (left : Z3_ast) (divisor : Z) : option Z3_ast :=
  bits ← indexOfSingleBit divisor; bvRightShift left bits.
Definition extract_term (src : Z3_ast) (offset width_out : Z) : option Z3_ast :=
  if width_out =? 1 then bvBoolExtract src offset else bvExtract src (offset + width_out - 1) offset.
Definition zext_term (src : Z3_ast) (srcWidth width_out : Z) : option Z3_ast :=
  if srcWidth =? 1 then one ← bvOne width_out; zero ← bvZero width_out; iteExpr src one zero
  else _ ← assert_that (srcWidth <? width_out); zero ← bvZero (width_out - srcWidth); Z3_mk_concat zero src.
Definition sext_term (src : Z3_ast) (srcWidth width_out : Z) : option Z3_ast :=
  if srcWidth =? 1 then ones ← bvMinusOne width_out; zero ← bvZero width_out; iteExpr src ones zero
  else bvSignExtend src width_out.
Definition bit_term (k : Kind.arith) (width_out : Z) (left right : Z3_ast) : option Z3_ast :=
  match k with
  | Kind.And => if width_out =? 1 then andExpr left right else bvAndExpr left right
  | Kind.Or => if width_out =? 1 then orExpr left right else bvOrExpr left right
  | _ => if width_out =? 1 then not_right ← notExpr right; iteExpr left not_right right else bvXorExpr left right
  end.
Definition constant_shift_term (k : Kind.arith) (left : Z3_ast) (width_out : Z) (CE : apint) : option Z3_ast :=
  match k with
  | Kind.Shl => bvLeftShift left (shift_amount CE)
  | Kind.LShr => bvRightShift left (shift_amount CE)
  | _ => signedBool ← bvBoolExtract left (width_out - 1); constructAShrByConstant left (shift_amount CE) signedBool
  end.
Definition shift_term (k : Kind.arith) (left amount : Z3_ast) : option Z3_ast :=
  match k with
  | Kind.Shl => bvVarLeftShift left amount
  | Kind.LShr => bvVarRightShift left amount
  | _ => bvVarArithRightShift left amount
  end.
Definition eq_term (e_left : expr) (width_out : Z) (left right : Z3_ast) : option Z3_ast :=
  if width_out =? 1 then
    match as_constant e_left with
    | Some CE => if isTrue CE then Some right else notExpr right
    | None => iffExpr left right
    end
  else eqExpr left right.
Definition order_term (k : Kind.cmp) (left right : Z3_ast) : option Z3_ast :=
  match k with
  | Kind.Ult => bvLtExpr left right
  | Kind.Ule => bvLeExpr left right
  | Kind.Slt => sbvLtExpr left right
  | _ => sbvLeExpr left right
  end.

(** [construct] around the [constructActual] of an expression. *)
Definition with_hash (e : expr) (actual : M (Z3_ast * Z)) : M (Z3_ast * Z) :=
  if is_const e then actual
  else
    cache <-- sm_gets constructed ;;
    match lookup_term e cache with
    | Some r => sm_ret r
    | None => res <-- actual ;; sm_modify (fun b => put_constructed ((e, res) :: constructed b) b) ;;; sm_ret res
    end.

(** The operators, from the constructions of their operands. *)
Definition construct_operator (k : Kind.arith) (e_right : expr) (l r : M (Z3_ast * Z)) : M (Z3_ast * Z) :=
  match k with
  | Kind.Add | Kind.Sub | Kind.SRem =>
      left <-- l ;; right <-- r ;;
      z3_assert (negb (snd right =? 1)) ;;;
      res <-- z3 (arith_term k (snd right) (fst left) (fst right)) ;; sm_ret (res, snd right)
  | Kind.Mul =>
      right <-- r ;; z3_assert (negb (snd right =? 1)) ;;; left <-- l ;;
      res <-- z3 (arith_term k (snd left) (fst left) (fst right)) ;; sm_ret (res, snd left)
  | Kind.SDiv =>
      left <-- l ;; z3_assert (negb (snd left =? 1)) ;;; right <-- r ;;
      res <-- z3 (arith_term k (snd right) (fst left) (fst right)) ;; sm_ret (res, snd right)
  | Kind.UDiv =>
      left <-- l ;; z3_assert (negb (snd left =? 1)) ;;;
      match power_of_two e_right with
      | Some divisor => res <-- z3 (udiv_power (fst left) divisor) ;; sm_ret (res, snd left)
      | None =>
          right <-- r ;;
          res <-- z3 (arith_term k (snd right) (fst left) (fst right)) ;; sm_ret (res, snd right)
      end
  | Kind.URem =>
      left <-- l ;; z3_assert (negb (snd left =? 1)) ;;;
      match power_of_two e_right with
      | Some divisor => res <-- z3 (urem_power (fst left) (snd left) divisor) ;; sm_ret (res, snd left)
      | None =>
          right <-- r ;;
          res <-- z3 (arith_term k (snd right) (fst left) (fst right)) ;; sm_ret (res, snd right)
      end
  | Kind.And | Kind.Or | Kind.Xor =>
      left <-- l ;; right <-- r ;;
      res <-- z3 (bit_term k (snd right) (fst left) (fst right)) ;; sm_ret (res, snd right)
  | Kind.Shl | Kind.LShr | Kind.AShr =>
      left <-- l ;; z3_assert (negb (snd left =? 1)) ;;;
      match as_constant e_right with
      | Some CE => res <-- z3 (constant_shift_term k (fst left) (snd left) CE) ;; sm_ret (res, snd left)
      | None =>
          amount <-- r ;;
          res <-- z3 (shift_term k (fst left) (fst amount)) ;; sm_ret (res, snd left)
      end
  end.
(** The comparisons; the default is an expression of no kind that is constructed. *)
Definition construct_comparison (k : Kind.cmp) (e_left : expr) (l r : M (Z3_ast * Z)) : M (Z3_ast * Z) :=
  match k with
  | Kind.Eq =>
      left <-- l ;; right <-- r ;;
      res <-- z3 (eq_term e_left (snd right) (fst left) (fst right)) ;; sm_ret (res, 1)
  | Kind.Ult | Kind.Ule | Kind.Slt | Kind.Sle =>
      left <-- l ;; right <-- r ;;
      z3_assert (negb (snd right =? 1)) ;;;
      res <-- z3 (order_term k (fst left) (fst right)) ;; sm_ret (res, 1)
  | _ => sm_throw AssertFailed
  end.
(** The term with its width, [width_out]: that of the operand constructed last, unless it is set.  The array of a read is
    constructed before its index: C++ leaves the order of the two arguments open. *)
Fixpoint construct (e : expr) : M (Z3_ast * Z) :=
  with_hash e
    match e with
    | EConstant CE => res <-- z3 (construct_constant CE) ;; sm_ret (res, ap_width CE)
    | ERead root index =>
        array <-- getInitialArray root ;; i <-- construct index ;;
        res <-- z3 (readExpr array (fst i)) ;; sm_ret (res, Int8)
    | ESelect c t f =>
        cond <-- construct c ;; tExpr <-- construct t ;; fExpr <-- construct f ;;
        res <-- z3 (iteExpr (fst cond) (fst tExpr) (fst fExpr)) ;; sm_ret (res, snd fExpr)
    | EConcat l r =>
        right <-- construct r ;; left <-- construct l ;;
        res <-- z3 (Z3_mk_concat (fst left) (fst right)) ;; sm_ret (res, getWidth e)
    | EExtract s offset width =>
        src <-- construct s ;; res <-- z3 (extract_term (fst src) offset width) ;; sm_ret (res, width)
    | EZExt s width =>
        src <-- construct s ;; res <-- z3 (zext_term (fst src) (snd src) width) ;; sm_ret (res, width)
    | ESExt s width =>
        src <-- construct s ;; res <-- z3 (sext_term (fst src) (snd src) width) ;; sm_ret (res, width)
    | ENot s =>
        src <-- construct s ;;
        res <-- z3 (if snd src =? 1 then notExpr (fst src) else bvNotExpr (fst src)) ;; sm_ret (res, snd src)
    | EArith k l r => construct_operator k r (construct l) (construct r)
    | ECmp k l r => construct_comparison k l (construct l) (construct r)
    end.
End builder.
