(* ===== verification/Z3Sound.v ===== *)
(** What Z3Builder builds: the terms of shifts, divisions by powers of two, casts and wide constants
    have the values the expressions have, and so has every term constructed. *)
From stdpp Require Import pretty.
From S2P Require Import Prelude Bits APInt KExpr KBuilder KBuilderSound KType KCreate KCreateShape KCreateSound KVisitor KReads KRange KSolver KEval KNegation Z3Api Z3Builder.

(** * Terms *)

Section terms.
Context `{Laws : APIntLaws, ZL : Z3Laws}.

(** What an operation makes: a bit-vector or a boolean with a value in every interpretation. *)
Definition makes_bv (w : Z) (o : option Z3_ast) (f : interpretation -> Z) : Prop :=
  makes o (fun c => is_bv w c /\ forall ρ, bv_of ρ c = f ρ).
Definition makes_bool (o : option Z3_ast) (f : interpretation -> bool) : Prop :=
  makes o (fun c => is_bool c /\ forall ρ, bool_of ρ c = f ρ).

Lemma makes_ret (P : Z3_ast -> Prop) a : P a -> makes (Some a) P.
Proof. by exists a. Qed.
Lemma makes_bind (o : option Z3_ast) (k : Z3_ast -> option Z3_ast) (P Q : Z3_ast -> Prop) :
  makes o P -> (forall c, P c -> makes (k c) Q) -> makes (o ≫= k) Q.
Proof. intros (c & -> & Hc) Hk. by apply Hk. Qed.
Lemma makes_bv_ext w o f g : makes_bv w o f -> (forall ρ, f ρ = g ρ) -> makes_bv w o g.
Proof. intros (c & -> & Hs & Hv) Hfg. exists c. split; [done|]. split; [done|]. intros ρ. by rewrite Hv. Qed.
Lemma makes_bool_ext o f g : makes_bool o f -> (forall ρ, f ρ = g ρ) -> makes_bool o g.
Proof. intros (c & -> & Hs & Hv) Hfg. exists c. split; [done|]. split; [done|]. intros ρ. by rewrite Hv. Qed.
Lemma getBVLength_spec w a : is_bv w a -> getBVLength a = Some w.
Proof. unfold getBVLength. by intros ->. Qed.

(** ** Constants *)

Lemma bvConst_spec w v : 0 < w -> 0 <= v < 2 ^ 64 -> is_bv w (bvConst64 w v) /\ forall ρ, bv_of ρ (bvConst64 w v) = wrap w v.
Proof. intros Hw Hv. by apply mk_unsigned_law. Qed.
Lemma bvConst_value w v ρ : 0 < w -> 0 <= v < 2 ^ 64 -> v < 2 ^ w -> bv_of ρ (bvConst64 w v) = v.
Proof. intros Hw Hv Hlt. rewrite (proj2 (bvConst_spec w v Hw Hv)). apply wrap_small. lia. Qed.
Lemma zext_words_spec v : forall fuel width u expr, (Z.to_nat width <= fuel)%nat -> 0 < width -> 0 < u ->
  is_bv u expr -> (forall ρ, bv_of ρ expr = v) -> makes_bv (width + u) (zext_words fuel width expr) (fun _ => v).
Proof.
  induction fuel as [|fuel IH]; intros width u expr Hf Hw Hu Hs Hv; [lia|]. cbn [zext_words].
  assert (forall z, 0 < z -> is_bv z (bvConst64 z 0) /\ forall ρ, bv_of ρ (bvConst64 z 0) = 0) as Hz.
  { intros z Hz. destruct (bvConst_spec z 0 Hz ltac:(lia)) as [? Hv0]. split; [done|]. intros ρ. rewrite Hv0. apply Zmod_0_l. }
  destruct (Z.ltb_spec 64 width).
  - destruct (Hz 64 ltac:(lia)) as [Hs0 Hv0]. eapply makes_bind; [by apply (mk_concat_law 64 u)|]. intros c [Hc Hcv].
    replace (width + u) with (width - 64 + (64 + u)) by lia. apply IH; [lia..|done|]. intros ρ. by rewrite Hcv, Hv0, Hv, Z.shiftl_0_l.
  - destruct (Hz width Hw) as [Hs0 Hv0]. destruct (mk_concat_law width u _ expr Hw Hu Hs0 Hs) as (c & -> & Hc & Hcv).
    apply makes_ret. split; [done|]. intros ρ. by rewrite Hcv, Hv0, Hv, Z.shiftl_0_l.
Qed.
Lemma bvZExtConst_spec w v : 0 < w -> 0 <= v < 2 ^ 64 -> v < 2 ^ w -> makes_bv w (bvZExtConst w v) (fun _ => v).
Proof.
  intros Hw Hv Hlt. unfold bvZExtConst. destruct (Z.leb_spec w 64).
  - apply makes_ret. split; [by apply bvConst_spec|]. intros ρ. by apply bvConst_value.
  - replace w with (w - 64 + 64) at 1 by lia. apply zext_words_spec; [lia..|by apply bvConst_spec|].
    intros ρ. apply bvConst_value; lia.
Qed.
Lemma bvOne_spec w : 0 < w -> makes_bv w (bvOne w) (fun _ => 1).
Proof. intros Hw. apply bvZExtConst_spec; [done|lia|]. apply Z.pow_gt_1; lia. Qed.
Lemma bvZero_spec w : 0 < w -> makes_bv w (bvZero w) (fun _ => 0).
Proof. intros Hw. apply bvZExtConst_spec; [done|lia|]. apply Z.pow_pos_nonneg; lia. Qed.
Lemma wrap_ones w : 0 <= w -> wrap w (-1) = Z.ones w.
Proof. intros Hw. by rewrite wrap_land, Z.land_m1_l. Qed.
Lemma bvMinusOne_spec w : 0 < w -> makes_bv w (bvMinusOne w) (fun _ => Z.ones w).
Proof.
  intros Hw. unfold bvMinusOne, bvSExtConst. assert (u64 (-1) = Z.ones 64) as Hm by done. rewrite Hm.
  assert (0 <= Z.ones 64 < 2 ^ 64) as Hr by done. destruct (Z.leb_spec w 64).
  - apply makes_ret. split; [by apply bvConst_spec|]. intros ρ. rewrite (proj2 (bvConst_spec w _ Hw Hr)).
    unfold wrap. apply Z.ones_mod_pow2. lia.
  - replace (negb (Z.shiftr (Z.ones 64) 63 =? 0)) with true by done.
    destruct (mk_int_law (-1) (w - 64) ltac:(lia) ltac:(lia)) as [Hs1 Hv1]. destruct (bvConst_spec 64 (Z.ones 64) ltac:(lia) Hr) as [Hs2 Hv2].
    destruct (mk_concat_law (w - 64) 64 _ _ ltac:(lia) ltac:(lia) Hs1 Hs2) as (c & -> & Hc & Hcv). apply makes_ret.
    replace (w - 64 + 64) with w in Hc by lia. split; [done|]. intros ρ. rewrite Hcv, Hv1, Hv2, wrap_ones by lia.
    apply Z.bits_inj'. intros i Hi. rewrite Z.lor_spec, Z.shiftl_spec by lia. change (u64 (Z.ones 64)) with (Z.ones 64).
    rewrite !Z.testbit_ones by lia. destruct (Z.ltb_spec i 64), (Z.ltb_spec i w), (Z.leb_spec 0 i), (Z.ltb_spec (i - 64) (w - 64)), (Z.leb_spec 0 (i - 64)); try done; lia.
Qed.

(** ** Bits and shifts *)

Lemma bvExtract_spec w a hi lo : 0 <= lo <= hi -> hi < w -> is_bv w a ->
  makes_bv (hi - lo + 1) (bvExtract a hi lo) (fun ρ => wrap (hi - lo + 1) (Z.shiftr (bv_of ρ a) lo)).
Proof. intros Hlo Hhi Ha. by apply mk_extract_law with w. Qed.
Lemma bit_value x i : 0 <= i -> wrap 1 (Z.shiftr x i) = Z.b2z (Z.testbit x i).
Proof. intros Hi. rewrite Z.testbit_spec', Z.shiftr_div_pow2 by done. done. Qed.
Lemma bvBoolExtract_spec w a bit : 0 <= bit < w -> is_bv w a -> makes_bool (bvBoolExtract a bit) (fun ρ => Z.testbit (bv_of ρ a) bit).
Proof.
  intros Hb Ha. unfold bvBoolExtract. eapply makes_bind; [apply (bvExtract_spec w); [lia|lia|done]|]. intros x [Hx Hxv].
  replace (bit - bit + 1) with 1 in * by lia. eapply makes_bind; [by apply bvOne_spec|]. intros one [Hone Honev].
  destruct (mk_eq_law 1 x one Hx Hone) as (c & -> & Hc & Hcv). apply makes_ret. split; [done|]. intros ρ.
  rewrite Hcv, Hxv, Honev, bit_value by lia. by destruct (Z.testbit _ _).
Qed.
Lemma shiftr_small w x s : 0 <= x < 2 ^ w -> w <= s -> Z.shiftr x s = 0.
Proof.
  intros Hx Hs. destruct (Z.eq_dec x 0) as [->|]; [apply Z.shiftr_0_l|]. apply Z.shiftr_eq_0; [lia|].
  apply Z.log2_lt_pow2; [lia|]. eapply Z.lt_le_trans; [apply Hx|]. apply Z.pow_le_mono_r; lia.
Qed.
Lemma wrap_shiftl_big w x s : 0 <= w <= s -> wrap w (Z.shiftl x s) = 0.
Proof.
  intros Hs. rewrite Z.shiftl_mul_pow2 by lia. replace s with (s - w + w) by lia. rewrite Z.pow_add_r, Z.mul_assoc by lia.
  apply Z_mod_mult.
Qed.
Lemma shiftr_bound w x s : 0 <= s <= w -> 0 <= x < 2 ^ w -> 0 <= Z.shiftr x s < 2 ^ (w - s).
Proof.
  intros Hs Hx. rewrite Z.shiftr_div_pow2 by lia. pose proof (Z.pow_pos_nonneg 2 s).
  split; [apply Z.div_pos; lia|]. apply Z.div_lt_upper_bound; [lia|]. rewrite <- Z.pow_add_r by lia. replace (s + (w - s)) with w by lia. lia.
Qed.
Lemma bvRightShift_spec w a s : 0 < w -> is_bv w a -> 0 <= s -> makes_bv w (bvRightShift a s) (fun ρ => Z.shiftr (bv_of ρ a) s).
Proof.
  intros Hw Ha Hs. unfold bvRightShift. rewrite (getBVLength_spec w a Ha). cbn [mbind option_bind].
  assert (forall ρ, 0 <= bv_of ρ a < 2 ^ w) as Hr by (intros ρ; by apply bv_range_law).
  destruct (Z.eqb_spec s 0) as [->|]; [by apply makes_ret|]. destruct (Z.leb_spec w s).
  - eapply makes_bv_ext; [by apply bvZero_spec|]. intros ρ. symmetry. by apply (shiftr_small w).
  - eapply makes_bind; [apply bvZero_spec; lia|]. intros zero [Hz Hzv].
    eapply makes_bind; [apply (bvExtract_spec w); [lia..|done]|]. intros x [Hx Hxv]. replace (w - 1 - s + 1) with (w - s) in * by lia.
    destruct (mk_concat_law s (w - s) zero x ltac:(lia) ltac:(lia) Hz Hx) as (c & -> & Hc & Hcv). apply makes_ret.
    replace (s + (w - s)) with w in Hc by lia. split; [done|]. intros ρ. rewrite Hcv, Hzv, Hxv, Z.shiftl_0_l.
    apply wrap_small, shiftr_bound; [lia|done].
Qed.
Lemma bvLeftShift_spec w a s : 0 < w -> is_bv w a -> 0 <= s -> makes_bv w (bvLeftShift a s) (fun ρ => wrap w (Z.shiftl (bv_of ρ a) s)).
Proof.
  intros Hw Ha Hs. unfold bvLeftShift. rewrite (getBVLength_spec w a Ha). cbn [mbind option_bind].
  assert (forall ρ, 0 <= bv_of ρ a < 2 ^ w) as Hr by (intros ρ; by apply bv_range_law).
  destruct (Z.eqb_spec s 0) as [->|].
  { apply makes_ret. split; [done|]. intros ρ. by rewrite Z.shiftl_0_r, wrap_small. }
  destruct (Z.leb_spec w s).
  - eapply makes_bv_ext; [by apply bvZero_spec|]. intros ρ. symmetry. apply wrap_shiftl_big. lia.
  - eapply makes_bind; [apply (bvExtract_spec w); [lia..|done]|]. intros x [Hx Hxv]. replace (w - s - 1 - 0 + 1) with (w - s) in * by lia.
    eapply makes_bind; [apply bvZero_spec; lia|]. intros zero [Hz Hzv].
    destruct (mk_concat_law (w - s) s x zero ltac:(lia) ltac:(lia) Hx Hz) as (c & -> & Hc & Hcv). apply makes_ret.
    replace (w - s + s) with w in Hc by lia. split; [done|]. intros ρ. rewrite Hcv, Hzv, Hxv, Z.lor_0_r, Z.shiftr_0_r.
    unfold wrap. rewrite !Z.shiftl_mul_pow2 by lia. replace (2 ^ w) with (2 ^ (w - s) * 2 ^ s) by (rewrite <- Z.pow_add_r by lia; f_equal; lia).
    rewrite Z.mul_mod_distr_r; [done|apply Z.pow_nonzero; lia|apply Z.pow_nonzero; lia].
Qed.
(** A sign bit that is set fills the high bits. *)
Lemma ashr_bits w x s : 0 < s < w -> 0 <= x < 2 ^ w ->
  wrap w (Z.shiftr (swrap w x) s) =
    if Z.testbit x (w - 1) then Z.lor (Z.shiftl (Z.ones s) (w - s)) (Z.shiftr x s) else Z.shiftr x s.
Proof.
  intros Hs Hx. pose proof (testbit_high w x) as Hhigh. apply Z.bits_inj'. intros i Hi. rewrite wrap_spec, Z.shiftr_spec, swrap_spec by lia.
  destruct (Z.testbit x (w - 1)) eqn:Hsign.
  - rewrite Z.lor_spec, Z.shiftl_spec, Z.shiftr_spec, Z.testbit_ones by lia.
    destruct (Z.ltb_spec i w); cbn [andb]; [|rewrite Hhigh by lia].
    + destruct (Z_lt_le_dec i (w - s)).
      * rewrite Z.min_l by lia. by rewrite (proj2 (Z.leb_gt _ _)) by lia.
      * rewrite Z.min_r by lia. by rewrite (proj2 (Z.leb_le _ _)), (proj2 (Z.ltb_lt _ _)) by lia.
    + by rewrite (proj2 (Z.ltb_ge _ _)), andb_false_r by lia.
  - rewrite Z.shiftr_spec by lia. destruct (Z.ltb_spec i w); cbn [andb]; [|by rewrite Hhigh by lia].
    destruct (Z_lt_le_dec i (w - s)); [by rewrite Z.min_l by lia|]. rewrite Z.min_r, Hsign by lia. symmetry. apply Hhigh; lia.
Qed.
Lemma constructAShr_spec w a s sign : 0 < w -> is_bv w a -> 0 <= s < w -> is_bool sign ->
  (forall ρ, bool_of ρ sign = Z.testbit (bv_of ρ a) (w - 1)) ->
  makes_bv w (constructAShrByConstant a s sign) (fun ρ => wrap w (Z.shiftr (swrap w (bv_of ρ a)) s)).
Proof.
  intros Hw Ha Hs Hsg Hsv. unfold constructAShrByConstant. rewrite (getBVLength_spec w a Ha). cbn [mbind option_bind].
  assert (forall ρ, 0 <= bv_of ρ a < 2 ^ w) as Hr by (intros ρ; by apply bv_range_law).
  destruct (Z.eqb_spec s 0) as [->|].
  { apply makes_ret. split; [done|]. intros ρ. by rewrite Z.shiftr_0_r, wrap_swrap, wrap_small. }
  rewrite (proj2 (Z.leb_gt w s)) by lia. eapply makes_bind; [apply bvMinusOne_spec; lia|]. intros ones [Ho Hov].
  eapply makes_bind; [apply (bvExtract_spec w); [lia..|done]|]. intros x [Hx Hxv]. replace (w - 1 - s + 1) with (w - s) in * by lia.
  eapply makes_bind; [apply (mk_concat_law s (w - s)); [lia..|done|done]|]. intros signed [Hc Hcv].
  replace (s + (w - s)) with w in Hc by lia.
  eapply makes_bind; [apply (bvRightShift_spec w); [done..|lia]|]. intros unsigned [Hu Huv].
  destruct (mk_ite_bv_law w sign signed unsigned Hw Hsg Hc Hu) as (r & Hr' & Hrs & Hrv). exists r. split; [exact Hr'|]. split; [done|].
  intros ρ. rewrite Hrv, Hsv, Hcv, Hov, Hxv, Huv, ashr_bits by (done || lia).
  rewrite (wrap_small (w - s)) by (apply shiftr_bound; [lia|done]). done.
Qed.

(** ** Shifts by a term: the nested cases choose the amount *)

Lemma shift_cases_spec w (shifted : Z -> option Z3_ast) sh (f : Z -> interpretation -> Z) : 0 < w -> w < 2 ^ 32 -> is_bv w sh -> forall n,
  Z.of_nat n <= w -> (forall s, 0 <= s < Z.of_nat n -> makes_bv w (shifted s) (f s)) -> forall res g,
  is_bv w res -> (forall ρ, bv_of ρ res = g ρ) ->
  makes_bv w (shift_cases shifted sh w n res) (fun ρ => if bv_of ρ sh <? Z.of_nat n then f (bv_of ρ sh) ρ else g ρ).
Proof.
  intros Hw Hw32 Hsh. assert (forall ρ, 0 <= bv_of ρ sh < 2 ^ w) as Hr by (intros ρ; by apply bv_range_law).
  induction n as [|n IH]; intros Hn Hf res g Hres Hg; cbn [shift_cases].
  { apply makes_ret. split; [done|]. intros ρ. rewrite (proj2 (Z.ltb_ge _ _)); [apply Hg|]. apply Hr. }
  assert (w < 2 ^ w) as Hpow by (apply Z.pow_gt_lin_r; lia).
  assert (forall ρ, bv_of ρ (bvConst32 w (Z.of_nat n)) = Z.of_nat n) as Hk by (intros ρ; apply bvConst_value; lia).
  eapply makes_bind; [apply (mk_eq_law w); [done|apply (bvConst_spec w); lia]|]. intros c [Hc Hcv].
  eapply makes_bind; [apply (Hf (Z.of_nat n)); lia|]. intros x [Hx Hxv].
  eapply makes_bind; [by apply (mk_ite_bv_law w)|]. intros r [Hr' Hrv].
  eapply makes_bv_ext; [apply (IH ltac:(lia) (fun s Hs => Hf s ltac:(lia)) r (fun ρ => if bv_of ρ sh =? Z.of_nat n then f (Z.of_nat n) ρ else g ρ) Hr')|].
  - intros ρ. by rewrite Hrv, Hcv, Hk, Hxv, Hg.
  - intros ρ. cbv beta. destruct (Z.ltb_spec (bv_of ρ sh) (Z.of_nat n)), (Z.ltb_spec (bv_of ρ sh) (Z.of_nat (S n))), (Z.eqb_spec (bv_of ρ sh) (Z.of_nat n)); try done; try lia.
    by rewrite e.
Qed.
Lemma overshift_spec w sh res f : 0 < w -> w < 2 ^ 32 -> is_bv w sh -> is_bv w res -> (forall ρ, bv_of ρ res = f ρ) ->
  makes_bv w (overshift_zero sh w res) (fun ρ => if bv_of ρ sh <? w then f ρ else 0).
Proof.
  intros Hw Hw32 Hsh Hres Hf. unfold overshift_zero. rewrite (getBVLength_spec w sh Hsh). cbn [mbind option_bind].
  assert (w < 2 ^ w) as Hpow by (apply Z.pow_gt_lin_r; lia).
  assert (forall ρ, bv_of ρ (bvConst32 w w) = w) as Hk by (intros ρ; apply bvConst_value; lia).
  eapply makes_bind; [apply (mk_rel_law bvult w); [done|done|apply (bvConst_spec w); lia]|]. intros ex [Hex Hexv].
  eapply makes_bind; [by apply bvZero_spec|]. intros zero [Hz Hzv].
  destruct (mk_ite_bv_law w ex res zero Hw Hex Hres Hz) as (r & Hr & Hrs & Hrv). exists r. split; [exact Hr|]. split; [done|].
  intros ρ. by rewrite Hrv, Hexv, Hzv, Hf, Hk.
Qed.
Section variable_shifts.
Context (w : Z) (a sh : Z3_ast) (Hw : 0 < w) (Hw32 : w < 2 ^ 32) (Ha : is_bv w a) (Hsh : is_bv w sh).
Lemma value_bounds ρ : 0 <= bv_of ρ a < 2 ^ w.
Proof. by apply bv_range_law. Qed.
Lemma bvVarLeftShift_spec : makes_bv w (bvVarLeftShift a sh) (fun ρ => wrap w (Z.shiftl (bv_of ρ a) (bv_of ρ sh))).
Proof.
  unfold bvVarLeftShift. rewrite (getBVLength_spec w a Ha). cbn [mbind option_bind].
  eapply makes_bind; [by apply bvZero_spec|]. intros res [Hres Hresv].
  eapply makes_bind; [apply (shift_cases_spec w _ sh (fun s ρ => wrap w (Z.shiftl (bv_of ρ a) s))); [done..|lia| |done|exact Hresv]|].
  { intros s Hs. apply bvLeftShift_spec; [done..|lia]. }
  intros r [Hr Hrv]. eapply makes_bv_ext; [exact (overshift_spec w sh r _ Hw Hw32 Hsh Hr Hrv)|]. intros ρ. cbv beta. rewrite Z2Nat.id by lia.
  destruct (Z.ltb_spec (bv_of ρ sh) w); [done|]. symmetry. apply wrap_shiftl_big. lia.
Qed.
Lemma bvVarRightShift_spec : makes_bv w (bvVarRightShift a sh) (fun ρ => Z.shiftr (bv_of ρ a) (bv_of ρ sh)).
Proof.
  unfold bvVarRightShift. rewrite (getBVLength_spec w a Ha). cbn [mbind option_bind].
  eapply makes_bind; [by apply bvZero_spec|]. intros res [Hres Hresv].
  eapply makes_bind; [apply (shift_cases_spec w _ sh (fun s ρ => Z.shiftr (bv_of ρ a) s)); [done..|lia| |done|exact Hresv]|].
  { intros s Hs. apply bvRightShift_spec; [done..|lia]. }
  intros r [Hr Hrv]. eapply makes_bv_ext; [exact (overshift_spec w sh r _ Hw Hw32 Hsh Hr Hrv)|]. intros ρ. cbv beta. rewrite Z2Nat.id by lia.
  destruct (Z.ltb_spec (bv_of ρ sh) w); [done|]. symmetry. apply (shiftr_small w); [apply value_bounds|done].
Qed.
(** Shifting arithmetically by the width or more gives zero, whatever the sign. *)
Lemma bvVarArithRightShift_spec : makes_bv w (bvVarArithRightShift a sh)
  (fun ρ => if bv_of ρ sh <? w then wrap w (Z.shiftr (swrap w (bv_of ρ a)) (bv_of ρ sh)) else 0).
Proof.
  unfold bvVarArithRightShift. rewrite (getBVLength_spec w a Ha). cbn [mbind option_bind].
  eapply makes_bind; [apply (bvBoolExtract_spec w a (w - 1)); [lia|done]|]. intros sign [Hsg Hsv].
  eapply makes_bind; [apply (constructAShr_spec w a (w - 1) sign Hw Ha ltac:(lia) Hsg Hsv)|]. intros res [Hres Hresv].
  eapply makes_bind; [apply (shift_cases_spec w _ sh (fun s ρ => wrap w (Z.shiftr (swrap w (bv_of ρ a)) s))); [done..|lia| |done|exact Hresv]|].
  { intros s Hs. apply constructAShr_spec; [done..|lia|done|done]. }
  intros r [Hr Hrv]. eapply makes_bv_ext; [exact (overshift_spec w sh r _ Hw Hw32 Hsh Hr Hrv)|]. intros ρ. cbv beta. rewrite Z2Nat.id by lia.
  destruct (Z.ltb_spec (bv_of ρ sh) w); [|done]. destruct (Z.ltb_spec (bv_of ρ sh) (w - 1)); [done|].
  by replace (bv_of ρ sh) with (w - 1) by lia.
Qed.
End variable_shifts.

(** ** Powers of two *)

Lemma index_of_power k : 0 <= k < 64 -> indexOfSingleBit (2 ^ k) = Some k.
Proof.
  assert (forallb (fun k => bool_decide (indexOfSingleBit (2 ^ k) = Some k)) (seqZ 0 64) = true) as Hall by (vm_compute; reflexivity).
  intros Hk. apply (bool_decide_eq_true_1 _), (proj1 (forallb_forall _ _) Hall), list_elem_of_In, elem_of_seqZ. lia.
Qed.
Lemma indexOfSingleBit_spec x : 0 <= x < 2 ^ 64 -> isPowerOfTwo x = true -> exists k, 0 <= k < 64 /\ x = 2 ^ k /\ indexOfSingleBit x = Some k.
Proof.
  intros Hx Hp. unfold isPowerOfTwo, withoutRightmostBit in Hp. destruct x as [|p|]; [done| |lia]. change (Z.pos p =? 0) with false in Hp. cbv iota in Hp.
  rewrite wrap_small in Hp by lia. destruct (clear_bit p) as [[_ Hpow]|(q & Hq & _)]; [|by rewrite Hq in Hp].
  assert (0 <= Z.log2 (Z.pos p) < 64) as Hl by (split; [apply Z.log2_nonneg|apply Z.log2_lt_pow2; lia]).
  exists (Z.log2 (Z.pos p)). split; [done|]. split; [done|]. rewrite Hpow at 1. by apply index_of_power.
Qed.
Lemma udiv_power_spec w a d : 0 < w -> is_bv w a -> 0 <= d < 2 ^ 64 -> isPowerOfTwo d = true ->
  makes_bv w (udiv_power a d) (fun ρ => bv_of ρ a / d).
Proof.
  intros Hw Ha Hd Hp. destruct (indexOfSingleBit_spec d Hd Hp) as (k & Hk & -> & Hi). unfold udiv_power. rewrite Hi. cbn [mbind option_bind].
  eapply makes_bv_ext; [apply (bvRightShift_spec w); [done..|lia]|]. intros ρ. apply Z.shiftr_div_pow2. lia.
Qed.
Lemma urem_power_spec w a d : 0 < w -> is_bv w a -> 0 <= d < 2 ^ 64 -> d < 2 ^ w -> isPowerOfTwo d = true ->
  makes_bv w (urem_power a w d) (fun ρ => bv_of ρ a mod d).
Proof.
  intros Hw Ha Hd Hlt Hp. destruct (indexOfSingleBit_spec d Hd Hp) as (k & Hk & -> & Hi). unfold urem_power. rewrite Hi. cbn [mbind option_bind].
  destruct (Z.eqb_spec k 0) as [->|].
  { eapply makes_bv_ext; [by apply bvZero_spec|]. intros ρ. symmetry. apply Z.mod_1_r. }
  assert (k < w) as Hkw by (apply (Z.pow_lt_mono_r_iff 2); lia). rewrite (proj2 (Z.ltb_lt _ _) Hkw). cbn [assert_that mbind option_bind].
  eapply makes_bind; [apply bvZero_spec; lia|]. intros zero [Hz Hzv].
  eapply makes_bind; [apply (bvExtract_spec w); [lia..|done]|]. intros x [Hx Hxv]. replace (k - 1 - 0 + 1) with k in * by lia.
  destruct (mk_concat_law (w - k) k zero x ltac:(lia) ltac:(lia) Hz Hx) as (c & -> & Hc & Hcv). apply makes_ret.
  replace (w - k + k) with w in Hc by lia. split; [done|]. intros ρ. by rewrite Hcv, Hzv, Hxv, Z.shiftl_0_l, Z.shiftr_0_r.
Qed.
Lemma power_of_two_spec e d : power_of_two e = Some d ->
  exists CE, e = EConstant CE /\ ap_width CE <= 64 /\ d = ap_val CE /\ isPowerOfTwo d = true.
Proof.
  unfold power_of_two. destruct e as [CE| | | | | | | | |]; try done. cbn [as_constant mbind option_bind].
  destruct (Z.leb_spec (ap_width CE) 64) as [Hle|]; [|done]. unfold getZExtValue. rewrite (proj2 (Z.leb_le _ _) Hle). cbn.
  destruct (isPowerOfTwo (ap_val CE)) eqn:Hp; [|done]. intros [= <-]. by exists CE.
Qed.

(** ** Terms of a width: a boolean for a single bit *)

Definition has_width (w : Z) (a : Z3_ast) : Prop := if w =? 1 then is_bool a else is_bv w a.
Definition val_of (w : Z) (ρ : interpretation) (a : Z3_ast) : Z := if w =? 1 then Z.b2z (bool_of ρ a) else bv_of ρ a.
Definition makes_term (w : Z) (o : option Z3_ast) (f : interpretation -> Z) : Prop :=
  makes o (fun c => has_width w c /\ forall ρ, val_of w ρ c = f ρ).

Lemma makes_term_bv w o f : w <> 1 -> makes_bv w o f -> makes_term w o f.
Proof. intros Hw. unfold makes_term, has_width, val_of. by rewrite (proj2 (Z.eqb_neq w 1) Hw). Qed.
Lemma makes_term_bool o f : makes_bool o f -> makes_term 1 o (fun ρ => Z.b2z (f ρ)).
Proof. intros (c & -> & Hc & Hcv). apply makes_ret. split; [done|]. intros ρ. unfold val_of. by rewrite Hcv. Qed.
Lemma makes_term_ext w o f g : makes_term w o f -> (forall ρ, f ρ = g ρ) -> makes_term w o g.
Proof. intros (c & -> & Hs & Hv) Hfg. exists c. split; [done|]. split; [done|]. intros ρ. by rewrite Hv. Qed.
Lemma wide_term w a : w <> 1 -> has_width w a -> is_bv w a /\ forall ρ, val_of w ρ a = bv_of ρ a.
Proof. intros Hw. unfold has_width, val_of. by rewrite (proj2 (Z.eqb_neq w 1) Hw). Qed.
Lemma bool_term a : has_width 1 a -> is_bool a /\ forall ρ, val_of 1 ρ a = Z.b2z (bool_of ρ a).
Proof. done. Qed.
Lemma val_range w ρ a : 0 < w -> has_width w a -> 0 <= val_of w ρ a < 2 ^ w.
Proof.
  intros Hw. unfold has_width, val_of. destruct (Z.eqb_spec w 1) as [->|]; [by destruct (bool_of ρ a)|]. intros Ha. by apply bv_range_law.
Qed.

(** ** The term of each kind of expression *)

Lemma ite_term w c a b : 0 < w -> has_width 1 c -> has_width w a -> has_width w b ->
  makes_term w (iteExpr c a b) (fun ρ => if val_of 1 ρ c =? 0 then val_of w ρ b else val_of w ρ a).
Proof.
  intros Hw [Hc Hcv]%bool_term Ha Hb. destruct (Z.eq_dec w 1) as [->|Hne].
  - apply bool_term in Ha as [Ha Hav], Hb as [Hb Hbv]. eapply makes_term_ext; [by apply makes_term_bool, mk_ite_bool_law|].
    intros ρ. cbv beta. rewrite Hcv, Hav, Hbv. by destruct (bool_of ρ c).
  - apply (wide_term w) in Ha as [Ha Hav], Hb as [Hb Hbv]; [|done..]. eapply makes_term_ext; [by apply makes_term_bv; [|apply (mk_ite_bv_law w)]|].
    intros ρ. cbv beta. rewrite Hcv, Hav, Hbv. by destruct (bool_of ρ c).
Qed.
Lemma concat_term w u a b : 0 < w -> 0 < u -> w <> 1 -> u <> 1 -> has_width w a -> has_width u b ->
  makes_term (w + u) (Z3_mk_concat a b) (fun ρ => Z.lor (Z.shiftl (val_of w ρ a) u) (val_of u ρ b)).
Proof.
  intros Hw Hu Hnw Hnu Ha Hb. apply (wide_term w) in Ha as [Ha Hav]; [|done]. apply (wide_term u) in Hb as [Hb Hbv]; [|done].
  eapply makes_term_ext; [apply makes_term_bv; [lia|by apply (mk_concat_law w u)]|]. intros ρ. by rewrite Hav, Hbv.
Qed.
Lemma extract_term_spec w a off width : w <> 1 -> 0 < width -> 0 <= off -> off + width <= w -> has_width w a ->
  makes_term width (extract_term a off width) (fun ρ => wrap width (Z.shiftr (val_of w ρ a) off)).
Proof.
  intros Hw Hwd Hoff Hle Ha. apply (wide_term w) in Ha as [Ha Hav]; [|done]. unfold extract_term. destruct (Z.eqb_spec width 1) as [->|Hne].
  - eapply makes_term_ext; [apply makes_term_bool, (bvBoolExtract_spec w); [lia|done]|]. intros ρ. cbv beta. by rewrite Hav, bit_value by lia.
  - eapply makes_term_ext; [apply makes_term_bv; [done|]|].
    { replace width with (off + width - 1 - off + 1) at 1 by lia. apply (bvExtract_spec w); [lia..|done]. }
    intros ρ. cbv beta. rewrite Hav. f_equal. lia.
Qed.
Lemma zext_term_spec u w a : 0 < u < w -> has_width u a -> makes_term w (zext_term a u w) (fun ρ => val_of u ρ a).
Proof.
  intros Hu Ha. unfold zext_term. destruct (Z.eqb_spec u 1) as [->|Hne].
  - eapply makes_bind; [apply bvOne_spec; lia|]. intros one [Ho Hov]. eapply makes_bind; [apply bvZero_spec; lia|]. intros zero [Hz Hzv].
    apply bool_term in Ha as [Ha Hav]. eapply makes_term_ext; [apply makes_term_bv; [lia|apply (mk_ite_bv_law w); [lia|done..]]|].
    intros ρ. cbv beta. rewrite Hov, Hzv, Hav. by destruct (bool_of ρ a).
  - apply (wide_term u) in Ha as [Ha Hav]; [|done]. rewrite (proj2 (Z.ltb_lt u w)) by lia. cbn [assert_that mbind option_bind].
    eapply makes_bind; [apply bvZero_spec; lia|]. intros zero [Hz Hzv]. replace w with (w - u + u) by lia.
    eapply makes_term_ext; [apply makes_term_bv; [lia|apply (mk_concat_law (w - u) u); [lia..|done|done]]|].
    intros ρ. cbv beta. by rewrite Hzv, Hav, Z.shiftl_0_l.
Qed.
Lemma sext_term_spec u w a : 0 < u < w -> has_width u a -> makes_term w (sext_term a u w) (fun ρ => wrap w (swrap u (val_of u ρ a))).
Proof.
  intros Hu Ha. unfold sext_term. destruct (Z.eqb_spec u 1) as [->|Hne].
  - eapply makes_bind; [apply bvMinusOne_spec; lia|]. intros ones [Ho Hov]. eapply makes_bind; [apply bvZero_spec; lia|]. intros zero [Hz Hzv].
    apply bool_term in Ha as [Ha Hav]. eapply makes_term_ext; [apply makes_term_bv; [lia|apply (mk_ite_bv_law w); [lia|done..]]|].
    intros ρ. cbv beta. rewrite Hov, Hzv, Hav, <- wrap_ones by lia. destruct (bool_of ρ a); [done|]. symmetry. apply Zmod_0_l.
  - apply (wide_term u) in Ha as [Ha Hav]; [|done]. unfold bvSignExtend. rewrite (getBVLength_spec u a Ha). cbn [mbind option_bind].
    rewrite (proj2 (Z.leb_le u w)) by lia. cbn [assert_that mbind option_bind]. replace w with (u + (w - u)) at 1 by lia.
    eapply makes_term_ext; [apply makes_term_bv; [lia|apply (mk_sign_ext_law u); [lia..|done]]|].
    intros ρ. cbv beta. rewrite Hav. f_equal. lia.
Qed.
Lemma not_term w a : 0 < w -> has_width w a ->
  makes_term w (if w =? 1 then notExpr a else bvNotExpr a) (fun ρ => wrap w (Z.lnot (val_of w ρ a))).
Proof.
  intros Hw Ha. destruct (Z.eqb_spec w 1) as [->|Hne].
  - apply bool_term in Ha as [Ha Hav]. eapply makes_term_ext; [by apply makes_term_bool, mk_not_law|]. intros ρ. cbv beta. rewrite Hav. by destruct (bool_of ρ a).
  - apply (wide_term w) in Ha as [Ha Hav]; [|done]. eapply makes_term_ext; [apply makes_term_bv; [done|by apply mk_bvnot_law]|]. intros ρ. cbv beta. by rewrite Hav.
Qed.
Lemma bit_term_spec k w a b : 0 < w -> k = Kind.And \/ k = Kind.Or \/ k = Kind.Xor -> has_width w a -> has_width w b ->
  makes_term w (bit_term k w a b) (fun ρ => arith_spec w k (val_of w ρ a) (val_of w ρ b)).
Proof.
  intros Hw Hk Ha Hb. unfold bit_term. destruct (Z.eqb_spec w 1) as [->|Hne].
  - apply bool_term in Ha as [Ha Hav], Hb as [Hb Hbv]. destruct Hk as [->|[->| ->]].
    + eapply makes_term_ext; [by apply makes_term_bool, (mk_bool_law z3_and)|]. intros ρ. cbv beta. rewrite Hav, Hbv. by destruct (bool_of ρ a), (bool_of ρ b).
    + eapply makes_term_ext; [by apply makes_term_bool, (mk_bool_law z3_or)|]. intros ρ. cbv beta. rewrite Hav, Hbv. by destruct (bool_of ρ a), (bool_of ρ b).
    + eapply makes_bind; [by apply mk_not_law|]. intros n [Hn Hnv].
      eapply makes_term_ext; [by apply makes_term_bool, mk_ite_bool_law|]. intros ρ. cbv beta. rewrite Hav, Hbv, Hnv. by destruct (bool_of ρ a), (bool_of ρ b).
  - apply (wide_term w) in Ha as [Ha Hav], Hb as [Hb Hbv]; [|done..].
    destruct Hk as [->|[->| ->]]; (eapply makes_term_ext; [apply makes_term_bv; [done|by apply (mk_bv_law _ w)]|]; intros ρ; cbv beta; by rewrite Hav, Hbv).
Qed.
Lemma arith_term_spec k w a b : 0 < w -> w <> 1 -> has_width w a -> has_width w b ->
  makes_term w (arith_term k w a b) (fun ρ => bv_spec w (bv_op_of k) (val_of w ρ a) (val_of w ρ b)).
Proof.
  intros Hw Hne Ha Hb. apply (wide_term w) in Ha as [Ha Hav], Hb as [Hb Hbv]; [|done..]. unfold arith_term.
  destruct (mk_bv_law (bv_op_of k) w a b Hw Ha Hb) as (c & -> & Hc & Hcv). cbn [mbind option_bind].
  rewrite (getBVLength_spec w c Hc). cbn [mbind option_bind]. rewrite Z.eqb_refl. cbn [assert_that mbind option_bind].
  apply makes_term_bv; [done|]. apply makes_ret. split; [done|]. intros ρ. by rewrite Hcv, Hav, Hbv.
Qed.
Lemma bv_spec_arith k w x y : negb (Kind.is_div k && (y =? 0)) = true ->
  match k with Kind.Add | Kind.Sub | Kind.Mul | Kind.UDiv | Kind.SDiv | Kind.URem | Kind.SRem => bv_spec w (bv_op_of k) x y = arith_spec w k x y | _ => True end.
Proof. destruct k; cbn; try done; by destruct (y =? 0). Qed.
Lemma shift_amount_small CE : ap_wf CE -> ap_val CE < 2 ^ 32 -> shift_amount CE = ap_val CE.
Proof. intros Hwf%wf_range Hlt. unfold shift_amount. rewrite Z.min_l by lia. apply wrap_small. lia. Qed.
Lemma constant_shift_spec k w a CE : 0 < w -> w <> 1 -> k = Kind.Shl \/ k = Kind.LShr \/ k = Kind.AShr /\ ap_val CE < w ->
  ap_wf CE -> ap_val CE < 2 ^ 32 -> has_width w a ->
  makes_term w (constant_shift_term k a w CE) (fun ρ => arith_spec w k (val_of w ρ a) (ap_val CE)).
Proof.
  intros Hw Hne Hk Hwf Hlt Ha. apply (wide_term w) in Ha as [Ha Hav]; [|done]. pose proof (wf_range CE Hwf).
  unfold constant_shift_term. rewrite (shift_amount_small CE Hwf Hlt). destruct Hk as [->|[->|[-> Hs]]].
  - eapply makes_term_ext; [apply makes_term_bv; [done|apply bvLeftShift_spec; [done..|lia]]|]. intros ρ. cbv beta. by rewrite Hav.
  - eapply makes_term_ext; [apply makes_term_bv; [done|apply bvRightShift_spec; [done..|lia]]|]. intros ρ. cbv beta. by rewrite Hav.
  - eapply makes_bind; [apply (bvBoolExtract_spec w a (w - 1)); [lia|done]|]. intros sign [Hsg Hsv].
    eapply makes_term_ext; [apply makes_term_bv; [done|apply (constructAShr_spec w); [done..|lia|done|done]]|]. intros ρ. cbv beta. by rewrite Hav.
Qed.
Lemma shift_term_spec k w a b : 0 < w < 2 ^ 32 -> w <> 1 -> k = Kind.Shl \/ k = Kind.LShr \/ k = Kind.AShr -> has_width w a -> has_width w b ->
  makes_term w (shift_term k a b) (fun ρ => if (if decide (k = Kind.AShr) then w <=? val_of w ρ b else false) then 0
    else arith_spec w k (val_of w ρ a) (val_of w ρ b)).
Proof.
  intros Hw Hne Hk Ha Hb. apply (wide_term w) in Ha as [Ha Hav], Hb as [Hb Hbv]; [|done..]. destruct Hk as [->|[->| ->]]; cbn [shift_term].
  - eapply makes_term_ext; [apply makes_term_bv; [done|apply (bvVarLeftShift_spec w); [lia..|done|done]]|]. intros ρ. cbn. by rewrite Hav, Hbv.
  - eapply makes_term_ext; [apply makes_term_bv; [done|apply (bvVarRightShift_spec w); [lia..|done|done]]|]. intros ρ. cbn. by rewrite Hav, Hbv.
  - eapply makes_term_ext; [apply makes_term_bv; [done|apply (bvVarArithRightShift_spec w); [lia..|done|done]]|]. intros ρ. cbn.
    rewrite Hav, Hbv. by destruct (Z.ltb_spec (bv_of ρ b) w), (Z.leb_spec w (bv_of ρ b)); try lia.
Qed.
Lemma order_term_spec k w a b : 0 < w -> w <> 1 -> k = Kind.Ult \/ k = Kind.Ule \/ k = Kind.Slt \/ k = Kind.Sle -> has_width w a -> has_width w b ->
  makes_term 1 (order_term k a b) (fun ρ => Z.b2z (cmp_spec w k (val_of w ρ a) (val_of w ρ b))).
Proof.
  intros Hw Hne Hk Ha Hb. apply (wide_term w) in Ha as [Ha Hav], Hb as [Hb Hbv]; [|done..].
  destruct Hk as [->|[->|[->| ->]]]; (eapply makes_term_ext; [apply makes_term_bool; by apply (mk_rel_law _ w)|]; intros ρ; cbv beta; by rewrite Hav, Hbv).
Qed.
(** The left side of an equality of single bits that is a constant is not looked at as a term. *)
Definition eq_left (e : expr) (w : Z) (ρ : interpretation) (a : Z3_ast) : Z :=
  match as_constant e with Some CE => if w =? 1 then ap_val CE else val_of w ρ a | None => val_of w ρ a end.
Lemma eq_term_spec e w a b : 0 < w -> has_width w a -> has_width w b -> type_of e = Some w ->
  makes_term 1 (eq_term e w a b) (fun ρ => Z.b2z (eq_left e w ρ a =? val_of w ρ b)).
Proof.
  intros Hw Ha Hb Ht. unfold eq_term, eq_left. destruct (Z.eqb_spec w 1) as [->|Hne].
  - apply bool_term in Ha as [Ha Hav], Hb as [Hb Hbv]. destruct e as [CE| | | | | | | | |]; cbn [as_constant];
      try (unfold iffExpr; unfold is_bool in Ha, Hb; rewrite !bool_decide_eq_true_2 by congruence; cbn [assert_that mbind option_bind];
        (eapply makes_term_ext; [by apply makes_term_bool, (mk_bool_law z3_iff)|]); intros ρ; cbv beta; rewrite Hav, Hbv; by destruct (bool_of ρ a), (bool_of ρ b)).
    apply type_constant in Ht as [Hwf Hcw]. pose proof (wf_range CE Hwf) as Hr. rewrite Hcw in Hr. unfold isTrue. rewrite Hcw.
    assert (ap_val CE = 0 \/ ap_val CE = 1) as [-> | ->] by lia; cbn.
    + eapply makes_term_ext; [by apply makes_term_bool, mk_not_law|]. intros ρ. cbn. by destruct (bool_of ρ b).
    + apply makes_ret. split; [done|]. intros ρ. cbn. by destruct (bool_of ρ b).
  - apply (wide_term w) in Ha as [Ha Hav], Hb as [Hb Hbv]; [|done..].
    eapply makes_term_ext; [by apply makes_term_bool, (mk_eq_law w)|]. intros ρ. cbv beta. destruct (as_constant e); by rewrite Hav, Hbv.
Qed.

(** ** Constants of any width *)

Lemma word_bits x u d : 0 <= u -> 0 <= d ->
  Z.lor (Z.shiftl (wrap d (Z.shiftr x u)) u) (wrap u x) = wrap (u + d) x.
Proof.
  intros Hu Hd. apply Z.bits_inj'. intros i Hi. rewrite Z.lor_spec, Z.shiftl_spec, (wrap_spec u), (wrap_spec (u + d)) by lia.
  destruct (Z.ltb_spec i u).
  - by rewrite (Z.testbit_neg_r _ (i - u)), (proj2 (Z.ltb_lt i (u + d))) by lia.
  - rewrite wrap_spec, Z.shiftr_spec, orb_false_r by lia. replace (i - u + u) with i by lia.
    destruct (Z.ltb_spec (i - u) d), (Z.ltb_spec i (u + d)); try done; lia.
Qed.
Lemma extract_value v off w : ap_wf v -> 0 < w -> 0 <= off -> off + w <= ap_width v ->
  CE_Extract v off w = AP w (wrap w (Z.shiftr (ap_val v) off)).
Proof. intros Hv Hw Hoff Hle. apply CE_Extract_spec; [done|]. by apply extract_ok_spec. Qed.
Lemma constant_words_spec x W : 0 <= x < 2 ^ W -> forall fuel t Res, (Z.to_nat t <= fuel)%nat -> 64 < t <= W ->
  is_bv (W - t + 64) Res -> (forall ρ, bv_of ρ Res = wrap (W - t + 64) x) ->
  makes_bv W (constant_words fuel (AP t (Z.shiftr x (W - t))) Res) (fun _ => x).
Proof.
  intros Hx. induction fuel as [|fuel IH]; intros t Res Hf Ht Hs Hv; [lia|]. cbn [constant_words ap_width].
  rewrite (proj2 (Z.ltb_lt 64 t)) by lia. pose proof (shiftr_bound W x (W - t) ltac:(lia) Hx) as Hb. replace (W - (W - t)) with t in Hb by lia.
  rewrite (extract_value (AP t _) 64 (t - 64)) by (try apply ap_wf_iff; cbn [ap_width ap_val]; lia). cbn [ap_width ap_val].
  rewrite Z.shiftr_shiftr by lia. replace (W - t + 64) with (W - (t - 64)) in * by lia.
  assert (wrap (t - 64) (Z.shiftr x (W - (t - 64))) = Z.shiftr x (W - (t - 64))) as ->.
  { apply wrap_small. pose proof (shiftr_bound W x (W - (t - 64)) ltac:(lia) Hx). by replace (W - (W - (t - 64))) with (t - 64) in * by lia. }
  set (u := W - (t - 64)) in *. set (d := Z.min 64 (t - 64)). assert (0 < d <= 64 /\ d <= t - 64) as Hd by lia.
  pose proof (shiftr_bound W x u ltac:(lia) Hx) as Hbu. replace (W - u) with (t - 64) in Hbu by lia.
  rewrite (extract_value (AP (t - 64) _) 0 d) by (try apply ap_wf_iff; cbn [ap_width ap_val]; lia). cbn [ap_width ap_val]. rewrite Z.shiftr_0_r.
  unfold getZExtValue. cbn [ap_width ap_val]. rewrite (proj2 (Z.leb_le d 64)) by lia. cbn [mbind option_bind].
  pose proof (wrap_range d (Z.shiftr x u) ltac:(lia)) as Hword.
  assert (2 ^ d <= 2 ^ 64) by (apply Z.pow_le_mono_r; lia).
  eapply makes_bind; [apply (mk_concat_law d u); [lia|lia|apply bvConst_spec; lia|done]|]. intros c [Hc Hcv].
  assert (forall ρ, bv_of ρ c = wrap (u + d) x) as Hcx by (intros ρ; rewrite Hcv, Hv, bvConst_value by lia; apply word_bits; lia).
  destruct (Z_lt_le_dec 64 (t - 64)).
  - replace (AP (t - 64) (Z.shiftr x u)) with (AP (t - 64) (Z.shiftr x (W - (t - 64)))) by done.
    apply IH; [lia|lia| |]; replace (W - (t - 64) + 64) with (d + u) by lia; [done|]. intros ρ. rewrite Hcx. f_equal. lia.
  - assert (constant_words fuel (AP (t - 64) (Z.shiftr x u)) c = Some c) as ->.
    { destruct fuel; cbn [constant_words ap_width]; by rewrite (proj2 (Z.ltb_ge 64 (t - 64))) by lia. }
    apply makes_ret. replace W with (d + u) at 1 by lia. split; [done|]. intros ρ. rewrite Hcx. apply wrap_small. by replace (u + d) with W by lia.
Qed.
Lemma constant_term CE : ap_wf CE -> makes_term (ap_width CE) (construct_constant CE) (fun _ => ap_val CE).
Proof.
  intros Hwf. pose proof (wf_width CE Hwf) as Hw. pose proof (wf_range CE Hwf) as Hr. unfold construct_constant.
  destruct (Z.eqb_spec (ap_width CE) 1) as [H1|Hne].
  { rewrite H1. apply makes_ret. assert (ap_val CE = 0 \/ ap_val CE = 1) as Hv by (rewrite H1 in Hr; lia).
    unfold isTrue, has_width, val_of. rewrite H1. change (1 =? Bool) with true. change (1 =? 1) with true. cbn [andb].
    destruct Hv as [-> | ->]; cbn; (split; [apply mk_true_law || apply mk_false_law|]); intros ρ; unfold getTrue, getFalse;
      [by rewrite (proj2 mk_false_law)|by rewrite (proj2 mk_true_law)]. }
  apply makes_term_bv; [done|].
  assert (ap_width CE <= 64 -> makes_bv (ap_width CE) (Some (bvConst64 (ap_width CE) (ap_val CE))) (fun _ => ap_val CE)) as Hsmall.
  { intros Hle. assert (2 ^ ap_width CE <= 2 ^ 64) by (apply Z.pow_le_mono_r; lia).
    apply makes_ret. split; [apply bvConst_spec; lia|]. intros ρ. apply bvConst_value; lia. }
  unfold getZExtValue. destruct (Z.leb_spec (ap_width CE) 32); [apply Hsmall; lia|]. destruct (Z.leb_spec (ap_width CE) 64); [by apply Hsmall|].
  rewrite (extract_value CE 0 64) by (done || lia). cbn [ap_width ap_val mbind option_bind]. rewrite Z.shiftr_0_r. change (64 <=? 64) with true. cbn [mbind option_bind].
  pose proof (wrap_range 64 (ap_val CE) ltac:(lia)). destruct CE as [W x]. cbn [ap_width ap_val] in *.
  replace x with (Z.shiftr x (W - W)) at 1 by (rewrite Z.sub_diag; apply Z.shiftr_0_r).
  apply constant_words_spec; [done|lia|lia|..]; replace (W - W + 64) with 64 by lia; [by apply bvConst_spec|].
  intros ρ. apply bvConst_value; lia.
Qed.
End terms.

(** * Expressions *)

Section construct.
Context `{Laws : APIntLaws, ZL : Z3Laws} (sizes : string -> Z).
#[local] Open Scope sm_scope.

(** The names that the arrays have got so far, and inputs that an interpretation of them stands for. *)
Abbreviation array_names := (gmap Array string).
Definition agree (N : array_names) (ρ : interpretation) (σ : assignment) : Prop :=
  forall a n, N !! a = Some n -> forall i, 0 <= i < arr_size a -> wrap 8 (ρ n i) = wrap 8 (σ (arr_name a) i).
(** A term with the value of an expression, wherever it has one; a constant, or a disjunction that is
    true for a constant, has it everywhere. *)
Definition settles (e : expr) (w : Z) (a : Z3_ast) : Prop :=
  match e with
  | EConstant c => forall ρ, val_of w ρ a = ap_val c
  | _ => trivially_true e = true -> w = 1 /\ forall ρ, val_of w ρ a = 1
  end.
Definition means (N : array_names) (e : expr) (w : Z) (a : Z3_ast) : Prop :=
  has_width w a /\ (forall ρ σ v, agree N ρ σ -> eval σ e = Some v -> val_of w ρ a = ap_val v) /\ settles e w a.
Lemma means_mono N N' e w a : N ⊆ N' -> means N e w a -> means N' e w a.
Proof.
  intros Hsub (Hw & Hv & Hs). split; [done|]. split; [|done]. intros ρ σ v Ha. apply Hv. intros b n Hb. apply Ha. by eapply lookup_weaken.
Qed.
Definition constructed_ok (N : array_names) (c : expr * (Z3_ast * Z)) : Prop := type_of c.1 = Some c.2.2 /\ means N c.1 c.2.2 c.2.1.
Record builder_ok (N : array_names) (b : Z3Builder) : Prop := {
  bk_hash : array_hash b = (fun n => Z3_mk_const n Int32 Int8) <$> N;
  bk_names : forall a n, N !! a = Some n -> array_ok sizes a /\ exists k, n = unique_name a k;
  bk_constructed : Forall (constructed_ok N) (constructed b);
}.
(** A computation that returns and only adds names to those of the builder in its state. *)
Section builds.
Context {S : Type} (get : S -> Z3Builder).
Definition builds_in {A} (N : array_names) (m : SM S solver_error A) (Q : array_names -> A -> Prop) : Prop :=
  forall s, builder_ok N (get s) -> exists r s' N', m s = (Ok r, s') /\ N ⊆ N' /\ builder_ok N' (get s') /\ Q N' r.
Lemma builds_ret {A} N (r : A) (Q : array_names -> A -> Prop) : Q N r -> builds_in N (sm_ret r) Q.
Proof. intros Hq s Hb. by exists r, s, N. Qed.
Lemma builds_bind {A B} N (m : SM S solver_error A) (k : A -> SM S solver_error B) Q R :
  builds_in N m Q -> (forall N' r, N ⊆ N' -> Q N' r -> builds_in N' (k r) R) -> builds_in N (sm_bind m k) R.
Proof.
  intros Hm Hk b Hb. destruct (Hm b Hb) as (r & b' & N' & Hrun & Hsub & Hb' & Hq).
  destruct (Hk N' r Hsub Hq b' Hb') as (r' & b'' & N'' & Hrun' & Hsub' & Hb'' & Hr').
  exists r', b'', N''. split; [by rewrite (sm_bind_ok _ _ _ _ _ Hrun)|]. split; [by etrans|]. by split.
Qed.
Lemma builds_weaken {A} N (m : SM S solver_error A) (Q R : array_names -> A -> Prop) :
  builds_in N m Q -> (forall N' r, N ⊆ N' -> Q N' r -> R N' r) -> builds_in N m R.
Proof. intros Hm HQR b Hb. destruct (Hm b Hb) as (r & b' & N' & Hrun & Hsub & Hb' & Hq). exists r, b', N'. auto. Qed.
End builds.
Abbreviation builds := (builds_in (fun b => b)).

Lemma builds_z3 {B} N o (k : Z3_ast -> SM Z3Builder solver_error B) P R :
  makes o P -> (forall c, P c -> builds N (k c) R) -> builds N (sm_bind (z3 o) k) R.
Proof. intros (c & -> & Hc) Hk. by apply Hk. Qed.
Lemma builds_assert {B} N c (m : SM Z3Builder solver_error B) R : c = true -> builds N m R -> builds N (sm_bind (z3_assert c) (fun _ => m)) R.
Proof. by intros ->. Qed.

Lemma getInitialArray_spec N root : array_ok sizes root ->
  builds N (getInitialArray root) (fun N' a => exists n, N' !! root = Some n /\ a = Z3_mk_const n Int32 Int8).
Proof.
  intros Ha b [Hh Hn Hc]. unfold getInitialArray, sm_gets, sm_bind. rewrite Hh, lookup_fmap. destruct (N !! root) as [n|] eqn:Hl; cbn.
  - exists (Z3_mk_const n Int32 Int8), b, N. split; [done|]. split; [done|]. split; [by split|]. by exists n.
  - set (n := unique_name root _). exists (Z3_mk_const n Int32 Int8), (put_arrays (<[root:=Z3_mk_const n Int32 Int8]> (array_hash b)) b), (<[root := n]> N).
    assert (N ⊆ <[root := n]> N) as Hsub by by apply insert_subseteq. split; [by rewrite Hh|]. split; [done|]. split; [split|].
    + cbn. by rewrite Hh, fmap_insert.
    + intros a m [[<- <-]|[_ ?]]%lookup_insert_Some; [|by apply Hn]. split; [done|]. by eexists.
    + cbn. eapply Forall_impl; [exact Hc|]. intros c [Ht Hm]. split; [done|]. by eapply means_mono.
    + exists n. split; [by apply lookup_insert_eq|done].
Qed.

Lemma lookup_term_spec N e cache r : Forall (constructed_ok N) cache -> lookup_term e cache = Some r -> type_of e = Some r.2 /\ means N e r.2 r.1.
Proof.
  induction 1 as [|[k c] cache Hk _ IH]; cbn; [done|]. destruct (decide (e = k)) as [->|]; [by intros [= <-]|done].
Qed.
Definition constructs (N : array_names) (m : SM Z3Builder solver_error (Z3_ast * Z)) (e : expr) (w : Z) : Prop :=
  builds N m (fun N' r => r.2 = w /\ means N' e w r.1).
Lemma with_hash_spec N e w m : type_of e = Some w -> constructs N m e w -> constructs N (with_hash e m) e w.
Proof.
  intros Ht Hm. unfold with_hash. destruct (is_const e); [done|]. intros b Hb. unfold sm_bind at 1, sm_gets at 1.
  destruct (lookup_term e (constructed b)) as [r|] eqn:Hl.
  - destruct (lookup_term_spec N e _ r (bk_constructed _ _ Hb) Hl) as [Htr Hr]. assert (r.2 = w) as Hw by congruence.
    exists r, b, N. split; [done|]. split; [done|]. split; [done|]. split; [done|]. by rewrite <- Hw.
  - destruct (Hm b Hb) as ([a u] & b' & N' & Hrun & Hsub & [Hh Hn Hc] & Hu & Hmean). cbn in Hu, Hmean. subst u.
    exists (a, w), (put_constructed ((e, (a, w)) :: constructed b') b'), N'. split; [by rewrite (sm_bind_ok _ _ _ _ _ Hrun)|].
    split; [done|]. split; [|by split]. split; [done|done|]. cbn. constructor; [by split|done].
Qed.
(** The last step: a term with the value that the operands' values give. *)
Lemma constructs_settled N w o f e : makes_term w o f ->
  (forall ρ σ v, agree N ρ σ -> eval σ e = Some v -> f ρ = ap_val v) ->
  match e with EConstant c => forall ρ, f ρ = ap_val c | _ => trivially_true e = true -> w = 1 /\ forall ρ, f ρ = 1 end ->
  constructs N (sm_bind (z3 o) (fun res => sm_ret (res, w))) e w.
Proof.
  intros Ho Hf Hs. eapply builds_z3; [exact Ho|]. intros c [Hc Hcv]. apply builds_ret. split; [done|]. split; [done|]. split.
  - intros ρ σ v Ha Hev. cbn. rewrite Hcv. by eapply Hf.
  - cbn. destruct e; [intros ρ; by rewrite Hcv|..]; (intros Ht; destruct (Hs Ht) as [-> H1]; split; [done|]; intros ρ; by rewrite Hcv).
Qed.
Lemma constructs_term N w o f e : makes_term w o f ->
  (forall ρ σ v, agree N ρ σ -> eval σ e = Some v -> f ρ = ap_val v) -> is_const e || trivially_true e = false ->
  constructs N (sm_bind (z3 o) (fun res => sm_ret (res, w))) e w.
Proof.
  intros Ho Hf [Hc Ht]%orb_false_iff. apply (constructs_settled _ _ _ f); [done|done|]. rewrite Ht. by destruct e.
Qed.

(** Operands, one after the other. *)
Lemma one_term {B} N e w (k : Z3_ast * Z -> SM Z3Builder solver_error B) R : (forall N, constructs N (construct e) e w) ->
  (forall N' a, N ⊆ N' -> means N' e w a -> builds N' (k (a, w)) R) -> builds N (sm_bind (construct e) k) R.
Proof. intros He Hk. eapply builds_bind; [apply He|]. intros N' [a u] Hsub [Hu Ha]. cbn in Hu, Ha. subst u. by apply Hk. Qed.
Lemma two_terms {B} N l r w u (k : Z3_ast * Z -> Z3_ast * Z -> SM Z3Builder solver_error B) R :
  (forall N, constructs N (construct l) l w) -> (forall N, constructs N (construct r) r u) ->
  (forall N' a b, N ⊆ N' -> means N' l w a -> means N' r u b -> builds N' (k (a, w) (b, u)) R) ->
  builds N (left <-- construct l ;; right <-- construct r ;; k left right) R.
Proof.
  intros Hl Hr Hk. apply (one_term _ _ w); [done|]. intros N1 a Hs1 Ha. apply (one_term _ _ u); [done|]. intros N2 b Hs2 Hb.
  apply Hk; [by etrans|by eapply means_mono|done].
Qed.
Lemma not_one w : w <> Bool -> negb (w =? 1) = true.
Proof. intros Hw. by apply negb_true_iff, Z.eqb_neq. Qed.
(** The operators with a term of their own, at operands of one width. *)
Section binary.
Context (l r : expr) (w : Z) (N : array_names) (a b : Z3_ast).
Hypothesis Hl : means N l w a.
Hypothesis Hr : means N r w b.
Hypothesis Hwl : type_of l = Some w.
Hypothesis Hwr : type_of r = Some w.
Lemma arith_value k f : (forall x y, arith_ok k (AP w x) (AP w y) -> f x y = arith_spec w k x y) ->
  forall ρ σ v, agree N ρ σ -> eval σ (EArith k l r) = Some v -> f (val_of w ρ a) (val_of w ρ b) = ap_val v.
Proof.
  intros Hf ρ σ v Ha Hev. cbn [eval] in Hev. apply ev_arith_inv in Hev as (x & y & Hx & Hy & Hok & ->). rewrite (proj1 (proj2 Hl) ρ σ x Ha Hx), (proj1 (proj2 Hr) ρ σ y Ha Hy).
  pose proof (eval_type _ _ _ Hx) as Htx. pose proof (eval_type _ _ _ Hy) as Hty. destruct x as [wx x], y as [wy y]. cbn in *.
  assert (wx = w) as -> by congruence. assert (wy = w) as -> by congruence. by apply Hf.
Qed.
Lemma cmp_value k ρ σ v : agree N ρ σ -> eval σ (ECmp k l r) = Some v ->
  Z.b2z (cmp_spec w k (val_of w ρ a) (val_of w ρ b)) = ap_val v.
Proof.
  intros Ha Hev. cbn [eval] in Hev. apply ev_cmp_inv in Hev as (x & y & Hx & Hy & _ & ->). rewrite (proj1 (proj2 Hl) ρ σ x Ha Hx), (proj1 (proj2 Hr) ρ σ y Ha Hy).
  pose proof (eval_type _ _ _ Hx) as Htx. by assert (ap_width x = w) as -> by congruence.
Qed.
End binary.


Section arith.
Context (l r : expr) (w : Z).
Hypothesis Hwl : type_of l = Some w.
Lemma width_positive : 0 < w.
Proof. by destruct (type_width l w Hwl). Qed.
Lemma constant_value k N a CE f : means N l w a -> (forall x, f x = arith_spec w k x (ap_val CE)) ->
  forall ρ σ v, agree N ρ σ -> eval σ (EArith k l (EConstant CE)) = Some v -> f (val_of w ρ a) = ap_val v.
Proof.
  intros Ha Hf ρ σ v Hag Hev. cbn [eval] in Hev. apply ev_arith_inv in Hev as (x & y & Hx & Hy & _ & ->).
  apply (eval_constant_inv σ) in Hy as [-> _]. rewrite (proj1 (proj2 Ha) ρ σ x Hag Hx).
  pose proof (eval_type _ _ _ Hx) as Htx. assert (ap_width x = w) as -> by congruence. apply Hf.
Qed.
Hypothesis Hwr : type_of r = Some w.
Hypothesis Hl : forall N, constructs N (construct l) l w.
Hypothesis Hr : forall N, constructs N (construct r) r w.
Lemma settled_true N e u a : type_of e = Some u -> means N e u a -> trivially_true e = true -> u = 1 /\ forall ρ, val_of u ρ a = 1.
Proof.
  intros Ht (_ & _ & Hs) Htriv. destruct e as [c| | | | | | | | |]; try (by apply Hs). apply type_constant in Ht as [Hwf <-].
  cbn in Htriv. apply andb_true_iff in Htriv as [H1%Z.eqb_eq Hne%negb_true_iff%Z.eqb_neq]. split; [done|]. intros ρ. rewrite Hs.
  pose proof (wf_range c Hwf) as Hrange. rewrite H1 in Hrange. change (2 ^ Bool) with 2 in Hrange. lia.
Qed.
(** Two operands and an operator of Z3. *)
Lemma arith_last k N a b : w <> Bool -> means N l w a -> means N r w b ->
  match k with
  | Kind.And | Kind.Or | Kind.Xor | Kind.Shl | Kind.LShr | Kind.AShr => True
  | _ => constructs N (res <-- z3 (arith_term k w a b) ;; sm_ret (res, w)) (EArith k l r) w
  end.
Proof.
  intros Hne Ha Hb. pose proof width_positive. destruct k; try done;
    (eapply constructs_term; [by apply arith_term_spec; [..|apply Ha|apply Hb]| |done]);
    (eapply (arith_value l r w N a b Ha Hb Hwl Hwr); intros x y [_ Hok]%Is_true_true%andb_true_iff);
    match goal with |- bv_spec _ (bv_op_of ?k) _ _ = _ => exact (bv_spec_arith k w x y Hok) end.
Qed.
Lemma bit_last k N a b : k = Kind.And \/ k = Kind.Or \/ k = Kind.Xor -> means N l w a -> means N r w b ->
  constructs N (res <-- z3 (bit_term k w a b) ;; sm_ret (res, w)) (EArith k l r) w.
Proof.
  intros Hk Ha Hb. pose proof width_positive as Hw. eapply constructs_settled; [apply bit_term_spec; [done|done|apply Ha|apply Hb]| |].
  - by eapply (arith_value l r w N a b Ha Hb Hwl Hwr).
  - destruct Hk as [->|[->| ->]]; cbn [trivially_true]; try done. intros [Ht|Ht]%orb_true_iff; cbn [arith_spec].
    + destruct (settled_true N l w a Hwl Ha Ht) as [-> H1]. split; [done|]. intros ρ. rewrite H1.
      pose proof (val_range 1 ρ b Hw (proj1 Hb)). by assert (val_of 1 ρ b = 0 \/ val_of 1 ρ b = 1) as [-> | ->] by lia.
    + destruct (settled_true N r w b Hwr Hb Ht) as [-> H1]. split; [done|]. intros ρ. rewrite H1.
      pose proof (val_range 1 ρ a Hw (proj1 Ha)). by assert (val_of 1 ρ a = 0 \/ val_of 1 ρ a = 1) as [-> | ->] by lia.
Qed.
Lemma power_last k N a d : k = Kind.UDiv \/ k = Kind.URem -> w <> Bool -> power_of_two r = Some d -> means N l w a ->
  constructs N (res <-- z3 (match k with Kind.UDiv => udiv_power a d | _ => urem_power a w d end) ;; sm_ret (res, w)) (EArith k l r) w.
Proof.
  intros Hk Hne (CE & -> & H64 & -> & Hp)%power_of_two_spec [Ha Hm]. pose proof width_positive. pose proof (proj1 (type_constant _ _) Hwr) as [Hwf Hcw].
  pose proof (wf_range CE Hwf) as Hrange. rewrite Hcw in Hrange, H64. assert (2 ^ w <= 2 ^ 64) by (apply Z.pow_le_mono_r; lia).
  destruct (wide_term w a Hne Ha) as [Hs Hsv].
  eapply (constructs_term _ _ _ (fun ρ => arith_spec w k (val_of w ρ a) (ap_val CE))); [|exact (constant_value k N a CE (fun x => arith_spec w k x (ap_val CE)) (conj Ha Hm) (fun _ => eq_refl))|by destruct Hk as [-> | ->]].
  destruct Hk as [-> | ->]; (eapply makes_term_ext;
    [apply makes_term_bv; [done|]; first [apply udiv_power_spec|apply urem_power_spec]; (done || lia)|intros ρ; cbv beta; by rewrite Hsv]).
Qed.
Lemma shift_constant_last k N a CE : k = Kind.Shl \/ k = Kind.LShr \/ k = Kind.AShr -> w <> Bool -> r = EConstant CE -> shift_core_ok k l r ->
  means N l w a -> constructs N (res <-- z3 (constant_shift_term k a w CE) ;; sm_ret (res, w)) (EArith k l r) w.
Proof.
  intros Hk Hne -> (_ & Hsmall & Hashr) Ha. pose proof width_positive. pose proof (proj1 (type_constant _ _) Hwr) as [Hwf Hcw]. destruct (type_width l w Hwl) as [Hgw _].
  eapply constructs_term; [apply constant_shift_spec; [done|done| |done|done|apply Ha]|exact (constant_value k N a CE (fun x => arith_spec w k x (ap_val CE)) Ha (fun _ => eq_refl))|by destruct Hk as [->|[->| ->]]].
  destruct Hk as [->|[->| ->]]; [auto..|]. right. right. split; [done|]. rewrite <- Hgw. apply (Hashr eq_refl (fun _ _ => 0)). by apply eval_constant.
Qed.
Lemma shift_last k N a b : k = Kind.Shl \/ k = Kind.LShr \/ k = Kind.AShr -> w <> Bool -> shift_core_ok k l r ->
  means N l w a -> means N r w b -> constructs N (res <-- z3 (shift_term k a b) ;; sm_ret (res, w)) (EArith k l r) w.
Proof.
  intros Hk Hne (Hw32 & _ & Hashr) Ha Hb. pose proof width_positive. destruct (type_width l w Hwl) as [Hgw _]. rewrite Hgw in *.
  eapply constructs_term; [apply shift_term_spec; [done|done|done|apply Ha|apply Hb]| |by destruct Hk as [->|[->| ->]]].
  intros ρ σ v Hag Hev. pose proof (arith_value l r w N a b Ha Hb Hwl Hwr k (arith_spec w k) ltac:(done) ρ σ v Hag Hev) as Hv.
  destruct (decide (k = Kind.AShr)) as [Hka|]; [|done]. cbn [eval] in Hev. apply ev_arith_inv in Hev as (x & y & Hx & Hy & _).
  rewrite (proj1 (proj2 Hb) ρ σ y Hag Hy) in *. by rewrite (proj2 (Z.leb_gt _ _) (Hashr Hka σ y Hy)).
Qed.
Lemma construct_arith k N : arith_core_ok k l r -> constructs N (construct (EArith k l r)) (EArith k l r) w.
Proof.
  intros Hk. cbn [construct]. unfold construct_operator. destruct (type_width l w Hwl) as [Hgw Hw].
  apply with_hash_spec; [by cbn; rewrite Hwl, Hwr, ty_equal_same|].
  assert (w <> Bool -> negb (w =? 1) = true) as Hna by apply not_one.
  destruct k; cbn [arith_core_ok] in Hk; rewrite ?Hgw in Hk.
  1,2,7: (apply (two_terms _ _ _ w w); [done..|]; intros N' a b _ Ha Hb; cbn [fst snd]; apply builds_assert; [auto|];
    match goal with |- context [EArith ?k _ _] => exact (arith_last k N' a b Hk Ha Hb) end).
  1: (apply (one_term _ _ w); [done|]; intros N1 b _ Hb; cbn [fst snd]; apply builds_assert; [auto|];
    apply (one_term _ _ w); [done|]; intros N2 a Hs Ha; exact (arith_last Kind.Mul N2 a b Hk Ha (means_mono _ _ _ _ _ Hs Hb))).
  2: (apply (one_term _ _ w); [done|]; intros N1 a _ Ha; cbn [fst snd]; apply builds_assert; [auto|];
    apply (one_term _ _ w); [done|]; intros N2 b Hs Hb; exact (arith_last Kind.SDiv N2 a b Hk (means_mono _ _ _ _ _ Hs Ha) Hb)).
  3,4,5: (apply (two_terms _ _ _ w w); [done..|]; intros N' a b _ Ha Hb; cbn [fst snd]; apply bit_last; [auto|done|done]).
  1,2: (apply (one_term _ _ w); [done|]; intros N1 a _ Ha; cbn [fst snd]; apply builds_assert; [auto|];
    destruct (power_of_two r) eqn:Hp;
    [match goal with |- context [EArith ?k _ _] => exact (power_last k N1 a _ ltac:(auto) Hk Hp Ha) end|];
    apply (one_term _ _ w); [done|]; intros N2 b Hs Hb;
    match goal with |- context [EArith ?k _ _] => exact (arith_last k N2 a b Hk (means_mono _ _ _ _ _ Hs Ha) Hb) end).
  all: destruct Hk as [Hne Hk]; apply (one_term _ _ w); [done|]; intros N1 a _ Ha; cbn [fst snd]; apply builds_assert; [auto|];
    destruct (as_constant r) eqn:Hcr;
    [apply shift_constant_last; [auto|done|by destruct r; try done; injection Hcr as ->|done|done]|];
    apply (one_term _ _ w); [done|]; intros N2 b Hs Hb; apply shift_last; [auto|done|done|by eapply means_mono|done].
Qed.
End arith.

(** ** Every expression *)

Lemma construct_read a i N : array_ok sizes a -> type_of i = Some Int32 -> (forall N, constructs N (construct i) i Int32) ->
  constructs N (construct (ERead a i)) (ERead a i) Int8.
Proof.
  intros Ha Ht Hi. cbn [construct]. apply with_hash_spec; [by cbn; rewrite Ht|].
  eapply builds_bind; [by apply getInitialArray_spec|]. intros N1 arr Hs1 (n & Hn & ->).
  apply (one_term _ _ Int32); [done|]. intros N2 b Hs2 (Hb & Hbv & _). cbn [fst].
  destruct (wide_term Int32 b ltac:(done) Hb) as [Hbs Hbsv]. destruct (mk_const_law n Int32 Int8) as [Hcs Hcv].
  eapply constructs_term; [apply makes_term_bv; [done|by apply (mk_select_law Int32 Int8)]| |done].
  intros ρ σ v Hag Hev. cbn [eval] in Hev. unfold ev_read in Hev. destruct (eval σ i) as [x|] eqn:Hx; [|done]. cbn in Hev.
  destruct (Z.ltb_spec (ap_val x) (arr_size a)); [|done]. injection Hev as <-. cbn [ap_val].
  rewrite Hcv, <- Hbsv, (Hbv ρ σ x Hag Hx). pose proof (wf_range x (eval_wf _ _ _ Hx)).
  apply (Hag a n); [by eapply lookup_weaken|lia].
Qed.
Lemma construct_cmp k l r w N : type_of l = Some w -> type_of r = Some w -> cmp_core_ok k l ->
  (forall N, constructs N (construct l) l w) -> (forall N, constructs N (construct r) r w) ->
  constructs N (construct (ECmp k l r)) (ECmp k l r) 1.
Proof.
  intros Hwl Hwr Hk Hl Hr. cbn [construct]. unfold construct_comparison. destruct (type_width l w Hwl) as [Hgw Hw].
  apply with_hash_spec; [by cbn; rewrite Hwl, Hwr, ty_cmp_same|].
  destruct k; try done; cbn [cmp_core_ok] in Hk; rewrite ?Hgw in Hk.
  2-5: (apply (two_terms _ _ _ w w); [done..|]; intros N' a b _ Ha Hb; cbn [fst snd]; apply builds_assert; [by apply not_one|];
    (eapply constructs_term; [apply (order_term_spec _ w); [done|done|auto|apply Ha|apply Hb]|by apply cmp_value|done])).
  apply (two_terms _ _ _ w w); [done..|]. intros N' a b _ Ha Hb. cbn [fst snd].
  eapply constructs_settled; [apply eq_term_spec; [done|apply Ha|apply Hb|done]| |].
  - intros ρ σ v Hag Hev. rewrite <- (cmp_value l r w N' a b Ha Hb Hwl Hwr Kind.Eq ρ σ v Hag Hev). cbn [cmp_spec]. unfold eq_left.
    destruct l as [CE| | | | | | | | |]; cbn [as_constant]; try done. destruct (w =? 1); [|done]. by rewrite (proj2 (proj2 Ha) ρ).
  - destruct l as [c| | | | | | | | |]; try done. destruct r as [d| | | | | | | | |]; try done. intros ->%bool_decide_eq_true_1.
    split; [done|]. intros ρ. unfold eq_left. cbn [as_constant]. rewrite (proj2 (proj2 Ha) ρ), (proj2 (proj2 Hb) ρ).
    destruct (w =? 1); by rewrite Z.eqb_refl.
Qed.
Lemma construct_spec e : forall w N, type_of e = Some w -> Forall (read_ok sizes) (all_reads e) -> core_ok e ->
  constructs N (construct e) e w.
Proof.
  induction e as [CE|a i IHi|c IHc t IHt f IHf|l IHl r IHr|s IHs off width|s IHs width|s IHs width|s IHs|k l IHl r IHr|k l IHl r IHr];
    intros w N Ht Hr Hc; cbn [all_reads] in Hr; destruct Hc as [Hn Hk].
  - cbn [construct]. apply with_hash_spec; [done|]. apply type_constant in Ht as [Hwf <-].
    eapply constructs_settled; [by apply constant_term| |done]. intros ρ σ v _ [-> _]%eval_constant_inv. done.
  - apply type_read_inv in Ht as [-> _]. apply Forall_cons in Hr as [(Ha & (Hi & _) & _) Hr].
    apply construct_read; [done..|]. intros N'. by apply IHi.
  - pose proof Ht as (Htc & Htt & Htf)%type_select_inv. apply Forall_app in Hr as [Hrc [Hrt Hrf]%Forall_app]. destruct Hk as (Hkc & Hkt & Hkf).
    destruct (type_width t w Htt) as [_ Hw]. cbn [construct]. apply with_hash_spec; [done|].
    apply (one_term _ _ 1); [intros N'; by apply IHc|]. intros N1 x Hs1 Hx.
    apply (two_terms _ _ _ w w); [intros N'; by apply IHt|intros N'; by apply IHf|]. intros N2 y z Hs2 Hy Hz. cbn [fst snd].
    pose proof (means_mono _ _ _ _ _ Hs2 Hx) as Hx'. eapply constructs_term; [apply ite_term; [done|apply Hx'|apply Hy|apply Hz]| |done].
    intros ρ σ v Hag Hev. cbn [eval] in Hev. apply ev_select_inv in Hev as (vc & vt & vf & Hvc & Hvt & Hvf & _ & _ & ->).
    rewrite (proj1 (proj2 Hx') ρ σ _ Hag Hvc), (proj1 (proj2 Hy) ρ σ _ Hag Hvt), (proj1 (proj2 Hz) ρ σ _ Hag Hvf). by destruct (ap_val vc =? 0).
  - pose proof Ht as (wl & wr & Htl & Htr & ->)%type_concat_inv. apply Forall_app in Hr as [Hrl Hrr]. destruct Hk as [Hkl Hkr], Hn as [Hnl Hnr].
    destruct (type_width l wl Htl) as [Hgl Hwl], (type_width r wr Htr) as [Hgr Hwr]. rewrite Hgl in Hnl. rewrite Hgr in Hnr.
    cbn [construct]. apply with_hash_spec; [done|]. apply (two_terms _ _ _ wr wl); [intros N'; by apply IHr|intros N'; by apply IHl|].
    intros N1 b a Hs Hb Ha. cbn [fst snd getWidth]. rewrite Hgl, Hgr.
    eapply constructs_term; [apply concat_term; [done|done|done|done|apply Ha|apply Hb]| |done].
    intros ρ σ v Hag Hev. cbn [eval] in Hev. apply ev_concat_inv in Hev as (x & y & Hx & Hy & ->).
    rewrite (proj1 (proj2 Ha) ρ σ _ Hag Hx), (proj1 (proj2 Hb) ρ σ _ Hag Hy). cbn. pose proof (eval_type _ _ _ Hy). by assert (ap_width y = wr) as -> by congruence.
  - pose proof Ht as (-> & u & Hts & Hwd & Hoff & Hle)%type_extract_inv. destruct (type_width s u Hts) as [Hgs Hu]. cbn in Hn. rewrite Hgs in Hn.
    cbn [construct]. apply with_hash_spec; [done|]. apply (one_term _ _ u); [intros N'; by apply IHs|]. intros N1 x Hs1 Hx. cbn [fst].
    eapply constructs_term; [apply (extract_term_spec u); [done..|apply Hx]| |done]. intros ρ σ v Hag Hev. cbn [eval] in Hev.
    apply ev_extract_inv in Hev as (y & Hy & _ & ->). by rewrite (proj1 (proj2 Hx) ρ σ _ Hag Hy).
  - pose proof Ht as (-> & u & Hts & Hle)%type_zext_inv. destruct (type_width s u Hts) as [Hgs Hu]. cbn in Hn. rewrite Hgs in Hn.
    cbn [construct]. apply with_hash_spec; [done|]. apply (one_term _ _ u); [intros N'; by apply IHs|]. intros N1 x Hs1 Hx. cbn [fst snd].
    eapply constructs_term; [apply (zext_term_spec u); [done|apply Hx]| |done]. intros ρ σ v Hag Hev. cbn [eval] in Hev.
    apply ev_zext_inv in Hev as (y & Hy & _ & ->). by rewrite (proj1 (proj2 Hx) ρ σ _ Hag Hy).
  - pose proof Ht as (-> & u & Hts & Hle)%type_sext_inv. destruct (type_width s u Hts) as [Hgs Hu]. cbn in Hn. rewrite Hgs in Hn.
    cbn [construct]. apply with_hash_spec; [done|]. apply (one_term _ _ u); [intros N'; by apply IHs|]. intros N1 x Hs1 Hx. cbn [fst snd].
    eapply constructs_term; [apply (sext_term_spec u); [done|apply Hx]| |done]. intros ρ σ v Hag Hev. cbn [eval] in Hev.
    apply ev_sext_inv in Hev as (y & Hy & _ & ->). rewrite (proj1 (proj2 Hx) ρ σ _ Hag Hy). cbn. pose proof (eval_type _ _ _ Hy). by assert (ap_width y = u) as -> by congruence.
  - change (type_of s = Some w) in Ht. destruct (type_width s w Ht) as [_ Hw]. cbn [construct]. apply with_hash_spec; [done|]. apply (one_term _ _ w); [intros N'; by apply IHs|].
    intros N1 x Hs1 Hx. cbn [fst snd]. eapply constructs_term; [apply not_term; [done|apply Hx]| |done]. intros ρ σ v Hag Hev. cbn [eval] in Hev.
    apply ev_not_inv in Hev as (y & Hy & ->). rewrite (proj1 (proj2 Hx) ρ σ _ Hag Hy). cbn. pose proof (eval_type _ _ _ Hy). by assert (ap_width y = w) as -> by congruence.
  - apply type_arith_inv in Ht as [Htl Htr]. apply Forall_app in Hr as [Hrl Hrr]. destruct Hk as [Hkl Hkr].
    apply construct_arith; [done|done|intros N'; by apply IHl|intros N'; by apply IHr|done].
  - apply type_cmp_inv in Ht as (-> & u & Htl & Htr). apply Forall_app in Hr as [Hrl Hrr]. destruct Hk as [Hkl Hkr].
    apply (construct_cmp _ _ _ u); [done|done|done|intros N'; by apply IHl|intros N'; by apply IHr].
Qed.

(** C15 What Z3Builder builds means the expression: from any builder whose hash and cache are right, an expression that is
    typed, whose reads are in its arrays and that has a meaning in the core solver is built, without a failed
    assertion or a call of the error handler, as a term of its width (a boolean for a single bit) whose value, in every
    interpretation of the arrays' names, is the value of the expression for the input that the interpretation stands
    for; the hash and the cache stay right, and no array changes its name. *)
Theorem construct_right e w N b : type_of e = Some w -> Forall (read_ok sizes) (all_reads e) -> core_ok e -> builder_ok N b ->
  exists a b' N', construct e b = (Ok (a, w), b') /\ N ⊆ N' /\ builder_ok N' b' /\ has_width w a /\
    forall ρ σ v, agree N' ρ σ -> eval σ e = Some v -> val_of w ρ a = ap_val v.
Proof.
  intros Ht Hr Hc Hb. destruct (construct_spec e w N Ht Hr Hc b Hb) as ([a u] & b' & N' & Hrun & Hsub & Hb' & Hu & Hw & Hv & _).
  cbn in Hu, Hw, Hv. subst u. by exists a, b', N'.
Qed.

(** A single bit is a boolean, which Z3 does not concatenate: Z3's error handler aborts. *)
Lemma bit_concat_aborts l r w N b : type_of l = Some Bool -> type_of r = Some w -> Forall (read_ok sizes) (all_reads (EConcat l r)) ->
  core_ok l -> core_ok r -> builder_ok N b -> lookup_term (EConcat l r) (constructed b) = None ->
  fst (construct (EConcat l r) b) = Err AssertFailed.
Proof.
  intros Hl Hr [Hrl Hrr]%Forall_app Hcl Hcr Hb Hnew. cbn [construct]. unfold with_hash. cbn [is_const]. unfold sm_bind at 1, sm_gets at 1.
  rewrite Hnew. destruct (construct_spec r w N Hr Hrr Hcr b Hb) as ([y u] & b1 & N1 & Hrun1 & _ & Hb1 & _).
  destruct (construct_spec l Bool N1 Hl Hrl Hcl b1 Hb1) as ([x u'] & b2 & N2 & Hrun2 & _ & _ & _ & Hx & _).
  unfold sm_bind. rewrite Hrun1, Hrun2. cbn [fst]. unfold z3. by rewrite (mk_concat_bool_law x y (or_introl Hx)).
Qed.
End construct.

(** ** Names that are not unique *)

Section names.
Context `{Z3Api}.
#[local] Open Scope sm_scope.
Fixpoint initial_arrays (roots : list Array) : SM Z3Builder solver_error (list Z3_ast) :=
  match roots with
  | [] => sm_ret []
  | root :: roots => array <-- getInitialArray root ;; arrays <-- initial_arrays roots ;; sm_ret (array :: arrays)
  end.
(** The words that the simulated sensor reads. *)
Definition sensor_array (nread : N) : Array := mkArray ("SymbolicSensorValue" +:+ pretty nread) 4.
(** The counter does not make the names of arrays unique: when twelve values of the sensor are first used in some order,
    with the one numbered 11 second and the one numbered 1 last, both are the same array of Z3. *)
Theorem array_names_collide : let roots := sensor_array <$> [0; 11; 2; 3; 4; 5; 6; 7; 8; 9; 10; 1]%N in
  sensor_array 11 <> sensor_array 1 /\
  match fst (initial_arrays roots (mkZ3Builder [] ∅)) with
  | Ok arrays => exists a, arrays !! 1%nat = Some a /\ arrays !! 11%nat = Some a
  | Err _ => False
  end.
Proof. split; [done|]. vm_compute. by eexists. Qed.
End names.

(** ** A witness: the fourth part of a byte plus one, in an interpretation *)

Definition quarter_plus_one : expr := EArith Kind.Add (EArith Kind.UDiv (read_byte (mkArray "x" 1) 0) (EConstant (AP 8 4))) (EConstant (AP 8 1)).
#[local] Existing Instance Z3_terms.
Lemma construct_right_witness : exists a b',
  construct (H0 := Z3_terms []) quarter_plus_one (mkZ3Builder [] ∅) = (Ok (a, 8), b') /\
  term_value (fun n _ => if String.eqb n "x0" then 22 else 0) a = 6.
Proof.
  destruct (construct_right (API := Z3_terms []) (fun _ => 1) quarter_plus_one 8 ∅ (mkZ3Builder [] ∅)) as (a & b' & N' & Hrun & _ & _ & _ & Hv).
  - reflexivity.
  - constructor; [|by apply Forall_nil]. split; [split; [done|cbn; lia]|]. split; [repeat split|reflexivity].
  - by repeat split.
  - split; [done|done|constructor].
  - exists a, b'. split; [exact Hrun|].
    assert (match fst (construct (H0 := Z3_terms []) quarter_plus_one (mkZ3Builder [] ∅)) with
      Ok r => term_value (fun n _ => if String.eqb n "x0" then 22 else 0) r.1 | Err _ => 0 end = 6) as Hval by (vm_compute; reflexivity).
    by rewrite Hrun in Hval.
Defined.
