(* ===== verification/Z3Solver.v ===== *)
(** The core solver (klee/lib/Solver/Z3Solver.cpp): a query becomes assertions of Z3, and its answers,
    or the values a model gives the arrays, those of the query. *)
From stdpp Require Import pretty.
From S2P Require Import Prelude Bits APInt KExpr KBuilder KBuilderSound KType KCreate KCreateShape KCreateSound KVisitor KConstraints KReads KRange Concolic PathTrace KSolver KEval KNegation FastCex Z3Api Z3Builder Z3Sound.

(** * The solver *)

Section solver.
Context `{APInt, Z3Api} (Z3ValidateModels : bool).
#[local] Open Scope sm_scope.

Inductive SolverRunStatus := SUCCESS_SOLVABLE | SUCCESS_UNSOLVABLE | FAILURE | TIMEOUT | INTERRUPTED.
Record Z3State := mkZ3State { builder : Z3Builder; z3_ctx : Z3_context }.
Definition Z3State_new (c : Z3_context) : Z3State := mkZ3State (mkZ3Builder [] ∅) c.
Abbreviation M := (SM Z3State solver_error).

Definition on_builder {A} (m : SM Z3Builder solver_error A) : M A := fun s =>
  let (r, b) := m (builder s) in (r, mkZ3State b (z3_ctx s)).
Definition lift_z3 {A} (o : option A) : M A := on_builder (z3 o).
Definition status_assert (b : bool) : M unit := if b then sm_ret tt else sm_throw AssertFailed.
(** [Z3_solver_check], which may take Z3 to another state. *)
Definition solver_check (assertions : list Z3_ast) : M (z3_lbool Z3_model) := fun s =>
  let (satisfiable, c) := Z3_solver_check assertions (z3_ctx s) in (Ok satisfiable, mkZ3State (builder s) c).

Fixpoint assert_constraints (cs : list expr) : M (list Z3_ast) :=
  match cs with
  | [] => sm_ret []
  | c :: cs => f <-- on_builder (construct c) ;; fs <-- assert_constraints cs ;; sm_ret (fst f :: fs)
  end.
Definition model_byte (theModel : Z3_model) (array : Array) (offset : nat) : M Z :=
  initial_read <-- on_builder (getInitialRead array (Z.of_nat offset)) ;;
  arrayElementExpr <-- lift_z3 (Z3_model_eval theModel initial_read) ;;
  arrayElementValue <-- lift_z3 (Z3_get_numeral_int arrayElementExpr) ;;
  status_assert ((0 <=? arrayElementValue) && (arrayElementValue <=? 255)) ;;;
  sm_ret arrayElementValue.
Fixpoint model_bytes (theModel : Z3_model) (array : Array) (offsets : list nat) : M (list Z) :=
  match offsets with
  | [] => sm_ret []
  | offset :: offsets =>
      v <-- model_byte theModel array offset ;; data <-- model_bytes theModel array offsets ;; sm_ret (v :: data)
  end.
Fixpoint model_values (theModel : Z3_model) (objects : list Array) : M (list (list Z)) :=
  match objects with
  | [] => sm_ret []
  | array :: objects =>
      data <-- model_bytes theModel array (seq 0 (Z.to_nat (arr_size array))) ;;
      values <-- model_values theModel objects ;; sm_ret (data :: values)
  end.
(** [validateZ3Model]: every assertion evaluates to true; its messages are left out. *)
Fixpoint validateZ3Model (theModel : Z3_model) (constraints : list Z3_ast) : option bool :=
  match constraints with
  | [] => Some true
  | constraint :: constraints =>
      evaluatedExpr ← Z3_model_eval theModel constraint;
      _ ← assert_that (bool_decide (Z3_get_sort evaluatedExpr = BoolSort));
      let success := match Z3_get_bool_value evaluatedExpr with Some b => b | None => false end in
      rest ← validateZ3Model theModel constraints; Some (success && rest)
  end.
(** Without objects no values are asked for. *)
Definition handleSolverResponse (assertions : list Z3_ast) (satisfiable : z3_lbool Z3_model) (objects : option (list Array)) :
    M (SolverRunStatus * list (list Z)) :=
  match satisfiable with
  | L_TRUE theModel =>
      match objects with
      | None => sm_ret (SUCCESS_SOLVABLE, [])
      | Some objects =>
          values <-- model_values theModel objects ;;
          sm_when Z3ValidateModels
            (success <-- lift_z3 (validateZ3Model theModel assertions) ;; status_assert success) ;;;
          sm_ret (SUCCESS_SOLVABLE, values)
      end
  | L_FALSE => sm_ret (SUCCESS_UNSOLVABLE, [])
  | L_UNDEF reason =>
      if bool_decide (reason ∈ ["timeout"; "canceled"; "(resource limits reached)"]) then sm_ret (TIMEOUT, [])
      else if bool_decide (reason = "unknown") then sm_ret (FAILURE, [])
      else if bool_decide (reason = "interrupted from keyboard") then sm_ret (INTERRUPTED, [])
      else sm_throw AssertFailed
  end.
(** [None] is that there is no solution. *)
Definition internalRunSolver (query : Query) (objects : option (list Array)) : M (option (list (list Z))) :=
  constraints <-- assert_constraints (q_constraints query) ;;
  z3QueryExpr <-- on_builder (construct (q_expr query)) ;;
  negation <-- lift_z3 (Z3_mk_not (fst z3QueryExpr)) ;;
  satisfiable <-- solver_check (constraints ++ [negation]) ;;
  runStatus <-- handleSolverResponse (constraints ++ [negation]) satisfiable objects ;;
  on_builder (sm_modify clearConstructCache) ;;;
  match fst runStatus with
  | SUCCESS_SOLVABLE => sm_ret (Some (snd runStatus))
  | SUCCESS_UNSOLVABLE => sm_ret None
  | FAILURE | TIMEOUT | INTERRUPTED => sm_throw Failed
  end.
Definition z3_computeTruth (query : Query) : M bool :=
  solution <-- internalRunSolver query None ;;
  sm_ret (match solution with Some _ => false | None => true end).
Definition z3_computeInitialValues (query : Query) (objects : list Array) : M (option (list (list Z))) :=
  internalRunSolver query (Some objects).
Definition z3_computeValue (query : Query) : M expr :=
  let objects := findSymbolicObjects [q_expr query] [] in
  solution <-- z3_computeInitialValues (withFalse query) objects ;;
  match solution with
  | None => sm_throw AssertFailed
  | Some values => lift_z3 (evaluate (Assignment_new objects values false) (q_expr query))
  end.
(** [computeValidity] is the default one. *)
Definition Z3SolverImpl : SolverImpl Z3State := {|
  computeTruth := z3_computeTruth; computeValidity := default_computeValidity z3_computeTruth;
  computeValue := z3_computeValue; computeInitialValues := z3_computeInitialValues;
|}.
End solver.

(** * Its answers *)

Section answers.
Context `{Laws : APIntLaws, ZL : Z3Laws, AssertPolicy} (sizes : string -> Z) (Z3ValidateModels : bool).
#[local] Open Scope sm_scope.

(** Z3 gets the name of an array followed by a number: no two arrays may share one. *)
Definition unambiguous : Prop := forall a b k l, array_ok sizes a -> array_ok sizes b ->
  unique_name a k = unique_name b l -> arr_name a = arr_name b.
Definition known_reason (reason : string) : Prop :=
  reason ∈ ["timeout"; "canceled"; "(resource limits reached)"] \/ reason = "unknown" \/ reason = "interrupted from keyboard".
Definition reasons_known : Prop := forall fs c reason c', Z3_solver_check fs c = (L_UNDEF reason, c') -> known_reason reason \/ may_assert.

(** What holds of the state between queries, and the computations that add to its names. *)
Definition z3_inv (s : Z3State) : Prop := exists N, builder_ok sizes N (builder s).
Abbreviation runs := (builds_in sizes builder).

Lemma on_builder_runs {A} N (m : SM Z3Builder solver_error A) Q : builds_in sizes (fun b => b) N m Q -> runs N (on_builder m) Q.
Proof.
  intros Hm s Hs. destruct (Hm _ Hs) as (r & b & N' & Hrun & Hsub & Hb & Hq). exists r, (mkZ3State b (z3_ctx s)), N'.
  split_and!; [|done..]. unfold on_builder. by rewrite Hrun.
Qed.
Lemma lift_runs {A B} N (o : option A) (k : A -> SM Z3State solver_error B) a R : o = Some a -> runs N (k a) R -> runs N (sm_bind (lift_z3 o) k) R.
Proof. intros -> Hk s Hs. destruct (Hk s Hs) as (r & s' & N' & Hrun & H'). exists r, s', N'. split; [|done]. by destruct s. Qed.

(** ** Assertions *)

Lemma assert_constraints_spec cs : Forall (expr_ok sizes) cs -> forall N,
  runs N (assert_constraints cs) (fun N' fs => Forall2 (fun c f => means N' c 1 f) cs fs).
Proof.
  induction 1 as [|c cs (Ht & Hr & Hc) _ IH]; intros N; cbn [assert_constraints]; [apply builds_ret; constructor|].
  eapply builds_bind; [by apply on_builder_runs, construct_spec|]. intros N1 [f u] _ [Hu Hf]. cbn in Hu, Hf. subst u.
  eapply builds_bind; [apply IH|]. intros N2 fs Hsub Hfs. apply builds_ret. constructor; [by eapply means_mono|done].
Qed.
(** The assertions of a query: its constraints and its negated expression. *)
Definition asserts (N : gmap Array string) (q : Query) (fs : list Z3_ast) : Prop :=
  exists cs t negation, fs = cs ++ [negation] /\ Forall2 (fun c f => means N c 1 f) (q_constraints q) cs /\
    means N (q_expr q) 1 t /\ is_bool negation /\ forall ρ, bool_of ρ negation = negb (bool_of ρ t).
Lemma asserts_bool N q fs : asserts N q fs -> Forall is_bool fs.
Proof.
  intros (cs & t & n & -> & Hcs & _ & Hn & _). apply Forall_app. split; [|by constructor].
  clear -Hcs. induction Hcs as [|c f cs fs [Hf _] _ IH]; by constructor.
Qed.
Lemma means_says N e f ρ σ b : agree N ρ σ -> means N e 1 f -> evals σ e b -> bool_of ρ f = b.
Proof. intros Ha (_ & Hv & _) He. pose proof (Hv ρ σ _ Ha He) as Hb. unfold val_of in Hb. cbn in Hb. by destruct b, (bool_of ρ f). Qed.
(** An interpretation that satisfies them is one of an input that is not a counterexample to the constraints,
    nor makes the expression hold. *)
Definition falsified (q : Query) (σ : assignment) : Prop :=
  Forall (allows σ) (q_constraints q) /\ ~ holds σ (q_expr q) /\ trivially_true (q_expr q) = false.
Lemma asserts_model N q fs ρ σ : query_ok sizes q -> asserts N q fs -> agree N ρ σ ->
  Forall (fun f => bool_of ρ f = true) fs -> falsified q σ.
Proof.
  intros [[Ht _] _]%Forall_cons (cs & t & n & -> & Hcs & Hm & _ & Hnv) Ha [Hall [Hn _]%Forall_cons]%Forall_app.
  rewrite Hnv in Hn. apply negb_true_iff in Hn. split_and!.
  - clear -Hcs Ha Hall. induction Hcs as [|c f cs fs Hf _ IH]; constructor; apply Forall_cons in Hall as [Hfv Hall]; [|by apply IH].
    intros Hr. pose proof (means_says N c f ρ σ false Ha Hf Hr). congruence.
  - intros Hh. pose proof (means_says N _ t ρ σ true Ha Hm Hh). congruence.
  - destruct (trivially_true (q_expr q)) eqn:Htt; [|done]. destruct (settled_true N _ 1 t Ht Hm Htt) as [_ H1].
    specialize (H1 ρ). unfold val_of in H1. cbn in H1. by rewrite Hn in H1.
Qed.
(** Every input is that of an interpretation. *)
Definition named_input (N : gmap Array string) (σ : assignment) : interpretation := fun n i =>
  match List.find (fun p : Array * string => bool_decide (p.2 = n)) (map_to_list N) with Some p => σ (arr_name p.1) i | None => 0 end.
Lemma named_agree N b σ : unambiguous -> builder_ok sizes N b -> agree N (named_input N σ) σ.
Proof.
  intros Hun Hb a n Hn i _. unfold named_input. destruct (List.find _ _) as [[c m]|] eqn:Hf.
  - apply List.find_some in Hf as [Hin%list_elem_of_In%elem_of_map_to_list Hm%bool_decide_eq_true_1]. cbn in *. subst m.
    destruct (bk_names _ _ _ Hb a n Hn) as (Ha & k & Hk), (bk_names _ _ _ Hb c n Hin) as (Hc & l & Hl).
    by rewrite (Hun c a l k Hc Ha) by congruence.
  - exfalso. eapply List.find_none in Hf; [|by apply list_elem_of_In, elem_of_map_to_list]. cbn in Hf.
    by rewrite bool_decide_eq_true_2 in Hf.
Qed.
Lemma asserts_none N b q fs : unambiguous -> builder_ok sizes N b -> query_ok sizes q -> asserts N q fs ->
  (forall ρ, ~ Forall (fun f => bool_of ρ f = true) fs) -> must_be_true q.
Proof.
  intros Hun Hb Hq (cs & t & n & -> & Hcs & Hm & _ & Hnv) Hnone σ Hall Hr. apply (Hnone (named_input N σ)).
  pose proof (named_agree N b σ Hun Hb) as Ha. apply Forall_app. split.
  - clear -Hcs Ha Hall. induction Hcs as [|c f cs fs Hf _ IH]; constructor; apply Forall_cons in Hall as [Hc Hall]; [|by apply IH].
    by eapply (means_says N c f).
  - constructor; [|done]. by rewrite Hnv, (means_says N _ t _ σ false Ha Hm Hr).
Qed.

(** ** Models *)

(** The bytes of an array in a model, and the input they are. *)
Definition byte_in (N : gmap Array string) (m : Z3_model) (a : Array) (i : nat) : Z :=
  match N !! a with Some n => wrap 8 (model_interp m n (Z.of_nat i)) | None => 0 end.
Definition bytes_in (N : gmap Array string) (m : Z3_model) (a : Array) : list Z := byte_in N m a <$> seq 0 (Z.to_nat (arr_size a)).
Definition model_input (N : gmap Array string) (m : Z3_model) : assignment := input_of_bytes sizes (bytes_in N m).
Lemma model_agree N b m : builder_ok sizes N b -> agree N (model_interp m) (model_input N m).
Proof.
  intros Hb a n Hn i Hi. destruct (bk_names _ _ _ Hb a n Hn) as [Ha _]. unfold model_input, input_of_bytes. rewrite (array_ok_eq sizes a Ha).
  unfold bytes_in. rewrite list_lookup_fmap, lookup_seq_lt by lia. cbn. unfold byte_in. rewrite Hn, Z2Nat.id by lia. by rewrite wrap_wrap.
Qed.
Lemma bytes_in_ok N m a : array_ok sizes a -> values_of a (bytes_in N m a).
Proof.
  intros [_ Ha]. split; [unfold bytes_in; rewrite length_fmap, length_seq; lia|]. apply Forall_fmap, Forall_forall. intros i _.
  unfold compose, byte_ok, byte_in. destruct (N !! a); [apply (wrap_range 8); lia|lia].
Qed.

Lemma model_byte_spec N m a i : array_ok sizes a -> Z.of_nat i < arr_size a ->
  runs N (model_byte m a i) (fun N' v => forall N'', N' ⊆ N'' -> v = byte_in N'' m a i).
Proof.
  intros Ha Hi. unfold model_byte, getInitialRead. pose proof (proj2 Ha) as Hsz.
  destruct (bvConst_spec 32 (Z.of_nat i) ltac:(lia) ltac:(lia)) as [Hs _].
  eapply (builds_bind _ _ _ _ _ (fun N' f => exists n, N' !! a = Some n /\ is_bv 8 f /\ bv_of (model_interp m) f = wrap 8 (model_interp m n (Z.of_nat i)))).
  { apply on_builder_runs. eapply builds_bind; [by apply getInitialArray_spec|]. intros N1 arr _ (n & Hn & ->).
    destruct (mk_const_law n Int32 Int8) as [Hcs Hcv].
    destruct (mk_select_law Int32 Int8 _ (bvConst32 32 (Z.of_nat i)) ltac:(done) Hcs Hs) as (c & Hc & Hb & Hbv).
    unfold readExpr. rewrite Hc. apply builds_ret. exists n. split_and!; [done..|].
    rewrite Hbv, Hcv. by rewrite (bvConst_value 32) by lia. }
  intros N1 f _ (n & Hn & Hf & Hv). pose proof (wrap_range 8 (model_interp m n (Z.of_nat i)) ltac:(lia)) as Hr.
  destruct (model_eval_bv_law m 8 f Hf) as (v & Hev & Hnum); [rewrite Hv; lia|].
  eapply lift_runs; [exact Hev|]. eapply lift_runs; [exact Hnum|]. rewrite Hv.
  replace ((0 <=? _) && (_ <=? 255)) with true by (symmetry; apply andb_true_iff; split; apply Z.leb_le; lia).
  apply builds_ret. intros N'' Hsub. unfold byte_in. by rewrite (lookup_weaken _ _ _ _ Hn Hsub).
Qed.
Lemma model_bytes_spec m a : array_ok sizes a -> forall offsets, Forall (fun i => Z.of_nat i < arr_size a) offsets -> forall N,
  runs N (model_bytes m a offsets) (fun N' data => forall N'', N' ⊆ N'' -> data = byte_in N'' m a <$> offsets).
Proof.
  intros Ha. induction 1 as [|i offsets Hi _ IH]; intros N; cbn [model_bytes]; [by apply builds_ret|].
  eapply builds_bind; [by apply model_byte_spec|]. intros N1 v _ Hv. eapply builds_bind; [apply IH|].
  intros N2 data Hsub Hdata. apply builds_ret. intros N3 Hsub'. cbn. rewrite (Hdata N3 Hsub'). f_equal. apply Hv. by etrans.
Qed.
Lemma model_values_spec m objects : Forall (array_ok sizes) objects -> forall N,
  runs N (model_values m objects) (fun N' values => forall N'', N' ⊆ N'' -> values = bytes_in N'' m <$> objects).
Proof.
  induction 1 as [|a objects Ha _ IH]; intros N; cbn [model_values]; [by apply builds_ret|].
  eapply builds_bind; [apply model_bytes_spec; [done|]|].
  { apply Forall_forall. intros i Hi%elem_of_seq. pose proof (proj2 Ha). lia. }
  intros N1 data _ Hd. eapply builds_bind; [apply IH|]. intros N2 values Hsub Hvs. apply builds_ret. intros N3 Hsub'. cbn.
  rewrite (Hvs N3 Hsub'). f_equal. apply Hd. by etrans.
Qed.
Lemma validate_spec m fs : Forall is_bool fs -> Forall (fun f => bool_of (model_interp m) f = true) fs -> validateZ3Model m fs = Some true.
Proof.
  induction 1 as [|f fs Hf _ IH]; intros Hall; [done|]. apply Forall_cons in Hall as [Hfv Hall]. cbn [validateZ3Model].
  destruct (model_eval_bool_law m f Hf) as (v & -> & Hv & Hb). cbn [mbind option_bind]. unfold is_bool in Hv.
  rewrite bool_decide_eq_true_2 by done. cbn [assert_that mbind option_bind]. by rewrite (IH Hall), Hb, Hfv.
Qed.

(** ** The three computations *)

Context (Hnames : unambiguous) (Hreasons : reasons_known).

(** A run from a state with the names: it ends with more names and a result, or with an error, that
    it only does when [U]. *)
Definition ends_from {A} (U : Prop) (N : gmap Array string) (m : SM Z3State solver_error A) (P : gmap Array string -> A -> Prop) : Prop :=
  forall s, builder_ok sizes N (builder s) ->
    match m s with
    | (Ok a, s') => exists N', N ⊆ N' /\ builder_ok sizes N' (builder s') /\ P N' a
    | (Err e, s') => z3_inv s' /\ allowed_error e /\ U
    end.
Lemma runs_ends {A} U N (m : SM Z3State solver_error A) P : runs N m P -> ends_from U N m P.
Proof. intros Hm s Hs. destruct (Hm s Hs) as (r & s' & N' & -> & H'). by exists N'. Qed.
Lemma ends_bind {A B} U N (m : SM Z3State solver_error A) (k : A -> SM Z3State solver_error B) P Q :
  ends_from U N m P -> (forall N' a, N ⊆ N' -> P N' a -> ends_from U N' (k a) Q) -> ends_from U N (sm_bind m k) Q.
Proof.
  intros Hm Hk s Hs. specialize (Hm s Hs). unfold sm_bind. destruct (m s) as [[a|e] s'] eqn:Hrun; [|done].
  destruct Hm as (N' & Hsub & Hb & Ha). specialize (Hk N' a Hsub Ha s' Hb). destruct (k a s') as [[b|e] s'']; [|done].
  destruct Hk as (N'' & Hsub' & H'). exists N''. split; [by etrans|done].
Qed.
Lemma ends_throw {A} (U : Prop) N e (P : gmap Array string -> A -> Prop) : U -> allowed_error e -> ends_from U N (sm_throw e) P.
Proof. intros HU He s Hs. split; [by exists N|done]. Qed.
(** Values of the objects, when they were asked for, that are an input of the kind. *)
Definition found_values (q : Query) (objects : option (list Array)) (values : list (list Z)) : Prop :=
  exists f, falsified q (input_of_bytes sizes f) /\
    match objects with Some objects => values = f <$> objects /\ Forall2 values_of objects values | None => True end.
(** Z3 does not know whether assertions that mean the query can be satisfied. *)
Definition gives_up (q : Query) : Prop :=
  exists N fs c reason c', asserts N q fs /\ Z3_solver_check fs c = (L_UNDEF reason, c').
Definition answered (q : Query) (objects : option (list Array)) (status : SolverRunStatus * list (list Z)) : Prop :=
  match status.1 with
  | SUCCESS_SOLVABLE => found_values q objects status.2
  | SUCCESS_UNSOLVABLE => must_be_true q
  | FAILURE | TIMEOUT | INTERRUPTED => gives_up q
  end.
Lemma response_spec N q fs c r c' objects : query_ok sizes q -> asserts N q fs -> Z3_solver_check fs c = (r, c') ->
  match objects with Some objects => Forall (array_ok sizes) objects | None => True end ->
  ends_from (gives_up q) N (handleSolverResponse Z3ValidateModels fs r objects) (fun _ => answered q objects).
Proof.
  intros Hq Hfs Hcheck Ho. pose proof (asserts_bool N q fs Hfs) as Hb. destruct r as [m| |reason]; cbn [handleSolverResponse].
  - pose proof (check_true_law fs c m c' Hb Hcheck) as Htrue.
    assert (forall N' b, N ⊆ N' -> builder_ok sizes N' b -> falsified q (model_input N' m)) as Hfal.
    { intros N' b Hsub Hok. apply (asserts_model N q fs (model_interp m)); [done|done| |done].
      intros a n Hn. apply (model_agree N' b m Hok a n). by eapply lookup_weaken. }
    destruct objects as [objects|].
    + eapply ends_bind; [by apply runs_ends, model_values_spec|]. intros N1 values Hsub Hvs.
      assert (exists u, sm_when Z3ValidateModels (success <-- lift_z3 (validateZ3Model m fs) ;; status_assert success) = u /\ forall s, exists s', u s = (Ok tt, s') /\ s' = s) as (u & -> & Hu).
      { eexists. split; [done|]. intros s. exists s. split; [|done]. destruct Z3ValidateModels; [|done].
        cbn [sm_when]. rewrite (validate_spec m fs Hb Htrue). by destruct s. }
      intros s Hs. unfold sm_bind. destruct (Hu s) as (s' & -> & ->). cbn. exists N1. split_and!; [done..|].
      exists (bytes_in N1 m). split; [by apply (Hfal N1 (builder s))|]. cbn. rewrite (Hvs N1) by done. split; [done|].
      apply Forall2_fmap_r, Forall_Forall2_diag. eapply Forall_impl; [exact Ho|]. intros a. apply bytes_in_ok.
    + intros s Hs. exists N. split_and!; [done..|]. exists (bytes_in N m). split; [by apply (Hfal N (builder s))|done].
  - intros s Hs. exists N. split_and!; [done..|]. cbn. apply (asserts_none N (builder s) q fs); [done..|].
    intros ρ. by apply (check_false_law fs c c').
  - assert (gives_up q) as Hup by (by exists N, fs, c, reason, c').
    destruct (Hreasons fs c reason c' Hcheck) as [Hk|Hmay].
    + repeat (case_bool_decide; [by apply runs_ends, builds_ret|]). by destruct Hk as [?|[?|?]].
    + repeat (case_bool_decide; [by apply runs_ends, builds_ret|]). by apply ends_throw.
Qed.
Lemma cleared_ok N b : builder_ok sizes N b -> builder_ok sizes N (clearConstructCache b).
Proof. intros [Hh Hn _]. split; [done|done|constructor]. Qed.
Definition solved (q : Query) (objects : option (list Array)) (o : option (list (list Z))) : Prop :=
  match o with Some values => found_values q objects values | None => must_be_true q end.
Lemma internalRunSolver_ends N q objects : query_ok sizes q ->
  match objects with Some objects => Forall (array_ok sizes) objects | None => True end ->
  ends_from (gives_up q) N (internalRunSolver Z3ValidateModels q objects) (fun _ => solved q objects).
Proof.
  intros Hq Ho. pose proof Hq as [(Ht & Hr & Hc) Hcs]%Forall_cons. unfold internalRunSolver.
  eapply ends_bind; [by apply runs_ends, assert_constraints_spec|]. intros N1 cs _ Hcs'.
  eapply ends_bind; [by apply runs_ends, on_builder_runs, construct_spec|]. intros N2 [t u] Hsub [Hu Hm]. cbn in Hu, Hm. subst u. cbn [fst].
  destruct (mk_not_law t (proj1 Hm)) as (n & Hn & Hnb & Hnv). rewrite Hn.
  assert (asserts N2 q (cs ++ [n])) as Hfs.
  { exists cs, t, n. split_and!; [done| |done..]. eapply Forall2_impl; [exact Hcs'|]. intros c f. by apply means_mono. }
  eapply ends_bind; [apply (runs_ends _ _ _ (fun N' a => N' = N2 /\ a = n)); intros s Hs; exists n, s, N2; by destruct s|]. intros ? ? _ [-> ->].
  eapply (ends_bind _ _ _ _ (fun N' r => N' = N2 /\ exists c c', Z3_solver_check (cs ++ [n]) c = (r, c'))).
  { intros s Hs. unfold solver_check. destruct (Z3_solver_check _ _) as [r c'] eqn:Hcheck. exists N2. split_and!; [done..|]. by exists (z3_ctx s), c'. }
  intros ? r _ [-> (c & c' & Hcheck)]. eapply ends_bind; [by eapply response_spec|]. intros N3 [status values] _ Hans.
  eapply (ends_bind _ _ _ _ (fun _ _ => True)).
  { intros s Hs. exists N3. split_and!; [done|by apply cleared_ok|done]. }
  intros N4 _ _ _. unfold answered in Hans. cbn in Hans |- *. destruct status; try (by apply runs_ends, builds_ret); by apply ends_throw.
Qed.

Lemma internalRunSolver_spec q objects : query_ok sizes q ->
  match objects with Some objects => Forall (array_ok sizes) objects | None => True end ->
  promises z3_inv (internalRunSolver Z3ValidateModels q objects) (solved q objects).
Proof.
  intros Hq Ho s [N Hs]. pose proof (internalRunSolver_ends N q objects Hq Ho s Hs) as He.
  destruct (internalRunSolver _ q objects s) as [[o|e] s']; [|by destruct He as (? & ? & _)].
  destruct He as (N' & _ & Hb & Hv). split; [by exists N'|done].
Qed.
Lemma z3_truth q : query_ok sizes q -> promises z3_inv (z3_computeTruth Z3ValidateModels q) (truth_ok q).
Proof.
  intros Hq. eapply promises_bind; [by apply (internalRunSolver_spec q None)|]. intros [values|] Hv; apply promises_ret; [|done].
  destruct Hv as (f & (Hcs & Hn & _) & _). by exists (input_of_bytes sizes f).
Qed.
Lemma z3_initial_values q objects : query_ok sizes q -> Forall (array_ok sizes) objects ->
  promises z3_inv (z3_computeInitialValues Z3ValidateModels q objects)
    (solved q (Some objects)).
Proof. intros Hq Ho. by apply (internalRunSolver_spec q (Some objects)). Qed.
Lemma falsified_isZero q σ : query_ok sizes q -> falsified q σ -> allows σ (Expr_createIsZero (q_expr q)).
Proof.
  intros [[Ht _] _]%Forall_cons (_ & Hn & Htt) Hr. destruct (isZero_says σ _ Ht) as (_ & Hz & _).
  destruct (Hz Hr) as [Hh|H1]; [done|congruence].
Qed.
Lemma z3_value q : value_query_ok sizes q -> consistent q -> defined q -> promises z3_inv (z3_computeValue Z3ValidateModels q) (value_ok q).
Proof.
  intros ((w & Hw) & Hp & Hcs) [σ0 Hσ0] Hd. unfold z3_computeValue. set (objects := findSymbolicObjects _ _).
  assert (query_ok sizes (withFalse q)) as Hq by (apply Forall_cons; split; [by repeat split; try apply Forall_nil|done]).
  assert (forall a, a ∈ objects <-> a ∈ arrays (q_expr q)) as Hin.
  { intros a. unfold objects. rewrite findSymbolicObjects_spec, Exists_cons, Exists_nil, elem_of_nil. tauto. }
  assert (Forall (array_ok sizes) objects) as Ho.
  { apply Forall_forall. intros a Ha%Hin. by apply (proj1 (Forall_forall _ _) (parts_ok_arrays sizes _ Hp)). }
  eapply promises_bind; [by apply z3_initial_values|]. intros [values|] Hv.
  2: { exfalso. by apply (Hv σ0 Hσ0). }
  destruct Hv as (f & (Hall & _) & Hval & Hvs). cbn [q_constraints withFalse withExpr] in Hall.
  destruct (Hd _ Hall) as [v Hev]. unfold evaluate.
  destruct (evaluate_in_spec sizes (Assignment_new objects values false) (q_expr q) w []) as (r & vs & Hr & Hok & _);
    [by apply (bindings_of_values objects values)|done|done|constructor|].
  rewrite Hr. cbn [fst fmap option_fmap option_map].
  assert (r = EConstant v) as ->.
  { apply (proj2 (evaluated_value sizes _ _ r w Hok Hw Hp ltac:(done))). rewrite <- Hev, <- (eval_zip sizes f objects) by (done || apply Hin).
    rewrite <- Hval. apply eval_ext. intros name i. symmetry. by apply (input_of_zip sizes). }
  intros s Hs. destruct s. split; [done|]. by exists (input_of_bytes sizes f), v.
Qed.

Lemma z3_solver_ok : impl_ok sizes (Z3SolverImpl Z3ValidateModels) z3_inv.
Proof.
  split; cbn [computeTruth computeValidity computeValue computeInitialValues Z3SolverImpl].
  - intros q Hq _ _. by apply z3_truth.
  - intros q. apply default_validity_promise. intros q' Hq' _ _. by apply z3_truth.
  - apply z3_value.
  - intros q objects Hq [Ho Hcov]. eapply promises_weaken; [by apply z3_initial_values|]. intros [values|] Hv.
    + destruct Hv as (f & Hfal & -> & Hvs). pose proof (falsified_isZero q _ Hq Hfal) as Hz. destruct Hfal as (Hcs & _).
      apply Forall_cons in Hcov as [Hce Hcc]. split; [done|]. unfold allows, refuted, evals in *. split.
      * apply Forall_forall. intros c Hc. rewrite (eval_zip sizes) by (done || by apply (proj1 (Forall_forall _ _) Hcc)).
        by apply (proj1 (Forall_forall _ _) Hcs).
      * by rewrite (eval_zip sizes) by done.
    + intros σ Hall Hh. apply (Hv σ Hall). apply isZero_holds; [|done]. by apply Forall_cons in Hq as [[? _] _].
Qed.

(** C16 The core solver keeps the contract of KLEE's solvers, whatever it was asked before, if Z3 does what it documents
    and no two arrays get one name: the truths, validities, values and initial values are right, and no assertion fails.
    A run of it errs only when Z3 gives up on assertions that mean the query; otherwise it says that there is no
    solution, and the expression holds for all inputs that satisfy the constraints, or gives the objects the bytes of an
    input that the constraints allow and that does not make the expression hold. *)
Theorem z3_solver_right :
  impl_ok sizes (Z3SolverImpl Z3ValidateModels) z3_inv /\
  forall q objects s, query_ok sizes q -> match objects with Some objects => Forall (array_ok sizes) objects | None => True end -> z3_inv s ->
    let run := internalRunSolver Z3ValidateModels q objects s in
    z3_inv (snd run) /\ match fst run with Ok o => solved q objects o | Err e => allowed_error e /\ gives_up q end.
Proof.
  split; [exact z3_solver_ok|]. intros q objects s Hq Ho [N Hs] run. pose proof (internalRunSolver_ends N q objects Hq Ho s Hs) as He. subst run.
  destruct (internalRunSolver _ q objects s) as [[o|e] s']; [|done]. destruct He as (N' & _ & Hb & Hv). split; [by exists N'|done].
Qed.
End answers.

(** ** Witnesses: a byte that is six, between two terms of Z3 that candidates are tried for *)

(** Only the arrays of the names exist, with a byte each. *)
Definition sizes_of (names : list string) (name : string) : Z := if bool_decide (name ∈ names) then 1 else -1.
Lemma sizes_of_array names a : array_ok (sizes_of names) a -> arr_name a ∈ names.
Proof. unfold array_ok, sizes_of. case_bool_decide; [done|lia]. Qed.
#[local] Existing Instance Z3_terms.
Lemma terms_reasons `{AssertPolicy} candidates : reasons_known (API := Z3_terms candidates).
Proof.
  intros fs c reason c'. cbn. unfold search_check. destruct (List.find _ _); [done|]. destruct (existsb _ _); [done|].
  intros [= <- _]. left. right. by left.
Qed.
Lemma z3_new_inv candidates sizes : z3_inv (API := Z3_terms candidates) sizes (Z3State_new (H0 := Z3_terms candidates) tt).
Proof. exists ∅. split; [done|done|constructor]. Qed.
Lemma one_unambiguous name : unambiguous (sizes_of [name]).
Proof. by intros a b k l ->%sizes_of_array%list_elem_of_singleton ->%sizes_of_array%list_elem_of_singleton. Qed.
Lemma six_ok v : ap_wf (AP 8 v) -> expr_ok (sizes_of ["x"]) (byte_equal v).
Proof.
  intros Hv%Is_true_true. split; [unfold well_typed; cbn; by rewrite Hv|]. split; [|by repeat split]. constructor; [|by apply Forall_nil].
  split; [split; [done|cbn; lia]|]. split; [repeat split|reflexivity].
Qed.
#[local] Existing Instance no_asserts.
Definition sixes : Z3Api := Z3_terms [fun _ _ => 6].
Definition six_run (v : Z) := internalRunSolver (H0 := sixes) true (six_query (byte_equal v)) (Some [six_byte]) (Z3State_new (H0 := sixes) tt).
Lemma z3_solver_right_witness :
  impl_ok (sizes_of ["x"]) (Z3SolverImpl (H0 := sixes) true) (z3_inv (API := sixes) (sizes_of ["x"])) /\
  (fst (six_run 5) = Ok (Some [[6]]) /\ solved (sizes_of ["x"]) (six_query (byte_equal 5)) (Some [six_byte]) (Some [[6]])) /\
  (fst (six_run 6) = Err Failed /\ gives_up (API := sixes) (six_query (byte_equal 6))).
Proof.
  destruct (z3_solver_right (API := sixes) (sizes_of ["x"]) true (one_unambiguous "x") (terms_reasons _)) as [Hok Hrun].
  assert (forall v, ap_wf (AP 8 v) -> query_ok (sizes_of ["x"]) (six_query (byte_equal v))) as Hq.
  { intros v Hv. repeat (apply Forall_cons; split; [by apply six_ok|]). by apply Forall_nil. }
  assert (Forall (array_ok (sizes_of ["x"])) [six_byte]) as Ho by (repeat constructor; cbn; lia).
  assert (fst (six_run 5) = Ok (Some [[6]])) as H5 by (vm_compute; reflexivity).
  assert (fst (six_run 6) = Err Failed) as H6 by (vm_compute; reflexivity).
  destruct (Hrun _ (Some [six_byte]) (Z3State_new (H0 := sixes) tt) (Hq 5 ltac:(by vm_compute)) Ho (z3_new_inv _ _)) as [_ Hr5].
  destruct (Hrun _ (Some [six_byte]) (Z3State_new (H0 := sixes) tt) (Hq 6 ltac:(by vm_compute)) Ho (z3_new_inv _ _)) as [_ Hr6].
  fold (six_run 5) in Hr5. fold (six_run 6) in Hr6. rewrite H5 in Hr5. rewrite H6 in Hr6.
  split; [exact Hok|]. split; [by split|]. split; [done|exact (proj2 Hr6)].
Defined.
