(* ===== verification/SolverChain.v ===== *)
(** clover's solver (clover/solver.cpp): the chain of KLEE's solvers it builds, and its two
    questions, an assignment and a truth, answered through all of them. *)
From S2P Require Import Prelude Bits APInt KExpr KBuilder KBuilderSound KType KCreate KCreateShape KCreateSound KConstraints KReads Concolic PathTrace KSolver KEval KCompare MapOfSets KCaching FastCex KCexCaching KIndependent Z3Api Z3Builder Z3Sound Z3Solver.

(** * The chain *)

Section chain.
Context `{APInt, ExprIdentity} {S : Type} (opts : cex_options) (fast : IncompleteSolver) (core : SolverImpl S).
#[local] Open Scope sm_scope.

Abbreviation chain_state := (CachingState (CexState S)).
(** The constructor of clover's [Solver]; its [fast] is [FastCexSolver], which [createFastCexSolver] makes. *)
Definition solver_chain : SolverImpl chain_state :=
  IndependentSolver (CachingSolver (CexCachingSolver opts (StagedSolverImpl fast core))).
Definition chain_new (s : S) : chain_state := mkCaching (mkCex s empty_node ∅) [].

(** The arrays of the negated query, those of its expression first. *)
Definition query_objects (nq : Query) : list Array :=
  foldl (fun objects e => findSymbolicObjects [e] objects) (findSymbolicObjects [q_expr nq] []) (q_constraints nq).
(** [Solver::getAssignment] *)
Definition clover_getAssignment (query : Query) : SM chain_state solver_error (option Assignment) :=
  let nq := Query_negateExpr query in
  let objects := query_objects nq in
  if match as_constant (q_expr nq) with Some ce => isTrue ce | None => false end then sm_ret None
  else
    values <-- Solver_getInitialValues solver_chain nq objects ;;
    sm_ret (zip objects <$> values).

(** [Solver::eval], with the exceptions it throws. *)
Inductive eval_error := FailedToEvaluate | UnknownSolverResult | EvalAssertion.
Definition clover_eval (query : Query) : SM chain_state eval_error bool := fun s =>
  match Solver_evaluate solver_chain query s with
  | (Ok ValidTrue, s) => (Ok true, s)
  | (Ok ValidFalse, s) => (Ok false, s)
  | (Ok ValidUnknown, s) => (Err UnknownSolverResult, s)
  | (Err Failed, s) => (Err FailedToEvaluate, s)
  | (Err AssertFailed, s) => (Err EvalAssertion, s)
  end.
End chain.

(** * What it answers *)

Section answers.
Context `{Laws : APIntLaws, Identity : ExprIdentityLaws, AssertPolicy} (sizes : string -> Z).

(** ** Assignments *)

(** The expressions of a query that an assignment is asked for are settled, and its own with them. *)
Definition askable (q : Query) : Prop := settled (q_expr q :: goals_of (Query_negateExpr q)).

Lemma query_objects_spec nq a : a ∈ query_objects nq <-> Exists (fun e => a ∈ arrays e) (q_expr nq :: q_constraints nq).
Proof.
  unfold query_objects.
  assert (forall es objects, a ∈ foldl (fun objects e => findSymbolicObjects [e] objects) objects es <->
    a ∈ objects \/ Exists (fun e => a ∈ arrays e) es) as Hfold.
  { induction es as [|e es IH]; intros objects; cbn [foldl]; [rewrite Exists_nil; tauto|].
    rewrite IH, findSymbolicObjects_spec, !Exists_cons, Exists_nil. tauto. }
  rewrite Hfold, findSymbolicObjects_spec, !Exists_cons, Exists_nil, elem_of_nil. tauto.
Qed.
Lemma objects_cover q : query_ok sizes q -> covers_arrays sizes (query_objects q) q.
Proof.
  intros Hq. split.
  - apply Forall_forall. intros a (e & He & Ha)%query_objects_spec%Exists_exists.
    apply (proj1 (Forall_forall _ _) (parts_ok_arrays sizes e (proj2 (proj1 (Forall_forall _ _) Hq e He)))), Ha.
  - constructor; [|apply Forall_forall; intros e He]; intros a Ha; apply query_objects_spec, Exists_cons.
    + left. apply list_elem_of_fmap in Ha as (r & -> & Hr%isZero_reads). unfold arrays. by apply list_elem_of_fmap_2.
    + right. apply Exists_exists. by exists e.
Qed.
Lemma askable_goals q : askable q -> settled (goals_of (Query_negateExpr q)).
Proof.
  intros [Hg Hv]. split; [intros e σ He; apply Hg; by right|]. intros σ Hall.
  assert (allows σ (q_expr q)) as Ha.
  { intros Hr. apply Forall_cons in Hall as [Hn _]. apply Hn. apply (isZero_evals σ _ true), (isZero_evals σ _ false Hr). }
  specialize (Hv σ (Forall_cons_2 _ _ _ Ha Hall)). by apply Forall_cons in Hv as [_ ?].
Qed.
Lemma not_true_goal q : query_ok sizes q ->
  match as_constant (q_expr q) with Some ce => isTrue ce | None => false end = false -> not_true q.
Proof.
  intros [[Ht _] _]%Forall_cons Hc CE HCE. rewrite HCE in Hc. destruct (q_expr q) as [v| | | | | | | | |]; try done.
  injection HCE as ->. apply type_constant in Ht as [_ Hw]. unfold isTrue, isFalse in *. rewrite Hw in *. cbn in *.
  by apply negb_false_iff in Hc.
Qed.
Lemma zip_values objects values : Forall2 values_of objects values -> Forall (fun p => values_of p.1 p.2) (zip objects values).
Proof. induction 1; by constructor. Qed.
(** What the values found say of the query. *)
Lemma found_answer q values : query_ok sizes q -> askable q ->
  initial_ok (Query_negateExpr q) (query_objects (Query_negateExpr q)) (Some values) ->
  Forall (holds (input_of (zip (query_objects (Query_negateExpr q)) values))) (q_expr q :: q_constraints q).
Proof.
  intros Hq Ha (_ & Hcs & Hn). set (σ := input_of _) in *.
  assert (allows σ (q_expr q)) as He.
  { intros Hr. apply Hn. apply (isZero_evals σ _ true), (isZero_evals σ _ false Hr). }
  assert (Forall (allows σ) (q_expr q :: goals_of (Query_negateExpr q))) as Hall by (repeat constructor; done).
  pose proof (st_values _ Ha σ Hall) as Hv. apply Forall_forall. intros e Hin.
  assert (e ∈ q_expr q :: goals_of (Query_negateExpr q)) as Hin' by (unfold goals_of; cbn; set_solver).
  destruct (typed_boolean σ e) as [?|Hr]; [|by apply (proj1 (Forall_forall _ _) Hv)|done|].
  - by apply (proj1 (Forall_forall _ _) Hq).
  - by destruct (proj1 (Forall_forall _ _) Hall e Hin').
Qed.

Context (opts : cex_options) {S : Type} (fast : IncompleteSolver) (core : SolverImpl S) (I : S -> Prop).
Definition inner_chain : SolverImpl (CachingState (CexState S)) :=
  CachingSolver (CexCachingSolver opts (StagedSolverImpl fast core)).
Abbreviation chain_inv := (caching_inv (cex_inv sizes I)).
Lemma chain_new_inv s : I s -> chain_inv (chain_new s).
Proof.
  intros Hs. split; [|constructor]. split; [done|]. split; [constructor; [constructor|done]|]. split; [|set_solver].
  intros set a. by destruct set.
Qed.

Hypothesis Hdebug : DebugCexCacheCheckBinding opts = false.
Hypothesis Hfast : incomplete_ok sizes fast.
Hypothesis Hcore : impl_ok sizes core I.

Lemma inner_chain_ok : impl_ok sizes inner_chain chain_inv.
Proof. by apply caching_promise, cex_caching_promise; [apply staged_promise|]. Qed.

(** C10 The assignments clover gets from the solver satisfy what it asked: through the independent
    solver, both caches and the staged solver, whatever was asked before, an assignment gives every
    symbolic array its bytes and makes the constraints and the expression of the query hold; that
    there is none means that no input satisfies the query, unless the solvers behind have failed;
    and an assertion fails only if the incomplete solver's may. *)
Theorem chain_getAssignment q s : query_ok sizes q -> askable q -> chain_inv s ->
  let run := clover_getAssignment opts fast core q s in
  chain_inv (snd run) /\
  match fst run with
  | Ok (Some a) => Forall (fun p => values_of p.1 p.2) a /\ Forall (holds (input_of a)) (q_expr q :: q_constraints q)
  | Ok None =>
      (forall σ, ~ Forall (holds σ) (q_expr q :: q_constraints q)) \/
      fst (computeInitialValues (solver_chain opts fast core) (Query_negateExpr q) (query_objects (Query_negateExpr q)) s) = Err Failed
  | Err e => e = AssertFailed /\ may_assert
  end.
Proof.
  intros Hq Ha Hs run. subst run. unfold clover_getAssignment. pose proof (negate_ok sizes q Hq) as Hnq.
  destruct (match as_constant (q_expr (Query_negateExpr q)) with Some ce => isTrue ce | None => false end) eqn:Hc.
  { cbn. split; [done|]. left. intros σ [He _]%Forall_cons. pose proof (isZero_evals σ _ true He) as Hn.
    cbn in Hc. destruct (Expr_createIsZero (q_expr q)) as [v| | | | | | | | |]; try done.
    apply eval_constant_inv in Hn as [<- _]. done. }
  set (objects := query_objects _).
  pose proof (independent_initial_values sizes inner_chain chain_inv _ objects inner_chain_ok Hnq (objects_cover _ Hnq)
    (not_true_goal _ Hnq Hc) (askable_goals _ Ha) s Hs) as Hp.
  unfold Solver_getInitialValues, sm_bind, sm_catch, sm_ret, sm_throw.
  change (solver_chain opts fast core) with (IndependentSolver inner_chain).
  destruct (computeInitialValues (IndependentSolver inner_chain) _ objects s) as [[[values|]|e] s'] eqn:Hrun; cbn.
  - destruct Hp as [Hs' Hini]. split; [done|]. split; [|by apply found_answer].
    by apply zip_values, Hini.
  - destruct Hp as [Hs' Hnever]. split; [done|]. left. intros σ [He Hcs]%Forall_cons. apply (Hnever σ Hcs).
    apply (isZero_evals σ _ false), (isZero_evals σ _ true He).
  - destruct Hp as [Hs' He]. destruct e; cbn; (split; [done|]); [by right|done].
Qed.

(** ** Truths *)

Lemma evaluate_promise q : query_ok sizes q -> consistent q -> defined q ->
  promises chain_inv (Solver_evaluate (solver_chain opts fast core) q) (validity_ok q).
Proof.
  intros Hq Hc Hd. unfold Solver_evaluate. pose proof (proj1 (proj1 (Forall_cons _ _ _) Hq)) as [Ht _].
  apply promises_assert; [by apply Z.eqb_eq, (type_width _ _ Ht)|].
  destruct (as_constant (q_expr q)) as [CE|] eqn:Hce.
  - apply promises_ret. destruct (q_expr q) as [v| | | | | | | | |] eqn:He; try done. injection Hce as ->.
    apply type_constant in Ht as [Hw Hwd]. destruct (bool_eval (fun _ _ => 0) (EConstant CE) CE) as [b ->]; [by apply eval_constant|done|].
    rewrite isTrue_bool. destruct b; intros σ _; rewrite He; intros Hr; by apply eval_constant_inv in Hr as [? _].
  - by apply (independent_promise sizes inner_chain chain_inv q inner_chain_ok Hc Hd).
Qed.
(** C11 The truths clover gets from the solver are right: when the constraints can be satisfied, true
    means that the expression is false for no input that satisfies them, and false that it is true for none;
    the exception for an unknown result is thrown only if some input that makes no constraint false does not
    make the expression false, and some such input does not make it true; and an assertion fails only if the
    incomplete solver's may. *)
Theorem chain_eval q s : query_ok sizes q -> consistent q -> defined q -> chain_inv s ->
  let run := clover_eval opts fast core q s in
  chain_inv (snd run) /\
  match fst run with
  | Ok b => if b : bool then must_be_true q else must_be_false q
  | Err UnknownSolverResult => may_be_true q /\ may_be_false q
  | Err FailedToEvaluate => True
  | Err EvalAssertion => may_assert
  end.
Proof.
  intros Hq Hc Hd Hs run. subst run. unfold clover_eval. pose proof (evaluate_promise q Hq Hc Hd s Hs) as Hp.
  destruct (Solver_evaluate _ q s) as [[v|e] s']; destruct Hp as [Hs' Hv]; [by destruct v|]. by destruct e.
Qed.
End answers.

(** ** Witnesses: the core solver between two candidates for a model; two bytes, asked for through a new chain and one
    that has cached the answer, and a free one *)

#[local] Existing Instance sample_identity.
#[local] Existing Instance sample_identity_laws.
#[local] Existing Instance with_asserts.
#[local] Existing Instance Z3_terms_laws.
Definition first_seven : Z3Api := Z3_terms [(fun n _ => if String.prefix "a" n then 7 else 8); (fun _ _ => 9)].
#[local] Existing Instance first_seven.
Abbreviation chain_core := (Z3SolverImpl true).
Abbreviation new_chain := (chain_new (Z3State_new (H0 := first_seven) tt)).
Definition two_sizes : string -> Z := sizes_of ["a"; "b"].
Lemma two_unambiguous : unambiguous two_sizes.
Proof.
  intros a b k l Ha%sizes_of_array Hb%sizes_of_array. unfold unique_name.
  rewrite !elem_of_cons, elem_of_nil in Ha, Hb. destruct Ha as [->|[->|[]]], Hb as [->|[->|[]]]; by cbn.
Qed.
Lemma two_core_ok : impl_ok two_sizes chain_core (z3_inv two_sizes).
Proof. exact (z3_solver_ok two_sizes true two_unambiguous (terms_reasons _)). Qed.
Definition ask (v : Z) := clover_getAssignment default_options FastCexSolver chain_core (two_bytes (byte_is byte_a v)).
Definition two_chain := snd (ask 7 new_chain).
Definition two_chain_inv := caching_inv (cex_inv two_sizes (z3_inv two_sizes)).

Lemma sample_askable v : ap_wf (AP 8 v) -> v = 7 \/ v = 9 -> askable (two_bytes (byte_is byte_a v)).
Proof.
  intros Hv Hcase. assert (forall σ, exists r, eval σ (byte_is byte_a v) = Some r) as He by (intros σ; by apply byte_is_eval).
  split.
  - intros e σ Hin Hr. exfalso. revert Hr. destruct Hcase as [-> | ->];
      repeat (apply elem_of_cons in Hin as [->|Hin]; [by vm_compute|]); by apply elem_of_nil in Hin.
  - intros σ _. repeat (constructor; [first [by apply byte_is_eval|by apply isZero_boolean, isZero_boolean]|]). constructor.
Qed.
Lemma chain_getAssignment_witness :
  two_chain_inv two_chain /\
  fst (ask 7 two_chain) = Ok (Some [(byte_a, [7]); (byte_a, [7]); (byte_b, [8])]) /\
  size (assignmentsTable (caching_solver two_chain)) = 2%nat.
Proof.
  split; [|split; vm_compute; reflexivity].
  refine (proj1 (chain_getAssignment two_sizes default_options FastCexSolver chain_core (z3_inv two_sizes) eq_refl
    (fast_cex_answers _ I) two_core_ok (two_bytes (byte_is byte_a 7)) new_chain _ _ _)).
  - by apply two_bytes_ok; [..|apply byte_is_ok].
  - apply sample_askable; [done|by left].
  - by eapply chain_new_inv, z3_new_inv.
Defined.
(** A byte without constraints: both outcomes are found, so the result is unknown. *)
Definition free_byte : Query := mkQuery [] (byte_is byte_a 7).
Lemma chain_eval_witness :
  let run := clover_eval default_options FastCexSolver chain_core free_byte new_chain in
  two_chain_inv (snd run) /\ fst run = Err UnknownSolverResult /\ may_be_true free_byte /\ may_be_false free_byte.
Proof.
  intros run. assert (fst run = Err UnknownSolverResult) as Hrun by (vm_compute; reflexivity).
  destruct (chain_eval two_sizes default_options FastCexSolver chain_core (z3_inv two_sizes) eq_refl
    (fast_cex_answers _ I) two_core_ok free_byte new_chain) as [Hinv Hans].
  - apply Forall_cons. split; [by apply byte_is_ok|by apply Forall_nil].
  - exists (fun _ _ => 0). by apply Forall_nil.
  - intros σ _. by apply byte_is_eval.
  - by eapply chain_new_inv, z3_new_inv.
  - fold run in Hinv, Hans. rewrite Hrun in Hans. by split.
Defined.
